(* ===== verification/_CoqProject ===== *)
-Q . S2P
Prelude.v
Doubles.v
Threads.v
BitSeq.v
RankSelect.v
Hashutil.v
PartitionedCounter.v
Blocks.v
BlockBits.v
Shifting.v
Layout.v
Locks.v
CounterCode.v
Runs.v
Insert.v
Remove.v
Repr.v
CounterIncrement.v
InsertSlot.v
InsertPlace.v
InsertOne.v
Iterator.v
Filter.v
FilterTheorems.v
ShiftBack.v
RemoveRun.v
RemoveTheorems.v
InsertRun.v
InsertTheorems.v
FilterHistory.v
Enumerate.v
Merge.v
FileStore.v
SafeString.v
CilkSync.v
Pairing.v
Fermat.v
PrimeGenerator.v
Bucket.v
AgmSketch.v
PamTree.v
PamOps.v
PamSets.v
PamMulti.v
PamStore.v
PamPrims.v
PamGC.v
PamJoin.v
PamSeq.v
PamMap.v
PamBulk.v
PamReads.v
PamAug.v
PamClass.v
PamReduce.v
PamClient.v
PamFaults.v
PamTheorems.v
Arrays.v
Btree.v
BtreeSearch.v
BtreeInsert.v
BtreeTree.v
BtreeFill.v
BtreeRemove.v
BtreeIter.v
BtreeTheorems.v
EdgeCode.v
EdgeLists.v
EdgeRepr.v
EdgeOps.v
EdgeTheorems.v
Pma.v
PmaSearch.v
PmaSpread.v
PmaDensity.v
PmaBalance.v
PmaUpdate.v
PmaGraph.v
PmaTheorems.v
