(* ===== verification/Prelude.v ===== *)
(** * A verification library for the GraphZeppelin experiments

    The repository compares GraphZeppelin with the graph systems Aspen and Terrace and
    holds their code, next to the experiments' own.  This development models the parts
    with logic of their own that is not a driver, a vendored utility or a template
    library, and proves what they promise.

    ** The program and the files

    The paths are under [src/].  T stands for [comparison_systems/terrace/code], K for
    [comparison_systems/aspen/code/cilkrts/runtime], S for [sketch_expr/agm_sketching],
    A for [comparison_systems/aspen/code/trees], G for [comparison_systems/aspen/code/graph].

    - The counting quotient filter of Terrace, [T/src/gqf].  A filter ([Blocks.QF]) is its
      run-time data, its metadata and its blocks; the blocks are the bytes of the C array
      read as one integer, so that the packed structures, unaligned 64-bit accesses and
      bit fields of the code are shifts and masks.
      [RankSelect] (rank_select.c and the word operations of gqf.c), [Hashutil]
      (hashutil.c), [Blocks] (slots, metadata bits, offsets, run_end, searches and shifts),
      [Locks] (qf_lock .. modify_metadata), [CounterCode] (encode_counter,
      decode_counter), [Insert] (insert1, insert), [Remove] (_remove), [Iterator],
      [Filter] (the qf_ functions of gqf.h), [Merge] (qf_merge .. qf_magnitude) and
      [FileStore] (gqf_file.c) translate the code; [Insert] calls [Blocks], [Locks] and
      [CounterCode], [Filter] calls all of them, [Merge] and [FileStore] call [Filter].
    - The partitioned counters of Terrace, [T/src/partitioned_counter.c]:
      [PartitionedCounter], as sequential functions and as interleaved instructions.
    - The graph sketches of the sketch experiment: [Pairing] (S/src/util.cpp),
      [PrimeGenerator] (S/include/prime_generator.h), [Bucket] (S/src/bucket.cpp) and
      [AgmSketch] (S/src/agm_sketch.cpp, S/include/agm_sketch.h).  The two compiled
      configurations and the library functions XXH64 and log2 are an interface,
      [Bucket.SketchEnv], with its laws in [Bucket.SketchEnvOk].
    - Parts of the Cilk runtime of Aspen: [SafeString] (K/sslib) and [CilkSync]
      (K/spin_mutex.c, K/worker_mutex.c, K/signal_node.c).
    - The search trees of Aspen, in which it keeps its graphs: persistent, balanced by
      weight, shared between maps and released by reference counts.  [PamStore] (A/gc.h,
      A/basic_node.h, A/augmented_node.h) has the nodes in an explicit store, a finite map
      from addresses, and a monad [mem] for the functions that change it; on it [PamJoin]
      (A/weight_balanced_tree.h, A/balance_utils.h), [PamSeq] (A/sequence_ops.h), [PamMap]
      (A/map_ops.h, searches and the operations on one key), [PamBulk] (A/map_ops.h, union
      to ranges), [PamAug] (A/augmented_ops.h), [PamClass] (A/map.h, A/augmented_map.h) and
      [PamReduce] (the iterations over nodes and the reductions over ranges of
      A/sequence_ops.h, A/map_ops.h and A/map.h) translate the code, each calling the ones before.  The entries are an interface,
      [PamTree.Entry], with its laws in [PamTree.EntryOk] and [PamAug.AugOk]; the allocator
      is one too, [PamStore.Allocator].
    - The B-trees in which Terrace keeps the neighbours of vertices of high degree,
      T/include/btree.h: [Btree] translates the nodes, searches, insertion, removal,
      traversals and iterators, on the programs over a heap of objects of [Arrays].
    - The lists of neighbours of Aspen's graphs, kept compressed in blocks of bytes that are
      shared and counted: [EdgeCode] (G/../common/compression.h, the codes) and [EdgeLists]
      (G/tree_plus/compressed_nodes_2.h, compressed_iter.h and compressed_lists.h: pools of
      blocks, readers, writers and the operations on lists), again on [Arrays].

    - The packed memory array in which Terrace keeps the neighbours of vertices of medium
      degree, T/src/PMA.cc and T/include/PMA.hpp: [Pma] translates the array with its leaves
      and density bounds, the spreading of windows, doubling and halving, the search, the
      operations on edges and vertices, construction, copies and iteration.

    [Arrays] (programs over a heap of objects; reading, writing and moving parts of arrays,
    sets of keys as sorted lists) serves the three.

    The other files carry the proofs: [BitSeq] counts bits of sequences, [BlockBits] reads
    the blocks as bit sequences ([view]), [Shifting] describes the shifts of slots,
    [Layout] says where the runs of a filter lie ([wf], [laid_out]), [Repr]
    says what a filter stores ([repr]), [Runs] relates a run to counted remainders
    ([run_code]), [CounterIncrement], [InsertSlot], [InsertPlace], [InsertOne] and
    [FilterTheorems] prove insertion and lookup, [Enumerate] iteration;
    [ShiftBack] says what is right about a single slot ([slot_ok]) and how the layout changes
    when a run gets shorter, and proves the loop that moves slots back, [RemoveRun]
    the replacement of a counter and the offsets, [RemoveTheorems] _remove; [InsertRun]
    composes the shifts that move slots into the next empty ones, says how the layout changes
    when a run gets longer and proves the replacement of a counter by a longer one,
    [InsertTheorems] insert, and [FilterHistory] histories of insertions and removals;
    [Threads] sums over thread pools, [Fermat] restates a theorem of MathComp, [Doubles]
    bounds products in double precision.
    For the trees, [PamTree], [PamOps], [PamSets] and [PamMulti] have the operations on
    trees as values, with what they do to the sequence of entries, to sortedness and to
    balance; [PamPrims] is the invariant of the store ([inv h F S]: the store holds exactly
    the trees [F] that someone owns and the detached nodes [S], and every reference count
    is the number of references); [PamPrims] and [PamGC] prove the primitive operations
    against it, [PamReads] the operations that only read, [PamClient] programs that use
    maps, [PamFaults] an instance and what goes wrong in some functions;
    [PamTheorems] collects the properties.
    For the B-trees, [BtreeSearch] describes the arrays of a node and the trees
    in the heap ([wf], [elems], [cells]) and proves the searches; [BtreeInsert], [BtreeFill],
    [BtreeRemove] and [BtreeIter] prove the operations on nodes, [BtreeTree] the height and
    insertion at the root; [BtreeTheorems] has the properties.
    For the edge lists, [EdgeRepr] says what a block holds ([node_is]) and what readers and
    writers have read and written, [EdgeOps] what the walks and merges compute, and
    [EdgeTheorems] states the properties for the references that a caller holds ([lists]).
    For the packed memory array, [PmaSearch] has the cells as a list of leaves ([cells], [weak])
    and proves the search, [PmaSpread] says how an array holds a graph ([lays]) and proves the
    moves within a leaf and over a window, [PmaDensity] the sizes and the bounds ([sized]) and
    the densities in double precision, [PmaBalance] the way up the windows ([balanced]),
    [PmaUpdate] insertion and removal at an index, [PmaGraph] the operations on edges ([stores]),
    and [PmaTheorems] vertices, iteration, histories and the properties.

    ** What is proved

    - The abstract state of a filter is a multiset of hashes, [InsertOne.holds].  A new
      filter is empty; [insert1] adds one copy of a hash, on every path (empty home slot,
      new remainder, new counter slot, increment in place, grown counter), and gives the
      locks back; [insert] adds any number of copies, finding the slots for the counter in
      the next empty ones; _remove lowers the count of one hash, gives back the slots and keeps the
      rest, or reports that the hash is absent (and then keeps its locks); a query returns
      the count; after any history of insertions and removals on a new filter the counts are
      those the history implies; an iterator enumerates the contents in the order of the hashes.
      The scans over the metadata ([run_end],
      [find_first_empty_slot], [offset_lower_bound]) find what the layout says, the
      counter code round-trips, the word-wise shift is the slot-by-slot loop.
    - Concurrency: region locks exclude each other, never deadlock, and failing to lock
      changes nothing; the partitioned counter loses no count and is accurate to its
      threshold; the Cilk mutexes exclude and no wake-up is lost, in all interleavings.
    - Sketches of vectors of at least two entries: modular powers are exact, sketches are
      linear and depend only on the vector, a vector with one non-zero entry is found and
      the zero vector is recognised; the pairing functions are exact and invertible.  The
      defects met on the way are theorems too (the primality test, batch updates, which
      seed a bucket by its number and not by its row, scaling, shifts past the width, and
      the division by zero that makes sketches of vectors of one entry useless).
    - Aspen's trees: each operation on the store computes what the operation on values
      does, keeps the other trees, and keeps the reference counts exact, so that nothing
      that is used is released and nothing is lost (specifications of the form
      [wp m Q h], which say that [m] returns).  Programs that assign to map variables refine the
      same assignments to functions from keys to values ([PamClient.represents]); trees
      stay sorted and balanced, hence of logarithmic depth, with the balance test made in
      double precision as in the code.  Rank and select, sums over ranges, reductions and iterations are
      exact.  The functions that break this are shown to: [keys], [if_exist] and
      [aug_filter] lose references, [update] releases one too many, [insert_lazy] computes
      wrong sums.
    - Terrace's B-trees: search, insertion and removal do what they do to a set of keys, the
      iterator lists the keys in order, and the store always holds exactly the nodes of the
      tree ([BtreeTheorems.represents]), so that no node is lost.  Insertion fails this when
      the key is in the middle of a full root: it is then inserted twice, which is a theorem.
    - Aspen's edge lists: the codes round-trip, so that a walk meets the neighbours a list was
      made of; union, difference, split and intersection compute those sets and leave their
      arguments; the counts are exact, each block returns to the pool it came from when the last
      reference is given up, and nothing is left at the end.  This holds for lists of at most
      [EdgeRepr.max_degree] neighbours, the largest for which a new block fits a pool; beyond,
      a block may be returned to the wrong pool, which is a theorem too.
    - Terrace's packed memory array: histories of additions and removals, singly and in
      batches, and copies return what the same operations on sorted lists of edges do, and
      searches, iteration and listings read the result; no leaf ever fills up.  The bounds of
      the densities are computed as in the code and checked for each size of array.  The last
      vertex is not covered: its edges can be lost, as an example shows.
    - The hash functions are injective where they claim to be invertible, files round-trip
      filters, the bounded string functions stay in bounds.

    ** Conventions

    C integers are integers with explicit wrap-around ([uwrap], [swrap], the scope
    [u64_scope]).  A function returns [None] where the code aborts, waits for ever or has
    undefined behaviour (an index out of range, a lock that is never released, a division by
    zero).  The blocks of a filter are an exception: they are one integer, and what is read
    past the last block is zero; the theorems on filters stay inside the blocks.  Loops
    whose length depends on data take fuel: [Blocks.scan_fuel], the number of slots, is
    enough for the scans of a filter since each round moves at least one slot ahead, and
    the specifications of the scans prove that they return; 64 rounds are enough for the
    digits of a 64-bit count and for nested resizes, which double the filter; the word
    size is enough for the bits of an exponent; the trees' functions need fuel above the depth,
    which is at most the size, and the theorems ask for the size and a constant.  The configuration is that of the build:
    [QF_BITS_PER_SLOT] is 0 and assertions are off.
    In the trees, calls that the code forks run one after the other, left first; pointers
    and reference counts are unbounded, sizes have their 32 bits; arguments of a call are
    evaluated from left to right; copying an entry is the identity; the collector is
    initialised.  A B-tree has at most six levels ([BtreeTree.levels]), since 32-bit keys are
    at most [2^32] and every inner node but the root has 64 children; [new] returns any free
    address, what a copy reads beyond the end of a node is an argument ([past_end]), and
    copies of overlapping regions with memcpy are taken to move them.
    Edges have 64 bits and vertices 32 (EDGELONG), a pool never runs out, freeing a block to
    another pool is undefined, and what a new block ([junk]) or field ([unset]) holds is an
    argument; the loops of the edge lists run as many rounds as there are neighbours.  The packed memory array has at most [2 ^ 32] cells, runs one task at a time, so that
    every lock is free when it is taken, and its loops run at most as often as there are
    cells; removal is proved for graphs of at least five vertices, since with fewer the array
    may be halved below what the code can spread.  A function of map.h that takes a map by value is modelled for a caller
    that keeps its object: it copies the object first.

    ** Not modelled

    The Cilk scheduler, its fibers, exceptions and system layers (stack switching,
    assembly, threads), the reducers and the other template libraries, the locks
    and the parallel merges of Terrace's packed memory array and the graph on top of it, B-trees with weights, the trees of chunks
    over Aspen's edge lists, its graphs and algorithms, its list allocator and the construction of maps from unsorted input (build.h, which rests on
    the sorts of PBBS), vendored utilities (Google's B-trees, logging, sorting), and the
    drivers of the experiments.  Failing system calls of gqf_file.c, debug dumps and
    the printing of sketches are left out.  Of the filter, the merges are translated but not
    proved, [insert] is proved for slots of at least three bits, and _remove for filters none
    of whose runs reaches the last block, where the code may read the offset of the block
    after it. *)

From Stdlib Require Export ZArith Lia List Bool Btauto Morphisms Setoid.
Import ListNotations.
#[local] Open Scope Z_scope.

(** ** Machine words

    A C integer of width [w] is a [Z]; an unsigned operation is the
    mathematical one followed by [uwrap w]. *)

Definition uwrap (w x : Z) : Z := x mod 2 ^ w.

(** The two's complement reading of the low [w] bits (a cast to a signed type). *)
Definition swrap (w x : Z) : Z := (x + 2 ^ (w - 1)) mod 2 ^ w - 2 ^ (w - 1).

Definition u64 (x : Z) : Z := uwrap 64 x.
Definition u32 (x : Z) : Z := uwrap 32 x.
Definition u16 (x : Z) : Z := uwrap 16 x.
Definition u8 (x : Z) : Z := uwrap 8 x.
Definition i64 (x : Z) : Z := swrap 64 x.
Definition i32 (x : Z) : Z := swrap 32 x.

Declare Scope u64_scope.
Delimit Scope u64_scope with u64.

(** [uint64_t] arithmetic: inside [(...)%u64] the operators are C's. *)
Definition add64 (a b : Z) : Z := u64 (a + b).
Definition sub64 (a b : Z) : Z := u64 (a - b).
Definition mul64 (a b : Z) : Z := u64 (a * b).
Definition shl64 (a n : Z) : Z := u64 (Z.shiftl a n).
Definition not64 (a : Z) : Z := u64 (Z.lnot a).

Notation "a + b" := (add64 a%u64 b%u64) : u64_scope.
Notation "a - b" := (sub64 a%u64 b%u64) : u64_scope.
Notation "a * b" := (mul64 a%u64 b%u64) : u64_scope.
Notation "a <<< n" := (shl64 a%u64 n%u64) (at level 54, left associativity) : u64_scope.
Notation "a >>> n" := (Z.shiftr a%u64 n%u64) (at level 54, left associativity) : u64_scope.
Notation "a .& b" := (Z.land a%u64 b%u64) (at level 56, left associativity) : u64_scope.
Notation "a .^ b" := (Z.lxor a%u64 b%u64) (at level 57, left associativity) : u64_scope.
Notation "a .| b" := (Z.lor a%u64 b%u64) (at level 58, left associativity) : u64_scope.
Notation ".~ a" := (not64 a%u64) (at level 35, right associativity) : u64_scope.

(** [x] fits an unsigned integer of [w] bits. *)
Definition fits (w x : Z) : Prop := 0 <= x < 2 ^ w.

(** ** Option monad *)

Notation "'let?' x := c 'in' k" :=
  (match c with Some x => k | None => None end)
  (at level 10, x pattern, c at level 100, k at level 200).

(** ** Loops with fuel

    [while_fuel n c b s] runs [while (c) b] from state [s]; [None] means that
    [n] iterations were not enough. *)
Fixpoint while_fuel {S : Type} (fuel : nat) (cond : S -> bool) (body : S -> S)
    (s : S) : option S :=
  if cond s then
    match fuel with
    | O => None
    | Datatypes.S n => while_fuel n cond body (body s)
    end
  else Some s.

(** ** Bits *)

Lemma testbit_fits w x i : 0 <= w -> fits w x -> w <= i -> Z.testbit x i = false.
Proof.
  intros Hw [H0 H1] Hi. rewrite <- (Z.mod_small x (2 ^ w)) by lia.
  apply Z.mod_pow2_bits_high. lia.
Qed.

Lemma testbit_mod_pow2 x w i :
  0 <= w -> Z.testbit (x mod 2 ^ w) i = (i <? w) && Z.testbit x i.
Proof.
  intros Hw. destruct (Z.ltb_spec i w); simpl.
  - apply Z.mod_pow2_bits_low; lia.
  - apply Z.mod_pow2_bits_high; lia.
Qed.

Lemma testbit_shiftl x n i :
  Z.testbit (Z.shiftl x n) i = (0 <=? i) && Z.testbit x (i - n).
Proof.
  destruct (Z.leb_spec 0 i); simpl.
  - apply Z.shiftl_spec; lia.
  - apply Z.testbit_neg_r; lia.
Qed.

Lemma testbit_shiftr x n i :
  Z.testbit (Z.shiftr x n) i = (0 <=? i) && Z.testbit x (i + n).
Proof.
  destruct (Z.leb_spec 0 i); simpl.
  - apply Z.shiftr_spec; lia.
  - apply Z.testbit_neg_r; lia.
Qed.

Lemma testbit_lnot x i : Z.testbit (Z.lnot x) i = (0 <=? i) && negb (Z.testbit x i).
Proof.
  destruct (Z.leb_spec 0 i); simpl.
  - apply Z.lnot_spec; lia.
  - apply Z.testbit_neg_r; lia.
Qed.

Lemma testbit_ones w i :
  0 <= w -> Z.testbit (Z.ones w) i = (0 <=? i) && (i <? w).
Proof.
  intros Hw. destruct (Z.leb_spec 0 i); simpl.
  - destruct (Z.ltb_spec i w); [apply Z.ones_spec_low | apply Z.ones_spec_high]; lia.
  - apply Z.testbit_neg_r; lia.
Qed.

Lemma fits_testbit w x :
  0 <= w -> 0 <= x -> (forall i, w <= i -> Z.testbit x i = false) -> fits w x.
Proof.
  intros Hw Hx H. split; [lia|].
  destruct (Z.eq_dec x 0) as [->|Hnz]; [lia|].
  apply Z.log2_lt_pow2; [lia|].
  destruct (Z.lt_ge_cases (Z.log2 x) w) as [Hl|Hl]; [assumption|].
  specialize (H _ Hl). rewrite Z.bit_log2 in H by lia. discriminate.
Qed.

Lemma u64_fits x : fits 64 (u64 x).
Proof. apply Z.mod_pos_bound; lia. Qed.

Lemma uwrap_small w x : fits w x -> uwrap w x = x.
Proof. intros H. apply Z.mod_small, H. Qed.

Lemma i32_small x : - 2 ^ 31 <= x < 2 ^ 31 -> i32 x = x.
Proof.
  intros H. unfold i32, swrap. change (32 - 1) with 31. rewrite Z.mod_small by lia. lia.
Qed.

Lemma i64_small x : - 2 ^ 63 <= x < 2 ^ 63 -> i64 x = x.
Proof.
  intros H. unfold i64, swrap. change (64 - 1) with 63. rewrite Z.mod_small by lia. lia.
Qed.

Lemma u64_small x : fits 64 x -> u64 x = x.
Proof. apply uwrap_small. Qed.

Lemma add64_small a b : 0 <= a -> 0 <= b -> a + b < 2 ^ 64 -> (a + b)%u64 = (a + b)%Z.
Proof. intros. unfold add64. apply u64_small. unfold fits. lia. Qed.

Lemma sub64_small a b : 0 <= b <= a -> a < 2 ^ 64 -> (a - b)%u64 = (a - b)%Z.
Proof. intros. unfold sub64. apply u64_small. unfold fits. lia. Qed.

Lemma uwrap_fits w x : 0 <= w -> fits w (uwrap w x).
Proof. intros H. apply Z.mod_pos_bound. apply Z.pow_pos_nonneg; lia. Qed.

Lemma mod_fits w x : 0 <= w -> fits w (x mod 2 ^ w).
Proof. apply uwrap_fits. Qed.

(** A high part put above a [w]-bit low part. *)
Lemma lor_shiftl_add w a t : 0 <= w -> fits w a -> Z.lor a (Z.shiftl t w) = a + 2 ^ w * t.
Proof.
  intros Hw Ha. rewrite <- (Z.mul_comm t), <- Z.shiftl_mul_pow2 by lia.
  rewrite <- Z.add_lor_land. replace (Z.land a (Z.shiftl t w)) with 0; [lia|].
  symmetry. apply Z.bits_inj'. intros i Hi.
  rewrite Z.land_spec, testbit_shiftl, Z.testbit_0_l.
  destruct (Z.lt_ge_cases i w).
  - rewrite (Z.testbit_neg_r t) by lia. now rewrite !andb_false_r.
  - rewrite (testbit_fits w a) by (auto; lia). reflexivity.
Qed.

Lemma fits_mono w w' x : w <= w' -> fits w x -> fits w' x.
Proof.
  intros Hw [H0 H1]. split; [lia|].
  eapply Z.lt_le_trans; [exact H1|]. apply Z.pow_le_mono_r; lia.
Qed.

(** A value masked by [2^w - 1] is the value modulo [2^w]. *)
Lemma land_mask w x : 0 <= w -> Z.land x (2 ^ w - 1) = x mod 2 ^ w.
Proof.
  intros Hw. rewrite <- Z.land_ones by lia. f_equal. rewrite Z.ones_equiv. lia.
Qed.

Lemma mod_mod_pow2 x w v : 0 <= v <= w -> (x mod 2 ^ w) mod 2 ^ v = x mod 2 ^ v.
Proof.
  intros H. apply Z.bits_inj'. intros i Hi. rewrite !testbit_mod_pow2 by lia.
  destruct (Z.ltb_spec i v), (Z.ltb_spec i w); simpl; try reflexivity; lia.
Qed.

Lemma lxor_fits w x y : 0 <= w -> fits w x -> fits w y -> fits w (Z.lxor x y).
Proof.
  intros Hw Hx Hy. apply fits_testbit; [lia| |].
  - apply Z.lxor_nonneg. destruct Hx, Hy. lia.
  - intros i Hi. rewrite Z.lxor_spec, (testbit_fits w x), (testbit_fits w y); auto.
Qed.

Lemma land_fits_l w x y : 0 <= w -> fits w x -> fits w (Z.land x y).
Proof.
  intros Hw Hx. apply fits_testbit; [lia| |].
  - apply Z.land_nonneg. destruct Hx. lia.
  - intros i Hi. rewrite Z.land_spec, (testbit_fits w x); auto.
Qed.

Lemma lor_fits w x y : 0 <= w -> fits w x -> fits w y -> fits w (Z.lor x y).
Proof.
  intros Hw Hx Hy. apply fits_testbit; [lia| |].
  - apply Z.lor_nonneg. destruct Hx, Hy. lia.
  - intros i Hi. rewrite Z.lor_spec, (testbit_fits w x), (testbit_fits w y); auto.
Qed.

Lemma shiftr_fits w x n : 0 <= w -> 0 <= n -> fits w x -> fits w (Z.shiftr x n).
Proof.
  intros Hw Hn [H0 H1]. split.
  - apply Z.shiftr_nonneg; lia.
  - rewrite Z.shiftr_div_pow2 by lia.
    apply Z.le_lt_trans with x; [|lia].
    apply Z.div_le_upper_bound; [apply Z.pow_pos_nonneg; lia|].
    assert (1 <= 2 ^ n) by (apply (Z.pow_le_mono_r 2 0 n); lia). nia.
Qed.

(** Bits of a word shifted past its width vanish. *)
Lemma shiftr_fits_0 w x n : 0 <= w <= n -> fits w x -> Z.shiftr x n = 0.
Proof.
  intros Hw Hx. apply Z.bits_inj'. intros i Hi.
  rewrite testbit_shiftr, Z.testbit_0_l.
  rewrite (testbit_fits w x) by (auto; lia). apply andb_false_r.
Qed.

Create HintDb words discriminated.
Create Rewrite HintDb bits.
#[export] Hint Resolve u64_fits uwrap_fits mod_fits lxor_fits land_fits_l lor_fits shiftr_fits : words.
#[export] Hint Rewrite testbit_mod_pow2 testbit_shiftl testbit_shiftr testbit_lnot
  testbit_ones Z.land_spec Z.lor_spec Z.lxor_spec Z.ldiff_spec Z.testbit_0_l
  using lia : bits.

(** Reduces an equation of integers to their bits and splits on every comparison
    between bit positions. *)
Ltac split_pos :=
  repeat match goal with
  | |- context [?a <? ?b] => destruct (Z.ltb_spec a b); try lia
  | |- context [?a <=? ?b] => destruct (Z.leb_spec a b); try lia
  end; cbn [andb orb negb xorb].

Ltac bits :=
  apply Z.bits_inj'; intros ?i ?Hi; autorewrite with bits; split_pos;
  try btauto.

(** ** Congruence modulo a power of two

    The wrap-around operations are ring operations up to [eqw w]; rewriting with
    the instances below pushes the reductions out of an expression. *)

Definition eqw (w x y : Z) : Prop := x mod 2 ^ w = y mod 2 ^ w.

#[export] Instance eqw_equivalence w : Equivalence (eqw w).
Proof. split; red; unfold eqw; congruence. Qed.

#[export] Instance add_eqw w : Proper (eqw w ==> eqw w ==> eqw w) Z.add.
Proof. intros a b H c d H'. unfold eqw in *. rewrite Zplus_mod, H, H', <- Zplus_mod. reflexivity. Qed.

#[export] Instance mul_eqw w : Proper (eqw w ==> eqw w ==> eqw w) Z.mul.
Proof. intros a b H c d H'. unfold eqw in *. rewrite Zmult_mod, H, H', <- Zmult_mod. reflexivity. Qed.

#[export] Instance sub_eqw w : Proper (eqw w ==> eqw w ==> eqw w) Z.sub.
Proof. intros a b H c d H'. unfold eqw in *. rewrite Zminus_mod, H, H', <- Zminus_mod. reflexivity. Qed.

Lemma eqw_mod w v x : 0 <= w <= v -> eqw w (x mod 2 ^ v) x.
Proof. intros H. apply mod_mod_pow2; lia. Qed.

Lemma eqw_u64 w x : 0 <= w <= 64 -> eqw w (u64 x) x.
Proof. apply eqw_mod. Qed.

Lemma eq_eqw w x y : x = y -> eqw w x y.
Proof. intros ->. reflexivity. Qed.

Lemma eqw_lnot x : Z.lnot x = -1 - x.
Proof. unfold Z.lnot. lia. Qed.

Lemma eqw_mul_pow w v x : 0 <= w <= v -> eqw w (x * 2 ^ v) 0.
Proof.
  intros H. unfold eqw. replace v with (v - w + w) by lia.
  rewrite Z.pow_add_r, Z.mul_assoc, Z.mod_mul by lia. symmetry. apply Z.mod_0_l. lia.
Qed.

Lemma eqw_fits w x y : eqw w x y -> fits w x -> fits w y -> x = y.
Proof. unfold eqw. intros H Hx Hy. rewrite !Z.mod_small in H; auto. Qed.

(** Pushes every wrap-around out of a congruence and closes it by [ring]. *)
Ltac eqw_ring :=
  unfold add64, sub64, mul64, shl64, not64;
  repeat (rewrite eqw_u64 by lia);
  rewrite ?eqw_lnot, ?Z.shiftl_mul_pow2 by lia;
  repeat (rewrite eqw_u64 by lia);
  apply eq_eqw; ring.

(** Replaces the value of the outermost [let] of the left-hand side by [e] (the
    equation is left as a second goal) and enters the body. *)
Ltac let_step e :=
  lazymatch goal with
  | |- (let x := ?v in @?b x) = ?r =>
      let H := fresh in
      assert (H : v = e); [|change (b v = r); rewrite H; clear H; cbv beta]
  end.

#[export] Hint Extern 1 (_ <= _) => lia : words.
#[export] Hint Extern 1 (_ < _) => lia : words.
#[export] Hint Extern 1 (_ /\ _) => lia : words.
#[export] Hint Extern 6 (fits _ _) => solve [unfold fits in *; lia] : words.

(** Closes goals [fits w e] by the structure of [e] (extended through the [words]
    database) and their side conditions by [lia]. *)
Ltac solve_fits := auto 14 with words.

(** Substitutes the value of the outermost [let] of the left-hand side. *)
Ltac enter_let :=
  lazymatch goal with
  | |- (let x := ?v in @?b x) = ?r => change (b v = r); cbv beta
  end.

(** ** Little-endian bytes *)

(** The integer a little-endian load reads from bytes [bs]. *)
Fixpoint le_word (bs : list Z) : Z :=
  match bs with
  | [] => 0
  | b :: t => b + 256 * le_word t
  end.

(** The bytes of a little-endian integer object of [n] bytes. *)
Fixpoint bytes_of (n : nat) (x : Z) : list Z :=
  match n with
  | O => []
  | S n => x mod 256 :: bytes_of n (x / 256)
  end.

Lemma length_bytes_of n x : length (bytes_of n x) = n.
Proof. revert x; induction n; simpl; auto. Qed.

Lemma le_word_bytes_of n x :
  fits (8 * Z.of_nat n) x -> le_word (bytes_of n x) = x.
Proof.
  revert x. induction n as [|n IH]; intros x Hx; cbn [bytes_of le_word].
  - destruct Hx. change (8 * Z.of_nat 0) with 0 in *. lia.
  - rewrite IH; [pose proof (Z.div_mod x 256); lia|].
    destruct Hx as [H0 H1]. split; [apply Z.div_pos; lia|].
    apply Z.div_lt_upper_bound; [lia|].
    replace (8 * Z.of_nat (S n)) with (8 + 8 * Z.of_nat n) in H1 by lia.
    rewrite Z.pow_add_r in H1 by lia. exact H1.
Qed.

Lemma bytes_of_fits n x : Forall (fits 8) (bytes_of n x).
Proof.
  revert x; induction n as [|n IH]; intros x; cbn [bytes_of]; constructor; [|apply IH].
  apply (mod_fits 8); lia.
Qed.

Lemma le_word_nonneg bs : Forall (fits 8) bs -> 0 <= le_word bs.
Proof. induction 1 as [|b t [H _]]; cbn [le_word]; lia. Qed.

Lemma testbit_byte_cons b t i :
  fits 8 b -> Z.testbit (b + 256 * t) i =
  if i <? 8 then Z.testbit b i else Z.testbit t (i - 8).
Proof.
  intros Hb. change 256 with (2 ^ 8). rewrite <- lor_shiftl_add by (auto; lia).
  rewrite Z.lor_spec, testbit_shiftl. destruct (Z.ltb_spec i 8).
  - rewrite (Z.testbit_neg_r t) by lia. now rewrite andb_false_r, orb_false_r.
  - rewrite (testbit_fits 8 b) by (auto; lia). destruct (Z.leb_spec 0 i); [reflexivity|lia].
Qed.

(** The masks of broadword code act byte by byte. *)
Lemma le_word_shiftr_land s m bs :
  0 <= s <= 8 -> fits (8 - s) m -> Forall (fits 8) bs ->
  Z.land (Z.shiftr (le_word bs) s) (le_word (repeat m (length bs))) =
  le_word (map (fun b => Z.land (Z.shiftr b s) m) bs).
Proof.
  intros Hs Hm. assert (Hm8 : fits 8 m) by (eapply fits_mono; [|exact Hm]; lia).
  induction 1 as [|b t Hb Ht IH]; cbn [length repeat map le_word].
  - rewrite Z.shiftr_0_l. reflexivity.
  - rewrite <- IH.
    assert (Hl : fits 8 (Z.land (Z.shiftr b s) m)) by solve_fits.
    apply Z.bits_inj'. intros i Hi.
    rewrite Z.land_spec, testbit_shiftr, !testbit_byte_cons by assumption.
    rewrite !Z.land_spec, !testbit_shiftr.
    destruct (Z.ltb_spec i 8), (Z.ltb_spec (i + s) 8); try lia.
    + reflexivity.
    + rewrite (testbit_fits (8 - s) m) by (auto; lia). now rewrite !andb_false_r.
    + replace (i + s - 8) with (i - 8 + s) by lia.
      destruct (Z.leb_spec 0 i), (Z.leb_spec 0 (i - 8)); (lia || reflexivity).
Qed.

Lemma le_word_land m bs :
  fits 8 m -> Forall (fits 8) bs ->
  Z.land (le_word bs) (le_word (repeat m (length bs))) =
  le_word (map (fun b => Z.land b m) bs).
Proof. intros Hm Hb. apply (le_word_shiftr_land 0); auto; lia. Qed.

Lemma le_word_add (f g : Z -> Z) bs :
  le_word (map f bs) + le_word (map g bs) = le_word (map (fun b => f b + g b) bs).
Proof. induction bs as [|b t IH]; cbn [map le_word]; lia. Qed.

Lemma le_word_sub (f g : Z -> Z) bs :
  le_word (map f bs) - le_word (map g bs) = le_word (map (fun b => f b - g b) bs).
Proof. induction bs as [|b t IH]; cbn [map le_word]; lia. Qed.

Lemma le_word_fits bs : Forall (fits 8) bs -> fits (8 * Z.of_nat (length bs)) (le_word bs).
Proof.
  induction 1 as [|b t Hb Ht IH]; cbn [length le_word].
  - change (8 * Z.of_nat 0) with 0. unfold fits; lia.
  - replace (8 * Z.of_nat (S (length t))) with (8 + 8 * Z.of_nat (length t)) by lia.
    unfold fits in *. rewrite Z.pow_add_r by lia. change (2 ^ 8) with 256 in *. nia.
Qed.

Lemma le_word_byte bs i :
  Forall (fits 8) bs ->
  Z.land (Z.shiftr (le_word bs) (8 * Z.of_nat i)) 255 = nth i bs 0.
Proof.
  change 255 with (2 ^ 8 - 1). rewrite land_mask by lia.
  revert bs. induction i as [|i IH]; intros bs H.
  - rewrite Z.mul_0_r, Z.shiftr_0_r. destruct H as [|b t Hb Ht]; [reflexivity|].
    cbn [le_word nth]. change 256 with (2 ^ 8).
    rewrite (Z.mul_comm (2 ^ 8)), Z.mod_add by lia. apply Z.mod_small, Hb.
  - destruct H as [|b t Hb Ht]; [now rewrite Z.shiftr_0_l|]. cbn [nth le_word].
    rewrite <- IH by exact Ht. f_equal.
    replace (8 * Z.of_nat (S i)) with (8 + 8 * Z.of_nat i) by lia.
    rewrite <- Z.shiftr_shiftr by lia. f_equal.
    apply Z.bits_inj'. intros j Hj. rewrite testbit_shiftr, testbit_byte_cons by exact Hb.
    destruct (Z.leb_spec 0 j), (Z.ltb_spec (j + 8) 8); try lia. cbn [andb]. f_equal; lia.
Qed.

(** A decidable fact about every integer of [0 .. n - 1] is checked by evaluation. *)
Lemma forall_below (P : Z -> bool) n :
  forallb P (map Z.of_nat (seq 0 n)) = true -> forall z, 0 <= z < Z.of_nat n -> P z = true.
Proof.
  intros H z Hz. rewrite forallb_forall in H. apply H.
  rewrite <- (Z2Nat.id z) by lia. apply in_map, in_seq. lia.
Qed.

Lemma land_u64 x m : fits 64 m -> Z.land (u64 x) m = Z.land x m.
Proof.
  intros Hm. unfold u64, uwrap. apply Z.bits_inj'. intros i Hi.
  rewrite !Z.land_spec, testbit_mod_pow2 by lia.
  destruct (Z.ltb_spec i 64); [reflexivity|].
  rewrite (testbit_fits 64 m) by (auto; lia). now rewrite !andb_false_r.
Qed.

Lemma le_word_inj_8 x : fits 64 x -> x = le_word (bytes_of 8 x).
Proof. intros H. symmetry. apply le_word_bytes_of. exact H. Qed.

(** Case analysis on the comparisons of the goal, dropping the impossible cases. *)
Ltac split_cmp :=
  match goal with
  | |- context [?a <=? ?b] => destruct (Z.leb_spec a b); try (exfalso; lia)
  | |- context [?a <? ?b] => destruct (Z.ltb_spec a b); try (exfalso; lia)
  | |- context [?a =? ?b] => destruct (Z.eqb_spec a b); try (exfalso; lia)
  end.
Ltac split_cmps := repeat split_cmp; cbn [andb orb negb].

(** ** Arrays as lists *)

(** [a[n] = x]; nothing happens out of range. *)
Fixpoint set_nth {A : Type} (n : nat) (x : A) (l : list A) : list A :=
  match n, l with
  | _, [] => []
  | O, _ :: l => x :: l
  | S n, y :: l => y :: set_nth n x l
  end.

Fixpoint remove_nth {A : Type} (n : nat) (l : list A) : list A :=
  match n, l with
  | _, [] => []
  | O, _ :: l => l
  | S n, y :: l => y :: remove_nth n l
  end.

Lemma length_set_nth {A : Type} n (x : A) l : length (set_nth n x l) = length l.
Proof. revert n; induction l as [|y l IH]; intros [|n]; cbn; auto. Qed.

Lemma nth_set_nth {A : Type} n m (x d : A) l :
  nth m (set_nth n x l) d = if ((n =? m) && (n <? length l))%nat then x else nth m l d.
Proof.
  revert n m; induction l as [|y l IH]; intros [|n] [|m]; cbn; auto.
  all: try (destruct (n =? m)%nat; reflexivity).
Qed.

Lemma set_nth_app {A : Type} (l l' : list A) x y : set_nth (length l) y (l ++ x :: l') = l ++ y :: l'.
Proof. induction l as [|z l IH]; cbn; [reflexivity|now rewrite IH]. Qed.

Lemma set_nth_same {A : Type} n (x : A) l : nth_error l n = Some x -> set_nth n x l = l.
Proof.
  revert l; induction n as [|n IH]; intros [|y l] H; cbn in *; try discriminate.
  - now injection H as ->.
  - now rewrite IH.
Qed.
