(* ===== verification/Doubles.v ===== *)
(** * Double-precision arithmetic

    Doubles are those of the Standard Library's [SpecFloat], with 53 bits of precision.
    Integers below [2 ^ 53] are exact, and a product is the double nearest to the exact
    product; comparisons of integers with products are exact when the difference is not
    too small. *)

From S2P Require Import Prelude.
From Stdlib Require Import SpecFloat.
#[local] Open Scope Z_scope.

Definition f64 (n : Z) : spec_float := binary_normalize 53 1024 n 0 false.
Definition f64_mul := SFmul 53 1024.
Definition f64_add := SFadd 53 1024.
Definition f64_sub := SFsub 53 1024.
Definition f64_div := SFdiv 53 1024.
Definition f64_sqrt := SFsqrt 53 1024.

(** ** Digits and shifts *)

Lemma digits2_bounds p : 2 ^ (Z.pos (digits2_pos p) - 1) <= Z.pos p < 2 ^ Z.pos (digits2_pos p).
Proof.
  induction p as [p IH|p IH|]; cbn [digits2_pos]; [| |cbn; lia];
    rewrite Pos2Z.inj_succ; unfold Z.succ; rewrite Z.add_simpl_r, Z.pow_add_r by lia;
    replace (Z.pos (digits2_pos p)) with (Z.pos (digits2_pos p) - 1 + 1) in * by lia;
    rewrite Z.pow_add_r in * by lia; rewrite Z.add_simpl_r in *; lia.
Qed.

Lemma digits2_unique p d : 2 ^ (d - 1) <= Z.pos p < 2 ^ d -> 1 <= d -> Z.pos (digits2_pos p) = d.
Proof.
  intros H Hd. pose proof (digits2_bounds p) as B. set (x := Z.pos (digits2_pos p)) in *.
  assert (1 <= x) by (unfold x; lia).
  destruct (Z.lt_trichotomy x d) as [L|[E|G]]; [|exact E|]; exfalso.
  - pose proof (Z.pow_le_mono_r 2 x (d - 1)). lia.
  - pose proof (Z.pow_le_mono_r 2 d (x - 1)). lia.
Qed.

Lemma iter_pos_nat {A} (f : A -> A) n : forall x, iter_pos f n x = Nat.iter (Pos.to_nat n) f x.
Proof.
  induction n as [n IH|n IH|]; intros x; cbn [iter_pos]; [| |reflexivity]; rewrite !IH, <- Nat.iter_add.
  - rewrite <- Nat.iter_succ_r, Pos2Nat.inj_xI. f_equal. lia.
  - rewrite Pos2Nat.inj_xO. f_equal. lia.
Qed.

(** A mantissa shifted by [k] bits, with its rounding bits. *)
Definition shifted (p : Z) (k : nat) (mrs : shr_record) : Prop :=
  let b := 2 ^ Z.of_nat k in
  shr_m mrs = p / b
  /\ match k with
     | O => shr_r mrs = false /\ shr_s mrs = false
     | S k => shr_r mrs = (2 ^ Z.of_nat k <=? p mod b) /\ shr_s mrs = negb (p mod b mod 2 ^ Z.of_nat k =? 0)
     end.

Lemma shr_1_shifted p k mrs : 0 <= p -> shifted p k mrs -> shifted p (S k) (shr_1 mrs).
Proof.
  intros Hp [Hm Hrs]. unfold shifted. rewrite Nat2Z.inj_succ, Z.pow_succ_r by lia. set (b := 2 ^ Z.of_nat k) in *.
  assert (Hb : 0 < b) by (apply Z.pow_pos_nonneg; lia).
  pose proof (Z.div_mod p b ltac:(lia)) as D. pose proof (Z.mod_pos_bound p b Hb) as M.
  assert (Hq : 0 <= p / b) by (apply Z.div_pos; lia).
  assert (Hdiv : p / (2 * b) = p / b / 2) by (rewrite (Z.mul_comm 2), Z.div_div by lia; reflexivity).
  assert (Hmod : p mod (2 * b) = b * ((p / b) mod 2) + p mod b).
  { rewrite (Z.mul_comm 2), Z.rem_mul_r by lia. lia. }
  assert (Hsticky : orb (shr_r mrs) (shr_s mrs) = negb (p mod b =? 0)).
  { destruct k as [|k].
    - destruct Hrs as [-> ->]. cbn in b. subst b. rewrite Z.mod_1_r. reflexivity.
    - destruct Hrs as [-> ->]. set (c := 2 ^ Z.of_nat k) in *. assert (0 < c) by (apply Z.pow_pos_nonneg; lia).
      assert (b = 2 * c) by (unfold b, c; rewrite Nat2Z.inj_succ, Z.pow_succ_r by lia; reflexivity).
      destruct (Z.leb_spec c (p mod b)); cbn [orb]; [destruct (Z.eqb_spec (p mod b) 0); [lia|reflexivity]|].
      now rewrite (Z.mod_small (p mod b) c) by lia. }
  assert (R : (b <=? p mod (2 * b)) = negb ((p / b) mod 2 =? 0) /\ p mod (2 * b) mod b = p mod b).
  { rewrite Hmod. pose proof (Z.mod_pos_bound (p / b) 2 ltac:(lia)). split.
    - destruct (Z.leb_spec b (b * ((p / b) mod 2) + p mod b)), (Z.eqb_spec ((p / b) mod 2) 0); cbn; nia.
    - rewrite Z.add_comm, Z.mul_comm, Z.mod_add, Z.mod_mod by lia. reflexivity. }
  destruct R as [R1 R2]. rewrite R1, R2, Hdiv. rewrite <- Hsticky.
  destruct mrs as [m r s]. cbn [shr_m shr_r shr_s] in *. subst m. unfold shr_1.
  destruct (p / b) as [|[q|q|]|q] eqn:Eq; try lia; cbn [shr_m shr_r shr_s]; repeat split.
  - rewrite (Pos2Z.inj_xI q). replace (2 * Z.pos q + 1) with (1 + Z.pos q * 2) by lia. now rewrite Z.div_add by lia.
  - rewrite (Pos2Z.inj_xI q). replace (2 * Z.pos q + 1) with (1 + Z.pos q * 2) by lia. now rewrite Z.mod_add by lia.
  - rewrite (Pos2Z.inj_xO q), (Z.mul_comm 2). now rewrite Z.div_mul by lia.
  - rewrite (Pos2Z.inj_xO q), (Z.mul_comm 2). now rewrite Z.mod_mul by lia.
Qed.

Lemma shr_shifted p k : 0 <= p -> shifted p k (Nat.iter k shr_1 (Build_shr_record p false false)).
Proof.
  intros Hp. induction k as [|k IH]; [|cbn [Nat.iter nat_rect]; now apply shr_1_shifted].
  split; [cbn; now rewrite Z.div_1_r|auto].
Qed.

(** Rounding to nearest, ties to even, is within half a unit. *)
Lemma round_shifted p k mrs : 0 <= p -> shifted p (S k) mrs ->
  let b := 2 ^ Z.of_nat (S k) in
  let q := round_nearest_even (shr_m mrs) (loc_of_shr_record mrs) in
  (q = p / b \/ q = p / b + 1) /\ Z.abs (2 * (q * b - p)) <= b.
Proof.
  intros Hp [Hm [Hr Hs]] b q. subst q. destruct mrs as [m r s]. cbn [shr_m shr_r shr_s] in *. fold b in Hm, Hr, Hs. subst m.
  set (c := 2 ^ Z.of_nat k) in *. assert (0 < c) by (apply Z.pow_pos_nonneg; lia).
  assert (Eb : b = 2 * c) by (unfold b, c; rewrite Nat2Z.inj_succ, Z.pow_succ_r by lia; reflexivity).
  pose proof (Z.div_mod p b ltac:(lia)) as D. pose proof (Z.mod_pos_bound p b ltac:(lia)) as M.
  pose proof (Z.div_mod (p mod b) c ltac:(lia)) as D2. pose proof (Z.mod_pos_bound (p mod b) c ltac:(lia)) as M2.
  destruct (Z.leb_spec c (p mod b)) as [L|L]; subst r; destruct (Z.eqb_spec (p mod b mod c) 0) as [Z0|Z0]; subst s; cbn [negb loc_of_shr_record round_nearest_even].
  - assert (p mod b = c) by (assert (p mod b / c = 1) by (symmetry; apply (Z.div_unique (p mod b) c 1 (p mod b - c)); lia); nia).
    destruct (Z.even (p / b)); split; auto; lia.
  - split; auto. lia.
  - split; auto. lia.
  - split; auto. lia.
Qed.

(** ** Rounding *)

Definition normal (m : positive) : Prop := 2 ^ 52 <= Z.pos m < 2 ^ 53.

Lemma shr_fexp_long p e d : Z.pos (digits2_pos p) = d -> 53 < d -> -500 <= e <= 500 ->
  shr_fexp 53 1024 (Z.pos p) e loc_Exact = (Nat.iter (Z.to_nat (d - 53)) shr_1 (Build_shr_record (Z.pos p) false false), e + (d - 53)).
Proof.
  intros Hd H He. unfold shr_fexp, shr_record_of_loc, fexp, emin. cbn [Zdigits2]. rewrite Hd.
  rewrite Z.max_l by lia. replace (d + e - 53 - e) with (d - 53) by lia.
  unfold shr. destruct (d - 53) as [|k|k] eqn:E; try lia. rewrite iter_pos_nat. reflexivity.
Qed.

Lemma shr_fexp_normal p e : normal p -> -500 <= e <= 500 ->
  shr_fexp 53 1024 (Z.pos p) e loc_Exact = (Build_shr_record (Z.pos p) false false, e).
Proof.
  intros Hp He. assert (D : Z.pos (digits2_pos p) = 53) by (apply digits2_unique; [exact Hp|lia]).
  unfold shr_fexp, shr_record_of_loc, fexp, emin. cbn [Zdigits2]. rewrite D, Z.max_l by lia.
  replace (53 + e - 53 - e) with 0 by lia. reflexivity.
Qed.

(** The result is the multiple of [2 ^ k] nearest to the exact value, [k] the number of
    bits to drop. *)
Lemma round_long p e k : 2 ^ (52 + k) <= Z.pos p < 2 ^ (53 + k) -> 1 <= k <= 200 -> -200 <= e <= 200 ->
  exists m e' q, binary_round_aux 53 1024 false (Z.pos p) e loc_Exact = S754_finite false m e' /\ normal m
    /\ k <= e' - e <= k + 1 /\ Z.pos m * 2 ^ (e' - e) = q * 2 ^ k /\ Z.abs (2 * (q * 2 ^ k - Z.pos p)) <= 2 ^ k.
Proof.
  intros Hp Hk He. assert (D : Z.pos (digits2_pos p) = 53 + k) by (apply digits2_unique; [replace (53 + k - 1) with (52 + k) by lia|]; lia).
  unfold binary_round_aux. rewrite (shr_fexp_long p e _ D) by lia. replace (53 + k - 53) with k by lia.
  destruct (Z.to_nat k) as [|n] eqn:En; [lia|].
  pose proof (shr_shifted (Z.pos p) (S n) ltac:(lia)) as Sh. pose proof (round_shifted (Z.pos p) n _ ltac:(lia) Sh) as R.
  set (mrs := Nat.iter (S n) shr_1 _) in *. set (q := round_nearest_even _ _) in *. cbv zeta in R.
  replace (Z.of_nat (S n)) with k in R by lia. destruct R as [Rq Ra].
  assert (Hb : 0 < 2 ^ k) by (apply Z.pow_pos_nonneg; lia). rewrite !Z.pow_add_r in Hp by lia.
  assert (Hq : 2 ^ 52 <= q <= 2 ^ 53).
  { assert (2 ^ 52 <= Z.pos p / 2 ^ k < 2 ^ 53) by (split; [apply Z.div_le_lower_bound|apply Z.div_lt_upper_bound]; lia). lia. }
  destruct (Z.eq_dec q (2 ^ 53)) as [E|N].
  - rewrite E. exists (2 ^ 52)%positive, (e + k + 1), q.
    unfold shr_fexp at 1. change (shr_record_of_loc (2 ^ 53) loc_Exact) with (Build_shr_record (2 ^ 53) false false).
    unfold fexp, emin. change (Zdigits2 (2 ^ 53)) with 54. rewrite Z.max_l by lia.
    replace (54 + (e + k) - 53 - (e + k)) with 1 by lia.
    change (shr (Build_shr_record (2 ^ 53) false false) (e + k) 1) with (Build_shr_record (2 ^ 52) false false, e + k + 1).
    cbn [shr_m]. change (2 ^ 52) with (Z.pos (2 ^ 52)). cbv iota. rewrite (proj2 (Z.leb_le _ _)) by lia.
    split; [reflexivity|]. split; [unfold normal; lia|]. split; [lia|]. split; [|exact Ra].
    replace (e + k + 1 - e) with (1 + k) by lia. rewrite Z.pow_add_r, E by lia. lia.
  - destruct q as [|q'|q'] eqn:Eq; try lia. exists q', (e + k), (Z.pos q').
    rewrite shr_fexp_normal by (unfold normal; lia). cbn [shr_m]. rewrite (proj2 (Z.leb_le _ _)) by lia.
    split; [reflexivity|]. split; [unfold normal; lia|]. split; [lia|]. replace (e + k - e) with k by lia.
    split; [reflexivity|exact Ra].
Qed.

(** An integer as a double. *)
Lemma f64_exact n : 0 < n < 2 ^ 53 ->
  exists m e, f64 n = S754_finite false m e /\ normal m /\ -52 <= e <= 0 /\ Z.pos m = n * 2 ^ (- e).
Proof.
  intros Hn. destruct n as [|p|p]; try lia. unfold f64, binary_normalize, binary_round.
  pose proof (digits2_bounds p) as B. set (d := Z.pos (digits2_pos p)) in *.
  assert (Hd : 1 <= d <= 53).
  { split; [unfold d; lia|]. destruct (Z.le_gt_cases d 53) as [|G]; [assumption|].
    pose proof (Z.pow_le_mono_r 2 53 (d - 1)). lia. }
  unfold fexp, emin. rewrite Z.max_l by lia. unfold shl_align. replace (d + 0 - 53 - 0) with (- (53 - d)) by lia.
  assert (Pow : 2 ^ (d - 1) * 2 ^ (53 - d) = 2 ^ 52 /\ 2 ^ d * 2 ^ (53 - d) = 2 ^ 53 /\ 0 < 2 ^ (53 - d)).
  { rewrite <- !Z.pow_add_r by lia. split; [f_equal; lia|]. split; [f_equal; lia|apply Z.pow_pos_nonneg; lia]. }
  assert (It : forall k, Z.pos (Pos.iter xO p k) = Z.pos p * 2 ^ Z.pos k).
  { intros k. induction k as [|k IH] using Pos.peano_ind; [cbn; lia|].
    rewrite Pos.iter_succ, (Pos2Z.inj_xO (Pos.iter xO p k)), IH, Pos2Z.inj_succ, Z.pow_succ_r by lia. lia. }
  destruct (53 - d) as [|k|k] eqn:Ek; try lia; cbn [Z.opp].
  - exists p, 0. unfold binary_round_aux. rewrite !shr_fexp_normal by (unfold normal; lia).
    cbn [shr_m loc_of_shr_record round_nearest_even]. rewrite !shr_fexp_normal by (unfold normal; lia).
    cbn. repeat split; unfold normal; lia.
  - set (m := Pos.iter xO p k). assert (Nm : normal m) by (unfold normal, m; rewrite It; nia).
    exists m, (Z.neg k). replace (d + 0 - 53) with (Z.neg k) by lia. unfold binary_round_aux. rewrite !shr_fexp_normal by (auto; lia).
    cbn [shr_m loc_of_shr_record round_nearest_even]. rewrite !shr_fexp_normal by (auto; lia).
    cbn [shr_m]. rewrite (proj2 (Z.leb_le _ _)) by lia. split; [reflexivity|]. split; [exact Nm|].
    split; [lia|]. apply It.
Qed.

(** Normal doubles compare as their values. *)
Lemma compare_normal m1 e1 m2 e2 b : normal m1 -> normal m2 -> b <= e1 -> b <= e2 ->
  SFcompare (S754_finite false m1 e1) (S754_finite false m2 e2) = Some (Z.pos m1 * 2 ^ (e1 - b) ?= Z.pos m2 * 2 ^ (e2 - b)).
Proof.
  intros N1 N2 H1 H2. unfold normal in *. cbn [SFcompare]. f_equal.
  assert (P : forall x y, x < y -> b <= x -> 2 * 2 ^ (x - b) <= 2 ^ (y - b)).
  { intros x y Hxy Hx. rewrite <- Z.pow_succ_r by lia. apply Z.pow_le_mono_r; lia. }
  assert (Q : forall x, b <= x -> 0 < 2 ^ (x - b)) by (intros; apply Z.pow_pos_nonneg; lia).
  destruct (Z.compare_spec e1 e2) as [->|L|G].
  - specialize (Q e2 H2). change (Pos.compare_cont Eq m1 m2) with (Z.pos m1 ?= Z.pos m2).
    destruct (Z.compare_spec (Z.pos m1) (Z.pos m2)); symmetry; [apply Z.compare_eq_iff|apply Z.compare_lt_iff|apply Z.compare_gt_iff]; nia.
  - specialize (P e1 e2 L H1). specialize (Q e1 H1). symmetry. apply Z.compare_lt_iff. nia.
  - specialize (P e2 e1 G H2). specialize (Q e2 H2). symmetry. apply Z.compare_gt_iff. nia.
Qed.

(** ** Integers against multiples of a constant *)

(** The product of the double [r * 2 ^ er] and an integer [w], in units of [2 ^ (er + ew)]
    where [ew] is the exponent of [w]: a multiple of [2 ^ k], within half of that of the
    exact value. *)
Lemma mul_near r er w : normal r -> -60 <= er <= -50 -> 0 < w <= 2 ^ 32 ->
  exists t k V m e ew, 2 ^ 20 <= t /\ t = 2 ^ (- ew) /\ -52 <= ew <= -20 /\ 52 <= k <= 53
    /\ f64_mul (S754_finite false r er) (f64 w) = S754_finite false m e /\ normal m
    /\ er + ew <= e /\ Z.pos m * 2 ^ (e - (er + ew)) = V
    /\ (exists q, V = q * 2 ^ k) /\ Z.abs (2 * (V - Z.pos r * w * t)) <= 2 ^ k
    /\ Z.pos r * w * t < 2 ^ (53 + k).
Proof.
  intros Nr Her Hw. destruct (f64_exact w ltac:(lia)) as (mw & ew & -> & Nw & Hew & Ew).
  unfold normal in *. pose proof (Pos2Z.inj_mul r mw) as Em.
  assert (He20 : 20 <= - ew).
  { destruct (Z.le_gt_cases 20 (- ew)) as [|G]; [assumption|exfalso].
    pose proof (Z.pow_lt_mono_r 2 (- ew) 20 ltac:(lia) ltac:(lia) G). nia. }
  assert (Ht : 2 ^ 20 <= 2 ^ (- ew)) by (apply Z.pow_le_mono_r; lia).
  assert (K : exists k, 52 <= k <= 53 /\ 2 ^ (52 + k) <= Z.pos (r * mw) < 2 ^ (53 + k)).
  { rewrite Em. destruct (Z.lt_ge_cases (Z.pos r * Z.pos mw) (2 ^ 105)); [exists 52|exists 53];
      (split; [lia|]); [change (2 ^ (52 + 52)) with (2 ^ 52 * 2 ^ 52)|change (2 ^ (53 + 53)) with (2 ^ 53 * 2 ^ 53)]; split; try nia. }
  destruct K as (k & Hk & Hp). unfold f64_mul, SFmul. cbn [xorb].
  destruct (round_long (r * mw) (er + ew) k Hp ltac:(lia) ltac:(lia)) as (m & e & q & -> & Nm & He & Ev & Ra).
  exists (2 ^ (- ew)), k, (q * 2 ^ k), m, e, ew. rewrite Em, Ew, Z.mul_assoc in *.
  split; [exact Ht|]. split; [reflexivity|]. split; [lia|]. split; [exact Hk|]. split; [reflexivity|]. split; [exact Nm|].
  split; [lia|]. split; [exact Ev|]. split; [exists q; reflexivity|]. split; [exact Ra|apply Hp].
Qed.

(** The comparison of an integer [n] with the product, in the same units. *)
Lemma compare_product r er n w : normal r -> -60 <= er <= -50 -> 0 < n <= 2 ^ 32 -> 0 < w <= 2 ^ 32 ->
  exists t k V j, SFcompare (f64 n) (f64_mul (S754_finite false r er) (f64 w)) = Some (n * 2 ^ (- er) * t ?= V)
    /\ 2 ^ 20 <= t /\ 52 <= k <= 53 /\ (exists q, V = q * 2 ^ k) /\ 2 ^ (- er) * t = j * 2 ^ k
    /\ Z.abs (2 * (V - Z.pos r * w * t)) <= 2 ^ k /\ Z.pos r * w * t < 2 ^ (53 + k).
Proof.
  intros Nr Her Hn Hw. destruct (mul_near r er w Nr Her Hw) as (t & k & V & m & e & ew & T & Et & Hew & Hk & -> & Nm & He & Ev & Hq & Hv & Hlt).
  destruct (f64_exact n ltac:(lia)) as (mn & en & -> & Nn & Hen & En).
  exists t, k, V, (2 ^ (- er - ew - k)). rewrite (compare_normal _ _ _ _ (er + ew)) by (auto; lia). rewrite Ev, En.
  split.
  - do 2 f_equal. subst t. rewrite <- !Z.mul_assoc, <- !Z.pow_add_r by lia. do 2 f_equal. lia.
  - repeat (split; [assumption|]). split; [|auto]. subst t. rewrite <- !Z.pow_add_r; [f_equal; lia|lia..].
Qed.

(** The difference, in units of [1 / b]: the exact one, the error of the constant and the
    rounding error. *)
Lemma product_difference a b r u n w t V p k :
  0 < b < 128 -> 0 < w <= 2 ^ 32 -> 2 ^ 20 <= t -> 52 <= k <= 53 -> p = r * w * t -> Z.abs (2 * (V - p)) <= 2 ^ k ->
  0 <= b * r - a * u < 2 ^ 8 ->
  exists e, b * (V - n * u * t) = u * ((a * w - b * n) * t) + (b * r - a * u) * (w * t) + e
    /\ Z.abs e < 2 ^ 60 /\ 0 <= (b * r - a * u) * (w * t) < 2 ^ 40 * t.
Proof.
  intros Hb Hw Ht Hk Ep Hv Hd. exists (b * (V - p)). set (d := b * r - a * u) in *.
  assert (Hc : 2 ^ k <= 2 ^ 53) by (apply Z.pow_le_mono_r; lia).
  split; [subst p d; ring|]. split.
  - rewrite Z.abs_mul, (Z.abs_eq b) by lia. assert (Z.abs (V - p) <= 2 ^ 52) by lia. nia.
  - assert (0 < w * t <= 2 ^ 32 * t) by nia. nia.
Qed.

Lemma mul_below y t : 0 < t -> y < 0 -> y * t <= - t.
Proof. nia. Qed.

Lemma mul_above y t : 0 < t -> 0 < y -> t <= y * t.
Proof. nia. Qed.

Lemma mul_sign b z : 0 < b -> (0 < b * z -> 0 < z) /\ (b * z < 0 -> z < 0) /\ (0 <= b * z -> 0 <= z).
Proof. nia. Qed.

(** [n < c * w], for the double [c] just above the fraction [a / b]. *)
Lemma less_than_multiple a b r n w :
  normal r -> 0 < b < 128 -> 0 < a < b -> 0 < n <= 2 ^ 32 -> 0 < w <= 2 ^ 32 ->
  0 <= b * Z.pos r - a * 2 ^ 54 < a ->
  SFltb (f64 n) (f64_mul (S754_finite false r (-54)) (f64 w)) = (b * n <? a * w).
Proof.
  intros Nr Hb Ha Hn Hw Hr.
  destruct (compare_product r (-54) n w Nr ltac:(lia) Hn Hw) as (t & k & V & j & C & T & Hk & (q & Eq) & Ej & Hv & Hlt).
  unfold SFltb. rewrite C. change (2 ^ (- (-54))) with (2 ^ 54) in *. rewrite Z.pow_add_r in Hlt by lia.
  destruct (product_difference a b (Z.pos r) (2 ^ 54) n w t V _ k Hb Hw T Hk eq_refl Hv ltac:(lia)) as (e & De & He & Hd).
  set (p := Z.pos r * w * t) in *. set (x := n * 2 ^ 54 * t) in *.
  destruct (Z.lt_trichotomy (b * n) (a * w)) as [L|[Eq2|G]].
  - rewrite (proj2 (Z.ltb_lt _ _) L). pose proof (mul_above (a * w - b * n) t ltac:(lia) ltac:(lia)).
    assert (0 < b * (V - x)) by lia. apply mul_sign in H0; [|lia]. now rewrite (proj2 (Z.compare_lt_iff x V)) by lia.
  - rewrite Eq2, Z.ltb_irrefl. set (d := b * Z.pos r - a * 2 ^ 54) in *.
    assert (Eb : b * (p - x) = d * (w * t)) by (unfold p, x, d; replace (b * (Z.pos r * w * t - n * 2 ^ 54 * t)) with (b * Z.pos r * w * t - b * n * 2 ^ 54 * t) by ring; rewrite Eq2; ring).
    assert (D1 : 0 <= p - x) by (apply (mul_sign b); [lia|]; rewrite Eb; apply Hd).
    assert (D2 : p - x < n * t).
    { assert (N : b * (p - x - n * t) < 0); [|apply mul_sign in N; lia].
      replace (b * (p - x - n * t)) with (b * (p - x) - a * w * t) by (rewrite <- Eq2; ring).
      rewrite Eb. pose proof (mul_below (d - a) (w * t) ltac:(apply Z.mul_pos_pos; lia) ltac:(lia)).
      pose proof (Z.mul_pos_pos w t ltac:(lia) ltac:(lia)). lia. }
    assert (D3 : 2 * (n * t) < 2 ^ k) by (replace x with (2 ^ 54 * (n * t)) in D1 by (unfold x; ring); lia).
    assert (Vx : V = x); [|now rewrite Vx, Z.compare_refl].
    assert (Ex : x = n * j * 2 ^ k) by (unfold x; rewrite <- Z.mul_assoc, Ej; ring).
    assert (HV : - 2 ^ k < V - x < 2 ^ k) by (clear - Hv D1 D2 D3; lia). rewrite Eq, Ex in HV |- *.
    clear - HV. assert (P : 0 < 2 ^ k) by lia. generalize dependent (2 ^ k). intros c HV P.
    assert (-1 < q - n * j) by (apply (Z.mul_lt_mono_pos_r c); lia). assert (q - n * j < 1) by (apply (Z.mul_lt_mono_pos_r c); lia).
    f_equal. lia.
  - rewrite (proj2 (Z.ltb_ge _ _)) by lia. pose proof (mul_below (a * w - b * n) t ltac:(lia) ltac:(lia)).
    assert (b * (V - x) < 0) by lia. apply mul_sign in H0; [|lia]. now rewrite (proj2 (Z.compare_gt_iff x V)) by lia.
Qed.

(** [n <= c * w], for a double [c] just above the fraction [a / b]. *)
Lemma at_most_multiple a b r n w :
  normal r -> 0 < b < 128 -> 0 < a < b -> 0 < n <= 2 ^ 32 -> 0 < w <= 2 ^ 32 ->
  0 <= b * Z.pos r - a * 2 ^ 53 < 2 * a ->
  SFleb (f64 n) (f64_mul (S754_finite false r (-53)) (f64 w)) = (b * n <=? a * w).
Proof.
  intros Nr Hb Ha Hn Hw Hr.
  destruct (compare_product r (-53) n w Nr ltac:(lia) Hn Hw) as (t & k & V & j & C & T & Hk & (q & Eq) & Ej & Hv & Hlt).
  unfold SFleb. rewrite C. change (2 ^ (- (-53))) with (2 ^ 53) in *.
  destruct (product_difference a b (Z.pos r) (2 ^ 53) n w t V _ k Hb Hw T Hk eq_refl Hv ltac:(lia)) as (e & De & He & Hd).
  set (p := Z.pos r * w * t) in *. set (x := n * 2 ^ 53 * t) in *.
  destruct (Z.lt_trichotomy (b * n) (a * w)) as [L|[Eq2|G]].
  - rewrite (proj2 (Z.leb_le _ _)) by lia. pose proof (mul_above (a * w - b * n) t ltac:(lia) ltac:(lia)).
    assert (0 < b * (V - x)) by lia. apply mul_sign in H0; [|lia]. now rewrite (proj2 (Z.compare_lt_iff x V)) by lia.
  - rewrite Eq2, Z.leb_refl. set (d := b * Z.pos r - a * 2 ^ 53) in *.
    assert (Eb : b * (p - x) = d * (w * t)) by (unfold p, x, d; replace (b * (Z.pos r * w * t - n * 2 ^ 53 * t)) with (b * Z.pos r * w * t - b * n * 2 ^ 53 * t) by ring; rewrite Eq2; ring).
    assert (D1 : 0 <= p - x) by (apply (mul_sign b); [lia|]; rewrite Eb; apply Hd).
    assert (Ex : x = n * j * 2 ^ k) by (unfold x; rewrite <- Z.mul_assoc, Ej; ring).
    assert (0 < 2 ^ k) by (apply Z.pow_pos_nonneg; lia).
    assert (x <= V); [|destruct (Z.compare_spec x V); [reflexivity|reflexivity|lia]].
    destruct (Z.le_gt_cases (n * j) q) as [Le|G]; [rewrite Eq, Ex; apply Z.mul_le_mono_nonneg_r; lia|exfalso].
    pose proof (Z.mul_le_mono_nonneg_r (q + 1) (n * j) (2 ^ k) ltac:(lia) ltac:(lia)). lia.
  - rewrite (proj2 (Z.leb_gt _ _)) by lia. pose proof (mul_below (a * w - b * n) t ltac:(lia) ltac:(lia)).
    assert (b * (V - x) < 0) by lia. apply mul_sign in H0; [|lia]. now rewrite (proj2 (Z.compare_gt_iff x V)) by lia.
Qed.
