(* ===== verification/Threads.v ===== *)
(** * Sums over threads

    The invariants of the concurrent parts add up, over all threads, what each thread
    holds.  These are the sums, and how they change when one thread moves. *)

From S2P Require Import Prelude.
From stdpp Require Import list relations.
#[local] Open Scope Z_scope.

Definition sumZ (l : list Z) : Z := foldr Z.add 0 l.

Lemma sumZ_cons {A} (f : A -> Z) x l : sumZ (f <$> x :: l) = f x + sumZ (f <$> l).
Proof. reflexivity. Qed.

Lemma sumZ_insert l i x y :
  l !! i = Some x -> sumZ (<[i := y]> l) = sumZ l - x + y.
Proof.
  revert i; induction l as [|z l IH]; intros [|i] H; simplify_eq/=; [lia|].
  rewrite (IH i H). lia.
Qed.

Lemma sumZ_zeros {A} (f : A -> Z) l : Forall (fun x => f x = 0) l -> sumZ (f <$> l) = 0.
Proof. induction 1 as [|x l Hx Hl IH]; simpl; [reflexivity|]. rewrite Hx. exact IH. Qed.

Lemma sumZ_replicate n : sumZ (replicate n 0) = 0.
Proof. induction n; simpl; lia. Qed.

Lemma sumZ_fmap_insert {A} (f : A -> Z) l i x y :
  l !! i = Some x -> sumZ (f <$> <[i := y]> l) = sumZ (f <$> l) - f x + f y.
Proof. intros H. rewrite list_fmap_insert. apply sumZ_insert. now rewrite list_lookup_fmap, H. Qed.

Lemma sumZ_nonneg {A} (f : A -> Z) l : (forall x, 0 <= f x) -> 0 <= sumZ (f <$> l).
Proof. intros H. induction l as [|x l IH]; [done|]. rewrite sumZ_cons. specialize (H x). lia. Qed.

(** A member's part is at most the sum, and two members' parts together too. *)
Lemma sumZ_member {A} (f : A -> Z) l i x :
  (forall x, 0 <= f x) -> l !! i = Some x -> f x <= sumZ (f <$> l).
Proof.
  intros H. revert i; induction l as [|y l IH]; intros [|i] E; cbn in E; simplify_eq; rewrite sumZ_cons.
  - pose proof (sumZ_nonneg f l H). lia.
  - specialize (IH i E). specialize (H y). lia.
Qed.

Lemma sumZ_two {A} (f : A -> Z) l i j x y :
  (forall x, 0 <= f x) -> i <> j -> l !! i = Some x -> l !! j = Some y -> f x + f y <= sumZ (f <$> l).
Proof.
  intros H. revert i j; induction l as [|z l IH]; intros [|i] [|j] N E1 E2; cbn in E1, E2; simplify_eq; rewrite sumZ_cons.
  - pose proof (sumZ_member f l j y H E2). lia.
  - pose proof (sumZ_member f l i x H E1). lia.
  - specialize (IH i j ltac:(congruence) E1 E2). specialize (H z). lia.
Qed.

Lemma sumZ_pos {A} (f : A -> Z) l :
  (forall x, 0 <= f x) -> 0 < sumZ (f <$> l) -> exists i x, l !! i = Some x /\ 0 < f x.
Proof.
  intros H. induction l as [|y l IH]; [simpl; lia|]. rewrite sumZ_cons. intros P.
  destruct (Z.eq_dec (f y) 0) as [E|E].
  - destruct IH as (i & x & E1 & E2); [lia|]. now exists (S i), x.
  - exists O, y. specialize (H y). split; [reflexivity|lia].
Qed.
