(* ===== verification/BitSeq.v ===== *)
(** * Counting and selecting in sequences of booleans

    [cnt f a n] counts the true positions of [f] in [[a, a + n)] and [sel f k a n]
    finds the one of index [k].  They are the reference definitions of rank and
    select, for words ([f = Z.testbit w]) and for the bit vectors of a filter. *)

From S2P Require Import Prelude.
Import ListNotations.
#[local] Open Scope Z_scope.

Fixpoint cnt (f : Z -> bool) (a : Z) (n : nat) : Z :=
  match n with
  | O => 0
  | S n => Z.b2z (f a) + cnt f (a + 1) n
  end.

Fixpoint sel (f : Z -> bool) (k a : Z) (n : nat) : Z :=
  match n with
  | O => a
  | S n =>
    if f a then if k =? 0 then a else sel f (k - 1) (a + 1) n
    else sel f k (a + 1) n
  end.

(** The number of true positions in [[a, b)]. *)
Definition rank (f : Z -> bool) (a b : Z) : Z := cnt f a (Z.to_nat (b - a)).

Lemma cnt_bounds f a n : 0 <= cnt f a n <= Z.of_nat n.
Proof.
  revert a; induction n as [|n IH]; intros a; cbn [cnt]; [lia|].
  specialize (IH (a + 1)). destruct (f a); cbn [Z.b2z]; lia.
Qed.

Lemma cnt_ext f g a n :
  (forall i, a <= i < a + Z.of_nat n -> f i = g i) -> cnt f a n = cnt g a n.
Proof.
  revert a; induction n as [|n IH]; intros a H; cbn [cnt]; [reflexivity|].
  rewrite H by lia. f_equal. apply IH. intros i Hi. apply H. lia.
Qed.

Lemma cnt_app f a n m : cnt f a (n + m) = cnt f a n + cnt f (a + Z.of_nat n) m.
Proof.
  revert a; induction n as [|n IH]; intros a; cbn [cnt Nat.add].
  - rewrite Z.add_0_r. reflexivity.
  - rewrite IH. replace (a + 1 + Z.of_nat n) with (a + Z.of_nat (S n)) by lia. lia.
Qed.

Lemma cnt_shift f d a n : cnt (fun i => f (i + d)) a n = cnt f (a + d) n.
Proof.
  revert a; induction n as [|n IH]; intros a; cbn [cnt]; [reflexivity|].
  rewrite IH. do 2 f_equal. lia.
Qed.

Lemma cnt_false f a n :
  (forall i, a <= i < a + Z.of_nat n -> f i = false) -> cnt f a n = 0.
Proof.
  revert a; induction n as [|n IH]; intros a H; cbn [cnt]; [reflexivity|].
  rewrite H, IH by (intros; try apply H; lia). reflexivity.
Qed.

Lemma cnt_zero f a n i : cnt f a n = 0 -> a <= i < a + Z.of_nat n -> f i = false.
Proof.
  revert a; induction n as [|n IH]; intros a H Hi; cbn [cnt] in H; [lia|].
  pose proof (cnt_bounds f (a + 1) n). destruct (f a) eqn:E; cbn [Z.b2z] in H; [lia|].
  destruct (Z.eq_dec i a) as [->|]; [exact E|]. apply (IH (a + 1)); lia.
Qed.

Lemma sel_range f k a n : a <= sel f k a n <= a + Z.of_nat n.
Proof.
  revert k a; induction n as [|n IH]; intros k a; cbn [sel]; [lia|].
  destruct (f a); [destruct (k =? 0)|]; [lia|..];
  [pose proof (IH (k - 1) (a + 1))|pose proof (IH k (a + 1))]; lia.
Qed.

Lemma sel_none f k a n : cnt f a n <= k -> sel f k a n = a + Z.of_nat n.
Proof.
  revert k a; induction n as [|n IH]; intros k a H; cbn [sel cnt] in *; [lia|].
  pose proof (cnt_bounds f (a + 1) n). destruct (f a); cbn [Z.b2z] in H.
  - destruct (Z.eqb_spec k 0); [lia|]. rewrite IH; lia.
  - rewrite IH; lia.
Qed.

(** [sel] finds the position: it is true there and [k] true positions precede it. *)
Lemma sel_spec f k a n :
  0 <= k < cnt f a n ->
  a <= sel f k a n < a + Z.of_nat n /\ f (sel f k a n) = true /\
  rank f a (sel f k a n) = k.
Proof.
  revert k a; induction n as [|n IH]; intros k a H; cbn [sel cnt] in *; [lia|].
  assert (R : forall p, a + 1 <= p -> rank f a p = Z.b2z (f a) + rank f (a + 1) p).
  { intros p Hp. unfold rank. replace (Z.to_nat (p - a)) with (S (Z.to_nat (p - (a + 1)))) by lia.
    reflexivity. }
  destruct (f a) eqn:E; cbn [Z.b2z] in *.
  - destruct (Z.eqb_spec k 0) as [->|].
    + unfold rank. rewrite Z.sub_diag. split; [lia|]. split; [exact E|reflexivity].
    + destruct (IH (k - 1) (a + 1)) as (A & B & C); [lia|].
      split; [lia|]. split; [exact B|]. rewrite R, C; lia.
  - destruct (IH k (a + 1)) as (A & B & C); [lia|].
    split; [lia|]. split; [exact B|]. rewrite R, C; lia.
Qed.

Lemma rank_split f a b c : a <= b <= c -> rank f a c = rank f a b + rank f b c.
Proof.
  intros H. unfold rank.
  replace (Z.to_nat (c - a)) with (Z.to_nat (b - a) + Z.to_nat (c - b))%nat by lia.
  rewrite cnt_app. do 2 f_equal. lia.
Qed.

Lemma rank_bounds f a b : 0 <= rank f a b <= Z.max 0 (b - a).
Proof. unfold rank. pose proof (cnt_bounds f a (Z.to_nat (b - a))). lia. Qed.

Lemma rank_nil f a b : b <= a -> rank f a b = 0.
Proof. intros H. unfold rank. replace (Z.to_nat (b - a)) with O by lia. reflexivity. Qed.

Lemma rank_one f a : rank f a (a + 1) = Z.b2z (f a).
Proof.
  unfold rank. replace (Z.to_nat (a + 1 - a)) with 1%nat by lia. cbn [cnt]. lia.
Qed.

Lemma rank_pred f b : rank f (b - 1) b = Z.b2z (f (b - 1)).
Proof. rewrite <- (rank_one f (b - 1)). f_equal. lia. Qed.

Lemma rank_succ f a b : a <= b -> rank f a (b + 1) = rank f a b + Z.b2z (f b).
Proof. intros H. rewrite (rank_split f a b (b + 1)) by lia. now rewrite rank_one. Qed.

Lemma rank_ext f g a b : (forall i, a <= i < b -> f i = g i) -> rank f a b = rank g a b.
Proof. intros H. apply cnt_ext. intros i Hi. apply H. lia. Qed.

Lemma rank_shift f d a b : rank (fun i => f (i + d)) a b = rank f (a + d) (b + d).
Proof. unfold rank. rewrite cnt_shift. do 2 f_equal. lia. Qed.

Lemma rank_mono f a b c : a <= b <= c -> rank f a b <= rank f a c.
Proof. intros H. rewrite (rank_split f a b c) by lia. pose proof (rank_bounds f b c). lia. Qed.

Lemma rank_false f a b : (forall i, a <= i < b -> f i = false) -> rank f a b = 0.
Proof. intros H. apply cnt_false. intros i Hi. apply H. lia. Qed.

Lemma rank_zero f a b i : rank f a b = 0 -> a <= i < b -> f i = false.
Proof. intros H Hi. apply (cnt_zero f a (Z.to_nat (b - a))); [exact H|lia]. Qed.

Lemma rank_pos f a b : rank f a b <> 0 -> exists i, a <= i < b /\ f i = true.
Proof.
  intros H. assert (G : 0 < cnt f a (Z.to_nat (b - a))) by (pose proof (rank_bounds f a b); unfold rank in *; lia).
  destruct (sel_spec f 0 a (Z.to_nat (b - a))) as (A & B & _); [lia|].
  exists (sel f 0 a (Z.to_nat (b - a))). split; [lia|exact B].
Qed.

(** [sel] is the only such position. *)
Lemma sel_unique f k a n p :
  a <= p < a + Z.of_nat n -> f p = true -> rank f a p = k -> sel f k a n = p.
Proof.
  intros Hp Hf Hk.
  assert (Hc : 0 <= k < cnt f a n).
  { subst k. split; [apply rank_bounds|].
    replace (cnt f a n) with (rank f a (a + Z.of_nat n)) by (unfold rank; f_equal; lia).
    apply Z.lt_le_trans with (rank f a (p + 1)); [rewrite rank_succ, Hf by lia; simpl; lia|].
    apply rank_mono; lia. }
  destruct (sel_spec f k a n Hc) as (A & B & C).
  set (q := sel f k a n) in *. destruct (Z.lt_trichotomy q p) as [L|[E|L]]; [|exact E|].
  - pose proof (rank_mono f a (q + 1) p) as M. rewrite rank_succ, B in M by lia.
    simpl in M. lia.
  - pose proof (rank_mono f a (p + 1) q) as M. rewrite rank_succ, Hf in M by lia.
    simpl in M. lia.
Qed.

Lemma sel_ext f g k a n :
  (forall i, a <= i < a + Z.of_nat n -> f i = g i) -> sel f k a n = sel g k a n.
Proof.
  revert k a; induction n as [|n IH]; intros k a H; cbn [sel]; [reflexivity|].
  rewrite H by lia. rewrite !IH by (intros; apply H; lia). reflexivity.
Qed.

Lemma sel_app f k a n m :
  0 <= k ->
  sel f k a (n + m) =
  if k <? cnt f a n then sel f k a n else sel f (k - cnt f a n) (a + Z.of_nat n) m.
Proof.
  revert k a; induction n as [|n IH]; intros k a Hk; cbn [sel cnt Nat.add].
  - destruct (Z.ltb_spec k 0); [lia|]. f_equal; lia.
  - pose proof (cnt_bounds f (a + 1) n).
    assert (E : forall j c, 0 <= j -> 
      (if j <? cnt f (a + 1) n then sel f j (a + 1) n
       else sel f (j - cnt f (a + 1) n) (a + 1 + Z.of_nat n) m) = c ->
      sel f j (a + 1) (n + m) = c) by (intros j c Hj <-; apply IH; exact Hj).
    destruct (f a); cbn [Z.b2z].
    + destruct (Z.eqb_spec k 0) as [->|].
      * destruct (Z.ltb_spec 0 (1 + cnt f (a + 1) n)); [reflexivity|lia].
      * apply E; [lia|].
        destruct (Z.ltb_spec (k - 1) (cnt f (a + 1) n)), (Z.ltb_spec k (1 + cnt f (a + 1) n));
          try lia; f_equal; lia.
    + apply E; [lia|].
      destruct (Z.ltb_spec k (cnt f (a + 1) n)), (Z.ltb_spec k (0 + cnt f (a + 1) n));
        try lia; f_equal; lia.
Qed.

Lemma sel_shift f d k a n : sel (fun i => f (i + d)) k a n + d = sel f k (a + d) n.
Proof.
  revert k a; induction n as [|n IH]; intros k a; cbn [sel]; [lia|].
  destruct (f (a + d)); [destruct (k =? 0)|]; [lia|..];
  rewrite IH; f_equal; lia.
Qed.
