(* ===== verification/RankSelect.v ===== *)
(** * Rank and select on 64-bit words ([terrace/code/src/gqf/rank_select.c] and the
    word helpers of [gqf.c])

    [_select64] is Vigna's broadword selection: byte sums computed in parallel in
    one word, then a table lookup.  The main theorem of the file is its equivalence
    with the reference [sel] of [BitSeq]. *)

From S2P Require Import Prelude BitSeq.
Import ListNotations.
#[local] Open Scope Z_scope.

(** ** Definitions *)

(** The [popcnt] instruction. *)
Definition popcnt (val : Z) : Z := cnt (Z.testbit val) 0 64.

Definition word_rank (val : Z) : Z := popcnt val.

Definition MAX_VALUE (nbits : Z) : Z := ((1 <<< nbits) - 1)%u64.
Definition BITMASK (nbits : Z) : Z :=
  if nbits =? 64 then 0xffffffffffffffff else MAX_VALUE nbits.

Definition kSelectInByte : list Z := [
   8; 0; 1; 0; 2; 0; 1; 0; 3; 0; 1; 0; 2; 0; 1; 0; 4; 0; 1; 0; 2; 0; 1; 0; 3; 0; 1; 0; 2; 0; 1; 0;
   5; 0; 1; 0; 2; 0; 1; 0; 3; 0; 1; 0; 2; 0; 1; 0; 4; 0; 1; 0; 2; 0; 1; 0; 3; 0; 1; 0; 2; 0; 1; 0;
   6; 0; 1; 0; 2; 0; 1; 0; 3; 0; 1; 0; 2; 0; 1; 0; 4; 0; 1; 0; 2; 0; 1; 0; 3; 0; 1; 0; 2; 0; 1; 0;
   5; 0; 1; 0; 2; 0; 1; 0; 3; 0; 1; 0; 2; 0; 1; 0; 4; 0; 1; 0; 2; 0; 1; 0; 3; 0; 1; 0; 2; 0; 1; 0;
   7; 0; 1; 0; 2; 0; 1; 0; 3; 0; 1; 0; 2; 0; 1; 0; 4; 0; 1; 0; 2; 0; 1; 0; 3; 0; 1; 0; 2; 0; 1; 0;
   5; 0; 1; 0; 2; 0; 1; 0; 3; 0; 1; 0; 2; 0; 1; 0; 4; 0; 1; 0; 2; 0; 1; 0; 3; 0; 1; 0; 2; 0; 1; 0;
   6; 0; 1; 0; 2; 0; 1; 0; 3; 0; 1; 0; 2; 0; 1; 0; 4; 0; 1; 0; 2; 0; 1; 0; 3; 0; 1; 0; 2; 0; 1; 0;
   5; 0; 1; 0; 2; 0; 1; 0; 3; 0; 1; 0; 2; 0; 1; 0; 4; 0; 1; 0; 2; 0; 1; 0; 3; 0; 1; 0; 2; 0; 1; 0;
   8; 8; 8; 1; 8; 2; 2; 1; 8; 3; 3; 1; 3; 2; 2; 1; 8; 4; 4; 1; 4; 2; 2; 1; 4; 3; 3; 1; 3; 2; 2; 1;
   8; 5; 5; 1; 5; 2; 2; 1; 5; 3; 3; 1; 3; 2; 2; 1; 5; 4; 4; 1; 4; 2; 2; 1; 4; 3; 3; 1; 3; 2; 2; 1;
   8; 6; 6; 1; 6; 2; 2; 1; 6; 3; 3; 1; 3; 2; 2; 1; 6; 4; 4; 1; 4; 2; 2; 1; 4; 3; 3; 1; 3; 2; 2; 1;
   6; 5; 5; 1; 5; 2; 2; 1; 5; 3; 3; 1; 3; 2; 2; 1; 5; 4; 4; 1; 4; 2; 2; 1; 4; 3; 3; 1; 3; 2; 2; 1;
   8; 7; 7; 1; 7; 2; 2; 1; 7; 3; 3; 1; 3; 2; 2; 1; 7; 4; 4; 1; 4; 2; 2; 1; 4; 3; 3; 1; 3; 2; 2; 1;
   7; 5; 5; 1; 5; 2; 2; 1; 5; 3; 3; 1; 3; 2; 2; 1; 5; 4; 4; 1; 4; 2; 2; 1; 4; 3; 3; 1; 3; 2; 2; 1;
   7; 6; 6; 1; 6; 2; 2; 1; 6; 3; 3; 1; 3; 2; 2; 1; 6; 4; 4; 1; 4; 2; 2; 1; 4; 3; 3; 1; 3; 2; 2; 1;
   6; 5; 5; 1; 5; 2; 2; 1; 5; 3; 3; 1; 3; 2; 2; 1; 5; 4; 4; 1; 4; 2; 2; 1; 4; 3; 3; 1; 3; 2; 2; 1;
   8; 8; 8; 8; 8; 8; 8; 2; 8; 8; 8; 3; 8; 3; 3; 2; 8; 8; 8; 4; 8; 4; 4; 2; 8; 4; 4; 3; 4; 3; 3; 2;
   8; 8; 8; 5; 8; 5; 5; 2; 8; 5; 5; 3; 5; 3; 3; 2; 8; 5; 5; 4; 5; 4; 4; 2; 5; 4; 4; 3; 4; 3; 3; 2;
   8; 8; 8; 6; 8; 6; 6; 2; 8; 6; 6; 3; 6; 3; 3; 2; 8; 6; 6; 4; 6; 4; 4; 2; 6; 4; 4; 3; 4; 3; 3; 2;
   8; 6; 6; 5; 6; 5; 5; 2; 6; 5; 5; 3; 5; 3; 3; 2; 6; 5; 5; 4; 5; 4; 4; 2; 5; 4; 4; 3; 4; 3; 3; 2;
   8; 8; 8; 7; 8; 7; 7; 2; 8; 7; 7; 3; 7; 3; 3; 2; 8; 7; 7; 4; 7; 4; 4; 2; 7; 4; 4; 3; 4; 3; 3; 2;
   8; 7; 7; 5; 7; 5; 5; 2; 7; 5; 5; 3; 5; 3; 3; 2; 7; 5; 5; 4; 5; 4; 4; 2; 5; 4; 4; 3; 4; 3; 3; 2;
   8; 7; 7; 6; 7; 6; 6; 2; 7; 6; 6; 3; 6; 3; 3; 2; 7; 6; 6; 4; 6; 4; 4; 2; 6; 4; 4; 3; 4; 3; 3; 2;
   7; 6; 6; 5; 6; 5; 5; 2; 6; 5; 5; 3; 5; 3; 3; 2; 6; 5; 5; 4; 5; 4; 4; 2; 5; 4; 4; 3; 4; 3; 3; 2;
   8; 8; 8; 8; 8; 8; 8; 8; 8; 8; 8; 8; 8; 8; 8; 3; 8; 8; 8; 8; 8; 8; 8; 4; 8; 8; 8; 4; 8; 4; 4; 3;
   8; 8; 8; 8; 8; 8; 8; 5; 8; 8; 8; 5; 8; 5; 5; 3; 8; 8; 8; 5; 8; 5; 5; 4; 8; 5; 5; 4; 5; 4; 4; 3;
   8; 8; 8; 8; 8; 8; 8; 6; 8; 8; 8; 6; 8; 6; 6; 3; 8; 8; 8; 6; 8; 6; 6; 4; 8; 6; 6; 4; 6; 4; 4; 3;
   8; 8; 8; 6; 8; 6; 6; 5; 8; 6; 6; 5; 6; 5; 5; 3; 8; 6; 6; 5; 6; 5; 5; 4; 6; 5; 5; 4; 5; 4; 4; 3;
   8; 8; 8; 8; 8; 8; 8; 7; 8; 8; 8; 7; 8; 7; 7; 3; 8; 8; 8; 7; 8; 7; 7; 4; 8; 7; 7; 4; 7; 4; 4; 3;
   8; 8; 8; 7; 8; 7; 7; 5; 8; 7; 7; 5; 7; 5; 5; 3; 8; 7; 7; 5; 7; 5; 5; 4; 7; 5; 5; 4; 5; 4; 4; 3;
   8; 8; 8; 7; 8; 7; 7; 6; 8; 7; 7; 6; 7; 6; 6; 3; 8; 7; 7; 6; 7; 6; 6; 4; 7; 6; 6; 4; 6; 4; 4; 3;
   8; 7; 7; 6; 7; 6; 6; 5; 7; 6; 6; 5; 6; 5; 5; 3; 7; 6; 6; 5; 6; 5; 5; 4; 6; 5; 5; 4; 5; 4; 4; 3;
   8; 8; 8; 8; 8; 8; 8; 8; 8; 8; 8; 8; 8; 8; 8; 8; 8; 8; 8; 8; 8; 8; 8; 8; 8; 8; 8; 8; 8; 8; 8; 4;
   8; 8; 8; 8; 8; 8; 8; 8; 8; 8; 8; 8; 8; 8; 8; 5; 8; 8; 8; 8; 8; 8; 8; 5; 8; 8; 8; 5; 8; 5; 5; 4;
   8; 8; 8; 8; 8; 8; 8; 8; 8; 8; 8; 8; 8; 8; 8; 6; 8; 8; 8; 8; 8; 8; 8; 6; 8; 8; 8; 6; 8; 6; 6; 4;
   8; 8; 8; 8; 8; 8; 8; 6; 8; 8; 8; 6; 8; 6; 6; 5; 8; 8; 8; 6; 8; 6; 6; 5; 8; 6; 6; 5; 6; 5; 5; 4;
   8; 8; 8; 8; 8; 8; 8; 8; 8; 8; 8; 8; 8; 8; 8; 7; 8; 8; 8; 8; 8; 8; 8; 7; 8; 8; 8; 7; 8; 7; 7; 4;
   8; 8; 8; 8; 8; 8; 8; 7; 8; 8; 8; 7; 8; 7; 7; 5; 8; 8; 8; 7; 8; 7; 7; 5; 8; 7; 7; 5; 7; 5; 5; 4;
   8; 8; 8; 8; 8; 8; 8; 7; 8; 8; 8; 7; 8; 7; 7; 6; 8; 8; 8; 7; 8; 7; 7; 6; 8; 7; 7; 6; 7; 6; 6; 4;
   8; 8; 8; 7; 8; 7; 7; 6; 8; 7; 7; 6; 7; 6; 6; 5; 8; 7; 7; 6; 7; 6; 6; 5; 7; 6; 6; 5; 6; 5; 5; 4;
   8; 8; 8; 8; 8; 8; 8; 8; 8; 8; 8; 8; 8; 8; 8; 8; 8; 8; 8; 8; 8; 8; 8; 8; 8; 8; 8; 8; 8; 8; 8; 8;
   8; 8; 8; 8; 8; 8; 8; 8; 8; 8; 8; 8; 8; 8; 8; 8; 8; 8; 8; 8; 8; 8; 8; 8; 8; 8; 8; 8; 8; 8; 8; 5;
   8; 8; 8; 8; 8; 8; 8; 8; 8; 8; 8; 8; 8; 8; 8; 8; 8; 8; 8; 8; 8; 8; 8; 8; 8; 8; 8; 8; 8; 8; 8; 6;
   8; 8; 8; 8; 8; 8; 8; 8; 8; 8; 8; 8; 8; 8; 8; 6; 8; 8; 8; 8; 8; 8; 8; 6; 8; 8; 8; 6; 8; 6; 6; 5;
   8; 8; 8; 8; 8; 8; 8; 8; 8; 8; 8; 8; 8; 8; 8; 8; 8; 8; 8; 8; 8; 8; 8; 8; 8; 8; 8; 8; 8; 8; 8; 7;
   8; 8; 8; 8; 8; 8; 8; 8; 8; 8; 8; 8; 8; 8; 8; 7; 8; 8; 8; 8; 8; 8; 8; 7; 8; 8; 8; 7; 8; 7; 7; 5;
   8; 8; 8; 8; 8; 8; 8; 8; 8; 8; 8; 8; 8; 8; 8; 7; 8; 8; 8; 8; 8; 8; 8; 7; 8; 8; 8; 7; 8; 7; 7; 6;
   8; 8; 8; 8; 8; 8; 8; 7; 8; 8; 8; 7; 8; 7; 7; 6; 8; 8; 8; 7; 8; 7; 7; 6; 8; 7; 7; 6; 7; 6; 6; 5;
   8; 8; 8; 8; 8; 8; 8; 8; 8; 8; 8; 8; 8; 8; 8; 8; 8; 8; 8; 8; 8; 8; 8; 8; 8; 8; 8; 8; 8; 8; 8; 8;
   8; 8; 8; 8; 8; 8; 8; 8; 8; 8; 8; 8; 8; 8; 8; 8; 8; 8; 8; 8; 8; 8; 8; 8; 8; 8; 8; 8; 8; 8; 8; 8;
   8; 8; 8; 8; 8; 8; 8; 8; 8; 8; 8; 8; 8; 8; 8; 8; 8; 8; 8; 8; 8; 8; 8; 8; 8; 8; 8; 8; 8; 8; 8; 8;
   8; 8; 8; 8; 8; 8; 8; 8; 8; 8; 8; 8; 8; 8; 8; 8; 8; 8; 8; 8; 8; 8; 8; 8; 8; 8; 8; 8; 8; 8; 8; 6;
   8; 8; 8; 8; 8; 8; 8; 8; 8; 8; 8; 8; 8; 8; 8; 8; 8; 8; 8; 8; 8; 8; 8; 8; 8; 8; 8; 8; 8; 8; 8; 8;
   8; 8; 8; 8; 8; 8; 8; 8; 8; 8; 8; 8; 8; 8; 8; 8; 8; 8; 8; 8; 8; 8; 8; 8; 8; 8; 8; 8; 8; 8; 8; 7;
   8; 8; 8; 8; 8; 8; 8; 8; 8; 8; 8; 8; 8; 8; 8; 8; 8; 8; 8; 8; 8; 8; 8; 8; 8; 8; 8; 8; 8; 8; 8; 7;
   8; 8; 8; 8; 8; 8; 8; 8; 8; 8; 8; 8; 8; 8; 8; 7; 8; 8; 8; 8; 8; 8; 8; 7; 8; 8; 8; 7; 8; 7; 7; 6;
   8; 8; 8; 8; 8; 8; 8; 8; 8; 8; 8; 8; 8; 8; 8; 8; 8; 8; 8; 8; 8; 8; 8; 8; 8; 8; 8; 8; 8; 8; 8; 8;
   8; 8; 8; 8; 8; 8; 8; 8; 8; 8; 8; 8; 8; 8; 8; 8; 8; 8; 8; 8; 8; 8; 8; 8; 8; 8; 8; 8; 8; 8; 8; 8;
   8; 8; 8; 8; 8; 8; 8; 8; 8; 8; 8; 8; 8; 8; 8; 8; 8; 8; 8; 8; 8; 8; 8; 8; 8; 8; 8; 8; 8; 8; 8; 8;
   8; 8; 8; 8; 8; 8; 8; 8; 8; 8; 8; 8; 8; 8; 8; 8; 8; 8; 8; 8; 8; 8; 8; 8; 8; 8; 8; 8; 8; 8; 8; 8;
   8; 8; 8; 8; 8; 8; 8; 8; 8; 8; 8; 8; 8; 8; 8; 8; 8; 8; 8; 8; 8; 8; 8; 8; 8; 8; 8; 8; 8; 8; 8; 8;
   8; 8; 8; 8; 8; 8; 8; 8; 8; 8; 8; 8; 8; 8; 8; 8; 8; 8; 8; 8; 8; 8; 8; 8; 8; 8; 8; 8; 8; 8; 8; 8;
   8; 8; 8; 8; 8; 8; 8; 8; 8; 8; 8; 8; 8; 8; 8; 8; 8; 8; 8; 8; 8; 8; 8; 8; 8; 8; 8; 8; 8; 8; 8; 8;
   8; 8; 8; 8; 8; 8; 8; 8; 8; 8; 8; 8; 8; 8; 8; 8; 8; 8; 8; 8; 8; 8; 8; 8; 8; 8; 8; 8; 8; 8; 8; 7
].

Definition kOnesStep4 : Z := 0x1111111111111111.
Definition kOnesStep8 : Z := 0x0101010101010101.
Definition kMSBsStep8 : Z := (0x80 * kOnesStep8)%u64.

Definition _select64 (x k : Z) : Z :=
  if popcnt x <=? k then 64 else
  let s := x in
  let s := (s - ((s .& (0xA * kOnesStep4)) >>> 1))%u64 in
  let s := ((s .& (0x3 * kOnesStep4)) + ((s >>> 2) .& (0x3 * kOnesStep4)))%u64 in
  let s := ((s + (s >>> 4)) .& (0xF * kOnesStep8))%u64 in
  let byteSums := (s * kOnesStep8)%u64 in
  let kStep8 := (u64 k * kOnesStep8)%u64 in
  let geqKStep8 := (((kStep8 .| kMSBsStep8) - byteSums) .& kMSBsStep8)%u64 in
  let place := (popcnt geqKStep8 * 8)%u64 in
  let byteRank := (u64 k - (((byteSums <<< 8) >>> place) .& 0xFF))%u64 in
  (place + nth (Z.to_nat (((x >>> place) .& 0xFF) .| (byteRank <<< 8))) kSelectInByte 0)%u64.

(** The [pdep]/[tzcnt] branch is guarded by a macro no compiler defines
    ([__SSE4_2_], one underscore short), so the broadword version is the code. *)
Definition bitselect (val rank : Z) : Z := _select64 val rank.

Definition word_select (val rank : Z) : Z := bitselect val rank.

(** [gqf.c]: rank up to and including position [pos]; the variants that ignore the
    low [ignore % 64] bits; the [bsr] instruction. *)
Definition bitrank (val pos : Z) : Z := popcnt (val .& ((2 <<< pos) - 1))%u64.

Definition popcntv (val ignore : Z) : Z :=
  if negb (ignore mod 64 =? 0) then popcnt (val .& .~ (BITMASK (ignore mod 64)))%u64
  else popcnt val.

Definition bitselectv (val ignore rank : Z) : Z :=
  bitselect (val .& .~ (BITMASK (ignore mod 64)))%u64 rank.

Definition bitscanreverse (val : Z) : Z := if val =? 0 then -1 else Z.log2 val.


(** ** The byte sums *)

(** The three SWAR steps, on one byte. *)
Definition swar2 (b : Z) : Z := b - Z.land (Z.shiftr b 1) 0x55.
Definition swar4 (b : Z) : Z := Z.land b 0x33 + Z.land (Z.shiftr b 2) 0x33.
Definition swar8 (b : Z) : Z := Z.land (b + Z.shiftr b 4) 0x0F.
Definition popb (b : Z) : Z := cnt (Z.testbit b) 0 8.

Definition nibbles_small (c : Z) : bool := (0 <=? c) && (c mod 16 <=? 4) && (c / 16 <=? 4).

Lemma swar_bytes b :
  fits 8 b ->
  fits 8 (swar2 b) /\ nibbles_small (swar4 (swar2 b)) = true /\
  swar8 (swar4 (swar2 b)) = popb b.
Proof.
  intros Hb.
  assert (E : (0 <=? swar2 b) && (swar2 b <? 256) && nibbles_small (swar4 (swar2 b)) &&
              (swar8 (swar4 (swar2 b)) =? popb b) = true).
  { revert b Hb. apply (forall_below (fun b => (0 <=? swar2 b) && (swar2 b <? 256) &&
      nibbles_small (swar4 (swar2 b)) && (swar8 (swar4 (swar2 b)) =? popb b)) 256).
    vm_compute. reflexivity. }
  rewrite !andb_true_iff, Z.eqb_eq, Z.leb_le, Z.ltb_lt in E. unfold fits. intuition lia.
Qed.

(** The last step adds neighbouring nibbles of the whole word: small nibbles do not
    carry into the next byte. *)
Lemma le_word_nibbles bs :
  Forall (fun c => nibbles_small c = true) bs ->
  Z.land (le_word bs + Z.shiftr (le_word bs) 4) (le_word (repeat 15 (length bs))) =
  le_word (map swar8 bs) /\ (le_word bs) mod 16 <= 4 /\ 0 <= le_word bs.
Proof.
  induction 1 as [|b t Hb Ht (IH & Hm & Hp)]; cbn [length repeat map le_word].
  - split; [reflexivity|]. change (0 mod 16) with 0. lia.
  - unfold nibbles_small in Hb. rewrite !andb_true_iff, !Z.leb_le in Hb.
    destruct Hb as [[Hb0 Hb1] Hb2].
    set (T := le_word t) in *. split; [|split]; [|rewrite <- (Z_mod_plus_full b (16 * T) 16) in Hb1;
      replace (b + 256 * T) with (b + 16 * T * 16) by ring; exact Hb1|lia].
    rewrite <- IH.
    assert (E : b + 256 * T + Z.shiftr (b + 256 * T) 4 =
                (b + Z.shiftr b 4 + 16 * (T mod 16)) + 256 * (T + Z.shiftr T 4)).
    { rewrite !Z.shiftr_div_pow2 by lia. change (2 ^ 4) with 16.
      replace (b + 256 * T) with (b + (16 * T) * 16) by ring. rewrite Z.div_add by lia.
      pose proof (Z.div_mod T 16). lia. }
    rewrite E.
    assert (Hc : fits 8 (b + Z.shiftr b 4 + 16 * (T mod 16))).
    { rewrite Z.shiftr_div_pow2 by lia. change (2 ^ 4) with 16.
      pose proof (Z.mod_pos_bound T 16). pose proof (Z.div_mod b 16).
      unfold fits. change (2 ^ 8) with 256. lia. }
    assert (Hs : swar8 b = Z.land (b + Z.shiftr b 4 + 16 * (T mod 16)) 15).
    { unfold swar8. change 15 with (2 ^ 4 - 1). rewrite !land_mask by lia.
      change (2 ^ 4) with 16. rewrite (Z.mul_comm 16), Z_mod_plus_full. reflexivity. }
    rewrite Hs.
    assert (H15 : fits 8 15) by (unfold fits; lia).
    assert (Hl : fits 8 (Z.land (b + Z.shiftr b 4 + 16 * (T mod 16)) 15)) by solve_fits.
    apply Z.bits_inj'. intros i Hi. rewrite Z.land_spec, !testbit_byte_cons by assumption.
    rewrite !Z.land_spec. destruct (i <? 8); reflexivity.
Qed.

(** The value of [s] before the multiplication: one population count per byte. *)
Lemma byte_counts bs :
  length bs = 8%nat -> Forall (fits 8) bs ->
  let s := le_word bs in
  let s := (s - ((s .& (0xA * kOnesStep4)) >>> 1))%u64 in
  let s := ((s .& (0x3 * kOnesStep4)) + ((s >>> 2) .& (0x3 * kOnesStep4)))%u64 in
  ((s + (s >>> 4)) .& (0xF * kOnesStep8))%u64 = le_word (map popb bs).
Proof.
  intros Hlen Hbs. cbv zeta.
  assert (Hf : forall l, length l = 8%nat -> Forall (fits 8) l -> u64 (le_word l) = le_word l).
  { intros l Hl Hb. apply u64_small. pose proof (le_word_fits l Hb) as H.
    rewrite Hl in H. exact H. }
  assert (F2 : Forall (fits 8) (map swar2 bs)).
  { apply Forall_map. eapply Forall_impl; [|exact Hbs]. intros b Hb. apply (swar_bytes b Hb). }
  assert (F4 : Forall (fun c => nibbles_small c = true) (map swar4 (map swar2 bs))).
  { rewrite map_map. apply Forall_map. eapply Forall_impl; [|exact Hbs].
    intros b Hb. apply (swar_bytes b Hb). }
  assert (F4' : Forall (fits 8) (map swar4 (map swar2 bs))).
  { eapply Forall_impl; [|exact F4]. intros c Hc. unfold nibbles_small in Hc.
    rewrite !andb_true_iff, !Z.leb_le in Hc. unfold fits. change (2 ^ 8) with 256.
    pose proof (Z.div_mod c 16). lia. }
  assert (S2 : (le_word bs - ((le_word bs .& (0xA * kOnesStep4)) >>> 1))%u64 = le_word (map swar2 bs)).
  { unfold sub64. rewrite Z.shiftr_land.
    change (Z.shiftr (0xA * kOnesStep4)%u64 1) with (le_word (repeat 0x55 8)).
    rewrite <- Hlen, le_word_shiftr_land by (auto; unfold fits; lia).
    rewrite <- (map_id bs) at 1. rewrite le_word_sub. fold swar2.
    apply Hf; [rewrite length_map; exact Hlen|exact F2]. }
  rewrite S2.
  assert (S4 : ((le_word (map swar2 bs) .& (0x3 * kOnesStep4)) +
                ((le_word (map swar2 bs) >>> 2) .& (0x3 * kOnesStep4)))%u64 =
               le_word (map swar4 (map swar2 bs))).
  { unfold add64. change (0x3 * kOnesStep4)%u64 with (le_word (repeat 0x33 8)).
    replace 8%nat with (length (map swar2 bs)) by (rewrite length_map; exact Hlen).
    rewrite le_word_land, le_word_shiftr_land, le_word_add by (auto; unfold fits; lia).
    apply Hf; [rewrite !length_map; exact Hlen|exact F4']. }
  rewrite S4. unfold add64. change (0xF * kOnesStep8)%u64 with (le_word (repeat 15 8)).
  set (l := map swar4 (map swar2 bs)) in *.
  destruct (le_word_nibbles l F4) as (E & _ & _).
  assert (Hl : length l = 8%nat) by (subst l; rewrite !length_map; exact Hlen).
  rewrite Hl in E. rewrite land_u64 by (vm_compute; split; congruence). rewrite E.
  subst l. rewrite !map_map. f_equal. apply map_ext_Forall.
  eapply Forall_impl; [|exact Hbs]. intros b Hb. apply (swar_bytes b Hb).
Qed.

Lemma popb_bounds b : 0 <= popb b <= 8.
Proof. apply (cnt_bounds _ 0 8). Qed.

(** The ones in the first [m] bytes. *)
Definition prefix (bs : list Z) (m : nat) : Z := fold_right Z.add 0 (map popb (firstn m bs)).
Definition prefixes (bs : list Z) : list Z := map (fun i => prefix bs (S i)) (seq 0 (length bs)).

Lemma prefix_cons b bs m : prefix (b :: bs) (S m) = popb b + prefix bs m.
Proof. reflexivity. Qed.

Lemma prefix_mono bs i j : (i <= j)%nat -> 0 <= prefix bs i <= prefix bs j.
Proof.
  revert i j; induction bs as [|b bs IH]; intros i j H.
  - unfold prefix. rewrite !firstn_nil. simpl; lia.
  - destruct i as [|i], j as [|j]; try lia; rewrite ?prefix_cons.
    + unfold prefix; simpl; lia.
    + change (prefix (b :: bs) 0) with 0. specialize (IH 0%nat j ltac:(lia)).
      pose proof (popb_bounds b). lia.
    + specialize (IH i j ltac:(lia)). pose proof (popb_bounds b). lia.
Qed.

Lemma prefix_step bs m : prefix bs (S m) <= prefix bs m + 8.
Proof.
  revert m; induction bs as [|b bs IH]; intros m.
  - unfold prefix. rewrite !firstn_nil. simpl; lia.
  - pose proof (popb_bounds b). destruct m as [|m]; rewrite !prefix_cons.
    + unfold prefix; simpl; lia.
    + specialize (IH m). lia.
Qed.

Lemma prefix_bound bs i : prefix bs i <= 8 * Z.of_nat (length bs).
Proof.
  revert i; induction bs as [|b bs IH]; intros i; [unfold prefix; rewrite firstn_nil; simpl; lia|].
  destruct i as [|i]; [unfold prefix; simpl; lia|]. rewrite prefix_cons.
  specialize (IH i). pose proof (popb_bounds b). cbn [length]. lia.
Qed.

(** Multiplying by the ones word gives the prefix sums, byte by byte. *)
Lemma prefix_sums bs :
  length bs = 8%nat -> (le_word (map popb bs) * kOnesStep8)%u64 = le_word (prefixes bs).
Proof.
  intros Hl. do 8 (destruct bs as [|? bs]; [discriminate|]). destruct bs; [|discriminate].
  unfold prefixes, prefix. cbn [length seq map firstn fold_right].
  repeat match goal with |- context [popb ?b] =>
    pose proof (popb_bounds b); generalize dependent (popb b); intros ? ? end.
  unfold mul64, u64, uwrap. symmetry. cbn [le_word].
  match goal with |- _ = ((_ + 256 * (?p1 + 256 * (?p2 + 256 * (?p3 + 256 * (?p4 + 256 *
      (?p5 + 256 * (?p6 + 256 * (?p7 + _)))))))) * _) mod _ =>
    apply Z.mod_unique with
      (q := le_word [p1 + p2 + p3 + p4 + p5 + p6 + p7; p2 + p3 + p4 + p5 + p6 + p7;
                     p3 + p4 + p5 + p6 + p7; p4 + p5 + p6 + p7; p5 + p6 + p7; p6 + p7; p7])
  end.
  - left. change (2 ^ 64) with 18446744073709551616. lia.
  - change (2 ^ 64) with 18446744073709551616. unfold kOnesStep8. cbn [le_word]. ring.
Qed.

(** ** The reference, byte by byte *)

Lemma cnt_le_word b t n :
  fits 8 b -> cnt (Z.testbit (le_word (b :: t))) 0 (8 + n) =
  popb b + cnt (Z.testbit (le_word t)) 0 n.
Proof.
  intros Hb. rewrite cnt_app. unfold popb. f_equal.
  - apply cnt_ext. intros i Hi. cbn [le_word]. rewrite testbit_byte_cons by exact Hb.
    destruct (Z.ltb_spec i 8); [reflexivity|lia].
  - change (0 + Z.of_nat 8) with (0 + 8). rewrite <- cnt_shift. apply cnt_ext. intros i Hi.
    cbn [le_word]. rewrite testbit_byte_cons by exact Hb.
    destruct (Z.ltb_spec (i + 8) 8); [lia|]. f_equal; lia.
Qed.

Lemma sel_le_word b t k n :
  fits 8 b -> 0 <= k ->
  sel (Z.testbit (le_word (b :: t))) k 0 (8 + n) =
  if k <? popb b then sel (Z.testbit b) k 0 8
  else 8 + sel (Z.testbit (le_word t)) (k - popb b) 0 n.
Proof.
  intros Hb Hk. rewrite sel_app by exact Hk.
  assert (E : forall i, 0 <= i < 0 + Z.of_nat 8 ->
    Z.testbit (le_word (b :: t)) i = Z.testbit b i).
  { intros i Hi. cbn [le_word]. rewrite testbit_byte_cons by exact Hb.
    destruct (Z.ltb_spec i 8); [reflexivity|lia]. }
  rewrite (cnt_ext _ (Z.testbit b) 0 8 E), (sel_ext _ (Z.testbit b) k 0 8 E).
  fold (popb b). destruct (k <? popb b); [reflexivity|].
  change (0 + Z.of_nat 8) with (0 + 8).
  rewrite <- (sel_shift (Z.testbit (le_word (b :: t))) 8 (k - popb b) 0 n), (Z.add_comm 8). f_equal.
  apply sel_ext. intros i Hi. cbn [le_word]. rewrite testbit_byte_cons by exact Hb.
  destruct (Z.ltb_spec (i + 8) 8); [lia|]. f_equal; lia.
Qed.

(** The table is the byte-level select. *)
Lemma kSelectInByte_correct b r :
  fits 8 b -> 0 <= r < 8 ->
  nth (Z.to_nat (b .| (r <<< 8))%u64) kSelectInByte 0 = sel (Z.testbit b) r 0 8.
Proof.
  intros Hb Hr. apply Z.eqb_eq. revert b Hb.
  apply (forall_below (fun b => nth (Z.to_nat (b .| (r <<< 8))%u64) kSelectInByte 0
                                =? sel (Z.testbit b) r 0 8) 256).
  revert r Hr.
  apply (forall_below (fun r => forallb (fun b => nth (Z.to_nat (b .| (r <<< 8))%u64) kSelectInByte 0
                                =? sel (Z.testbit b) r 0 8) (map Z.of_nat (seq 0 256))) 8).
  vm_compute. reflexivity.
Qed.

(** ** The broadword selection *)

Lemma land_128 x : fits 8 x -> Z.land x 128 = if 128 <=? x then 128 else 0.
Proof.
  intros Hx. apply Z.eqb_eq. revert x Hx.
  apply (forall_below (fun x => Z.land x 128 =? if 128 <=? x then 128 else 0) 256).
  vm_compute. reflexivity.
Qed.

Lemma kStep8_msb k :
  0 <= k < 64 -> ((u64 k * kOnesStep8) .| kMSBsStep8)%u64 = le_word (repeat (k + 128) 8).
Proof.
  intros Hk. apply Z.eqb_eq. revert k Hk.
  apply (forall_below (fun k => ((u64 k * kOnesStep8) .| kMSBsStep8)%u64
                                =? le_word (repeat (k + 128) 8)) 64).
  vm_compute. reflexivity.
Qed.

(** [geqKStep8] marks the bytes whose prefix sum is at most [k]. *)
Lemma geq_marks k B :
  length B = 8%nat -> 0 <= k < 64 -> Forall (fun b => 0 <= b <= 64) B ->
  ((((u64 k * kOnesStep8) .| kMSBsStep8) - le_word B) .& kMSBsStep8)%u64 =
  le_word (map (fun b => if b <=? k then 128 else 0) B).
Proof.
  intros Hlen Hk HB. rewrite kStep8_msb by exact Hk.
  assert (E : le_word (repeat (k + 128) 8) = le_word (map (fun _ => k + 128) B)).
  { rewrite <- Hlen. clear. induction B; cbn [length repeat map le_word]; congruence. }
  rewrite E. unfold sub64. rewrite <- (map_id B) at 2. rewrite le_word_sub.
  assert (F : Forall (fits 8) (map (fun b => k + 128 - b) B)).
  { apply Forall_map. eapply Forall_impl; [|exact HB]. intros b Hb. cbv beta in Hb. unfold fits.
    change (2 ^ 8) with 256. lia. }
  rewrite land_u64 by (vm_compute; split; congruence).
  change kMSBsStep8 with (le_word (repeat 128 8)).
  replace 8%nat with (length (map (fun b => k + 128 - b) B)) by (rewrite length_map; exact Hlen).
  rewrite le_word_land by (auto; unfold fits; lia). rewrite map_map. f_equal.
  apply map_ext_Forall. eapply Forall_impl; [|exact HB]. intros b Hb. cbv beta in Hb.
  rewrite land_128 by (unfold fits; change (2 ^ 8) with 256; lia).
  destruct (Z.leb_spec 128 (k + 128 - b)), (Z.leb_spec b k); (lia || reflexivity).
Qed.

(** One byte position: the index arithmetic after [place] is known to be [8 * m]. *)
Lemma select_byte bs B m k :
  length bs = 8%nat -> Forall (fits 8) bs -> length B = 8%nat -> Forall (fits 8) B ->
  (m < 8)%nat -> 0 <= k < 64 -> 0 <= k - nth m (0 :: B) 0 < 8 ->
  let place := 8 * Z.of_nat m in
  let byteRank := (u64 k - (((le_word B <<< 8) >>> place) .& 0xFF))%u64 in
  (place + nth (Z.to_nat (((le_word bs >>> place) .& 0xFF) .| (byteRank <<< 8))) kSelectInByte 0)%u64 =
  8 * Z.of_nat m + sel (Z.testbit (nth m bs 0)) (k - nth m (0 :: B) 0) 0 8.
Proof.
  intros Hl Hb HlB HB Hm Hk Hr. cbv zeta.
  assert (E1 : ((le_word bs >>> (8 * Z.of_nat m)%Z) .& 0xFF)%u64 = nth m bs 0)
    by (apply le_word_byte; exact Hb).
  assert (E2 : (((le_word B <<< 8) >>> (8 * Z.of_nat m)%Z) .& 0xFF)%u64 = nth m (0 :: B) 0).
  { rewrite <- le_word_byte by (constructor; [unfold fits; lia|exact HB]). cbn [le_word].
    apply Z.bits_inj'. intros i Hi. change 0xFF with (Z.ones 8). unfold shl64, u64, uwrap.
    rewrite !Z.land_spec, !testbit_shiftr, testbit_ones by lia.
    destruct (Z.ltb_spec i 8); [|now rewrite !andb_false_r].
    rewrite testbit_mod_pow2, testbit_shiftl, testbit_byte_cons by (unfold fits; lia).
    destruct (Z.ltb_spec (i + 8 * Z.of_nat m) 64), (Z.ltb_spec (i + 8 * Z.of_nat m) 8),
      (Z.leb_spec 0 (i + 8 * Z.of_nat m)); try lia; [|reflexivity].
    rewrite (Z.testbit_neg_r (le_word B)), Z.testbit_0_l by lia. reflexivity. }
  rewrite E1, E2. clear E1 E2. set (r := k - nth m (0 :: B) 0) in *.
  assert (E3 : (u64 k - nth m (0 :: B) 0)%u64 = r).
  { unfold sub64. rewrite (u64_small k) by (unfold fits; lia). fold r.
    apply u64_small. unfold fits. lia. }
  rewrite E3, kSelectInByte_correct; [|apply Forall_nth; [exact Hb|lia]|exact Hr].
  pose proof (sel_range (Z.testbit (nth m bs 0)) r 0 8).
  unfold add64. apply u64_small. unfold fits. lia.
Qed.

(** The number of marked bytes. *)
Lemma popcnt_marks (l : list bool) :
  length l = 8%nat ->
  popcnt (le_word (map (fun c : bool => if c then 128 else 0) l)) =
  Z.of_nat (length (filter id l)).
Proof.
  assert (G : forall l, cnt (Z.testbit (le_word (map (fun c : bool => if c then 128 else 0) l)))
                0 (8 * length l) = Z.of_nat (length (filter id l))).
  { clear. induction l as [|c l IH]; [reflexivity|].
    cbn [map length]. replace (8 * S (length l))%nat with (8 + 8 * length l)%nat by lia.
    rewrite cnt_le_word by (destruct c; unfold fits; lia). rewrite IH.
    destruct c; cbn [filter id length]; [change (popb 128) with 1|change (popb 0) with 0]; lia. }
  intros Hl. rewrite <- G, Hl. reflexivity.
Qed.

(** The byte that holds the [k]-th one, counted from the prefix sums. *)
Lemma marked_prefix k B m :
  (m < length B)%nat ->
  (forall i, (i < m)%nat -> nth i B 0 <= k) -> (forall i, (m <= i < length B)%nat -> k < nth i B 0) ->
  length (filter id (map (fun b => b <=? k) B)) = m.
Proof.
  revert m; induction B as [|b B IH]; intros m Hm H1 H2; [simpl in Hm; lia|].
  destruct m as [|m]; cbn [map filter id].
  - pose proof (H2 0%nat ltac:(simpl; lia)) as Hb. cbn [nth] in Hb.
    destruct (Z.leb_spec b k); [lia|]. cbn [id].
    assert (E : forall i, (i < length B)%nat -> k < nth i B 0)
      by (intros i Hi; apply (H2 (S i)); simpl; lia).
    clear - E. induction B as [|c B IH]; [reflexivity|]. cbn [map filter id].
    pose proof (E 0%nat ltac:(simpl; lia)) as Hc. cbn [nth] in Hc.
    destruct (Z.leb_spec c k); [lia|]. cbn [id]. apply IH. intros i Hi. apply (E (S i)). simpl; lia.
  - pose proof (H1 0%nat ltac:(simpl; lia)) as Hb. cbn [nth] in Hb.
    destruct (Z.leb_spec b k); [|lia]. cbn [id length]. f_equal.
    apply IH; [simpl in Hm; lia|..].
    + intros i Hi. apply (H1 (S i)). lia.
    + intros i Hi. apply (H2 (S i)). simpl; lia.
Qed.

Lemma nth_prefixes bs i : (i < length bs)%nat -> nth i (prefixes bs) 0 = prefix bs (S i).
Proof.
  intros H. unfold prefixes. rewrite nth_indep with (d' := prefix bs (S 0))
    by (rewrite length_map, length_seq; exact H).
  rewrite (map_nth (fun i => prefix bs (S i))), seq_nth by exact H. reflexivity.
Qed.

Lemma cnt_bytes bs :
  Forall (fits 8) bs ->
  cnt (Z.testbit (le_word bs)) 0 (8 * length bs) = prefix bs (length bs).
Proof.
  induction 1 as [|b t Hb Ht IH]; [reflexivity|].
  cbn [length]. replace (8 * S (length t))%nat with (8 + 8 * length t)%nat by lia.
  rewrite cnt_le_word, IH, prefix_cons by exact Hb. reflexivity.
Qed.

(** The reference select finds the byte by the prefix sums. *)
Lemma sel_bytes bs k :
  Forall (fits 8) bs -> 0 <= k < prefix bs (length bs) ->
  exists m, (m < length bs)%nat /\ prefix bs m <= k < prefix bs (S m) /\
    sel (Z.testbit (le_word bs)) k 0 (8 * length bs) =
    8 * Z.of_nat m + sel (Z.testbit (nth m bs 0)) (k - prefix bs m) 0 8.
Proof.
  intros Hbs. revert k. induction Hbs as [|b t Hb Ht IH]; intros k Hk; cbn [length] in *.
  - unfold prefix in Hk. simpl in Hk. lia.
  - rewrite prefix_cons in Hk. replace (8 * S (length t))%nat with (8 + 8 * length t)%nat by lia.
    rewrite sel_le_word by (auto; lia). destruct (Z.ltb_spec k (popb b)).
    + exists 0%nat. rewrite prefix_cons. unfold prefix at 1 2 3. cbn [firstn map fold_right nth].
      replace (k - 0) with k by lia. split; [lia|]. split; lia.
    + destruct (IH (k - popb b)) as (m & Hm & Hp & E); [lia|].
      exists (S m). rewrite !prefix_cons in *. split; [lia|]. split; [lia|].
      rewrite E. cbn [nth]. replace (k - popb b - prefix t m) with (k - (popb b + prefix t m)) by lia.
      lia.
Qed.

Lemma select64_spec x k :
  fits 64 x -> 0 <= k -> _select64 x k = sel (Z.testbit x) k 0 64.
Proof.
  intros Hx Hk. cbv delta [_select64] beta.
  destruct (Z.leb_spec (popcnt x) k) as [Hle|Hlt]; cbv iota.
  { symmetry. apply sel_none. exact Hle. }
  rewrite (le_word_inj_8 x Hx) in Hlt |- *.
  pose proof (bytes_of_fits 8 x) as Hbs. pose proof (length_bytes_of 8 x) as Hl.
  clear Hx. revert Hlt Hbs Hl. generalize (bytes_of 8 x). clear x. intros bs Hlt Hbs Hl.
  unfold popcnt in Hlt. change 64%nat with (8 * 8)%nat in *. rewrite <- Hl in Hlt at 2.
  rewrite cnt_bytes in Hlt by exact Hbs.
  destruct (sel_bytes bs k Hbs) as (m & Hm & Hp & E); [lia|].
  rewrite Hl in E, Hm. rewrite E. clear E.
  assert (HB : Forall (fun b => 0 <= b <= 64) (prefixes bs)).
  { apply Forall_map, Forall_forall. intros i _. cbv beta.
    pose proof (prefix_mono bs (S i) (S i)). pose proof (prefix_bound bs (S i)). lia. }
  assert (HlB : length (prefixes bs) = 8%nat) by (unfold prefixes; now rewrite length_map, length_seq).
  assert (Hk64 : 0 <= k < 64) by (pose proof (prefix_bound bs (length bs)); lia).
  enter_let. enter_let. enter_let.
  let_step (le_word (map popb bs)); [apply byte_counts; auto|].
  let_step (le_word (prefixes bs)); [apply prefix_sums; exact Hl|].
  enter_let.
  let_step (le_word (map (fun c : bool => if c then 128 else 0) (map (fun b => b <=? k) (prefixes bs))));
    [rewrite geq_marks, map_map by assumption; reflexivity|].
  let_step (8 * Z.of_nat m).
  { rewrite popcnt_marks by (rewrite length_map; exact HlB).
    rewrite (marked_prefix k (prefixes bs) m).
    - unfold mul64. rewrite u64_small by (unfold fits; lia). lia.
    - lia.
    - intros i Hi. rewrite nth_prefixes by lia. pose proof (prefix_mono bs (S i) m). lia.
    - intros i Hi. rewrite nth_prefixes by lia. pose proof (prefix_mono bs (S m) (S i)). lia. }
  assert (Hn : nth m (0 :: prefixes bs) 0 = prefix bs m)
    by (destruct m; [reflexivity|cbn [nth]; apply nth_prefixes; lia]).
  rewrite <- Hn. apply select_byte; auto; try lia.
  - eapply Forall_impl; [|exact HB]. intros b Hb. cbv beta in Hb. unfold fits. lia.
  - rewrite Hn. pose proof (prefix_step bs m). lia.
Qed.

Lemma bitselect_spec x k :
  fits 64 x -> 0 <= k -> bitselect x k = sel (Z.testbit x) k 0 64.
Proof. exact (select64_spec x k). Qed.

(** The broadword [_select64] (and so [bitselect]) computes the position of the
    one of index [k] of every 64-bit word, and 64 when there are fewer than [k + 1]
    ones. *)
Theorem select64_correct x k :
  fits 64 x -> 0 <= k -> _select64 x k = sel (Z.testbit x) k 0 64.
Proof. apply select64_spec. Qed.

Lemma select64_correct_witness :
  _select64 0x8000000000000101 2 = sel (Z.testbit 0x8000000000000101) 2 0 64.
Proof. apply select64_correct; unfold fits; lia. Defined.

(** ** The masked variants *)

Lemma BITMASK_ones n : 0 <= n <= 64 -> BITMASK n = Z.ones n.
Proof.
  intros Hn. unfold BITMASK, MAX_VALUE. destruct (Z.eqb_spec n 64) as [->|]; [reflexivity|].
  unfold shl64, sub64. rewrite Z.shiftl_1_l, Z.ones_equiv.
  assert (2 ^ n < 2 ^ 64) by (apply Z.pow_lt_mono_r; lia).
  assert (0 < 2 ^ n) by (apply Z.pow_pos_nonneg; lia).
  rewrite (u64_small (2 ^ n)) by (unfold fits; lia). rewrite u64_small by (unfold fits; lia). lia.
Qed.

Lemma testbit_not64 x i : Z.testbit (.~ x)%u64 i = (0 <=? i) && (i <? 64) && negb (Z.testbit x i).
Proof.
  unfold not64, u64, uwrap. rewrite testbit_mod_pow2, testbit_lnot by lia.
  destruct (i <? 64), (0 <=? i); reflexivity.
Qed.

(** [bitrank] counts the ones at positions [0 .. pos]. *)
Lemma bitrank_spec val pos :
  0 <= pos < 64 -> bitrank val pos = rank (Z.testbit val) 0 (pos + 1).
Proof.
  intros Hp. unfold bitrank, popcnt, rank.
  assert (E : ((2 <<< pos) - 1)%u64 = Z.ones (pos + 1)).
  { unfold shl64, sub64. rewrite Z.shiftl_mul_pow2, Z.ones_equiv by lia.
    replace (2 * 2 ^ pos) with (2 ^ (pos + 1)) by (rewrite Z.pow_add_r; lia).
    destruct (Z.eq_dec pos 63) as [->|]; [reflexivity|].
    assert (2 ^ (pos + 1) < 2 ^ 64) by (apply Z.pow_lt_mono_r; lia).
    assert (0 < 2 ^ (pos + 1)) by (apply Z.pow_pos_nonneg; lia).
    rewrite (u64_small (2 ^ (pos + 1))) by (unfold fits; lia).
    rewrite u64_small by (unfold fits; lia). lia. }
  rewrite E. replace 64%nat with (Z.to_nat (pos + 1 - 0) + Z.to_nat (63 - pos))%nat by lia.
  assert (B : forall i, 0 <= i -> Z.testbit (val .& Z.ones (pos + 1))%u64 i
                        = (i <? pos + 1) && Z.testbit val i).
  { intros i Hi. rewrite Z.land_spec, testbit_ones by lia.
    destruct (Z.leb_spec 0 i); [|lia]. apply andb_comm. }
  rewrite cnt_app, (cnt_false _ (0 + _)), Z.add_0_r.
  - apply cnt_ext. intros i Hi. rewrite B by lia.
    destruct (Z.ltb_spec i (pos + 1)); [reflexivity|lia].
  - intros i Hi. rewrite B by lia. destruct (Z.ltb_spec i (pos + 1)); [lia|reflexivity].
Qed.

Lemma testbit_ignore val g i :
  0 <= g <= 64 -> 0 <= i < 64 ->
  Z.testbit (val .& .~ (Z.ones g))%u64 i = (g <=? i) && Z.testbit val i.
Proof.
  intros Hg Hi. rewrite Z.land_spec, testbit_not64, testbit_ones by lia.
  destruct (Z.leb_spec 0 i), (Z.ltb_spec i 64), (Z.ltb_spec i g), (Z.leb_spec g i); try lia;
  cbn [andb negb]; now rewrite ?andb_true_r, ?andb_false_r.
Qed.

(** The masked select skips the ones below [ignore % 64]. *)
Lemma bitselectv_spec val ignore k :
  fits 64 val -> 0 <= k ->
  bitselectv val ignore k =
  sel (Z.testbit val) k (ignore mod 64) (Z.to_nat (64 - ignore mod 64)).
Proof.
  intros Hv Hk. unfold bitselectv. pose proof (Z.mod_pos_bound ignore 64).
  set (g := ignore mod 64) in *. rewrite BITMASK_ones by lia.
  rewrite bitselect_spec by (auto; apply land_fits_l; auto; lia).
  assert (B : forall i, 0 <= i < 64 -> Z.testbit (val .& .~ (Z.ones g))%u64 i = (g <=? i) && Z.testbit val i)
    by (intros; apply testbit_ignore; lia).
  replace 64%nat with (Z.to_nat g + Z.to_nat (64 - g))%nat by lia.
  rewrite sel_app, cnt_false by
    first [lia | intros i Hi; rewrite B by lia; destruct (Z.leb_spec g i); [lia|reflexivity]].
  destruct (Z.ltb_spec k 0); [lia|]. replace (0 + Z.of_nat (Z.to_nat g)) with g by lia.
  rewrite Z.sub_0_r. apply sel_ext. intros i Hi. rewrite B by lia.
  destruct (Z.leb_spec g i); [reflexivity|lia].
Qed.

Lemma popcntv_spec val ignore :
  popcntv val ignore = rank (Z.testbit val) (ignore mod 64) 64.
Proof.
  unfold popcntv, popcnt. pose proof (Z.mod_pos_bound ignore 64).
  destruct (Z.eqb_spec (ignore mod 64) 0) as [->|Hz]; cbn [negb]; [reflexivity|].
  set (g := ignore mod 64) in *. rewrite BITMASK_ones by lia. unfold rank.
  assert (B : forall i, 0 <= i < 64 -> Z.testbit (val .& .~ (Z.ones g))%u64 i = (g <=? i) && Z.testbit val i)
    by (intros; apply testbit_ignore; lia).
  replace 64%nat with (Z.to_nat g + Z.to_nat (64 - g))%nat by lia.
  rewrite cnt_app, cnt_false, Z.add_0_l.
  - replace (0 + Z.of_nat (Z.to_nat g)) with g by lia. apply cnt_ext. intros i Hi.
    rewrite B by lia. destruct (Z.leb_spec g i); [reflexivity|lia].
  - intros i Hi. rewrite B by lia. destruct (Z.leb_spec g i); [lia|reflexivity].
Qed.
