(* ===== verification/Hashutil.v ===== *)
(** * Hash functions ([terrace/code/src/gqf/hashutil.c])

    [hash_64] and its inverse [hash_64i] (Thomas Wang's integer hash, used by the
    [QF_HASH_INVERTIBLE] mode) and the 64-bit MurmurHash2 variants (used by
    [QF_HASH_DEFAULT]). *)

From Stdlib Require Import ZArith Lia List Bool.
From S2P Require Import Prelude.
Import ListNotations.
#[local] Open Scope Z_scope.

(** ** Thomas Wang's hash and its inverse *)

Definition hash_64 (key mask : Z) : Z :=
  let key := ((.~ key + (key <<< 21)) .& mask)%u64 in
  let key := (key .^ (key >>> 24))%u64 in
  let key := (((key + (key <<< 3)) + (key <<< 8)) .& mask)%u64 in
  let key := (key .^ (key >>> 14))%u64 in
  let key := (((key + (key <<< 2)) + (key <<< 4)) .& mask)%u64 in
  let key := (key .^ (key >>> 28))%u64 in
  let key := ((key + (key <<< 31)) .& mask)%u64 in
  key.

Definition hash_64i (key mask : Z) : Z :=
  let tmp := (key - (key <<< 31))%u64 in
  let key := ((key - (tmp <<< 31)) .& mask)%u64 in
  let tmp := (key .^ (key >>> 28))%u64 in
  let key := (key .^ (tmp >>> 28))%u64 in
  let key := ((key * 14933078535860113213) .& mask)%u64 in
  let tmp := (key .^ (key >>> 14))%u64 in
  let tmp := (key .^ (tmp >>> 14))%u64 in
  let tmp := (key .^ (tmp >>> 14))%u64 in
  let key := (key .^ (tmp >>> 14))%u64 in
  let key := ((key * 15244667743933553977) .& mask)%u64 in
  let tmp := (key .^ (key >>> 24))%u64 in
  let key := (key .^ (tmp >>> 24))%u64 in
  let tmp := (.~ key)%u64 in
  let tmp := (.~ (key - (tmp <<< 21)))%u64 in
  let tmp := (.~ (key - (tmp <<< 21)))%u64 in
  let key := ((.~ (key - (tmp <<< 21))) .& mask)%u64 in
  key.

(** ** MurmurHash2, 64-bit versions

    The key is given as the list of its bytes; [data] is read as little-endian
    words, the last [len mod 8] bytes one by one. *)

(** The 64-bit words [data], ..., [end - 1] and the remaining bytes [data2]. *)
Fixpoint words_of (n : nat) (k : nat) (bs : list Z) : list Z :=
  match n with
  | O => []
  | S n => le_word (firstn k bs) :: words_of n k (skipn k bs)
  end.

Definition murmur_m : Z := 0xc6a4a7935bd1e995.

Definition murmur_mix_k (k : Z) : Z :=
  let k := (k * murmur_m)%u64 in
  let k := (k .^ (k >>> 47))%u64 in
  (k * murmur_m)%u64.

(** One iteration of [while (data != end)]. *)
Definition murmur_round (h k : Z) : Z :=
  let k := murmur_mix_k k in
  let h := (h .^ k)%u64 in
  (h * murmur_m)%u64.

(** The [switch(len & 7)] with its fall-through: byte [i] enters at bit [8 * i],
    highest first, and the product is taken when there is at least one byte. *)
Definition murmur_tail (h : Z) (data2 : list Z) : Z :=
  match data2 with
  | [] => h
  | _ =>
    let h := fold_right (fun ib h => (h .^ (snd ib <<< (8 * fst ib)))%u64) h
               (combine (map Z.of_nat (seq 0 (length data2))) data2) in
    (h * murmur_m)%u64
  end.

Definition murmur_final (h : Z) : Z :=
  let h := (h .^ (h >>> 47))%u64 in
  let h := (h * murmur_m)%u64 in
  (h .^ (h >>> 47))%u64.

Definition MurmurHash64A (key : list Z) (seed : Z) : Z :=
  let len := Z.of_nat (length key) in
  let h := (seed .^ (len * murmur_m))%u64 in
  let nwords := (length key / 8)%nat in
  let data2 := skipn (8 * nwords) key in
  let h := fold_left murmur_round (words_of nwords 8 key) h in
  murmur_final (murmur_tail h data2).

(** ** The steps of [hash_64] as arithmetic modulo [2^k] *)

(** [x ^ x >> n] *)
Definition xorshift (n x : Z) : Z := Z.lxor x (Z.shiftr x n).
(** [m] rounds of [t = y ^ t >> n] from [t = y]. *)
Fixpoint unshift (n : Z) (m : nat) (y : Z) : Z :=
  match m with
  | O => y
  | S m => Z.lxor y (Z.shiftr (unshift n m y) n)
  end.
Definition mulmod (k c x : Z) : Z := (x * c) mod 2 ^ k.

Lemma masked_step k e e' :
  0 <= k <= 64 -> eqw k e e' -> Z.land e (2 ^ k - 1) = e' mod 2 ^ k.
Proof. intros Hk H. rewrite land_mask by lia. exact H. Qed.

Lemma unshift_xorshift n m x :
  0 <= n -> unshift n m (xorshift n x) = Z.lxor x (Z.shiftr x (n * (Z.of_nat m + 1))).
Proof.
  intros Hn. induction m as [|m IH]; cbn [unshift].
  - unfold xorshift. do 2 f_equal. lia.
  - rewrite IH. unfold xorshift. bits. 
    replace (i + n + n * (Z.of_nat m + 1)) with (i + n * (Z.of_nat (S m) + 1)) by lia.
    btauto.
Qed.

Lemma xorshift_unshift n m y :
  0 <= n -> xorshift n (unshift n m y) = Z.lxor y (Z.shiftr y (n * (Z.of_nat m + 1))).
Proof.
  intros Hn. induction m as [|m IH]; cbn [unshift].
  - unfold xorshift. do 2 f_equal. lia.
  - unfold xorshift in *. apply (f_equal (fun t => Z.shiftr t n)) in IH.
    rewrite !Z.shiftr_lxor, !(Z.shiftr_shiftr y) in IH by lia.
    rewrite Z.shiftr_lxor, <- Z.lxor_assoc, (Z.lxor_assoc y), (Z.lxor_comm _ (Z.shiftr y n)),
      <- Z.lxor_assoc, Z.lxor_assoc, IH.
    bits. replace (i + n * (Z.of_nat (S m) + 1)) with (i + (n * (Z.of_nat m + 1) + n)) by lia.
    btauto.
Qed.

Section Wang.
Variable k : Z.
Hypothesis Hk : 0 < k <= 64.
#[local] Abbreviation mask := (2 ^ k - 1).

Lemma hash_64_steps key :
  hash_64 key mask =
  mulmod k (1 + 2 ^ 31) (xorshift 28 (mulmod k 21 (xorshift 14 (mulmod k 265
    (xorshift 24 ((key * (2 ^ 21 - 1) - 1) mod 2 ^ k)))))).
Proof.
  cbv delta [hash_64] beta. set (a := (key * (2 ^ 21 - 1) - 1) mod 2 ^ k).
  let_step a; [apply masked_step; [lia|eqw_ring]|].
  let_step (xorshift 24 a); [reflexivity|]. set (b := xorshift 24 a).
  let_step (mulmod k 265 b); [apply masked_step; [lia|eqw_ring]|].
  set (c := mulmod k 265 b).
  let_step (xorshift 14 c); [reflexivity|]. set (d := xorshift 14 c).
  let_step (mulmod k 21 d); [apply masked_step; [lia|eqw_ring]|].
  set (e := mulmod k 21 d).
  let_step (xorshift 28 e); [reflexivity|]. set (f := xorshift 28 e).
  apply masked_step; [lia|eqw_ring].
Qed.

Lemma hash_64i_steps key :
  hash_64i key mask =
  mulmod k (1 + 2 ^ 21 + 2 ^ 42 + 2 ^ 63) (-1 - unshift 24 2
   (mulmod k 15244667743933553977 (unshift 14 4
    (mulmod k 14933078535860113213 (unshift 28 2
     (mulmod k (1 - 2 ^ 31 + 2 ^ 62) key)))))).
Proof.
  cbv delta [hash_64i] beta.
  let_step (key - (key <<< 31))%u64; [reflexivity|].
  let_step (mulmod k (1 - 2 ^ 31 + 2 ^ 62) key); [apply masked_step; [lia|eqw_ring]|].
  set (a := mulmod k _ key).
  let_step (unshift 28 1 a); [reflexivity|].
  let_step (unshift 28 2 a); [reflexivity|]. set (b := unshift _ _ a).
  let_step (mulmod k 14933078535860113213 b); [apply masked_step; [lia|eqw_ring]|].
  set (c := mulmod k _ b).
  let_step (unshift 14 1 c); [reflexivity|].
  let_step (unshift 14 2 c); [reflexivity|].
  let_step (unshift 14 3 c); [reflexivity|].
  let_step (unshift 14 4 c); [reflexivity|]. set (d := unshift _ _ c).
  let_step (mulmod k 15244667743933553977 d); [apply masked_step; [lia|eqw_ring]|].
  set (e := mulmod k _ d).
  let_step (unshift 24 1 e); [reflexivity|].
  let_step (unshift 24 2 e); [reflexivity|]. set (f := unshift _ _ e).
  let_step (.~ f)%u64; [reflexivity|].
  let_step (.~ (f - ((.~ f) <<< 21)))%u64; [reflexivity|].
  let_step (.~ (f - ((.~ (f - ((.~ f) <<< 21))) <<< 21)))%u64; [reflexivity|].
  apply masked_step; [lia|]. eqw_ring.
Qed.

Lemma mulmod_fits c x : fits k (mulmod k c x).
Proof. apply uwrap_fits. lia. Qed.

Lemma xorshift_fits n x : 0 <= n -> fits k x -> fits k (xorshift n x).
Proof. intros. unfold xorshift. solve_fits. Qed.

Lemma unshift_fits n m x : 0 <= n -> fits k x -> fits k (unshift n m x).
Proof. intros Hn Hx. induction m; simpl; solve_fits. Qed.

Lemma mulmod_inv c c' x :
  (c * c') mod 2 ^ 64 = 1 -> fits k x -> mulmod k c' (mulmod k c x) = x.
Proof.
  intros Hc Hx. apply (eqw_fits k); [|apply mulmod_fits|exact Hx].
  unfold mulmod. rewrite !eqw_mod by lia.
  rewrite <- Z.mul_assoc, <- (eqw_mod k 64 (c * c')), Hc by lia.
  apply eq_eqw; ring.
Qed.

Lemma unshift_inv n m x :
  0 < n -> 64 <= n * (Z.of_nat m + 1) -> fits k x -> unshift n m (xorshift n x) = x.
Proof.
  intros Hn Hm Hx. rewrite unshift_xorshift, (shiftr_fits_0 k) by (auto; lia).
  apply Z.lxor_0_r.
Qed.

Lemma xorshift_inv n m x :
  0 < n -> 64 <= n * (Z.of_nat m + 1) -> fits k x -> xorshift n (unshift n m x) = x.
Proof.
  intros Hn Hm Hx. rewrite xorshift_unshift, (shiftr_fits_0 k) by (auto; lia).
  apply Z.lxor_0_r.
Qed.
End Wang.

#[export] Hint Resolve mulmod_fits xorshift_fits unshift_fits : words.

(** The modular inverses the decoder uses. *)
Ltac wang_inv k :=
  repeat first
    [ rewrite (mulmod_inv k) by (solve [solve_fits|reflexivity])
    | rewrite (unshift_inv k) by solve_fits
    | rewrite (xorshift_inv k) by solve_fits ].

(** [~key + (key << 21)] and its inverse, up to the multiple of [2^84] the last
    inversion drops. *)
Lemma affine_inv k x :
  0 < k <= 64 ->
  eqw k ((-1 - (x * (2 ^ 21 - 1) - 1)) * (1 + 2 ^ 21 + 2 ^ 42 + 2 ^ 63)) x.
Proof.
  intros Hk. transitivity (x - (x * 2 ^ 20) * 2 ^ 64).
  - apply eq_eqw. change (2 ^ 42) with (2 ^ 21 * 2 ^ 21).
    change (2 ^ 63) with (2 ^ 21 * 2 ^ 21 * 2 ^ 21).
    change (2 ^ 64) with (2 * 2 ^ 21 * 2 ^ 21 * 2 ^ 21).
    change (2 ^ 21) with (2 * 2 ^ 20). generalize (2 ^ 20). intros; ring.
  - rewrite (eqw_mul_pow k 64) by lia. apply eq_eqw; ring.
Qed.

(** C33: for every mask of [k] bits, [0 < k <= 64], [hash_64i] inverts [hash_64] on
    the [k]-bit keys, in both orders: [hash_64] is a bijection of [0 .. 2^k - 1]. *)
Theorem hash_64_bijection k key :
  0 < k <= 64 -> fits k key ->
  hash_64i (hash_64 key (2 ^ k - 1)) (2 ^ k - 1) = key /\
  hash_64 (hash_64i key (2 ^ k - 1)) (2 ^ k - 1) = key /\
  fits k (hash_64 key (2 ^ k - 1)).
Proof.
  intros Hk Hx. rewrite !hash_64_steps, !hash_64i_steps by exact Hk.
  split; [|split].
  - wang_inv k. apply (eqw_fits k); solve_fits.
    unfold mulmod. rewrite !eqw_mod by lia. apply affine_inv; lia.
  - assert (E : forall f, fits k f ->
      (mulmod k (1 + 2 ^ 21 + 2 ^ 42 + 2 ^ 63) (-1 - f) * (2 ^ 21 - 1) - 1) mod 2 ^ k = f).
    { intros f Hf. apply (eqw_fits k); [|solve_fits..]. unfold mulmod.
      rewrite !eqw_mod by lia.
      pose proof (affine_inv k (-1 - f) Hk) as A. revert A.
      generalize (1 + 2 ^ 21 + 2 ^ 42 + 2 ^ 63) (2 ^ 21 - 1). intros s p A.
      transitivity (-1 - (-1 - ((-1 - f) * p - 1)) * s); [apply eq_eqw; ring|].
      rewrite A. apply eq_eqw; ring. }
    rewrite E by solve_fits. wang_inv k. reflexivity.
  - solve_fits.
Qed.

Lemma hash_64_bijection_witness :
  hash_64i (hash_64 123456 (2 ^ 17 - 1)) (2 ^ 17 - 1) = 123456 /\
  hash_64 (hash_64i 123456 (2 ^ 17 - 1)) (2 ^ 17 - 1) = 123456 /\
  fits 17 (hash_64 123456 (2 ^ 17 - 1)).
Proof. apply (hash_64_bijection 17 123456); [lia|unfold fits; lia]. Defined.

(** ** MurmurHash64B: the 32-bit variant *)

Definition murmur_m32 : Z := 0x5bd1e995.

(** [k *= m; k ^= k >> r; k *= m], with [r = 24] *)
Definition murmurB_mix_k (k : Z) : Z :=
  let k := u32 (k * murmur_m32) in
  let k := Z.lxor k (Z.shiftr k 24) in
  u32 (k * murmur_m32).

(** [h *= m; h ^= k] *)
Definition murmurB_round (h k : Z) : Z :=
  Z.lxor (u32 (h * murmur_m32)) (murmurB_mix_k k).

(** The [switch(len)] on the last one to three bytes. *)
Definition murmurB_tail (h2 : Z) (data : list Z) : Z :=
  match data with
  | [b0] => u32 (Z.lxor h2 b0 * murmur_m32)
  | [b0; b1] => u32 (Z.lxor (Z.lxor h2 (Z.shiftl b1 8)) b0 * murmur_m32)
  | [b0; b1; b2] =>
      u32 (Z.lxor (Z.lxor (Z.lxor h2 (Z.shiftl b2 16)) (Z.shiftl b1 8)) b0 * murmur_m32)
  | _ => h2
  end.

(** [while (len >= 8)], then [if (len >= 4)], then the tail: the words of the key
    go alternately to [h1] and [h2]. [fuel] bounds the iterations by the length. *)
Fixpoint murmurB_data (fuel : nat) (h1 h2 : Z) (data : list Z) : Z * Z :=
  match fuel with
  | O => (h1, h2)
  | S fuel =>
    if (8 <=? length data)%nat then
      let h1 := murmurB_round h1 (le_word (firstn 4 data)) in
      let data := skipn 4 data in
      let h2 := murmurB_round h2 (le_word (firstn 4 data)) in
      murmurB_data fuel h1 h2 (skipn 4 data)
    else if (4 <=? length data)%nat then
      (murmurB_round h1 (le_word (firstn 4 data)), murmurB_tail h2 (skipn 4 data))
    else (h1, murmurB_tail h2 data)
  end.

Definition murmurB_final (h1 h2 : Z) : Z :=
  let h1 := u32 (Z.lxor h1 (Z.shiftr h2 18) * murmur_m32) in
  let h2 := u32 (Z.lxor h2 (Z.shiftr h1 22) * murmur_m32) in
  let h1 := u32 (Z.lxor h1 (Z.shiftr h2 17) * murmur_m32) in
  let h2 := u32 (Z.lxor h2 (Z.shiftr h1 19) * murmur_m32) in
  ((h1 <<< 32) .| h2)%u64.

Definition MurmurHash64B (key : list Z) (seed : Z) : Z :=
  let len := Z.of_nat (length key) in
  let h1 := Z.lxor seed (u32 len) in
  let '(h1, h2) := murmurB_data (S (length key)) h1 0 key in
  murmurB_final h1 h2.

(** ** Injectivity on one-word keys *)

Lemma xorshift_inj w n x y :
  0 < w <= 64 -> 0 < n -> 64 <= n * 3 -> fits w x -> fits w y ->
  xorshift n x = xorshift n y -> x = y.
Proof.
  intros Hw Hn Hm Hx Hy H. apply (f_equal (unshift n 2)) in H.
  rewrite !(unshift_inv w) in H by (auto; lia). exact H.
Qed.

Lemma mulmod_inj w c c' x y :
  0 < w <= 64 -> (c * c') mod 2 ^ 64 = 1 -> fits w x -> fits w y ->
  mulmod w c x = mulmod w c y -> x = y.
Proof.
  intros Hw Hc Hx Hy H. apply (f_equal (mulmod w c')) in H.
  rewrite !(mulmod_inv w) in H by auto. exact H.
Qed.

Lemma lxor_inj_l a x y : Z.lxor x a = Z.lxor y a -> x = y.
Proof.
  intros H. apply (f_equal (fun t => Z.lxor t a)) in H.
  rewrite !Z.lxor_assoc, Z.lxor_nilpotent, !Z.lxor_0_r in H. exact H.
Qed.

Lemma lxor_inj_r a x y : Z.lxor a x = Z.lxor a y -> x = y.
Proof. rewrite !(Z.lxor_comm a). apply lxor_inj_l. Qed.

#[export] Hint Extern 1 (fits _ murmur_m) => (unfold fits, murmur_m; lia) : words.

Lemma mul_m_inj x y : fits 64 x -> fits 64 y ->
  (x * murmur_m)%u64 = (y * murmur_m)%u64 -> x = y.
Proof. apply (mulmod_inj 64 murmur_m 0x5f7a0ea7e59b19bd); [lia|reflexivity]. Qed.

Lemma mul64_fits x y : fits 64 (mul64 x y).
Proof. apply u64_fits. Qed.
#[export] Hint Resolve mul64_fits : words.

Lemma murmur_mix_k_inj x y :
  fits 64 x -> fits 64 y -> murmur_mix_k x = murmur_mix_k y -> x = y.
Proof.
  intros Hx Hy H. unfold murmur_mix_k in H.
  apply mul_m_inj in H; solve_fits.
  apply (xorshift_inj 64 47) in H; solve_fits.
  apply mul_m_inj in H; auto.
Qed.

Lemma murmur_final_inj x y :
  fits 64 x -> fits 64 y -> murmur_final x = murmur_final y -> x = y.
Proof.
  intros Hx Hy H. unfold murmur_final in H.
  apply (xorshift_inj 64 47) in H; solve_fits.
  apply mul_m_inj in H; solve_fits.
  apply (xorshift_inj 64 47) in H; solve_fits.
Qed.

Lemma murmur_mix_k_fits k : fits 64 (murmur_mix_k k).
Proof. apply mul64_fits. Qed.
Lemma murmur_round_fits h k : fits 64 (murmur_round h k).
Proof. apply mul64_fits. Qed.
#[export] Hint Resolve murmur_mix_k_fits murmur_round_fits : words.

(** On an eight-byte key the hash is one round and the finalisation. *)
Lemma MurmurHash64A_word key seed :
  fits 64 key ->
  MurmurHash64A (bytes_of 8 key) seed =
  murmur_final (murmur_round (seed .^ (8 * murmur_m))%u64 key).
Proof.
  intros Hk. unfold MurmurHash64A. rewrite length_bytes_of.
  change (8 / 8)%nat with 1%nat. cbv zeta. cbn [words_of fold_left].
  rewrite firstn_all2 by (rewrite length_bytes_of; lia).
  rewrite skipn_all2 by (rewrite length_bytes_of; lia).
  rewrite le_word_bytes_of by exact Hk. reflexivity.
Qed.

(** on the eight-byte keys the filter hashes in the default mode,
    [MurmurHash64A] is injective for every seed: two distinct 64-bit keys never
    have the same 64-bit hash (collisions come only from reducing the hash modulo
    [range]). *)
Theorem MurmurHash64A_word_injective x y seed :
  fits 64 x -> fits 64 y -> fits 32 seed -> x <> y ->
  MurmurHash64A (bytes_of 8 x) seed <> MurmurHash64A (bytes_of 8 y) seed.
Proof.
  intros Hx Hy Hs Hne H. apply Hne. clear Hne. rewrite !MurmurHash64A_word in H by assumption.
  apply (fits_mono 32 64) in Hs; [|lia].
  apply murmur_final_inj in H; solve_fits.
  apply mul_m_inj in H; solve_fits.
  apply lxor_inj_r in H. apply murmur_mix_k_inj in H; auto.
Qed.

Lemma MurmurHash64A_word_injective_witness :
  MurmurHash64A (bytes_of 8 1) 7 <> MurmurHash64A (bytes_of 8 2) 7.
Proof. apply MurmurHash64A_word_injective; unfold fits; lia. Defined.

(** The 32-bit variant. *)

Lemma u32_eq_mulmod c x : u32 (x * c) = mulmod 32 c x.
Proof. reflexivity. Qed.

Lemma u32_fits x : fits 32 (u32 x).
Proof. apply uwrap_fits. lia. Qed.
#[export] Hint Resolve u32_fits : words.

Lemma mul_m32_inj x y : fits 32 x -> fits 32 y ->
  u32 (x * murmur_m32) = u32 (y * murmur_m32) -> x = y.
Proof. apply (mulmod_inj 32 murmur_m32 0x39c9eb52e59b19bd); [lia|reflexivity]. Qed.

Lemma murmurB_mix_k_inj x y :
  fits 32 x -> fits 32 y -> murmurB_mix_k x = murmurB_mix_k y -> x = y.
Proof.
  intros Hx Hy H. unfold murmurB_mix_k in H.
  apply mul_m32_inj in H; [|solve_fits..].
  apply (xorshift_inj 32 24) in H; [|solve_fits..].
  apply mul_m32_inj in H; solve_fits.
Qed.

Lemma murmurB_round_inj h x y :
  fits 32 x -> fits 32 y -> murmurB_round h x = murmurB_round h y -> x = y.
Proof. intros Hx Hy H. apply lxor_inj_r in H. apply murmurB_mix_k_inj in H; auto. Qed.

Lemma murmurB_round_fits h k : fits 32 (murmurB_round h k).
Proof. apply lxor_fits; [lia|apply u32_fits..]. Qed.

(** [(hi << 32) | lo] determines both halves. *)
Lemma hi_lo_inj c d c' d' :
  fits 32 c -> fits 32 d -> fits 32 c' -> fits 32 d' ->
  ((c <<< 32) .| d)%u64 = ((c' <<< 32) .| d')%u64 -> c = c' /\ d = d'.
Proof.
  intros Fc Fd Fc' Fd' H.
  assert (G : forall x y, fits 32 x -> fits 32 y ->
    Z.shiftr ((x <<< 32) .| y)%u64 32 = x /\ ((x <<< 32) .| y)%u64 mod 2 ^ 32 = y).
  { clear. intros x y Fx Fy. unfold shl64, u64, uwrap. split; bits;
      rewrite ?(testbit_fits 32 y) by (auto; lia);
      rewrite ?(Z.testbit_neg_r x) by lia;
      rewrite ?(testbit_fits 32 x) by (auto; lia);
      rewrite ?orb_false_r; try reflexivity.
    f_equal. lia. }
  destruct (G c d Fc Fd) as [A B], (G c' d' Fc' Fd') as [A' B'].
  rewrite H in A, B. split; congruence.
Qed.

(** Each line of the final mix is undone by the next one's inverse. *)
Lemma murmurB_final_inj h1 h2 h1' h2' :
  fits 32 h1 -> fits 32 h2 -> fits 32 h1' -> fits 32 h2' ->
  murmurB_final h1 h2 = murmurB_final h1' h2' -> h1 = h1' /\ h2 = h2'.
Proof.
  intros F1 F2 F1' F2'. unfold murmurB_final.
  set (a := u32 (Z.lxor h1 (Z.shiftr h2 18) * murmur_m32)).
  set (a' := u32 (Z.lxor h1' (Z.shiftr h2' 18) * murmur_m32)).
  set (b := u32 (Z.lxor h2 (Z.shiftr a 22) * murmur_m32)).
  set (b' := u32 (Z.lxor h2' (Z.shiftr a' 22) * murmur_m32)).
  set (c := u32 (Z.lxor a (Z.shiftr b 17) * murmur_m32)).
  set (c' := u32 (Z.lxor a' (Z.shiftr b' 17) * murmur_m32)).
  set (d := u32 (Z.lxor b (Z.shiftr c 19) * murmur_m32)).
  set (d' := u32 (Z.lxor b' (Z.shiftr c' 19) * murmur_m32)).
  intros H.
  assert (Fc : fits 32 c) by (subst c; solve_fits).
  assert (Fc' : fits 32 c') by (subst c'; solve_fits).
  assert (Fd : fits 32 d) by (subst d; solve_fits).
  assert (Fd' : fits 32 d') by (subst d'; solve_fits).
  assert (Fa : fits 32 a) by (subst a; solve_fits).
  assert (Fa' : fits 32 a') by (subst a'; solve_fits).
  assert (Fb : fits 32 b) by (subst b; solve_fits).
  assert (Fb' : fits 32 b') by (subst b'; solve_fits).
  apply hi_lo_inj in H as [Hc Hd]; [|assumption..].
  apply mul_m32_inj in Hd; [|solve_fits..]. rewrite Hc in Hd. apply lxor_inj_l in Hd.
  apply mul_m32_inj in Hc; [|solve_fits..]. rewrite Hd in Hc. apply lxor_inj_l in Hc.
  apply mul_m32_inj in Hd; [|solve_fits..]. rewrite Hc in Hd. apply lxor_inj_l in Hd.
  apply mul_m32_inj in Hc; [|solve_fits..]. rewrite Hd in Hc. apply lxor_inj_l in Hc.
  auto.
Qed.

Lemma MurmurHash64B_word lo hi seed :
  fits 32 lo -> fits 32 hi ->
  MurmurHash64B (bytes_of 4 lo ++ bytes_of 4 hi) seed =
  murmurB_final (murmurB_round (Z.lxor seed 8) lo) (murmurB_round 0 hi).
Proof.
  intros Hl Hh.
  transitivity (murmurB_final (murmurB_round (Z.lxor seed 8) (le_word (bytes_of 4 lo)))
                  (murmurB_round 0 (le_word (bytes_of 4 hi)))); [reflexivity|].
  rewrite !le_word_bytes_of by assumption. reflexivity.
Qed.

(** The 32-bit-platform variant [MurmurHash64B] is injective on eight-byte keys
    as well: every step of its two interleaved lanes and of the final cross-mix is
    invertible modulo [2^32]. *)
Theorem MurmurHash64B_word_injective lo hi lo' hi' seed :
  fits 32 lo -> fits 32 hi -> fits 32 lo' -> fits 32 hi' -> fits 32 seed ->
  (lo, hi) <> (lo', hi') ->
  MurmurHash64B (bytes_of 4 lo ++ bytes_of 4 hi) seed <>
  MurmurHash64B (bytes_of 4 lo' ++ bytes_of 4 hi') seed.
Proof.
  intros Hl Hh Hl' Hh' Hs Hne H. rewrite !MurmurHash64B_word in H by assumption.
  apply murmurB_final_inj in H as [H1 H2]; [|apply murmurB_round_fits..].
  apply murmurB_round_inj in H1; [|assumption..].
  apply murmurB_round_inj in H2; [|assumption..]. congruence.
Qed.

Lemma MurmurHash64B_word_injective_witness :
  MurmurHash64B (bytes_of 4 1 ++ bytes_of 4 0) 7 <>
  MurmurHash64B (bytes_of 4 0 ++ bytes_of 4 1) 7.
Proof. apply MurmurHash64B_word_injective; unfold fits; (lia || congruence). Defined.
