(* ===== verification/PartitionedCounter.v ===== *)
(** * Partitioned counters ([terrace/code/src/partitioned_counter.c])

    A global counter fed through per-CPU local counters that are flushed when they
    leave [[-threshold, threshold]].  The operations are modelled twice: as sequential
    functions, and as the sequences of atomic instructions they are, executed by any
    number of threads in any interleaving ([pstep]). *)

From S2P Require Import Prelude Threads.
From stdpp Require Import list relations.
#[local] Open Scope Z_scope.

Definition PC_ERROR : Z := -1.

Record pc_t := {
  local_counters : list Z;   (* int64_t counter of each lctr_t *)
  global_counter : Z;        (* *global_counter, int64_t *)
  num_counters : Z;          (* uint32_t *)
  threshold : Z;             (* int32_t *)
}.

(** [pc_init]: [num_cpus] is what [sysconf] returns and [alloc_ok] whether [calloc]
    succeeds.  The counters start at zero. *)
Definition pc_init (num_cpus : Z) (alloc_ok : bool) (global n thr : Z) : Z + pc_t :=
  if num_cpus <? 0 then inl PC_ERROR else
  let num := if n =? 0 then u32 num_cpus else if u32 num_cpus <? n then u32 num_cpus else n in
  if alloc_ok then
    inr {| local_counters := replicate (Z.to_nat num) 0; global_counter := global;
           num_counters := num; threshold := thr |}
  else inl PC_ERROR.

(** ** Atomic instructions *)

(** [__atomic_add_fetch(&local_counters[c].counter, count)] *)
Definition local_add_fetch (pc : pc_t) (c : nat) (count : Z) : pc_t * Z :=
  let v := i64 (default 0 (pc.(local_counters) !! c) + count) in
  ({| local_counters := <[c := v]> pc.(local_counters); global_counter := pc.(global_counter);
      num_counters := pc.(num_counters); threshold := pc.(threshold) |}, v).

(** [__atomic_exchange_n(&local_counters[c].counter, 0)] *)
Definition local_exchange (pc : pc_t) (c : nat) : pc_t * Z :=
  ({| local_counters := <[c := 0]> pc.(local_counters); global_counter := pc.(global_counter);
      num_counters := pc.(num_counters); threshold := pc.(threshold) |},
   default 0 (pc.(local_counters) !! c)).

(** [__atomic_fetch_add(pc->global_counter, v)] *)
Definition global_add (pc : pc_t) (v : Z) : pc_t :=
  {| local_counters := pc.(local_counters); global_counter := i64 (pc.(global_counter) + v);
     num_counters := pc.(num_counters); threshold := pc.(threshold) |}.

(** [cur_count > pc->threshold || cur_count < -pc->threshold] *)
Definition over (pc : pc_t) (cur : Z) : bool :=
  (pc.(threshold) <? cur) || (cur <? - pc.(threshold)).

(** ** The operations, run alone *)

Definition counter_id (pc : pc_t) (cpuid : Z) : nat := Z.to_nat (u32 cpuid mod pc.(num_counters)).

Definition pc_add (pc : pc_t) (cpuid count : Z) : pc_t :=
  let c := counter_id pc cpuid in
  let (pc, cur_count) := local_add_fetch pc c count in
  if over pc cur_count then
    let (pc, new_count) := local_exchange pc c in
    global_add pc new_count
  else pc.

Definition pc_sync (pc : pc_t) : pc_t :=
  foldl (fun pc i => let (pc, c) := local_exchange pc i in global_add pc c)
        pc (seq 0 (Z.to_nat pc.(num_counters))).

(** [pc_destructor]: sync, then the array is freed. *)
Definition pc_destructor (pc : pc_t) : pc_t :=
  let pc := pc_sync pc in
  {| local_counters := []; global_counter := pc.(global_counter);
     num_counters := pc.(num_counters); threshold := pc.(threshold) |}.

(** ** Threads *)

(** Where a thread stands inside [pc_add] or [pc_sync]. *)
Inductive tstate :=
| Idle
| Flush (c : nat)           (* pc_add: threshold exceeded, exchange is next *)
| Publish (v : Z)           (* pc_add: fetch_add of v is next *)
| Sync (i : nat)            (* pc_sync: loop index i, exchange is next *)
| SyncPublish (i : nat) (v : Z).

#[export] Instance tstate_eq_dec : EqDecision tstate.
Proof. solve_decision. Defined.

Record config := {
  pc : pc_t;
  threads : list tstate;
  added : Z;        (* sum of the counts of all pc_add calls started so far *)
}.

Definition set_thread (cf : config) (pc' : pc_t) (t : nat) (s : tstate) : config :=
  {| pc := pc'; threads := <[t := s]> cf.(threads); added := cf.(added) |}.

(** One atomic instruction of one thread. *)
Inductive pstep (cf : config) : config -> Prop :=
| step_add t cpuid count :
    cf.(threads) !! t = Some Idle ->
    pstep cf
      (let c := counter_id cf.(pc) cpuid in
       let (pc', cur) := local_add_fetch cf.(pc) c count in
       {| pc := pc'; threads := <[t := if over pc' cur then Flush c else Idle]> cf.(threads);
          added := cf.(added) + count |})
| step_flush t c :
    cf.(threads) !! t = Some (Flush c) ->
    pstep cf (let (pc', v) := local_exchange cf.(pc) c in set_thread cf pc' t (Publish v))
| step_publish t v :
    cf.(threads) !! t = Some (Publish v) ->
    pstep cf (set_thread cf (global_add cf.(pc) v) t Idle)
| step_sync_start t :
    cf.(threads) !! t = Some Idle ->
    pstep cf (set_thread cf cf.(pc) t (Sync 0))
| step_sync_exchange t i :
    cf.(threads) !! t = Some (Sync i) -> Z.of_nat i < cf.(pc).(num_counters) ->
    pstep cf (let (pc', v) := local_exchange cf.(pc) i in set_thread cf pc' t (SyncPublish i v))
| step_sync_publish t i v :
    cf.(threads) !! t = Some (SyncPublish i v) ->
    pstep cf (set_thread cf (global_add cf.(pc) v) t (Sync (S i)))
| step_sync_end t i :
    cf.(threads) !! t = Some (Sync i) -> cf.(pc).(num_counters) <= Z.of_nat i ->
    pstep cf (set_thread cf cf.(pc) t Idle).

(** A freshly initialised counter with [nthreads] idle threads. *)
Definition start (pc0 : pc_t) (nthreads : nat) : config :=
  {| pc := pc0; threads := replicate nthreads Idle; added := 0 |}.

Definition quiescent (cf : config) : Prop := Forall (eq Idle) cf.(threads).

(** ** Invariant *)

(** The amount a thread has taken from a local counter and not yet published. *)
Definition in_flight (s : tstate) : Z :=
  match s with Publish v | SyncPublish _ v => v | _ => 0 end.

Definition well_formed (pc : pc_t) : Prop :=
  0 < pc.(num_counters) /\ Z.of_nat (length pc.(local_counters)) = pc.(num_counters) /\
  0 <= pc.(threshold).

Record inv (g0 : Z) (cf : config) : Prop := {
  inv_wf : well_formed cf.(pc);
  inv_sum : eqw 64 (cf.(pc).(global_counter) + sumZ cf.(pc).(local_counters)
                    + sumZ (in_flight <$> cf.(threads))) (g0 + cf.(added));
  inv_over : forall c v, cf.(pc).(local_counters) !! c = Some v -> over cf.(pc) v = true ->
             exists t, cf.(threads) !! t = Some (Flush c);
}.

Lemma eqw_i64 w x : 0 <= w <= 64 -> eqw w (i64 x) x.
Proof.
  intros H. unfold i64, swrap.
  rewrite eqw_mod by lia. apply eq_eqw. lia.
Qed.

Lemma counter_id_lt pc cpuid : well_formed pc -> (counter_id pc cpuid < length pc.(local_counters))%nat.
Proof.
  intros (Hn & Hl & _). unfold counter_id.
  pose proof (Z.mod_pos_bound (u32 cpuid) (num_counters pc) Hn). lia.
Qed.

Lemma in_flight_insert cf t s s' :
  cf.(threads) !! t = Some s ->
  sumZ (in_flight <$> <[t := s']> cf.(threads)) =
  sumZ (in_flight <$> cf.(threads)) - in_flight s + in_flight s'.
Proof.
  intros H. rewrite list_fmap_insert. apply sumZ_insert. now rewrite list_lookup_fmap, H.
Qed.

(** An exchange moves a local value into the thread. *)
Lemma inv_exchange g0 cf t s s' c :
  inv g0 cf -> cf.(threads) !! t = Some s -> in_flight s = 0 ->
  (s = Flush c \/ forall c', s <> Flush c') ->
  in_flight s' = default 0 (cf.(pc).(local_counters) !! c) ->
  inv g0 (let (pc', v) := local_exchange cf.(pc) c in set_thread cf pc' t s').
Proof.
  intros [Hwf Hs Ho] Ht Hf Hsc Hf'. unfold local_exchange, set_thread. simpl.
  split; simpl.
  - destruct Hwf as (? & Hl & ?). repeat split; simpl; [lia|rewrite length_insert; lia|lia].
  - rewrite (in_flight_insert _ _ _ _ Ht), Hf, Hf'. rewrite <- Hs.
    destruct (local_counters (pc cf) !! c) as [x|] eqn:Hx; simpl.
    + rewrite (sumZ_insert _ _ x) by exact Hx. apply eq_eqw. lia.
    + rewrite list_insert_ge by (apply lookup_ge_None; exact Hx). apply eq_eqw. lia.
  - intros c' v Hv Hover.
    destruct (decide (c = c')) as [->|Hne].
    + destruct (decide (c' < length (local_counters (pc cf)))%nat) as [Hlt|Hge].
      * rewrite list_lookup_insert_eq in Hv by exact Hlt. simplify_eq.
        destruct Hwf as (_ & _ & Hthr). unfold over in Hover. simpl in Hover.
        rewrite orb_true_iff, !Z.ltb_lt in Hover. lia.
      * rewrite list_insert_ge in Hv by lia. apply lookup_lt_Some in Hv. lia.
    + rewrite list_lookup_insert_ne in Hv by exact Hne.
      destruct (Ho c' v Hv Hover) as [t' Ht']. exists t'.
      rewrite list_lookup_insert_ne; [exact Ht'|]. intros ->.
      destruct Hsc as [->|Hsc]; congruence.
Qed.

(** Any other step of a thread that keeps the locals. *)
Lemma inv_thread g0 cf t s s' v :
  inv g0 cf -> cf.(threads) !! t = Some s -> (forall c, s <> Flush c) ->
  in_flight s = v -> in_flight s' = 0 ->
  inv g0 (set_thread cf (global_add cf.(pc) v) t s').
Proof.
  intros [Hwf Hs Ho] Ht Hsc Hf Hf'. split; simpl.
  - exact Hwf.
  - rewrite eqw_i64 by lia. rewrite (in_flight_insert _ _ _ _ Ht), Hf, Hf', <- Hs.
    apply eq_eqw. lia.
  - intros c x Hx Hover. destruct (Ho c x Hx Hover) as [t' Ht']. exists t'.
    rewrite list_lookup_insert_ne; [exact Ht'|]. intros ->. congruence.
Qed.

Lemma inv_noop g0 cf t s s' :
  inv g0 cf -> cf.(threads) !! t = Some s -> (forall c, s <> Flush c) ->
  in_flight s = 0 -> in_flight s' = 0 -> inv g0 (set_thread cf cf.(pc) t s').
Proof.
  intros [Hwf Hs Ho] Ht Hsc Hf Hf'. split; simpl.
  - exact Hwf.
  - rewrite (in_flight_insert _ _ _ _ Ht), Hf, Hf', <- Hs. apply eq_eqw. lia.
  - intros c x Hx Hover. destruct (Ho c x Hx Hover) as [t' Ht']. exists t'.
    rewrite list_lookup_insert_ne; [exact Ht'|]. intros ->. congruence.
Qed.

Lemma inv_add g0 cf t cpuid count :
  inv g0 cf -> cf.(threads) !! t = Some Idle ->
  inv g0
    (let c := counter_id cf.(pc) cpuid in
     let (pc', cur) := local_add_fetch cf.(pc) c count in
     {| pc := pc'; threads := <[t := if over pc' cur then Flush c else Idle]> cf.(threads);
        added := cf.(added) + count |}).
Proof.
  intros [Hwf Hs Ho] Ht. pose proof (counter_id_lt _ cpuid Hwf) as Hc.
  destruct (lookup_lt_is_Some_2 _ _ Hc) as [x Hx].
  unfold local_add_fetch. simpl. rewrite Hx. simpl. split; simpl.
  - destruct Hwf as (? & Hl & ?). repeat split; simpl; [lia|rewrite length_insert; lia|lia].
  - rewrite (in_flight_insert _ _ _ _ Ht), (sumZ_insert _ _ x) by exact Hx.
    replace (g0 + (added cf + count)) with (g0 + added cf + count) by lia. rewrite <- Hs.
    match goal with |- context [in_flight (if ?b then ?u else ?v)] =>
      replace (in_flight (if b then u else v)) with 0 by (destruct b; reflexivity) end.
    replace (in_flight Idle) with 0 by reflexivity.
    rewrite eqw_i64 by lia. apply eq_eqw. lia.
  - intros c v Hv Hover. destruct (decide (counter_id (pc cf) cpuid = c)) as [<-|Hne].
    + rewrite list_lookup_insert_eq in Hv by exact Hc. simplify_eq. exists t.
      rewrite list_lookup_insert_eq by (eapply lookup_lt_Some; exact Ht).
      unfold over in *. simpl in *. now rewrite Hover.
    + rewrite list_lookup_insert_ne in Hv by exact Hne.
      destruct (Ho c v Hv Hover) as [t' Ht']. exists t'.
      rewrite list_lookup_insert_ne; [exact Ht'|]. intros ->. congruence.
Qed.

Lemma inv_step g0 cf cf' : inv g0 cf -> pstep cf cf' -> inv g0 cf'.
Proof.
  intros Hi Hstep. destruct Hstep.
  - now apply inv_add.
  - apply (inv_exchange g0 cf t (Flush c) (Publish _)); auto.
  - eapply inv_thread; eauto; try congruence; done.
  - eapply inv_noop; eauto; try congruence; done.
  - apply (inv_exchange g0 cf t (Sync i) (SyncPublish i _)); auto.
  - eapply inv_thread; eauto; try congruence; done.
  - eapply inv_noop; eauto; try congruence; done.
Qed.

Lemma inv_reachable g0 cf cf' : inv g0 cf -> rtc pstep cf cf' -> inv g0 cf'.
Proof. intros Hi Hr. induction Hr; eauto using inv_step. Qed.

Lemma inv_start num_cpus g n thr pc0 nthreads :
  pc_init num_cpus true g n thr = inr pc0 -> fits 32 n -> 0 < num_cpus -> fits 32 num_cpus ->
  0 <= thr -> inv g (start pc0 nthreads).
Proof.
  unfold pc_init. intros H Hn Hc0 Hc Ht. destruct (Z.ltb_spec num_cpus 0); [lia|].
  assert (Hu : u32 num_cpus = num_cpus) by (apply (uwrap_small 32); exact Hc).
  rewrite Hu in H. set (num := if n =? 0 then _ else _) in H.
  assert (0 < num).
  { subst num. unfold fits in Hn. destruct (Z.eqb_spec n 0), (Z.ltb_spec num_cpus n); lia. }
  simplify_eq. split; simpl.
  - repeat split; simpl; rewrite ?length_replicate; lia.
  - rewrite sumZ_replicate, sumZ_zeros by (apply Forall_replicate; reflexivity).
    apply eq_eqw. lia.
  - intros c v Hv Hover. apply lookup_replicate in Hv as [-> _].
    unfold over in Hover. simpl in Hover. rewrite orb_true_iff, !Z.ltb_lt in Hover. lia.
Qed.

(** The sizes never change. *)
Lemma params_reachable cf cf' :
  rtc pstep cf cf' ->
  cf'.(pc).(num_counters) = cf.(pc).(num_counters) /\ cf'.(pc).(threshold) = cf.(pc).(threshold).
Proof.
  intros Hr. induction Hr as [|x y z Hs _ [IHn IHt]]; [auto|].
  rewrite IHn, IHt. destruct Hs; auto.
Qed.

Lemma params_init num_cpus g n thr pc0 :
  pc_init num_cpus true g n thr = inr pc0 -> fits 32 n ->
  pc0.(num_counters) <= 2 ^ 32 /\ pc0.(threshold) = thr.
Proof.
  unfold pc_init. intros H [Hn0 Hn]. destruct (num_cpus <? 0); [discriminate|]. simplify_eq. simpl.
  pose proof (Z.mod_pos_bound num_cpus (2 ^ 32)). unfold u32, uwrap.
  destruct (n =? 0); [lia|]. destruct (_ <? n); lia.
Qed.

Lemma sumZ_abs_bound l b :
  Forall (fun v => Z.abs v <= b) l -> Z.abs (sumZ l) <= Z.of_nat (length l) * b.
Proof.
  induction 1 as [|v l Hv Hl IH]; cbn [sumZ foldr length]; [lia|].
  fold (sumZ l) in *. rewrite Nat2Z.inj_succ. lia.
Qed.

Lemma swrap_eqw w x y : eqw w x y -> swrap w x = swrap w y.
Proof.
  intros H. unfold swrap. f_equal. change (eqw w (x + 2 ^ (w - 1)) (y + 2 ^ (w - 1))).
  now rewrite H.
Qed.

(** C32: nothing is lost or counted twice: in every state that any interleaving of
    [pc_add] and [pc_sync] calls can reach, the global counter, the local counters and
    the amounts in flight inside the threads add up (modulo [2^64]) to the initial
    value and all the counts added. *)
Theorem pc_conservation num_cpus g n thr pc0 nthreads cf :
  pc_init num_cpus true g n thr = inr pc0 -> fits 32 n -> 0 < num_cpus -> fits 32 num_cpus ->
  0 <= thr -> rtc pstep (start pc0 nthreads) cf ->
  eqw 64 (cf.(pc).(global_counter) + sumZ cf.(pc).(local_counters)
          + sumZ (in_flight <$> cf.(threads))) (g + cf.(added)).
Proof.
  intros Hi Hn Hc0 Hc Ht Hr. apply inv_sum.
  eapply inv_reachable; [|exact Hr]. eapply inv_start; eauto.
Qed.

(** One thread adds 5 on CPU 1 of a two-CPU machine: one reachable state. *)
Definition one_add : config :=
  {| pc := {| local_counters := [0; 5]; global_counter := 10; num_counters := 2; threshold := 8 |};
     threads := [Idle]; added := 5 |}.

Lemma one_add_reachable :
  rtc pstep (start {| local_counters := [0; 0]; global_counter := 10; num_counters := 2;
                      threshold := 8 |} 1) one_add.
Proof.
  apply rtc_once.
  exact (step_add (start {| local_counters := [0; 0]; global_counter := 10; num_counters := 2;
                      threshold := 8 |} 1) 0%nat 1 5 eq_refl).
Defined.

Lemma pc_conservation_witness :
  eqw 64 (10 + sumZ [0; 5] + sumZ (in_flight <$> [Idle])) (10 + 5).
Proof.
  apply (pc_conservation 2 10 0 8 _ 1 one_add eq_refl);
    [unfold fits; lia..|exact one_add_reachable].
Defined.

(** Accuracy: once no call is in progress, the global counter is within
    [num_counters * threshold] of the true total, whatever the interleaving was
    (a counter above the threshold always has a thread about to flush it). *)
Theorem pc_accuracy num_cpus g n thr pc0 nthreads cf :
  pc_init num_cpus true g n thr = inr pc0 -> fits 32 n -> 0 < num_cpus -> fits 32 num_cpus ->
  0 <= thr < 2 ^ 31 -> rtc pstep (start pc0 nthreads) cf -> quiescent cf ->
  Z.abs (i64 (g + cf.(added) - cf.(pc).(global_counter)))
  <= cf.(pc).(num_counters) * cf.(pc).(threshold).
Proof.
  intros Hi Hn Hc0 Hc Ht Hr Hq.
  destruct (params_init _ _ _ _ _ Hi Hn) as [Hnum Hthr].
  destruct (params_reachable _ _ Hr) as [En Et]. simpl in En, Et. rewrite <- En in Hnum.
  rewrite <- Et in Hthr. clear En Et.
  destruct (inv_reachable g (start pc0 nthreads) cf) as [Hwf Hs Ho];
    [eapply inv_start; eauto; lia|exact Hr|].
  rewrite sumZ_zeros in Hs by (eapply Forall_impl; [exact Hq|]; intros s <-; reflexivity).
  assert (Hb : Z.abs (sumZ (local_counters (pc cf))) <=
               Z.of_nat (length (local_counters (pc cf))) * threshold (pc cf)).
  { apply sumZ_abs_bound. apply Forall_lookup. intros c v Hv.
    destruct (over (pc cf) v) eqn:Hov.
    - destruct (Ho c v Hv Hov) as [t Ht']. eapply Forall_lookup_1 in Hq; [|exact Ht']. discriminate.
    - unfold over in Hov. apply orb_false_iff in Hov as [H1 H2].
      apply Z.ltb_ge in H1, H2. lia. }
  destruct Hwf as (Hn0 & Hlen & Ht0). rewrite Hlen in Hb.
  assert (E : i64 (g + added cf - global_counter (pc cf)) = sumZ (local_counters (pc cf))).
  { rewrite <- (i64_small (sumZ _)).
    - apply swrap_eqw. rewrite <- Hs. apply eq_eqw. lia.
    - assert (num_counters (pc cf) * threshold (pc cf) < 2 ^ 63); [|lia].
      apply Z.le_lt_trans with (2 ^ 32 * (2 ^ 31 - 1)); [apply Z.mul_le_mono_nonneg; lia|lia]. }
  rewrite E. exact Hb.
Qed.

Lemma pc_accuracy_witness : Z.abs (i64 (10 + 5 - 10)) <= 2 * 8.
Proof.
  apply (pc_accuracy 2 10 0 8 _ 1 one_add eq_refl); simpl;
    [unfold fits; lia..|exact one_add_reachable|].
  repeat constructor.
Defined.

(** ** The sequential operations *)

Lemma pc_sync_prefix pc k :
  (k <= length pc.(local_counters))%nat ->
  let pc' := foldl (fun pc i => let (pc, c) := local_exchange pc i in global_add pc c) pc (seq 0 k) in
  pc'.(local_counters) = replicate k 0 ++ drop k pc.(local_counters) /\
  eqw 64 (pc'.(global_counter) + sumZ (drop k pc.(local_counters)))
         (pc.(global_counter) + sumZ pc.(local_counters)) /\
  pc'.(num_counters) = pc.(num_counters) /\ pc'.(threshold) = pc.(threshold).
Proof.
  induction k as [|k IH]; intros Hk; cbv zeta.
  - simpl. rewrite drop_0. repeat split; reflexivity.
  - rewrite seq_S, foldl_app. destruct IH as (Hl & Hg & Hn & Ht); [lia|]. cbv zeta in *.
    set (pc' := foldl _ _ _) in *. simpl. rewrite Hl.
    destruct (lookup_lt_is_Some_2 (local_counters pc) k) as [x Hx]; [lia|].
    rewrite (drop_S _ x) in Hg |- * by exact Hx.
    rewrite lookup_app_r, length_replicate, Nat.sub_diag by (rewrite length_replicate; lia).
    simpl. split; [|split; [|auto]].
    + rewrite insert_app_r_alt by (rewrite length_replicate; lia).
      rewrite length_replicate, Nat.sub_diag. simpl.
      rewrite app_comm_cons, replicate_cons_app, <- app_assoc. reflexivity.
    + rewrite eqw_i64 by lia. rewrite <- Hg. simpl. fold (sumZ (drop (S k) (local_counters pc))).
      apply eq_eqw. lia.
Qed.

(** [pc_sync] run alone empties every local counter and leaves the global counter
    at the exact total (modulo [2^64]); [pc_destructor] therefore loses nothing. *)
Theorem pc_sync_exact pc0 :
  well_formed pc0 ->
  (pc_sync pc0).(local_counters) = replicate (length pc0.(local_counters)) 0 /\
  eqw 64 (pc_sync pc0).(global_counter) (pc0.(global_counter) + sumZ pc0.(local_counters)) /\
  (pc_destructor pc0).(global_counter) = (pc_sync pc0).(global_counter).
Proof.
  intros (Hn & Hl & Ht). unfold pc_destructor, pc_sync. rewrite <- Hl, Nat2Z.id.
  destruct (pc_sync_prefix pc0 (length (local_counters pc0))) as (A & B & _); [lia|].
  cbv zeta in *. rewrite drop_ge, app_nil_r in A by lia. rewrite drop_ge in B by lia.
  simpl in B. rewrite Z.add_0_r in B. auto.
Qed.

Lemma pc_sync_exact_witness :
  let p := {| local_counters := [3; -4; 7]; global_counter := 100; num_counters := 3; threshold := 8 |} in
  (pc_sync p).(local_counters) = [0; 0; 0] /\
  eqw 64 (pc_sync p).(global_counter) 106 /\
  (pc_destructor p).(global_counter) = (pc_sync p).(global_counter).
Proof. apply pc_sync_exact. repeat split; simpl; lia. Defined.

(** Run alone, [pc_add] keeps the exact total and leaves the local counter it
    touches within the threshold. *)
Theorem pc_add_sequential pc0 cpuid count :
  well_formed pc0 -> Forall (fun v => over pc0 v = false) pc0.(local_counters) ->
  let pc' := pc_add pc0 cpuid count in
  well_formed pc' /\ Forall (fun v => over pc' v = false) pc'.(local_counters) /\
  eqw 64 (pc'.(global_counter) + sumZ pc'.(local_counters))
         (pc0.(global_counter) + sumZ pc0.(local_counters) + count).
Proof.
  intros Hwf Ho. pose proof (counter_id_lt _ cpuid Hwf) as Hc.
  destruct (lookup_lt_is_Some_2 _ _ Hc) as [x Hx].
  unfold pc_add, local_add_fetch. cbv zeta. rewrite Hx. simpl.
  set (c := counter_id pc0 cpuid) in *. destruct Hwf as (Hn & Hl & Ht).
  destruct (over _ _) eqn:Hov; simpl.
  - rewrite list_lookup_insert_eq, list_insert_insert_eq by exact Hc. simpl. split; [|split].
    + repeat split; simpl; rewrite ?length_insert; lia.
    + apply Forall_insert; [exact Ho|]. unfold over. simpl. 
      apply orb_false_iff. rewrite !Z.ltb_ge. lia.
    + rewrite eqw_i64, (sumZ_insert _ _ x), (eqw_i64 64 (x + count)) by (exact Hx || lia).
      apply eq_eqw. lia.
  - split; [|split].
    + repeat split; simpl; rewrite ?length_insert; lia.
    + apply Forall_insert; [exact Ho|exact Hov].
    + rewrite (sumZ_insert _ _ x), (eqw_i64 64 (x + count)) by (exact Hx || lia).
      apply eq_eqw. lia.
Qed.

Lemma pc_add_sequential_witness :
  let p := {| local_counters := [3; 7]; global_counter := 100; num_counters := 2; threshold := 8 |} in
  let p' := pc_add p 5 4 in
  well_formed p' /\ Forall (fun v => over p' v = false) p'.(local_counters) /\
  eqw 64 (p'.(global_counter) + sumZ p'.(local_counters)) (100 + sumZ [3; 7] + 4).
Proof. apply pc_add_sequential; [repeat split; simpl; lia|repeat constructor]. Defined.
