(* ===== verification/Blocks.v ===== *)
(** * The filter's state and its blocks ([gqf_int.h], first part of [gqf.c])

    The buffer of blocks is one integer, the little-endian reading of its bytes, so
    that the unaligned 64-bit accesses of [get_slot] and [set_slot] (which run past
    the end of a block into the next header) are the machine's.  [QF_BITS_PER_SLOT]
    is 0: the slot width is the run-time [bits_per_slot]. *)

From S2P Require Import Prelude BitSeq RankSelect.
Import ListNotations.
#[local] Open Scope Z_scope.

(** ** Constants ([gqf.h], [gqf_int.h], [gqf.c]) *)

Definition QF_NO_LOCK : Z := 0x01.
Definition QF_TRY_ONCE_LOCK : Z := 0x02.
Definition QF_WAIT_FOR_LOCK : Z := 0x04.
Definition QF_KEY_IS_HASH : Z := 0x08.
Definition QF_NO_SPACE : Z := -1.
Definition QF_COULDNT_LOCK : Z := -2.
Definition QF_DOESNT_EXIST : Z := -3.
Definition QF_INVALID : Z := -4.
Definition QFI_INVALID : Z := -5.
Definition MAGIC_NUMBER : Z := 1018874902021329732.
Definition QF_SLOTS_PER_BLOCK : Z := 64.
Definition NUM_SLOTS_TO_LOCK : Z := 2 ^ 16.
Definition CLUSTER_SIZE : Z := 2 ^ 14.
Definition DISTANCE_FROM_HOME_SLOT_CUTOFF : Z := 100000.

Definition GET_NO_LOCK (flag : Z) : Z := Z.land flag QF_NO_LOCK.
Definition GET_TRY_ONCE_LOCK (flag : Z) : Z := Z.land flag QF_TRY_ONCE_LOCK.
Definition GET_WAIT_FOR_LOCK (flag : Z) : Z := Z.land flag QF_WAIT_FOR_LOCK.
Definition GET_KEY_HASH (flag : Z) : Z := Z.land flag QF_KEY_IS_HASH.

Inductive qf_hashmode := QF_HASH_DEFAULT | QF_HASH_INVERTIBLE | QF_HASH_NONE.

Definition qf_hashmode_eqb (a b : qf_hashmode) : bool :=
  match a, b with
  | QF_HASH_DEFAULT, QF_HASH_DEFAULT | QF_HASH_INVERTIBLE, QF_HASH_INVERTIBLE
  | QF_HASH_NONE, QF_HASH_NONE => true
  | _, _ => false
  end.

(** ** State *)

Record qfmetadata := mk_metadata {
  magic_endian_number : Z;
  hash_mode : qf_hashmode;
  auto_resize : Z;
  total_size_in_bytes : Z;
  seed : Z;
  nslots : Z;
  xnslots : Z;
  key_bits : Z;
  value_bits : Z;
  key_remainder_bits : Z;
  bits_per_slot : Z;
  range : Z;
  nblocks : Z;
  nelts : Z;
  ndistinct_elts : Z;
  noccupied_slots : Z;
}.

(** Which function [container_resize] points to. *)
Inductive resize_fn := qf_resize_malloc_fn | qf_resize_file_fn.

Record qfruntime := mk_runtime {
  filepath : option (list Z);          (* f_info.filepath *)
  container_resize : option resize_fn;
  num_locks : Z;
  metadata_lock : Z;
  locks : list Z;
}.

Record QF := mk_QF {
  runtimedata : qfruntime;
  metadata : qfmetadata;
  blocks : Z;
}.

Definition set_blocks (qf : QF) (m : Z) : QF := mk_QF qf.(runtimedata) qf.(metadata) m.
Definition set_metadata (qf : QF) (md : qfmetadata) : QF := mk_QF qf.(runtimedata) md qf.(blocks).
Definition set_runtime (qf : QF) (rt : qfruntime) : QF := mk_QF rt qf.(metadata) qf.(blocks).

(** The three counters [modify_metadata] is called on. *)
Inductive counter_field := Nelts | Ndistinct | Noccupied.

Definition get_counter (md : qfmetadata) (f : counter_field) : Z :=
  match f with
  | Nelts => md.(nelts) | Ndistinct => md.(ndistinct_elts) | Noccupied => md.(noccupied_slots)
  end.

Definition set_counters (md : qfmetadata) (ne nd no : Z) : qfmetadata :=
  mk_metadata md.(magic_endian_number) md.(hash_mode) md.(auto_resize) md.(total_size_in_bytes)
    md.(seed) md.(nslots) md.(xnslots) md.(key_bits) md.(value_bits) md.(key_remainder_bits)
    md.(bits_per_slot) md.(range) md.(nblocks) ne nd no.

Definition set_counter (md : qfmetadata) (f : counter_field) (v : Z) : qfmetadata :=
  match f with
  | Nelts => set_counters md v md.(ndistinct_elts) md.(noccupied_slots)
  | Ndistinct => set_counters md md.(nelts) v md.(noccupied_slots)
  | Noccupied => set_counters md md.(nelts) md.(ndistinct_elts) v
  end.

Definition bps (qf : QF) : Z := qf.(metadata).(bits_per_slot).

(** ** Memory *)

(** Little-endian load and store of [n] bytes at byte address [a]. *)
Definition load (m a n : Z) : Z := Z.land (Z.shiftr m (8 * a)) (Z.ones (8 * n)).
Definition store (m a n v : Z) : Z :=
  Z.lor (Z.ldiff m (Z.shiftl (Z.ones (8 * n)) (8 * a)))
        (Z.shiftl (Z.land v (Z.ones (8 * n))) (8 * a)).

(** [sizeof(qfblock)]: packed, with an empty flexible array. *)
Definition sizeof_qfblock : Z := 2 + 8 + 8.
Definition block_size (qf : QF) : Z := sizeof_qfblock + QF_SLOTS_PER_BLOCK * bps qf / 8.

(** The byte address of a block. *)
Definition get_block (qf : QF) (block_index : Z) : Z := block_index * block_size qf.

Definition get_offset (qf : QF) (b : Z) : Z := load qf.(blocks) (get_block qf b) 2.
Definition set_offset (qf : QF) (b v : Z) : QF :=
  set_blocks qf (store qf.(blocks) (get_block qf b) 2 v).

(** [occupieds[0]], [runends[0]] of the block with address [a]. *)
Definition OCC : Z := 2.
Definition RUN : Z := 10.
Definition SLOTS : Z := 18.

Definition block_word (qf : QF) (field b : Z) : Z := load qf.(blocks) (get_block qf b + field) 8.
Definition set_block_word (qf : QF) (field b v : Z) : QF :=
  set_blocks qf (store qf.(blocks) (get_block qf b + field) 8 v).

Definition METADATA_WORD (qf : QF) (field slot_index : Z) : Z :=
  block_word qf field (slot_index / QF_SLOTS_PER_BLOCK).
Definition set_METADATA_WORD (qf : QF) (field slot_index v : Z) : QF :=
  set_block_word qf field (slot_index / QF_SLOTS_PER_BLOCK) v.

Definition bit_in_word (index : Z) : Z := (index mod QF_SLOTS_PER_BLOCK) mod 64.

(** [METADATA_WORD(qf, field, i) |= 1ULL << ...], [&= ~...] and [^= ...] *)
Definition set_bit (qf : QF) (field i : Z) : QF :=
  set_METADATA_WORD qf field i (METADATA_WORD qf field i .| (1 <<< bit_in_word i))%u64.
Definition clear_bit (qf : QF) (field i : Z) : QF :=
  set_METADATA_WORD qf field i (METADATA_WORD qf field i .& .~ (1 <<< bit_in_word i))%u64.
Definition flip_bit (qf : QF) (field i : Z) : QF :=
  set_METADATA_WORD qf field i (METADATA_WORD qf field i .^ (1 <<< bit_in_word i))%u64.

Definition is_runend (qf : QF) (index : Z) : bool :=
  Z.odd (METADATA_WORD qf RUN index >>> bit_in_word index)%u64.
Definition is_occupied (qf : QF) (index : Z) : bool :=
  Z.odd (METADATA_WORD qf OCC index >>> bit_in_word index)%u64.

Definition slot_address (qf : QF) (index : Z) : Z :=
  get_block qf (index / QF_SLOTS_PER_BLOCK) + SLOTS
  + (index mod QF_SLOTS_PER_BLOCK) * bps qf / 8.
Definition slot_shift (qf : QF) (index : Z) : Z :=
  ((index mod QF_SLOTS_PER_BLOCK) * bps qf) mod 8.

Definition get_slot (qf : QF) (index : Z) : Z :=
  let p := load qf.(blocks) (slot_address qf index) 8 in
  ((p >>> slot_shift qf index) .& BITMASK (bps qf))%u64.

Definition set_slot (qf : QF) (index value : Z) : QF :=
  let t := load qf.(blocks) (slot_address qf index) 8 in
  let mask := BITMASK (bps qf) in
  let v := value in
  let shift := slot_shift qf index in
  let mask := (mask <<< shift)%u64 in
  let v := (v <<< shift)%u64 in
  let t := (t .& .~ mask)%u64 in
  let t := (t .| v)%u64 in
  set_blocks qf (store qf.(blocks) (slot_address qf index) 8 t).

(** [REMAINDER_WORD(qf, i)]: the [i]-th 64-bit word of the slot areas. *)
Definition remainder_address (qf : QF) (i : Z) : Z :=
  get_block qf (i / bps qf) + SLOTS + 8 * (i mod bps qf).
Definition REMAINDER_WORD (qf : QF) (i : Z) : Z := load qf.(blocks) (remainder_address qf i) 8.
Definition set_REMAINDER_WORD (qf : QF) (i v : Z) : QF :=
  set_blocks qf (store qf.(blocks) (remainder_address qf i) 8 v).

(** The offset field has two bytes, so the recursion through [run_end] for saturated
    one-byte offsets is compiled out: the field is always taken as it is. *)
Definition block_offset (qf : QF) (blockidx : Z) : Z := get_offset qf blockidx.

(** ** Scanning *)

(** [run_end].  The [do]-[while] over the blocks after the first one is
    [run_end_scan]; [None] when [fuel] blocks do not hold the run end. *)
Fixpoint run_end_scan (qf : QF) (fuel : nat) (runend_block_index runend_ignore_bits runend_rank : Z)
    : option (Z * Z) :=
  match fuel with
  | O => None
  | S fuel =>
    let runend_rank :=
      (runend_rank - popcntv (block_word qf RUN runend_block_index) runend_ignore_bits)%u64 in
    let runend_block_index := (runend_block_index + 1)%u64 in
    let runend_ignore_bits := 0 in
    let runend_block_offset :=
      bitselectv (block_word qf RUN runend_block_index) runend_ignore_bits (i32 runend_rank) in
    if runend_block_offset =? QF_SLOTS_PER_BLOCK
    then run_end_scan qf fuel runend_block_index runend_ignore_bits runend_rank
    else Some (runend_block_index, runend_block_offset)
  end.

Definition run_end (qf : QF) (hash_bucket_index : Z) : option Z :=
  let bucket_block_index := hash_bucket_index / QF_SLOTS_PER_BLOCK in
  let bucket_intrablock_offset := hash_bucket_index mod QF_SLOTS_PER_BLOCK in
  let bucket_blocks_offset := block_offset qf bucket_block_index in
  let bucket_intrablock_rank :=
    bitrank (block_word qf OCC bucket_block_index) bucket_intrablock_offset in
  if bucket_intrablock_rank =? 0 then
    if bucket_blocks_offset <=? bucket_intrablock_offset then Some hash_bucket_index
    else Some (QF_SLOTS_PER_BLOCK * bucket_block_index + bucket_blocks_offset - 1)%u64
  else
  let runend_block_index := (bucket_block_index + bucket_blocks_offset / QF_SLOTS_PER_BLOCK)%Z in
  let runend_ignore_bits := bucket_blocks_offset mod QF_SLOTS_PER_BLOCK in
  let runend_rank := (bucket_intrablock_rank - 1)%u64 in
  let runend_block_offset :=
    bitselectv (block_word qf RUN runend_block_index) runend_ignore_bits (i32 runend_rank) in
  let? (runend_block_index, runend_block_offset) :=
    (if runend_block_offset =? QF_SLOTS_PER_BLOCK then
       run_end_scan qf (Z.to_nat qf.(metadata).(nblocks)) runend_block_index runend_ignore_bits runend_rank
     else Some (runend_block_index, runend_block_offset)) in
  let runend_index := (QF_SLOTS_PER_BLOCK * runend_block_index + runend_block_offset)%u64 in
  if runend_index <? hash_bucket_index then Some hash_bucket_index else Some runend_index.

(** A lower bound of the distance from [slot_index] to the next empty slot; [int]
    arithmetic. *)
Definition offset_lower_bound (qf : QF) (slot_index : Z) : Z :=
  let b := slot_index / QF_SLOTS_PER_BLOCK in
  let slot_offset := slot_index mod QF_SLOTS_PER_BLOCK in
  let boffset := get_offset qf b in
  let occupieds := (block_word qf OCC b .& BITMASK (slot_offset + 1)%Z)%u64 in
  if boffset <=? slot_offset then
    let runends := ((block_word qf RUN b .& BITMASK slot_offset) >>> boffset)%u64 in
    i32 (popcnt occupieds - popcnt runends)
  else i32 (boffset - slot_offset + popcnt occupieds).

Definition is_empty (qf : QF) (slot_index : Z) : bool := offset_lower_bound qf slot_index =? 0.

Definition might_be_empty (qf : QF) (slot_index : Z) : bool :=
  negb (is_occupied qf slot_index) && negb (is_runend qf slot_index).

Definition probably_is_empty (qf : QF) (slot_index : Z) : bool :=
  (get_slot qf slot_index =? 0) && negb (is_occupied qf slot_index)
  && negb (is_runend qf slot_index).

Fixpoint first_empty_scan (qf : QF) (fuel : nat) (from : Z) : option Z :=
  let t := offset_lower_bound qf from in
  if t =? 0 then Some from else
  match fuel with
  | O => None
  | S fuel => first_empty_scan qf fuel (u64 (from + t))
  end.

(** Each round moves forward, so the number of slots bounds the rounds. *)
Definition scan_fuel (qf : QF) : nat := Z.to_nat (64 * qf.(metadata).(nblocks)).

Definition find_first_empty_slot (qf : QF) (from : Z) : option Z :=
  first_empty_scan qf (scan_fuel qf) from.

(** [indices[--n] = ...; from = indices[n] + 1]: the array filled from its end, so the
    list of the [n] empties comes out in decreasing order. *)
Fixpoint find_next_n_empty_slots (qf : QF) (from : Z) (n : nat) (indices : list Z)
    : option (list Z) :=
  match n with
  | O => Some indices
  | S n =>
    let? e := find_first_empty_slot qf from in
    find_next_n_empty_slots qf (u64 (e + 1)) n (e :: indices)
  end.

(** ** Shifting *)

Definition shift_into_b (a b bstart bend amount : Z) : Z :=
  let a_component := if bstart =? 0 then (a >>> (64 - amount)%Z)%u64 else 0 in
  let b_shifted_mask := (BITMASK (bend - bstart)%Z <<< bstart)%u64 in
  let b_shifted := (((b_shifted_mask .& b) <<< amount) .& b_shifted_mask)%u64 in
  let b_mask := (.~ b_shifted_mask)%u64 in
  (a_component .| b_shifted .| (b .& b_mask))%u64.

(** [while (last_word != first_word)], on the words read and written by [rd]/[wr]. *)
Fixpoint shift_words (rd : QF -> Z -> Z) (wr : QF -> Z -> Z -> QF) (qf : QF) (n : nat)
    (last_word bend amount : Z) : QF :=
  match n with
  | O => qf
  | S n =>
    let qf := wr qf last_word (shift_into_b (rd qf (last_word - 1)) (rd qf last_word) 0 bend amount) in
    shift_words rd wr qf n (last_word - 1) 64 amount
  end.

Definition shift_remainders (qf : QF) (start_index empty_index : Z) : QF :=
  let last_word := ((empty_index + 1) * bps qf) / 64 in
  let first_word := (start_index * bps qf) / 64 in
  let bend := ((empty_index + 1) * bps qf) mod 64 in
  let bstart := (start_index * bps qf) mod 64 in
  let n := Z.to_nat (last_word - first_word) in
  let qf := shift_words REMAINDER_WORD set_REMAINDER_WORD qf n last_word bend (bps qf) in
  let bend := if last_word =? first_word then bend else 64 in
  set_REMAINDER_WORD qf first_word
    (shift_into_b 0 (REMAINDER_WORD qf first_word) bstart bend (bps qf)).

(** [for (i = last; i >= first; i--) set_slot(qf, i + distance, get_slot(qf, i))] *)
Fixpoint move_slots (qf : QF) (n : nat) (i distance : Z) : QF :=
  match n with
  | O => qf
  | S n => move_slots (set_slot qf (i + distance) (get_slot qf i)) n (i - 1) distance
  end.

Definition shift_slots (qf : QF) (first last distance : Z) : QF :=
  if distance =? 1 then shift_remainders qf first (last + 1)
  else move_slots qf (Z.to_nat (last - first + 1)) last distance.

Definition runend_word (qf : QF) (w : Z) : Z := METADATA_WORD qf RUN (64 * w).
Definition set_runend_word (qf : QF) (w v : Z) : QF := set_METADATA_WORD qf RUN (64 * w) v.

Definition shift_runends (qf : QF) (first last distance : Z) : QF :=
  let first_word := first / 64 in
  let bstart := first mod 64 in
  let last_word := (last + distance + 1) / 64 in
  let bend := (last + distance + 1) mod 64 in
  let n := Z.to_nat (last_word - first_word) in
  let qf := shift_words runend_word set_runend_word qf n last_word bend distance in
  let bend := if last_word =? first_word then bend else 64 in
  set_runend_word qf first_word
    (shift_into_b 0 (runend_word qf first_word) bstart bend distance).
