(* ===== verification/BlockBits.v ===== *)
(** * The bit view of a filter's blocks

    Every accessor of [Blocks] reads or writes bits of the buffer.  This file states
    what each does to the four logical components of the buffer: the occupied bits,
    the run-end bits, the slots (as one flat array of bits: slot [i] is the bits
    [i * bps .. (i + 1) * bps - 1]) and the block offsets.  The operations of the
    filter are then reasoned about in these terms only. *)

From S2P Require Import Prelude BitSeq RankSelect Blocks.
Import ListNotations.
#[local] Open Scope Z_scope.

(** ** Positions *)

(** The bits of a block. *)
Definition block_bits (qf : QF) : Z := 144 + 64 * bps qf.

Definition occ_pos (qf : QF) (i : Z) : Z := (i / 64) * block_bits qf + (16 + i mod 64).
Definition run_pos (qf : QF) (i : Z) : Z := (i / 64) * block_bits qf + (80 + i mod 64).
Definition slot_pos (qf : QF) (g : Z) : Z :=
  (g / (64 * bps qf)) * block_bits qf + (144 + g mod (64 * bps qf)).

(** ** The view *)

Record view := mk_view {
  v_occ : Z -> bool;
  v_run : Z -> bool;
  v_sbit : Z -> bool;
  v_off : Z -> Z;
}.

Definition view_of (qf : QF) : view := {|
  v_occ i := Z.testbit qf.(blocks) (occ_pos qf i);
  v_run i := Z.testbit qf.(blocks) (run_pos qf i);
  v_sbit g := Z.testbit qf.(blocks) (slot_pos qf g);
  v_off b := get_offset qf b;
|}.

(** Equality of views: pointwise on the valid indices. *)
Record veq (a b : view) : Prop := {
  veq_occ i : 0 <= i -> v_occ a i = v_occ b i;
  veq_run i : 0 <= i -> v_run a i = v_run b i;
  veq_sbit i : 0 <= i -> v_sbit a i = v_sbit b i;
  veq_off i : 0 <= i -> v_off a i = v_off b i;
}.

#[export] Instance veq_equivalence : Equivalence veq.
Proof.
  split.
  - intros a. split; reflexivity.
  - intros a b [H1 H2 H3 H4]. split; intros; symmetry; auto.
  - intros a b c [H1 H2 H3 H4] [G1 G2 G3 G4].
    split; intros i Hi; [rewrite H1, G1|rewrite H2, G2|rewrite H3, G3|rewrite H4, G4]; auto.
Qed.

Definition upd {A} (f : Z -> A) (i : Z) (x : A) (j : Z) : A := if j =? i then x else f j.

Definition vset_occ (v : view) (f : Z -> bool) : view := mk_view f v.(v_run) v.(v_sbit) v.(v_off).
Definition vset_run (v : view) (f : Z -> bool) : view := mk_view v.(v_occ) f v.(v_sbit) v.(v_off).
Definition vset_sbit (v : view) (f : Z -> bool) : view := mk_view v.(v_occ) v.(v_run) f v.(v_off).
Definition vset_off (v : view) (f : Z -> Z) : view := mk_view v.(v_occ) v.(v_run) v.(v_sbit) f.

(** ** Loads and stores *)

Lemma testbit_load m a n i :
  0 <= a -> 0 <= n -> Z.testbit (load m a n) i = (0 <=? i) && (i <? 8 * n) && Z.testbit m (8 * a + i).
Proof.
  intros Ha Hn. unfold load. rewrite Z.land_spec, testbit_shiftr, testbit_ones by lia.
  rewrite (Z.add_comm i). destruct (0 <=? i), (i <? 8 * n); now rewrite ?andb_true_r, ?andb_false_r.
Qed.

Lemma testbit_store m a n v p :
  0 <= a -> 0 <= n -> 0 <= p ->
  Z.testbit (store m a n v) p =
  if (8 * a <=? p) && (p <? 8 * a + 8 * n) then Z.testbit v (p - 8 * a) else Z.testbit m p.
Proof.
  intros Ha Hn Hp. unfold store.
  rewrite Z.lor_spec, Z.ldiff_spec, !testbit_shiftl, Z.land_spec, !testbit_ones by lia.
  destruct (Z.leb_spec 0 p), (Z.leb_spec (8 * a) p), (Z.ltb_spec p (8 * a + 8 * n)),
    (Z.leb_spec 0 (p - 8 * a)), (Z.ltb_spec (p - 8 * a) (8 * n)); try lia;
  cbn [andb negb orb]; now rewrite ?andb_true_r, ?andb_false_r, ?orb_false_r, ?orb_false_l.
Qed.

Lemma load_fits m a n : 0 <= n -> fits (8 * n) (load m a n).
Proof.
  intros Hn. unfold load. rewrite Z.land_ones by lia. apply mod_fits. lia.
Qed.

(** ** Position arithmetic *)

Lemma pos_in_block W b r b' lo hi :
  0 <= r < W -> 0 <= lo -> hi <= W ->
  (b' * W + lo <= b * W + r < b' * W + hi) <-> (b = b' /\ lo <= r < hi).
Proof.
  intros Hr Hlo Hhi. split; [|intros [-> H]; lia].
  intros H. assert (E : b = b'); [|subst; lia].
  destruct (Z.lt_trichotomy b b') as [L|[E|L]]; [|exact E|]; nia.
Qed.

Lemma pos_eq W b r b' r' :
  0 <= r < W -> 0 <= r' < W -> b * W + r = b' * W + r' -> b = b' /\ r = r'.
Proof.
  intros Hr Hr' H. destruct (pos_in_block W b r b' r' (r' + 1)) as [G _]; try lia.
Qed.

Section View.
Variable qf : QF.
Hypothesis Hbps : 1 <= bps qf <= 56.

Lemma block_size_bits : 8 * block_size qf = block_bits qf.
Proof.
  unfold block_size, block_bits, sizeof_qfblock, QF_SLOTS_PER_BLOCK.
  replace (64 * bps qf) with (8 * bps qf * 8) by ring. rewrite Z.div_mul by lia. lia.
Qed.

Lemma get_block_bits b : 8 * get_block qf b = b * block_bits qf.
Proof. unfold get_block. rewrite <- block_size_bits. ring. Qed.

Lemma get_block_nonneg b : 0 <= b -> 0 <= get_block qf b.
Proof. intros H. pose proof (get_block_bits b). unfold block_bits in *. nia. Qed.

Lemma testbit_block_word f b j :
  0 <= b -> 0 <= f -> 0 <= j < 64 ->
  Z.testbit (block_word qf f b) j = Z.testbit qf.(blocks) (b * block_bits qf + (8 * f + j)).
Proof.
  intros Hb Hf Hj. unfold block_word. pose proof (get_block_nonneg b Hb).
  rewrite testbit_load by lia.
  destruct (Z.leb_spec 0 j), (Z.ltb_spec j (8 * 8)); try lia. cbn [andb]. f_equal.
  pose proof (get_block_bits b). lia.
Qed.

Lemma block_word_fits f b : fits 64 (block_word qf f b).
Proof. apply (load_fits _ _ 8). lia. Qed.

Lemma testbit_occ_word b j :
  0 <= b -> 0 <= j < 64 -> Z.testbit (block_word qf OCC b) j = v_occ (view_of qf) (64 * b + j).
Proof.
  intros Hb Hj. rewrite testbit_block_word by (unfold OCC; lia). cbn [v_occ view_of].
  unfold occ_pos, OCC. rewrite (Z.mul_comm 64 b), Z.div_add_l, Z.div_small by lia.
  rewrite Z.add_comm, (Z.add_comm (b * 64)), Z.mod_add, Z.mod_small by lia. f_equal; lia.
Qed.

Lemma testbit_run_word b j :
  0 <= b -> 0 <= j < 64 -> Z.testbit (block_word qf RUN b) j = v_run (view_of qf) (64 * b + j).
Proof.
  intros Hb Hj. rewrite testbit_block_word by (unfold RUN; lia). cbn [v_run view_of].
  unfold run_pos, RUN. rewrite (Z.mul_comm 64 b), Z.div_add_l, Z.div_small by lia.
  rewrite Z.add_comm, (Z.add_comm (b * 64)), Z.mod_add, Z.mod_small by lia. f_equal; lia.
Qed.

Lemma bit_in_word_eq i : bit_in_word i = i mod 64.
Proof.
  unfold bit_in_word, QF_SLOTS_PER_BLOCK. apply Z.mod_small. apply Z.mod_pos_bound. lia.
Qed.

Lemma split64 i : 64 * (i / 64) + i mod 64 = i.
Proof. symmetry. apply Z.div_mod. lia. Qed.

Lemma is_occupied_view i : 0 <= i -> is_occupied qf i = v_occ (view_of qf) i.
Proof.
  intros Hi. unfold is_occupied, METADATA_WORD, QF_SLOTS_PER_BLOCK.
  pose proof (Z.mod_pos_bound i 64). pose proof (Z.div_pos i 64).
  rewrite <- Z.bit0_odd, testbit_shiftr, bit_in_word_eq. cbn [Z.leb Z.compare andb].
  rewrite Z.add_0_l, testbit_occ_word, split64 by lia. reflexivity.
Qed.

Lemma is_runend_view i : 0 <= i -> is_runend qf i = v_run (view_of qf) i.
Proof.
  intros Hi. unfold is_runend, METADATA_WORD, QF_SLOTS_PER_BLOCK.
  pose proof (Z.mod_pos_bound i 64). pose proof (Z.div_pos i 64).
  rewrite <- Z.bit0_odd, testbit_shiftr, bit_in_word_eq. cbn [Z.leb Z.compare andb].
  rewrite Z.add_0_l, testbit_run_word, split64 by lia. reflexivity.
Qed.

Lemma occ_pos_bounds i : 0 <= i -> 0 <= i / 64 /\ 0 <= i mod 64 < 64.
Proof. intros H. pose proof (Z.mod_pos_bound i 64). pose proof (Z.div_pos i 64). lia. Qed.

Lemma slot_pos_bounds g :
  0 <= g -> 0 <= g / (64 * bps qf) /\ 0 <= g mod (64 * bps qf) < 64 * bps qf.
Proof.
  intros H. pose proof (Z.mod_pos_bound g (64 * bps qf)). pose proof (Z.div_pos g (64 * bps qf)).
  lia.
Qed.

(** ** Changing a field of one block

    [changes m' b r0 L g]: the buffer [m'] differs from that of [qf] in the bits
    [r0 .. r0 + L - 1] of block [b] only, where it holds [g]. *)
Definition changes (m' b r0 L : Z) (g : Z -> bool) : Prop :=
  forall b' r, 0 <= b' -> 0 <= r < block_bits qf ->
    Z.testbit m' (b' * block_bits qf + r) =
    if (b' =? b) && (r0 <=? r) && (r <? r0 + L) then g (r - r0)
    else Z.testbit qf.(blocks) (b' * block_bits qf + r).

Lemma changes_range m' b r0 L g :
  0 <= r0 -> r0 + L <= block_bits qf ->
  (forall p, 0 <= p -> Z.testbit m' p =
     if (b * block_bits qf + r0 <=? p) && (p <? b * block_bits qf + r0 + L)
     then g (p - (b * block_bits qf + r0)) else Z.testbit qf.(blocks) p) ->
  changes m' b r0 L g.
Proof.
  intros Hr0 HL H b' r Hb' Hr. rewrite H by (unfold block_bits in *; nia).
  destruct (pos_in_block (block_bits qf) b' r b r0 (r0 + L)) as [G1 G2]; try lia.
  destruct (Z.leb_spec (b * block_bits qf + r0) (b' * block_bits qf + r)),
    (Z.ltb_spec (b' * block_bits qf + r) (b * block_bits qf + r0 + L)),
    (Z.eqb_spec b' b), (Z.leb_spec r0 r), (Z.ltb_spec r (r0 + L));
    cbn [andb]; try lia; try reflexivity.
  subst b'. f_equal. lia.
Qed.

Lemma changes_store f n v b :
  0 <= b -> 0 <= f -> 0 <= n -> 8 * f + 8 * n <= block_bits qf ->
  changes (store qf.(blocks) (get_block qf b + f) n v) b (8 * f) (8 * n) (Z.testbit v).
Proof.
  intros Hb Hf Hn Hw. apply changes_range; [lia..|]. intros p Hp.
  pose proof (get_block_nonneg b Hb). pose proof (get_block_bits b).
  rewrite testbit_store by lia.
  replace (8 * (get_block qf b + f)) with (b * block_bits qf + 8 * f) by lia. reflexivity.
Qed.

Lemma off_ext m' b :
  0 <= b ->
  (forall j, 0 <= j < 16 -> Z.testbit m' (b * block_bits qf + j)
                            = Z.testbit qf.(blocks) (b * block_bits qf + j)) ->
  get_offset (set_blocks qf m') b = get_offset qf b.
Proof.
  intros Hb H. apply Z.bits_inj'. intros j Hj. unfold get_offset.
  change (get_block (set_blocks qf m') b) with (get_block qf b). cbn [blocks set_blocks].
  pose proof (get_block_nonneg b Hb). pose proof (get_block_bits b).
  rewrite !testbit_load by lia.
  destruct (Z.ltb_spec j (8 * 2)); [|now rewrite andb_false_r].
  f_equal. replace (8 * get_block qf b + j) with (b * block_bits qf + j) by lia.
  apply H. lia.
Qed.

(** A change inside one component leaves the three others as they are. *)
Lemma changes_view m' b r0 L g :
  changes m' b r0 L g -> 0 <= L ->
  let hit b' r := (b' =? b) && (r0 <=? r) && (r <? r0 + L) in
  (forall i, 0 <= i -> v_occ (view_of (set_blocks qf m')) i =
     if hit (i / 64) (16 + i mod 64) then g (16 + i mod 64 - r0) else v_occ (view_of qf) i) /\
  (forall i, 0 <= i -> v_run (view_of (set_blocks qf m')) i =
     if hit (i / 64) (80 + i mod 64) then g (80 + i mod 64 - r0) else v_run (view_of qf) i) /\
  (forall i, 0 <= i -> v_sbit (view_of (set_blocks qf m')) i =
     if hit (i / (64 * bps qf)) (144 + i mod (64 * bps qf))
     then g (144 + i mod (64 * bps qf) - r0) else v_sbit (view_of qf) i) /\
  (16 <= r0 -> forall i, 0 <= i -> v_off (view_of (set_blocks qf m')) i = v_off (view_of qf) i).
Proof.
  intros H HL hit. split; [|split; [|split]].
  - intros i Hi. cbn [v_occ view_of]. unfold occ_pos. pose proof (occ_pos_bounds i Hi).
    apply H; unfold block_bits; lia.
  - intros i Hi. cbn [v_run view_of]. unfold run_pos. pose proof (occ_pos_bounds i Hi).
    apply H; unfold block_bits; lia.
  - intros i Hi. cbn [v_sbit view_of]. unfold slot_pos. pose proof (slot_pos_bounds i Hi).
    apply H; unfold block_bits; lia.
  - intros Hr0 i Hi. apply off_ext; [exact Hi|]. intros j Hj.
    rewrite H by (unfold block_bits; lia).
    destruct (Z.leb_spec r0 j); [lia|]. now rewrite andb_false_r.
Qed.

(** Decides whether a position falls in the changed field. *)
Ltac hit :=
  repeat match goal with
  | |- context [?a <=? ?b] => destruct (Z.leb_spec a b); try lia
  | |- context [?a <? ?b] => destruct (Z.ltb_spec a b); try lia
  end;
  rewrite ?andb_true_r, ?andb_false_r; cbn [andb]; try reflexivity.

Lemma set_occ_word_view b v :
  0 <= b ->
  veq (view_of (set_block_word qf OCC b v))
      (vset_occ (view_of qf) (fun i => if i / 64 =? b then Z.testbit v (i mod 64)
                                       else v_occ (view_of qf) i)).
Proof.
  intros Hb.
  destruct (changes_view _ b 16 64 (Z.testbit v) (changes_store 2 8 v b Hb ltac:(lia) ltac:(lia)
    ltac:(unfold block_bits; lia))) as (H1 & H2 & H3 & H4); [lia|].
  change (set_blocks qf (store (blocks qf) (get_block qf b + 2) 8 v)) with (set_block_word qf OCC b v) in *.
  split; intros i Hi; cbn [v_occ v_run v_sbit v_off vset_occ].
  - rewrite H1 by exact Hi. pose proof (occ_pos_bounds i Hi). hit.
    destruct (i / 64 =? b); [f_equal; lia|reflexivity].
  - rewrite H2 by exact Hi. pose proof (occ_pos_bounds i Hi). hit.
  - rewrite H3 by exact Hi. pose proof (slot_pos_bounds i Hi). hit.
  - apply H4; [lia|exact Hi].
Qed.

Lemma set_run_word_view b v :
  0 <= b ->
  veq (view_of (set_block_word qf RUN b v))
      (vset_run (view_of qf) (fun i => if i / 64 =? b then Z.testbit v (i mod 64)
                                       else v_run (view_of qf) i)).
Proof.
  intros Hb.
  destruct (changes_view _ b 80 64 (Z.testbit v) (changes_store 10 8 v b Hb ltac:(lia) ltac:(lia)
    ltac:(unfold block_bits; lia))) as (H1 & H2 & H3 & H4); [lia|].
  change (set_blocks qf (store (blocks qf) (get_block qf b + 10) 8 v)) with (set_block_word qf RUN b v) in *.
  split; intros i Hi; cbn [v_occ v_run v_sbit v_off vset_run].
  - rewrite H1 by exact Hi. pose proof (occ_pos_bounds i Hi). hit.
  - rewrite H2 by exact Hi. pose proof (occ_pos_bounds i Hi). hit.
    destruct (i / 64 =? b); [f_equal; lia|reflexivity].
  - rewrite H3 by exact Hi. pose proof (slot_pos_bounds i Hi). hit.
  - apply H4; [lia|exact Hi].
Qed.

(** Writing the offset of a block. *)
Lemma set_offset_view b v :
  0 <= b -> fits 16 v ->
  veq (view_of (set_offset qf b v)) (vset_off (view_of qf) (upd (v_off (view_of qf)) b v)).
Proof.
  intros Hb Hv.
  pose proof (changes_store 0 2 v b Hb ltac:(lia) ltac:(lia) ltac:(unfold block_bits; lia)) as C.
  rewrite Z.add_0_r in C.
  destruct (changes_view _ b 0 16 (Z.testbit v) C) as (H1 & H2 & H3 & _); [lia|].
  change (set_blocks qf (store (blocks qf) (get_block qf b) 2 v)) with (set_offset qf b v) in *.
  split; intros i Hi; cbn [v_occ v_run v_sbit v_off vset_off].
  - rewrite H1 by exact Hi. pose proof (occ_pos_bounds i Hi). hit.
  - rewrite H2 by exact Hi. pose proof (occ_pos_bounds i Hi). hit.
  - rewrite H3 by exact Hi. pose proof (slot_pos_bounds i Hi). hit.
  - unfold upd. destruct (Z.eqb_spec i b) as [->|Hne].
    + apply Z.bits_inj'. intros j Hj. cbn [view_of v_off]. unfold get_offset.
      change (get_block (set_offset qf b v) b) with (get_block qf b).
      pose proof (get_block_nonneg b Hb). pose proof (get_block_bits b).
      rewrite testbit_load by lia. cbn [set_offset set_blocks blocks].
      replace (8 * get_block qf b + j) with (b * block_bits qf + j) by lia.
      destruct (Z.leb_spec 0 j), (Z.ltb_spec j (8 * 2)); try lia; cbn [andb].
      * rewrite C by (unfold block_bits; lia). rewrite Z.eqb_refl. hit. f_equal; lia.
      * symmetry. apply (testbit_fits 16); [lia|exact Hv|lia].
    + apply off_ext; [exact Hi|]. intros j Hj. rewrite C by (unfold block_bits; lia).
      destruct (Z.eqb_spec i b); [lia|reflexivity].
Qed.

(** ** Single bits *)

Lemma testbit_one_shl k j : 0 <= k < 64 -> Z.testbit (1 <<< k)%u64 j = (j =? k).
Proof.
  intros Hk. unfold shl64. rewrite Z.shiftl_1_l, u64_small.
  - destruct (Z.eqb_spec j k) as [->|Hne].
    + apply Z.pow2_bits_true. lia.
    + apply Z.pow2_bits_false. lia.
  - split; [apply Z.pow_nonneg; lia|apply Z.pow_lt_mono_r; lia].
Qed.

Lemma div_mod_64_eq i j : 0 <= i -> 0 <= j -> (j =? i) = (j / 64 =? i / 64) && (j mod 64 =? i mod 64).
Proof.
  intros Hi Hj. pose proof (split64 i). pose proof (split64 j).
  destruct (Z.eqb_spec j i), (Z.eqb_spec (j / 64) (i / 64)), (Z.eqb_spec (j mod 64) (i mod 64));
    cbn [andb]; try reflexivity; subst; lia.
Qed.

(** Writing back a word read from the buffer with one bit changed to [x]. *)
Lemma word_bit_upd (f : Z -> bool) i (w w' : Z) (x : bool) j :
  0 <= i -> 0 <= j ->
  (forall k, 0 <= k < 64 -> Z.testbit w k = f (64 * (i / 64) + k)) ->
  (forall k, 0 <= k < 64 -> Z.testbit w' k = if k =? i mod 64 then x else Z.testbit w k) ->
  (if j / 64 =? i / 64 then Z.testbit w' (j mod 64) else f j) = upd f i x j.
Proof.
  intros Hi Hj Hw Hw'. unfold upd. rewrite (div_mod_64_eq i j Hi Hj).
  pose proof (occ_pos_bounds j Hj).
  destruct (Z.eqb_spec (j / 64) (i / 64)) as [E|]; cbn [andb]; [|reflexivity].
  rewrite Hw' by lia. destruct (j mod 64 =? i mod 64); [reflexivity|].
  rewrite Hw by lia. rewrite <- E. f_equal. apply split64.
Qed.

Lemma testbit_set w k j : 0 <= k < 64 ->
  Z.testbit (w .| (1 <<< k))%u64 j = if j =? k then true else Z.testbit w j.
Proof.
  intros Hk. rewrite Z.lor_spec, testbit_one_shl by lia.
  destruct (j =? k); now rewrite ?orb_true_r, ?orb_false_r.
Qed.

Lemma testbit_clear w k j : 0 <= k < 64 -> 0 <= j < 64 ->
  Z.testbit (w .& .~ (1 <<< k))%u64 j = if j =? k then false else Z.testbit w j.
Proof.
  intros Hk Hj. rewrite Z.land_spec, testbit_not64, testbit_one_shl by lia.
  destruct (Z.leb_spec 0 j), (Z.ltb_spec j 64); try lia.
  destruct (j =? k); cbn [negb andb]; now rewrite ?andb_true_r, ?andb_false_r.
Qed.

Lemma testbit_flip w k j : 0 <= k < 64 ->
  Z.testbit (w .^ (1 <<< k))%u64 j = if j =? k then negb (Z.testbit w j) else Z.testbit w j.
Proof.
  intros Hk. rewrite Z.lxor_spec, testbit_one_shl by lia.
  destruct (j =? k); now rewrite ?xorb_true_r, ?xorb_false_r.
Qed.

Lemma write_occ_bit i x w' :
  0 <= i ->
  (forall k, 0 <= k < 64 -> Z.testbit w' k =
     if k =? i mod 64 then x else Z.testbit (METADATA_WORD qf OCC i) k) ->
  veq (view_of (set_METADATA_WORD qf OCC i w')) (vset_occ (view_of qf) (upd (v_occ (view_of qf)) i x)).
Proof.
  intros Hi Hw. pose proof (occ_pos_bounds i Hi). unfold set_METADATA_WORD, QF_SLOTS_PER_BLOCK.
  rewrite (set_occ_word_view (i / 64) w') by lia.
  split; intros j Hj; cbn [v_occ v_run v_sbit v_off vset_occ]; try reflexivity.
  apply (word_bit_upd _ i (METADATA_WORD qf OCC i)); auto.
  intros k Hk. apply testbit_occ_word; [unfold QF_SLOTS_PER_BLOCK; lia|lia].
Qed.

Lemma write_run_bit i x w' :
  0 <= i ->
  (forall k, 0 <= k < 64 -> Z.testbit w' k =
     if k =? i mod 64 then x else Z.testbit (METADATA_WORD qf RUN i) k) ->
  veq (view_of (set_METADATA_WORD qf RUN i w')) (vset_run (view_of qf) (upd (v_run (view_of qf)) i x)).
Proof.
  intros Hi Hw. pose proof (occ_pos_bounds i Hi). unfold set_METADATA_WORD, QF_SLOTS_PER_BLOCK.
  rewrite (set_run_word_view (i / 64) w') by lia.
  split; intros j Hj; cbn [v_occ v_run v_sbit v_off vset_run]; try reflexivity.
  apply (word_bit_upd _ i (METADATA_WORD qf RUN i)); auto.
  intros k Hk. apply testbit_run_word; [unfold QF_SLOTS_PER_BLOCK; lia|lia].
Qed.

Lemma set_occ_bit_view i :
  0 <= i -> veq (view_of (set_bit qf OCC i)) (vset_occ (view_of qf) (upd (v_occ (view_of qf)) i true)).
Proof.
  intros Hi. apply write_occ_bit; [exact Hi|]. intros k Hk. rewrite bit_in_word_eq.
  apply testbit_set. apply Z.mod_pos_bound; lia.
Qed.

Lemma clear_occ_bit_view i :
  0 <= i -> veq (view_of (clear_bit qf OCC i)) (vset_occ (view_of qf) (upd (v_occ (view_of qf)) i false)).
Proof.
  intros Hi. apply write_occ_bit; [exact Hi|]. intros k Hk. rewrite bit_in_word_eq.
  apply testbit_clear; [apply Z.mod_pos_bound; lia|exact Hk].
Qed.

Lemma set_run_bit_view i :
  0 <= i -> veq (view_of (set_bit qf RUN i)) (vset_run (view_of qf) (upd (v_run (view_of qf)) i true)).
Proof.
  intros Hi. apply write_run_bit; [exact Hi|]. intros k Hk. rewrite bit_in_word_eq.
  apply testbit_set. apply Z.mod_pos_bound; lia.
Qed.

Lemma clear_run_bit_view i :
  0 <= i -> veq (view_of (clear_bit qf RUN i)) (vset_run (view_of qf) (upd (v_run (view_of qf)) i false)).
Proof.
  intros Hi. apply write_run_bit; [exact Hi|]. intros k Hk. rewrite bit_in_word_eq.
  apply testbit_clear; [apply Z.mod_pos_bound; lia|exact Hk].
Qed.

Lemma flip_run_bit_view i :
  0 <= i -> veq (view_of (flip_bit qf RUN i))
                (vset_run (view_of qf) (upd (v_run (view_of qf)) i (negb (v_run (view_of qf) i)))).
Proof.
  intros Hi. apply write_run_bit; [exact Hi|]. intros k Hk. rewrite bit_in_word_eq.
  pose proof (occ_pos_bounds i Hi). rewrite testbit_flip by lia.
  destruct (Z.eqb_spec k (i mod 64)) as [->|]; [|reflexivity]. f_equal.
  unfold METADATA_WORD, QF_SLOTS_PER_BLOCK. rewrite testbit_run_word by lia. f_equal. apply split64.
Qed.

(** ** Slots *)

Lemma slot_pos_slot i j :
  0 <= i -> 0 <= j < bps qf ->
  slot_pos qf (i * bps qf + j) = (i / 64) * block_bits qf + (144 + (i mod 64) * bps qf + j).
Proof.
  intros Hi Hj. pose proof (occ_pos_bounds i Hi) as [Hq Hr]. unfold slot_pos.
  assert (E : i * bps qf + j = (64 * bps qf) * (i / 64) + ((i mod 64) * bps qf + j)).
  { rewrite <- (split64 i) at 1. ring. }
  assert (B : 0 <= (i mod 64) * bps qf + j < 64 * bps qf) by nia.
  rewrite E, <- (Z.div_unique _ (64 * bps qf) (i / 64) ((i mod 64) * bps qf + j)),
    <- (Z.mod_unique _ (64 * bps qf) (i / 64) ((i mod 64) * bps qf + j)) by (try (left; lia); reflexivity).
  lia.
Qed.

Lemma slot_address_bits i :
  0 <= i -> 0 <= slot_address qf i /\
  8 * slot_address qf i + slot_shift qf i = (i / 64) * block_bits qf + (144 + (i mod 64) * bps qf) /\
  0 <= slot_shift qf i < 8.
Proof.
  intros Hi. pose proof (occ_pos_bounds i Hi) as [Hq Hr].
  pose proof (get_block_nonneg _ Hq). pose proof (get_block_bits (i / 64)).
  unfold slot_address, slot_shift, QF_SLOTS_PER_BLOCK, SLOTS.
  pose proof (Z.div_mod ((i mod 64) * bps qf) 8). 
  pose proof (Z.mod_pos_bound ((i mod 64) * bps qf) 8).
  pose proof (Z.div_pos ((i mod 64) * bps qf) 8). nia.
Qed.

Lemma testbit_get_slot i j :
  0 <= i -> 0 <= j ->
  Z.testbit (get_slot qf i) j = (j <? bps qf) && v_sbit (view_of qf) (i * bps qf + j).
Proof.
  intros Hi Hj. destruct (slot_address_bits i Hi) as (Ha & E & Hs). unfold get_slot.
  rewrite BITMASK_ones, Z.land_spec, testbit_ones, testbit_shiftr, testbit_load by lia.
  destruct (Z.leb_spec 0 j), (Z.ltb_spec j (bps qf)); try (exfalso; lia); cbn [andb]; [|apply andb_false_r].
  rewrite andb_true_r. destruct (Z.leb_spec 0 (j + slot_shift qf i)), (Z.ltb_spec (j + slot_shift qf i) (8 * 8));
    try lia. cbn [andb v_sbit view_of]. rewrite slot_pos_slot by lia. f_equal. lia.
Qed.

Lemma get_slot_fits i : 0 <= i -> fits (bps qf) (get_slot qf i).
Proof.
  intros Hi. unfold get_slot. rewrite BITMASK_ones, Z.land_ones by lia. apply mod_fits. lia.
Qed.

(** A slot as part of the flat bit array: [g] lies in slot [i]. *)
Definition in_slot (i g : Z) : bool := (i * bps qf <=? g) && (g <? (i + 1) * bps qf).

Lemma set_slot_view i v :
  0 <= i -> fits (bps qf) v ->
  veq (view_of (set_slot qf i v))
      (vset_sbit (view_of qf) (fun g => if in_slot i g then Z.testbit v (g - i * bps qf)
                                        else v_sbit (view_of qf) g)).
Proof.
  intros Hi Hv. destruct (slot_address_bits i Hi) as (Ha & E & Hs).
  pose proof (occ_pos_bounds i Hi) as [Hq Hr].
  assert (C : changes (blocks (set_slot qf i v)) (i / 64) (144 + (i mod 64) * bps qf) (bps qf) (Z.testbit v)).
  { apply changes_range; [nia|unfold block_bits; nia|]. intros p Hp. rewrite <- E.
    unfold set_slot. cbn [set_blocks blocks]. rewrite testbit_store by lia.
    set (A := slot_address qf i) in *. set (sh := slot_shift qf i) in *.
    rewrite BITMASK_ones by lia.
    destruct (Z.leb_spec (8 * A) p), (Z.ltb_spec p (8 * A + 8 * 8)); cbn [andb];
      [|hit..].
    unfold shl64, u64, uwrap.
    rewrite Z.lor_spec, Z.land_spec, testbit_not64, !testbit_mod_pow2, !testbit_shiftl,
      testbit_ones, testbit_load by lia.
    replace (8 * A + (p - 8 * A)) with p by lia.
    destruct (Z.leb_spec 0 (p - 8 * A)), (Z.ltb_spec (p - 8 * A) 64),
      (Z.ltb_spec (p - 8 * A) (8 * 8)); try lia. cbn [andb].
    replace (p - 8 * A - sh) with (p - (8 * A + sh)) by lia.
    destruct (Z.leb_spec (8 * A + sh) p), (Z.leb_spec 0 (p - (8 * A + sh))); try lia; cbn [andb negb].
    - destruct (Z.ltb_spec p (8 * A + sh + bps qf)), (Z.ltb_spec (p - (8 * A + sh)) (bps qf));
        try lia; cbn [andb negb].
      + now rewrite andb_false_r, orb_false_l.
      + rewrite (testbit_fits (bps qf) v) by (auto; lia). now rewrite andb_true_r, orb_false_r.
    - rewrite (Z.testbit_neg_r v) by lia. now rewrite andb_true_r, orb_false_r. }
  destruct (changes_view _ _ _ _ _ C) as (H1 & H2 & H3 & H4); [lia|].
  change (set_blocks qf (blocks (set_slot qf i v))) with (set_slot qf i v) in *.
  split; intros g Hg; cbn [v_occ v_run v_sbit v_off vset_sbit].
  - rewrite H1 by exact Hg. pose proof (occ_pos_bounds g Hg). hit. all: exfalso; nia.
  - rewrite H2 by exact Hg. pose proof (occ_pos_bounds g Hg). hit. all: exfalso; nia.
  - rewrite H3 by exact Hg. unfold in_slot. pose proof (slot_pos_bounds g Hg) as [Gq Gr].
    destruct (pos_in_block (64 * bps qf) (g / (64 * bps qf)) (g mod (64 * bps qf)) (i / 64)
      ((i mod 64) * bps qf) ((i mod 64) * bps qf + bps qf)) as [P1 P2]; [lia|nia|nia|].
    assert (Eg : g / (64 * bps qf) * (64 * bps qf) + g mod (64 * bps qf) = g)
      by (pose proof (Z.div_mod g (64 * bps qf)); lia).
    assert (Ei : i / 64 * (64 * bps qf) + (i mod 64) * bps qf = i * bps qf)
      by (rewrite <- (split64 i) at 3; ring).
    rewrite Eg, Z.add_assoc, Ei in P1, P2.
    destruct (Z.leb_spec (i * bps qf) g), (Z.ltb_spec g ((i + 1) * bps qf)); cbn [andb].
    + destruct P1 as [-> P1]; [lia|]. rewrite Z.eqb_refl. hit. f_equal. lia.
    + destruct (Z.eqb_spec (g / (64 * bps qf)) (i / 64)); [|reflexivity]. hit.
    + destruct (Z.eqb_spec (g / (64 * bps qf)) (i / 64)); [|reflexivity]. hit.
    + destruct (Z.eqb_spec (g / (64 * bps qf)) (i / 64)); [|reflexivity]. hit.
  - apply H4; [nia|exact Hg].
Qed.


(** ** The words of the slot areas and of the run-end bits *)

Lemma word_pos w j :
  0 <= w -> 0 <= j < 64 ->
  (64 * w + j) / (64 * bps qf) = w / bps qf /\
  (64 * w + j) mod (64 * bps qf) = 64 * (w mod bps qf) + j.
Proof.
  intros Hw Hj. pose proof (Z.mod_pos_bound w (bps qf)).
  pose proof (Z.div_mod w (bps qf)).
  assert (E : 64 * w + j = 64 * bps qf * (w / bps qf) + (64 * (w mod bps qf) + j)) by nia.
  assert (B : 0 <= 64 * (w mod bps qf) + j < 64 * bps qf) by nia.
  split; symmetry; [eapply Z.div_unique|eapply Z.mod_unique]; try (left; exact B); exact E.
Qed.

Lemma remainder_address_bits w :
  0 <= w -> 8 * remainder_address qf w = (w / bps qf) * block_bits qf + (144 + 64 * (w mod bps qf))
            /\ 0 <= w / bps qf /\ 0 <= w mod bps qf < bps qf.
Proof.
  intros Hw. unfold remainder_address, SLOTS. pose proof (get_block_bits (w / bps qf)).
  pose proof (Z.mod_pos_bound w (bps qf)). pose proof (Z.div_pos w (bps qf)). lia.
Qed.

Lemma testbit_REMAINDER_WORD w j :
  0 <= w -> 0 <= j < 64 ->
  Z.testbit (REMAINDER_WORD qf w) j = v_sbit (view_of qf) (64 * w + j).
Proof.
  intros Hw Hj. destruct (remainder_address_bits w Hw) as (E & Hq & Hr).
  unfold REMAINDER_WORD. cbn [v_sbit view_of]. unfold slot_pos.
  destruct (word_pos w j Hw Hj) as [-> ->].
  rewrite testbit_load by (unfold block_bits in *; nia). rewrite E. hit. f_equal. lia.
Qed.

Lemma set_REMAINDER_WORD_view w v :
  0 <= w ->
  veq (view_of (set_REMAINDER_WORD qf w v))
      (vset_sbit (view_of qf) (fun g => if g / 64 =? w then Z.testbit v (g mod 64)
                                        else v_sbit (view_of qf) g)).
Proof.
  intros Hw. destruct (remainder_address_bits w Hw) as (E & Hq & Hr).
  pose proof (changes_store (SLOTS + 8 * (w mod bps qf)) 8 v (w / bps qf) Hq
    ltac:(unfold SLOTS; lia) ltac:(lia) ltac:(unfold SLOTS, block_bits; lia)) as C.
  rewrite Z.add_assoc in C.
  change (get_block qf (w / bps qf) + SLOTS + 8 * (w mod bps qf)) with (remainder_address qf w) in C.
  destruct (changes_view _ _ _ _ _ C) as (H1 & H2 & H3 & H4); [lia|].
  change (set_blocks qf (store (blocks qf) (remainder_address qf w) 8 v))
    with (set_REMAINDER_WORD qf w v) in *. unfold SLOTS in *.
  split; intros g Hg; cbn [v_occ v_run v_sbit v_off vset_sbit].
  - rewrite H1 by exact Hg. pose proof (occ_pos_bounds g Hg). hit.
  - rewrite H2 by exact Hg. pose proof (occ_pos_bounds g Hg). hit.
  - rewrite H3 by exact Hg. pose proof (occ_pos_bounds g Hg) as [Gq Gr].
    destruct (word_pos (g / 64) (g mod 64) Gq Gr) as [E1 E2]. rewrite split64 in E1, E2.
    rewrite E1, E2. pose proof (Z.mod_pos_bound (g / 64) (bps qf)).
    destruct (Z.eqb_spec (g / 64) w) as [->|Hne].
    + rewrite Z.eqb_refl. hit. f_equal. lia.
    + destruct (Z.eqb_spec (g / 64 / bps qf) (w / bps qf)) as [Ed|]; [|reflexivity].
      assert (g / 64 mod bps qf <> w mod bps qf).
      { intros Em. apply Hne. rewrite (Z.div_mod (g / 64) (bps qf)), (Z.div_mod w (bps qf)) by lia.
        congruence. }
      hit.
  - apply H4; [lia|exact Hg].
Qed.

Lemma testbit_runend_word w j :
  0 <= w -> 0 <= j < 64 -> Z.testbit (runend_word qf w) j = v_run (view_of qf) (64 * w + j).
Proof.
  intros Hw Hj. unfold runend_word, METADATA_WORD, QF_SLOTS_PER_BLOCK.
  rewrite (Z.mul_comm 64), Z.div_mul, testbit_run_word by lia. f_equal. lia.
Qed.

Lemma set_runend_word_view w v :
  0 <= w ->
  veq (view_of (set_runend_word qf w v))
      (vset_run (view_of qf) (fun i => if i / 64 =? w then Z.testbit v (i mod 64)
                                       else v_run (view_of qf) i)).
Proof.
  intros Hw. unfold set_runend_word, set_METADATA_WORD, QF_SLOTS_PER_BLOCK.
  rewrite (Z.mul_comm 64), Z.div_mul by lia. now apply set_run_word_view.
Qed.
End View.
