(* ===== verification/Shifting.v ===== *)
(** * Shifting slots and run-end bits

    The word-wise shifts of [gqf.c] ([shift_into_b] in a loop over 64-bit words) move
    an interval of a flat array of bits; [shift_remainders] moves whole slots as the
    slot-by-slot loop of [shift_slots] does. *)

From S2P Require Import Prelude BitSeq RankSelect Blocks BlockBits.
Import ListNotations.
#[local] Open Scope Z_scope.

(** ** One word *)

Lemma testbit_shift_into_b a b bstart bend amount j :
  0 <= bstart <= bend -> bend <= 64 -> 0 <= amount < 64 -> fits 64 a -> fits 64 b -> 0 <= j < 64 ->
  Z.testbit (shift_into_b a b bstart bend amount) j =
  ((bstart =? 0) && (j <? amount) && Z.testbit a (j + 64 - amount)) ||
  (if (bstart <=? j) && (j <? bend) then (bstart + amount <=? j) && Z.testbit b (j - amount)
   else Z.testbit b j).
Proof.
  intros Hs He Ha Fa Fb Hj. unfold shift_into_b.
  rewrite !Z.lor_spec, !Z.land_spec, testbit_not64, BITMASK_ones by lia.
  assert (M : forall i, 0 <= i < 64 -> Z.testbit (Z.ones (bend - bstart) <<< bstart)%u64 i
                        = (bstart <=? i) && (i <? bend)).
  { intros i Hi. unfold shl64, u64, uwrap.
    rewrite testbit_mod_pow2, testbit_shiftl, testbit_ones by lia.
    destruct (Z.ltb_spec i 64), (Z.leb_spec 0 i), (Z.leb_spec 0 (i - bstart)),
      (Z.leb_spec bstart i), (Z.ltb_spec i bend), (Z.ltb_spec (i - bstart) (bend - bstart));
      try (exfalso; lia); reflexivity. }
  rewrite M by lia.
  assert (S : Z.testbit ((Z.ones (bend - bstart) <<< bstart .& b) <<< amount)%u64 j
              = (bstart <=? j - amount) && (j - amount <? bend) && Z.testbit b (j - amount)).
  { unfold shl64 at 1, u64, uwrap. rewrite testbit_mod_pow2, testbit_shiftl by lia.
    destruct (Z.ltb_spec j 64), (Z.leb_spec 0 j); try (exfalso; lia). cbn [andb].
    destruct (Z.leb_spec 0 (j - amount)).
    - rewrite Z.land_spec, M by lia. reflexivity.
    - rewrite !Z.testbit_neg_r by lia. now rewrite andb_false_r. }
  rewrite S. clear S M.
  assert (A : Z.testbit (if bstart =? 0 then a >>> (64 - amount)%Z else 0)%u64 j
              = (bstart =? 0) && (j <? amount) && Z.testbit a (j + 64 - amount)).
  { destruct (bstart =? 0); cbn [andb]; [|apply Z.bits_0].
    rewrite testbit_shiftr. destruct (Z.leb_spec 0 j); [|lia]. cbn [andb].
    replace (j + 64 - amount) with (j + (64 - amount)) by lia.
    destruct (Z.ltb_spec j amount); [reflexivity|].
    rewrite (testbit_fits 64 a) by (auto; lia). reflexivity. }
  rewrite A. clear A.
  destruct (Z.leb_spec 0 j), (Z.ltb_spec j 64), (Z.leb_spec bstart j), (Z.ltb_spec j bend),
    (Z.leb_spec bstart (j - amount)), (Z.ltb_spec (j - amount) bend), (Z.leb_spec (bstart + amount) j);
    try (exfalso; lia); cbn [andb negb]; btauto.
Qed.

(** ** The loop over the words

    [bits] is the flat bit array the words are read from and written to, [same] what the
    writes leave alone. *)
Section ShiftWords.
Context (rd : QF -> Z -> Z) (wr : QF -> Z -> Z -> QF) (bits : QF -> Z -> bool).
Context (ok : QF -> Prop) (same : QF -> QF -> Prop).
Hypothesis same_equiv : Equivalence same.
Hypothesis wr_ok : forall q w v, ok q -> ok (wr q w v).
Hypothesis rd_bits : forall q w j, ok q -> 0 <= w -> 0 <= j < 64 ->
  Z.testbit (rd q w) j = bits q (64 * w + j).
Hypothesis rd_fits : forall q w, fits 64 (rd q w).
Hypothesis wr_bits : forall q w v p, ok q -> 0 <= w -> 0 <= p ->
  bits (wr q w v) p = if p / 64 =? w then Z.testbit v (p mod 64) else bits q p.
Hypothesis wr_same : forall q w v, ok q -> 0 <= w -> same (wr q w v) q.

(** The whole of [shift_remainders] and [shift_runends], on bit positions: the bits
    of [[s, e - amount)] move up by [amount]. *)
Definition shift_range (qf : QF) (s e amount : Z) : QF :=
  let q := shift_words rd wr qf (Z.to_nat (e / 64 - s / 64)) (e / 64) (e mod 64) amount in
  wr q (s / 64) (shift_into_b 0 (rd q (s / 64)) (s mod 64)
                   (if e / 64 =? s / 64 then e mod 64 else 64) amount).

(** The bits after the shift.  The vacated ones are cleared in the first word only:
    the next word takes in what lies below the interval. *)
Definition shifted (f : Z -> bool) (s e amount p : Z) : bool :=
  if (s <=? p) && (p <? e)
  then negb ((p <? s + amount) && (p / 64 =? s / 64)) && f (p - amount) else f p.

Lemma wr_shift_last q w hi amount p :
  ok q -> 1 <= w -> 0 <= hi <= 64 -> 0 <= amount < 64 -> 0 <= p ->
  (forall j, hi <= j < amount -> bits q (64 * w + j - amount) = false) ->
  bits (wr q w (shift_into_b (rd q (w - 1)) (rd q w) 0 hi amount)) p =
  if (64 * w <=? p) && (p <? 64 * w + hi) then bits q (p - amount) else bits q p.
Proof.
  intros Hq Hw Hhi Ha Hp Hz. rewrite wr_bits by (auto; lia).
  pose proof (Z.div_mod p 64). pose proof (Z.mod_pos_bound p 64).
  destruct (Z.eqb_spec (p / 64) w) as [E|E].
  2: { destruct (Z.leb_spec (64 * w) p), (Z.ltb_spec p (64 * w + hi)); try reflexivity.
       exfalso. apply E. lia. }
  set (j := p mod 64) in *. assert (Ep : p = 64 * w + j) by lia. rewrite !Ep.
  rewrite testbit_shift_into_b by (auto; lia). rewrite Z.eqb_refl. cbn [andb].
  assert (A : j < amount -> Z.testbit (rd q (w - 1)) (j + 64 - amount) = bits q (64 * w + j - amount)).
  { intros L. rewrite rd_bits by (auto; lia). f_equal. lia. }
  assert (B : amount <= j -> Z.testbit (rd q w) (j - amount) = bits q (64 * w + j - amount)).
  { intros L. rewrite rd_bits by (auto; lia). f_equal. lia. }
  destruct (Z.leb_spec 0 j), (Z.ltb_spec j hi), (Z.leb_spec (64 * w) (64 * w + j)),
    (Z.ltb_spec (64 * w + j) (64 * w + hi)), (Z.ltb_spec j amount), (Z.leb_spec (0 + amount) j);
    try (exfalso; lia); cbn [andb orb].
  - rewrite A by lia. apply orb_false_r.
  - apply B. lia.
  - rewrite A, Hz by lia. apply rd_bits; auto; lia.
  - apply rd_bits; auto; lia.
Qed.

Lemma wr_shift_first q w lo hi amount p :
  ok q -> 0 <= w -> 0 <= lo <= hi -> hi <= 64 -> 0 <= amount < 64 -> 0 <= p ->
  bits (wr q w (shift_into_b 0 (rd q w) lo hi amount)) p =
  if (64 * w + lo <=? p) && (p <? 64 * w + hi)
  then (64 * w + lo + amount <=? p) && bits q (p - amount) else bits q p.
Proof.
  intros Hq Hw Hlo Hhi Ha Hp. rewrite wr_bits by (auto; lia).
  pose proof (Z.div_mod p 64). pose proof (Z.mod_pos_bound p 64).
  destruct (Z.eqb_spec (p / 64) w) as [E|E].
  2: { destruct (Z.leb_spec (64 * w + lo) p), (Z.ltb_spec p (64 * w + hi)); try reflexivity.
       exfalso. apply E. lia. }
  set (j := p mod 64) in *. assert (Ep : p = 64 * w + j) by lia. rewrite !Ep.
  rewrite testbit_shift_into_b by (auto; try lia; split; lia).
  rewrite Z.bits_0, andb_false_r. cbn [orb].
  destruct (Z.leb_spec lo j), (Z.ltb_spec j hi), (Z.leb_spec (64 * w + lo) (64 * w + j)),
    (Z.ltb_spec (64 * w + j) (64 * w + hi)), (Z.leb_spec (lo + amount) j),
    (Z.leb_spec (64 * w + lo + amount) (64 * w + j));
    try (exfalso; lia); cbn [andb orb]; try reflexivity; try (apply rd_bits; auto; lia).
  rewrite rd_bits by (auto; lia). f_equal. lia.
Qed.

(** After the loop every word above the first one is shifted. *)
Lemma shift_words_bits n : forall q w hi amount p,
  ok q -> Z.of_nat n <= w -> 0 <= hi <= 64 -> 0 <= amount < 64 -> 0 <= p ->
  (forall j, hi <= j < amount -> bits q (64 * w + j - amount) = false) ->
  let q' := shift_words rd wr q n w hi amount in
  ok q' /\ same q' q /\
  bits q' p = if (64 * (w - Z.of_nat n + 1) <=? p) && (p <? 64 * w + hi) && (0 <? Z.of_nat n)
              then bits q (p - amount) else bits q p.
Proof.
  induction n as [|n IH]; intros q w hi amount p Hq Hw Hhi Ha Hp Hz; cbv zeta; cbn [shift_words].
  - split; [exact Hq|]. split; [reflexivity|]. now rewrite andb_false_r.
  - cbv zeta. set (q1 := wr q w _).
    assert (H1 : ok q1) by (apply wr_ok; exact Hq).
    assert (S1 : same q1 q) by (apply wr_same; [exact Hq|lia]).
    destruct (IH q1 (w - 1) 64 amount p) as (O & Sm & B); [exact H1|lia|lia|exact Ha|exact Hp|lia|].
    split; [exact O|]. split; [rewrite Sm; exact S1|]. rewrite B. unfold q1.
    destruct (Z.leb_spec (64 * (w - 1 - Z.of_nat n + 1)) p), (Z.ltb_spec p (64 * (w - 1) + 64)),
      (Z.ltb_spec 0 (Z.of_nat n)), (Z.leb_spec (64 * (w - Z.of_nat (S n) + 1)) p),
      (Z.ltb_spec p (64 * w + hi)), (Z.ltb_spec 0 (Z.of_nat (S n)));
      try (exfalso; lia); cbn [andb];
    rewrite wr_shift_last by (auto; lia);
    repeat split_cmp; reflexivity.
Qed.

(** The word-wise shift is the shift of the interval, provided the bits shifted out
    below the last word are clear. *)
Lemma shift_range_bits q s e amount p :
  ok q -> 0 <= s -> s + amount <= e -> s < e -> 0 <= amount < 64 -> 0 <= p ->
  (forall i, e - amount <= i < e -> i < 64 * (e / 64) -> bits q i = false) ->
  let q' := shift_range q s e amount in
  ok q' /\ same q' q /\ bits q' p = shifted (bits q) s e amount p.
Proof.
  intros Hq Hs Hse Hlt Ha Hp Hz. cbv zeta. unfold shift_range, shifted.
  pose proof (Z.div_mod s 64). pose proof (Z.mod_pos_bound s 64).
  pose proof (Z.div_mod e 64). pose proof (Z.mod_pos_bound e 64).
  pose proof (Z.div_pos s 64). pose proof (Z.div_le_mono s e 64).
  set (ws := s / 64) in *. set (we := e / 64) in *.
  assert (Hz' : forall j, e mod 64 <= j < amount -> bits q (64 * we + j - amount) = false).
  { intros j Hj. apply Hz; lia. }
  assert (L : forall p, 0 <= p -> _) by
    (intros p' Hp'; exact (shift_words_bits (Z.to_nat (we - ws)) q we (e mod 64) amount p' Hq
       ltac:(lia) ltac:(lia) Ha Hp' Hz')).
  cbv zeta in L. set (q1 := shift_words _ _ _ _ _ _ _) in *.
  destruct (L p Hp) as (O1 & S1 & _).
  split; [auto|]. split; [rewrite wr_same by (auto; lia); exact S1|].
  set (hi := if we =? ws then e mod 64 else 64).
  assert (Hhi : s mod 64 <= hi <= 64 /\ 64 * ws + hi = Z.min e (64 * ws + 64)).
  { unfold hi. destruct (Z.eqb_spec we ws); lia. }
  rewrite wr_shift_first by (auto; lia).
  destruct (L p Hp) as (_ & _ & ->).
  pose proof (Z.div_mod p 64). pose proof (Z.mod_pos_bound p 64).
  destruct (Z.eqb_spec (p / 64) ws) as [Ew|Ew].
  - destruct (Z.le_gt_cases 0 (p - amount)) as [G|G]; [destruct (L (p - amount) G) as (_ & _ & ->)|];
      split_cmps; reflexivity || (exfalso; lia).
  - split_cmps; reflexivity || (exfalso; lia).
Qed.
End ShiftWords.

(** ** The slots *)

(** Everything but the slots of the two filters agrees. *)
Record same_but_slots (q' q : QF) : Prop := {
  sbs_metadata : metadata q' = metadata q;
  sbs_runtime : runtimedata q' = runtimedata q;
  sbs_view : veq (view_of q') (vset_sbit (view_of q) (v_sbit (view_of q')));
}.

Record same_but_runends (q' q : QF) : Prop := {
  sbr_metadata : metadata q' = metadata q;
  sbr_runtime : runtimedata q' = runtimedata q;
  sbr_view : veq (view_of q') (vset_run (view_of q) (v_run (view_of q')));
}.

#[export] Instance same_but_slots_equiv : Equivalence same_but_slots.
Proof.
  split.
  - intros q. split; [reflexivity..|]. split; reflexivity.
  - intros a b [H1 H2 [V1 V2 V3 V4]]. split; [auto..|].
    split; intros i Hi; cbn [vset_sbit v_occ v_run v_sbit v_off] in *; [rewrite V1|rewrite V2| |rewrite V4]; auto.
  - intros a b c [H1 H2 [V1 V2 V3 V4]] [G1 G2 [W1 W2 W3 W4]]. split; [congruence..|].
    split; intros i Hi; cbn [vset_sbit v_occ v_run v_sbit v_off] in *;
      [rewrite V1, W1|rewrite V2, W2| |rewrite V4, W4]; auto.
Qed.

#[export] Instance same_but_runends_equiv : Equivalence same_but_runends.
Proof.
  split.
  - intros q. split; [reflexivity..|]. split; reflexivity.
  - intros a b [H1 H2 [V1 V2 V3 V4]]. split; [auto..|].
    split; intros i Hi; cbn [vset_run v_occ v_run v_sbit v_off] in *; [rewrite V1| |rewrite V3|rewrite V4]; auto.
  - intros a b c [H1 H2 [V1 V2 V3 V4]] [G1 G2 [W1 W2 W3 W4]]. split; [congruence..|].
    split; intros i Hi; cbn [vset_run v_occ v_run v_sbit v_off] in *;
      [rewrite V1, W1| |rewrite V3, W3|rewrite V4, W4]; auto.
Qed.

Definition width_ok (q : QF) : Prop := 1 <= bps q <= 56.

Lemma shift_remainders_range q start empty :
  shift_remainders q start empty
  = shift_range REMAINDER_WORD set_REMAINDER_WORD q (start * bps q) ((empty + 1) * bps q) (bps q).
Proof.
  unfold shift_remainders, shift_range.
  assert (E : forall n r w hi a, bps (shift_words REMAINDER_WORD set_REMAINDER_WORD r n w hi a) = bps r).
  { induction n as [|n IH]; intros r w hi a; cbn [shift_words]; [reflexivity|].
    cbv zeta. rewrite IH. reflexivity. }
  rewrite E. reflexivity.
Qed.

Lemma shift_remainders_bits q start empty p :
  width_ok q -> 0 <= start <= empty -> 0 <= p -> get_slot q empty = 0 ->
  let q' := shift_remainders q start empty in
  width_ok q' /\ same_but_slots q' q /\
  v_sbit (view_of q') p =
  shifted (v_sbit (view_of q)) (start * bps q) ((empty + 1) * bps q) (bps q) p.
Proof.
  intros Hq Hs Hp H0. cbv zeta. rewrite shift_remainders_range. unfold width_ok in *.
  apply (shift_range_bits REMAINDER_WORD set_REMAINDER_WORD (fun q => v_sbit (view_of q))
           width_ok same_but_slots _); unfold width_ok; auto; try nia.
  - intros r w j Hr Hw Hj. now apply testbit_REMAINDER_WORD.
  - intros r w. apply (load_fits _ _ 8). lia.
  - intros r w v i Hr Hw Hi. destruct (set_REMAINDER_WORD_view r Hr w v Hw) as [_ _ V _]. now apply V.
  - intros r w v Hr Hw. split; [reflexivity..|].
    destruct (set_REMAINDER_WORD_view r Hr w v Hw) as [V1 V2 V3 V4].
    split; [exact V1|exact V2|reflexivity|exact V4].
  - intros i Hi _. assert (B : 0 <= i - empty * bps q < bps q) by lia.
    pose proof (testbit_get_slot q Hq empty (i - empty * bps q)) as T.
    rewrite H0, Z.bits_0 in T. destruct (Z.ltb_spec (i - empty * bps q) (bps q)); [|lia].
    cbn [andb] in T. rewrite T by lia. f_equal. lia.
Qed.

(** Slots are equal when their bits are. *)
Lemma get_slot_ext q q' i i' :
  width_ok q -> width_ok q' -> bps q = bps q' -> 0 <= i -> 0 <= i' ->
  (forall j, 0 <= j < bps q ->
     v_sbit (view_of q) (i * bps q + j) = v_sbit (view_of q') (i' * bps q + j)) ->
  get_slot q i = get_slot q' i'.
Proof.
  intros Hq Hq' E Hi Hi' H. apply Z.bits_inj'. intros j Hj.
  rewrite !testbit_get_slot by auto. rewrite <- E.
  destruct (Z.ltb_spec j (bps q)); [|reflexivity]. cbn [andb]. apply H. lia.
Qed.

Lemma get_slot_set_slot q i v k :
  width_ok q -> 0 <= i -> 0 <= k -> fits (bps q) v ->
  get_slot (set_slot q i v) k = if k =? i then v else get_slot q k.
Proof.
  intros Hq Hi Hk Hv. destruct (set_slot_view q Hq i v Hi Hv) as [_ _ V _].
  change (v_sbit (vset_sbit ?a ?f)) with f in V.
  assert (Hq' : width_ok (set_slot q i v)) by exact Hq.
  destruct (Z.eqb_spec k i) as [->|Hne].
  - apply Z.bits_inj'. intros j Hj. rewrite testbit_get_slot by auto.
    change (bps (set_slot q i v)) with (bps q). unfold width_ok in *.
    destruct (Z.ltb_spec j (bps q)); cbn [andb].
    + rewrite V by nia. unfold in_slot. split_cmps; try nia. f_equal. lia.
    + symmetry. apply (testbit_fits (bps q)); auto; lia.
  - apply get_slot_ext; auto. intros j Hj. change (bps (set_slot q i v)) with (bps q) in *.
    rewrite V by nia. unfold in_slot. split_cmps; try reflexivity. exfalso. apply Hne. nia.
Qed.

Lemma get_slot_shift_remainders q start empty k :
  width_ok q -> 0 <= start <= empty -> 0 <= k -> get_slot q empty = 0 -> k <> start ->
  get_slot (shift_remainders q start empty) k =
  if (start <? k) && (k <=? empty) then get_slot q (k - 1) else get_slot q k.
Proof.
  intros Hq Hs Hk H0 Hne.
  pose proof (fun p Hp => shift_remainders_bits q start empty p Hq Hs Hp H0) as B. cbv zeta in B.
  destruct (B 0 ltac:(lia)) as (Hq' & [E _ _] & _).
  assert (Eb : bps (shift_remainders q start empty) = bps q) by (unfold bps; now rewrite E).
  assert (C : forall j, 0 <= j < bps q -> v_sbit (view_of (shift_remainders q start empty)) (k * bps q + j)
     = shifted (v_sbit (view_of q)) (start * bps q) ((empty + 1) * bps q) (bps q) (k * bps q + j))
    by (intros j Hj; apply B; unfold width_ok in *; nia).
  unfold shifted in C. unfold width_ok in *.
  destruct (Z.ltb_spec start k), (Z.leb_spec k empty); cbn [andb];
    apply get_slot_ext; unfold width_ok; auto; try lia; rewrite Eb; intros j Hj; rewrite C by lia;
    repeat match goal with
    | |- context [?a <=? ?b] => destruct (Z.leb_spec a b); try (exfalso; nia)
    | |- context [?a <? ?b] => destruct (Z.ltb_spec a b); try (exfalso; nia)
    end; cbn [andb negb]; f_equal; lia.
Qed.

(** ** The slot-by-slot loop, and [shift_slots] *)

Lemma get_slot_move_slots n : forall q i d k,
  width_ok q -> Z.of_nat n - 1 <= i -> 0 < d -> 0 <= k ->
  let q' := move_slots q n i d in
  width_ok q' /\ same_but_slots q' q /\
  get_slot q' k = if (i - Z.of_nat n + 1 + d <=? k) && (k <=? i + d) then get_slot q (k - d) else get_slot q k.
Proof.
  induction n as [|n IH]; intros q i d k Hq Hi Hd Hk; cbv zeta; cbn [move_slots].
  - split; [exact Hq|]. split; [reflexivity|]. split_cmps; reflexivity.
  - pose proof (get_slot_fits q Hq i ltac:(lia)) as F.
    set (q1 := set_slot q (i + d) (get_slot q i)).
    assert (Hq1 : width_ok q1) by exact Hq.
    destruct (IH q1 (i - 1) d k Hq1) as (O & S & G); [lia..|].
    split; [exact O|]. split.
    + rewrite S. unfold q1. split; [reflexivity..|].
      destruct (set_slot_view q Hq (i + d) (get_slot q i) ltac:(lia) F) as [V1 V2 V3 V4].
      split; [exact V1|exact V2|reflexivity|exact V4].
    + rewrite G. unfold q1. clear G O S IH.
      assert (E : forall j, 0 <= j -> get_slot (set_slot q (i + d) (get_slot q i)) j
                = if j =? i + d then get_slot q i else get_slot q j)
        by (intros j Hj; apply get_slot_set_slot; auto; lia).
      destruct (Z.leb_spec (i - 1 - Z.of_nat n + 1 + d) k), (Z.leb_spec k (i - 1 + d)),
        (Z.leb_spec (i - Z.of_nat (S n) + 1 + d) k), (Z.leb_spec k (i + d));
        try (exfalso; lia); cbn [andb]; rewrite E by lia; split_cmps; try reflexivity.
      all: f_equal; lia.
Qed.

Lemma shift_slots_spec_aux q first last d k :
  width_ok q -> 0 <= first <= last -> 0 < d -> 0 <= k -> ~ first <= k < first + d ->
  (d = 1 -> get_slot q (last + 1) = 0) ->
  let q' := shift_slots q first last d in
  width_ok q' /\ same_but_slots q' q /\
  get_slot q' k = if (first + d <=? k) && (k <=? last + d) then get_slot q (k - d) else get_slot q k.
Proof.
  intros Hq Hf Hd Hk Hn H0. cbv zeta. unfold shift_slots. destruct (Z.eqb_spec d 1) as [->|Hne].
  - destruct (shift_remainders_bits q first (last + 1) 0) as (O & S & _); auto; try lia.
    split; [exact O|]. split; [exact S|].
    rewrite get_slot_shift_remainders by (auto; lia). split_cmps; reflexivity.
  - destruct (get_slot_move_slots (Z.to_nat (last - first + 1)) q last d k) as (O & S & G); auto; try lia.
    split; [exact O|]. split; [exact S|]. rewrite G. split_cmps; reflexivity.
Qed.

(** ** The run-end bits *)

Lemma shift_runends_range q first last d :
  shift_runends q first last d
  = shift_range runend_word set_runend_word q first (last + d + 1) d.
Proof. reflexivity. Qed.

Lemma shift_runends_bits q first last d p :
  width_ok q -> 0 <= first <= last + 1 -> 0 < d < 64 -> 0 <= p ->
  (forall i, last < i <= last + d -> i < 64 * ((last + d + 1) / 64) -> v_run (view_of q) i = false) ->
  let q' := shift_runends q first last d in
  width_ok q' /\ same_but_runends q' q /\
  v_run (view_of q') p = shifted (v_run (view_of q)) first (last + d + 1) d p.
Proof.
  intros Hq Hs Hd Hp H0. cbv zeta. rewrite shift_runends_range. unfold width_ok in *.
  apply (shift_range_bits runend_word set_runend_word (fun q => v_run (view_of q))
           width_ok same_but_runends _); unfold width_ok; auto; try lia.
  - intros r w j Hr Hw Hj. now apply testbit_runend_word.
  - intros r w. apply (load_fits _ _ 8). lia.
  - intros r w v i Hr Hw Hi. destruct (set_runend_word_view r Hr w v Hw) as [_ V _ _]. now apply V.
  - intros r w v Hr Hw. split; [reflexivity..|].
    destruct (set_runend_word_view r Hr w v Hw) as [V1 V2 V3 V4].
    split; [exact V1|reflexivity|exact V3|exact V4].
  - intros i Hi Hi'. apply H0; lia.
Qed.
