(* ===== verification/Layout.v ===== *)
(** * The layout of runs in the filter

    A quotient filter stores the remainders of bucket [q] as one run of contiguous
    slots, the runs in the order of their buckets, each at its home slot or at the
    first slot after the previous run.  Given the lengths of the runs this determines
    where each run lies ([run_start], [run_stop]) and what the metadata bits and the
    block offsets are ([wf]).  The scanning functions of [Blocks] are characterised
    against this description. *)

From S2P Require Import Prelude BitSeq RankSelect Blocks BlockBits.
Import ListNotations.
#[local] Open Scope Z_scope.

(** ** Where the runs lie *)

Section Stops.
(** The length of the run of each bucket. *)
Variable len : Z -> Z.
Hypothesis len_nonneg : forall q, 0 <= len q.

(** The slot after the last run of the first [n] buckets. *)
Fixpoint fill (n : nat) : Z :=
  match n with
  | O => 0
  | S m => let q := Z.of_nat m in if len q =? 0 then fill m else Z.max q (fill m) + len q
  end.

Definition run_stop (q : Z) : Z := fill (Z.to_nat (q + 1)).
Definition run_start (q : Z) : Z := Z.max q (run_stop (q - 1)).

(** Slot [x] lies in a run. *)
Definition used (x : Z) : Prop := exists q, 0 <= q /\ run_start q <= x < run_start q + len q.

Lemma run_stop_neg q : q < 0 -> run_stop q = 0.
Proof. intros H. unfold run_stop. replace (Z.to_nat (q + 1)) with O by lia. reflexivity. Qed.

Lemma run_stop_step q :
  0 <= q -> run_stop q = if len q =? 0 then run_stop (q - 1) else run_start q + len q.
Proof.
  intros Hq. unfold run_start, run_stop. replace (Z.to_nat (q + 1)) with (S (Z.to_nat q)) by lia.
  cbn [fill]. cbv zeta. rewrite Z2Nat.id by lia. replace (q - 1 + 1) with q by lia. reflexivity.
Qed.

Lemma run_stop_full q : 0 <= q -> len q <> 0 -> run_stop q = run_start q + len q.
Proof. intros H E. rewrite run_stop_step by lia. destruct (Z.eqb_spec (len q) 0); [lia|reflexivity]. Qed.

Lemma run_stop_empty q : len q = 0 -> run_stop q = run_stop (q - 1).
Proof.
  intros E. destruct (Z.neg_nonneg_cases q).
  - rewrite !run_stop_neg by lia. reflexivity.
  - rewrite run_stop_step, E by lia. reflexivity.
Qed.

Lemma run_stop_bounds q : 0 <= run_stop q /\ run_stop (q - 1) <= run_stop q.
Proof.
  assert (H : forall n, 0 <= fill n <= fill (S n)).
  { assert (G : forall n, fill n <= fill (S n)).
    { intros n. cbn [fill]. cbv zeta. pose proof (len_nonneg (Z.of_nat n)). destruct (_ =? 0); lia. }
    induction n as [|n IH]; [split; [reflexivity|apply G]|]. pose proof (G (S n)). lia. }
  destruct (Z.neg_nonneg_cases q).
  - rewrite !run_stop_neg by lia. lia.
  - unfold run_stop. replace (Z.to_nat (q + 1)) with (S (Z.to_nat (q - 1 + 1))) by lia.
    pose proof (H (Z.to_nat (q - 1 + 1))). lia.
Qed.

Lemma run_stop_mono p q : p <= q -> run_stop p <= run_stop q.
Proof.
  intros H. replace q with (p + Z.of_nat (Z.to_nat (q - p))) by lia.
  generalize (Z.to_nat (q - p)) as n. induction n as [|n IH]; [rewrite Z.add_0_r; lia|].
  pose proof (run_stop_bounds (p + Z.of_nat (S n))) as B.
  replace (p + Z.of_nat (S n) - 1) with (p + Z.of_nat n) in B by lia. lia.
Qed.

Lemma run_start_le q p : 0 <= q -> len q <> 0 -> q <= p -> run_start q + len q <= run_stop p.
Proof. intros Hq E H. rewrite <- run_stop_full by auto. now apply run_stop_mono. Qed.

(** Runs do not overlap, and come in the order of their buckets. *)
Lemma runs_ordered q p : 0 <= q < p -> len q <> 0 -> run_start q + len q <= run_start p.
Proof.
  intros H E. pose proof (run_start_le q (p - 1)) as B. unfold run_start at 2. lia.
Qed.

(** The last non-empty bucket up to [q]. *)
Lemma run_stop_last q :
  0 < run_stop q -> exists p, 0 <= p <= q /\ len p <> 0 /\ run_stop q = run_start p + len p.
Proof.
  destruct (Z.neg_nonneg_cases q); [rewrite run_stop_neg by lia; lia|].
  replace q with (Z.of_nat (Z.to_nat q)) by lia. generalize (Z.to_nat q) as n.
  induction n as [|n IH]; intros P.
  - exists 0. rewrite run_stop_step in P |- * by lia.
    destruct (Z.eqb_spec (len (Z.of_nat 0)) 0); [rewrite run_stop_neg in P; lia|].
    change (Z.of_nat 0) with 0 in *. repeat split; lia.
  - rewrite run_stop_step in P |- * by lia.
    destruct (Z.eqb_spec (len (Z.of_nat (S n))) 0).
    + replace (Z.of_nat (S n) - 1) with (Z.of_nat n) in * by lia.
      destruct (IH P) as (p & Hp & E & Es). exists p. repeat split; lia.
    + exists (Z.of_nat (S n)). repeat split; lia.
Qed.

(** A slot is in a run exactly if the runs that start up to it reach past it. *)
Lemma used_iff x : 0 <= x -> used x <-> x < run_stop x.
Proof.
  intros Hx. split.
  - intros (q & Hq & H). assert (q <= x) by (unfold run_start in H; lia).
    pose proof (run_start_le q x Hq). lia.
  - intros H. remember (Z.to_nat x) as n eqn:En. assert (Hn : x = Z.of_nat n) by lia. clear En.
    assert (G : forall m, x < run_stop (Z.of_nat m) -> Z.of_nat m <= x -> used x).
    { induction m as [|m IH]; intros L Lm.
      - rewrite run_stop_step in L by lia. destruct (Z.eqb_spec (len (Z.of_nat 0)) 0).
        + rewrite run_stop_neg in L; lia.
        + exists 0. change (Z.of_nat 0) with 0 in *. split; [lia|]. unfold run_start in *.
          rewrite run_stop_neg in * by lia. lia.
      - rewrite run_stop_step in L by lia.
        replace (Z.of_nat (S m) - 1) with (Z.of_nat m) in * by lia.
        destruct (Z.eqb_spec (len (Z.of_nat (S m))) 0); [apply IH; lia|].
        destruct (Z.lt_ge_cases x (run_start (Z.of_nat (S m)))) as [C|C].
        + apply IH; [|lia]. unfold run_start in C.
          replace (Z.of_nat (S m) - 1) with (Z.of_nat m) in * by lia. lia.
        + exists (Z.of_nat (S m)). lia. }
    apply (G n); [rewrite <- Hn; exact H|lia].
Qed.
End Stops.

Lemma run_stop_ext len len' p :
  (forall q, 0 <= q <= p -> len q = len' q) -> run_stop len p = run_stop len' p.
Proof.
  intros H. unfold run_stop. assert (G : forall n, Z.of_nat n <= p + 1 -> fill len n = fill len' n).
  { induction n as [|n IH]; intros Hn; [reflexivity|]. cbn [fill]. cbv zeta.
    rewrite IH, H by lia. reflexivity. }
  destruct (Z.neg_nonneg_cases (p + 1)); [now replace (Z.to_nat (p + 1)) with O by lia|apply G; lia].
Qed.

(** ** Metadata that describes a layout *)

Record wf (v : view) (nb : Z) (len : Z -> Z) : Prop := {
  wf_len q : 0 <= len q;
  wf_occ q : 0 <= q -> v_occ v q = negb (len q =? 0);
  wf_run x : 0 <= x -> v_run v x = true <-> exists q, 0 <= q /\ len q <> 0 /\ run_stop len q = x + 1;
  wf_off b : 0 <= b < nb -> v_off v b = Z.max 0 (run_stop len (64 * b - 1) - 64 * b);
  wf_bound q : run_stop len q <= 64 * nb;
}.

Section Wf.
Context (v : view) (nb : Z) (len : Z -> Z) (W : wf v nb len).

#[local] Abbreviation stop := (run_stop len).
#[local] Abbreviation start := (run_start len).
#[local] Abbreviation ln := (wf_len _ _ _ W).

Lemma wf_occ_true q : 0 <= q -> len q <> 0 -> v_occ v q = true.
Proof. intros H E. rewrite (wf_occ _ _ _ W) by exact H. destruct (Z.eqb_spec (len q) 0); auto; lia. Qed.

Lemma wf_occ_false q : 0 <= q -> len q = 0 -> v_occ v q = false.
Proof. intros H E. rewrite (wf_occ _ _ _ W), E by exact H. reflexivity. Qed.

Lemma stop_after q p : q < p -> 0 <= p -> len p <> 0 -> Z.max (q + 1) (stop q) < stop p.
Proof.
  intros H Hp E. pose proof (ln p). rewrite (run_stop_full len p) by (auto; lia).
  unfold run_start. pose proof (run_stop_mono len ln q (p - 1)). lia.
Qed.

(** As many runs end before [x] as buckets up to [q] are occupied, when the runs of
    these buckets, and no other, end before [x]. *)
Lemma rank_runs n : forall x,
  stop (Z.of_nat n - 1) <= x ->
  (forall p, Z.of_nat n <= p -> len p <> 0 -> x < stop p) ->
  rank (v_run v) 0 x = rank (v_occ v) 0 (Z.of_nat n).
Proof.
  induction n as [|n IH]; intros x Hx Hp.
  - change (Z.of_nat 0) with 0 in *. transitivity 0; [|symmetry; apply rank_nil; lia].
    apply rank_false. intros y Hy. apply not_true_is_false. intros E.
    apply (wf_run _ _ _ W) in E; [|lia]. destruct E as (p & Hp0 & El & Es).
    specialize (Hp p Hp0 El). lia.
  - replace (Z.of_nat (S n) - 1) with (Z.of_nat n) in Hx by lia.
    replace (Z.of_nat (S n)) with (Z.of_nat n + 1) in * by lia.
    rewrite rank_succ by lia. destruct (Z.eq_dec (len (Z.of_nat n)) 0) as [E|E].
    + rewrite wf_occ_false by (auto; lia). rewrite (IH x); [simpl; lia| |].
      * rewrite <- (run_stop_empty len (Z.of_nat n) E). exact Hx.
      * intros p H El. apply Hp; [|exact El]. assert (p <> Z.of_nat n) by congruence. lia.
    + rewrite wf_occ_true by (auto; lia). pose proof (ln (Z.of_nat n)).
      pose proof (run_stop_full len (Z.of_nat n) ltac:(lia) E) as F.
      pose proof (run_stop_bounds len ln (Z.of_nat n)) as B.
      assert (G : stop (Z.of_nat n - 1) <= stop (Z.of_nat n) - 1) by (unfold run_start in F; lia).
      pose proof (run_stop_bounds len ln (Z.of_nat n - 1)).
      rewrite (rank_split _ 0 (stop (Z.of_nat n) - 1) x) by lia.
      rewrite (IH (stop (Z.of_nat n) - 1) G).
      2: { intros p H1 El. pose proof (run_stop_mono len ln (Z.of_nat n) p H1). lia. }
      rewrite (rank_split _ _ (stop (Z.of_nat n)) x), rank_pred by lia.
      replace (v_run v (stop (Z.of_nat n) - 1)) with true.
      2: { symmetry. apply (wf_run _ _ _ W); [lia|]. exists (Z.of_nat n). repeat split; auto; lia. }
      rewrite (rank_false _ _ x); [simpl; lia|]. intros y Hy.
      apply not_true_is_false. intros Ey. apply (wf_run _ _ _ W) in Ey; [|lia].
      destruct Ey as (p & Hp0 & El & Es). assert (Z.of_nat n < p).
      { destruct (Z.lt_ge_cases (Z.of_nat n) p); [assumption|].
        pose proof (run_stop_mono len ln p (Z.of_nat n)). lia. }
      specialize (Hp p ltac:(lia) El). lia.
Qed.

Lemma rank_runs_at q x :
  -1 <= q -> stop q <= x -> (forall p, q < p -> len p <> 0 -> x < stop p) ->
  rank (v_run v) 0 x = rank (v_occ v) 0 (q + 1).
Proof.
  intros Hq Hx Hp. pose proof (rank_runs (Z.to_nat (q + 1)) x) as R.
  rewrite Z2Nat.id in R by lia. replace (q + 1 - 1) with q in R by lia.
  apply R; [exact Hx|]. intros p H El. apply Hp; [lia|exact El].
Qed.

Lemma rank_run_stop q : -1 <= q -> rank (v_run v) 0 (Z.max (q + 1) (stop q)) = rank (v_occ v) 0 (q + 1).
Proof.
  intros Hq. apply rank_runs_at; [exact Hq|lia|]. intros p H El.
  apply (stop_after q p); auto; lia.
Qed.

(** The runs that start up to [x] but have not ended before it. *)
Definition pending (x : Z) : Z := rank (v_occ v) 0 (x + 1) - rank (v_run v) 0 x.

Lemma pending_spec x :
  0 <= x -> 0 <= pending x /\ (pending x = 0 <-> stop x <= x) /\ (0 < pending x -> x + pending x <= stop x).
Proof.
  intros Hx. unfold pending. destruct (Z.le_gt_cases (stop x) x) as [L|L].
  - rewrite <- (rank_runs_at x x) by
      (try lia; intros p H El; pose proof (stop_after x p H ltac:(lia) El); lia). lia.
  - pose proof (rank_run_stop x ltac:(lia)) as R. rewrite Z.max_r in R by lia.
    rewrite <- R, (rank_split _ 0 x (stop x)) by lia.
    rewrite (rank_split _ x (stop x - 1) (stop x)) by lia.
    rewrite rank_pred.
    destruct (run_stop_last len x) as (p & Hp & El & Es); [lia|].
    replace (v_run v (stop x - 1)) with true.
    2: { symmetry. apply (wf_run _ _ _ W); [lia|]. exists p. repeat split; auto; try lia.
         rewrite Es. rewrite run_stop_full by (auto; lia). lia. }
    pose proof (rank_bounds (v_run v) x (stop x - 1)). simpl Z.b2z. lia.
Qed.

(** Each occupied bucket adds at least a slot. *)
Lemma run_stop_occ p n : 0 <= p -> stop (p - 1) + rank (v_occ v) p (p + Z.of_nat n) <= stop (p + Z.of_nat n - 1).
Proof.
  intros Hp. induction n as [|n IH].
  - replace (p + Z.of_nat 0) with p by lia. rewrite rank_nil by lia. lia.
  - replace (p + Z.of_nat (S n)) with (p + Z.of_nat n + 1) by lia. rewrite rank_succ by lia.
    replace (p + Z.of_nat n + 1 - 1) with (p + Z.of_nat n) by lia.
    pose proof (ln (p + Z.of_nat n)). rewrite (run_stop_step len (p + Z.of_nat n)) by lia.
    rewrite (wf_occ _ _ _ W) by lia. unfold run_start.
    destruct (Z.eqb_spec (len (p + Z.of_nat n)) 0); cbn [negb Z.b2z]; lia.
Qed.
End Wf.

(** ** The scanning functions *)

(** A filter whose metadata describes the run lengths [len]; [nb] is its number of
    blocks. *)
Record laid_out (qf : QF) (len : Z -> Z) : Prop := {
  lo_bps : 1 <= bps qf <= 56;
  lo_size : 64 * nblocks (metadata qf) < 2 ^ 62;
  lo_wf : wf (view_of qf) (nblocks (metadata qf)) len;
}.

(** The block offsets that go with the run lengths. *)
Definition exact_offset (len : Z -> Z) (b : Z) : Z := Z.max 0 (run_stop len (64 * b - 1) - 64 * b).

(** The same without the block offsets. *)
Record bits_laid_out (qf : QF) (len : Z -> Z) : Prop := {
  bl_bps : 1 <= bps qf <= 56;
  bl_size : 64 * nblocks (metadata qf) < 2 ^ 62;
  bl_wf : wf (vset_off (view_of qf) (exact_offset len)) (nblocks (metadata qf)) len;
}.

Lemma laid_out_bits qf len : laid_out qf len -> bits_laid_out qf len.
Proof. intros [H1 H2 [W1 W2 W3 W4 W5]]. split; [exact H1|exact H2|]. split; auto. Qed.

Lemma laid_out_offset qf len b : laid_out qf len -> 0 <= b < nblocks (metadata qf) -> get_offset qf b = exact_offset len b.
Proof. intros L Hb. exact (wf_off _ _ _ (lo_wf _ _ L) b Hb). Qed.

(** A scan reads the offset of one block. *)
Section Scanning.
Context (qf : QF) (len : Z -> Z) (L : bits_laid_out qf len).
Let nb := nblocks (metadata qf).
Let v := vset_off (view_of qf) (exact_offset len).
Let W : wf v nb len := bl_wf _ _ L.
#[local] Abbreviation stop := (run_stop len).
#[local] Abbreviation ln := (wf_len _ _ _ W).

Lemma rank_word (f : Z -> bool) w b lo hi :
  (forall j, 0 <= j < 64 -> Z.testbit w j = f (64 * b + j)) -> 0 <= lo -> hi <= 64 ->
  rank (Z.testbit w) lo hi = rank f (64 * b + lo) (64 * b + hi).
Proof.
  intros H Hlo Hhi. rewrite (Z.add_comm _ lo), (Z.add_comm _ hi), <- rank_shift.
  apply rank_ext. intros i Hi. rewrite H by lia. f_equal. lia.
Qed.

Lemma bitrank_occ b r :
  0 <= b -> 0 <= r < 64 ->
  bitrank (block_word qf OCC b) r = rank (v_occ v) (64 * b) (64 * b + r + 1).
Proof.
  intros Hb Hr. rewrite bitrank_spec by lia. rewrite (rank_word (v_occ v) _ b); [f_equal; lia| |lia|lia].
  intros j Hj. apply testbit_occ_word; auto. apply (bl_bps _ _ L).
Qed.

Lemma popcntv_run b ignore :
  0 <= b -> popcntv (block_word qf RUN b) ignore = rank (v_run v) (64 * b + ignore mod 64) (64 * b + 64).
Proof.
  intros Hb. rewrite popcntv_spec. pose proof (Z.mod_pos_bound ignore 64).
  apply (rank_word (v_run v)); [|lia..]. intros j Hj. apply testbit_run_word; auto. apply (bl_bps _ _ L).
Qed.

Lemma bitselectv_run b ignore k :
  0 <= b -> 0 <= k ->
  64 * b + bitselectv (block_word qf RUN b) ignore k =
  sel (v_run v) k (64 * b + ignore mod 64) (Z.to_nat (64 - ignore mod 64)).
Proof.
  intros Hb Hk. rewrite bitselectv_spec by (auto; apply block_word_fits).
  pose proof (Z.mod_pos_bound ignore 64).
  rewrite (sel_ext _ (fun i => v_run v (i + 64 * b))).
  - rewrite Z.add_comm, sel_shift. f_equal. lia.
  - intros i Hi. rewrite testbit_run_word by (try apply (bl_bps _ _ L); lia). change (v_run v) with (v_run (view_of qf)). f_equal. lia.
Qed.

(** Where the [k]-th run end is relative to the word. *)
Lemma select_in_word b g k x :
  0 <= b -> 0 <= g < 64 -> 0 <= k -> v_run v x = true -> 64 * b + g <= x ->
  rank (v_run v) (64 * b + g) x = k ->
  64 * b + bitselectv (block_word qf RUN b) g k = if x <? 64 * b + 64 then x else 64 * b + 64.
Proof.
  intros Hb Hg Hk Hx Hle Hr. rewrite bitselectv_run by lia. rewrite Z.mod_small by lia.
  destruct (Z.ltb_spec x (64 * b + 64)).
  - apply sel_unique; auto; lia.
  - rewrite sel_none; [lia|].
    replace (cnt _ _ _) with (rank (v_run v) (64 * b + g) (64 * b + 64)) by (unfold rank; f_equal; lia).
    rewrite <- Hr. apply rank_mono. lia.
Qed.

Lemma run_end_scan_spec x : v_run v x = true ->
  forall fuel b g k,
  0 <= b -> 0 <= g < 64 -> 64 * b + 64 <= x < 64 * (b + 1 + Z.of_nat fuel) -> x < 2 ^ 62 ->
  rank (v_run v) (64 * b + g) x = k -> k < 2 ^ 31 ->
  run_end_scan qf fuel b g k = Some (x / 64, x mod 64).
Proof.
  intros Hx. induction fuel as [|fuel IH]; intros b g k Hb Hg Hr Hs Hk Hk2; [lia|].
  cbn [run_end_scan]. cbv zeta.
  rewrite popcntv_run by lia. rewrite (Z.mod_small g) by lia.
  pose proof (rank_split (v_run v) (64 * b + g) (64 * b + 64) x ltac:(lia)) as Sp.
  pose proof (rank_bounds (v_run v) (64 * b + 64) x) as B1.
  pose proof (rank_bounds (v_run v) (64 * b + g) (64 * b + 64)) as B2.
  replace (sub64 k (rank (v_run v) (64 * b + g) (64 * b + 64)))
    with (rank (v_run v) (64 * (b + 1) + 0) x).
  2: { unfold sub64. rewrite u64_small by (unfold fits; lia).
       replace (64 * (b + 1) + 0) with (64 * b + 64) by lia. lia. }
  replace (add64 b 1) with (b + 1) by (unfold add64; rewrite u64_small by (unfold fits; lia); lia).
  assert (R : 0 <= rank (v_run v) (64 * (b + 1) + 0) x < 2 ^ 31).
  { replace (64 * (b + 1) + 0) with (64 * b + 64) by lia. lia. }
  rewrite i32_small by lia.
  pose proof (select_in_word (b + 1) 0 (rank (v_run v) (64 * (b + 1) + 0) x) x
    ltac:(lia) ltac:(lia) ltac:(lia) Hx ltac:(lia) eq_refl) as S.
  unfold QF_SLOTS_PER_BLOCK. destruct (Z.ltb_spec x (64 * (b + 1) + 64)).
  - set (t := bitselectv _ _ _) in *. destruct (Z.eqb_spec t 64); [lia|].
    f_equal. f_equal; [apply Z.div_unique with t|apply Z.mod_unique with (b + 1)]; lia.
  - set (t := bitselectv _ _ _) in *. destruct (Z.eqb_spec t 64); [|lia].
    apply IH; auto; lia.
Qed.

Let stop_le_nb q : stop q <= 64 * nb := wf_bound _ _ _ W q.
Let size : 64 * nb < 2 ^ 62 := bl_size _ _ L.

Lemma get_offset_fits b : fits 16 (get_offset qf b).
Proof. apply (load_fits _ _ 2). lia. Qed.

(** The first slot the runs of block [b] can use, and how many runs end before it. *)
Lemma block_base b :
  0 <= b < nb -> get_offset qf b = exact_offset len b ->
  let s := 64 * b + get_offset qf b in
  s = Z.max (64 * b) (stop (64 * b - 1)) /\ rank (v_run v) 0 s = rank (v_occ v) 0 (64 * b).
Proof.
  intros Hb Ho. cbv zeta. rewrite Ho. unfold exact_offset. split; [lia|].
  replace (64 * b + _) with (Z.max (64 * b - 1 + 1) (stop (64 * b - 1))) by lia.
  rewrite (rank_run_stop v nb len W) by lia. f_equal. lia.
Qed.

Lemma last_run_end b q k :
  0 <= b < nb -> get_offset qf b = exact_offset len b -> 64 * b <= q -> rank (v_occ v) (64 * b) (q + 1) = k -> k <> 0 ->
  let x := stop q - 1 in let s := 64 * b + get_offset qf b in
  v_run v x = true /\ s <= x /\ rank (v_run v) s x = k - 1.
Proof.
  intros Hb Ho Hq Hk K. cbv zeta. destruct (block_base b Hb Ho) as [Eb Rb]. cbv zeta in Eb, Rb.
  rewrite <- Hk in K. destruct (rank_pos _ _ _ K) as (p & Hp & Op).
  assert (El : len p <> 0).
  { rewrite (wf_occ _ _ _ W) in Op by lia. destruct (Z.eqb_spec (len p) 0); [discriminate|auto]. }
  pose proof (stop_after v nb len W (64 * b - 1) p ltac:(lia) ltac:(lia) El) as Sp.
  pose proof (run_stop_mono len ln p q ltac:(lia)) as M.
  destruct (run_stop_last len q) as (p' & Hp' & El' & Es); [lia|].
  assert (Hrun : v_run v (stop q - 1) = true).
  { apply (wf_run _ _ _ W); [lia|]. exists p'. repeat split; auto; try lia.
    rewrite run_stop_full by (auto; lia). lia. }
  split; [exact Hrun|]. split; [lia|].
  assert (R : rank (v_run v) 0 (stop q) = rank (v_occ v) 0 (q + 1)).
  { apply (rank_runs_at v nb len W); [lia|lia|]. intros p'' H El''.
    pose proof (stop_after v nb len W q p'' H ltac:(lia) El''). lia. }
  rewrite (rank_split _ 0 (stop q - 1)), rank_pred, Hrun in R by lia. cbn [Z.b2z] in R.
  rewrite (rank_split _ 0 (64 * b + get_offset qf b) (stop q - 1)) in R by
    (pose proof (get_offset_fits b) as F; unfold fits in F; lia).
  rewrite (rank_split (v_occ v) 0 (64 * b) (q + 1)) in R by lia. lia.
Qed.

(** [run_end] returns the last slot the runs up to the bucket take, or the bucket's
    own slot when they end before it. *)
Lemma run_end_at q :
  0 <= q < 64 * nb -> get_offset qf (q / 64) = exact_offset len (q / 64) -> run_end qf q = Some (Z.max (q + 1) (stop q) - 1).
Proof.
  intros Hq Ho. unfold run_end, QF_SLOTS_PER_BLOCK, block_offset.
  pose proof (Z.div_mod q 64). pose proof (Z.mod_pos_bound q 64).
  pose proof (Z.div_pos q 64). pose proof (Z.div_lt_upper_bound q 64 nb).
  set (b := q / 64) in *. set (r := q mod 64) in *.
  destruct (block_base b) as [Eb Rb]; [lia|exact Ho|]. cbv zeta in Eb, Rb.
  pose proof (get_offset_fits b) as Fo. unfold fits in Fo. set (off := get_offset qf b) in *.
  rewrite bitrank_occ by lia. replace (64 * b + r + 1) with (q + 1) by lia.
  pose proof (stop_le_nb q). pose proof (rank_bounds (v_occ v) (64 * b) (q + 1)) as Br.
  pose proof (rank_split (v_occ v) 0 (64 * b) (q + 1) ltac:(lia)) as Sp.
  cbv zeta. set (k := rank (v_occ v) (64 * b) (q + 1)) in *.
  destruct (Z.eqb_spec k 0) as [K|K].
  - (* no bucket of the block up to q is occupied *)
    assert (E : stop q = stop (64 * b - 1)).
    { assert (G : forall n : nat, Z.of_nat n <= r + 1 -> stop (64 * b - 1 + Z.of_nat n) = stop (64 * b - 1)).
      { induction n as [|n IH]; intros Hn; [f_equal; lia|].
        rewrite run_stop_empty; [rewrite <- IH by lia; f_equal; lia|].
        assert (F : v_occ v (64 * b - 1 + Z.of_nat (S n)) = false)
          by (apply (rank_zero _ (64 * b) (q + 1)); [exact K|lia]).
        rewrite (wf_occ _ _ _ W) in F by lia. destruct (Z.eqb_spec (len (64 * b - 1 + Z.of_nat (S n))) 0); auto; discriminate. }
      rewrite <- (G (Z.to_nat (r + 1))) by lia. f_equal. lia. }
    destruct (Z.leb_spec off r).
    + f_equal. lia.
    + unfold sub64, add64, mul64. rewrite (u64_small (64 * b)) by (unfold fits; lia).
      rewrite (u64_small (64 * b + off)), u64_small by (unfold fits; lia). f_equal. lia.
  - destruct (last_run_end b q k) as (Hx & Hs & Hr); [lia|exact Ho|lia|reflexivity|exact K|].
    fold off in Hs, Hr. set (x := stop q - 1) in *.
    pose proof (Z.div_mod off 64). pose proof (Z.mod_pos_bound off 64). pose proof (Z.div_pos off 64).
    set (bi := b + off / 64) in *.
    replace (64 * b + off) with (64 * bi + off mod 64) in Hs, Hr by lia.
    replace (sub64 k 1) with (k - 1) by (unfold sub64; rewrite u64_small by (unfold fits; lia); lia).
    rewrite i32_small by lia.
    pose proof (select_in_word bi (off mod 64) (k - 1) x ltac:(lia) ltac:(lia) ltac:(lia) Hx ltac:(lia) Hr) as S.
    set (t := bitselectv _ _ _) in *.
    enough (R : (if t =? 64 then run_end_scan qf (Z.to_nat nb) bi (off mod 64) (k - 1) else Some (bi, t))
                = Some (x / 64, x mod 64)).
    { fold nb. rewrite R. unfold add64, mul64.
      pose proof (Z.div_mod x 64). pose proof (Z.mod_pos_bound x 64).
      rewrite (u64_small (64 * (x / 64))), u64_small by (unfold fits; lia).
      replace (64 * (x / 64) + x mod 64) with x by lia.
      destruct (Z.ltb_spec x q); f_equal; lia. }
    destruct (Z.ltb_spec x (64 * bi + 64)); destruct (Z.eqb_spec t 64); try lia.
    + f_equal. f_equal; [apply Z.div_unique with t|apply Z.mod_unique with bi]; lia.
    + apply run_end_scan_spec; auto; lia.
Qed.

Lemma popcnt_mask w n : 0 <= n <= 64 -> popcnt (w .& BITMASK n)%u64 = rank (Z.testbit w) 0 n.
Proof.
  intros Hn. change (popcnt ?m) with (rank (Z.testbit m) 0 64). rewrite BITMASK_ones by lia.
  rewrite (rank_split _ 0 n 64), (rank_false _ n 64) by
    (try lia; intros i Hi; rewrite Z.land_spec, testbit_ones by lia; split_cmps; apply andb_false_r).
  rewrite Z.add_0_r. apply rank_ext. intros i Hi. rewrite Z.land_spec, testbit_ones by lia.
  split_cmps. apply andb_true_r.
Qed.

Lemma popcnt_mask_shift w n k :
  0 <= k <= n -> n <= 64 -> popcnt ((w .& BITMASK n) >>> k)%u64 = rank (Z.testbit w) k n.
Proof.
  intros Hk Hn. change (popcnt ?m) with (rank (Z.testbit m) 0 64). rewrite BITMASK_ones by lia.
  rewrite (rank_split _ 0 (n - k) 64), (rank_false _ (n - k) 64) by
    (try lia; intros i Hi; rewrite testbit_shiftr, Z.land_spec, testbit_ones by lia;
     split_cmps; apply andb_false_r).
  rewrite Z.add_0_r. replace (rank (Z.testbit w) k n) with (rank (Z.testbit w) (0 + k) (n - k + k))
    by (f_equal; lia).
  rewrite <- rank_shift. apply rank_ext. intros i Hi.
  rewrite testbit_shiftr, Z.land_spec, testbit_ones by lia. split_cmps. apply andb_true_r.
Qed.

(** The lower bound is positive exactly on used slots, and does not reach past the
    end of the runs that cover the slot. *)
Lemma offset_lower_bound_at x :
  0 <= x < 64 * nb -> get_offset qf (x / 64) = exact_offset len (x / 64) ->
  let t := offset_lower_bound qf x in
  0 <= t < 2 ^ 31 /\ (t = 0 <-> stop x <= x) /\ (0 < t -> x + t <= stop x).
Proof.
  intros Hx Ho. cbv zeta. unfold offset_lower_bound, QF_SLOTS_PER_BLOCK.
  pose proof (Z.div_mod x 64). pose proof (Z.mod_pos_bound x 64).
  pose proof (Z.div_pos x 64). pose proof (Z.div_lt_upper_bound x 64 nb).
  set (b := x / 64) in *. set (r := x mod 64) in *.
  destruct (block_base b) as [Eb Rb]; [lia|exact Ho|]. cbv zeta in Eb, Rb.
  pose proof (get_offset_fits b) as Fo. unfold fits in Fo. set (off := get_offset qf b) in *.
  rewrite popcnt_mask, (rank_word (v_occ v) _ b) by
    first [lia | intros j Hj; apply testbit_occ_word; [apply (bl_bps _ _ L)|lia|lia]].
  replace (64 * b + 0) with (64 * b) by lia. replace (64 * b + (r + 1)) with (x + 1) by lia.
  pose proof (rank_bounds (v_occ v) (64 * b) (x + 1)) as Bo.
  destruct (Z.leb_spec off r) as [Lo|Lo].
  - rewrite popcnt_mask_shift, (rank_word (v_run v) _ b) by
      first [lia | intros j Hj; apply testbit_run_word; [apply (bl_bps _ _ L)|lia|lia]].
    replace (64 * b + r) with x by lia.
    assert (E : rank (v_occ v) (64 * b) (x + 1) - rank (v_run v) (64 * b + off) x = pending v x).
    { unfold pending. rewrite (rank_split (v_run v) 0 (64 * b + off) x) by lia.
      rewrite (rank_split (v_occ v) 0 (64 * b) (x + 1)) by lia. lia. }
    rewrite E. destruct (pending_spec v nb len W x) as (P1 & P2 & P3); [lia|].
    assert (pending v x < 2 ^ 31) by (rewrite <- E; pose proof (rank_bounds (v_run v) (64 * b + off) x); lia).
    rewrite i32_small by lia. auto.
  - rewrite i32_small by lia.
    pose proof (run_stop_occ v nb len W (64 * b) (Z.to_nat (r + 1)) ltac:(lia)) as R.
    replace (64 * b + Z.of_nat (Z.to_nat (r + 1))) with (x + 1) in R by lia.
    replace (x + 1 - 1) with x in R by lia. lia.
Qed.

End Scanning.

Section Scans.
Context (qf : QF) (len : Z -> Z) (L : laid_out qf len).
Let nb := nblocks (metadata qf).
#[local] Abbreviation stop := (run_stop len).
#[local] Abbreviation ln := (wf_len _ _ _ (lo_wf _ _ L)).

Let own_offset x : 0 <= x < 64 * nb -> get_offset qf (x / 64) = exact_offset len (x / 64).
Proof. intros Hx. apply laid_out_offset; [exact L|]. split; [apply Z.div_pos; lia|apply Z.div_lt_upper_bound; fold nb; lia]. Qed.

Lemma run_end_spec q : 0 <= q < 64 * nb -> run_end qf q = Some (Z.max (q + 1) (stop q) - 1).
Proof. intros Hq. apply (run_end_at qf len (laid_out_bits _ _ L) q Hq). now apply own_offset. Qed.

Lemma offset_lower_bound_spec x :
  0 <= x < 64 * nb ->
  let t := offset_lower_bound qf x in
  0 <= t < 2 ^ 31 /\ (t = 0 <-> stop x <= x) /\ (0 < t -> x + t <= stop x).
Proof. intros Hx. apply (offset_lower_bound_at qf len (laid_out_bits _ _ L) x Hx). now apply own_offset. Qed.

Let size : 64 * nb < 2 ^ 62 := lo_size _ _ L.

Lemma is_empty_spec x : 0 <= x < 64 * nb -> is_empty qf x = (stop x <=? x).
Proof.
  intros Hx. unfold is_empty. destruct (offset_lower_bound_spec x Hx) as (_ & E & _).
  destruct (Z.eqb_spec (offset_lower_bound qf x) 0), (Z.leb_spec (stop x) x); auto; lia.
Qed.

(** The scan finds the first slot from [from] on that is in no run, if the buffer has
    one. *)
Lemma first_empty_scan_spec e : e < 64 * nb -> stop e <= e ->
  forall fuel from, 0 <= from <= e -> e - from <= Z.of_nat fuel ->
  (forall y, from <= y < e -> y < stop y) ->
  first_empty_scan qf fuel from = Some e.
Proof.
  intros He Hse. induction fuel as [|fuel IH]; intros from Hf Hfu Hu;
    cbn [first_empty_scan]; cbv zeta;
    destruct (offset_lower_bound_spec from ltac:(lia)) as (B & E & J);
    set (t := offset_lower_bound qf from) in *; destruct (Z.eqb_spec t 0) as [T|T].
  - f_equal. destruct (Z.eq_dec from e); [assumption|]. specialize (Hu from). lia.
  - assert (from = e) by lia. subst from. lia.
  - f_equal. destruct (Z.eq_dec from e); [assumption|]. specialize (Hu from). lia.
  - assert (from + t <= e).
    { destruct (Z.le_gt_cases (from + t) e); [assumption|].
      pose proof (run_stop_mono len ln from e). lia. }
    rewrite u64_small by (unfold fits; lia).
    apply IH; [lia..|]. intros y Hy. apply Hu. lia.
Qed.

Lemma find_first_empty_slot_spec from e :
  0 <= from <= e -> e < 64 * nb -> stop e <= e -> (forall y, from <= y < e -> y < stop y) ->
  find_first_empty_slot qf from = Some e.
Proof.
  intros Hf He Hs Hu. unfold find_first_empty_slot, scan_fuel.
  apply first_empty_scan_spec; auto. fold nb. lia.
Qed.
End Scans.
