(* ===== verification/Locks.v ===== *)
(** * The filter's locks ([gqf.c], [qf_spin_lock] .. [modify_metadata])

    One spin lock guards each region of [NUM_SLOTS_TO_LOCK] slots.  An operation takes
    the locks of the regions it can touch in increasing order.  The functions are
    modelled as they run alone (a waiting acquisition of a taken lock does not return:
    [None]), and as the sequences of test-and-set and release instructions they are,
    executed by any number of threads in any interleaving ([lstep]). *)

From S2P Require Import Prelude BitSeq RankSelect Blocks Threads.
From stdpp Require Import list relations sorting.
#[local] Open Scope Z_scope.

(** ** The functions *)

(** [__sync_lock_test_and_set] in the flavour [flag] selects; an index outside the
    array is undefined. *)
Definition qf_spin_lock (ls : list Z) (idx flag : Z) : option (bool * list Z) :=
  let? old := ls !! Z.to_nat idx in
  let ls := <[Z.to_nat idx := 1]> ls in
  if negb (GET_WAIT_FOR_LOCK flag =? QF_WAIT_FOR_LOCK) then Some (old =? 0, ls)
  else if old =? 0 then Some (true, ls) else None.

Definition qf_spin_unlock (ls : list Z) (idx : Z) : option (list Z) :=
  let? _ := ls !! Z.to_nat idx in Some (<[Z.to_nat idx := 0]> ls).

Definition qf_lock (ls : list Z) (hash_bucket_index : Z) (small : bool) (runtime_lock : Z)
    : option (bool * list Z) :=
  let hash_bucket_lock_offset := hash_bucket_index mod NUM_SLOTS_TO_LOCK in
  let l := hash_bucket_index / NUM_SLOTS_TO_LOCK in
  if small then
    let? (ok, ls) := qf_spin_lock ls l runtime_lock in
    if negb ok then Some (false, ls) else
    if NUM_SLOTS_TO_LOCK - hash_bucket_lock_offset <=? CLUSTER_SIZE then
      let? (ok, ls) := qf_spin_lock ls (l + 1) runtime_lock in
      if negb ok then (let? ls := qf_spin_unlock ls l in Some (false, ls)) else Some (true, ls)
    else Some (true, ls)
  else
    let before := (NUM_SLOTS_TO_LOCK <=? hash_bucket_index) && (hash_bucket_lock_offset <=? CLUSTER_SIZE) in
    let unlock_before ls := if before then qf_spin_unlock ls (l - 1) else Some ls in
    let? (ok, ls) := (if before then qf_spin_lock ls (l - 1) runtime_lock else Some (true, ls)) in
    if negb ok then Some (false, ls) else
    let? (ok, ls) := qf_spin_lock ls l runtime_lock in
    if negb ok then (let? ls := unlock_before ls in Some (false, ls)) else
    let? (ok, ls) := qf_spin_lock ls (l + 1) runtime_lock in
    if negb ok then
      (let? ls := qf_spin_unlock ls l in let? ls := unlock_before ls in Some (false, ls))
    else Some (true, ls).

Definition qf_unlock (ls : list Z) (hash_bucket_index : Z) (small : bool) : option (list Z) :=
  let hash_bucket_lock_offset := hash_bucket_index mod NUM_SLOTS_TO_LOCK in
  let l := hash_bucket_index / NUM_SLOTS_TO_LOCK in
  if small then
    let? ls := (if NUM_SLOTS_TO_LOCK - hash_bucket_lock_offset <=? CLUSTER_SIZE
                then qf_spin_unlock ls (l + 1) else Some ls) in
    qf_spin_unlock ls l
  else
    let? ls := qf_spin_unlock ls (l + 1) in
    let? ls := qf_spin_unlock ls l in
    if (NUM_SLOTS_TO_LOCK <=? hash_bucket_index) && (hash_bucket_lock_offset <=? CLUSTER_SIZE)
    then qf_spin_unlock ls (l - 1) else Some ls.

(** [*metadata = *metadata + cnt], with an [int] [cnt], under the metadata lock. *)
Definition modify_metadata (qf : QF) (f : counter_field) (cnt : Z) : option QF :=
  let cnt := i32 cnt in
  let? (_, ml) := qf_spin_lock [qf.(runtimedata).(metadata_lock)] 0 QF_WAIT_FOR_LOCK in
  let qf := set_metadata qf (set_counter qf.(metadata) f (get_counter qf.(metadata) f + cnt)%u64) in
  let? ml := qf_spin_unlock ml 0 in
  let rt := qf.(runtimedata) in
  Some (set_runtime qf (mk_runtime rt.(filepath) rt.(container_resize) rt.(num_locks)
                          (default 0 (ml !! 0%nat)) rt.(locks))).

Definition set_locks (qf : QF) (ls : list Z) : QF :=
  let rt := qf.(runtimedata) in
  set_runtime qf (mk_runtime rt.(filepath) rt.(container_resize) rt.(num_locks) rt.(metadata_lock) ls).

(** [if (GET_NO_LOCK(flags) != QF_NO_LOCK) qf_lock(...)] at the entry of an operation,
    and [qf_unlock] at its exit. *)
Definition lock_qf (qf : QF) (hash_bucket_index : Z) (small : bool) (flags : Z) : option (bool * QF) :=
  if negb (GET_NO_LOCK flags =? QF_NO_LOCK) then
    let? (ok, ls) := qf_lock qf.(runtimedata).(locks) hash_bucket_index small flags in
    Some (ok, set_locks qf ls)
  else Some (true, qf).

Definition unlock_qf (qf : QF) (hash_bucket_index : Z) (small : bool) (flags : Z) : option QF :=
  if negb (GET_NO_LOCK flags =? QF_NO_LOCK) then
    let? ls := qf_unlock qf.(runtimedata).(locks) hash_bucket_index small in
    Some (set_locks qf ls)
  else Some qf.

(** ** The order of acquisition *)

(** The locks an operation on a bucket takes, in order. *)
Definition lock_plan (h : Z) (small : bool) : list nat :=
  let l := Z.to_nat (h / NUM_SLOTS_TO_LOCK) in
  if small then
    l :: (if NUM_SLOTS_TO_LOCK - h mod NUM_SLOTS_TO_LOCK <=? CLUSTER_SIZE then [S l] else [])
  else
    (if (NUM_SLOTS_TO_LOCK <=? h) && (h mod NUM_SLOTS_TO_LOCK <=? CLUSTER_SIZE)
     then [pred l] else []) ++ [l; S l].

Definition waits (flag : Z) : bool := GET_WAIT_FOR_LOCK flag =? QF_WAIT_FOR_LOCK.

(** Taking a plan's locks one by one; [held] are those taken, the latest first. *)
Fixpoint release (ls : list Z) (held : list nat) : list Z :=
  match held with
  | [] => ls
  | i :: held => release (<[i := 0]> ls) held
  end.

Fixpoint acquire (flag : Z) (ls : list Z) (held todo : list nat) : option (bool * list Z) :=
  match todo with
  | [] => Some (true, ls)
  | i :: todo =>
    let? old := ls !! i in
    let ls := <[i := 1]> ls in
    if old =? 0 then acquire flag ls (i :: held) todo
    else if waits flag then None else Some (false, release ls held)
  end.

Lemma spin_lock_acquire ls l flag :
  qf_spin_lock ls (Z.of_nat l) flag =
  match ls !! l with
  | None => None
  | Some old => if old =? 0 then Some (true, <[l := 1]> ls)
                else if waits flag then None else Some (false, <[l := 1]> ls)
  end.
Proof.
  unfold qf_spin_lock, waits. rewrite Nat2Z.id. destruct (ls !! l) as [old|]; [|reflexivity].
  destruct (GET_WAIT_FOR_LOCK flag =? QF_WAIT_FOR_LOCK), (old =? 0); reflexivity.
Qed.

Lemma spin_unlock_some ls l :
  (l < length ls)%nat -> qf_spin_unlock ls (Z.of_nat l) = Some (<[l := 0]> ls).
Proof.
  intros H. unfold qf_spin_unlock. rewrite Nat2Z.id.
  destruct (lookup_lt_is_Some_2 _ _ H) as [x ->]. reflexivity.
Qed.

Lemma lock_index h : 0 <= h -> h / NUM_SLOTS_TO_LOCK = Z.of_nat (Z.to_nat (h / NUM_SLOTS_TO_LOCK)).
Proof. intros H. pose proof (Z.div_pos h NUM_SLOTS_TO_LOCK). unfold NUM_SLOTS_TO_LOCK in *. lia. Qed.

Lemma lock_index_before h :
  NUM_SLOTS_TO_LOCK <= h ->
  h / NUM_SLOTS_TO_LOCK - 1 = Z.of_nat (pred (Z.to_nat (h / NUM_SLOTS_TO_LOCK))).
Proof.
  intros H. pose proof (Z.div_le_lower_bound h NUM_SLOTS_TO_LOCK 1).
  unfold NUM_SLOTS_TO_LOCK in *. lia.
Qed.

Lemma unlock_taken ls l : is_Some (ls !! l) -> qf_spin_unlock ls (Z.of_nat l) = Some (<[l := 0]> ls).
Proof. intros H. apply spin_unlock_some. now apply lookup_lt_is_Some_1. Qed.

(** [qf_lock] takes the locks of its plan in order; a failing attempt releases those it
    had taken. *)
Lemma qf_lock_acquire ls h small flag :
  0 <= h -> qf_lock ls h small flag = acquire flag ls [] (lock_plan h small).
Proof.
  intros Hh. unfold qf_lock, lock_plan. cbv zeta. pose proof (lock_index h Hh) as El.
  set (l := Z.to_nat (h / NUM_SLOTS_TO_LOCK)) in *. rewrite El.
  replace (Z.of_nat l + 1) with (Z.of_nat (S l)) by lia.
  destruct small.
  - rewrite spin_lock_acquire. cbn [acquire].
    destruct (ls !! l) as [x|] eqn:Ex; [|reflexivity]. destruct (x =? 0); [|now destruct (waits flag)].
    cbn [negb]. destruct (_ <=? CLUSTER_SIZE); cbn [acquire]; [|reflexivity].
    rewrite spin_lock_acquire. destruct (_ !! S l) as [y|]; [|reflexivity].
    destruct (y =? 0); [reflexivity|]. destruct (waits flag); [reflexivity|]. cbn [negb release].
    rewrite unlock_taken; [reflexivity|].
    rewrite list_lookup_insert_ne, list_lookup_insert_eq by (try lia; eapply lookup_lt_Some; eauto). done.
  - assert (T : forall ls held, is_Some (ls !! l) \/ ls !! l = None ->
      (forall ls', length ls' = length ls -> 
         (if (NUM_SLOTS_TO_LOCK <=? h) && (h mod NUM_SLOTS_TO_LOCK <=? CLUSTER_SIZE)
          then qf_spin_unlock ls' (Z.of_nat l - 1) else Some ls') = Some (release ls' held)) ->
      (let? (ok, ls) := qf_spin_lock ls (Z.of_nat l) flag in
       if negb ok then
         (let? ls := (if (NUM_SLOTS_TO_LOCK <=? h) && (h mod NUM_SLOTS_TO_LOCK <=? CLUSTER_SIZE)
                      then qf_spin_unlock ls (Z.of_nat l - 1) else Some ls) in Some (false, ls)) else
       let? (ok, ls) := qf_spin_lock ls (Z.of_nat (S l)) flag in
       if negb ok then
         (let? ls := qf_spin_unlock ls (Z.of_nat l) in
          let? ls := (if (NUM_SLOTS_TO_LOCK <=? h) && (h mod NUM_SLOTS_TO_LOCK <=? CLUSTER_SIZE)
                      then qf_spin_unlock ls (Z.of_nat l - 1) else Some ls) in Some (false, ls))
       else Some (true, ls)) = acquire flag ls held [l; S l]).
    { clear ls. intros ls held _ Hrel. rewrite spin_lock_acquire. cbn [acquire].
      destruct (ls !! l) as [x|] eqn:Ex; [|reflexivity]. destruct (x =? 0).
      - cbn [negb]. rewrite spin_lock_acquire. destruct (_ !! S l) as [y|]; [|reflexivity].
        destruct (y =? 0); [reflexivity|]. destruct (waits flag); [reflexivity|]. cbn [negb].
        rewrite unlock_taken, Hrel by
          (first [now rewrite !length_insert |
                  rewrite list_lookup_insert_ne, list_lookup_insert_eq by (try lia; eapply lookup_lt_Some; eauto); done]).
        reflexivity.
      - destruct (waits flag); [reflexivity|]. cbn [negb]. rewrite Hrel by now rewrite length_insert.
        reflexivity. }
    destruct ((NUM_SLOTS_TO_LOCK <=? h) && (h mod NUM_SLOTS_TO_LOCK <=? CLUSTER_SIZE)) eqn:B.
    + apply andb_true_iff in B as [B _]. apply Z.leb_le in B. pose proof (lock_index_before h B) as Eb.
      fold l in Eb. rewrite El in Eb. rewrite Eb in *.
      rewrite spin_lock_acquire. cbn [app acquire]. destruct (ls !! pred l) as [x|] eqn:Ex; [|reflexivity].
      destruct (x =? 0); [|now destruct (waits flag)]. cbn [negb].
      apply (T (<[pred l := 1]> ls) [pred l]); [destruct (_ !! l); eauto|].
      intros ls' E. rewrite unlock_taken; [reflexivity|]. apply lookup_lt_is_Some_2.
      rewrite E, length_insert. eapply lookup_lt_Some; eauto.
    + cbn [negb app]. apply T; [destruct (ls !! l); eauto|]. reflexivity.
Qed.

Lemma length_release ls held : length (release ls held) = length ls.
Proof. revert ls; induction held as [|i held IH]; intros ls; simpl; [done|]. now rewrite IH, length_insert. Qed.

Lemma qf_unlock_release ls h small :
  0 <= h -> Forall (fun i => i < length ls)%nat (lock_plan h small) ->
  qf_unlock ls h small = Some (release ls (rev (lock_plan h small))).
Proof.
  intros Hh HF. unfold qf_unlock, lock_plan in *. cbv zeta. pose proof (lock_index h Hh) as El.
  set (l := Z.to_nat (h / NUM_SLOTS_TO_LOCK)) in *. rewrite El.
  replace (Z.of_nat l + 1) with (Z.of_nat (S l)) by lia.
  destruct small.
  - destruct (_ <=? CLUSTER_SIZE); rewrite ?Forall_cons in HF; cbn [rev app release].
    + destruct HF as (H1 & H2 & _).
      now rewrite !spin_unlock_some by (rewrite ?length_insert; lia).
    + now rewrite spin_unlock_some by lia.
  - assert (HF' : (l < length ls /\ S l < length ls)%nat).
    { apply Forall_app in HF as [_ HF]. rewrite !Forall_cons in HF. lia. }
    rewrite !spin_unlock_some by (rewrite ?length_insert; lia).
    destruct ((NUM_SLOTS_TO_LOCK <=? h) && (h mod NUM_SLOTS_TO_LOCK <=? CLUSTER_SIZE)) eqn:B;
      cbn [rev app release]; [|reflexivity].
    apply andb_true_iff in B as [B _]. apply Z.leb_le in B. pose proof (lock_index_before h B) as Eb.
    fold l in Eb. rewrite El in Eb. rewrite Eb.
    rewrite spin_unlock_some by (rewrite ?length_insert; lia). reflexivity.
Qed.

(** A plan is strictly increasing. *)
Lemma lock_plan_sorted h small : 0 <= h -> StronglySorted lt (lock_plan h small).
Proof.
  intros Hh. unfold lock_plan. cbv zeta. set (l := Z.to_nat (h / NUM_SLOTS_TO_LOCK)).
  destruct small.
  - destruct (_ <=? CLUSTER_SIZE); repeat constructor; lia.
  - destruct ((NUM_SLOTS_TO_LOCK <=? h) && (h mod NUM_SLOTS_TO_LOCK <=? CLUSTER_SIZE)) eqn:B; cbn [app].
    + apply andb_true_iff in B as [B _]. apply Z.leb_le in B.
      pose proof (lock_index_before h B) as Eb. rewrite (lock_index h Hh) in Eb. fold l in Eb.
      repeat constructor; lia.
    + repeat constructor; lia.
Qed.

Lemma sorted_lt_NoDup (l : list nat) : StronglySorted lt l -> NoDup l.
Proof.
  induction 1 as [|x l Hs IH HF]; constructor; [|assumption].
  intros Hin. rewrite Forall_forall in HF. specialize (HF x Hin). lia.
Qed.

Definition binary (ls : list Z) : Prop := Forall (fun x => x = 0 \/ x = 1) ls.

Lemma release_notin ls held i : i ∉ held -> release ls held !! i = ls !! i.
Proof.
  revert ls; induction held as [|j held IH]; intros ls H; simpl; [done|].
  apply not_elem_of_cons in H as [H1 H2]. rewrite IH by done. now rewrite list_lookup_insert_ne by done.
Qed.

Lemma release_in ls held i : i ∈ held -> (i < length ls)%nat -> release ls held !! i = Some 0.
Proof.
  revert ls; induction held as [|j held IH]; intros ls H L; simpl; [by apply not_elem_of_nil in H|].
  destruct (decide (i ∈ held)) as [Hi|Hi].
  - apply IH; [done|]. now rewrite length_insert.
  - apply elem_of_cons in H as [->|H]; [|done]. rewrite release_notin by done.
    now apply list_lookup_insert_eq.
Qed.

(** The locks after [acquire] has taken [todo]. *)
Definition taken (ls : list Z) (todo : list nat) : list Z := foldl (fun ls i => <[i := 1]> ls) ls todo.

Lemma taken_notin ls todo i : i ∉ todo -> taken ls todo !! i = ls !! i.
Proof.
  revert ls; induction todo as [|j todo IH]; intros ls H; simpl; [done|].
  apply not_elem_of_cons in H as [H1 H2]. rewrite IH by done. now rewrite list_lookup_insert_ne by done.
Qed.

Lemma length_taken ls todo : length (taken ls todo) = length ls.
Proof. revert ls; induction todo as [|j todo IH]; intros ls; simpl; [done|]. now rewrite IH, length_insert. Qed.

Lemma acquire_spec flag todo : forall ls held,
  binary ls -> NoDup todo ->
  match acquire flag ls held todo with
  | Some (true, ls') => Forall (fun i => ls !! i = Some 0) todo /\ ls' = taken ls todo
  | Some (false, ls') =>
    waits flag = false /\
    exists i before after, todo = before ++ i :: after /\ ls !! i = Some 1
      /\ Forall (fun i => ls !! i = Some 0) before
      /\ ls' = release (taken ls before) (rev before ++ held)
  | None => exists i, i ∈ todo /\ (ls !! i = None \/ ls !! i = Some 1 /\ waits flag = true)
  end.
Proof.
  induction todo as [|i todo IH]; intros ls held Hb Hn; cbn [acquire]; [done|].
  apply NoDup_cons in Hn as [Hi Hn].
  destruct (ls !! i) as [x|] eqn:Ex; [|exists i; split; [left|auto]].
  assert (Hx : x = 0 \/ x = 1) by (eapply Forall_lookup_1 in Hb; eauto).
  destruct (Z.eqb_spec x 0) as [->|Hne].
  - specialize (IH (<[i := 1]> ls) (i :: held)).
    assert (Hb' : binary (<[i := 1]> ls)) by (apply Forall_insert; auto).
    specialize (IH Hb' Hn).
    assert (Hoth : forall j, j ∈ todo -> <[i := 1]> ls !! j = ls !! j).
    { intros j Hj. apply list_lookup_insert_ne. intros ->. done. }
    destruct (acquire flag _ _ _) as [[[] ls']|].
    + destruct IH as [HF ->]. split; [|done]. constructor; [done|].
      rewrite Forall_forall in HF |- *. intros j Hj. rewrite <- Hoth by done. now apply HF.
    + destruct IH as (W & j & before & after & -> & Hj & HF & ->). split; [done|].
      exists j, (i :: before), after. split; [done|].
      split; [rewrite <- Hoth by (apply elem_of_app; right; left); done|]. split.
      * constructor; [done|]. rewrite Forall_forall in HF |- *. intros k Hk.
        rewrite <- Hoth by (apply elem_of_app; by left). now apply HF.
      * cbn [rev]. rewrite <- app_assoc. done.
    + destruct IH as (j & Hj & Hc). exists j. rewrite Hoth in Hc by done. split; [now right|done].
  - destruct Hx as [->| ->]; [done|]. destruct (waits flag) eqn:W.
    + exists i. split; [left|]. auto.
    + split; [done|]. exists i, [], todo. rewrite list_insert_id by done. auto.
Qed.

Lemma taken_in ls todo i : i ∈ todo -> (i < length ls)%nat -> taken ls todo !! i = Some 1.
Proof.
  revert ls; induction todo as [|j todo IH]; intros ls H L; simpl; [by apply not_elem_of_nil in H|].
  destruct (decide (i ∈ todo)) as [Hi|Hi].
  - apply IH; [done|]. now rewrite length_insert.
  - apply elem_of_cons in H as [->|H]; [|done]. rewrite taken_notin by done.
    now apply list_lookup_insert_eq.
Qed.

(** Releasing what was taken from free locks restores the array. *)
Lemma release_taken ls todo :
  Forall (fun i => ls !! i = Some 0) todo -> release (taken ls todo) (rev todo) = ls.
Proof.
  intros HF. apply list_eq. intros i. destruct (decide (i ∈ todo)) as [Hi|Hi].
  - rewrite Forall_forall in HF. specialize (HF i Hi). rewrite HF. apply release_in.
    + apply list_elem_of_In, in_rev. rewrite rev_involutive. now apply list_elem_of_In.
    + rewrite length_taken. eapply lookup_lt_Some; eauto.
  - rewrite release_notin; [now apply taken_notin|].
    intros Hc. apply Hi. apply list_elem_of_In. apply in_rev. now apply list_elem_of_In.
Qed.

(** The locks an operation needs are free, or it was told not to lock. *)
Definition lockable (qf : QF) (h : Z) (small : bool) (flags : Z) : Prop :=
  GET_NO_LOCK flags = QF_NO_LOCK
  \/ binary qf.(runtimedata).(locks) /\ Forall (fun i => qf.(runtimedata).(locks) !! i = Some 0) (lock_plan h small).

Lemma set_locks_same qf ls : ls = locks (runtimedata qf) -> set_locks qf ls = qf.
Proof. intros ->. destruct qf as [[] ? ?]. reflexivity. Qed.

(** An operation that can lock does, changes nothing else, and gives the locks back. *)
Lemma lock_unlock qf h small flags : 0 <= h -> lockable qf h small flags ->
  exists qf1, lock_qf qf h small flags = Some (true, qf1)
    /\ metadata qf1 = metadata qf /\ blocks qf1 = blocks qf
    /\ metadata_lock (runtimedata qf1) = metadata_lock (runtimedata qf)
    /\ (forall qf2, runtimedata qf2 = runtimedata qf1 ->
          unlock_qf qf2 h small flags = Some (mk_QF (runtimedata qf) (metadata qf2) (blocks qf2))).
Proof.
  intros Hh HL. unfold lock_qf, unlock_qf. destruct HL as [->|[Hb HF]].
  - rewrite Z.eqb_refl. exists qf. repeat split; try reflexivity. intros [rt md bl] E. cbn in *. now subst rt.
  - destruct (Z.eqb_spec (GET_NO_LOCK flags) QF_NO_LOCK).
    { exists qf. repeat split; try reflexivity. intros [rt md bl] E. cbn in *. now subst rt. }
    cbn [negb]. rewrite qf_lock_acquire by done.
    pose proof (sorted_lt_NoDup _ (lock_plan_sorted h small Hh)) as Hn.
    pose proof (acquire_spec flags (lock_plan h small) (locks (runtimedata qf)) [] Hb Hn) as A.
    assert (N1 : forall i, i ∈ lock_plan h small -> locks (runtimedata qf) !! i = Some 0)
      by (intros i Hi; rewrite Forall_forall in HF; by apply HF).
    destruct (acquire flags (locks (runtimedata qf)) [] (lock_plan h small)) as [[[] ls']|].
    + destruct A as [HZ ->]. eexists. split; [reflexivity|]. repeat split; try reflexivity.
      intros qf2 E. rewrite E. cbn [set_locks set_runtime runtimedata locks].
      rewrite qf_unlock_release.
      * rewrite release_taken by done. f_equal. unfold set_locks. rewrite E. cbn. by destruct qf as [[] ? ?].
      * done.
      * rewrite length_taken. rewrite Forall_forall. intros i Hi. eapply lookup_lt_Some. by apply N1.
    + destruct A as (_ & i & before & after & E & Hi & _). rewrite N1 in Hi; [done|].
      rewrite E. apply elem_of_app. right; left.
    + destruct A as (i & Hi & [HN|[H1 _]]); rewrite N1 in *; done.
Qed.

Lemma nth_error_locks (l : list Z) i : nth_error l i = l !! i.
Proof. revert i. induction l as [|x l IH]; intros [|i]; cbn; auto. Qed.

(** A lock that is taken makes an operation that does not wait give up. *)
Lemma lock_busy qf h small flags :
  0 <= h -> GET_NO_LOCK flags <> QF_NO_LOCK -> waits flags = false -> binary qf.(runtimedata).(locks) ->
  Forall (fun i => i < length qf.(runtimedata).(locks))%nat (lock_plan h small) ->
  Exists (fun i => qf.(runtimedata).(locks) !! i = Some 1) (lock_plan h small) ->
  lock_qf qf h small flags = Some (false, qf).
Proof.
  intros Hh Hf W Hb HF HE. unfold lock_qf. destruct (Z.eqb_spec (GET_NO_LOCK flags) QF_NO_LOCK); [done|]. cbn [negb].
  rewrite qf_lock_acquire by done.
  pose proof (sorted_lt_NoDup _ (lock_plan_sorted h small Hh)) as Hn.
  pose proof (acquire_spec flags (lock_plan h small) (locks (runtimedata qf)) [] Hb Hn) as A.
  destruct (acquire flags (locks (runtimedata qf)) [] (lock_plan h small)) as [[[] ls']|].
  - destruct A as [HZ _]. apply Exists_exists in HE as (i & Hi & E). rewrite Forall_forall in HZ. rewrite HZ in E by done. done.
  - destruct A as (_ & i & before & after & E & Hi & HZ & ->). f_equal. f_equal. apply set_locks_same.
    rewrite app_nil_r. by apply release_taken.
  - destruct A as (i & Hi & [HN|[_ H1]]); [|congruence].
    rewrite Forall_forall in HF. specialize (HF i Hi). apply lookup_ge_None in HN. lia.
Qed.

(** C36: locking is all or nothing.  [qf_lock] on a lock array of zeroes and ones
    either takes exactly the locks of its plan, which [qf_unlock] gives back, leaving
    the array as it was; or it fails because one is taken, leaves the array as it was,
    and was not asked to wait.  It does not return only if it waits for a taken lock. *)
Theorem qf_lock_all_or_nothing ls h small flag :
  0 <= h -> binary ls -> Forall (fun i => i < length ls)%nat (lock_plan h small) ->
  match qf_lock ls h small flag with
  | Some (true, ls') =>
    Forall (fun i => ls !! i = Some 0 /\ ls' !! i = Some 1) (lock_plan h small)
    /\ (forall i, i ∉ lock_plan h small -> ls' !! i = ls !! i)
    /\ qf_unlock ls' h small = Some ls
  | Some (false, ls') => ls' = ls /\ waits flag = false /\ Exists (fun i => ls !! i = Some 1) (lock_plan h small)
  | None => waits flag = true /\ Exists (fun i => ls !! i = Some 1) (lock_plan h small)
  end.
Proof.
  intros Hh Hb HF. rewrite qf_lock_acquire by done.
  pose proof (sorted_lt_NoDup _ (lock_plan_sorted h small Hh)) as Hn.
  pose proof (acquire_spec flag (lock_plan h small) ls [] Hb Hn) as A.
  destruct (acquire flag ls [] (lock_plan h small)) as [[[] ls']|].
  - destruct A as [HZ ->]. split; [|split].
    + rewrite Forall_forall in HZ, HF |- *. intros i Hi. split; [by apply HZ|].
      apply taken_in; [done|by apply HF].
    + intros i Hi. by apply taken_notin.
    + rewrite qf_unlock_release by (rewrite ?length_taken; done). now rewrite release_taken.
  - destruct A as (W & i & before & after & E & Hi & HZ & ->). split; [|split; [done|]].
    + rewrite app_nil_r. now apply release_taken.
    + apply Exists_exists. exists i. split; [|done]. rewrite E. apply elem_of_app. right; left.
  - destruct A as (i & Hi & [HN|[H1 W]]).
    + rewrite Forall_forall in HF. specialize (HF i Hi). apply lookup_ge_None in HN. lia.
    + split; [done|]. apply Exists_exists. eauto.
Qed.

Lemma qf_lock_all_or_nothing_witness :
  qf_lock [0; 0; 1] 65536 false 2 = Some (false, [0; 0; 1])
  /\ match qf_lock [0; 0; 0] 65536 false 2 with
     | Some (true, ls') =>
       Forall (fun i => [0; 0; 0] !! i = Some 0 /\ ls' !! i = Some 1) (lock_plan 65536 false)
       /\ (forall i, i ∉ lock_plan 65536 false -> ls' !! i = [0; 0; 0] !! i)
       /\ qf_unlock ls' 65536 false = Some [0; 0; 0]
     | Some (false, ls') => ls' = [0; 0; 0] /\ waits 2 = false /\ Exists (fun i => [0; 0; 0] !! i = Some 1) (lock_plan 65536 false)
     | None => waits 2 = true /\ Exists (fun i => [0; 0; 0] !! i = Some 1) (lock_plan 65536 false)
     end.
Proof.
  split; [reflexivity|].
  apply (qf_lock_all_or_nothing [0; 0; 0] 65536 false 2);
    [lia|repeat constructor; lia|vm_compute; repeat constructor].
Defined.

(** ** Threads *)

(** Where a thread stands: taking the locks of its plan, past [qf_lock], or giving
    locks back (in [qf_unlock], or in a failing [qf_lock]). *)
Inductive lpc :=
| Acquiring (held todo : list nat)
| Critical (held : list nat)
| Releasing (held : list nat).

#[export] Instance lpc_eq_dec : EqDecision lpc.
Proof. solve_decision. Defined.

Record lthread := mk_lthread { t_bucket : Z; t_small : bool; t_flag : Z; t_pc : lpc }.

Definition holds (p : lpc) : list nat :=
  match p with Acquiring held _ | Critical held | Releasing held => held end.

(** One instruction of a thread, on the lock array. *)
Inductive tstep (flag : Z) : list Z -> lpc -> list Z -> lpc -> Prop :=
| t_take ls held i todo :
    ls !! i = Some 0 -> tstep flag ls (Acquiring held (i :: todo)) (<[i := 1]> ls) (Acquiring (i :: held) todo)
| t_fail ls held i todo v :
    ls !! i = Some v -> v <> 0 -> waits flag = false ->
    tstep flag ls (Acquiring held (i :: todo)) (<[i := 1]> ls) (Releasing held)
| t_enter ls held : tstep flag ls (Acquiring held []) ls (Critical held)
| t_leave ls held : tstep flag ls (Critical held) ls (Releasing held)
| t_free ls i held : tstep flag ls (Releasing (i :: held)) (<[i := 0]> ls) (Releasing held).

(** A waiting thread finds the lock taken: the test-and-set writes one again. *)
Inductive tspin (flag : Z) : list Z -> lpc -> list Z -> Prop :=
| t_spin ls held i todo v :
    ls !! i = Some v -> v <> 0 -> waits flag = true ->
    tspin flag ls (Acquiring held (i :: todo)) (<[i := 1]> ls).

Definition lconfig : Type := list Z * list lthread.

Inductive lprog : lconfig -> lconfig -> Prop :=
| l_step ls ths k t ls' p :
    ths !! k = Some t -> tstep t.(t_flag) ls t.(t_pc) ls' p ->
    lprog (ls, ths) (ls', <[k := mk_lthread t.(t_bucket) t.(t_small) t.(t_flag) p]> ths).

Inductive lstep : lconfig -> lconfig -> Prop :=
| l_prog c c' : lprog c c' -> lstep c c'
| l_spin ls ths k t ls' :
    ths !! k = Some t -> tspin t.(t_flag) ls t.(t_pc) ls' -> lstep (ls, ths) (ls', ths).

(** [n] free locks and threads about to call [qf_lock]. *)
Definition lstart (n : nat) (reqs : list (Z * bool * Z)) : lconfig :=
  (replicate n 0, (fun '(h, small, flag) => mk_lthread h small flag (Acquiring [] (lock_plan h small))) <$> reqs).

Definition lock_requests_ok (n : nat) (reqs : list (Z * bool * Z)) : Prop :=
  Forall (fun '(h, small, _) => 0 <= h /\ Forall (fun i => i < n)%nat (lock_plan h small)) reqs.

(** ** Invariant *)

Definition hold (i : nat) (t : lthread) : Z := Z.b2z (bool_decide (i ∈ holds t.(t_pc))).

Definition thread_ok (n : nat) (t : lthread) : Prop :=
  0 <= t.(t_bucket) /\ Forall (fun i => i < n)%nat (lock_plan t.(t_bucket) t.(t_small)) /\
  match t.(t_pc) with
  | Acquiring held todo => rev held ++ todo = lock_plan t.(t_bucket) t.(t_small)
  | Critical held => rev held = lock_plan t.(t_bucket) t.(t_small)
  | Releasing held => exists l, rev held ++ l = lock_plan t.(t_bucket) t.(t_small)
  end.

Record locks_inv (n : nat) (c : lconfig) : Prop := {
  li_len : length c.1 = n;
  li_sum i v : c.1 !! i = Some v -> v = sumZ (hold i <$> c.2) /\ v <= 1;
  li_threads : Forall (thread_ok n) c.2;
}.

Lemma hold_nonneg i t : 0 <= hold i t.
Proof. unfold hold. destruct (bool_decide _); simpl; lia. Qed.

Lemma hold_cons i j b s f held p :
  holds p = held -> j ∉ held ->
  forall p', holds p' = j :: held ->
  hold i (mk_lthread b s f p') = if decide (i = j) then 1 else hold i (mk_lthread b s f p).
Proof.
  intros H Hj p' H'. unfold hold. cbn [t_pc]. rewrite H, H'.
  destruct (decide (i = j)) as [->|Hn].
  - rewrite bool_decide_true by left. done.
  - f_equal. apply bool_decide_ext. rewrite elem_of_cons. split; [intros [?|?]; [congruence|done]|auto].
Qed.

Lemma thread_ok_NoDup n t : thread_ok n t -> NoDup (holds t.(t_pc)) /\ Forall (fun i => i < n)%nat (holds t.(t_pc)).
Proof.
  intros (Hb & HF & Hp).
  pose proof (sorted_lt_NoDup _ (lock_plan_sorted _ (t_small t) Hb)) as Hn.
  assert (G : forall l, rev (holds (t_pc t)) ++ l = lock_plan (t_bucket t) (t_small t) ->
    NoDup (holds (t_pc t)) /\ Forall (fun i => i < n)%nat (holds (t_pc t))).
  { intros l E. rewrite <- E in Hn, HF. apply NoDup_app in Hn as (Hn & _ & _).
    apply Forall_app in HF as [HF _]. rewrite <- (rev_involutive (holds _)).
    split; [apply NoDup_ListNoDup; apply NoDup_rev; now apply NoDup_ListNoDup|].
    now apply Forall_rev. }
  destruct (t_pc t) as [held todo|held|held]; cbn [holds] in *; [eauto| |destruct Hp; eauto].
  apply (G []). now rewrite app_nil_r.
Qed.

(** The locks a thread still wants are above those it holds. *)
Lemma wanted_above n t held i todo j :
  thread_ok n t -> t.(t_pc) = Acquiring held (i :: todo) -> j ∈ held -> (j < i)%nat.
Proof.
  intros (Hb & _ & Hp) E Hj. rewrite E in Hp.
  pose proof (lock_plan_sorted _ (t_small t) Hb) as Hs. rewrite <- Hp in Hs.
  refine (StronglySorted_app_1_elem_of lt _ _ j i Hs _ _).
  - apply list_elem_of_In. apply -> in_rev. now apply list_elem_of_In.
  - left.
Qed.

Lemma sum_hold_insert i ths k t t' :
  ths !! k = Some t -> sumZ (hold i <$> <[k := t']> ths) = sumZ (hold i <$> ths) - hold i t + hold i t'.
Proof. apply sumZ_fmap_insert. Qed.

Lemma hold_same i b s f p p' : holds p = holds p' -> hold i (mk_lthread b s f p) = hold i (mk_lthread b s f p').
Proof. unfold hold. cbn [t_pc]. now intros ->. Qed.

(** A write of one lock that goes with the change of what thread [k] holds. *)
Lemma locks_inv_update n ls ths k t i x p :
  locks_inv n (ls, ths) -> ths !! k = Some t -> (i < n)%nat -> x <= 1 ->
  (forall j, hold j (mk_lthread t.(t_bucket) t.(t_small) t.(t_flag) p) - hold j t =
             if decide (j = i) then x - default 0 (ls !! i) else 0) ->
  thread_ok n (mk_lthread t.(t_bucket) t.(t_small) t.(t_flag) p) ->
  locks_inv n (<[i := x]> ls, <[k := mk_lthread t.(t_bucket) t.(t_small) t.(t_flag) p]> ths).
Proof.
  intros [Hl Hs Ht] Hk Hi Hx Hh Hok. cbn [fst snd] in *. split; cbn [fst snd].
  - now rewrite length_insert.
  - intros j v Hv. rewrite (sum_hold_insert _ _ _ _ _ Hk).
    specialize (Hh j). destruct (decide (j = i)) as [->|Hne].
    + rewrite list_lookup_insert_eq in Hv by lia. simplify_eq.
      destruct (lookup_lt_is_Some_2 ls i) as [w Hw]; [lia|]. rewrite Hw in Hh. cbn [default] in Hh.
      destruct (Hs i w Hw) as [E _]. cbn in Hh. lia.
    + rewrite list_lookup_insert_ne in Hv by done. destruct (Hs j v Hv) as [E L]. lia.
  - apply Forall_insert; auto.
Qed.

Lemma locks_inv_keep n ls ths k t p :
  locks_inv n (ls, ths) -> ths !! k = Some t -> holds p = holds t.(t_pc) ->
  thread_ok n (mk_lthread t.(t_bucket) t.(t_small) t.(t_flag) p) ->
  locks_inv n (ls, <[k := mk_lthread t.(t_bucket) t.(t_small) t.(t_flag) p]> ths).
Proof.
  intros [Hl Hs Ht] Hk Hp Hok. cbn [fst snd] in *. split; cbn [fst snd]; [done| |now apply Forall_insert].
  intros j v Hv. rewrite (sum_hold_insert _ _ _ _ _ Hk). destruct (Hs j v Hv) as [E L].
  assert (hold j (mk_lthread (t_bucket t) (t_small t) (t_flag t) p) = hold j t)
    by (unfold hold; cbn [t_pc]; now rewrite Hp).
  lia.
Qed.

Lemma hold_dec i t : hold i t = if decide (i ∈ holds t.(t_pc)) then 1 else 0.
Proof. unfold hold. case_bool_decide; case_decide; done. Qed.

Lemma locks_inv_prog n c c' : locks_inv n c -> lprog c c' -> locks_inv n c'.
Proof.
  intros Hi Hpr. destruct Hpr as [ls ths k t ls' p Hk Hstep]. pose proof (li_threads _ _ Hi) as HF.
  assert (Hok : thread_ok n t) by exact (Forall_lookup_1 _ _ _ _ HF Hk).
  pose proof (thread_ok_NoDup n t Hok) as [Hnd Hlt].
  pose proof Hok as (Hb & Hr & Hp).
  destruct t as [b sm fl pc]. cbn [t_pc t_bucket t_small t_flag] in *.
  inversion Hstep; subst; cbn [holds] in *.
  - (* take *)
    assert (Hin : i ∉ held).
    { intros Hc. pose proof (wanted_above n _ held i todo i Hok eq_refl Hc). lia. }
    assert (Hlt' : (i < n)%nat).
    { rewrite <- Hp in Hr. apply Forall_app in Hr as [_ Hr]. now apply Forall_cons in Hr as [? _]. }
    apply (locks_inv_update n ls ths k (mk_lthread b sm fl (Acquiring held (i :: todo))) i 1); auto; [lia| |].
    + intros j. rewrite !hold_dec. cbn [t_pc holds t_bucket t_small t_flag].
      match goal with H : ls !! i = Some 0 |- _ => rewrite H end. cbn [default].
      repeat case_decide; try lia; set_solver.
    + split; [done|]. split; [done|]. cbn [t_pc rev]. now rewrite <- app_assoc.
  - (* fail *)
    rewrite (list_insert_id ls i 1).
    2: { destruct (li_sum _ _ Hi i v) as [E L]; [done|]. cbn [fst snd] in *.
         assert (0 <= v) by (rewrite E; apply sumZ_nonneg; apply hold_nonneg).
         replace 1 with v by lia. done. }
    apply (locks_inv_keep n ls ths k (mk_lthread b sm fl (Acquiring held (i :: todo)))); auto.
    split; [done|]. split; [done|]. cbn [t_pc]. eauto.
  - apply (locks_inv_keep n ls' ths k (mk_lthread b sm fl (Acquiring held []))); auto.
    split; [done|]. split; [done|]. cbn [t_pc]. now rewrite app_nil_r in Hp.
  - apply (locks_inv_keep n ls' ths k (mk_lthread b sm fl (Critical held))); auto.
    split; [done|]. split; [done|]. cbn [t_pc]. exists []. now rewrite app_nil_r.
  - (* free *)
    apply NoDup_cons in Hnd as [Hni Hnd]. apply Forall_cons in Hlt as [Hlt _].
    assert (Hv : ls !! i = Some 1).
    { destruct (lookup_lt_is_Some_2 ls i) as [v Hv]; [rewrite (li_len _ _ Hi : length ls = n); done|].
      rewrite Hv. f_equal. destruct (li_sum _ _ Hi i v Hv) as [E L]. cbn [fst snd] in *.
      pose proof (sumZ_member (hold i) ths k _ (hold_nonneg i) Hk) as M.
      rewrite hold_dec in M. cbn [t_pc holds] in M. rewrite decide_True in M by left. lia. }
    apply (locks_inv_update n ls ths k (mk_lthread b sm fl (Releasing (i :: held))) i 0); auto; [lia| |].
    + intros j. rewrite !hold_dec, Hv. cbn [t_pc holds t_bucket t_small t_flag default].
      repeat case_decide; try lia; set_solver.
    + split; [done|]. split; [done|]. cbn [t_pc rev t_bucket t_small] in *. destruct Hp as [l Hp].
      exists (i :: l). rewrite <- Hp, <- app_assoc. done.
Qed.

Lemma locks_inv_step n c c' : locks_inv n c -> lstep c c' -> locks_inv n c'.
Proof.
  intros Hi H. destruct H as [c c' H|ls ths k t ls' Hk Hs]; [eapply locks_inv_prog; eauto|].
  destruct Hs as [ls held i todo v Hv Hn _]. destruct (li_sum _ _ Hi i v Hv) as [E L].
  assert (0 <= v) by (rewrite E; apply sumZ_nonneg, hold_nonneg).
  rewrite list_insert_id; [done|]. rewrite Hv. f_equal. lia.
Qed.

Lemma locks_inv_reachable n c c' : locks_inv n c -> rtc lstep c c' -> locks_inv n c'.
Proof. intros Hi Hr. induction Hr; eauto using locks_inv_step. Qed.

Lemma locks_inv_start n reqs : lock_requests_ok n reqs -> locks_inv n (lstart n reqs).
Proof.
  intros Hr. unfold lstart. split; cbn [fst snd].
  - apply length_replicate.
  - intros i v Hv. apply lookup_replicate in Hv as [-> _]. split; [|lia].
    symmetry. apply sumZ_zeros. apply Forall_fmap. apply Forall_forall. intros [[h sm] fl] _. done.
  - apply Forall_fmap. eapply Forall_impl; [exact Hr|]. intros [[h sm] fl] [H1 H2].
    split; [done|]. split; done.
Qed.

(** What a thread past [qf_lock] holds, no other thread holds. *)
Lemma locks_exclusive n c j k t u i :
  locks_inv n c -> j <> k -> c.2 !! j = Some t -> c.2 !! k = Some u ->
  i ∈ holds t.(t_pc) -> i ∈ holds u.(t_pc) -> False.
Proof.
  intros Hi Hjk Ht Hu It Iu.
  pose proof (Forall_lookup_1 _ _ _ _ (li_threads _ _ Hi) Ht) as Hok.
  destruct (thread_ok_NoDup n t Hok) as [_ HF]. rewrite Forall_forall in HF. specialize (HF i It).
  destruct (lookup_lt_is_Some_2 c.1 i) as [v Hv]; [by rewrite (li_len _ _ Hi)|].
  destruct (li_sum _ _ Hi i v Hv) as [E L].
  pose proof (sumZ_two (hold i) c.2 j k t u (hold_nonneg i) Hjk Ht Hu) as S.
  rewrite !hold_dec, !decide_True in S by done. lia.
Qed.

(** What a thread holds is taken. *)
Lemma locks_held_taken n c k t i : locks_inv n c -> c.2 !! k = Some t -> i ∈ holds t.(t_pc) -> c.1 !! i = Some 1.
Proof.
  intros Hi Ht It. pose proof (Forall_lookup_1 _ _ _ _ (li_threads _ _ Hi) Ht) as Hok.
  destruct (thread_ok_NoDup n t Hok) as [_ HF]. rewrite Forall_forall in HF. specialize (HF i It).
  destruct (lookup_lt_is_Some_2 c.1 i) as [v Hv]; [by rewrite (li_len _ _ Hi)|]. rewrite Hv. f_equal.
  destruct (li_sum _ _ Hi i v Hv) as [E L]. pose proof (sumZ_member (hold i) c.2 k _ (hold_nonneg i) Ht) as M.
  rewrite hold_dec, decide_True in M by done. lia.
Qed.

Lemma plan_own h small : Z.to_nat (h / NUM_SLOTS_TO_LOCK) ∈ lock_plan h small.
Proof. unfold lock_plan. cbv zeta. destruct small; [left|]. apply elem_of_app. right. left. Qed.

(** C30: mutual exclusion.  However the instructions of any number of threads interleave, a
    thread that is past [qf_lock] and has not begun [qf_unlock] holds the locks of its
    plan, each of them taken, and no other such thread holds any of these: two such
    threads work on buckets of different regions. *)
Theorem locks_mutual_exclusion n reqs c j k t u ht hu :
  lock_requests_ok n reqs -> rtc lstep (lstart n reqs) c -> j <> k ->
  c.2 !! j = Some t -> c.2 !! k = Some u ->
  t.(t_pc) = Critical ht -> u.(t_pc) = Critical hu ->
  rev ht = lock_plan t.(t_bucket) t.(t_small) /\ rev hu = lock_plan u.(t_bucket) u.(t_small)
  /\ (forall i, i ∈ ht -> c.1 !! i = Some 1 /\ i ∉ hu)
  /\ (forall i, i ∈ lock_plan t.(t_bucket) t.(t_small) -> i ∉ lock_plan u.(t_bucket) u.(t_small))
  /\ t.(t_bucket) / NUM_SLOTS_TO_LOCK <> u.(t_bucket) / NUM_SLOTS_TO_LOCK.
Proof.
  intros Hr Hs Hjk Ht Hu Et Eu.
  pose proof (locks_inv_reachable n _ _ (locks_inv_start n reqs Hr) Hs) as Hi.
  pose proof (Forall_lookup_1 _ _ _ _ (li_threads _ _ Hi) Ht) as (Bt & _ & Pt).
  pose proof (Forall_lookup_1 _ _ _ _ (li_threads _ _ Hi) Hu) as (Bu & _ & Pu).
  rewrite Et in Pt. rewrite Eu in Pu.
  assert (D : forall i, i ∈ ht -> i ∉ hu).
  { intros i It Iu. apply (locks_exclusive n c j k t u i Hi Hjk Ht Hu); [rewrite Et|rewrite Eu]; done. }
  assert (P : forall i, i ∈ lock_plan (t_bucket t) (t_small t) -> i ∉ lock_plan (t_bucket u) (t_small u)).
  { intros i. rewrite <- Pt, <- Pu, !list_elem_of_In, <- !in_rev, <- !list_elem_of_In. apply D. }
  split; [exact Pt|]. split; [exact Pu|]. split; [|split; [exact P|]].
  - intros i It. split; [|exact (D i It)]. apply (locks_held_taken n c j t i Hi Ht). now rewrite Et.
  - intros E. apply (P (Z.to_nat (t_bucket t / NUM_SLOTS_TO_LOCK))); [|rewrite E]; apply plan_own.
Qed.

Lemma locks_mutual_exclusion_witness :
  let c := ([1; 1; 0], [mk_lthread 5 true 4 (Critical [0%nat]); mk_lthread 70000 true 2 (Critical [1%nat])]) in
  rtc lstep (lstart 3 [(5, true, 4); (70000, true, 2)]) c /\
  [0%nat] = lock_plan 5 true /\ [1%nat] = lock_plan 70000 true
  /\ (forall i, i ∈ [0%nat] -> [1; 1; 0] !! i = Some 1 /\ i ∉ [1%nat])
  /\ (forall i, i ∈ lock_plan 5 true -> i ∉ lock_plan 70000 true)
  /\ 5 / NUM_SLOTS_TO_LOCK <> 70000 / NUM_SLOTS_TO_LOCK.
Proof.
  intros c.
  assert (S : rtc lstep (lstart 3 [(5, true, 4); (70000, true, 2)]) c).
  { replace (lstart _ _) with ([0; 0; 0], [mk_lthread 5 true 4 (Acquiring [] [0%nat]);
      mk_lthread 70000 true 2 (Acquiring [] [1%nat])]) by (vm_compute; reflexivity).
    eapply rtc_l; [apply l_prog; eapply (l_step _ _ 0); [reflexivity|apply t_take; reflexivity]|].
    eapply rtc_l; [apply l_prog; eapply (l_step _ _ 1); [reflexivity|apply t_take; reflexivity]|].
    eapply rtc_l; [apply l_prog; eapply (l_step _ _ 0); [reflexivity|apply t_enter]|].
    eapply rtc_l; [apply l_prog; eapply (l_step _ _ 1); [reflexivity|apply t_enter]|].
    apply rtc_refl. }
  split; [exact S|].
  refine (locks_mutual_exclusion 3 [(5, true, 4); (70000, true, 2)] c 0 1
    (mk_lthread 5 true 4 (Critical [0%nat])) (mk_lthread 70000 true 2 (Critical [1%nat])) [0%nat] [1%nat]
    _ S _ eq_refl eq_refl eq_refl eq_refl); [|discriminate].
  repeat constructor; vm_compute; try discriminate; repeat constructor.
Defined.

Definition all_done (c : lconfig) : Prop := Forall (fun t => t.(t_pc) = Releasing []) c.2.

(** A thread that cannot move waits for a lock whose holder can, or waits for a higher
    lock. *)
Lemma locks_progress n c : locks_inv n c ->
  forall m k t, c.2 !! k = Some t -> t.(t_pc) <> Releasing [] ->
  (forall held i todo, t.(t_pc) = Acquiring held (i :: todo) -> (n - i <= m)%nat) ->
  exists c', lprog c c'.
Proof.
  intros Hi. destruct c as [ls ths]. cbn [snd].
  assert (E : forall k t ls' p, ths !! k = Some t -> tstep (t_flag t) ls (t_pc t) ls' p -> exists c', lprog (ls, ths) c').
  { intros k t ls' p Hk Hs. eexists. econstructor; eauto. }
  induction m as [|m IH]; intros k t Hk Hnd Hm;
    pose proof (Forall_lookup_1 _ _ _ _ (li_threads _ _ Hi) Hk) as Hok;
    destruct (t_pc t) as [held [|i todo]|held|[|i held]] eqn:Ep;
    try (eapply (E k t); [done|rewrite Ep; solve [constructor]]); try done.
  - exfalso. destruct Hok as (_ & HF & Hp). rewrite Ep in Hp. rewrite <- Hp in HF.
    apply Forall_app in HF as [_ HF]. apply Forall_cons in HF as [HF _].
    specialize (Hm held i todo eq_refl). lia.
  - assert (Hlt : (i < n)%nat).
    { destruct Hok as (_ & HF & Hp). rewrite Ep in Hp. rewrite <- Hp in HF.
      apply Forall_app in HF as [_ HF]. now apply Forall_cons in HF as [HF _]. }
    specialize (Hm held i todo eq_refl).
    destruct (lookup_lt_is_Some_2 ls i) as [v Hv]; [rewrite (li_len _ _ Hi : length ls = n); done|].
    destruct (Z.eq_dec v 0) as [->|Hv0]; [eapply (E k t); [done|rewrite Ep; constructor; exact Hv]|].
    destruct (waits (t_flag t)) eqn:W; [|eapply (E k t); [done|rewrite Ep; exact (t_fail _ _ _ _ _ v Hv Hv0 W)]].
    destruct (li_sum _ _ Hi i v Hv) as [Ev L]. cbn [fst snd] in *.
    destruct (sumZ_pos (hold i) ths (hold_nonneg i)) as (k' & t' & Hk' & P).
    { pose proof (sumZ_nonneg (hold i) ths (hold_nonneg i)). lia. }
    rewrite hold_dec in P. case_decide as Hin; [|lia].
    apply (IH k' t' Hk').
    + intros Eq. rewrite Eq in Hin. by apply not_elem_of_nil in Hin.
    + intros held' j todo' Ep'. rewrite Ep' in Hin.
      pose proof (wanted_above n t' held' j todo' i (Forall_lookup_1 _ _ _ _ (li_threads _ _ Hi) Hk') Ep' Hin). lia.
Qed.

(** C31: no deadlock.  In every reachable state in which some thread has not finished,
    some thread can execute an instruction other than another round of a spin. *)
Theorem locks_deadlock_free n reqs c :
  lock_requests_ok n reqs -> rtc lstep (lstart n reqs) c -> ~ all_done c -> exists c', lprog c c'.
Proof.
  intros Hr Hs Hnd.
  pose proof (locks_inv_reachable n _ _ (locks_inv_start n reqs Hr) Hs) as Hi.
  destruct (decide (Exists (fun t => t.(t_pc) <> Releasing []) c.2)) as [Hex|Hno].
  - apply Exists_exists in Hex as (t & Ht & Hne). apply list_elem_of_lookup_1 in Ht as [k Hk].
    apply (locks_progress n c Hi n k t Hk Hne). intros; lia.
  - exfalso. apply Hnd. unfold all_done. apply Forall_forall. intros t Ht.
    destruct (decide (t_pc t = Releasing [])) as [E|E]; [done|]. exfalso. apply Hno.
    apply Exists_exists. eauto.
Qed.

Lemma locks_deadlock_free_witness :
  exists c', lprog (lstart 2 [(5, true, 4); (7, true, 4)]) c'.
Proof.
  apply (locks_deadlock_free 2 [(5, true, 4); (7, true, 4)]).
  - repeat constructor; vm_compute; try discriminate; repeat constructor.
  - apply rtc_refl.
  - intros H. apply Forall_inv in H. vm_compute in H. discriminate.
Defined.
