(* ===== verification/CounterCode.v ===== *)
(** * The counter code ([gqf.c], [encode_counter] and [decode_counter])

    The multiplicity of a remainder is stored in its run as a variable-length code of
    slots: [x], [xx], [000], or [x d..d x] with the digits of the count between two
    copies of the remainder, in a base that avoids the remainder and zero as digits.
    The decoder reads slots and run-end bits at increasing indices. *)

From S2P Require Import Prelude BitSeq RankSelect Blocks.
Import ListNotations.
#[local] Open Scope Z_scope.

(** ** Encoding *)

(** [*--p = v] in front of the slots written so far; the [do]-[while] over the digits. *)
Fixpoint encode_digits (fuel : nat) (base remainder counter : Z) (p : list Z) : option (Z * list Z) :=
  match fuel with
  | O => None
  | S fuel =>
    if base =? 0 then None else
    let digit := counter mod base in
    let digit := (digit + 1)%u64 in
    let digit := if negb (remainder =? 0) && (remainder <=? digit) then (digit + 1)%u64 else digit in
    let p := digit :: p in
    let counter := counter / base in
    if negb (counter =? 0) then encode_digits fuel base remainder counter p else Some (digit, p)
  end.

(** The slots from [p] to the end of the buffer; [None] if the loop does not end or
    divides by zero.  Sixty-four rounds are enough for a 64-bit counter. *)
Definition encode_counter (qf : QF) (remainder counter : Z) : option (list Z) :=
  let base := ((1 <<< bps qf) - 1)%u64 in
  let p := [] in
  if counter =? 0 then Some p else
  let p := remainder :: p in
  if counter =? 1 then Some p else
  if counter =? 2 then Some (remainder :: p) else
  if (counter =? 3) && (remainder =? 0) then Some (remainder :: remainder :: p) else
  if (counter =? 3) && (0 <? remainder) then Some (remainder :: 0 :: p) else
  let '(p, base) := if remainder =? 0 then (remainder :: p, base) else (p, (base - 1)%u64) in
  let counter := if negb (remainder =? 0) then (counter - 3)%u64 else (counter - 4)%u64 in
  let? (digit, p) := encode_digits 64 base remainder counter p in
  let p := if negb (remainder =? 0) && (remainder <=? digit) then 0 :: p else p in
  Some (remainder :: p).

(** ** Decoding *)

Section Decode.
(** The slots and run-end bits that are read. *)
Context (slot : Z -> Z) (runend : Z -> bool) (nbits : Z).

Fixpoint decode_digits (fuel : nat) (base rem cnt digit pos : Z) : option (Z * Z * Z) :=
  if negb (digit =? rem) && negb (runend pos) then
    match fuel with
    | O => None
    | S fuel =>
      let digit := if rem <? digit then (digit - 1)%u64 else digit in
      let digit := if negb (digit =? 0) && negb (rem =? 0) then (digit - 1)%u64 else digit in
      let cnt := (cnt * base + digit)%u64 in
      let pos := (pos + 1)%u64 in
      decode_digits fuel base rem cnt (slot pos) pos
    end
  else Some (cnt, digit, pos).

(** [(end, remainder, count)] *)
Definition decode_at (fuel : nat) (index : Z) : option (Z * Z * Z) :=
  let rem := slot index in
  if runend index then Some (index, rem, 1) else
  let digit := slot (index + 1)%u64 in
  if runend (index + 1)%u64 then
    Some ((index + (if digit =? rem then 1 else 0))%u64, rem, if digit =? rem then 2 else 1) else
  if (0 <? rem) && (rem <=? digit) then
    Some ((index + (if digit =? rem then 1 else 0))%u64, rem, if digit =? rem then 2 else 1) else
  if (0 <? rem) && (digit =? 0) && (slot (index + 2)%u64 =? rem) then Some ((index + 2)%u64, rem, 3) else
  if (rem =? 0) && (digit =? 0) then
    if slot (index + 2)%u64 =? 0 then Some ((index + 2)%u64, rem, 3) else Some ((index + 1)%u64, rem, 2)
  else
  let base := ((1 <<< nbits) - (if negb (rem =? 0) then 2 else 1))%u64 in
  let? (cnt, digit, pos) := decode_digits fuel base rem 0 digit (index + 1)%u64 in
  if negb (rem =? 0) then Some (pos, rem, (cnt + 3)%u64) else
  if runend pos || negb (slot (pos + 1)%u64 =? 0) then Some (index, rem, 1)
  else Some ((pos + 1)%u64, rem, (cnt + 4)%u64).
End Decode.

Definition decode_counter (qf : QF) (index : Z) : option (Z * Z * Z) :=
  decode_at (get_slot qf) (is_runend qf) (bps qf) (scan_fuel qf) index.

(** ** Digits *)

(** The digit that stands for [x], and the value of a digit. *)
Definition digit_of (r x : Z) : Z := if negb (r =? 0) && (r <=? x + 1) then x + 2 else x + 1.

Definition digit_value (r d : Z) : Z :=
  let d := if r <? d then d - 1 else d in
  if negb (d =? 0) && negb (r =? 0) then d - 1 else d.

Lemma digit_of_value r x : 0 <= r -> 0 <= x -> digit_value r (digit_of r x) = x.
Proof.
  intros Hr Hx. unfold digit_value, digit_of.
  destruct (Z.eqb_spec r 0), (Z.leb_spec r (x + 1)); cbn [negb andb]; try (exfalso; lia);
  split_cmps; try (exfalso; lia); lia.
Qed.

Lemma digit_of_ne r x : 0 <= r -> 0 <= x -> digit_of r x <> 0 /\ digit_of r x <> r.
Proof. intros Hr Hx. unfold digit_of. destruct (Z.eqb_spec r 0), (Z.leb_spec r (x + 1)); cbn [negb andb]; lia. Qed.

Lemma digit_of_bound r x : 0 <= x -> x + 1 <= digit_of r x <= x + 2.
Proof. intros Hx. unfold digit_of. destruct (Z.eqb_spec r 0), (Z.leb_spec r (x + 1)); cbn [negb andb]; lia. Qed.

(** The number base [b] of a list of digits, the most significant first. *)
Definition digits_value (b r : Z) (ds : list Z) (c : Z) : Z :=
  fold_left (fun c d => c * b + digit_value r d) ds c.

Lemma digits_value_app b r ds ds' c :
  digits_value b r (ds ++ ds') c = digits_value b r ds' (digits_value b r ds c).
Proof. apply fold_left_app. Qed.

(** A digit of the code base [b]. *)
Definition is_digit (b r d : Z) : Prop := exists x, 0 <= x < b /\ d = digit_of r x.

Lemma is_digit_facts b r d : 0 <= r -> is_digit b r d ->
  0 < d <= b + 1 /\ d <> r /\ 0 <= digit_value r d < b /\ digit_of r (digit_value r d) = d.
Proof.
  intros Hr (x & Hx & ->). pose proof (digit_of_ne r x Hr ltac:(lia)).
  pose proof (digit_of_bound r x ltac:(lia)). rewrite digit_of_value by lia. repeat split; lia || tauto.
Qed.

(** What the encoder's loop produces: the base-[b] digits of the counter, without
    leading zeroes. *)
Lemma encode_digits_spec fuel : forall b r c p,
  2 <= b -> b + 1 < 2 ^ 64 -> fits 64 r -> 0 <= c < 2 ^ Z.of_nat fuel -> (0 < fuel)%nat ->
  exists ds, encode_digits fuel b r c p = Some (hd 0 ds, ds ++ p)
    /\ ds <> [] /\ (length ds <= fuel)%nat /\ Forall (is_digit b r) ds
    /\ digits_value b r ds 0 = c
    /\ (0 < c -> 0 < digit_value r (hd 0 ds)) /\ ((1 < length ds)%nat -> 0 < c).
Proof.
  induction fuel as [|fuel IH]; intros b r c p Hb Hb2 Hr Hc Hf; [lia|].
  cbn [encode_digits]. cbv zeta. destruct (Z.eqb_spec b 0); [lia|].
  pose proof (Z.mod_pos_bound c b). pose proof (Z.div_mod c b). pose proof (Z.div_pos c b).
  unfold fits in Hr.
  assert (D : (if negb (r =? 0) && (r <=? (c mod b + 1)%u64) then ((c mod b + 1) + 1)%u64 else (c mod b + 1)%u64)
              = digit_of r (c mod b)).
  { unfold add64, digit_of. rewrite (u64_small (c mod b + 1)) by (unfold fits; lia).
    destruct (negb (r =? 0) && _); [|reflexivity]. rewrite u64_small by (unfold fits; lia). lia. }
  rewrite D. set (d := digit_of r (c mod b)) in *.
  assert (Dd : is_digit b r d) by (exists (c mod b); split; [lia|reflexivity]).
  assert (Vd : digit_value r d = c mod b) by (apply digit_of_value; lia).
  destruct (Z.eqb_spec (c / b) 0) as [E|E]; cbn [negb].
  - exists [d]. cbn [hd app length]. split; [reflexivity|]. split; [discriminate|].
    split; [lia|]. split; [auto|]. split; [unfold digits_value; cbn [fold_left]; lia|].
    rewrite Vd. split; [nia|lia].
  - assert (Hc' : 0 <= c / b < 2 ^ Z.of_nat fuel).
    { split; [lia|]. apply Z.div_lt_upper_bound; [lia|].
      rewrite Nat2Z.inj_succ, Z.pow_succ_r in Hc by lia. nia. }
    assert (0 < fuel)%nat.
    { destruct fuel; [|lia]. cbn in Hc'. lia. }
    destruct (IH b r (c / b) (d :: p)) as (ds & E1 & N & Ln & F & V & P & _); auto.
    exists (ds ++ [d]). rewrite E1. split.
    { destruct ds as [|d0 ds]; [congruence|]. cbn [hd app]. now rewrite <- app_assoc. }
    split; [destruct ds; discriminate|]. split; [rewrite length_app; cbn [length]; lia|].
    split; [apply Forall_app; auto|]. split.
    + rewrite digits_value_app, V. unfold digits_value. cbn [fold_left]. lia.
    + split; [|lia]. intros _. destruct ds as [|d0 ds]; [congruence|]. cbn [hd app] in *. apply P. lia.
Qed.

(** ** The code words *)

(** [code w r c l]: the slots [l] stand for [c] copies of remainder [r] in a filter
    with [w]-bit slots. *)
Inductive code (w r : Z) : Z -> list Z -> Prop :=
| code_1 : code w r 1 [r]
| code_2 : code w r 2 [r; r]
| code_zero3 : r = 0 -> code w r 3 [0; 0; 0]
| code_3 : 0 < r -> code w r 3 [r; 0; r]
| code_n c d ds :
    0 < r -> d < r -> Forall (is_digit (2 ^ w - 2) r) (d :: ds) ->
    digits_value (2 ^ w - 2) r (d :: ds) 0 = c - 3 -> 3 < c -> 0 < digit_value r d ->
    code w r c (r :: (d :: ds) ++ [r])
| code_n0 c d ds :
    0 < r -> r < d -> Forall (is_digit (2 ^ w - 2) r) (d :: ds) ->
    digits_value (2 ^ w - 2) r (d :: ds) 0 = c - 3 -> 3 < c -> 0 < digit_value r d ->
    code w r c (r :: (0 :: d :: ds) ++ [r])
| code_zero c d ds :
    r = 0 -> Forall (is_digit (2 ^ w - 1) 0) (d :: ds) ->
    digits_value (2 ^ w - 1) 0 (d :: ds) 0 = c - 4 -> 3 < c ->
    (ds <> [] -> 0 < digit_value 0 d) ->
    code w r c (0 :: (d :: ds) ++ [0; 0]).

Lemma width_facts w : 2 <= w <= 56 -> 4 <= 2 ^ w <= 2 ^ 56.
Proof.
  intros H. split; [change 4 with (2 ^ 2)|]; apply Z.pow_le_mono_r; lia.
Qed.

Lemma shl_one w : 2 <= w <= 56 -> shl64 1 w = 2 ^ w.
Proof.
  intros H. pose proof (width_facts w H). unfold shl64. rewrite Z.shiftl_1_l, u64_small; [reflexivity|].
  unfold fits. change (2 ^ 64) with (2 ^ 8 * 2 ^ 56). lia.
Qed.

(** The encoder always returns, with a code word of at most 67 slots. *)
Lemma encode_counter_code qf r c :
  2 <= bps qf <= 56 -> fits (bps qf) r -> 1 <= c < 2 ^ 64 ->
  exists l, encode_counter qf r c = Some l /\ code (bps qf) r c l /\ (length l <= 67)%nat.
Proof.
  intros Hw Hr Hc. unfold encode_counter. cbv zeta. pose proof (width_facts _ Hw) as Hp.
  rewrite shl_one by exact Hw. unfold fits in Hr.
  assert (P56 : 2 ^ 56 < 2 ^ 64 - 10) by reflexivity.
  replace (sub64 (2 ^ bps qf) 1) with (2 ^ bps qf - 1)
    by (unfold sub64; rewrite u64_small by (unfold fits; lia); lia).
  destruct (Z.eqb_spec c 0); [lia|].
  destruct (Z.eqb_spec c 1) as [->|]; [eexists; split; [reflexivity|split; [constructor|cbn; lia]]|].
  destruct (Z.eqb_spec c 2) as [->|]; [eexists; split; [reflexivity|split; [constructor|cbn; lia]]|].
  destruct (Z.eqb_spec r 0) as [->|Hr0]; cbn [negb andb].
  - destruct (Z.eqb_spec c 3) as [->|]; [eexists; split; [reflexivity|split; [now constructor|cbn; lia]]|].
    cbn [andb]. replace (sub64 c 4) with (c - 4) by (unfold sub64; rewrite u64_small by (unfold fits; lia); lia).
    destruct (encode_digits_spec 64 (2 ^ bps qf - 1) 0 (c - 4) [0; 0]) as (ds & E & N & Ln & F & V & P & P1);
      try (unfold fits; lia).
    rewrite E. destruct ds as [|d ds]; [congruence|]. cbn [hd] in *.
    eexists. split; [reflexivity|]. split.
    + apply code_zero; auto; try lia. intros Nd. apply P, P1. destruct ds; [congruence|cbn; lia].
    + cbn [length app] in *. rewrite length_app. cbn [length]. lia.
  - destruct (Z.eqb_spec c 3) as [->|]; cbn [andb].
    { destruct (Z.ltb_spec 0 r); [|lia].
      eexists; split; [reflexivity|split; [constructor; lia|cbn; lia]]. }
    replace (sub64 c 3) with (c - 3) by (unfold sub64; rewrite u64_small by (unfold fits; lia); lia).
    replace (sub64 (2 ^ bps qf - 1) 1) with (2 ^ bps qf - 2)
      by (unfold sub64; rewrite u64_small by (unfold fits; lia); lia).
    destruct (encode_digits_spec 64 (2 ^ bps qf - 2) r (c - 3) [r]) as (ds & E & N & Ln & F & V & P & P1);
      try (unfold fits; lia).
    rewrite E. destruct ds as [|d ds]; [congruence|]. cbn [hd] in *.
    pose proof (Forall_inv F) as Fd. destruct (is_digit_facts _ r d ltac:(lia) Fd) as (D1 & D2 & _).
    eexists. split; [reflexivity|]. split.
    + destruct (Z.leb_spec r d).
      * change (r :: 0 :: (d :: ds) ++ [r]) with (r :: (0 :: d :: ds) ++ [r]).
        apply code_n0; auto; lia.
      * apply code_n; auto; lia.
    + destruct (r <=? d); cbn [length app] in *; rewrite length_app; cbn [length]; lia.
Qed.

(** ** Decoding a run *)

(** Positions [i, i + length l) hold the run [l]; the last one is the run end. *)
Record run_at (slot : Z -> Z) (runend : Z -> bool) (i : Z) (l : list Z) : Prop := {
  ra_slot j : (j < length l)%nat -> slot (i + Z.of_nat j) = nth j l 0;
  ra_end j : (j < length l)%nat -> runend (i + Z.of_nat j) = (S j =? length l)%nat;
  ra_index : 0 <= i /\ i + Z.of_nat (length l) < 2 ^ 63;
  ra_fits : Forall (fits 64) l;
}.

(** No two adjacent zero slots: what holds of the counters of nonzero remainders. *)
Definition no_zero_pair (l : list Z) : Prop :=
  forall j, (S j < length l)%nat -> nth j l 0 = 0 -> nth (S j) l 0 <> 0.

Lemma run_at_tail slot runend i x l :
  l <> [] -> run_at slot runend i (x :: l) -> run_at slot runend (i + 1) l.
Proof.
  intros N [H1 H2 H3 H4]. cbn [length] in *. split.
  - intros j Hj. specialize (H1 (S j) ltac:(lia)). cbn [nth] in H1. rewrite <- H1. f_equal. lia.
  - intros j Hj. specialize (H2 (S j) ltac:(lia)).
    replace (i + 1 + Z.of_nat j) with (i + Z.of_nat (S j)) by lia. rewrite H2. reflexivity.
  - lia.
  - now inversion H4.
Qed.

Lemma run_at_app slot runend i l l' :
  l' <> [] -> run_at slot runend i (l ++ l') -> run_at slot runend (i + Z.of_nat (length l)) l'.
Proof.
  intros N. revert i. induction l as [|x l IH]; intros i H.
  - cbn [app length] in *. now replace (i + Z.of_nat 0) with i by lia.
  - apply run_at_tail in H; [|destruct l; cbn; auto; discriminate].
    apply IH in H. cbn [length]. now replace (i + Z.of_nat (S (length l))) with (i + 1 + Z.of_nat (length l)) by lia.
Qed.

Section Decoding.
Context (slot : Z -> Z) (runend : Z -> bool).

Lemma run_at_head i x l : run_at slot runend i (x :: l) ->
  slot i = x /\ runend i = match l with [] => true | _ => false end /\ fits 64 x /\ 0 <= i < 2 ^ 63 - 1.
Proof.
  intros [H1 H2 H3 H4]. cbn [length] in *.
  specialize (H1 O ltac:(lia)). specialize (H2 O ltac:(lia)). rewrite Z.add_0_r in *.
  split; [exact H1|]. split; [rewrite H2; destruct l; reflexivity|].
  split; [now inversion H4|lia].
Qed.

Lemma succ64 i : 0 <= i < 2 ^ 63 -> (i + 1)%u64 = (i + 1)%Z.
Proof. intros H. unfold add64. apply u64_small. unfold fits. lia. Qed.

Lemma digit_value64 r d :
  0 <= r -> fits 64 d ->
  (let x := if r <? d then (d - 1)%u64 else d in
   if negb (x =? 0) && negb (r =? 0) then (x - 1)%u64 else x) = digit_value r d.
Proof.
  intros Hr Hd. unfold digit_value, sub64, fits in *. cbv zeta.
  destruct (Z.ltb_spec r d).
  - rewrite (u64_small (d - 1)) by (unfold fits; lia).
    destruct (Z.eqb_spec (d - 1) 0), (Z.eqb_spec r 0); cbn [negb andb]; try reflexivity.
    apply u64_small. unfold fits. lia.
  - destruct (Z.eqb_spec d 0), (Z.eqb_spec r 0); cbn [negb andb]; try reflexivity.
    apply u64_small. unfold fits. lia.
Qed.

Definition values64 (b r : Z) (ds : list Z) (c : Z) : Z :=
  fold_left (fun c d => (c * b + digit_value r d)%u64) ds c.

Lemma values64_exact b r ds : forall c,
  0 <= r -> 1 <= b -> 0 <= c -> Forall (fun d => 0 <= digit_value r d) ds ->
  digits_value b r ds c < 2 ^ 64 -> values64 b r ds c = digits_value b r ds c.
Proof.
  assert (M : forall ds c, 1 <= b -> 0 <= c -> Forall (fun d => 0 <= digit_value r d) ds ->
    c <= digits_value b r ds c).
  { clear. induction ds as [|d ds IH]; intros c Hb Hc HF; [cbn; lia|]. inversion_clear HF.
    specialize (IH (c * b + digit_value r d) Hb). unfold digits_value in *. cbn [fold_left].
    assert (0 <= c * b) by nia. specialize (IH ltac:(lia) ltac:(assumption)). nia. }
  induction ds as [|d ds IH]; intros c Hr Hb Hc HF Hl; [reflexivity|]. inversion_clear HF.
  unfold digits_value, values64 in *. cbn [fold_left] in *.
  assert (0 <= c * b) by nia.
  pose proof (M ds (c * b + digit_value r d) Hb ltac:(lia) ltac:(assumption)) as M'.
  unfold digits_value in M'.
  assert (E : (c * b + digit_value r d)%u64 = c * b + digit_value r d).
  { unfold add64, mul64. rewrite (u64_small (c * b)) by (unfold fits; lia).
    apply u64_small. unfold fits. lia. }
  rewrite E. apply IH; auto; lia.
Qed.

(** The decoder's loop stops at the first slot that equals the remainder or is the
    run end. *)
Lemma decode_digits_run b r ds : forall fuel i x rest c,
  0 <= r -> run_at slot runend i (ds ++ x :: rest) -> Forall (fun d => d <> r) ds ->
  (x = r \/ rest = []) -> (length ds <= fuel)%nat ->
  decode_digits slot runend fuel b r c (slot i) i
  = Some (values64 b r ds c, x, i + Z.of_nat (length ds)).
Proof.
  induction ds as [|d ds IH]; intros fuel i x rest c Hr H HF Hx Hf.
  - cbn [app length] in *. destruct (run_at_head _ _ _ H) as (E1 & E2 & _). rewrite E1.
    replace (i + Z.of_nat 0) with i by lia.
    destruct fuel; cbn [decode_digits]; rewrite E2; (destruct Hx as [->| ->];
      [rewrite Z.eqb_refl; reflexivity|rewrite andb_false_r; reflexivity]).
  - cbn [app length] in *. inversion_clear HF. destruct fuel as [|fuel]; [lia|].
    destruct (run_at_head _ _ _ H) as (E1 & E2 & Fd & Hi). rewrite E1. cbn [decode_digits].
    rewrite E2. destruct (Z.eqb_spec d r); [congruence|].
    destruct (ds ++ x :: rest) as [|y t] eqn:E; [destruct ds; discriminate|]. rewrite <- E in *. cbn [negb andb].
    pose proof (digit_value64 r d Hr Fd) as Ed. cbv zeta in Ed |- *. rewrite Ed, succ64 by lia.
    rewrite (IH fuel (i + 1) x rest); auto; [|apply (run_at_tail _ _ _ d); [rewrite E; discriminate|exact H]|lia].
    f_equal. f_equal. lia.
Qed.
End Decoding.

(** Up to the first element equal to [r], or the last one. *)
Lemma split_at_first r (l : list Z) : l <> [] ->
  exists ds x rest, l = ds ++ x :: rest /\ Forall (fun d => d <> r) ds /\ (x = r \/ rest = []).
Proof.
  induction l as [|y l IH]; [congruence|]. intros _.
  destruct (Z.eq_dec y r) as [->|N]; [exists [], r, l; repeat split; auto|].
  destruct l as [|z l]; [exists [], y, []; repeat split; auto|].
  destruct IH as (ds & x & rest & E & F & S); [discriminate|].
  exists (y :: ds), x, rest. rewrite E. repeat split; auto.
Qed.

Lemma no_zero_pair_app ds z l : no_zero_pair (ds ++ 0 :: z :: l) -> z <> 0.
Proof.
  intros H. specialize (H (length ds)). rewrite length_app in H. cbn [length] in H.
  rewrite !app_nth2 in H by lia. rewrite Nat.sub_diag in H.
  replace (S (length ds) - length ds)%nat with 1%nat in H by lia. cbn [nth] in H. apply H; [lia|reflexivity].
Qed.

Section DecodeCode.
Context (slot : Z -> Z) (runend : Z -> bool) (w : Z).
Hypothesis Hw : 2 <= w <= 56.

(** Reads the slot and the run-end bit at the start of the run, and moves on. *)
#[local] Ltac peel H E R I :=
  let F := fresh in
  destruct (run_at_head _ _ _ _ _ H) as (E & R & F & I); clear F; cbn [app] in R;
  try (apply run_at_tail in H; [|discriminate]).

Lemma base64 k : 0 <= k <= 2 -> ((1 <<< w) - k)%u64 = 2 ^ w - k.
Proof.
  intros Hk. pose proof (width_facts w Hw). rewrite shl_one by exact Hw. unfold sub64.
  apply u64_small. unfold fits. change (2 ^ 64) with (2 ^ 8 * 2 ^ 56). lia.
Qed.

Lemma base_eq r : ((1 <<< w) - (if negb (r =? 0) then 2 else 1))%u64 = 2 ^ w - (if negb (r =? 0) then 2 else 1).
Proof. destruct (r =? 0); cbn [negb]; apply base64; lia. Qed.

Lemma decode_digits_last b r ds fuel i rest c v :
  0 <= r -> 1 <= b -> run_at slot runend i (ds ++ r :: rest) -> Forall (is_digit b r) ds ->
  digits_value b r ds 0 = v -> v < 2 ^ 64 -> (length ds <= fuel)%nat -> c = 0 ->
  decode_digits slot runend fuel b r c (slot i) i = Some (v, r, i + Z.of_nat (length ds)).
Proof.
  intros Hr Hb H HF Hv Hl Hf ->.
  rewrite (decode_digits_run slot runend b r ds fuel i r rest); auto.
  - rewrite values64_exact, Hv; auto; try lia.
    eapply Forall_impl; [|exact HF]. intros d Hd. apply (is_digit_facts b r d Hr Hd).
  - eapply Forall_impl; [|exact HF]. intros d Hd. apply (is_digit_facts b r d Hr Hd).
Qed.

(** Decoding at the start of a counter gives its end, its remainder and its count,
    whatever follows in the run. *)
Lemma decode_code r c l rest fuel i :
  fits w r -> 1 <= c < 2 ^ 64 -> code w r c l -> run_at slot runend i (l ++ rest) ->
  (rest = [] \/ exists y t, rest = y :: t /\ r < y) -> (r = 0 -> no_zero_pair rest) ->
  (length (l ++ rest) <= fuel)%nat ->
  decode_at slot runend w fuel i = Some (i + Z.of_nat (length l) - 1, r, c).
Proof.
  intros Hr Hc Hcode H Hrest Hz Hf. unfold decode_at.
  assert (Hr0 : 0 <= r) by apply Hr.
  assert (T2 : forall i, 0 <= i < 2 ^ 63 - 1 -> (i + 2)%u64 = (i + 2)%Z)
    by (intros j Hj; unfold add64; apply u64_small; unfold fits; lia).
  pose proof (width_facts w Hw) as Wf.
  destruct Hcode as [ | | -> | Hp|c d ds Hp Hd HF V C3 Hv|c d ds Hp Hd HF V C3 Hv|c d ds E0 HF V C3 Hv]; try subst r;
    cbn [app] in H.
  - (* one *)
    destruct Hrest as [->|(y & t & -> & Hy)].
    + peel H E0 R0 I0. rewrite R0, E0. cbn [length]. f_equal. f_equal. f_equal. lia.
    + peel H E0 R0 I0. rewrite R0, E0. cbv zeta. rewrite succ64 by lia.
      destruct (run_at_head _ _ _ _ _ H) as (E1 & R1 & _ & I1). rewrite R1, E1.
      destruct (Z.eqb_spec y r) as [E|_]; [lia|].
      assert (Ei : (i + 0)%u64 = i + Z.of_nat (length [r]) - 1)
        by (unfold add64; rewrite u64_small by (unfold fits; lia); cbn; lia).
      destruct t as [|z t]; [rewrite Ei; reflexivity|].
      destruct (Z.leb_spec r y); [|lia].
      destruct (Z.ltb_spec 0 r); cbn [andb]; [rewrite Ei; reflexivity|].
      assert (r = 0) by lia. clear E0. subst r. destruct (Z.eqb_spec y 0); [lia|]. cbn [andb Z.eqb negb].
      destruct (split_at_first 0 (y :: z :: t)) as (ds & x & rest' & E & F & S); [discriminate|].
      rewrite E in H. rewrite <- E1.
      rewrite (decode_digits_run slot runend _ 0 ds fuel (i + 1) x rest');
        [|lia|exact H|exact F|exact S|].
      2: { apply (f_equal (@length Z)) in E. rewrite length_app in E. cbn [length app] in *. lia. }
      apply run_at_app in H; [|discriminate].
      destruct rest' as [|x' rest'].
      * peel H E2 R2 I2. rewrite R2. cbn [orb length]. f_equal. f_equal. f_equal. lia.
      * destruct S as [->|S]; [|discriminate]. peel H E2 R2 I2. peel H E3 R3 I3.
        rewrite succ64, E3 by lia.
        assert (x' <> 0) by (specialize (Hz eq_refl); rewrite E in Hz; now apply no_zero_pair_app in Hz).
        destruct (Z.eqb_spec x' 0); [lia|]. cbn [negb]. rewrite orb_true_r.
        cbn [length]. f_equal. f_equal. f_equal. lia.
  - (* two *)
    peel H E0 R0 I0. rewrite R0, E0. cbv zeta. rewrite succ64 by lia.
    destruct (run_at_head _ _ _ _ _ H) as (E1 & R1 & _ & I1). rewrite R1, E1, Z.eqb_refl.
    replace (i + 1)%u64 with (i + Z.of_nat (length [r; r]) - 1) by (rewrite succ64 by lia; cbn; lia).
    destruct Hrest as [->|(y & t & -> & Hy)]; [reflexivity|]. rewrite Z.leb_refl, andb_true_r.
    destruct (Z.ltb_spec 0 r); cbn [andb]; [reflexivity|]. assert (r = 0) by lia. clear E0 E1. subst r.
    apply run_at_tail in H; [|discriminate]. peel H E2 R2 I2. cbn [Z.eqb andb]. rewrite T2 by lia.
    replace (i + 2) with (i + 1 + 1) by lia. rewrite E2. destruct (Z.eqb_spec y 0); [lia|].
    cbn [length]. f_equal. f_equal. f_equal. lia.
  - (* three zeroes *)
    peel H E0 R0 I0. rewrite R0, E0. cbv zeta. rewrite succ64 by lia.
    peel H E1 R1 I1. rewrite R1, E1. cbn [Z.ltb Z.compare andb Z.eqb].
    destruct (run_at_head _ _ _ _ _ H) as (E2 & _). rewrite T2 by lia.
    replace (i + 2) with (i + 1 + 1) by lia. rewrite E2. cbn [Z.eqb length]. f_equal. f_equal. f_equal. lia.
  - (* three *)
    peel H E0 R0 I0. rewrite R0, E0. cbv zeta. rewrite succ64 by lia.
    peel H E1 R1 I1. rewrite R1, E1.
    destruct (run_at_head _ _ _ _ _ H) as (E2 & _). rewrite T2 by lia.
    replace (i + 2) with (i + 1 + 1) by lia. rewrite E2, Z.eqb_refl.
    destruct (Z.ltb_spec 0 r), (Z.leb_spec r 0); try lia. cbn [Z.eqb andb length].
    rewrite Z.eqb_refl. f_equal. f_equal. f_equal. lia.
  - (* the digits, below the remainder *)
    pose proof (Forall_inv HF) as Fd. apply is_digit_facts in Fd as (D1 & D2 & D3 & _); [|lia].
    peel H E0 R0 I0. rewrite R0, E0. cbv zeta. rewrite succ64 by lia.
    destruct (run_at_head _ _ _ _ _ H) as (E1 & R1 & _).
    destruct ((ds ++ [r]) ++ rest) as [|z t] eqn:Ez; [destruct ds; discriminate|]. rewrite <- Ez in *.
    rewrite R1, E1.
    destruct (Z.ltb_spec 0 r), (Z.leb_spec r d), (Z.eqb_spec d 0), (Z.eqb_spec r 0); try lia.
    cbn [andb negb]. rewrite <- E1, base64 by lia.
    rewrite <- app_assoc in H.
    rewrite (decode_digits_last (2 ^ w - 2) r (d :: ds) fuel (i + 1) rest 0 (c - 3)); auto; try lia.
    2: { cbn [app length] in Hf |- *. rewrite !length_app in Hf. cbn [length] in Hf. lia. }
    unfold add64. rewrite u64_small by (unfold fits; lia). cbn [length app]. rewrite length_app. cbn [length].
    f_equal. f_equal; [f_equal|]; lia.
  - (* the digits behind a zero *)
    pose proof (Forall_inv HF) as Fd. apply is_digit_facts in Fd as (D1 & D2 & D3 & _); [|lia].
    peel H E0 R0 I0. rewrite R0, E0. cbv zeta. rewrite succ64 by lia.
    destruct (run_at_head _ _ _ _ _ H) as (E1 & R1 & _ & I1). cbn [app] in R1. rewrite R1, E1.
    pose proof H as H1. apply run_at_tail in H1; [|discriminate]. peel H1 E2 R2 I2. rewrite T2 by lia.
    replace (i + 2) with (i + 1 + 1) by lia. rewrite E2.
    destruct (Z.ltb_spec 0 r), (Z.leb_spec r 0), (Z.eqb_spec d r), (Z.eqb_spec r 0); try lia.
    cbn [andb negb Z.eqb]. rewrite <- E1, base64 by lia.
    change (0 :: (d :: (ds ++ [r]) ++ rest)) with (((0 :: d :: ds) ++ [r]) ++ rest) in H.
    rewrite <- app_assoc in H. cbn [app length] in Hf. rewrite !length_app in Hf. cbn [length] in Hf.
    rewrite (decode_digits_run slot runend (2 ^ w - 2) r (0 :: d :: ds) fuel (i + 1) r rest); auto; try lia.
    3: cbn [length]; lia.
    + rewrite ?E1, values64_exact; try lia.
      * unfold digits_value in *. cbn [fold_left] in *.
        replace (digit_value r 0) with 0 by (unfold digit_value; split_cmps; reflexivity || lia).
        replace (0 * (2 ^ w - 2) + 0) with 0 by lia. rewrite V.
        unfold add64. rewrite u64_small by (unfold fits; lia).
        cbn [length app]. rewrite length_app. cbn [length]. f_equal. f_equal; [f_equal|]; lia.
      * constructor; [unfold digit_value; split_cmps; lia|].
        eapply Forall_impl; [|exact HF]. intros x Hx. apply (is_digit_facts _ r x ltac:(lia) Hx).
      * unfold digits_value in *. cbn [fold_left] in *.
        replace (digit_value r 0) with 0 by (unfold digit_value; split_cmps; reflexivity || lia).
        replace (0 * (2 ^ w - 2) + 0) with 0 by lia. lia.
    + constructor; [lia|]. eapply Forall_impl; [|exact HF]. intros x Hx.
      apply (is_digit_facts _ r x ltac:(lia) Hx).
  - (* zero *)
    pose proof (Forall_inv HF) as Fd. apply is_digit_facts in Fd as (D1 & D2 & D3 & _); [|lia].
    peel H E0 R0 I0. rewrite R0, E0. cbv zeta. rewrite succ64 by lia.
    destruct (run_at_head _ _ _ _ _ H) as (E1 & R1 & _ & I1).
    destruct ((ds ++ [0; 0]) ++ rest) as [|z t] eqn:Ez; [destruct ds; discriminate|]. rewrite <- Ez in *.
    rewrite R1, E1. destruct (Z.eqb_spec d 0); [lia|]. cbn [Z.ltb Z.compare andb Z.eqb negb].
    rewrite <- E1, base64 by lia.
    replace ((d :: (ds ++ [0; 0]) ++ rest)) with ((d :: ds) ++ 0 :: 0 :: rest) in H
      by (cbn [app]; now rewrite <- app_assoc).
    cbn [app length] in Hf. rewrite !length_app in Hf. cbn [length] in Hf.
    rewrite (decode_digits_last (2 ^ w - 1) 0 (d :: ds) fuel (i + 1) (0 :: rest) 0 (c - 4)); auto; try lia.
    2: cbn [length]; lia.
    apply run_at_app in H; [|discriminate]. peel H E2 R2 I2. destruct (run_at_head _ _ _ _ _ H) as (E3 & _ & _ & I3).
    rewrite R2, succ64, E3 by lia. cbn [Z.eqb negb orb].
    unfold add64. rewrite u64_small by (unfold fits; lia).
    cbn [length app]. rewrite length_app. cbn [length]. f_equal. f_equal; [f_equal|]; lia.
Qed.
End DecodeCode.
