(* ===== verification/Runs.v ===== *)
(** * Runs as lists of counted remainders

    A run is the concatenation of the counters of its remainders, in increasing order
    of the remainders.  [run_code] relates the abstract contents of a bucket, a list of
    remainders with their counts, to the slots of its run. *)

From S2P Require Import Prelude BitSeq RankSelect Blocks CounterCode.
From Stdlib Require Import Sorted.
Import ListNotations.
#[local] Open Scope Z_scope.

(** ** Counted remainders *)

Definition items := list (Z * Z).

Fixpoint lookup_item (r : Z) (m : items) : Z :=
  match m with
  | [] => 0
  | (r', c) :: m => if r =? r' then c else lookup_item r m
  end.

(** [c] more copies of [r]. *)
Fixpoint add_item (r c : Z) (m : items) : items :=
  match m with
  | [] => [(r, c)]
  | (r', c') :: m' =>
    if r <? r' then (r, c) :: m
    else if r =? r' then (r', c' + c) :: m' else (r', c') :: add_item r c m'
  end.

Lemma lookup_add_item r c r' m :
  StronglySorted (fun a b => fst a < fst b) m ->
  lookup_item r' (add_item r c m) = lookup_item r' m + (if r' =? r then c else 0).
Proof.
  induction 1 as [|[s d] m _ IH F]; cbn [add_item lookup_item]; [destruct (r' =? r); lia|].
  destruct (Z.ltb_spec r s).
  - cbn [lookup_item]. destruct (Z.eqb_spec r' r), (Z.eqb_spec r' s); try lia.
    subst r'. assert (E : lookup_item r m = 0); [|lia].
    clear IH. induction F as [|[s' d'] m L _ IH]; [reflexivity|]. cbn in *.
    destruct (Z.eqb_spec r s'); [lia|assumption].
  - destruct (Z.eqb_spec r s); cbn [lookup_item].
    + destruct (Z.eqb_spec r' s), (Z.eqb_spec r' r); lia.
    + rewrite IH. destruct (Z.eqb_spec r' s), (Z.eqb_spec r' r); lia.
Qed.

(** ** The slots of a run *)

Inductive run_code (w : Z) : items -> list Z -> Prop :=
| run_nil : run_code w [] []
| run_cons r c m l l' :
    fits w r -> 1 <= c < 2 ^ 64 -> code w r c l -> Forall (fun p => r < fst p) m ->
    run_code w m l' -> run_code w ((r, c) :: m) (l ++ l').

Lemma run_code_sorted w m l : run_code w m l -> StronglySorted (fun a b => fst a < fst b) m.
Proof. induction 1; constructor; auto. Qed.

Lemma run_code_fits w m l : run_code w m l -> Forall (fun p => fits w (fst p)) m.
Proof. induction 1; constructor; auto. Qed.

Lemma run_code_one w r c l : fits w r -> 1 <= c < 2 ^ 64 -> code w r c l -> run_code w [(r, c)] l.
Proof. intros. rewrite <- (app_nil_r l). constructor; auto. constructor. Qed.

(** The run splits where its contents do. *)
Lemma run_code_split w m1 : forall m2 l, run_code w (m1 ++ m2) l ->
  exists l1 l2, l = l1 ++ l2 /\ run_code w m1 l1 /\ run_code w m2 l2.
Proof.
  induction m1 as [|[r c] m1 IH]; intros m2 l H; cbn [app] in H.
  - exists [], l. repeat split; [constructor|exact H].
  - inversion H as [|r0 c0 m l0 l' Hr Hc Hl HF Hm]; subst.
    destruct (IH m2 l' Hm) as (l1 & l2 & -> & H1 & H2). apply Forall_app in HF as [HF _].
    exists (l0 ++ l1), l2. rewrite app_assoc. repeat split; auto. constructor; auto.
Qed.

Lemma run_code_app w m1 : forall m2 l1 l2, run_code w m1 l1 -> run_code w m2 l2 ->
  Forall (fun p => Forall (fun p' => fst p < fst p') m2) m1 -> run_code w (m1 ++ m2) (l1 ++ l2).
Proof.
  induction m1 as [|[r c] m1 IH]; intros m2 l1 l2 H1 H2 HF; inversion H1; subst; [exact H2|].
  cbn [app]. rewrite <- app_assoc. inversion_clear HF.
  constructor; auto. apply Forall_app. auto.
Qed.

Lemma code_head w r c l : code w r c l -> exists t, l = r :: t.
Proof. intros H. destruct H; subst; eauto. Qed.

Lemma run_code_head w r c m l : run_code w ((r, c) :: m) l -> exists t, l = r :: t.
Proof.
  intros H. inversion H as [|? ? ? l0 l' ? ? Hl]; subst. apply code_head in Hl as (t & ->). cbn. eauto.
Qed.

Lemma run_code_nil w m : run_code w m [] -> m = [].
Proof.
  intros H. destruct m as [|[r c] m]; [reflexivity|]. apply run_code_head in H as (t & H). discriminate.
Qed.

Lemma code_length w r c l : code w r c l -> (1 <= length l)%nat.
Proof. intros H. apply code_head in H as (t & ->). cbn. lia. Qed.

(** *** No two adjacent zeroes *)

Lemma no_zero_pair_nonzero l : Forall (fun x => x <> 0) l -> no_zero_pair l.
Proof. intros H j Hj E. apply Forall_forall with (x := nth j l 0) in H; [congruence|]. apply nth_In. lia. Qed.

Lemma no_zero_pair_cons x l : x <> 0 \/ (forall y t, l = y :: t -> y <> 0) -> no_zero_pair l -> no_zero_pair (x :: l).
Proof.
  intros Hx H [|j] Hj; cbn [nth length] in *.
  - intros ->. destruct Hx as [Hx|Hx]; [congruence|]. destruct l as [|y t]; [cbn in Hj; lia|]. now apply (Hx y t).
  - apply H. lia.
Qed.

Lemma no_zero_pair_join l x l' : no_zero_pair l -> no_zero_pair (x :: l') -> x <> 0 -> no_zero_pair (l ++ x :: l').
Proof.
  intros H H' Hx. induction l as [|y l IH]; [exact H'|]. cbn [app]. apply no_zero_pair_cons.
  - destruct l as [|z l]; cbn; [right; now intros ? ? [= <- <-]|].
    destruct (Z.eq_dec y 0) as [->|]; [|auto]. right. intros ? ? [= <- <-]. apply (H O); cbn; lia.
  - apply IH. intros j Hj. apply (H (S j)). cbn. lia.
Qed.

Lemma code_no_zero_pair w r c l : 0 < r -> code w r c l -> no_zero_pair l.
Proof.
  intros Hr H. assert (D : forall b ds, Forall (is_digit b r) ds -> Forall (fun x => x <> 0) ds).
  { intros b ds. apply Forall_impl. intros d Hd. apply is_digit_facts in Hd; lia. }
  destruct H as [ | | | |c d ds _ _ F|c d ds _ _ F|]; try lia.
  - apply no_zero_pair_nonzero. repeat constructor; lia.
  - apply no_zero_pair_nonzero. repeat constructor; lia.
  - intros [|[|j]] Hj E; cbn in *; lia.
  - apply no_zero_pair_nonzero. constructor; [lia|]. apply Forall_app. split; [eauto|]. repeat constructor; lia.
  - apply D in F. apply no_zero_pair_cons; [lia|]. cbn [app]. apply no_zero_pair_cons.
    + right. inversion F. now intros ? ? [= <- <-].
    + apply no_zero_pair_nonzero. rewrite app_comm_cons. apply Forall_app. split; [exact F|]. repeat constructor; lia.
Qed.

Lemma run_code_no_zero_pair w m l : run_code w m l -> Forall (fun p => 0 < fst p) m -> no_zero_pair l.
Proof.
  intros H. induction H as [|r c m l l' Hr Hc Hl HF Hm IH]; intros P; inversion_clear P; [intros j Hj; cbn in Hj; lia|].
  cbn in *. pose proof (code_no_zero_pair _ _ _ _ ltac:(eassumption) Hl) as Hz.
  destruct m as [|[r' c'] m]; [inversion Hm; subst; now rewrite app_nil_r|].
  destruct (run_code_head _ _ _ _ _ Hm) as (t & ->). apply no_zero_pair_join; auto.
  inversion_clear HF. cbn in *. lia.
Qed.

(** The remainders after a counter are larger, and hold no pair of zeroes. *)
Lemma run_code_rest w r m l :
  0 <= r -> run_code w m l -> Forall (fun p => r < fst p) m ->
  (l = [] \/ exists y t, l = y :: t /\ r < y) /\ no_zero_pair l.
Proof.
  intros Hr H HF. split.
  - destruct m as [|[r' c'] m]; [inversion H; auto|]. right. destruct (run_code_head _ _ _ _ _ H) as (t & ->).
    inversion_clear HF. eauto.
  - apply (run_code_no_zero_pair w m); [exact H|]. eapply Forall_impl; [|exact HF]. cbn. lia.
Qed.

(** ** Splitting the contents at a remainder *)

Lemma split_items h m : StronglySorted (fun a b : Z * Z => fst a < fst b) m ->
  exists lo hi, m = lo ++ hi /\ Forall (fun p => fst p < h) lo /\ Forall (fun p => h <= fst p) hi.
Proof.
  induction 1 as [|[r c] m _ IH F]; [exists [], []; auto|].
  destruct (Z.lt_ge_cases r h).
  - destruct IH as (lo & hi & -> & H1 & H2). exists ((r, c) :: lo), hi. repeat split; auto.
  - exists [], ((r, c) :: m). repeat split; auto. constructor; [exact H|].
    eapply Forall_impl; [|exact F]. cbn. lia.
Qed.

Lemma add_item_low h c lo hi : Forall (fun p => fst p < h) lo -> add_item h c (lo ++ hi) = lo ++ add_item h c hi.
Proof.
  induction 1 as [|[r d] lo L _ IH]; [reflexivity|]. cbn in *. rewrite IH.
  destruct (Z.ltb_spec h r), (Z.eqb_spec h r); lia || reflexivity.
Qed.

Lemma lookup_item_low h lo hi : Forall (fun p => fst p < h) lo -> lookup_item h (lo ++ hi) = lookup_item h hi.
Proof.
  induction 1 as [|[r d] lo L _ IH]; [reflexivity|]. cbn in *. rewrite IH. destruct (Z.eqb_spec h r); [lia|reflexivity].
Qed.

Lemma lookup_item_high h m : Forall (fun p => h < fst p) m -> lookup_item h m = 0.
Proof. induction 1 as [|[r d] m L _ IH]; [reflexivity|]. cbn in *. destruct (Z.eqb_spec h r); [lia|exact IH]. Qed.

Lemma lookup_item_nonneg w m l r : run_code w m l -> 0 <= lookup_item r m < 2 ^ 64.
Proof. induction 1; cbn; [lia|]. destruct (r =? r0); lia. Qed.

Lemma run_code_cons_inv w r c m l : run_code w ((r, c) :: m) l ->
  exists l1 l2, l = l1 ++ l2 /\ fits w r /\ 1 <= c < 2 ^ 64 /\ code w r c l1
    /\ Forall (fun p => r < fst p) m /\ run_code w m l2.
Proof. intros H. inversion H; subst. eauto 10. Qed.
