(* ===== verification/Insert.v ===== *)
(** * Insertion ([gqf.c], [insert1], [insert] and the slots they move)

    [insert1] adds one copy of a hash in place; [insert] decodes the counter of the
    remainder, re-encodes it with the new count, and makes room for the additional
    slots by shifting the following runs into the next empty slots.  An operation
    returns [None] where the code would not return (a wait for a lock, a scan past the
    end of the blocks). *)

From S2P Require Import Prelude BitSeq RankSelect Blocks Locks CounterCode.
Import ListNotations.
#[local] Open Scope Z_scope.

(** ** Making room for several slots *)

(** [for (i = 0; i < total_remainders; i++) set_slot(qf, overwrite_index + i, remainders[i])] *)
Fixpoint set_slots (qf : QF) (index : Z) (remainders : list Z) : QF :=
  match remainders with
  | [] => qf
  | v :: remainders => set_slots (set_slot qf index v) (index + 1)%u64 remainders
  end.

(** [for (j = 0; j < ninserts - 1; j++) shift(qf, empties[j+1] + 1, empties[j] - 1, j + 1)] *)
Fixpoint shift_gaps (shift : QF -> Z -> Z -> Z -> QF) (qf : QF) (j : Z) (empties : list Z) : QF :=
  match empties with
  | e :: ((e' :: _) as rest) =>
    shift_gaps shift (shift qf (e' + 1)%u64 (e - 1)%u64 (j + 1)) (j + 1) rest
  | _ => qf
  end.

(** [for (i = from; i < to; i++) METADATA_WORD(runends, i) &= ~...] *)
Fixpoint clear_runends (qf : QF) (n : nat) (i : Z) : QF :=
  match n with
  | O => qf
  | S n => clear_runends (clear_bit qf RUN i) n (i + 1)%u64
  end.

(** [while (npreceding_empties < ninserts && empties[ninserts - 1 - npreceding_empties] / 64 < i)]:
    [pending] are the empties not counted yet, the lowest first. *)
Fixpoint count_preceding (pending : list Z) (npreceding_empties i : Z) : list Z * Z :=
  match pending with
  | e :: pending' =>
    if e / QF_SLOTS_PER_BLOCK <? i then count_preceding pending' (npreceding_empties + 1)%u64 i
    else (pending, npreceding_empties)
  | [] => ([], npreceding_empties)
  end.

(** [for (i = ...; i <= empties[0] / 64; i++)] over the block offsets.  A saturated
    offset is stored as [(uint8_t)BITMASK(16)]. *)
Fixpoint raise_offsets (qf : QF) (n : nat) (i ninserts : Z) (pending : list Z) (npreceding_empties : Z) : QF :=
  match n with
  | O => qf
  | S n =>
    let '(pending, npreceding_empties) := count_preceding pending npreceding_empties i in
    let offset := get_offset qf i in
    let qf :=
      if (offset + ninserts - npreceding_empties)%u64 <? BITMASK 16
      then set_offset qf i (u16 (offset + (ninserts - npreceding_empties)%u64))
      else set_offset qf i (u8 (BITMASK 16)) in
    raise_offsets qf n (i + 1) ninserts pending npreceding_empties
  end.

(** The result is [None] for the [abort()] of an invalid operation, [Some (false, qf)] for
    the return of [false]. *)
Definition insert_replace_slots_and_shift_remainders_and_runends_and_offsets
    (qf : QF) (operation bucket_index overwrite_index : Z) (remainders : list Z)
    (total_remainders noverwrites : Z) : option (bool * QF) :=
  let ninserts := i64 (total_remainders - noverwrites) in
  let insert_index := (overwrite_index + noverwrites)%u64 in
  let finish qf :=
    let qf := set_slots qf overwrite_index remainders in
    let? qf := modify_metadata qf Noccupied ninserts in
    Some (true, qf) in
  if 0 <? ninserts then
    let? empties := find_next_n_empty_slots qf insert_index (Z.to_nat ninserts) [] in
    let first_empty := hd 0 empties in           (* empties[0] *)
    let last_empty := last empties 0 in          (* empties[ninserts - 1] *)
    if qf.(metadata).(xnslots) <=? first_empty then Some (false, qf) else
    let qf := shift_gaps shift_slots qf 0 empties in
    let qf := shift_slots qf insert_index (last_empty - 1)%u64 ninserts in
    let qf := shift_gaps shift_runends qf 0 empties in
    let qf := shift_runends qf insert_index (last_empty - 1)%u64 ninserts in
    let qf := clear_runends qf (Z.to_nat (total_remainders - 1 - noverwrites)) (overwrite_index + noverwrites)%u64 in
    let last_slot := (overwrite_index + total_remainders - 1)%u64 in
    let? qf :=
      (if operation =? 0 then Some (set_bit qf RUN last_slot)
       else if operation =? 1 then
         let qf := clear_bit qf RUN (overwrite_index + noverwrites - 1)%u64 in
         Some (set_bit qf RUN last_slot)
       else if operation =? 2 then Some (clear_bit qf RUN last_slot)
       else None) in
    let first_block := (bucket_index / QF_SLOTS_PER_BLOCK + 1)%Z in
    let n := Z.to_nat (first_empty / QF_SLOTS_PER_BLOCK - first_block + 1) in
    let qf := raise_offsets qf n first_block ninserts (rev empties) 0 in
    finish qf
  else finish qf.

(** ** Adding one copy *)

(** The loops of [insert1], over the slots they read. *)
Section Scans.
Context (slot : Z -> Z).

(** [while (t < runend_index && get_slot(qf, t) != 0) t++] *)
Fixpoint scan_to_zero (fuel : nat) (runend_index t : Z) : option Z :=
  if (t <? runend_index) && negb (slot t =? 0) then
    match fuel with O => None | S fuel => scan_to_zero fuel runend_index (t + 1)%u64 end
  else Some t.

(** The last slot of the counter of the remainder 0 at [runstart_index]. *)
Definition zero_terminator (fuel : nat) (runstart_index runend_index : Z) : option Z :=
  let? t := scan_to_zero fuel runend_index (runstart_index + 1)%u64 in
  if (t <? runend_index) && (slot (t + 1)%u64 =? 0) then Some (t + 1)%u64
  else if (runstart_index <? runend_index) && (slot (runstart_index + 1)%u64 =? 0)
  then Some (runstart_index + 1)%u64
  else Some runstart_index.

(** [while (runstart_index < runend_index && get_slot(qf, runstart_index) != current_remainder)] *)
Fixpoint scan_to_remainder (fuel : nat) (runend_index current_remainder runstart_index : Z) : option Z :=
  if (runstart_index <? runend_index) && negb (slot runstart_index =? current_remainder) then
    match fuel with
    | O => None
    | S fuel => scan_to_remainder fuel runend_index current_remainder (runstart_index + 1)%u64
    end
  else Some runstart_index.

(** Skip over the counters of smaller remainders. *)
Fixpoint skip_counters (fuel : nat) (hash_remainder runend_index runstart_index current_remainder : Z)
    : option (Z * Z) :=
  if (current_remainder <? hash_remainder) && (runstart_index <=? runend_index) then
    match fuel with
    | O => None
    | S fuel =>
      let? runstart_index :=
        (if (runstart_index <? runend_index) && (slot (runstart_index + 1)%u64 <? current_remainder) then
           let? i := scan_to_remainder fuel runend_index current_remainder (runstart_index + 2)%u64 in
           Some (i + 1)%u64
         else Some (runstart_index + 1)%u64) in
      skip_counters fuel hash_remainder runend_index runstart_index (slot runstart_index)
    end
  else Some (runstart_index, current_remainder).

(** [while (get_slot(qf, insert_index+1) != hash_remainder) insert_index++] *)
Fixpoint scan_to_digit (fuel : nat) (hash_remainder insert_index : Z) : option Z :=
  if negb (slot (insert_index + 1)%u64 =? hash_remainder) then
    match fuel with O => None | S fuel => scan_to_digit fuel hash_remainder (insert_index + 1)%u64 end
  else Some insert_index.
End Scans.

(** One digit of the counter: its successor and the carry. *)
Definition increment_digit (nbits current_remainder digit : Z) : Z * Z :=
  let carry := 0 in
  let digit :=
    if digit =? 0 then
      let digit := (digit + 1)%u64 in
      if digit =? current_remainder then (digit + 1)%u64 else digit
    else digit in
  let digit := ((digit + 1) .& BITMASK nbits)%u64 in
  let '(digit, carry) := if digit =? 0 then ((digit + 1)%u64, 1) else (digit, carry) in
  let digit := if digit =? current_remainder then ((digit + 1) .& BITMASK nbits)%u64 else digit in
  if digit =? 0 then ((digit + 1)%u64, 1) else (digit, carry).

(** The [do]-[while] that increments the counter from its last digit on: the last digit
    written, the carry, and the index before it. *)
Fixpoint increment_counter (qf : QF) (fuel : nat) (runstart_index current_remainder insert_index : Z)
    : option (QF * Z * Z * Z) :=
  match fuel with
  | O => None
  | S fuel =>
    let '(digit, carry) := increment_digit (bps qf) current_remainder (get_slot qf insert_index) in
    let qf := set_slot qf insert_index digit in
    let insert_index := (insert_index - 1)%u64 in
    if (runstart_index <? insert_index) && negb (carry =? 0)
    then increment_counter qf fuel runstart_index current_remainder insert_index
    else Some (qf, digit, carry, insert_index)
  end.

(** What [insert1] does to a non-empty bucket: the operation ([-1] when the counter was
    incremented in place), the slot to insert at and its value. *)
Definition insert1_place (qf : QF) (hash_remainder runstart_index runend_index : Z)
    : option (QF * Z * Z * Z) :=
  let slot := get_slot qf in
  let fuel := scan_fuel qf in
  let current_remainder := slot runstart_index in
  let zero_term := runstart_index in
  let? (runstart_index, current_remainder, zero_term) :=
    (if current_remainder =? 0 then
       let? zero_term := zero_terminator slot fuel runstart_index runend_index in
       if negb (hash_remainder =? 0) then
         Some ((zero_term + 1)%u64, slot (zero_term + 1)%u64, zero_term)
       else Some (runstart_index, current_remainder, zero_term)
     else Some (runstart_index, current_remainder, zero_term)) in
  let? (runstart_index, current_remainder) :=
    skip_counters slot fuel hash_remainder runend_index runstart_index current_remainder in
  let next := slot (runstart_index + 1)%u64 in
  if runend_index <? runstart_index then
    let? qf := modify_metadata qf Ndistinct 1 in
    Some (qf, 1, runstart_index, hash_remainder)
  else if negb (current_remainder =? hash_remainder) then
    let? qf := modify_metadata qf Ndistinct 1 in
    Some (qf, 2, runstart_index, hash_remainder)
  else if (runstart_index =? runend_index) || (0 <? hash_remainder) && (hash_remainder <? next)
          || (hash_remainder =? 0) && (zero_term =? runstart_index) then
    Some (qf, 2, runstart_index, hash_remainder)
  else if (0 <? hash_remainder) && (next =? hash_remainder)
          || (hash_remainder =? 0) && (zero_term =? (runstart_index + 1)%u64) then
    Some (qf, 2, (runstart_index + 1)%u64, 0)
  else if (hash_remainder =? 0) && (zero_term =? (runstart_index + 2)%u64) then
    Some (qf, 2, (runstart_index + 1)%u64, 1)
  else
    let? insert_index := scan_to_digit slot fuel hash_remainder (runstart_index + 1)%u64 in
    let? (qf, digit, carry, insert_index) :=
      increment_counter qf fuel runstart_index current_remainder insert_index in
    if (insert_index =? runstart_index)
       && ((0 <? carry) || negb (current_remainder =? 0) && (current_remainder <=? digit)) then
      Some (qf, 2, (runstart_index + 1)%u64, if carry =? 0 then 0 else 2)
    else Some (qf, -1, insert_index, hash_remainder).

(** [for (i = ...; i <= empty_slot_index / 64; i++) if (offset < BITMASK(16)) offset++] *)
Fixpoint increment_offsets (qf : QF) (n : nat) (i : Z) : QF :=
  match n with
  | O => qf
  | S n =>
    let qf := if get_offset qf i <? BITMASK 16 then set_offset qf i (u16 (get_offset qf i + 1)) else qf in
    increment_offsets qf n (i + 1)
  end.

(** The part of [insert1] that puts [new_value] at [insert_index]. *)
Definition insert1_shift (qf : QF) (operation hash_bucket_index insert_index new_value empty_slot_index : Z)
    : option QF :=
  let qf := shift_remainders qf insert_index empty_slot_index in
  let qf := set_slot qf insert_index new_value in
  let qf := shift_runends qf insert_index (empty_slot_index - 1)%u64 1 in
  let? qf :=
    (if operation =? 0 then Some (set_bit qf RUN insert_index)
     else if operation =? 1 then
       Some (set_bit (clear_bit qf RUN (insert_index - 1)%u64) RUN insert_index)
     else if operation =? 2 then Some (clear_bit qf RUN insert_index)
     else None) in
  let first_block := (hash_bucket_index / QF_SLOTS_PER_BLOCK + 1)%Z in
  let qf := increment_offsets qf (Z.to_nat (empty_slot_index / QF_SLOTS_PER_BLOCK - first_block + 1)) first_block in
  modify_metadata qf Noccupied 1.

Definition insert1 (qf : QF) (hash runtime_lock : Z) : option (Z * QF) :=
  let hash_remainder := (hash .& BITMASK (bps qf))%u64 in
  let hash_bucket_index := u64 (Z.shiftr hash (bps qf)) in
  let? (ok, qf) := lock_qf qf hash_bucket_index true runtime_lock in
  if negb ok then Some (QF_COULDNT_LOCK, qf) else
  let finish (ret_distance : Z) qf :=
    let? qf := unlock_qf qf hash_bucket_index true runtime_lock in Some (ret_distance, qf) in
  if is_empty qf hash_bucket_index then
    let qf := set_bit qf RUN hash_bucket_index in
    let qf := set_slot qf hash_bucket_index hash_remainder in
    let qf := set_bit qf OCC hash_bucket_index in
    let? qf := modify_metadata qf Ndistinct 1 in
    let? qf := modify_metadata qf Noccupied 1 in
    let? qf := modify_metadata qf Nelts 1 in
    finish 0 qf
  else
    let? runend_index := run_end qf hash_bucket_index in
    let? runstart_index :=
      (if hash_bucket_index =? 0 then Some 0
       else let? e := run_end qf (hash_bucket_index - 1)%u64 in Some (e + 1)%u64) in
    let? (qf, operation, insert_index, new_value) :=
      (if is_occupied qf hash_bucket_index then
         insert1_place qf hash_remainder runstart_index runend_index
       else
         let? qf := modify_metadata qf Ndistinct 1 in
         Some (qf, 0, (runend_index + 1)%u64, hash_remainder)) in
    let update qf :=
      let? qf := modify_metadata qf Nelts 1 in Some (set_bit qf OCC hash_bucket_index) in
    if 0 <=? operation then
      let? empty_slot_index := find_first_empty_slot qf (runend_index + 1)%u64 in
      if (qf.(metadata).(xnslots) <=? empty_slot_index) && (empty_slot_index <? (runend_index + 1)%u64)
      then Some (QF_NO_SPACE, qf)
      else
        let? qf := insert1_shift qf operation hash_bucket_index insert_index new_value empty_slot_index in
        let? qf := update qf in
        finish (i32 (insert_index - hash_bucket_index)) qf
    else
      let? qf := update qf in finish 0 qf.

(** ** Adding [count] copies *)

(** Decode the counter at [runstart_index], then move on while its remainder is smaller
    and it does not end the run: (start, end, remainder, count). *)
Fixpoint find_counter (qf : QF) (fuel : nat) (hash_remainder runstart_index : Z) : option (Z * Z * Z * Z) :=
  let? (current_end, current_remainder, current_count) := decode_counter qf runstart_index in
  if (current_remainder <? hash_remainder) && negb (is_runend qf current_end) then
    match fuel with
    | O => None
    | S fuel => find_counter qf fuel hash_remainder (current_end + 1)%u64
    end
  else Some (runstart_index, current_end, current_remainder, current_count).

(** [insert_replace_...] with [encode_counter(qf, remainder, count, &new_values[67])]. *)
Definition insert_encoded (qf : QF) (operation bucket_index overwrite_index remainder count noverwrites : Z)
    : option (bool * QF) :=
  let? p := encode_counter qf remainder count in
  insert_replace_slots_and_shift_remainders_and_runends_and_offsets
    qf operation bucket_index overwrite_index p (Z.of_nat (length p)) noverwrites.

(** The non-empty-slot case of [insert]: the distance from the home slot, or [None] in
    the pair when there was no space. *)
Definition insert_nonempty (qf : QF) (hash_remainder hash_bucket_index count : Z) : option (option Z * QF) :=
  let? runstart_index :=
    (if hash_bucket_index =? 0 then Some 0
     else let? e := run_end qf (hash_bucket_index - 1)%u64 in Some (e + 1)%u64) in
  let distance (slot_index : Z) : Z := i32 (slot_index - hash_bucket_index) in
  if negb (is_occupied qf hash_bucket_index) then
    let? (ret, qf) := insert_encoded qf 0 hash_bucket_index runstart_index hash_remainder count 0 in
    if negb ret then Some (None, qf) else
    let? qf := modify_metadata qf Ndistinct 1 in
    Some (Some (distance runstart_index), qf)
  else
    let? (runstart_index, current_end, current_remainder, current_count) :=
      find_counter qf (scan_fuel qf) hash_remainder runstart_index in
    if current_remainder <? hash_remainder then
      let? (ret, qf) := insert_encoded qf 1 hash_bucket_index (current_end + 1)%u64 hash_remainder count 0 in
      if negb ret then Some (None, qf) else
      let? qf := modify_metadata qf Ndistinct 1 in
      Some (Some (distance (current_end + 1)), qf)
    else if current_remainder =? hash_remainder then
      let? (ret, qf) :=
        insert_encoded qf (if is_runend qf current_end then 1 else 2) hash_bucket_index runstart_index
          hash_remainder (current_count + count)%u64 (current_end - runstart_index + 1)%u64 in
      if negb ret then Some (None, qf) else Some (Some (distance runstart_index), qf)
    else
      let? (ret, qf) := insert_encoded qf 2 hash_bucket_index runstart_index hash_remainder count 0 in
      if negb ret then Some (None, qf) else
      let? qf := modify_metadata qf Ndistinct 1 in
      Some (Some (distance runstart_index), qf).

(** [insert].  [fuel] bounds the recursion of the empty-slot case, whose callee finds the
    slot taken: two levels are enough. *)
Fixpoint insert_rec (fuel : nat) (qf : QF) (hash count runtime_lock : Z) : option (Z * QF) :=
  match fuel with
  | O => None
  | S fuel =>
    let hash_remainder := (hash .& BITMASK (bps qf))%u64 in
    let hash_bucket_index := u64 (Z.shiftr hash (bps qf)) in
    let? (ok, qf) := lock_qf qf hash_bucket_index false runtime_lock in
    if negb ok then Some (QF_COULDNT_LOCK, qf) else
    let finish (ret_distance : Z) qf :=
      let? qf := unlock_qf qf hash_bucket_index false runtime_lock in Some (ret_distance, qf) in
    let? runend_index := run_end qf hash_bucket_index in
    if might_be_empty qf hash_bucket_index && (runend_index =? hash_bucket_index) then
      let qf := set_bit qf RUN hash_bucket_index in
      let qf := set_slot qf hash_bucket_index hash_remainder in
      let qf := set_bit qf OCC hash_bucket_index in
      let? qf := modify_metadata qf Ndistinct 1 in
      let? qf := modify_metadata qf Noccupied 1 in
      let? qf := modify_metadata qf Nelts 1 in
      let? qf :=
        (if 1 <? count then let? (_, qf) := insert_rec fuel qf hash (count - 1)%u64 QF_NO_LOCK in Some qf
         else Some qf) in
      finish 0 qf
    else
      let? (ret, qf) := insert_nonempty qf hash_remainder hash_bucket_index count in
      match ret with
      | None => Some (QF_NO_SPACE, qf)
      | Some ret_distance =>
        let qf := set_bit qf OCC hash_bucket_index in
        let? qf := modify_metadata qf Nelts count in
        finish ret_distance qf
      end
  end.

Definition insert (qf : QF) (hash count runtime_lock : Z) : option (Z * QF) :=
  insert_rec 2 qf hash count runtime_lock.

(** ** The next slot with another value *)

Fixpoint next_slot_scan (qf : QF) (fuel : nat) (rem current : Z) : option Z :=
  if (get_slot qf current =? rem) && (current <=? qf.(metadata).(nslots)) then
    match fuel with O => None | S fuel => next_slot_scan qf fuel rem (current + 1)%u64 end
  else Some current.

Definition next_slot (qf : QF) (current : Z) : option Z :=
  next_slot_scan qf (Z.to_nat (qf.(metadata).(nslots) + 1)) (get_slot qf current) (current + 1)%u64.
