(* ===== verification/Remove.v ===== *)
(** * Removal ([gqf.c], [_remove] and the slots it moves back) *)

From S2P Require Import Prelude BitSeq RankSelect Blocks Locks CounterCode Insert.
Import ListNotations.
#[local] Open Scope Z_scope.

(** [do current_bucket++ while (current_bucket < bound && !is_occupied(qf, current_bucket))] *)
Fixpoint next_occupied (qf : QF) (fuel : nat) (current_bucket bound : Z) : option Z :=
  match fuel with
  | O => None
  | S fuel =>
    let current_bucket := (current_bucket + 1)%u64 in
    if (current_bucket <? bound) && negb (is_occupied qf current_bucket)
    then next_occupied qf fuel current_bucket bound else Some current_bucket
  end.

(** [for (i = current_slot; ...; i++) { set_slot(qf, i, 0); METADATA_WORD(runends, i) &= ~...; }] *)
Fixpoint clear_slots (qf : QF) (n : nat) (i : Z) : QF :=
  match n with
  | O => qf
  | S n => clear_slots (clear_bit (set_slot qf i 0) RUN i) n (i + 1)%u64
  end.

(** [while (current_distance > 0)]: shift slots back one run at a time. *)
Fixpoint shift_back (qf : QF) (fuel : nat) (current_bucket current_slot current_distance : Z) : option QF :=
  if 0 <? current_distance then
    match fuel with
    | O => None
    | S fuel =>
      let? current_bucket :=
        (if is_runend qf (current_slot + current_distance - 1)%u64
         then next_occupied qf (scan_fuel qf) current_bucket (current_slot + current_distance)%u64
         else Some current_bucket) in
      if current_bucket <=? current_slot then
        let qf := set_slot qf current_slot (get_slot qf (current_slot + current_distance)%u64) in
        let qf :=
          if negb (Bool.eqb (is_runend qf current_slot) (is_runend qf (current_slot + current_distance)%u64))
          then flip_bit qf RUN current_slot else qf in
        shift_back qf fuel current_bucket (current_slot + 1)%u64 current_distance
      else if current_bucket <=? (current_slot + current_distance)%u64 then
        let qf := clear_slots qf (Z.to_nat current_distance) current_slot in
        shift_back qf fuel current_bucket current_bucket (current_slot + current_distance - current_bucket)%u64
      else shift_back qf fuel current_bucket current_slot 0
    end
  else Some qf.

(** [while (1)]: recompute the block offsets from [original_block] on until one is right
    already. *)
Fixpoint update_offsets (qf : QF) (fuel : nat) (original_block : Z) : option QF :=
  match fuel with
  | O => None
  | S fuel =>
    let last_occupieds_hash_index := (QF_SLOTS_PER_BLOCK * original_block + (QF_SLOTS_PER_BLOCK - 1))%u64 in
    let? runend_index := run_end qf last_occupieds_hash_index in
    let offset := get_offset qf (original_block + 1) in
    if runend_index / QF_SLOTS_PER_BLOCK =? original_block then
      if offset =? 0 then Some qf
      else update_offsets (set_offset qf (original_block + 1) 0) fuel (original_block + 1)
    else
      if offset =? (runend_index - last_occupieds_hash_index)%u64 then Some qf
      else update_offsets (set_offset qf (original_block + 1) (u16 (runend_index - last_occupieds_hash_index)))
             fuel (original_block + 1)
  end.

Definition remove_replace_slots_and_shift_remainders_and_runends_and_offsets
    (qf : QF) (operation bucket_index overwrite_index : Z) (remainders : list Z)
    (total_remainders old_length : Z) : option (Z * QF) :=
  let qf := set_slots qf overwrite_index remainders in
  let qf :=
    if is_runend qf (overwrite_index + old_length - 1)%u64 then
      if 0 <? total_remainders then set_bit qf RUN (overwrite_index + total_remainders - 1)%u64
      else if (if bucket_index <? overwrite_index then negb (is_runend qf (overwrite_index - 1)%u64) else false)
      then set_bit qf RUN (overwrite_index - 1)%u64
      else qf
    else qf in
  let original_bucket := bucket_index in
  let current_slot := (overwrite_index + total_remainders)%u64 in
  let current_distance := (old_length - total_remainders)%u64 in
  let ret_current_distance := i32 current_distance in
  let? qf := shift_back qf (2 * scan_fuel qf + 2) bucket_index current_slot current_distance in
  let qf :=
    if negb (operation =? 0) && (total_remainders =? 0) then clear_bit qf OCC bucket_index else qf in
  let original_block := original_bucket / QF_SLOTS_PER_BLOCK in
  let? qf :=
    (if total_remainders <? old_length
     then update_offsets qf (S (Z.to_nat qf.(metadata).(nblocks))) original_block else Some qf) in
  let num_slots_freed := i32 (old_length - total_remainders) in
  let? qf := modify_metadata qf Noccupied (- num_slots_freed) in
  let? qf := (if total_remainders =? 0 then modify_metadata qf Ndistinct (-1) else Some qf) in
  Some (ret_current_distance, qf).

(** [_remove] *)
Definition remove (qf : QF) (hash count runtime_lock : Z) : option (Z * QF) :=
  let hash_remainder := (hash .& BITMASK (bps qf))%u64 in
  let hash_bucket_index := u64 (Z.shiftr hash (bps qf)) in
  let? (ok, qf) := lock_qf qf hash_bucket_index false runtime_lock in
  if negb ok then Some (QF_COULDNT_LOCK, qf) else
  if negb (is_occupied qf hash_bucket_index) then Some (QF_DOESNT_EXIST, qf) else
  let? runstart_index :=
    (if hash_bucket_index =? 0 then Some 0
     else let? e := run_end qf (hash_bucket_index - 1)%u64 in Some (e + 1)%u64) in
  let original_runstart_index := runstart_index in
  let? (runstart_index, current_end, current_remainder, current_count) :=
    find_counter qf (scan_fuel qf) hash_remainder runstart_index in
  if negb (current_remainder =? hash_remainder) then Some (QF_DOESNT_EXIST, qf) else
  let only_item_in_the_run :=
    if (original_runstart_index =? runstart_index) && is_runend qf current_end then 1 else 0 in
  let? p := encode_counter qf hash_remainder (if current_count <? count then 0 else (current_count - count)%u64) in
  let? (ret_numfreedslots, qf) :=
    remove_replace_slots_and_shift_remainders_and_runends_and_offsets
      qf only_item_in_the_run hash_bucket_index runstart_index p (Z.of_nat (length p))
      (current_end - runstart_index + 1)%u64 in
  let? qf := modify_metadata qf Nelts (- count) in
  let? qf := unlock_qf qf hash_bucket_index false runtime_lock in
  Some (ret_numfreedslots, qf).
