(* ===== verification/Repr.v ===== *)
(** * The runs a filter holds

    [repr qf runs]: the filter [qf] stores the slots [runs q] for each bucket [q], laid
    out as described in [Layout], and its unused slots are zero.  First, the slots a filter
    holds as a view, in which the operations on a bit or a slot change one place.  The operations on
    single slots are then operations on one list of the family. *)

From S2P Require Import Prelude BitSeq RankSelect Blocks BlockBits Shifting Layout Locks CounterCode Insert.
From Stdlib Require Import Morphisms Setoid.
Import ListNotations.
#[local] Open Scope Z_scope.

(** * The contents of a filter's blocks *)

Record contents := mk_contents {
  c_occ : Z -> bool;
  c_run : Z -> bool;
  c_off : Z -> Z;
  c_slot : Z -> Z;
}.

Definition contents_of (qf : QF) : contents :=
  mk_contents (v_occ (view_of qf)) (v_run (view_of qf)) (get_offset qf) (get_slot qf).

Record ceq (a b : contents) : Prop := {
  ceq_occ i : 0 <= i -> c_occ a i = c_occ b i;
  ceq_run i : 0 <= i -> c_run a i = c_run b i;
  ceq_off i : 0 <= i -> c_off a i = c_off b i;
  ceq_slot i : 0 <= i -> c_slot a i = c_slot b i;
}.

#[export] Instance ceq_equivalence : Equivalence ceq.
Proof.
  split.
  - intros a. split; reflexivity.
  - intros a b [H1 H2 H3 H4]. split; intros; symmetry; auto.
  - intros a b c [H1 H2 H3 H4] [G1 G2 G3 G4].
    split; intros i Hi; [rewrite H1, G1|rewrite H2, G2|rewrite H3, G3|rewrite H4, G4]; auto.
Qed.

(** ** Updates *)

Definition put_occ (c : contents) (i : Z) (b : bool) : contents :=
  mk_contents (upd (c_occ c) i b) (c_run c) (c_off c) (c_slot c).
Definition put_run (c : contents) (i : Z) (b : bool) : contents :=
  mk_contents (c_occ c) (upd (c_run c) i b) (c_off c) (c_slot c).
Definition put_off (c : contents) (i x : Z) : contents :=
  mk_contents (c_occ c) (c_run c) (upd (c_off c) i x) (c_slot c).
Definition put_slot (c : contents) (i x : Z) : contents :=
  mk_contents (c_occ c) (c_run c) (c_off c) (upd (c_slot c) i x).

(** [f] with [x] inserted at position [i], its elements up to [e] moved up by one. *)
Definition open_gap {A : Type} (f : Z -> A) (i e : Z) (x : A) (k : Z) : A :=
  if k =? i then x else if (i <? k) && (k <=? e) then f (k - 1) else f k.

Definition gap_slot (c : contents) (i e x : Z) : contents :=
  mk_contents (c_occ c) (c_run c) (c_off c) (open_gap (c_slot c) i e x).
Definition gap_run (c : contents) (i e : Z) : contents :=
  mk_contents (c_occ c) (open_gap (c_run c) i e false) (c_off c) (c_slot c).

(** Offsets of [n] blocks from block [b] on incremented. *)
Definition bump_off (c : contents) (b n : Z) : contents :=
  mk_contents (c_occ c) (c_run c) (fun i => if (b <=? i) && (i <? b + n) then c_off c i + 1 else c_off c i) (c_slot c).

#[export] Instance put_occ_proper : Proper (ceq ==> eq ==> eq ==> ceq) put_occ.
Proof. intros a b [H1 H2 H3 H4] i ? <- x ? <-. split; cbn; unfold upd; intros j Hj; try (destruct (j =? i)); auto. Qed.
#[export] Instance put_run_proper : Proper (ceq ==> eq ==> eq ==> ceq) put_run.
Proof. intros a b [H1 H2 H3 H4] i ? <- x ? <-. split; cbn; unfold upd; intros j Hj; try (destruct (j =? i)); auto. Qed.
#[export] Instance put_off_proper : Proper (ceq ==> eq ==> eq ==> ceq) put_off.
Proof. intros a b [H1 H2 H3 H4] i ? <- x ? <-. split; cbn; unfold upd; intros j Hj; try (destruct (j =? i)); auto. Qed.
#[export] Instance put_slot_proper : Proper (ceq ==> eq ==> eq ==> ceq) put_slot.
Proof. intros a b [H1 H2 H3 H4] i ? <- x ? <-. split; cbn; unfold upd; intros j Hj; try (destruct (j =? i)); auto. Qed.
#[export] Instance bump_off_proper : Proper (ceq ==> eq ==> eq ==> ceq) bump_off.
Proof. intros a b [H1 H2 H3 H4] i ? <- x ? <-. split; cbn; intros j Hj; auto. rewrite H3 by exact Hj. reflexivity. Qed.

Lemma gap_slot_ceq a b i e x : 0 <= i -> ceq a b -> ceq (gap_slot a i e x) (gap_slot b i e x).
Proof.
  intros Hi [H1 H2 H3 H4]. split; cbn; unfold open_gap; auto. intros j Hj.
  destruct (j =? i); [reflexivity|]. destruct (Z.ltb_spec i j); cbn [andb]; [|auto].
  destruct (j <=? e); apply H4; lia.
Qed.

Lemma gap_run_ceq a b i e : 0 <= i -> ceq a b -> ceq (gap_run a i e) (gap_run b i e).
Proof.
  intros Hi [H1 H2 H3 H4]. split; cbn; unfold open_gap; auto. intros j Hj.
  destruct (j =? i); [reflexivity|]. destruct (Z.ltb_spec i j); cbn [andb]; [|auto].
  destruct (j <=? e); apply H2; lia.
Qed.

(** ** The primitive operations *)

Lemma get_slot_same_bits q q' i :
  width_ok q -> bps q' = bps q -> 0 <= i ->
  (forall g, 0 <= g -> v_sbit (view_of q') g = v_sbit (view_of q) g) -> get_slot q' i = get_slot q i.
Proof.
  intros Hq E Hi H. apply get_slot_ext; try assumption; [unfold width_ok in *; lia|].
  intros j Hj. rewrite E. apply H. unfold width_ok in Hq. nia.
Qed.

Section Primitives.
Context (qf : QF) (Hq : width_ok qf).

Lemma contents_set_slot i v :
  0 <= i -> fits (bps qf) v -> ceq (contents_of (set_slot qf i v)) (put_slot (contents_of qf) i v).
Proof.
  intros Hi Hv. destruct (set_slot_view qf Hq i v Hi Hv) as [V1 V2 _ V4].
  split; cbn; auto. intros k Hk. unfold upd. now apply get_slot_set_slot.
Qed.

(** The other updates leave the slots alone. *)
Ltac from_view V :=
  destruct V as [V1 V2 V3 V4]; split; cbn; auto;
  intros k Hk; apply get_slot_same_bits; auto.

Lemma contents_set_occ i : 0 <= i -> ceq (contents_of (set_bit qf OCC i)) (put_occ (contents_of qf) i true).
Proof. intros Hi. from_view (set_occ_bit_view qf Hq i Hi). Qed.

Lemma contents_clear_occ i : 0 <= i -> ceq (contents_of (clear_bit qf OCC i)) (put_occ (contents_of qf) i false).
Proof. intros Hi. from_view (clear_occ_bit_view qf Hq i Hi). Qed.

Lemma contents_set_run i : 0 <= i -> ceq (contents_of (set_bit qf RUN i)) (put_run (contents_of qf) i true).
Proof. intros Hi. from_view (set_run_bit_view qf Hq i Hi). Qed.

Lemma contents_clear_run i : 0 <= i -> ceq (contents_of (clear_bit qf RUN i)) (put_run (contents_of qf) i false).
Proof. intros Hi. from_view (clear_run_bit_view qf Hq i Hi). Qed.

Lemma contents_set_offset b x :
  0 <= b -> fits 16 x -> ceq (contents_of (set_offset qf b x)) (put_off (contents_of qf) b x).
Proof. intros Hb Hx. from_view (set_offset_view qf Hq b x Hb Hx). Qed.

Lemma contents_shift_slot i e x :
  0 <= i <= e -> get_slot qf e = 0 -> fits (bps qf) x ->
  ceq (contents_of (set_slot (shift_remainders qf i e) i x)) (gap_slot (contents_of qf) i e x).
Proof.
  intros Hi He Hx. destruct (shift_remainders_bits qf i e 0 Hq Hi ltac:(lia) He) as (Hq' & [M R V] & _).
  destruct V as [V1 V2 _ V4]. set (q1 := shift_remainders qf i e) in *.
  assert (E : bps q1 = bps qf) by (unfold bps; now rewrite M).
  destruct (set_slot_view q1 Hq' i x ltac:(lia)) as [W1 W2 _ W4]; [now rewrite E|].
  split; cbn in *.
  - intros k Hk. rewrite W1, V1 by exact Hk. reflexivity.
  - intros k Hk. rewrite W2, V2 by exact Hk. reflexivity.
  - intros k Hk. rewrite W4, V4 by exact Hk. reflexivity.
  - intros k Hk. rewrite get_slot_set_slot by (rewrite ?E; auto; lia). unfold open_gap.
    destruct (Z.eqb_spec k i); [reflexivity|]. apply get_slot_shift_remainders; auto.
Qed.

Lemma contents_shift_run i e :
  0 <= i <= e -> v_run (view_of qf) e = false ->
  ceq (contents_of (shift_runends qf i (e - 1) 1)) (gap_run (contents_of qf) i e).
Proof.
  intros Hi He.
  assert (B : forall p, 0 <= p -> let q' := shift_runends qf i (e - 1) 1 in
    width_ok q' /\ same_but_runends q' qf /\
    v_run (view_of q') p = shifted (v_run (view_of qf)) i (e - 1 + 1 + 1) 1 p).
  { intros p Hp. apply shift_runends_bits; auto; try lia. intros j Hj _. now replace j with e by lia. }
  cbv zeta in B. destruct (B 0 ltac:(lia)) as (_ & [M R [V1 V2 V3 V4]] & _). split; cbn in *; auto.
  - intros k Hk. destruct (B k Hk) as (_ & _ & ->). unfold shifted, open_gap.
    destruct (Z.eqb_spec k i) as [->|].
    + rewrite Z.eqb_refl. split_cmps; try reflexivity; lia.
    + split_cmps; try reflexivity; f_equal; lia.
  - intros k Hk. apply get_slot_same_bits; auto. exact (f_equal bits_per_slot M).
Qed.
End Primitives.

(** ** Headers *)

(** Only the contents of the blocks differ. *)
Record same_header (q' q : QF) : Prop := {
  sh_metadata : metadata q' = metadata q;
  sh_runtime : runtimedata q' = runtimedata q;
}.

#[export] Instance same_header_equivalence : Equivalence same_header.
Proof. split; [intros q|intros a b []|intros a b c [] []]; split; congruence. Qed.

Lemma same_header_width q' q : same_header q' q -> width_ok q -> width_ok q'.
Proof. intros [M _]. unfold width_ok, bps. now rewrite M. Qed.

Lemma same_header_blocks q m : same_header (set_blocks q m) q.
Proof. split; reflexivity. Qed.

Lemma header_shift_slot q i e x :
  width_ok q -> 0 <= i <= e -> get_slot q e = 0 -> same_header (set_slot (shift_remainders q i e) i x) q.
Proof.
  intros Hq Hi He. destruct (shift_remainders_bits q i e 0 Hq Hi ltac:(lia) He) as (_ & [M R _] & _).
  split; assumption.
Qed.

Lemma header_shift_run q i e :
  width_ok q -> 0 <= i <= e -> v_run (view_of q) e = false -> same_header (shift_runends q i (e - 1) 1) q.
Proof.
  intros Hq Hi He. destruct (shift_runends_bits q i (e - 1) 1 0 Hq) as (_ & [M R _] & _); try lia.
  { intros k Hk _. now replace k with e by lia. }
  split; assumption.
Qed.

Lemma contents_increment_offsets n : forall q b,
  width_ok q -> 0 <= b -> (forall i, b <= i < b + Z.of_nat n -> get_offset q i < 65535) ->
  same_header (increment_offsets q n b) q /\
  ceq (contents_of (increment_offsets q n b)) (bump_off (contents_of q) b (Z.of_nat n)).
Proof.
  induction n as [|n IH]; intros q b Hq Hb Hoff.
  - split; [reflexivity|]. split; cbn; auto. intros i Hi. split_cmps; lia || reflexivity.
  - cbn [increment_offsets]. cbv zeta. pose proof (Hoff b ltac:(lia)) as Hb0.
    change (BITMASK 16) with 65535. destruct (Z.ltb_spec (get_offset q b) 65535); [|lia].
    assert (F : fits 16 (get_offset q b + 1)).
    { assert (fits 16 (get_offset q b)) by (apply (load_fits _ _ 2); lia). unfold fits in *. lia. }
    unfold u16. rewrite (uwrap_small 16) by exact F.
    pose proof (contents_set_offset q Hq b _ Hb F) as C.
    set (q1 := set_offset q b (get_offset q b + 1)) in *.
    assert (Hq1 : width_ok q1) by exact Hq.
    destruct (IH q1 (b + 1) Hq1) as [H1 H2]; [lia| |].
    { intros i Hi. pose proof (ceq_off _ _ C i ltac:(lia)) as E. cbn in E. rewrite E. unfold upd.
      destruct (Z.eqb_spec i b); [lia|]. apply Hoff. lia. }
    split; [rewrite H1; apply same_header_blocks|]. rewrite H2, C.
    split; cbn; auto. intros i Hi. unfold upd.
    destruct (Z.eqb_spec i b) as [->|]; split_cmps; lia || reflexivity.
Qed.

(** * The runs a filter holds *)

Definition run_len (runs : Z -> list Z) (q : Z) : Z := Z.of_nat (length (runs q)).

Record repr (qf : QF) (runs : Z -> list Z) : Prop := {
  rp_laid : laid_out qf (run_len runs);
  rp_slot q j : 0 <= q -> (j < length (runs q))%nat ->
    get_slot qf (run_start (run_len runs) q + Z.of_nat j) = nth j (runs q) 0;
  rp_free x : 0 <= x -> run_stop (run_len runs) x <= x -> get_slot qf x = 0;
}.

(** ** Changing what does not matter *)

Lemma run_start_ext len len' q :
  (forall p, 0 <= p -> len p = len' p) -> run_start len q = run_start len' q.
Proof. intros H. unfold run_start. rewrite (run_stop_ext len len'); [reflexivity|]. intros; apply H; lia. Qed.

Lemma wf_ext v v' nb len len' :
  (forall i, 0 <= i -> v_occ v' i = v_occ v i) -> (forall i, 0 <= i -> v_run v' i = v_run v i) ->
  (forall b, 0 <= b < nb -> v_off v' b = v_off v b) ->
  (forall p, 0 <= p -> len p = len' p) -> (forall p, 0 <= len' p) ->
  wf v nb len -> wf v' nb len'.
Proof.
  intros Ho Hr Hf E P [W1 W2 W3 W4 W5].
  assert (S : forall q, run_stop len q = run_stop len' q) by (intros q; apply run_stop_ext; intros; apply E; lia).
  split.
  - exact P.
  - intros q Hq. rewrite Ho, W2, E by exact Hq. reflexivity.
  - intros x Hx. rewrite Hr, W3 by exact Hx.
    split; intros (q & Hq & N & Eq); exists q; [rewrite <- E, <- S|rewrite E, S]; auto.
  - intros b Hb. rewrite Hf, W4, S by exact Hb. reflexivity.
  - intros q. rewrite <- S. apply W5.
Qed.

Lemma repr_ext qf qf' runs runs' :
  ceq (contents_of qf') (contents_of qf) ->
  bps qf' = bps qf -> nblocks (metadata qf') = nblocks (metadata qf) ->
  (forall p, 0 <= p -> runs p = runs' p) -> repr qf runs -> repr qf' runs'.
Proof.
  intros [C1 C2 C3 C4] B N E [[L1 L2 W] S F]. cbn in *.
  assert (El : forall p, 0 <= p -> run_len runs p = run_len runs' p)
    by (intros p Hp; unfold run_len; now rewrite E).
  split.
  - split; [now rewrite B|now rewrite N|]. rewrite N.
    apply (wf_ext (view_of qf) _ _ (run_len runs)); auto.
    + intros b Hb. apply C3. lia.
    + intros p. unfold run_len. lia.
  - intros q j Hq Hj. rewrite <- (run_start_ext _ _ q El), <- E in * by exact Hq.
    rewrite C4; [auto|]. unfold run_start. lia.
  - intros x Hx Hs. rewrite C4 by exact Hx. apply F; [exact Hx|].
    rewrite (run_stop_ext _ (run_len runs')); [exact Hs|]. intros; apply El; lia.
Qed.

(** Only the counters, the locks and the like differ. *)
Lemma repr_blocks qf qf' runs :
  blocks qf' = blocks qf -> bps qf' = bps qf -> nblocks (metadata qf') = nblocks (metadata qf) ->
  repr qf runs -> repr qf' runs.
Proof.
  intros E B N R. apply (repr_ext qf qf' runs runs); auto.
  unfold contents_of, view_of, get_slot, get_offset, slot_address, slot_shift, get_block, block_size.
  split; cbn; intros i Hi; unfold occ_pos, run_pos, block_bits; rewrite ?E, ?B; reflexivity.
Qed.

(** ** Reading a run *)

Section Reading.
Context (qf : QF) (runs : Z -> list Z) (R : repr qf runs).

#[local] Abbreviation len := (run_len runs).
#[local] Abbreviation stop := (run_stop len).
#[local] Abbreviation start := (run_start len).

Lemma run_len_nonneg q : 0 <= len q.
Proof. unfold run_len. lia. Qed.

Lemma repr_width : width_ok qf.
Proof. apply (lo_bps _ _ (rp_laid _ _ R)). Qed.

Lemma repr_wf : wf (view_of qf) (nblocks (metadata qf)) len.
Proof. apply (lo_wf _ _ (rp_laid _ _ R)). Qed.

Lemma run_len_nil q : runs q = [] <-> len q = 0.
Proof. unfold run_len. destruct (runs q); cbn; split; congruence || lia. Qed.

Lemma repr_occupied q : 0 <= q -> is_occupied qf q = negb (len q =? 0).
Proof.
  intros Hq. rewrite is_occupied_view by (try apply repr_width; exact Hq).
  apply (wf_occ _ _ _ repr_wf). exact Hq.
Qed.

Lemma repr_runend x : 0 <= x -> is_runend qf x = true <-> exists q, 0 <= q /\ len q <> 0 /\ stop q = x + 1.
Proof.
  intros Hx. rewrite is_runend_view by (try apply repr_width; exact Hx).
  apply (wf_run _ _ _ repr_wf). exact Hx.
Qed.

Lemma repr_bound q : 0 <= q -> len q <> 0 -> 0 <= start q /\ start q + len q <= 64 * nblocks (metadata qf) < 2 ^ 62.
Proof.
  intros Hq E. pose proof (wf_bound _ _ _ repr_wf q) as B. rewrite run_stop_full in B by assumption.
  pose proof (lo_size _ _ (rp_laid _ _ R)). unfold run_start in *. lia.
Qed.

Lemma repr_run_at q :
  0 <= q -> runs q <> [] -> run_at (get_slot qf) (is_runend qf) (start q) (runs q).
Proof.
  intros Hq N. assert (E : len q <> 0) by (rewrite <- run_len_nil; exact N).
  destruct (repr_bound q Hq E) as [B1 B2]. pose proof (run_stop_full len q Hq E) as F.
  pose proof (run_stop_mono len run_len_nonneg) as Mono.
  split.
  - intros j Hj. apply (rp_slot _ _ R); auto.
  - intros j Hj. assert (Hl : len q = Z.of_nat (length (runs q))) by reflexivity.
    destruct (Nat.eqb_spec (S j) (length (runs q))).
    + apply repr_runend; [lia|]. exists q. lia.
    + apply not_true_is_false. intros T. apply repr_runend in T as (p & Hp & Ep & Es); [|lia].
      destruct (Z.lt_trichotomy p q) as [L|[->|L]]; [|lia|].
      * pose proof (Mono p (q - 1)). unfold run_start in *. lia.
      * pose proof (Mono q p). lia.
  - unfold run_len in *. lia.
  - apply Forall_forall. intros v Hv. apply (In_nth _ _ 0) in Hv as (j & Hj & <-).
    rewrite <- (rp_slot _ _ R q j Hq Hj). apply (fits_mono (bps qf)); [pose proof repr_width; unfold width_ok in *; lia|].
    apply get_slot_fits; [apply repr_width|lia].
Qed.

(** The first slot of the run, as the code finds it. *)
Lemma repr_run_end q : 0 <= q < 64 * nblocks (metadata qf) ->
  run_end qf q = Some (Z.max (q + 1) (stop q) - 1).
Proof. intros Hq. apply (run_end_spec qf len (rp_laid _ _ R) q Hq). Qed.

Lemma repr_run_start q :
  0 <= q < 64 * nblocks (metadata qf) ->
  (if q =? 0 then Some 0 else let? e := run_end qf (q - 1)%u64 in Some (e + 1)%u64) = Some (start q).
Proof.
  intros Hq. pose proof (lo_size _ _ (rp_laid _ _ R)). unfold run_start.
  destruct (Z.eqb_spec q 0) as [->|].
  - now rewrite run_stop_neg by lia.
  - replace (sub64 q 1) with (q - 1) by (unfold sub64; rewrite u64_small by (unfold fits; lia); lia).
    rewrite repr_run_end by lia. replace (q - 1 + 1) with q by lia.
    pose proof (wf_bound _ _ _ repr_wf (q - 1)). unfold add64. rewrite u64_small by (unfold fits; lia).
    f_equal. lia.
Qed.
End Reading.

(** ** Overwriting a slot of a run *)

Lemma runs_disjoint len q j p k :
  (forall q, 0 <= len q) -> 0 <= q -> 0 <= p -> 0 <= j < len q -> 0 <= k < len p ->
  run_start len q + j = run_start len p + k -> q = p /\ j = k.
Proof.
  intros P Hq Hp Hj Hk E. destruct (Z.lt_trichotomy q p) as [L|[->|L]]; [|lia|].
  - pose proof (runs_ordered len P q p). lia.
  - pose proof (runs_ordered len P p q). lia.
Qed.

Lemma run_used len q j : (forall q, 0 <= len q) -> 0 <= q -> 0 <= j < len q ->
  run_start len q + j < run_stop len (run_start len q + j).
Proof.
  intros P Hq Hj. apply used_iff; [exact P|unfold run_start; lia|]. exists q. lia.
Qed.

Lemma repr_set_slot qf runs q j v :
  repr qf runs -> 0 <= q -> (j < length (runs q))%nat -> fits (bps qf) v ->
  repr (set_slot qf (run_start (run_len runs) q + Z.of_nat j) v) (upd runs q (set_nth j v (runs q))).
Proof.
  intros R Hq Hj Hv. set (x := run_start (run_len runs) q + Z.of_nat j).
  pose proof (repr_width _ _ R) as Hw. assert (Hx : 0 <= x) by (unfold x, run_start; lia).
  destruct (contents_set_slot qf Hw x v Hx Hv) as [C1 C2 C3 C4]. cbn in *.
  assert (El : forall p, run_len runs p = run_len (upd runs q (set_nth j v (runs q))) p).
  { intros p. unfold run_len, upd. destruct (Z.eqb_spec p q) as [->|]; [now rewrite length_set_nth|reflexivity]. }
  destruct R as [[L1 L2 W] S F]. split.
  - split; [exact L1|exact L2|]. change (nblocks _) with (nblocks (metadata qf)).
    apply (wf_ext (view_of qf) _ _ (run_len runs)); auto.
    + intros b Hb. apply C3. lia.
    + intros p. unfold run_len. lia.
  - intros p k Hp Hk. assert (Hk' : (k < length (runs p))%nat).
    { pose proof (El p) as E. unfold run_len in E. lia. }
    rewrite <- (run_start_ext (run_len runs)) by (intros; apply El).
    rewrite C4 by (unfold run_start; lia). unfold upd at 1.
    destruct (Z.eqb_spec (run_start (run_len runs) p + Z.of_nat k) x) as [E|N].
    + destruct (runs_disjoint (run_len runs) p (Z.of_nat k) q (Z.of_nat j)) as [-> Ek];
        try (intros; unfold run_len); auto; try lia.
      unfold upd. rewrite Z.eqb_refl, nth_set_nth. replace k with j by lia. rewrite Nat.eqb_refl.
      destruct (Nat.ltb_spec j (length (runs q))); [reflexivity|lia].
    + rewrite S by auto. unfold upd. destruct (Z.eqb_spec p q) as [->|]; [|reflexivity].
      rewrite nth_set_nth. destruct (Nat.eqb_spec j k) as [->|]; [unfold x in N; lia|reflexivity].
  - intros y Hy Hs. rewrite C4 by exact Hy. unfold upd. destruct (Z.eqb_spec y x) as [->|].
    + exfalso. rewrite <- (run_stop_ext (run_len runs)) in Hs by (intros; apply El).
      pose proof (run_used (run_len runs) q (Z.of_nat j)) as U. unfold x in *.
      specialize (U ltac:(intros; unfold run_len; lia) Hq ltac:(unfold run_len; lia)). lia.
    + apply F; [exact Hy|]. rewrite (run_stop_ext _ (run_len (upd runs q (set_nth j v (runs q))))); auto.
Qed.

(** ** The empty filter *)

Lemma repr_empty qf :
  1 <= bps qf <= 56 -> 0 <= 64 * nblocks (metadata qf) < 2 ^ 62 -> blocks qf = 0 -> repr qf (fun _ => []).
Proof.
  intros Hb Hn B0. assert (Z0 : forall q, run_stop (run_len (fun _ => [])) q = 0).
  { intros q. unfold run_stop. induction (Z.to_nat (q + 1)) as [|n IH]; [reflexivity|exact IH]. }
  assert (G0 : forall i, get_slot qf i = 0).
  { intros i. unfold get_slot, load. rewrite B0, Z.shiftr_0_l. cbn [Z.land]. now rewrite Z.shiftr_0_l. }
  split.
  - split; [exact Hb|lia|]. split.
    + intros q. apply run_len_nonneg.
    + intros q _. cbn [v_occ view_of]. rewrite B0. apply Z.bits_0.
    + intros x _. cbn [v_run view_of]. rewrite B0, Z.bits_0. split; [discriminate|].
      intros (q & _ & E & _). unfold run_len in E. cbn in E. lia.
    + intros b Hb'. rewrite Z0. cbn [v_off view_of]. unfold get_offset, load.
      rewrite B0, Z.shiftr_0_l, Z.land_0_l, Z.max_l by lia. reflexivity.
    + intros q. rewrite Z0. lia.
  - intros q j _ Hj. cbn in Hj. lia.
  - intros x _ _. apply G0.
Qed.
