(* ===== verification/CounterIncrement.v ===== *)
(** * Incrementing a counter in place

    [insert1] increments the digits of an extended counter from the last one on, and
    prepends a slot when the counter grows.  On lists: the digits, last first, go
    through [increment_digits]; the result is the code word of the next count. *)

From S2P Require Import Prelude BitSeq RankSelect Blocks CounterCode Insert.
Import ListNotations.
#[local] Open Scope Z_scope.

(** The loop of [increment_counter] on the digits, the last first: the new digits, the
    last digit written, its carry, and how many digits were written. *)
Fixpoint increment_digits (w r : Z) (ds : list Z) : list Z * Z * Z * nat :=
  match ds with
  | [] => ([], 0, 0, O)
  | d :: t =>
    let '(d', c) := increment_digit w r d in
    match t with
    | [] => ([d'], d', c, 1%nat)
    | _ =>
      if c =? 0 then (d' :: t, d', c, 1%nat)
      else let '(t', digit, c', n) := increment_digits w r t in (d' :: t', digit, c', S n)
    end
  end.

Lemma increment_digits_length w r ds :
  let '(nds, _, _, n) := increment_digits w r ds in length nds = length ds /\ (n <= length ds)%nat.
Proof.
  induction ds as [|d t IH]; [split; reflexivity|]. cbn [increment_digits].
  destruct (increment_digit w r d) as [d' c]. destruct t as [|e t]; [split; reflexivity|].
  destruct (c =? 0); [cbn [length]; lia|]. destruct (increment_digits w r (e :: t)) as [[[? ?] ?] ?].
  cbn [length] in *. lia.
Qed.

(** The base of the digits of a remainder's counter. *)
Definition digit_base (w r : Z) : Z := if r =? 0 then 2 ^ w - 1 else 2 ^ w - 2.

Lemma digit_of_inj r x y : 0 <= r -> 0 <= x -> 0 <= y -> digit_of r x = digit_of r y -> x = y.
Proof. intros Hr Hx Hy E. rewrite <- (digit_of_value r x), <- (digit_of_value r y), E; auto. Qed.

Section Increment.
Context (w r : Z).
Hypothesis Hw : 2 <= w <= 56.
Hypothesis Hr : fits w r.
#[local] Abbreviation b := (digit_base w r).

Lemma base_bounds : 2 <= b /\ b + 1 <= 2 ^ w <= 2 ^ 56 /\ (r <> 0 -> b + 2 = 2 ^ w).
Proof. pose proof (width_facts w Hw). unfold digit_base. destruct (r =? 0) eqn:E; lia. Qed.

Lemma land_BITMASK x : 0 <= x < 2 ^ 63 -> ((x .& BITMASK w) = x mod 2 ^ w)%u64.
Proof. intros Hx. rewrite BITMASK_ones, Z.land_ones by lia. reflexivity. Qed.

(** Case analysis on the comparisons whose left side is computed. *)
#[local] Ltac split_pure :=
  match goal with
  | |- context [?a =? ?c] =>
    lazymatch a with
    | context [Z.land _ _] => fail
    | context [add64 _ _] => fail
    | context [if _ then _ else _] => fail
    | _ => destruct (Z.eqb_spec a c); try (exfalso; lia)
    end
  | |- context [?a <=? ?c] => destruct (Z.leb_spec a c); try (exfalso; lia)
  end.

(** A proper digit is incremented modulo the base. *)
Lemma increment_digit_spec x : 0 <= x < b ->
  increment_digit w r (digit_of r x)
  = (digit_of r ((x + 1) mod b), if x + 1 =? b then 1 else 0).
Proof.
  intros Hx. pose proof base_bounds as (B1 & B2 & B3). unfold fits in Hr.
  assert (P : 2 ^ 56 < 2 ^ 63 - 10) by reflexivity.
  assert (A : forall y, 0 <= y <= 2 ^ 56 + 1 -> add64 y 1 = y + 1)
    by (intros y Hy; unfold add64; apply u64_small; unfold fits; lia).
  pose proof (digit_of_bound r x ltac:(lia)) as D. pose proof (digit_of_ne r x ltac:(lia) ltac:(lia)) as N.
  unfold increment_digit. cbv zeta. destruct (Z.eqb_spec (digit_of r x) 0); [lia|].
  rewrite A, land_BITMASK by lia.
  (* the digit is below 2^w *)
  assert (D2 : digit_of r x <= 2 ^ w - 1).
  { unfold digit_of, digit_base in *. destruct (Z.eqb_spec r 0), (Z.leb_spec r (x + 1)); cbn [negb andb] in *; lia. }
  assert (M : forall y, 0 <= y <= 2 ^ w -> y mod 2 ^ w = if y =? 2 ^ w then 0 else y).
  { intros y Hy. destruct (Z.eqb_spec y (2 ^ w)) as [->|]; [apply Z.mod_same; lia|apply Z.mod_small; lia]. }
  rewrite M by lia.
  assert (E : (x + 1) mod b = if x + 1 =? b then 0 else x + 1).
  { destruct (Z.eqb_spec (x + 1) b) as [->|]; [apply Z.mod_same; lia|apply Z.mod_small; lia]. }
  rewrite E. clear E. revert B1 B2 B3 Hx D D2 N. unfold digit_of, digit_base.
  destruct (Z.eqb_spec r 0) as [E0|E0]; cbn [negb andb]; intros.
  - (* remainder zero *)
    replace r with 0 in * by lia.
    destruct (Z.eqb_spec (x + 1 + 1) (2 ^ w)), (Z.eqb_spec (x + 1) (2 ^ w - 1)); try lia.
    + cbn [Z.eqb]. rewrite A by lia. reflexivity.
    + split_cmps; reflexivity.
  - assert (Br : 1 <= r <= 2 ^ w - 1) by lia.
    destruct (Z.leb_spec r (x + 1));
      repeat first [rewrite A by lia | rewrite land_BITMASK by lia | rewrite M by lia | split_pure];
      try reflexivity; try (f_equal; lia).
Qed.

(** A leading zero becomes the digit one. *)
Lemma increment_digit_zero : 0 < r -> increment_digit w r 0 = (digit_of r 1, 0).
Proof.
  intros Hr0. pose proof base_bounds as (B1 & B2 & B3). unfold fits in Hr.
  assert (P : 2 ^ 56 < 2 ^ 63 - 10) by reflexivity.
  assert (A : forall y, 0 <= y <= 2 ^ 56 -> add64 y 1 = y + 1)
    by (intros y Hy; unfold add64; apply u64_small; unfold fits; lia).
  pose proof (width_facts w Hw) as W4.
  assert (M : forall y, 0 <= y < 2 ^ w -> (y .& BITMASK w = y)%u64)
    by (intros y Hy; rewrite land_BITMASK by lia; apply Z.mod_small; lia).
  unfold increment_digit. cbv zeta. cbn [Z.eqb]. change (add64 0 1) with 1.
  unfold digit_of. destruct (Z.eqb_spec 1 r) as [<-|].
  - change (add64 1 1) with 2. change (add64 2 1) with 3. rewrite M by lia. reflexivity.
  - change (add64 1 1) with 2. rewrite M by lia.
    repeat first [rewrite A by lia | rewrite M by lia | split_pure]; cbn [negb andb];
      try reflexivity; try (f_equal; lia).
Qed.

(** *** All the digits *)

Lemma digits_value_rev d t : digits_value b r (rev (d :: t)) 0 = digits_value b r (rev t) 0 * b + digit_value r d.
Proof. cbn [rev]. now rewrite digits_value_app. Qed.

Lemma increment_digits_snoc t z : t <> [] ->
  increment_digits w r (t ++ [z]) =
  let '(t', digit, c, n) := increment_digits w r t in
  if c =? 0 then (t' ++ [z], digit, c, n)
  else let '(z', c') := increment_digit w r z in (t' ++ [z'], z', c', S n).
Proof.
  induction t as [|d t IH]; [congruence|]. intros _. cbn [app increment_digits].
  destruct (increment_digit w r d) as [d' c]. destruct t as [|e t].
  - cbn [app increment_digits]. destruct (increment_digit w r z) as [z' c'].
    destruct (Z.eqb_spec c 0); reflexivity.
  - cbn [app]. destruct (Z.eqb_spec c 0) as [->|]; [reflexivity|].
    specialize (IH ltac:(discriminate)). cbn [app] in IH. rewrite IH.
    destruct (increment_digits w r (e :: t)) as [[[t' dg] c'] n'].
    destruct (Z.eqb_spec c' 0); [reflexivity|]. destruct (increment_digit w r z); reflexivity.
Qed.

(** The value goes up by one, modulo a carry out of the first digit; the first digit
    is written only if all are. *)
Lemma increment_digits_spec ds : Forall (is_digit b r) ds -> ds <> [] ->
  let '(ds', digit, c, n) := increment_digits w r ds in
  length ds' = length ds /\ Forall (is_digit b r) ds' /\ (1 <= n <= length ds)%nat
  /\ digits_value b r (rev ds') 0 + c * b ^ Z.of_nat (length ds) = digits_value b r (rev ds) 0 + 1
  /\ (n = length ds -> digit = last ds' 0)
  /\ (c = 0 /\ ((n < length ds)%nat -> last ds' 0 = last ds 0)
        /\ (n = length ds -> digit_value r (last ds' 0) = digit_value r (last ds 0) + 1)
      \/ c = 1 /\ n = length ds /\ digits_value b r (rev ds') 0 = 0 /\ digit_value r (last ds 0) = b - 1).
Proof.
  pose proof base_bounds as (B1 & B2 & B3).
  assert (Rr : 0 <= r) by apply Hr.
  induction ds as [|d t IH]; [congruence|]. intros HF _. inversion_clear HF as [|? ? Hd Ht].
  destruct Hd as (x & Hx & ->). cbn [increment_digits]. rewrite increment_digit_spec by exact Hx.
  pose proof (Z.mod_pos_bound (x + 1) b ltac:(lia)) as Hm.
  assert (Em : (x + 1) mod b = if x + 1 =? b then 0 else x + 1).
  { destruct (Z.eqb_spec (x + 1) b) as [->|]; [apply Z.mod_same; lia|apply Z.mod_small; lia]. }
  assert (Dm : is_digit b r (digit_of r ((x + 1) mod b))) by (eexists; split; [exact Hm|reflexivity]).
  assert (Vm : digit_value r (digit_of r ((x + 1) mod b)) = (x + 1) mod b) by (apply digit_of_value; lia).
  assert (Vx : digit_value r (digit_of r x) = x) by (apply digit_of_value; lia).
  destruct t as [|e t].
  - cbn [length last]. rewrite !digits_value_rev, Vm, Vx. cbn [rev].
    change (digits_value b r [] 0) with 0. change (Z.of_nat 1) with 1. rewrite Z.pow_1_r, Em.
    rewrite Em in Dm. repeat split; auto; try lia.
    + destruct (Z.eqb_spec (x + 1) b); lia.
    + destruct (Z.eqb_spec (x + 1) b); [right|left]; repeat split; lia.
  - destruct (Z.eqb_spec (x + 1) b) as [Eb|Eb]; cbn [Z.eqb].
    + specialize (IH Ht ltac:(discriminate)).
      destruct (increment_digits w r (e :: t)) as [[[t' dg] c'] n'].
      destruct IH as (L & F & N & V & D & C). rewrite !digits_value_rev, Vm, Vx, Em in *.
      assert (Nt : t' <> []) by (intros ->; discriminate).
      assert (La : forall y z, last (y :: t') z = last t' z) by (intros; destruct t'; [congruence|reflexivity]).
      change (last (digit_of r x :: e :: t) 0) with (last (e :: t) 0). rewrite La.
      cbn [length] in *. rewrite (Nat2Z.inj_succ (S (length t))), Z.pow_succ_r by lia.
      split; [lia|]. split; [auto|]. split; [lia|]. split; [nia|]. split; [intros; apply D; lia|].
      destruct C as [(-> & C1 & C2)|(-> & C1 & C2 & C3)]; [left|right].
      * split; [reflexivity|]. split; intros; [apply C1|apply C2]; lia.
      * repeat split; lia.
    + rewrite !digits_value_rev, Vm, Vx, Em. cbn [length].
      change (last (?y :: e :: t) 0) with (last (e :: t) 0).
      rewrite Em in Dm. repeat split; auto; try lia.
Qed.

Lemma is_digit_fits d : is_digit b r d -> fits w d.
Proof.
  intros (x & Hx & ->). pose proof base_bounds as (B1 & B2 & B3). unfold fits in *.
  unfold digit_of, digit_base in *. destruct (Z.eqb_spec r 0), (Z.leb_spec r (x + 1)); cbn [negb andb]; lia.
Qed.

(** *** The code word *)

(** What closes an extended counter. *)
Definition closing : list Z := if r =? 0 then [0; 0] else [r].

(** The new digits, in the order of the slots, and the slot to put before them. *)
Definition increment_slots (ds : list Z) : list Z * option Z :=
  let '(nds, digit, c, n) := increment_digits w r (rev ds) in
  (rev nds, if (n =? length ds)%nat && ((0 <? c) || negb (r =? 0) && (r <=? digit))
            then Some (if c =? 0 then 0 else 2) else None).

Lemma code_extended c ds : ds <> [] -> code w r c (r :: ds ++ closing) ->
  0 < r /\ c = 3 /\ ds = [0]
  \/ 3 < c /\ exists d t, (ds = d :: t /\ (0 < r -> d < r) /\ (0 < r \/ t <> [] -> 0 < digit_value r d)
                         \/ 0 < r /\ ds = 0 :: d :: t /\ r < d /\ 0 < digit_value r d)
      /\ Forall (is_digit b r) (d :: t) /\ digits_value b r (d :: t) 0 = c - (if r =? 0 then 4 else 3).
Proof.
  intros N. pose proof Hr as [Rr _]. unfold closing, digit_base. intros H.
  assert (T : forall z, [z] = ds ++ [z] -> False).
  { intros z E. apply (app_inv_tail [z] [] ds) in E. congruence. }
  assert (T2 : forall z x y, [z] = ds ++ [x; y] -> False).
  { intros z x y E. destruct ds as [|? [|? ?]]; discriminate. }
  destruct (Z.eqb_spec r 0) as [E0|E0];
    match type of H with code _ _ _ ?l => remember l as l0 eqn:El end;
    destruct H as [ | |E|E|c d t E D F V C P|c d t E D F V C P|c d t E F V C P]; try lia; apply (f_equal (@tl Z)) in El; cbn [tl app] in El;
    try (exfalso; eauto; fail).
  - destruct ds; discriminate.
  - destruct ds as [|? [|? [|? ?]]]; try discriminate. congruence.
  - right. split; [exact C|]. exists d, t. rewrite app_comm_cons in El. apply app_inv_tail in El as <-.
    split; [left; repeat split; [lia|]|]; rewrite ?E; auto. intros [|]; [lia|]. auto.
  - destruct ds; discriminate.
  - left. change [0; r] with ([0] ++ [r]) in El. apply app_inv_tail in El as <-. auto.
  - right. split; [exact C|]. exists d, t. rewrite app_comm_cons in El. apply app_inv_tail in El as <-.
    split; [left; repeat split|]; auto.
  - right. split; [exact C|]. exists d, t. rewrite !app_comm_cons in El. apply app_inv_tail in El as <-.
    split; [right; repeat split|]; auto.
Qed.

(** Incrementing gives the code word of the next count. *)
Definition incremented (c : Z) (ds : list Z) : Prop :=
  let '(ds', p) := increment_slots ds in
  length ds' = length ds /\ Forall (fits w) ds'
  /\ (forall v, p = Some v -> fits w v)
  /\ code w r (c + 1) (r :: match p with Some v => v :: ds' | None => ds' end ++ closing).

Lemma digits_value_shift ds c :
  digits_value b r ds c = c * b ^ Z.of_nat (length ds) + digits_value b r ds 0.
Proof.
  revert c. induction ds as [|x ds IH]; intros c; [unfold digits_value; cbn; lia|].
  unfold digits_value in *. cbn [fold_left length]. rewrite (IH (c * b + _)), (IH (0 * b + _)).
  rewrite Nat2Z.inj_succ, Z.pow_succ_r by lia. ring.
Qed.

(** The two forms of the code word of digits that start with [d]. *)
Lemma code_digits c d t :
  3 < c -> (r <> 0 -> d < r) -> (r <> 0 \/ t <> [] -> 0 < digit_value r d) -> Forall (is_digit b r) (d :: t) ->
  digits_value b r (d :: t) 0 = c - (if r =? 0 then 4 else 3) ->
  code w r c (r :: (d :: t) ++ closing).
Proof.
  intros C D P F V. pose proof Hr as [Rr _]. unfold closing, digit_base in *. destruct (Z.eqb_spec r 0) as [E|E].
  - rewrite E in *. apply code_zero; auto.
  - apply code_n; auto. lia.
Qed.

Lemma code_leading c d t :
  3 < c -> 0 < r < d -> 0 < digit_value r d -> Forall (is_digit b r) (d :: t) ->
  digits_value b r (d :: t) 0 = c - (if r =? 0 then 4 else 3) ->
  code w r c (r :: (0 :: d :: t) ++ closing).
Proof.
  intros C D P F V. unfold closing, digit_base in *. destruct (Z.eqb_spec r 0) as [E|E]; [lia|].
  apply code_n0; auto; lia.
Qed.

#[local] Ltac side := auto; try lia; destruct (Z.eqb_spec r 0); lia.

Lemma incremented_three : 0 < r -> incremented 3 [0].
Proof.
  intros R0. pose proof base_bounds as (B1 & B2 & B3).
  unfold incremented, increment_slots. cbn [rev app increment_digits length].
  rewrite increment_digit_zero by exact R0. pose proof (digit_of_ne r 1 ltac:(lia) ltac:(lia)) as [D1 D2].
  assert (Fd : Forall (is_digit b r) [digit_of r 1]).
  { constructor; [|constructor]. exists 1. lia. }
  assert (Vd : digit_value r (digit_of r 1) = 1) by (apply digit_of_value; lia).
  assert (Vl : digits_value b r [digit_of r 1] 0 = 3 + 1 - (if r =? 0 then 4 else 3)).
  { unfold digits_value. cbn [fold_left]. destruct (Z.eqb_spec r 0); lia. }
  pose proof (is_digit_fits _ (Forall_inv Fd)) as Ff. unfold fits in *.
  cbn [rev app Nat.eqb Z.ltb Z.compare orb Z.eqb].
  destruct (Z.eqb_spec r 0) as [|_]; [lia|]. cbn [negb andb].
  split; [reflexivity|]. split; [auto|]. destruct (Z.leb_spec r (digit_of r 1)).
  - split; [intros v [= <-]; lia|]. apply (code_leading 4); side.
  - split; [discriminate|]. apply (code_digits 4); side.
Qed.

(** What the loop does to digits that start with [d]. *)
Lemma increment_first d t : Forall (is_digit b r) (d :: t) ->
  exists d' t' dg c n, increment_digits w r (rev (d :: t)) = (rev (d' :: t'), dg, c, n)
    /\ length t' = length t /\ Forall (is_digit b r) (d' :: t') /\ (1 <= n <= S (length t))%nat
    /\ digits_value b r (d' :: t') 0 + c * b ^ Z.of_nat (S (length t)) = digits_value b r (d :: t) 0 + 1
    /\ (c = 0 /\ (n = S (length t) -> dg = d' /\ digit_value r d' = digit_value r d + 1)
          /\ ((n < S (length t))%nat -> d' = d)
        \/ c = 1 /\ n = S (length t) /\ digits_value b r (d' :: t') 0 = 0 /\ digit_value r d = b - 1).
Proof.
  intros F. assert (Nr : rev (d :: t) <> []).
  { intros E. apply (f_equal (@length Z)) in E. rewrite length_rev in E. discriminate. }
  pose proof (increment_digits_spec (rev (d :: t)) (Forall_rev F) Nr) as I.
  destruct (increment_digits w r (rev (d :: t))) as [[[nds dg] cr] n].
  rewrite length_rev, rev_involutive in I. destruct I as (L & Fn & Ln & Vn & Dn & C).
  apply Forall_rev in Fn. assert (Ld : last (rev (d :: t)) 0 = d) by (cbn [rev]; apply last_last).
  rewrite Ld in C. rewrite <- (rev_involutive nds) in L, Dn, C |- *.
  destruct (rev nds) as [|d' t'] eqn:En; [cbn in L; discriminate|].
  assert (La : last (rev (d' :: t')) 0 = d') by (cbn [rev]; apply last_last).
  rewrite La, ?rev_involutive in *. rewrite length_rev in L. cbn [length] in *.
  exists d', t', dg, cr, n. split; [reflexivity|]. split; [lia|]. split; [exact Fn|]. split; [exact Ln|].
  split; [exact Vn|]. destruct C as [(-> & C1 & C2)|C]; [left; auto|right; exact C].
Qed.

Lemma incremented_digits c d t :
  3 < c -> (0 < r -> d < r) -> (0 < r \/ t <> [] -> 0 < digit_value r d) -> Forall (is_digit b r) (d :: t) ->
  digits_value b r (d :: t) 0 = c - (if r =? 0 then 4 else 3) -> incremented c (d :: t).
Proof.
  intros C3 D P F V. pose proof base_bounds as (B1 & B2 & B3). pose proof Hr as [Rr _].
  destruct (increment_first d t F) as (d' & t' & dg & cr & n & E & L & Fn & Ln & Vn & C).
  unfold incremented, increment_slots. rewrite E, rev_involutive, V in *. cbn [length].
  split; [lia|]. split; [eapply Forall_impl; [apply is_digit_fits|exact Fn]|].
  pose proof (is_digit_facts _ r d' Rr (Forall_inv Fn)) as (G1 & G2 & G3 & _).
  pose proof (is_digit_facts _ r d Rr (Forall_inv F)) as (K1 & K2 & K3 & K4).
  assert (Tn : t' <> [] -> t <> []) by (destruct t, t'; cbn in L; congruence).
  destruct C as [(-> & C1 & C2)|(-> & -> & C2 & C3')].
  - destruct (Nat.eqb_spec n (S (length t))) as [En|En]; cbn [Z.ltb Z.compare orb andb Z.eqb].
    + destruct (C1 En) as [-> Vd]. destruct (Z.eqb_spec r 0); cbn [negb andb].
      * split; [discriminate|]. apply code_digits; side.
      * destruct (Z.leb_spec r d'); [split; [intros v [= <-]; unfold fits; lia|]; apply code_leading; side|].
        split; [discriminate|]. apply code_digits; side.
    + specialize (C2 ltac:(lia)). subst d'. split; [discriminate|].
      apply code_digits; auto; [lia|intros; apply D; lia|intros [|]; apply P; [left; lia|right; auto]|lia].
  - (* the digits wrapped: the largest digit is below the remainder *)
    rewrite Nat.eqb_refl. cbn [Z.ltb Z.compare orb andb Z.eqb].
    assert (Two : digit_of r 1 = 2 /\ (r <> 0 -> 2 < r)).
    { pose proof (width_facts w Hw). unfold fits in Hr. rewrite C3' in K4. unfold digit_of, digit_base in *.
      destruct (Z.eqb_spec r 0) as [E0|E0]; cbn [negb andb] in *; [split; [reflexivity|lia]|].
      pose proof (D ltac:(lia)). destruct (Z.leb_spec r (2 ^ w - 2 - 1 + 1)); [lia|].
      assert (r = 2 ^ w - 1) by lia. destruct (Z.leb_spec r (1 + 1)); lia. }
    destruct Two as [T1 T2]. assert (Vd2 : digit_value r 2 = 1) by (rewrite <- T1; apply digit_of_value; lia).
    split; [intros v [= <-]; unfold fits; pose proof (width_facts w Hw); lia|].
    apply (code_digits (c + 1) 2 (d' :: t')); auto; [lia|lia|constructor; [exists 1; lia|exact Fn]|].
    change (digits_value b r (2 :: d' :: t') 0) with (digits_value b r (d' :: t') (0 * b + digit_value r 2)).
    rewrite digits_value_shift, C2, Vd2. cbn [length]. rewrite L. lia.
Qed.

Lemma incremented_leading c d t :
  3 < c -> 0 < r < d -> 0 < digit_value r d -> Forall (is_digit b r) (d :: t) ->
  digits_value b r (d :: t) 0 = c - (if r =? 0 then 4 else 3) -> incremented c (0 :: d :: t).
Proof.
  intros C3 D P F V. pose proof base_bounds as (B1 & B2 & B3). pose proof Hr as [Rr _].
  destruct (increment_first d t F) as (d' & t' & dg & cr & n & E & L & Fn & Ln & Vn & C).
  unfold incremented, increment_slots.
  change (rev (0 :: d :: t)) with (rev (d :: t) ++ [0]).
  rewrite increment_digits_snoc, E, V in * by (cbn [rev]; destruct (rev t); discriminate).
  pose proof (is_digit_facts _ r d' Rr (Forall_inv Fn)) as (G1 & G2 & G3 & G4).
  pose proof (is_digit_facts _ r d Rr (Forall_inv F)) as (K1 & K2 & K3 & K4).
  assert (Ff : Forall (fits w) (d' :: t')) by (eapply Forall_impl; [apply is_digit_fits|exact Fn]).
  destruct C as [(-> & C1 & C2)|(-> & -> & C2 & C3')]; cbn [Z.eqb].
  - (* no carry: the zero stays *)
    change (rev (d' :: t') ++ [0]) with (rev (0 :: d' :: t')). rewrite rev_involutive. cbn [length].
    destruct (Nat.eqb_spec n (S (S (length t)))); [lia|]. cbn [andb].
    split; [lia|]. split; [constructor; [unfold fits; lia|exact Ff]|]. split; [discriminate|].
    assert (Dm : r < d' /\ 0 < digit_value r d').
    { destruct (Nat.eq_dec n (S (length t))) as [En|En]; [|rewrite (C2 ltac:(lia)); lia].
      destruct (C1 En) as [_ Vd]. split; [|lia]. rewrite Vd in G4. clear - K4 G4 D Rr K3.
      unfold digit_of in *. destruct (Z.eqb_spec r 0), (Z.leb_spec r (digit_value r d + 1)),
        (Z.leb_spec r (digit_value r d + 1 + 1)); cbn [negb andb] in *; lia. }
    apply code_leading; side.
  - (* the carry makes the zero a digit *)
    cbn [length]. rewrite increment_digit_zero, Nat.eqb_refl by lia.
    change (rev (d' :: t') ++ [digit_of r 1]) with (rev (digit_of r 1 :: d' :: t')). rewrite rev_involutive.
    pose proof (digit_of_ne r 1 Rr ltac:(lia)) as [D1 D2].
    assert (Vd : digit_value r (digit_of r 1) = 1) by (apply digit_of_value; lia).
    assert (F1 : Forall (is_digit b r) (digit_of r 1 :: d' :: t')) by (constructor; [exists 1; lia|exact Fn]).
    assert (V1 : digits_value b r (digit_of r 1 :: d' :: t') 0 = c + 1 - (if r =? 0 then 4 else 3)).
    { change (digits_value b r (digit_of r 1 :: d' :: t') 0)
        with (digits_value b r (d' :: t') (0 * b + digit_value r (digit_of r 1))).
      rewrite digits_value_shift, C2, Vd. cbn [length]. rewrite L. lia. }
    split; [cbn [length]; lia|]. split; [eapply Forall_impl; [apply is_digit_fits|exact F1]|].
    cbn [Z.ltb Z.compare orb andb Z.eqb]. destruct (Z.eqb_spec r 0); [lia|]. cbn [negb andb].
    destruct (Z.leb_spec r (digit_of r 1)).
    + split; [intros v [= <-]; unfold fits; lia|]. apply code_leading; side.
    + split; [discriminate|]. apply code_digits; side.
Qed.

Lemma increment_code c ds : ds <> [] -> code w r c (r :: ds ++ closing) -> incremented c ds.
Proof.
  intros N H. destruct (code_extended c ds N H) as [(R0 & -> & ->)|(C3 & d & t & [(-> & D & P)|(R0 & -> & D & P)] & F & V)].
  - now apply incremented_three.
  - now apply incremented_digits.
  - apply incremented_leading; auto; lia.
Qed.
End Increment.
