(* ===== verification/InsertSlot.v ===== *)
(** * Inserting one slot into a run

    The runs from the insertion point up to the first empty slot move up by one slot;
    the metadata change accordingly.  This is what [insert1] does to the blocks, first
    on the layout, then on the buffer. *)

From S2P Require Import Prelude BitSeq RankSelect Blocks BlockBits Shifting Layout Locks CounterCode Insert Repr.
From Stdlib Require Import Morphisms Setoid.
Import ListNotations.
#[local] Open Scope Z_scope.

(** ** The layout *)

Section Grow.
(** Bucket [q], whose home slot is used, gets one more slot; [e] is the first empty
    slot after it. *)
Context (len : Z -> Z) (q e : Z).
Hypothesis len_nonneg : forall p, 0 <= len p.
Hypothesis q_nonneg : 0 <= q.
Hypothesis e_free : run_stop len e <= e.
Hypothesis q_used : forall y, q <= y < e -> y < run_stop len y.
Hypothesis q_lt_e : q < e.

Definition grown (p : Z) : Z := if p =? q then len q + 1 else len p.

#[local] Abbreviation stop := (run_stop len).
#[local] Abbreviation stop' := (run_stop grown).
#[local] Abbreviation start := (run_start len).
#[local] Abbreviation start' := (run_start grown).

Lemma grown_nonneg p : 0 <= grown p.
Proof. unfold grown. pose proof (len_nonneg q). pose proof (len_nonneg p). destruct (p =? q); lia. Qed.

Lemma grown_other p : p <> q -> grown p = len p.
Proof. intros H. unfold grown. destruct (Z.eqb_spec p q); [lia|reflexivity]. Qed.

Lemma grown_same : grown q = len q + 1.
Proof. unfold grown. now rewrite Z.eqb_refl. Qed.

Lemma stop_below p : p < q -> stop' p = stop p.
Proof. intros H. symmetry. apply run_stop_ext. intros x Hx. symmetry. apply grown_other. lia. Qed.

Lemma stop_q_e : q < stop q <= e.
Proof. split; [apply q_used; lia|]. pose proof (run_stop_mono len len_nonneg q e). lia. Qed.

Lemma start_q_stop : start q + len q = stop q.
Proof.
  rewrite (run_stop_step len q) by lia. unfold run_start.
  destruct (Z.eqb_spec (len q) 0) as [E|]; [|reflexivity].
  pose proof stop_q_e as Q. rewrite run_stop_empty in Q by exact E. lia.
Qed.

Lemma stop_above n : let p := q + Z.of_nat n in stop' p = if stop p <=? e then stop p + 1 else stop p.
Proof.
  cbv zeta. induction n as [|n IH].
  - rewrite Z.add_0_r. pose proof stop_q_e. pose proof start_q_stop as S.
    rewrite (run_stop_full grown q) by (rewrite ?grown_same; try lia; pose proof (len_nonneg q); lia).
    unfold run_start in *. rewrite stop_below by lia. rewrite grown_same.
    destruct (Z.leb_spec (stop q) e); lia.
  - replace (q + Z.of_nat (S n)) with (q + Z.of_nat n + 1) by lia.
    set (p := q + Z.of_nat n) in *. rewrite (run_stop_step grown (p + 1)), (run_stop_step len (p + 1)) by lia.
    rewrite grown_other by lia. unfold run_start. replace (p + 1 - 1) with p by lia. rewrite IH. clear IH.
    pose proof (len_nonneg (p + 1)) as Ln. destruct (Z.eqb_spec (len (p + 1)) 0) as [E|E]; [reflexivity|].
    pose proof (run_stop_full len (p + 1) ltac:(lia) E) as F. unfold run_start in F.
    replace (p + 1 - 1) with p in F by lia.
    destruct (Z.leb_spec (stop p) e) as [L|L].
    + destruct (Z.le_gt_cases (p + 1) (stop p)).
      * pose proof (run_stop_mono len len_nonneg (p + 1) e).
        destruct (Z.leb_spec (Z.max (p + 1) (stop p) + len (p + 1)) e); lia.
      * pose proof (q_used p).
        destruct (Z.leb_spec (Z.max (p + 1) (stop p) + len (p + 1)) e); lia.
    + destruct (Z.leb_spec (Z.max (p + 1) (stop p) + len (p + 1)) e); lia.
Qed.

Lemma stop_grown p : q <= p -> stop' p = if stop p <=? e then stop p + 1 else stop p.
Proof. intros H. pose proof (stop_above (Z.to_nat (p - q))) as S. replace (q + Z.of_nat (Z.to_nat (p - q))) with p in S by lia. exact S. Qed.

Lemma stop_grown_q : stop' q = stop q + 1.
Proof. rewrite stop_grown by lia. pose proof stop_q_e. destruct (Z.leb_spec (stop q) e); lia. Qed.

Lemma start_grown_q : start' q = start q.
Proof. unfold run_start. now rewrite stop_below by lia. Qed.

Lemma stop_lt p r : p < r -> 0 <= r -> len r <> 0 -> Z.max (p + 1) (stop p) < stop r.
Proof.
  intros H Hr E. rewrite (run_stop_full len r) by auto. unfold run_start.
  pose proof (run_stop_mono len len_nonneg p (r - 1)). pose proof (len_nonneg r). lia.
Qed.

(** Slot [e] ends no run. *)
Lemma e_no_end p : 0 <= p -> len p <> 0 -> stop p <> e + 1.
Proof.
  intros Hp E H. pose proof (len_nonneg p). rewrite run_stop_full in H by auto.
  assert (U : used len e) by (exists p; lia).
  apply used_iff in U; [lia|exact len_nonneg|lia].
Qed.

(** The run of a later bucket moves up by one if it lies before [e]. *)
Lemma start_grown p : q < p -> len p <> 0 -> start' p = if stop p <=? e then start p + 1 else start p.
Proof.
  intros H E. pose proof (stop_grown p ltac:(lia)) as S.
  rewrite (run_stop_full grown p) in S by (rewrite ?grown_other; auto; lia).
  pose proof (run_stop_full len p ltac:(lia) E). rewrite grown_other in S by lia.
  destruct (stop p <=? e); lia.
Qed.

(** *** The metadata *)

Definition grown_run (run : Z -> bool) (x : Z) : bool :=
  (x =? stop q) || (x <? start q) && run x
  || (stop q <? x) && (if x <=? e then run (x - 1) else run x).

Lemma grown_run_spec (run : Z -> bool) :
  (forall x, 0 <= x -> run x = true <-> exists p, 0 <= p /\ len p <> 0 /\ stop p = x + 1) ->
  forall x, 0 <= x -> grown_run run x = true <-> exists p, 0 <= p /\ grown p <> 0 /\ stop' p = x + 1.
Proof.
  intros R x Hx. unfold grown_run. rewrite !orb_true_iff, !andb_true_iff, Z.eqb_eq, !Z.ltb_lt.
  pose proof stop_q_e as Q. pose proof start_q_stop as SQ. pose proof (len_nonneg q) as Lq.
  pose proof (run_stop_mono len len_nonneg) as Mono. split.
  - intros [[->|[H1 H2]]|[H1 H2]].
    + exists q. rewrite grown_same, stop_grown_q. lia.
    + apply R in H2 as (p & Hp & E & S); [|lia]. assert (p < q).
      { destruct (Z.lt_ge_cases p q); [assumption|]. destruct (Z.eq_dec p q) as [->|]; [lia|].
        pose proof (stop_lt (q - 1) p ltac:(lia) Hp E). unfold run_start in H1. lia. }
      exists p. rewrite grown_other, stop_below by lia. auto.
    + destruct (Z.leb_spec x e).
      * apply R in H2 as (p & Hp & E & S); [|lia]. assert (q < p).
        { destruct (Z.lt_ge_cases q p); [assumption|]. pose proof (Mono p q). lia. }
        exists p. rewrite grown_other, stop_grown by lia. destruct (Z.leb_spec (stop p) e); [|lia].
        repeat split; auto; lia.
      * apply R in H2 as (p & Hp & E & S); [|lia]. assert (q < p).
        { destruct (Z.lt_ge_cases q p); [assumption|]. pose proof (Mono p q). lia. }
        exists p. rewrite grown_other, stop_grown by lia. destruct (Z.leb_spec (stop p) e); [lia|]. auto.
  - intros (p & Hp & E & S). destruct (Z.lt_trichotomy p q) as [L|[->|L]].
    + rewrite grown_other in E by lia. rewrite stop_below in S by lia. left. right.
      pose proof (Mono p (q - 1)). split; [unfold run_start; lia|]. apply R; [lia|]. exists p. auto.
    + rewrite stop_grown_q in S. left. left. lia.
    + rewrite grown_other in E by lia. rewrite stop_grown in S by lia. right.
      pose proof (stop_lt q p L Hp E). pose proof (e_no_end p Hp E).
      destruct (Z.leb_spec (stop p) e).
      * split; [lia|]. destruct (Z.leb_spec x e); [|lia]. apply R; [lia|]. exists p. repeat split; auto; lia.
      * split; [lia|]. destruct (Z.leb_spec x e); [lia|]. apply R; [lia|]. exists p. auto.
Qed.

Lemma grown_off b :
  0 <= b -> Z.max 0 (stop' (64 * b - 1) - 64 * b) =
  Z.max 0 (stop (64 * b - 1) - 64 * b) + (if (q / 64 <? b) && (b <=? e / 64) then 1 else 0).
Proof.
  intros Hb. pose proof (Z.div_mod q 64). pose proof (Z.mod_pos_bound q 64).
  pose proof (Z.div_mod e 64). pose proof (Z.mod_pos_bound e 64).
  destruct (Z.ltb_spec (q / 64) b); cbn [andb].
  - rewrite stop_grown by lia. destruct (Z.leb_spec b (e / 64)).
    + pose proof (q_used (64 * b - 1)). pose proof (run_stop_mono len len_nonneg (64 * b - 1) e).
      destruct (Z.leb_spec (stop (64 * b - 1)) e); lia.
    + destruct (Z.leb_spec (stop (64 * b - 1)) e); lia.
  - rewrite stop_below by lia. lia.
Qed.

Lemma grown_bound nb : e < 64 * nb -> (forall p, stop p <= 64 * nb) -> forall p, stop' p <= 64 * nb.
Proof.
  intros He H p. specialize (H p). destruct (Z.lt_ge_cases p q); [now rewrite stop_below|].
  rewrite stop_grown by lia. destruct (Z.leb_spec (stop p) e); lia.
Qed.

(** The view after the insertion. *)
Lemma wf_grown v v' nb :
  wf v nb len -> e < 64 * nb ->
  (forall x, 0 <= x -> v_occ v' x = if x =? q then true else v_occ v x) ->
  (forall x, 0 <= x -> v_run v' x = grown_run (v_run v) x) ->
  (forall b, 0 <= b < nb -> v_off v' b = v_off v b + (if (q / 64 <? b) && (b <=? e / 64) then 1 else 0)) ->
  wf v' nb grown.
Proof.
  intros W He Ho Hr Hf. split.
  - apply grown_nonneg.
  - intros p Hp. rewrite Ho by exact Hp. destruct (Z.eqb_spec p q) as [->|].
    + rewrite grown_same. pose proof (len_nonneg q). destruct (Z.eqb_spec (len q + 1) 0); [lia|reflexivity].
    + rewrite grown_other by lia. apply (wf_occ _ _ _ W). exact Hp.
  - intros x Hx. rewrite Hr by exact Hx. apply grown_run_spec; [|exact Hx]. apply (wf_run _ _ _ W).
  - intros b Hb. rewrite Hf, (wf_off _ _ _ W), grown_off by lia. reflexivity.
  - apply grown_bound; [exact He|]. apply (wf_bound _ _ _ W).
Qed.
End Grow.

(** The same for a bucket whose home slot is free: its run is that one slot. *)
Section Place.
Context (len : Z -> Z) (q : Z).
Hypothesis len_nonneg : forall p, 0 <= len p.
Hypothesis q_nonneg : 0 <= q.
Hypothesis q_free : run_stop len q <= q.

#[local] Abbreviation stop := (run_stop len).
#[local] Abbreviation stop' := (run_stop (grown len q)).

Lemma free_empty : len q = 0.
Proof.
  destruct (Z.eq_dec (len q) 0) as [|E]; [assumption|]. pose proof (len_nonneg q).
  rewrite run_stop_full in q_free by assumption. unfold run_start in q_free. lia.
Qed.

Lemma place_above n : let p := q + Z.of_nat n in stop' p = Z.max (q + 1) (stop p).
Proof.
  cbv zeta. pose proof free_empty as E0. induction n as [|n IH].
  - rewrite Z.add_0_r, (run_stop_full (grown len q) q) by (rewrite ?grown_same; lia).
    rewrite grown_same. unfold run_start. rewrite stop_below by lia.
    pose proof (run_stop_bounds len len_nonneg q). lia.
  - replace (q + Z.of_nat (S n)) with (q + Z.of_nat n + 1) by lia. set (p := q + Z.of_nat n) in *.
    rewrite (run_stop_step (grown len q) (p + 1)), (run_stop_step len (p + 1)) by lia.
    rewrite grown_other by lia. unfold run_start. replace (p + 1 - 1) with p by lia.
    pose proof (len_nonneg (p + 1)). destruct (Z.eqb_spec (len (p + 1)) 0); lia.
Qed.

Lemma stop_place p : q <= p -> stop' p = Z.max (q + 1) (stop p).
Proof.
  intros H. pose proof (place_above (Z.to_nat (p - q))) as S.
  now replace (q + Z.of_nat (Z.to_nat (p - q))) with p in S by lia.
Qed.

Lemma start_place p : len p <> 0 -> run_start (grown len q) p = run_start len p.
Proof.
  intros E. unfold run_start. pose proof free_empty.
  destruct (Z.lt_ge_cases p q); [now rewrite stop_below by lia|]. assert (p <> q) by congruence.
  rewrite stop_place by lia. lia.
Qed.

Lemma wf_place v v' nb :
  wf v nb len -> q < 64 * nb ->
  (forall x, 0 <= x -> v_occ v' x = if x =? q then true else v_occ v x) ->
  (forall x, 0 <= x -> v_run v' x = if x =? q then true else v_run v x) ->
  (forall b, 0 <= b < nb -> v_off v' b = v_off v b) ->
  wf v' nb (grown len q).
Proof.
  intros W Hq Ho Hr Hf. pose proof free_empty as E0. split.
  - apply grown_nonneg. exact len_nonneg.
  - intros p Hp. rewrite Ho by exact Hp. unfold grown. destruct (Z.eqb_spec p q); [now rewrite E0|].
    apply (wf_occ _ _ _ W). exact Hp.
  - intros x Hx. rewrite Hr by exact Hx. destruct (Z.eqb_spec x q) as [->|N].
    + split; [intros _|reflexivity]. exists q. rewrite grown_same, stop_place by lia. lia.
    + rewrite (wf_run _ _ _ W) by exact Hx. split; intros (p & Hp & E & Es); exists p; (split; [exact Hp|]).
      * assert (p <> q) by congruence. rewrite grown_other by assumption. split; [exact E|].
        destruct (Z.lt_ge_cases p q); [now rewrite stop_below by lia|].
        rewrite stop_place by lia. pose proof (stop_after v nb len W q p ltac:(lia) ltac:(lia) E). lia.
      * destruct (Z.eq_dec p q) as [->|]; [rewrite stop_place in Es by lia; lia|].
        rewrite grown_other in E by assumption. split; [exact E|].
        destruct (Z.lt_ge_cases p q); [now rewrite stop_below in Es by lia|].
        rewrite stop_place in Es by lia. lia.
  - intros b Hb. rewrite Hf, (wf_off _ _ _ W) by exact Hb.
    destruct (Z.lt_ge_cases (64 * b - 1) q); [now rewrite stop_below by lia|].
    rewrite stop_place by lia. lia.
  - intros p. pose proof (wf_bound _ _ _ W p). destruct (Z.lt_ge_cases p q); [now rewrite stop_below by lia|].
    rewrite stop_place by lia. lia.
Qed.
End Place.

(** ** The filter *)

Definition insert_at {A : Type} (j : nat) (x : A) (l : list A) : list A := firstn j l ++ x :: skipn j l.

Lemma length_insert_at {A : Type} j (x : A) l : length (insert_at j x l) = S (length l).
Proof.
  unfold insert_at. rewrite length_app, length_firstn. cbn [length]. rewrite length_skipn. lia.
Qed.

Lemma nth_insert_at {A : Type} j k (x d : A) l : (j <= length l)%nat ->
  nth k (insert_at j x l) d =
  if (k <? j)%nat then nth k l d else if (k =? j)%nat then x else nth (k - 1) l d.
Proof.
  intros Hj. unfold insert_at. assert (L : length (firstn j l) = j) by (rewrite length_firstn; lia).
  destruct (Nat.ltb_spec k j).
  - rewrite app_nth1 by lia. rewrite nth_firstn. destruct (Nat.ltb_spec k j); [reflexivity|lia].
  - rewrite app_nth2, L by lia. destruct (Nat.eqb_spec k j) as [->|]; [now rewrite Nat.sub_diag|].
    destruct (k - j)%nat as [|m] eqn:Em; [lia|]. cbn [nth]. rewrite nth_skipn. f_equal. lia.
Qed.

Lemma insert_at_app {A : Type} (x : A) l l' : insert_at (length l) x (l ++ l') = l ++ x :: l'.
Proof. unfold insert_at. rewrite firstn_app, Nat.sub_diag, firstn_all, skipn_app, skipn_all, Nat.sub_diag. now rewrite app_nil_r. Qed.

Lemma run_len_insert runs q j v p :
  run_len (upd runs q (insert_at j v (runs q))) p = grown (run_len runs) q p.
Proof.
  unfold run_len, grown, upd. destruct (Z.eqb_spec p q) as [->|]; [rewrite length_insert_at; lia|reflexivity].
Qed.

Section Open.
Context (qf qf' : QF) (runs : Z -> list Z) (q : Z) (j : nat) (v : Z).
Hypothesis R : repr qf runs.
Hypothesis Hq : 0 <= q.
Hypothesis Hbps : bps qf' = bps qf.
Hypothesis Hnb : nblocks (metadata qf') = nblocks (metadata qf).
Hypothesis Hj : (j <= length (runs q))%nat.

#[local] Abbreviation len := (run_len runs).
#[local] Abbreviation stop := (run_stop len).
#[local] Abbreviation start := (run_start len).
#[local] Abbreviation runs' := (upd runs q (insert_at j v (runs q))).
#[local] Abbreviation c := (contents_of qf).

Let ln : forall p, 0 <= len p := run_len_nonneg runs.

Lemma nth_runs' p k : nth k (runs' p) 0 =
  if p =? q then if (k <? j)%nat then nth k (runs q) 0 else if (k =? j)%nat then v else nth (k - 1) (runs q) 0
  else nth k (runs p) 0.
Proof. unfold upd. destruct (Z.eqb_spec p q); [now apply nth_insert_at|reflexivity]. Qed.

Lemma stop_runs' p : run_stop (run_len runs') p = run_stop (grown len q) p.
Proof. apply run_stop_ext. intros; apply run_len_insert. Qed.

Lemma start_runs' p : run_start (run_len runs') p = run_start (grown len q) p.
Proof. apply run_start_ext. intros; apply run_len_insert. Qed.

Lemma runs'_len p k : (k < length (runs' p))%nat -> Z.of_nat k < grown len q p.
Proof. rewrite <- (run_len_insert runs q j v p). unfold run_len. lia. Qed.

(** A slot more in the run of a bucket whose home slot is used; [e] is the first
    empty slot. *)
Lemma repr_open e :
  stop e <= e -> (forall y, q <= y < e -> y < stop y) -> q < e -> e < 64 * nblocks (metadata qf) ->
  ceq (contents_of qf')
    (mk_contents (upd (c_occ c) q true) (grown_run len q e (c_run c))
       (fun b => c_off c b + (if (q / 64 <? b) && (b <=? e / 64) then 1 else 0))
       (open_gap (c_slot c) (start q + Z.of_nat j) e v)) ->
  repr qf' runs'.
Proof.
  intros He Hu Hqe Hen [C1 C2 C3 C4]. cbn in *. pose proof (repr_wf _ _ R) as W.
  pose proof (stop_q_e len q e ln He Hu Hqe) as Q.
  pose proof (start_q_stop len q e ln Hq He Hu Hqe) as SQ.
  assert (Lq : len q = Z.of_nat (length (runs q))) by reflexivity.
  pose proof (run_stop_mono len ln) as Mono. destruct R as [[L1 L2 _] S F].
  assert (W' : wf (view_of qf') (nblocks (metadata qf')) (grown len q)).
  { rewrite Hnb. apply (wf_grown len q e ln Hq He Hu Hqe (view_of qf)); auto.
    intros b Hb. apply C3. lia. }
  assert (Hs0 : 0 <= start q) by (unfold run_start; lia).
  split.
  - split; [now rewrite Hbps|now rewrite Hnb|].
    apply (wf_ext (view_of qf') _ _ (grown len q)); auto.
    + intros p Hp. symmetry. apply run_len_insert.
    + intros p. unfold run_len. lia.
  - intros p k Hp Hk. pose proof (runs'_len p k Hk) as Hk'. rewrite start_runs', nth_runs'.
    assert (0 <= run_start (grown len q) p) by (unfold run_start; lia).
    rewrite C4 by lia. unfold open_gap.
    destruct (Z.eqb_spec p q) as [->|N].
    + rewrite start_grown_q. rewrite grown_same in Hk'.
      destruct (Nat.ltb_spec k j), (Nat.eqb_spec k j); split_cmps; try lia;
        try (apply S; lia). rewrite <- S by lia. f_equal. lia.
    + rewrite grown_other in Hk' by exact N. assert (Ep : len p <> 0) by lia.
      pose proof (run_stop_full len p Hp Ep) as Fp.
      assert (Lp : len p = Z.of_nat (length (runs p))) by reflexivity.
      destruct (Z.lt_ge_cases p q).
      * replace (run_start (grown len q) p) with (start p)
          by (unfold run_start; now rewrite stop_below by lia).
        pose proof (Mono p (q - 1)). unfold run_start in *. split_cmps; try lia. apply S; lia.
      * rewrite (start_grown len q e ln Hq He Hu Hqe) by lia.
        pose proof (stop_lt len ln q p ltac:(lia) Hp Ep).
        pose proof (runs_ordered len ln q p) as O.
        destruct (Z.leb_spec (stop p) e).
        -- assert (stop q <= start p) by (unfold run_start; pose proof (Mono q (p - 1)); lia).
           split_cmps; try lia. rewrite <- S by lia. f_equal. lia.
        -- assert (e < start p).
           { destruct (Z.lt_ge_cases e (start p)); [assumption|].
             assert (U : used len e) by (exists p; lia). apply used_iff in U; [lia|exact ln|lia]. }
           split_cmps; try lia. apply S; lia.
  - intros x Hx Hs. rewrite stop_runs' in Hs. rewrite C4 by exact Hx. unfold open_gap.
    pose proof (Mono x e) as Me. pose proof (Hu x) as Hux. pose proof (Hu (e - 1)) as Hue.
    pose proof (Mono (e - 1) e) as Me1.
    assert (G : q <= x -> (if stop x <=? e then stop x + 1 else stop x) <= x).
    { intros L. now rewrite <- (stop_grown len q e ln Hq He Hu Hqe x L). }
    assert (Hout : x < q \/ e < x).
    { destruct (Z.lt_ge_cases x q); [auto|]. right. specialize (G ltac:(lia)).
      destruct (Z.lt_ge_cases e x); [assumption|exfalso]. destruct (Z.leb_spec (stop x) e); [|lia].
      destruct (Z.eq_dec x e) as [->|]; lia. }
    assert (F' : get_slot qf x = 0).
    { apply F; [exact Hx|]. destruct Hout as [L|L]; [now rewrite stop_below in Hs by lia|].
      specialize (G ltac:(lia)). destruct (Z.leb_spec (stop x) e); lia. }
    pose proof (Mono q x). unfold run_start in *.
    split_cmps; try lia; exact F'.
Qed.

(** The first slot of a bucket whose home slot is free. *)
Lemma repr_place :
  stop q <= q -> q < 64 * nblocks (metadata qf) ->
  ceq (contents_of qf') (put_occ (put_slot (put_run c q true) q v) q true) ->
  repr qf' runs'.
Proof.
  intros He Hen [C1 C2 C3 C4]. cbn in *. pose proof (repr_wf _ _ R) as W.
  pose proof (free_empty len q ln Hq He) as E0. destruct R as [[L1 L2 _] S F].
  assert (W' : wf (view_of qf') (nblocks (metadata qf')) (grown len q)).
  { rewrite Hnb. apply (wf_place len q ln Hq He (view_of qf)); auto. intros b Hb. apply C3. lia. }
  assert (N0 : runs q = []) by (apply run_len_nil; exact E0).
  split.
  - split; [now rewrite Hbps|now rewrite Hnb|].
    apply (wf_ext (view_of qf') _ _ (grown len q)); auto.
    + intros p Hp. symmetry. apply run_len_insert.
    + intros p. unfold run_len. lia.
  - intros p k Hp Hk. pose proof (runs'_len p k Hk) as Hk'. rewrite start_runs', nth_runs'.
    assert (0 <= run_start (grown len q) p) by (unfold run_start; lia).
    rewrite C4 by lia. unfold upd.
    destruct (Z.eqb_spec p q) as [->|N].
    + rewrite grown_same, E0 in Hk'. rewrite N0 in Hj. cbn [length] in Hj.
      assert (k = O) by lia. assert (j = O) by lia. subst k j. cbn [Nat.ltb Nat.leb Nat.eqb].
      assert (run_start (grown len q) q = q).
      { unfold run_start. rewrite stop_below by lia. pose proof (run_stop_bounds len ln q). lia. }
      split_cmps; lia || reflexivity.
    + rewrite grown_other in Hk' by exact N. assert (Ep : len p <> 0) by lia.
      rewrite (start_place len q ln Hq He p Ep).
      destruct (Z.eqb_spec (start p + Z.of_nat k) q) as [E|]; [exfalso|apply S; [lia|unfold run_len in *; lia]].
      assert (U : used len q) by (exists p; lia). apply used_iff in U; [lia|exact ln|lia].
  - intros x Hx Hs. rewrite stop_runs' in Hs. rewrite C4 by exact Hx. unfold upd.
    destruct (Z.lt_ge_cases x q).
    + rewrite stop_below in Hs by lia. split_cmps. apply F; auto.
    + rewrite (stop_place len q ln Hq He) in Hs by lia. split_cmps. apply F; [exact Hx|lia].
Qed.
End Open.

(** ** The code *)

(** A counter of the metadata changed. *)
Definition bump (qf : QF) (f : counter_field) (cnt : Z) : QF :=
  set_metadata qf (set_counter qf.(metadata) f (get_counter qf.(metadata) f + i32 cnt)%u64).

Lemma modify_metadata_bump qf f cnt :
  metadata_lock (runtimedata qf) = 0 -> modify_metadata qf f cnt = Some (bump qf f cnt).
Proof.
  intros H. unfold modify_metadata, bump. destruct qf as [[fp cr nl ml ls] md bl]. cbn in H. subst ml.
  reflexivity.
Qed.

Lemma bump_facts qf f cnt :
  bps (bump qf f cnt) = bps qf /\ nblocks (metadata (bump qf f cnt)) = nblocks (metadata qf)
  /\ blocks (bump qf f cnt) = blocks qf /\ runtimedata (bump qf f cnt) = runtimedata qf.
Proof. destruct f; repeat split; reflexivity. Qed.

Lemma repr_bump qf f cnt runs : repr qf runs -> repr (bump qf f cnt) runs.
Proof. apply repr_blocks; destruct f; reflexivity. Qed.

Lemma contents_bump qf f cnt : contents_of (bump qf f cnt) = contents_of qf.
Proof. destruct f; reflexivity. Qed.

(** The operation that fits the position of the new slot in the run. *)
Definition shift_operation (run : list Z) (j : nat) : Z :=
  match run with [] => 0 | _ => if (j =? length run)%nat then 1 else 2 end.

(** The first empty slot at or after the home slot [q], within the blocks. *)
Record first_free (qf : QF) (runs : Z -> list Z) (q e : Z) : Prop := {
  ff_free : run_stop (run_len runs) e <= e;
  ff_used y : q <= y < e -> y < run_stop (run_len runs) y;
  ff_order : q <= e;
  ff_inside : e < 64 * nblocks (metadata qf);
  (** The offsets of the blocks up to [e] can still be incremented. *)
  ff_offsets b : q / 64 < b <= e / 64 -> run_stop (run_len runs) (64 * b - 1) - 64 * b < 65535;
}.

Section Shift1.
Context (qf : QF) (runs : Z -> list Z) (q e : Z) (j : nat) (v : Z).
Hypothesis R : repr qf runs.
Hypothesis Hq : 0 <= q.
Hypothesis E : first_free qf runs q e.
Hypothesis Hqe : q < e.
Hypothesis Hj : (j <= length (runs q))%nat.
Hypothesis Hv : fits (bps qf) v.
Hypothesis Hlock : metadata_lock (runtimedata qf) = 0.

#[local] Abbreviation len := (run_len runs).
#[local] Abbreviation stop := (run_stop len).
#[local] Abbreviation start := (run_start len).
#[local] Abbreviation c := (contents_of qf).
Let ln : forall p, 0 <= len p := run_len_nonneg runs.
Let i := start q + Z.of_nat j.

Lemma shift1_facts : q < stop q <= e /\ start q + len q = stop q /\ start q <= i <= stop q /\ 0 <= start q /\ q <= start q.
Proof.
  destruct E as [E1 E2 E3 E4 E5]. pose proof (stop_q_e len q e ln E1 E2 Hqe).
  pose proof (start_q_stop len q e ln Hq E1 E2 Hqe). unfold i, run_len, run_start in *. lia.
Qed.

Lemma run_bits_in_run x : start q <= x < stop q -> c_run c x = (x =? stop q - 1).
Proof.
  destruct shift1_facts as (F1 & F2 & F3 & F4 & F5). intros Hx.
  assert (N : runs q <> []) by (intros N; apply run_len_nil in N; lia).
  pose proof (ra_end _ _ _ _ (repr_run_at qf runs R q Hq N) (Z.to_nat (x - start q))) as A.
  assert (Lq : len q = Z.of_nat (length (runs q))) by reflexivity.
  replace (start q + Z.of_nat (Z.to_nat (x - start q))) with x in A by lia.
  cbn [c_run contents_of]. rewrite <- is_runend_view by (try apply (repr_width _ _ R); lia).
  rewrite A by lia. destruct (Nat.eqb_spec (S (Z.to_nat (x - start q))) (length (runs q))), (Z.eqb_spec x (stop q - 1)); auto; lia.
Qed.

(** The run-end bits: shifted, then set for the operation. *)
Definition placed_run (op : Z) (c : contents) : contents :=
  let c := gap_run c i e in
  if op =? 0 then put_run c i true
  else if op =? 1 then put_run (put_run c (i - 1) false) i true
  else put_run c i false.

Lemma placed_run_grown x : 0 <= x ->
  c_run (placed_run (shift_operation (runs q) j) c) x = grown_run len q e (c_run c) x.
Proof.
  destruct shift1_facts as (F1 & F2 & F3 & F4 & F5). intros Hx.
  pose proof (run_bits_in_run x) as Rx. pose proof (run_bits_in_run (x - 1)) as Rx1.
  pose proof (run_bits_in_run i) as Ri.
  unfold placed_run, shift_operation, grown_run.
  assert (Li : i = start q + Z.of_nat j) by reflexivity.
  assert (Lq : len q = Z.of_nat (length (runs q))) by reflexivity.
  destruct (runs q) as [|x0 l] eqn:El; [|destruct (Nat.eqb_spec j (length (x0 :: l)))];
    cbn [Z.eqb Pos.eqb put_run gap_run c_run length] in *; unfold upd, open_gap in *;
    split_cmps; rewrite ?orb_false_r, ?orb_true_r; try (exfalso; lia); try reflexivity;
    first [rewrite Rx by lia; split_cmps; reflexivity | rewrite Rx1 by lia; split_cmps; reflexivity ].

Qed.

Lemma insert1_shift_repr :
  exists qf', insert1_shift qf (shift_operation (runs q) j) q i v e = Some (bump qf' Noccupied 1)
    /\ same_header qf' qf /\ repr (set_bit qf' OCC q) (upd runs q (insert_at j v (runs q))).
Proof.
  destruct shift1_facts as (F1 & F2 & F3 & F4 & F5). pose proof (repr_width _ _ R) as Hw.
  destruct E as [E1 E2 E3 E4 E5]. pose proof (lo_size _ _ (rp_laid _ _ R)) as Hsize.
  unfold insert1_shift. cbv zeta.
  replace (sub64 e 1) with (e - 1) by (unfold sub64; rewrite u64_small by (unfold fits; lia); lia).
  set (op := shift_operation (runs q) j) in *.
  assert (Op3 : op = 0 \/ op = 1 /\ q < i \/ op = 2).
  { assert (Lq : len q = Z.of_nat (length (runs q))) by reflexivity.
    unfold op, shift_operation in *. destruct (runs q) as [|x l] eqn:El; [auto|].
    destruct (Nat.eqb_spec j (length (x :: l))); [right; left|auto].
    unfold i. cbn [length] in *. lia. }
  replace (sub64 i 1) with (if op =? 1 then i - 1 else sub64 i 1).
  2: { destruct (Z.eqb_spec op 1); [|reflexivity]. unfold sub64. rewrite u64_small; unfold fits; lia. }
  assert (Ze : get_slot qf e = 0) by (apply (rp_free _ _ R); lia).
  pose proof (contents_shift_slot qf Hw i e v ltac:(lia) Ze Hv) as C1.
  set (q1 := set_slot (shift_remainders qf i e) i v) in *.
  pose proof (header_shift_slot qf i e v Hw ltac:(lia) Ze) as H1. fold q1 in H1.
  assert (Re : v_run (view_of q1) e = false).
  { change (c_run (contents_of q1) e = false). rewrite (ceq_run _ _ C1) by lia.
    apply not_true_is_false. intros T. apply (wf_run _ _ _ (repr_wf _ _ R)) in T as (p & Hp & Ep & Es); [|lia].
    apply (e_no_end len q e ln Hq E1 Hqe p Hp Ep Es). }
  pose proof (same_header_width _ _ H1 Hw) as Hw1.
  pose proof (contents_shift_run q1 Hw1 i e ltac:(lia) Re) as C2.
  pose proof (header_shift_run q1 i e Hw1 ltac:(lia) Re) as H2.
  set (q2 := shift_runends q1 i (e - 1) 1) in *. rewrite H1 in H2.
  pose proof (same_header_width _ _ H2 Hw) as Hw2.
  (* the run-end bits of the operation *)
  assert (Op : exists q3, (if op =? 0 then Some (set_bit q2 RUN i)
     else if op =? 1 then Some (set_bit (clear_bit q2 RUN (if op =? 1 then i - 1 else sub64 i 1)) RUN i)
     else if op =? 2 then Some (clear_bit q2 RUN i) else None) = Some q3 /\ same_header q3 q2
     /\ ceq (contents_of q3) (if op =? 0 then put_run (contents_of q2) i true
          else if op =? 1 then put_run (put_run (contents_of q2) (i - 1) false) i true
          else put_run (contents_of q2) i false)).
  { destruct Op3 as [O|[[O O1]|O]]; rewrite O; cbn [Z.eqb Pos.eqb]; eexists; (split; [reflexivity|]);
      (split; [split; reflexivity|]).
    - apply contents_set_run; auto; lia.
    - rewrite (contents_set_run (clear_bit q2 RUN (i - 1)) Hw2) by lia.
      rewrite (contents_clear_run q2 Hw2) by lia. reflexivity.
    - apply contents_clear_run; auto; lia. }
  destruct Op as (q3 & -> & H3 & C3). rewrite H2 in H3.
  pose proof (same_header_width _ _ H3 Hw) as Hw3.
  (* the offsets *)
  unfold QF_SLOTS_PER_BLOCK.
  pose proof (Z.div_mod q 64). pose proof (Z.mod_pos_bound q 64). pose proof (Z.div_pos q 64).
  pose proof (Z.div_le_mono q e 64 ltac:(lia) ltac:(lia)).
  assert (Hoff : forall b, 0 <= b -> get_offset q3 b = get_offset qf b).
  { intros b Hb. change (c_off (contents_of q3) b = c_off (contents_of qf) b).
    rewrite (ceq_off _ _ C3) by exact Hb. destruct (op =? 0); [|destruct (op =? 1)]; cbn [c_off put_run];
      rewrite (ceq_off _ _ C2) by exact Hb; cbn [c_off gap_run]; rewrite (ceq_off _ _ C1) by exact Hb; reflexivity. }
  destruct (contents_increment_offsets (Z.to_nat (e / 64 - (q / 64 + 1) + 1)) q3 (q / 64 + 1) Hw3) as [Hh4 C4];
    [lia| |].
  { intros b Hb. rewrite Hoff by lia. pose proof (Z.div_lt_upper_bound e 64 (nblocks (metadata qf)) ltac:(lia) ltac:(lia)).
    change (get_offset qf b) with (v_off (view_of qf) b). rewrite (wf_off _ _ _ (repr_wf _ _ R)) by lia.
    specialize (E5 b). lia. }
  set (q4 := increment_offsets q3 (Z.to_nat (e / 64 - (q / 64 + 1) + 1)) (q / 64 + 1)) in *. rewrite H3 in Hh4.
  pose proof (same_header_width _ _ Hh4 Hw) as Hw4.
  exists q4. split; [|split; [exact Hh4|]].
  { apply modify_metadata_bump. rewrite (sh_runtime _ _ Hh4). exact Hlock. }
  apply (repr_open qf _ runs q j v R Hq) with (e := e); auto; try exact (f_equal bits_per_slot (sh_metadata _ _ Hh4));
    try exact (f_equal nblocks (sh_metadata _ _ Hh4)).
  rewrite (contents_set_occ q4 Hw4 q Hq), C4, C3.
  assert (Cr : ceq (if op =? 0 then put_run (contents_of q2) i true
                    else if op =? 1 then put_run (put_run (contents_of q2) (i - 1) false) i true
                    else put_run (contents_of q2) i false) (placed_run op (gap_slot c i e v))).
  { unfold placed_run. cbv zeta. destruct (op =? 0); [|destruct (op =? 1)];
      rewrite C2, (gap_run_ceq _ _ i e ltac:(lia) C1); reflexivity. }
  rewrite Cr. assert (Eo : c_occ (placed_run op (gap_slot c i e v)) = c_occ c
    /\ c_off (placed_run op (gap_slot c i e v)) = c_off c
    /\ c_slot (placed_run op (gap_slot c i e v)) = open_gap (c_slot c) i e v
    /\ c_run (placed_run op (gap_slot c i e v)) = c_run (placed_run op c))
    by (unfold placed_run; destruct (op =? 0); [|destruct (op =? 1)]; repeat split).
  destruct Eo as (P1 & P2 & P3 & P4). split; cbn [c_occ c_run c_off c_slot put_occ bump_off].
  - intros x Hx. now rewrite P1.
  - intros x Hx. rewrite P4. apply placed_run_grown. exact Hx.
  - intros b Hb. rewrite P2. destruct (Z.ltb_spec (q / 64) b), (Z.leb_spec b (e / 64)); cbn [andb];
      split_cmps; lia.
  - intros x Hx. rewrite P3. reflexivity.
Qed.
End Shift1.
