(* ===== verification/InsertPlace.v ===== *)
(** * Where [insert1] puts a hash in a run

    [insert1_place] scans the run of the bucket for the counter of the remainder and
    decides which slot to insert.  The scans are characterised on the list of the
    run's slots, then the decision against the code of the counters. *)

From S2P Require Import Prelude BitSeq RankSelect Blocks BlockBits Shifting Layout Locks CounterCode Runs Insert Repr CounterIncrement InsertSlot.
Import ListNotations.
#[local] Open Scope Z_scope.

(** ** Segments of slots *)

(** The slots from [p] on hold [l]. *)
Definition seg (slot : Z -> Z) (p : Z) (l : list Z) : Prop :=
  forall j, (j < length l)%nat -> slot (p + Z.of_nat j) = nth j l 0.

Lemma seg_cons slot p x l : seg slot p (x :: l) <-> slot p = x /\ seg slot (p + 1) l.
Proof.
  unfold seg. split.
  - intros H. split; [specialize (H O ltac:(cbn; lia)); now rewrite Z.add_0_r in H|].
    intros j Hj. specialize (H (S j) ltac:(cbn; lia)). cbn [nth] in H. rewrite <- H. f_equal. lia.
  - intros [H0 H] [|j] Hj; [now rewrite Z.add_0_r|]. cbn [nth length] in *. rewrite <- H by lia. f_equal. lia.
Qed.

Lemma seg_app slot p l l' : seg slot p (l ++ l') <-> seg slot p l /\ seg slot (p + Z.of_nat (length l)) l'.
Proof.
  revert p. induction l as [|x l IH]; intros p; cbn [app length].
  - rewrite Z.add_0_r. split; [intros H; split; [intros j Hj; cbn in Hj; lia|exact H]|tauto].
  - rewrite !seg_cons, IH. replace (p + 1 + Z.of_nat (length l)) with (p + Z.of_nat (S (length l))) by lia. tauto.
Qed.

Section Scans.
Context (slot : Z -> Z).

Lemma scan_to_remainder_spec r ds : forall fuel p x e,
  0 <= p -> e < 2 ^ 63 -> p + Z.of_nat (length ds) <= e -> seg slot p (ds ++ [x]) -> x = r ->
  Forall (fun d => d <> r) ds -> (length ds <= fuel)%nat ->
  scan_to_remainder slot fuel e r p = Some (p + Z.of_nat (length ds)).
Proof.
  induction ds as [|d ds IH]; intros fuel p x e Hp He Hle H Hx HF Hf.
  - apply seg_cons in H as [H0 _]. destruct fuel; cbn [scan_to_remainder app length] in *;
      rewrite H0, Hx, Z.eqb_refl, andb_false_r; f_equal; lia.
  - destruct fuel as [|fuel]; [cbn in Hf; lia|]. cbn [app length scan_to_remainder] in *.
    apply seg_cons in H as [H0 H]. inversion_clear HF. rewrite H0.
    destruct (Z.ltb_spec p e), (Z.eqb_spec d r); try lia. cbn [andb negb].
    rewrite succ64 by lia. rewrite (IH fuel (p + 1) x e) by (auto; lia). f_equal. lia.
Qed.

(** Up to the first zero, or the end of the run. *)
Lemma scan_to_zero_spec ds : forall fuel p e rest,
  0 <= p -> e < 2 ^ 63 - 1 -> seg slot p (ds ++ rest) -> Forall (fun d => d <> 0) ds ->
  p + Z.of_nat (length ds) <= e -> (length ds <= fuel)%nat ->
  (exists t, rest = 0 :: t) \/ p + Z.of_nat (length ds) = e ->
  scan_to_zero slot fuel e p = Some (p + Z.of_nat (length ds)).
Proof.
  induction ds as [|d ds IH]; intros fuel p e rest Hp He H HF Hle Hf Hr.
  - cbn [app length] in *. rewrite Z.add_0_r in *. destruct Hr as [(t & ->)| ->].
    + apply seg_cons in H as [H0 _]. destruct fuel; cbn [scan_to_zero]; rewrite H0; cbn [Z.eqb negb];
        rewrite andb_false_r; reflexivity.
    + destruct fuel; cbn [scan_to_zero]; rewrite Z.ltb_irrefl; reflexivity.
  - destruct fuel as [|fuel]; [cbn in Hf; lia|]. cbn [app length scan_to_zero] in *.
    apply seg_cons in H as [H0 H]. inversion_clear HF. rewrite H0.
    destruct (Z.ltb_spec p e), (Z.eqb_spec d 0); try lia. cbn [andb negb].
    rewrite succ64 by lia. rewrite (IH fuel (p + 1) e rest); auto; try lia; [f_equal; lia|].
    destruct Hr; [auto|right; lia].
Qed.

Lemma scan_to_digit_spec r ds : forall fuel p,
  0 <= p -> p + Z.of_nat (length ds) < 2 ^ 62 -> seg slot (p + 1) (ds ++ [r]) ->
  Forall (fun d => d <> r) ds -> (length ds <= fuel)%nat ->
  scan_to_digit slot fuel r p = Some (p + Z.of_nat (length ds)).
Proof.
  induction ds as [|d ds IH]; intros fuel p Hp Hb H HF Hf; cbn [app length] in *.
  - apply seg_cons in H as [H0 _]. destruct fuel; cbn [scan_to_digit]; rewrite succ64, H0, Z.eqb_refl by lia;
      cbn [negb]; f_equal; lia.
  - destruct fuel as [|fuel]; [lia|]. apply seg_cons in H as [H0 H]. inversion_clear HF.
    cbn [scan_to_digit]. rewrite succ64, H0 by lia. destruct (Z.eqb_spec d r); [lia|]. cbn [negb].
    rewrite (IH fuel (p + 1)) by (auto; lia). f_equal. lia.
Qed.

(** *** Skipping a counter *)

Lemma add64_2 p : 0 <= p < 2 ^ 63 -> (p + 2)%u64 = (p + 2)%Z.
Proof. intros H. unfold add64. apply u64_small. unfold fits. lia. Qed.

Lemma skip_simple fuel h e p s :
  0 <= p < 2 ^ 62 -> s < h -> p <= e -> (p < e -> s <= slot (p + 1)) ->
  skip_counters slot (S fuel) h e p s = skip_counters slot fuel h e (p + 1) (slot (p + 1)).
Proof.
  intros Hp Hs Hle Hn. cbn [skip_counters]. destruct (Z.ltb_spec s h), (Z.leb_spec p e); try lia. cbn [andb].
  rewrite succ64 by lia. destruct (Z.ltb_spec p e), (Z.ltb_spec (slot (p + 1)) s); cbn [andb]; try reflexivity; lia.
Qed.

Lemma skip_extended fuel h e p s x ds :
  0 <= p -> e < 2 ^ 62 -> s < h -> x < s -> seg slot (p + 1) (x :: ds ++ [s]) -> Forall (fun d => d <> s) ds ->
  p + 2 + Z.of_nat (length ds) <= e -> (length ds <= fuel)%nat ->
  skip_counters slot (S fuel) h e p s
  = skip_counters slot fuel h e (p + 3 + Z.of_nat (length ds)) (slot (p + 3 + Z.of_nat (length ds))).
Proof.
  intros Hp He Hs Hx H HF Hle Hf. cbn [skip_counters].
  destruct (Z.ltb_spec s h), (Z.leb_spec p e); try lia. cbn [andb].
  apply seg_cons in H as [Ex H]. rewrite succ64, Ex, add64_2 by lia.
  destruct (Z.ltb_spec p e), (Z.ltb_spec x s); try lia. cbn [andb].
  replace (p + 1 + 1) with (p + 2) in H by lia.
  rewrite (scan_to_remainder_spec s ds fuel (p + 2) s e) by (auto; lia).
  rewrite succ64 by lia. now replace (p + 2 + Z.of_nat (length ds) + 1) with (p + 3 + Z.of_nat (length ds)) by lia.
Qed.

Lemma skip_code w h e p s c l rest fuel :
  2 <= w <= 56 -> 0 <= p -> e < 2 ^ 62 -> 0 < s < h -> code w s c l -> seg slot p (l ++ rest) ->
  e = p + Z.of_nat (length (l ++ rest)) - 1 -> (forall y t, rest = y :: t -> s < y) ->
  (length l <= fuel)%nat ->
  exists fuel', (fuel - length l <= fuel')%nat /\
    skip_counters slot fuel h e p s
    = skip_counters slot fuel' h e (p + Z.of_nat (length l)) (slot (p + Z.of_nat (length l))).
Proof.
  intros Hw Hp He Hs Hc H Hend Hrest Hf. rewrite length_app in Hend.
  assert (D : forall ds, Forall (is_digit (2 ^ w - 2) s) ds -> Forall (fun d => d <> s) ds).
  { intros ds. apply Forall_impl. intros d Hd. apply is_digit_facts in Hd; lia. }
  assert (Next : forall i, i = p + Z.of_nat (length l) -> i <= e -> s < slot i).
  { intros i -> Hi. destruct rest as [|y t]; [cbn [length] in *; lia|]. apply seg_app in H as [_ H].
    apply seg_cons in H as [-> _]. eauto. }
  destruct Hc as [ | |E|_|c d ds _ Hd HF _ _ _|c d ds _ Hd HF _ _ _|c d ds E _ _ _ _]; try lia;
    cbn [length app] in *; rewrite ?length_app in *; cbn [length] in *.
  - destruct fuel as [|fuel]; [lia|]. exists fuel. split; [lia|].
    rewrite skip_simple; [reflexivity|lia..|]. intros. apply Z.lt_le_incl, Next; lia.
  - destruct fuel as [|[|fuel]]; try lia. exists fuel. split; [lia|].
    apply seg_cons in H as [H0 H]. apply seg_cons in H as [H1 H].
    rewrite skip_simple by lia. rewrite H1, skip_simple; [|lia..|].
    2: { intros. apply Z.lt_le_incl, Next; lia. }
    now replace (p + 1 + 1) with (p + 2) by lia.
  - destruct fuel as [|fuel]; [lia|]. exists fuel. split; [lia|].
    rewrite (skip_extended fuel h e p s 0 []); auto; try (cbn [length]; lia); [f_equal; [|f_equal]; cbn; lia|].
    apply seg_cons in H as [_ H]. apply (seg_app slot (p + 1) [0; s] rest) in H. apply H.
  - destruct fuel as [|fuel]; [lia|]. exists fuel. split; [lia|]. inversion_clear HF.
    rewrite (skip_extended fuel h e p s d ds); auto; try lia.
    + f_equal; [|f_equal]; lia.
    + apply seg_cons in H as [_ H]. apply (seg_app slot (p + 1) (d :: ds ++ [s]) rest) in H. apply H.
  - destruct fuel as [|fuel]; [lia|]. exists fuel. split; [lia|].
    rewrite (skip_extended fuel h e p s 0 (d :: ds)); auto; cbn [length]; try lia.
    + f_equal; [|f_equal]; lia.
    + apply seg_cons in H as [_ H]. apply (seg_app slot (p + 1) (0 :: (d :: ds) ++ [s]) rest) in H. apply H.
Qed.

(** All the counters of smaller remainders. *)
Lemma skip_counters_spec w h e lo L : 2 <= w <= 56 -> run_code w lo L ->
  forall p rest fuel, 0 <= p -> e < 2 ^ 62 -> Forall (fun q => 0 < fst q < h) lo -> seg slot p (L ++ rest) ->
  e = p + Z.of_nat (length (L ++ rest)) - 1 -> (forall y t, rest = y :: t -> h <= y) ->
  (length L <= fuel)%nat ->
  skip_counters slot fuel h e p (slot p) = Some (p + Z.of_nat (length L), slot (p + Z.of_nat (length L))).
Proof.
  intros Hw. induction 1 as [|r c m l l' Hr Hc Hl HF Hm IH]; intros p rest fuel Hp He HP H Hend Hrest Hf.
  - cbn [app length] in *. rewrite Z.add_0_r.
    assert (C : (slot p <? h) && (p <=? e) = false).
    { destruct rest as [|y t]; [cbn [length app] in *; destruct (Z.leb_spec p e); [lia|apply andb_false_r]|].
      apply seg_cons in H as [-> _]. specialize (Hrest _ _ eq_refl). destruct (Z.ltb_spec y h); [lia|reflexivity]. }
    destruct fuel; cbn [skip_counters]; rewrite C; reflexivity.
  - inversion_clear HP as [|? ? Hr0 HPm]. cbn [fst] in *. rewrite <- app_assoc in *. rewrite length_app in *.
    destruct (code_head _ _ _ _ Hl) as (t0 & E0).
    assert (Hs : slot p = r) by (rewrite E0 in H; cbn [app] in H; now apply seg_cons in H as [? _]).
    assert (Hnext : forall y t, l' ++ rest = y :: t -> r < y).
    { intros y t E. destruct l' as [|y' t'].
      - apply Hrest in E. lia.
      - cbn [app] in E. injection E as -> _. destruct (run_code_rest w r m _ ltac:(apply Hr) Hm HF) as [[|(? & ? & [= <- <-] & ?)] _]; [discriminate|assumption]. }
    rewrite Hs. destruct (skip_code w h e p r c l (l' ++ rest) fuel) as (fuel' & Hf' & ->); auto; try lia.
    { rewrite length_app. exact Hend. }
    apply seg_app in H as [_ H].
    rewrite (IH (p + Z.of_nat (length l)) rest fuel'); auto; try lia.
    now replace (p + Z.of_nat (length l) + Z.of_nat (length l')) with (p + Z.of_nat (length l + length l')) by lia.
Qed.

(** *** The counter of the remainder 0 *)

Lemma zero_terminator_spec w e p c l rest fuel :
  0 <= p -> e < 2 ^ 62 -> code w 0 c l -> seg slot p (l ++ rest) -> e = p + Z.of_nat (length (l ++ rest)) - 1 ->
  (forall y t, rest = y :: t -> 0 < y) -> no_zero_pair rest -> (length (l ++ rest) <= fuel)%nat ->
  zero_terminator slot fuel p e = Some (p + Z.of_nat (length l) - 1).
Proof.
  intros Hp He Hc H Hend Hy Hz Hf. unfold zero_terminator. rewrite length_app in *. rewrite succ64 by lia.
  destruct Hc as [ | |_|E|c d ds E|c d ds E|c d ds _ HF _ _ _]; try lia; cbn [app length] in *.
  - (* one: the scan ends inside the other counters *)
    apply seg_cons in H as [_ H].
    destruct rest as [|y t].
    { destruct fuel; [cbn [length] in *; lia|]. cbn [scan_to_zero]. destruct (Z.ltb_spec (p + 1) e); [cbn [length] in *; lia|].
      cbn [andb]. destruct (Z.ltb_spec (p + 1) e), (Z.ltb_spec p e); try (cbn [length] in *; lia). cbn [andb].
      f_equal. cbn. lia. }
    pose proof (Hy _ _ eq_refl) as Hy0.
    assert (Sl : (p <? e) && (slot (p + 1) =? 0) = false).
    { apply seg_cons in H as [-> _]. destruct (Z.eqb_spec y 0); [lia|]. apply andb_false_r. }
    rewrite Sl.
    destruct (split_at_first 0 (y :: t)) as (ds & x & rest' & E & F & S); [discriminate|].
    rewrite E in *. rewrite !length_app in *. cbn [length] in *.
    assert (Hscan : exists k, scan_to_zero slot fuel e (p + 1) = Some (p + 1 + k) /\ 0 <= k
       /\ (p + 1 + k < e -> slot (p + 1 + k + 1) <> 0) /\ p + 1 + k <= e).
    { exists (Z.of_nat (length ds)). split.
      - apply (scan_to_zero_spec ds fuel (p + 1) e (x :: rest')); auto; try lia.
        destruct S as [->| ->]; [left; eauto|right; cbn [length] in *; lia].
      - repeat split; try lia. intros L. destruct S as [->| ->]; [|cbn [length] in *; lia].
        destruct rest' as [|z rest']; [cbn [length] in *; lia|]. apply seg_app in H as [_ H].
        apply seg_cons in H as [_ H]. apply seg_cons in H as [-> _]. now apply no_zero_pair_app in Hz. }
    destruct Hscan as (k & -> & Hk & Hn & Hle).
    destruct (Z.ltb_spec (p + 1 + k) e) as [L|L]; cbn [andb].
    + rewrite succ64 by lia. destruct (Z.eqb_spec (slot (p + 1 + k + 1)) 0); [tauto|]. f_equal. lia.
    + f_equal. lia.
  - (* two *)
    apply seg_cons in H as [_ H]. apply seg_cons in H as [H1 H].
    assert (Hscan : scan_to_zero slot fuel e (p + 1) = Some (p + 1)).
    { destruct fuel; [lia|]. cbn [scan_to_zero]. rewrite H1, andb_false_r. reflexivity. }
    rewrite Hscan, H1.
    destruct (Z.ltb_spec (p + 1) e) as [L|L]; cbn [andb].
    + rewrite succ64 by lia. destruct rest as [|y t]; [cbn [length] in *; lia|]. apply seg_cons in H as [-> _].
      specialize (Hy _ _ eq_refl). destruct (Z.eqb_spec y 0); [lia|]. destruct (Z.ltb_spec p e); [|lia].
      cbn. f_equal. lia.
    + destruct (Z.ltb_spec p e); [|lia]. cbn. f_equal. lia.
  - (* three *)
    apply seg_cons in H as [_ H]. apply seg_cons in H as [H1 H]. apply seg_cons in H as [H2 H].
    assert (Hscan : scan_to_zero slot fuel e (p + 1) = Some (p + 1)).
    { destruct fuel; [lia|]. cbn [scan_to_zero]. rewrite H1, andb_false_r. reflexivity. }
    rewrite Hscan. rewrite succ64, H2 by lia. destruct (Z.ltb_spec (p + 1) e); [|lia]. cbn. f_equal. lia.
  - (* digits *)
    apply seg_cons in H as [_ H]. rewrite length_app in *. cbn [length] in *.
    replace (d :: (ds ++ [0; 0]) ++ rest) with ((d :: ds) ++ 0 :: 0 :: rest) in H
      by (cbn [app]; now rewrite <- app_assoc).
    assert (D : Forall (fun x => x <> 0) (d :: ds)).
    { eapply Forall_impl; [|exact HF]. intros x Hx. apply is_digit_facts in Hx; lia. }
    rewrite (scan_to_zero_spec (d :: ds) fuel (p + 1) e (0 :: 0 :: rest)); auto; cbn [length]; try lia; [|eauto].
    apply seg_app in H as [_ H]. cbn [length] in H. apply seg_cons in H as [_ H]. apply seg_cons in H as [H2 _].
    rewrite succ64, H2 by lia. destruct (Z.ltb_spec (p + 1 + Z.of_nat (S (length ds))) e); [|lia].
    cbn. f_equal. lia.
Qed.
End Scans.

(** ** Incrementing in place *)

Lemma upd_same {A} (f : Z -> A) q x : upd f q x q = x.
Proof. unfold upd. now rewrite Z.eqb_refl. Qed.

Lemma upd_upd {A} (f : Z -> A) q x y p : upd (upd f q x) q y p = upd f q y p.
Proof. unfold upd. destruct (p =? q); reflexivity. Qed.

Lemma run_start_upd runs q l : length l = length (runs q) ->
  forall p, run_start (run_len (upd runs q l)) p = run_start (run_len runs) p.
Proof.
  intros H p. apply run_start_ext. intros x _. unfold run_len, upd. destruct (Z.eqb_spec x q) as [->|]; lia.
Qed.

(** Equal results but for the form of the index. *)
#[local] Ltac same_index :=
  cbv beta iota; match goal with |- Some (?a, ?x) = Some (_, ?y) => replace y with x by (cbn [length]; lia) end; reflexivity.

Lemma increment_counter_spec q r rds : forall fuel qf runs A B,
  repr qf runs -> 0 <= q -> 2 <= bps qf <= 56 -> runs q = A ++ r :: rev rds ++ B -> rds <> [] ->
  (length rds <= fuel)%nat ->
  let '(nds, digit, c, n) := increment_digits (bps qf) r rds in
  length nds = length rds -> Forall (fits (bps qf)) nds ->
  let i := run_start (run_len runs) q + Z.of_nat (length A) in
  exists qf', increment_counter qf fuel i r (i + Z.of_nat (length rds))
              = Some (qf', digit, c, i + Z.of_nat (length rds) - Z.of_nat n)
    /\ same_header qf' qf /\ repr qf' (upd runs q (A ++ r :: rev nds ++ B)).
Proof.
  induction rds as [|d t IH]; [congruence|]. intros fuel qf runs A B R Hq Hw E _ Hf.
  destruct fuel as [|fuel]; [cbn in Hf; lia|]. cbn [increment_digits].
  set (i := run_start (run_len runs) q + Z.of_nat (length A)).
  assert (Hi : 0 <= i) by (unfold i, run_start; lia).
  set (pre := A ++ r :: rev t).
  assert (E' : runs q = pre ++ d :: B).
  { rewrite E. unfold pre. cbn [rev]. rewrite <- ?app_assoc. cbn [app]. now rewrite <- ?app_assoc. }
  assert (Lp : Z.of_nat (length pre) = Z.of_nat (length A) + Z.of_nat (length (d :: t))).
  { unfold pre. rewrite length_app. cbn [length]. rewrite length_rev. lia. }
  assert (Hlen : (length pre < length (runs q))%nat) by (rewrite E', length_app; cbn; lia).
  assert (Nn : runs q <> []) by (rewrite E'; destruct pre; discriminate).
  destruct (repr_bound qf runs R q Hq) as [_ Bd]; [rewrite <- run_len_nil; exact Nn|].
  unfold run_len at 2 in Bd.
  assert (Hg : get_slot qf (i + Z.of_nat (length (d :: t))) = d).
  { replace (i + Z.of_nat (length (d :: t))) with (run_start (run_len runs) q + Z.of_nat (length pre)) by (unfold i; lia).
    rewrite (rp_slot _ _ R) by assumption. rewrite E'. apply nth_middle. }
  destruct (increment_digit (bps qf) r d) as [d' c] eqn:Ed.
  assert (Step : fits (bps qf) d' -> repr (set_slot qf (i + Z.of_nat (length (d :: t))) d') (upd runs q (pre ++ d' :: B))).
  { intros Fd. pose proof (repr_set_slot qf runs q (length pre) d' R Hq Hlen Fd) as S.
    rewrite E', set_nth_app in S.
    replace (i + Z.of_nat (length (d :: t))) with (run_start (run_len runs) q + Z.of_nat (length pre)) by (unfold i; lia).
    exact S. }
  assert (Sub : sub64 (i + Z.of_nat (length (d :: t))) 1 = i + Z.of_nat (length t)).
  { unfold sub64. rewrite u64_small; cbn [length] in *; unfold fits, i in *; lia. }
  destruct t as [|e t].
  - intros _ F. inversion_clear F as [|? ? Fd _]. cbn [increment_counter]. rewrite Hg, Ed, Sub. cbn [length].
    destruct (Z.ltb_spec i (i + Z.of_nat 0)); [lia|]. cbn [andb].
    eexists. split; [same_index|]. split; [split; reflexivity|].
    specialize (Step Fd). unfold pre in Step. cbn [rev app] in *. rewrite <- app_assoc in Step. exact Step.
  - destruct (Z.eqb_spec c 0) as [->|Hc].
    + intros _ F. inversion_clear F as [|? ? Fd _]. cbn [increment_counter]. rewrite Hg, Ed, Sub.
      change (negb (0 =? 0)) with false. rewrite andb_false_r.
      eexists. split; [same_index|]. split; [split; reflexivity|].
      specialize (Step Fd). unfold pre in Step.
      replace (A ++ r :: rev (d' :: e :: t) ++ B) with ((A ++ r :: rev (e :: t)) ++ d' :: B); [exact Step|].
      rewrite <- app_assoc. cbn [app]. do 2 f_equal. change (rev (d' :: e :: t)) with (rev (e :: t) ++ [d']).
      now rewrite <- app_assoc.
    + destruct (increment_digits (bps qf) r (e :: t)) as [[[nds dg] c'] n] eqn:Ei.
      intros Ln F. inversion_clear F as [|? ? Fd Ft]. specialize (Step Fd).
      set (qf1 := set_slot qf (i + Z.of_nat (length (d :: e :: t))) d') in *.
      pose proof (IH fuel qf1 _ A (d' :: B) Step Hq Hw) as IH1. change (bps qf1) with (bps qf) in IH1.
      rewrite Ei in IH1. rewrite run_start_upd in IH1.
      2: { rewrite E', !length_app. reflexivity. }
      destruct IH1 as (qf' & E1 & H1 & R1); auto; try discriminate; try (cbn [length] in *; lia).
      { rewrite upd_same. unfold pre. now rewrite <- app_assoc. }
      fold i in E1. cbn [increment_counter]. rewrite Hg, Ed, Sub. fold qf1.
      destruct (Z.ltb_spec i (i + Z.of_nat (length (e :: t)))); [|cbn [length] in *; lia].
      destruct (Z.eqb_spec c 0); [lia|]. cbn [negb andb]. rewrite E1.
      exists qf'. split; [same_index|].
      split; [rewrite H1; apply same_header_blocks|].
      apply (repr_ext qf' qf' _ _ (reflexivity _) eq_refl eq_refl) with (2 := R1).
      intros p _. rewrite upd_upd. f_equal.
      do 2 f_equal. cbn [rev]. now rewrite <- !app_assoc.
Qed.

(** ** The place of a remainder *)

(** The part of [insert1_place] before the decision. *)
Definition find_place (slot : Z -> Z) (fuel : nat) (h p e : Z) : option (Z * Z * Z) :=
  let? (rs, cur, zt) :=
    (if slot p =? 0 then
       let? zt := zero_terminator slot fuel p e in
       if negb (h =? 0) then Some ((zt + 1)%u64, slot (zt + 1)%u64, zt) else Some (p, slot p, zt)
     else Some (p, slot p, p)) in
  let? (rs, cur) := skip_counters slot fuel h e rs cur in
  Some (rs, cur, zt).

Lemma run_code_next w m l rest (P : Z -> Prop) :
  run_code w m l -> Forall (fun q => P (fst q)) m -> (forall y t, rest = y :: t -> P y) ->
  forall y t, l ++ rest = y :: t -> P y.
Proof.
  intros H F Hr y t E. destruct m as [|[r c] m]; [inversion H; subst; eauto|].
  destruct (run_code_head _ _ _ _ _ H) as (t0 & ->). cbn in E. injection E as -> _. inversion_clear F. assumption.
Qed.

(** The scan stops at the first counter whose remainder is not smaller. *)
Lemma find_place_spec slot w h p e lo hi Llo Lhi fuel :
  2 <= w <= 56 -> 0 <= p -> e < 2 ^ 62 -> 0 <= h -> lo ++ hi <> [] ->
  run_code w lo Llo -> run_code w hi Lhi ->
  Forall (fun q => fst q < h) lo -> Forall (fun q => h <= fst q) hi ->
  seg slot p (Llo ++ Lhi) -> e = p + Z.of_nat (length (Llo ++ Lhi)) - 1 -> (length (Llo ++ Lhi) <= fuel)%nat ->
  exists zt, find_place slot fuel h p e = Some (p + Z.of_nat (length Llo), slot (p + Z.of_nat (length Llo)), zt)
    /\ (h = 0 -> forall c hi', hi = (0, c) :: hi' ->
        exists l l', Lhi = l ++ l' /\ code w 0 c l /\ run_code w hi' l' /\ zt = p + Z.of_nat (length l) - 1).
Proof.
  intros Hw Hp He Hh Hne Hlo Hhi Flo Fhi H Hend Hf. unfold find_place.
  assert (Nhi : forall y t, Lhi = y :: t -> h <= y).
  { intros y t E. apply (run_code_next w hi Lhi [] (fun x => h <= x) Hhi Fhi) with (t := t); [discriminate|].
    now rewrite app_nil_r. }
  assert (Pos : forall m l, run_code w m l -> Forall (fun q => 0 <= fst q) m).
  { intros m l Hm. eapply Forall_impl; [|apply (run_code_fits _ _ _ Hm)]. intros a [Ha _]. exact Ha. }
  (* the skip from a bucket of positive remainders *)
  assert (Skip : forall lo' L' p', run_code w lo' L' -> Forall (fun q => 0 < fst q < h) lo' -> p <= p' ->
    seg slot p' (L' ++ Lhi) -> p' + Z.of_nat (length L') = p + Z.of_nat (length Llo) ->
    skip_counters slot fuel h e p' (slot p') = Some (p + Z.of_nat (length Llo), slot (p + Z.of_nat (length Llo)))).
  { intros lo' L' p' R' F' Hp' H' E'. rewrite <- E'. rewrite length_app in *.
    apply (skip_counters_spec slot w h e lo' L' Hw R' p' Lhi); auto; rewrite ?length_app; lia. }
  destruct lo as [|[s c] lo].
  - (* nothing smaller *)
    inversion Hlo; subst. cbn [app length] in *. rewrite Z.add_0_r in *.
    specialize (Skip [] [] p (run_nil w) (Forall_nil _) (Z.le_refl p) H). cbn [length] in Skip. rewrite Z.add_0_r in Skip.
    destruct hi as [|[s c] hi]; [congruence|]. destruct (run_code_head _ _ _ _ _ Hhi) as (t & Et).
    assert (Es : slot p = s) by (rewrite Et in H; now apply seg_cons in H as [? _]).
    destruct (Z.eqb_spec (slot p) 0) as [E0|E0].
    + assert (h = 0) by (inversion_clear Fhi; cbn in *; lia). subst h.
      assert (Hs0 : s = 0) by lia. clear Es. subst s.
      destruct (run_code_cons_inv _ _ _ _ _ Hhi) as (l1 & l2 & -> & _ & _ & Hc & Fm & Hm).
      destruct (run_code_rest w 0 hi l2 ltac:(lia) Hm Fm) as [Hr Hz].
      assert (Hr' : forall y t', l2 = y :: t' -> 0 < y).
      { intros y t' ->. destruct Hr as [|(? & ? & [= <- <-] & ?)]; [discriminate|assumption]. }
      rewrite (zero_terminator_spec slot w _ p c l1 l2 fuel) by auto.
      cbn [Z.eqb negb]. rewrite Skip by reflexivity. eexists. split; [reflexivity|].
      intros _ c' hi' [= <- <-]. eauto 10.
    + rewrite Skip by reflexivity. eexists. split; [reflexivity|]. intros _ c' hi' [= -> _ _]. lia.
  - destruct (run_code_cons_inv _ _ _ _ _ Hlo) as (l1 & l2 & -> & Hfs & Hc0 & Hc & Fm & Hm).
    destruct (code_head _ _ _ _ Hc) as (t0 & Et).
    assert (Es : slot p = s) by (rewrite Et in H; cbn [app] in H; now apply seg_cons in H as [? _]).
    inversion_clear Flo as [|? ? Hs Flo']. cbn [fst] in Hs. destruct Hfs as [Hs0 _].
    assert (Fpos : Forall (fun q => 0 < fst q < h) lo).
    { apply Forall_forall. intros q Hq. pose proof (proj1 (Forall_forall _ _) Fm q Hq).
      pose proof (proj1 (Forall_forall _ _) Flo' q Hq). cbn in *. lia. }
    destruct (Z.eqb_spec (slot p) 0) as [E0|E0].
    + assert (Hs' : s = 0) by lia. clear Es. subst s. rewrite <- app_assoc in *.
      assert (Hr : forall y t, l2 ++ Lhi = y :: t -> 0 < y).
      { apply (run_code_next w lo l2 Lhi (fun x => 0 < x) Hm Fm). intros y t E. specialize (Nhi y t E). lia. }
      rewrite (zero_terminator_spec slot w _ p c l1 (l2 ++ Lhi) fuel); auto.
      2: { apply (run_code_no_zero_pair w (lo ++ hi)).
           - apply run_code_app; auto. eapply Forall_impl; [|exact Flo']. intros a Ha.
             eapply Forall_impl; [|exact Fhi]. intros a' Ha'. cbn in *. lia.
           - apply Forall_app. split; [exact Fm|]. eapply Forall_impl; [|exact Fhi]. cbn. lia. }
      destruct (Z.eqb_spec h 0); [lia|]. cbn [negb]. pose proof (code_length _ _ _ _ Hc).
      rewrite !length_app in Hend. rewrite succ64 by lia.
      replace (p + Z.of_nat (length l1) - 1 + 1) with (p + Z.of_nat (length l1)) by lia.
      rewrite (Skip lo l2); auto; [|lia|apply seg_app in H as [_ H]; exact H|rewrite length_app; lia].
      eexists. split; [reflexivity|]. intros; lia.
    + rewrite (Skip ((s, c) :: lo) (l1 ++ l2)); auto.
      * eexists. split; [reflexivity|]. intros; lia.
      * constructor; [cbn; lia|exact Fpos].
      * lia.
Qed.

(** The decision. *)
Definition decide_place (qf : QF) (h rs cur zt e : Z) : option (QF * Z * Z * Z) :=
  let slot := get_slot qf in
  let next := slot (rs + 1)%u64 in
  if e <? rs then let? qf := modify_metadata qf Ndistinct 1 in Some (qf, 1, rs, h)
  else if negb (cur =? h) then let? qf := modify_metadata qf Ndistinct 1 in Some (qf, 2, rs, h)
  else if (rs =? e) || (0 <? h) && (h <? next) || (h =? 0) && (zt =? rs) then Some (qf, 2, rs, h)
  else if (0 <? h) && (next =? h) || (h =? 0) && (zt =? (rs + 1)%u64) then Some (qf, 2, (rs + 1)%u64, 0)
  else if (h =? 0) && (zt =? (rs + 2)%u64) then Some (qf, 2, (rs + 1)%u64, 1)
  else
    let? i := scan_to_digit slot (scan_fuel qf) h (rs + 1)%u64 in
    let? (qf, digit, carry, i) := increment_counter qf (scan_fuel qf) rs cur i in
    if (i =? rs) && ((0 <? carry) || negb (cur =? 0) && (cur <=? digit)) then
      Some (qf, 2, (rs + 1)%u64, if carry =? 0 then 0 else 2)
    else Some (qf, -1, i, h).

Lemma insert1_place_split qf h p e :
  insert1_place qf h p e =
  let? (rs, cur, zt) := find_place (get_slot qf) (scan_fuel qf) h p e in decide_place qf h rs cur zt e.
Proof.
  unfold insert1_place, find_place, decide_place. cbv zeta.
  destruct (get_slot qf p =? 0); [destruct (zero_terminator _ _ p e); [destruct (negb (h =? 0))|reflexivity]|];
    destruct (skip_counters _ _ _ _ _ _) as [[? ?]|]; reflexivity.
Qed.

(** What the decision means: the filter [qf1] after the in-place changes, and the slot
    to insert, give a run for the contents [m']. *)
Record places (qf : QF) (runs : Z -> list Z) (q : Z) (m' : items) (fresh : bool) (qf1 : QF) (op i v : Z) : Prop := {
  pl_metadata : metadata qf1 = metadata (if fresh then bump qf Ndistinct 1 else qf);
  pl_runtime : runtimedata qf1 = runtimedata qf;
  pl_run : exists l1, repr qf1 (upd runs q l1) /\ length l1 = length (runs q) /\
    (op = -1 /\ run_code (bps qf) m' l1
     \/ exists j, (j <= length l1)%nat /\ op = shift_operation l1 j /\ fits (bps qf) v
          /\ i = run_start (run_len runs) q + Z.of_nat j /\ run_code (bps qf) m' (insert_at j v l1))
}.

Lemma repr_upd_self qf runs q : repr qf runs -> repr qf (upd runs q (runs q)).
Proof.
  intros R. apply (repr_ext qf qf runs _ (reflexivity _) eq_refl eq_refl) with (2 := R).
  intros p _. unfold upd. destruct (Z.eqb_spec p q) as [->|]; reflexivity.
Qed.

(** The slot that a remainder takes in the run [l] of the contents [m], counted from the
    start of the run: after the counters of the smaller remainders, and from the third
    copy on after the first slot of its own counter. *)
Definition taken_slot (w : Z) (m : items) (l : list Z) (h d : Z) : Prop :=
  exists before after, l = before ++ after /\ run_code w (filter (fun p => fst p <? h) m) before
    /\ d = Z.of_nat (length before) + (if lookup_item h m <=? 1 then 0 else 1).

Lemma filter_low h (lo hi : items) : Forall (fun p => fst p < h) lo -> Forall (fun p => h <= fst p) hi ->
  filter (fun p => fst p <? h) (lo ++ hi) = lo.
Proof.
  intros Flo Fhi. rewrite filter_app. replace (filter _ hi) with (@nil (Z * Z)).
  - rewrite app_nil_r. induction Flo as [|p lo Hp _ IH]; [reflexivity|]. cbn [filter]. rewrite (proj2 (Z.ltb_lt _ _)) by exact Hp. now f_equal.
  - symmetry. induction Fhi as [|p hi Hp _ IH]; [reflexivity|]. cbn [filter]. now rewrite (proj2 (Z.ltb_ge _ _)) by exact Hp.
Qed.

(** A counter that changes within the run. *)
Lemma run_code_replace w lo hi h c Llo Lhi l :
  run_code w lo Llo -> run_code w hi Lhi -> Forall (fun q => fst q < h) lo -> Forall (fun q => h < fst q) hi ->
  fits w h -> 1 <= c < 2 ^ 64 -> code w h c l -> run_code w (lo ++ (h, c) :: hi) (Llo ++ l ++ Lhi).
Proof.
  intros Hlo Hhi Flo Fhi Hh Hc Hl. apply run_code_app; [exact Hlo|constructor; auto|].
  eapply Forall_impl; [|exact Flo]. intros a Ha. constructor; [exact Ha|].
  eapply Forall_impl; [|exact Fhi]. intros b Hb. cbn in *. lia.
Qed.

Section Decide.
Context (qf : QF) (runs : Z -> list Z) (q h : Z) (lo hi : items) (Llo Lhi : list Z).
Hypothesis R : repr qf runs.
Hypothesis Hq : 0 <= q.
Hypothesis Hw : 2 <= bps qf <= 56.
Hypothesis Hh : fits (bps qf) h.
Hypothesis Hlock : metadata_lock (runtimedata qf) = 0.
Hypothesis Hlo : run_code (bps qf) lo Llo.
Hypothesis Hhi : run_code (bps qf) hi Lhi.
Hypothesis Flo : Forall (fun p => fst p < h) lo.
Hypothesis Hne : runs q <> [].

Let p := run_start (run_len runs) q.
Let rs := p + Z.of_nat (length Llo).

Lemma run_in_bounds : 0 <= p /\ p + Z.of_nat (length (runs q)) < 2 ^ 62 /\ seg (get_slot qf) p (runs q)
  /\ (length (runs q) <= scan_fuel qf)%nat.
Proof.
  destruct (repr_bound qf runs R q Hq) as [B1 B2]; [rewrite <- run_len_nil; exact Hne|].
  change (run_len runs q) with (Z.of_nat (length (runs q))) in B2. fold p in B1, B2.
  split; [lia|]. split; [lia|]. split.
  - intros j Hj. apply (rp_slot _ _ R); auto.
  - unfold scan_fuel. lia.
Qed.

(** A remainder that is not in the run yet. *)
Lemma decide_new zt :
  runs q = Llo ++ Lhi -> Forall (fun p => h < fst p) hi ->
  exists op i v qf1,
    decide_place qf h rs (get_slot qf rs) zt (p + Z.of_nat (length (runs q)) - 1) = Some (qf1, op, i, v)
    /\ places qf runs q (lo ++ (h, 1) :: hi) true qf1 op i v /\ i = rs.
Proof.
  intros E Fhi. destruct run_in_bounds as (Hp & Hb & Hseg & _). unfold decide_place. cbv zeta.
  rewrite modify_metadata_bump by exact Hlock.
  assert (P : forall op, op = shift_operation (runs q) (length Llo) ->
    places qf runs q (lo ++ (h, 1) :: hi) true (bump qf Ndistinct 1) op rs h).
  { intros op ->. split; [reflexivity|reflexivity|]. exists (runs q).
    split; [apply repr_bump, repr_upd_self, R|]. split; [reflexivity|]. right. exists (length Llo).
    split; [rewrite E, length_app; lia|]. split; [reflexivity|]. split; [exact Hh|]. split; [reflexivity|].
    rewrite E, insert_at_app.
    apply (run_code_replace _ lo hi h 1 Llo Lhi [h]); auto; [lia|constructor]. }
  destruct Lhi as [|y t] eqn:El.
  - rewrite E, app_nil_r. destruct (Z.ltb_spec (p + Z.of_nat (length Llo) - 1) rs); [|unfold rs in *; lia].
    do 4 eexists. split; [reflexivity|]. split; [|reflexivity]. apply P. unfold shift_operation.
    rewrite E, app_nil_r in *. destruct Llo; [congruence|]. now rewrite Nat.eqb_refl.
  - assert (Lr : Z.of_nat (length (runs q)) = Z.of_nat (length Llo) + Z.of_nat (length (y :: t)))
      by (rewrite E, length_app; lia). cbn [length] in Lr.
    destruct (Z.ltb_spec (p + Z.of_nat (length (runs q)) - 1) rs); [unfold rs in *; lia|].
    assert (Sy : get_slot qf rs = y).
    { rewrite E in Hseg. apply seg_app in Hseg as [_ Hseg]. now apply seg_cons in Hseg as [? _]. }
    destruct hi as [|[s c] hi']; [inversion Hhi|]. destruct (run_code_head _ _ _ _ _ Hhi) as (t' & [= -> _]).
    inversion_clear Fhi. cbn [fst] in *. rewrite Sy. destruct (Z.eqb_spec s h); [lia|]. cbn [negb].
    do 4 eexists. split; [reflexivity|]. split; [|reflexivity]. apply P. unfold shift_operation.
    destruct (runs q) as [|x l] eqn:Er; [congruence|]. destruct (Nat.eqb_spec (length Llo) (length (x :: l))); [lia|reflexivity].
Qed.

(** A remainder that is in the run, with the counter [l]. *)
Context (c : Z) (hi' : items) (l l' : list Z).
Hypothesis Ehi : hi = (h, c) :: hi'.
Hypothesis ELhi : Lhi = l ++ l'.
Hypothesis Hcode : code (bps qf) h c l.
Hypothesis Hhi' : run_code (bps qf) hi' l'.
Hypothesis Fhi' : Forall (fun p => h < fst p) hi'.
Hypothesis Hc : 1 <= c + 1 < 2 ^ 64.
Hypothesis E : runs q = Llo ++ l ++ l'.

#[local] Abbreviation known := (places qf runs q (lo ++ (h, c + 1) :: hi') false).

Lemma insert_at_middle j v (k : list Z) : (j <= length k)%nat ->
  insert_at (length Llo + j) v (Llo ++ k ++ l') = Llo ++ insert_at j v k ++ l'.
Proof.
  intros Hj. unfold insert_at. rewrite firstn_app_2, <- app_assoc. f_equal.
  rewrite skipn_app. replace (skipn (length Llo + j) Llo) with (@nil Z) by (symmetry; apply skipn_all2; lia).
  replace (length Llo + j - length Llo)%nat with j by lia. cbn [app].
  rewrite firstn_app, skipn_app. replace (j - length k)%nat with O by lia. cbn [firstn skipn].
  now rewrite app_nil_r, <- app_assoc.
Qed.

Lemma known_insert qf1 (k : list Z) j v : same_header qf1 qf -> repr qf1 (upd runs q (Llo ++ k ++ l')) ->
  length k = length l -> (j < length k)%nat -> fits (bps qf) v -> code (bps qf) h (c + 1) (insert_at j v k) ->
  known qf1 2 (rs + Z.of_nat j) v.
Proof.
  intros [M RT] Rk Lk Hj Hv Hk. split; [exact M|exact RT|]. exists (Llo ++ k ++ l'). split; [exact Rk|].
  split; [rewrite E, !length_app; lia|]. right. exists (length Llo + j)%nat.
  split; [rewrite !length_app; lia|]. split.
  - unfold shift_operation. destruct (Llo ++ k ++ l') as [|x t] eqn:Et;
      apply (f_equal (@length Z)) in Et; rewrite !length_app in Et; [cbn in Et; lia|].
    destruct (Nat.eqb_spec (length Llo + j) (length (x :: t))); [lia|reflexivity].
  - split; [exact Hv|]. split; [unfold rs, p; lia|].
    rewrite insert_at_middle by lia. apply run_code_replace; auto.
Qed.

Lemma known_same qf1 (k : list Z) i v : same_header qf1 qf -> repr qf1 (upd runs q (Llo ++ k ++ l')) ->
  length k = length l -> code (bps qf) h (c + 1) k -> known qf1 (-1) i v.
Proof.
  intros [M RT] Rk Lk Hk. split; [exact M|exact RT|]. exists (Llo ++ k ++ l'). split; [exact Rk|].
  split; [rewrite E, !length_app; lia|]. left. split; [reflexivity|]. apply run_code_replace; auto.
Qed.

Lemma repr_unchanged : repr qf (upd runs q (Llo ++ l ++ l')).
Proof. rewrite <- E. now apply repr_upd_self. Qed.

(** *** The extended counters *)

Lemma decide_extended ds : ds <> [] -> l = h :: ds ++ closing h ->
  exists op i v qf1,
    (let? i := scan_to_digit (get_slot qf) (scan_fuel qf) h (rs + 1)%u64 in
     let? (qf1, digit, carry, i) := increment_counter qf (scan_fuel qf) rs h i in
     if (i =? rs) && ((0 <? carry) || negb (h =? 0) && (h <=? digit)) then
       Some (qf1, 2, (rs + 1)%u64, if carry =? 0 then 0 else 2)
     else Some (qf1, -1, i, h)) = Some (qf1, op, i, v)
    /\ known qf1 op i v /\ (op = -1 \/ i = rs + 1).
Proof.
  intros N El. destruct run_in_bounds as (Hp & Hb & Hseg & Hfuel).
  destruct ds as [|d0 ds0] eqn:Eds; [congruence|]. rewrite <- Eds in *.
  assert (Len : length (runs q) = (length Llo + (1 + length ds + length (closing h)) + length l')%nat).
  { rewrite E, El, !length_app. cbn [length]. rewrite length_app. lia. }
  assert (Hcl : exists t, closing h = h :: t).
  { unfold closing. destruct (Z.eqb_spec h 0) as [->|]; eauto. }
  destruct Hcl as (tc & Ecl).
  (* the first digit is not looked at *)
  assert (Hne' : Forall (fun x => x <> h) ds).
  { assert (Hx : code (bps qf) h c (h :: ds ++ closing h)) by (rewrite <- El; exact Hcode).
    destruct (code_extended (bps qf) h Hh c ds ltac:(rewrite Eds; discriminate) Hx)
      as [(R0 & _ & ->)|(_ & d1 & t0 & C & F & _)]; [constructor; [lia|constructor]|].
    assert (F' : Forall (fun x => x <> h) (d1 :: t0)).
    { eapply Forall_impl; [|exact F]. intros x Hx'. apply is_digit_facts in Hx'; [tauto|apply Hh]. }
    destruct C as [(-> & _)|(R0 & -> & _)]; [exact F'|constructor; [lia|exact F']]. }
  assert (Sds : seg (get_slot qf) (rs + 1) (ds ++ [h])).
  { rewrite E, El in Hseg. apply seg_app in Hseg as [_ Hseg]. fold rs in Hseg. apply seg_app in Hseg as [Hseg _].
    apply seg_cons in Hseg as [_ Hseg]. rewrite Ecl in Hseg. change (h :: tc) with ([h] ++ tc) in Hseg.
    rewrite app_assoc in Hseg. apply seg_app in Hseg. apply Hseg. }
  assert (Sc : scan_to_digit (get_slot qf) (scan_fuel qf) h (rs + 1)%u64 = Some (rs + Z.of_nat (length ds))).
  { rewrite succ64 by (unfold rs; lia). rewrite Eds in Sds, Hne'. cbn [app] in Sds. apply seg_cons in Sds as [_ Sds].
    inversion_clear Hne'. rewrite (scan_to_digit_spec (get_slot qf) h ds0) by
      (auto; unfold rs; rewrite Eds in Len; cbn [length] in Len; lia).
    rewrite Eds. cbn [length]. f_equal. lia. }
  rewrite Sc. clear Sc.
  pose proof (increment_counter_spec q h (rev ds) (scan_fuel qf) qf runs Llo (closing h ++ l') R Hq Hw) as I.
  rewrite rev_involutive, length_rev in I.
  assert (Hcode' : code (bps qf) h c (h :: ds ++ closing h)) by (rewrite <- El; exact Hcode).
  pose proof (increment_code (bps qf) h Hw Hh c ds ltac:(rewrite Eds; discriminate) Hcode') as Inc.
  unfold incremented, increment_slots in Inc.
  pose proof (increment_digits_length (bps qf) h (rev ds)) as Ln. rewrite length_rev in Ln.
  destruct (increment_digits (bps qf) h (rev ds)) as [[[nds dg] cr] n]. destruct Ln as [Ln Hn].
  destruct Inc as (L1 & Ff & Fp & Hk).
  destruct I as (qf' & Ei & Hhd & Rk); auto.
  { rewrite E, El. cbn [app]. now rewrite <- app_assoc. }
  { intros Er. apply (f_equal (@length Z)) in Er. rewrite length_rev in Er. rewrite Eds in Er. discriminate. }
  { lia. }
  { rewrite <- (rev_involutive nds). now apply Forall_rev. }
  fold p rs in Ei. rewrite Ei. clear Ei.
  assert (Rk' : repr qf' (upd runs q (Llo ++ (h :: rev nds ++ closing h) ++ l'))).
  { replace (Llo ++ (h :: rev nds ++ closing h) ++ l') with (Llo ++ h :: rev nds ++ closing h ++ l'); [exact Rk|].
    cbn [app]. now rewrite <- app_assoc. }
  assert (Lk : length (h :: rev nds ++ closing h) = length l)
    by (rewrite El; cbn [length]; rewrite !length_app; lia).
  assert (Bn : (rs + Z.of_nat (length ds) - Z.of_nat n =? rs) = (n =? length ds)%nat).
  { destruct (Nat.eqb_spec n (length ds)), (Z.eqb_spec (rs + Z.of_nat (length ds) - Z.of_nat n) rs); lia || reflexivity. }
  rewrite Bn. destruct ((n =? length ds)%nat && ((0 <? cr) || negb (h =? 0) && (h <=? dg))) eqn:G.
  - do 4 eexists. split; [reflexivity|]. rewrite succ64 by (unfold rs; lia). split; [|now right].
    apply (known_insert qf' (h :: rev nds ++ closing h) 1); auto.
    cbn [length]. rewrite length_app, L1, Eds. cbn [length]. lia.
  - do 4 eexists. split; [reflexivity|]. split; [|now left]. apply (known_same qf' (h :: rev nds ++ closing h)); auto.
Qed.

(** *** Every counter *)

Lemma code_shape w r c0 k : fits w r -> 2 <= w <= 56 -> code w r c0 k ->
  k = [r] /\ c0 = 1 \/ k = [r; r] /\ c0 = 2 \/ r = 0 /\ k = [0; 0; 0] /\ c0 = 3
  \/ exists ds, ds <> [] /\ k = r :: ds ++ closing r /\ (0 < r -> hd 0 ds < r) /\ (r = 0 -> (4 <= length k)%nat) /\ 3 <= c0.
Proof.
  clear. intros Hr Hw H. destruct H as [ | |E|E|c d t E D F _ C P|c d t E D F _ C P|c d t E F _ C P].
  - auto.
  - auto.
  - subst. auto 6.
  - right; right; right. exists [0]. split; [discriminate|]. unfold closing. destruct (Z.eqb_spec r 0); [lia|].
    cbn [hd]. repeat split; lia.
  - right; right; right. exists (d :: t). split; [discriminate|]. unfold closing. destruct (Z.eqb_spec r 0); [lia|].
    cbn [hd]. repeat split; lia.
  - right; right; right. exists (0 :: d :: t). split; [discriminate|]. unfold closing. destruct (Z.eqb_spec r 0); [lia|].
    cbn [hd]. repeat split; lia.
  - right; right; right. exists (d :: t). split; [discriminate|]. unfold closing. destruct (Z.eqb_spec r 0); [|lia].
    subst r. cbn [hd length]. rewrite length_app. cbn [length]. repeat split; lia.
Qed.

Lemma decide_known zt : (h = 0 -> zt = rs + Z.of_nat (length l) - 1) ->
  exists op i v qf1,
    decide_place qf h rs (get_slot qf rs) zt (p + Z.of_nat (length (runs q)) - 1) = Some (qf1, op, i, v)
    /\ known qf1 op i v /\ (op = -1 \/ i = rs + (if c <=? 1 then 0 else 1)).
Proof.
  intros Hzt. destruct run_in_bounds as (Hp & Hb & Hseg & Hfuel). unfold decide_place. cbv zeta.
  rewrite E in Hseg. apply seg_app in Hseg as [_ Hseg]. fold rs in Hseg.
  assert (Len : length (runs q) = (length Llo + length l + length l')%nat) by (rewrite E, !length_app; lia).
  destruct (code_head _ _ _ _ Hcode) as (t0 & Et). pose proof (code_length _ _ _ _ Hcode) as L1.
  assert (Hrs : get_slot qf rs = h) by (rewrite Et in Hseg; cbn [app] in Hseg; now apply seg_cons in Hseg as [? _]).
  destruct (run_code_rest (bps qf) h hi' l' ltac:(apply Hh) Hhi' Fhi') as [Hr _].
  pose proof Hh as [Hh0 _]. set (e := p + Z.of_nat (length (runs q)) - 1).
  assert (Re : rs <= e) by (unfold rs, e; lia).
  assert (B : 0 <= rs < 2 ^ 62) by (unfold rs; lia).
  rewrite Hrs, Z.eqb_refl. destruct (Z.ltb_spec e rs); [lia|]. cbn [negb].
  rewrite succ64, add64_2 by lia.
  destruct (code_shape _ _ _ _ Hh Hw Hcode) as [[Ek C]|[[Ek C]|[(E0 & Ek & C)|(ds & N & El & Hd & L0 & C3)]]];
    try rewrite Ek in Hseg, Len, Hzt.
  - (* one copy *)
    assert (G : (rs =? e) || (0 <? h) && (h <? get_slot qf (rs + 1)) || (h =? 0) && (zt =? rs) = true).
    { destruct Hr as [->|(y & t & -> & Hy)].
      - destruct (Z.eqb_spec rs e); [reflexivity|]. unfold rs, e in *. cbn [length] in *. lia.
      - cbn [app] in Hseg. apply seg_cons in Hseg as [_ Hseg]. apply seg_cons in Hseg as [-> _].
        cbn [length] in *. destruct (Z.ltb_spec 0 h), (Z.ltb_spec h y), (Z.eqb_spec h 0), (Z.eqb_spec zt rs);
          cbn [andb orb]; rewrite ?orb_true_r; try lia; reflexivity. }
    rewrite G. do 4 eexists. split; [reflexivity|]. split; [|right; rewrite C; cbn; lia]. replace rs with (rs + Z.of_nat 0) at 1 by lia.
    apply (known_insert qf [h] 0); auto; try (rewrite Ek; reflexivity); [reflexivity| |].
    + rewrite <- Ek. apply repr_unchanged.
    + rewrite C. constructor.
  - (* two *)
    cbn [app] in Hseg. apply seg_cons in Hseg as [_ Hseg]. apply seg_cons in Hseg as [H1 _]. rewrite H1, Z.eqb_refl.
    assert (G : (rs =? e) || (0 <? h) && (h <? h) || (h =? 0) && (zt =? rs) = false).
    { destruct (Z.eqb_spec rs e); [unfold rs, e in *; cbn [length] in *; lia|]. rewrite Z.ltb_irrefl, andb_false_r.
      destruct (Z.eqb_spec h 0), (Z.eqb_spec zt rs); cbn [andb orb length] in *; try reflexivity; lia. }
    assert (G2 : (0 <? h) && true || (h =? 0) && (zt =? rs + 1) = true).
    { destruct (Z.ltb_spec 0 h), (Z.eqb_spec h 0), (Z.eqb_spec zt (rs + 1)); cbn [andb orb length] in *; try reflexivity; lia. }
    rewrite G, G2. do 4 eexists. split; [reflexivity|]. split; [|right; rewrite C; reflexivity].
    apply (known_insert qf [h; h] 1); auto; try (rewrite Ek; reflexivity); [reflexivity| |unfold fits; lia|].
    { rewrite <- Ek. apply repr_unchanged. }
    rewrite C. unfold insert_at. cbn [firstn skipn app]. destruct (Z.eq_dec h 0) as [->|]; [now constructor|constructor; lia].
  - (* three zeroes *)
    specialize (Hzt E0). cbn [length] in *.
    assert (G : (rs =? e) || (0 <? h) && (h <? get_slot qf (rs + 1)) || (h =? 0) && (zt =? rs) = false)
      by (unfold e, rs in *; split_cmps; rewrite ?andb_false_r; lia || reflexivity).
    assert (G2 : (0 <? h) && (get_slot qf (rs + 1) =? h) || (h =? 0) && (zt =? rs + 1) = false)
      by (destruct (Z.ltb_spec 0 h), (Z.eqb_spec h 0), (Z.eqb_spec zt (rs + 1)); lia || reflexivity).
    assert (G3 : (h =? 0) && (zt =? rs + 2) = true)
      by (destruct (Z.eqb_spec h 0), (Z.eqb_spec zt (rs + 2)); lia || reflexivity).
    rewrite G, G2, G3. do 4 eexists. split; [reflexivity|]. split; [|right; rewrite C; reflexivity].
    apply (known_insert qf [0; 0; 0] 1); auto; try (rewrite Ek; reflexivity); try (cbn [length]; lia); [reflexivity| |unfold fits; pose proof (width_facts _ Hw); lia|].
    { rewrite <- Ek. apply repr_unchanged. }
    rewrite C. unfold insert_at. cbn [firstn skipn app]. rewrite E0.
    apply (code_zero (bps qf) 0 4 1 []); auto; try lia; [|congruence].
    constructor; [|constructor]. exists 0. pose proof (width_facts _ Hw). split; [lia|reflexivity].
  - (* digits *)
    destruct ds as [|d ds]; [congruence|].
    assert (H1 : get_slot qf (rs + 1) = d)
      by (rewrite El in Hseg; cbn [app] in Hseg; apply seg_cons in Hseg as [_ Hseg]; now apply seg_cons in Hseg as [? _]).
    cbn [hd] in Hd. assert (Ll : (3 <= length l)%nat).
    { rewrite El. cbn [length]. rewrite length_app. unfold closing. destruct (h =? 0); cbn [length]; lia. }
    assert (G : (rs =? e) || (0 <? h) && (h <? get_slot qf (rs + 1)) || (h =? 0) && (zt =? rs) = false).
    { rewrite H1. unfold e, rs in *. destruct (Z.ltb_spec 0 h), (Z.eqb_spec h 0); split_cmps; lia || reflexivity. }
    assert (G2 : (0 <? h) && (get_slot qf (rs + 1) =? h) || (h =? 0) && (zt =? rs + 1) = false).
    { rewrite H1. destruct (Z.ltb_spec 0 h), (Z.eqb_spec h 0); split_cmps; lia || reflexivity. }
    assert (G3 : (h =? 0) && (zt =? rs + 2) = false).
    { destruct (Z.eqb_spec h 0), (Z.eqb_spec zt (rs + 2)); lia || reflexivity. }
    rewrite G, G2, G3. pose proof (decide_extended (d :: ds) ltac:(discriminate) El) as X.
    rewrite succ64 in X by lia. destruct (Z.leb_spec c 1); [lia|exact X].
Qed.
End Decide.

(** ** The place of a hash in a bucket *)

Lemma insert1_place_spec qf runs q m h :
  repr qf runs -> 0 <= q -> m <> [] -> run_code (bps qf) m (runs q) -> 2 <= bps qf -> fits (bps qf) h ->
  lookup_item h m + 1 < 2 ^ 64 -> metadata_lock (runtimedata qf) = 0 ->
  let p := run_start (run_len runs) q in
  exists op i v qf1,
    insert1_place qf h p (p + Z.of_nat (length (runs q)) - 1) = Some (qf1, op, i, v)
    /\ places qf runs q (add_item h 1 m) (lookup_item h m =? 0) qf1 op i v
    /\ (op = -1 \/ taken_slot (bps qf) m (runs q) h (i - p)).
Proof.
  intros R Hq Hm Hrun Hw2 Hh Hcnt Hlock p. pose proof (repr_width _ _ R) as Hw. unfold width_ok in Hw.
  destruct (split_items h m (run_code_sorted _ _ _ Hrun)) as (lo & hi & -> & Flo & Fhi).
  destruct (run_code_split _ _ _ _ Hrun) as (Llo & Lhi & E & Hlo & Hhi).
  assert (Hne : runs q <> []) by (intros E0; rewrite E0 in Hrun; apply run_code_nil in Hrun; congruence).
  destruct (run_in_bounds qf runs q Llo R Hq Hne) as (Hp & Hb & Hseg & Hfuel). fold p in Hp, Hb, Hseg.
  rewrite insert1_place_split.
  destruct (find_place_spec (get_slot qf) (bps qf) h p (p + Z.of_nat (length (runs q)) - 1) lo hi Llo Lhi (scan_fuel qf))
    as (zt & -> & Hzt); auto; try lia; try (rewrite <- E; auto; lia); [apply Hh|].
  assert (Taken : forall i n, i = p + Z.of_nat (length Llo) + n -> n = (if lookup_item h (lo ++ hi) <=? 1 then 0 else 1) ->
    taken_slot (bps qf) (lo ++ hi) (runs q) h (i - p)).
  { intros i n -> ->. exists Llo, Lhi. split; [exact E|]. rewrite filter_low by assumption. split; [exact Hlo|lia]. }
  rewrite add_item_low, lookup_item_low in * by exact Flo.
  assert (New : Forall (fun p => h < fst p) hi -> exists op i v qf1,
    decide_place qf h (p + Z.of_nat (length Llo)) (get_slot qf (p + Z.of_nat (length Llo))) zt
      (p + Z.of_nat (length (runs q)) - 1) = Some (qf1, op, i, v)
    /\ places qf runs q (lo ++ (h, 1) :: hi) true qf1 op i v /\ (op = -1 \/ taken_slot (bps qf) (lo ++ hi) (runs q) h (i - p))).
  { intros F. destruct (decide_new qf runs q h lo hi Llo Lhi R Hq Hh Hlock Hlo Hhi Flo Hne zt E F) as (op & i & v & qf1 & D1 & D2 & D3).
    exists op, i, v, qf1. split; [exact D1|]. split; [exact D2|]. right. apply (Taken i 0); [rewrite D3; fold p; lia|]. now rewrite lookup_item_high by exact F. }
  destruct hi as [|[s c] hi]; [apply New; constructor|]. inversion_clear Fhi as [|? ? Hs Fhi']. cbn [fst] in Hs.
  destruct (run_code_cons_inv _ _ _ _ _ Hhi) as (l & l' & El & Hfs & Hc0 & Hc & Fm & Hm').
  cbn [add_item lookup_item] in *. destruct (Z.eqb_spec h s) as [->|Ns].
  - rewrite Z.ltb_irrefl. destruct (Z.eqb_spec c 0); [lia|].
    assert (Known : exists k k', Lhi = k ++ k' /\ code (bps qf) s c k /\ run_code (bps qf) hi k'
              /\ (s = 0 -> zt = p + Z.of_nat (length Llo) + Z.of_nat (length k) - 1)).
    { destruct (Z.eq_dec s 0) as [E0|]; [|exists l, l'; repeat split; auto; lia].
      destruct (Hzt E0 c hi) as (k & k' & Ek & Hk & Hk' & Hz); [now rewrite E0|]. exists k, k'.
      rewrite E0 in *. assert (Hlo0 : lo = []).
      { destruct lo as [|a lo]; [reflexivity|]. inversion_clear Flo. inversion Hlo; subst. cbn in *.
        match goal with H : fits _ ?x |- _ => destruct H; lia end. }
      subst lo. inversion Hlo; subst. cbn [length]. repeat split; auto. lia. }
    destruct Known as (k & k' & Ek & Hk & Hk' & Hz). rewrite Ek in E. rewrite Ek in Hhi. clear Hzt New.
    assert (Kn := fun H1 => decide_known qf runs q s lo ((s, c) :: hi) Llo (k ++ k') R Hq ltac:(lia) Hh Hlo Flo Hne c hi k k' eq_refl eq_refl Hk Hk' Fm ltac:(lia) E zt H1).
    destruct Kn as (op & i & v & qf1 & D1 & D2 & D3); [exact Hz|]. exists op, i, v, qf1. split; [exact D1|]. split; [exact D2|].
    destruct D3 as [D3|D3]; [now left|right]. exact (Taken i _ D3 eq_refl).
  - destruct (Z.ltb_spec h s); [|lia].
    assert (F : Forall (fun p => h < fst p) ((s, c) :: hi)).
    { constructor; [exact H|]. eapply Forall_impl; [|exact Fm]. cbn. lia. }
    rewrite lookup_item_high by (inversion F; assumption). apply New. exact F.
Qed.
