(* ===== verification/InsertOne.v ===== *)
(** * [insert1] adds one copy of a hash

    The filter's abstract contents are, for each bucket, the remainders with their
    counts.  [insert1] refines the addition of one to the count of a remainder. *)

From S2P Require Import Prelude BitSeq RankSelect Blocks BlockBits Shifting Layout Locks CounterCode Runs Insert Repr InsertSlot InsertPlace.
From Stdlib Require Import Morphisms Setoid.
Import ListNotations.
#[local] Open Scope Z_scope.

(** ** The abstract state *)

(** The filter stores [m q] in bucket [q]. *)
Definition holds (qf : QF) (m : Z -> items) : Prop :=
  exists runs, repr qf runs /\ forall q, 0 <= q -> run_code (bps qf) (m q) (runs q).

(** The bucket and the remainder of a hash. *)
Definition hash_bucket (qf : QF) (hash : Z) : Z := hash / 2 ^ bps qf.
Definition hash_rem (qf : QF) (hash : Z) : Z := hash mod 2 ^ bps qf.

(** How often [hash] is in the contents. *)
Definition count_of (qf : QF) (m : Z -> items) (hash : Z) : Z :=
  lookup_item (hash_rem qf hash) (m (hash_bucket qf hash)).

Definition add_hash (qf : QF) (m : Z -> items) (hash c : Z) : Z -> items :=
  upd m (hash_bucket qf hash) (add_item (hash_rem qf hash) c (m (hash_bucket qf hash))).

(** There is an empty slot after the home slot of bucket [q], and no block offset on
    the way is saturated. *)
Definition has_room (qf : QF) (q : Z) : Prop :=
  (exists e, q <= e < 64 * nblocks (metadata qf) /\ is_empty qf e = true)
  /\ forall b, 0 <= b < nblocks (metadata qf) -> get_offset qf b < 65535.

(** ** The first free slot *)

Lemma least_from (P : Z -> bool) q e : q <= e -> P e = true ->
  exists x, q <= x <= e /\ P x = true /\ forall y, q <= y < x -> P y = false.
Proof.
  intros H. replace e with (q + Z.of_nat (Z.to_nat (e - q))) by lia. generalize (Z.to_nat (e - q)) as n. clear e H.
  intros n. induction n as [n IH] using lt_wf_ind. intros Hp.
  destruct (existsb (fun k => P (q + Z.of_nat k)) (seq 0 n)) eqn:X.
  - apply existsb_exists in X as (k & Hk & Pk). apply in_seq in Hk.
    destruct (IH k ltac:(lia) Pk) as (x & Hx & Px & L). exists x. repeat split; auto; lia.
  - exists (q + Z.of_nat n). repeat split; auto; try lia. intros y Hy.
    apply not_true_is_false. intros Py. apply not_true_iff_false in X. apply X, existsb_exists.
    exists (Z.to_nat (y - q)). split; [apply in_seq; lia|]. now replace (q + Z.of_nat (Z.to_nat (y - q))) with y by lia.
Qed.

Section Room.
Context (qf : QF) (runs : Z -> list Z) (R : repr qf runs).

Lemma repr_is_empty x : 0 <= x < 64 * nblocks (metadata qf) ->
  is_empty qf x = (run_stop (run_len runs) x <=? x).
Proof. intros H. apply (is_empty_spec qf (run_len runs) (rp_laid _ _ R) x H). Qed.

Lemma repr_offset b : 0 <= b < nblocks (metadata qf) ->
  get_offset qf b = Z.max 0 (run_stop (run_len runs) (64 * b - 1) - 64 * b).
Proof. apply (wf_off _ _ _ (repr_wf _ _ R)). Qed.

Lemma has_room_first q : 0 <= q -> has_room qf q -> exists e, first_free qf runs q e.
Proof.
  intros Hq [(e0 & He0 & Em) Ho].
  destruct (least_from (is_empty qf) q e0 ltac:(lia) Em) as (e & He & Ee & L). exists e.
  rewrite repr_is_empty in Ee by lia. apply Z.leb_le in Ee. split; try lia.
  - intros y Hy. specialize (L y ltac:(lia)). rewrite repr_is_empty in L by lia. apply Z.leb_gt in L. lia.
  - intros b Hb. pose proof (Z.div_pos q 64). pose proof (Z.div_lt_upper_bound e 64 (nblocks (metadata qf))).
    specialize (Ho b ltac:(lia)). rewrite repr_offset in Ho by lia. lia.
Qed.
End Room.

Lemma first_free_same qf qf1 runs runs1 q e :
  nblocks (metadata qf1) = nblocks (metadata qf) -> (forall p, run_len runs p = run_len runs1 p) ->
  first_free qf runs q e -> first_free qf1 runs1 q e.
Proof.
  intros N L [E1 E2 E3 E4 E5].
  assert (S : forall x, run_stop (run_len runs1) x = run_stop (run_len runs) x)
    by (intros x; apply run_stop_ext; intros; symmetry; apply L).
  split; rewrite ?S, ?N; auto; intros y Hy; rewrite S; auto.
Qed.

Lemma run_len_upd_same runs q l : length l = length (runs q) ->
  forall p, run_len runs p = run_len (upd runs q l) p.
Proof. intros H p. unfold run_len, upd. destruct (Z.eqb_spec p q) as [->|]; lia. Qed.

(** ** The three cases *)

(** The last steps of the cases: the counters and the occupied bit. *)
Lemma set_occ_bumped qf f cnt runs q : repr (set_bit qf OCC q) runs -> repr (set_bit (bump qf f cnt) OCC q) runs.
Proof. apply repr_blocks; destruct f; reflexivity. Qed.

Lemma set_occ_occupied qf runs q : repr qf runs -> 0 <= q -> runs q <> [] -> repr (set_bit qf OCC q) runs.
Proof.
  intros R Hq N. pose proof (repr_width _ _ R) as Hw.
  apply (repr_ext qf _ runs runs) with (5 := R); try reflexivity.
  rewrite (contents_set_occ qf Hw q Hq). split; cbn; auto. intros i Hi. unfold upd.
  destruct (Z.eqb_spec i q) as [->|]; [|reflexivity]. symmetry.
  change (v_occ (view_of qf) q = true). apply (wf_occ_true _ _ _ (repr_wf _ _ R)); [exact Hq|].
  rewrite <- run_len_nil. exact N.
Qed.

(** The empty home slot. *)
Lemma insert1_empty_slot qf runs q h :
  repr qf runs -> 0 <= q < 64 * nblocks (metadata qf) -> fits (bps qf) h ->
  run_stop (run_len runs) q <= q ->
  runs q = [] /\ repr (set_bit (set_slot (set_bit qf RUN q) q h) OCC q) (upd runs q [h]).
Proof.
  intros R Hq Hh Hs. pose proof (repr_width _ _ R) as Hw.
  assert (N : runs q = []) by (apply run_len_nil, (free_empty _ q); auto; [apply run_len_nonneg|lia]).
  split; [exact N|]. replace [h] with (insert_at 0 h (runs q)) by now rewrite N.
  apply (repr_place qf _ runs q 0 h R); try reflexivity; try lia.
  rewrite (contents_set_occ (set_slot (set_bit qf RUN q) q h)), (contents_set_slot (set_bit qf RUN q)), (contents_set_run qf Hw)
    by (try exact Hw; try exact Hh; lia).
  reflexivity.
Qed.

(** A slot is inserted, or the counter was changed in place: what [insert1] does once the
    place is known. *)
Lemma insert1_update qf runs q m' fresh qf1 op i v e :
  repr qf runs -> 0 <= q -> q < e -> first_free qf runs q e -> metadata_lock (runtimedata qf) = 0 ->
  (op = -1 -> runs q <> []) ->
  places qf runs q m' fresh qf1 op i v ->
  exists qf2 runs',
    (if 0 <=? op then
       find_first_empty_slot qf1 (run_stop (run_len runs) q) = Some e
       /\ (e <? run_stop (run_len runs) q) = false /\ insert1_shift qf1 op q i v e = Some qf2
     else qf2 = qf1)
    /\ repr (set_bit qf2 OCC q) runs' /\ (forall p, 0 <= p -> p <> q -> runs' p = runs p)
    /\ run_code (bps qf) m' (runs' q)
    /\ runtimedata qf2 = runtimedata qf
    /\ metadata qf2 = metadata (if 0 <=? op then bump qf1 Noccupied 1 else qf1)
    /\ length (runs' q) = (length (runs q) + Nat.b2n (0 <=? op)%Z)%nat.
Proof.
  intros R Hq Hqe E Hlock Hop [M RT (l1 & R1 & L1 & D)].
  assert (Hb : bps qf1 = bps qf).
  { unfold bps. rewrite M. destruct fresh; reflexivity. }
  assert (Hnb : nblocks (metadata qf1) = nblocks (metadata qf)) by (rewrite M; destruct fresh; reflexivity).
  pose proof (run_len_upd_same runs q l1 L1) as Ls.
  pose proof (first_free_same qf qf1 runs (upd runs q l1) q e Hnb Ls E) as E1.
  assert (Ss : forall x, run_stop (run_len (upd runs q l1)) x = run_stop (run_len runs) x)
    by (intros x; apply run_stop_ext; intros; symmetry; apply Ls).
  destruct D as [[-> Hrun]|(j & Hj & -> & Hv & -> & Hrun)].
  - cbn [Z.leb Z.compare]. exists qf1, (upd runs q l1). split; [reflexivity|].
    split; [apply set_occ_occupied; auto; rewrite upd_same; intros ->; destruct (runs q); [now apply Hop|discriminate]|].
    split; [intros p _ Np; unfold upd; destruct (Z.eqb_spec p q); congruence|].
    rewrite upd_same. split; [exact Hrun|]. split; [exact RT|]. split; [reflexivity|cbn; lia].
  - assert (Op : (0 <=? shift_operation l1 j) = true).
    { unfold shift_operation. destruct l1; [|destruct (Nat.eqb_spec j (length (z :: l1)))]; reflexivity. }
    rewrite Op. pose proof E1 as [F1 F2 F3 F4 F5].
    pose proof (stop_q_e _ q e (run_len_nonneg _) F1 F2 Hqe) as Q.
    rewrite <- Ss. rewrite (find_first_empty_slot_spec qf1 _ (rp_laid _ _ R1) _ e); try lia.
    2: { intros y Hy. apply F2. lia. }
    pose proof (insert1_shift_repr qf1 (upd runs q l1) q e j v R1 Hq E1 Hqe) as S. rewrite upd_same in S.
    rewrite run_start_upd in S by exact L1.
    destruct S as (qf' & -> & H' & R'); auto; [rewrite Hb; exact Hv|rewrite RT; exact Hlock|].
    exists (bump qf' Noccupied 1), (upd runs q (insert_at j v l1)).
    split; [split; [reflexivity|split; [apply Z.ltb_ge; lia|reflexivity]]|].
    split. { apply set_occ_bumped. apply (repr_ext (set_bit qf' OCC q) _ _ _ (reflexivity _) eq_refl eq_refl) with (2 := R').
             intros p _. apply upd_upd. }
    split; [intros p _ Np; unfold upd; destruct (Z.eqb_spec p q); congruence|].
    rewrite upd_same. split; [exact Hrun|]. split; [destruct (bump_facts qf' Noccupied 1) as (_ & _ & _ & ->); now rewrite (sh_runtime _ _ H')|].
    split.
    + unfold bump. cbn [metadata set_metadata]. now rewrite (sh_metadata _ _ H').
    + rewrite length_insert_at. cbn. lia.
Qed.

(** ** The whole operation *)

(** The slot that a new copy of [hash] takes, of those the filter uses afterwards: it lies in
    the run of its bucket behind the counters of the smaller remainders, and behind the
    first slot of its own counter when there were two copies or more. *)
Definition new_slot (qf : QF) (m : Z -> items) (hash i : Z) : Prop :=
  let q := hash_bucket qf hash in
  exists runs, repr qf runs
    /\ taken_slot (bps qf) (m q) (runs q) (hash_rem qf hash) (i - run_start (run_len runs) q).

(** What [insert1] does, besides the contents: the metadata, and the distance from the home
    slot to the slot that was taken; 0 if a counter was changed in place. *)
Record inserted1 (qf : QF) (m : Z -> items) (hash : Z) (grew : bool) (ret : Z) (qf' : QF) : Prop := {
  in_runtime : runtimedata qf' = runtimedata qf;
  in_nelts : nelts (metadata qf') = (nelts (metadata qf) + 1)%u64;
  in_ndistinct : ndistinct_elts (metadata qf') = if count_of qf m hash =? 0 then (ndistinct_elts (metadata qf) + 1)%u64 else ndistinct_elts (metadata qf);
  in_noccupied : noccupied_slots (metadata qf') = if grew then (noccupied_slots (metadata qf) + 1)%u64 else noccupied_slots (metadata qf);
  in_rest : set_counters (metadata qf') 0 0 0 = set_counters (metadata qf) 0 0 0;
  in_distance : if grew then exists i, new_slot qf m hash i /\ ret = i32 (i - hash_bucket qf hash) else ret = 0;
}.

Lemma hash_parts qf hash : 1 <= bps qf <= 56 -> 0 <= hash -> hash_bucket qf hash < 2 ^ 62 ->
  (hash .& BITMASK (bps qf))%u64 = hash_rem qf hash /\ u64 (Z.shiftr hash (bps qf)) = hash_bucket qf hash
  /\ fits (bps qf) (hash_rem qf hash) /\ 0 <= hash_bucket qf hash.
Proof.
  intros Hw Hh Hb. unfold hash_bucket, hash_rem in *.
  assert (0 < 2 ^ bps qf) by (apply Z.pow_pos_nonneg; lia).
  assert (0 <= hash / 2 ^ bps qf) by (apply Z.div_pos; lia).
  rewrite BITMASK_ones, Z.land_ones, Z.shiftr_div_pow2, u64_small by (try (unfold fits); lia).
  repeat split; auto; apply Z.mod_pos_bound; lia.
Qed.

(** The operation and the slot found for a bucket whose home slot is used. *)
Definition choose_place (qf : QF) (h q p e : Z) : option (QF * Z * Z * Z) :=
  if is_occupied qf q then insert1_place qf h p e
  else let? qf := modify_metadata qf Ndistinct 1 in Some (qf, 0, (e + 1)%u64, h).

Lemma choose_place_spec qf runs m q h :
  repr qf runs -> 0 <= q < 64 * nblocks (metadata qf) -> run_code (bps qf) m (runs q) -> 2 <= bps qf ->
  fits (bps qf) h -> lookup_item h m + 1 < 2 ^ 64 -> metadata_lock (runtimedata qf) = 0 ->
  q < run_stop (run_len runs) q ->
  exists op i v qf1,
    choose_place qf h q (run_start (run_len runs) q) (run_stop (run_len runs) q - 1) = Some (qf1, op, i, v)
    /\ places qf runs q (add_item h 1 m) (lookup_item h m =? 0) qf1 op i v
    /\ (op = -1 -> runs q <> [])
    /\ (op = -1 \/ taken_slot (bps qf) m (runs q) h (i - run_start (run_len runs) q)).
Proof.
  intros R Hq Hrun Hw Hh Hcnt Hlock Hs. unfold choose_place. rewrite (repr_occupied qf runs R) by lia.
  pose proof (run_stop_full (run_len runs) q ltac:(lia)) as F.
  pose proof (wf_bound _ _ _ (repr_wf _ _ R) q) as B. pose proof (lo_size _ _ (rp_laid _ _ R)).
  destruct (Z.eqb_spec (run_len runs q) 0) as [E0|N0]; cbn [negb].
  - rewrite modify_metadata_bump by exact Hlock. do 4 eexists. split; [reflexivity|].
    assert (Er : runs q = []) by (apply run_len_nil; exact E0). rewrite Er in Hrun.
    apply run_code_nil in Hrun. subst m. cbn [add_item lookup_item Z.eqb].
    assert (Ei : add64 (run_stop (run_len runs) q - 1) 1 = run_start (run_len runs) q).
    { rewrite run_stop_empty in * by exact E0. unfold add64, run_start. rewrite u64_small by (unfold fits; lia). lia. }
    split; [|split; [discriminate|right; exists [], []; rewrite Ei; repeat split; [exact Er|constructor|cbn; lia]]].
    split; [reflexivity|reflexivity|]. exists (runs q).
    split; [apply repr_bump, repr_upd_self, R|]. split; [reflexivity|]. right. exists O.
    split; [cbn; lia|]. split; [now rewrite Er|]. split; [exact Hh|]. rewrite Er. split; [rewrite Ei; cbn; lia|].
    apply run_code_one; [exact Hh|lia|constructor].
  - assert (Hm : m <> []).
    { intros ->. apply N0, run_len_nil. now inversion Hrun. }
    destruct (insert1_place_spec qf runs q m h R) as (op & i & v & qf1 & E1 & P1 & T1); auto; try lia.
    rewrite (F N0). exists op, i, v, qf1. split; [exact E1|]. split; [exact P1|]. split; [|exact T1].
    intros _. rewrite run_len_nil. exact N0.
Qed.

Lemma insert1_spec qf m hash flags :
  holds qf m -> 2 <= bps qf -> metadata_lock (runtimedata qf) = 0 -> lockable qf (hash_bucket qf hash) true flags ->
  0 <= hash -> hash_bucket qf hash < 64 * nblocks (metadata qf) -> has_room qf (hash_bucket qf hash) ->
  count_of qf m hash + 1 < 2 ^ 64 ->
  exists ret grew qf', insert1 qf hash flags = Some (ret, qf')
    /\ holds qf' (add_hash qf m hash 1) /\ inserted1 qf m hash grew ret qf'.
Proof.
  intros (runs & R & Hm) Hw2 Hlock Hl Hh Hq Hroom Hcnt.
  pose proof (repr_width _ _ R) as Hw. pose proof (lo_size _ _ (rp_laid _ _ R)) as Hsz. unfold width_ok in Hw.
  destruct (hash_parts qf hash Hw Hh ltac:(lia)) as (Er & Eb & Fr & Hq0).
  destruct (has_room_first qf runs R _ Hq0 Hroom) as (e & E).
  unfold insert1. rewrite Er, Eb. unfold count_of, add_hash in *.
  set (q := hash_bucket qf hash) in *. set (h := hash_rem qf hash) in *. clear Er Eb Hh.
  destruct (lock_unlock qf q true flags Hq0 Hl) as (qf0 & -> & M0 & B0 & L0 & U). cbn [negb].
  assert (Eb0 : bps qf0 = bps qf) by (unfold bps; now rewrite M0).
  assert (R0 : repr qf0 runs) by (apply (repr_blocks qf); auto; now rewrite M0).
  rewrite (repr_is_empty qf0 runs R0) by (rewrite M0; lia).
  (* the end of every case *)
  assert (Fin : forall ret qf2 runs' grew, runtimedata qf2 = runtimedata qf0 ->
    repr qf2 runs' -> bps qf2 = bps qf -> (forall p, 0 <= p -> p <> q -> runs' p = runs p) ->
    run_code (bps qf) (add_item h 1 (m q)) (runs' q) ->
    inserted1 qf m hash grew ret (mk_QF (runtimedata qf) (metadata qf2) (blocks qf2)) ->
    exists ret0 grew0 qf', (let? qf := unlock_qf qf2 q true flags in Some (ret, qf)) = Some (ret0, qf')
      /\ holds qf' (upd m q (add_item h 1 (m q))) /\ inserted1 qf m hash grew0 ret0 qf').
  { intros ret qf2 runs' grew E2 R2 B2 O2 C2 I2. rewrite (U _ E2). exists ret, grew. eexists.
    split; [reflexivity|]. split; [|exact I2]. exists runs'. split; [now apply (repr_blocks qf2)|].
    change (bps (mk_QF _ (metadata qf2) _)) with (bps qf2). rewrite B2. intros p Hp. unfold upd.
    destruct (Z.eqb_spec p q) as [->|N]; [exact C2|]. rewrite O2 by assumption. now apply Hm. }
  destruct (Z.leb_spec (run_stop (run_len runs) q) q) as [Hs|Hs].
  - (* an empty home slot *)
    destruct (insert1_empty_slot qf0 runs q h R0 ltac:(rewrite M0; lia) ltac:(rewrite Eb0; exact Fr) Hs) as [Nq R1].
    set (qf1 := set_bit (set_slot (set_bit qf0 RUN q) q h) OCC q) in *.
    assert (L1 : forall f g, metadata_lock (runtimedata (bump (bump qf1 f 1) g 1)) = 0
              /\ metadata_lock (runtimedata (bump qf1 f 1)) = 0 /\ metadata_lock (runtimedata qf1) = 0)
      by (intros; repeat split; change (metadata_lock (runtimedata qf0) = 0); congruence).
    rewrite (modify_metadata_bump qf1) by apply (L1 Ndistinct Noccupied).
    rewrite modify_metadata_bump by apply (L1 Ndistinct Noccupied).
    rewrite modify_metadata_bump by apply (L1 Ndistinct Noccupied).
    specialize (Hm q Hq0). rewrite Nq in Hm. apply run_code_nil in Hm as Em. rewrite Em in *.
    apply (Fin 0 _ (upd runs q [h]) true).
    + reflexivity.
    + now repeat apply repr_bump.
    + exact Eb0.
    + intros p _ N. unfold upd. destruct (Z.eqb_spec p q); congruence.
    + rewrite upd_same. apply run_code_one; [exact Fr|lia|constructor].
    + assert (Ec : count_of qf m hash = 0) by (unfold count_of; fold q h; now rewrite Em).
      split; try (rewrite <- M0; reflexivity); [reflexivity|rewrite Ec, <- M0; reflexivity|].
      exists q. split; [|fold q; now rewrite Z.sub_diag]. exists runs. fold q h. split; [exact R|]. exists [], []. rewrite Nq, Em. repeat split; [constructor|].
      assert (Es : run_start (run_len runs) q = q) by (unfold run_start; rewrite <- run_stop_empty by (now apply run_len_nil); lia).
      rewrite Es. cbn. lia.
  - (* a used one *)
    rewrite (repr_run_end qf0 runs R0) by (rewrite M0; lia).
    replace (Z.max (q + 1) (run_stop (run_len runs) q) - 1) with (run_stop (run_len runs) q - 1) by lia.
    rewrite (repr_run_start qf0 runs R0) by (rewrite M0; lia).
    destruct (choose_place_spec qf0 runs (m q) q h R0) as (op & i & v & qf1 & E1 & P1 & O1 & T1); try (rewrite ?M0, ?Eb0); auto; try lia; try congruence.
    unfold choose_place in E1. rewrite E1. clear E1.
    pose proof (ff_order _ _ _ _ E). pose proof (ff_free _ _ _ _ E).
    assert (Hqe : q < e) by (destruct (Z.eq_dec q e) as [->|]; lia).
    destruct (insert1_update qf0 runs q (add_item h 1 (m q)) (lookup_item h (m q) =? 0) qf1 op i v e R0 Hq0 Hqe) as (qf2 & runs' & X & R2 & Oth & Hrun & RT2 & Mk & Lk); auto; try congruence.
    { apply (first_free_same qf qf0 runs runs); auto. now rewrite M0. }
    assert (L1 : metadata_lock (runtimedata qf2) = 0) by congruence.
    assert (Hb2 : bps qf1 = bps qf).
    { rewrite <- Eb0. unfold bps. rewrite (pl_metadata _ _ _ _ _ _ _ _ _ P1). destruct (_ =? 0); reflexivity. }
    assert (Lift : forall ret, (if 0 <=? op then exists i, new_slot qf m hash i /\ ret = i32 (i - q) else ret = 0) ->
      exists ret0 grew0 qf', (let? qf := (let? qf := modify_metadata qf2 Nelts 1 in Some (set_bit qf OCC q)) in
          let? qf := unlock_qf qf q true flags in Some (ret, qf)) = Some (ret0, qf')
        /\ holds qf' (upd m q (add_item h 1 (m q))) /\ inserted1 qf m hash grew0 ret0 qf').
    { intros ret D. rewrite modify_metadata_bump by exact L1.
      apply (Fin ret (set_bit (bump qf2 Nelts 1) OCC q) runs' (0 <=? op)); auto.
      - now apply set_occ_bumped.
      - change (bps (set_bit ?x OCC q)) with (bps x). destruct (bump_facts qf2 Nelts 1) as (-> & _). unfold bps.
        rewrite Mk. destruct (0 <=? op); exact Hb2.
      - rewrite <- Eb0. exact Hrun.
      - pose proof (pl_metadata _ _ _ _ _ _ _ _ _ P1) as M1. assert (Ec : count_of qf m hash = lookup_item h (m q)) by reflexivity.
        split; cbn [metadata runtimedata set_bit set_METADATA_WORD set_block_word set_blocks bump set_metadata];
          rewrite ?Mk, ?Ec; try reflexivity; try exact D;
          destruct (0 <=? op), (lookup_item h (m q) =? 0); unfold bump; cbn [metadata set_metadata set_counter set_counters get_counter
            nelts ndistinct_elts noccupied_slots]; rewrite M1; cbn; rewrite ?M0; reflexivity. }
    destruct (0 <=? op) eqn:Op.
    + destruct X as (Xf & Xg & Xs).
      replace (add64 (run_stop (run_len runs) q - 1) 1) with (run_stop (run_len runs) q).
      2: { pose proof (wf_bound _ _ _ (repr_wf _ _ R) q). unfold add64. rewrite u64_small by (unfold fits; lia). lia. }
      rewrite Xf, Xg, andb_false_r, Xs. apply Lift.
      destruct T1 as [->|T1]; [discriminate|]. exists i. split; [|reflexivity]. exists runs. split; [exact R|]. fold q h. rewrite <- Eb0. exact T1.
    + subst qf2. now apply Lift.
Qed.
