(* ===== verification/Iterator.v ===== *)
(** * Iteration over a filter ([gqf.c], [qf_iterator_from_position] .. [qfi_end])

    An iterator holds the bucket whose run it is in and the slot of the current counter.
    Cluster logging ([LOG_CLUSTER_LENGTH]) is compiled out. *)

From S2P Require Import Prelude BitSeq RankSelect Hashutil Blocks CounterCode.
Import ListNotations.
#[local] Open Scope Z_scope.

Record QFi := mk_QFi { iqf : QF; run : Z; current : Z; num_clusters : Z }.

Definition set_current (qfi : QFi) (c : Z) : QFi := mk_QFi qfi.(iqf) qfi.(run) c qfi.(num_clusters).
Definition set_run (qfi : QFi) (r c : Z) : QFi := mk_QFi qfi.(iqf) r c qfi.(num_clusters).

Definition UINT64_MAX : Z := 0xffffffffffffffff.

(** The hash the operations work on: the key as it is, or hashed as the mode says. *)
Definition hash_of_key (qf : QF) (key flags : Z) : Z :=
  if negb (GET_KEY_HASH flags =? QF_KEY_IS_HASH) then
    match qf.(metadata).(hash_mode) with
    | QF_HASH_DEFAULT => MurmurHash64A (bytes_of 8 key) qf.(metadata).(seed) mod qf.(metadata).(range)
    | QF_HASH_INVERTIBLE => hash_64 key (BITMASK qf.(metadata).(key_bits))
    | QF_HASH_NONE => key
    end
  else key.

(** [(key << value_bits) | (value & BITMASK(value_bits))] *)
Definition hash_of (qf : QF) (key value : Z) : Z :=
  ((key <<< qf.(metadata).(value_bits)) .| (value .& BITMASK qf.(metadata).(value_bits)))%u64.

(** [while (idx == 64 && block_index < nblocks) { block_index++; idx = bitselect(occupieds, rank); }] *)
Fixpoint next_occupied_block (qf : QF) (fuel : nat) (block_index idx : Z) : Z * Z :=
  match fuel with
  | O => (block_index, idx)
  | S fuel =>
    if (idx =? 64) && (block_index <? qf.(metadata).(nblocks)) then
      let block_index := (block_index + 1)%Z in
      next_occupied_block qf fuel block_index (bitselect (block_word qf OCC block_index) 0)
    else (block_index, idx)
  end.

Definition block_fuel (qf : QF) : nat := S (Z.to_nat qf.(metadata).(nblocks)).

(** The first occupied bucket from the start of the block of [position]. *)
Definition first_occupied_from_block (qf : QF) (position : Z) : Z :=
  let block_index := position / QF_SLOTS_PER_BLOCK in
  let idx := bitselect (block_word qf OCC block_index) 0 in
  let '(block_index, idx) := next_occupied_block qf (block_fuel qf) block_index idx in
  (block_index * QF_SLOTS_PER_BLOCK + idx)%u64.

(** [position == 0 ? 0 : run_end(qf, position - 1) + 1], but not before the bucket. *)
Definition run_start_of (qf : QF) (position : Z) : option Z :=
  let? current :=
    (if position =? 0 then Some 0
     else let? e := run_end qf (position - 1)%u64 in Some (e + 1)%u64) in
  Some (if current <? position then position else current).

Definition start_result (qf : QF) (qfi : QFi) : Z :=
  if qf.(metadata).(nslots) <=? qfi.(current) then QFI_INVALID else i64 qfi.(current).

Definition qf_iterator_from_position (qf : QF) (position : Z) : option (Z * QFi) :=
  if position =? UINT64_MAX then Some (QFI_INVALID, mk_QFi qf 0 UINT64_MAX 0) else
  let position := if negb (is_occupied qf position) then first_occupied_from_block qf position else position in
  let? current := run_start_of qf position in
  let qfi := mk_QFi qf position current 0 in
  Some (start_result qf qfi, qfi).

(** The [do]-[while] that looks for the first counter of the run with a remainder of at
    least [hash_remainder]; [None] inside when the run has none. *)
Fixpoint seek_in_run (qf : QF) (fuel : nat) (hash_remainder runstart_index : Z) : option (option Z) :=
  match fuel with
  | O => None
  | S fuel =>
    let? (current_end, current_remainder, _) := decode_counter qf runstart_index in
    if hash_remainder <=? current_remainder then Some (Some runstart_index)
    else if negb (is_runend qf current_end) then seek_in_run qf fuel hash_remainder (current_end + 1)%u64
    else Some None
  end.

Definition qf_iterator_from_key_value (qf : QF) (key value flags : Z) : option (Z * QFi) :=
  if qf.(metadata).(range) <=? key then Some (QFI_INVALID, mk_QFi qf 0 UINT64_MAX 0) else
  let hash := hash_of qf (hash_of_key qf key flags) value in
  let hash_remainder := (hash .& BITMASK (bps qf))%u64 in
  let hash_bucket_index := (hash >>> bps qf)%u64 in
  let? found :=
    (if is_occupied qf hash_bucket_index then
       let? runstart_index := run_start_of qf hash_bucket_index in
       seek_in_run qf (scan_fuel qf) hash_remainder runstart_index
     else Some None) in
  let? qfi :=
    match found with
    | Some slot => Some (mk_QFi qf hash_bucket_index slot 0)
    | None =>
      let position := first_occupied_from_block qf hash_bucket_index in
      let? current := run_start_of qf position in
      Some (mk_QFi qf position current 0)
    end in
  Some (start_result qf qfi, qfi).

Definition qfi_end (qfi : QFi) : bool := qfi.(iqf).(metadata).(xnslots) <=? qfi.(current).

(** [(ret, key, value, count)]; the outputs are untouched ([0] in the callers) at the end. *)
Definition qfi_get (qfi : QFi) : option (Z * Z * Z * Z) :=
  if qfi_end qfi then Some (QFI_INVALID, 0, 0, 0) else
  let md := qfi.(iqf).(metadata) in
  let? (_, current_remainder, current_count) := decode_counter qfi.(iqf) qfi.(current) in
  let value := (current_remainder .& BITMASK md.(value_bits))%u64 in
  let current_remainder := (current_remainder >>> md.(value_bits))%u64 in
  let key := ((qfi.(run) <<< md.(key_remainder_bits)) .| current_remainder)%u64 in
  Some (0, key, value, current_count).

Definition qfi_get_key (qfi : QFi) : option (Z * Z * Z * Z) :=
  let? (ret, key, value, count) := qfi_get qfi in
  if ret =? 0 then
    match qfi.(iqf).(metadata).(hash_mode) with
    | QF_HASH_DEFAULT => Some (QF_INVALID, 0, 0, 0)
    | QF_HASH_INVERTIBLE => Some (ret, hash_64i key (BITMASK qfi.(iqf).(metadata).(key_bits)), value, count)
    | QF_HASH_NONE => Some (ret, key, value, count)
    end
  else Some (ret, key, value, count).

Definition qfi_get_hash (qfi : QFi) : option (Z * Z * Z * Z) := qfi_get qfi.

Definition qfi_next (qfi : QFi) : option (Z * QFi) :=
  if qfi_end qfi then Some (QFI_INVALID, qfi) else
  let qf := qfi.(iqf) in
  let? (current_end, _, _) := decode_counter qf qfi.(current) in
  let qfi := set_current qfi current_end in
  if negb (is_runend qf qfi.(current)) then
    let qfi := set_current qfi (qfi.(current) + 1)%u64 in
    Some (if qfi_end qfi then QFI_INVALID else 0, qfi)
  else
    let block_index := qfi.(run) / QF_SLOTS_PER_BLOCK in
    let rank := bitrank (block_word qf OCC block_index) (qfi.(run) mod QF_SLOTS_PER_BLOCK) in
    let next_run := bitselect (block_word qf OCC block_index) rank in
    let '(block_index, next_run) :=
      if next_run =? 64 then next_occupied_block qf (block_fuel qf) block_index next_run
      else (block_index, next_run) in
    if block_index =? qf.(metadata).(nblocks) then
      Some (QFI_INVALID, set_run qfi qf.(metadata).(xnslots) qf.(metadata).(xnslots))
    else
      let run := (block_index * QF_SLOTS_PER_BLOCK + next_run)%u64 in
      let current := (qfi.(current) + 1)%u64 in
      Some (0, set_run qfi run (if current <? run then run else current)).
