(* ===== verification/Filter.v ===== *)
(** * The key-value-counter operations ([gqf.c], [qf_init] .. [qf_get_...])

    The interface of the filter: life cycle, insertion with automatic resizing, removal
    and queries.  [container_resize] is a function pointer; the operations that reach
    it are defined against the function it points to, and [qf_insert] ties the knot for
    filters on the heap. *)

From S2P Require Import Prelude Doubles BitSeq RankSelect Hashutil Blocks Locks CounterCode Insert Remove Iterator.
From Stdlib Require Import SpecFloat.
Import ListNotations.
#[local] Open Scope Z_scope.

(** ** Double-precision arithmetic *)

Definition f64_three_quarters : spec_float := binary_normalize 53 1024 3 (-2) false.

(** Conversion to [uint64_t] (of a value in its range). *)
Definition u64_of_f64 (x : spec_float) : Z :=
  match x with
  | S754_finite false m e => if 0 <=? e then Z.pos m * 2 ^ e else Z.pos m / 2 ^ (- e)
  | _ => 0
  end.

(** ** Life cycle *)

Definition sizeof_qfmetadata : Z := 128.

(** [while (nslots > 1) { key_remainder_bits--; nslots >>= 1; }] *)
Fixpoint quotient_loop (fuel : nat) (nslots key_remainder_bits : Z) : Z :=
  match fuel with
  | O => key_remainder_bits
  | S fuel =>
    if 1 <? nslots then quotient_loop fuel (nslots >>> 1)%u64 (key_remainder_bits - 1)%u64
    else key_remainder_bits
  end.

Definition qf_xnslots (nslots : Z) : Z :=
  u64_of_f64 (f64_add (f64 nslots) (f64_mul (f64 10) (f64_sqrt (f64 nslots)))).

(** [qf_init] on a buffer of [buffer_len] bytes ([None]: a null buffer): the number of
    bytes needed, and the filter, initialised if the buffer is large enough. *)
Definition qf_init (qf : QF) (num_slots key_bits value_bits : Z) (hash : qf_hashmode) (seed : Z)
    (buffer_len : option Z) : Z * QF :=
  let xnslots := qf_xnslots num_slots in
  let nblocks := ((xnslots + QF_SLOTS_PER_BLOCK - 1)%u64 / QF_SLOTS_PER_BLOCK)%Z in
  let key_remainder_bits := quotient_loop 64 num_slots key_bits in
  let bits_per_slot := (key_remainder_bits + value_bits)%u64 in
  let size := (nblocks * (sizeof_qfblock + ((QF_SLOTS_PER_BLOCK * bits_per_slot)%u64 / 8)%Z))%u64 in
  let total_num_bytes := (sizeof_qfmetadata + size)%u64 in
  match buffer_len with
  | None => (total_num_bytes, qf)
  | Some buffer_len =>
    if buffer_len <? total_num_bytes then (total_num_bytes, qf) else
    let range := Z.shiftl num_slots key_remainder_bits mod 2 ^ 128 in
    let md := mk_metadata MAGIC_NUMBER hash 0 size seed num_slots xnslots key_bits value_bits
                key_remainder_bits bits_per_slot range nblocks 0 0 0 in
    let num_locks := (xnslots / NUM_SLOTS_TO_LOCK + 2)%Z in
    let rt := mk_runtime qf.(runtimedata).(filepath) (Some qf_resize_malloc_fn) num_locks 0
                (repeat 0 (Z.to_nat num_locks)) in
    (total_num_bytes, mk_QF rt md 0)
  end.

Definition zero_runtime : qfruntime := mk_runtime None None 0 0 [].

(** [qf_use]: the buffer holds a filter's metadata and blocks.  The run-time data is
    zeroed, [num_locks] with it, before the locks are allocated. *)
Definition qf_use (buffer : qfmetadata * Z) (buffer_len : Z) (qf : QF) : Z * QF :=
  let md := fst buffer in
  if buffer_len <? (md.(total_size_in_bytes) + sizeof_qfmetadata)%u64
  then ((md.(total_size_in_bytes) + sizeof_qfmetadata)%u64, set_metadata qf md)
  else
    let rt := zero_runtime in
    let rt := mk_runtime rt.(filepath) rt.(container_resize) rt.(num_locks) 0
                (repeat 0 (Z.to_nat rt.(num_locks))) in
    ((sizeof_qfmetadata + md.(total_size_in_bytes))%u64, mk_QF rt md (snd buffer)).

(** [qf_destroy] frees the run-time data and hands back the buffer. *)
Definition qf_destroy (qf : QF) : qfmetadata * Z := (qf.(metadata), qf.(blocks)).

(** An uninitialised [QF] on the stack. *)
Definition blank_QF : QF := mk_QF zero_runtime (mk_metadata 0 QF_HASH_NONE 0 0 0 0 0 0 0 0 0 0 0 0 0 0) 0.

(** [qf_malloc]; [alloc_ok]: whether the allocations succeed ([None]: [exit]). *)
Definition qf_malloc (alloc_ok : bool) (qf : QF) (nslots key_bits value_bits : Z) (hash : qf_hashmode) (seed : Z)
    : option (bool * QF) :=
  let total_num_bytes := fst (qf_init qf nslots key_bits value_bits hash seed None) in
  if negb alloc_ok then None else
  let qf := set_runtime qf zero_runtime in
  let '(init_size, qf) := qf_init qf nslots key_bits value_bits hash seed (Some total_num_bytes) in
  Some (init_size =? total_num_bytes, qf).

(** [qf_free]: [true], as the buffer of a filter is not null. *)
Definition qf_free (qf : QF) : bool := let buffer := qf_destroy qf in true.

(** [qf_copy]: the run-time data is copied too, with its pointer to the locks. *)
Definition qf_copy (dest src : QF) : QF :=
  mk_QF src.(runtimedata) src.(metadata)
    (store dest.(blocks) 0 src.(metadata).(total_size_in_bytes) src.(blocks)).

Definition qf_reset (qf : QF) : QF :=
  let size := (qf.(metadata).(nblocks) * (sizeof_qfblock + QF_SLOTS_PER_BLOCK * bps qf / 8))%Z in
  mk_QF qf.(runtimedata) (set_counters qf.(metadata) 0 0 0) (store qf.(blocks) 0 size 0).

Definition set_auto_resize (md : qfmetadata) (v : Z) : qfmetadata :=
  mk_metadata md.(magic_endian_number) md.(hash_mode) v md.(total_size_in_bytes) md.(seed) md.(nslots)
    md.(xnslots) md.(key_bits) md.(value_bits) md.(key_remainder_bits) md.(bits_per_slot) md.(range)
    md.(nblocks) md.(nelts) md.(ndistinct_elts) md.(noccupied_slots).

Definition qf_set_auto_resize (qf : QF) (enabled : bool) : QF :=
  set_metadata qf (set_auto_resize qf.(metadata) (if enabled then 1 else 0)).

(** ** Queries *)

(** The [do]-[while] over the counters of a run: the first whose remainder satisfies
    [found], as (start, end, remainder, count). *)
Fixpoint scan_run (qf : QF) (found : Z -> bool) (fuel : nat) (runstart_index : Z)
    : option (option (Z * Z * Z * Z)) :=
  match fuel with
  | O => None
  | S fuel =>
    let? (current_end, current_remainder, current_count) := decode_counter qf runstart_index in
    if found current_remainder
    then Some (Some (runstart_index, current_end, current_remainder, current_count))
    else if negb (is_runend qf current_end) then scan_run qf found fuel (current_end + 1)%u64
    else Some None
  end.

(** The run of [hash_bucket_index] searched for [found]; [None] inside: not there. *)
Definition search_bucket (qf : QF) (found : Z -> bool) (hash_bucket_index : Z)
    : option (option (Z * Z * Z * Z)) :=
  if negb (is_occupied qf hash_bucket_index) then Some None else
  let? runstart_index := run_start_of qf hash_bucket_index in
  scan_run qf found (scan_fuel qf) runstart_index.

Definition qf_count_key_value (qf : QF) (key value flags : Z) : option Z :=
  let hash := hash_of qf (hash_of_key qf key flags) value in
  let hash_remainder := (hash .& BITMASK (bps qf))%u64 in
  let hash_bucket_index := (hash >>> bps qf)%u64 in
  let? r := search_bucket qf (fun rem => rem =? hash_remainder) hash_bucket_index in
  match r with Some (_, _, _, count) => Some count | None => Some 0 end.

(** [qf_query]: the count, and what is written to [*value] (the value of the last
    counter looked at; [None]: nothing). *)
Fixpoint query_run (qf : QF) (fuel : nat) (hash_remainder runstart_index : Z) : option (Z * Z) :=
  match fuel with
  | O => None
  | S fuel =>
    let? (current_end, current_remainder, current_count) := decode_counter qf runstart_index in
    let value := (current_remainder .& BITMASK qf.(metadata).(value_bits))%u64 in
    let current_remainder := (current_remainder >>> qf.(metadata).(value_bits))%u64 in
    if current_remainder =? hash_remainder then Some (current_count, value)
    else if negb (is_runend qf current_end) then query_run qf fuel hash_remainder (current_end + 1)%u64
    else Some (0, value)
  end.

Definition qf_query (qf : QF) (key flags : Z) : option (Z * option Z) :=
  let hash := hash_of_key qf key flags in
  let hash_remainder := (hash .& BITMASK qf.(metadata).(key_remainder_bits))%u64 in
  let hash_bucket_index := (hash >>> qf.(metadata).(key_remainder_bits))%u64 in
  if negb (is_occupied qf hash_bucket_index) then Some (0, None) else
  let? runstart_index := run_start_of qf hash_bucket_index in
  let? (count, value) := query_run qf (scan_fuel qf) hash_remainder runstart_index in
  Some (count, Some value).

Definition qf_get_unique_index (qf : QF) (key value flags : Z) : option Z :=
  let hash := hash_of qf (hash_of_key qf key flags) value in
  let hash_remainder := (hash .& BITMASK (bps qf))%u64 in
  let hash_bucket_index := (hash >>> bps qf)%u64 in
  let? r := search_bucket qf (fun rem => rem =? hash_remainder) hash_bucket_index in
  match r with Some (runstart_index, _, _, _) => Some (i64 runstart_index) | None => Some QF_DOESNT_EXIST end.

Definition qf_get_hashmode (qf : QF) : qf_hashmode := qf.(metadata).(hash_mode).
Definition qf_get_hash_seed (qf : QF) : Z := qf.(metadata).(seed).
Definition qf_get_hash_range (qf : QF) : Z := qf.(metadata).(range).
Definition qf_is_auto_resize_enabled (qf : QF) : bool := qf.(metadata).(auto_resize) =? 1.
Definition qf_get_total_size_in_bytes (qf : QF) : Z := qf.(metadata).(total_size_in_bytes).
Definition qf_get_nslots (qf : QF) : Z := qf.(metadata).(nslots).
Definition qf_get_num_occupied_slots (qf : QF) : Z := qf.(metadata).(noccupied_slots).
Definition qf_get_num_key_bits (qf : QF) : Z := qf.(metadata).(key_bits).
Definition qf_get_num_value_bits (qf : QF) : Z := qf.(metadata).(value_bits).
Definition qf_get_num_key_remainder_bits (qf : QF) : Z := qf.(metadata).(key_remainder_bits).
Definition qf_get_bits_per_slot (qf : QF) : Z := qf.(metadata).(bits_per_slot).
Definition qf_get_sum_of_counts (qf : QF) : Z := qf.(metadata).(nelts).
Definition qf_get_num_distinct_key_value_pairs (qf : QF) : Z := qf.(metadata).(ndistinct_elts).

(** ** Removal *)

Definition qf_remove (qf : QF) (key value count flags : Z) : option (Z * QF) :=
  if count =? 0 then Some (0, qf) else
  remove qf (hash_of qf (hash_of_key qf key flags) value) count flags.

Definition qf_delete_key_value (qf : QF) (key value flags : Z) : option (Z * QF) :=
  let? count := qf_count_key_value qf key value flags in
  if count =? 0 then Some (0, qf) else qf_remove qf key value count flags.

(** ** Insertion and resizing *)

(** [noccupied_slots >= nslots * 0.75], in double precision. *)
Definition load_exceeded (md : qfmetadata) : bool :=
  SFleb (f64_mul (f64 md.(nslots)) f64_three_quarters) (f64 md.(noccupied_slots)).

Section Resizing.
(** What [container_resize] acts on besides the filter, and the function it points to. *)
Context {St : Type} (resize : St -> QF -> Z -> option (Z * QF * St)).

Definition insert_hash (qf : QF) (hash count flags : Z) : option (Z * QF) :=
  if count =? 1 then insert1 qf hash flags else insert qf hash count flags.

Definition qf_insert_with (s : St) (qf : QF) (key value count flags : Z) : option (Z * QF * St) :=
  let? (proceed, qf, s) :=
    (if load_exceeded qf.(metadata) then
       if negb (qf.(metadata).(auto_resize) =? 0) then
         let? (r, qf, s) := resize s qf (qf.(metadata).(nslots) * 2)%u64 in
         if r <? 0 then Some (false, qf, s) else Some (true, qf, s)
       else Some (false, qf, s)
     else Some (true, qf, s)) in
  if negb proceed then Some (QF_NO_SPACE, qf, s) else
  if qf.(metadata).(nslots) <=? qf.(metadata).(noccupied_slots) then Some (QF_NO_SPACE, qf, s) else
  if count =? 0 then Some (0, qf, s) else
  let hash := hash_of qf (hash_of_key qf key flags) value in
  let? (ret, qf) := insert_hash qf hash count flags in
  if (ret =? QF_NO_SPACE) || (DISTANCE_FROM_HOME_SLOT_CUTOFF <? ret) then
    if negb (qf.(metadata).(auto_resize) =? 0) then
      let? (r, qf, s) := resize s qf (qf.(metadata).(nslots) * 2)%u64 in
      if 0 <? r then
        if ret =? QF_NO_SPACE then
          let? (ret, qf) := insert_hash qf hash count flags in Some (ret, qf, s)
        else Some (ret, qf, s)
      else Some (QF_NO_SPACE, qf, s)
    else Some (QF_NO_SPACE, qf, s)
  else Some (ret, qf, s).

(** The copy loop of the resize functions: [do { get; next; insert } while (!end)];
    a negative [ret] stops it. *)
Fixpoint copy_keys (fuel : nat) (s : St) (new_qf : QF) (qfi : QFi) (ret_numkeys : Z)
    : option (Z * QF * St) :=
  match fuel with
  | O => None
  | S fuel =>
    let? (_, key, value, count) := qfi_get_hash qfi in
    let? (_, qfi) := qfi_next qfi in
    let? (ret, new_qf, s) := qf_insert_with s new_qf key value count (Z.lor QF_NO_LOCK QF_KEY_IS_HASH) in
    if ret <? 0 then Some (ret, new_qf, s) else
    let ret_numkeys := ret_numkeys + 1 in
    if negb (qfi_end qfi) then copy_keys fuel s new_qf qfi ret_numkeys
    else Some (ret_numkeys, new_qf, s)
  end.

(** [qf_resize_malloc]: on failure the old filter stays. *)
Definition qf_resize_malloc_with (alloc_ok : bool) (s : St) (qf : QF) (nslots : Z) : option (Z * QF * St) :=
  let md := qf.(metadata) in
  let? (ok, new_qf) :=
    qf_malloc alloc_ok blank_QF nslots md.(key_bits) md.(value_bits) md.(hash_mode) md.(seed) in
  if negb ok then Some (-1, qf, s) else
  let new_qf := if negb (md.(auto_resize) =? 0) then qf_set_auto_resize new_qf true else new_qf in
  let? (_, qfi) := qf_iterator_from_position qf 0 in
  let? (ret, new_qf, s) := copy_keys (S (scan_fuel qf)) s new_qf qfi 0 in
  if ret <? 0 then Some (ret, qf, s) else Some (ret, new_qf, s).

(** [qf_resize]; a failing insertion aborts ([None]). *)
Definition qf_resize_with (s : St) (qf : QF) (nslots buffer_len : Z) : option (Z * QF * St) :=
  let md := qf.(metadata) in
  let '(init_size, new_qf) :=
    qf_init (set_runtime blank_QF zero_runtime) nslots md.(key_bits) md.(value_bits) md.(hash_mode) md.(seed)
      (Some buffer_len) in
  if buffer_len <? init_size then Some (init_size, qf, s) else
  let new_qf := if negb (md.(auto_resize) =? 0) then qf_set_auto_resize new_qf true else new_qf in
  let? (_, qfi) := qf_iterator_from_position qf 0 in
  let? (ret, new_qf, s) := copy_keys (S (scan_fuel qf)) s new_qf qfi 0 in
  if ret <? 0 then None else Some (init_size, new_qf, s).

Definition qf_set_count_with (s : St) (qf : QF) (key value count flags : Z) : option (Z * QF * St) :=
  if count =? 0 then Some (0, qf, s) else
  let? cur_count := qf_count_key_value qf key value flags in
  let delta := i64 (count - cur_count) in
  if delta =? 0 then Some (0, qf, s)
  else if 0 <? delta then qf_insert_with s qf key value delta flags
  else let? (ret, qf) := qf_remove qf key value (Z.abs delta) flags in Some (ret, qf, s).

Definition qf_replace_with (s : St) (qf : QF) (key oldvalue newvalue flags : Z) : option (Z * QF * St) :=
  let? count := qf_count_key_value qf key oldvalue flags in
  if 0 <? count then
    let? (ret, qf) := qf_remove qf key oldvalue count flags in
    if ret <? 1 then Some (ret, qf, s) else qf_insert_with s qf key newvalue count flags
  else qf_insert_with s qf key newvalue count flags.
End Resizing.

(** ** Filters on the heap *)

(** A filter whose [container_resize] is [qf_resize_malloc].  Each nested resize doubles
    the number of slots, so 64 levels cover every 64-bit number of slots. *)
Fixpoint heap_resize (depth : nat) (s : unit) (qf : QF) (nslots : Z) : option (Z * QF * unit) :=
  match depth with
  | O => None
  | S depth =>
    match qf.(runtimedata).(container_resize) with
    | Some qf_resize_malloc_fn => qf_resize_malloc_with (heap_resize depth) true s qf nslots
    | _ => None
    end
  end.

Definition resize_depth : nat := 64.

Definition drop_unit {A : Type} (r : option (A * QF * unit)) : option (A * QF) :=
  let? (a, qf, _) := r in Some (a, qf).

Definition qf_resize_malloc (qf : QF) (nslots : Z) : option (Z * QF) :=
  drop_unit (qf_resize_malloc_with (heap_resize resize_depth) true tt qf nslots).
Definition qf_insert (qf : QF) (key value count flags : Z) : option (Z * QF) :=
  drop_unit (qf_insert_with (heap_resize resize_depth) tt qf key value count flags).
Definition qf_set_count (qf : QF) (key value count flags : Z) : option (Z * QF) :=
  drop_unit (qf_set_count_with (heap_resize resize_depth) tt qf key value count flags).
Definition qf_replace (qf : QF) (key oldvalue newvalue flags : Z) : option (Z * QF) :=
  drop_unit (qf_replace_with (heap_resize resize_depth) tt qf key oldvalue newvalue flags).
Definition qf_resize (qf : QF) (nslots buffer_len : Z) : option (Z * QF) :=
  drop_unit (qf_resize_with (heap_resize resize_depth) tt qf nslots buffer_len).
