(* ===== verification/FilterTheorems.v ===== *)
(** * What the filter guarantees

    The theorems about the filter's representation and operations, each at work on a
    small concrete filter; first, the scan of a run that answers a query. *)

From S2P Require Import Prelude BitSeq RankSelect Hashutil Blocks BlockBits Shifting Layout Locks CounterCode Runs Insert Repr InsertSlot InsertPlace InsertOne Iterator Filter.
From Stdlib Require Import Sorted.
Import ListNotations.
#[local] Open Scope Z_scope.

(** * Queries *)

Lemma run_at_end slot runend i l l' : run_at slot runend i (l ++ l') -> l <> [] ->
  runend (i + Z.of_nat (length l) - 1) = match l' with [] => true | _ => false end.
Proof.
  intros [_ H _ _] N. destruct l as [|x l]; [congruence|].
  replace (i + Z.of_nat (length (x :: l)) - 1) with (i + Z.of_nat (length l)) by (cbn [length]; lia).
  rewrite H by (rewrite length_app; cbn [length]; lia). rewrite length_app. cbn [length].
  destruct l' as [|y l']; cbn [length]; [apply Nat.eqb_eq; lia|apply Nat.eqb_neq; lia].
Qed.

(** Decoding at the start of a counter of a run. *)
Lemma decode_counter_run qf i r c m l l' :
  2 <= bps qf <= 56 -> fits (bps qf) r -> 1 <= c < 2 ^ 64 -> code (bps qf) r c l ->
  Forall (fun p => r < fst p) m -> run_code (bps qf) m l' ->
  run_at (get_slot qf) (is_runend qf) i (l ++ l') -> (length (l ++ l') <= scan_fuel qf)%nat ->
  decode_counter qf i = Some (i + Z.of_nat (length l) - 1, r, c).
Proof.
  intros Hw Hr Hc Hl HF Hm H Hf. destruct (run_code_rest (bps qf) r m l' ltac:(apply Hr) Hm HF) as [Hrest Hz].
  apply (decode_code _ _ (bps qf) Hw r c l l' _ i); auto.
Qed.

Section Scan.
Context (qf : QF) (found : Z -> bool).
Hypothesis Hw : 2 <= bps qf <= 56.

(** The scan returns the first counter whose remainder is asked for. *)
Lemma scan_run_spec m l : run_code (bps qf) m l -> forall i fuel,
  m <> [] -> run_at (get_slot qf) (is_runend qf) i l -> (length l <= scan_fuel qf)%nat -> (length l <= fuel)%nat ->
  match find (fun p => found (fst p)) m with
  | Some (r, c) => exists s e, i <= s <= e /\ e < i + Z.of_nat (length l) /\ get_slot qf s = r
                     /\ scan_run qf found fuel i = Some (Some (s, e, r, c))
  | None => scan_run qf found fuel i = Some None
  end.
Proof.
  induction 1 as [|r c m l l' Hr Hc Hl HF Hm IH]; [congruence|]. intros i fuel _ H Hf Hf'.
  pose proof (code_length _ _ _ _ Hl) as L1. destruct (code_head _ _ _ _ Hl) as (t0 & Et).
  rewrite length_app in *. destruct fuel as [|fuel]; [lia|]. cbn [scan_run find fst].
  rewrite (decode_counter_run qf i r c m l l') by (rewrite ?length_app; auto).
  assert (B : 0 <= i /\ i + Z.of_nat (length l) + Z.of_nat (length l') < 2 ^ 63)
    by (destruct H as [_ _ B _]; rewrite length_app in B; lia).
  destruct (found r).
  - exists i, (i + Z.of_nat (length l) - 1). repeat split; try lia.
    rewrite Et in H. now apply run_at_head in H as [? _].
  - rewrite (run_at_end _ _ i l l' H) by (rewrite Et; discriminate).
    destruct m as [|[r' c'] m].
    + inversion Hm; subst. reflexivity.
    + destruct (run_code_head _ _ _ _ _ Hm) as (t' & Et'). 
      assert (En : match l' with [] => true | _ => false end = false) by now rewrite Et'.
      rewrite En. cbn [negb].
      rewrite succ64 by lia. replace (i + Z.of_nat (length l) - 1 + 1) with (i + Z.of_nat (length l)) by lia.
      apply run_at_app in H; [|rewrite Et'; discriminate].
      specialize (IH (i + Z.of_nat (length l)) fuel ltac:(discriminate) H ltac:(lia) ltac:(lia)).
      destruct (find _ _) as [[r0 c0]|]; [|exact IH]. destruct IH as (s & e & H1 & H2 & H3 & H4).
      exists s, e. repeat split; auto; lia.
Qed.
End Scan.

Lemma find_remainder h m : StronglySorted (fun a b : Z * Z => fst a < fst b) m ->
  find (fun p => fst p =? h) m = if existsb (fun p => fst p =? h) m then Some (h, lookup_item h m) else None.
Proof.
  induction 1 as [|[r c] m _ IH F]; [reflexivity|]. cbn. rewrite (Z.eqb_sym h r).
  destruct (Z.eqb_spec r h) as [->|]; [reflexivity|exact IH].
Qed.

Lemma lookup_absent h m : existsb (fun p => fst p =? h) m = false -> lookup_item h m = 0.
Proof.
  induction m as [|[r c] m IH]; [reflexivity|]. cbn. rewrite (Z.eqb_sym h r). destruct (r =? h); [discriminate|exact IH].
Qed.

(** ** The bucket *)

Lemma run_start_of_spec qf runs (R : repr qf runs) q :
  0 <= q < 64 * nblocks (metadata qf) -> run_start_of qf q = Some (run_start (run_len runs) q).
Proof.
  intros Hq. unfold run_start_of. rewrite (repr_run_start qf runs R) by exact Hq.
  destruct (Z.ltb_spec (run_start (run_len runs) q) q); [unfold run_start in *; lia|reflexivity].
Qed.

Lemma search_bucket_spec qf m found q :
  holds qf m -> 2 <= bps qf -> 0 <= q < 64 * nblocks (metadata qf) ->
  match find (fun p => found (fst p)) (m q) with
  | Some (r, c) => exists s e, q <= s <= e /\ get_slot qf s = r /\ search_bucket qf found q = Some (Some (s, e, r, c))
  | None => search_bucket qf found q = Some None
  end.
Proof.
  intros (runs & R & Hm) Hw2 Hq. pose proof (repr_width _ _ R) as Hw. unfold width_ok in Hw.
  specialize (Hm q ltac:(lia)). unfold search_bucket. rewrite (repr_occupied qf runs R) by lia.
  destruct (Z.eqb_spec (run_len runs q) 0) as [E0|N0]; cbn [negb].
  - apply run_len_nil in E0. rewrite E0 in Hm. apply run_code_nil in Hm. rewrite Hm. reflexivity.
  - rewrite (run_start_of_spec qf runs R) by lia. assert (N : runs q <> []) by (rewrite run_len_nil; exact N0).
    assert (Nm : m q <> []) by (intros E; rewrite E in Hm; inversion Hm; congruence).
    destruct (run_in_bounds qf runs q [] R ltac:(lia) N) as (Hp & Hb & _ & Hf).
    pose proof (scan_run_spec qf found ltac:(lia) (m q) (runs q) Hm (run_start (run_len runs) q) (scan_fuel qf) Nm
      (repr_run_at qf runs R q ltac:(lia) N) Hf Hf) as S.
    destruct (find _ _) as [[r c]|]; [|exact S]. destruct S as (s & e & H1 & H2 & H3 & H4).
    exists s, e. repeat split; auto; unfold run_start in H1; lia.
Qed.

(** * What the filter guarantees *)

(** ** A concrete filter *)

(** Two blocks of eight-bit slots. *)
Definition demo_metadata : qfmetadata :=
  mk_metadata MAGIC_NUMBER QF_HASH_NONE 0 (2 * 82) 0 64 128 14 0 8 8 16384 2 0 0 0.
Definition demo0 : QF := mk_QF (mk_runtime None (Some qf_resize_malloc_fn) 2 0 [0; 0]) demo_metadata 0.

Definition run_insert1 (qf : QF) (hash flags : Z) : QF :=
  match insert1 qf hash flags with Some (_, qf) => qf | None => qf end.

(** Remainder 5 twice in bucket 3, and remainder 9 in bucket 4, which bucket 3 pushes
    away from its home slot. *)
Definition demo1 : QF := Eval vm_compute in run_insert1 demo0 0x305 QF_WAIT_FOR_LOCK.
Definition demo2 : QF := Eval vm_compute in run_insert1 demo1 0x305 QF_WAIT_FOR_LOCK.
Definition demo3 : QF := Eval vm_compute in run_insert1 demo2 0x409 QF_WAIT_FOR_LOCK.

Definition demo_items (q : Z) : items := if q =? 3 then [(5, 2)] else if q =? 4 then [(9, 1)] else [].

Lemma holds_empty qf : 1 <= bps qf <= 56 -> 0 <= 64 * nblocks (metadata qf) < 2 ^ 62 -> blocks qf = 0 ->
  holds qf (fun _ => []).
Proof. intros H1 H2 H3. exists (fun _ => []). split; [now apply repr_empty|]. intros q _. constructor. Qed.

(** One more hash in one of these filters. *)
Lemma demo_step qf m hash qf' :
  holds qf m -> bps qf = 8 -> nblocks (metadata qf) = 2 -> metadata_lock (runtimedata qf) = 0 ->
  locks (runtimedata qf) = [0; 0] -> 0 <= hash < 64 * 256 ->
  is_empty qf 127 = true -> get_offset qf 0 < 65535 -> get_offset qf 1 < 65535 ->
  count_of qf m hash + 1 < 2 ^ 64 -> run_insert1 qf hash QF_WAIT_FOR_LOCK = qf' ->
  holds qf' (add_hash qf m hash 1).
Proof.
  intros H B N L Ls Hh He O0 O1 Hc E.
  assert (Hq : 0 <= hash_bucket qf hash < 64).
  { unfold hash_bucket. rewrite B. change (2 ^ 8) with 256. pose proof (Z.div_pos hash 256). pose proof (Z.div_lt_upper_bound hash 256 64). lia. }
  destruct (insert1_spec qf m hash QF_WAIT_FOR_LOCK) as (ret & grew & q' & E' & H' & _); auto; try lia.
  - right. rewrite Ls. unfold lock_plan, NUM_SLOTS_TO_LOCK, CLUSTER_SIZE.
    rewrite Z.div_small, Z.mod_small by lia. split; [repeat constructor; auto|].
    destruct (_ <=? _); repeat constructor.
  - split; [exists 127; split; [rewrite N; lia|exact He]|]. rewrite N. intros b Hb. assert (b = 0 \/ b = 1) as [->| ->] by lia; assumption.
  - unfold run_insert1 in E. rewrite E' in E. congruence.
Qed.

Lemma holds_items qf m m' : (forall q, 0 <= q -> m q = m' q) -> holds qf m -> holds qf m'.
Proof. intros E (runs & R & H). exists runs. split; [exact R|]. intros q Hq. rewrite <- E; auto. Qed.

Lemma demo3_holds : holds demo3 demo_items.
Proof.
  assert (H0 : holds demo0 (fun _ => [])) by (apply holds_empty; [cbn; lia|cbn; lia|reflexivity]).
  assert (H1 := demo_step demo0 _ 0x305 demo1 H0 eq_refl eq_refl eq_refl eq_refl ltac:(lia) eq_refl eq_refl eq_refl
    ltac:(vm_compute; reflexivity) ltac:(vm_compute; reflexivity)).
  assert (H2 := demo_step demo1 _ 0x305 demo2 H1 eq_refl eq_refl eq_refl eq_refl ltac:(lia) eq_refl eq_refl eq_refl
    ltac:(vm_compute; reflexivity) ltac:(vm_compute; reflexivity)).
  assert (H3 := demo_step demo2 _ 0x409 demo3 H2 eq_refl eq_refl eq_refl eq_refl ltac:(lia) eq_refl eq_refl eq_refl
    ltac:(vm_compute; reflexivity) ltac:(vm_compute; reflexivity)).
  refine (holds_items _ _ _ _ H3). intros q _.
  unfold add_hash, upd, demo_items. change (hash_bucket _ 0x409) with 4. change (hash_bucket _ 0x305) with 3.
  change (hash_rem _ 0x409) with 9. change (hash_rem _ 0x305) with 5. cbn beta.
  destruct (Z.eqb_spec q 4) as [->|]; [reflexivity|]. destruct (Z.eqb_spec q 3) as [->|]; reflexivity.
Qed.

Lemma demo_room : has_room demo3 4.
Proof.
  split; [exists 127; split; [cbn; lia|vm_compute; reflexivity]|].
  intros b Hb. assert (b = 0 \/ b = 1) as [->| ->] by (cbn in Hb; lia); vm_compute; reflexivity.
Qed.

(** ** Insertion and lookup *)

Lemma count_add_hash qf m hash k x :
  holds qf m -> 0 <= hash -> 0 <= x ->
  count_of qf (add_hash qf m hash k) x = count_of qf m x + (if x =? hash then k else 0).
Proof.
  intros (runs & R & Hm) Hh Hx. unfold count_of, add_hash, upd.
  assert (P : 0 < 2 ^ bps qf) by (pose proof (repr_width _ _ R) as W; unfold width_ok in W; apply Z.pow_pos_nonneg; lia).
  assert (B : 0 <= hash_bucket qf hash) by (apply Z.div_pos; lia).
  assert (X : x = hash <-> hash_bucket qf x = hash_bucket qf hash /\ hash_rem qf x = hash_rem qf hash).
  { unfold hash_bucket, hash_rem. split; [intros ->; auto|]. intros [E1 E2].
    rewrite (Z.div_mod x (2 ^ bps qf)), (Z.div_mod hash (2 ^ bps qf)), E1, E2 by lia. reflexivity. }
  destruct (Z.eqb_spec (hash_bucket qf x) (hash_bucket qf hash)) as [E|N].
  - rewrite lookup_add_item by exact (run_code_sorted _ _ _ (Hm _ B)).
    rewrite E. destruct (Z.eqb_spec (hash_rem qf x) (hash_rem qf hash)), (Z.eqb_spec x hash); tauto || lia.
  - destruct (Z.eqb_spec x hash); [tauto|lia].
Qed.

(** C4: [insert1] adds exactly one copy.  On a filter that stores the contents [m], with
    room for the hash and its lock free (or not asked for), [insert1] returns; the new
    filter stores [m] with the count of this hash one higher and every other count as
    before.  The number of elements goes up by one, the number of distinct elements by
    one if the hash is new; the locks are given back and the rest of the metadata is kept.
    The result is the distance from the home slot of the slot that is taken: behind the
    counters of the smaller remainders of the bucket and, from the third copy on, behind the
    first slot of the hash's own counter; it is 0 if a counter is changed in place. *)
Theorem insert1_refines qf m hash flags :
  holds qf m -> 2 <= bps qf -> metadata_lock (runtimedata qf) = 0 -> lockable qf (hash_bucket qf hash) true flags ->
  0 <= hash -> hash_bucket qf hash < 64 * nblocks (metadata qf) -> has_room qf (hash_bucket qf hash) ->
  count_of qf m hash + 1 < 2 ^ 64 ->
  exists ret grew qf', insert1 qf hash flags = Some (ret, qf')
    /\ holds qf' (add_hash qf m hash 1)
    /\ (forall x, 0 <= x -> count_of qf (add_hash qf m hash 1) x = count_of qf m x + (if x =? hash then 1 else 0))
    /\ inserted1 qf m hash grew ret qf'.
Proof.
  intros H Hw Hm Hl Hh Hb Hr Hc.
  destruct (insert1_spec qf m hash flags) as (ret & grew & qf' & E & H' & I); auto.
  exists ret, grew, qf'. repeat split; try assumption; try apply I. intros x Hx. now apply count_add_hash.
Qed.

Lemma insert1_refines_witness :
  exists ret grew qf', insert1 demo3 0x409 QF_WAIT_FOR_LOCK = Some (ret, qf')
    /\ holds qf' (add_hash demo3 demo_items 0x409 1)
    /\ (forall x, 0 <= x -> count_of demo3 (add_hash demo3 demo_items 0x409 1) x
                           = count_of demo3 demo_items x + (if x =? 0x409 then 1 else 0))
    /\ inserted1 demo3 demo_items 0x409 grew ret qf'.
Proof.
  apply (insert1_refines demo3 demo_items 0x409 QF_WAIT_FOR_LOCK demo3_holds).
  - vm_compute. discriminate.
  - reflexivity.
  - right. change (locks (runtimedata demo3)) with [0; 0]. split; [repeat constructor; auto|].
    change (lock_plan _ true) with [0%nat]. repeat constructor.
  - discriminate.
  - reflexivity.
  - exact demo_room.
  - reflexivity.
Defined.

Lemma count_key_value_spec qf m key value flags :
  let hash := hash_of qf (hash_of_key qf key flags) value in
  holds qf m -> 2 <= bps qf -> 0 <= hash -> hash_bucket qf hash < 64 * nblocks (metadata qf) ->
  qf_count_key_value qf key value flags = Some (count_of qf m hash).
Proof.
  intros hash H Hw Hh Hb. pose proof H as (runs & R & Hm).
  pose proof (repr_width _ _ R) as W. pose proof (lo_size _ _ (rp_laid _ _ R)). unfold width_ok in W.
  destruct (hash_parts qf hash W Hh ltac:(lia)) as (Er & _ & _ & Hq).
  unfold qf_count_key_value. fold hash. rewrite Er. cbv zeta.
  assert (Eb : (hash >>> bps qf)%u64 = hash_bucket qf hash) by (unfold hash_bucket; rewrite Z.shiftr_div_pow2 by lia; reflexivity).
  rewrite Eb. unfold count_of. set (h := hash_rem qf hash). set (q := hash_bucket qf hash) in *.
  pose proof (search_bucket_spec qf m (fun r => r =? h) q H Hw ltac:(lia)) as S. cbv beta in S.
  rewrite find_remainder in S by (exact (run_code_sorted _ _ _ (Hm q Hq))).
  destruct (existsb _ _) eqn:X.
  - destruct S as (s & e & _ & _ & ->). reflexivity.
  - rewrite S, lookup_absent by exact X. reflexivity.
Qed.

(** C7: a count query returns the count.  On a filter that stores [m],
    [qf_count_key_value] returns, for every key and value whose hash is in range, how
    often this hash is in [m]; zero if it is not. *)
Theorem qf_count_key_value_correct qf m key value flags :
  let hash := hash_of qf (hash_of_key qf key flags) value in
  holds qf m -> 2 <= bps qf -> 0 <= hash -> hash_bucket qf hash < 64 * nblocks (metadata qf) ->
  qf_count_key_value qf key value flags = Some (count_of qf m hash).
Proof. exact (count_key_value_spec qf m key value flags). Qed.

Lemma qf_count_key_value_correct_witness :
  qf_count_key_value demo3 0x305 0 QF_KEY_IS_HASH = Some 2.
Proof.
  apply (qf_count_key_value_correct demo3 demo_items 0x305 0 QF_KEY_IS_HASH demo3_holds).
  - vm_compute. discriminate.
  - vm_compute. discriminate.
  - reflexivity.
Defined.

(** a taken lock is reported.  When one of the locks [insert1] needs is taken and the
    caller does not wait, it returns [QF_COULDNT_LOCK] and leaves the filter, locks
    included, as it was. *)
Theorem insert1_couldnt_lock qf hash flags :
  1 <= bps qf <= 56 -> 0 <= hash -> hash_bucket qf hash < 2 ^ 62 ->
  GET_NO_LOCK flags <> QF_NO_LOCK -> waits flags = false -> binary (locks (runtimedata qf)) ->
  Forall (fun i => (i < length (locks (runtimedata qf)))%nat) (lock_plan (hash_bucket qf hash) true) ->
  Exists (fun i => nth_error (locks (runtimedata qf)) i = Some 1) (lock_plan (hash_bucket qf hash) true) ->
  insert1 qf hash flags = Some (QF_COULDNT_LOCK, qf).
Proof.
  intros Hw Hh Hb Hn Hwt Hbin HF HE. destruct (hash_parts qf hash Hw Hh Hb) as (Er & Eb & _ & Hq).
  unfold insert1. rewrite Eb. rewrite lock_busy; auto.
  eapply Exists_impl; [|exact HE]. intros i. cbv beta. now rewrite nth_error_locks.
Qed.

Lemma insert1_couldnt_lock_witness :
  let qf := mk_QF (mk_runtime None None 2 0 [1; 0]) demo_metadata 0 in
  insert1 qf 0x305 QF_TRY_ONCE_LOCK = Some (QF_COULDNT_LOCK, qf).
Proof.
  intros qf. apply (insert1_couldnt_lock qf 0x305 QF_TRY_ONCE_LOCK).
  - vm_compute. split; discriminate.
  - discriminate.
  - reflexivity.
  - discriminate.
  - reflexivity.
  - constructor; [right; reflexivity|constructor; [left; reflexivity|constructor]].
  - change (lock_plan _ true) with [0%nat]. repeat constructor.
  - change (lock_plan _ true) with [0%nat]. constructor. reflexivity.
Defined.

(** ** The scans of the metadata *)

Lemma code_one w r c l : code w r c l -> c = 1 -> l = [r].
Proof. intros [] E; reflexivity || lia. Qed.

Lemma code_two w r c l : code w r c l -> c = 2 -> l = [r; r].
Proof. intros [] E; reflexivity || lia. Qed.

(** The demo filter as runs. *)
Lemma demo3_repr : exists runs, repr demo3 runs /\ runs 3 = [5; 5] /\ runs 4 = [9] /\ run_start (run_len runs) 4 = 5.
Proof.
  destruct demo3_holds as (runs & R & Hm). exists runs. split; [exact R|].
  assert (E3 : runs 3 = [5; 5]).
  { pose proof (Hm 3 ltac:(lia)) as H. change (demo_items 3) with [(5, 2)] in H.
    assert (N : runs 3 <> []) by (intros E; rewrite E in H; apply run_code_nil in H; discriminate).
    destruct (run_code_cons_inv _ _ _ _ _ H) as (l & l' & E & _ & _ & Hc & _ & Hn). inversion Hn; subst.
    rewrite app_nil_r in E. rewrite E. exact (code_two _ _ _ _ Hc eq_refl). }
  assert (E4 : runs 4 = [9]).
  { pose proof (Hm 4 ltac:(lia)) as H. change (demo_items 4) with [(9, 1)] in H.
    destruct (run_code_cons_inv _ _ _ _ _ H) as (l & l' & E & _ & _ & Hc & _ & Hn). inversion Hn; subst.
    rewrite app_nil_r in E. rewrite E. exact (code_one _ _ _ _ Hc eq_refl). }
  split; [exact E3|]. split; [exact E4|].
  pose proof (repr_run_end demo3 runs R 3 ltac:(cbn; lia)) as E. vm_compute (run_end demo3 3) in E.
  injection E as E. unfold run_start. change (4 - 1) with 3. lia.
Qed.

(** C19: [run_end] finds the runs.  In a filter laid out with runs of lengths [len], the
    last slot of the run of an occupied bucket is [run_end] of the bucket, and the slot
    after [run_end] of the previous bucket is its first; the scan over the blocks always
    ends within the filter's blocks. *)
Theorem run_end_locates_run qf len q :
  laid_out qf len -> 0 <= q < 64 * nblocks (metadata qf) -> len q <> 0 ->
  run_end qf q = Some (run_start len q + len q - 1)
  /\ is_runend qf (run_start len q + len q - 1) = true
  /\ (q <> 0 -> run_end qf (q - 1) = Some (Z.max q (run_stop len (q - 1)) - 1)
               /\ run_start len q = Z.max q (run_stop len (q - 1))).
Proof.
  intros L Hq E. pose proof (lo_wf _ _ L) as W. pose proof (wf_len _ _ _ W) as P.
  pose proof (run_stop_full len q ltac:(lia) E) as F. pose proof (P q) as Pq.
  assert (G : q <= run_start len q) by (unfold run_start; lia).
  split; [|split].
  - rewrite (run_end_spec qf len L q Hq), F. f_equal. lia.
  - rewrite is_runend_view by (try apply (lo_bps _ _ L); lia). apply (wf_run _ _ _ W); [lia|]. exists q. lia.
  - intros Hn. rewrite (run_end_spec qf len L (q - 1)) by lia. replace (q - 1 + 1) with q by lia. auto.
Qed.

Lemma run_end_locates_run_witness : exists len, laid_out demo3 len /\ run_end demo3 4 = Some (run_start len 4 + len 4 - 1).
Proof.
  destruct demo3_repr as (runs & R & _ & E4 & _). exists (run_len runs). split; [exact (rp_laid _ _ R)|].
  apply (run_end_locates_run demo3 (run_len runs) 4 (rp_laid _ _ R)).
  - cbn. lia.
  - unfold run_len. rewrite E4. discriminate.
Defined.

(** C20: [find_first_empty_slot] returns the first slot at or after [from] that is in no
    run, whenever the blocks hold one: the jumps by the offset lower bound never pass an
    empty slot, and make progress. *)
Theorem find_first_empty_slot_first qf len from e0 :
  laid_out qf len -> 0 <= from <= e0 -> e0 < 64 * nblocks (metadata qf) -> ~ used len e0 ->
  exists e, find_first_empty_slot qf from = Some e /\ from <= e <= e0 /\ ~ used len e
            /\ forall y, from <= y < e -> used len y.
Proof.
  intros L Hf He Hu. pose proof (wf_len _ _ _ (lo_wf _ _ L)) as P.
  assert (U : forall x, 0 <= x -> used len x <-> (run_stop len x <=? x) = false).
  { intros x Hx. rewrite used_iff, Z.leb_gt by assumption. reflexivity. }
  rewrite U in Hu by lia. apply not_false_is_true in Hu.
  destruct (least_from (fun x => run_stop len x <=? x) from e0 ltac:(lia) Hu) as (e & He' & Ee & Le).
  exists e. apply Z.leb_le in Ee. split.
  - apply (find_first_empty_slot_spec qf len L from e); try lia. intros y Hy. specialize (Le y Hy). apply Z.leb_gt in Le. lia.
  - split; [lia|]. split; [rewrite U by lia; rewrite (proj2 (Z.leb_le _ _) Ee); discriminate|].
    intros y Hy. apply U; [lia|]. now apply Le.
Qed.

Lemma find_first_empty_slot_first_witness :
  exists len e, laid_out demo3 len /\ find_first_empty_slot demo3 3 = Some e /\ 3 <= e <= 127.
Proof.
  destruct demo3_repr as (runs & R & _).
  destruct (find_first_empty_slot_first demo3 (run_len runs) 3 127 (rp_laid _ _ R)) as (e & E1 & E2 & _).
  - lia.
  - reflexivity.
  - rewrite used_iff by (try apply run_len_nonneg; lia).
    pose proof (repr_is_empty demo3 runs R 127 ltac:(cbn; lia)) as E. vm_compute (is_empty demo3 127) in E.
    symmetry in E. apply Z.leb_le in E. lia.
  - exists (run_len runs), e. split; [exact (rp_laid _ _ R)|auto].
Defined.

(** [is_empty] is exact: the offset lower bound is zero exactly on the slots that are
    in no run, and otherwise it does not reach past the slots in use. *)
Theorem offset_lower_bound_exact qf len x :
  laid_out qf len -> 0 <= x < 64 * nblocks (metadata qf) ->
  (is_empty qf x = true <-> ~ used len x)
  /\ 0 <= offset_lower_bound qf x
  /\ (forall y, x <= y < x + offset_lower_bound qf x -> used len y).
Proof.
  intros L Hx. pose proof (wf_len _ _ _ (lo_wf _ _ L)) as P.
  destruct (offset_lower_bound_spec qf len L x Hx) as (B & Z0 & J). split; [|split].
  - rewrite (is_empty_spec qf len L x Hx), used_iff, Z.leb_le by (auto; lia). lia.
  - lia.
  - intros y Hy. apply used_iff; [exact P|lia|]. pose proof (run_stop_mono len P x y). lia.
Qed.

Lemma offset_lower_bound_exact_witness :
  exists len, laid_out demo3 len /\ ~ used len 6 /\ offset_lower_bound demo3 3 = 1 /\ (forall y, 3 <= y < 3 + offset_lower_bound demo3 3 -> used len y).
Proof.
  destruct demo3_repr as (runs & R & _). exists (run_len runs). split; [exact (rp_laid _ _ R)|]. split; [|split].
  - apply (offset_lower_bound_exact demo3 (run_len runs) 6 (rp_laid _ _ R)); [cbn; lia|vm_compute; reflexivity].
  - vm_compute. reflexivity.
  - apply (offset_lower_bound_exact demo3 (run_len runs) 3 (rp_laid _ _ R)). cbn. lia.
Defined.

(** ** Moving slots *)

(** the word-wise shift is the slot loop.  Shifting the remainders from [first] to
    [last] up by one slot through 64-bit words gives the same filter as the loop that
    moves the slots one at a time: every slot but the vacated one, the metadata bits and
    the offsets agree. *)
Theorem shift_remainders_slot_loop qf first last k :
  width_ok qf -> 0 <= first <= last -> get_slot qf (last + 1) = 0 -> 0 <= k -> k <> first ->
  let by_words := shift_remainders qf first (last + 1) in
  let by_slots := move_slots qf (Z.to_nat (last - first + 1)) last 1 in
  get_slot by_words k = get_slot by_slots k
  /\ metadata by_words = metadata by_slots /\ runtimedata by_words = runtimedata by_slots
  /\ v_occ (view_of by_words) k = v_occ (view_of by_slots) k
  /\ v_run (view_of by_words) k = v_run (view_of by_slots) k
  /\ get_offset by_words k = get_offset by_slots k.
Proof.
  intros Hq Hf H0 Hk Hn. cbv zeta.
  destruct (shift_remainders_bits qf first (last + 1) 0 Hq ltac:(lia) ltac:(lia) H0) as (_ & [M1 T1 [O1 R1 _ F1]] & _).
  destruct (get_slot_move_slots (Z.to_nat (last - first + 1)) qf last 1 k Hq) as (_ & [M2 T2 [O2 R2 _ F2]] & G); try lia.
  split; [|split; [congruence|split; [congruence|]]].
  - rewrite get_slot_shift_remainders, G by (auto; lia). split_cmps; reflexivity.
  - cbn [v_occ v_run v_off vset_sbit] in *. split; [rewrite O1, O2 by exact Hk; reflexivity|].
    split; [rewrite R1, R2 by exact Hk; reflexivity|].
    change (v_off (view_of (shift_remainders qf first (last + 1))) k
            = v_off (view_of (move_slots qf (Z.to_nat (last - first + 1)) last 1)) k).
    rewrite F1, F2 by exact Hk. reflexivity.
Qed.

Lemma shift_remainders_slot_loop_witness :
  get_slot (shift_remainders demo3 3 6) 6 = 9 /\ get_slot (shift_remainders demo3 3 6) 6 = get_slot (move_slots demo3 3 5 1) 6.
Proof.
  split; [vm_compute; reflexivity|].
  apply (shift_remainders_slot_loop demo3 3 5 6); [unfold width_ok; cbn; lia|lia|vm_compute; reflexivity|lia|lia].
Defined.

(** ** The counter code *)

(** the encoder is total: for every remainder of a slot and every 64-bit count from
    one on, [encode_counter] ends, and writes at most the 67 slots the callers reserve,
    the first of them the remainder. *)
Theorem encode_counter_total qf r c :
  2 <= bps qf <= 56 -> fits (bps qf) r -> 1 <= c < 2 ^ 64 ->
  exists l : list Z, encode_counter qf r c = Some (r :: l) /\ (length (r :: l) <= 67)%nat.
Proof.
  intros Hw Hr Hc. destruct (encode_counter_code qf r c Hw Hr Hc) as (l & E & Hl & Ln).
  destruct (code_head _ _ _ _ Hl) as (t & ->). eauto.
Qed.

Lemma encode_counter_total_witness :
  exists l : list Z, encode_counter demo0 7 (2 ^ 64 - 1) = Some (7 :: l) /\ (length (7%Z :: l) <= 67)%nat.
Proof. apply encode_counter_total; [cbn; lia|unfold fits; cbn; lia|lia]. Defined.

(** C21: decoding inverts encoding.  If a run of the filter holds, from slot [i] on, the
    code of [c] copies of [r] followed by the counters of larger remainders,
    [decode_counter] at [i] returns the last slot of the code, [r] and [c]. *)
Theorem counter_roundtrip qf r c l m l' i :
  2 <= bps qf <= 56 -> fits (bps qf) r -> 1 <= c < 2 ^ 64 -> encode_counter qf r c = Some l ->
  Forall (fun p => r < fst p) m -> run_code (bps qf) m l' ->
  run_at (get_slot qf) (is_runend qf) i (l ++ l') -> (length (l ++ l') <= scan_fuel qf)%nat ->
  decode_counter qf i = Some (i + Z.of_nat (length l) - 1, r, c).
Proof.
  intros Hw Hr Hc E HF Hm H Hf. destruct (encode_counter_code qf r c Hw Hr Hc) as (l0 & E0 & Hl & _).
  rewrite E in E0. injection E0 as <-. now apply (decode_counter_run qf i r c m l l').
Qed.

Lemma counter_roundtrip_witness : decode_counter demo3 3 = Some (3 + 2 - 1, 5, 2).
Proof.
  destruct demo3_repr as (runs & R & E3 & _ & _).
  assert (S : run_start (run_len runs) 3 = 3).
  { pose proof (repr_run_start demo3 runs R 3 ltac:(cbn; lia)) as E. vm_compute in E. now injection E. }
  apply (counter_roundtrip demo3 5 2 [5; 5] [] [] 3); [cbn; lia|unfold fits; cbn; lia|lia|vm_compute; reflexivity|constructor|constructor| |].
  - rewrite app_nil_r, <- E3. rewrite <- S at 1. apply (repr_run_at demo3 runs R); [lia|rewrite E3; discriminate].
  - vm_compute. repeat constructor.
Defined.

(** ** A new filter *)

Lemma some_pair_inj {A B} (a c : A) (b d : B) : Some (a, b) = Some (c, d) -> a = c /\ b = d.
Proof. intros [= -> ->]. auto. Qed.

Lemma malloc_spec qf0 nslots key_bits value_bits hash seed ok qf :
  qf_malloc true qf0 nslots key_bits value_bits hash seed = Some (ok, qf) ->
  1 <= bps qf <= 56 -> 0 <= 64 * nblocks (metadata qf) < 2 ^ 62 ->
  ok = true /\ holds qf (fun _ => []) /\ nelts (metadata qf) = 0 /\ ndistinct_elts (metadata qf) = 0
  /\ noccupied_slots (metadata qf) = 0 /\ metadata_lock (runtimedata qf) = 0
  /\ Forall (eq 0) (locks (runtimedata qf)).
Proof.
  unfold qf_malloc, qf_init. cbv zeta. cbn [fst negb]. rewrite Z.ltb_irrefl. intros E Hb Hn.
  apply some_pair_inj in E as [<- <-].
  split; [apply Z.eqb_refl|]. split; [now apply holds_empty|]. repeat split.
  cbn [set_runtime runtimedata locks]. apply Forall_forall. intros x Hx. apply repeat_spec in Hx. congruence.
Qed.

(** [qf_malloc] returns an empty filter: with at least one block and slots of a width
    the 64-bit accesses cover, it succeeds, no hash is in the filter, the counters are
    zero, and all the locks are free. *)
Theorem qf_malloc_empty qf0 nslots key_bits value_bits hash seed ok qf :
  qf_malloc true qf0 nslots key_bits value_bits hash seed = Some (ok, qf) ->
  1 <= bps qf <= 56 -> 0 <= 64 * nblocks (metadata qf) < 2 ^ 62 ->
  ok = true /\ holds qf (fun _ => []) /\ nelts (metadata qf) = 0 /\ ndistinct_elts (metadata qf) = 0
  /\ noccupied_slots (metadata qf) = 0 /\ metadata_lock (runtimedata qf) = 0
  /\ Forall (eq 0) (locks (runtimedata qf)).
Proof. exact (malloc_spec qf0 nslots key_bits value_bits hash seed ok qf). Qed.

Lemma qf_malloc_empty_witness :
  exists ok qf, qf_malloc true blank_QF 64 14 0 QF_HASH_NONE 0 = Some (ok, qf) /\ ok = true /\ holds qf (fun _ => []).
Proof.
  destruct (qf_malloc true blank_QF 64 14 0 QF_HASH_NONE 0) as [[ok qf]|] eqn:E; [|vm_compute in E; discriminate].
  exists ok, qf. split; [reflexivity|].
  destruct (qf_malloc_empty blank_QF 64 14 0 QF_HASH_NONE 0 ok qf E) as (H1 & H2 & _); [| |auto];
    vm_compute in E; injection E as <- <-; cbn; lia.
Defined.
