(* ===== verification/ShiftBack.v ===== *)
(** * Moving the slots back ([shift_back])

    What is right about a single slot ([slot_ok]), the layout when a run gets shorter, and
    the loop that moves the slots.  After a counter has become shorter, [shift_back] moves the following slots back, with
    their run-end bits, up to the first run that is already where it belongs.  At each moment
    the slots before the current one hold the new runs, and those from the current distance
    on still the old ones. *)

From S2P Require Import Prelude BitSeq RankSelect Blocks BlockBits Shifting Layout Locks CounterCode Insert Remove Repr InsertSlot InsertPlace.
From Stdlib Require Import Morphisms Setoid.
Import ListNotations.
#[local] Open Scope Z_scope.

(** * Removing slots from a run *)

(** ** One slot *)

(** Slot [x] holds what the runs say: an element and whether it is the last of its run, or
    nothing. *)
Definition slot_ok (runs : Z -> list Z) (c : contents) (x : Z) : Prop :=
  (forall p j, 0 <= p -> (j < length (runs p))%nat -> run_start (run_len runs) p + Z.of_nat j = x ->
     c_slot c x = nth j (runs p) 0 /\ c_run c x = (S j =? length (runs p))%nat)
  /\ (run_stop (run_len runs) x <= x -> c_slot c x = 0 /\ c_run c x = false).

Lemma slot_ok_ext runs c c' x : c_slot c' x = c_slot c x -> c_run c' x = c_run c x -> slot_ok runs c x -> slot_ok runs c' x.
Proof. unfold slot_ok. now intros -> ->. Qed.

Lemma slot_cases runs x : 0 <= x ->
  (exists p j, 0 <= p /\ (j < length (runs p))%nat /\ run_start (run_len runs) p + Z.of_nat j = x) \/ run_stop (run_len runs) x <= x.
Proof.
  intros Hx. destruct (Z.le_gt_cases (run_stop (run_len runs) x) x) as [L|L]; [auto|]. left.
  apply (used_iff _ (run_len_nonneg runs) x Hx) in L as (p & Hp & Hr). unfold run_len at 3 in Hr.
  exists p, (Z.to_nat (x - run_start (run_len runs) p)). repeat split; lia.
Qed.

Lemma run_used_slot runs p j : 0 <= p -> (j < length (runs p))%nat ->
  run_start (run_len runs) p + Z.of_nat j < run_stop (run_len runs) (run_start (run_len runs) p + Z.of_nat j).
Proof. intros Hp Hj. apply run_used; [apply run_len_nonneg|exact Hp|unfold run_len; lia]. Qed.

(** A slot of a run is of no other. *)
Lemma slot_ok_used runs c p j : 0 <= p -> (j < length (runs p))%nat ->
  let x := run_start (run_len runs) p + Z.of_nat j in
  c_slot c x = nth j (runs p) 0 -> c_run c x = (S j =? length (runs p))%nat -> slot_ok runs c x.
Proof.
  intros Hp Hj x Hs Hr. split.
  - intros p' j' Hp' Hj' E. destruct (runs_disjoint (run_len runs) p' (Z.of_nat j') p (Z.of_nat j)) as [-> Ej];
      try (unfold run_len; lia); auto; try exact E. apply Nat2Z.inj in Ej. subst j'. auto.
  - intros F. pose proof (run_used_slot runs p j Hp Hj). unfold x in F. lia.
Qed.

Lemma slot_ok_free runs c x : 0 <= x -> run_stop (run_len runs) x <= x -> c_slot c x = 0 -> c_run c x = false -> slot_ok runs c x.
Proof.
  intros Hx F Hs Hr. split; [|auto]. intros p j Hp Hj E. pose proof (run_used_slot runs p j Hp Hj) as U. rewrite E in U. lia.
Qed.

Lemma repr_slot_ok qf runs x : repr qf runs -> 0 <= x -> slot_ok runs (contents_of qf) x.
Proof.
  intros R Hx. pose proof (repr_wf _ _ R) as W. destruct (slot_cases runs x Hx) as [(p & j & Hp & Hj & <-)|F].
  - pose proof (repr_run_at qf runs R p Hp) as [H1 H2 _ _]; [intros E; rewrite E in Hj; cbn in Hj; lia|].
    apply slot_ok_used; auto; [exact (H1 j Hj)|]. cbn [c_run contents_of]. rewrite <- is_runend_view by (try apply (repr_width _ _ R); lia).
    exact (H2 j Hj).
  - apply slot_ok_free; auto; [exact (rp_free _ _ R x Hx F)|]. cbn [c_run contents_of]. apply not_true_is_false. intros T.
    apply (wf_run _ _ _ W) in T as (p & Hp & E & S); [|exact Hx].
    assert (U : used (run_len runs) x). { exists p. rewrite run_stop_full in S by auto. pose proof (run_len_nonneg runs p). split; [exact Hp|lia]. }
    apply (used_iff _ (run_len_nonneg runs)) in U; lia.
Qed.

(** The metadata bits when all slots are right. *)
Lemma slot_ok_bits qf runs : 1 <= bps qf <= 56 -> 64 * nblocks (metadata qf) < 2 ^ 62 ->
  (forall x, 0 <= x -> slot_ok runs (contents_of qf) x) ->
  (forall p, 0 <= p -> v_occ (view_of qf) p = negb (run_len runs p =? 0)) ->
  (forall p, run_stop (run_len runs) p <= 64 * nblocks (metadata qf)) -> bits_laid_out qf (run_len runs).
Proof.
  intros Hb Hs Hx Ho Hn. pose proof (run_len_nonneg runs) as ln. split; [exact Hb|exact Hs|]. split; auto. intros x H0.
  change (v_run (vset_off _ _) x) with (c_run (contents_of qf) x). split.
  - intros T. destruct (slot_cases runs x H0) as [(p & j & Hp & Hj & E)|F].
    + destruct (proj1 (Hx x H0) p j Hp Hj E) as [_ Hr]. rewrite T in Hr. symmetry in Hr. apply Nat.eqb_eq in Hr.
      exists p. split; [exact Hp|]. assert (El : run_len runs p = Z.of_nat (length (runs p))) by reflexivity. split; [lia|].
      rewrite run_stop_full by lia. lia.
    + destruct (proj2 (Hx x H0) F) as [_ Hr]. congruence.
  - intros (p & Hp & E & S). rewrite run_stop_full in S by auto. assert (El : run_len runs p = Z.of_nat (length (runs p))) by reflexivity.
    destruct (proj1 (Hx x H0) p (length (runs p) - 1)%nat Hp ltac:(lia) ltac:(lia)) as [_ Hr]. rewrite Hr. apply Nat.eqb_eq. lia.
Qed.

(** The whole filter, once the offsets are right too. *)
Lemma slot_ok_repr qf runs : bits_laid_out qf (run_len runs) -> (forall x, 0 <= x -> slot_ok runs (contents_of qf) x) ->
  (forall b, 0 <= b < nblocks (metadata qf) -> get_offset qf b = exact_offset (run_len runs) b) -> repr qf runs.
Proof.
  intros [Hb Hs [W1 W2 W3 W4 W5]] Hx Hf. split.
  - split; [exact Hb|exact Hs|]. split; auto.
  - intros p j Hp Hj. assert (H0 : 0 <= run_start (run_len runs) p + Z.of_nat j) by (unfold run_start; lia).
    exact (proj1 (proj1 (Hx _ H0) p j Hp Hj eq_refl)).
  - intros x H0 F. exact (proj1 (proj2 (Hx x H0) F)).
Qed.

(** ** The layout *)

Section Shrink.
Context (len : Z -> Z) (q d : Z).
Hypothesis len_nonneg : forall p, 0 <= len p.
Hypothesis q_nonneg : 0 <= q.
Hypothesis d_bounds : 0 <= d <= len q.

Definition shrunk (p : Z) : Z := if p =? q then len q - d else len p.

#[local] Abbreviation stop := (run_stop len).
#[local] Abbreviation stop' := (run_stop shrunk).
#[local] Abbreviation start := (run_start len).
#[local] Abbreviation start' := (run_start shrunk).

Lemma shrunk_nonneg p : 0 <= shrunk p.
Proof. unfold shrunk. pose proof (len_nonneg p). destruct (p =? q); lia. Qed.

Lemma shrunk_other p : p <> q -> shrunk p = len p.
Proof. intros H. unfold shrunk. destruct (Z.eqb_spec p q); [lia|reflexivity]. Qed.

Lemma shrunk_same : shrunk q = len q - d.
Proof. unfold shrunk. now rewrite Z.eqb_refl. Qed.

Lemma stop_shrunk_below p : p < q -> stop' p = stop p.
Proof. intros H. symmetry. apply run_stop_ext. intros x Hx. symmetry. apply shrunk_other. lia. Qed.

Lemma start_shrunk_q : start' q = start q.
Proof. unfold run_start. now rewrite stop_shrunk_below by lia. Qed.

Lemma start_shrunk_below p : p < q -> start' p = start p.
Proof. intros H. unfold run_start. now rewrite stop_shrunk_below by lia. Qed.

Lemma stop_shrunk_le p : stop' p <= stop p.
Proof.
  destruct (Z.lt_ge_cases p q) as [L|L]; [rewrite stop_shrunk_below by lia; lia|].
  replace p with (q + Z.of_nat (Z.to_nat (p - q))) by lia. generalize (Z.to_nat (p - q)) as n. clear p L. induction n as [|n IH].
  - rewrite Z.add_0_r, (run_stop_step shrunk q), (run_stop_step len q), start_shrunk_q, stop_shrunk_below, shrunk_same by lia.
    pose proof (run_stop_bounds len len_nonneg (q - 1)). unfold run_start. destruct (Z.eqb_spec (len q - d) 0), (Z.eqb_spec (len q) 0); lia.
  - replace (q + Z.of_nat (S n)) with (q + Z.of_nat n + 1) by lia. set (p := q + Z.of_nat n) in *.
    rewrite (run_stop_step shrunk (p + 1)), (run_stop_step len (p + 1)), shrunk_other by lia. unfold run_start. replace (p + 1 - 1) with p by lia.
    destruct (len (p + 1) =? 0); lia.
Qed.

(** Later runs do not begin before this one. *)
Lemma start_shrunk_after p : q < p -> start q <= start' p /\ q < start' p.
Proof.
  intros H. unfold run_start. pose proof (run_stop_mono shrunk shrunk_nonneg (q - 1) (p - 1) ltac:(lia)) as M.
  rewrite stop_shrunk_below in M by lia. lia.
Qed.

(** From a bucket on whose run begins where it did, nothing changes. *)
Lemma shrunk_rejoins b : q < b -> Z.max b (stop' (b - 1)) = Z.max b (stop (b - 1)) ->
  forall p, b <= p -> start' p = start p /\ (len p <> 0 -> stop' p = stop p) /\ Z.max (p + 1) (stop' p) = Z.max (p + 1) (stop p).
Proof.
  intros Hb E p Hp. replace p with (b + Z.of_nat (Z.to_nat (p - b))) by lia. generalize (Z.to_nat (p - b)) as n. clear p Hp.
  assert (Step : forall p, b <= p -> Z.max p (stop' (p - 1)) = Z.max p (stop (p - 1)) ->
    start' p = start p /\ (len p <> 0 -> stop' p = stop p) /\ Z.max (p + 1) (stop' p) = Z.max (p + 1) (stop p)).
  { intros p Hp Ep. split; [exact Ep|]. rewrite (run_stop_step shrunk p), (run_stop_step len p), (shrunk_other p) by lia. unfold run_start. rewrite Ep.
    destruct (Z.eqb_spec (len p) 0); split; lia. }
  induction n as [|n IH]; [rewrite Z.add_0_r; now apply Step|]. apply Step; [lia|].
  replace (b + Z.of_nat (S n)) with (b + Z.of_nat n + 1) by lia. replace (b + Z.of_nat n + 1 - 1) with (b + Z.of_nat n) by lia. apply IH.
Qed.
End Shrink.

(** * Moving the slots back ([shift_back]) *)

(** The fields of contents, without opening the filter. *)
Ltac fields := cbn [c_occ c_run c_off c_slot contents_of put_run put_slot put_occ put_off v_occ v_run v_sbit v_off vset_run] in *.

(** ** The steps *)

Lemma next_occupied_spec qf bound : 0 <= bound < 2 ^ 62 -> forall fuel cb, 0 <= cb < bound -> bound - cb <= Z.of_nat fuel ->
  exists b, next_occupied qf fuel cb bound = Some b /\ cb < b <= bound /\ (forall y, cb < y < b -> is_occupied qf y = false) /\
    (b = bound \/ is_occupied qf b = true).
Proof.
  intros Hb. induction fuel as [|fuel IH]; intros cb Hc Hf; [lia|]. cbn [next_occupied]. rewrite succ64 by lia.
  destruct (Z.ltb_spec (cb + 1) bound) as [L|L]; cbn [andb].
  - destruct (is_occupied qf (cb + 1)) eqn:O; cbn [negb].
    + exists (cb + 1). repeat split; auto; lia.
    + destruct (IH (cb + 1)) as (b & E & H1 & H2 & H3); [lia..|]. exists b. split; [exact E|]. split; [lia|]. split; [|exact H3].
      intros y Hy. destruct (Z.eq_dec y (cb + 1)) as [->|]; [exact O|]. apply H2. lia.
  - exists (cb + 1). repeat split; lia.
Qed.

(** The slot [s] taken from [t]. *)
Definition copied (c : contents) (s t : Z) : contents := put_run (put_slot c s (c_slot c t)) s (c_run c t).

Lemma contents_copy qf s t : width_ok qf -> 0 <= s -> 0 <= t -> s <> t ->
  let qf1 := set_slot qf s (get_slot qf t) in
  let qf2 := if negb (Bool.eqb (is_runend qf1 s) (is_runend qf1 t)) then flip_bit qf1 RUN s else qf1 in
  same_header qf2 qf /\ ceq (contents_of qf2) (copied (contents_of qf) s t).
Proof.
  intros Hw Hs Ht Hne qf1 qf2. pose proof (contents_set_slot qf Hw s (get_slot qf t) Hs (get_slot_fits qf Hw t Ht)) as C1.
  assert (Hw1 : width_ok qf1) by exact Hw. fold qf1 in C1. unfold qf2, copied.
  rewrite (is_runend_view qf1 Hw1 s Hs), (is_runend_view qf1 Hw1 t Ht).
  pose proof (ceq_run _ _ C1 s Hs) as Rs. pose proof (ceq_run _ _ C1 t Ht) as Rt. cbn [c_run contents_of put_slot] in Rs, Rt.
  destruct (eqb (v_run (view_of qf1) s) (v_run (view_of qf1) t)) eqn:E; cbn [negb].
  - apply eqb_prop in E. split; [split; reflexivity|]. destruct C1 as [H1 H2 H3 H4]. split; fields; auto.
    intros i Hi. rewrite (H2 i Hi). unfold upd. destruct (Z.eqb_spec i s) as [->|]; [|reflexivity]. congruence.
  - apply eqb_false_iff in E. split; [split; reflexivity|]. destruct C1 as [H1 H2 H3 H4]. destruct (flip_run_bit_view qf1 Hw1 s Hs) as [V1 V2 V3 V4].
    split; fields.
    + intros i Hi. rewrite V1 by exact Hi. now apply H1.
    + intros i Hi. rewrite V2 by exact Hi. unfold upd. destruct (Z.eqb_spec i s) as [->|].
      * rewrite <- Rt. revert E. clear. destruct (v_run (view_of qf1) s), (v_run (view_of qf1) t); cbn [negb]; congruence.
      * now apply H2.
    + intros i Hi. change (v_off (view_of ?x) i) with (get_offset x i) in V4. rewrite <- (H3 i Hi). exact (V4 i Hi).
    + intros i Hi. rewrite (get_slot_same_bits qf1) by auto. now apply H4.
Qed.

(** A counter is written. *)
Lemma contents_set_slots l : forall qf i, width_ok qf -> 0 <= i -> i + Z.of_nat (length l) < 2 ^ 62 -> Forall (fits (bps qf)) l ->
  same_header (set_slots qf i l) qf /\
  ceq (contents_of (set_slots qf i l))
    (let c := contents_of qf in
     mk_contents (c_occ c) (c_run c) (c_off c)
       (fun x => if (i <=? x) && (x <? i + Z.of_nat (length l)) then nth (Z.to_nat (x - i)) l 0 else c_slot c x)).
Proof.
  induction l as [|v l IH]; intros qf i Hw Hi Hb HF; cbv zeta; cbn [set_slots length] in *.
  - split; [reflexivity|]. split; fields; auto; intros x Hx; split_cmps; reflexivity || lia.
  - inversion_clear HF as [|? ? Hv HF']. rewrite succ64 by lia. pose proof (contents_set_slot qf Hw i v Hi Hv) as C.
    destruct (IH (set_slot qf i v) (i + 1)) as [H1 H2]; [exact Hw|lia|lia|exact HF'|]. split; [rewrite H1; split; reflexivity|]. rewrite H2.
    destruct C as [C1 C2 C3 C4]. split; fields; auto. intros x Hx. rewrite C4 by exact Hx. unfold upd.
    destruct (Z.eqb_spec x i) as [->|].
    + replace (Z.to_nat (i - i)) with O by lia. cbn [nth]. split_cmps; reflexivity || lia.
    + destruct (Z.leb_spec i x), (Z.leb_spec (i + 1) x); cbn [andb]; try lia; try reflexivity.
      replace (Z.to_nat (x - i)) with (S (Z.to_nat (x - (i + 1)))) by lia. cbn [nth]. split_cmps; reflexivity || lia.
Qed.

Lemma contents_clear_slots n : forall qf i, width_ok qf -> 0 <= i -> i + Z.of_nat n < 2 ^ 62 ->
  same_header (clear_slots qf n i) qf /\
  ceq (contents_of (clear_slots qf n i))
    (let c := contents_of qf in let inside x := (i <=? x) && (x <? i + Z.of_nat n) in
     mk_contents (c_occ c) (fun x => if inside x then false else c_run c x) (c_off c) (fun x => if inside x then 0 else c_slot c x)).
Proof.
  induction n as [|n IH]; intros qf i Hw Hi Hb; cbv zeta.
  - split; [reflexivity|]. split; fields; auto; intros x Hx; split_cmps; reflexivity || lia.
  - cbn [clear_slots]. set (qf1 := clear_bit (set_slot qf i 0) RUN i). assert (F : fits (bps qf) 0) by (unfold fits, width_ok in *; split; [lia|apply Z.pow_pos_nonneg; lia]).
    assert (C : ceq (contents_of qf1) (put_run (put_slot (contents_of qf) i 0) i false)).
    { unfold qf1. rewrite (contents_clear_run (set_slot qf i 0)) by (try exact Hw; lia). now rewrite (contents_set_slot qf Hw i 0 Hi F). }
    rewrite succ64 by lia. destruct (IH qf1 (i + 1)) as [H1 H2]; [exact Hw|lia..|]. split; [rewrite H1; split; reflexivity|]. rewrite H2.
    destruct C as [C1 C2 C3 C4]. split; fields; auto; intros x Hx; [rewrite C2 by exact Hx|rewrite C4 by exact Hx]; unfold upd; split_cmps; reflexivity || lia.
Qed.

(** ** The loop *)

Section ShiftBack.
Context (runs : Z -> list Z) (q : Z) (A old new B : list Z).
Hypothesis Hq : 0 <= q.
Hypothesis Hrun : runs q = A ++ old ++ B.
Hypothesis Hshort : (length new <= length old)%nat.

Definition freed : nat := length old - length new.
Definition runs' : Z -> list Z := upd runs q (A ++ new ++ B).

#[local] Abbreviation len := (run_len runs).
#[local] Abbreviation stop := (run_stop len).
#[local] Abbreviation start := (run_start len).
#[local] Abbreviation stop' := (run_stop (run_len runs')).
#[local] Abbreviation start' := (run_start (run_len runs')).
#[local] Abbreviation d := (Z.of_nat freed).

Let ln : forall p, 0 <= len p := run_len_nonneg runs.

Lemma freed_bounds : 0 <= d <= len q.
Proof. unfold freed, run_len. rewrite Hrun, !length_app. lia. Qed.

Lemma len_runs' p : run_len runs' p = shrunk len q d p.
Proof.
  unfold run_len, shrunk, runs', upd. destruct (Z.eqb_spec p q) as [->|]; [|reflexivity].
  rewrite Hrun, !length_app. unfold freed. lia.
Qed.

Lemma stop_runs'_eq p : stop' p = run_stop (shrunk len q d) p.
Proof. apply run_stop_ext. intros; apply len_runs'. Qed.

Lemma start_runs'_eq p : start' p = run_start (shrunk len q d) p.
Proof. apply run_start_ext. intros; apply len_runs'. Qed.

(** How far the elements of a run moved within it, and the slots that move. *)
Definition moved (p : Z) : nat := if p =? q then freed else 0%nat.

Lemma length_moved p : length (runs p) = (length (runs' p) + moved p)%nat.
Proof.
  unfold moved, runs', upd. destruct (Z.eqb_spec p q) as [->|]; [|lia]. rewrite Hrun, !length_app. unfold freed. lia.
Qed.

Lemma nth_moved p k : (p = q -> length (A ++ new) <= k)%nat -> nth (k + moved p) (runs p) 0 = nth k (runs' p) 0.
Proof.
  intros Hk. unfold moved, runs', upd. destruct (Z.eqb_spec p q) as [->|]; [|now rewrite Nat.add_0_r]. specialize (Hk eq_refl).
  rewrite length_app in Hk. rewrite Hrun, !app_assoc, !app_nth2 by (rewrite ?length_app; unfold freed; lia). f_equal. rewrite !length_app. unfold freed. lia.
Qed.

(** The filter before, and what stays as it was. *)
Context (qf0 : QF).
Hypothesis Hw : width_ok qf0.
Hypothesis Hsize : 64 * nblocks (metadata qf0) < 2 ^ 62.
Hypothesis Hocc : forall p, q < p -> v_occ (view_of qf0) p = negb (len p =? 0).
Hypothesis Hbound : forall p, stop p <= 64 * nblocks (metadata qf0).

Record shifting (qf : QF) (s e : Z) : Prop := {
  sf_header : same_header qf qf0;
  sf_occ i : 0 <= i -> v_occ (view_of qf) i = v_occ (view_of qf0) i;
  sf_off b : 0 <= b -> get_offset qf b = get_offset qf0 b;
  sf_new x : 0 <= x < s -> slot_ok runs' (contents_of qf) x;
  sf_old x : e <= x -> slot_ok runs (contents_of qf) x;
}.

(** The loop is inside the run of a bucket, or after it. *)
Record inside (b : Z) (k : nat) (s e : Z) : Prop := {
  is_bucket : q <= b;
  is_element : (k < length (runs' b))%nat;
  is_to : s = start' b + Z.of_nat k;
  is_from : e = start b + Z.of_nat (k + moved b);
  is_past : b = q -> (length (A ++ new) <= k)%nat;
}.

Record after (b s e : Z) : Prop := {
  af_bucket : q <= b;
  af_run : runs b <> [];
  af_to : s = Z.max b (stop' b);
  af_from : e = stop b;
}.

Lemma stop_of_run p : 0 <= p -> runs p <> [] -> stop p = start p + Z.of_nat (length (runs p)).
Proof. intros Hp N. rewrite run_stop_full; [reflexivity|exact Hp|]. rewrite <- run_len_nil. exact N. Qed.

Lemma inside_bounds b k s e : inside b k s e -> 0 <= s /\ b <= s /\ e < stop b /\ runs b <> [].
Proof.
  intros [H1 H2 H3 H4 H5]. pose proof (length_moved b) as HL. assert (N : runs b <> []) by (intros E; rewrite E in HL; cbn in HL; lia).
  rewrite (stop_of_run b ltac:(lia) N). unfold run_start in *. split; [lia|]. split; [lia|]. split; [lia|exact N].
Qed.

(** One element moves. *)
Lemma shifting_copy qf b k s e qf2 : shifting qf s e -> s < e -> inside b k s e ->
  same_header qf2 qf -> ceq (contents_of qf2) (copied (contents_of qf) s e) -> shifting qf2 (s + 1) (e + 1).
Proof.
  intros [S1 S2 S3 S4 S5] Hse HI Hh [C1 C2 C3 C4]. destruct (inside_bounds _ _ _ _ HI) as (B1 & B2 & _). destruct HI as [H1 H2 H3 H4 H5].
  cbn [copied put_run put_slot c_slot c_run c_occ c_off] in *. unfold upd in *. split.
  - now rewrite Hh.
  - intros i Hi. rewrite <- S2 by exact Hi. exact (C1 i Hi).
  - intros i Hi. rewrite <- S3 by exact Hi. exact (C3 i Hi).
  - intros x Hx. destruct (Z.eq_dec x s) as [->|N].
    + destruct (S5 e (Z.le_refl e)) as [SO _]. destruct (SO b (k + moved b)%nat ltac:(lia)) as [SV SR]; [rewrite length_moved; lia|lia|].
      rewrite H3. apply slot_ok_used; [lia|exact H2| |]; rewrite <- H3.
      * rewrite C4, Z.eqb_refl, SV by lia. now apply nth_moved.
      * rewrite C2, Z.eqb_refl, SR, length_moved by lia. destruct (Nat.eqb_spec (S (k + moved b)) (length (runs' b) + moved b)), (Nat.eqb_spec (S k) (length (runs' b))); lia.
    + apply (slot_ok_ext _ (contents_of qf)); [| |apply S4; lia]; [rewrite C4 by lia|rewrite C2 by lia]; destruct (Z.eqb_spec x s); congruence.
  - intros x Hx. apply (slot_ok_ext _ (contents_of qf)); [| |apply S5; lia]; [rewrite C4 by lia|rewrite C2 by lia]; destruct (Z.eqb_spec x s); lia || reflexivity.
Qed.

(** The next element of the run, or its end. *)
Lemma inside_next b k s e : inside b k s e -> inside b (S k) (s + 1) (e + 1) /\ S k <> length (runs' b) \/ after b (s + 1) (e + 1) /\ S k = length (runs' b).
Proof.
  intros HI. destruct (inside_bounds _ _ _ _ HI) as (B1 & B2 & B3 & N). destruct HI as [H1 H2 H3 H4 H5].
  destruct (Nat.eq_dec (S k) (length (runs' b))) as [E|E]; [right|left]; (split; [|exact E]).
  - split; [exact H1|exact N| |].
    + assert (El : run_len runs' b = Z.of_nat (length (runs' b))) by reflexivity. rewrite run_stop_full by (try apply run_len_nonneg; lia). unfold run_start in *. lia.
    + rewrite (stop_of_run b ltac:(lia) N), length_moved. lia.
  - split; lia.
Qed.

(** Buckets without a run do not move the end of the runs. *)
Lemma stops_between b b2 : q <= b -> b < b2 -> (forall p, b < p < b2 -> runs p = []) -> stop' (b2 - 1) = stop' b /\ stop (b2 - 1) = stop b.
Proof.
  intros Hb L Hnil. replace (b2 - 1) with (b + Z.of_nat (Z.to_nat (b2 - 1 - b))) by lia.
  assert (H : b + Z.of_nat (Z.to_nat (b2 - 1 - b)) < b2) by lia. revert H. generalize (Z.to_nat (b2 - 1 - b)) as n.
  induction n as [|n IH]; intros Hn; [rewrite Z.add_0_r; auto|]. destruct IH as [I1 I2]; [lia|].
  assert (E0 : runs (b + Z.of_nat (S n)) = []) by (apply Hnil; lia). rewrite <- I1, <- I2. replace (b + Z.of_nat n) with (b + Z.of_nat (S n) - 1) by lia.
  split; apply run_stop_empty; [rewrite len_runs', shrunk_other by lia|]; now apply run_len_nil.
Qed.

(** The gap before the home slot of the next bucket is cleared. *)
Lemma shifting_clear qf b s e b2 : shifting qf s e -> after b s e -> b < b2 -> s < b2 <= e ->
  (forall p, b < p < b2 -> runs p = []) -> e < 2 ^ 62 ->
  shifting (clear_slots qf (Z.to_nat (e - s)) s) b2 e /\ c_run (contents_of (clear_slots qf (Z.to_nat (e - s)) s)) (e - 1) = false.
Proof.
  intros [S1 S2 S3 S4 S5] [H1 H2 H3 H4] Hb Hs2 Hnil He. assert (Hs0 : 0 <= s) by lia. pose proof (same_header_width _ _ S1 Hw) as Hwq.
  destruct (contents_clear_slots (Z.to_nat (e - s)) qf s Hwq Hs0 ltac:(lia)) as [Ch [C1 C2 C3 C4]]. cbv zeta in *. fields.
  replace (s + Z.of_nat (Z.to_nat (e - s))) with e in * by lia. split; [split|].
  - now rewrite Ch.
  - intros i Hi. rewrite <- S2 by exact Hi. exact (C1 i Hi).
  - intros i Hi. rewrite <- S3 by exact Hi. exact (C3 i Hi).
  - intros x Hx. destruct (Z.lt_ge_cases x s) as [L|L].
    + apply (slot_ok_ext _ (contents_of qf)); [| |apply S4; lia]; fields; [rewrite C4 by lia|rewrite C2 by lia]; split_cmps; lia || reflexivity.
    + assert (Ex : stop' x <= s).
      { pose proof (run_stop_mono (run_len runs') (run_len_nonneg runs') x (b2 - 1) ltac:(lia)) as M. destruct (stops_between b b2) as [Er _]; auto. lia. }
      apply slot_ok_free; [lia|lia| |]; fields; [rewrite C4 by lia|rewrite C2 by lia]; split_cmps; lia || reflexivity.
  - intros x Hx. apply (slot_ok_ext _ (contents_of qf)); [| |apply S5; lia]; fields; [rewrite C4 by lia|rewrite C2 by lia]; split_cmps; lia || reflexivity.
  - fields. rewrite C2 by lia. split_cmps; lia || reflexivity.
Qed.

(** A bucket that begins where the runs before it now end. *)
Lemma inside_first b s e b2 : after b s e -> b < b2 -> runs b2 <> [] -> (forall p, b < p < b2 -> runs p = []) -> b2 <= e -> inside b2 0 (Z.max s b2) e.
Proof.
  intros [H1 H2 H3 H4] Hb Hn Hnil He.
  destruct (stops_between b b2) as [E1 E2]; auto.
  assert (Em : moved b2 = 0%nat) by (unfold moved; destruct (Z.eqb_spec b2 q); lia).
  split; [lia| | | |lia].
  - pose proof (length_moved b2) as HL. destruct (runs b2); [contradiction|]. cbn [length] in HL. lia.
  - unfold run_start. lia.
  - rewrite Em. unfold run_start. lia.
Qed.

(** The layouts agree from a place on where the next run is already at its home slot. *)
Lemma slot_ok_rejoins c b2 x : q < b2 -> Z.max b2 (stop' (b2 - 1)) = Z.max b2 (stop (b2 - 1)) -> stop (b2 - 1) <= b2 -> b2 <= x ->
  slot_ok runs c x -> slot_ok runs' c x.
Proof.
  intros Hb E Hs Hx [S1 S2]. rewrite stop_runs'_eq in E. pose proof freed_bounds as Fb.
  pose proof (shrunk_rejoins len q d Hq b2 Hb E) as HR.
  assert (Er : forall p, p <> q -> runs' p = runs p) by (intros p Np; unfold runs', upd; destruct (Z.eqb_spec p q); congruence). split.
  - intros p j Hp Hj Ej. assert (Hpb : b2 <= p).
    { destruct (Z.le_gt_cases b2 p); [assumption|]. pose proof (run_start_le (run_len runs') (run_len_nonneg runs') p (b2 - 1) Hp ltac:(unfold run_len; lia) ltac:(lia)) as M.
      assert (El : run_len runs' p = Z.of_nat (length (runs' p))) by reflexivity. rewrite stop_runs'_eq in M. lia. }
    rewrite Er in * by lia. apply S1; auto. rewrite <- Ej, start_runs'_eq. now rewrite (proj1 (HR p Hpb)).
  - intros F. apply S2. rewrite stop_runs'_eq in F. destruct (HR x Hx) as (M1 & M2 & _). unfold run_start in M1.
    destruct (Z.eq_dec (len x) 0) as [E0|N0]; [|specialize (M2 N0); lia].
    rewrite (run_stop_empty len x E0). rewrite run_stop_empty in F by (rewrite shrunk_other by lia; exact E0). lia.
Qed.

(** The filter when the loop is done. *)
Definition shifted_back (qf : QF) : Prop :=
  same_header qf qf0 /\ (forall i, 0 <= i -> v_occ (view_of qf) i = v_occ (view_of qf0) i) /\
  (forall b, 0 <= b -> get_offset qf b = get_offset qf0 b) /\ forall x, 0 <= x -> slot_ok runs' (contents_of qf) x.

Lemma shifting_done qf b2 : q < b2 -> shifting qf b2 b2 -> Z.max b2 (stop' (b2 - 1)) = Z.max b2 (stop (b2 - 1)) -> stop (b2 - 1) <= b2 -> shifted_back qf.
Proof.
  intros Hb [S1 S2 S3 S4 S5] E1 E2. split; [exact S1|]. split; [exact S2|]. split; [exact S3|]. intros x Hx.
  destruct (Z.lt_ge_cases x b2); [apply S4; lia|]. apply (slot_ok_rejoins _ b2); auto.
Qed.

(** The bit before the first slot that is still to move tells whether a run has ended. *)
Definition position (qf : QF) (b s e : Z) : Prop :=
  (exists k, inside b k s e) /\ c_run (contents_of qf) (e - 1) = false \/ after b s e /\ c_run (contents_of qf) (e - 1) = true.

Lemma shift_back_spec fuel : forall qf b s e, shifting qf s e -> position qf b s e -> s < e -> e - s < 2 ^ 62 ->
  2 * (64 * nblocks (metadata qf0) - e) + (if c_run (contents_of qf) (e - 1) then 2 else 1) <= Z.of_nat fuel ->
  exists qf', shift_back qf fuel b s (e - s) = Some qf' /\ shifted_back qf'.
Proof.
  induction fuel as [|fuel IH]; intros qf b s e HS HP Hse Hse2 Hf.
  { exfalso. destruct HP as [[(k & HI) E]|[HI E]]; rewrite E in Hf.
    - destruct (inside_bounds _ _ _ _ HI) as (_ & _ & L & _). pose proof (Hbound b). lia.
    - destruct HI as [_ _ _ ->]. pose proof (Hbound b). lia. }
  assert (Hs0 : 0 <= s /\ e <= 64 * nblocks (metadata qf0) /\ 0 <= b).
  { destruct HP as [[(k & HI) _]|[[H1 H2 H3 H4] _]].
    - destruct (inside_bounds _ _ _ _ HI) as (B1 & _ & L & _). destruct HI. pose proof (Hbound b). lia.
    - pose proof (Hbound b). lia. }
  pose proof (same_header_width _ _ (sf_header _ _ _ HS) Hw) as Hwq.
  cbn [shift_back]. rewrite (proj2 (Z.ltb_lt 0 (e - s))) by lia.
  assert (E1 : (s + (e - s)%Z)%u64 = e) by (unfold add64; rewrite u64_small by (unfold fits; lia); lia).
  assert (E2 : (s + (e - s)%Z - 1)%u64 = e - 1) by (rewrite E1; unfold sub64; rewrite u64_small by (unfold fits; lia); lia).
  rewrite E2, E1, is_runend_view by (try exact Hwq; lia).
  (* one element moves *)
  assert (Copy : forall b2 k, inside b2 k s e -> 
    2 * (64 * nblocks (metadata qf0) - e) <= Z.of_nat fuel ->
    exists qf', shift_back
      (let qf := set_slot qf s (get_slot qf e) in
       if negb (Bool.eqb (is_runend qf s) (is_runend qf e)) then flip_bit qf RUN s else qf) fuel b2 (s + 1)%u64 (e - s) = Some qf' /\ shifted_back qf').
  { intros b2 k HI Hf2. destruct (contents_copy qf s e Hwq ltac:(lia) ltac:(lia) ltac:(lia)) as [Ch Cc]. cbv zeta. set (qf2 := if negb _ then _ else _) in *.
    pose proof (shifting_copy qf b2 k s e qf2 HS Hse HI Ch Cc) as HS2. rewrite succ64 by lia.
    destruct (inside_bounds _ _ _ _ HI) as (_ & _ & L & _). pose proof (Hbound b2).
    assert (Rn : c_run (contents_of qf2) e = (S (k + moved b2) =? length (runs b2))%nat).
    { destruct (sf_old _ _ _ HS e (Z.le_refl e)) as [SO _]. destruct HI as [I1 I2 I3 I4 I5]. pose proof (length_moved b2).
      rewrite (ceq_run _ _ Cc) by lia. unfold copied. fields. unfold upd. destruct (Z.eqb_spec e s); [lia|]. apply (SO b2); lia. }
    replace (e - s) with (e + 1 - (s + 1)) by lia. pose proof (length_moved b2) as HL.
    destruct (inside_next _ _ _ _ HI) as [[HN NE]|[HN EQ]].
    - apply IH; auto; [|lia|lia|]; replace (e + 1 - 1) with e by lia.
      + left. split; [eauto|]. replace (e + 1 - 1) with e by lia. rewrite Rn. apply Nat.eqb_neq. lia.
      + rewrite Rn. destruct (Nat.eqb_spec (S (k + moved b2)) (length (runs b2))); lia.
    - apply IH; auto; [|lia|lia|]; replace (e + 1 - 1) with e by lia.
      + right. split; [exact HN|]. replace (e + 1 - 1) with e by lia. rewrite Rn. apply Nat.eqb_eq. lia.
      + rewrite Rn. destruct (Nat.eqb_spec (S (k + moved b2)) (length (runs b2))); [|lia]. destruct HN as [_ _ _ HN]. lia. }
  fields. destruct HP as [[(k & HI) Em]|[HA Em]]; fields; rewrite Em in *.
  - destruct (inside_bounds _ _ _ _ HI) as (_ & L & _). rewrite (proj2 (Z.leb_le b s)) by lia. apply (Copy b k HI). lia.
  - pose proof HA as [A1 A2 A3 A4]. assert (Hbe : b < e) by (rewrite A4, (stop_of_run b) by (auto; lia); destruct (runs b); [contradiction|cbn [length]; unfold run_start; lia]).
    destruct (next_occupied_spec qf e ltac:(lia) (scan_fuel qf) b ltac:(lia)) as (b2 & -> & L2 & Hno & Hor).
    { unfold scan_fuel. rewrite (sh_metadata _ _ (sf_header _ _ _ HS)). lia. }
    assert (Occ : forall y, b < y -> is_occupied qf y = negb (len y =? 0)).
    { intros y Hy. rewrite is_occupied_view by (try exact Hwq; lia). rewrite (sf_occ _ _ _ HS) by lia. apply Hocc. lia. }
    assert (Hnil : forall p, b < p < b2 -> runs p = []).
    { intros p Hp. specialize (Hno p Hp). rewrite Occ in Hno by lia. apply run_len_nil. destruct (Z.eqb_spec (len p) 0); [assumption|discriminate]. }
    assert (Hocc2 : b2 < e -> runs b2 <> []).
    { intros L. destruct Hor as [|O]; [lia|]. rewrite Occ in O by lia. rewrite run_len_nil. destruct (Z.eqb_spec (len b2) 0); [discriminate|assumption]. }
    destruct (Z.leb_spec b2 s) as [L|L].
    + pose proof (inside_first b s e b2 HA ltac:(lia) (Hocc2 ltac:(lia)) Hnil ltac:(lia)) as HI. rewrite Z.max_l in HI by lia. apply (Copy b2 0%nat HI). lia.
    + rewrite (proj2 (Z.leb_le b2 e)) by lia. destruct (shifting_clear qf b s e b2 HS HA) as [HS2 Em2]; auto; try lia.
      assert (E3 : (e - b2)%u64 = e - b2) by (unfold sub64; rewrite u64_small by (unfold fits; lia); lia). rewrite E3.
      destruct (Z.eq_dec b2 e) as [->|NE].
      * replace (e - e) with 0 by lia. assert (Done : forall f qf' x y, shift_back qf' f x y 0 = Some qf') by (destruct f; reflexivity). rewrite Done.
        eexists. split; [reflexivity|]. apply (shifting_done _ e); [lia|exact HS2|..].
        all: destruct (stops_between b e) as [M1 M2]; auto; lia.
      * apply IH; [exact HS2| |lia|lia|].
        -- left. split; [|exact Em2]. exists 0%nat. pose proof (inside_first b s e b2 HA ltac:(lia) (Hocc2 ltac:(lia)) Hnil ltac:(lia)) as HI. now rewrite Z.max_r in HI by lia.
        -- fields. rewrite Em2. lia.
Qed.
End ShiftBack.
