(* ===== verification/RemoveRun.v ===== *)
(** * Replacing a counter by a shorter one

    [remove_replace_slots_and_shift_remainders_and_runends_and_offsets] as an operation on
    the runs: the slots of one counter are replaced, the slots behind them move back, and
    the block offsets are corrected up to the first one that is right already. *)

From S2P Require Import Prelude BitSeq RankSelect Blocks BlockBits Shifting Layout Locks CounterCode Insert Remove Repr InsertSlot InsertPlace ShiftBack.
From Stdlib Require Import Morphisms Setoid.
Import ListNotations.
#[local] Open Scope Z_scope.

(** ** Writing the counter *)

Section Replace.
Context (qf0 : QF) (runs : Z -> list Z) (R : repr qf0 runs) (q : Z) (A old new B : list Z).
Hypothesis Hq : 0 <= q.
Hypothesis Hrun : runs q = A ++ old ++ B.
Hypothesis Hold : old <> [].
Hypothesis Hshort : (length new <= length old)%nat.
Hypothesis Hfits : Forall (fits (bps qf0)) new.

#[local] Abbreviation len := (run_len runs).
#[local] Abbreviation stop := (run_stop len).
#[local] Abbreviation start := (run_start len).
#[local] Abbreviation runs2 := (runs' runs q A new B).
#[local] Abbreviation len2 := (run_len runs2).
#[local] Abbreviation pos := (start q + Z.of_nat (length A)).
#[local] Abbreviation dst := (pos + Z.of_nat (length new)).
#[local] Abbreviation src := (pos + Z.of_nat (length old)).
#[local] Abbreviation nb := (nblocks (metadata qf0)).

Lemma len_q : len q = Z.of_nat (length A) + Z.of_nat (length old) + Z.of_nat (length B).
Proof. unfold run_len. rewrite Hrun, !length_app. lia. Qed.

Lemma length_old : (1 <= length old)%nat.
Proof. destruct old; [contradiction|cbn; lia]. Qed.

Lemma stop_q : stop q = src + Z.of_nat (length B).
Proof. pose proof length_old. rewrite run_stop_full, len_q by (rewrite ?len_q; lia). lia. Qed.

Lemma replace_bounds : 0 <= start q /\ q <= start q /\ src + Z.of_nat (length B) <= 64 * nb /\ 64 * nb < 2 ^ 62.
Proof.
  pose proof (wf_bound _ _ _ (repr_wf _ _ R) q) as W. pose proof (lo_size _ _ (rp_laid _ _ R)). rewrite stop_q in W.
  unfold run_start in *. lia.
Qed.

(** The counter is written, and the run ends where it has to. *)
Definition written : QF := set_slots qf0 pos new.
Definition ended : QF :=
  if is_runend written (src - 1) then
    if 0 <? Z.of_nat (length new) then set_bit written RUN (dst - 1)
    else if (if q <? pos then negb (is_runend written (pos - 1)) else false) then set_bit written RUN (pos - 1) else written
  else written.

Lemma written_contents : same_header written qf0 /\
  (forall x, 0 <= x -> c_occ (contents_of written) x = c_occ (contents_of qf0) x) /\
  (forall x, 0 <= x -> c_run (contents_of written) x = c_run (contents_of qf0) x) /\
  (forall x, 0 <= x -> c_off (contents_of written) x = c_off (contents_of qf0) x) /\
  (forall x, 0 <= x -> c_slot (contents_of written) x = if (pos <=? x) && (x <? dst) then nth (Z.to_nat (x - pos)) new 0 else c_slot (contents_of qf0) x).
Proof.
  destruct replace_bounds as (B1 & B2 & B3 & B4).
  destruct (contents_set_slots new qf0 pos (repr_width _ _ R)) as [H [C1 C2 C3 C4]]; [lia|lia|exact Hfits|]. exact (conj H (conj C1 (conj C2 (conj C3 C4)))).
Qed.

Lemma run_bit p j : 0 <= p -> (j < length (runs p))%nat -> c_run (contents_of qf0) (start p + Z.of_nat j) = (S j =? length (runs p))%nat.
Proof. intros Hp Hj. assert (0 <= start p + Z.of_nat j) by (unfold run_start; lia). apply (repr_slot_ok qf0 runs _ R ltac:(eassumption)); auto. Qed.

Lemma run_bit_q x : start q <= x < stop q -> c_run (contents_of qf0) x = (x =? stop q - 1).
Proof.
  intros Hx. rewrite stop_q in *. replace x with (start q + Z.of_nat (Z.to_nat (x - start q))) at 1 by lia. pose proof len_q as L. unfold run_len in L.
  rewrite run_bit by lia. destruct (Nat.eqb_spec (S (Z.to_nat (x - start q))) (length (runs q))), (Z.eqb_spec x (src + Z.of_nat (length B) - 1)); lia.
Qed.

(** The run-end bits now: the new end of the run is set if the old one was among the
    replaced slots. *)
Lemma ended_contents : same_header ended qf0 /\
  (forall x, 0 <= x -> c_occ (contents_of ended) x = c_occ (contents_of qf0) x) /\
  (forall x, 0 <= x -> c_run (contents_of ended) x = if (match B with [] => true | _ => false end) && (start q <? dst) && (x =? dst - 1) then true else c_run (contents_of qf0) x) /\
  (forall x, 0 <= x -> c_off (contents_of ended) x = c_off (contents_of qf0) x) /\
  (forall x, 0 <= x -> c_slot (contents_of ended) x = if (pos <=? x) && (x <? dst) then nth (Z.to_nat (x - pos)) new 0 else c_slot (contents_of qf0) x).
Proof.
  destruct written_contents as (W0 & W1 & W2 & W3 & W4). destruct replace_bounds as (B1 & B2 & B3 & B4). pose proof length_old as Lo. pose proof stop_q as Sq. pose proof run_bit_q as RB.
  assert (Hww : width_ok written) by (apply (same_header_width _ _ W0), (repr_width _ _ R)).
  assert (Bit : forall x, 0 <= x -> is_runend written x = c_run (contents_of qf0) x).
  { intros x Hx. rewrite is_runend_view by (try exact Hww; lia). exact (W2 x Hx). }
  assert (Set1 : forall y, 0 <= y -> same_header (set_bit written RUN y) qf0 /\
    (forall x, 0 <= x -> c_occ (contents_of (set_bit written RUN y)) x = c_occ (contents_of qf0) x) /\
    (forall x, 0 <= x -> c_run (contents_of (set_bit written RUN y)) x = if x =? y then true else c_run (contents_of qf0) x) /\
    (forall x, 0 <= x -> c_off (contents_of (set_bit written RUN y)) x = c_off (contents_of qf0) x) /\
    (forall x, 0 <= x -> c_slot (contents_of (set_bit written RUN y)) x = if (pos <=? x) && (x <? dst) then nth (Z.to_nat (x - pos)) new 0 else c_slot (contents_of qf0) x)).
  { intros y Hy. destruct (contents_set_run written Hww y Hy) as [C1 C2 C3 C4]. fields. split; [rewrite <- W0; split; reflexivity|].
    split; [intros; rewrite C1; auto|]. split; [intros; rewrite C2 by assumption; unfold upd; destruct (Z.eqb_spec x y); auto|]. split; intros; rewrite ?C3, ?C4; auto. }
  unfold ended. rewrite Bit, RB by lia. destruct B as [|b0 B'] eqn:EB; cbn [length] in *; [rewrite (proj2 (Z.eqb_eq (src - 1) (stop q - 1))) by lia|rewrite (proj2 (Z.eqb_neq (src - 1) (stop q - 1))) by lia].
  - cbn [andb]. destruct (Z.ltb_spec 0 (Z.of_nat (length new))).
    + destruct (Set1 (dst - 1) ltac:(lia)) as (S0 & S1 & S2 & S3 & S4). rewrite (proj2 (Z.ltb_lt (start q) dst)) by lia. auto.
    + destruct (Nat.eq_dec (length A) 0) as [EA|NA].
      * rewrite (proj2 (Z.ltb_ge (start q) dst)) by lia.
        destruct (Z.ltb_spec q pos) as [L|L]; [|auto]. rewrite Bit by lia.
        enough (T : c_run (contents_of qf0) (pos - 1) = true) by (rewrite T; auto).
        apply (wf_run _ _ _ (repr_wf _ _ R)); [lia|].
        destruct (run_stop_last len (q - 1)) as (p & Hp & Ep & Es); [unfold run_start in *; lia|]. exists p. split; [lia|]. split; [exact Ep|].
        rewrite run_stop_full by (try exact Ep; lia). rewrite <- Es. unfold run_start in *. lia.
      * rewrite (proj2 (Z.ltb_lt q pos)), Bit, RB, (proj2 (Z.eqb_neq (pos - 1) (stop q - 1))), (proj2 (Z.ltb_lt (start q) dst)) by lia. cbn [negb].
        destruct (Set1 (pos - 1) ltac:(lia)) as (S0 & S1 & S2 & S3 & S4). split; [exact S0|]. split; [exact S1|]. split; [|auto].
        intros x Hx. replace (dst - 1) with (pos - 1) by lia. now apply S2.
  - cbn [andb]. auto.
Qed.

Lemma len2_other p : p <> q -> runs2 p = runs p.
Proof. intros N. unfold runs', upd. destruct (Z.eqb_spec p q); congruence. Qed.

Lemma runs2_q : runs2 q = A ++ new ++ B.
Proof. apply upd_same. Qed.

(** Before the end of the new counter the filter holds the new runs. *)
Lemma ended_new x : 0 <= x < dst -> slot_ok runs2 (contents_of ended) x.
Proof.
  intros Hx. destruct ended_contents as (_ & _ & W2 & _ & W4). destruct replace_bounds as (B1 & B2 & _). pose proof length_old as Lo. pose proof stop_q as Sq. pose proof run_bit_q as RB.
  pose proof (freed_bounds runs q A old new B Hrun Hshort) as Fb.
  assert (Sq2 : run_start len2 q = start q) by (rewrite (start_runs'_eq runs q A old new B Hrun Hshort); now apply start_shrunk_q).
  destruct (Z.lt_ge_cases x (start q)) as [L|L].
  - assert (Same : c_run (contents_of ended) x = c_run (contents_of qf0) x /\ c_slot (contents_of ended) x = c_slot (contents_of qf0) x).
    { rewrite W2, W4 by lia. destruct B; cbn [andb]; split_cmps; lia || auto. }
    apply (slot_ok_ext _ (contents_of qf0)); [apply Same|apply Same|]. pose proof (repr_slot_ok qf0 runs x R ltac:(lia)) as [H1 H2]. split.
    + intros p j Hp Hj E. destruct (Z.lt_ge_cases p q) as [Lp|Lp].
      * rewrite len2_other in * by lia. apply H1; auto. rewrite <- E. f_equal. rewrite (start_runs'_eq runs q A old new B Hrun Hshort). symmetry. apply start_shrunk_below. lia.
      * exfalso. destruct (Z.eq_dec p q) as [->|]; [lia|]. pose proof (start_shrunk_after len q _ (run_len_nonneg runs) Fb p ltac:(lia)) as M.
        rewrite <- (start_runs'_eq runs q A old new B Hrun Hshort) in M. lia.
    + intros F. apply H2. rewrite (stop_runs'_eq runs q A old new B Hrun Hshort) in F. destruct (Z.lt_ge_cases x q) as [Lx|Lx]; [now rewrite stop_shrunk_below in F|].
      exfalso. pose proof (run_stop_mono _ (shrunk_nonneg len q _ (run_len_nonneg runs) Fb) (q - 1) x ltac:(lia)) as M.
      rewrite stop_shrunk_below in M by lia. unfold run_start in *. lia.
  - replace x with (run_start len2 q + Z.of_nat (Z.to_nat (x - start q))) by lia. set (j := Z.to_nat (x - start q)).
    assert (Hj : (j < length (A ++ new))%nat) by (rewrite length_app; lia).
    apply slot_ok_used; [exact Hq|rewrite runs2_q, app_assoc, length_app; lia| |]; rewrite Sq2; replace (start q + Z.of_nat j) with x by lia; rewrite runs2_q.
    + rewrite W4 by lia. rewrite app_assoc, app_nth1 by exact Hj. destruct (Z.leb_spec pos x); cbn [andb].
      * rewrite (proj2 (Z.ltb_lt x dst)), app_nth2 by lia. f_equal. lia.
      * rewrite app_nth1 by lia. fields. replace x with (start q + Z.of_nat j) by lia. pose proof len_q as Lq. unfold run_len in Lq.
        rewrite (rp_slot _ _ R q j Hq ltac:(lia)), Hrun, app_nth1 by lia. reflexivity.
    + rewrite W2, RB by lia. rewrite length_app in Hj. rewrite !length_app. destruct B as [|b0 B']; cbn [length andb] in *.
      * rewrite (proj2 (Z.ltb_lt (start q) dst)) by lia. cbn [andb]. destruct (Nat.eqb_spec (S j) (length A + (length new + 0))), (Z.eqb_spec x (dst - 1)), (Z.eqb_spec x (stop q - 1)); lia.
      * destruct (Nat.eqb_spec (S j) (length A + (length new + S (length B')))), (Z.eqb_spec x (stop q - 1)); lia.
Qed.

(** From the old end of the counter on, the old ones. *)
Lemma ended_old x : src <= x -> slot_ok runs (contents_of ended) x.
Proof.
  intros Hx. destruct ended_contents as (_ & _ & W2 & _ & W4). destruct replace_bounds as (B1 & _).
  apply (slot_ok_ext _ (contents_of qf0)); [| |apply repr_slot_ok; auto; lia]; [rewrite W4 by lia|rewrite W2 by lia; pose proof length_old; destruct B; cbn [andb]]; split_cmps; lia || reflexivity.
Qed.

Lemma ended_shifting : shifting runs q A new B qf0 ended dst src.
Proof.
  destruct ended_contents as (W0 & W1 & W2 & W3 & W4). split; auto using ended_new, ended_old.
Qed.

Lemma ended_position : (length new < length old)%nat -> position runs q A old new B ended q dst src.
Proof.
  intros Hl. destruct ended_contents as (_ & _ & W2 & _ & _). destruct replace_bounds as (B1 & B2 & _). pose proof length_old as Lo. pose proof stop_q as Sq. pose proof runs2_q as Rq. pose proof (stop_runs'_eq runs q A old new B Hrun Hshort) as SE.
  pose proof (freed_bounds runs q A old new B Hrun Hshort) as Fb.
  assert (Sq2 : run_start len2 q = start q) by (rewrite (start_runs'_eq runs q A old new B Hrun Hshort); now apply start_shrunk_q).
  unfold position. rewrite W2, run_bit_q by lia.
  destruct B as [|b0 B'] eqn:EB; cbn [andb length] in *; [right|left].
  - rewrite (proj2 (Z.eqb_eq (src - 1) (stop q - 1))) by lia. split; [|destruct (_ && _); reflexivity]. split; [lia| | |lia].
    + rewrite Hrun. destruct A, old; cbn; congruence.
    + rewrite app_nil_r in Rq. assert (El : run_len (runs' runs q A new []) q = Z.of_nat (length A) + Z.of_nat (length new)) by (unfold run_len; rewrite Rq, length_app; lia).
      rewrite run_stop_step, El by lia. destruct (Z.eqb_spec (Z.of_nat (length A) + Z.of_nat (length new)) 0).
      * assert (E0 : run_stop (run_len (runs' runs q A new [])) (q - 1) = stop (q - 1)).
        { rewrite SE. apply stop_shrunk_below. lia. }
        rewrite E0. unfold run_start in *. lia.
      * lia.
  - rewrite (proj2 (Z.eqb_neq (src - 1) (stop q - 1))) by lia. split; [|reflexivity]. exists (length (A ++ new)). split; [lia| | | |reflexivity || lia].
    + rewrite Rq, !length_app. cbn. lia.
    + rewrite length_app. lia.
    + unfold moved. rewrite Z.eqb_refl. unfold freed. rewrite length_app. lia.
Qed.

(** The slots moved back. *)
Lemma ended_shift_back : exists qf', shift_back ended (2 * scan_fuel ended + 2) q dst (src - dst) = Some qf' /\ shifted_back runs q A new B qf0 qf'.
Proof.
  pose proof (repr_wf _ _ R) as W. destruct replace_bounds as (B1 & B2 & B3 & B4). destruct (Nat.eq_dec (length new) (length old)) as [El|Nl].
  - exists ended. split; [replace (src - dst) with 0 by lia; destruct (2 * scan_fuel ended + 2)%nat; reflexivity|].
    destruct ended_shifting as [S1 S2 S3 S4 S5]. split; [exact S1|]. split; [exact S2|]. split; [exact S3|]. intros x Hx.
    destruct (Z.lt_ge_cases x dst) as [L|L]; [apply S4; lia|]. destruct (S5 x ltac:(lia)) as [H1 H2].
    assert (En : forall p, len2 p = len p).
    { intros p. rewrite (len_runs' runs q A old new B Hrun Hshort). unfold shrunk, freed. destruct (Z.eqb_spec p q) as [->|]; lia. }
    assert (Est : forall p, run_stop len2 p = stop p) by (intros p; apply run_stop_ext; intros; apply En).
    split.
    + intros p j Hp Hj E. rewrite (run_start_ext len2 len p (fun p _ => En p)) in E. specialize (En p). unfold run_len in En.
      destruct (H1 p j Hp ltac:(lia) E) as [V1 V2]. split.
      * rewrite V1. pose proof (nth_moved runs q A old new B Hrun Hshort p j) as M. replace (moved q old new p) with O in M by (unfold moved, freed; destruct (p =? q); lia).
        rewrite Nat.add_0_r in M. apply M. intros ->. rewrite length_app. lia.
      * rewrite V2. destruct (Nat.eqb_spec (S j) (length (runs p))), (Nat.eqb_spec (S j) (length (runs2 p))); lia.
    + rewrite Est. exact H2.
  - apply shift_back_spec with (old := old); auto; try lia.
    + apply (repr_width _ _ R).
    + intros p Hp. apply (wf_occ _ _ _ W). lia.
    + intros p. apply (wf_bound _ _ _ W).
    + apply ended_shifting.
    + apply ended_position. lia.
    + destruct ended_contents as (W0 & _). unfold scan_fuel. rewrite (sh_metadata _ _ W0). destruct (c_run _ _); lia.
Qed.
End Replace.

(** ** The block offsets *)

Section Offsets.
Context (len len' : Z -> Z) (q nb : Z).
Hypothesis Hq : 0 <= q.
(** From a block whose offset is right on, all are. *)
Hypothesis Hjoin : forall b, q / 64 < b -> exact_offset len' b = exact_offset len b -> forall b', b <= b' -> exact_offset len' b' = exact_offset len b'.
Hypothesis Hlast : q / 64 < nb - 1 /\ exact_offset len' (nb - 1) = exact_offset len (nb - 1).

Hypothesis Hle : forall b, exact_offset len' b <= exact_offset len b.

(** The offsets up to block [b] are the new ones. *)
Record corrected (qf : QF) (b : Z) : Prop := {
  cr_bits : bits_laid_out qf len';
  cr_blocks : nblocks (metadata qf) = nb;
  cr_done b' : 0 <= b' <= b -> get_offset qf b' = exact_offset len' b';
  cr_todo b' : b < b' < nb -> get_offset qf b' = exact_offset len b';
}.

Lemma bits_ceq qf qf' : ceq (contents_of qf') (mk_contents (v_occ (view_of qf)) (v_run (view_of qf)) (get_offset qf') (get_slot qf)) ->
  bps qf' = bps qf -> nblocks (metadata qf') = nblocks (metadata qf) -> bits_laid_out qf len' -> bits_laid_out qf' len'.
Proof.
  intros [C1 C2 _ _] B N [H1 H2 W]. fields. split; [now rewrite B|now rewrite N|]. rewrite N. apply (wf_ext (vset_off (view_of qf) (exact_offset len')) _ _ len'); auto.
  apply (wf_len _ _ _ W).
Qed.

(** The loop stores the missing offsets and leaves the rest of the filter alone. *)
Lemma update_offsets_spec fuel : forall qf b, corrected qf b -> q / 64 <= b < nb - 1 -> nb - b <= Z.of_nat fuel ->
  exists qf', update_offsets qf fuel b = Some qf' /\ same_header qf' qf /\
    (forall b', 0 <= b' < nb -> get_offset qf' b' = exact_offset len' b') /\
    ceq (contents_of qf') (mk_contents (v_occ (view_of qf)) (v_run (view_of qf)) (get_offset qf') (get_slot qf)).
Proof.
  induction fuel as [|fuel IH]; intros qf b [L N Hd Ht] Hb Hf; [lia|]. pose proof (bl_size _ _ L) as Hs. rewrite N in Hs. assert (Hb0 : 0 <= b) by (pose proof (Z.div_pos q 64); lia).
  assert (Hw : width_ok qf) by apply (bl_bps _ _ L). pose proof (bl_wf _ _ L) as W. pose proof (wf_len _ _ _ W) as ln.
  cbn [update_offsets]. cbv zeta. unfold QF_SLOTS_PER_BLOCK.
  change (sub64 64 1) with 63. assert (E0 : (64 * b + 63)%u64 = (64 * b + 63)%Z) by (unfold add64, mul64; rewrite (u64_small (64 * b)), u64_small by (unfold fits; lia); lia).
  assert (Eq : (64 * b + 63) / 64 = b) by (symmetry; apply Z.div_unique with 63; lia).
  rewrite E0, (run_end_at qf len' L) by (rewrite ?N, ?Eq; try apply Hd; lia).
  set (x := run_stop len' (64 * b + 63)). assert (Ex : exact_offset len' (b + 1) = Z.max 0 (x - 64 * (b + 1))) by (unfold exact_offset; replace (64 * (b + 1) - 1) with (64 * b + 63) by lia; reflexivity).
  assert (Hx : 0 <= x <= 64 * nb) by (pose proof (wf_bound _ _ _ W (64 * b + 63)) as Wb; pose proof (run_stop_bounds len' ln (64 * b + 63)); rewrite N in Wb; lia).
  pose proof (get_offset_fits qf (b + 1)) as Fo. rewrite (Ht (b + 1)) in * by lia. pose proof (Hle (b + 1)) as Lo. set (o := exact_offset len' (b + 1)) in *.
  assert (Eo : exact_offset len (b + 1) = o -> forall b', 0 <= b' < nb -> get_offset qf b' = exact_offset len' b').
  { intros Eo b' Hb'. destruct (Z.le_gt_cases b' b); [apply Hd; lia|]. rewrite Ht by lia. symmetry. apply (Hjoin (b + 1)); auto; lia. }
  assert (Stay : exact_offset len (b + 1) = o -> exists qf', Some qf = Some qf' /\ same_header qf' qf /\
    (forall b', 0 <= b' < nb -> get_offset qf' b' = exact_offset len' b') /\
    ceq (contents_of qf') (mk_contents (v_occ (view_of qf)) (v_run (view_of qf)) (get_offset qf') (get_slot qf))).
  { intros E. exists qf. split; [reflexivity|]. split; [split; reflexivity|]. split; [exact (Eo E)|]. split; reflexivity. }
  assert (Ho : fits 16 o) by (unfold fits in *; lia).
  assert (Go : exact_offset len (b + 1) <> o -> exists qf', update_offsets (set_offset qf (b + 1) o) fuel (b + 1) = Some qf' /\ same_header qf' qf /\
    (forall b', 0 <= b' < nb -> get_offset qf' b' = exact_offset len' b') /\
    ceq (contents_of qf') (mk_contents (v_occ (view_of qf)) (v_run (view_of qf)) (get_offset qf') (get_slot qf))).
  { intros Ne. pose proof (contents_set_offset qf Hw (b + 1) o ltac:(lia) Ho) as C. destruct C as [C1 C2 C3 C4]. fields.
    assert (Hb1 : b + 1 < nb - 1). { destruct (Z.eq_dec (b + 1) (nb - 1)) as [E|]; [|lia]. exfalso. apply Ne. unfold o. rewrite E. symmetry. apply Hlast. }
    destruct (IH (set_offset qf (b + 1) o) (b + 1)) as (qf' & E & H1 & H2 & [D1 D2 D3 D4]); [split|lia|lia|].
    - apply (bits_ceq qf); auto; split; fields; auto.
    - exact N.
    - intros b' Hb'. rewrite C3 by lia. unfold upd. destruct (Z.eqb_spec b' (b + 1)) as [->|]; [reflexivity|apply Hd; lia].
    - intros b' Hb'. rewrite C3 by lia. unfold upd. destruct (Z.eqb_spec b' (b + 1)) as [->|]; [lia|apply Ht; lia].
    - exists qf'. split; [exact E|]. split; [rewrite H1; split; reflexivity|]. split; [exact H2|]. fields.
      split; fields; intros j Hj; rewrite ?D1, ?D2, ?D4; auto. }
  assert (Hdiv : (Z.max (64 * b + 63 + 1) x - 1) / 64 = b <-> o = 0).
  { split; intros E.
    - pose proof (Z.div_mod (Z.max (64 * b + 63 + 1) x - 1) 64). pose proof (Z.mod_pos_bound (Z.max (64 * b + 63 + 1) x - 1) 64). lia.
    - symmetry. apply Z.div_unique with 63; lia. }
  destruct (Z.eqb_spec ((Z.max (64 * b + 63 + 1) x - 1) / 64) b) as [E|E].
  - apply Hdiv in E. destruct (Z.eqb_spec (exact_offset len (b + 1)) 0); [apply Stay; lia|].
    replace (set_offset qf (b + 1) 0) with (set_offset qf (b + 1) o) by congruence. apply Go; lia.
  - assert (No : o <> 0) by tauto. assert (Er : sub64 (Z.max (64 * b + 63 + 1) x - 1) (64 * b + 63) = o) by (unfold sub64; rewrite u64_small by (unfold fits; lia); lia).
    rewrite Er. destruct (Z.eqb_spec (exact_offset len (b + 1)) o); [now apply Stay|].
    replace (Z.max (64 * b + 63 + 1) x - 1 - (64 * b + 63)) with o by lia. unfold u16. rewrite (uwrap_small 16) by exact Ho. now apply Go.
Qed.
End Offsets.

(** ** The whole replacement *)

(** The code is [ended], followed by the moves. *)
Lemma ended_eq pos q (old new : list Z) : 0 <= q -> 0 <= pos -> pos + Z.of_nat (length old) < 2 ^ 62 -> (1 <= length old)%nat -> (length new <= length old)%nat ->
  forall written, 
  (if is_runend written (pos + Z.of_nat (length old) - 1)%u64 then
     if 0 <? Z.of_nat (length new) then set_bit written RUN (pos + Z.of_nat (length new) - 1)%u64
     else if (if q <? pos then negb (is_runend written (pos - 1)%u64) else false) then set_bit written RUN (pos - 1)%u64 else written
   else written) =
  (if is_runend written (pos + Z.of_nat (length old) - 1) then
     if 0 <? Z.of_nat (length new) then set_bit written RUN (pos + Z.of_nat (length new) - 1)
     else if (if q <? pos then negb (is_runend written (pos - 1)) else false) then set_bit written RUN (pos - 1) else written
   else written).
Proof.
  intros H0 H1 H2 H3 H4 written. assert (E : forall k, 1 <= k < 2 ^ 62 -> (k - 1)%u64 = (k - 1)%Z) by (intros; unfold sub64; apply u64_small; unfold fits; lia).
  assert (P : forall k, 0 <= k <= Z.of_nat (length old) -> (pos + k)%u64 = (pos + k)%Z) by (intros; unfold add64; apply u64_small; unfold fits; lia).
  rewrite P, E by lia. destruct (is_runend written _); [|reflexivity]. destruct (Z.ltb_spec 0 (Z.of_nat (length new))).
  - now rewrite P, E by lia.
  - destruct (Z.ltb_spec q pos); [|reflexivity]. now rewrite E by lia.
Qed.

Section Whole.
Context (qf : QF) (runs : Z -> list Z) (R : repr qf runs) (q : Z) (A old new B : list Z).
Hypothesis Hq : 0 <= q.
Hypothesis Hrun : runs q = A ++ old ++ B.
Hypothesis Hold : old <> [].
Hypothesis Hshort : (length new <= length old)%nat.
Hypothesis Hfits : Forall (fits (bps qf)) new.
(** No run reaches the last block. *)
Hypothesis Hlast : q / 64 < nblocks (metadata qf) - 1 /\ get_offset qf (nblocks (metadata qf) - 1) = 0.

#[local] Abbreviation len := (run_len runs).
#[local] Abbreviation runs2 := (runs' runs q A new B).
#[local] Abbreviation len2 := (run_len runs2).
#[local] Abbreviation nb := (nblocks (metadata qf)).
#[local] Abbreviation d := (Z.of_nat (freed old new)).

Let ln := run_len_nonneg runs.
Let Fb : 0 <= d <= len q := freed_bounds runs q A old new B Hrun Hshort.

Lemma stop2 p : run_stop len2 p = run_stop (shrunk len q d) p.
Proof. apply (stop_runs'_eq runs q A old new B Hrun Hshort). Qed.

Lemma offset_le b : exact_offset len2 b <= exact_offset len b.
Proof. unfold exact_offset. rewrite stop2. pose proof (stop_shrunk_le len q d ln Hq Fb (64 * b - 1)). lia. Qed.

Lemma offset_below b : b <= q / 64 -> exact_offset len2 b = exact_offset len b.
Proof.
  intros Hb. unfold exact_offset. rewrite stop2, stop_shrunk_below; [reflexivity|]. pose proof (Z.div_mod q 64). pose proof (Z.mod_pos_bound q 64). lia.
Qed.

Lemma offset_join b : q / 64 < b -> exact_offset len2 b = exact_offset len b -> forall b', b <= b' -> exact_offset len2 b' = exact_offset len b'.
Proof.
  intros Hb E b' Hb'. unfold exact_offset in *. rewrite !stop2 in *. pose proof (Z.div_mod q 64). pose proof (Z.mod_pos_bound q 64).
  destruct (Z.eq_dec b' b) as [->|]; [exact E|].
  destruct (shrunk_rejoins len q d Hq (64 * b) ltac:(lia) ltac:(lia) (64 * b' - 1) ltac:(lia)) as (_ & _ & M). lia.
Qed.

Lemma offset_last : exact_offset len2 (nb - 1) = exact_offset len (nb - 1).
Proof.
  pose proof (laid_out_offset _ _ (nb - 1) (rp_laid _ _ R) ltac:(pose proof (Z.div_pos q 64); lia)) as E. rewrite (proj2 Hlast) in E.
  pose proof (offset_le (nb - 1)). unfold exact_offset in *. lia.
Qed.

(** After the moves, and the occupied bit of a vanished run. *)
Definition unoccupied (qf' : QF) : QF := match A ++ new ++ B with [] => clear_bit qf' OCC q | _ => qf' end.

Lemma unoccupied_ok qf' : shifted_back runs q A new B qf qf' ->
  same_header (unoccupied qf') qf /\ bits_laid_out (unoccupied qf') len2 /\ (forall x, 0 <= x -> slot_ok runs2 (contents_of (unoccupied qf')) x) /\
  (forall b, 0 <= b -> get_offset (unoccupied qf') b = get_offset qf b).
Proof.
  intros (S1 & S2 & S3 & S4). pose proof (repr_wf _ _ R) as W. assert (Hw : width_ok qf') by (apply (same_header_width _ _ S1), (repr_width _ _ R)).
  assert (C : same_header (unoccupied qf') qf' /\ ceq (contents_of (unoccupied qf')) (match A ++ new ++ B with [] => put_occ (contents_of qf') q false | _ => contents_of qf' end)).
  { unfold unoccupied. destruct (A ++ new ++ B); [|split; [split; reflexivity|reflexivity]]. split; [split; reflexivity|now apply contents_clear_occ]. }
  destruct C as [H0 [C1 C2 C3 C4]]. assert (Hh : same_header (unoccupied qf') qf) by (now rewrite H0).
  assert (Slots : forall x, 0 <= x -> slot_ok runs2 (contents_of (unoccupied qf')) x).
  { intros x Hx. apply (slot_ok_ext _ (contents_of qf')); auto; [rewrite C4 by exact Hx|rewrite C2 by exact Hx]; destruct (A ++ new ++ B); reflexivity. }
  split; [exact Hh|]. split; [|split; [exact Slots|]].
  - apply slot_ok_bits; auto.
    + apply (same_header_width _ _ Hh), (repr_width _ _ R).
    + rewrite (sh_metadata _ _ Hh). apply (lo_size _ _ (rp_laid _ _ R)).
    + intros p Hp. change (v_occ (view_of ?x) p) with (c_occ (contents_of x) p). rewrite C1 by exact Hp.
      assert (Op : c_occ (contents_of qf') p = negb (len p =? 0)) by (rewrite <- (wf_occ _ _ _ W) by exact Hp; now apply S2).
      rewrite (len_runs' runs q A old new B Hrun Hshort). unfold shrunk. destruct (Z.eqb_spec p q) as [->|Np].
      * assert (Lq : len q = Z.of_nat (length A) + Z.of_nat (length old) + Z.of_nat (length B)) by (unfold run_len; rewrite Hrun, !length_app; lia).
        assert (Lo : (1 <= length old)%nat) by (destruct old; [contradiction|cbn; lia]).
        rewrite Lq. unfold freed. destruct (A ++ new ++ B) eqn:E.
        -- cbn [put_occ c_occ]. rewrite upd_same. apply (f_equal (@length Z)) in E. rewrite !length_app in E. cbn [length] in E. symmetry. apply negb_false_iff, Z.eqb_eq. lia.
        -- rewrite Op, Lq. apply (f_equal (@length Z)) in E. rewrite !length_app in E. cbn [length] in E. f_equal.
           rewrite (proj2 (Z.eqb_neq _ 0)), (proj2 (Z.eqb_neq _ 0)) by lia. reflexivity.
      * rewrite <- Op. destruct (A ++ new ++ B); [|reflexivity]. cbn [put_occ c_occ]. unfold upd. destruct (Z.eqb_spec p q); [lia|reflexivity].
    + intros p. rewrite stop2, (sh_metadata _ _ Hh). pose proof (stop_shrunk_le len q d ln Hq Fb p). pose proof (wf_bound _ _ _ W p). lia.
  - intros b Hb. rewrite <- S3 by exact Hb. change (get_offset ?x b) with (c_off (contents_of x) b). rewrite C3 by exact Hb. destruct (A ++ new ++ B); reflexivity.
Qed.

(** The runs with the counter replaced, and what the operation counts. *)
Definition uncounted : QF :=
  let qf1 := bump qf Noccupied (- i32 (Z.of_nat (length old) - Z.of_nat (length new))) in
  match new with [] => bump qf1 Ndistinct (-1) | _ => qf1 end.

Lemma remove_replace_spec op : metadata_lock (runtimedata qf) = 0 ->
  (negb (op =? 0) && (Z.of_nat (length new) =? 0) = match A ++ new ++ B with [] => true | _ => false end) ->
  exists qf', remove_replace_slots_and_shift_remainders_and_runends_and_offsets qf op q
      (run_start len q + Z.of_nat (length A)) new (Z.of_nat (length new)) (Z.of_nat (length old))
    = Some (i32 (Z.of_nat (length old) - Z.of_nat (length new)), qf')
    /\ repr qf' runs2 /\ runtimedata qf' = runtimedata qf /\ metadata qf' = metadata uncounted.
Proof.
  intros Hlock Hop. pose proof (replace_bounds qf runs R q A old new B Hq Hrun Hold Hshort) as (B1 & B2 & B3 & B4).
  assert (Lo : (1 <= length old)%nat) by (destruct old; [contradiction|cbn; lia]).
  destruct (ended_shift_back qf runs R q A old new B Hq Hrun Hold Hshort Hfits) as (qf1 & E1 & S1).
  destruct (unoccupied_ok qf1 S1) as (U0 & U1 & U2 & U3).
  unfold remove_replace_slots_and_shift_remainders_and_runends_and_offsets. set (pos := run_start len q + Z.of_nat (length A)) in *.
  rewrite (ended_eq pos q old new Hq ltac:(lia) ltac:(lia) Lo Hshort). unfold ended, written in E1.
  assert (P : (pos + Z.of_nat (length new))%u64 = pos + Z.of_nat (length new)) by (unfold add64; apply u64_small; unfold fits; lia).
  assert (D : (Z.of_nat (length old) - Z.of_nat (length new))%u64 = Z.of_nat (length old) - Z.of_nat (length new)) by (unfold sub64; apply u64_small; unfold fits; lia).
  rewrite P, D. replace (pos + Z.of_nat (length old) - (pos + Z.of_nat (length new))) with (Z.of_nat (length old) - Z.of_nat (length new)) in E1 by lia.
  fold pos in E1. rewrite E1, Hop.
  assert (EU : (if match A ++ new ++ B with [] => true | _ => false end then clear_bit qf1 OCC q else qf1) = unoccupied qf1) by (unfold unoccupied; destruct (A ++ new ++ B); reflexivity).
  rewrite EU. set (qf2 := unoccupied qf1) in *.
  assert (Off : exists qf3, (if Z.of_nat (length new) <? Z.of_nat (length old) then update_offsets qf2 (S (Z.to_nat (nblocks (metadata qf2)))) (q / QF_SLOTS_PER_BLOCK) else Some qf2) = Some qf3
    /\ same_header qf3 qf2 /\ repr qf3 runs2).
  { pose proof (sh_metadata _ _ U0) as M0. destruct (Z.ltb_spec (Z.of_nat (length new)) (Z.of_nat (length old))) as [L|L].
    - destruct (update_offsets_spec len len2 q nb Hq offset_join (conj (proj1 Hlast) offset_last) offset_le (S (Z.to_nat (nblocks (metadata qf2)))) qf2 (q / 64)) as (qf3 & E3 & H3 & O3 & C3).
      + split; [exact U1|now rewrite M0| |]; intros b' Hb'; rewrite U3 by (pose proof (Z.div_pos q 64); lia).
        * rewrite offset_below by lia. apply laid_out_offset; [apply (rp_laid _ _ R)|lia].
        * apply laid_out_offset; [apply (rp_laid _ _ R)|]. pose proof (Z.div_pos q 64). lia.
      + lia.
      + rewrite M0. pose proof (Z.div_pos q 64). lia.
      + exists qf3. split; [exact E3|]. split; [exact H3|]. apply slot_ok_repr.
        * apply (bits_ceq _ qf2); auto; unfold bps; now rewrite (sh_metadata _ _ H3).
        * intros x Hx. destruct C3 as [_ C _ C']. apply (slot_ok_ext _ (contents_of qf2)); [exact (C' x Hx)|exact (C x Hx)|auto].
        * intros b Hb. apply O3. now rewrite (sh_metadata _ _ H3), M0 in Hb.
    - exists qf2. split; [reflexivity|]. split; [split; reflexivity|]. apply slot_ok_repr; auto. intros b Hb. rewrite M0 in Hb. rewrite U3 by lia.
      rewrite (laid_out_offset _ _ b (rp_laid _ _ R)) by lia. unfold exact_offset. f_equal. f_equal. symmetry. rewrite stop2. apply run_stop_ext. intros p _. unfold shrunk, freed.
      destruct (Z.eqb_spec p q) as [->|]; lia. }
  destruct Off as (qf3 & -> & H3 & R3). pose proof (sh_runtime _ _ U0) as T0. pose proof (sh_runtime _ _ H3) as T3. pose proof (sh_metadata _ _ U0) as M0. pose proof (sh_metadata _ _ H3) as M3.
  rewrite modify_metadata_bump by congruence. unfold uncounted. destruct new as [|v new']; cbn [length].
  - change (Z.of_nat 0 =? 0) with true. cbv iota. rewrite modify_metadata_bump by (cbn [runtimedata bump set_metadata]; congruence).
    eexists. split; [reflexivity|]. split; [now repeat apply repr_bump|]. split; [cbn [runtimedata bump set_metadata]; congruence|].
    unfold bump. cbn [metadata set_metadata]. now rewrite M3, M0.
  - rewrite (proj2 (Z.eqb_neq (Z.of_nat (S (length new'))) 0)) by lia.
    eexists. split; [reflexivity|]. split; [now repeat apply repr_bump|]. split; [cbn [runtimedata bump set_metadata]; congruence|].
    unfold bump. cbn [metadata set_metadata]. now rewrite M3, M0.
Qed.
End Whole.
