(* ===== verification/RemoveTheorems.v ===== *)
(** * Removal, on the contents

    [_remove] finds the counter of a remainder in its run, writes the smaller count, or
    nothing, in its place, and moves the rest of the slots back.  On the contents it
    lowers the count of one hash. *)

From S2P Require Import Prelude BitSeq RankSelect Hashutil Blocks BlockBits Shifting Layout Locks CounterCode Runs Insert Remove Repr InsertSlot InsertPlace InsertOne Iterator Filter FilterTheorems ShiftBack RemoveRun.
From Stdlib Require Import Sorted.
Import ListNotations.
#[local] Open Scope Z_scope.

(** ** A smaller count is not longer *)

Lemma digits_value_bounds b r ds : 2 <= b -> 0 <= r -> Forall (is_digit b r) ds -> forall c, 0 <= c ->
  c * b ^ Z.of_nat (length ds) <= digits_value b r ds c < (c + 1) * b ^ Z.of_nat (length ds).
Proof.
  intros Hb Hr HF. induction HF as [|d ds Hd _ IH]; intros c Hc.
  - unfold digits_value. cbn. lia.
  - apply is_digit_facts in Hd as (_ & _ & Hd & _); [|exact Hr]. unfold digits_value in *. cbn [fold_left length]. rewrite Nat2Z.inj_succ, Z.pow_succ_r by lia.
    specialize (IH (c * b + digit_value r d) ltac:(nia)). assert (0 < b ^ Z.of_nat (length ds)) by (apply Z.pow_pos_nonneg; lia). nia.
Qed.

(** The number of digits and the first digit grow with the number. *)
Lemma digits_monotone b r d ds d' ds' : 2 <= b -> 0 <= r -> Forall (is_digit b r) (d :: ds) -> Forall (is_digit b r) (d' :: ds') ->
  (ds' <> [] -> 0 < digit_value r d') -> digits_value b r (d' :: ds') 0 <= digits_value b r (d :: ds) 0 ->
  (length ds' <= length ds)%nat /\ (length ds' = length ds -> r < d' -> r < d).
Proof.
  intros Hb Hr HF HF' Hd' Hv. inversion_clear HF as [|? ? D F]. inversion_clear HF' as [|? ? D' F'].
  pose proof (is_digit_facts _ _ _ Hr D) as (_ & _ & B & E). pose proof (is_digit_facts _ _ _ Hr D') as (_ & _ & B' & E').
  unfold digits_value in Hv. cbn [fold_left] in Hv.
  pose proof (digits_value_bounds b r ds Hb Hr F (digit_value r d) ltac:(lia)) as V. pose proof (digits_value_bounds b r ds' Hb Hr F' (digit_value r d') ltac:(lia)) as V'.
  unfold digits_value in V, V'. change (0 * b + digit_value r d) with (digit_value r d) in Hv. change (0 * b + digit_value r d') with (digit_value r d') in Hv. split.
  - destruct (Nat.le_gt_cases (length ds') (length ds)) as [|L]; [assumption|exfalso].
    assert (P : b ^ Z.of_nat (S (length ds)) <= b ^ Z.of_nat (length ds')) by (apply Z.pow_le_mono_r; lia).
    rewrite Nat2Z.inj_succ, Z.pow_succ_r in P by lia. assert (0 < b ^ Z.of_nat (length ds)) by (apply Z.pow_pos_nonneg; lia).
    specialize (Hd' ltac:(intros ->; cbn in L; lia)). nia.
  - intros El L. rewrite El in V'. assert (0 < b ^ Z.of_nat (length ds)) by (apply Z.pow_pos_nonneg; lia).
    assert (M : digit_value r d' <= digit_value r d) by nia. rewrite <- E. rewrite <- E' in L. revert L M. unfold digit_of.
    destruct (Z.eqb_spec r 0), (Z.leb_spec r (digit_value r d' + 1)), (Z.leb_spec r (digit_value r d + 1)); cbn [negb andb]; lia.
Qed.

Lemma code_shorter w r c c' l l' : 2 <= w <= 56 -> 0 <= r -> code w r c l -> code w r c' l' -> c' <= c -> (length l' <= length l)%nat.
Proof.
  intros Hw Hr H H' Hc. pose proof (width_facts w Hw) as Wf.
  assert (M : forall b d ds d' ds', 2 <= b -> Forall (is_digit b r) (d :: ds) -> Forall (is_digit b r) (d' :: ds') ->
    (ds' <> [] -> 0 < digit_value r d') -> digits_value b r (d' :: ds') 0 <= digits_value b r (d :: ds) 0 ->
    (length ds' <= length ds)%nat /\ (length ds' = length ds -> r < d' -> r < d)) by (intros; now apply (digits_monotone b)).
  destruct H' as [ | | | |c' d' ds' Hp' Hd' HF' V' C' Hv'|c' d' ds' Hp' Hd' HF' V' C' Hv'|c' d' ds' Hp' HF' V' C' Hv'];
    destruct H as [ | | | |c d ds Hp Hd HF V C Hv|c d ds Hp Hd HF V C Hv|c d ds Hp HF V C Hv];
    cbn [app length]; rewrite ?length_app; cbn [length]; try lia.
  1-4: destruct (M (2 ^ w - 2) d ds d' ds') as [M1 M2]; auto; lia.
  subst r. destruct (M (2 ^ w - 1) d ds d' ds') as [M1 M2]; auto; lia.
Qed.

(** ** Fewer copies in a bucket *)

(** The count of [r] lowered by [k], or [r] gone. *)
Fixpoint remove_item (r k : Z) (m : items) : items :=
  match m with
  | [] => []
  | (r', c) :: m => if r =? r' then if c <=? k then m else (r', c - k) :: m else (r', c) :: remove_item r k m
  end.

Lemma remove_item_low h k lo c hi : Forall (fun p => fst p < h) lo ->
  remove_item h k (lo ++ (h, c) :: hi) = lo ++ (if c <=? k then hi else (h, c - k) :: hi).
Proof.
  induction 1 as [|[r d] lo L _ IH]; cbn [app remove_item]; [now rewrite Z.eqb_refl|]. cbn in L. destruct (Z.eqb_spec h r); [lia|]. now rewrite IH.
Qed.

Lemma lookup_remove_item w m l r k r' : run_code w m l -> 0 <= k ->
  lookup_item r' (remove_item r k m) = if r' =? r then Z.max 0 (lookup_item r m - k) else lookup_item r' m.
Proof.
  intros H Hk. induction H as [|s c m l l' Hs Hc Hl HF Hm IH]; cbn [remove_item lookup_item]; [destruct (r' =? r); lia|].
  destruct (Z.eqb_spec r s) as [->|N].
  - destruct (Z.leb_spec c k); cbn [lookup_item]; destruct (Z.eqb_spec r' s) as [->|]; try lia. rewrite lookup_item_high by exact HF. lia.
  - cbn [lookup_item]. rewrite IH. destruct (Z.eqb_spec r' s) as [->|]; [|reflexivity]. destruct (Z.eqb_spec s r); [congruence|reflexivity].
Qed.

(** ** Finding the counter *)

Section Find.
Context (qf : QF) (h : Z).
Hypothesis Hw : 2 <= bps qf <= 56.

(** The scan stops at the first counter that is not smaller, or at the last. *)
Lemma find_counter_spec m l : run_code (bps qf) m l -> forall i fuel,
  m <> [] -> run_at (get_slot qf) (is_runend qf) i l -> (length l <= scan_fuel qf)%nat -> (length l <= fuel)%nat ->
  exists lo r c hi l1 lc l2, m = lo ++ (r, c) :: hi /\ l = l1 ++ lc ++ l2 /\ run_code (bps qf) lo l1 /\ code (bps qf) r c lc /\ run_code (bps qf) hi l2
    /\ Forall (fun p => fst p < h) lo /\ (r < h -> hi = []) /\ fits (bps qf) r /\ 1 <= c < 2 ^ 64
    /\ find_counter qf fuel h i = Some (i + Z.of_nat (length l1), i + Z.of_nat (length l1) + Z.of_nat (length lc) - 1, r, c).
Proof.
  induction 1 as [|r c m l l' Hr Hc Hl HF Hm IH]; [congruence|]. intros i fuel _ H Hf Hf'.
  pose proof (code_length _ _ _ _ Hl) as L1. destruct (code_head _ _ _ _ Hl) as (t0 & Et).
  rewrite length_app in *.
  assert (B : 0 <= i /\ i + Z.of_nat (length l) + Z.of_nat (length l') < 2 ^ 63)
    by (destruct H as [_ _ B _]; rewrite length_app in B; lia).
  assert (Here : (r < h -> m = []) -> exists lo r0 c0 hi l1 lc l2, (r, c) :: m = lo ++ (r0, c0) :: hi /\ l ++ l' = l1 ++ lc ++ l2 /\ run_code (bps qf) lo l1 /\ code (bps qf) r0 c0 lc /\ run_code (bps qf) hi l2
    /\ Forall (fun p => fst p < h) lo /\ (r0 < h -> hi = []) /\ fits (bps qf) r0 /\ 1 <= c0 < 2 ^ 64
    /\ Some (i, i + Z.of_nat (length l) - 1, r, c) = Some (i + Z.of_nat (length l1), i + Z.of_nat (length l1) + Z.of_nat (length lc) - 1, r0, c0)).
  { intros Hlast. exists [], r, c, m, [], l, l'. repeat (split; [solve [auto | constructor]|]). cbn [length]. now rewrite Z.add_0_r. }
  destruct fuel as [|fuel]; [lia|]. cbn [find_counter].
  rewrite (decode_counter_run qf i r c m l l') by (rewrite ?length_app; auto).
  rewrite (run_at_end _ _ i l l' H) by (rewrite Et; discriminate).
  destruct (Z.ltb_spec r h) as [L|L]; cbn [andb]; [|apply Here; lia].
  destruct m as [|[r' c'] m].
  - inversion Hm; subst. cbn [negb]. now apply Here.
  - destruct (run_code_head _ _ _ _ _ Hm) as (t' & Et'). assert (En : match l' with [] => true | _ => false end = false) by now rewrite Et'.
    rewrite En. cbn [negb]. rewrite succ64 by lia. replace (i + Z.of_nat (length l) - 1 + 1) with (i + Z.of_nat (length l)) by lia.
    apply run_at_app in H; [|rewrite Et'; discriminate].
    destruct (IH (i + Z.of_nat (length l)) fuel ltac:(discriminate) H ltac:(lia) ltac:(lia)) as (lo & r0 & c0 & hi & l1 & lc & l2 & E1 & E2 & H1 & H2 & H3 & H4 & H5 & H6 & H7 & ->).
    exists ((r, c) :: lo), r0, c0, hi, (l ++ l1), lc, l2. rewrite E1, E2, app_assoc.
    split; [reflexivity|]. split; [now rewrite app_assoc|]. split.
    { constructor; auto. rewrite E1 in HF. apply Forall_app in HF. apply HF. }
    repeat (split; [now auto|]). rewrite length_app, Nat2Z.inj_add. f_equal. f_equal. f_equal. f_equal; lia.
Qed.
End Find.

(** ** The whole operation *)

(** The contents with the count of a hash lowered by [k]. *)
Definition remove_hash (qf : QF) (m : Z -> items) (hash k : Z) : Z -> items :=
  upd m (hash_bucket qf hash) (remove_item (hash_rem qf hash) k (m (hash_bucket qf hash))).

(** No run reaches the last block, and bucket [q] is not in it. *)
Definition before_last_block (qf : QF) (q : Z) : Prop :=
  q / 64 < nblocks (metadata qf) - 1 /\ get_offset qf (nblocks (metadata qf) - 1) = 0.

(** What [remove] does besides the contents, [freed] slots having become free. *)
Record removed (qf : QF) (gone : bool) (k freed : Z) (qf' : QF) : Prop := {
  rm_runtime : runtimedata qf' = runtimedata qf;
  rm_nelts : nelts (metadata qf') = nelts (metadata (bump qf Nelts (- k)));
  rm_ndistinct : ndistinct_elts (metadata qf') = if gone then (ndistinct_elts (metadata qf) + i32 (-1))%u64 else ndistinct_elts (metadata qf);
  rm_noccupied : noccupied_slots (metadata qf') = noccupied_slots (metadata (bump qf Noccupied (- freed)));
  rm_rest : set_counters (metadata qf') 0 0 0 = set_counters (metadata qf) 0 0 0;
}.

(** The replacement counter of a removal. *)
Lemma encode_lowered qf h c k lc : 2 <= bps qf <= 56 -> fits (bps qf) h -> 1 <= c < 2 ^ 64 -> 0 <= k -> code (bps qf) h c lc ->
  exists new, encode_counter qf h (if c <? k then 0 else (c - k)%u64) = Some new /\ (length new <= length lc)%nat /\
    (if c <=? k then new = [] else 1 <= c - k < 2 ^ 64 /\ code (bps qf) h (c - k) new).
Proof.
  intros Hw Hh Hc Hk Hl. destruct (Z.leb_spec c k) as [L|L].
  - exists []. split; [|split; [cbn; lia|reflexivity]].
    assert (E : (if c <? k then 0 else (c - k)%u64) = 0) by (destruct (Z.ltb_spec c k); [reflexivity|]; replace k with c by lia; unfold sub64; rewrite Z.sub_diag; reflexivity).
    rewrite E. reflexivity.
  - assert (E : (if c <? k then 0 else (c - k)%u64) = c - k) by (destruct (Z.ltb_spec c k); [lia|]; unfold sub64; apply u64_small; unfold fits; lia).
    rewrite E. destruct (encode_counter_code qf h (c - k) Hw Hh ltac:(lia)) as (new & E1 & E2 & _). exists new. split; [exact E1|].
    split; [apply (code_shorter (bps qf) h c (c - k) lc new); auto; [apply Hh|lia]|]. split; [lia|exact E2].
Qed.

Lemma code_fits w r c l : 2 <= w <= 56 -> fits w r -> code w r c l -> Forall (fits w) l.
Proof.
  intros Hw Hr H. pose proof (width_facts w Hw) as Wf. unfold fits in *.
  assert (D : forall b ds, 0 <= b <= 2 ^ w - 2 \/ r = 0 /\ 0 <= b <= 2 ^ w - 1 -> Forall (is_digit b r) ds -> Forall (fun x => 0 <= x < 2 ^ w) ds).
  { intros b ds Hb. apply Forall_impl. intros d (x & Hx & ->). pose proof (digit_of_bound r x ltac:(lia)). destruct Hb as [|[-> Hb]]; [lia|]. unfold digit_of in *. cbn [Z.eqb negb andb] in *. lia. }
  assert (Z0 : 0 <= 0 < 2 ^ w) by lia.
  destruct H as [ | | -> | |c d ds _ _ HF _ _ _|c d ds _ _ HF _ _ _|c d ds -> HF _ _ _]; cbn [app].
  1-4: repeat constructor; assumption || lia.
  - apply D in HF; [|lia]. inversion_clear HF. repeat (constructor; [assumption|]). apply Forall_app. auto.
  - apply D in HF; [|lia]. inversion_clear HF. repeat (constructor; [assumption|]). apply Forall_app. auto.
  - apply D in HF; [|lia]. inversion_clear HF. repeat (constructor; [assumption|]). apply Forall_app. auto.
Qed.

(** The bucket of a hash that is in no run, or whose run does not have its remainder. *)
Lemma remove_absent qf m hash k flags : holds qf m -> 2 <= bps qf -> lockable qf (hash_bucket qf hash) false flags ->
  0 <= hash -> hash_bucket qf hash < 64 * nblocks (metadata qf) -> count_of qf m hash = 0 ->
  exists qf', lock_qf qf (hash_bucket qf hash) false flags = Some (true, qf') /\ remove qf hash k flags = Some (QF_DOESNT_EXIST, qf')
    /\ holds qf' m /\ metadata qf' = metadata qf.
Proof.
  intros (runs & R & Hm) Hw2 Hl Hh Hq Hcnt. pose proof (repr_width _ _ R) as Hw. pose proof (lo_size _ _ (rp_laid _ _ R)) as Hsz. unfold width_ok in Hw.
  destruct (hash_parts qf hash Hw Hh ltac:(lia)) as (Er & Eb & Fr & Hq0). unfold remove. rewrite Er, Eb. unfold count_of in Hcnt.
  set (q := hash_bucket qf hash) in *. set (h := hash_rem qf hash) in *.
  destruct (lock_unlock qf q false flags Hq0 Hl) as (qf0 & -> & M0 & B0 & L0 & U). cbn [negb].
  assert (Eb0 : bps qf0 = bps qf) by (unfold bps; now rewrite M0).
  assert (R0 : repr qf0 runs) by (apply (repr_blocks qf); auto; now rewrite M0).
  exists qf0. split; [reflexivity|]. split; [|split; [exists runs; split; [exact R0|now rewrite Eb0]|exact M0]].
  rewrite (repr_occupied qf0 runs R0) by lia. destruct (Z.eqb_spec (run_len runs q) 0) as [E0|N0]; [reflexivity|]. cbn [negb].
  rewrite (repr_run_start qf0 runs R0) by (rewrite M0; lia). pose proof (Hm q Hq0) as Hrun.
  assert (N : runs q <> []) by (rewrite run_len_nil; exact N0).
  assert (Nm : m q <> []) by (intros E; rewrite E in Hrun; inversion Hrun; congruence).
  destruct (run_in_bounds qf0 runs q [] R0 Hq0 N) as (_ & _ & _ & Hf). rewrite <- Eb0 in Hrun.
  destruct (find_counter_spec qf0 h ltac:(lia) (m q) (runs q) Hrun (run_start (run_len runs) q) (scan_fuel qf0) Nm (repr_run_at qf0 runs R0 q Hq0 N) Hf Hf)
    as (lo & r & c & hi & l1 & lc & l2 & E1 & _ & _ & _ & _ & Hlo & _ & _ & Hc & ->).
  destruct (Z.eqb_spec r h) as [->|]; [exfalso|reflexivity].
  rewrite E1, lookup_item_low in Hcnt by exact Hlo. cbn [lookup_item] in Hcnt. rewrite Z.eqb_refl in Hcnt. lia.
Qed.

Lemma repr_runend_end qf runs (R : repr qf runs) q l1 lc l2 : 0 <= q -> runs q = l1 ++ lc ++ l2 -> lc <> [] ->
  is_runend qf (run_start (run_len runs) q + Z.of_nat (length l1) + Z.of_nat (length lc) - 1) = match l2 with [] => true | _ => false end.
Proof.
  intros Hq E N. assert (Nq : runs q <> []) by (rewrite E; destruct l1, lc; cbn; congruence).
  pose proof (repr_run_at qf runs R q Hq Nq) as H. rewrite E in H. apply run_at_app in H; [|destruct lc; cbn; congruence].
  exact (run_at_end _ _ _ lc l2 H N).
Qed.

(** The run with the new counter in place. *)
Lemma run_code_lowered w lo h c hi l1 new l2 k :
  Forall (fun p => fst p < h) lo -> Forall (fun p => h < fst p) hi -> fits w h ->
  run_code w lo l1 -> run_code w hi l2 -> (if c <=? k then new = [] else 1 <= c - k < 2 ^ 64 /\ code w h (c - k) new) ->
  run_code w (remove_item h k (lo ++ (h, c) :: hi)) (l1 ++ new ++ l2).
Proof.
  intros Hlo Hhi Hh H1 H2 Hn. rewrite remove_item_low by exact Hlo. apply run_code_app; [exact H1| |].
  - destruct (c <=? k); [subst new; exact H2|]. destruct Hn as [Hc Hn]. constructor; auto.
  - eapply Forall_impl; [|exact Hlo]. intros p Hp. cbv beta in *. destruct (c <=? k); [|constructor; [exact Hp|]];
      (eapply Forall_impl; [|exact Hhi]; intros p' Hp'; cbv beta in *; lia).
Qed.

Lemma remove_present qf m hash k flags : holds qf m -> 2 <= bps qf -> metadata_lock (runtimedata qf) = 0 ->
  lockable qf (hash_bucket qf hash) false flags -> 0 <= hash -> before_last_block qf (hash_bucket qf hash) -> 0 <= k -> count_of qf m hash <> 0 ->
  exists freed qf', remove qf hash k flags = Some (i32 freed, qf') /\ holds qf' (remove_hash qf m hash k) /\ 0 <= freed
    /\ removed qf (count_of qf m hash <=? k) k (i32 freed) qf'.
Proof.
  intros (runs & R & Hm) Hw2 Hlock Hl Hh [Hlb Hlo0] Hk Hcnt. pose proof (repr_width _ _ R) as Hw. pose proof (lo_size _ _ (rp_laid _ _ R)) as Hsz. unfold width_ok in Hw.
  assert (Hq : hash_bucket qf hash < 64 * nblocks (metadata qf)) by (pose proof (Z.div_mod (hash_bucket qf hash) 64); pose proof (Z.mod_pos_bound (hash_bucket qf hash) 64); lia).
  destruct (hash_parts qf hash Hw Hh ltac:(lia)) as (Er & Eb & Fr & Hq0). unfold remove. rewrite Er, Eb. unfold count_of, remove_hash in *.
  set (q := hash_bucket qf hash) in *. set (h := hash_rem qf hash) in *. clearbody q h. clear Er Eb Hh.
  destruct (lock_unlock qf q false flags Hq0 Hl) as (qf0 & -> & M0 & B0 & L0 & U). cbn [negb].
  assert (Eb0 : bps qf0 = bps qf) by (unfold bps; now rewrite M0).
  assert (R0 : repr qf0 runs) by (apply (repr_blocks qf); auto; now rewrite M0).
  assert (Hw0 : 2 <= bps qf0 <= 56) by lia. pose proof (Hm q Hq0) as Hrun.
  assert (Nm : m q <> []) by (intros E; rewrite E in Hcnt; apply Hcnt; reflexivity).
  assert (N : runs q <> []) by (intros E; rewrite E in Hrun; apply Nm; exact (run_code_nil _ _ Hrun)).
  assert (N0 : run_len runs q <> 0) by (now rewrite <- run_len_nil).
  rewrite (repr_occupied qf0 runs R0) by lia. rewrite (proj2 (Z.eqb_neq _ _) N0). cbn [negb].
  rewrite (repr_run_start qf0 runs R0) by (rewrite M0; lia).
  destruct (run_in_bounds qf0 runs q [] R0 Hq0 N) as (Hp0 & Hpb & _ & Hf). pose proof Hrun as Hrun0. rewrite <- Eb0 in Hrun0.
  destruct (find_counter_spec qf0 h Hw0 (m q) (runs q) Hrun0 (run_start (run_len runs) q) (scan_fuel qf0) Nm (repr_run_at qf0 runs R0 q Hq0 N) Hf Hf)
    as (lo & r & c & hi & l1 & lc & l2 & E1 & E2 & H1 & Hlc & H2 & Hlo & Hlast & Fr' & Hc & ->).
  assert (Sorted_m : StronglySorted (fun a b => fst a < fst b) (m q)) by exact (run_code_sorted _ _ _ Hrun).
  assert (Hhi : Forall (fun p => r < fst p) hi).
  { rewrite E1 in Hrun. destruct (run_code_split _ lo _ _ Hrun) as (? & ? & _ & _ & Hx). now inversion Hx. }
  assert (Er : r = h).
  { destruct (Z.lt_trichotomy r h) as [L|[E|L]]; [|exact E|]; exfalso; apply Hcnt; rewrite E1, lookup_item_low by exact Hlo; cbn [lookup_item]; rewrite (proj2 (Z.eqb_neq h r)) by lia.
    - now rewrite (Hlast L).
    - apply lookup_item_high. eapply Forall_impl; [|exact Hhi]. intros p Hp. cbv beta in *. lia. }
  subst r. rewrite Z.eqb_refl. cbn [negb]. clear Hlast.
  assert (Ec : lookup_item h (m q) = c) by (rewrite E1, lookup_item_low by exact Hlo; cbn [lookup_item]; now rewrite Z.eqb_refl). rewrite Ec in *.
  destruct (encode_lowered qf0 h c k lc Hw0 Fr' Hc Hk Hlc) as (new & -> & Hshort & Hnew).
  assert (Nlc : lc <> []) by (destruct (code_head _ _ _ _ Hlc) as (t & ->); discriminate).
  rewrite (repr_runend_end qf0 runs R0 q l1 lc l2 Hq0 E2 Nlc). rewrite E2, !length_app in Hpb.
  assert (Lold : add64 (sub64 (run_start (run_len runs) q + Z.of_nat (length l1) + Z.of_nat (length lc) - 1) (run_start (run_len runs) q + Z.of_nat (length l1))) 1 = Z.of_nat (length lc)).
  { pose proof (code_length _ _ _ _ Hlc). unfold add64, sub64. rewrite (u64_small (_ - _)) by (unfold fits; lia). rewrite u64_small by (unfold fits; lia). lia. }
  rewrite Lold. set (op := if _ && _ then 1 else 0).
  assert (Hop : negb (op =? 0) && (Z.of_nat (length new) =? 0) = match l1 ++ new ++ l2 with [] => true | _ => false end).
  { unfold op. destruct l1 as [|x l1]; cbn [app length].
    - rewrite Z.add_0_r, Z.eqb_refl. destruct new as [|y new]; cbn [app length andb]; [destruct l2; reflexivity|]. rewrite (proj2 (Z.eqb_neq (Z.of_nat (S (length new))) 0)) by lia. now rewrite andb_false_r.
    - rewrite (proj2 (Z.eqb_neq (run_start (run_len runs) q) _)) by lia. reflexivity. }
  assert (Hnf : Forall (fits (bps qf0)) new).
  { destruct (c <=? k); [subst new; constructor|]. destruct Hnew as [_ Hnew]. now apply (code_fits _ h (c - k)). }
  assert (Hlb0 : q / 64 < nblocks (metadata qf0) - 1 /\ get_offset qf0 (nblocks (metadata qf0) - 1) = 0).
  { rewrite M0. split; [exact Hlb|]. unfold get_offset, get_block, block_size. rewrite B0, Eb0. exact Hlo0. }
  destruct (remove_replace_spec qf0 runs R0 q l1 lc new l2 Hq0 E2 Nlc Hshort Hnf Hlb0 op ltac:(congruence) Hop) as (qf1 & -> & R1 & T1 & M1).
  rewrite modify_metadata_bump by congruence. rewrite (U (bump qf1 Nelts (- k))) by (destruct (bump_facts qf1 Nelts (- k)) as (_ & _ & _ & ->); exact T1).
  exists (Z.of_nat (length lc) - Z.of_nat (length new)). eexists. split; [reflexivity|].
  assert (Eb1 : bps (bump qf1 Nelts (- k)) = bps qf) by (destruct (bump_facts qf1 Nelts (- k)) as (-> & _); unfold bps; rewrite M1; unfold uncounted; destruct new; cbn; now rewrite M0).
  split; [|split; [lia|]].
  - exists (runs' runs q l1 new l2). split; [apply (repr_blocks (bump qf1 Nelts (- k))); try reflexivity; now apply repr_bump|].
    change (bps (mk_QF _ ?x _)) with (bps (bump qf1 Nelts (- k))). rewrite Eb1. intros p Hp. unfold runs', upd. destruct (Z.eqb_spec p q) as [->|]; [|now apply Hm].
    rewrite E1. rewrite Eb0 in *. now apply run_code_lowered.
  - assert (Gone : match new with [] => true | _ => false end = (c <=? k)).
    { destruct (c <=? k); [now rewrite Hnew|]. destruct Hnew as [_ Hnew]. destruct (code_head _ _ _ _ Hnew) as (t & ->). reflexivity. }
    split; try reflexivity; rewrite <- ?Gone; cbn [metadata runtimedata bump set_metadata]; rewrite M1; unfold uncounted;
      destruct new; unfold bump; cbn; now rewrite M0.
Qed.

Lemma count_remove_hash qf m hash k x : holds qf m -> 0 <= hash -> 0 <= x -> 0 <= k ->
  count_of qf (remove_hash qf m hash k) x = if x =? hash then Z.max 0 (count_of qf m hash - k) else count_of qf m x.
Proof.
  intros (runs & R & Hm) Hh Hx Hk. unfold count_of, remove_hash, upd.
  assert (P : 0 < 2 ^ bps qf) by (pose proof (repr_width _ _ R) as W; unfold width_ok in W; apply Z.pow_pos_nonneg; lia).
  assert (B : 0 <= hash_bucket qf hash) by (apply Z.div_pos; lia).
  assert (X : x = hash <-> hash_bucket qf x = hash_bucket qf hash /\ hash_rem qf x = hash_rem qf hash).
  { unfold hash_bucket, hash_rem. split; [intros ->; auto|]. intros [E1 E2].
    rewrite (Z.div_mod x (2 ^ bps qf)), (Z.div_mod hash (2 ^ bps qf)), E1, E2 by lia. reflexivity. }
  destruct (Z.eqb_spec (hash_bucket qf x) (hash_bucket qf hash)) as [E|N].
  - rewrite (lookup_remove_item _ _ _ _ k _ (Hm _ B) Hk).
    rewrite E. destruct (Z.eqb_spec (hash_rem qf x) (hash_rem qf hash)), (Z.eqb_spec x hash); tauto || lia.
  - destruct (Z.eqb_spec x hash); [tauto|reflexivity].
Qed.

(** C6: [_remove] lowers one count.  On a filter that stores the contents [m], whose runs
    end before the last block and whose locks are free (or not asked for), removing [k]
    copies of a hash that is there returns; the new filter stores [m] with the count of
    this hash lowered by [k], down to zero, and every other count as before.  The result
    is the number of slots freed, the locks are given back, and the filter has one
    distinct element less if the count was at most [k]. *)
Theorem remove_refines qf m hash k flags :
  holds qf m -> 2 <= bps qf -> metadata_lock (runtimedata qf) = 0 -> lockable qf (hash_bucket qf hash) false flags ->
  0 <= hash -> before_last_block qf (hash_bucket qf hash) -> 0 <= k -> count_of qf m hash <> 0 ->
  exists freed qf', remove qf hash k flags = Some (i32 freed, qf')
    /\ holds qf' (remove_hash qf m hash k)
    /\ (forall x, 0 <= x -> count_of qf (remove_hash qf m hash k) x = if x =? hash then Z.max 0 (count_of qf m hash - k) else count_of qf m x)
    /\ 0 <= freed /\ removed qf (count_of qf m hash <=? k) k (i32 freed) qf'.
Proof.
  intros H Hw Hm Hl Hh Hb Hk Hc. destruct (remove_present qf m hash k flags) as (freed & qf' & E & H' & F & I); auto.
  exists freed, qf'. split; [exact E|]. split; [exact H'|]. split; [|auto]. intros x Hx. now apply count_remove_hash.
Qed.

Lemma remove_refines_witness :
  exists freed qf', remove demo3 0x305 1 QF_WAIT_FOR_LOCK = Some (i32 freed, qf')
    /\ holds qf' (remove_hash demo3 demo_items 0x305 1) /\ count_of demo3 (remove_hash demo3 demo_items 0x305 1) 0x305 = 1.
Proof.
  destruct (remove_refines demo3 demo_items 0x305 1 QF_WAIT_FOR_LOCK demo3_holds) as (freed & qf' & E & H & C & _).
  - vm_compute. discriminate.
  - reflexivity.
  - right. change (locks (runtimedata demo3)) with [0; 0]. split; [repeat constructor; auto|].
    change (lock_plan _ false) with [0%nat; 1%nat]. repeat constructor.
  - discriminate.
  - split; reflexivity.
  - discriminate.
  - vm_compute. discriminate.
  - exists freed, qf'. split; [exact E|]. split; [exact H|]. rewrite C by discriminate. reflexivity.
Defined.

(** C37: removing what is not there.  If the hash is not in the filter, [_remove] returns
    [QF_DOESNT_EXIST] and neither the contents nor the metadata change; but the filter it
    leaves is the one with the region locks taken. *)
Theorem remove_missing qf m hash k flags :
  holds qf m -> 2 <= bps qf -> lockable qf (hash_bucket qf hash) false flags ->
  0 <= hash -> hash_bucket qf hash < 64 * nblocks (metadata qf) -> count_of qf m hash = 0 ->
  exists qf', lock_qf qf (hash_bucket qf hash) false flags = Some (true, qf')
    /\ remove qf hash k flags = Some (QF_DOESNT_EXIST, qf') /\ holds qf' m /\ metadata qf' = metadata qf.
Proof. exact (remove_absent qf m hash k flags). Qed.

Lemma remove_missing_witness :
  exists qf', remove demo3 0x306 1 QF_WAIT_FOR_LOCK = Some (QF_DOESNT_EXIST, qf') /\ holds qf' demo_items /\ locks (runtimedata qf') = [1; 1].
Proof.
  destruct (remove_missing demo3 demo_items 0x306 1 QF_WAIT_FOR_LOCK demo3_holds) as (qf' & L & E & H & _).
  - vm_compute. discriminate.
  - right. change (locks (runtimedata demo3)) with [0; 0]. split; [repeat constructor; auto|].
    change (lock_plan _ false) with [0%nat; 1%nat]. repeat constructor.
  - discriminate.
  - reflexivity.
  - reflexivity.
  - exists qf'. split; [exact E|]. split; [exact H|]. vm_compute in L. injection L as <-. reflexivity.
Defined.
