(* ===== verification/InsertRun.v ===== *)
(** * Replacing a counter by a longer one

    Composed shifts that close several gaps, the layout when a run gets longer, and
    [insert_replace_slots_and_shift_remainders_and_runends_and_offsets] as an operation on
    the runs: the slots behind a counter move up into the next empty slots, with their
    run-end bits, the block offsets on the way grow, and the new counter is written. *)

From S2P Require Import Prelude BitSeq RankSelect Blocks BlockBits Shifting Layout Locks CounterCode Insert Repr InsertSlot InsertPlace InsertOne ShiftBack.
From Stdlib Require Import Morphisms Setoid Sorted.
Import ListNotations.
#[local] Open Scope Z_scope.

(** * Closing several gaps *)

(** ** The chain of moves *)

(** [f'] is [f] with the elements of [first .. last] moved up by [d]; what is left behind
    is arbitrary. *)
Definition moved_up {A : Type} (f' f : Z -> A) (first last d : Z) : Prop :=
  (forall p, first <= p <= last -> f' (p + d) = f p) /\ (forall p, 0 <= p -> p < first \/ last + d < p -> f' p = f p).

(** The groups between the empty slots [es], the highest first, then the one from [i] on;
    [j] empty slots lie above them all. *)
Fixpoint gap_chain {A : Type} (f' f : Z -> A) (j : Z) (es : list Z) (i : Z) : Prop :=
  match es with
  | [] => False
  | e :: es =>
    match es with
    | [] => moved_up f' f i (e - 1) (j + 1)
    | e' :: _ => exists g, moved_up g f (e' + 1) (e - 1) (j + 1) /\ gap_chain f' g (j + 1) es i
    end
  end.

(** How many of the empty slots lie above [y]. *)
Definition above (es : list Z) (y : Z) : Z := Z.of_nat (length (filter (fun e => y <? e) es)).

Lemma above_cons e es y : above (e :: es) y = (if y <? e then 1 else 0) + above es y.
Proof. unfold above. cbn [filter]. destruct (y <? e); cbn [length]; lia. Qed.

Lemma above_none es y : Forall (fun e => e <= y) es -> above es y = 0.
Proof. induction 1 as [|e es H _ IH]; [reflexivity|]. rewrite above_cons, IH. split_cmps; lia. Qed.

Lemma above_all es y : Forall (fun e => y < e) es -> above es y = Z.of_nat (length es).
Proof. induction 1 as [|e es H _ IH]; [reflexivity|]. rewrite above_cons, IH. cbn [length]. split_cmps; lia. Qed.

Lemma above_bounds es y : 0 <= above es y <= Z.of_nat (length es).
Proof. unfold above. pose proof (filter_length_le (fun e => y <? e) es). lia. Qed.

Definition descending : list Z -> Prop := StronglySorted (fun a b => b < a).

Lemma descending_cons e e' es : descending (e :: e' :: es) -> e' < e /\ descending (e' :: es) /\ Forall (fun x => x < e) (e' :: es).
Proof. intros H. apply StronglySorted_inv in H as [H1 H2]. split; [now inversion H2|auto]. Qed.

(** Every element moves up by the number of empty slots above it. *)
Lemma gap_chain_spec {A : Type} (es : list Z) : forall (f' f : Z -> A) j i, gap_chain f' f j es i -> descending es -> Forall (fun e => i <= e) es -> 0 <= i -> 0 <= j ->
  (forall y, i <= y < hd 0 es -> ~ In y es -> f' (y + (j + above es y)) = f y)
  /\ (forall x, 0 <= x -> x < i \/ hd 0 es + j < x -> f' x = f x).
Proof.
  induction es as [|e es IH]; intros f' f j i C D F Hi Hj; [contradiction|]. cbn [hd]. apply Forall_cons_iff in F as [Fe F].
  destruct es as [|e' es]; cbn [gap_chain] in C.
  - destruct C as [C1 C2]. split.
    + intros y Hy _. rewrite above_cons. unfold above. cbn [filter length]. rewrite (proj2 (Z.ltb_lt y e)) by lia. replace (j + (1 + Z.of_nat 0)) with (j + 1) by lia. apply C1. lia.
    + intros x Hx Ho. apply C2; lia.
  - destruct C as (g & [G1 G2] & C). apply descending_cons in D as (L & D & _). pose proof (Forall_inv F) as Fe'. cbn beta in Fe'.
    destruct (IH f' g (j + 1) i C D F Hi ltac:(lia)) as [I1 I2]. cbn [hd] in *. split.
    + intros y Hy N. rewrite above_cons, (proj2 (Z.ltb_lt y e)) by lia. destruct (Z.lt_trichotomy y e') as [Ly|[->|Ly]].
      * replace (j + (1 + above (e' :: es) y)) with (j + 1 + above (e' :: es) y) by lia. rewrite I1 by (try lia; intros N'; apply N; now right). apply G2; lia.
      * exfalso. apply N. right. now left.
      * rewrite above_none. { replace (j + (1 + 0)) with (j + 1) by lia. rewrite I2 by lia. apply G1. lia. }
        constructor; [lia|]. apply StronglySorted_inv in D as [_ D]. eapply Forall_impl; [|exact D]. intros x Hx. cbv beta in *. lia.
    + intros x Hx Ho. rewrite I2 by lia. apply G2; lia.
Qed.

(** ** The slots *)

(** The two filters differ in their slots only. *)
Record slots_only (q' q : QF) : Prop := {
  so_header : same_header q' q;
  so_occ i : 0 <= i -> v_occ (view_of q') i = v_occ (view_of q) i;
  so_run i : 0 <= i -> v_run (view_of q') i = v_run (view_of q) i;
  so_off b : 0 <= b -> get_offset q' b = get_offset q b;
}.

Record runs_only (q' q : QF) : Prop := {
  ro_header : same_header q' q;
  ro_occ i : 0 <= i -> v_occ (view_of q') i = v_occ (view_of q) i;
  ro_slot i : 0 <= i -> get_slot q' i = get_slot q i;
  ro_off b : 0 <= b -> get_offset q' b = get_offset q b;
}.

#[export] Instance slots_only_preorder : PreOrder slots_only.
Proof.
  split; [intros q; split; reflexivity|]. intros a b c [H1 H2 H3 H4] [G1 G2 G3 G4].
  split; [now rewrite H1|intros; rewrite H2|intros; rewrite H3|intros; rewrite H4]; auto.
Qed.

#[export] Instance runs_only_preorder : PreOrder runs_only.
Proof.
  split; [intros q; split; reflexivity|]. intros a b c [H1 H2 H3 H4] [G1 G2 G3 G4].
  split; [now rewrite H1|intros; rewrite H2|intros; rewrite H3|intros; rewrite H4]; auto.
Qed.

Lemma same_but_slots_only q' q : same_but_slots q' q -> slots_only q' q.
Proof. intros [M R [V1 V2 _ V4]]. split; [split; assumption|exact V1|exact V2|exact V4]. Qed.

Lemma same_but_runends_only q' q : width_ok q -> same_but_runends q' q -> runs_only q' q.
Proof.
  intros Hq [M R [V1 _ V3 V4]]. split; [split; assumption|exact V1| |exact V4]. intros i Hi. apply get_slot_same_bits; auto. exact (f_equal bits_per_slot M).
Qed.

Lemma shift_slots_moved q first last d : width_ok q -> 0 <= first <= last + 1 -> 0 < d -> (d = 1 -> get_slot q (last + 1) = 0) ->
  slots_only (shift_slots q first last d) q /\ moved_up (get_slot (shift_slots q first last d)) (get_slot q) first last d.
Proof.
  intros Hq Hf Hd H0. unfold shift_slots, moved_up. destruct (Z.eqb_spec d 1) as [->|Hne].
  - destruct (shift_remainders_bits q first (last + 1) 0) as (_ & S & _); auto; try lia. split; [now apply same_but_slots_only|].
    split; intros p Hp; [|intros Ho]; rewrite get_slot_shift_remainders by (auto; lia); split_cmps; try lia; f_equal; lia.
  - assert (G : forall k, 0 <= k -> get_slot (move_slots q (Z.to_nat (last - first + 1)) last d) k
        = if (last - Z.of_nat (Z.to_nat (last - first + 1)) + 1 + d <=? k) && (k <=? last + d) then get_slot q (k - d) else get_slot q k).
    { intros k Hk. apply get_slot_move_slots; auto; lia. }
    destruct (get_slot_move_slots (Z.to_nat (last - first + 1)) q last d 0 Hq) as (_ & S & _); try lia. split; [now apply same_but_slots_only|].
    split; intros p Hp; [|intros Ho]; rewrite G by lia; split_cmps; try lia; f_equal; lia.
Qed.

(** All the groups of slots. *)
Definition shift_all (shift : QF -> Z -> Z -> Z -> QF) (qf : QF) (j : Z) (es : list Z) (i : Z) : QF :=
  shift (shift_gaps shift qf j es) i (last es 0 - 1)%u64 (j + Z.of_nat (length es)).

Lemma shift_all_cons shift qf j e e' es i :
  shift_all shift qf j (e :: e' :: es) i = shift_all shift (shift qf (e' + 1)%u64 (e - 1)%u64 (j + 1)) (j + 1) (e' :: es) i.
Proof. unfold shift_all. cbn [shift_gaps]. change (last (e :: e' :: es) 0) with (last (e' :: es) 0). f_equal. cbn [length]. lia. Qed.

Lemma shift_all_one shift qf j e i : shift_all shift qf j [e] i = shift qf i (e - 1)%u64 (j + 1).
Proof. reflexivity. Qed.

Section Groups.
Context (i : Z).
Hypothesis Hi : 0 <= i.

(** Positions below 2^62, and not below [i]. *)
Definition in_range (es : list Z) : Prop := Forall (fun e => i <= e < 2 ^ 62 /\ 0 < e) es.

Lemma shift_all_slots es : forall qf j, width_ok qf -> es <> [] -> descending es -> in_range es -> 0 <= j ->
  (j = 0 -> get_slot qf (hd 0 es) = 0) ->
  slots_only (shift_all shift_slots qf j es i) qf /\ gap_chain (get_slot (shift_all shift_slots qf j es i)) (get_slot qf) j es i.
Proof.
  induction es as [|e es IH]; intros qf j Hw N D F Hj H0; [contradiction|]. apply Forall_cons_iff in F as [Fe F]. cbn [hd] in H0. destruct es as [|e' es].
  - rewrite shift_all_one, sub64_small by lia. cbn [gap_chain]. apply shift_slots_moved; auto; try lia. intros E. replace (e - 1 + 1) with e by lia. apply H0. lia.
  - pose proof (descending_cons _ _ _ D) as (L & D' & _). pose proof (Forall_inv F) as Fe'. cbn beta in Fe'.
    rewrite shift_all_cons, add64_small, sub64_small by lia.
    destruct (shift_slots_moved qf (e' + 1) (e - 1) (j + 1) Hw) as [S M]; try lia; [intros E; replace (e - 1 + 1) with e by lia; apply H0; lia|].
    set (qf1 := shift_slots qf (e' + 1) (e - 1) (j + 1)) in *.
    destruct (IH qf1 (j + 1)) as [S' C]; auto; try discriminate; try lia; [apply (same_header_width _ _ (so_header _ _ S) Hw)|].
    split; [now rewrite S'|]. cbn [gap_chain]. exists (get_slot qf1). auto.
Qed.

Lemma shift_runends_moved qf first last d : width_ok qf -> 0 <= first <= last + 1 -> 0 < d < 64 ->
  (forall x, last < x <= last + d -> x < 64 * ((last + d + 1) / 64) -> v_run (view_of qf) x = false) ->
  runs_only (shift_runends qf first last d) qf /\ moved_up (v_run (view_of (shift_runends qf first last d))) (v_run (view_of qf)) first last d
  /\ (forall p, first <= p < first + d -> p / 64 = first / 64 -> v_run (view_of (shift_runends qf first last d)) p = false).
Proof.
  intros Hw Hf Hd H0. assert (G : forall k, 0 <= k -> v_run (view_of (shift_runends qf first last d)) k = shifted (v_run (view_of qf)) first (last + d + 1) d k).
  { intros k Hk. apply shift_runends_bits; auto; lia. }
  destruct (shift_runends_bits qf first last d 0 Hw) as (_ & S & _); auto; try lia. split; [now apply same_but_runends_only|].
  unfold moved_up, shifted in *. split; [split|].
  - intros p Hp. rewrite G by lia. replace (p + d - d) with p by lia. split_cmps; try lia; cbn [negb andb]; reflexivity.
  - intros p Hp Ho. rewrite G by lia. split_cmps; try lia; reflexivity.
  - intros p Hp E. rewrite G by lia. rewrite E, Z.eqb_refl. split_cmps; try lia; reflexivity.
Qed.

(** Below the word boundary under the top of the group above, the bits are clear. *)
Definition clear_above (qf : QF) (j e : Z) : Prop := forall x, e <= x <= e + j -> x < 64 * ((e + j + 1) / 64) -> v_run (view_of qf) x = false.

Lemma shift_all_runs es : forall qf j, width_ok qf -> es <> [] -> descending es -> in_range es -> 0 <= j -> j + Z.of_nat (length es) < 64 ->
  clear_above qf j (hd 0 es) -> Forall (fun e => v_run (view_of qf) e = false) es ->
  runs_only (shift_all shift_runends qf j es i) qf /\ gap_chain (v_run (view_of (shift_all shift_runends qf j es i))) (v_run (view_of qf)) j es i.
Proof.
  induction es as [|e es IH]; intros qf j Hw N D F Hj Hl H0 HE; [contradiction|]. apply Forall_cons_iff in F as [Fe F]. cbn [hd length] in *.
  assert (Clr : forall x, e - 1 < x <= e - 1 + (j + 1) -> x < 64 * ((e - 1 + (j + 1) + 1) / 64) -> v_run (view_of qf) x = false).
  { intros x Hx Lx. apply H0; [lia|]. replace (e + j + 1) with (e - 1 + (j + 1) + 1) by lia. exact Lx. }
  destruct es as [|e' es].
  - rewrite shift_all_one, sub64_small by lia. cbn [gap_chain]. destruct (shift_runends_moved qf i (e - 1) (j + 1) Hw) as (S & M & _); auto; lia.
  - pose proof (descending_cons _ _ _ D) as (L & D' & _). pose proof (Forall_inv F) as Fe'. cbn beta in Fe'. cbn [length] in Hl.
    rewrite shift_all_cons, add64_small, sub64_small by lia.
    destruct (shift_runends_moved qf (e' + 1) (e - 1) (j + 1) Hw) as (S & [M1 M2] & Z0); auto; try lia.
    set (qf1 := shift_runends qf (e' + 1) (e - 1) (j + 1)) in *. apply Forall_cons_iff in HE as [_ HE].
    assert (Low : forall x, 0 <= x <= e' -> v_run (view_of qf1) x = v_run (view_of qf) x) by (intros; apply M2; lia).
    assert (D'' := D'). apply StronglySorted_inv in D'' as [_ D''].
    destruct (IH qf1 (j + 1)) as [S' C]; auto; try discriminate; try lia.
    + apply (same_header_width _ _ (ro_header _ _ S) Hw).
    + cbn [length]. lia.
    + cbn [hd]. intros x Hx Lx. destruct (Z.eq_dec x e') as [->|Nx]; [rewrite Low by lia; exact (Forall_inv HE)|]. apply Z0; [lia|].
      pose proof (Z.div_mod (e' + (j + 1) + 1) 64). pose proof (Z.mod_pos_bound (e' + (j + 1) + 1) 64).
      pose proof (Z.div_mod x 64). pose proof (Z.mod_pos_bound x 64). pose proof (Z.div_mod (e' + 1) 64). pose proof (Z.mod_pos_bound (e' + 1) 64). lia.
    + apply Forall_forall. intros y Hy. rewrite Forall_forall in HE, F. specialize (F y Hy). cbv beta in F. rewrite Low; [now apply HE|].
      destruct Hy as [<-|Hy]; [lia|]. rewrite Forall_forall in D''. specialize (D'' y Hy). lia.
    + split; [now rewrite S'|]. cbn [gap_chain]. exists (v_run (view_of qf1)). split; [split; assumption|exact C].
Qed.
End Groups.

(** * Adding several slots to a run *)

(** ** The layout *)

Section Widen.
(** The home slot of bucket [q] is used. *)
Context (len : Z -> Z) (q k : Z).
Hypothesis len_nonneg : forall p, 0 <= len p.
Hypothesis q_nonneg : 0 <= q.
Hypothesis k_nonneg : 0 <= k.
Hypothesis q_used : q < run_stop len q.

Definition widened (p : Z) : Z := if p =? q then len q + k else len p.

#[local] Abbreviation stop := (run_stop len).
#[local] Abbreviation stop' := (run_stop widened).
#[local] Abbreviation start := (run_start len).
#[local] Abbreviation start' := (run_start widened).

Definition is_free (x : Z) : bool := stop x <=? x.

(** The empty slots from [q] on and below [x], and how far an element at [x] moves. *)
Definition free_below (x : Z) : Z := rank is_free q x.
Definition lift (x : Z) : Z := Z.max 0 (k - free_below x).

Lemma widened_nonneg p : 0 <= widened p.
Proof. unfold widened. pose proof (len_nonneg q). pose proof (len_nonneg p). destruct (p =? q); lia. Qed.

Lemma widened_other p : p <> q -> widened p = len p.
Proof. intros H. unfold widened. destruct (Z.eqb_spec p q); [lia|reflexivity]. Qed.

Lemma widened_same : widened q = len q + k.
Proof. unfold widened. now rewrite Z.eqb_refl. Qed.

Lemma stop_widened_below p : p < q -> stop' p = stop p.
Proof. intros H. symmetry. apply run_stop_ext. intros x Hx. symmetry. apply widened_other. lia. Qed.

Lemma start_widened_below p : p <= q -> start' p = start p.
Proof. intros H. unfold run_start. now rewrite stop_widened_below by lia. Qed.

Lemma start_q_stop_q : start q + len q = stop q.
Proof.
  rewrite (run_stop_step len q) by lia. unfold run_start. destruct (Z.eqb_spec (len q) 0) as [E|]; [|reflexivity].
  rewrite run_stop_empty in q_used by exact E. lia.
Qed.

Lemma free_below_nonneg x : 0 <= free_below x.
Proof. unfold free_below. pose proof (rank_bounds is_free q x). lia. Qed.

Lemma free_below_mono x y : q <= x <= y -> free_below x <= free_below y <= free_below x + (y - x).
Proof. intros H. unfold free_below. rewrite (rank_split is_free q x y) by lia. pose proof (rank_bounds is_free x y). lia. Qed.

(** Slots up to the end of the runs that begin before them are used, those after it free. *)
Lemma free_below_used x y : q <= x <= y -> y <= stop x -> free_below y = free_below x.
Proof.
  intros H L. unfold free_below. rewrite (rank_split is_free q x y) by lia. rewrite (rank_false is_free x y); [lia|].
  intros z Hz. unfold is_free. apply Z.leb_gt. pose proof (run_stop_mono len len_nonneg x z). lia.
Qed.

Lemma rank_true f a b : a <= b -> (forall x, a <= x < b -> f x = true) -> rank f a b = b - a.
Proof.
  intros L H. replace b with (a + Z.of_nat (Z.to_nat (b - a))) in * by lia. revert H. generalize (Z.to_nat (b - a)) as n. clear L. induction n as [|n IH]; intros H.
  - rewrite rank_nil by lia. lia.
  - replace (a + Z.of_nat (S n)) with (a + Z.of_nat n + 1) in * by lia. rewrite rank_succ, IH, H by (intros; try apply H; lia). cbn [Z.b2z]. lia.
Qed.

Lemma free_below_free p y : q <= p -> q <= stop p -> stop p <= y -> y <= p + 1 -> free_below y = free_below (stop p) + (y - stop p).
Proof.
  intros Hp Hs H L. unfold free_below. rewrite (rank_split is_free q (stop p) y) by lia. rewrite (rank_true is_free (stop p) y); [lia|lia|].
  intros z Hz. unfold is_free. apply Z.leb_le. pose proof (run_stop_mono len len_nonneg z p). lia.
Qed.

Lemma free_below_q : free_below (stop q) = 0.
Proof. rewrite (free_below_used q (stop q)) by lia. unfold free_below. apply rank_nil. lia. Qed.

Lemma stop_widened p : q <= p -> stop' p = stop p + lift (stop p).
Proof.
  intros H. replace p with (q + Z.of_nat (Z.to_nat (p - q))) by lia. generalize (Z.to_nat (p - q)) as n. clear p H. unfold lift. induction n as [|n IH].
  - rewrite Z.add_0_r, free_below_q. pose proof start_q_stop_q as S. rewrite (run_stop_step widened q), widened_same, start_widened_below by lia.
    pose proof (len_nonneg q). destruct (Z.eqb_spec (len q + k) 0) as [E|]; [|lia].
    rewrite stop_widened_below, (run_stop_empty len q) by lia. lia.
  - replace (q + Z.of_nat (S n)) with (q + Z.of_nat n + 1) by lia. set (p := q + Z.of_nat n) in *.
    rewrite (run_stop_step widened (p + 1)), widened_other by lia. unfold run_start. replace (p + 1 - 1) with p by lia. rewrite IH.
    pose proof (run_stop_step len (p + 1) ltac:(lia)) as St. unfold run_start in St. replace (p + 1 - 1) with p in St by lia.
    pose proof (len_nonneg (p + 1)) as Ln. destruct (Z.eqb_spec (len (p + 1)) 0) as [E|E]; [now rewrite St|].
    pose proof (run_stop_mono len len_nonneg q p ltac:(lia)) as Mq.
    destruct (Z.le_gt_cases (p + 1) (stop p)) as [L|L].
    + rewrite (free_below_used (stop p) (stop (p + 1))); [lia|lia|]. pose proof (run_stop_mono len len_nonneg (p + 1) (stop p)). lia.
    + rewrite (free_below_used (p + 1) (stop (p + 1))) by lia. rewrite (free_below_free p (p + 1)) by lia. lia.
Qed.

Lemma start_widened p : q < p -> len p <> 0 -> start' p = start p + lift (start p).
Proof.
  intros H N. pose proof (stop_widened p ltac:(lia)) as S. rewrite (run_stop_full widened p) in S by (rewrite ?widened_other; auto; lia). rewrite widened_other in S by lia.
  pose proof (run_stop_full len p ltac:(lia) N) as F. unfold lift in *. pose proof (len_nonneg p).
  assert (Es : free_below (stop p) = free_below (start p)); [|lia].
  apply free_below_used; [unfold run_start in *; lia|]. pose proof (run_stop_mono len len_nonneg p (start p)). unfold run_start in *. lia.
Qed.

(** Within a run all elements move equally far. *)
Lemma lift_run p j : q <= p -> 0 <= j < len p -> lift (start p + j) = lift (start p).
Proof.
  intros Hp Hj. unfold lift. do 2 f_equal. pose proof (run_stop_full len p ltac:(lia) ltac:(lia)) as F.
  apply free_below_used; [unfold run_start in *; lia|]. pose proof (run_stop_mono len len_nonneg p (start p)). unfold run_start in *. lia.
Qed.

(** The slots still empty. *)
Lemma free_widened x : 0 <= x -> stop' x <= x -> stop x <= x /\ (q <= x -> k <= free_below x).
Proof.
  intros Hx F. destruct (Z.lt_ge_cases x q) as [L|L]; [rewrite stop_widened_below in F by lia; lia|]. rewrite stop_widened in F by lia. unfold lift in F.
  pose proof (run_stop_mono len len_nonneg q x L). split; [lia|]. intros _. rewrite (free_below_free x x) by lia. lia.
Qed.

Lemma offset_widened b : 0 <= b -> exact_offset widened b = exact_offset len b + (if q / 64 <? b then lift (64 * b) else 0).
Proof.
  intros Hb. unfold exact_offset. pose proof (Z.div_mod q 64). pose proof (Z.mod_pos_bound q 64).
  destruct (Z.ltb_spec (q / 64) b) as [L|L]; [|rewrite stop_widened_below by lia; lia].
  rewrite stop_widened by lia. unfold lift. set (S := stop (64 * b - 1)). pose proof (run_stop_mono len len_nonneg q (64 * b - 1) ltac:(lia)) as Mq. fold S in Mq.
  destruct (Z.le_gt_cases (64 * b) S) as [Ls|Ls].
  - rewrite (free_below_used (64 * b) S); [lia|lia|]. pose proof (run_stop_mono len len_nonneg (64 * b - 1) (64 * b)). lia.
  - rewrite (free_below_free (64 * b - 1) (64 * b)) by lia. fold S. lia.
Qed.

Lemma bound_widened nb : k <= free_below (64 * nb) -> (forall p, stop p <= 64 * nb) -> forall p, stop' p <= 64 * nb.
Proof.
  intros Hk Hb p. destruct (Z.lt_ge_cases p q); [now rewrite stop_widened_below|]. rewrite stop_widened by lia. unfold lift.
  pose proof (run_stop_mono len len_nonneg q p ltac:(lia)). pose proof (free_below_mono (stop p) (64 * nb) ltac:(specialize (Hb p); lia)). specialize (Hb p). lia.
Qed.
End Widen.

(** ** The next empty slots *)

Section NextEmpty.
Context (qf : QF) (len : Z -> Z) (L : laid_out qf len).
Let nb := nblocks (metadata qf).
#[local] Abbreviation free := (is_free len).
Let ln := wf_len _ _ _ (lo_wf _ _ L).

Lemma find_next_n_empty_slots_spec n : forall from acc, 0 <= from -> Z.of_nat n <= rank free from (64 * nb) ->
  exists es, find_next_n_empty_slots qf from n acc = Some (es ++ acc) /\ length es = n /\ descending es
    /\ Forall (fun e => from <= e < 64 * nb /\ free e = true) es
    /\ (forall y, from <= y -> above es y = Z.max 0 (Z.of_nat n - rank free from (y + 1))).
Proof.
  pose proof (lo_size _ _ L) as Hs. fold nb in Hs. induction n as [|n IH]; intros from acc Hf Hn; cbn [find_next_n_empty_slots].
  - exists []. repeat split; try constructor. intros y Hy. change (above [] y) with 0. pose proof (rank_bounds free from (y + 1)). lia.
  - destruct (rank_pos free from (64 * nb)) as (e0 & He0 & Fe0); [lia|].
    destruct (least_from free from e0 ltac:(lia) Fe0) as (e & He & Fe & Le).
    assert (Ef : find_first_empty_slot qf from = Some e).
    { apply (find_first_empty_slot_spec qf len L from e); [lia|fold nb; lia|apply Z.leb_le; exact Fe|]. intros y Hy. apply Z.leb_gt. exact (Le y Hy). }
    rewrite Ef.
    assert (R0 : rank free from e = 0) by (apply rank_false; intros y Hy; apply Le; lia).
    assert (R1 : forall y, e <= y -> rank free from y = (if y =? e then 0 else 1) + rank free (e + 1) y).
    { intros y Hy. destruct (Z.eqb_spec y e) as [->|]; [rewrite R0, rank_nil by lia; lia|]. rewrite (rank_split free from e y), R0, (rank_split free e (e + 1) y), rank_one, Fe by lia. reflexivity. }
    rewrite u64_small by (unfold fits; lia). rewrite R1 in Hn by lia. destruct (Z.eqb_spec (64 * nb) e); [lia|].
    destruct (IH (e + 1) (e :: acc) ltac:(lia) ltac:(lia)) as (es & E & Hl & D & F & A).
    exists (es ++ [e]). rewrite <- app_assoc. split; [exact E|]. split; [rewrite length_app; cbn; lia|].
    assert (Ha : forall y, above (es ++ [e]) y = above es y + (if y <? e then 1 else 0)).
    { intros y. unfold above. rewrite filter_app, length_app. cbn [filter]. destruct (y <? e); cbn [length]; lia. }
    split; [|split].
    + clear - D F. induction D as [|a es D IH Fa]; cbn [app]; [repeat constructor|]. apply Forall_cons_iff in F as [Fe F]. constructor; [now apply IH|].
      apply Forall_app. split; [exact Fa|]. constructor; [lia|constructor].
    + apply Forall_app. split; [|constructor; [split; [lia|exact Fe]|constructor]]. eapply Forall_impl; [|exact F]. intros x Hx. cbv beta in *. destruct Hx. split; [lia|assumption].
    + intros y Hy. rewrite Ha. destruct (Z.ltb_spec y e) as [Ly|Ly].
      * rewrite (rank_false free from (y + 1)) by (intros z Hz; apply Le; lia).
        assert (Ea : above es y = Z.of_nat n).
        { rewrite above_all; [lia|]. eapply Forall_impl; [|exact F]. intros x Hx. cbv beta in *. lia. }
        lia.
      * rewrite R1 by lia. destruct (Z.eqb_spec (y + 1) e); [lia|]. destruct (Z.eq_dec y e) as [->|].
        -- rewrite rank_nil by lia. rewrite above_all; [lia|]. eapply Forall_impl; [|exact F]. intros x Hx. cbv beta in *. lia.
        -- rewrite A by lia. lia.
Qed.
End NextEmpty.

(** * Replacing a counter by a longer one *)

(** ** The run-end bits that are cleared *)

Lemma clear_runends_only n : forall qf i, width_ok qf -> 0 <= i -> i + Z.of_nat n < 2 ^ 62 ->
  runs_only (clear_runends qf n i) qf /\
  forall x, 0 <= x -> v_run (view_of (clear_runends qf n i)) x = if (i <=? x) && (x <? i + Z.of_nat n) then false else v_run (view_of qf) x.
Proof.
  induction n as [|n IH]; intros qf i Hw Hi Hb; cbn [clear_runends].
  - split; [reflexivity|]. intros x Hx. split_cmps; reflexivity || lia.
  - destruct (contents_clear_run qf Hw i Hi) as [C1 C2 C3 C4]. fields. rewrite succ64 by lia.
    destruct (IH (clear_bit qf RUN i) (i + 1)) as [H1 H2]; [exact Hw|lia..|]. split.
    + rewrite H1. split; [split; reflexivity|exact C1|exact C4|exact C3].
    + intros x Hx. rewrite H2, C2 by exact Hx. unfold upd. split_cmps; reflexivity || lia.
Qed.

Lemma runs_only_bit qf qf' i b : width_ok qf -> ceq (contents_of qf') (put_run (contents_of qf) i b) -> same_header qf' qf ->
  runs_only qf' qf /\ forall x, 0 <= x -> v_run (view_of qf') x = if x =? i then b else v_run (view_of qf) x.
Proof. intros Hw [C1 C2 C3 C4] H. fields. split; [split; auto|]. intros x Hx. rewrite C2 by exact Hx. unfold upd. now destruct (x =? i). Qed.

(** ** The block offsets *)

Definition ascending : list Z -> Prop := StronglySorted Z.lt.

Lemma ascending_rev es : descending es -> ascending (rev es).
Proof.
  induction 1 as [|e es D IH F]; cbn [rev]; [constructor|]. clear D.
  assert (Fr : Forall (fun x => x < e) (rev es)) by (apply Forall_rev; exact F). clear F.
  induction IH as [|a l D IH2 Fa]; cbn [app]; [repeat constructor|]. apply Forall_cons_iff in Fr as [Ea Fr]. constructor; [now apply IH2|].
  apply Forall_app. split; [exact Fa|]. constructor; [exact Ea|constructor].
Qed.

Lemma above_rev es y : above (rev es) y = above es y.
Proof. unfold above. now rewrite filter_rev, length_rev. Qed.

Lemma count_preceding_spec pending : forall npre i, ascending pending -> 0 <= npre -> npre + Z.of_nat (length pending) < 2 ^ 62 ->
  exists pending' npre', count_preceding pending npre i = (pending', npre') /\ ascending pending' /\ 0 <= npre'
    /\ npre' + Z.of_nat (length pending') = npre + Z.of_nat (length pending)
    /\ Z.of_nat (length pending') = above pending' (64 * i - 1) /\ (forall b, i <= b -> above pending' (64 * b - 1) = above pending (64 * b - 1)).
Proof.
  induction pending as [|e pending IH]; intros npre i D Hn Hl; cbn [count_preceding length] in *.
  - exists [], npre. repeat split; auto. 
  - unfold QF_SLOTS_PER_BLOCK. pose proof (Z.div_mod e 64). pose proof (Z.mod_pos_bound e 64). pose proof D as D0. apply StronglySorted_inv in D0 as [D' F].
    destruct (Z.ltb_spec (e / 64) i) as [L|L].
    + rewrite succ64 by lia. destruct (IH (npre + 1) i D' ltac:(lia) ltac:(lia)) as (p' & n' & E & H1 & H2 & H3 & H4 & H5). exists p', n'. rewrite E.
      repeat (split; [auto; try lia|]). intros b Hb. rewrite H5, above_cons by exact Hb. split_cmps; lia.
    + exists (e :: pending), npre. do 4 (split; [auto|]). split; [|auto]. rewrite above_all; [reflexivity|].
      constructor; [lia|]. eapply Forall_impl; [|exact F]. intros x Hx. cbv beta in *. lia.
Qed.

Record offs_only (q' q : QF) : Prop := {
  oo_header : same_header q' q;
  oo_occ i : 0 <= i -> v_occ (view_of q') i = v_occ (view_of q) i;
  oo_run i : 0 <= i -> v_run (view_of q') i = v_run (view_of q) i;
  oo_slot i : 0 <= i -> get_slot q' i = get_slot q i;
}.

#[export] Instance offs_only_preorder : PreOrder offs_only.
Proof.
  split; [intros q; split; reflexivity|]. intros a b c [H1 H2 H3 H4] [G1 G2 G3 G4].
  split; [now rewrite H1|intros; rewrite H2|intros; rewrite H3|intros; rewrite H4]; auto.
Qed.

Lemma raise_offsets_spec n : forall qf i k pending npre, width_ok qf -> 0 <= i -> ascending pending -> 0 <= npre -> npre + Z.of_nat (length pending) = k -> k < 2 ^ 16 ->
  (forall b, i <= b < i + Z.of_nat n -> get_offset qf b + k < 65535) ->
  offs_only (raise_offsets qf n i k pending npre) qf /\
  forall b, 0 <= b -> get_offset (raise_offsets qf n i k pending npre) b = get_offset qf b + (if (i <=? b) && (b <? i + Z.of_nat n) then above pending (64 * b - 1) else 0).
Proof.
  induction n as [|n IH]; intros qf i k pending npre Hw Hi D Hn Hk Hk2 Ho; cbn [raise_offsets].
  - split; [reflexivity|]. intros b Hb. split_cmps; lia.
  - destruct (count_preceding_spec pending npre i D Hn ltac:(lia)) as (p' & n' & -> & D' & Hn' & Hl' & Ha' & Hb').
    pose proof (get_offset_fits qf i) as Fo. unfold fits in Fo. specialize (Ho i ltac:(lia)) as Hoi. cbv zeta.
    assert (Eo : (get_offset qf i + k - n')%u64 = get_offset qf i + above p' (64 * i - 1)) by (rewrite add64_small, sub64_small by lia; lia).
    rewrite Eo. change (BITMASK 16) with 65535. rewrite (proj2 (Z.ltb_lt _ 65535)) by lia.
    assert (Eu : u16 (get_offset qf i + (k - n')%u64) = get_offset qf i + above p' (64 * i - 1)) by (rewrite sub64_small by lia; unfold u16; rewrite (uwrap_small 16) by (unfold fits; lia); lia).
    rewrite Eu. set (x := get_offset qf i + above p' (64 * i - 1)) in *. destruct (contents_set_offset qf Hw i x Hi) as [C1 C2 C3 C4]; [unfold fits; lia|]. fields.
    destruct (IH (set_offset qf i x) (i + 1) k p' n') as [H1 H2]; auto; try lia.
    { intros b Hb. rewrite C3 by lia. unfold upd. destruct (Z.eqb_spec b i); [lia|]. apply Ho. lia. }
    split; [rewrite H1; split; [split; reflexivity|auto..]|]. intros b Hb. rewrite H2, C3 by exact Hb. unfold upd.
    destruct (Z.eqb_spec b i) as [->|]; [unfold x; rewrite Hb' by lia; split_cmps; lia|]. split_cmps; try lia. rewrite Hb' by lia. reflexivity.
Qed.

(** ** The whole replacement *)

Section Insert.
Context (qf0 : QF) (runs : Z -> list Z) (R : repr qf0 runs) (q : Z) (A old new B : list Z) (N : Z).
Hypothesis Hq : 0 <= q.
Hypothesis Hrun : runs q = A ++ old ++ B.
Hypothesis Hlong : (length old <= length new)%nat.
Hypothesis Hnew : new <> [].
Hypothesis Hused : q < run_stop (run_len runs) q.
Hypothesis Hfits : Forall (fits (bps qf0)) new.

#[local] Abbreviation len := (run_len runs).
#[local] Abbreviation stop := (run_stop len).
#[local] Abbreviation start := (run_start len).
#[local] Abbreviation runs2 := (runs' runs q A new B).
#[local] Abbreviation len2 := (run_len runs2).
#[local] Abbreviation pos := (start q + Z.of_nat (length A)).
#[local] Abbreviation src := (pos + Z.of_nat (length old)).
#[local] Abbreviation dst := (pos + Z.of_nat (length new)).
#[local] Abbreviation nb := (nblocks (metadata qf0)).

(** The number of new slots, and how far an element moves. *)
Definition extra : Z := Z.of_nat (length new) - Z.of_nat (length old).
#[local] Abbreviation below := (free_below len q).
#[local] Abbreviation up := (lift len q extra).

(** Enough empty slots below [N], and no saturated offset. *)
Hypothesis HN : N <= 64 * nb /\ N <= xnslots (metadata qf0).
Hypothesis Hroom : extra <= below N.
Hypothesis Hextra : extra < 64.
Hypothesis Hoffs : forall b, q / 64 < b < nb -> get_offset qf0 b + extra < 65535.

Let ln := run_len_nonneg runs.

Lemma extra_nonneg : 0 <= extra.
Proof. unfold extra. lia. Qed.

Lemma widened_len p : len2 p = widened len q extra p.
Proof.
  unfold run_len, widened, runs', upd, extra. destruct (Z.eqb_spec p q) as [->|]; [|reflexivity]. rewrite Hrun, !length_app. lia.
Qed.

Lemma stop_q_src : stop q = src + Z.of_nat (length B).
Proof. rewrite <- start_q_stop_q by auto. unfold run_len at 2. rewrite Hrun, !length_app. lia. Qed.

Lemma src_bounds : 0 <= start q /\ q <= start q /\ src <= stop q /\ stop q <= 64 * nb < 2 ^ 62.
Proof.
  pose proof (wf_bound _ _ _ (repr_wf _ _ R) q). pose proof (lo_size _ _ (rp_laid _ _ R)). pose proof stop_q_src. unfold run_start in *. lia.
Qed.

Lemma below_src x : q <= x <= stop q -> below x = 0.
Proof.
  intros Hx. rewrite (free_below_used len q ln q x) by lia. unfold free_below. apply rank_nil. lia.
Qed.

Lemma below_rank x : src <= x -> below x = rank (is_free len) src x.
Proof.
  intros Hx. destruct src_bounds as (B1 & B2 & B3 & B4). pose proof (below_src src ltac:(lia)) as E. unfold free_below in *. rewrite (rank_split _ q src x) by lia. lia.
Qed.

(** The run-end bits of the run. *)
Lemma old_run_bit x : start q <= x < stop q -> v_run (view_of qf0) x = (x =? stop q - 1).
Proof.
  intros Hx. pose proof (start_q_stop_q len q Hq Hused) as E. change (v_run (view_of qf0) x) with (c_run (contents_of qf0) x).
  replace x with (start q + Z.of_nat (Z.to_nat (x - start q))) at 1 by lia. assert (El : len q = Z.of_nat (length (runs q))) by reflexivity.
  destruct (proj1 (repr_slot_ok qf0 runs x R ltac:(unfold run_start in *; lia)) q (Z.to_nat (x - start q)) Hq ltac:(lia) ltac:(lia)) as [_ Hr].
  replace (start q + Z.of_nat (Z.to_nat (x - start q))) with x by lia. rewrite Hr.
  destruct (Nat.eqb_spec (S (Z.to_nat (x - start q))) (length (runs q))), (Z.eqb_spec x (stop q - 1)); lia.
Qed.

(** *** What the filter holds afterwards *)

Record inserted_slots (qf : QF) : Prop := {
  is_header : same_header qf qf0;
  is_occ x : 0 <= x -> v_occ (view_of qf) x = v_occ (view_of qf0) x;
  is_off b : 0 <= b < nb -> get_offset qf b = get_offset qf0 b + (if q / 64 <? b then up (64 * b) else 0);
  is_new x : pos <= x < dst -> get_slot qf x = nth (Z.to_nat (x - pos)) new 0;
  is_slot_low x : 0 <= x < pos -> get_slot qf x = get_slot qf0 x;
  is_slot_up y : src <= y -> is_free len y = false -> get_slot qf (y + up y) = get_slot qf0 y;
  is_slot_high x : src <= x -> extra <= below x -> get_slot qf x = get_slot qf0 x;
  is_run_new x : start q <= x < dst -> v_run (view_of qf) x = match B with [] => x =? dst - 1 | _ => false end;
  is_run_low x : 0 <= x < start q -> v_run (view_of qf) x = v_run (view_of qf0) x;
  is_run_up y : src <= y -> is_free len y = false -> v_run (view_of qf) (y + up y) = v_run (view_of qf0) y;
  is_run_high x : src <= x -> extra <= below x -> v_run (view_of qf) x = v_run (view_of qf0) x;
}.

(** These slots are the new runs. *)
Lemma inserted_slots_ok qf x : inserted_slots qf -> 0 <= x -> slot_ok runs2 (contents_of qf) x.
Proof.
  intros [I0 I1 I2 I3 I4 I5 I6 I7 I8 I9 I10] Hx. destruct src_bounds as (B1 & B2 & B3 & B4). pose proof extra_nonneg as Hk. pose proof stop_q_src as Sq.
  assert (Es : forall p, run_start len2 p = run_start (widened len q extra) p) by (intros p; apply run_start_ext; intros; apply widened_len).
  assert (Et : forall p, run_stop len2 p = run_stop (widened len q extra) p) by (intros p; apply run_stop_ext; intros; apply widened_len).
  assert (Old : forall y, 0 <= y -> slot_ok runs (contents_of qf0) y) by (intros; now apply repr_slot_ok).
  assert (Oth : forall p, p <> q -> runs2 p = runs p) by (intros p Np; unfold runs', upd; destruct (Z.eqb_spec p q); congruence).
  assert (Eq : runs2 q = A ++ new ++ B) by apply upd_same.
  assert (Ex : extra = Z.of_nat (length new) - Z.of_nat (length old)) by reflexivity.
  destruct (slot_cases runs2 x Hx) as [(p & j & Hp & Hj & <-)|F].
  - rewrite Es in *. destruct (Z.lt_trichotomy p q) as [L|[->|L]].
    + (* a run below *)
      rewrite Oth in * by lia. rewrite start_widened_below in * by lia.
      pose proof (run_start_le len ln p (q - 1) Hp ltac:(unfold run_len; lia) ltac:(lia)) as M. assert (El : len p = Z.of_nat (length (runs p))) by reflexivity.
      assert (M2 : stop (q - 1) <= start q) by (unfold run_start; lia).
      destruct (proj1 (Old _ Hx) p j Hp Hj eq_refl) as [V1 V2].
      pose proof (slot_ok_used runs2 (contents_of qf) p j Hp) as U. cbv zeta in U. rewrite Es, start_widened_below, Oth in U by lia.
      apply U; auto; cbn [contents_of c_slot c_run] in *; [rewrite I4 by lia; exact V1|rewrite I8 by lia; exact V2].
    + (* the run itself *)
      rewrite start_widened_below in * by lia. pose proof (slot_ok_used runs2 (contents_of qf) q j Hq Hj) as U. cbv zeta in U. rewrite Es, start_widened_below in U by lia.
      rewrite Eq in *. rewrite !length_app in *. apply U; clear U; cbn [contents_of c_slot c_run].
      * destruct (Nat.lt_ge_cases j (length A)) as [La|La].
        { rewrite I4, app_nth1 by lia. rewrite (rp_slot _ _ R q j Hq) by (rewrite Hrun, !length_app; lia). rewrite Hrun, app_nth1 by lia. reflexivity. }
        rewrite app_nth2 by lia. destruct (Nat.lt_ge_cases j (length A + length new)) as [Ln|Ln].
        { rewrite I3, app_nth1 by lia. f_equal. lia. }
        rewrite app_nth2 by lia. set (y := start q + (Z.of_nat j - extra)). assert (Hy : src <= y < stop q) by (unfold y; lia).
        assert (Ey : start q + Z.of_nat j = y + up y) by (unfold lift; rewrite below_src by lia; unfold y; lia). rewrite Ey, I5.
        2: lia. 2: { apply Z.leb_gt. pose proof (run_stop_mono len ln q y). lia. }
        replace y with (start q + Z.of_nat (j - (length new - length old))) by (unfold y; lia).
        rewrite (rp_slot _ _ R q) by (try exact Hq; rewrite Hrun, !length_app; lia). rewrite Hrun, !app_nth2 by lia. f_equal. lia.
      * destruct (Nat.lt_ge_cases j (length A + length new)) as [Ln|Ln].
        { rewrite I7 by lia. destruct B as [|b0 B'] eqn:EB; cbn [length] in *.
          - destruct (Z.eqb_spec (start q + Z.of_nat j) (dst - 1)), (Nat.eqb_spec (S j) (length A + (length new + 0))); lia.
          - symmetry. apply Nat.eqb_neq. lia. }
        set (y := start q + (Z.of_nat j - extra)). assert (Hy : src <= y < stop q) by (unfold y; lia).
        assert (Ey : start q + Z.of_nat j = y + up y) by (unfold lift; rewrite below_src by lia; unfold y; lia). rewrite Ey, I9.
        2: lia. 2: { apply Z.leb_gt. pose proof (run_stop_mono len ln q y). lia. }
        rewrite old_run_bit by lia. destruct (Z.eqb_spec y (stop q - 1)), (Nat.eqb_spec (S j) (length A + (length new + length B))); unfold y in *; lia.
    + (* a run above *)
      rewrite Oth in * by lia. assert (Np : len p <> 0) by (unfold run_len; lia).
      pose proof (run_start_le len ln q p) as _. pose proof (run_stop_mono len ln q (p - 1) ltac:(lia)) as Ms.
      rewrite start_widened in * by auto. set (y := start p + Z.of_nat j). assert (Hy : stop q <= y) by (unfold y, run_start; lia).
      assert (Uy : is_free len y = false) by (apply Z.leb_gt; apply run_used_slot; auto).
      assert (Ey : start p + up (start p) + Z.of_nat j = y + up y).
      { unfold y. rewrite lift_run by (auto; unfold run_len; lia). lia. }
      destruct (proj1 (Old y ltac:(lia)) p j Hp Hj eq_refl) as [V1 V2].
      pose proof (slot_ok_used runs2 (contents_of qf) p j Hp) as U. cbv zeta in U. rewrite Es, start_widened, Oth in U by auto with lia.
      apply U; auto; rewrite Ey; cbn [contents_of c_slot c_run] in *; [rewrite I5 by (auto; lia); exact V1|rewrite I9 by (auto; lia); exact V2].
  - (* an empty slot *)
    apply slot_ok_free; auto; cbn [contents_of c_slot c_run]; rewrite Et in F; destruct (free_widened len q extra ln Hq Hk Hused x Hx F) as [F1 F2];
      destruct (proj2 (Old x Hx) F1) as [V1 V2]; cbn [contents_of c_slot c_run] in *.
    + destruct (Z.lt_ge_cases x q) as [L|L]; [rewrite I4 by lia; exact V1|]. pose proof (run_stop_mono len ln q x L). rewrite I6 by (auto; lia). exact V1.
    + destruct (Z.lt_ge_cases x q) as [L|L]; [rewrite I8 by lia; exact V2|]. pose proof (run_stop_mono len ln q x L). rewrite I10 by (auto; lia). exact V2.
Qed.

Lemma inserted_slots_repr qf : inserted_slots qf -> repr (set_bit qf OCC q) runs2.
Proof.
  intros I. pose proof I as [I0 I1 I2 _ _ _ _ _ _ _ _]. assert (Hw : width_ok qf) by (apply (same_header_width _ _ I0), (repr_width _ _ R)).
  destruct (contents_set_occ qf Hw q Hq) as [C1 C2 C3 C4]. fields. pose proof extra_nonneg as Hk. destruct src_bounds as (_ & _ & _ & B4).
  assert (Slots : forall x, 0 <= x -> slot_ok runs2 (contents_of (set_bit qf OCC q)) x).
  { intros x Hx. apply (slot_ok_ext _ (contents_of qf)); [exact (C4 x Hx)|exact (C2 x Hx)|now apply inserted_slots_ok]. }
  assert (M : metadata (set_bit qf OCC q) = metadata qf0) by (rewrite <- (sh_metadata _ _ I0); reflexivity).
  assert (Et : forall p, run_stop len2 p = run_stop (widened len q extra) p) by (intros p; apply run_stop_ext; intros; apply widened_len).
  apply slot_ok_repr; auto.
  - apply slot_ok_bits; auto.
    + rewrite M. lia.
    + intros p Hp. rewrite C1 by exact Hp. unfold upd. rewrite widened_len. unfold widened. destruct (Z.eqb_spec p q) as [->|].
      * symmetry. apply negb_true_iff, Z.eqb_neq. unfold run_len, extra. rewrite Hrun, !length_app. destruct new; [contradiction|cbn [length]; lia].
      * rewrite I1 by exact Hp. apply (wf_occ _ _ _ (repr_wf _ _ R)). exact Hp.
    + intros p. rewrite Et, M. apply bound_widened; auto; [|apply (wf_bound _ _ _ (repr_wf _ _ R))].
      destruct (Z.le_gt_cases q N) as [L|L]; [pose proof (free_below_mono len q N (64 * nb) ltac:(lia)); lia|].
      assert (E0 : below N = 0) by (unfold free_below; apply rank_nil; lia). pose proof (free_below_nonneg len q (64 * nb)). lia.
  - intros b Hb. rewrite M in Hb. rewrite C3, I2, (laid_out_offset _ _ b (rp_laid _ _ R)) by lia.
    assert (Eo : exact_offset len2 b = exact_offset (widened len q extra) b) by (unfold exact_offset; now rewrite Et).
    rewrite Eo, offset_widened by (auto; lia). reflexivity.
Qed.

(** *** The empty slots that are filled *)

Record next_empty (es : list Z) : Prop := {
  ne_length : Z.of_nat (length es) = extra;
  ne_order : descending es;
  ne_free : Forall (fun e => src <= e < Z.min N (64 * nb) /\ is_free len e = true) es;
  ne_above y : src <= y -> above es y = Z.max 0 (extra - below (y + 1));
}.

Lemma next_empty_found : exists es, find_next_n_empty_slots qf0 src (Z.to_nat extra) [] = Some es /\ next_empty es.
Proof.
  pose proof extra_nonneg as Hk. destruct src_bounds as (B1 & B2 & B3 & B4).
  assert (HN2 : extra <= rank (is_free len) src (64 * nb)).
  { rewrite <- below_rank by lia. destruct (Z.le_gt_cases q N) as [L|L]; [pose proof (free_below_mono len q N (64 * nb) ltac:(lia)); lia|].
    assert (E0 : below N = 0) by (unfold free_below; apply rank_nil; lia). pose proof (free_below_nonneg len q (64 * nb)). lia. }
  destruct (find_next_n_empty_slots_spec qf0 len (rp_laid _ _ R) (Z.to_nat extra) src [] ltac:(lia) ltac:(lia)) as (es & E & Hl & D & F & Ab).
  exists es. rewrite app_nil_r in E. split; [exact E|]. assert (Ab' : forall y, src <= y -> above es y = Z.max 0 (extra - below (y + 1))).
  { intros y Hy. rewrite Ab, below_rank by lia. lia. }
  split; [lia|exact D| |exact Ab']. apply Forall_forall. intros e He. rewrite Forall_forall in F. specialize (F e He) as [Fe Ff]. split; [|exact Ff].
  enough (e < N) by lia. destruct (Z.lt_ge_cases e N) as [|L]; [assumption|exfalso].
  assert (Pos : forall y, y < e -> 1 <= above es y).
  { clear - He. intros y Hy. induction es as [|e' es IH]; [contradiction|]. rewrite above_cons. pose proof (above_bounds es y). destruct He as [->|He]; [split_cmps; lia|]. specialize (IH He). split_cmps; lia. }
  destruct (Z.le_gt_cases N src) as [Ls|Ls].
  - assert (E0 : below N = 0); [|assert (extra = 0) by lia; destruct es; [contradiction|cbn [length] in Hl; lia]].
    destruct (Z.le_gt_cases q N); [apply below_src; lia|unfold free_below; apply rank_nil; lia].
  - specialize (Pos (N - 1) ltac:(lia)). rewrite Ab' in Pos by lia. replace (N - 1 + 1) with N in Pos by lia. lia.
Qed.

Section Opening.
Context (es : list Z) (NE : next_empty es).
Hypothesis Hk : 0 < extra.

Lemma es_nonempty : es <> [].
Proof. intros E. pose proof (ne_length _ NE) as Hl. rewrite E in Hl. cbn in Hl. lia. Qed.

Lemma hd_in : In (hd 0 es) es.
Proof. pose proof es_nonempty. destruct es; [contradiction|now left]. Qed.

Lemma es_range : in_range src es.
Proof.
  destruct src_bounds as (B1 & B2 & B3 & B4). eapply Forall_impl; [|exact (ne_free _ NE)]. intros e [He Hf]. cbv beta in *. split; [lia|].
  destruct (Z.eq_dec e 0) as [->|]; [|lia]. apply Z.leb_le in Hf. assert (q = 0) by lia. rewrite H in Hused. lia.
Qed.

Lemma es_below y : src <= y -> is_free len y = false -> above es y = up y.
Proof.
  intros Hy Hf. destruct src_bounds as (B1 & B2 & B3 & B4). rewrite (ne_above _ NE) by exact Hy. unfold lift, free_below. rewrite rank_succ by lia. rewrite Hf. cbn [Z.b2z]. lia.
Qed.

Lemma es_above_none y : hd 0 es <= y -> above es y = 0.
Proof.
  intros Hy. apply above_none. pose proof (ne_order _ NE) as D. destruct es as [|e es']; [constructor|]. cbn [hd] in Hy. apply StronglySorted_inv in D as [_ D].
  constructor; [lia|]. eapply Forall_impl; [|exact D]. intros x Hx. cbv beta in *. lia.
Qed.

Lemma high_past x : src <= x -> extra <= below x -> hd 0 es < x.
Proof.
  intros Hx Hb. destruct (Z.lt_ge_cases (hd 0 es) x) as [|L]; [assumption|exfalso].
  assert (Hs : src < x). { destruct (Z.eq_dec x src) as [->|]; [|lia]. destruct src_bounds as (B1 & B2 & B3 & B4). rewrite below_src in Hb by lia. lia. }
  pose proof (ne_above _ NE (x - 1) ltac:(lia)) as Ea. replace (x - 1 + 1) with x in Ea by lia.
  assert (1 <= above es (x - 1)); [|lia]. pose proof es_nonempty as Ne. destruct es as [|e es']; [contradiction|]. cbn [hd] in *. rewrite above_cons. pose proof (above_bounds es' (x - 1)). split_cmps; lia.
Qed.

(** The effect of the moves on a sequence. *)
Lemma chain_effect {T : Type} (f' f : Z -> T) : gap_chain f' f 0 es src ->
  (forall x, 0 <= x < src -> f' x = f x) /\ (forall y, src <= y -> is_free len y = false -> f' (y + up y) = f y) /\ (forall x, src <= x -> extra <= below x -> f' x = f x).
Proof.
  intros C. destruct src_bounds as (B1 & B2 & B3 & B4). pose proof es_range as Rg.
  destruct (gap_chain_spec es f' f 0 src C (ne_order _ NE)) as [G1 G2]; [eapply Forall_impl; [|exact Rg]; intros e He; cbv beta in *; lia|lia|lia|].
  split; [intros x Hx; apply G2; lia|]. split.
  - intros y Hy Hf. rewrite <- es_below by auto. destruct (Z.lt_ge_cases y (hd 0 es)) as [L|L].
    + apply (G1 y); [lia|]. intros Hin. pose proof (ne_free _ NE) as F. rewrite Forall_forall in F. destruct (F y Hin) as [_ Hf']. congruence.
    + rewrite es_above_none, Z.add_0_r by lia. apply G2; [lia|]. destruct (Z.eq_dec y (hd 0 es)) as [->|]; [|lia].
      exfalso. pose proof (ne_free _ NE) as F. rewrite Forall_forall in F. destruct (F _ hd_in) as [_ Hf']. congruence.
  - intros x Hx Hb. apply G2; [lia|]. pose proof (high_past x Hx Hb). lia.
Qed.

Definition opened : QF := shift_all shift_runends (shift_all shift_slots qf0 0 es src) 0 es src.

Record moved_slots (qf : QF) : Prop := {
  ms_header : same_header qf qf0;
  ms_occ x : 0 <= x -> v_occ (view_of qf) x = v_occ (view_of qf0) x;
  ms_off b : 0 <= b -> get_offset qf b = get_offset qf0 b;
  ms_slot_low x : 0 <= x < src -> get_slot qf x = get_slot qf0 x;
  ms_slot_up y : src <= y -> is_free len y = false -> get_slot qf (y + up y) = get_slot qf0 y;
  ms_slot_high x : src <= x -> extra <= below x -> get_slot qf x = get_slot qf0 x;
  ms_run_low x : 0 <= x < src -> v_run (view_of qf) x = v_run (view_of qf0) x;
  ms_run_up y : src <= y -> is_free len y = false -> v_run (view_of qf) (y + up y) = v_run (view_of qf0) y;
  ms_run_high x : src <= x -> extra <= below x -> v_run (view_of qf) x = v_run (view_of qf0) x;
}.

Lemma opened_moved : moved_slots opened.
Proof.
  destruct src_bounds as (B1 & B2 & B3 & B4). pose proof (repr_width _ _ R) as Hw. pose proof (ne_free _ NE) as F. rewrite Forall_forall in F.
  assert (Free : forall e, In e es -> get_slot qf0 e = 0 /\ v_run (view_of qf0) e = false).
  { intros e He. destruct (F e He) as [He1 He2]. apply Z.leb_le in He2. exact (proj2 (repr_slot_ok qf0 runs e R ltac:(lia)) He2). }
  destruct (shift_all_slots src ltac:(lia) es qf0 0 Hw es_nonempty (ne_order _ NE) es_range ltac:(lia)) as [S1 C1]; [intros _; apply Free, hd_in|].
  set (qf1 := shift_all shift_slots qf0 0 es src) in *. destruct S1 as [H1 O1 R1 F1].
  destruct (shift_all_runs src ltac:(lia) es qf1 0) as [[H2 O2 S2 F2] C2]; [exact (same_header_width _ _ H1 Hw)|exact es_nonempty|exact (ne_order _ NE)|exact es_range|lia| | | |].
  - rewrite (ne_length _ NE). lia.
  - intros x Hx _. replace x with (hd 0 es) by lia. destruct (F _ hd_in). rewrite R1 by lia. apply Free, hd_in.
  - apply Forall_forall. intros e He. destruct (F e He). rewrite R1 by lia. now apply Free.
  - change (shift_all shift_runends qf1 0 es src) with opened in *. destruct (chain_effect _ _ C1) as (A1 & A2 & A3). destruct (chain_effect _ _ C2) as (D1 & D2 & D3).
    assert (Up : forall y, 0 <= up y) by (intros; unfold lift; lia).
    split; [now rewrite H2|intros; rewrite O2, O1; auto|intros; rewrite F2, F1; auto|..].
    + intros x Hx. rewrite S2 by lia. now apply A1.
    + intros y Hy Hf. pose proof (Up y). rewrite S2 by lia. now apply A2.
    + intros x Hx Hb. rewrite S2 by lia. now apply A3.
    + intros x Hx. rewrite D1, R1 by lia. reflexivity.
    + intros y Hy Hf. rewrite D2 by auto. apply R1. lia.
    + intros x Hx Hb. rewrite D3 by auto. apply R1. lia.
Qed.
End Opening.

(** *** The end of the run *)

(** The operation that fits the place of the counter in its run. *)
Definition op_fits (op : Z) : Prop := op = 0 /\ runs q = [] \/ op = 1 /\ B = [] /\ runs q <> [] \/ op = 2 /\ B <> [].

Lemma past_up y : src <= y -> src + extra <= y + up y.
Proof.
  intros Hy. destruct src_bounds as (B1 & B2 & B3 & B4). pose proof (free_below_mono len q src y ltac:(lia)) as M. rewrite (below_src src) in M by lia. unfold lift. lia.
Qed.

Lemma past_high x : src <= x -> extra <= below x -> src + extra <= x.
Proof.
  intros Hx Hb. destruct src_bounds as (B1 & B2 & B3 & B4). pose proof (free_below_mono len q src x ltac:(lia)) as M. rewrite (below_src src) in M by lia. lia.
Qed.

Definition switch_op (op : Z) (qf : QF) : option QF :=
  if op =? 0 then Some (set_bit qf RUN (dst - 1))
  else if op =? 1 then Some (set_bit (clear_bit qf RUN (src - 1)) RUN (dst - 1))
  else if op =? 2 then Some (clear_bit qf RUN (dst - 1))
  else None.

Lemma run_bits_set op qf : op_fits op -> 0 < extra -> moved_slots qf ->
  exists qf', switch_op op (clear_runends qf (Z.to_nat (extra - 1)) src) = Some qf' /\ runs_only qf' qf
    /\ (forall x, start q <= x < dst -> v_run (view_of qf') x = match B with [] => x =? dst - 1 | _ => false end)
    /\ (forall x, 0 <= x -> x < start q \/ dst <= x -> v_run (view_of qf') x = v_run (view_of qf) x).
Proof.
  intros Hop Hk Hm. destruct src_bounds as (B1 & B2 & B3 & B4). pose proof (same_header_width _ _ (ms_header _ Hm) (repr_width _ _ R)) as Hw.
  pose proof stop_q_src as Sq. assert (Ex : extra = Z.of_nat (length new) - Z.of_nat (length old)) by reflexivity.
  assert (Hsz : dst < 2 ^ 62 + 64) by lia. pose proof (lo_size _ _ (rp_laid _ _ R)) as Hs.
  pose proof (ne_length) as _.
  destruct (clear_runends_only (Z.to_nat (extra - 1)) qf src Hw ltac:(lia)) as [K1 K2].
  { destruct next_empty_found as (es & _ & NE). pose proof (ne_free _ NE) as F. rewrite Forall_forall in F.
    destruct (F _ (hd_in es NE Hk)) as [Fh Ff]. pose proof (past_up (hd 0 es) ltac:(lia)) as P. unfold lift in P. pose proof (free_below_nonneg len q (hd 0 es)).
    assert (Ha : above es (hd 0 es) = 0) by (apply es_above_none; auto; lia). rewrite (ne_above _ NE) in Ha by lia. unfold free_below in *. rewrite rank_succ in Ha by lia. destruct (is_free len (hd 0 es)); cbn [Z.b2z] in Ha; lia. }
  set (qf3 := clear_runends qf (Z.to_nat (extra - 1)) src) in *. assert (Hw3 : width_ok qf3) by exact (same_header_width _ _ (ro_header _ _ K1) Hw).
  assert (Bits : forall x, start q <= x < dst - 1 -> v_run (view_of qf3) x = match B with [] => x =? src - 1 | _ => false end).
  { intros x Hx. rewrite K2 by lia. destruct (Z.lt_ge_cases x src) as [L|L].
    - rewrite (proj2 (Z.leb_gt src x)) by lia. cbn [andb]. rewrite (ms_run_low _ Hm), old_run_bit by lia.
      destruct B; cbn [length] in *; [f_equal; lia|apply Z.eqb_neq; lia].
    - rewrite (proj2 (Z.leb_le src x)), (proj2 (Z.ltb_lt x (src + Z.of_nat (Z.to_nat (extra - 1))))) by lia. cbn [andb]. destruct B; [symmetry; apply Z.eqb_neq; lia|reflexivity]. }
  assert (Past : forall x, 0 <= x -> x < start q \/ dst - 1 <= x -> v_run (view_of qf3) x = v_run (view_of qf) x).
  { intros x Hx Ho. rewrite K2 by lia. split_cmps; reflexivity || lia. }
  assert (One : forall (qa : QF) v, width_ok qa -> runs_only qa qf -> forall qb, ceq (contents_of qb) (put_run (contents_of qa) (dst - 1) v) -> same_header qb qa ->
    v = match B with [] => true | _ => false end -> (forall x, start q <= x < dst - 1 -> v_run (view_of qa) x = false) ->
    (forall x, 0 <= x -> x < start q \/ dst <= x -> v_run (view_of qa) x = v_run (view_of qf) x) ->
    runs_only qb qf /\ (forall x, start q <= x < dst -> v_run (view_of qb) x = match B with [] => x =? dst - 1 | _ => false end)
    /\ (forall x, 0 <= x -> x < start q \/ dst <= x -> v_run (view_of qb) x = v_run (view_of qf) x)).
  { intros qa v Hwa Ra qb Cb Hb Hv L1 L2. destruct (runs_only_bit qa qb (dst - 1) v Hwa Cb Hb) as [Rb Vb]. split; [now rewrite Rb|]. split; intros x Hx; [|intros Ho]; rewrite Vb by lia.
    - destruct (Z.eqb_spec x (dst - 1)) as [->|]; [exact Hv|]. rewrite L1 by lia. now destruct B.
    - destruct (Z.eqb_spec x (dst - 1)); [lia|]. now apply L2. }
  unfold switch_op. destruct Hop as [[-> Er]|[(-> & EB & Nr)|[-> NB]]]; cbn [Z.eqb].
  - eexists. split; [reflexivity|]. rewrite Hrun in Er. assert (EA : A = [] /\ old = [] /\ B = []) by (destruct A, old, B; cbn in Er; auto; discriminate). destruct EA as (EA & Eo & EB).
    apply (One qf3 true Hw3 K1 _ (contents_set_run qf3 Hw3 (dst - 1) ltac:(lia))); [split; reflexivity|now rewrite EB| |intros; apply Past; lia].
    intros x Hx. rewrite Bits, EB by lia. apply Z.eqb_neq. rewrite EA, Eo in *. cbn [length] in *. lia.
  - pose proof (contents_clear_run qf3 Hw3 (src - 1)) as Cc. assert (Hs1 : 1 <= src). { rewrite EB in *. destruct (runs q) as [|x0 l] eqn:El; [contradiction|]. apply (f_equal (@length Z)) in Hrun. rewrite !length_app in Hrun. cbn [length] in *. lia. }
    specialize (Cc ltac:(lia)). destruct (runs_only_bit qf3 _ (src - 1) false Hw3 Cc ltac:(split; reflexivity)) as [Rc Vc].
    eexists. split; [reflexivity|]. assert (Hw4 : width_ok (clear_bit qf3 RUN (src - 1))) by exact Hw3.
    apply (One (clear_bit qf3 RUN (src - 1)) true Hw4 ltac:(now rewrite Rc) _ (contents_set_run _ Hw4 (dst - 1) ltac:(lia))); [split; reflexivity|now rewrite EB| |].
    + intros x Hx. rewrite Vc by lia. destruct (Z.eqb_spec x (src - 1)); [reflexivity|]. rewrite Bits, EB by lia. now apply Z.eqb_neq.
    + intros x Hx Ho. rewrite Vc by lia. destruct (Z.eqb_spec x (src - 1)) as [->|]; [|apply Past; lia].
      exfalso. assert (start q <= src - 1); [|lia]. rewrite EB in *. destruct (runs q) as [|x0 l] eqn:El; [contradiction|]. apply (f_equal (@length Z)) in Hrun. rewrite !length_app in Hrun. cbn [length] in *. lia.
  - eexists. split; [reflexivity|].
    apply (One qf3 false Hw3 K1 _ (contents_clear_run qf3 Hw3 (dst - 1) ltac:(lia))); [split; reflexivity|destruct B; [contradiction|reflexivity]| |intros; apply Past; lia].
    intros x Hx. rewrite Bits by lia. destruct B; [contradiction|reflexivity].
Qed.

(** *** The block offsets *)
Lemma raised es qf : next_empty es -> 0 < extra -> width_ok qf -> (forall b, 0 <= b -> get_offset qf b = get_offset qf0 b) ->
  let qf' := raise_offsets qf (Z.to_nat (hd 0 es / 64 - (q / 64 + 1) + 1)) (q / 64 + 1) extra (rev es) 0 in
  offs_only qf' qf /\ forall b, 0 <= b < nb -> get_offset qf' b = get_offset qf0 b + (if q / 64 <? b then up (64 * b) else 0).
Proof.
  intros NE Hk Hw Ho. cbv zeta. destruct src_bounds as (B1 & B2 & B3 & B4). pose proof (Z.div_pos q 64 Hq ltac:(lia)).
  pose proof (ne_free _ NE) as F. rewrite Forall_forall in F. destruct (F _ (hd_in es NE Hk)) as [Hh _].
  assert (Hhb : hd 0 es / 64 < nb) by (apply Z.div_lt_upper_bound; lia).
  assert (Hhq : q / 64 <= hd 0 es / 64) by (apply Z.div_le_mono; lia).
  destruct (raise_offsets_spec (Z.to_nat (hd 0 es / 64 - (q / 64 + 1) + 1)) qf (q / 64 + 1) extra (rev es) 0) as [H1 H2]; auto; try lia.
  { apply ascending_rev, (ne_order _ NE). }
  { rewrite length_rev. apply (ne_length _ NE). }
  { intros b Hb. rewrite Ho by lia. apply Hoffs. lia. }
  split; [exact H1|]. intros b Hb. rewrite H2, Ho by lia. f_equal.
  assert (Ea : above (rev es) (64 * b - 1) = above es (64 * b - 1)) by apply above_rev.
  pose proof (Z.div_mod q 64 ltac:(lia)). pose proof (Z.mod_pos_bound q 64 ltac:(lia)).
  destruct (Z.ltb_spec (q / 64) b) as [L|L]; [|rewrite (proj2 (Z.leb_gt (q / 64 + 1) b)) by lia; reflexivity].
  rewrite (proj2 (Z.leb_le (q / 64 + 1) b)) by lia. cbn [andb]. rewrite Ea.
  pose proof (Z.div_mod (hd 0 es) 64 ltac:(lia)). pose proof (Z.mod_pos_bound (hd 0 es) 64 ltac:(lia)).
  destruct (Z.lt_ge_cases (64 * b - 1) src) as [Ls|Ls].
  - (* the block begins before the insertion point *)
    assert (Eb : below (64 * b) = 0) by (apply below_src; lia). unfold lift. rewrite Eb.
    rewrite (proj2 (Z.ltb_lt b _)) by lia. rewrite above_all; [rewrite (ne_length _ NE); lia|]. apply Forall_forall. intros e He. destruct (F e He). lia.
  - rewrite (ne_above _ NE) by lia. replace (64 * b - 1 + 1) with (64 * b) by lia. unfold lift.
    destruct (Z.ltb_spec b (q / 64 + 1 + Z.of_nat (Z.to_nat (hd 0 es / 64 - (q / 64 + 1) + 1)))) as [Lb|Lb]; [reflexivity|].
    assert (Ha : above es (64 * b - 1) = 0) by (apply es_above_none; auto; lia). rewrite (ne_above _ NE) in Ha by lia. replace (64 * b - 1 + 1) with (64 * b) in Ha by lia. lia.
Qed.

(** *** The operation *)

Lemma dst_bound : 0 < extra -> dst < 2 ^ 62.
Proof.
  intros Hk. destruct src_bounds as (B1 & B2 & B3 & B4). destruct next_empty_found as (es & _ & NE). pose proof (ne_free _ NE) as F. rewrite Forall_forall in F.
  destruct (F _ (hd_in es NE Hk)) as [Fh Ff]. assert (Ha : above es (hd 0 es) = 0) by (apply es_above_none; auto; lia). rewrite (ne_above _ NE) in Ha by lia.
  unfold free_below in Ha. rewrite rank_succ, Ff in Ha by lia. cbn [Z.b2z] in Ha. pose proof (free_below_mono len q src (hd 0 es) ltac:(lia)) as M. rewrite (below_src src) in M by lia.
  unfold free_below in M. unfold extra in *. lia.
Qed.

(** The new counter is written last. *)
Lemma set_slots_inserted qf : same_header qf qf0 -> dst < 2 ^ 62 ->
  (forall x, 0 <= x -> v_occ (view_of qf) x = v_occ (view_of qf0) x) ->
  (forall b, 0 <= b < nb -> get_offset qf b = get_offset qf0 b + (if q / 64 <? b then up (64 * b) else 0)) ->
  (forall x, 0 <= x < src -> get_slot qf x = get_slot qf0 x) ->
  (forall y, src <= y -> is_free len y = false -> get_slot qf (y + up y) = get_slot qf0 y) ->
  (forall x, src <= x -> extra <= below x -> get_slot qf x = get_slot qf0 x) ->
  (forall x, start q <= x < dst -> v_run (view_of qf) x = match B with [] => x =? dst - 1 | _ => false end) ->
  (forall x, 0 <= x < start q -> v_run (view_of qf) x = v_run (view_of qf0) x) ->
  (forall y, src <= y -> is_free len y = false -> v_run (view_of qf) (y + up y) = v_run (view_of qf0) y) ->
  (forall x, src <= x -> extra <= below x -> v_run (view_of qf) x = v_run (view_of qf0) x) ->
  inserted_slots (set_slots qf pos new).
Proof.
  intros H0 Hd H1 H2 H3 H4 H5 H6 H7 H8 H9. destruct src_bounds as (B1 & B2 & B3 & B4). pose proof (same_header_width _ _ H0 (repr_width _ _ R)) as Hw.
  assert (Ex : extra = Z.of_nat (length new) - Z.of_nat (length old)) by reflexivity.
  assert (Hf : Forall (fits (bps qf)) new) by (unfold bps in *; now rewrite (sh_metadata _ _ H0)).
  destruct (contents_set_slots new qf pos Hw ltac:(lia) ltac:(lia) Hf) as [S0 [S1 S2 S3 S4]]. cbv zeta in *. fields.
  split.
  - now rewrite S0.
  - intros x Hx. rewrite S1 by exact Hx. now apply H1.
  - intros b Hb. rewrite S3 by lia. now apply H2.
  - intros x Hx. rewrite S4 by lia. now rewrite (proj2 (Z.leb_le pos x)), (proj2 (Z.ltb_lt x dst)) by lia.
  - intros x Hx. rewrite S4 by lia. rewrite (proj2 (Z.leb_gt pos x)) by lia. cbn [andb]. apply H3. lia.
  - intros y Hy Hf'. pose proof (past_up y Hy). rewrite S4 by lia. rewrite (proj2 (Z.ltb_ge (y + up y) dst)) by lia. rewrite andb_false_r. now apply H4.
  - intros x Hx Hb. pose proof (past_high x Hx Hb). rewrite S4 by lia. rewrite (proj2 (Z.ltb_ge x dst)) by lia. rewrite andb_false_r. now apply H5.
  - intros x Hx. rewrite S2 by lia. now apply H6.
  - intros x Hx. rewrite S2 by lia. now apply H7.
  - intros y Hy Hf'. pose proof (past_up y Hy). rewrite S2 by lia. now apply H8.
  - intros x Hx Hb. rewrite S2 by lia. now apply H9.
Qed.

Lemma insert_replace_spec op : metadata_lock (runtimedata qf0) = 0 -> op_fits op ->
  exists qf', insert_replace_slots_and_shift_remainders_and_runends_and_offsets qf0 op q pos new (Z.of_nat (length new)) (Z.of_nat (length old))
      = Some (true, qf')
    /\ repr (set_bit qf' OCC q) runs2 /\ runtimedata qf' = runtimedata qf0 /\ metadata qf' = metadata (bump qf0 Noccupied extra).
Proof.
  intros Hlock Hop. destruct src_bounds as (B1 & B2 & B3 & B4). pose proof extra_nonneg as Hk0. pose proof (lo_size _ _ (rp_laid _ _ R)) as Hs.
  assert (Ex : extra = Z.of_nat (length new) - Z.of_nat (length old)) by reflexivity.
  assert (Fin : forall qf, inserted_slots qf -> exists qf', (let? qf := modify_metadata qf Noccupied extra in Some (true, qf)) = Some (true, qf')
    /\ repr (set_bit qf' OCC q) runs2 /\ runtimedata qf' = runtimedata qf0 /\ metadata qf' = metadata (bump qf0 Noccupied extra)).
  { intros qf I. pose proof (is_header _ I) as Hh. rewrite modify_metadata_bump by (rewrite (sh_runtime _ _ Hh); exact Hlock).
    eexists. split; [reflexivity|]. split; [apply set_occ_bumped; now apply inserted_slots_repr|]. split; [exact (sh_runtime _ _ Hh)|].
    unfold bump. cbn [metadata set_metadata]. now rewrite (sh_metadata _ _ Hh). }
  unfold insert_replace_slots_and_shift_remainders_and_runends_and_offsets.
  assert (Ei : i64 (Z.of_nat (length new) - Z.of_nat (length old)) = extra) by (rewrite <- Ex; apply i64_small; lia).
  rewrite Ei. rewrite (add64_small pos) by lia. destruct (Z.ltb_spec 0 extra) as [Hk|Hk].
  - pose proof (dst_bound Hk) as Hd. destruct next_empty_found as (es & -> & NE). pose proof (ne_free _ NE) as F. rewrite Forall_forall in F. destruct (F _ (hd_in es NE Hk)) as [Hh _].
    rewrite (proj2 (Z.leb_gt (xnslots (metadata qf0)) (hd 0 es))) by lia.
    pose proof (opened_moved es NE Hk) as OM. unfold opened, shift_all in OM. rewrite Z.add_0_l, (ne_length _ NE) in OM.
    set (qf2 := shift_runends _ src _ extra) in *.
    replace (Z.to_nat (Z.of_nat (length new) - 1 - Z.of_nat (length old))) with (Z.to_nat (extra - 1)) by lia.
    destruct (run_bits_set op qf2 Hop Hk OM) as (qf4 & E4 & K1 & K2 & K3). unfold switch_op in E4.
    rewrite (add64_small pos), (sub64_small dst 1) by lia.
    assert (Eop : (if op =? 0 then Some (set_bit (clear_runends qf2 (Z.to_nat (extra - 1)) src) RUN (dst - 1))
      else if op =? 1 then let qf := clear_bit (clear_runends qf2 (Z.to_nat (extra - 1)) src) RUN (src - 1)%u64 in Some (set_bit qf RUN (dst - 1))
      else if op =? 2 then Some (clear_bit (clear_runends qf2 (Z.to_nat (extra - 1)) src) RUN (dst - 1)) else None) = Some qf4).
    { rewrite <- E4. destruct Hop as [[-> _]|[(-> & EB & Nr)|[-> _]]]; cbn [Z.eqb]; try reflexivity.
      cbv zeta. rewrite sub64_small; [reflexivity| |lia]. rewrite EB in *. destruct (runs q) as [|x0 l] eqn:El; [contradiction|]. apply (f_equal (@length Z)) in Hrun. rewrite !length_app in Hrun. cbn [length] in *. lia. }
    cbv zeta in Eop |- *. rewrite Eop. unfold QF_SLOTS_PER_BLOCK.
    pose proof (same_header_width _ _ (ms_header _ OM) (repr_width _ _ R)) as Hw2. pose proof (same_header_width _ _ (ro_header _ _ K1) Hw2) as Hw4.
    destruct (raised es qf4 NE Hk Hw4) as [O1 O2]. { intros b Hb. rewrite (ro_off _ _ K1) by exact Hb. now apply (ms_off _ OM). }
    cbv zeta in O1, O2. set (qf5 := raise_offsets qf4 _ _ extra (rev es) 0) in *.
    apply Fin, set_slots_inserted; auto.
    + rewrite (oo_header _ _ O1), (ro_header _ _ K1). apply (ms_header _ OM).
    + intros x Hx. rewrite (oo_occ _ _ O1), (ro_occ _ _ K1) by exact Hx. now apply (ms_occ _ OM).
    + intros x Hx. rewrite (oo_slot _ _ O1), (ro_slot _ _ K1) by lia. now apply (ms_slot_low _ OM).
    + intros y Hy Hf. pose proof (past_up y Hy). rewrite (oo_slot _ _ O1), (ro_slot _ _ K1) by lia. now apply (ms_slot_up _ OM).
    + intros x Hx Hb. rewrite (oo_slot _ _ O1), (ro_slot _ _ K1) by lia. now apply (ms_slot_high _ OM).
    + intros x Hx. rewrite (oo_run _ _ O1) by lia. now apply K2.
    + intros x Hx. rewrite (oo_run _ _ O1), K3 by lia. apply (ms_run_low _ OM). lia.
    + intros y Hy Hf. pose proof (past_up y Hy). rewrite (oo_run _ _ O1), K3 by lia. now apply (ms_run_up _ OM).
    + intros x Hx Hb. pose proof (past_high x Hx Hb). rewrite (oo_run _ _ O1), K3 by lia. now apply (ms_run_high _ OM).
  - assert (E0 : extra = 0) by lia. assert (Up0 : forall x, up x = 0) by (intros x; unfold lift; rewrite E0; pose proof (free_below_nonneg len q x); lia).
    pose proof stop_q_src as Sq. apply Fin, set_slots_inserted; auto; try lia; try reflexivity.
    + intros b Hb. rewrite Up0. destruct (_ <? _); lia.
    + intros y Hy _. now rewrite Up0, Z.add_0_r.
    + intros x Hx. rewrite old_run_bit by lia. destruct B; cbn [length] in *; [f_equal; lia|apply Z.eqb_neq; lia].
    + intros y Hy _. now rewrite Up0, Z.add_0_r.
Qed.
End Insert.
