(* ===== verification/InsertTheorems.v ===== *)
(** * Insertion of many copies, on the contents

    [insert] finds the counter of a remainder, or the place for it, and writes the counter
    of the greater count there.  On the contents it raises the count of one hash. *)

From S2P Require Import Prelude BitSeq RankSelect Hashutil Blocks BlockBits Shifting Layout Locks CounterCode Runs Insert Repr InsertSlot InsertPlace InsertOne Iterator Filter FilterTheorems ShiftBack RemoveRun RemoveTheorems InsertRun.
From Stdlib Require Import Sorted.
Import ListNotations.
#[local] Open Scope Z_scope.

(** ** The size of a counter *)

(** From three bits on a counter of a 64-bit count takes at most 28 slots. *)
Lemma code_size w r c l : 3 <= w <= 56 -> 0 <= r -> 1 <= c < 2 ^ 64 -> code w r c l -> (length l <= 28)%nat.
Proof.
  intros Hw Hr Hc H. assert (P : 8 <= 2 ^ w) by (change 8 with (2 ^ 3); apply Z.pow_le_mono_r; lia).
  assert (D : forall b d ds, 6 <= b -> Forall (is_digit b r) (d :: ds) -> (ds <> [] -> 0 < digit_value r d) -> digits_value b r (d :: ds) 0 < 2 ^ 64 -> (length ds <= 24)%nat).
  { intros b d ds Hb HF Hd Hv. inversion_clear HF as [|? ? Dd F]. apply is_digit_facts in Dd as (_ & _ & Bd & _); [|exact Hr].
    pose proof (digits_value_bounds b r ds ltac:(lia) Hr F (digit_value r d) ltac:(lia)) as V. unfold digits_value in *. cbn [fold_left] in Hv. change (0 * b + digit_value r d) with (digit_value r d) in Hv.
    destruct (Nat.le_gt_cases (length ds) 24) as [|L]; [assumption|exfalso]. specialize (Hd ltac:(intros ->; cbn in L; lia)).
    assert (Pb : 6 ^ 25 <= b ^ Z.of_nat (length ds)).
    { transitivity (b ^ 25); [apply Z.pow_le_mono_l; lia|apply Z.pow_le_mono_r; lia]. }
    assert (P25 : 2 ^ 64 < 6 ^ 25) by reflexivity. nia. }
  destruct H as [ | | | |c d ds Hp Hd HF V C Hv|c d ds Hp Hd HF V C Hv|c d ds -> HF V C Hv]; cbn [app length]; rewrite ?length_app; cbn [length]; try lia.
  - pose proof (D (2 ^ w - 2) d ds ltac:(lia) HF ltac:(auto) ltac:(lia)). lia.
  - pose proof (D (2 ^ w - 2) d ds ltac:(lia) HF ltac:(auto) ltac:(lia)). lia.
  - pose proof (D (2 ^ w - 1) d ds ltac:(lia) HF ltac:(auto) ltac:(lia)). lia.
Qed.

(** ** Room *)

(** Enough empty slots from bucket [q] on for [n] more slots, within [xnslots], and no
    block offset that would be saturated. *)
Definition has_slots (qf : QF) (q n : Z) : Prop :=
  (exists N, N <= 64 * nblocks (metadata qf) /\ N <= xnslots (metadata qf) /\ n <= rank (is_empty qf) q N)
  /\ forall b, q / 64 < b < nblocks (metadata qf) -> get_offset qf b + n < 65535.

Lemma rank_empty qf runs (R : repr qf runs) q N : 0 <= q -> N <= 64 * nblocks (metadata qf) ->
  rank (is_empty qf) q N = free_below (run_len runs) q N.
Proof. intros Hq HN. apply rank_ext. intros i Hi. apply (repr_is_empty qf runs R). lia. Qed.

(** ** The bucket is not empty *)

Section NonEmpty.
Context (qf : QF) (runs : Z -> list Z) (R : repr qf runs) (m : items) (q h cnt N : Z).
Hypothesis Hq : 0 <= q < 64 * nblocks (metadata qf).
Hypothesis Hm : run_code (bps qf) m (runs q).
Hypothesis Hused : q < run_stop (run_len runs) q.
Hypothesis Hw : 3 <= bps qf <= 56.
Hypothesis Hh : fits (bps qf) h.
Hypothesis Hcnt : 1 <= cnt /\ lookup_item h m + cnt < 2 ^ 64.
Hypothesis Hlock : metadata_lock (runtimedata qf) = 0.
Hypothesis HN : N <= 64 * nblocks (metadata qf) /\ N <= xnslots (metadata qf).
Hypothesis Hoffs : forall b, q / 64 < b < nblocks (metadata qf) -> get_offset qf b + 28 < 65535.

#[local] Abbreviation len := (run_len runs).
#[local] Abbreviation start := (run_start len).

(** The filter after the replacement of a counter in the run of [q]. *)
Record replaced (m' : items) (qf' : QF) : Prop := {
  rd_repr : exists runs', repr (set_bit qf' OCC q) runs' /\ (forall p, 0 <= p -> p <> q -> runs' p = runs p) /\ run_code (bps qf) m' (runs' q);
  rd_runtime : runtimedata qf' = runtimedata qf;
  rd_metadata : exists k, metadata qf' = metadata (bump qf Noccupied k);
}.

Lemma encoded_spec A old B c' m' op : runs q = A ++ old ++ B -> 1 <= c' < 2 ^ 64 ->
  (forall new, code (bps qf) h c' new -> (length old <= length new)%nat /\ run_code (bps qf) m' (A ++ new ++ B)) ->
  op_fits runs q B op -> 28 <= Z.of_nat (length old) + free_below len q N ->
  exists qf', insert_encoded qf op q (start q + Z.of_nat (length A)) h c' (Z.of_nat (length old)) = Some (true, qf') /\ replaced m' qf'.
Proof.
  intros Hrun Hc Hnew Hop Hroom. destruct (encode_counter_code qf h c' ltac:(lia) Hh Hc) as (new & E & Hl & _). destruct (Hnew new Hl) as [Hlong Hrc].
  pose proof (code_size _ _ _ _ Hw (proj1 Hh) Hc Hl) as Hsz. pose proof (code_length _ _ _ _ Hl) as Hpos. unfold insert_encoded. rewrite E.
  destruct (insert_replace_spec qf runs R q A old new B N) with (op := op) as (qf' & -> & R' & T' & M'); auto; try lia.
  - destruct new; [cbn in Hpos; lia|discriminate].
  - apply (code_fits _ h c'); auto. lia.
  - unfold extra. lia.
  - unfold extra. lia.
  - intros b Hb. specialize (Hoffs b Hb). unfold extra. lia.
  - exists qf'. split; [reflexivity|]. split; [|exact T'|eauto]. exists (runs' runs q A new B). split; [exact R'|]. unfold runs'. rewrite upd_same. split; [|exact Hrc].
    intros p _ Np. unfold upd. destruct (Z.eqb_spec p q); congruence.
Qed.

(** The bucket has no run yet. *)
Lemma insert_nonempty_new : runs q = [] -> 28 <= free_below len q N ->
  exists d qf', insert_nonempty qf h q cnt = Some (Some d, qf') /\ exists qf1, replaced (add_item h cnt m) qf1 /\ qf' = bump qf1 Ndistinct 1.
Proof.
  intros Er Hroom. rewrite Er in Hm. apply run_code_nil in Hm as Em. unfold insert_nonempty. rewrite (repr_run_start qf runs R) by lia.
  rewrite (repr_occupied qf runs R) by lia. rewrite (proj2 (Z.eqb_eq (len q) 0)) by (now apply run_len_nil). cbn [negb].
  destruct (encoded_spec [] [] [] cnt (add_item h cnt m) 0) as (qf1 & E & P); auto.
  - rewrite Em in Hcnt. cbn [lookup_item] in Hcnt. lia.
  - intros new Hl. split; [cbn; lia|]. rewrite Em. cbn [add_item app]. rewrite app_nil_r. apply run_code_one; auto. rewrite Em in Hcnt. cbn [lookup_item] in Hcnt. lia.
  - now left.
  - cbn [length] in E. change (Z.of_nat 0) with 0 in E. rewrite Z.add_0_r in E. rewrite E. cbn [negb]. rewrite modify_metadata_bump by (rewrite (rd_runtime _ _ P); exact Hlock). eauto 10.
Qed.

(** It has one: the counter is replaced, appended or inserted. *)
Lemma insert_nonempty_old : runs q <> [] -> 28 <= free_below len q N \/ runs q = [h] /\ 27 <= free_below len q N ->
  exists d qf', insert_nonempty qf h q cnt = Some (Some d, qf') /\ exists qf1, replaced (add_item h cnt m) qf1 /\ qf' = (if lookup_item h m =? 0 then bump qf1 Ndistinct 1 else qf1).
Proof.
  intros Nr Hroom. unfold insert_nonempty. rewrite (repr_run_start qf runs R) by lia.
  assert (Nl : len q <> 0) by (now rewrite <- run_len_nil). rewrite (repr_occupied qf runs R) by lia. rewrite (proj2 (Z.eqb_neq _ _) Nl). cbn [negb].
  assert (Nm : m <> []) by (intros E; rewrite E in Hm; inversion Hm; congruence).
  destruct (run_in_bounds qf runs q [] R (proj1 Hq) Nr) as (Hp0 & Hpb & _ & Hf).
  destruct (find_counter_spec qf h ltac:(lia) m (runs q) Hm (start q) (scan_fuel qf) Nm (repr_run_at qf runs R q (proj1 Hq) Nr) Hf Hf)
    as (lo & r & c & hi & l1 & lc & l2 & E1 & E2 & H1 & Hlc & H2 & Hlo & Hlast & Fr & Hc & ->).
  assert (Hhi : Forall (fun p => r < fst p) hi).
  { rewrite E1 in Hm. destruct (run_code_split _ lo _ _ Hm) as (? & ? & _ & _ & Hx). now inversion Hx. }
  pose proof (code_length _ _ _ _ Hlc) as Lc. assert (Nlc : lc <> []) by (destruct lc; [cbn in Lc; lia|discriminate]). rewrite E2, !length_app in Hpb.
  assert (Elk : lookup_item h m = lookup_item h ((r, c) :: hi)) by (rewrite E1; now apply lookup_item_low).
  assert (Eadd : add_item h cnt m = lo ++ add_item h cnt ((r, c) :: hi)) by (rewrite E1; now apply add_item_low).
  assert (Room28 : r <> h -> 28 <= free_below len q N).
  { intros Nrh. destruct Hroom as [|[Er _]]; [assumption|exfalso]. rewrite Er in E2. destruct (code_head _ _ _ _ Hlc) as (t & Et). rewrite Et in E2.
    destruct l1; cbn in E2; [injection E2 as E2 _; congruence|]. injection E2 as _ E2. destruct l1; discriminate. }
  destruct (Z.ltb_spec r h) as [L|L]; [|destruct (Z.eqb_spec r h) as [->|Nrh]].
  - (* after the last counter *)
    rewrite (Hlast L) in *. inversion H2; subst l2. rewrite app_nil_r in E2. cbn [lookup_item] in Elk. rewrite (proj2 (Z.eqb_neq h r)) in Elk by lia.
    destruct (encoded_spec (l1 ++ lc) [] [] cnt (add_item h cnt m) 1) as (qf1 & E & P); auto; try lia.
    { now rewrite !app_nil_r. }
    { intros new Hl. split; [cbn; lia|]. rewrite Eadd. cbn [add_item]. rewrite (proj2 (Z.ltb_ge h r)), (proj2 (Z.eqb_neq h r)) by lia.
      replace (lo ++ [(r, c); (h, cnt)]) with ((lo ++ [(r, c)]) ++ [(h, cnt)]) by (now rewrite <- app_assoc).
      apply (run_code_replace _ (lo ++ [(r, c)]) [] h cnt (l1 ++ lc) [] new); auto; try lia; [|].
      - rewrite <- E1, <- E2. exact Hm.
      - apply Forall_app. split; [exact Hlo|]. constructor; [exact L|constructor]. }
    { right. left. auto. }
    rewrite add64_small by lia. replace (start q + Z.of_nat (length l1) + Z.of_nat (length lc) - 1 + 1) with (start q + Z.of_nat (length (l1 ++ lc))) by (rewrite length_app; lia).
    change (Z.of_nat (length [])) with 0 in E. rewrite E. cbn [negb]. rewrite modify_metadata_bump by (rewrite (rd_runtime _ _ P); exact Hlock).
    do 2 eexists. split; [reflexivity|]. exists qf1. split; [exact P|]. rewrite Elk. reflexivity.
  - (* in place of the old counter *)
    cbn [lookup_item] in Elk. rewrite Z.eqb_refl in Elk. cbn [negb].
    rewrite (repr_runend_end qf runs R q l1 lc l2 (proj1 Hq) E2 Nlc).
    assert (Lold : add64 (sub64 (start q + Z.of_nat (length l1) + Z.of_nat (length lc) - 1) (start q + Z.of_nat (length l1))) 1 = Z.of_nat (length lc)).
    { unfold add64, sub64. rewrite (u64_small (_ - _)) by (unfold fits; lia). rewrite u64_small by (unfold fits; lia). lia. }
    rewrite Lold, (add64_small c) by lia. set (op := if match l2 with [] => true | _ => false end then 1 else 2).
    destruct (encoded_spec l1 lc l2 (c + cnt) (add_item h cnt m) op) as (qf1 & E & P); auto; try lia.
    { intros new Hl. split; [apply (code_shorter (bps qf) h (c + cnt) c); auto; [lia|apply Hh|lia]|]. rewrite Eadd. cbn [add_item]. rewrite Z.ltb_irrefl, Z.eqb_refl.
      apply run_code_replace; auto; lia. }
    { unfold op. destruct l2; [right; left; auto|right; right; split; [reflexivity|discriminate]]. }
    rewrite E. cbn [negb]. do 2 eexists. split; [reflexivity|]. exists qf1. split; [exact P|]. rewrite Elk. rewrite (proj2 (Z.eqb_neq c 0)) by lia. reflexivity.
  - (* before the counter *)
    assert (Hh0 : Forall (fun p => h < fst p) hi) by (eapply Forall_impl; [|exact Hhi]; intros p Hp; cbv beta in *; lia).
    cbn [lookup_item] in Elk. rewrite (proj2 (Z.eqb_neq h r)) in Elk by lia. rewrite (lookup_item_high h hi Hh0) in Elk.
    destruct (encoded_spec l1 [] (lc ++ l2) cnt (add_item h cnt m) 2) as (qf1 & E & P); auto; try lia.
    { intros new Hl. split; [cbn; lia|]. rewrite Eadd. cbn [add_item]. rewrite (proj2 (Z.ltb_lt h r)) by lia.
      apply run_code_replace; auto; try lia; [|constructor; [cbn; lia|exact Hh0]]. constructor; auto. }
    { right. right. split; [reflexivity|]. destruct lc; [contradiction|discriminate]. }
    change (Z.of_nat (length [])) with 0 in E. rewrite E. cbn [negb]. rewrite modify_metadata_bump by (rewrite (rd_runtime _ _ P); exact Hlock).
    do 2 eexists. split; [reflexivity|]. exists qf1. split; [exact P|]. rewrite Elk. reflexivity.
Qed.
End NonEmpty.

(** ** The whole operation *)

(** What [insert] does besides the contents.  The number of elements is updated through an
    [int]. *)
Record inserted (qf : QF) (fresh : bool) (cnt : Z) (qf' : QF) : Prop := {
  ins_runtime : runtimedata qf' = runtimedata qf;
  ins_nelts : cnt < 2 ^ 31 -> nelts (metadata qf') = (nelts (metadata qf) + cnt)%u64;
  ins_ndistinct : ndistinct_elts (metadata qf') = if fresh then (ndistinct_elts (metadata qf) + 1)%u64 else ndistinct_elts (metadata qf);
  ins_rest : set_counters (metadata qf') 0 0 0 = set_counters (metadata qf) 0 0 0;
}.

Lemma used_not_empty qf runs (R : repr qf runs) q : 0 <= q < 64 * nblocks (metadata qf) -> q < run_stop (run_len runs) q ->
  run_end qf q = Some (run_stop (run_len runs) q - 1) /\ might_be_empty qf q && (run_stop (run_len runs) q - 1 =? q) = false.
Proof.
  intros Hq Hu. rewrite (repr_run_end qf runs R) by exact Hq. split; [f_equal; lia|]. destruct (Z.eqb_spec (run_stop (run_len runs) q - 1) q) as [E|]; [|apply andb_false_r].
  unfold might_be_empty. enough (T : is_runend qf q = true) by (rewrite T; cbn [negb]; now rewrite andb_false_r).
  apply (repr_runend qf runs R); [lia|]. destruct (run_stop_last (run_len runs) q) as (p & Hp & Np & Es); [lia|]. exists p. split; [lia|]. split; [exact Np|].
  rewrite run_stop_full by (auto; lia). lia.
Qed.

Lemma free_empty_home qf runs (R : repr qf runs) q : 0 <= q < 64 * nblocks (metadata qf) -> run_stop (run_len runs) q <= q ->
  run_end qf q = Some q /\ might_be_empty qf q && (q =? q) = true.
Proof.
  intros Hq Hu. pose proof (run_len_nonneg runs) as ln. rewrite (repr_run_end qf runs R) by exact Hq. split; [f_equal; lia|]. rewrite Z.eqb_refl, andb_true_r. unfold might_be_empty.
  rewrite (repr_occupied qf runs R), (free_empty (run_len runs) q ln) by lia. cbn [Z.eqb negb andb].
  destruct (is_runend qf q) eqn:E; [exfalso|reflexivity]. apply (repr_runend qf runs R) in E as (p & Hp & Np & Es); [|lia].
  assert (used (run_len runs) q) by (exists p; rewrite run_stop_full in Es by auto; specialize (ln p); lia). apply used_iff in H; auto; lia.
Qed.

Lemma insert_used fuel qf runs m hash cnt flags N : repr qf runs -> (forall q, 0 <= q -> run_code (bps qf) (m q) (runs q)) -> 3 <= bps qf ->
  metadata_lock (runtimedata qf) = 0 -> let q := hash_bucket qf hash in let h := hash_rem qf hash in
  lockable qf q false flags -> 0 <= hash -> q < 64 * nblocks (metadata qf) -> q < run_stop (run_len runs) q ->
  1 <= cnt -> count_of qf m hash + cnt < 2 ^ 64 -> N <= 64 * nblocks (metadata qf) /\ N <= xnslots (metadata qf) ->
  (forall b, q / 64 < b < nblocks (metadata qf) -> get_offset qf b + 28 < 65535) ->
  28 <= free_below (run_len runs) q N \/ runs q = [h] /\ 27 <= free_below (run_len runs) q N ->
  exists d qf', insert_rec (S fuel) qf hash cnt flags = Some (d, qf') /\ holds qf' (add_hash qf m hash cnt) /\ inserted qf (count_of qf m hash =? 0) cnt qf'.
Proof.
  intros R Hm Hw3 Hlock q h. subst q h. intros Hl Hh Hq Hu Hc Hcc HN Hoffs Hroom. pose proof (repr_width _ _ R) as Hw. pose proof (lo_size _ _ (rp_laid _ _ R)) as Hsz. unfold width_ok in Hw.
  destruct (hash_parts qf hash Hw Hh ltac:(lia)) as (Er & Eb & Fr & Hq0). cbn [insert_rec]. rewrite Er, Eb. unfold count_of, add_hash in *. 
  set (q := hash_bucket qf hash) in *. set (h := hash_rem qf hash) in *. clearbody q h. clear Er Eb Hh.
  destruct (lock_unlock qf q false flags Hq0 Hl) as (qf0 & -> & M0 & B0 & L0 & U). cbn [negb].
  assert (Eb0 : bps qf0 = bps qf) by (unfold bps; now rewrite M0).
  assert (R0 : repr qf0 runs) by (apply (repr_blocks qf); auto; now rewrite M0).
  destruct (used_not_empty qf0 runs R0 q ltac:(rewrite M0; lia) Hu) as [-> ->].
  assert (Ho0 : forall b, q / 64 < b < nblocks (metadata qf) -> get_offset qf0 b + 28 < 65535).
  { intros b Hb. unfold get_offset, get_block, block_size. rewrite B0, Eb0. now apply Hoffs. }
  assert (Step : exists d qf', insert_nonempty qf0 h q cnt = Some (Some d, qf') /\ exists qf1, replaced qf0 runs q (add_item h cnt (m q)) qf1
    /\ qf' = (if lookup_item h (m q) =? 0 then bump qf1 Ndistinct 1 else qf1)).
  { specialize (Hm q Hq0). rewrite <- Eb0 in *. destruct (runs q) as [|x l] eqn:El.
    - destruct (insert_nonempty_new qf0 runs R0 (m q) q h cnt N) as (d & qf' & E & qf1 & P & Eq); rewrite ?El, ?M0; auto; try lia; try congruence.
      { destruct Hroom as [|[? _]]; [assumption|discriminate]. }
      exists d, qf'. split; [exact E|]. exists qf1. split; [exact P|]. apply run_code_nil in Hm. rewrite Hm. exact Eq.
    - apply (insert_nonempty_old qf0 runs R0 (m q) q h cnt N); rewrite ?El, ?M0; auto; try lia; congruence. }
  destruct Step as (d & qf' & -> & qf1 & [(runs' & R1 & Oth & Hrun) T1 (k & M1)] & Eq). rewrite Eb0 in Hrun.
  set (fresh := lookup_item h (m q) =? 0) in *.
  assert (F' : runtimedata qf' = runtimedata qf0 /\ repr (set_bit qf' OCC q) runs' /\ bps qf' = bps qf
    /\ nelts (metadata qf') = nelts (metadata qf) /\ ndistinct_elts (metadata qf') = (if fresh then (ndistinct_elts (metadata qf) + 1)%u64 else ndistinct_elts (metadata qf))
    /\ set_counters (metadata qf') 0 0 0 = set_counters (metadata qf) 0 0 0).
  { subst qf'. split; [destruct fresh; exact T1|]. split; [destruct fresh; [now apply set_occ_bumped|exact R1]|].
    destruct fresh; unfold bps, bump; cbn [metadata set_metadata]; rewrite M1; unfold bump; cbn; rewrite M0; repeat split; reflexivity. }
  destruct F' as (T' & R' & Eb' & N' & D' & S'). rewrite modify_metadata_bump by (change (runtimedata (set_bit qf' OCC q)) with (runtimedata qf'); congruence).
  rewrite U by (change (runtimedata (bump (set_bit qf' OCC q) Nelts cnt)) with (runtimedata qf'); exact T').
  do 2 eexists. split; [reflexivity|]. split.
  - exists runs'. split; [apply (repr_blocks (bump (set_bit qf' OCC q) Nelts cnt)); try reflexivity; now apply repr_bump|].
    change (bps (mk_QF _ ?x _)) with (bps qf'). rewrite Eb'. intros p Hp. unfold upd. destruct (Z.eqb_spec p q) as [->|Np]; [exact Hrun|]. rewrite Oth by assumption. now apply Hm.
  - split; cbn [runtimedata metadata bump set_metadata set_bit set_METADATA_WORD set_block_word set_blocks]; auto.
    intros Hc31. unfold set_counter, set_counters, get_counter. cbn [nelts]. rewrite N', i32_small by lia. reflexivity.
Qed.

Lemma insert_rec_S fuel qf hash count runtime_lock : insert_rec (S fuel) qf hash count runtime_lock =
  let hash_remainder := (hash .& BITMASK (bps qf))%u64 in
  let hash_bucket_index := u64 (Z.shiftr hash (bps qf)) in
  let? (ok, qf) := lock_qf qf hash_bucket_index false runtime_lock in
  if negb ok then Some (QF_COULDNT_LOCK, qf) else
  let finish (ret_distance : Z) qf :=
    let? qf := unlock_qf qf hash_bucket_index false runtime_lock in Some (ret_distance, qf) in
  let? runend_index := run_end qf hash_bucket_index in
  if might_be_empty qf hash_bucket_index && (runend_index =? hash_bucket_index) then
    let qf := set_bit (set_slot (set_bit qf RUN hash_bucket_index) hash_bucket_index hash_remainder) OCC hash_bucket_index in
    let? qf := modify_metadata qf Ndistinct 1 in
    let? qf := modify_metadata qf Noccupied 1 in
    let? qf := modify_metadata qf Nelts 1 in
    let? qf :=
      (if 1 <? count then let? (_, qf) := insert_rec fuel qf hash (count - 1)%u64 QF_NO_LOCK in Some qf
       else Some qf) in
    finish 0 qf
  else
    let? (ret, qf) := insert_nonempty qf hash_remainder hash_bucket_index count in
    match ret with
    | None => Some (QF_NO_SPACE, qf)
    | Some ret_distance =>
      let qf := set_bit qf OCC hash_bucket_index in
      let? qf := modify_metadata qf Nelts count in
      finish ret_distance qf
    end.
Proof. reflexivity. Qed.

(** One slot of an empty home slot is taken: one empty slot less, the same offsets. *)
Lemma free_below_placed runs q h N : 0 <= q < N -> run_stop (run_len runs) q <= q ->
  free_below (run_len (upd runs q [h])) q N = free_below (run_len runs) q N - 1
  /\ q < run_stop (run_len (upd runs q [h])) q
  /\ forall x, q <= x -> run_stop (run_len (upd runs q [h])) x = Z.max (q + 1) (run_stop (run_len runs) x).
Proof.
  intros Hq Hs. pose proof (run_len_nonneg runs) as ln. pose proof (free_empty (run_len runs) q ln ltac:(lia) Hs) as E0.
  assert (S : forall x, q <= x -> run_stop (run_len (upd runs q [h])) x = Z.max (q + 1) (run_stop (run_len runs) x)).
  { intros x Hx. rewrite <- (stop_place (run_len runs) q ln) by lia. apply run_stop_ext. intros p _. apply run_len_nil in E0.
    replace [h] with (insert_at 0 h (runs q)) by now rewrite E0. apply run_len_insert. }
  split; [|split; [rewrite S; lia|intros; apply S; lia]]. unfold free_below.
  rewrite (rank_split (is_free (run_len runs)) q (q + 1) N), (rank_split (is_free (run_len (upd runs q [h]))) q (q + 1) N), !rank_one by lia.
  unfold is_free at 1 3. rewrite S by lia. rewrite (proj2 (Z.leb_le _ q) Hs), (proj2 (Z.leb_gt _ q)) by lia. cbn [Z.b2z].
  rewrite (rank_ext (is_free (run_len (upd runs q [h]))) (is_free (run_len runs))); [lia|]. intros x Hx. unfold is_free. rewrite S by lia. split_cmps; lia.
Qed.

Lemma inserted_again qf qf2 qf3 cnt : 1 < cnt -> runtimedata qf3 = runtimedata qf2 ->
  nelts (metadata qf2) = (nelts (metadata qf) + 1)%u64 -> ndistinct_elts (metadata qf2) = (ndistinct_elts (metadata qf) + 1)%u64 ->
  set_counters (metadata qf2) 0 0 0 = set_counters (metadata qf) 0 0 0 ->
  inserted qf2 false (cnt - 1) qf3 -> inserted qf true cnt (mk_QF (runtimedata qf) (metadata qf3) (blocks qf3)).
Proof.
  intros Hc T E1 E2 E3 [_ I1 I2 I3]. split; cbn [runtimedata metadata]; [reflexivity| |congruence|congruence].
  intros L. rewrite I1, E1 by lia. unfold add64, u64, uwrap. rewrite Zplus_mod_idemp_l. f_equal. lia.
Qed.

Lemma insert_spec qf m hash cnt flags : holds qf m -> 3 <= bps qf -> metadata_lock (runtimedata qf) = 0 ->
  lockable qf (hash_bucket qf hash) false flags -> 0 <= hash -> hash_bucket qf hash < 64 * nblocks (metadata qf) ->
  has_slots qf (hash_bucket qf hash) 28 -> 1 <= cnt -> count_of qf m hash + cnt < 2 ^ 64 ->
  exists d qf', insert qf hash cnt flags = Some (d, qf') /\ holds qf' (add_hash qf m hash cnt) /\ inserted qf (count_of qf m hash =? 0) cnt qf'.
Proof.
  intros (runs & R & Hm) Hw3 Hlock Hl Hh Hq [(N & HN1 & HN2 & Hroom) Hoffs] Hc Hcc.
  pose proof (repr_width _ _ R) as Hw. pose proof (lo_size _ _ (rp_laid _ _ R)) as Hsz. unfold width_ok in Hw.
  destruct (hash_parts qf hash Hw Hh ltac:(lia)) as (Er & Eb & Fr & Hq0). rewrite (rank_empty qf runs R) in Hroom by lia. unfold insert.
  destruct (Z.lt_ge_cases (hash_bucket qf hash) (run_stop (run_len runs) (hash_bucket qf hash))) as [Hu|Hu].
  { apply (insert_used 1 qf runs m hash cnt flags N); auto. }
  (* the home slot is empty *)
  rewrite insert_rec_S, Er, Eb. cbv zeta.
  set (q := hash_bucket qf hash) in *. set (h := hash_rem qf hash) in *.
  destruct (lock_unlock qf q false flags Hq0 Hl) as (qf0 & -> & M0 & B0 & L0 & U). cbn [negb].
  assert (Eb0 : bps qf0 = bps qf) by (unfold bps; now rewrite M0).
  assert (R0 : repr qf0 runs) by (apply (repr_blocks qf); auto; now rewrite M0).
  destruct (free_empty_home qf0 runs R0 q ltac:(rewrite M0; lia) Hu) as [-> ->].
  destruct (insert1_empty_slot qf0 runs q h R0 ltac:(rewrite M0; lia) ltac:(rewrite Eb0; exact Fr) Hu) as [Nq R1].
  set (qf1 := set_bit (set_slot (set_bit qf0 RUN q) q h) OCC q) in *.
  pose proof (Hm q Hq0) as Hmq. rewrite Nq in Hmq. apply run_code_nil in Hmq.
  assert (Ec : count_of qf m hash = 0) by (unfold count_of; fold q h; now rewrite Hmq). rewrite Ec in *. cbn [Z.eqb].
  rewrite (modify_metadata_bump qf1) by (change (metadata_lock (runtimedata qf0) = 0); congruence).
  rewrite modify_metadata_bump by (change (metadata_lock (runtimedata qf0) = 0); congruence).
  rewrite modify_metadata_bump by (change (metadata_lock (runtimedata qf0) = 0); congruence).
  set (qf2 := bump (bump (bump qf1 Ndistinct 1) Noccupied 1) Nelts 1).
  assert (R2 : repr qf2 (upd runs q [h])) by (now repeat apply repr_bump).
  assert (M2 : bps qf2 = bps qf /\ nblocks (metadata qf2) = nblocks (metadata qf) /\ xnslots (metadata qf2) = xnslots (metadata qf) /\ runtimedata qf2 = runtimedata qf0
    /\ nelts (metadata qf2) = (nelts (metadata qf) + 1)%u64 /\ ndistinct_elts (metadata qf2) = (ndistinct_elts (metadata qf) + 1)%u64
    /\ set_counters (metadata qf2) 0 0 0 = set_counters (metadata qf) 0 0 0).
  { unfold qf2, qf1, bps, bump. cbn. rewrite M0. repeat split; reflexivity. }
  destruct M2 as (Eb2 & Enb2 & Ex2 & T2 & Ne2 & Nd2 & S2).
  assert (Hm2 : forall p, 0 <= p -> run_code (bps qf2) (add_hash qf m hash 1 p) (upd runs q [h] p)).
  { rewrite Eb2. unfold add_hash. fold q h. intros p Hp. unfold upd. destruct (Z.eqb_spec p q) as [->|]; [|now apply Hm]. rewrite Hmq. cbn [add_item]. apply run_code_one; [exact Fr|lia|constructor]. }
  destruct (Z.ltb_spec 1 cnt) as [L|L].
  - assert (HqN : q < N).
    { destruct (Z.lt_ge_cases q N); [assumption|]. unfold free_below in Hroom. rewrite rank_nil in Hroom by lia. lia. }
    destruct (free_below_placed runs q h N ltac:(lia) Hu) as (Fb & Hu2 & St).
    assert (Eq2 : hash_bucket qf2 hash = q /\ hash_rem qf2 hash = h) by (unfold hash_bucket, hash_rem; rewrite Eb2; auto). destruct Eq2 as [Eq2 Eh2].
    assert (Ec2 : count_of qf2 (add_hash qf m hash 1) hash = 1).
    { unfold count_of, add_hash. rewrite Eq2, Eh2. fold q h. rewrite upd_same, Hmq. cbn [add_item lookup_item]. now rewrite Z.eqb_refl. }
    assert (Es : (cnt - 1)%u64 = (cnt - 1)%Z) by (apply sub64_small; lia). rewrite Es.
    destruct (insert_used 0 qf2 (upd runs q [h]) (add_hash qf m hash 1) hash (cnt - 1) QF_NO_LOCK N R2 Hm2) as (d & qf3 & -> & (runs3 & R3 & Hm3) & I3);
      rewrite ?Eq2, ?Eh2, ?Ec2, ?Enb2, ?Ex2, ?T2, ?upd_same; auto; try lia.
    { left. reflexivity. }
    { intros b Hb. assert (B : 0 <= b < nblocks (metadata qf) /\ q <= 64 * b - 1) by (clear - Hb Hq0; clearbody q; pose proof (Z.div_mod q 64); pose proof (Z.mod_pos_bound q 64); lia). specialize (Hoffs b Hb).
      rewrite (repr_offset qf2 _ R2) by (now rewrite Enb2). rewrite (repr_offset qf runs R) in Hoffs by apply B. rewrite St by apply B. clear - B Hoffs. lia. }
    { right. split; [reflexivity|]. rewrite Fb. lia. }
    rewrite Ec2 in I3. cbn [Z.eqb] in I3. rewrite U by (rewrite (ins_runtime _ _ _ _ I3); exact T2). do 2 eexists. split; [reflexivity|].
    split; [|apply (inserted_again qf qf2); auto; apply (ins_runtime _ _ _ _ I3)].
    exists runs3. split; [apply (repr_blocks qf3); auto|]. intros p Hp. specialize (Hm3 p Hp). change (bps (mk_QF _ (metadata qf3) _)) with (bps qf3).
    replace (add_hash qf m hash cnt p) with (add_hash qf2 (add_hash qf m hash 1) hash (cnt - 1) p); [exact Hm3|].
    unfold add_hash. rewrite Eq2, Eh2. fold q h. unfold upd. rewrite Z.eqb_refl. destruct (p =? q); [|reflexivity]. rewrite Hmq. cbn [add_item]. rewrite Z.ltb_irrefl, Z.eqb_refl. do 2 f_equal. lia.
  - assert (cnt = 1) as -> by lia. rewrite U by exact T2. do 2 eexists. split; [reflexivity|]. split.
    + exists (upd runs q [h]). split; [apply (repr_blocks qf2); auto|]. exact Hm2.
    + split; cbn [runtimedata metadata]; auto.
Qed.

(** C5: [insert] adds [cnt] copies.  On a filter of at least three bits a slot that stores
    the contents [m], with the 28 empty slots the longest counter takes and its locks free
    (or not asked for), [insert] returns; the new filter stores [m] with the count of this
    hash [cnt] higher and every other count as before.  The number of elements goes up by
    [cnt] if this is less than 2^31 (it passes through an [int]), the number of distinct
    elements by one if the hash is new; the locks are given back and the rest of the
    metadata is kept. *)
Theorem insert_refines qf m hash cnt flags :
  holds qf m -> 3 <= bps qf -> metadata_lock (runtimedata qf) = 0 -> lockable qf (hash_bucket qf hash) false flags ->
  0 <= hash -> hash_bucket qf hash < 64 * nblocks (metadata qf) -> has_slots qf (hash_bucket qf hash) 28 ->
  1 <= cnt -> count_of qf m hash + cnt < 2 ^ 64 ->
  exists d qf', insert qf hash cnt flags = Some (d, qf')
    /\ holds qf' (add_hash qf m hash cnt)
    /\ (forall x, 0 <= x -> count_of qf (add_hash qf m hash cnt) x = count_of qf m x + (if x =? hash then cnt else 0))
    /\ inserted qf (count_of qf m hash =? 0) cnt qf'.
Proof.
  intros H Hw Hm Hl Hh Hb Hr Hc Hcc. destruct (insert_spec qf m hash cnt flags) as (d & qf' & E & H' & I); auto.
  exists d, qf'. split; [exact E|]. split; [exact H'|]. split; [|exact I]. intros x Hx. now apply count_add_hash.
Qed.

Lemma insert_refines_witness :
  exists d qf', insert demo3 0x305 1000 QF_WAIT_FOR_LOCK = Some (d, qf')
    /\ holds qf' (add_hash demo3 demo_items 0x305 1000)
    /\ (forall x, 0 <= x -> count_of demo3 (add_hash demo3 demo_items 0x305 1000) x
                           = count_of demo3 demo_items x + (if x =? 0x305 then 1000 else 0))
    /\ inserted demo3 false 1000 qf'.
Proof.
  apply (insert_refines demo3 demo_items 0x305 1000 QF_WAIT_FOR_LOCK demo3_holds).
  - vm_compute. discriminate.
  - reflexivity.
  - right. change (locks (runtimedata demo3)) with [0; 0]. split; [repeat constructor; auto|].
    change (lock_plan _ false) with [0%nat; 1%nat]. repeat constructor.
  - discriminate.
  - reflexivity.
  - split.
    + exists 82. split; [vm_compute; discriminate|]. split; [vm_compute; discriminate|]. vm_compute. discriminate.
    + change (nblocks (metadata demo3)) with 2. change (hash_bucket demo3 0x305 / 64) with 0. intros b Hb. replace b with 1 by lia. reflexivity.
  - lia.
  - reflexivity.
Defined.
