(* ===== verification/FilterHistory.v ===== *)
(** * Histories of insertions and removals

    A filter that has seen insertions of one copy, insertions of many copies and removals,
    in any order, answers every count query with the number the history implies.  When the
    hashes are spread evenly enough over the buckets, every insertion finds room: no window
    of buckets [p .. q] is the home of more than [q - p + D] hashes, for a displacement [D]
    that the slots past the last home bucket and the 16-bit offsets can take. *)

From S2P Require Import Prelude BitSeq RankSelect Hashutil Blocks BlockBits Shifting Layout Locks CounterCode Runs Insert Remove Repr InsertSlot InsertPlace InsertOne Iterator Filter FilterTheorems ShiftBack RemoveRun RemoveTheorems InsertRun InsertTheorems.
Import ListNotations.
#[local] Open Scope Z_scope.

(** * Sequences of insertions *)

(** ** The length of a run *)

Lemma digits_value_lower b r ds : 2 <= b -> 0 <= r -> Forall (is_digit b r) ds -> forall c, 1 <= c ->
  c + Z.of_nat (length ds) <= digits_value b r ds c.
Proof.
  intros Hb Hr. unfold digits_value. induction 1 as [|d ds Hd _ IH]; intros c Hc; cbn [fold_left length]; [lia|].
  destruct (is_digit_facts b r d Hr Hd) as (_ & _ & V & _).
  specialize (IH (c * b + digit_value r d) ltac:(nia)). nia.
Qed.

(** As many digits as the value of a number with a non-zero leading digit. *)
Lemma digits_length b r d ds :
  2 <= b -> 0 <= r -> Forall (is_digit b r) (d :: ds) -> 0 < digit_value r d ->
  Z.of_nat (length (d :: ds)) <= digits_value b r (d :: ds) 0.
Proof.
  intros Hb Hr HF Hd. inversion HF; subst.
  pose proof (digits_value_lower b r ds Hb Hr ltac:(assumption) (digit_value r d) ltac:(lia)) as P.
  unfold digits_value in *. cbn [fold_left length]. rewrite Z.mul_0_l, Z.add_0_l. lia.
Qed.

(** A counter takes no more slots than it counts. *)
Lemma code_short w r c l : 2 <= w <= 56 -> fits w r -> code w r c l -> Z.of_nat (length l) <= c.
Proof.
  intros Hw [Hr0 Hr] H. pose proof (width_facts w Hw).
  destruct H as [| | | |c d ds N0 _ HF V Hc Hd|c d ds N0 _ HF V Hc Hd|c d ds N0 HF V Hc Hd]; cbn [length]; try lia.
  - pose proof (digits_length (2 ^ w - 2) r d ds ltac:(lia) ltac:(lia) HF Hd). rewrite length_app. cbn [length] in *. lia.
  - pose proof (digits_length (2 ^ w - 2) r d ds ltac:(lia) ltac:(lia) HF Hd).
    rewrite length_app. cbn [length] in *. lia.
  - rewrite length_app. cbn [length]. destruct ds as [|d1 ds]; [cbn [length]; lia|].
    pose proof (digits_length (2 ^ w - 1) 0 d (d1 :: ds) ltac:(lia) ltac:(lia) HF (Hd ltac:(discriminate))).
    cbn [length] in *. lia.
Qed.

Definition total (m : items) : Z := fold_right (fun p s => snd p + s) 0 m.

Lemma run_short w m l : 2 <= w <= 56 -> run_code w m l -> Z.of_nat (length l) <= total m.
Proof.
  intros Hw. induction 1 as [|r c m l l' Hr Hc Hl HF _ IH]; [cbn; lia|].
  pose proof (code_short w r c l Hw Hr Hl). rewrite length_app. cbn [total fold_right snd] in *. unfold total in *. lia.
Qed.

(** ** Windows of buckets *)

(** How many of the buckets [bs] lie in [p .. q]. *)
Definition window (bs : list Z) (p q : Z) : Z :=
  Z.of_nat (length (filter (fun b => (p <=? b) && (b <=? q)) bs)).

Lemma window_nil p q : window [] p q = 0.
Proof. reflexivity. Qed.

Lemma window_cons b bs p q : window (b :: bs) p q = (if (p <=? b) && (b <=? q) then 1 else 0) + window bs p q.
Proof. unfold window. cbn [filter]. destruct (_ && _); cbn [length]; lia. Qed.

Lemma window_app bs bs' p q : window (bs ++ bs') p q = window bs p q + window bs' p q.
Proof. unfold window. rewrite filter_app, length_app. lia. Qed.

Lemma window_nonneg bs p q : 0 <= window bs p q.
Proof. unfold window. lia. Qed.

Lemma window_split bs p q : p < q -> window bs p q = window bs p (q - 1) + window bs q q.
Proof.
  intros H. induction bs as [|b bs IH]; [reflexivity|]. rewrite !window_cons, IH. split_cmps; lia.
Qed.

Lemma window_none bs p q : Forall (fun b => b < p) bs -> window bs p q = 0.
Proof.
  intros H. induction H as [|b bs Hb _ IH]; [reflexivity|]. rewrite window_cons, IH. split_cmps; lia.
Qed.

(** Where the runs end, when each is no longer than its number of hashes. *)
Lemma run_stop_window len bs : (forall i, 0 <= i -> 0 <= len i <= window bs i i) -> forall q, 0 <= q ->
  run_stop len q = 0 \/ exists p, 0 <= p <= q /\ run_stop len q <= p + window bs p q.
Proof.
  intros Hl q Hq. pattern q. apply natlike_ind; [| |exact Hq]; clear q Hq.
  - specialize (Hl 0 ltac:(lia)). destruct (Z.eq_dec (len 0) 0) as [E|E].
    + left. rewrite run_stop_empty by exact E. now rewrite run_stop_neg by lia.
    + right. exists 0. rewrite run_stop_full by lia. unfold run_start. rewrite run_stop_neg by lia. lia.
  - intros q Hq IH. specialize (Hl (Z.succ q) ltac:(lia)). replace (Z.succ q) with (q + 1) in * by lia.
    destruct (Z.eq_dec (len (q + 1)) 0) as [E|E].
    + rewrite run_stop_empty by exact E. replace (q + 1 - 1) with q by lia. destruct IH as [IH|(p & Hp & IH)]; [now left|].
      right. exists p. split; [lia|]. rewrite (window_split bs p (q + 1)) by lia. replace (q + 1 - 1) with q by lia.
      pose proof (window_nonneg bs (q + 1) (q + 1)). lia.
    + right. rewrite run_stop_full by lia. unfold run_start. replace (q + 1 - 1) with q by lia.
      destruct (Z.max_spec (q + 1) (run_stop len q)) as [[_ ->]|[_ ->]].
      * destruct IH as [->|(p & Hp & IH)]; [exists (q + 1); lia|]. exists p. split; [lia|].
        rewrite (window_split bs p (q + 1)) by lia. replace (q + 1 - 1) with q by lia. lia.
      * exists (q + 1). lia.
Qed.

(** [bs] is spread evenly: windows overflow by [D] hashes at most. *)
Definition spread (bs : list Z) (D : Z) : Prop := forall p q, 0 <= p <= q -> window bs p q <= q - p + D.

Lemma spread_prefix bs bs' D : spread (bs ++ bs') D -> spread bs D.
Proof. intros H p q Hq. specialize (H p q Hq). rewrite window_app in H. pose proof (window_nonneg bs' p q). lia. Qed.

Lemma run_stop_spread len bs D : (forall i, 0 <= i -> 0 <= len i <= window bs i i) -> spread bs D -> 0 <= D ->
  forall q, 0 <= q -> run_stop len q <= q + D.
Proof.
  intros Hl Hs HD q Hq. destruct (run_stop_window len bs Hl q Hq) as [->|(p & Hp & H)]; [lia|].
  specialize (Hs p q Hp). lia.
Qed.

(** ** Room *)

(** The last home bucket, or [q] if that is further. *)
Lemma last_bucket bs q L : q < L -> (forall b, In b bs -> b < L) -> exists B, q <= B < L /\ forall b, In b bs -> b <= B.
Proof.
  intros HqD Hb. exists (fold_right Z.max q bs). induction bs as [|b bs IH]; cbn [fold_right]; [split; [lia|intros b []]|].
  destruct IH as (I1 & I2); [intros c Hc; apply Hb; now right|]. specialize (Hb b (or_introl eq_refl)).
  split; [lia|]. intros c [<-|Hc]; [lia|]. specialize (I2 c Hc). lia.
Qed.

(** Behind it every slot is empty. *)
Lemma free_behind len bs D B : (forall i, 0 <= i -> 0 <= len i <= window bs i i) -> spread bs D -> 0 <= D -> 0 <= B ->
  (forall b, In b bs -> b <= B) -> forall x, B + D <= x -> run_stop len x <= x.
Proof.
  intros Hl Hs HD HB Hb x Hx.
  assert (E : forall n, run_stop len (B + Z.of_nat n) = run_stop len B).
  { induction n as [|n IH]; [f_equal; lia|]. rewrite run_stop_empty.
    - replace (B + Z.of_nat (S n) - 1) with (B + Z.of_nat n) by lia. exact IH.
    - specialize (Hl (B + Z.of_nat (S n)) ltac:(lia)). rewrite window_none in Hl; [lia|]. apply Forall_forall. intros b Hin.
      specialize (Hb b Hin). lia. }
  specialize (E (Z.to_nat (x - B))). replace (B + Z.of_nat (Z.to_nat (x - B))) with x in E by lia. rewrite E.
  pose proof (run_stop_spread _ _ _ Hl Hs HD B HB). lia.
Qed.

Lemma offset_spread qf runs bs D b : repr qf runs -> (forall i, 0 <= i -> 0 <= run_len runs i <= window bs i i) -> spread bs D -> 0 <= D ->
  0 <= b < nblocks (metadata qf) -> get_offset qf b <= Z.max 0 (D - 1).
Proof.
  intros R Hl Hs HD Hbl. rewrite (repr_offset qf runs R) by exact Hbl.
  destruct (Z.eq_dec b 0) as [->|]; [rewrite run_stop_neg by lia; lia|].
  pose proof (run_stop_spread _ _ _ Hl Hs HD (64 * b - 1) ltac:(lia)). lia.
Qed.

Lemma has_room_spread qf runs bs D q :
  repr qf runs -> (forall i, 0 <= i -> 0 <= run_len runs i <= window bs i i) -> spread bs D -> 0 <= D <= 65535 ->
  0 <= q -> (forall b, In b bs -> b + D < 64 * nblocks (metadata qf)) -> q + D < 64 * nblocks (metadata qf) ->
  has_room qf q.
Proof.
  intros R Hl Hs HD Hq Hb HqD. split.
  - destruct (last_bucket bs q (64 * nblocks (metadata qf) - D)) as (B & HB & Hlast); [lia|intros b Hin; specialize (Hb b Hin); lia|].
    exists (B + D). split; [lia|]. rewrite (repr_is_empty qf runs R) by lia. apply Z.leb_le.
    apply (free_behind _ bs D B); auto; lia.
  - intros b Hbl. pose proof (offset_spread qf runs bs D b R Hl Hs ltac:(lia) Hbl). lia.
Qed.

(** ** Inserting a list of hashes *)

Fixpoint insert_hashes (qf : QF) (hs : list Z) (flags : Z) : option QF :=
  match hs with
  | [] => Some qf
  | h :: hs => let? (_, qf) := insert1 qf h flags in insert_hashes qf hs flags
  end.

Lemma total_add_item r c m : total (add_item r c m) = total m + c.
Proof.
  induction m as [|[r' c'] m IH]; cbn [add_item total fold_right snd]; [lia|]. unfold total in *.
  destruct (r <? r'), (r =? r'); cbn [fold_right snd] in *; lia.
Qed.

Lemma run_code_total w m l r : run_code w m l -> 0 <= lookup_item r m <= total m.
Proof.
  induction 1 as [|r0 c m l l' _ Hc _ _ _ IH]; cbn [lookup_item total fold_right snd]; [lia|]. unfold total in *.
  destruct (r =? r0); lia.
Qed.

(** What an insertion does not change. *)
Lemma inserted1_header qf m hash grew ret qf' :
  inserted1 qf m hash grew ret qf' -> bps qf' = bps qf /\ nblocks (metadata qf') = nblocks (metadata qf).
Proof.
  intros I. pose proof (in_rest _ _ _ _ _ _ I) as E.
  split; [exact (f_equal bits_per_slot E)|exact (f_equal nblocks E)].
Qed.

Lemma same_bucket qf qf' h : bps qf' = bps qf -> hash_bucket qf' h = hash_bucket qf h /\ hash_rem qf' h = hash_rem qf h.
Proof. intros E. unfold hash_bucket, hash_rem. now rewrite E. Qed.

Definition occurrences (hs : list Z) (h : Z) : Z := Z.of_nat (count_occ Z.eq_dec hs h).

Lemma occurrences_cons h hs x : occurrences (h :: hs) x = (if x =? h then 1 else 0) + occurrences hs x.
Proof.
  unfold occurrences. cbn [count_occ]. destruct (Z.eq_dec h x), (Z.eqb_spec x h); congruence || lia.
Qed.

(** The state between insertions: [bs] are the buckets of the hashes inserted so far. *)
Record counted (qf : QF) (m : Z -> items) (bs : list Z) : Prop := {
  cn_holds : holds qf m;
  cn_width : 2 <= bps qf;
  cn_lock : metadata_lock (runtimedata qf) = 0;
  cn_total q : 0 <= q -> total (m q) = window bs q q;
}.

Lemma counted_step qf m bs h flags D :
  counted qf m bs -> spread (bs ++ [hash_bucket qf h]) D -> 0 <= D <= 65535 ->
  0 <= h -> lockable qf (hash_bucket qf h) true flags ->
  (forall b, In b bs -> b + D < 64 * nblocks (metadata qf)) -> hash_bucket qf h + D < 64 * nblocks (metadata qf) ->
  Z.of_nat (length bs) + 1 < 2 ^ 64 ->
  exists ret grew qf', insert1 qf h flags = Some (ret, qf')
    /\ counted qf' (add_hash qf m h 1) (bs ++ [hash_bucket qf h])
    /\ inserted1 qf m h grew ret qf'.
Proof.
  intros [H Hw Hlock Ht] Hs HD Hh Hl Hb Hq Hlen. pose proof H as (runs & R & Hm).
  pose proof (repr_width _ _ R) as W. unfold width_ok in W.
  assert (B0 : 0 <= hash_bucket qf h) by (apply Z.div_pos; [lia|apply Z.pow_pos_nonneg; lia]).
  assert (Hr : has_room qf (hash_bucket qf h)).
  { apply (has_room_spread qf runs bs D); auto; [|exact (spread_prefix _ _ _ Hs)].
    intros i Hi. unfold run_len. pose proof (run_short (bps qf) (m i) (runs i) ltac:(lia) (Hm i Hi)). rewrite <- Ht by exact Hi. lia. }
  assert (Hc : count_of qf m h + 1 < 2 ^ 64).
  { unfold count_of. pose proof (run_code_total _ _ _ (hash_rem qf h) (Hm _ B0)) as T. rewrite Ht in T by exact B0.
    unfold window in T. pose proof (filter_length_le (fun b => (hash_bucket qf h <=? b) && (b <=? hash_bucket qf h)) bs). lia. }
  destruct (insert1_spec qf m h flags) as (ret & grew & qf' & E & H' & I); auto; [lia|].
  exists ret, grew, qf'. split; [exact E|]. split; [|exact I]. destruct (inserted1_header _ _ _ _ _ _ I) as [Ew _]. split.
  - exact H'.
  - now rewrite Ew.
  - now rewrite (in_runtime _ _ _ _ _ _ I).
  - intros q Hq0. rewrite window_app, window_cons, window_nil, <- Ht by exact Hq0. unfold add_hash, upd.
    destruct (Z.eqb_spec q (hash_bucket qf h)) as [->|N]; [rewrite total_add_item|]; split_cmps; lia.
Qed.

Lemma insert_hashes_spec flags D : 0 <= D <= 65535 -> forall hs qf m bs,
  counted qf m bs -> spread (bs ++ map (hash_bucket qf) hs) D ->
  (forall b, In b bs -> b + D < 64 * nblocks (metadata qf)) ->
  (forall h, In h hs -> 0 <= h /\ lockable qf (hash_bucket qf h) true flags /\ hash_bucket qf h + D < 64 * nblocks (metadata qf)) ->
  Z.of_nat (length bs + length hs) < 2 ^ 64 ->
  exists m' qf', insert_hashes qf hs flags = Some qf' /\ counted qf' m' (bs ++ map (hash_bucket qf) hs)
    /\ bps qf' = bps qf /\ nblocks (metadata qf') = nblocks (metadata qf)
    /\ nelts (metadata qf') mod 2 ^ 64 = (nelts (metadata qf) + Z.of_nat (length hs)) mod 2 ^ 64
    /\ (forall x, 0 <= x -> count_of qf m' x = count_of qf m x + occurrences hs x).
Proof.
  intros HD. induction hs as [|h hs IH]; intros qf m bs Hc Hs Hb Hh Hlen; cbn [insert_hashes map].
  - exists m, qf. rewrite app_nil_r, Z.add_0_r. repeat split; auto; try apply Hc. intros x _. unfold occurrences. cbn. lia.
  - destruct (Hh h (or_introl eq_refl)) as (H0 & Hl & HbD). cbn [map length] in *.
    replace (bs ++ hash_bucket qf h :: map (hash_bucket qf) hs)
      with ((bs ++ [hash_bucket qf h]) ++ map (hash_bucket qf) hs) in * by (now rewrite <- app_assoc).
    destruct (counted_step qf m bs h flags D Hc) as (ret & grew & qf1 & -> & C1 & I); auto; try lia;
      [exact (spread_prefix _ _ _ Hs)|].
    destruct (inserted1_header _ _ _ _ _ _ I) as [Ew En].
    assert (Em : map (hash_bucket qf1) hs = map (hash_bucket qf) hs) by (apply map_ext; intros x; apply same_bucket, Ew).
    destruct (IH qf1 _ _ C1) as (m' & qf' & -> & C' & Ew' & En' & Ee & Ec); try rewrite Em; auto.
    + rewrite En. intros b Hin. apply in_app_iff in Hin as [Hin|[<-|[]]]; auto.
    + intros x Hin. destruct (Hh x (or_intror Hin)) as (X0 & Xl & XD). rewrite En.
      destruct (same_bucket qf qf1 x Ew) as [-> _]. repeat split; auto.
      unfold lockable in *. now rewrite (in_runtime _ _ _ _ _ _ I).
    + rewrite length_app. cbn [length]. lia.
    + exists m', qf'. rewrite Em in C'. split; [reflexivity|]. split; [exact C'|]. split; [congruence|]. split; [congruence|]. split.
      * rewrite Ee, (in_nelts _ _ _ _ _ _ I). unfold add64, u64, uwrap. rewrite Zplus_mod_idemp_l. f_equal. lia.
      * intros x Hx. rewrite occurrences_cons.
        assert (Ex : forall m0, count_of qf1 m0 x = count_of qf m0 x).
        { intros m0. unfold count_of. destruct (same_bucket qf qf1 x Ew) as [-> ->]. reflexivity. }
        specialize (Ec x Hx). rewrite !Ex in Ec. rewrite Ec, count_add_hash by (auto; apply Hc). lia.
Qed.

(** the filter counts.  Inserting a list of hashes one by one into a new filter
    succeeds when their buckets are spread with a displacement [D] that fits behind the
    last home bucket and in an offset, and afterwards a query for any key returns how
    often its hash is in the list; the number of elements is the length of the list. *)
Theorem filter_counts_hashes qf0 nslots key_bits value_bits mode seed ok qf hs flags D :
  qf_malloc true qf0 nslots key_bits value_bits mode seed = Some (ok, qf) ->
  2 <= bps qf <= 56 -> 0 <= 64 * nblocks (metadata qf) < 2 ^ 62 -> 0 <= D <= 65535 ->
  spread (map (hash_bucket qf) hs) D ->
  (forall h, In h hs -> 0 <= h /\ lockable qf (hash_bucket qf h) true flags /\ hash_bucket qf h + D < 64 * nblocks (metadata qf)) ->
  Z.of_nat (length hs) < 2 ^ 64 ->
  exists qf', insert_hashes qf hs flags = Some qf'
    /\ nelts (metadata qf') mod 2 ^ 64 = Z.of_nat (length hs)
    /\ forall key value kflags, let h := hash_of qf' (hash_of_key qf' key kflags) value in
         0 <= h -> hash_bucket qf' h < 64 * nblocks (metadata qf') ->
         qf_count_key_value qf' key value kflags = Some (occurrences hs h).
Proof.
  intros E Hw Hn HD Hs Hh Hlen. destruct (malloc_spec _ _ _ _ _ _ _ _ E ltac:(lia) Hn) as (_ & H0 & N0 & _ & _ & L0 & _).
  assert (C0 : counted qf (fun _ => []) []) by (split; [exact H0|lia|exact L0|reflexivity]).
  destruct (insert_hashes_spec flags D HD hs qf _ [] C0) as (m & qf' & E' & C' & Ew & En & Ee & Ec); try solve [auto | intros b []].
  exists qf'. split; [exact E'|]. rewrite N0, Z.add_0_l, (Z.mod_small (Z.of_nat _)) in Ee by lia. split; [exact Ee|].
  intros key value kflags h Hh0 Hb. transitivity (Some (count_of qf' m h)).
  - unfold h. apply count_key_value_spec; [apply C'|apply C'|exact Hh0|exact Hb].
  - clearbody h. f_equal. specialize (Ec h Hh0). unfold count_of in Ec |- *.
    destruct (same_bucket qf qf' h Ew) as [-> ->]. rewrite Ec. reflexivity.
Qed.

(** Four hashes, three of them in one bucket. *)
Definition four_hashes : list Z := [0x305; 0x409; 0x305; 0x302].

Lemma four_spread : spread [3; 4; 3; 3] 3.
Proof.
  intros p q H. rewrite !window_cons, window_nil. split_cmps; lia.
Qed.

Lemma filter_counts_hashes_witness :
  exists ok qf qf', qf_malloc true blank_QF 64 14 0 QF_HASH_NONE 0 = Some (ok, qf)
    /\ insert_hashes qf four_hashes QF_NO_LOCK = Some qf'
    /\ nelts (metadata qf') mod 2 ^ 64 = 4
    /\ qf_count_key_value qf' 0x305 0 QF_KEY_IS_HASH = Some 2.
Proof.
  destruct (qf_malloc true blank_QF 64 14 0 QF_HASH_NONE 0) as [[ok qf]|] eqn:E; [|vm_compute in E; discriminate].
  assert (B : bps qf = 8 /\ nblocks (metadata qf) = 3) by (vm_compute in E; injection E as <- <-; split; reflexivity).
  destruct B as [Bw Bn].
  destruct (filter_counts_hashes blank_QF 64 14 0 QF_HASH_NONE 0 ok qf four_hashes QF_NO_LOCK 3 E) as (qf' & E' & N & Q).
  - lia.
  - lia.
  - lia.
  - unfold four_hashes, hash_bucket. cbn [map]. rewrite Bw. exact four_spread.
  - intros h Hh. unfold hash_bucket. rewrite Bw, Bn. split; [|split; [left; reflexivity|]]; repeat destruct Hh as [<-|Hh]; try destruct Hh; vm_compute; (reflexivity || discriminate).
  - cbn. lia.
  - exists ok, qf, qf'. repeat (split; [auto|]).
    assert (F : hash_of qf' (hash_of_key qf' 0x305 QF_KEY_IS_HASH) 0 = 0x305 /\ hash_bucket qf' 0x305 < 64 * nblocks (metadata qf')).
    { vm_compute in E. injection E as <- <-. vm_compute in E'. injection E' as <-. split; vm_compute; reflexivity. }
    destruct F as [F1 F2]. specialize (Q 0x305 0 QF_KEY_IS_HASH). cbv zeta in Q. rewrite F1 in Q.
    rewrite Q by (lia || exact F2). reflexivity.
Defined.

(** * Histories of insertions and removals *)

(** ** Histories *)

Inductive filter_op :=
| Insert1 (hash : Z)
| InsertN (hash count : Z)
| Remove (hash count : Z).

Definition run_op (qf : QF) (op : filter_op) (flags : Z) : option (Z * QF) :=
  match op with
  | Insert1 h => insert1 qf h flags
  | InsertN h k => insert qf h k flags
  | Remove h k => remove qf h k flags
  end.

Fixpoint run_ops (qf : QF) (ops : list filter_op) (flags : Z) : option QF :=
  match ops with
  | [] => Some qf
  | op :: ops => let? (_, qf) := run_op qf op flags in run_ops qf ops flags
  end.

(** The counts a history implies, from the counts [c] on. *)
Definition count_after (c : Z -> Z) (op : filter_op) : Z -> Z :=
  match op with
  | Insert1 h => upd c h (c h + 1)
  | InsertN h k => upd c h (c h + k)
  | Remove h k => upd c h (Z.max 0 (c h - k))
  end.

Definition counts_after (c : Z -> Z) (ops : list filter_op) : Z -> Z := fold_left count_after ops c.

Definition op_hash (op : filter_op) : Z := match op with Insert1 h | InsertN h _ | Remove h _ => h end.
Definition op_small (op : filter_op) : bool := match op with Insert1 _ => true | _ => false end.

(** How many copies an operation inserts. *)
Definition op_copies (op : filter_op) : Z := match op with Insert1 _ => 1 | InsertN _ k => k | Remove _ _ => 0 end.
Definition copies (ops : list filter_op) : Z := fold_right (fun op n => op_copies op + n) 0 ops.

(** The hashes that are inserted, once for each slot the insertion may take: a counter
    takes no more slots than it counts copies, and no more than 28. *)
Definition op_slots (op : filter_op) : list Z :=
  match op with
  | Insert1 h => [h]
  | InsertN h k => repeat h (Z.to_nat (Z.min k 28))
  | Remove _ _ => []
  end.
Definition inserts (ops : list filter_op) : list Z := flat_map op_slots ops.

(** Every removal finds its hash. *)
Fixpoint removals_find (c : Z -> Z) (ops : list filter_op) : Prop :=
  match ops with
  | [] => True
  | op :: ops => match op with Remove h _ => c h <> 0 | _ => True end /\ removals_find (count_after c op) ops
  end.

(** ** The slots of a counter *)

Definition slot_cost (w c : Z) : Z := if w <? 3 then c else Z.min c 28.
Definition slots_bound (w : Z) (m : items) : Z := fold_right (fun p s => slot_cost w (snd p) + s) 0 m.

Lemma code_cost w r c l : 2 <= w <= 56 -> fits w r -> 1 <= c < 2 ^ 64 -> code w r c l -> Z.of_nat (length l) <= slot_cost w c.
Proof.
  intros Hw Hr Hc H. pose proof (code_short w r c l Hw Hr H). unfold slot_cost. destruct (Z.ltb_spec w 3); [assumption|].
  pose proof (code_size w r c l ltac:(lia) (proj1 Hr) Hc H). lia.
Qed.

Lemma run_cost w m l : 2 <= w <= 56 -> run_code w m l -> Z.of_nat (length l) <= slots_bound w m.
Proof.
  intros Hw. induction 1 as [|r c m l l' Hr Hc Hl HF _ IH]; [cbn; lia|].
  pose proof (code_cost w r c l Hw Hr Hc Hl). rewrite length_app. cbn [slots_bound fold_right snd] in *. unfold slots_bound in *. lia.
Qed.

Lemma slots_bound_add w r c m : Forall (fun p => 0 <= snd p) m -> 0 <= c -> slots_bound w (add_item r c m) <= slots_bound w m + slot_cost w c.
Proof.
  intros H Hc. induction H as [|[r' d] m Hd _ IH]; cbn [add_item slots_bound fold_right snd]; [lia|]. unfold slots_bound in *. cbn in Hd.
  assert (slot_cost w (d + c) <= slot_cost w d + slot_cost w c) by (unfold slot_cost; destruct (w <? 3); lia).
  destruct (r <? r'), (r =? r'); cbn [fold_right snd] in *; lia.
Qed.

Lemma slots_bound_remove w r k m : Forall (fun p => 0 <= snd p) m -> 0 <= k -> slots_bound w (remove_item r k m) <= slots_bound w m.
Proof.
  intros H Hk. induction H as [|[r' c] m Hc _ IH]; cbn [remove_item slots_bound fold_right snd]; [lia|]. unfold slots_bound in *. cbn in Hc.
  assert (0 <= slot_cost w c /\ (k < c -> slot_cost w (c - k) <= slot_cost w c)) by (unfold slot_cost; destruct (w <? 3); lia).
  destruct (r =? r'); [destruct (Z.leb_spec c k)|]; cbn [fold_right snd]; lia.
Qed.

Lemma run_code_counts w m l : run_code w m l -> Forall (fun p => 0 <= snd p) m.
Proof. induction 1; constructor; cbn; auto; lia. Qed.

(** ** The state in between *)

(** [bs] are the buckets of the slots inserted so far, [c] the counts, [T] a bound of them. *)
Record recorded (qf : QF) (m : Z -> items) (bs : list Z) (c : Z -> Z) (T : Z) : Prop := {
  rc_holds : holds qf m;
  rc_width : 2 <= bps qf;
  rc_lock : metadata_lock (runtimedata qf) = 0;
  rc_slots q : 0 <= q -> slots_bound (bps qf) (m q) <= window bs q q;
  rc_counts h : 0 <= h -> count_of qf m h = c h;
  rc_most h : 0 <= h -> c h <= T;
}.

(** What an operation leaves alone. *)
Definition same_frame (qf' qf : QF) : Prop :=
  set_counters (metadata qf') 0 0 0 = set_counters (metadata qf) 0 0 0 /\ runtimedata qf' = runtimedata qf.

Lemma same_frame_fields qf' qf : same_frame qf' qf ->
  bps qf' = bps qf /\ nblocks (metadata qf') = nblocks (metadata qf) /\ xnslots (metadata qf') = xnslots (metadata qf).
Proof. intros [E _]. exact (conj (f_equal bits_per_slot E) (conj (f_equal nblocks E) (f_equal xnslots E))). Qed.

Lemma recorded_runs qf m bs c T runs : recorded qf m bs c T -> repr qf runs -> (forall q, 0 <= q -> run_code (bps qf) (m q) (runs q)) ->
  forall i, 0 <= i -> 0 <= run_len runs i <= window bs i i.
Proof.
  intros C R Hm i Hi. pose proof (repr_width _ _ R) as W. unfold width_ok in W. pose proof (rc_width _ _ _ _ _ C).
  unfold run_len. pose proof (run_cost (bps qf) (m i) (runs i) ltac:(lia) (Hm i Hi)). pose proof (rc_slots _ _ _ _ _ C i Hi). lia.
Qed.

Lemma window_in bs p : 0 < window bs p p -> In p bs.
Proof.
  induction bs as [|b bs IH]; [rewrite window_nil; lia|]. rewrite window_cons. destruct (Z.eq_dec b p) as [->|N]; [now left|].
  intros H. right. apply IH. revert H. split_cmps; lia.
Qed.

Lemma window_repeat b n q : window (repeat b n) q q = if q =? b then Z.of_nat n else 0.
Proof.
  induction n as [|n IH]; cbn [repeat]; [rewrite window_nil; split_cmps; lia|]. rewrite window_cons, IH. split_cmps; lia.
Qed.

(** How far homes go: the last block stays free, and so do the slots of the longest
    counter. *)
Definition home_limit (qf : QF) : Z := Z.min (64 * (nblocks (metadata qf) - 1)) (xnslots (metadata qf) - 27).

(** With the home buckets spread, no run reaches the last block. *)
Lemma recorded_last qf m bs c T D q : recorded qf m bs c T -> spread bs D -> 0 <= D <= 65535 -> 0 <= q ->
  (forall b, In b bs -> b + D < home_limit qf) -> q + D < home_limit qf -> before_last_block qf q.
Proof.
  intros C Hs HD Hq Hb HqD. destruct (rc_holds _ _ _ _ _ C) as (runs & R & Hm). pose proof (recorded_runs _ _ _ _ _ _ C R Hm) as Hl. unfold home_limit in *.
  split; [apply Z.div_lt_upper_bound; lia|]. rewrite (repr_offset qf runs R) by lia. apply Z.max_l. apply Z.le_sub_0. set (L := 64 * (nblocks (metadata qf) - 1)) in *.
  destruct (Z.le_gt_cases (run_stop (run_len runs) (L - 1)) 0) as [F|F]; [lia|].
  destruct (run_stop_last (run_len runs) (L - 1) F) as (p & Hp & Np & Es). specialize (Hl p ltac:(lia)) as Hlp.
  specialize (Hb p (window_in bs p ltac:(lia))). rewrite Es, <- run_stop_full by (try exact Np; lia).
  pose proof (run_stop_spread _ _ _ Hl Hs ltac:(lia) p ltac:(lia)). lia.
Qed.

(** There are slots for the longest counter. *)
Lemma recorded_room qf m bs c T D q : recorded qf m bs c T -> spread bs D -> 0 <= D <= 65506 -> 0 <= q ->
  (forall b, In b bs -> b + D < home_limit qf) -> q + D < home_limit qf -> has_slots qf q 28.
Proof.
  intros C Hs HD Hq Hb HqD. destruct (rc_holds _ _ _ _ _ C) as (runs & R & Hm). pose proof (recorded_runs _ _ _ _ _ _ C R Hm) as Hl. unfold home_limit in *. split.
  - destruct (last_bucket bs q (Z.min (64 * (nblocks (metadata qf) - 1)) (xnslots (metadata qf) - 27) - D)) as (B & HB & Hlast); [lia|intros b Hin; specialize (Hb b Hin); lia|].
    exists (B + D + 28). split; [lia|]. split; [lia|]. rewrite (rank_empty qf runs R) by lia. unfold free_below.
    rewrite (rank_split _ q (B + D)), (rank_true _ (B + D)) by (try lia; intros x Hx; apply Z.leb_le, (free_behind _ bs D B); auto; lia).
    pose proof (rank_bounds (is_free (run_len runs)) q (B + D)). lia.
  - intros b Hbl. assert (0 <= b) by (pose proof (Z.div_pos q 64); lia).
    pose proof (offset_spread qf runs bs D b R Hl Hs ltac:(lia) ltac:(lia)). lia.
Qed.

(** Adding copies of a hash, by any operation. *)
Lemma recorded_add qf m bs c T h k qf' n : recorded qf m bs c T -> 0 <= h -> 0 <= k -> holds qf' (add_hash qf m h k) -> same_frame qf' qf ->
  slot_cost (bps qf) k <= Z.of_nat n -> recorded qf' (add_hash qf m h k) (bs ++ repeat (hash_bucket qf h) n) (upd c h (c h + k)) (T + k).
Proof.
  intros C Hh Hk H' F Hn. pose proof C as [H Hw Hlock Ht Hc0 HT]. pose proof H as (runs & R & Hm). destruct (same_frame_fields _ _ F) as (Ew & En & _).
  assert (B0 : 0 <= hash_bucket qf h) by (apply Z.div_pos; [lia|apply Z.pow_pos_nonneg; pose proof (repr_width _ _ R); unfold width_ok in *; lia]).
  split; [exact H'|now rewrite Ew|now rewrite (proj2 F)| | |].
  - intros q Hq0. rewrite Ew, window_app, window_repeat. specialize (Ht q Hq0). unfold add_hash, upd.
    destruct (Z.eqb_spec q (hash_bucket qf h)) as [->|N]; [|lia].
    pose proof (slots_bound_add (bps qf) (hash_rem qf h) k _ (run_code_counts _ _ _ (Hm _ B0)) Hk). lia.
  - intros x Hx. unfold count_of. destruct (same_bucket qf qf' x Ew) as [-> ->].
    change (count_of qf (add_hash qf m h k) x = upd c h (c h + k) x). rewrite count_add_hash by auto. rewrite Hc0 by exact Hx. unfold upd.
    destruct (Z.eqb_spec x h) as [->|]; lia.
  - intros x Hx. specialize (HT x Hx). unfold upd. destruct (Z.eqb_spec x h) as [->|]; lia.
Qed.

Lemma recorded_insert qf m bs c T h flags D :
  recorded qf m bs c T -> spread bs D -> 0 <= D <= 65535 -> 0 <= h -> lockable qf (hash_bucket qf h) true flags ->
  (forall b, In b bs -> b + D < home_limit qf) -> hash_bucket qf h + D < home_limit qf -> T + 1 < 2 ^ 64 ->
  exists ret qf' m', insert1 qf h flags = Some (ret, qf') /\ same_frame qf' qf
    /\ recorded qf' m' (bs ++ [hash_bucket qf h]) (count_after c (Insert1 h)) (T + 1).
Proof.
  intros C Hs HD Hh Hl Hb Hq Hlen. pose proof C as [H Hw Hlock Ht Hc0 HT]. pose proof H as (runs & R & Hm).
  assert (B0 : 0 <= hash_bucket qf h) by (apply Z.div_pos; [lia|apply Z.pow_pos_nonneg; pose proof (repr_width _ _ R); unfold width_ok in *; lia]).
  assert (Hlim : home_limit qf <= 64 * nblocks (metadata qf)) by (unfold home_limit; lia).
  destruct (insert1_spec qf m h flags) as (ret & grew & qf' & E & H' & I); auto; try lia.
  { apply (has_room_spread qf runs bs D); auto; try lia; [apply (recorded_runs qf m bs c T); auto|]. intros b Hin. specialize (Hb b Hin). lia. }
  { rewrite Hc0 by exact Hh. specialize (HT h Hh). lia. }
  assert (F : same_frame qf' qf) by (split; [exact (in_rest _ _ _ _ _ _ I)|exact (in_runtime _ _ _ _ _ _ I)]).
  exists ret, qf', (add_hash qf m h 1). split; [exact E|]. split; [exact F|]. apply (recorded_add qf m bs c T h 1 qf' 1); auto; [lia|].
  unfold slot_cost. destruct (bps qf <? 3); lia.
Qed.

Lemma recorded_insert_many qf m bs c T h k flags D :
  recorded qf m bs c T -> 3 <= bps qf -> spread bs D -> 0 <= D <= 65506 -> 0 <= h -> 1 <= k -> lockable qf (hash_bucket qf h) false flags ->
  (forall b, In b bs -> b + D < home_limit qf) -> hash_bucket qf h + D < home_limit qf -> T + k < 2 ^ 64 ->
  exists ret qf' m', insert qf h k flags = Some (ret, qf') /\ same_frame qf' qf
    /\ recorded qf' m' (bs ++ repeat (hash_bucket qf h) (Z.to_nat (Z.min k 28))) (count_after c (InsertN h k)) (T + k).
Proof.
  intros C Hw3 Hs HD Hh Hk Hl Hb Hq Hlen. pose proof C as [H Hw Hlock Ht Hc0 HT]. pose proof H as (runs & R & Hm).
  assert (B0 : 0 <= hash_bucket qf h) by (apply Z.div_pos; [lia|apply Z.pow_pos_nonneg; pose proof (repr_width _ _ R); unfold width_ok in *; lia]).
  assert (Hlim : home_limit qf <= 64 * nblocks (metadata qf)) by (unfold home_limit; lia).
  destruct (insert_spec qf m h k flags) as (ret & qf' & E & H' & I); auto; try lia.
  { apply (recorded_room qf m bs c T D); auto. }
  { rewrite Hc0 by exact Hh. specialize (HT h Hh). lia. }
  assert (F : same_frame qf' qf) by (split; [exact (ins_rest _ _ _ _ I)|exact (ins_runtime _ _ _ _ I)]).
  exists ret, qf', (add_hash qf m h k). split; [exact E|]. split; [exact F|]. apply (recorded_add qf m bs c T h k); auto; [lia|].
  unfold slot_cost. destruct (Z.ltb_spec (bps qf) 3); lia.
Qed.

Lemma recorded_remove qf m bs c T h k flags D :
  recorded qf m bs c T -> spread bs D -> 0 <= D <= 65535 -> 0 <= h -> 0 <= k -> lockable qf (hash_bucket qf h) false flags ->
  (forall b, In b bs -> b + D < home_limit qf) -> hash_bucket qf h + D < home_limit qf ->
  GET_NO_LOCK flags = QF_NO_LOCK \/ c h <> 0 ->
  exists ret qf' m', remove qf h k flags = Some (ret, qf') /\ same_frame qf' qf /\ recorded qf' m' bs (count_after c (Remove h k)) T.
Proof.
  intros C Hs HD Hh Hk Hl Hb Hq Hfound. pose proof C as [H Hw Hlock Ht Hc0 HT]. pose proof H as (runs & R & Hm).
  assert (B0 : 0 <= hash_bucket qf h) by (apply Z.div_pos; [lia|apply Z.pow_pos_nonneg; pose proof (repr_width _ _ R); unfold width_ok in *; lia]).
  assert (Hlim : home_limit qf <= 64 * nblocks (metadata qf)) by (unfold home_limit; lia).
  assert (HT' : forall x, 0 <= x -> upd c h (Z.max 0 (c h - k)) x <= T).
  { intros x Hx. pose proof (HT x Hx) as L. unfold upd. destruct (Z.eqb_spec x h) as [->|]; [|exact L]. pose proof (run_code_total _ _ _ (hash_rem qf h) (Hm _ B0)).
    rewrite <- Hc0 in * by exact Hh. unfold count_of in *. lia. }
  destruct (Z.eq_dec (count_of qf m h) 0) as [E0|N0].
  - destruct Hfound as [Hf|Hf]; [|rewrite Hc0 in E0 by exact Hh; contradiction].
    destruct (remove_absent qf m h k flags H Hw Hl Hh ltac:(lia) E0) as (qf' & L & E & _ & _).
    assert (qf' = qf) by (unfold lock_qf in L; rewrite Hf, Z.eqb_refl in L; cbn [negb] in L; congruence). subst qf'.
    exists QF_DOESNT_EXIST, qf, m. split; [exact E|]. split; [repeat split|]. split; auto. intros x Hx. rewrite Hc0 by exact Hx. cbn [count_after]. unfold upd.
    destruct (Z.eqb_spec x h) as [->|]; [|reflexivity]. rewrite Hc0 in E0 by exact Hh. lia.
  - pose proof (recorded_last _ _ _ _ _ _ _ C Hs HD B0 Hb Hq) as Lb.
    destruct (remove_present qf m h k flags H Hw Hlock Hl Hh Lb Hk N0) as (freed & qf' & E & H' & _ & I).
    assert (F : same_frame qf' qf) by (split; [exact (rm_rest _ _ _ _ _ I)|exact (rm_runtime _ _ _ _ _ I)]). destruct (same_frame_fields _ _ F) as (Ew & _ & _).
    exists (i32 freed), qf', (remove_hash qf m h k). split; [exact E|]. split; [exact F|]. split; [exact H'|now rewrite Ew|now rewrite (proj2 F)| | |exact HT'].
    + intros q Hq0. rewrite Ew. unfold remove_hash, upd. destruct (Z.eqb_spec q (hash_bucket qf h)) as [->|N]; [|now apply Ht].
      pose proof (slots_bound_remove (bps qf) (hash_rem qf h) k _ (run_code_counts _ _ _ (Hm _ B0)) Hk). specialize (Ht _ B0). lia.
    + intros x Hx. cbn [count_after]. unfold count_of. destruct (same_bucket qf qf' x Ew) as [-> ->].
      change (count_of qf (remove_hash qf m h k) x = upd c h (Z.max 0 (c h - k)) x). rewrite count_remove_hash by auto. rewrite !Hc0 by assumption. reflexivity.
Qed.

(** ** The history *)

(** What is asked of an operation: its hash is within range, its locks are free or not
    asked for; many copies are inserted into slots of three bits or more, at least one. *)
Definition op_ok (qf : QF) (flags D : Z) (op : filter_op) : Prop :=
  0 <= op_hash op /\ lockable qf (hash_bucket qf (op_hash op)) (op_small op) flags
  /\ hash_bucket qf (op_hash op) + D < home_limit qf
  /\ match op with Insert1 _ => True | InsertN _ k => 3 <= bps qf /\ D <= 65506 /\ 1 <= k | Remove _ k => 0 <= k end.

Lemma op_ok_frame qf qf' flags D op : same_frame qf' qf -> op_ok qf flags D op -> op_ok qf' flags D op.
Proof.
  intros F (H1 & H2 & H3 & H4). destruct (same_frame_fields _ _ F) as (Ew & En & Ex). unfold op_ok, lockable, home_limit in *.
  destruct (same_bucket qf qf' (op_hash op) Ew) as [-> _]. rewrite En, Ex, Ew, (proj2 F). auto.
Qed.

(** One operation. *)
Lemma recorded_op qf m bs c T flags D op : recorded qf m bs c T -> spread bs D -> 0 <= D <= 65535 -> op_ok qf flags D op ->
  (forall b, In b bs -> b + D < home_limit qf) -> GET_NO_LOCK flags = QF_NO_LOCK \/ removals_find c [op] -> T + op_copies op < 2 ^ 64 ->
  exists ret qf' m', run_op qf op flags = Some (ret, qf') /\ same_frame qf' qf
    /\ recorded qf' m' (bs ++ map (hash_bucket qf) (op_slots op)) (count_after c op) (T + op_copies op).
Proof.
  intros C Hs HD (O1 & O2 & O3 & O4) Hb Hfind HT. destruct op as [h|h k|h k]; cbn [run_op op_slots op_copies op_hash op_small map] in *.
  - apply (recorded_insert qf m bs c T h flags D); auto.
  - rewrite map_repeat. destruct O4 as (? & ? & ?). apply (recorded_insert_many qf m bs c T h k flags D); auto; lia.
  - rewrite app_nil_r, Z.add_0_r. apply (recorded_remove qf m bs c T h k flags D); auto. destruct Hfind as [?|[? _]]; auto.
Qed.

Lemma run_ops_spec flags D : 0 <= D <= 65535 -> forall ops qf m bs c T,
  recorded qf m bs c T -> spread (bs ++ map (hash_bucket qf) (inserts ops)) D ->
  (forall b, In b bs -> b + D < home_limit qf) -> Forall (op_ok qf flags D) ops ->
  GET_NO_LOCK flags = QF_NO_LOCK \/ removals_find c ops -> T + copies ops < 2 ^ 64 ->
  exists m' qf', run_ops qf ops flags = Some qf' /\ same_frame qf' qf
    /\ recorded qf' m' (bs ++ map (hash_bucket qf) (inserts ops)) (counts_after c ops) (T + copies ops).
Proof.
  intros HD. induction ops as [|op ops IH]; intros qf m bs c T C Hs Hb HF Hfind HT.
  - exists m, qf. cbn. rewrite app_nil_r, Z.add_0_r. repeat split; apply C.
  - apply Forall_cons_iff in HF as [O HF']. cbn [run_ops inserts flat_map copies fold_right counts_after fold_left] in *. fold (copies ops) (inserts ops) (counts_after (count_after c op) ops) in *.
    rewrite map_app, app_assoc in *. rewrite Z.add_assoc in *.
    assert (P : 0 <= copies ops).
    { clear - HF'. induction HF' as [|op ops (_ & _ & _ & O) _ IH]; cbn [copies fold_right]; [lia|]. fold (copies ops). destruct op; cbn [op_copies]; lia. }
    destruct (recorded_op qf m bs c T flags D op C) as (ret & qf1 & m1 & -> & F & C1); auto; [repeat apply spread_prefix in Hs; exact Hs|destruct Hfind as [?|[? _]]; [now left|right; now split]|lia|].
    destruct (same_frame_fields _ _ F) as (Ew & En & Ex).
    assert (Em : map (hash_bucket qf1) (inserts ops) = map (hash_bucket qf) (inserts ops)) by (apply map_ext; intros x; apply same_bucket, Ew).
    destruct (IH qf1 m1 _ _ _ C1) as (m' & qf' & E' & F' & C'); rewrite ?Em; auto; [| |destruct Hfind as [?|[_ ?]]; auto|].
    + unfold home_limit in *. rewrite En, Ex. intros b Hin. apply in_app_iff in Hin as [Hin|Hin]; [auto|].
      destruct O as (_ & _ & O & _). apply in_map_iff in Hin as (h & <- & Hin). assert (h = op_hash op) as ->; [|exact O].
      destruct op; cbn [op_slots op_hash In] in *; [tauto || (destruct Hin; [congruence|contradiction])|now apply repeat_spec in Hin|contradiction].
    + eapply Forall_impl; [|exact HF']. intros op'. now apply op_ok_frame.
    + exists m', qf'. rewrite Em in C'. split; [exact E'|]. split; [|exact C']. destruct F, F'. split; congruence.
Qed.

(** C1: the filter counts.  A history of insertions of one copy, insertions of many copies
    and removals, run on a new filter, succeeds when the home buckets of the inserted
    hashes (each taken once for every slot its counter may need) are spread with a
    displacement [D] that fits before the last block and in an offset, the locks are free
    or not asked for, and, if they are asked for, no removal is of an absent hash (which
    would leave them taken).  Afterwards a query for any key returns the count the history
    implies: the number of copies more for each insertion of its hash, [k] less, down to
    zero, for each removal of [k] copies; and the locks are as they were. *)
Theorem filter_history qf0 nslots key_bits value_bits mode seed ok qf ops flags D :
  qf_malloc true qf0 nslots key_bits value_bits mode seed = Some (ok, qf) ->
  2 <= bps qf <= 56 -> 0 <= 64 * nblocks (metadata qf) < 2 ^ 62 -> 0 <= D <= 65535 ->
  spread (map (hash_bucket qf) (inserts ops)) D -> Forall (op_ok qf flags D) ops ->
  GET_NO_LOCK flags = QF_NO_LOCK \/ removals_find (fun _ => 0) ops ->
  copies ops < 2 ^ 64 ->
  exists qf', run_ops qf ops flags = Some qf'
    /\ runtimedata qf' = runtimedata qf
    /\ forall key value kflags, let h := hash_of qf' (hash_of_key qf' key kflags) value in
         0 <= h -> hash_bucket qf' h < 64 * nblocks (metadata qf') ->
         qf_count_key_value qf' key value kflags = Some (counts_after (fun _ => 0) ops h).
Proof.
  intros E Hw Hn HD Hs Hops Hfind Hlen. destruct (malloc_spec _ _ _ _ _ _ _ _ E ltac:(lia) Hn) as (_ & H0 & _ & _ & _ & L0 & _).
  assert (C0 : recorded qf (fun _ => []) [] (fun _ => 0) 0) by (split; auto; [lia|intros q _; reflexivity|lia]).
  destruct (run_ops_spec flags D HD ops qf _ [] _ _ C0) as (m & qf' & E' & F & C'); try solve [auto | intros b []].
  exists qf'. split; [exact E'|]. split; [apply F|]. intros key value kflags h Hh0 Hb.
  rewrite <- (rc_counts _ _ _ _ _ C' h Hh0). apply count_key_value_spec; [apply C'|apply C'|exact Hh0|exact Hb].
Qed.

(** Insertions in two neighbouring buckets, of one copy and of 300, the removal of a
    counter in the middle of its run, of a whole run, and of a hash that is absent. *)
Definition demo_history : list filter_op :=
  [Insert1 0x305; Insert1 0x409; Insert1 0x305; InsertN 0x302 5; InsertN 0x30a 300; Remove 0x305 1; Remove 0x302 7; Remove 0x409 1; Remove 0x111 1; InsertN 0x305 40].

Lemma demo_spread : spread (map (fun h => h / 2 ^ 8) (inserts demo_history)) 80.
Proof.
  intros p q H. transitivity (Z.of_nat (length (inserts demo_history))); [|vm_compute (Z.of_nat _); lia].
  unfold window. apply Nat2Z.inj_le. etransitivity; [apply filter_length_le|]. now rewrite length_map.
Qed.

Lemma filter_history_witness :
  exists ok qf qf', qf_malloc true blank_QF 128 15 0 QF_HASH_NONE 0 = Some (ok, qf)
    /\ run_ops qf demo_history QF_NO_LOCK = Some qf'
    /\ qf_count_key_value qf' 0x305 0 QF_KEY_IS_HASH = Some 41 /\ qf_count_key_value qf' 0x30a 0 QF_KEY_IS_HASH = Some 300.
Proof.
  destruct (qf_malloc true blank_QF 128 15 0 QF_HASH_NONE 0) as [[ok qf]|] eqn:E; [|vm_compute in E; discriminate].
  assert (B : bps qf = 8 /\ nblocks (metadata qf) = 4 /\ xnslots (metadata qf) = 241) by (vm_compute in E; injection E as <- <-; repeat split; reflexivity).
  destruct B as (Bw & Bn & Bx).
  destruct (filter_history blank_QF 128 15 0 QF_HASH_NONE 0 ok qf demo_history QF_NO_LOCK 80 E) as (qf' & E' & _ & Q).
  - lia.
  - lia.
  - lia.
  - unfold hash_bucket. rewrite Bw. exact demo_spread.
  - unfold demo_history, op_ok, hash_bucket, home_limit. rewrite Bw, Bn, Bx. repeat constructor; cbn; (lia || discriminate).
  - left. reflexivity.
  - cbn. lia.
  - exists ok, qf, qf'. do 2 (split; [assumption || reflexivity|]).
    assert (F : forall h, h = 0x305 \/ h = 0x30a -> hash_of qf' (hash_of_key qf' h QF_KEY_IS_HASH) 0 = h /\ hash_bucket qf' h < 64 * nblocks (metadata qf')).
    { vm_compute in E. injection E as <- <-. vm_compute in E'. injection E' as <-. intros h [->| ->]; split; vm_compute; reflexivity. }
    split; [pose proof (F 0x305 ltac:(auto)) as [F1 F2]; specialize (Q 0x305 0 QF_KEY_IS_HASH)|pose proof (F 0x30a ltac:(auto)) as [F1 F2]; specialize (Q 0x30a 0 QF_KEY_IS_HASH)];
      cbv zeta in Q; rewrite F1 in Q; rewrite Q by (lia || exact F2); reflexivity.
Defined.
