(* ===== verification/Enumerate.v ===== *)
(** * Iteration lists the contents

    An iterator started at the first position of a filter visits every counter of every
    bucket once, in order: read and advanced until its end it enumerates the hashes in the
    filter with their counts. *)

From S2P Require Import Prelude BitSeq RankSelect Hashutil Blocks BlockBits Shifting Layout Locks CounterCode Runs Insert Repr InsertSlot InsertPlace InsertOne Iterator Filter FilterTheorems.
From Stdlib Require Import Sorted.
Import ListNotations.
#[local] Open Scope Z_scope.

(** ** The next true position *)


(** ** The contents as a list *)

(** The counters of [n] buckets from [q] on: bucket, remainder and count. *)
Fixpoint bucket_entries (m : Z -> items) (n : nat) (q : Z) : list (Z * Z * Z) :=
  match n with
  | O => []
  | S n => map (fun p => (q, fst p, snd p)) (m q) ++ bucket_entries m n (q + 1)
  end.

Lemma bucket_entries_skip m k : forall n q, (forall y, q <= y < q + Z.of_nat k -> m y = []) -> (k <= n)%nat ->
  bucket_entries m n q = bucket_entries m (n - k) (q + Z.of_nat k).
Proof.
  induction k as [|k IH]; intros n q H Hn; [now rewrite Nat.sub_0_r, Z.add_0_r|].
  destruct n as [|n]; [lia|]. cbn [bucket_entries Nat.sub]. rewrite H by lia. cbn [map app].
  rewrite IH by (auto; try lia; intros; apply H; lia). f_equal. lia.
Qed.

Lemma bucket_entries_none m n q : (forall y, q <= y < q + Z.of_nat n -> m y = []) -> bucket_entries m n q = [].
Proof. intros H. rewrite (bucket_entries_skip m n n q H) by lia. now rewrite Nat.sub_diag. Qed.




(** ** One step *)

Section Steps.
Context (qf : QF) (m : Z -> items) (runs : Z -> list Z).
Hypothesis R : repr qf runs.
Hypothesis Hm : forall q, 0 <= q -> run_code (bps qf) (m q) (runs q).
Hypothesis Hw : 2 <= bps qf <= 56.
(** No run reaches the end of the slots the iterators look at. *)
Hypothesis Hx : forall q, run_stop (run_len runs) q <= xnslots (metadata qf).
Hypothesis Hxw : xnslots (metadata qf) < 2 ^ 64.

#[local] Abbreviation start := (run_start (run_len runs)).
#[local] Abbreviation stop := (run_stop (run_len runs)).
























End Steps.

(** ** The whole filter *)



(** ** The contents *)








