(* ===== verification/Merge.v ===== *)
(** * Operations on several filters ([gqf.c], [qf_merge] .. [qf_magnitude])

    They walk one or two filters with iterators and insert what they find, by hash, into
    the result.  The loops run at most once per stored counter. *)

From S2P Require Import Prelude Doubles BitSeq RankSelect Hashutil Blocks Locks CounterCode Insert Remove Iterator Filter.
Import ListNotations.
#[local] Open Scope Z_scope.

Definition NO_LOCK_HASHED : Z := Z.lor QF_NO_LOCK QF_KEY_IS_HASH.

(** [a->hash_mode != b->hash_mode && a->seed != b->seed] *)
Definition incompatible (a b : QF) : bool :=
  negb (qf_hashmode_eqb a.(metadata).(hash_mode) b.(metadata).(hash_mode))
  && negb (a.(metadata).(seed) =? b.(metadata).(seed)).

(** What [qfi_get_hash] stores: key, value and count. *)
Definition item_at (qfi : QFi) : option (Z * Z * Z) :=
  let? (_, key, value, count) := qfi_get_hash qfi in Some (key, value, count).

(** The first loop of [qf_merge]: both iterators have items left. *)
Fixpoint merge_both (fuel : nat) (qfc : QF) (qfia qfib : QFi) (a b : Z * Z * Z)
    : option (QF * QFi * QFi) :=
  match fuel with
  | O => None
  | S fuel =>
    let '(keya, valuea, counta) := a in
    let '(keyb, valueb, countb) := b in
    let? (qfc, qfia, qfib, a, b) :=
      (if keya <? keyb then
         let? (_, qfc) := qf_insert qfc keya valuea counta NO_LOCK_HASHED in
         let? (_, qfia) := qfi_next qfia in
         let? a := item_at qfia in
         Some (qfc, qfia, qfib, a, b)
       else
         let? (_, qfc) := qf_insert qfc keyb valueb countb NO_LOCK_HASHED in
         let? (_, qfib) := qfi_next qfib in
         let? b := item_at qfib in
         Some (qfc, qfia, qfib, a, b)) in
    if negb (qfi_end qfia) && negb (qfi_end qfib) then merge_both fuel qfc qfia qfib a b
    else Some (qfc, qfia, qfib)
  end.

(** [do { get; insert } while (!qfi_next(&qfi))] *)
Fixpoint drain (fuel : nat) (qfc : QF) (qfi : QFi) : option QF :=
  match fuel with
  | O => None
  | S fuel =>
    let? (key, value, count) := item_at qfi in
    let? (_, qfc) := qf_insert qfc key value count NO_LOCK_HASHED in
    let? (r, qfi) := qfi_next qfi in
    if r =? 0 then drain fuel qfc qfi else Some qfc
  end.

Definition qf_merge (qfa qfb qfc : QF) : option QF :=
  let? (_, qfia) := qf_iterator_from_position qfa 0 in
  let? (_, qfib) := qf_iterator_from_position qfb 0 in
  if incompatible qfa qfc && incompatible qfb qfc then None else
  let fuel := (S (scan_fuel qfa) + S (scan_fuel qfb))%nat in
  let? a := item_at qfia in
  let? b := item_at qfib in
  let? (qfc, qfia, qfib) := merge_both fuel qfc qfia qfib a b in
  let? qfc := (if negb (qfi_end qfia) then drain fuel qfc qfia else Some qfc) in
  if negb (qfi_end qfib) then drain fuel qfc qfib else Some qfc.

(** ** Many filters *)

(** [for (i = 0; i < nqf; i++) if (keys[i] < smallest_key) ...] *)
Fixpoint smallest (items : list (Z * Z * Z)) (i smallest_idx : nat) (smallest_key : Z) : nat :=
  match items with
  | [] => smallest_idx
  | (key, _, _) :: items =>
    if key <? smallest_key then smallest items (S i) i key
    else smallest items (S i) smallest_idx smallest_key
  end.

Fixpoint option_map_list {A B : Type} (f : A -> option B) (l : list A) : option (list B) :=
  match l with
  | [] => Some []
  | x :: l => let? y := f x in let? l := option_map_list f l in Some (y :: l)
  end.

(** The inner [do]-[while]: until the filter just taken from is exhausted. *)
Fixpoint multi_merge_round (fuel : nat) (qfr : QF) (qfis : list QFi) (items : list (Z * Z * Z)) (smallest_idx : nat)
    : option (QF * list QFi * nat) :=
  match fuel with
  | O => None
  | S fuel =>
    let smallest_idx := smallest items 0 smallest_idx UINT64_MAX in
    let? (key, value, count) := nth_error items smallest_idx in
    let? qfi := nth_error qfis smallest_idx in
    let? (_, qfr) := qf_insert qfr key value count NO_LOCK_HASHED in
    let? (_, qfi) := qfi_next qfi in
    let? item := item_at qfi in
    let qfis := set_nth smallest_idx qfi qfis in
    let items := set_nth smallest_idx item items in
    if negb (qfi_end qfi) then multi_merge_round fuel qfr qfis items smallest_idx
    else Some (qfr, qfis, smallest_idx)
  end.

(** [while (nqf > 1)]: each round removes one filter. *)
Fixpoint multi_merge_rounds (nqf : nat) (fuel : nat) (qfr : QF) (qfis : list QFi) (smallest_idx : nat)
    : option (QF * list QFi) :=
  match nqf with
  | S ((S _) as nqf') =>
    let? items := option_map_list item_at qfis in
    let? (qfr, qfis, smallest_idx) := multi_merge_round fuel qfr qfis items smallest_idx in
    multi_merge_rounds nqf' fuel qfr (remove_nth smallest_idx qfis) smallest_idx
  | _ => Some (qfr, qfis)
  end.

(** [do { get; insert; next } while (!qfi_end)] *)
Fixpoint drain_last (fuel : nat) (qfr : QF) (qfi : QFi) : option QF :=
  match fuel with
  | O => None
  | S fuel =>
    let? (key, value, count) := item_at qfi in
    let? (_, qfr) := qf_insert qfr key value count NO_LOCK_HASHED in
    let? (_, qfi) := qfi_next qfi in
    if negb (qfi_end qfi) then drain_last fuel qfr qfi else Some qfr
  end.

Definition qf_multi_merge (qf_arr : list QF) (qfr : QF) : option QF :=
  if existsb (fun qf => incompatible qf qfr) qf_arr then None else
  let? qfis := option_map_list (fun qf => let? (_, qfi) := qf_iterator_from_position qf 0 in Some qfi) qf_arr in
  let fuel := S (fold_right (fun qf n => S (scan_fuel qf) + n)%nat O qf_arr) in
  let? (qfr, qfis) := multi_merge_rounds (length qfis) fuel qfr qfis 0 in
  let? qfi := nth_error qfis 0 in
  if negb (qfi_end qfi) then drain_last fuel qfr qfi else Some qfr.

(** ** Products *)

(** The larger filter is iterated ("disk"), the other one queried ("mem"). *)
Definition mem_disk (qfa qfb : QF) : QF * QF :=
  if qfb.(metadata).(total_size_in_bytes) <? qfa.(metadata).(total_size_in_bytes)
  then (qfb, qfa) else (qfa, qfb).

Fixpoint inner_product_loop (fuel : nat) (qf_mem : QF) (qfi : QFi) (acc : Z) : option Z :=
  match fuel with
  | O => None
  | S fuel =>
    let? (key, value, count) := item_at qfi in
    let? count_mem := qf_count_key_value qf_mem key 0 QF_KEY_IS_HASH in
    let acc := if 0 <? count_mem then (acc + count * count_mem)%u64 else acc in
    let? (r, qfi) := qfi_next qfi in
    if r =? 0 then inner_product_loop fuel qf_mem qfi acc else Some acc
  end.

Definition qf_inner_product (qfa qfb : QF) : option Z :=
  if incompatible qfa qfb then None else
  let '(qf_mem, qf_disk) := mem_disk qfa qfb in
  let? (_, qfi) := qf_iterator_from_position qf_disk 0 in
  inner_product_loop (S (scan_fuel qf_disk)) qf_mem qfi 0.

Fixpoint intersect_loop (fuel : nat) (qf_mem : QF) (qfi : QFi) (qfr : QF) : option QF :=
  match fuel with
  | O => None
  | S fuel =>
    let? (key, value, count) := item_at qfi in
    let? count_mem := qf_count_key_value qf_mem key 0 QF_KEY_IS_HASH in
    let? qfr :=
      (if 0 <? count_mem then
         let? (_, qfr) := qf_insert qfr key value count NO_LOCK_HASHED in Some qfr
       else Some qfr) in
    let? (r, qfi) := qfi_next qfi in
    if r =? 0 then intersect_loop fuel qf_mem qfi qfr else Some qfr
  end.

Definition qf_intersect (qfa qfb qfr : QF) : option QF :=
  if incompatible qfa qfr && incompatible qfb qfr then None else
  let '(qf_mem, qf_disk) := mem_disk qfa qfb in
  let? (_, qfi) := qf_iterator_from_position qf_disk 0 in
  intersect_loop (S (scan_fuel qf_disk)) qf_mem qfi qfr.

(** The square root of the inner product, in double precision. *)
Definition qf_magnitude (qf : QF) : option Z :=
  let? p := qf_inner_product qf qf in
  Some (u64_of_f64 (f64_sqrt (f64 p))).
