(* ===== verification/FileStore.v ===== *)
(** * Filters in files ([gqf_file.c])

    A file is its size and its contents, the little-endian reading of its bytes; the
    file system maps paths to files.  A filter written to a file is its metadata, laid
    out as the C structure is, followed by its blocks.  A memory-mapped filter and its
    file are one and the same memory: the filter is kept as the [QF], and [sync_file]
    gives the contents the file has. *)

From S2P Require Import Prelude BitSeq RankSelect Hashutil Blocks Locks CounterCode Insert Remove Iterator Filter.
From stdpp Require Import gmap.
#[local] Open Scope Z_scope.

Definition path : Type := list Z.
Record file := mk_file { f_size : Z; f_data : Z }.
Definition files : Type := gmap path file.

(** ** The layout of the metadata *)

(** Fields of given sizes in bytes, one after the other. *)
Fixpoint pack (l : list (Z * Z)) : Z :=
  match l with
  | [] => 0
  | (n, v) :: l => v mod 2 ^ (8 * n) + 2 ^ (8 * n) * pack l
  end.

Fixpoint unpack (ns : list Z) (img : Z) : list Z :=
  match ns with
  | [] => []
  | n :: ns => img mod 2 ^ (8 * n) :: unpack ns (img / 2 ^ (8 * n))
  end.

Definition hashmode_code (h : qf_hashmode) : Z :=
  match h with QF_HASH_DEFAULT => 0 | QF_HASH_INVERTIBLE => 1 | QF_HASH_NONE => 2 end.
Definition hashmode_of_code (c : Z) : option qf_hashmode :=
  if c =? 0 then Some QF_HASH_DEFAULT else if c =? 1 then Some QF_HASH_INVERTIBLE
  else if c =? 2 then Some QF_HASH_NONE else None.

(** Four bytes of padding align [nslots]. *)
Definition field_sizes : list Z := [8; 4; 4; 8; 4; 4; 8; 8; 8; 8; 8; 8; 16; 8; 8; 8; 8].

Definition metadata_fields (md : qfmetadata) : list Z :=
  [md.(magic_endian_number); hashmode_code md.(hash_mode); md.(auto_resize); md.(total_size_in_bytes);
   md.(seed); 0; md.(nslots); md.(xnslots); md.(key_bits); md.(value_bits); md.(key_remainder_bits);
   md.(bits_per_slot); md.(range); md.(nblocks); md.(nelts); md.(ndistinct_elts); md.(noccupied_slots)].

Definition metadata_image (md : qfmetadata) : Z := pack (zip field_sizes (metadata_fields md)).

Definition image_metadata (img : Z) : option qfmetadata :=
  match unpack field_sizes img with
  | [magic; h; ar; size; sd; _; ns; xns; kb; vb; krb; bits; rg; nb; ne; nd; no] =>
    let? h := hashmode_of_code h in
    Some (mk_metadata magic h ar size sd ns xns kb vb krb bits rg nb ne nd no)
  | _ => None
  end.

(** The bytes of a filter: metadata, then [total_size_in_bytes] bytes of blocks. *)
Definition qf_image (qf : QF) : file :=
  let size := qf.(metadata).(total_size_in_bytes) in
  mk_file (sizeof_qfmetadata + size)
    (metadata_image qf.(metadata) + 2 ^ (8 * sizeof_qfmetadata) * (qf.(blocks) mod 2 ^ (8 * size))).

(** ** Serialisation *)

Definition fresh_locks (xnslots : Z) : Z * list Z :=
  let num_locks := xnslots / NUM_SLOTS_TO_LOCK + 2 in (num_locks, replicate (Z.to_nat num_locks) 0).

Definition qf_serialize (fs : files) (qf : QF) (filename : path) : Z * files :=
  ((sizeof_qfmetadata + qf.(metadata).(total_size_in_bytes))%u64, <[filename := qf_image qf]> fs).

(** [None]: the file does not open, is too short or has the wrong magic number ([exit]). *)
Definition qf_deserialize (fs : files) (filename : path) : option (Z * QF) :=
  let? f := fs !! filename in
  if f.(f_size) <? sizeof_qfmetadata then None else
  let? md := image_metadata f.(f_data) in
  if negb (md.(magic_endian_number) =? MAGIC_NUMBER) then None else
  let '(num_locks, locks) := fresh_locks md.(xnslots) in
  let rt := mk_runtime (Some filename) None num_locks 0 locks in
  let size := md.(total_size_in_bytes) in
  (* fread of one item of [size] bytes; an item of no bytes is never read *)
  if (size =? 0) || (f.(f_size) <? sizeof_qfmetadata + size) then None else
  let blocks := (f.(f_data) / 2 ^ (8 * sizeof_qfmetadata)) mod 2 ^ (8 * size) in
  Some ((sizeof_qfmetadata + size)%u64, mk_QF rt md blocks).

(** ** Memory-mapped filters *)

Definition QF_USEFILE_READ_ONLY : Z := 0x01.
Definition QF_USEFILE_READ_WRITE : Z := 0x02.

(** The contents of the file of a mapped filter. *)
Definition sync_file (fs : files) (qf : QF) : files :=
  match qf.(runtimedata).(filepath) with
  | Some p => <[p := qf_image qf]> fs
  | None => fs
  end.

Definition with_file (qf : QF) (filename : path) : QF :=
  let rt := qf.(runtimedata) in
  set_runtime qf (mk_runtime (Some filename) (Some qf_resize_file_fn) rt.(num_locks) rt.(metadata_lock) rt.(locks)).

(** [qf_initfile]; [open_ok]: whether the file can be created, sized and mapped. *)
Definition qf_initfile (open_ok : bool) (fs : files) (qf : QF) (nslots key_bits value_bits : Z) (hash : qf_hashmode)
    (seed : Z) (filename : path) : option (bool * QF * files) :=
  let total_num_bytes := fst (qf_init qf nslots key_bits value_bits hash seed None) in
  if negb open_ok then None else
  let qf := set_runtime qf zero_runtime in
  let '(init_size, qf) := qf_init qf nslots key_bits value_bits hash seed (Some total_num_bytes) in
  let qf := with_file qf filename in
  Some (init_size =? total_num_bytes, qf, sync_file fs qf).

(** [qf_usefile].  The run-time data is zeroed, and [num_locks] with it, before the locks
    are allocated; a wrong flag leaves the filter as it was. *)
Definition qf_usefile (fs : files) (qf : QF) (filename : path) (flag : Z) : option (Z * QF) :=
  if negb ((flag =? QF_USEFILE_READ_ONLY) || (flag =? QF_USEFILE_READ_WRITE)) then Some (0, qf) else
  let? f := fs !! filename in
  let rt := mk_runtime (Some filename) (Some qf_resize_file_fn) 0 0 (replicate (Z.to_nat 0) 0) in
  let? md := image_metadata f.(f_data) in
  if negb (md.(magic_endian_number) =? MAGIC_NUMBER) then None else
  let qf := mk_QF rt md (f.(f_data) / 2 ^ (8 * sizeof_qfmetadata)) in
  Some ((sizeof_qfmetadata + md.(total_size_in_bytes))%u64, qf).

(** [qf_closefile]: the mapping is flushed and removed. *)
Definition qf_closefile (fs : files) (qf : QF) : bool * files := (true, sync_file fs qf).

(** [qf_deletefile]: the file is closed and removed. *)
Definition qf_deletefile (fs : files) (qf : QF) : bool * files :=
  let '(ok, fs) := qf_closefile fs qf in
  match qf.(runtimedata).(filepath) with
  | Some p => if ok then (true, delete p fs) else (false, fs)
  | None => (ok, fs)
  end.

(** ** Resizing into a new file *)

(** ["%ld"] *)
Fixpoint decimal (fuel : nat) (n : Z) (acc : list Z) : list Z :=
  match fuel with
  | O => acc
  | S fuel => let acc := (48 + n mod 10) :: acc in if n / 10 =? 0 then acc else decimal fuel (n / 10) acc
  end.
Definition decimal_i64 (n : Z) : list Z :=
  if n <? 0 then 45 :: decimal 20 (- n) [] else decimal 20 n [].

(** [snprintf(new_filename, len, "%s_%ld", path, nslots)]: at most [len - 1] bytes. *)
Definition resized_filename (p : path) (nslots : Z) : path :=
  let new_filename_len := Z.of_nat (length p) + 1 + 13 in
  take (Z.to_nat (new_filename_len - 1)) (p ++ 95 :: decimal_i64 (i64 nslots)).

(** [rename(old, new)] *)
Definition rename_file (fs : files) (old new : path) : files :=
  match fs !! old with Some f => <[new := f]> (delete old fs) | None => fs end.

Section FileResize.
Context (resize : files -> QF -> Z -> option (Z * QF * files)).

(** [qf_resize_file]: the keys are copied into a filter in a new file, which then
    replaces the old file. *)
Definition qf_resize_file_with (open_ok : bool) (fs : files) (qf : QF) (nslots : Z) : option (Z * QF * files) :=
  let? p := qf.(runtimedata).(filepath) in
  let new_filename := resized_filename p nslots in
  let md := qf.(metadata) in
  let? (ok, new_qf, fs) :=
    qf_initfile open_ok fs blank_QF nslots md.(key_bits) md.(value_bits) md.(hash_mode) md.(seed) new_filename in
  if negb ok then Some (0, qf, fs) else
  let new_qf := if negb (md.(auto_resize) =? 0) then qf_set_auto_resize new_qf true else new_qf in
  let? (_, qfi) := qf_iterator_from_position qf 0 in
  let? (ret, new_qf, fs) := copy_keys resize (S (scan_fuel qf)) fs new_qf qfi 0 in
  if ret <? 0 then Some (ret, qf, fs) else
  let '(_, fs) := qf_deletefile fs qf in
  let fs := sync_file fs new_qf in
  let fs := match new_qf.(runtimedata).(filepath) with Some q => rename_file fs q p | None => fs end in
  Some (ret, with_file new_qf p, fs).
End FileResize.

(** [container_resize], which points to one of the two resize functions. *)
Fixpoint container_resize_call (depth : nat) (fs : files) (qf : QF) (nslots : Z) : option (Z * QF * files) :=
  match depth with
  | O => None
  | S depth =>
    match qf.(runtimedata).(container_resize) with
    | Some qf_resize_malloc_fn => qf_resize_malloc_with (container_resize_call depth) true fs qf nslots
    | Some qf_resize_file_fn => qf_resize_file_with (container_resize_call depth) true fs qf nslots
    | None => None
    end
  end.

Definition qf_resize_file (fs : files) (qf : QF) (nslots : Z) : option (Z * QF * files) :=
  qf_resize_file_with (container_resize_call resize_depth) true fs qf nslots.

(** ** Round trips *)

Lemma unpack_pack l rest : Forall (fun '(n, v) => 0 <= n /\ fits (8 * n) v) l ->
  unpack (l.*1) (pack l + 2 ^ (8 * Z.of_nat (sum_list_with (fun p => Z.to_nat p.1) l)) * rest) = l.*2.
Proof.
  intros H. induction H as [|[n v] l [Hn Hv] HF IH]; [done|].
  cbn [fmap list_fmap pack unpack fst snd sum_list_with].
  assert (0 < 2 ^ (8 * n)) by (apply Z.pow_pos_nonneg; lia).
  replace (8 * Z.of_nat (Z.to_nat n + sum_list_with (fun p => Z.to_nat p.1) l))
    with (8 * n + 8 * Z.of_nat (sum_list_with (fun p => Z.to_nat p.1) l)) by lia.
  rewrite Z.pow_add_r by lia. rewrite (Z.mod_small v) by exact Hv.
  set (s := sum_list_with _ l) in *.
  replace (v + 2 ^ (8 * n) * pack l + 2 ^ (8 * n) * 2 ^ (8 * Z.of_nat s) * rest)
    with (v + (pack l + 2 ^ (8 * Z.of_nat s) * rest) * 2 ^ (8 * n)) by ring.
  rewrite Z.mod_add, Z.mod_small by (try exact Hv; lia).
  rewrite Z.div_add, Z.div_small by (try exact Hv; lia). rewrite Z.add_0_l. now f_equal.
Qed.

(** The fields have the widths of their C types. *)
Record metadata_fits (md : qfmetadata) : Prop := {
  mf_magic : fits 64 md.(magic_endian_number); mf_auto : fits 32 md.(auto_resize);
  mf_size : fits 64 md.(total_size_in_bytes); mf_seed : fits 32 md.(seed);
  mf_nslots : fits 64 md.(nslots); mf_xnslots : fits 64 md.(xnslots);
  mf_key_bits : fits 64 md.(key_bits); mf_value_bits : fits 64 md.(value_bits);
  mf_krb : fits 64 md.(key_remainder_bits); mf_bps : fits 64 md.(bits_per_slot);
  mf_range : fits 128 md.(range); mf_nblocks : fits 64 md.(nblocks);
  mf_nelts : fits 64 md.(nelts); mf_nd : fits 64 md.(ndistinct_elts); mf_no : fits 64 md.(noccupied_slots);
}.

Lemma hashmode_code_of h : hashmode_of_code (hashmode_code h) = Some h.
Proof. destruct h; reflexivity. Qed.

Lemma image_metadata_image md rest :
  metadata_fits md ->
  image_metadata (metadata_image md + 2 ^ (8 * sizeof_qfmetadata) * rest) = Some md.
Proof.
  intros F. set (l := zip field_sizes (metadata_fields md)).
  assert (HF : Forall (fun '(n, v) => 0 <= n /\ fits (8 * n) v) l).
  { destruct F. subst l. repeat constructor; cbn; try lia; try assumption;
      try (destruct (hash_mode md); cbn; lia); unfold fits in *; lia. }
  unfold image_metadata.
  pose proof (unpack_pack l rest HF) as U.  change (l.*1) with field_sizes in U. change (l.*2) with (metadata_fields md) in U.
  change (pack l) with (metadata_image md) in U.
  change (sum_list_with (fun p => Z.to_nat p.1) l) with 128%nat in U. change (Z.of_nat 128) with sizeof_qfmetadata in U.
  rewrite U. unfold metadata_fields. rewrite hashmode_code_of. destruct md; reflexivity.
Qed.

Lemma metadata_image_bound md : 0 <= metadata_image md < 2 ^ (8 * sizeof_qfmetadata).
Proof.
  unfold metadata_image.
  assert (B : forall l, Forall (fun p => 0 <= p.1) l ->
    0 <= pack l < 2 ^ (8 * Z.of_nat (sum_list_with (fun p => Z.to_nat p.1) l))).
  { induction 1 as [|[n v] l Hn _ IH]; [cbn; lia|]. cbn [pack sum_list_with fst] in *.
    assert (P : 0 < 2 ^ (8 * n)) by (apply Z.pow_pos_nonneg; lia).
    pose proof (Z.mod_pos_bound v (2 ^ (8 * n)) P).
    set (s := sum_list_with _ l) in *.
    replace (8 * Z.of_nat (Z.to_nat n + s)) with (8 * n + 8 * Z.of_nat s) by lia.
    rewrite Z.pow_add_r by lia. nia. }
  specialize (B (zip field_sizes (metadata_fields md))). apply B. repeat constructor; cbn; lia.
Qed.

Lemma image_data md b n :
  (metadata_image md + 2 ^ (8 * sizeof_qfmetadata) * b) / 2 ^ (8 * sizeof_qfmetadata) mod 2 ^ n = b mod 2 ^ n.
Proof.
  rewrite Z.mul_comm, Z.div_add, Z.div_small by (try apply metadata_image_bound; done). now rewrite Z.add_0_l.
Qed.

(** C34: a filter read back from the file it was serialised to has the same metadata and
    blocks, remembers the file, and has all its locks free.  The sizes returned by the
    two functions agree. *)
Theorem serialize_roundtrip fs qf filename :
  metadata_fits qf.(metadata) -> qf.(metadata).(magic_endian_number) = MAGIC_NUMBER ->
  0 < qf.(metadata).(total_size_in_bytes) -> fits (8 * qf.(metadata).(total_size_in_bytes)) qf.(blocks) ->
  let '(written, fs') := qf_serialize fs qf filename in
  exists qf', qf_deserialize fs' filename = Some (written, qf')
    /\ qf'.(metadata) = qf.(metadata) /\ qf'.(blocks) = qf.(blocks)
    /\ qf'.(runtimedata).(filepath) = Some filename
    /\ qf'.(runtimedata).(metadata_lock) = 0
    /\ Z.of_nat (length qf'.(runtimedata).(locks)) = qf.(metadata).(xnslots) / NUM_SLOTS_TO_LOCK + 2
    /\ Forall (eq 0) qf'.(runtimedata).(locks).
Proof.
  intros HF HM HS HB. unfold qf_serialize, qf_deserialize. cbv beta iota.
  assert (E : (<[filename := qf_image qf]> fs : files) !! filename = Some (qf_image qf))
    by apply (lookup_insert_eq (M := gmap path)).
  rewrite E. clear E.
  unfold qf_image. cbn [f_size f_data].
  set (size := total_size_in_bytes (metadata qf)) in *.
  destruct (Z.ltb_spec (sizeof_qfmetadata + size) sizeof_qfmetadata); [unfold sizeof_qfmetadata in *; lia|].
  rewrite image_metadata_image by done. rewrite HM, Z.eqb_refl. cbn [negb]. fold size.
  destruct (Z.eqb_spec size 0), (Z.ltb_spec (sizeof_qfmetadata + size) (sizeof_qfmetadata + size)); try lia.
  cbn [orb]. eexists. split; [reflexivity|]. cbn [metadata blocks runtimedata filepath metadata_lock locks].
  rewrite image_data, Zmod_mod, Z.mod_small by exact HB. repeat split; auto.
  - rewrite length_replicate, Z2Nat.id; [done|]. pose proof (mf_xnslots _ HF) as [? _].
    assert (0 <= xnslots (metadata qf) / NUM_SLOTS_TO_LOCK) by (apply Z.div_pos; [lia|done]). lia.
  - apply Forall_replicate. reflexivity.
Qed.

Definition small_filter : QF :=
  mk_QF (mk_runtime None None 2 0 [0; 0])
    (mk_metadata MAGIC_NUMBER QF_HASH_NONE 0 2 0 1 11 8 0 8 8 256 1 3 2 2) 0xabcd.

Lemma serialize_roundtrip_witness :
  exists qf', qf_deserialize (snd (qf_serialize (∅ : files) small_filter [102])) [102] = Some (130, qf')
    /\ blocks qf' = 0xabcd.
Proof.
  pose proof (serialize_roundtrip (∅ : files) small_filter [102]) as H.
  destruct (qf_serialize ∅ small_filter [102]) as [written fs'] eqn:E. cbn [snd].
  unfold qf_serialize in E. apply pair_equal_spec in E as [<- _].
  destruct H as (qf' & D & _ & B & _); [split; (vm_compute; split; (discriminate || reflexivity))|reflexivity|reflexivity|vm_compute; split; (discriminate || reflexivity)|].
  exists qf'. split; [exact D|exact B].
Defined.
