(* ===== verification/SafeString.v ===== *)
(** * Bounded string functions of the Cilk runtime ([cilkrts/runtime/sslib])

    Memory is a function from addresses to bytes; a null pointer is address 0.  Each
    function returns its result, the memory, and the error the constraint handler was
    called with, if any.  [SAFECLIB_STR_NULL_SLACK] is not defined: an error stores one
    null byte, and the slack of a copy is left as it was. *)

From S2P Require Import Prelude.
Import ListNotations.
#[local] Open Scope Z_scope.

Definition mem : Type := Z -> Z.
Definition wr (m : mem) (a v : Z) : mem := fun x => if x =? a then v else m x.

Definition EOK : Z := 0.
Definition ESNULLP : Z := 400.
Definition ESZEROL : Z := 401.
Definition ESLEMAX : Z := 403.
Definition ESOVRLP : Z := 404.
Definition ESNOSPC : Z := 406.
Definition RSIZE_MAX_STR : Z := Z.shiftl 4 10.

(** ** The constraint handler ([safe_str_constraint.c]) *)

Inductive handler := sl_default_handler | user_handler (id : Z).

(** [set_str_constraint_handler_s]: the previous handler ([None]: a null pointer) and the
    new one. *)
Definition set_str_constraint_handler_s (str_handler : option handler) (h : option handler)
    : option handler * option handler :=
  (str_handler, match h with None => Some sl_default_handler | Some h => Some h end).

(** [invoke_safe_str_constraint_handler]: which handler is called. *)
Definition invoke_safe_str_constraint_handler (str_handler : option handler) : handler :=
  match str_handler with Some h => h | None => sl_default_handler end.

Definition result : Type := Z * mem * option Z.

Definition constraint (m : mem) (e : Z) : result := (e, m, Some e).

(** [handle_error(orig_dest, ...)] and the return of the error. *)
Definition handle_error (m : mem) (orig_dest err_code : Z) : result :=
  (err_code, wr m orig_dest 0, Some err_code).

(** ** [strcpy_s] *)

Inductive copy := Copied (m : mem) | Overlap (m : mem) | NoSpace (m : mem).

(** The loop, which watches [dest] or [src] for the start of the other string. *)
Fixpoint strcpy_loop (watch_dest : bool) (overlap_bumper : Z) (dmax : nat) (m : mem) (dest src : Z) : copy :=
  match dmax with
  | O => NoSpace m
  | S dmax =>
    if (if watch_dest then dest else src) =? overlap_bumper then Overlap m else
    let m := wr m dest (m src) in
    if m dest =? 0 then Copied m
    else strcpy_loop watch_dest overlap_bumper dmax m (dest + 1) (src + 1)
  end.

Definition finish_copy (orig_dest : Z) (c : copy) : result :=
  match c with
  | Copied m => (EOK, m, None)
  | Overlap m => handle_error m orig_dest ESOVRLP
  | NoSpace m => handle_error m orig_dest ESNOSPC
  end.

Definition strcpy_s (m : mem) (dest dmax src : Z) : result :=
  if dest =? 0 then constraint m ESNULLP else
  if dmax =? 0 then constraint m ESZEROL else
  if RSIZE_MAX_STR <? dmax then constraint m ESLEMAX else
  if src =? 0 then handle_error m dest ESNULLP else
  if dest =? src then (EOK, m, None) else
  finish_copy dest
    (if dest <? src then strcpy_loop true src (Z.to_nat dmax) m dest src
     else strcpy_loop false dest (Z.to_nat dmax) m dest src).

(** ** [strncpy_s] *)

Fixpoint strncpy_loop (watch_dest : bool) (overlap_bumper : Z) (dmax : nat) (m : mem) (dest src slen : Z) : copy :=
  match dmax with
  | O => NoSpace m
  | S dmax =>
    if (if watch_dest then dest else src) =? overlap_bumper then Overlap m else
    if slen =? 0 then Copied (wr m dest 0) else
    let m := wr m dest (m src) in
    if m dest =? 0 then Copied m
    else strncpy_loop watch_dest overlap_bumper dmax m (dest + 1) (src + 1) (slen - 1)
  end.

Definition strncpy_s (m : mem) (dest dmax src slen : Z) : result :=
  if dest =? 0 then constraint m ESNULLP else
  if dmax =? 0 then constraint m ESZEROL else
  if RSIZE_MAX_STR <? dmax then constraint m ESLEMAX else
  if src =? 0 then handle_error m dest ESNULLP else
  if slen =? 0 then handle_error m dest ESZEROL else
  if RSIZE_MAX_STR <? slen then handle_error m dest ESLEMAX else
  finish_copy dest
    (if dest <? src then strncpy_loop true src (Z.to_nat dmax) m dest src slen
     else strncpy_loop false dest (Z.to_nat dmax) m dest src slen).

(** ** [strnlen_s] *)

(** [while ( *dest && dmax)]: the count, and the addresses read. *)
Fixpoint strnlen_loop (m : mem) (dmax : nat) (dest : Z) : Z * list Z :=
  if m dest =? 0 then (0, [dest]) else
  match dmax with
  | O => (0, [dest])
  | S dmax => let '(count, reads) := strnlen_loop m dmax (dest + 1) in (count + 1, dest :: reads)
  end.

Definition strnlen_s (m : mem) (dest dmax : Z) : Z * list Z * option Z :=
  if dest =? 0 then (0, [], None) else
  if dmax =? 0 then (0, [], Some ESZEROL) else
  if RSIZE_MAX_STR <? dmax then (0, [], Some ESLEMAX) else
  (strnlen_loop m (Z.to_nat dmax) dest, None).

(** ** Specification *)

(** The C string at [a] has the [n] nonnull bytes [m a .. m (a + n - 1)]. *)
Definition cstring (m : mem) (a : Z) (n : nat) : Prop :=
  m (a + Z.of_nat n) = 0 /\ forall i, (i < n)%nat -> m (a + Z.of_nat i) <> 0.

Lemma wr_same m a v : wr m a v a = v.
Proof. unfold wr. now rewrite Z.eqb_refl. Qed.

Lemma wr_other m a v x : x <> a -> wr m a v x = m x.
Proof. intros H. unfold wr. destruct (Z.eqb_spec x a); [lia|reflexivity]. Qed.

Definition copy_mem (c : copy) : mem := match c with Copied m | Overlap m | NoSpace m => m end.

(** [strcpy_s] without a limit on the number of characters is [strncpy_s] with one that
    is not reached. *)
Lemma strcpy_loop_strncpy w b n : forall m d s slen,
  Z.of_nat n <= slen -> strcpy_loop w b n m d s = strncpy_loop w b n m d s slen.
Proof.
  induction n as [|n IH]; intros m d s slen H; [reflexivity|]. cbn [strcpy_loop strncpy_loop].
  destruct (_ =? b); [reflexivity|]. destruct (Z.eqb_spec slen 0); [lia|].
  destruct (_ =? 0); [reflexivity|]. apply IH. lia.
Qed.

(** The loop writes inside the destination only. *)
Lemma strncpy_loop_frame w b n : forall m d s slen x,
  x < d \/ d + Z.of_nat n <= x -> copy_mem (strncpy_loop w b n m d s slen) x = m x.
Proof.
  induction n as [|n IH]; intros m d s slen x H; [reflexivity|]. cbn [strncpy_loop].
  destruct (_ =? b); [reflexivity|]. destruct (slen =? 0); [cbn [copy_mem]; apply wr_other; lia|].
  destruct (_ =? 0); [cbn [copy_mem]; apply wr_other; lia|].
  rewrite IH by lia. apply wr_other. lia.
Qed.

(** When it reports success the destination holds a terminated string. *)
Lemma strncpy_loop_terminated w b n : forall m d s slen m',
  strncpy_loop w b n m d s slen = Copied m' -> exists k, (k < n)%nat /\ m' (d + Z.of_nat k) = 0.
Proof.
  induction n as [|n IH]; intros m d s slen m' H; [discriminate|]. cbn [strncpy_loop] in H.
  destruct (_ =? b); [discriminate|]. destruct (slen =? 0).
  - injection H as <-. exists O. split; [lia|]. rewrite Z.add_0_r. apply wr_same.
  - destruct (Z.eqb_spec (wr m d (m s) d) 0) as [E|E].
    + injection H as <-. exists O. split; [lia|]. rewrite Z.add_0_r. exact E.
    + apply IH in H as (k & Hk & E'). exists (S k). split; [lia|]. rewrite <- E'. f_equal. lia.
Qed.

(** Copying a string that fits and does not overlap the destination. *)
Lemma strncpy_loop_copies (w : bool) b n : forall m d s slen k,
  (k < n)%nat -> 0 < slen ->
  (forall i, (i < k)%nat -> m (s + Z.of_nat i) <> 0) ->
  (m (s + Z.of_nat k) = 0 /\ Z.of_nat k < slen \/ slen = Z.of_nat k) ->
  (d + Z.of_nat k < s \/ s + Z.of_nat k < d) ->
  (forall i, (i <= k)%nat -> (if w then d else s) + Z.of_nat i <> b) ->
  exists m', strncpy_loop w b n m d s slen = Copied m'
    /\ (forall i, (i < k)%nat -> m' (d + Z.of_nat i) = m (s + Z.of_nat i))
    /\ m' (d + Z.of_nat k) = 0
    /\ (forall x, x < d \/ d + Z.of_nat k < x -> m' x = m x).
Proof.
  induction n as [|n IH]; intros m d s slen k Hk Hs Hnz Hend Hov Hb; [lia|]. cbn [strncpy_loop].
  pose proof (Hb O ltac:(lia)) as Hb0. rewrite Z.add_0_r in Hb0.
  destruct (Z.eqb_spec (if w then d else s) b); [congruence|].
  destruct (Z.eqb_spec slen 0); [lia|]. rewrite wr_same.
  destruct k as [|k].
  - rewrite Z.add_0_r in *. destruct Hend as [[E _]|E]; [|lia]. rewrite E, Z.eqb_refl.
    eexists. split; [reflexivity|]. split; [lia|]. split; [apply wr_same|].
    intros x Hx. apply wr_other. lia.
  - pose proof (Hnz O ltac:(lia)) as H0. rewrite Z.add_0_r in H0.
    destruct (Z.eqb_spec (m s) 0); [congruence|].
    destruct (Z.eq_dec slen 1) as [->|].
    + destruct Hend as [[_ L]|L]; [lia|]. assert (k = O) by lia. subst k.
      destruct n as [|n]; [lia|]. cbn [strncpy_loop].
      pose proof (Hb 1%nat ltac:(lia)) as Hb1.
      destruct (Z.eqb_spec (if w then d + 1 else s + 1) b); [destruct w; lia|]. cbn [Z.sub Z.eqb Z.add Z.opp Z.pos_sub].
      eexists. split; [reflexivity|]. split.
      * intros i Hi. assert (i = O) by lia. subst i. rewrite !Z.add_0_r, wr_other by lia. apply wr_same.
      * split; [apply wr_same|]. intros x Hx. rewrite !wr_other by lia. reflexivity.
    + destruct (IH (wr m d (m s)) (d + 1) (s + 1) (slen - 1) k) as (m' & E & C & T & F); try lia.
      * intros i Hi. rewrite wr_other by lia. specialize (Hnz (S i) ltac:(lia)).
        now replace (s + 1 + Z.of_nat i) with (s + Z.of_nat (S i)) by lia.
      * rewrite wr_other by lia. replace (s + 1 + Z.of_nat k) with (s + Z.of_nat (S k)) by lia.
        destruct Hend as [[E1 E2]|E2]; [left; split; [exact E1|lia]|right; lia].
      * intros i Hi. specialize (Hb (S i) ltac:(lia)). destruct w; lia.
      * exists m'. split; [exact E|]. split; [|split].
        -- intros [|i] Hi.
           ++ rewrite !Z.add_0_r. rewrite F by lia. apply wr_same.
           ++ replace (d + Z.of_nat (S i)) with (d + 1 + Z.of_nat i) by lia. rewrite C, wr_other by lia.
              f_equal. lia.
        -- rewrite <- T. f_equal. lia.
        -- intros x Hx. rewrite F, wr_other by lia. reflexivity.
Qed.

(** A call with arguments the runtime constraints allow. *)
Definition args_ok (dest dmax src : Z) : Prop := 0 < dest /\ 0 < dmax <= RSIZE_MAX_STR /\ 0 < src.

Lemma finish_copy_frame c m d x :
  copy_mem c x = m x -> x <> d -> (let '(_, m', _) := finish_copy d c in m' x) = m x.
Proof. intros H N. destruct c; cbn [finish_copy handle_error copy_mem] in *; rewrite ?wr_other by exact N; exact H. Qed.

Lemma finish_copy_terminated c d dmax :
  0 < dmax -> (forall m', c = Copied m' -> exists k, 0 <= k < dmax /\ m' (d + k) = 0) ->
  let '(e, m', _) := finish_copy d c in
  exists k, 0 <= k < dmax /\ m' (d + k) = 0 /\ (e <> EOK -> k = 0).
Proof.
  intros H C. destruct c as [m|m|m]; cbn [finish_copy handle_error].
  - destruct (C m eq_refl) as (k & Hk & E). exists k. split; [lia|]. split; [exact E|]. unfold EOK. congruence.
  - exists 0. rewrite Z.add_0_r, wr_same. repeat split; lia.
  - exists 0. rewrite Z.add_0_r, wr_same. repeat split; lia.
Qed.

(** The limit [strcpy_s] stands for. *)
Lemma strcpy_s_strncpy_s m dest dmax src :
  dest <> src -> strcpy_s m dest dmax src = strncpy_s m dest dmax src RSIZE_MAX_STR.
Proof.
  intros N. unfold strcpy_s, strncpy_s. destruct (dest =? 0), (dmax =? 0); auto.
  destruct (Z.ltb_spec RSIZE_MAX_STR dmax); [reflexivity|]. destruct (src =? 0); [reflexivity|].
  destruct (Z.eqb_spec dest src); [congruence|].
  change (RSIZE_MAX_STR =? 0) with false. change (RSIZE_MAX_STR <? RSIZE_MAX_STR) with false.
  rewrite !(strcpy_loop_strncpy _ _ _ _ _ _ RSIZE_MAX_STR); [reflexivity| |];
    unfold RSIZE_MAX_STR in *; cbn in *; lia.
Qed.

(** Memory safety.  Whatever the arguments and the contents of memory, overlap
    included, [strncpy_s] changes no byte outside [dest .. dest + dmax - 1]; and unless the
    destination pointer or its size is invalid, that range holds a null-terminated
    string afterwards, the empty string if the call failed. *)
Theorem strncpy_s_safe m dest dmax src slen :
  0 <= dmax ->
  let '(e, m', _) := strncpy_s m dest dmax src slen in
  (forall x, x < dest \/ dest + dmax <= x -> m' x = m x) /\
  (dest <> 0 -> 0 < dmax <= RSIZE_MAX_STR ->
   exists k, 0 <= k < dmax /\ m' (dest + k) = 0 /\ (e <> EOK -> k = 0)).
Proof.
  intros H. unfold strncpy_s.
  destruct (Z.eqb_spec dest 0); [cbn [constraint]; split; [reflexivity|congruence]|].
  destruct (Z.eqb_spec dmax 0); [cbn [constraint]; split; [reflexivity|lia]|].
  destruct (Z.ltb_spec RSIZE_MAX_STR dmax); [cbn [constraint]; split; [reflexivity|lia]|].
  assert (HE : forall err, let '(e, m', _) := handle_error m dest err in
    (forall x, x < dest \/ dest + dmax <= x -> m' x = m x) /\
    (dest <> 0 -> 0 < dmax <= RSIZE_MAX_STR -> exists k, 0 <= k < dmax /\ m' (dest + k) = 0 /\ (e <> EOK -> k = 0))).
  { intros err. cbn [handle_error]. split; [intros x Hx; apply wr_other; lia|].
    intros _ _. exists 0. rewrite Z.add_0_r, wr_same. repeat split; lia. }
  destruct (src =? 0); [apply HE|]. destruct (slen =? 0); [apply HE|].
  destruct (RSIZE_MAX_STR <? slen); [apply HE|]. clear HE.
  assert (HC : forall w b, let '(e, m', _) := finish_copy dest (strncpy_loop w b (Z.to_nat dmax) m dest src slen) in
    (forall x, x < dest \/ dest + dmax <= x -> m' x = m x) /\
    (dest <> 0 -> 0 < dmax <= RSIZE_MAX_STR -> exists k, 0 <= k < dmax /\ m' (dest + k) = 0 /\ (e <> EOK -> k = 0))).
  { intros w b. set (c := strncpy_loop _ _ _ _ _ _ _).
    pose proof (finish_copy_terminated c dest dmax ltac:(lia)) as T.
    pose proof (fun x => finish_copy_frame c m dest x) as F.
    destruct (finish_copy dest c) as [[e m'] r]. split.
    - intros x Hx. apply F; [|lia]. apply strncpy_loop_frame. lia.
    - intros _ _. apply T. intros m1 E. apply strncpy_loop_terminated in E as (k & Hk & E).
      exists (Z.of_nat k). split; [lia|exact E]. }
  destruct (dest <? src); apply HC.
Qed.

Lemma strncpy_s_safe_witness :
  let m := fun x => if (10 <=? x) && (x <? 15) then 65 else 0 in
  0 <= 4 /\ let '(e, m', _) := strncpy_s m 20 4 10 9 in
  (forall x, x < 20 \/ 20 + 4 <= x -> m' x = m x) /\
  (20 <> 0 -> 0 < 4 <= RSIZE_MAX_STR -> exists k, 0 <= k < 4 /\ m' (20 + k) = 0 /\ (e <> EOK -> k = 0)).
Proof. intros m. split; [lia|]. apply (strncpy_s_safe m 20 4 10 9). lia. Defined.

(** functional correctness.  If the string at [src] has [n] characters, fewer than the
    destination holds, and the two ranges do not overlap, then [strcpy_s] succeeds: the
    destination is a copy of the string and the rest of memory is as before. *)
Theorem strcpy_s_copies m dest dmax src n :
  args_ok dest dmax src -> cstring m src n -> Z.of_nat n < dmax ->
  dest + Z.of_nat n < src \/ src + Z.of_nat n < dest ->
  exists m', strcpy_s m dest dmax src = (EOK, m', None)
    /\ cstring m' dest n /\ (forall i, (i < n)%nat -> m' (dest + Z.of_nat i) = m (src + Z.of_nat i))
    /\ (forall x, x < dest \/ dest + Z.of_nat n < x -> m' x = m x).
Proof.
  intros (Hd & Hm & Hs) [Hz Hnz] Hn Hov.
  rewrite strcpy_s_strncpy_s by lia. unfold strncpy_s.
  destruct (Z.eqb_spec dest 0), (Z.eqb_spec dmax 0), (Z.ltb_spec RSIZE_MAX_STR dmax), (Z.eqb_spec src 0); try lia.
  change (RSIZE_MAX_STR =? 0) with false. change (RSIZE_MAX_STR <? RSIZE_MAX_STR) with false.
  assert (G : forall (w : bool) b, (forall i, (i <= n)%nat -> (if w then dest else src) + Z.of_nat i <> b) ->
    exists m', strncpy_loop w b (Z.to_nat dmax) m dest src RSIZE_MAX_STR = Copied m'
      /\ cstring m' dest n /\ (forall i, (i < n)%nat -> m' (dest + Z.of_nat i) = m (src + Z.of_nat i))
      /\ (forall x, x < dest \/ dest + Z.of_nat n < x -> m' x = m x)).
  { intros w b Hb.
    destruct (strncpy_loop_copies w b (Z.to_nat dmax) m dest src RSIZE_MAX_STR n) as (m' & E & C & T & F); auto; try lia.
    exists m'. split; [exact E|]. split; [split; [exact T|]|auto]. intros i Hi. rewrite C by lia. now apply Hnz. }
  destruct (Z.ltb_spec dest src).
  - destruct (G true src) as (m' & E & R); [intros i Hi; lia|]. rewrite E. exists m'. split; [reflexivity|exact R].
  - destruct (G false dest) as (m' & E & R); [intros i Hi; lia|]. rewrite E. exists m'. split; [reflexivity|exact R].
Qed.

Lemma strcpy_s_copies_witness :
  let m := fun x => if (10 <=? x) && (x <? 13) then 65 else 0 in
  exists m', strcpy_s m 20 8 10 = (EOK, m', None) /\ cstring m' 20 3
    /\ (forall i, (i < 3)%nat -> m' (20 + Z.of_nat i) = m (10 + Z.of_nat i))
    /\ (forall x, x < 20 \/ 20 + Z.of_nat 3 < x -> m' x = m x).
Proof.
  intros m. apply (strcpy_s_copies m 20 8 10 3).
  - unfold args_ok, RSIZE_MAX_STR. cbn. lia.
  - split; [reflexivity|]. intros [|[|[|i]]] Hi; cbn; lia.
  - lia.
  - right. lia.
Defined.

(** [strnlen_s] returns the length of the string, or [dmax] if it has no terminator
    among the first [dmax] bytes; in that case, and only then, it also reads the byte
    after them. *)
Theorem strnlen_s_length m dest dmax :
  dest <> 0 -> 0 < dmax <= RSIZE_MAX_STR ->
  exists (n : nat) reads, strnlen_s m dest dmax = (Z.of_nat n, reads, None)
    /\ Z.of_nat n <= dmax
    /\ (forall i, (i < n)%nat -> m (dest + Z.of_nat i) <> 0)
    /\ (Z.of_nat n < dmax -> m (dest + Z.of_nat n) = 0)
    /\ reads = map (fun i => dest + Z.of_nat i) (seq 0 (S n)).
Proof.
  intros Hd Hm. unfold strnlen_s.
  destruct (Z.eqb_spec dest 0), (Z.eqb_spec dmax 0), (Z.ltb_spec RSIZE_MAX_STR dmax); try lia.
  assert (G : forall k d, exists n reads, strnlen_loop m k d = (Z.of_nat n, reads) /\ (n <= k)%nat
    /\ (forall i, (i < n)%nat -> m (d + Z.of_nat i) <> 0) /\ ((n < k)%nat -> m (d + Z.of_nat n) = 0)
    /\ reads = map (fun i => d + Z.of_nat i) (seq 0 (S n))).
  { clear. induction k as [|k IH]; intros d; cbn [strnlen_loop].
    - exists O, [d]. split; [destruct (m d =? 0); reflexivity|]. split; [lia|]. split; [lia|]. split; [lia|].
      cbn. now rewrite Z.add_0_r.
    - destruct (Z.eqb_spec (m d) 0) as [E|E].
      + exists O, [d]. split; [reflexivity|]. split; [lia|]. split; [lia|]. rewrite Z.add_0_r.
        split; [auto|]. cbn. now rewrite Z.add_0_r.
      + destruct (IH (d + 1)) as (n & reads & -> & L & Nz & Zr & R). exists (S n), (d :: reads).
        split; [f_equal; lia|]. split; [lia|]. split; [|split].
        * intros [|i] Hi; [now rewrite Z.add_0_r|]. specialize (Nz i ltac:(lia)).
          now replace (d + Z.of_nat (S i)) with (d + 1 + Z.of_nat i) by lia.
        * intros Hn. rewrite <- Zr by lia. f_equal. lia.
        * change (seq 0 (S (S n))) with (0%nat :: seq 1 (S n)). rewrite <- seq_shift, R, map_cons, map_map.
          f_equal; [lia|]. apply map_ext. intros i. lia. }
  destruct (G (Z.to_nat dmax) dest) as (k & reads & -> & L & Nz & Zr & R).
  exists k, reads. split; [reflexivity|]. split; [lia|]. split; [exact Nz|]. split; [|exact R].
  intros Hk. apply Zr. lia.
Qed.

Lemma strnlen_s_length_witness :
  exists (n : nat) reads, strnlen_s (fun _ => 65) 20 4 = (Z.of_nat n, reads, None)
    /\ Z.of_nat n <= 4
    /\ (forall i, (i < n)%nat -> (fun _ => 65) (20 + Z.of_nat i) <> 0)
    /\ (Z.of_nat n < 4 -> (fun _ : Z => 65) (20 + Z.of_nat n) = 0)
    /\ reads = map (fun i => 20 + Z.of_nat i) (seq 0 (S n)).
Proof. apply (strnlen_s_length (fun _ => 65) 20 4); [discriminate|unfold RSIZE_MAX_STR; cbn; lia]. Defined.
