(* ===== verification/CilkSync.v ===== *)
(** * Mutexes and wake-up of the Cilk runtime ([spin_mutex.c], [worker_mutex.c],
    [signal_node.c])

    The functions are the sequences of atomic operations they perform on the shared
    words, executed by any number of threads in any interleaving. *)

From S2P Require Import Prelude Threads.
From stdpp Require Import list relations.
#[local] Open Scope Z_scope.

(** ** Spin mutexes and worker mutexes *)

(** A [spin_mutex] is its [lock] word; a worker's [mutex] also names its owner (0: none,
    else the index of the worker plus one). *)
Inductive mutex_kind := SpinMutex | WorkerMutex.

Record mutex := mk_mutex { lock : Z; owner : Z }.

(** [spin_mutex_init], [__cilkrts_mutex_init] *)
Definition mutex_init : mutex := mk_mutex 0 0.

Definition maxspin : Z := 1000.

(** Where a thread stands. *)
Inductive mpc :=
| MIdle
| MTry (count : Z)        (* in lock: TRY_ACQUIRE is next *)
| MSpin (count : Z)       (* in lock: pausing, then testing m->lock *)
| MTryOnce                (* in trylock: TRY_ACQUIRE is next *)
| MAcquired               (* CILK_ASSERT(m->owner == 0); m->owner = w *)
| MCritical
| MRelease                (* m->owner cleared, RELEASE is next *)
| MFault.                 (* a CILK_ASSERT failed *)

(** [if (++count >= maxspin) { __cilkrts_yield(); count = 0; }] *)
Definition spin_count (count : Z) : Z := if maxspin <=? count + 1 then 0 else count + 1.

(** One operation of the thread with index [w]. *)
Inductive mutex_step (k : mutex_kind) (w : nat) (m : mutex) : mpc -> mutex -> mpc -> Prop :=
| ms_lock : mutex_step k w m MIdle m (MTry 0)
| ms_trylock : mutex_step k w m MIdle m MTryOnce
| ms_try count :
    mutex_step k w m (MTry count) (mk_mutex 1 m.(owner))
      (if m.(lock) =? 0 then match k with SpinMutex => MCritical | WorkerMutex => MAcquired end
       else MSpin count)
| ms_try_once :
    mutex_step k w m MTryOnce (mk_mutex 1 m.(owner))
      (if m.(lock) =? 0 then match k with SpinMutex => MCritical | WorkerMutex => MAcquired end
       else MIdle)
| ms_spin count :
    mutex_step k w m (MSpin count) m
      (if m.(lock) =? 0 then MTry (spin_count count) else MSpin (spin_count count))
| ms_own :
    k = WorkerMutex ->
    mutex_step k w m MAcquired
      (if m.(owner) =? 0 then mk_mutex m.(lock) (Z.of_nat w + 1) else m)
      (if m.(owner) =? 0 then MCritical else MFault)
| ms_unlock_spin : k = SpinMutex -> mutex_step k w m MCritical (mk_mutex 0 m.(owner)) MIdle
| ms_unlock_worker :
    k = WorkerMutex ->
    mutex_step k w m MCritical
      (if m.(owner) =? Z.of_nat w + 1 then mk_mutex m.(lock) 0 else m)
      (if m.(owner) =? Z.of_nat w + 1 then MRelease else MFault)
| ms_release : k = WorkerMutex -> mutex_step k w m MRelease (mk_mutex 0 m.(owner)) MIdle.

(** The operations of the two kinds. *)
Definition spin_mutex_step := mutex_step SpinMutex.
Definition worker_mutex_step := mutex_step WorkerMutex.

Definition mconfig : Type := mutex * list mpc.

Inductive mstep (k : mutex_kind) : mconfig -> mconfig -> Prop :=
| mstep_thread m ths w p m' p' :
    ths !! w = Some p -> mutex_step k w m p m' p' -> mstep k (m, ths) (m', <[w := p']> ths).

Definition mstart (n : nat) : mconfig := (mutex_init, replicate n MIdle).

(** *** Invariant *)

(** Whether a thread is between taking the lock word and giving it back. *)
Definition inside (p : mpc) : Z :=
  match p with MAcquired | MCritical | MRelease => 1 | _ => 0 end.

Record mutex_inv (k : mutex_kind) (c : mconfig) : Prop := {
  mi_lock : c.1.(lock) = sumZ (inside <$> c.2) /\ c.1.(lock) <= 1;
  mi_owner w : k = WorkerMutex -> c.2 !! w = Some MCritical -> c.1.(owner) = Z.of_nat w + 1;
  mi_free : k = WorkerMutex -> c.1.(owner) <> 0 -> exists w, c.2 !! w = Some MCritical;
  mi_fault w : c.2 !! w <> Some MFault;
}.

Lemma inside_nonneg p : 0 <= inside p.
Proof. destruct p; simpl; lia. Qed.

Lemma sum_inside ths w p p' :
  ths !! w = Some p -> sumZ (inside <$> <[w := p']> ths) = sumZ (inside <$> ths) - inside p + inside p'.
Proof. apply sumZ_fmap_insert. Qed.

(** Only one thread is inside. *)
Lemma inside_unique k c i j p q :
  mutex_inv k c -> c.2 !! i = Some p -> c.2 !! j = Some q -> inside p = 1 -> inside q = 1 -> i = j.
Proof.
  intros [[E L] _ _ _] Hi Hj Hp Hq. destruct (decide (i = j)) as [|N]; [done|].
  pose proof (sumZ_two inside c.2 i j p q inside_nonneg N Hi Hj). lia.
Qed.

Lemma mutex_inv_step k c c' : mutex_inv k c -> mstep k c c' -> mutex_inv k c'.
Proof.
  intros Hi Hs. destruct Hs as [m ths w p m' p' Hw Hs].
  pose proof Hi as [[E L] Ho Hf Hx]. cbn [fst snd] in *.
  pose proof (sumZ_nonneg inside ths inside_nonneg) as N.
  pose proof (sumZ_member inside ths w p inside_nonneg Hw) as M.
  assert (Hlw : (w < length ths)%nat) by (eapply lookup_lt_Some; exact Hw).
  assert (Oth : forall p' i q, <[w := p']> ths !! i = Some q -> i = w /\ q = p' \/ i <> w /\ ths !! i = Some q).
  { clear p' Hs. intros p' i q Hq. destruct (decide (i = w)) as [->|Ne].
    - rewrite list_lookup_insert_eq in Hq by done. left. split; congruence.
    - rewrite list_lookup_insert_ne in Hq by done. auto. }
  assert (Uni : forall i q, ths !! i = Some q -> inside p = 1 -> inside q = 1 -> i = w).
  { intros i q Hq H1 H2. apply (inside_unique k (m, ths) i w q p); auto. }
  assert (Hno : p = MAcquired -> k = WorkerMutex -> owner m = 0).
  { intros -> Hk. destruct (Z.eq_dec (owner m) 0) as [|Ne]; [done|]. destruct (Hf Hk Ne) as [i Hc].
    rewrite (Uni i MCritical Hc eq_refl eq_refl) in Hc. congruence. }
  assert (Hst : forall i, ths !! i = Some MCritical -> i <> w -> inside p = 0).
  { intros i Hc Ne. destruct p; try reflexivity; exfalso; apply Ne; by apply (Uni i MCritical). }
  destruct Hs as [| |count|  |count|Hk|Hk|Hk|Hk]; cbn [inside lock owner] in *.
  all: try rewrite (Hno eq_refl Hk); try rewrite (Ho w Hk Hw), Z.eqb_refl; cbn [Z.eqb].
  all: try (destruct (Z.eqb_spec (lock m) 0)).
  all: split; cbn [fst snd lock owner]; rewrite ?(sum_inside _ _ _ _ Hw).
  all: try (destruct k; cbn [inside]; lia).
  all: try (intros i Hq; destruct (Oth _ i _ Hq) as [[-> Hq']|[Ne Hq']];
    [destruct k; discriminate | by apply (Hx i)]).
  all: try (intros i Hk' Hq; destruct (Oth _ i _ Hq) as [[-> Hq']|[Ne Hq']];
    [first [done | destruct k; done] | first [by apply Ho | specialize (Hst i Hq' Ne); lia]]).
  all: try (intros Hk' Hne; first [done | exists w; by apply list_lookup_insert_eq |
    destruct (Hf Hk' Hne) as [i Hc]; exists i; rewrite list_lookup_insert_ne; [done|];
    intros ->; rewrite Hw in Hc; congruence]).
Qed.

Lemma mutex_inv_start k n : mutex_inv k (mstart n).
Proof.
  split; cbn [fst snd mstart mutex_init lock owner].
  - rewrite sumZ_zeros by (by apply Forall_replicate). lia.
  - intros w _ H. by apply lookup_replicate in H as [? _].
  - done.
  - intros w H. by apply lookup_replicate in H as [? _].
Qed.

Lemma mutex_inv_reachable k c c' : mutex_inv k c -> rtc (mstep k) c c' -> mutex_inv k c'.
Proof. intros Hi Hr. induction Hr; eauto using mutex_inv_step. Qed.

(** C39: both kinds of mutex exclude each other's critical sections, and no assertion of
    the worker mutex can fail: its owner field is null when the lock is taken and names
    the caller when it is released.  This holds however the threads interleave, whether
    they lock or try to lock. *)
Theorem mutex_exclusion k n c :
  rtc (mstep k) (mstart n) c ->
  (forall i j, c.2 !! i = Some MCritical -> c.2 !! j = Some MCritical -> i = j) /\
  (forall w, c.2 !! w <> Some MFault) /\
  (k = WorkerMutex -> forall w, c.2 !! w = Some MCritical -> c.1.(owner) = Z.of_nat w + 1).
Proof.
  intros Hr. pose proof (mutex_inv_reachable k _ _ (mutex_inv_start k n) Hr) as Hi.
  split; [|split].
  - intros i j Hci Hcj. by apply (inside_unique k c i j MCritical MCritical).
  - intros w. by apply (mi_fault _ _ Hi).
  - intros Hk w Hc. by apply (mi_owner _ _ Hi).
Qed.

Lemma mutex_exclusion_witness :
  let c := (mk_mutex 1 1, [MCritical; MSpin 0]) in
  rtc (mstep WorkerMutex) (mstart 2) c /\ forall w, c.2 !! w <> Some MFault.
Proof.
  intros c.
  assert (S : rtc (mstep WorkerMutex) (mstart 2) c).
  { eapply rtc_l; [apply (mstep_thread _ _ _ 0 MIdle); [reflexivity|apply ms_lock]|].
    eapply rtc_l; [apply (mstep_thread _ _ _ 1 MIdle); [reflexivity|apply ms_lock]|].
    eapply rtc_l; [apply (mstep_thread _ _ _ 0 (MTry 0)); [reflexivity|apply ms_try]|].
    eapply rtc_l; [apply (mstep_thread _ _ _ 1 (MTry 0)); [reflexivity|apply ms_try]|].
    eapply rtc_l; [apply (mstep_thread _ _ _ 0 MAcquired); [reflexivity|by apply ms_own]|].
    apply rtc_refl. }
  split; [exact S|]. exact (proj1 (proj2 (mutex_exclusion WorkerMutex 2 c S))).
Defined.

(** ** Signal nodes *)

(** A [signal_node_t]: the run flag and the value of the semaphore. *)
Record signal_node := mk_signal_node { run : Z; sem : Z }.

(** [signal_node_create] *)
Definition signal_node_create : signal_node := mk_signal_node 0 0.

(** [signal_node_should_wait] *)
Definition signal_node_should_wait (node : signal_node) : bool := run node =? 0.

(** Where the waiting worker stands in [signal_node_wait]. *)
Inductive wait_pc := WOutside | WTest | WSemaphore.

(** Where a signalling thread stands in [signal_node_msg]. *)
Inductive msg_pc := SIdle | SPost.

Record sconfig := mk_sconfig { node : signal_node; waiter : wait_pc; senders : list msg_pc }.

(** One atomic operation: the one worker of the node waits, any thread sends it messages;
    a message that is neither 0 nor 1 is a failed assertion and has no step. *)
Inductive sstep : sconfig -> sconfig -> Prop :=
| ss_wait nd ss : sstep (mk_sconfig nd WOutside ss) (mk_sconfig nd WTest ss)
| ss_test nd ss :
    sstep (mk_sconfig nd WTest ss)
      (mk_sconfig nd (if signal_node_should_wait nd then WSemaphore else WOutside) ss)
| ss_sem_wait nd ss :
    0 < sem nd ->
    sstep (mk_sconfig nd WSemaphore ss) (mk_sconfig (mk_signal_node (run nd) (sem nd - 1)) WTest ss)
| ss_msg_sleep nd w ss t :
    ss !! t = Some SIdle -> sstep (mk_sconfig nd w ss) (mk_sconfig (mk_signal_node 0 (sem nd)) w ss)
| ss_msg_wake nd w ss t :
    ss !! t = Some SIdle ->
    sstep (mk_sconfig nd w ss) (mk_sconfig (mk_signal_node 1 (sem nd)) w (<[t := SPost]> ss))
| ss_post nd w ss t :
    ss !! t = Some SPost ->
    sstep (mk_sconfig nd w ss) (mk_sconfig (mk_signal_node (run nd) (sem nd + 1)) w (<[t := SIdle]> ss)).

Definition sstart (n : nat) : sconfig := mk_sconfig signal_node_create WOutside (replicate n SIdle).

Definition posting (p : msg_pc) : Z := match p with SPost => 1 | SIdle => 0 end.

(** The worker sleeps only if it may, or if a wake-up is on its way. *)
Definition signal_inv (c : sconfig) : Prop :=
  0 <= sem (node c) /\ (run (node c) = 0 \/ run (node c) = 1) /\
  (waiter c = WSemaphore -> run (node c) = 1 -> 0 < sem (node c) + sumZ (posting <$> senders c)).

Lemma posting_nonneg p : 0 <= posting p.
Proof. destruct p; simpl; lia. Qed.

Lemma signal_inv_step c c' : signal_inv c -> sstep c c' -> signal_inv c'.
Proof.
  intros (Hs & Hr & Hw) Hstep. destruct Hstep; unfold signal_inv in *; cbn [node waiter senders run sem] in *.
  - repeat split; auto. done.
  - repeat split; auto. unfold signal_node_should_wait. destruct (Z.eqb_spec (run nd) 0); [lia|done].
  - repeat split; [lia|auto|done].
  - repeat split; [lia|auto|lia].
  - repeat split; [lia|auto|]. intros Ew _. rewrite (sumZ_fmap_insert posting _ _ _ _ H). cbn [posting].
    pose proof (sumZ_nonneg posting ss posting_nonneg). lia.
  - repeat split; [lia|auto|]. intros Ew Er. rewrite (sumZ_fmap_insert posting _ _ _ _ H). cbn [posting].
    specialize (Hw Ew Er). lia.
Qed.

(** C40: no wake-up is lost.  If the worker is blocked on the semaphore while it should be
    running, some thread that sent the wake-up message is about to post the semaphore. *)
Theorem signal_node_no_lost_wakeup n c :
  rtc sstep (sstart n) c -> waiter c = WSemaphore -> run (node c) <> 0 -> sem (node c) = 0 ->
  exists t, senders c !! t = Some SPost.
Proof.
  intros Hr Hw Hrun Hsem.
  assert (Hi : signal_inv c).
  { remember (sstart n) as c0. assert (H0 : signal_inv c0).
    { subst c0. repeat split; cbn; auto; [lia|done]. }
    clear Heqc0 Hw Hrun Hsem. induction Hr; eauto using signal_inv_step. }
  destruct Hi as (_ & H01 & H). specialize (H Hw ltac:(lia)). rewrite Hsem in H.
  destruct (sumZ_pos posting (senders c) posting_nonneg) as (t & p & Ht & Hp); [lia|].
  exists t. destruct p; [done|exact Ht].
Qed.

Lemma signal_node_no_lost_wakeup_witness :
  let c := mk_sconfig (mk_signal_node 1 0) WSemaphore [SPost] in
  rtc sstep (sstart 1) c /\ exists t, senders c !! t = Some SPost.
Proof.
  intros c.
  assert (S : rtc sstep (sstart 1) c).
  { eapply rtc_l; [apply ss_wait|]. eapply rtc_l; [apply ss_test|].
    eapply rtc_l; [apply (ss_msg_wake _ _ _ 0); reflexivity|]. apply rtc_refl. }
  split; [exact S|]. apply (signal_node_no_lost_wakeup 1 c S); [reflexivity|discriminate|reflexivity].
Defined.
