(* ===== verification/Pairing.v ===== *)
(** * Edge numbering of the graph sketches ([sketch_expr/agm_sketching/src/util.cpp])

    The pairing functions that number the edges of a graph, with their overflow checks
    on 64-bit words, and the inverse of the undirected one. *)

From S2P Require Import Prelude.
Import ListNotations.
#[local] Open Scope Z_scope.

Definition ULLMAX : Z := 2 ^ 64 - 1.

(** How a function ends: with a value, with the exception [overflow_error], or with the
    undefined behaviour of a division by zero. *)
Inductive outcome := Value (v : Z) | Overflow | DivideByZero.

(** ** The functions *)

Definition nondirectional_non_self_edge_pairing_fn (i j : Z) : outcome :=
  let '(i, j) := if j <? i then (j, i) else (i, j) in
  let jm := (j - 1)%u64 in
  let '(j, jm) := if (j .& 1)%u64 =? 0 then ((j >>> 1)%u64, jm) else (j, (jm >>> 1)%u64) in
  if j =? 0 then DivideByZero else
  if ULLMAX / j <? jm then Overflow else
  let j := (j * jm)%u64 in
  if (ULLMAX - j)%u64 <? i then Overflow else Value (i + j)%u64.

Definition cantor_pairing_fn (i j : Z) : outcome :=
  if (ULLMAX - i)%u64 <? j then Overflow else
  if (j <? ULLMAX) && ((ULLMAX - i)%u64 <? (j + 1)%u64) then Overflow else
  let am := (i + j)%u64 in
  let bm := (i + j + 1)%u64 in
  let '(am, bm) := if (am .& 1)%u64 =? 0 then ((am >>> 1)%u64, bm) else (am, (bm >>> 1)%u64) in
  if am =? 0 then DivideByZero else
  if ULLMAX / am <? bm then Overflow else
  let am := (am * bm)%u64 in
  if (ULLMAX - am)%u64 <? j then Overflow else Value (am + j)%u64.

Section Inverse.
(** Boost's integer square root of a [uint128_t]. *)
Context (isqrt : Z -> Z).

Definition inv_nondir_non_self_edge_pairing_fn (idx : Z) : Z * Z :=
  let eidx := uwrap 128 (8 * idx + 1) in
  let eidx := uwrap 128 (isqrt eidx + 1) in
  let eidx := eidx / 2 in
  let j := u64 eidx in
  let i := if (j .& 1)%u64 =? 0 then (idx - (j >>> 1) * (j - 1))%u64 else (idx - j * ((j - 1) >>> 1))%u64 in
  (i, j).
End Inverse.

(** ** Triangular numbers *)

Definition triangle (j : Z) : Z := j * (j - 1) / 2.

Lemma triangle_double j : 2 * triangle j = j * (j - 1).
Proof.
  unfold triangle. rewrite <- Z_div_exact_full_2; [reflexivity|lia|].
  destruct (Z.Even_or_Odd j) as [[k ->]|[k ->]].
  - replace (2 * k * (2 * k - 1)) with ((k * (2 * k - 1)) * 2) by ring. apply Z_mod_mult.
  - replace ((2 * k + 1) * (2 * k + 1 - 1)) with (((2 * k + 1) * k) * 2) by ring. apply Z_mod_mult.
Qed.

Lemma land_1 x : (x .& 1)%u64 = x mod 2.
Proof. change 1 with (2 ^ 1 - 1). rewrite land_mask by lia. reflexivity. Qed.

(** The two factors the functions multiply: the even one is halved first. *)
Lemma half_product a b :
  0 <= a -> 0 <= b -> Z.even a = negb (Z.even b) ->
  (if a mod 2 =? 0 then Z.shiftr a 1 * b else a * Z.shiftr b 1) * 2 = a * b.
Proof.
  intros Ha Hb E. rewrite !Z.shiftr_div_pow2 by lia. change (2 ^ 1) with 2.
  rewrite Zmod_even. destruct (Z.even a) eqn:Ea; cbn [Z.eqb].
  - apply Z.even_spec in Ea as [k ->]. rewrite Z.mul_comm, (Z.mul_comm 2 k), Z.div_mul by lia. ring.
  - destruct (Z.even b) eqn:Eb; [|discriminate]. apply Z.even_spec in Eb as [k ->].
    rewrite (Z.mul_comm 2 k), Z.div_mul by lia. ring.
Qed.

(** The overflow test [ULLMAX / a < b] is exact. *)
Lemma div_test a b : 0 < a -> (ULLMAX / a <? b) = negb (a * b <? 2 ^ 64).
Proof.
  intros Ha. apply eq_true_iff_eq. rewrite Z.ltb_lt, negb_true_iff, Z.ltb_ge. unfold ULLMAX.
  pose proof (Z.div_mod (2 ^ 64 - 1) a ltac:(lia)). pose proof (Z.mod_pos_bound (2 ^ 64 - 1) a Ha).
  split; intros H1; [|]; nia.
Qed.

Ltac words64 := unfold add64, sub64, mul64; repeat (rewrite u64_small; [|unfold fits, ULLMAX in *; try lia]).

(** The tail the two functions share: a checked product and a checked sum. *)
Lemma checked_product a b i :
  0 < a -> 0 <= b -> 0 <= i < 2 ^ 64 ->
  (if a =? 0 then DivideByZero else
   if ULLMAX / a <? b then Overflow else
   if (ULLMAX - a * b)%u64 <? i then Overflow else Value (a * b + i)%u64)
  = if i + a * b <? 2 ^ 64 then Value (i + a * b) else Overflow.
Proof.
  intros Ha Hb Hi. destruct (Z.eqb_spec a 0); [lia|]. rewrite div_test by exact Ha.
  assert (0 <= a * b) by nia. set (m := a * b) in *. unfold mul64. fold m.
  destruct (Z.ltb_spec m (2 ^ 64)); cbn [negb].
  - unfold sub64, add64. rewrite (u64_small m) by (unfold fits; lia). rewrite u64_small by (unfold fits, ULLMAX; lia).
    unfold ULLMAX. destruct (Z.ltb_spec (2 ^ 64 - 1 - m) i), (Z.ltb_spec (i + m) (2 ^ 64)); try lia; [reflexivity|].
    rewrite u64_small by (unfold fits; lia). f_equal. lia.
  - destruct (Z.ltb_spec (i + m) (2 ^ 64)); [lia|reflexivity].
Qed.

(** The product of two consecutive numbers, the even one halved first. *)
Lemma half_consecutive a b :
  0 <= a -> 0 <= b -> Z.even a = negb (Z.even b) ->
  let '(a', b') := if a mod 2 =? 0 then (Z.shiftr a 1, b) else (a, Z.shiftr b 1) in
  0 <= a' <= a /\ 0 <= b' <= b /\ 2 * (a' * b') = a * b /\ (0 < a -> 0 < a').
Proof.
  intros Ha Hb E. pose proof (half_product a b Ha Hb E) as P.
  rewrite Zmod_even in *. destruct (Z.even a) eqn:Ea; cbn [Z.eqb] in *;
    rewrite !Z.shiftr_div_pow2 in * by lia; change (2 ^ 1) with 2 in *.
  - pose proof (Z.div_mod a 2 ltac:(lia)). pose proof (Zmod_even a) as M. rewrite Ea in M. lia.
  - pose proof (Z.div_mod b 2 ltac:(lia)). pose proof (Z.mod_pos_bound b 2 ltac:(lia)). lia.
Qed.

Lemma even_pred j : Z.even j = negb (Z.even (j - 1)).
Proof. replace j with (Z.succ (j - 1)) at 1 by lia. now rewrite Z.even_succ, <- Z.negb_even. Qed.

(** ** The undirected pairing *)

(** the undirected pairing is [i + j * (j - 1) / 2], smaller endpoint first, exactly
    when this fits 64 bits; otherwise the overflow is reported.  No intermediate
    computation wraps around, and the order of the endpoints does not matter. *)
Theorem pairing_exact i j :
  fits 64 i -> fits 64 j -> i <> j ->
  let code := Z.min i j + triangle (Z.max i j) in
  nondirectional_non_self_edge_pairing_fn i j = if code <? 2 ^ 64 then Value code else Overflow.
Proof.
  intros Hi Hj N. cbv zeta. unfold nondirectional_non_self_edge_pairing_fn.
  set (lo := Z.min i j). set (hi := Z.max i j).
  replace (if j <? i then (j, i) else (i, j)) with (lo, hi)
    by (unfold lo, hi; destruct (Z.ltb_spec j i); f_equal; lia).
  assert (F : fits 64 lo /\ fits 64 hi /\ lo < hi) by (unfold lo, hi, fits in *; lia).
  destruct F as (Fl & Fh & L). clearbody lo hi. unfold fits in *. cbv zeta.
  replace (sub64 hi 1) with (hi - 1) by (unfold sub64; rewrite u64_small by (unfold fits; lia); reflexivity).
  rewrite land_1. pose proof (half_consecutive hi (hi - 1) ltac:(lia) ltac:(lia) (even_pred hi)) as P.
  pose proof (triangle_double hi) as T.
  destruct (if hi mod 2 =? 0 then _ else _) as [a b]. destruct P as (Ha & Hb & E & Pa).
  assert (0 < a) by lia.
  replace (triangle hi) with (a * b) by lia.
  rewrite <- checked_product by lia. unfold add64. now rewrite (Z.add_comm lo).
Qed.

Lemma pairing_exact_witness :
  nondirectional_non_self_edge_pairing_fn 7 3 = Value (3 + 21)
  /\ nondirectional_non_self_edge_pairing_fn 0 (2 ^ 64 - 1) = Overflow.
Proof.
  split.
  - apply (pairing_exact 7 3); [unfold fits; lia|unfold fits; lia|lia].
  - apply (pairing_exact 0 (2 ^ 64 - 1)); [unfold fits; lia|unfold fits; lia|lia].
Defined.

Lemma triangle_step a b : 0 <= a < b -> triangle a + a <= triangle b.
Proof. intros H. pose proof (triangle_double a). pose proof (triangle_double b). nia. Qed.

(** The root finds the larger endpoint. *)
Lemma root_triangle i j : 0 <= i < j -> (Z.sqrt (8 * (i + triangle j) + 1) + 1) / 2 = j.
Proof.
  intros H. pose proof (triangle_double j) as T. set (x := 8 * (i + triangle j) + 1).
  assert (Hx : 0 <= x) by (unfold x; nia).
  pose proof (Z.sqrt_spec x Hx) as [S1 S2]. pose proof (Z.sqrt_nonneg x). set (s := Z.sqrt x) in *.
  assert (2 * j - 1 <= s) by (unfold x in *; nia).
  assert (s < 2 * j + 1) by (unfold x in *; nia).
  symmetry. apply (Z.div_unique _ _ _ (s + 1 - 2 * j)); lia.
Qed.

(** Every code is the code of one pair. *)
Lemma triangle_cover n : 0 <= n -> exists i j, 0 <= i < j /\ n = i + triangle j.
Proof.
  intros Hn. pattern n. apply natlike_ind; [| |exact Hn].
  - exists 0, 1. split; [lia|reflexivity].
  - intros m Hm (i & j & H & E). destruct (Z.eq_dec (i + 1) j).
    + exists 0, (j + 1). split; [lia|]. pose proof (triangle_double j). pose proof (triangle_double (j + 1)). nia.
    + exists (i + 1), j. lia.
Qed.

Section InverseCorrect.
Context (isqrt : Z -> Z) (isqrt_floor : forall x, 0 <= x < 2 ^ 128 -> isqrt x = Z.sqrt x).

Lemma inverse_of i j :
  0 <= i < j -> i + triangle j < 2 ^ 64 -> inv_nondir_non_self_edge_pairing_fn isqrt (i + triangle j) = (i, j).
Proof.
  intros H Hc. pose proof (triangle_double j) as T. assert (0 <= triangle j) by nia.
  unfold inv_nondir_non_self_edge_pairing_fn. cbv zeta. rewrite (uwrap_small 128 (8 * _ + 1)) by (unfold fits; lia).
  rewrite isqrt_floor by lia. pose proof (root_triangle i j H) as R.
  set (x := 8 * (i + triangle j) + 1) in *. assert (Hx : 0 <= x) by lia.
  pose proof (Z.sqrt_nonneg x). pose proof (Z.sqrt_le_lin x Hx).
  rewrite uwrap_small by (unfold fits, x in *; lia). rewrite R.
  assert (Hj : fits 64 j) by (unfold fits; nia). rewrite (u64_small j Hj). unfold fits in Hj.
  rewrite land_1. f_equal. pose proof (half_product j (j - 1) ltac:(lia) ltac:(lia) (even_pred j)) as P.
  unfold sub64, mul64. rewrite (u64_small (j - 1)) by (unfold fits; lia).
  destruct (j mod 2 =? 0); rewrite (u64_small (_ * _)) by (unfold fits; lia); rewrite u64_small by (unfold fits; lia); lia.
Qed.

(** The inverse undoes the pairing, both ways: from the code of an edge it returns
    its endpoints, smaller first, and every 64-bit number is the code of the pair it
    returns. *)
Theorem pairing_roundtrip :
  (forall i j idx, fits 64 i -> fits 64 j -> i <> j -> nondirectional_non_self_edge_pairing_fn i j = Value idx ->
     inv_nondir_non_self_edge_pairing_fn isqrt idx = (Z.min i j, Z.max i j))
  /\ (forall idx, fits 64 idx ->
       let '(i, j) := inv_nondir_non_self_edge_pairing_fn isqrt idx in
       0 <= i < j /\ nondirectional_non_self_edge_pairing_fn i j = Value idx).
Proof.
  split.
  - intros i j idx Hi Hj N E. rewrite pairing_exact in E by assumption. unfold fits in *.
    destruct (Z.ltb_spec (Z.min i j + triangle (Z.max i j)) (2 ^ 64)) as [L|]; [|discriminate].
    injection E as <-. apply inverse_of; [lia|exact L].
  - intros idx [H0 H1]. destruct (triangle_cover idx H0) as (i & j & H & E). rewrite E in H1 |- *.
    rewrite inverse_of by assumption. split; [exact H|]. pose proof (triangle_double j).
    rewrite pairing_exact by (unfold fits; nia). rewrite Z.min_l, Z.max_r by lia.
    destruct (Z.ltb_spec (i + triangle j) (2 ^ 64)); [reflexivity|lia].
Qed.
End InverseCorrect.

Lemma pairing_roundtrip_witness :
  inv_nondir_non_self_edge_pairing_fn Z.sqrt 24 = (3, 7).
Proof.
  apply (proj1 (pairing_roundtrip Z.sqrt (fun x _ => eq_refl)) 7 3 24);
    [unfold fits; lia|unfold fits; lia|lia|vm_compute; reflexivity].
Defined.

(** ** The Cantor pairing *)

(** the Cantor pairing is exact except at two arguments: it returns
    [(i + j) * (i + j + 1) / 2 + j] when this fits 64 bits and reports the overflow
    otherwise.  At [(0, 0)] it divides by zero, and at [j = 2^64 - 1] the sum of the two
    arguments and one wraps around unnoticed: [(0, 2^64 - 1)] gets the code [2^64 - 1]. *)
Theorem cantor_exact i j :
  fits 64 i -> fits 64 j ->
  cantor_pairing_fn i j =
    if (i =? 0) && (j =? 0) then DivideByZero
    else if (i =? 0) && (j =? ULLMAX) then Value ULLMAX
    else let code := triangle (i + j + 1) + j in if code <? 2 ^ 64 then Value code else Overflow.
Proof.
  intros [Hi0 Hi] [Hj0 Hj]. unfold cantor_pairing_fn. cbv zeta.
  pose proof (triangle_double (i + j + 1)) as T. replace (i + j + 1 - 1) with (i + j) in T by lia.
  replace (sub64 ULLMAX i) with (ULLMAX - i) by (unfold sub64; rewrite u64_small by (unfold fits, ULLMAX; lia); reflexivity).
  assert (Big : 2 ^ 64 <= i + j + 1 -> (triangle (i + j + 1) + j <? 2 ^ 64) = false) by (intros; apply Z.ltb_ge; nia).
  destruct (Z.ltb_spec (ULLMAX - i) j) as [L|L]; unfold ULLMAX in L.
  { rewrite Big by lia. destruct (Z.eqb_spec i 0), (Z.eqb_spec j 0), (Z.eqb_spec j ULLMAX); unfold ULLMAX in *; cbn [andb]; lia || reflexivity. }
  destruct (Z.eqb_spec j ULLMAX) as [->|Nj].
  { assert (i = 0) as -> by (unfold ULLMAX in *; lia). vm_compute. reflexivity. }
  unfold ULLMAX in Nj. destruct (Z.ltb_spec j ULLMAX) as [_|G]; [|unfold ULLMAX in G; lia].
  unfold add64 at 1. rewrite (u64_small (j + 1)) by (unfold fits; lia). cbn [andb]. rewrite andb_false_r.
  destruct (Z.ltb_spec (ULLMAX - i) (j + 1)) as [L'|L']; unfold ULLMAX in L'.
  { rewrite Big by lia. destruct (Z.eqb_spec i 0), (Z.eqb_spec j 0); cbn [andb]; lia || reflexivity. }
  replace (add64 i j) with (i + j) by (unfold add64; rewrite u64_small by (unfold fits; lia); reflexivity).
  replace (add64 (i + j) 1) with (i + j + 1) by (unfold add64; rewrite u64_small by (unfold fits; lia); reflexivity).
  destruct (Z.eqb_spec (i + j) 0) as [E0|N0].
  { assert (i = 0) as -> by lia. assert (j = 0) as -> by lia. reflexivity. }
  rewrite land_1. pose proof (half_consecutive (i + j) (i + j + 1) ltac:(lia) ltac:(lia)) as P.
  destruct (if (i + j) mod 2 =? 0 then _ else _) as [a b].
  destruct P as (Ha & Hb & E & Pa); [rewrite (even_pred (i + j + 1)), negb_involutive; f_equal; lia|].
  replace (triangle (i + j + 1)) with (a * b) by lia. rewrite (Z.add_comm (a * b)), <- checked_product by lia.
  destruct (Z.eqb_spec i 0), (Z.eqb_spec j 0); cbn [andb]; lia || reflexivity.
Qed.

Lemma cantor_exact_witness :
  cantor_pairing_fn 2 3 = Value 18 /\ cantor_pairing_fn 0 ULLMAX = Value ULLMAX /\ cantor_pairing_fn 0 0 = DivideByZero.
Proof.
  split; [|split].
  - apply (cantor_exact 2 3); unfold fits; lia.
  - apply (cantor_exact 0 ULLMAX); unfold fits, ULLMAX; lia.
  - apply (cantor_exact 0 0); unfold fits; lia.
Defined.
