(* ===== verification/Fermat.v ===== *)
(** * Fermat's little theorem on integers

    The theorem of MathComp about natural numbers, restated for the integers of the
    other files. *)

From Stdlib Require Import ZArith Lia.
From mathcomp Require Import boot.
#[local] Open Scope nat_scope.
Set Implicit Arguments.
Unset Strict Implicit.

Lemma fermat_nat p a : prime.prime p -> ~~ (p %| a) -> a ^ p.-1 = 1 %[mod p].
Proof.
move=> Pp Nd; have p0 := prime_gt0 Pp; have a0 : 0 < a by rw lt0n; apply: contra Nd => /eqP ->.
apply/eqP; rw eqn_mod_dvd ?expn_gt0 ?a0 //.
rw -(@Gauss_dvdr _ a) ?prime_coprime // mulnBr muln1 -expnS prednK //.
by rw -eqn_mod_dvd; [rw -{1}(expn1 a) leq_pexp2l|apply/eqP; apply: fermat_little].
Qed.

Lemma of_nat_expn a n : Z.of_nat (a ^ n) = (Z.of_nat a ^ Z.of_nat n)%Z.
Proof.
elim: n => [//|n IH]; rw expnS -multE Nat2Z.inj_mul IH Nat2Z.inj_succ Z.pow_succ_r //.
exact: Nat2Z.is_nonneg.
Qed.

Lemma of_nat_modn a d : 0 < d -> Z.of_nat (a %% d) = (Z.of_nat a mod Z.of_nat d)%Z.
Proof.
move=> d0; apply: (Z.mod_unique_pos _ _ (Z.of_nat (a %/ d))).
  by move: (ltn_mod a d); rw d0 => /ltP H; lia.
by rw {1}(divn_eq a d) -plusE -multE Nat2Z.inj_add Nat2Z.inj_mul Z.mul_comm.
Qed.

Lemma of_nat_dvdn d a : d %| a <-> (Z.of_nat d | Z.of_nat a)%Z.
Proof.
split.
  by move/dvdnP=> [k ->]; rw -multE Nat2Z.inj_mul; exists (Z.of_nat k).
case: (posnP d) => [->|d0].
  by move/Z.divide_0_l => H; have -> : a = 0 by lia.
move/Z.mod0_divide; rw -of_nat_modn // => H; rw /dvdn; apply/eqP; lia.
Qed.

Lemma prime_of_Z p : Z.prime p -> prime.prime (Z.to_nat p).
Proof.
move=> Pp; have p2 := Z.prime_ge_2 _ Pp; apply/primeP; split; first by apply/ltP; lia.
move=> d /of_nat_dvdn; rw Z2Nat.id; try lia.
move=> D; case: (Z.divide_prime_r _ _ Pp D) => [H|[H|[H|H]]]; try lia.
  by have -> : d = 1 by lia.
have -> : d = Z.to_nat p by lia.
by rw eqxx orbT.
Qed.

Lemma fermat_Z p a :
  Z.prime p -> (0 <= a)%Z -> ~ (p | a)%Z -> (a ^ (p - 1) mod p = 1)%Z.
Proof.
move=> Pp a0 Nd; have p2 := Z.prime_ge_2 _ Pp; have p0 : 0 < Z.to_nat p by apply/ltP; lia.
have Nn : ~~ (Z.to_nat p %| Z.to_nat a).
  by apply/negP => /of_nat_dvdn; rw !Z2Nat.id //; lia.
have := fermat_nat (prime_of_Z Pp) Nn => /(congr1 Z.of_nat).
rw !of_nat_modn // of_nat_expn !Z2Nat.id //; try lia.
have -> : Z.of_nat (Z.to_nat p).-1 = (p - 1)%Z by rw -subn1 -minusE; lia.
move=> ->; apply: Z.mod_1_l; lia.
Qed.
