(* ===== verification/PrimeGenerator.v ===== *)
(** * Modular powers and primes of the graph sketches
    ([sketch_expr/agm_sketching/include/prime_generator.h])

    The word size [w] is that of [ubucket_t]: 64 bits in the native configuration, 128
    otherwise; products are computed on [2 * w] bits.  A modulus is not zero. *)

From S2P Require Import Prelude Fermat.
From Stdlib Require Import SpecFloat Zpow_facts Sorted.
Import ListNotations.
#[local] Open Scope Z_scope.

(** ** Double-precision logarithms

    [log2] of the C library is a parameter; the conversions around it are modelled. *)

Definition u64_of_double (x : spec_float) : Z :=
  match x with
  | S754_finite false m e => u64 (if 0 <=? e then Z.pos m * 2 ^ e else Z.pos m / 2 ^ (- e))
  | _ => 0
  end.

(** ** The functions *)

Section Words.
Context (w : Z).

Definition product_mod (a b m : Z) : Z := uwrap w (uwrap (2 * w) (a * b) mod m).

(** [while (b) { if (b & 1) res = res * a % m; b >>= 1; a = a * a % m; }] *)
Fixpoint powermod_loop (fuel : nat) (res a b m : Z) : option Z :=
  if b =? 0 then Some res else
  match fuel with
  | O => None
  | S fuel =>
    let res := if negb (Z.land b 1 =? 0) then product_mod res a m else res in
    powermod_loop fuel res (product_mod a a m) (Z.shiftr b 1) m
  end.

Definition powermod (a b m : Z) : option Z := powermod_loop (Z.to_nat w) 1 a b m.

(** [sq_cache[i + 1] = sq_cache[i] * sq_cache[i] % m] *)
Fixpoint squares (n : nat) (x m : Z) : list Z :=
  match n with
  | O => [x]
  | S n => x :: squares n (product_mod x x m) m
  end.

Definition gen_sq_cache (log2 : Z -> spec_float) (a n m : Z) : list Z :=
  let log2n := u32 (u64_of_double (log2 n)) in
  squares (Z.to_nat log2n) a m.

(** An index past the end of the cache is undefined ([None]). *)
Fixpoint cached_powermod_loop (fuel : nat) (sq_cache : list Z) (i : nat) (res b m : Z) : option Z :=
  if b =? 0 then Some res else
  match fuel with
  | O => None
  | S fuel =>
    let? res :=
      (if negb (Z.land b 1 =? 0)
       then let? x := nth_error sq_cache i in Some (product_mod res x m) else Some res) in
    cached_powermod_loop fuel sq_cache (S i) res (Z.shiftr b 1) m
  end.

Definition cached_powermod (sq_cache : list Z) (b m : Z) : option Z :=
  cached_powermod_loop (Z.to_nat w) sq_cache 0 1 b m.

(** [for (int j = 1; j < m; j++)]: whether some further power approves the witness. *)
Fixpoint approve_loop (rounds : nat) (temp d n : Z) : option bool :=
  match rounds with
  | O => Some false
  | S rounds =>
    let temp := uwrap w (temp * temp) in
    let? result := powermod temp d n in
    if (result =? 1) || (result =? n - 1) then Some true else approve_loop rounds temp d n
  end.

(** The loop over the witnesses. *)
Fixpoint witness_loop (witnesses : list Z) (d m n : Z) : option bool :=
  match witnesses with
  | [] => Some true
  | witness :: witnesses =>
    if n <=? witness then Some true else
    let? result := powermod witness d n in
    if (result =? 1) || (result =? n - 1) then witness_loop witnesses d m n else
    let? approve := approve_loop (Z.to_nat (m - 1)) witness d n in
    if approve then witness_loop witnesses d m n else Some false
  end.

Definition the_witnesses : list Z := [2; 3; 5; 7; 11; 13; 17; 19; 23; 29; 31; 37].

Definition IsPrime (n : Z) : option bool :=
  if n =? 2 then Some true else
  if (n <? 2) || (n mod 2 =? 0) then Some false else
  let? (d, m) :=
    while_fuel (Z.to_nat w) (fun '(d, _) => negb (d mod 2 =? 0)) (fun '(d, m) => (Z.shiftr d 1, m + 1)) (n - 1, 0) in
  witness_loop the_witnesses d m n.

(** [while (!IsPrime(n)) n += 2;] *)
Fixpoint prime_search (fuel : nat) (n : Z) : option Z :=
  let? p := IsPrime n in
  if p then Some n else
  match fuel with
  | O => None
  | S fuel => prime_search fuel (uwrap w (n + 2))
  end.

Definition generate_prime (fuel : nat) (n : Z) : option Z :=
  prime_search fuel (if n mod 2 =? 0 then uwrap w (n + 1) else n).

(** ** Modular powers *)

Context (w_pos : 0 < w).

Lemma product_mod_spec a b m : fits w a -> fits w b -> fits w m -> 0 < m -> product_mod a b m = a * b mod m.
Proof.
  unfold fits. intros Ha Hb Hm H0. unfold product_mod.
  assert (E : 2 ^ (2 * w) = 2 ^ w * 2 ^ w) by (rewrite <- Z.pow_add_r by lia; f_equal; lia).
  rewrite (uwrap_small (2 * w)) by (split; [lia|rewrite E; apply Z.mul_lt_mono_nonneg; lia]). apply uwrap_small.
  pose proof (Z.mod_pos_bound (a * b) m H0). unfold fits. lia.
Qed.

Lemma fits_mod a m : fits w m -> 0 < m -> fits w (a mod m).
Proof. unfold fits. intros Hm H0. pose proof (Z.mod_pos_bound a m H0). lia. Qed.

(** A number is its low bit and its half. *)
Lemma half_split b : 0 <= b -> b = 2 * Z.shiftr b 1 + Z.land b 1 /\ 0 <= Z.shiftr b 1 /\ (Z.land b 1 = 0 \/ Z.land b 1 = 1).
Proof.
  intros Hb. rewrite Z.shiftr_div_pow2 by lia.
  assert (L : Z.land b 1 = b mod 2) by (change 1 with (Z.ones 1); rewrite Z.land_ones by lia; reflexivity).
  rewrite L. change (2 ^ 1) with 2. pose proof (Z.div_mod b 2 ltac:(lia)). pose proof (Z.mod_pos_bound b 2 ltac:(lia)). lia.
Qed.

(** One squaring halves the exponent. *)
Lemma power_step res a b m :
  0 < m -> 0 <= b ->
  res * a ^ (2 * b) mod m = res * (a * a mod m) ^ b mod m
  /\ res * a ^ (2 * b + 1) mod m = (res * a mod m) * (a * a mod m) ^ b mod m.
Proof.
  intros Hm Hb.
  assert (P : (a * a mod m) ^ b mod m = a ^ (2 * b) mod m).
  { rewrite <- Zpower_mod by exact Hm. rewrite Z.pow_mul_r, Z.pow_2_r by lia. reflexivity. }
  split.
  - rewrite Zmult_mod, <- P, <- Zmult_mod. reflexivity.
  - rewrite Z.pow_add_r, Z.pow_1_r by lia. rewrite (Zmult_mod (res * a mod m)), Zmod_mod, P, <- Zmult_mod.
    f_equal. ring.
Qed.

Lemma powermod_loop_spec fuel : forall res a b m,
  fits w m -> 1 < m -> fits w res -> fits w a -> 0 <= b < 2 ^ Z.of_nat fuel ->
  exists v, powermod_loop fuel res a b m = Some v /\ v mod m = res * a ^ b mod m /\ (b <> 0 \/ 0 <= res < m -> 0 <= v < m).
Proof.
  induction fuel as [|fuel IH]; intros res a b m Fm Hm Fr Fa Hb; cbn [powermod_loop];
    destruct (Z.eqb_spec b 0) as [->|Nb].
  1, 3: exists res; rewrite Z.pow_0_r, Z.mul_1_r; tauto.
  - change (2 ^ Z.of_nat 0) with 1 in Hb. lia.
  - destruct (half_split b) as (E & H2 & B); [lia|]. rewrite Nat2Z.inj_succ, Z.pow_succ_r in Hb by lia.
    rewrite !product_mod_spec by (auto; lia). cbv zeta. set (h := Z.shiftr b 1) in *.
    destruct (power_step res a h m ltac:(lia) ltac:(lia)) as [P0 P1].
    assert (Fa2 : fits w (a * a mod m)) by (apply fits_mod; [exact Fm|lia]).
    pose proof (Z.mod_pos_bound (res * a) m ltac:(lia)).
    destruct B as [B|B]; rewrite B in *; cbn [Z.eqb negb].
    + destruct (IH res (a * a mod m) h m) as (v & Ev & Mv & Bv); auto; try lia.
      exists v. rewrite E, Z.add_0_r. split; [exact Ev|]. split; [congruence|]. intros _. apply Bv. lia.
    + destruct (IH (res * a mod m) (a * a mod m) h m) as (v & Ev & Mv & Bv); auto; try lia.
      { apply fits_mod; [exact Fm|lia]. }
      exists v. rewrite E. split; [exact Ev|]. split; [congruence|]. intros _. apply Bv. lia.
Qed.

Lemma powermod_spec a b m :
  fits w a -> fits w b -> fits w m -> 1 < m -> powermod a b m = Some (a ^ b mod m).
Proof.
  intros Ha Hb Fm Hm. unfold powermod.
  destruct (powermod_loop_spec (Z.to_nat w) 1 a b m) as (v & -> & Mv & Bv); auto.
  - unfold fits in *. lia.
  - rewrite Z2Nat.id by lia. exact Hb.
  - rewrite Z.mul_1_l in Mv. rewrite Z.mod_small in Mv by (apply Bv; lia). now rewrite Mv.
Qed.
(** ** The cache of squares *)

Lemma squares_spec n : forall x m, length (squares n x m) = S n
  /\ nth_error (squares n x m) 0 = Some x
  /\ forall i a, nth_error (squares n x m) i = Some a -> (i < n)%nat ->
       nth_error (squares n x m) (S i) = Some (product_mod a a m).
Proof.
  induction n as [|n IH]; intros x m; cbn [squares length].
  - repeat split. intros i a _ Hi. lia.
  - destruct (IH (product_mod x x m) m) as (L & H0 & HS). split; [now rewrite L|]. split; [reflexivity|].
    intros [|i] a E Hi; cbn [nth_error] in *.
    + now injection E as ->.
    + apply HS; [exact E|lia].
Qed.

Lemma cached_loop_powermod cache m n :
  length cache = S n ->
  (forall i a, nth_error cache i = Some a -> (i < n)%nat -> nth_error cache (S i) = Some (product_mod a a m)) ->
  forall fuel i res a b,
    0 <= b -> (b <> 0 -> nth_error cache i = Some a) -> (i <= S n)%nat -> b < 2 ^ (Z.of_nat (S n) - Z.of_nat i) ->
    cached_powermod_loop fuel cache i res b m = powermod_loop fuel res a b m.
Proof.
  intros HL HS. induction fuel as [|fuel IH]; intros i res a b Hb Ha Hi Hlt; cbn [cached_powermod_loop powermod_loop];
    destruct (Z.eqb_spec b 0) as [|Nb]; [reflexivity|reflexivity|reflexivity|].
  specialize (Ha Nb). destruct (half_split b Hb) as (E & H2 & B).
  assert (In : (i < S n)%nat) by (rewrite <- HL; apply nth_error_Some; congruence).
  assert (Hlt2 : Z.shiftr b 1 < 2 ^ (Z.of_nat (S n) - Z.of_nat (S i))).
  { replace (Z.of_nat (S n) - Z.of_nat i) with (Z.succ (Z.of_nat (S n) - Z.of_nat (S i))) in Hlt by lia.
    rewrite Z.pow_succ_r in Hlt by lia. lia. }
  assert (Next : Z.shiftr b 1 <> 0 -> nth_error cache (S i) = Some (product_mod a a m)).
  { intros N. apply HS; [exact Ha|]. destruct (Nat.eq_dec i n) as [->|]; [|lia].
    rewrite Z.sub_diag in Hlt2. change (2 ^ 0) with 1 in Hlt2. lia. }
  rewrite Ha. destruct (negb _); apply IH; auto; lia.
Qed.

(** the cached power is the power.  If the logarithm the C library computes truncates
    to the integer logarithm of [n], the cache of squares made for [n] yields, for every
    exponent up to [n], the value [powermod] computes by squaring on the way, which is
    the power modulo [m]. *)
Theorem cached_powermod_correct log2 a n b m :
  fits w a -> fits w m -> 1 < m -> 0 < n < 2 ^ w -> w <= 2 ^ 31 ->
  u64_of_double (log2 n) = Z.log2 n -> 0 <= b <= n ->
  cached_powermod (gen_sq_cache log2 a n m) b m = powermod a b m /\ powermod a b m = Some (a ^ b mod m).
Proof.
  intros Ha Fm Hm Hn Hw Hl Hb. split; [|apply powermod_spec; auto; unfold fits; lia].
  unfold cached_powermod, gen_sq_cache, powermod. rewrite Hl.
  pose proof (Z.log2_nonneg n). assert (Z.log2 n < w) by (apply Z.log2_lt_pow2; lia).
  unfold u32. rewrite uwrap_small by (unfold fits; lia).
  destruct (squares_spec (Z.to_nat (Z.log2 n)) a m) as (L & Lz & HS).
  apply (cached_loop_powermod _ m (Z.to_nat (Z.log2 n)) L HS); [lia|auto|lia|].
  pose proof (Z.log2_spec n ltac:(lia)) as [_ S]. rewrite Nat2Z.inj_succ, Z2Nat.id, Z.sub_0_r by lia. lia.
Qed.

(** ** The primality test *)

(** What one witness shows. *)
Definition passes (n witness : Z) : bool :=
  (n <=? witness) || (witness ^ (n - 1) mod n =? 1) || (witness ^ (n - 1) mod n =? n - 1).

Lemma witness_loop_spec n l :
  fits w n -> 2 < n -> Forall (fits w) l -> Sorted.StronglySorted Z.le l ->
  witness_loop l (n - 1) 0 n = Some (forallb (passes n) l).
Proof.
  intros Fn Hn Fl Hs. induction Hs as [|x l Hs IH Hx]; cbn [witness_loop forallb]; [reflexivity|].
  inversion Fl as [|? ? Fx Fl']; subst. unfold passes at 1.
  destruct (Z.leb_spec n x) as [L|L]; cbn [orb andb].
  - f_equal. symmetry. apply forallb_forall. intros y Hy. rewrite Forall_forall in Hx. specialize (Hx y Hy).
    unfold passes. now rewrite (proj2 (Z.leb_le n y)) by lia.
  - rewrite powermod_spec by (auto; unfold fits in *; lia).
    change (Z.to_nat (0 - 1)) with 0%nat. cbn [approve_loop].
    destruct (_ || _); [apply IH, Fl'|reflexivity].
Qed.

Lemma IsPrime_odd n :
  fits w n -> 6 <= w -> 2 < n -> n mod 2 = 1 -> IsPrime n = Some (forallb (passes n) the_witnesses).
Proof.
  intros Fn Hw Hn Ho. unfold IsPrime. destruct (Z.eqb_spec n 2); [lia|]. destruct (Z.ltb_spec n 2); [lia|].
  rewrite Ho. cbn [Z.eqb orb].
  assert (E : (n - 1) mod 2 = 0) by (rewrite Zminus_mod, Ho; reflexivity).
  destruct (Z.to_nat w) eqn:Ew; [lia|]. cbn [while_fuel]. rewrite E. cbn [Z.eqb negb].
  apply witness_loop_spec; [exact Fn|exact Hn| |].
  - assert (2 ^ 6 <= 2 ^ w) by (apply Z.pow_le_mono_r; lia). unfold fits. repeat constructor; lia.
  - repeat constructor; lia.
Qed.
End Words.

Lemma cached_powermod_correct_witness :
  cached_powermod 64 (gen_sq_cache 64 (fun _ => binary_normalize 53 1024 6 0 false) 3 100 1009) 77 1009 = Some (3 ^ 77 mod 1009).
Proof.
  destruct (cached_powermod_correct 64 ltac:(lia) (fun _ => binary_normalize 53 1024 6 0 false) 3 100 77 1009) as [-> ->];
    [unfold fits; lia|unfold fits; lia|lia|lia|lia|reflexivity|lia|reflexivity].
Defined.

(** the primality test is a test of Fermat's congruence.  [n - 1] is even when the loop
    that should take out its factors of two looks at it, so the loop never runs and no
    square root of one is ever tested: an odd [n > 2] is accepted exactly when each of the
    twelve witnesses is at least [n], or its power [n - 1] is [1] or [-1] modulo [n]. *)
Theorem IsPrime_fermat_test w n :
  6 <= w -> fits w n ->
  IsPrime w n = Some (if n =? 2 then true else if (n <? 2) || (n mod 2 =? 0) then false
                      else forallb (passes n) the_witnesses).
Proof.
  intros Hw Fn. destruct (Z.eqb_spec n 2) as [->|N2]; [reflexivity|].
  destruct ((n <? 2) || (n mod 2 =? 0)) eqn:E.
  - unfold IsPrime. apply Z.eqb_neq in N2. now rewrite N2, E.
  - apply orb_false_iff in E as [E1 E2]. apply Z.ltb_ge in E1. apply Z.eqb_neq in E2.
    pose proof (Z.mod_pos_bound n 2 ltac:(lia)). apply IsPrime_odd; auto; lia.
Qed.

Lemma IsPrime_fermat_test_witness : IsPrime 64 91 = Some (forallb (passes 91) the_witnesses).
Proof. apply (IsPrime_fermat_test 64 91); unfold fits; lia. Defined.

(** the test is not sound.  It accepts the Carmichael number [252601 = 41 * 61 * 101],
    in both configurations. *)
Theorem IsPrime_accepts_composite :
  IsPrime 64 252601 = Some true /\ IsPrime 128 252601 = Some true /\ 252601 = 41 * 61 * 101.
Proof. repeat split; vm_compute; reflexivity. Qed.

Lemma prime_odd p : Z.prime p -> 2 < p -> p mod 2 = 1.
Proof.
  intros [_ H] Hp. pose proof (Z.mod_pos_bound p 2 ltac:(lia)). destruct (Z.eq_dec (p mod 2) 0) as [E|]; [|lia].
  exfalso. apply (H 2); [lia|]. apply Z.mod_divide; [lia|exact E].
Qed.

Lemma prime_passes p a : Z.prime p -> 1 < a -> passes p a = true.
Proof.
  intros Hp Ha. unfold passes. destruct (Z.leb_spec p a) as [|L]; [reflexivity|].
  rewrite fermat_Z; [reflexivity|exact Hp|lia|]. intros D. apply Z.divide_pos_le in D; lia.
Qed.

Lemma IsPrime_prime w p : 6 <= w -> fits w p -> Z.prime p -> IsPrime w p = Some true.
Proof.
  intros Hw Fp Hp. pose proof (Z.prime_ge_2 _ Hp). destruct (Z.eq_dec p 2) as [->|N]; [reflexivity|].
  rewrite IsPrime_odd by (auto; try lia; apply prime_odd; auto; lia). f_equal. apply forallb_forall.
  intros a Ha. apply prime_passes; [exact Hp|]. cbn [the_witnesses In] in Ha. lia.
Qed.

(** The search stops at the latest at a prime, on an accepted odd number. *)
Lemma prime_search_spec w p : 6 <= w -> fits w p -> Z.prime p -> forall fuel n,
  2 < n -> n mod 2 = 1 -> n <= p -> p <= n + 2 * Z.of_nat fuel ->
  exists q, prime_search w fuel n = Some q /\ n <= q <= p /\ q mod 2 = 1 /\ IsPrime w q = Some true.
Proof.
  intros Hw Fp Hp. unfold fits in Fp. induction fuel as [|fuel IH]; intros n H2 Ho Hn Hf; cbn [prime_search].
  - assert (n = p) as -> by lia. rewrite IsPrime_prime by (auto; unfold fits; lia). exists p.
    rewrite IsPrime_prime by (auto; unfold fits; lia). repeat split; auto; lia.
  - destruct (Z.eq_dec n p) as [->|Ne].
    + rewrite IsPrime_prime by (auto; unfold fits; lia). exists p.
      rewrite IsPrime_prime by (auto; unfold fits; lia). repeat split; auto; lia.
    + destruct (IsPrime w n) as [[]|] eqn:E.
      * exists n. repeat split; auto; lia.
      * assert (O : p mod 2 = 1) by (apply prime_odd; auto; lia).
        pose proof (Z.div_mod p 2 ltac:(lia)). pose proof (Z.div_mod n 2 ltac:(lia)).
        rewrite uwrap_small by (unfold fits; lia).
        destruct (IH (n + 2)) as (q & Eq & B & P); [lia| |lia|lia|].
        { rewrite Z.add_mod, Ho by lia. reflexivity. }
        exists q. repeat split; try tauto; lia.
      * rewrite IsPrime_odd in E by (auto; unfold fits; lia). discriminate.
Qed.

(** the search for a prime ends: given any prime [p >= n > 2] that fits the word,
    [generate_prime] returns an odd number between [n] and [p] that the test accepts,
    after at most [(p - n) / 2] steps.  Primes are always accepted. *)
Theorem generate_prime_total w n p fuel :
  6 <= w -> fits w p -> Z.prime p -> 2 < n <= p -> p <= n + 2 * Z.of_nat fuel ->
  exists q, generate_prime w fuel n = Some q /\ n <= q <= p /\ q mod 2 = 1 /\ IsPrime w q = Some true.
Proof.
  intros Hw Fp Hp Hn Hf. unfold generate_prime. pose proof (prime_odd p Hp ltac:(lia)) as O.
  pose proof (Z.div_mod p 2 ltac:(lia)). pose proof (Z.mod_pos_bound n 2 ltac:(lia)). pose proof (Z.div_mod n 2 ltac:(lia)).
  destruct (Z.eqb_spec (n mod 2) 0) as [E|E].
  - unfold fits in Fp. rewrite uwrap_small by (unfold fits; lia).
    destruct (prime_search_spec w p Hw Fp Hp fuel (n + 1)) as (q & Eq & B & P); [lia| |lia|lia|].
    + rewrite Z.add_mod, E by lia. reflexivity.
    + exists q. repeat split; try tauto; lia.
  - apply prime_search_spec; auto; lia.
Qed.

Lemma generate_prime_total_witness :
  exists q, generate_prime 64 2 8 = Some q /\ 8 <= q <= 11 /\ q mod 2 = 1 /\ IsPrime 64 q = Some true.
Proof.
  apply (generate_prime_total 64 8 11 2); [lia|unfold fits; lia| |lia|lia].
  split; [lia|]. intros k Hk D. apply Z.mod0_divide in D.
  assert (k = 2 \/ k = 3 \/ k = 4 \/ k = 5 \/ k = 6 \/ k = 7 \/ k = 8 \/ k = 9 \/ k = 10) as C by lia.
  repeat destruct C as [->|C]; try discriminate D. rewrite C in D. discriminate D.
Defined.
