(* ===== verification/Bucket.v ===== *)
(** * Buckets of the graph sketches ([sketch_expr/agm_sketching/src/bucket.cpp])

    A bucket keeps three sums over the updates that its hash selects.  The two
    configurations of the program differ in the widths of the words: [w] is that of
    [bucket_t] and [ubucket_t], [vw] that of [vec_t].  The product type has [2 * w] bits;
    no value computed in it ever leaves its range ([Bucket.prod_exact]). *)

From S2P Require Import Prelude PrimeGenerator.
From Stdlib Require Import SpecFloat Permutation.
Import ListNotations.
#[local] Open Scope Z_scope.

(** What the sketches are built on: the widths chosen when compiling, the xxHash function
    (of the bytes of a value and a seed) and the logarithm of the C library. *)
Class SketchEnv := {
  w : Z;
  vw : Z;
  XXH64 : list Z -> Z -> Z;
  log2 : Z -> spec_float;
}.

(** The native configuration has 64-bit buckets and 32-bit indices, the other one twice
    as much; a hash has 64 bits. *)
Class SketchEnvOk (E : SketchEnv) : Prop := {
  widths : w = 64 /\ vw = 32 \/ w = 128 /\ vw = 64;
  XXH64_fits bytes sd : fits 64 (XXH64 bytes sd);
}.

Record Update := mk_Update { index : Z; delta : Z }.

Record Bucket_Boruvka := mk_Bucket { bucket_a : Z; bucket_b : Z; bucket_c : Z }.

Definition zero_bucket : Bucket_Boruvka := mk_Bucket 0 0 0.

(** ** The functions *)

Section Functions.
Context {E : SketchEnv}.

(** A value of [bucket_prod_t]. *)
Definition prod (x : Z) : Z := swrap (2 * w) x.

Definition gen_bucket_seed (bucket_id seed : Z) : Z := XXH64 (bytes_of 4 bucket_id) (u64 seed).

(** Division by zero if the prime is 3. *)
Definition gen_r (bucket_seed large_prime : Z) : option Z :=
  let range := uwrap w (large_prime - 3) in
  if range =? 0 then None else Some (uwrap w (2 + bucket_seed mod range)).

Definition contains (index bucket_seed guess_nonzero : Z) : bool :=
  let buf := uwrap vw (index + 1) in
  let hash := XXH64 (bytes_of (Z.to_nat (vw / 8)) buf) bucket_seed in
  hash mod guess_nonzero =? 0.

(** [&&] evaluates [powermod] only when the other conditions hold. *)
Definition is_good (bk : Bucket_Boruvka) (n large_prime bucket_seed r guess_nonzero : Z) : option bool :=
  let '(mk_Bucket a b c) := bk in
  if negb (a =? 0) && (Z.rem b a =? 0) && (0 <? Z.quot b a) && (Z.quot b a <=? n)
     && contains (uwrap vw (Z.quot b a - 1)) bucket_seed guess_nonzero then
    let? p := powermod w r (Z.quot b a) large_prime in
    Some (Z.rem (Z.rem (prod (prod (c + large_prime) - prod (a * p))) large_prime) large_prime =? 0)
  else Some false.

(** The parts that [update] and [cached_update] share: the sums, given the power. *)
Definition add_update (bk : Bucket_Boruvka) (u : Update) (large_prime power : Z) : Bucket_Boruvka :=
  mk_Bucket
    (swrap w (bucket_a bk + delta u))
    (swrap w (bucket_b bk + swrap w (delta u * swrap w (uwrap vw (index u + 1)))))
    (uwrap w (Z.rem (prod (prod (bucket_c bk + large_prime) + Z.rem (prod (delta u * power)) large_prime)) large_prime)).

Definition update (bk : Bucket_Boruvka) (u : Update) (large_prime r : Z) : option Bucket_Boruvka :=
  let? power := powermod w r (uwrap vw (index u + 1)) large_prime in
  Some (add_update bk u large_prime power).

Definition cached_update (bk : Bucket_Boruvka) (u : Update) (large_prime : Z) (r_sq_cache : list Z)
    : option Bucket_Boruvka :=
  let? power := cached_powermod w r_sq_cache (uwrap vw (index u + 1)) large_prime in
  Some (add_update bk u large_prime power).
End Functions.

(** ** Sums over a stream of updates *)

Definition sum_of (f : Update -> Z) (us : list Update) : Z := fold_right (fun u s => f u + s) 0 us.

(** The entry [y] of the vector that a stream describes. *)
Definition entry (us : list Update) (y : Z) : Z := sum_of (fun u => if index u =? y then delta u else 0) us.

Lemma sum_of_app f us vs : sum_of f (us ++ vs) = sum_of f us + sum_of f vs.
Proof. induction us as [|u us IH]; cbn; [reflexivity|]. unfold sum_of in *. lia. Qed.

Lemma sum_of_ext f g us : (forall u, In u us -> f u = g u) -> sum_of f us = sum_of g us.
Proof.
  induction us as [|u us IH]; intros H; cbn; [reflexivity|].
  rewrite (H u) by (left; reflexivity). f_equal. apply IH. intros v Hv. apply H. now right.
Qed.

Lemma sum_of_split f (p : Update -> bool) us :
  sum_of f us = sum_of f (filter p us) + sum_of f (filter (fun u => negb (p u)) us).
Proof.
  induction us as [|u us IH]; cbn; [reflexivity|]. unfold sum_of in *.
  destruct (p u); cbn; lia.
Qed.

Lemma sum_of_scale f k us : sum_of (fun u => f u * k) us = sum_of f us * k.
Proof. induction us as [|u us IH]; cbn; [reflexivity|]. unfold sum_of in *. lia. Qed.

Lemma entry_filter (p : Z -> bool) us y :
  entry (filter (fun u => p (index u)) us) y = if p y then entry us y else 0.
Proof.
  unfold entry. induction us as [|u us IH]; cbn; [now destruct (p y)|]. unfold sum_of in *.
  destruct (Z.eqb_spec (index u) y) as [<-|N].
  - destruct (p (index u)) eqn:P; cbn; rewrite IH, ?Z.eqb_refl; lia.
  - destruct (p (index u)); cbn; rewrite IH; [apply Z.eqb_neq in N; rewrite N|]; destruct (p y); lia.
Qed.

(** A sum weighted by a function of the index depends on the vector only. *)
Lemma sum_of_zero_vector g : forall k us, (length us <= k)%nat -> (forall y, entry us y = 0) ->
  sum_of (fun u => delta u * g (index u)) us = 0.
Proof.
  induction k as [|k IH]; intros us Hk Hz.
  - destruct us; [reflexivity|cbn in Hk; lia].
  - destruct us as [|u us]; [reflexivity|]. set (l := u :: us) in *. set (y := index u).
    rewrite (sum_of_split _ (fun v => index v =? y)).
    assert (A : sum_of (fun v => delta v * g (index v)) (filter (fun v => index v =? y) l) = entry l y * g y).
    { unfold entry. rewrite <- sum_of_scale, (sum_of_split _ (fun v => index v =? y) l).
      rewrite (sum_of_ext (fun v => (if index v =? y then delta v else 0) * g y) (fun v => delta v * 0)
                 (filter (fun v => negb (index v =? y)) l)), (sum_of_scale delta 0).
      - rewrite Z.mul_0_r, Z.add_0_r. apply sum_of_ext. intros v Hv. apply filter_In in Hv as [_ Hv].
        rewrite Hv. apply Z.eqb_eq in Hv. now rewrite Hv.
      - intros v Hv. apply filter_In in Hv as [_ Hv]. destruct (index v =? y); [discriminate|lia]. }
    rewrite A, Hz, Z.mul_0_l, Z.add_0_l. apply IH.
    + unfold l. cbn [filter]. unfold y. rewrite Z.eqb_refl. cbn [negb].
      pose proof (filter_length_le (fun v => negb (index v =? index u)) us). unfold l in Hk. cbn in Hk. lia.
    + intros z. rewrite (entry_filter (fun i => negb (i =? y))), Hz. now destruct (negb _).
Qed.

Definition opposite (us : list Update) : list Update := map (fun u => mk_Update (index u) (- delta u)) us.

Lemma sum_of_opposite g us :
  sum_of (fun u => delta u * g (index u)) (opposite us) = - sum_of (fun u => delta u * g (index u)) us.
Proof.
  induction us as [|u us IH]; [reflexivity|].
  change (- delta u * g (index u) + sum_of (fun v => delta v * g (index v)) (opposite us)
          = - (delta u * g (index u) + sum_of (fun v => delta v * g (index v)) us)).
  rewrite IH. ring.
Qed.

Lemma entry_weights us y : entry us y = sum_of (fun u => delta u * (if index u =? y then 1 else 0)) us.
Proof. unfold entry. apply sum_of_ext. intros u _. destruct (index u =? y); lia. Qed.

Lemma sum_of_vector g us vs :
  (forall y, entry us y = entry vs y) ->
  sum_of (fun u => delta u * g (index u)) us = sum_of (fun u => delta u * g (index u)) vs.
Proof.
  intros H. pose proof (sum_of_zero_vector g (length (us ++ opposite vs)) (us ++ opposite vs) (Nat.le_refl _)) as Z0.
  rewrite sum_of_app, sum_of_opposite in Z0.
  assert (E0 : forall y, entry (us ++ opposite vs) y = 0).
  { intros y. unfold entry at 1. rewrite sum_of_app. fold (entry us y) (entry (opposite vs) y).
    rewrite (entry_weights (opposite vs)), (sum_of_opposite (fun i => if i =? y then 1 else 0)), <- entry_weights, H. lia. }
  specialize (Z0 E0). lia.
Qed.

(** ** What a bucket holds *)

Section Contents.
Context `{EO : SketchEnvOk}.

Lemma w_pos : 0 < w /\ 0 < vw /\ vw < w /\ 64 <= w.
Proof. destruct widths; lia. Qed.

(** The two sums modulo the word size, and the checksum modulo the prime. *)
Definition bucket_of (p r : Z) (us : list Update) : Bucket_Boruvka :=
  mk_Bucket (swrap w (sum_of delta us)) (swrap w (sum_of (fun u => delta u * (index u + 1)) us))
    (sum_of (fun u => delta u * r ^ (index u + 1)) us mod p).

(** An update of a vector of [n] entries, by a [long]. *)
Definition update_ok (n : Z) (u : Update) : Prop := 0 <= index u < n /\ - 2 ^ 63 <= delta u < 2 ^ 63.

Lemma swrap_mod v x : 0 < v -> eqw v (swrap v x) x.
Proof.
  intros Hv. unfold swrap. transitivity ((x + 2 ^ (v - 1)) - 2 ^ (v - 1)).
  - apply sub_eqw; [|reflexivity]. apply eqw_mod. lia.
  - apply eq_eqw. lia.
Qed.

Lemma swrap_eq v x y : eqw v x y -> swrap v x = swrap v y.
Proof. intros H. unfold swrap. f_equal. change (eqw v (x + 2 ^ (v - 1)) (y + 2 ^ (v - 1))). now rewrite H. Qed.

Lemma swrap_small v x : 0 < v -> - 2 ^ (v - 1) <= x < 2 ^ (v - 1) -> swrap v x = x.
Proof.
  intros Hv H. unfold swrap. rewrite Z.mod_small; [lia|].
  replace (2 ^ v) with (2 * 2 ^ (v - 1)) by (rewrite <- Z.pow_succ_r by lia; f_equal; lia). lia.
Qed.

(** Computations in the product type are exact. *)
Lemma prod_exact x : - 2 ^ (2 * w - 1) <= x < 2 ^ (2 * w - 1) -> prod x = x.
Proof. intros H. apply swrap_small; [pose proof w_pos; lia|exact H]. Qed.

Lemma rem_mod x p : 0 < p -> 0 <= x -> Z.rem x p = x mod p.
Proof. intros Hp Hx. apply Z.rem_mod_nonneg; lia. Qed.

Lemma rem_bound x p : 0 < p -> - p < Z.rem x p < p /\ (Z.rem x p) mod p = x mod p.
Proof.
  intros Hp. pose proof (Z.rem_bound_abs x p ltac:(lia)). split; [lia|].
  pose proof (Z.quot_rem' x p) as Q. rewrite Q at 2. rewrite Z.add_comm, Z.mul_comm, Z.mod_add by lia. reflexivity.
Qed.

(** The checksum after an update. *)
Lemma checksum_update c p d power :
  fits w p -> 1 < p -> 0 <= c < p -> - 2 ^ 63 <= d < 2 ^ 63 -> 0 <= power < p ->
  uwrap w (Z.rem (prod (prod (c + p) + Z.rem (prod (d * power)) p)) p) = (c + d * power) mod p.
Proof.
  intros [_ Fp] Hp Hc Hd Hpw. pose proof w_pos.
  assert (W : 2 ^ 64 <= 2 ^ w) by (apply Z.pow_le_mono_r; lia).
  assert (P : 2 ^ (2 * w - 1) = 2 ^ (w - 1) * 2 ^ w) by (rewrite <- Z.pow_add_r by lia; f_equal; lia).
  assert (P1 : 2 ^ w = 2 * 2 ^ (w - 1)) by (rewrite <- Z.pow_succ_r by lia; f_equal; lia).
  rewrite (prod_exact (c + p)) by nia. rewrite (prod_exact (d * power)) by nia.
  destruct (rem_bound (d * power) p ltac:(lia)) as [B M]. rewrite prod_exact by nia.
  rewrite rem_mod by lia. pose proof (Z.mod_pos_bound (c + p + Z.rem (d * power) p) p ltac:(lia)).
  rewrite uwrap_small by (unfold fits; lia).
  rewrite Z.add_mod, M, <- Z.add_mod by lia. replace (c + p + d * power) with (c + d * power + 1 * p) by ring.
  apply Z.mod_add. lia.
Qed.

Lemma add_update_of n p r us u :
  fits w p -> 1 < p -> 0 < n < 2 ^ vw -> update_ok n u ->
  add_update (bucket_of p r us) u p (r ^ (index u + 1) mod p) = bucket_of p r (us ++ [u]).
Proof.
  intros Fp Hp Hn [Hi Hd]. pose proof w_pos. unfold add_update, bucket_of. cbn [bucket_a bucket_b bucket_c].
  rewrite !sum_of_app. cbn [sum_of fold_right]. rewrite !Z.add_0_r. f_equal.
  - apply swrap_eq. rewrite swrap_mod by lia. reflexivity.
  - apply swrap_eq. rewrite !swrap_mod by lia. rewrite uwrap_small by (unfold fits; lia). reflexivity.
  - rewrite checksum_update; auto; [|apply Z.mod_pos_bound; lia|apply Z.mod_pos_bound; lia].
    rewrite (Z.add_mod _ (delta u * _)), (Z.mul_mod (delta u) (_ mod p)), !Z.mod_mod, <- Z.mul_mod, <- Z.add_mod by lia.
    reflexivity.
Qed.

Lemma update_of n p r us u :
  fits w p -> 1 < p -> fits w r -> 0 < n < 2 ^ vw -> update_ok n u ->
  update (bucket_of p r us) u p r = Some (bucket_of p r (us ++ [u])).
Proof.
  intros Fp Hp Fr Hn Hu. pose proof w_pos. pose proof Hu as [Hi _]. unfold update.
  rewrite uwrap_small by (unfold fits; lia).
  assert (2 ^ vw <= 2 ^ w) by (apply Z.pow_le_mono_r; lia).
  rewrite powermod_spec by (auto; unfold fits in *; lia). cbv beta iota. f_equal. now apply add_update_of with (n := n).
Qed.

(** A bucket depends on the vector only. *)
Lemma bucket_of_vector p r us vs : (forall y, entry us y = entry vs y) -> bucket_of p r us = bucket_of p r vs.
Proof.
  intros H. unfold bucket_of. f_equal.
  - f_equal. rewrite <- (Z.mul_1_r (sum_of delta us)), <- (Z.mul_1_r (sum_of delta vs)), <- !sum_of_scale.
    now apply (sum_of_vector (fun _ => 1)).
  - f_equal. now apply (sum_of_vector (fun i => i + 1)).
  - f_equal. now apply (sum_of_vector (fun i => r ^ (i + 1))).
Qed.

Lemma bucket_of_nil p r : 0 < p -> bucket_of p r [] = zero_bucket.
Proof.
  intros Hp. pose proof w_pos. unfold bucket_of, zero_bucket. cbn [sum_of fold_right]. rewrite Z.mod_0_l by lia.
  assert (swrap w 0 = 0) as ->; [|reflexivity]. apply swrap_small; [lia|].
  assert (0 < 2 ^ (w - 1)) by (apply Z.pow_pos_nonneg; lia). lia.
Qed.

(** Buckets add up to the bucket of the concatenated streams. *)
Lemma bucket_of_app p r us vs :
  0 < p -> bucket_of p r (us ++ vs)
  = mk_Bucket (swrap w (bucket_a (bucket_of p r us) + bucket_a (bucket_of p r vs)))
      (swrap w (bucket_b (bucket_of p r us) + bucket_b (bucket_of p r vs)))
      ((bucket_c (bucket_of p r us) + bucket_c (bucket_of p r vs)) mod p).
Proof.
  intros Hp. pose proof w_pos. unfold bucket_of. cbn [bucket_a bucket_b bucket_c]. rewrite !sum_of_app. f_equal.
  - apply swrap_eq. now rewrite !swrap_mod by lia.
  - apply swrap_eq. now rewrite !swrap_mod by lia.
  - apply Z.add_mod. lia.
Qed.

(** A vector with a single non-zero entry [v] at [x], small enough for the sums not to
    wrap around: its bucket is good, and [b / a - 1] is [x]. *)
Lemma single_bucket n p r us x v :
  fits w p -> 1 < p -> 0 < n < 2 ^ vw -> 0 <= x < n -> v <> 0 -> Z.abs v * n < 2 ^ 62 ->
  entry us x = v -> (forall y, y <> x -> entry us y = 0) ->
  bucket_of p r us = mk_Bucket v (v * (x + 1)) (v * r ^ (x + 1) mod p).
Proof.
  intros Fp Hp Hn Hx Nv Hv Ex Ey. pose proof w_pos.
  rewrite (bucket_of_vector p r us [mk_Update x v]).
  - assert (2 ^ 63 <= 2 ^ (w - 1)) by (apply Z.pow_le_mono_r; lia).
    unfold bucket_of. cbn [sum_of fold_right index delta]. rewrite !Z.add_0_r. f_equal; apply swrap_small; nia.
  - intros y. unfold entry at 2. cbn [sum_of fold_right index delta]. rewrite Z.add_0_r.
    destruct (Z.eqb_spec x y) as [<-|N]; [exact Ex|]. apply Ey. auto.
Qed.

Lemma is_good_single n p bucket_seed r guess x v :
  fits w p -> 1 < p -> fits w r -> 0 < n < 2 ^ vw -> 0 <= x < n -> v <> 0 -> Z.abs v * n < 2 ^ 62 ->
  contains x bucket_seed guess = true ->
  is_good (mk_Bucket v (v * (x + 1)) (v * r ^ (x + 1) mod p)) n p bucket_seed r guess = Some true.
Proof.
  intros Fp Hp Fr Hn Hx Nv Hv C. pose proof w_pos. unfold is_good.
  rewrite (Z.mul_comm v), Z.rem_mul, Z.quot_mul by exact Nv. replace (x + 1 - 1) with x by lia.
  rewrite (uwrap_small vw x), C by (unfold fits; lia).
  assert (2 ^ vw <= 2 ^ w) by (apply Z.pow_le_mono_r; lia).
  rewrite powermod_spec by (auto; unfold fits in *; lia).
  destruct (Z.eqb_spec v 0); [lia|]. destruct (Z.ltb_spec 0 (x + 1)); [|lia]. destruct (Z.leb_spec (x + 1) n); [|lia].
  cbn [negb Z.eqb andb]. f_equal. apply Z.eqb_eq.
  assert (W : 2 ^ 64 <= 2 ^ w) by (apply Z.pow_le_mono_r; lia).
  assert (P : 2 ^ (2 * w - 1) = 2 ^ (w - 1) * 2 ^ w) by (rewrite <- Z.pow_add_r by lia; f_equal; lia).
  assert (P1 : 2 ^ w = 2 * 2 ^ (w - 1)) by (rewrite <- Z.pow_succ_r by lia; f_equal; lia).
  set (power := r ^ (x + 1)) in *. set (c := v * power mod p).
  pose proof (Z.mod_pos_bound (v * power) p ltac:(lia)) as Bc. fold c in Bc.
  pose proof (Z.mod_pos_bound power p ltac:(lia)) as Bp. destruct Fp as [_ Fp].
  assert (Bv : Z.abs v < 2 ^ 62) by nia.
  assert (Bm : Z.abs (v * (power mod p)) < 2 ^ 62 * 2 ^ w) by (rewrite Z.abs_mul, (Z.abs_eq (power mod p)) by lia; nia).
  rewrite (prod_exact (c + p)) by nia. rewrite (prod_exact (v * (power mod p))) by nia. rewrite prod_exact by nia.
  rewrite Z.rem_rem by lia. apply Z.rem_divide; [lia|]. apply Z.mod_divide; [lia|].
  rewrite Zminus_mod, Z.mul_mod_idemp_r by lia. fold c.
  replace (c + p) with (c + 1 * p) by ring. rewrite Z.mod_add by lia. unfold c. rewrite Z.mod_mod, Z.sub_diag by lia.
  apply Z.mod_0_l. lia.
Qed.
End Contents.
