(* ===== verification/AgmSketch.v ===== *)
(** * Graph sketches ([sketch_expr/agm_sketching/src/agm_sketch.cpp])

    A sketch of a vector of [n] entries: rows of buckets, one column per guess of the
    number of non-zero entries.  The release build is modelled, where assertions are
    compiled out.  The nested loops over rows and guesses are folds over the list of the
    pairs [(i, j)] in the order of the loops. *)

From S2P Require Import Prelude PrimeGenerator Bucket.
From Stdlib Require Import SpecFloat FinFun.
Import ListNotations.
#[local] Open Scope Z_scope.

Record AGM_Sketch := mk_Sketch {
  seed : Z; n : Z; buckets : list Bucket_Boruvka; large_prime : Z; already_quered : bool
}.

Definition set_buckets (sk : AGM_Sketch) (bs : list Bucket_Boruvka) : AGM_Sketch :=
  mk_Sketch (seed sk) (n sk) bs (large_prime sk) (already_quered sk).

(** How a query ends. *)
Inductive answer :=
| Sampled (u : Update)
| MultipleQueryException
| AllBucketsZeroException
| NoGoodBucketException.

(** [double_to_ull]; its epsilon is the double closest to [0.00000001]. *)
Definition epsilon : spec_float := S754_finite false 6044629098073146 (-79).
Definition double_to_ull (d : spec_float) : Z := u64_of_double (SFadd 53 1024 d epsilon).

Section Sketch.
Context {E : SketchEnv}.

Definition bucket_gen (x : Z) : Z := double_to_ull (SFadd 53 1024 (log2 x) (binary_normalize 53 1024 1 0 false)).
Definition guess_gen (x : Z) : Z := double_to_ull (SFadd 53 1024 (log2 x) (binary_normalize 53 1024 2 0 false)).

Definition num_buckets (n : Z) : Z := u32 (bucket_gen n).
Definition num_guesses (n : Z) : Z := u32 (guess_gen n).

(** The pairs [(i, j)] the nested loops run through. *)
Definition cells (n : Z) : list (nat * nat) :=
  list_prod (seq 0 (Z.to_nat (num_buckets n))) (seq 0 (Z.to_nat (num_guesses n))).

(** [i * num_guesses + j], an [unsigned]. *)
Definition bucket_id (n : Z) (i j : nat) : Z := u32 (Z.of_nat i * num_guesses n + Z.of_nat j).

(** [1 << j], an [int]; shifting into the sign bit or past the width is undefined. *)
Definition guess (j : nat) : option Z := if (j <? 31)%nat then Some (2 ^ Z.of_nat j) else None.

(** The constructor; [fuel] bounds the search for a prime. *)
Definition new_sketch (fuel : nat) (n seed : Z) : option AGM_Sketch :=
  let? p := generate_prime w fuel (uwrap w (n * n)) in
  Some (mk_Sketch seed n (repeat zero_bucket (Z.to_nat (u32 (num_buckets n * num_guesses n)))) p false).

(** A loop over cells whose body may change the bucket of the cell. *)
Fixpoint for_cells (ids : list (nat * nat)) (body : nat -> nat -> list Bucket_Boruvka -> option (list Bucket_Boruvka))
    (bs : list Bucket_Boruvka) : option (list Bucket_Boruvka) :=
  match ids with
  | [] => Some bs
  | (i, j) :: ids => let? bs := body i j bs in for_cells ids body bs
  end.

(** [AGM_Sketch::update]: all buckets of a row share the seed of row [i]. *)
Definition update_cell (sk : AGM_Sketch) (u : Update) (i j : nat) (bs : list Bucket_Boruvka)
    : option (list Bucket_Boruvka) :=
  let bucket_seed := gen_bucket_seed (Z.of_nat i) (seed sk) in
  let? r := gen_r bucket_seed (large_prime sk) in
  let id := Z.to_nat (bucket_id (n sk) i j) in
  let? bucket := nth_error bs id in
  let? guess_nonzero := guess j in
  if contains (index u) bucket_seed guess_nonzero then
    let? bucket := update bucket u (large_prime sk) r in Some (set_nth id bucket bs)
  else Some bs.

Definition sketch_update (sk : AGM_Sketch) (u : Update) : option AGM_Sketch :=
  let? bs := for_cells (cells (n sk)) (update_cell sk u) (buckets sk) in Some (set_buckets sk bs).

Fixpoint sketch_updates (sk : AGM_Sketch) (us : list Update) : option AGM_Sketch :=
  match us with
  | [] => Some sk
  | u :: us => let? sk := sketch_update sk u in sketch_updates sk us
  end.

(** [AGM_Sketch::batch_update]: each bucket has the seed of its own number. *)
Fixpoint batch_loop (us : list Update) (p bucket_seed guess_nonzero : Z) (r_sq_cache : list Z) (bucket : Bucket_Boruvka)
    : option Bucket_Boruvka :=
  match us with
  | [] => Some bucket
  | u :: us =>
    let? bucket :=
      (if contains (index u) bucket_seed guess_nonzero then cached_update bucket u p r_sq_cache else Some bucket) in
    batch_loop us p bucket_seed guess_nonzero r_sq_cache bucket
  end.

Definition batch_cell (sk : AGM_Sketch) (us : list Update) (i j : nat) (bs : list Bucket_Boruvka)
    : option (list Bucket_Boruvka) :=
  let id := bucket_id (n sk) i j in
  let? bucket := nth_error bs (Z.to_nat id) in
  let bucket_seed := gen_bucket_seed id (seed sk) in
  let? r := gen_r bucket_seed (large_prime sk) in
  let r_sq_cache := gen_sq_cache w log2 r (n sk) (large_prime sk) in
  let? guess_nonzero := (if (length us =? 0)%nat then Some 1 else guess j) in
  let? bucket := batch_loop us (large_prime sk) bucket_seed guess_nonzero r_sq_cache bucket in
  Some (set_nth (Z.to_nat id) bucket bs).

Definition batch_update (sk : AGM_Sketch) (us : list Update) : option AGM_Sketch :=
  let? bs := for_cells (cells (n sk)) (batch_cell sk us) (buckets sk) in Some (set_buckets sk bs).

(** [AGM_Sketch::query] *)
Fixpoint query_cells (sk : AGM_Sketch) (ids : list (nat * nat)) (all_buckets_zero : bool) : option answer :=
  match ids with
  | [] => Some (if all_buckets_zero then AllBucketsZeroException else NoGoodBucketException)
  | (i, j) :: ids =>
    let bucket_seed := gen_bucket_seed (Z.of_nat i) (seed sk) in
    let? r := gen_r bucket_seed (large_prime sk) in
    let? bucket := nth_error (buckets sk) (Z.to_nat (bucket_id (n sk) i j)) in
    let all_buckets_zero :=
      if negb (bucket_a bucket =? 0) || negb (bucket_b bucket =? 0) || negb (bucket_c bucket =? 0)
      then false else all_buckets_zero in
    let? guess_nonzero := guess j in
    let? good := is_good bucket (n sk) (large_prime sk) bucket_seed r guess_nonzero in
    if good then
      Some (Sampled (mk_Update (uwrap vw (Z.quot (bucket_b bucket) (bucket_a bucket) - 1)) (i64 (bucket_a bucket))))
    else query_cells sk ids all_buckets_zero
  end.

Definition query (sk : AGM_Sketch) : option (answer * AGM_Sketch) :=
  if already_quered sk then Some (MultipleQueryException, sk) else
  let sk := mk_Sketch (seed sk) (n sk) (buckets sk) (large_prime sk) true in
  let? a := query_cells sk (cells (n sk)) true in Some (a, sk).

(** [operator+=]; the index runs over the buckets of the first sketch. *)
Definition add_bucket (p : Z) (b1 b2 : Bucket_Boruvka) : Bucket_Boruvka :=
  mk_Bucket (swrap w (bucket_a b1 + bucket_a b2)) (swrap w (bucket_b b1 + bucket_b b2))
    (uwrap w (bucket_c b1 + bucket_c b2) mod p).

Fixpoint add_buckets (p : Z) (bs1 bs2 : list Bucket_Boruvka) : option (list Bucket_Boruvka) :=
  match bs1, bs2 with
  | [], _ => Some []
  | _, [] => None
  | b1 :: bs1, b2 :: bs2 => let? bs := add_buckets p bs1 bs2 in Some (add_bucket p b1 b2 :: bs)
  end.

Definition sketch_add_assign (sk1 sk2 : AGM_Sketch) : option AGM_Sketch :=
  let? bs := add_buckets (large_prime sk1) (buckets sk1) (buckets sk2) in
  Some (mk_Sketch (seed sk1) (n sk1) bs (large_prime sk1) (already_quered sk1 || already_quered sk2)).

(** [operator+] builds a new sketch, not queried yet. *)
Definition sketch_add (fuel : nat) (sk1 sk2 : AGM_Sketch) : option AGM_Sketch :=
  let? result := new_sketch fuel (n sk1) (seed sk1) in
  let? bs1 := (if (length (buckets sk1) <? length (buckets result))%nat then None
               else Some (firstn (length (buckets result)) (buckets sk1))) in
  let? bs := add_buckets (large_prime result) bs1 (buckets sk2) in
  Some (set_buckets result bs).

(** [operator*]; the factor is a [long], and the checksum is multiplied as an unsigned
    word before it is reduced. *)
Definition scale_bucket (p k : Z) (bk : Bucket_Boruvka) : Bucket_Boruvka :=
  mk_Bucket (swrap w (bucket_a bk * k)) (swrap w (bucket_b bk * k)) (uwrap w (bucket_c bk * uwrap w k) mod p).

Definition sketch_scale (fuel : nat) (sk : AGM_Sketch) (k : Z) : option AGM_Sketch :=
  let? result := new_sketch fuel (n sk) (seed sk) in
  if (length (buckets sk) <? length (buckets result))%nat then None else
  Some (set_buckets result (map (scale_bucket (large_prime result) k) (firstn (length (buckets result)) (buckets sk)))).
End Sketch.

(** ** The cells in order *)

Lemma nth_error_list_prod {A B} (l1 : list A) (l2 : list B) i j a b :
  nth_error l1 i = Some a -> nth_error l2 j = Some b ->
  nth_error (list_prod l1 l2) (i * length l2 + j) = Some (a, b).
Proof.
  revert i; induction l1 as [|x l1 IH]; intros [|i] Ha Hb; cbn [nth_error list_prod] in *; try discriminate.
  - injection Ha as ->. assert (j < length l2)%nat by (apply nth_error_Some; congruence).
    rewrite nth_error_app1 by (rewrite length_map; cbn; lia). cbn. now rewrite nth_error_map, Hb.
  - rewrite nth_error_app2, length_map by (rewrite length_map; lia).
    replace (S i * length l2 + j - length l2)%nat with (i * length l2 + j)%nat by lia. now apply IH.
Qed.

Lemma NoDup_list_prod {A B} (l1 : list A) (l2 : list B) : NoDup l1 -> NoDup l2 -> NoDup (list_prod l1 l2).
Proof.
  intros H1 H2. induction H1 as [|a l1 Ha H1 IH]; cbn [list_prod]; [constructor|]. apply NoDup_app.
  - apply Injective_map_NoDup; [|exact H2]. intros x y [= ->]. reflexivity.
  - exact IH.
  - intros [x y] Hx Hp. apply in_map_iff in Hx as (z & [= -> ->] & _). apply in_prod_iff in Hp. tauto.
Qed.

Lemma length_cells `{E : SketchEnv} n :
  length (cells n) = (Z.to_nat (num_buckets n) * Z.to_nat (num_guesses n))%nat.
Proof. unfold cells. now rewrite length_prod, !length_seq. Qed.

(** ** Sketches of streams *)

Section Streams.
Context `{EO : SketchEnvOk}.

(** The parameters of a sketch: the dimensions are small enough for the shifts [1 << j]
    and for the numbers of the buckets.  For one entry the prime is 3, and [gen_r] divides
    by zero. *)
Record params_ok (n p : Z) : Prop := {
  po_n : 1 < n < 2 ^ vw;
  po_p : 3 < p;
  po_fits : fits w p;
  po_guesses : 0 < num_guesses n <= 31;
  po_buckets : 0 < num_buckets n /\ num_buckets n * num_guesses n < 2 ^ 32;
}.

Context (n p sd : Z) (PO : params_ok n p).

(** The base of the powers that [gen_r] makes of a seed. *)
Definition base_of (bucket_seed : Z) : Z := 2 + bucket_seed mod (p - 3).

(** The updates that a bucket with the seed of number [k] sees in column [j], and what it
    holds then. *)
Definition seeded_stream (us : list Update) (k : Z) (j : nat) : list Update :=
  filter (fun u => contains (index u) (gen_bucket_seed k sd) (2 ^ Z.of_nat j)) us.
Definition seeded_bucket (us : list Update) (k : Z) (j : nat) : Bucket_Boruvka :=
  bucket_of p (base_of (gen_bucket_seed k sd)) (seeded_stream us k j).

Definition row_seed (i : nat) : Z := gen_bucket_seed (Z.of_nat i) sd.
Definition row_r (i : nat) : Z := base_of (row_seed i).

(** The updates a cell sees. *)
Definition cell_stream (us : list Update) (c : nat * nat) : list Update := seeded_stream us (Z.of_nat (fst c)) (snd c).

Definition cell_of (us : list Update) (c : nat * nat) : Bucket_Boruvka := seeded_bucket us (Z.of_nat (fst c)) (snd c).

(** The sketch that stands for a stream. *)
Definition sketch_of (us : list Update) (q : bool) : AGM_Sketch :=
  mk_Sketch sd n (map (cell_of us) (cells n)) p q.

Lemma cell_of_eq us c : cell_of us c = bucket_of p (row_r (fst c)) (cell_stream us c).
Proof. reflexivity. Qed.

Lemma base_of_range s : 2 <= base_of s < p.
Proof. unfold base_of. pose proof (po_p _ _ PO). pose proof (Z.mod_pos_bound s (p - 3) ltac:(lia)). lia. Qed.

Lemma base_fits s : fits w (base_of s).
Proof. pose proof (base_of_range s). pose proof (po_fits _ _ PO). unfold fits in *. lia. Qed.

Lemma gen_base s : gen_r s p = Some (base_of s).
Proof.
  unfold gen_r. pose proof (po_p _ _ PO). pose proof (po_fits _ _ PO) as F. rewrite (uwrap_small w (p - 3)) by (unfold fits in *; lia).
  destruct (Z.eqb_spec (p - 3) 0); [lia|]. now rewrite (uwrap_small w (2 + _)) by exact (base_fits s).
Qed.

Lemma po_n0 : 0 < n < 2 ^ vw.
Proof. pose proof (po_n _ _ PO). lia. Qed.

Lemma po_p1 : 1 < p.
Proof. pose proof (po_p _ _ PO). lia. Qed.

Lemma cells_bounds i j : In (i, j) (cells n) -> (Z.of_nat i < num_buckets n /\ Z.of_nat j < num_guesses n).
Proof.
  unfold cells. rewrite in_prod_iff, !in_seq. pose proof (po_guesses _ _ PO). pose proof (po_buckets _ _ PO). lia.
Qed.

Lemma guess_of i j : In (i, j) (cells n) -> guess j = Some (2 ^ Z.of_nat j).
Proof.
  intros H. apply cells_bounds in H. pose proof (po_guesses _ _ PO). unfold guess.
  destruct (Nat.ltb_spec j 31); [reflexivity|lia].
Qed.

(** Where a cell stands. *)
Lemma cell_index pre i j post : cells n = pre ++ (i, j) :: post -> Z.to_nat (bucket_id n i j) = length pre.
Proof.
  intros E0. assert (Hin : In (i, j) (cells n)) by (rewrite E0; apply in_elt).
  pose proof (cells_bounds i j Hin) as [Bi Bj]. pose proof (po_guesses _ _ PO) as G. destruct (po_buckets _ _ PO) as [_ Q].
  set (k := (i * Z.to_nat (num_guesses n) + j)%nat).
  assert (Hk : nth_error (cells n) k = Some (i, j)).
  { unfold cells, k. 
    replace (i * _ + j)%nat with (i * length (seq 0 (Z.to_nat (num_guesses n))) + j)%nat by (now rewrite length_seq).
    apply nth_error_list_prod; rewrite nth_error_seq; [replace (i <? _)%nat with true|replace (j <? _)%nat with true];
      try reflexivity; symmetry; apply Nat.ltb_lt; lia. }
  assert (N : NoDup (cells n)) by (apply NoDup_list_prod; apply seq_NoDup).
  assert (Ek : k = length pre).
  { apply (NoDup_nth_error (cells n)) ; [exact N|apply nth_error_Some; congruence|].
    rewrite Hk, E0, nth_error_app2, Nat.sub_diag by lia. reflexivity. }
  unfold bucket_id, u32. rewrite uwrap_small by (unfold fits; nia). rewrite <- Ek. unfold k. nia.
Qed.

(** A loop over the cells that changes each cell's own bucket. *)
Lemma for_cells_map (old new : nat * nat -> Bucket_Boruvka) body :
  (forall i j bs, In (i, j) (cells n) -> nth_error bs (Z.to_nat (bucket_id n i j)) = Some (old (i, j)) ->
     body i j bs = Some (set_nth (Z.to_nat (bucket_id n i j)) (new (i, j)) bs)) ->
  for_cells (cells n) body (map old (cells n)) = Some (map new (cells n)).
Proof.
  intros H. enough (A : forall pre cs, cells n = pre ++ cs ->
    for_cells cs body (map new pre ++ map old cs) = Some (map new (pre ++ cs))) by (exact (A [] _ eq_refl)).
  intros pre cs. revert pre. induction cs as [|[i j] cs IH]; intros pre E0; cbn [for_cells].
  - cbn [map]. now rewrite !app_nil_r.
  - pose proof (cell_index _ _ _ _ E0) as Ei. cbn [map].
    rewrite H; [|rewrite E0; apply in_elt|].
    2: { rewrite Ei, <- (length_map new pre), nth_error_app2, Nat.sub_diag by lia. reflexivity. }
    rewrite Ei, <- (length_map new pre), set_nth_app.
    specialize (IH (pre ++ [(i, j)])). rewrite map_app, <- !app_assoc in IH. cbn [map app] in IH. exact (IH E0).
Qed.

Lemma cell_stream_snoc us u c :
  cell_stream (us ++ [u]) c =
  if contains (index u) (row_seed (fst c)) (2 ^ Z.of_nat (snd c)) then cell_stream us c ++ [u] else cell_stream us c.
Proof. unfold cell_stream, seeded_stream. rewrite filter_app. cbn [filter]. destruct (contains _ _ _); [reflexivity|apply app_nil_r]. Qed.

Lemma sketch_update_of us u q :
  update_ok n u -> sketch_update (sketch_of us q) u = Some (sketch_of (us ++ [u]) q).
Proof.
  intros Hu. unfold sketch_update. cbn [sketch_of buckets AgmSketch.n].
  rewrite (for_cells_map (cell_of us) (cell_of (us ++ [u]))); [reflexivity|].
  intros i j bs Hc Hb. unfold update_cell. cbn [sketch_of seed large_prime AgmSketch.n]. rewrite gen_base, Hb, (guess_of i j Hc).
  fold (row_seed i) (row_r i). rewrite !cell_of_eq, cell_stream_snoc. cbn [fst snd].
  destruct (contains _ _ _) eqn:C.
  - rewrite (update_of n) by (auto using po_p1, po_n0; apply base_fits || apply PO). reflexivity.
  - f_equal. symmetry. apply set_nth_same. exact Hb.
Qed.

Lemma sketch_updates_of us : forall vs q,
  Forall (update_ok n) us -> sketch_updates (sketch_of vs q) us = Some (sketch_of (vs ++ us) q).
Proof.
  induction us as [|u us IH]; intros vs q H; cbn [sketch_updates].
  - now rewrite app_nil_r.
  - inversion H as [|? ? Hu Hus]; subst. rewrite sketch_update_of by exact Hu. rewrite IH by exact Hus.
    now rewrite <- app_assoc.
Qed.

Lemma fresh_sketch fuel sk :
  new_sketch fuel n sd = Some sk -> large_prime sk = p -> sk = sketch_of [] false.
Proof.
  unfold new_sketch. destruct (generate_prime _ _ _) as [p'|]; [|discriminate]. intros [= <-] Ep.
  cbn [large_prime] in Ep. subst p'. unfold sketch_of. f_equal.
  destruct (po_buckets _ _ PO) as [B1 B2]. pose proof (po_guesses _ _ PO).
  assert (L : Z.to_nat (u32 (num_buckets n * num_guesses n)) = length (cells n)).
  { unfold u32. rewrite uwrap_small by (unfold fits; nia). rewrite length_cells. nia. }
  rewrite L. clear L. induction (cells n) as [|c l IH]; cbn [repeat map length]; [reflexivity|]. rewrite IH. f_equal.
  symmetry. apply bucket_of_nil. pose proof (po_p _ _ PO). lia.
Qed.

(** A sketch depends on the vector only. *)
Lemma sketch_of_vector us vs q : (forall y, entry us y = entry vs y) -> sketch_of us q = sketch_of vs q.
Proof.
  intros H. unfold sketch_of. f_equal. apply map_ext. intros c. apply bucket_of_vector.
  intros y. unfold seeded_stream.
  rewrite !(entry_filter (fun i => contains i (gen_bucket_seed (Z.of_nat (fst c)) sd) (2 ^ Z.of_nat (snd c)))). now rewrite H.
Qed.

Lemma add_bucket_of us vs c :
  p <= 2 ^ (w - 1) -> add_bucket p (cell_of us c) (cell_of vs c) = cell_of (us ++ vs) c.
Proof.
  intros Hp. pose proof (po_p _ _ PO). pose proof w_pos. rewrite !cell_of_eq. unfold cell_stream, seeded_stream. rewrite filter_app.
  rewrite bucket_of_app by lia. unfold add_bucket, bucket_of. cbn [bucket_a bucket_b bucket_c]. f_equal. f_equal.
  apply uwrap_small. set (x := _ mod p). set (y := _ mod p).
  assert (0 <= x < p) by (apply Z.mod_pos_bound; lia). assert (0 <= y < p) by (apply Z.mod_pos_bound; lia).
  assert (2 ^ w = 2 * 2 ^ (w - 1)) by (rewrite <- Z.pow_succ_r by lia; f_equal; lia). unfold fits. lia.
Qed.

Lemma add_buckets_of us vs l :
  p <= 2 ^ (w - 1) -> add_buckets p (map (cell_of us) l) (map (cell_of vs) l) = Some (map (cell_of (us ++ vs)) l).
Proof.
  intros Hp. induction l as [|c l IH]; cbn [map add_buckets]; [reflexivity|]. rewrite IH, add_bucket_of by exact Hp.
  reflexivity.
Qed.

(** The first cell sees the whole stream. *)
Lemma cells_first : exists l, cells n = (0%nat, 0%nat) :: l.
Proof.
  unfold cells. destruct (po_buckets _ _ PO) as [B _]. pose proof (po_guesses _ _ PO) as G.
  destruct (Z.to_nat (num_buckets n)) eqn:Eb; [lia|]. destruct (Z.to_nat (num_guesses n)) eqn:Eg; [lia|].
  cbn [seq list_prod map app]. eauto.
Qed.

Lemma contains_all x bucket_seed : contains x bucket_seed (2 ^ Z.of_nat 0) = true.
Proof. unfold contains. change (2 ^ Z.of_nat 0) with 1. now rewrite Z.mod_1_r. Qed.

Lemma cell_stream_all us i : cell_stream us (i, 0%nat) = us.
Proof.
  unfold cell_stream, seeded_stream. cbn [fst snd]. induction us as [|u us IH]; cbn [filter]; [reflexivity|].
  now rewrite contains_all, IH.
Qed.

Lemma nth_cell {A} (f : nat * nat -> A) pre i j post :
  cells n = pre ++ (i, j) :: post -> nth_error (map f (cells n)) (Z.to_nat (bucket_id n i j)) = Some (f (i, j)).
Proof.
  intros E0. rewrite (cell_index _ _ _ _ E0), nth_error_map, E0, nth_error_app2, Nat.sub_diag by lia. reflexivity.
Qed.

Lemma query_cells_good sk i j ids z bk g r :
  gen_r (gen_bucket_seed (Z.of_nat i) (seed sk)) (large_prime sk) = Some r ->
  nth_error (buckets sk) (Z.to_nat (bucket_id (AgmSketch.n sk) i j)) = Some bk -> guess j = Some g ->
  is_good bk (AgmSketch.n sk) (large_prime sk) (gen_bucket_seed (Z.of_nat i) (seed sk))
    r g = Some true ->
  query_cells sk ((i, j) :: ids) z
  = Some (Sampled (mk_Update (uwrap vw (Z.quot (bucket_b bk) (bucket_a bk) - 1)) (i64 (bucket_a bk)))).
Proof. intros H0 H1 H2 H3. cbn [query_cells]. now rewrite H0, H1, H2, H3. Qed.

Lemma query_first_cell us x v :
  0 <= x < n -> v <> 0 -> Z.abs v * n < 2 ^ 62 -> entry us x = v -> (forall y, y <> x -> entry us y = 0) ->
  query (sketch_of us false) = Some (Sampled (mk_Update x v), sketch_of us true).
Proof.
  intros Hx Nv Hv Ex Ey. pose proof (po_n _ _ PO).
  destruct cells_first as [l El].
  set (bk := mk_Bucket v (v * (x + 1)) (v * row_r 0 ^ (x + 1) mod p)).
  assert (Ec : cell_of us (0, 0)%nat = bk).
  { rewrite cell_of_eq, cell_stream_all. cbn [fst]. apply (single_bucket n); auto using po_p1, po_n0. apply PO. }
  assert (Q : query_cells (sketch_of us true) (cells n) true = Some (Sampled (mk_Update x v))).
  { rewrite El, (query_cells_good _ 0 0 l true bk (2 ^ Z.of_nat 0) (row_r 0)); [|apply gen_base|rewrite <- Ec; exact (nth_cell _ [] 0 0 l El)|reflexivity|].
    - cbn [bk bucket_a bucket_b]. rewrite (Z.mul_comm v), Z.quot_mul by exact Nv. replace (x + 1 - 1) with x by lia.
      rewrite uwrap_small by (unfold fits; lia). unfold i64. rewrite (swrap_small 64) by nia. reflexivity.
    - exact (is_good_single n p (row_seed 0) (row_r 0) _ x v (po_fits _ _ PO) po_p1 (base_fits _)
        po_n0 Hx Nv Hv (contains_all _ _)). }
  change (query (sketch_of us false)) with (let? a := query_cells (sketch_of us true) (cells n) true in Some (a, sketch_of us true)).
  now rewrite Q.
Qed.

(** *** Batches *)

Lemma batch_loop_of us j : forall vs k, Forall (update_ok n) us -> u64_of_double (log2 n) = Z.log2 n ->
  let r := base_of (gen_bucket_seed k sd) in
  batch_loop us p (gen_bucket_seed k sd) (2 ^ Z.of_nat j) (gen_sq_cache w log2 r n p) (bucket_of p r vs)
  = Some (bucket_of p r (vs ++ seeded_stream us k j)).
Proof.
  induction us as [|u us IH]; intros vs k Hus Hl r; cbn [batch_loop].
  - unfold seeded_stream. cbn [filter]. now rewrite app_nil_r.
  - inversion Hus as [|? ? Hu Hus']; subst. unfold seeded_stream. cbn [filter]. fold (seeded_stream us k j).
    destruct (contains _ _ _); [|now apply IH]. pose proof Hu as [Hi _]. pose proof po_n0. pose proof w_pos.
    assert (Hw : w <= 2 ^ 31) by (destruct widths as [[-> _]|[-> _]]; lia). assert (2 ^ vw <= 2 ^ w) by (apply Z.pow_le_mono_r; lia).
    unfold cached_update. rewrite uwrap_small by (unfold fits; lia).
    assert (Hn' : 0 < n < 2 ^ w) by lia. assert (Hi' : 0 <= index u + 1 <= n) by lia.
    destruct (cached_powermod_correct w (proj1 w_pos) log2 r n (index u + 1) p (base_fits _) (po_fits _ _ PO) po_p1 Hn' Hw Hl Hi') as [-> ->].
    rewrite (add_update_of n) by (auto using po_p1; apply PO). replace (u :: seeded_stream us k j) with ([u] ++ seeded_stream us k j) by reflexivity.
    rewrite app_assoc. now apply IH.
Qed.

(** What [batch_update] makes of a new sketch. *)
Lemma batch_update_of us q : Forall (update_ok n) us -> u64_of_double (log2 n) = Z.log2 n ->
  batch_update (sketch_of [] q) us = Some (mk_Sketch sd n (map (fun c => seeded_bucket us (bucket_id n (fst c) (snd c)) (snd c)) (cells n)) p q).
Proof.
  intros Hus Hl. unfold batch_update. cbn [sketch_of buckets AgmSketch.n].
  rewrite (for_cells_map (cell_of []) (fun c => seeded_bucket us (bucket_id n (fst c) (snd c)) (snd c))); [reflexivity|].
  intros i j bs Hc Hb. unfold batch_cell. cbn [sketch_of seed large_prime AgmSketch.n fst snd]. rewrite Hb, gen_base.
  assert (E0 : cell_of [] (i, j) = bucket_of p (base_of (gen_bucket_seed (bucket_id n i j) sd)) []).
  { unfold cell_of, seeded_bucket. cbn [seeded_stream filter]. pose proof po_p1. now rewrite !bucket_of_nil by lia. }
  assert (Eg : (if (length us =? 0)%nat then Some 1 else guess j) = Some (if (length us =? 0)%nat then 1 else 2 ^ Z.of_nat j))
    by (destruct (length us =? 0)%nat; [reflexivity|exact (guess_of i j Hc)]).
  rewrite Eg, E0. destruct us as [|u us]; [reflexivity|]. cbn [length Nat.eqb].
  now rewrite (batch_loop_of (u :: us) j [] (bucket_id n i j) Hus Hl).
Qed.

Lemma query_zero us :
  (forall y, entry us y = 0) -> query (sketch_of us false) = Some (AllBucketsZeroException, sketch_of us true).
Proof.
  intros H. rewrite !(sketch_of_vector us [] _ H).
  change (query (sketch_of [] false)) with (let? a := query_cells (sketch_of [] true) (cells n) true in Some (a, sketch_of [] true)).
  enough (A : forall pre l, cells n = pre ++ l -> query_cells (sketch_of [] true) l true = Some AllBucketsZeroException).
  { now rewrite (A [] _ eq_refl). }
  intros pre l. revert pre. induction l as [|[i j] l IH]; intros pre E0; cbn [query_cells]; [reflexivity|].
  cbn [sketch_of seed AgmSketch.n buckets large_prime]. rewrite (nth_cell (cell_of []) _ _ _ _ E0).
  assert (Z0 : cell_of [] (i, j) = zero_bucket) by (apply bucket_of_nil; pose proof (po_p _ _ PO); lia).
  rewrite gen_base, Z0, (guess_of i j) by (rewrite E0; apply in_elt). apply (IH (pre ++ [(i, j)])). now rewrite <- app_assoc.
Qed.
End Streams.

(** ** Properties *)

Section Properties.
Context `{EO : SketchEnvOk}.

(** C28: a sketch depends on the vector only.  Whatever the updates and their order, two
    streams that describe the same vector bring a new sketch to the same state: updates
    commute, and opposite updates cancel.  ([params_ok]: at least two entries and at most
    31 guesses, for which every update is defined.) *)
Theorem sketch_of_the_vector fuel n sd sk us vs :
  new_sketch fuel n sd = Some sk -> params_ok n (large_prime sk) ->
  Forall (update_ok n) us -> Forall (update_ok n) vs -> (forall y, entry us y = entry vs y) ->
  exists sk', sketch_updates sk us = Some sk' /\ sketch_updates sk vs = Some sk'.
Proof.
  intros H PO Hu Hv Ee. pose proof (fresh_sketch n _ sd PO fuel sk H eq_refl) as Es.
  exists (sketch_of n (large_prime sk) sd us false). rewrite Es at 1 3.
  rewrite !(sketch_updates_of n _ sd PO) by assumption. cbn [app]. split; [reflexivity|].
  f_equal. symmetry. now apply sketch_of_vector.
Qed.

(** C29: sketches are linear.  Adding the sketches of two streams gives the sketch of the
    two streams together, with [operator+=] and with [operator+], as long as the prime
    has a bit less than the word and the sizes are those of [params_ok] (at least two
    entries, at most 31 guesses). *)
Theorem sketch_add_streams fuel n sd sk us vs :
  new_sketch fuel n sd = Some sk -> params_ok n (large_prime sk) -> large_prime sk <= 2 ^ (w - 1) ->
  Forall (update_ok n) us -> Forall (update_ok n) vs ->
  exists s1 s2 s12, sketch_updates sk us = Some s1 /\ sketch_updates sk vs = Some s2
    /\ sketch_updates sk (us ++ vs) = Some s12
    /\ sketch_add_assign s1 s2 = Some s12 /\ sketch_add fuel s1 s2 = Some s12.
Proof.
  intros H PO Hp Hu Hv. pose proof (fresh_sketch n _ sd PO fuel sk H eq_refl) as Es.
  set (p := large_prime sk) in *. exists (sketch_of n p sd us false), (sketch_of n p sd vs false), (sketch_of n p sd (us ++ vs) false).
  rewrite Es, !(sketch_updates_of n _ sd PO) by (try apply Forall_app; auto). repeat (split; [reflexivity|]).
  split.
  - unfold sketch_add_assign. cbn [sketch_of large_prime buckets seed AgmSketch.n already_quered].
    now rewrite (add_buckets_of n p sd PO) by exact Hp.
  - unfold sketch_add. cbn [sketch_of AgmSketch.n seed]. rewrite H, Es. cbn [sketch_of buckets large_prime].
    rewrite !length_map, Nat.ltb_irrefl, firstn_all2 by (rewrite length_map; lia).
    now rewrite (add_buckets_of n p sd PO) by exact Hp.
Qed.

(** C22: a sketch of a vector with one non-zero entry finds it.  If the stream leaves [v]
    at index [x] and nothing anywhere else, and [|v| * n < 2^62], the query returns the
    index and its value; a second query is refused.  The sizes are those of [params_ok]: at
    least two entries, at most 31 guesses. *)
Theorem query_finds_single_entry fuel n sd sk us x v :
  new_sketch fuel n sd = Some sk -> params_ok n (large_prime sk) -> Forall (update_ok n) us ->
  0 <= x < n -> v <> 0 -> Z.abs v * n < 2 ^ 62 -> entry us x = v -> (forall y, y <> x -> entry us y = 0) ->
  exists sk' sk'', sketch_updates sk us = Some sk' /\ query sk' = Some (Sampled (mk_Update x v), sk'')
    /\ query sk'' = Some (MultipleQueryException, sk'').
Proof.
  intros H PO Hu Hx Nv Hv Ex Ey. pose proof (fresh_sketch n _ sd PO fuel sk H eq_refl) as Es.
  set (p := large_prime sk) in *. exists (sketch_of n p sd us false), (sketch_of n p sd us true).
  rewrite Es, (sketch_updates_of n _ sd PO) by exact Hu. split; [reflexivity|]. split; [|reflexivity].
  now apply query_first_cell.
Qed.

(** the sketch of the zero vector says so: if all updates of a stream cancel, the query
    ends with [AllBucketsZeroException]. *)
Theorem query_zero_vector fuel n sd sk us :
  new_sketch fuel n sd = Some sk -> params_ok n (large_prime sk) -> Forall (update_ok n) us ->
  (forall y, entry us y = 0) ->
  exists sk' sk'', sketch_updates sk us = Some sk' /\ query sk' = Some (AllBucketsZeroException, sk'').
Proof.
  intros H PO Hu Hz. pose proof (fresh_sketch n _ sd PO fuel sk H eq_refl) as Es.
  set (p := large_prime sk) in *. exists (sketch_of n p sd us false), (sketch_of n p sd us true).
  rewrite Es, (sketch_updates_of n _ sd PO) by exact Hu. split; [reflexivity|]. now apply query_zero.
Qed.

(** C38: single updates and batches seed the buckets differently.  After the same stream, the bucket of
    row [i] and column [j] has what the hash seeded with [i] selects, when the updates come
    one by one; in a batch it has what the hash seeded with the number of the bucket
    selects, and the base of the powers is of that seed too.  ([query] uses the row.)  The
    sizes are those of [params_ok], and [log2] of the size rounds down to its logarithm. *)
Theorem batch_update_seeds fuel n sd sk us :
  new_sketch fuel n sd = Some sk -> params_ok n (large_prime sk) -> Forall (update_ok n) us ->
  u64_of_double (log2 n) = Z.log2 n ->
  exists s1 s2, sketch_updates sk us = Some s1 /\ batch_update sk us = Some s2 /\
    forall i j, In (i, j) (cells n) -> let id := bucket_id n i j in
      nth_error (buckets s1) (Z.to_nat id) = Some (seeded_bucket (large_prime sk) sd us (Z.of_nat i) j) /\
      nth_error (buckets s2) (Z.to_nat id) = Some (seeded_bucket (large_prime sk) sd us id j).
Proof.
  intros H PO Hu Hl. pose proof (fresh_sketch n _ sd PO fuel sk H eq_refl) as Es. set (p := large_prime sk) in *.
  exists (sketch_of n p sd us false). eexists. rewrite Es, (sketch_updates_of n _ sd PO), (batch_update_of n p sd PO) by assumption.
  split; [reflexivity|]. split; [reflexivity|]. intros i j Hc id. apply in_split in Hc as (pre & post & E0). split.
  - exact (nth_cell n p PO (cell_of p sd us) pre i j post E0).
  - exact (nth_cell n p PO (fun c => seeded_bucket p sd us (bucket_id n (fst c) (snd c)) (snd c)) pre i j post E0).
Qed.

Lemma for_cells_undefined c cs body :
  In c cs -> (forall bs, body (fst c) (snd c) bs = None) -> forall bs, for_cells cs body bs = None.
Proof.
  intros Hc Hb. induction cs as [|[i j] cs IH]; intros bs; cbn [for_cells]; [destruct Hc|].
  destruct Hc as [<-|Hc]; [now rewrite (Hb bs : body i j bs = None)|].
  destruct (body i j bs) as [bs'|]; [apply (IH Hc)|reflexivity].
Qed.

(** A vector of one entry is out of reach: its prime is 3, and the first update or query
    divides by zero. *)
Theorem one_entry_undefined fuel sd sk u : new_sketch fuel 1 sd = Some sk -> 0 < num_buckets 1 -> 0 < num_guesses 1 ->
  large_prime sk = 3 /\ sketch_update sk u = None /\ query sk = None.
Proof.
  intros H Hb Hg. assert (E3 : large_prime sk = 3 /\ n sk = 1 /\ already_quered sk = false).
  { unfold new_sketch in H. destruct (generate_prime w fuel (uwrap w (1 * 1))) as [p|] eqn:G; [|discriminate]. injection H as <-. cbn [large_prime AgmSketch.n already_quered].
    split; [|now split]. revert G. destruct widths as [[-> _]|[-> _]]; unfold generate_prime;
      (destruct fuel as [|fuel]; [vm_compute; discriminate|cbn [prime_search]]);
      [change (IsPrime 64 _) with (Some false)|change (IsPrime 128 _) with (Some false)]; destruct fuel; cbn [prime_search];
      [change (IsPrime 64 _) with (Some true)|change (IsPrime 64 _) with (Some true)|change (IsPrime 128 _) with (Some true)|change (IsPrime 128 _) with (Some true)]; now intros [= <-]. }
  destruct E3 as (E3 & En & Eq). assert (R : forall s, gen_r s (large_prime sk) = None) by (intros s; unfold gen_r; rewrite E3; unfold uwrap; now rewrite Z.mod_0_l by (apply Z.pow_nonzero; pose proof w_pos; lia)).
  assert (Hc : exists l, cells (n sk) = (0, 0)%nat :: l).
  { rewrite En. unfold cells. destruct (Z.to_nat (num_buckets 1)) eqn:Eb; [lia|]. destruct (Z.to_nat (num_guesses 1)) eqn:Eg; [lia|]. cbn [seq list_prod map app]. eauto. }
  destruct Hc as [l El]. split; [exact E3|]. split.
  - unfold sketch_update. rewrite El. cbn [for_cells]. unfold update_cell. now rewrite R.
  - unfold query. rewrite Eq. cbn [AgmSketch.n seed large_prime]. rewrite El. cbn [query_cells seed large_prime]. now rewrite R.
Qed.

(** long vectors are out of reach.  From 32 guesses on, that is for vectors of about
    [2^30] entries or more, every update of a sketch shifts an [int] into its sign bit or
    past its width, which is undefined. *)
Theorem update_undefined_for_long_vectors sk u :
  0 < num_buckets (n sk) -> 31 < num_guesses (n sk) -> sketch_update sk u = None.
Proof.
  intros Hb Hg. unfold sketch_update.
  rewrite (for_cells_undefined (0, 31)%nat); [reflexivity| |].
  - unfold cells. rewrite in_prod_iff, !in_seq. lia.
  - intros bs. unfold update_cell. cbn [fst snd]. destruct (gen_r _ _); [|reflexivity]. destruct (nth_error bs _); reflexivity.
Qed.
End Properties.

(** ** A small environment *)

(** Logarithms rounded down, and a multiplicative hash. *)
Definition small_env : SketchEnv :=
  {| w := 64; vw := 32;
     XXH64 := fun bytes sd => Z.shiftr (u64 ((le_word bytes + sd + 1) * 0x9E3779B97F4A7C15)) 32;
     log2 := fun x => binary_normalize 53 1024 (Z.log2 x) 0 false |}.

#[local] Existing Instance small_env.

Lemma small_env_ok : SketchEnvOk small_env.
Proof.
  split; [auto|]. intros bytes sd. cbn [XXH64 small_env]. apply shiftr_fits; [lia|lia|apply u64_fits].
Qed.

Definition small_sketch : AGM_Sketch := mk_Sketch 5 8 (repeat zero_bucket 20) 67 false.

Lemma small_sketch_new : new_sketch 40 8 5 = Some small_sketch.
Proof. vm_compute. reflexivity. Qed.

Lemma small_params : params_ok (E := small_env) 8 67.
Proof.
  split; [cbn; lia|lia|unfold fits; cbn; lia| |].
  - replace (num_guesses 8) with 5 by (vm_compute; reflexivity). lia.
  - replace (num_guesses 8) with 5 by (vm_compute; reflexivity).
    replace (num_buckets 8) with 4 by (vm_compute; reflexivity). lia.
Qed.

Definition small_stream : list Update := [mk_Update 3 1; mk_Update 6 2; mk_Update 3 1; mk_Update 6 (-2)].

Lemma small_stream_ok : Forall (update_ok 8) small_stream.
Proof. repeat constructor; cbn; lia. Qed.

Lemma entry_small y : entry small_stream y = if y =? 3 then 2 else 0.
Proof.
  unfold entry, small_stream. cbn [sum_of fold_right index delta].
  rewrite (Z.eqb_sym 3), (Z.eqb_sym 6). destruct (Z.eqb_spec y 3), (Z.eqb_spec y 6); lia.
Qed.

Lemma sketch_of_the_vector_witness :
  exists sk', sketch_updates small_sketch small_stream = Some sk'
    /\ sketch_updates small_sketch [mk_Update 3 2] = Some sk'.
Proof.
  apply (sketch_of_the_vector (EO := small_env_ok) 40 8 5 small_sketch small_stream [mk_Update 3 2]
           small_sketch_new small_params small_stream_ok).
  - repeat constructor; cbn; lia.
  - intros y. rewrite entry_small. unfold entry. cbn [sum_of fold_right index delta].
    rewrite (Z.eqb_sym 3). destruct (y =? 3); reflexivity.
Defined.

Lemma sketch_add_streams_witness :
  exists s1 s2 s12, sketch_updates small_sketch small_stream = Some s1
    /\ sketch_updates small_sketch [mk_Update 1 4] = Some s2
    /\ sketch_updates small_sketch (small_stream ++ [mk_Update 1 4]) = Some s12
    /\ sketch_add_assign s1 s2 = Some s12 /\ sketch_add 40 s1 s2 = Some s12.
Proof.
  apply (sketch_add_streams (EO := small_env_ok) 40 8 5 small_sketch small_stream [mk_Update 1 4]
           small_sketch_new small_params ltac:(cbn; lia) small_stream_ok).
  repeat constructor; cbn; lia.
Defined.

Lemma query_finds_single_entry_witness :
  exists sk' sk'', sketch_updates small_sketch small_stream = Some sk'
    /\ query sk' = Some (Sampled (mk_Update 3 2), sk'') /\ query sk'' = Some (MultipleQueryException, sk'').
Proof.
  apply (query_finds_single_entry (EO := small_env_ok) 40 8 5 small_sketch small_stream 3 2
           small_sketch_new small_params small_stream_ok); [lia|lia|lia|reflexivity|].
  intros y N. rewrite entry_small. apply Z.eqb_neq in N. now rewrite N.
Defined.

Lemma batch_update_seeds_witness :
  exists s1 s2, sketch_updates small_sketch small_stream = Some s1 /\ batch_update small_sketch small_stream = Some s2 /\
    forall i j, In (i, j) (cells 8) -> let id := bucket_id 8 i j in
      nth_error (buckets s1) (Z.to_nat id) = Some (seeded_bucket 67 5 small_stream (Z.of_nat i) j) /\
      nth_error (buckets s2) (Z.to_nat id) = Some (seeded_bucket 67 5 small_stream id j).
Proof.
  apply (batch_update_seeds (EO := small_env_ok) 40 8 5 small_sketch small_stream small_sketch_new small_params small_stream_ok).
  vm_compute. reflexivity.
Defined.

Lemma one_entry_undefined_witness : large_prime (mk_Sketch 5 1 (repeat zero_bucket 2) 3 false) = 3 /\ 
  sketch_update (mk_Sketch 5 1 (repeat zero_bucket 2) 3 false) (mk_Update 0 1) = None /\ query (mk_Sketch 5 1 (repeat zero_bucket 2) 3 false) = None.
Proof. apply (one_entry_undefined (EO := small_env_ok) 1 5 (mk_Sketch 5 1 (repeat zero_bucket 2) 3 false) (mk_Update 0 1)); vm_compute; reflexivity. Defined.

Lemma query_zero_vector_witness :
  exists sk' sk'', sketch_updates small_sketch [mk_Update 2 7; mk_Update 2 (-7)] = Some sk'
    /\ query sk' = Some (AllBucketsZeroException, sk'').
Proof.
  apply (query_zero_vector (EO := small_env_ok) 40 8 5 small_sketch [mk_Update 2 7; mk_Update 2 (-7)]
           small_sketch_new small_params).
  - repeat constructor; cbn; lia.
  - intros y. unfold entry. cbn [sum_of fold_right index delta]. destruct (2 =? y); reflexivity.
Defined.

Lemma update_undefined_for_long_vectors_witness :
  sketch_update (mk_Sketch 5 (2 ^ 31) [] 67 false) (mk_Update 0 1) = None.
Proof.
  apply (update_undefined_for_long_vectors (mk_Sketch 5 (2 ^ 31) [] 67 false)); vm_compute; reflexivity.
Defined.

(** batches do not give the sketch that single updates give.  [batch_update] seeds each
    bucket with its own number, [update] and [query] with the number of its row: a vector
    that is sampled after single updates is lost after the same updates in a batch. *)
Theorem batch_update_loses_vector :
  let us := [mk_Update 3 1; mk_Update 6 2] in
  (let? sk := sketch_updates small_sketch us in let? (a, _) := query sk in Some a) = Some (Sampled (mk_Update 3 1))
  /\ (let? sk := batch_update small_sketch us in let? (a, _) := query sk in Some a) = Some NoGoodBucketException.
Proof. split; vm_compute; reflexivity. Qed.

(** scaling by a negative factor breaks the checksum.  The factor is reduced modulo the
    word, not modulo the prime, before it multiplies the checksum: the sketch of [3] at
    index [2] scaled by [-1] has no good bucket, while that of the opposite update finds
    [-3]. *)
Theorem scale_negative_loses_vector :
  (let? sk := sketch_updates small_sketch [mk_Update 2 3] in let? sk := sketch_scale 40 sk (-1) in
   let? (a, _) := query sk in Some a) = Some NoGoodBucketException
  /\ (let? sk := sketch_updates small_sketch [mk_Update 2 (-3)] in let? (a, _) := query sk in Some a)
     = Some (Sampled (mk_Update 2 (-3))).
Proof. split; vm_compute; reflexivity. Qed.
