(* ===== verification/PamTree.v ===== *)
(** * Weight-balanced trees of Aspen, as values

    Aspen keeps graphs in purely functional ordered maps (PAM, [aspen/code/trees]).  This
    file is the mathematical side: trees as values, the join of two balanced trees, and
    the operations on ordered maps built on it.  [PamStore], [PamJoin] and [PamMap]
    translate the code, which works in place on reference-counted nodes, and relate it to
    these functions. *)

From S2P Require Import Prelude.
From stdpp Require Import base option list sorting.
#[local] Open Scope Z_scope.

(** ** Entries *)

(** The [Entry] parameter of the templates, for maps ([aug_map_full_entry]): an entry is a
    key with a value. [aug_init] is the value-initialised augmentation of [make_node]. *)
Class Entry := {
  key_t : Type;
  val_t : Type;
  aug_t : Type;
  comp : key_t -> key_t -> bool;
  get_empty : aug_t;
  from_entry : key_t * val_t -> aug_t;
  combine : aug_t -> aug_t -> aug_t;
  aug_init : aug_t;
}.

(** [comp] is a strict total order. *)
Class EntryOk (E : Entry) : Prop := {
  comp_irrefl k : comp k k = false;
  comp_trans a b c : comp a b = true -> comp b c = true -> comp a c = true;
  comp_total a b : comp a b = false -> comp b a = false -> a = b;
}.

Section Trees.
Context {E : Entry}.

Definition entry_t : Type := key_t * val_t.

Inductive tree := leaf | bin (l : tree) (e : entry_t) (r : tree).

Fixpoint tsize (t : tree) : Z :=
  match t with leaf => 0 | bin l _ r => tsize l + tsize r + 1 end.

Fixpoint tdepth (t : tree) : nat :=
  match t with leaf => 0%nat | bin l _ r => S (Nat.max (tdepth l) (tdepth r)) end.

(** The entries in order. *)
Fixpoint elems (t : tree) : list entry_t :=
  match t with leaf => [] | bin l e r => elems l ++ e :: elems r end.

(** The augmented value that [aug_node::update] gives a node. *)
Fixpoint aug_of (t : tree) : aug_t :=
  match t with
  | leaf => get_empty
  | bin l e r =>
    let av := from_entry e in
    let av := match l with leaf => av | _ => combine (aug_of l) av end in
    match r with leaf => av | _ => combine av (aug_of r) end
  end.

(** ** Join *)

Definition tweight (t : tree) : Z := tsize t + 1.

(** [ratio * weight(t1) > weight(t2)] and [weight(b) <= beta * weight(t)], for
    [alpha = 0.29]. *)
Definition heavy (t1 t2 : tree) : bool := 71 * tweight t2 <? 29 * tweight t1.
Definition single_rot (b t : tree) : bool := 71 * tweight b <=? 42 * tweight t.

Definition rot_left (l : tree) (e : entry_t) (r : tree) : tree :=
  match r with
  | bin rl re rr => bin (bin l e rl) re rr
  | leaf => bin l e r
  end.

Definition rot_right (l : tree) (e : entry_t) (r : tree) : tree :=
  match l with
  | bin ll le lr => bin ll le (bin lr e r)
  | leaf => bin l e r
  end.

Definition drot_left (l : tree) (e : entry_t) (r : tree) : tree :=
  match r with
  | bin (bin a f b) g c => bin (bin l e a) f (bin b g c)
  | _ => bin l e r
  end.

Definition drot_right (l : tree) (e : entry_t) (r : tree) : tree :=
  match l with
  | bin a f (bin b g c) => bin (bin a f b) g (bin c e r)
  | _ => bin l e r
  end.

Definition left_of (t : tree) : tree := match t with leaf => leaf | bin l _ _ => l end.
Definition right_of (t : tree) : tree := match t with leaf => leaf | bin _ _ r => r end.

Definition rebalance_left (l : tree) (e : entry_t) (r : tree) : tree :=
  if heavy r l then
    if single_rot (left_of r) r then rot_left l e r else drot_left l e r
  else bin l e r.

Definition rebalance_right (l : tree) (e : entry_t) (r : tree) : tree :=
  if heavy l r then
    if single_rot (right_of l) l then rot_right l e r else drot_right l e r
  else bin l e r.

Fixpoint join_right (t1 t2 : tree) (k : entry_t) : tree :=
  match t1 with
  | bin l e r => if heavy t1 t2 then rebalance_left l e (join_right r t2 k) else bin t1 k t2
  | leaf => bin t1 k t2
  end.

Fixpoint join_left (t1 t2 : tree) (k : entry_t) : tree :=
  match t2 with
  | bin l e r => if heavy t2 t1 then rebalance_right (join_left t1 l k) e r else bin t1 k t2
  | leaf => bin t1 k t2
  end.

Definition tjoin (t1 t2 : tree) (k : entry_t) : tree :=
  if heavy t1 t2 then join_right t1 t2 k
  else if heavy t2 t1 then join_left t1 t2 k
  else bin t1 k t2.

(** *** Contents *)

Lemma tsize_nonneg t : 0 <= tsize t.
Proof. induction t; cbn; lia. Qed.

Lemma tsize_elems t : tsize t = Z.of_nat (length (elems t)).
Proof. induction t as [|l IHl e r IHr]; cbn; [lia|]. rewrite length_app. cbn. lia. Qed.

Lemma tsize_leaf t : tsize t = 0 -> t = leaf.
Proof. destruct t as [|l e r]; [auto|]. cbn. pose proof (tsize_nonneg l). pose proof (tsize_nonneg r). lia. Qed.

Lemma tdepth_size t : Z.of_nat (tdepth t) <= tsize t.
Proof.
  induction t as [|l IHl e r IHr]; cbn [tdepth tsize]; [lia|].
  pose proof (tsize_nonneg l). pose proof (tsize_nonneg r). lia.
Qed.

Lemma rot_left_elems l e r : elems (rot_left l e r) = elems l ++ e :: elems r.
Proof. destruct r; cbn; [reflexivity|]. now rewrite <- app_assoc. Qed.

Lemma rot_right_elems l e r : elems (rot_right l e r) = elems l ++ e :: elems r.
Proof. destruct l; cbn; [reflexivity|]. now rewrite <- app_assoc. Qed.

Lemma drot_left_elems l e r : elems (drot_left l e r) = elems l ++ e :: elems r.
Proof. destruct r as [|[|]]; cbn; try reflexivity. now rewrite <- !app_assoc. Qed.

Lemma drot_right_elems l e r : elems (drot_right l e r) = elems l ++ e :: elems r.
Proof. destruct l as [|? ? [|]]; cbn; try reflexivity. rewrite <- !app_assoc. cbn. now rewrite <- !app_assoc. Qed.

Lemma rebalance_left_elems l e r : elems (rebalance_left l e r) = elems l ++ e :: elems r.
Proof.
  unfold rebalance_left. destruct (heavy r l); [|reflexivity].
  destruct (single_rot _ _); [apply rot_left_elems|apply drot_left_elems].
Qed.

Lemma rebalance_right_elems l e r : elems (rebalance_right l e r) = elems l ++ e :: elems r.
Proof.
  unfold rebalance_right. destruct (heavy l r); [|reflexivity].
  destruct (single_rot _ _); [apply rot_right_elems|apply drot_right_elems].
Qed.

Lemma join_right_elems t1 t2 k : elems (join_right t1 t2 k) = elems t1 ++ k :: elems t2.
Proof.
  induction t1 as [|l IHl e r IHr]; cbn [join_right]; [reflexivity|].
  destruct (heavy _ _); [|reflexivity]. rewrite rebalance_left_elems, IHr. cbn. now rewrite <- app_assoc.
Qed.

Lemma join_left_elems t1 t2 k : elems (join_left t1 t2 k) = elems t1 ++ k :: elems t2.
Proof.
  induction t2 as [|l IHl e r IHr]; cbn [join_left]; [reflexivity|].
  destruct (heavy _ _); [|reflexivity]. rewrite rebalance_right_elems, IHl. cbn. now rewrite <- app_assoc.
Qed.

Lemma tjoin_elems t1 t2 k : elems (tjoin t1 t2 k) = elems t1 ++ k :: elems t2.
Proof.
  unfold tjoin. destruct (heavy t1 t2); [apply join_right_elems|].
  destruct (heavy t2 t1); [apply join_left_elems|reflexivity].
Qed.

Lemma tjoin_size t1 t2 k : tsize (tjoin t1 t2 k) = tsize t1 + tsize t2 + 1.
Proof. rewrite !tsize_elems, tjoin_elems, length_app. cbn. lia. Qed.

Lemma join_right_size t1 t2 k : tsize (join_right t1 t2 k) = tsize t1 + tsize t2 + 1.
Proof. rewrite !tsize_elems, join_right_elems, length_app. cbn. lia. Qed.

Lemma join_left_size t1 t2 k : tsize (join_left t1 t2 k) = tsize t1 + tsize t2 + 1.
Proof. rewrite !tsize_elems, join_left_elems, length_app. cbn. lia. Qed.

(** *** Balance *)

(** [is_balanced] at every node ([check_balance]). *)
Fixpoint balanced (t : tree) : bool :=
  match t with
  | leaf => true
  | bin l _ r => negb (heavy l r) && negb (heavy r l) && balanced l && balanced r
  end.

Lemma heavy_spec a b : reflect (71 * tweight b < 29 * tweight a) (heavy a b).
Proof. apply Z.ltb_spec0. Qed.

Lemma tweight_pos t : 1 <= tweight t.
Proof. unfold tweight. pose proof (tsize_nonneg t). lia. Qed.

Lemma tweight_bin l e r : tweight (bin l e r) = tweight l + tweight r.
Proof. unfold tweight. cbn. lia. Qed.

Lemma balanced_bin l e r :
  balanced (bin l e r) = true <->
  29 * tweight l <= 71 * tweight r /\ 29 * tweight r <= 71 * tweight l /\ balanced l = true /\ balanced r = true.
Proof. cbn. unfold heavy. rewrite !andb_true_iff, !negb_true_iff, !Z.ltb_ge. tauto. Qed.

(** What a rotation repairs: [r] has become too heavy for [l], but not by much. *)
Lemma rebalance_left_balanced l e r :
  balanced l = true -> balanced r = true ->
  29 * tweight l <= 71 * tweight r -> 29 * tweight r <= 112 * tweight l ->
  balanced (rebalance_left l e r) = true.
Proof.
  intros Bl Br H1 H2. unfold rebalance_left. destruct (heavy_spec r l) as [Hh|Hh].
  - destruct r as [|rl re rr]; [cbn in Hh; pose proof (tweight_pos l); unfold tweight in *; cbn in *; lia|].
    apply balanced_bin in Br as (B1 & B2 & B3 & B4). rewrite tweight_bin in *. cbn [left_of].
    pose proof (tweight_pos rl). pose proof (tweight_pos rr). pose proof (tweight_pos l).
    unfold single_rot. rewrite tweight_bin. destruct (Z.leb_spec (71 * tweight rl) (42 * (tweight rl + tweight rr))).
    + cbn [rot_left]. rewrite !balanced_bin, !tweight_bin. repeat split; auto; lia.
    + destruct rl as [|a f b]; [unfold tweight in *; cbn in *; lia|].
      apply balanced_bin in B3 as (C1 & C2 & C3 & C4). rewrite tweight_bin in *.
      pose proof (tweight_pos a). pose proof (tweight_pos b).
      cbn [drot_left]. rewrite !balanced_bin, !tweight_bin. repeat split; auto; lia.
  - rewrite balanced_bin. repeat split; auto. lia.
Qed.

Lemma rebalance_right_balanced l e r :
  balanced l = true -> balanced r = true ->
  29 * tweight r <= 71 * tweight l -> 29 * tweight l <= 112 * tweight r ->
  balanced (rebalance_right l e r) = true.
Proof.
  intros Bl Br H1 H2. unfold rebalance_right. destruct (heavy_spec l r) as [Hh|Hh].
  - destruct l as [|ll le lr]; [cbn in Hh; pose proof (tweight_pos r); unfold tweight in *; cbn in *; lia|].
    apply balanced_bin in Bl as (B1 & B2 & B3 & B4). rewrite tweight_bin in *. cbn [right_of].
    pose proof (tweight_pos ll). pose proof (tweight_pos lr). pose proof (tweight_pos r).
    unfold single_rot. rewrite tweight_bin. destruct (Z.leb_spec (71 * tweight lr) (42 * (tweight ll + tweight lr))).
    + cbn [rot_right]. rewrite !balanced_bin, !tweight_bin. repeat split; auto; lia.
    + destruct lr as [|b g c]; [unfold tweight in *; cbn in *; lia|].
      apply balanced_bin in B4 as (C1 & C2 & C3 & C4). rewrite tweight_bin in *.
      pose proof (tweight_pos b). pose proof (tweight_pos c).
      cbn [drot_right]. rewrite !balanced_bin, !tweight_bin. repeat split; auto; lia.
  - rewrite balanced_bin. repeat split; auto. lia.
Qed.

Lemma join_right_weight t1 t2 k : tweight (join_right t1 t2 k) = tweight t1 + tweight t2.
Proof. unfold tweight. rewrite join_right_size. lia. Qed.

Lemma join_left_weight t1 t2 k : tweight (join_left t1 t2 k) = tweight t1 + tweight t2.
Proof. unfold tweight. rewrite join_left_size. lia. Qed.

Lemma join_right_balanced t1 t2 k :
  balanced t1 = true -> balanced t2 = true -> 29 * tweight t2 <= 71 * tweight t1 ->
  balanced (join_right t1 t2 k) = true.
Proof.
  intros B1 B2 H. induction t1 as [|l IHl e r IHr]; cbn [join_right].
  - rewrite balanced_bin. pose proof (tweight_pos t2). change (tweight leaf) with 1 in *. repeat split; auto; lia.
  - destruct (heavy_spec (bin l e r) t2) as [Hh|Hh]; [|rewrite balanced_bin; repeat split; auto; lia].
    apply balanced_bin in B1 as (C1 & C2 & C3 & C4). rewrite tweight_bin in *.
    pose proof (tweight_pos t2). pose proof (tweight_pos l). pose proof (tweight_pos r).
    apply rebalance_left_balanced; auto; rewrite ?join_right_weight; [|lia|lia].
    apply IHr; auto. lia.
Qed.

Lemma join_left_balanced t1 t2 k :
  balanced t1 = true -> balanced t2 = true -> 29 * tweight t1 <= 71 * tweight t2 ->
  balanced (join_left t1 t2 k) = true.
Proof.
  intros B1 B2 H. induction t2 as [|l IHl e r IHr]; cbn [join_left].
  - rewrite balanced_bin. pose proof (tweight_pos t1). change (tweight leaf) with 1 in *. repeat split; auto; lia.
  - destruct (heavy_spec (bin l e r) t1) as [Hh|Hh]; [|rewrite balanced_bin; repeat split; auto; lia].
    apply balanced_bin in B2 as (C1 & C2 & C3 & C4). rewrite tweight_bin in *.
    pose proof (tweight_pos t1). pose proof (tweight_pos l). pose proof (tweight_pos r).
    apply rebalance_right_balanced; auto; rewrite ?join_left_weight; [|lia|lia].
    apply IHl; auto. lia.
Qed.

Lemma tjoin_balanced t1 t2 k :
  balanced t1 = true -> balanced t2 = true -> balanced (tjoin t1 t2 k) = true.
Proof.
  intros B1 B2. unfold tjoin. pose proof (tweight_pos t1). pose proof (tweight_pos t2).
  destruct (heavy_spec t1 t2); [apply join_right_balanced; auto; lia|].
  destruct (heavy_spec t2 t1); [apply join_left_balanced; auto; lia|].
  rewrite balanced_bin. repeat split; auto; lia.
Qed.

(** A balanced tree is of logarithmic depth. *)
Lemma balanced_depth t : balanced t = true -> 100 ^ Z.of_nat (tdepth t) <= 71 ^ Z.of_nat (tdepth t) * tweight t.
Proof.
  induction t as [|l IHl e r IHr]; intros B; [change (1 <= 1 * 1); lia|].
  apply balanced_bin in B as (B1 & B2 & B3 & B4). specialize (IHl B3). specialize (IHr B4).
  rewrite tweight_bin. cbn [tdepth]. rewrite Nat2Z.inj_succ, !Z.pow_succ_r by lia.
  pose proof (tweight_pos l). pose proof (tweight_pos r).
  destruct (Nat.max_spec (tdepth l) (tdepth r)) as [[_ ->]|[_ ->]].
  - assert (0 < 71 ^ Z.of_nat (tdepth r)) by (apply Z.pow_pos_nonneg; lia). nia.
  - assert (0 < 71 ^ Z.of_nat (tdepth l)) by (apply Z.pow_pos_nonneg; lia). nia.
Qed.
End Trees.
#[export] Hint Rewrite @tjoin_elems @join_right_elems @join_left_elems : elems.
Arguments tree : clear implicits.
Arguments tree {E}.
