(* ===== verification/PamOps.v ===== *)
(** * Ordered maps as weight-balanced trees

    The operations of Aspen's ordered maps on trees as values: what they do to the finite
    map a search tree stands for, and that they keep trees sorted and balanced. *)

From S2P Require Import Prelude PamTree.
From stdpp Require Import base option list sorting.
#[local] Open Scope Z_scope.

Section Lists.
Context {E : Entry} {EO : EntryOk E}.

Definition key_lt (a b : entry_t) : Prop := comp (fst a) (fst b) = true.

(** The value of a key in a list of entries. *)
Fixpoint assoc (k : key_t) (l : list entry_t) : option val_t :=
  match l with
  | [] => None
  | e :: l => if negb (comp k (fst e)) && negb (comp (fst e) k) then Some (snd e) else assoc k l
  end.

Definition all_keys (P : key_t -> Prop) (l : list entry_t) : Prop := Forall (fun e => P (fst e)) l.

Lemma all_keys_weaken (P Q : key_t -> Prop) l : (forall k, P k -> Q k) -> all_keys P l -> all_keys Q l.
Proof. intros H Hl. eapply Forall_impl; [exact Hl|]. cbn. auto. Qed.

Lemma comp_asym a b : comp a b = true -> comp b a = false.
Proof.
  intros H. apply not_true_is_false. intros H'. pose proof (comp_trans _ _ _ H H') as T.
  now rewrite comp_irrefl in T.
Qed.

(** The three outcomes of comparing two keys. *)
Inductive key_cmp (a b : key_t) : bool -> bool -> Prop :=
| kc_lt : comp a b = true -> key_cmp a b true false
| kc_gt : comp b a = true -> key_cmp a b false true
| kc_eq : a = b -> key_cmp a b false false.

Lemma key_cmp_spec a b : key_cmp a b (comp a b) (comp b a).
Proof.
  destruct (comp a b) eqn:E1.
  - rewrite (comp_asym _ _ E1). now constructor.
  - destruct (comp b a) eqn:E2; constructor; auto using comp_total.
Qed.

Lemma assoc_app k l1 l2 : assoc k (l1 ++ l2) = match assoc k l1 with Some v => Some v | None => assoc k l2 end.
Proof. induction l1 as [|e l1 IH]; cbn; [reflexivity|]. destruct (negb _ && negb _); [reflexivity|exact IH]. Qed.

Lemma assoc_none k l : all_keys (fun k' => comp k k' = true \/ comp k' k = true) l -> assoc k l = None.
Proof. induction 1 as [|e l [H|H] _ IH]; cbn; rewrite ?H, ?andb_false_r; auto. Qed.

Lemma assoc_below k l : all_keys (fun k' => comp k' k = true) l -> assoc k l = None.
Proof. intros H. apply assoc_none. revert H. apply all_keys_weaken. auto. Qed.

Lemma assoc_above k l : all_keys (fun k' => comp k k' = true) l -> assoc k l = None.
Proof. intros H. apply assoc_none. revert H. apply all_keys_weaken. auto. Qed.

Lemma assoc_In k v l : assoc k l = Some v -> exists e, In e l /\ fst e = k /\ snd e = v.
Proof.
  induction l as [|e l IH]; cbn; [discriminate|]. destruct (key_cmp_spec k (fst e)) as [H|H|H]; cbn.
  1,2: intros Ha; destruct (IH Ha) as (e' & ? & ? & ?); exists e'; auto.
  intros [= <-]. exists e; auto.
Qed.

Lemma all_keys_assoc P k v l : all_keys P l -> assoc k l = Some v -> P k.
Proof. intros H Ha. apply assoc_In in Ha as (e & Hin & <- & _). eapply Forall_forall in H; [exact H|]. now apply list_elem_of_In. Qed.

Lemma all_keys_app P l1 e l2 : all_keys P (l1 ++ e :: l2) <-> all_keys P l1 /\ P (fst e) /\ all_keys P l2.
Proof. unfold all_keys. rewrite Forall_app, Forall_cons. reflexivity. Qed.
End Lists.

Section Maps.
Context {E : Entry} {EO : EntryOk E}.

(** The finite map of a tree, and search trees. *)
Definition get (k : key_t) (t : tree) : option val_t := assoc k (elems t).
Definition sorted (t : tree) : Prop := StronglySorted key_lt (elems t).
Definition all (P : key_t -> Prop) (t : tree) : Prop := all_keys P (elems t).
Notation below k := (all (fun k' => comp k' k = true)).
Notation above k := (all (fun k' => comp k k' = true)).

Lemma sorted_join l e r : sorted (tjoin l r e) <-> sorted (bin l e r).
Proof. unfold sorted. rewrite tjoin_elems. reflexivity. Qed.

Lemma all_join P l e r : all P (tjoin l r e) <-> all P l /\ P (fst e) /\ all P r.
Proof. unfold all. rewrite tjoin_elems. apply all_keys_app. Qed.

Lemma get_join k l e r : get k (tjoin l r e) = get k (bin l e r).
Proof. unfold get. now rewrite tjoin_elems. Qed.

Lemma all_bin P l e r : all P (bin l e r) <-> all P l /\ P (fst e) /\ all P r.
Proof. apply all_keys_app. Qed.

Lemma sorted_bin l e r : sorted (bin l e r) <-> sorted l /\ sorted r /\ below (fst e) l /\ above (fst e) r.
Proof.
  unfold sorted, all, all_keys. cbn [elems]. rewrite StronglySorted_app. split.
  - intros (H1 & H2 & H3). inversion H3 as [|? ? H4 H5]; subst. repeat split; auto.
    apply Forall_forall. intros x Hx. apply H1; [exact Hx|]. left.
  - intros (H1 & H2 & H3 & H4). split; [|split; [exact H1|constructor; auto]].
    intros x y Hx Hy. rewrite Forall_forall in H3, H4. specialize (H3 x Hx). apply elem_of_cons in Hy as [->|Hy]; [exact H3|].
    apply (comp_trans _ (fst e)); [exact H3|exact (H4 y Hy)].
Qed.

Lemma get_bin k l e r : sorted (bin l e r) ->
  get k (bin l e r) = if comp k (fst e) then get k l else if comp (fst e) k then get k r else Some (snd e).
Proof.
  intros (_ & _ & Hl & Hr)%sorted_bin. unfold get. cbn [elems]. rewrite assoc_app. cbn [assoc].
  destruct (key_cmp_spec k (fst e)) as [H|H|H]; cbn [negb andb].
  - rewrite (assoc_above k (elems r)); [now destruct (assoc _ _)|].
    revert Hr. apply all_keys_weaken. intros k' H'. exact (comp_trans _ _ _ H H').
  - rewrite (assoc_below k (elems l)); [reflexivity|].
    revert Hl. apply all_keys_weaken. intros k' H'. exact (comp_trans _ _ _ H' H).
  - subst k. rewrite (assoc_below _ (elems l)) by exact Hl. reflexivity.
Qed.

Lemma get_below k k' t : below k t -> comp k' k = false -> get k' t = None.
Proof.
  intros H Hk. apply assoc_below. revert H. apply all_keys_weaken. intros a Ha.
  destruct (key_cmp_spec k' k) as [|H|H]; [congruence|exact (comp_trans _ _ _ Ha H)|now subst].
Qed.

Lemma get_above k k' t : above k t -> comp k k' = false -> get k' t = None.
Proof.
  intros H Hk. apply assoc_above. revert H. apply all_keys_weaken. intros a Ha.
  destruct (key_cmp_spec k' k) as [H|H|H]; [exact (comp_trans _ _ _ H Ha)|congruence|now subst].
Qed.

Lemma all_weaken (P Q : key_t -> Prop) t : (forall k, P k -> Q k) -> all P t -> all Q t.
Proof. intros H. now apply all_keys_weaken. Qed.

(** [tfind]: search by the order. *)
Fixpoint tfind (k : key_t) (t : tree) : option entry_t :=
  match t with
  | leaf => None
  | bin l e r => if comp k (fst e) then tfind k l else if comp (fst e) k then tfind k r else Some e
  end.

Lemma tfind_get k t : sorted t -> option_map snd (tfind k t) = get k t.
Proof.
  induction t as [|l IHl e r IHr]; intros H; [reflexivity|]. rewrite get_bin by exact H. cbn [tfind].
  apply sorted_bin in H as (Hl & Hr & _ & _). destruct (comp k (fst e)); [auto|]. destruct (comp (fst e) k); auto.
Qed.

(** *** Joining, splitting *)

(** Concatenation, following the larger tree. *)
Fixpoint tjoin2 (t1 : tree) : tree -> tree :=
  fix go (t2 : tree) : tree :=
    match t1, t2 with
    | leaf, _ => t2
    | _, leaf => t1
    | bin l1 e1 r1, bin l2 e2 r2 =>
      if tsize t2 <? tsize t1 then tjoin l1 (tjoin2 r1 t2) e1 else tjoin (go l2) r2 e2
    end.

Lemma tjoin2_bin l1 e1 r1 l2 e2 r2 :
  tjoin2 (bin l1 e1 r1) (bin l2 e2 r2) =
  if tsize (bin l2 e2 r2) <? tsize (bin l1 e1 r1) then tjoin l1 (tjoin2 r1 (bin l2 e2 r2)) e1
  else tjoin (tjoin2 (bin l1 e1 r1) l2) r2 e2.
Proof. reflexivity. Qed.

Lemma tjoin2_elems t1 : forall t2, elems (tjoin2 t1 t2) = elems t1 ++ elems t2.
Proof.
  induction t1 as [|l1 _ e1 r1 IHr]; intros t2; [now destruct t2|].
  induction t2 as [|l2 IHl e2 r2 _]; [cbn; now rewrite app_nil_r|].
  rewrite tjoin2_bin. destruct (_ <? _); rewrite tjoin_elems.
  - rewrite IHr. cbn. now rewrite <- app_assoc.
  - rewrite IHl. cbn. rewrite <- !app_assoc. reflexivity.
Qed.

Lemma tjoin2_size t1 t2 : tsize (tjoin2 t1 t2) = tsize t1 + tsize t2.
Proof. rewrite !tsize_elems, tjoin2_elems, length_app. lia. Qed.

Lemma tjoin2_balanced t1 : forall t2, balanced t1 = true -> balanced t2 = true -> balanced (tjoin2 t1 t2) = true.
Proof.
  induction t1 as [|l1 _ e1 r1 IHr]; intros t2 B1 B2; [now destruct t2|].
  induction t2 as [|l2 IHl e2 r2 _]; [exact B1|]. pose proof B1 as B1'.
  apply balanced_bin in B1' as (_ & _ & Bl1 & Br1). pose proof B2 as B2'. apply balanced_bin in B2' as (_ & _ & Bl2 & Br2).
  rewrite tjoin2_bin. destruct (_ <? _); apply tjoin_balanced; auto.
Qed.

(** [split_at]: the entries below [k], the entry of [k], the entries above. *)
Fixpoint split_at (t : tree) (k : key_t) : tree * option entry_t * tree :=
  match t with
  | leaf => (leaf, None, leaf)
  | bin l e r =>
    if comp (fst e) k then let '(a, o, b) := split_at r k in (tjoin l a e, o, b)
    else if comp k (fst e) then let '(a, o, b) := split_at l k in (a, o, tjoin b r e)
    else (l, Some e, r)
  end.

Lemma split_elems t k : let '(a, o, b) := split_at t k in
  elems t = elems a ++ (match o with Some e => [e] | None => [] end) ++ elems b.
Proof.
  induction t as [|l IHl e r IHr]; [reflexivity|]. cbn [split_at elems].
  destruct (comp (fst e) k); [|destruct (comp k (fst e)); [|reflexivity]].
  - destruct (split_at r k) as [[a o] b]. rewrite IHr, tjoin_elems. now rewrite <- app_assoc.
  - destruct (split_at l k) as [[a o] b]. rewrite IHl, tjoin_elems. now rewrite <- !app_assoc.
Qed.

Lemma split_all P t k : all P t -> let '(a, o, b) := split_at t k in
  all P a /\ all P b /\ match o with Some e => P (fst e) | None => True end.
Proof.
  intros H. pose proof (split_elems t k) as S. destruct (split_at t k) as [[a o] b].
  unfold all, all_keys in *. rewrite S, !Forall_app in H. destruct o as [e|]; rewrite ?Forall_cons in H; tauto.
Qed.

Lemma split_balanced t k : balanced t = true -> let '(a, o, b) := split_at t k in balanced a = true /\ balanced b = true.
Proof.
  induction t as [|l IHl e r IHr]; intros B; [cbn; auto|]. apply balanced_bin in B as (_ & _ & Bl & Br). cbn [split_at].
  destruct (comp (fst e) k); [|destruct (comp k (fst e)); [|auto]].
  - specialize (IHr Br). destruct (split_at r k) as [[a o] b]. destruct IHr. split; [apply tjoin_balanced|]; auto.
  - specialize (IHl Bl). destruct (split_at l k) as [[a o] b]. destruct IHl. split; [|apply tjoin_balanced]; auto.
Qed.

Lemma split_sorted t k : sorted t -> let '(a, o, b) := split_at t k in
  sorted a /\ sorted b /\ below k a /\ above k b /\ match o with Some e => fst e = k | None => True end.
Proof.
  induction t as [|l IHl e r IHr]; intros H; [cbn; repeat split; try constructor|].
  apply sorted_bin in H as (Hl & Hr & Bl & Ar). cbn [split_at]. destruct (key_cmp_spec (fst e) k) as [L|G|Eq].
  - specialize (IHr Hr). pose proof (split_all _ _ k Ar) as A. destruct (split_at r k) as [[a o] b].
    destruct IHr as (Sa & Sb & Ba & Ab & Ho), A as (Aa & _ & _).
    rewrite sorted_join, sorted_bin. repeat split; auto. apply all_join. repeat split; auto.
    revert Bl. apply all_weaken. intros k' H'. exact (comp_trans _ _ _ H' L).
  - specialize (IHl Hl). pose proof (split_all _ _ k Bl) as A. destruct (split_at l k) as [[a o] b].
    destruct IHl as (Sa & Sb & Ba & Ab & Ho), A as (_ & Ab' & _).
    rewrite sorted_join, sorted_bin. repeat split; auto. apply all_join. repeat split; auto.
    revert Ar. apply all_weaken. intros k' H'. exact (comp_trans _ _ _ G H').
  - subst k. repeat split; auto.
Qed.

Lemma split_get t k k' : sorted t -> let '(a, o, b) := split_at t k in
  get k' t = if comp k' k then get k' a else if comp k k' then get k' b else option_map snd o.
Proof.
  intros H. pose proof (split_sorted t k H) as S. pose proof (split_elems t k) as El.
  destruct (split_at t k) as [[a o] b]. destruct S as (Sa & Sb & Ba & Ab & Ho).
  unfold get at 1. rewrite El, !assoc_app. fold (get k' a) (get k' b).
  destruct (key_cmp_spec k' k) as [L|G|Eq].
  - rewrite (get_above k k' b) by (auto using comp_asym). destruct o as [e|]; cbn [assoc].
    + subst k. rewrite L. cbn. now destruct (get k' a).
    + now destruct (get k' a).
  - rewrite (get_below k k' a) by (auto using comp_asym). destruct o as [e|]; cbn [assoc]; [|reflexivity].
    subst k. rewrite G. now rewrite andb_false_r.
  - subst k'. rewrite (get_below k k a), (get_above k k b) by (auto using comp_irrefl).
    destruct o as [e|]; cbn [assoc]; [|reflexivity]. subst k. now rewrite comp_irrefl.
Qed.
(** *** Updates of one key *)

Lemma sorted_join_intro l e r : sorted l -> sorted r -> below (fst e) l -> above (fst e) r -> sorted (tjoin l r e).
Proof. intros. apply sorted_join, sorted_bin. auto. Qed.

Fixpoint tinsert (f : val_t -> val_t -> val_t) (e : entry_t) (t : tree) : tree :=
  match t with
  | leaf => bin leaf e leaf
  | bin l e0 r =>
    if comp (fst e0) (fst e) then tjoin l (tinsert f e r) e0
    else if comp (fst e) (fst e0) then tjoin (tinsert f e l) r e0
    else tjoin l r (fst e0, f (snd e0) (snd e))
  end.

Lemma tinsert_all P f e t : all P t -> P (fst e) -> all P (tinsert f e t).
Proof.
  intros H He. induction t as [|l IHl e0 r IHr]; [apply all_bin; repeat split; auto; constructor|].
  apply all_bin in H as (H1 & H2 & H3). cbn [tinsert].
  destruct (comp (fst e0) (fst e)); [|destruct (comp (fst e) (fst e0))]; apply all_join; cbn; auto.
Qed.

Lemma tinsert_balanced f e t : balanced t = true -> balanced (tinsert f e t) = true.
Proof.
  induction t as [|l IHl e0 r IHr]; intros B; [reflexivity|]. apply balanced_bin in B as (_ & _ & Bl & Br). cbn [tinsert].
  destruct (comp (fst e0) (fst e)); [|destruct (comp (fst e) (fst e0))]; apply tjoin_balanced; auto.
Qed.

Lemma tinsert_sorted f e t : sorted t -> sorted (tinsert f e t).
Proof.
  induction t as [|l IHl e0 r IHr]; intros H; [repeat constructor|].
  apply sorted_bin in H as (Sl & Sr & Bl & Ar). cbn [tinsert].
  destruct (key_cmp_spec (fst e0) (fst e)); apply sorted_join_intro; cbn; auto using tinsert_all.
Qed.

Lemma get_sorted_join k l e r : sorted l -> sorted r -> below (fst e) l -> above (fst e) r ->
  get k (tjoin l r e) = if comp k (fst e) then get k l else if comp (fst e) k then get k r else Some (snd e).
Proof. intros. rewrite get_join. apply get_bin, sorted_bin. auto. Qed.

Lemma tinsert_get f e t k : sorted t ->
  get k (tinsert f e t) =
  if comp k (fst e) then get k t else if comp (fst e) k then get k t
  else Some match get k t with Some v => f v (snd e) | None => snd e end.
Proof.
  induction t as [|l IHl e0 r IHr]; intros H.
  - unfold get. cbn. destruct (key_cmp_spec k (fst e)); reflexivity.
  - pose proof H as (Sl & Sr & Bl & Ar)%sorted_bin. rewrite (get_bin k l e0 r H). cbn [tinsert].
    specialize (IHl Sl). specialize (IHr Sr).
    destruct (key_cmp_spec (fst e0) (fst e)) as [L|G|Eq]; rewrite get_sorted_join by (cbn; auto using tinsert_sorted, tinsert_all); cbn [fst snd].
    + destruct (key_cmp_spec k (fst e0)) as [L'|G'|Eq']; [|exact IHr|subst k; now rewrite L].
      rewrite (comp_trans _ _ _ L' L). reflexivity.
    + destruct (key_cmp_spec k (fst e0)) as [L'|G'|Eq']; [exact IHl| |subst k].
      * rewrite (comp_asym _ _ (comp_trans _ _ _ G G')), (comp_trans _ _ _ G G'). reflexivity.
      * rewrite (comp_asym _ _ G), G. reflexivity.
    + rewrite <- Eq. destruct (key_cmp_spec k (fst e0)); reflexivity.
Qed.

(** [tupdate]: the value of a key that is there. *)
Fixpoint tupdate (f : entry_t -> val_t) (k : key_t) (t : tree) : tree :=
  match t with
  | leaf => leaf
  | bin l e0 r =>
    if comp (fst e0) k then tjoin l (tupdate f k r) e0
    else if comp k (fst e0) then tjoin (tupdate f k l) r e0
    else tjoin l r (fst e0, f e0)
  end.

Lemma tupdate_all P f k t : all P t -> all P (tupdate f k t).
Proof.
  intros H. induction t as [|l IHl e0 r IHr]; [exact H|]. apply all_bin in H as (H1 & H2 & H3). cbn [tupdate].
  destruct (comp (fst e0) k); [|destruct (comp k (fst e0))]; apply all_join; cbn; auto.
Qed.

Lemma tupdate_sorted f k t : sorted t -> sorted (tupdate f k t).
Proof.
  induction t as [|l IHl e0 r IHr]; intros H; [exact H|]. apply sorted_bin in H as (Sl & Sr & Bl & Ar). cbn [tupdate].
  destruct (key_cmp_spec (fst e0) k); apply sorted_join_intro; cbn; auto using tupdate_all.
Qed.

Lemma tupdate_get f k t k' : sorted t ->
  get k' (tupdate f k t) =
  if comp k' k then get k' t else if comp k k' then get k' t else option_map (fun v => f (k', v)) (get k' t).
Proof.
  induction t as [|l IHl e0 r IHr]; intros H; [cbn; destruct (key_cmp_spec k' k); reflexivity|].
  pose proof H as (Sl & Sr & Bl & Ar)%sorted_bin. rewrite (get_bin k' l e0 r H). cbn [tupdate].
  specialize (IHl Sl). specialize (IHr Sr).
  destruct (key_cmp_spec (fst e0) k) as [L|G|Eq]; rewrite get_sorted_join by (cbn; auto using tupdate_sorted, tupdate_all); cbn [fst snd].
  - destruct (key_cmp_spec k' (fst e0)) as [L'|G'|Eq']; [|exact IHr|subst k'; now rewrite L].
    rewrite (comp_trans _ _ _ L' L). reflexivity.
  - destruct (key_cmp_spec k' (fst e0)) as [L'|G'|Eq']; [exact IHl| |subst k'].
    + rewrite (comp_asym _ _ (comp_trans _ _ _ G G')), (comp_trans _ _ _ G G'). reflexivity.
    + rewrite (comp_asym _ _ G), G. reflexivity.
  - rewrite <- Eq. destruct (key_cmp_spec k' (fst e0)) as [ | | -> ]; try reflexivity. cbn. now destruct e0.
Qed.

Fixpoint tdelete (k : key_t) (t : tree) : tree :=
  match t with
  | leaf => leaf
  | bin l e0 r =>
    if comp (fst e0) k then tjoin l (tdelete k r) e0
    else if comp k (fst e0) then tjoin (tdelete k l) r e0
    else tjoin2 l r
  end.

Lemma all_join2 P l r : all P (tjoin2 l r) <-> all P l /\ all P r.
Proof. unfold all, all_keys. rewrite tjoin2_elems. apply Forall_app. Qed.

Lemma sorted_join2 l r k : sorted l -> sorted r -> below k l -> above k r -> sorted (tjoin2 l r).
Proof.
  intros Sl Sr Bl Ar. unfold sorted. rewrite tjoin2_elems, StronglySorted_app. repeat split; auto.
  intros x y Hx Hy. unfold all, all_keys in *. rewrite Forall_forall in Bl, Ar. exact (comp_trans _ _ _ (Bl x Hx) (Ar y Hy)).
Qed.

Lemma get_join2 k k' l r : below k l -> above k r ->
  get k' (tjoin2 l r) = if comp k' k then get k' l else if comp k k' then get k' r else None.
Proof.
  intros Bl Ar. unfold get. rewrite tjoin2_elems, assoc_app. fold (get k' l) (get k' r).
  destruct (key_cmp_spec k' k) as [L|G| -> ].
  - rewrite (get_above k k' r) by (auto using comp_asym). now destruct (get k' l).
  - rewrite (get_below k k' l) by (auto using comp_asym). reflexivity.
  - rewrite (get_below k k l), (get_above k k r) by (auto using comp_irrefl). reflexivity.
Qed.

Lemma tdelete_all P k t : all P t -> all P (tdelete k t).
Proof.
  intros H. induction t as [|l IHl e0 r IHr]; [exact H|]. apply all_bin in H as (H1 & H2 & H3). cbn [tdelete].
  destruct (comp (fst e0) k); [|destruct (comp k (fst e0))]; rewrite ?all_join, ?all_join2; auto.
Qed.

Lemma tdelete_balanced k t : balanced t = true -> balanced (tdelete k t) = true.
Proof.
  induction t as [|l IHl e0 r IHr]; intros B; [reflexivity|]. apply balanced_bin in B as (_ & _ & Bl & Br). cbn [tdelete].
  destruct (comp (fst e0) k); [|destruct (comp k (fst e0))]; try apply tjoin_balanced; auto using tjoin2_balanced.
Qed.

Lemma tdelete_sorted k t : sorted t -> sorted (tdelete k t).
Proof.
  induction t as [|l IHl e0 r IHr]; intros H; [exact H|]. apply sorted_bin in H as (Sl & Sr & Bl & Ar). cbn [tdelete].
  destruct (key_cmp_spec (fst e0) k); try apply sorted_join_intro; auto using tdelete_all.
  apply (sorted_join2 _ _ (fst e0)); auto.
Qed.

Lemma tdelete_get k t k' : sorted t ->
  get k' (tdelete k t) = if comp k' k then get k' t else if comp k k' then get k' t else None.
Proof.
  induction t as [|l IHl e0 r IHr]; intros H; [cbn; destruct (key_cmp_spec k' k); reflexivity|].
  pose proof H as (Sl & Sr & Bl & Ar)%sorted_bin. rewrite (get_bin k' l e0 r H). cbn [tdelete].
  specialize (IHl Sl). specialize (IHr Sr).
  destruct (key_cmp_spec (fst e0) k) as [L|G|Eq].
  - rewrite get_sorted_join by (auto using tdelete_sorted, tdelete_all).
    destruct (key_cmp_spec k' (fst e0)) as [L'|G'|Eq']; [|exact IHr|subst k'; now rewrite L].
    rewrite (comp_trans _ _ _ L' L). reflexivity.
  - rewrite get_sorted_join by (auto using tdelete_sorted, tdelete_all).
    destruct (key_cmp_spec k' (fst e0)) as [L'|G'|Eq']; [exact IHl| |subst k'].
    + rewrite (comp_asym _ _ (comp_trans _ _ _ G G')), (comp_trans _ _ _ G G'). reflexivity.
    + rewrite (comp_asym _ _ G), G. reflexivity.
  - rewrite (get_join2 (fst e0)) by auto. rewrite <- Eq. destruct (key_cmp_spec k' (fst e0)); reflexivity.
Qed.
(** *** Sizes *)

Lemma tinsert_size f e t : tsize t <= tsize (tinsert f e t) <= tsize t + 1.
Proof.
  induction t as [|l IHl e0 r IHr]; [cbn; lia|]. cbn.
  destruct (comp (fst e0) (fst e)); [|destruct (comp (fst e) (fst e0))]; rewrite tjoin_size; lia.
Qed.

Lemma tupdate_size f k t : tsize (tupdate f k t) = tsize t.
Proof.
  induction t as [|l IHl e0 r IHr]; [reflexivity|]. cbn.
  destruct (comp (fst e0) k); [|destruct (comp k (fst e0))]; rewrite tjoin_size; lia.
Qed.

Lemma tdelete_size k t : tsize t - 1 <= tsize (tdelete k t) <= tsize t.
Proof.
  induction t as [|l IHl e0 r IHr]; [cbn; lia|]. cbn.
  destruct (comp (fst e0) k); [|destruct (comp k (fst e0))]; rewrite ?tjoin_size, ?tjoin2_size; lia.
Qed.

Lemma split_size t k : let '(a, o, b) := split_at t k in
  tsize t = tsize a + tsize b + match o with Some _ => 1 | None => 0 end.
Proof.
  pose proof (split_elems t k) as H. destruct (split_at t k) as [[a o] b].
  rewrite !tsize_elems, H, !length_app. destruct o; cbn; lia.
Qed.
End Maps.
Notation below k := (all (fun k' => comp k' k = true)).
Notation above k := (all (fun k' => comp k k' = true)).
