(* ===== verification/PamSets.v ===== *)
(** * Bulk operations on ordered maps

    Union, intersection, tdifference, filters, ranges and multi-insertion of Aspen's ordered
    maps on trees as values. *)

From S2P Require Import Prelude PamTree PamOps.
From stdpp Require Import base option list sorting.
#[local] Open Scope Z_scope.

Section Sets.
Context {E : Entry} {EO : EntryOk E}.

(** ** Two maps *)

(** The value of the first map's entry, if any, is combined into [e]. *)
Definition merge_entry (op : val_t -> val_t -> val_t) (o : option entry_t) (e : entry_t) : entry_t :=
  match o with Some e1 => (fst e, op (snd e1) (snd e)) | None => e end.

Fixpoint tunion (op : val_t -> val_t -> val_t) (b1 b2 : tree) : tree :=
  match b1, b2 with
  | leaf, _ => b2
  | _, leaf => b1
  | _, bin l e r =>
    let '(a, o, b) := split_at b1 (fst e) in
    tjoin (tunion op a l) (tunion op b r) (merge_entry op o e)
  end.

Fixpoint tintersect (op : val_t -> val_t -> val_t) (b1 b2 : tree) : tree :=
  match b1, b2 with
  | leaf, _ => leaf
  | _, leaf => leaf
  | _, bin l e r =>
    let '(a, o, b) := split_at b1 (fst e) in
    let t1 := tintersect op a l in
    let t2 := tintersect op b r in
    match o with
    | Some e1 => tjoin t1 t2 (fst e, op (snd e1) (snd e))
    | None => tjoin2 t1 t2
    end
  end.

Fixpoint tdifference (b1 b2 : tree) : tree :=
  match b1, b2 with
  | leaf, _ => leaf
  | _, leaf => b1
  | bin l e r, _ =>
    let '(a, o, b) := split_at b2 (fst e) in
    let t1 := tdifference l a in
    let t2 := tdifference r b in
    match o with Some _ => tjoin2 t1 t2 | None => tjoin t1 t2 e end
  end.

Lemma merge_entry_key op o e : fst (merge_entry op o e) = fst e.
Proof. now destruct o. Qed.

(** The recursive calls of the three operations, on the parts around a key. *)
Lemma tunion_bin op b1 l e r : b1 <> leaf ->
  tunion op b1 (bin l e r) =
  let '(a, o, b) := split_at b1 (fst e) in
  tjoin (tunion op a l) (tunion op b r) (merge_entry op o e).
Proof. intros H. destruct b1; [congruence|]. reflexivity. Qed.

Lemma tunion_leaf op b1 : tunion op b1 leaf = b1.
Proof. now destruct b1. Qed.

Lemma tunion_all P op b2 : forall b1, all P b1 -> all P b2 -> all P (tunion op b1 b2).
Proof.
  induction b2 as [|l IHl e r IHr]; intros b1 H1 H2; [now rewrite tunion_leaf|].
  destruct b1 as [|l1 e1 r1]; [exact H2|]. rewrite tunion_bin by discriminate.
  pose proof (split_all P _ (fst e) H1) as S. destruct (split_at _ _) as [[a o] b].
  apply all_bin in H2 as (? & ? & ?). rewrite all_join, merge_entry_key. destruct S as (? & ? & _). auto.
Qed.

Lemma tunion_balanced op b2 : forall b1, balanced b1 = true -> balanced b2 = true -> balanced (tunion op b1 b2) = true.
Proof.
  induction b2 as [|l IHl e r IHr]; intros b1 H1 H2; [now rewrite tunion_leaf|].
  destruct b1 as [|l1 e1 r1]; [exact H2|]. rewrite tunion_bin by discriminate.
  pose proof (split_balanced _ (fst e) H1) as S. destruct (split_at _ _) as [[a o] b].
  apply balanced_bin in H2 as (_ & _ & ? & ?). destruct S. apply tjoin_balanced; auto.
Qed.

Lemma tunion_sorted op b2 : forall b1, sorted b1 -> sorted b2 -> sorted (tunion op b1 b2).
Proof.
  induction b2 as [|l IHl e r IHr]; intros b1 H1 H2; [now rewrite tunion_leaf|].
  destruct b1 as [|l1 e1 r1]; [exact H2|]. rewrite tunion_bin by discriminate.
  pose proof (split_sorted _ (fst e) H1) as S. destruct (split_at _ _) as [[a o] b].
  apply sorted_bin in H2 as (Sl & Sr & Bl & Ar). destruct S as (Sa & Sb & Ba & Ab & _).
  apply sorted_join_intro; rewrite ?merge_entry_key; auto using tunion_all.
Qed.

(** Values under both keys are combined, the first map's first. *)
Lemma tunion_get op b2 : forall b1 k, sorted b1 -> sorted b2 ->
  get k (tunion op b1 b2) = union_with (fun x y => Some (op x y)) (get k b1) (get k b2).
Proof.
  induction b2 as [|l IHl e r IHr]; intros b1 k H1 H2.
  { rewrite tunion_leaf. cbn. now destruct (get k b1). }
  destruct b1 as [|l1 e1 r1]; [cbn [tunion]; change (get k leaf) with (@None val_t); now destruct (get k (bin l e r))|]. rewrite tunion_bin by discriminate.
  set (t1 := bin l1 e1 r1) in *. rewrite (get_bin k l e r H2).
  pose proof (split_sorted _ (fst e) H1) as S. pose proof (split_get _ (fst e) k H1) as G. destruct (split_at _ _) as [[a o] b].
  apply sorted_bin in H2 as (Sl & Sr & Bl & Ar). destruct S as (Sa & Sb & Ba & Ab & _).
  rewrite get_sorted_join by (rewrite ?merge_entry_key; auto using tunion_sorted, tunion_all).
  rewrite merge_entry_key, G. destruct (key_cmp_spec k (fst e)); [now apply IHl|now apply IHr|].
  destruct o; reflexivity.
Qed.

Lemma tintersect_all P op b2 : forall b1, all P b2 -> all P (tintersect op b1 b2).
Proof.
  induction b2 as [|l IHl e r IHr]; intros [|l1 e1 r1] H2; try constructor.
  apply all_bin in H2 as (? & ? & ?). cbn [tintersect]. destruct (split_at _ _) as [[a [e'|]] b]; rewrite ?all_join, ?all_join2; cbn; auto.
Qed.

Lemma tintersect_balanced op b2 : forall b1, balanced (tintersect op b1 b2) = true.
Proof.
  induction b2 as [|l IHl e r IHr]; intros [|l1 e1 r1]; try reflexivity.
  cbn [tintersect]. destruct (split_at _ _) as [[a [e'|]] b]; [apply tjoin_balanced|apply tjoin2_balanced]; auto.
Qed.

Lemma tintersect_sorted op b2 : forall b1, sorted b2 -> sorted (tintersect op b1 b2).
Proof.
  induction b2 as [|l IHl e r IHr]; intros [|l1 e1 r1] H2; try constructor.
  apply sorted_bin in H2 as (Sl & Sr & Bl & Ar). cbn [tintersect]. destruct (split_at _ _) as [[a [e'|]] b].
  - apply sorted_join_intro; cbn; auto using tintersect_all.
  - apply (sorted_join2 _ _ (fst e)); auto using tintersect_all.
Qed.

Lemma tintersect_get op b2 : forall b1 k, sorted b1 -> sorted b2 ->
  get k (tintersect op b1 b2) = intersection_with (fun x y => Some (op x y)) (get k b1) (get k b2).
Proof.
  induction b2 as [|l IHl e r IHr]; intros b1 k H1 H2.
  { change (get k leaf) with (@None val_t). destruct b1 as [|l1 e1 r1]; [reflexivity|]. now destruct (get k (bin l1 e1 r1)). }
  destruct b1 as [|l1 e1 r1]; [reflexivity|]. cbn [tintersect].
  set (t1 := bin l1 e1 r1) in *. rewrite (get_bin k l e r H2).
  pose proof (split_sorted _ (fst e) H1) as S. pose proof (split_get _ (fst e) k H1) as G. destruct (split_at _ _) as [[a o] b].
  apply sorted_bin in H2 as (Sl & Sr & Bl & Ar). destruct S as (Sa & Sb & Ba & Ab & _). rewrite G.
  destruct o as [e'|].
  - rewrite get_sorted_join by (cbn; auto using tintersect_sorted, tintersect_all). cbn [fst snd].
    destruct (key_cmp_spec k (fst e)); [now apply IHl|now apply IHr|reflexivity].
  - rewrite (get_join2 (fst e)) by auto using tintersect_all.
    destruct (key_cmp_spec k (fst e)); [now apply IHl|now apply IHr|reflexivity].
Qed.

Lemma tdifference_leaf b1 : tdifference b1 leaf = b1.
Proof. now destruct b1. Qed.

Lemma tdifference_bin l e r b2 : b2 <> leaf ->
  tdifference (bin l e r) b2 =
  let '(a, o, b) := split_at b2 (fst e) in
  match o with Some _ => tjoin2 (tdifference l a) (tdifference r b) | None => tjoin (tdifference l a) (tdifference r b) e end.
Proof. intros H. destruct b2; [congruence|]. reflexivity. Qed.

Lemma tdifference_all P b1 : forall b2, all P b1 -> all P (tdifference b1 b2).
Proof.
  induction b1 as [|l IHl e r IHr]; intros b2 H1; [exact H1|].
  destruct b2 as [|l2 e2 r2]; [exact H1|]. rewrite tdifference_bin by discriminate.
  apply all_bin in H1 as (? & ? & ?). destruct (split_at _ _) as [[a [e'|]] b]; rewrite ?all_join, ?all_join2; auto.
Qed.

Lemma tdifference_balanced b1 : forall b2, balanced b1 = true -> balanced (tdifference b1 b2) = true.
Proof.
  induction b1 as [|l IHl e r IHr]; intros b2 H1; [exact H1|].
  destruct b2 as [|l2 e2 r2]; [exact H1|]. rewrite tdifference_bin by discriminate.
  apply balanced_bin in H1 as (_ & _ & ? & ?). destruct (split_at _ _) as [[a [e'|]] b]; [apply tjoin2_balanced|apply tjoin_balanced]; auto.
Qed.

Lemma tdifference_sorted b1 : forall b2, sorted b1 -> sorted (tdifference b1 b2).
Proof.
  induction b1 as [|l IHl e r IHr]; intros b2 H1; [exact H1|].
  destruct b2 as [|l2 e2 r2]; [exact H1|]. rewrite tdifference_bin by discriminate.
  apply sorted_bin in H1 as (Sl & Sr & Bl & Ar). destruct (split_at _ _) as [[a [e'|]] b].
  - apply (sorted_join2 _ _ (fst e)); auto using tdifference_all.
  - apply sorted_join_intro; auto using tdifference_all.
Qed.

Lemma tdifference_get b1 : forall b2 k, sorted b1 -> sorted b2 ->
  get k (tdifference b1 b2) = match get k b2 with Some _ => None | None => get k b1 end.
Proof.
  induction b1 as [|l IHl e r IHr]; intros b2 k H1 H2.
  { cbn. now destruct (get k b2). }
  destruct b2 as [|l2 e2 r2]; [reflexivity|]. rewrite tdifference_bin by discriminate.
  set (t2 := bin l2 e2 r2) in *. rewrite (get_bin k l e r H1).
  pose proof (split_sorted _ (fst e) H2) as S. pose proof (split_get _ (fst e) k H2) as G. destruct (split_at _ _) as [[a o] b].
  apply sorted_bin in H1 as (Sl & Sr & Bl & Ar). destruct S as (Sa & Sb & Ba & Ab & _). rewrite G.
  destruct o as [e'|].
  - rewrite (get_join2 (fst e)) by auto using tdifference_all.
    destruct (key_cmp_spec k (fst e)); [now apply IHl|now apply IHr|reflexivity].
  - rewrite get_sorted_join by auto using tdifference_sorted, tdifference_all.
    destruct (key_cmp_spec k (fst e)); [now apply IHl|now apply IHr|reflexivity].
Qed.

(** *** Sizes *)

Lemma tunion_size op b2 : forall b1, tsize (tunion op b1 b2) <= tsize b1 + tsize b2.
Proof.
  induction b2 as [|l IHl e r IHr]; intros b1; [rewrite tunion_leaf; cbn; lia|].
  pose proof (tsize_nonneg b1). destruct b1 as [|l1 e1 r1]; [cbn in *; lia|]. rewrite tunion_bin by discriminate.
  pose proof (split_size (bin l1 e1 r1) (fst e)) as Z. destruct (split_at _ _) as [[a o] b]. rewrite tjoin_size.
  specialize (IHl a). specialize (IHr b). cbn [tsize] in *. destruct o; lia.
Qed.

Lemma tintersect_size op b2 : forall b1, tsize (tintersect op b1 b2) <= tsize b2.
Proof.
  induction b2 as [|l IHl e r IHr]; intros b1; [now destruct b1|].
  pose proof (tsize_nonneg l). pose proof (tsize_nonneg r). destruct b1 as [|l1 e1 r1]; [cbn; lia|]. cbn [tintersect].
  destruct (split_at _ _) as [[a o] b]. specialize (IHl a). specialize (IHr b). cbn [tsize].
  destruct o; rewrite ?tjoin_size, ?tjoin2_size; lia.
Qed.

Lemma tdifference_size b1 : forall b2, tsize (tdifference b1 b2) <= tsize b1.
Proof.
  induction b1 as [|l IHl e r IHr]; intros b2; [cbn; lia|].
  destruct b2 as [|l2 e2 r2]; [cbn; lia|]. rewrite tdifference_bin by discriminate.
  destruct (split_at _ _) as [[a o] b]. specialize (IHl a). specialize (IHr b). cbn [tsize].
  destruct o; rewrite ?tjoin_size, ?tjoin2_size; lia.
Qed.

(** ** Filters and maps *)

Fixpoint tfilter (f : entry_t -> bool) (t : tree) : tree :=
  match t with
  | leaf => leaf
  | bin l e r => if f e then tjoin (tfilter f l) (tfilter f r) e else tjoin2 (tfilter f l) (tfilter f r)
  end.

Fixpoint tmap (f : entry_t -> entry_t) (t : tree) : tree :=
  match t with leaf => leaf | bin l e r => tjoin (tmap f l) (tmap f r) (f e) end.

Fixpoint tmap_filter (f : entry_t -> option entry_t) (t : tree) : tree :=
  match t with
  | leaf => leaf
  | bin l e r =>
    match f e with
    | Some me => tjoin (tmap_filter f l) (tmap_filter f r) me
    | None => tjoin2 (tmap_filter f l) (tmap_filter f r)
    end
  end.

Lemma tfilter_elems f t : elems (tfilter f t) = List.filter f (elems t).
Proof.
  induction t as [|l IHl e r IHr]; [reflexivity|]. cbn. rewrite List.filter_app. cbn.
  destruct (f e); rewrite ?tjoin_elems, ?tjoin2_elems, IHl, IHr; reflexivity.
Qed.

Lemma tfilter_balanced f t : balanced (tfilter f t) = true.
Proof. induction t as [|l IHl e r IHr]; [reflexivity|]. cbn. destruct (f e); auto using tjoin_balanced, tjoin2_balanced. Qed.

Lemma tmap_elems f t : elems (tmap f t) = List.map f (elems t).
Proof. induction t as [|l IHl e r IHr]; [reflexivity|]. cbn. now rewrite tjoin_elems, IHl, IHr, List.map_app. Qed.

Lemma tmap_balanced f t : balanced (tmap f t) = true.
Proof. induction t; [reflexivity|]. cbn. auto using tjoin_balanced. Qed.

Lemma tmap_filter_elems f t : elems (tmap_filter f t) = omap f (elems t).
Proof.
  induction t as [|l IHl e r IHr]; [reflexivity|]. cbn. rewrite omap_app. cbn.
  destruct (f e); rewrite ?tjoin_elems, ?tjoin2_elems, IHl, IHr; reflexivity.
Qed.

Lemma tmap_filter_balanced f t : balanced (tmap_filter f t) = true.
Proof. induction t as [|l IHl e r IHr]; [reflexivity|]. cbn. destruct (f e); auto using tjoin_balanced, tjoin2_balanced. Qed.

Lemma tsize_tfilter f t : tsize (tfilter f t) <= tsize t.
Proof. rewrite !tsize_elems, tfilter_elems. pose proof (List.filter_length_le f (elems t)). lia. Qed.

Lemma tsize_tmap f t : tsize (tmap f t) = tsize t.
Proof. now rewrite !tsize_elems, tmap_elems, length_map. Qed.

Lemma tsize_tmap_filter f t : tsize (tmap_filter f t) <= tsize t.
Proof.
  rewrite !tsize_elems, tmap_filter_elems. induction (elems t) as [|e l IH]; [reflexivity|].
  cbn. destruct (f e); cbn [length]; lia.
Qed.

(** ** Building a tree from a sorted array *)

Fixpoint tbuild (fuel : nat) (a : list entry_t) : tree :=
  match fuel, a with
  | O, _ | _, [] => leaf
  | _, [e] => bin leaf e leaf
  | S fuel, _ =>
    let mid := Nat.div2 (length a) in
    match drop mid a with
    | e :: b => tjoin (tbuild fuel (take mid a)) (tbuild fuel b) e
    | [] => leaf
    end
  end.

Lemma tbuild_step fuel e1 e2 l : let a := e1 :: e2 :: l in
  exists l1 e l2, a = l1 ++ e :: l2 /\ length l1 = Nat.div2 (length a) /\ (length l1 < length a)%nat /\ (length l2 < length a)%nat /\
    tbuild (S fuel) a = tjoin (tbuild fuel l1) (tbuild fuel l2) e.
Proof.
  intros a. set (mid := Nat.div2 (length a)).
  assert (Hm : (mid < length a)%nat) by (apply Nat.lt_div2; cbn; lia).
  destruct (drop mid a) as [|e b] eqn:D.
  - apply (f_equal length) in D. rewrite length_drop in D. change (length []) with 0%nat in D. lia.
  - exists (take mid a), e, b. rewrite <- D, take_drop, length_take. apply (f_equal length) in D as D'. rewrite length_drop in D'. cbn [length] in D'.
    repeat split; try lia. subst a. cbn [tbuild]. fold mid. now rewrite D.
Qed.

Lemma tbuild_elems fuel : forall a, (length a <= fuel)%nat -> elems (tbuild fuel a) = a.
Proof.
  induction fuel as [|fuel IH]; intros [|e1 [|e2 l]] H; try reflexivity; [cbn in H; lia..|].
  destruct (tbuild_step fuel e1 e2 l) as (l1 & e & l2 & E1 & _ & L1 & L2 & ->).
  rewrite tjoin_elems, !IH; [now rewrite E1|lia..].
Qed.

Lemma tbuild_balanced fuel : forall a, balanced (tbuild fuel a) = true.
Proof.
  induction fuel as [|fuel IH]; intros [|e1 [|e2 l]]; try reflexivity.
  destruct (tbuild_step fuel e1 e2 l) as (l1 & e & l2 & _ & _ & _ & _ & ->). auto using tjoin_balanced.
Qed.

Lemma tbuild_fuel f1 : forall f2 a, (length a <= f1)%nat -> (length a <= f2)%nat -> tbuild f1 a = tbuild f2 a.
Proof.
  induction f1 as [|f1 IH]; intros [|f2] [|e1 [|e2 l]] H1 H2; try reflexivity; try (cbn in H1, H2; lia).
  destruct (tbuild_step f1 e1 e2 l) as (l1 & e & l2 & E1 & M1 & L1 & L2 & ->).
  destruct (tbuild_step f2 e1 e2 l) as (k1 & e' & k2 & E2 & M2 & K1 & K2 & ->).
  rewrite E1 in E2. apply app_inj_1 in E2 as [-> [= -> ->]]; [|congruence].
  now rewrite (IH f2 k1), (IH f2 k2) by lia.
Qed.
End Sets.
