(* ===== verification/PamMulti.v ===== *)
(** * Sorted arrays and ranges

    The search of PBBS in a sorted array, and the bulk operations of Aspen's ordered maps
    on trees as values: the entries of a sorted array inserted at once, and the part of a
    map in a range of keys. *)

From S2P Require Import Prelude PamTree PamOps PamSets.
From stdpp Require Import base option list sorting.
Import PamTree PamOps PamSets.
#[local] Open Scope nat_scope.

(** ** Binary search ([pbbslib/binary_search.h]) *)

Section Search.
Context {T : Type}.

Fixpoint linear_search (a : list T) (less : T -> bool) : nat :=
  match a with
  | [] => 0
  | x :: a => if less x then S (linear_search a less) else 0
  end.

Definition _binary_search_base : nat := 16.

Fixpoint binary_search_loop (fuel : nat) (a : list T) (less : T -> bool) (start end_ : nat) : option (nat * nat) :=
  match fuel with
  | O => None
  | S fuel =>
    if _binary_search_base <? end_ - start then
      let mid := (end_ + start) / 2 in
      x ← a !! mid;
      if negb (less x) then binary_search_loop fuel a less start mid
      else binary_search_loop fuel a less (mid + 1) end_
    else Some (start, end_)
  end.

Definition binary_search (a : list T) (less : T -> bool) : option nat :=
  '(start, end_) ← binary_search_loop (S (length a)) a less 0 (length a);
  Some (start + linear_search (take (end_ - start) (drop start a)) less).

(** [less] holds of a prefix. *)
Definition prefix_of_array (a : list T) (less : T -> bool) : Prop :=
  forall i j x y, i <= j -> a !! i = Some x -> a !! j = Some y -> less y = true -> less x = true.

Lemma linear_search_le a less : linear_search a less <= length a.
Proof. induction a as [|x a IH]; cbn; [lia|]. destruct (less x); lia. Qed.

Lemma prefix_tail x a less : prefix_of_array (x :: a) less -> prefix_of_array a less.
Proof. intros H i j y z L Hi Hj. apply (H (S i) (S j)); auto. lia. Qed.

(** The prefix ends at the index found. *)
Lemma linear_search_spec a less i x : prefix_of_array a less -> a !! i = Some x -> less x = (i <? linear_search a less).
Proof.
  revert i. induction a as [|y a IH]; intros i H Hx; [discriminate|]. cbn. destruct i as [|i].
  - injection Hx as ->. now destruct (less x).
  - cbn in Hx. destruct (less y) eqn:Y; [exact (IH i (prefix_tail _ _ _ H) Hx)|].
    destruct (less x) eqn:Ex; [|reflexivity].
    rewrite (H 0 (S i) y x) in Y by (auto; lia). discriminate.
Qed.

Lemma linear_search_prefix a less : Forall (fun x => less x = true) (take (linear_search a less) a).
Proof. induction a as [|x a IH]; cbn; [constructor|]. destruct (less x) eqn:E; cbn; auto. Qed.

Lemma linear_search_slice a less s e : prefix_of_array a less -> s <= linear_search a less <= e -> e <= length a ->
  s + linear_search (take (e - s) (drop s a)) less = linear_search a less.
Proof.
  intros H [H1 H2] H3. set (J := take (e - s) (drop s a)). assert (LJ : length J = e - s) by (unfold J; rewrite length_take, length_drop; lia).
  assert (HJ : forall i x, J !! i = Some x -> less x = (s + i <? linear_search a less)).
  { intros i x Hx. unfold J in Hx. apply lookup_take_Some in Hx as [Hx _]. rewrite lookup_drop in Hx. now apply linear_search_spec. }
  assert (PJ : prefix_of_array J less).
  { intros i j x y L Hx Hy Hl. rewrite (HJ _ _ Hx). rewrite (HJ _ _ Hy) in Hl. apply Nat.ltb_lt in Hl. apply Nat.ltb_lt. lia. }
  pose proof (linear_search_le J less) as LL.
  destruct (Nat.lt_trichotomy (s + linear_search J less) (linear_search a less)) as [L|[L|L]]; [|exact L|]; exfalso.
  - destruct (lookup_lt_is_Some_2 J (linear_search J less)) as [x Hx]; [lia|].
    pose proof (linear_search_spec J less _ _ PJ Hx) as A. rewrite (HJ _ _ Hx), Nat.ltb_irrefl in A. apply Nat.ltb_ge in A. lia.
  - destruct (lookup_lt_is_Some_2 J (linear_search a less - s)) as [x Hx]; [lia|].
    pose proof (linear_search_spec J less _ _ PJ Hx) as A. rewrite (HJ _ _ Hx) in A.
    assert (B : (linear_search a less - s <? linear_search J less) = true) by (apply Nat.ltb_lt; lia).
    rewrite B in A. apply Nat.ltb_lt in A. lia.
Qed.

Lemma binary_search_loop_spec less a : prefix_of_array a less -> forall fuel s e,
  e - s < fuel -> s <= linear_search a less <= e -> e <= length a ->
  exists s' e', binary_search_loop fuel a less s e = Some (s', e') /\ s' <= linear_search a less <= e' /\ e' <= length a.
Proof.
  intros H. induction fuel as [|fuel IH]; intros s e Hf Hl He; [lia|]. cbn [binary_search_loop].
  destruct (Nat.ltb_spec _binary_search_base (e - s)) as [L|L]; [|eauto].
  unfold _binary_search_base in L. set (mid := (e + s) / 2).
  assert (Hm : s <= mid < e) by (unfold mid; pose proof (Nat.div_mod (e + s) 2); pose proof (Nat.mod_upper_bound (e + s) 2); lia).
  destruct (lookup_lt_is_Some_2 a mid) as [x Hx]; [lia|]. rewrite Hx. cbn [mbind option_bind].
  rewrite (linear_search_spec a less mid x H Hx). destruct (Nat.ltb_spec mid (linear_search a less)); cbn [negb]; apply IH; lia.
Qed.

(** Binary search is linear search. *)
Lemma binary_search_linear less a : prefix_of_array a less -> binary_search a less = Some (linear_search a less).
Proof.
  intros H. unfold binary_search.
  destruct (binary_search_loop_spec less a H (S (length a)) 0 (length a)) as (s & e & -> & Hl & He);
    [lia|pose proof (linear_search_le a less); lia|lia|].
  cbn [mbind option_bind]. now rewrite linear_search_slice.
Qed.
End Search.

(** ** A sorted array into a map *)

Section Multi.
Context {E : Entry} {EO : EntryOk E} {X : Type}.
(** The keys of the array's elements, what an empty map becomes, and the value under a
    key that is in both. *)
Context (keyof : X -> key_t) (base : list X -> tree) (op : entry_t -> X -> val_t).

Definition lower (k : key_t) (a : list X) : nat := linear_search a (fun x => comp (keyof x) k).

Definition at_key (k : key_t) (a : list X) : option X :=
  match a !! lower k a with
  | Some x => if negb (comp k (keyof x)) then Some x else None
  | None => None
  end.

Definition dup_of (o : option X) : nat := match o with Some _ => 1 | None => 0 end.
Definition set_at (o : option X) (e : entry_t) : entry_t := match o with Some x => (fst e, op e x) | None => e end.

Fixpoint tmulti (b : tree) (a : list X) : tree :=
  match b with
  | leaf => base a
  | bin l e r =>
    match a with
    | [] => b
    | _ =>
      let mid := lower (fst e) a in
      let o := at_key (fst e) a in
      tjoin (tmulti l (take mid a)) (tmulti r (drop (mid + dup_of o) a)) (set_at o e)
    end
  end.

Definition increasing (a : list X) : Prop := StronglySorted (fun x y => comp (keyof x) (keyof y) = true) a.

Lemma increasing_lookup a i j x y : increasing a -> i < j -> a !! i = Some x -> a !! j = Some y -> comp (keyof x) (keyof y) = true.
Proof.
  intros H. revert i j. induction H as [|z a H IH F]; intros i j L Hx Hy; [discriminate|].
  destruct j as [|j]; [lia|]. destruct i as [|i].
  - injection Hx as ->. rewrite Forall_forall in F. apply F. apply list_elem_of_lookup. eauto.
  - apply (IH i j); auto. lia.
Qed.

Lemma increasing_prefix a k : increasing a -> prefix_of_array a (fun x => comp (keyof x) k).
Proof.
  intros H i j x y L Hx Hy Hk. destruct (decide (i = j)) as [->|N]; [congruence|].
  apply (comp_trans _ (keyof y)); [|exact Hk]. apply (increasing_lookup a i j); auto. lia.
Qed.

Lemma increasing_take a n : increasing a -> increasing (take n a).
Proof. intros H. revert n. induction H as [|x a H IH F]; intros [|n]; cbn [take]; [constructor..|]. constructor; [apply IH|now apply Forall_take]. Qed.

Lemma increasing_drop a n : increasing a -> increasing (drop n a).
Proof. intros H. revert n. induction H as [|x a H IH F]; intros [|n]; cbn; auto; constructor; auto. Qed.

(** The array around a key. *)
Lemma lower_split a k : increasing a ->
  a = take (lower k a) a ++ match at_key k a with Some x => [x] | None => [] end ++ drop (lower k a + dup_of (at_key k a)) a /\
  Forall (fun x => comp (keyof x) k = true) (take (lower k a) a) /\
  match at_key k a with Some x => keyof x = k | None => True end /\
  Forall (fun x => comp k (keyof x) = true) (drop (lower k a + dup_of (at_key k a)) a).
Proof.
  intros H. pose proof (increasing_prefix a k H) as HP.
  assert (Hge : forall i x, a !! i = Some x -> lower k a <= i -> comp (keyof x) k = false).
  { intros i x Hx L. rewrite (linear_search_spec a _ i x HP Hx). now apply Nat.ltb_ge. }
  unfold at_key. destruct (a !! lower k a) as [x|] eqn:Ex; [destruct (negb (comp k (keyof x))) eqn:C|].
  - apply negb_true_iff in C. repeat split.
    + cbn [dup_of app]. rewrite Nat.add_1_r. symmetry. now apply take_drop_middle.
    + apply linear_search_prefix.
    + symmetry. apply comp_total; [exact C|now apply (Hge _ _ Ex)].
    + assert (K : k = keyof x) by (apply comp_total; [exact C|now apply (Hge _ _ Ex)]).
      apply Forall_lookup. intros i y Hy. rewrite lookup_drop in Hy. subst k.
      apply (increasing_lookup a (lower (keyof x) a) (lower (keyof x) a + 1 + i)); auto. lia.
  - apply negb_false_iff in C. cbn [dup_of app]. rewrite Nat.add_0_r. repeat split.
    + now rewrite take_drop.
    + apply linear_search_prefix.
    + apply Forall_lookup. intros i y Hy. rewrite lookup_drop in Hy. destruct i as [|i].
      * rewrite Nat.add_0_r in Hy. congruence.
      * apply (comp_trans _ (keyof x)); [exact C|]. apply (increasing_lookup a (lower k a) (lower k a + S i)); auto. lia.
  - cbn [dup_of app]. rewrite Nat.add_0_r. apply lookup_ge_None in Ex. rewrite (drop_ge a) by exact Ex. repeat split.
    + rewrite app_nil_r. symmetry. now apply take_ge.
    + apply linear_search_prefix.
    + constructor.
Qed.

Lemma tmulti_bin l e r a : a <> [] ->
  tmulti (bin l e r) a = tjoin (tmulti l (take (lower (fst e) a) a)) (tmulti r (drop (lower (fst e) a + dup_of (at_key (fst e) a)) a)) (set_at (at_key (fst e) a) e).
Proof. destruct a; [congruence|reflexivity]. Qed.

Lemma tmulti_nil b : base [] = leaf -> tmulti b [] = b.
Proof. destruct b; auto. Qed.

Lemma set_at_key o e : fst (set_at o e) = fst e.
Proof. now destruct o. Qed.

(** *** What it does to the map *)

Fixpoint find_key (k : key_t) (a : list X) : option X :=
  match a with
  | [] => None
  | x :: a => if negb (comp k (keyof x)) && negb (comp (keyof x) k) then Some x else find_key k a
  end.

Lemma find_key_app k a1 a2 : find_key k (a1 ++ a2) = match find_key k a1 with Some x => Some x | None => find_key k a2 end.
Proof. induction a1 as [|x a1 IH]; [reflexivity|]. cbn. destruct (negb (comp k (keyof x)) && negb (comp (keyof x) k)); auto. Qed.

Lemma find_key_none k a : Forall (fun x => comp k (keyof x) = true \/ comp (keyof x) k = true) a -> find_key k a = None.
Proof. induction 1 as [|x a [C|C] H IH]; [reflexivity|..]; cbn; rewrite C; cbn; rewrite ?andb_false_r; exact IH. Qed.

Lemma find_key_split a k k' : increasing a ->
  find_key k' a = if comp k' k then find_key k' (take (lower k a) a)
                  else if comp k k' then find_key k' (drop (lower k a + dup_of (at_key k a)) a) else at_key k a.
Proof.
  intros H. destruct (lower_split a k H) as (E1 & Hb & He & Ha).
  set (a1 := take (lower k a) a) in *. set (a2 := drop _ a) in *. rewrite E1 at 1. rewrite !find_key_app.
  destruct (key_cmp_spec k' k) as [C|C| ->].
  - rewrite (find_key_none k' a2), (find_key_none k' (match at_key k a with Some x => [x] | None => [] end)).
    + now destruct (find_key k' a1).
    + destruct (at_key k a); constructor; [|constructor]. left. congruence.
    + eapply Forall_impl; [exact Ha|]. cbn. intros x Hx. left. eapply comp_trans; eauto.
  - rewrite (find_key_none k' a1), (find_key_none k' (match at_key k a with Some x => [x] | None => [] end)); [reflexivity| |].
    + destruct (at_key k a); constructor; [|constructor]. right. congruence.
    + eapply Forall_impl; [exact Hb|]. cbn. intros x Hx. right. eapply comp_trans; eauto.
  - rewrite (find_key_none k a1), (find_key_none k a2).
    + destruct (at_key k a) as [x|]; [|reflexivity]. cbn. now rewrite He, comp_irrefl.
    + eapply Forall_impl; [exact Ha|]. auto.
    + eapply Forall_impl; [exact Hb|]. auto.
Qed.

(** The base case makes a balanced map of the array, with the values [fresh]. *)
Class BaseOk (fresh : X -> option val_t) : Prop := {
  base_all P a : Forall (fun x => P (keyof x)) a -> all P (base a);
  base_balanced a : balanced (base a) = true;
  base_sorted a : increasing a -> sorted (base a);
  base_size a : (tsize (base a) <= Z.of_nat (length a))%Z;
  base_nil : base [] = leaf;
  base_get a k : increasing a -> get k (base a) = find_key k a ≫= fresh;
}.
Context {fresh : X -> option val_t} {BO : BaseOk fresh}.

Lemma tmulti_all P b : forall a, all P b -> Forall (fun x => P (keyof x)) a -> all P (tmulti b a).
Proof.
  induction b as [|l IHl e r IHr]; intros a Hb Ha; [now apply base_all|].
  destruct (decide (a = [])) as [->|N]; [exact Hb|]. rewrite tmulti_bin by exact N.
  apply all_bin in Hb as (Hl & He & Hr). apply all_join. rewrite set_at_key. auto using Forall_take, Forall_drop.
Qed.

Lemma tmulti_balanced b : forall a, balanced b = true -> balanced (tmulti b a) = true.
Proof.
  induction b as [|l IHl e r IHr]; intros a Hb; [apply base_balanced|].
  destruct (decide (a = [])) as [->|N]; [exact Hb|]. rewrite tmulti_bin by exact N.
  apply balanced_bin in Hb as (_ & _ & Hl & Hr). auto using tjoin_balanced.
Qed.

(** The parts of a sorted tree and a sorted array around a key. *)
Lemma tmulti_parts l e r a : sorted (bin l e r) -> increasing a ->
  below (fst e) (tmulti l (take (lower (fst e) a) a)) /\
  above (fst e) (tmulti r (drop (lower (fst e) a + dup_of (at_key (fst e) a)) a)).
Proof.
  intros H Ha. apply sorted_bin in H as (_ & _ & Hl & Hr). destruct (lower_split a (fst e) Ha) as (_ & Hb & _ & Hab).
  split; now apply tmulti_all.
Qed.

Lemma tmulti_sorted b : forall a, sorted b -> increasing a -> sorted (tmulti b a).
Proof.
  induction b as [|l IHl e r IHr]; intros a Hb Ha; [now apply base_sorted|].
  destruct (decide (a = [])) as [->|N]; [exact Hb|]. rewrite tmulti_bin by exact N.
  destruct (tmulti_parts l e r a Hb Ha) as [H1 H2]. apply sorted_bin in Hb as (Hl & Hr & _).
  apply sorted_join_intro; rewrite ?set_at_key; auto using increasing_take, increasing_drop.
Qed.

Lemma tmulti_size b : forall a, (tsize (tmulti b a) <= tsize b + Z.of_nat (length a))%Z.
Proof.
  induction b as [|l IHl e r IHr]; intros a; [apply base_size|].
  destruct (decide (a = [])) as [->|N]; [cbn; lia|]. rewrite tmulti_bin, tjoin_size by exact N. cbn [tsize].
  specialize (IHl (take (lower (fst e) a) a)). specialize (IHr (drop (lower (fst e) a + dup_of (at_key (fst e) a)) a)).
  rewrite length_take in IHl. rewrite length_drop in IHr. pose proof (linear_search_le a (fun x => comp (keyof x) (fst e))) as L.
  unfold lower in *. lia.
Qed.

Lemma tmulti_get b : forall a k, sorted b -> increasing a ->
  get k (tmulti b a) = match find_key k a, get k b with
                       | None, v => v
                       | Some x, Some v => Some (op (k, v) x)
                       | Some x, None => fresh x
                       end.
Proof.
  induction b as [|l IHl e r IHr]; intros a k Hb Ha.
  { cbn [tmulti]. rewrite base_get by exact Ha. now destruct (find_key k a). }
  destruct (decide (a = [])) as [->|N]; [change (tmulti (bin l e r) []) with (bin l e r); cbn [find_key]; now destruct (get k (bin l e r))|]. rewrite tmulti_bin by exact N.
  destruct (tmulti_parts l e r a Hb Ha) as [H1 H2]. rewrite (get_bin k l e r Hb).
  pose proof Hb as Hb'. apply sorted_bin in Hb' as (Hl & Hr & _).
  rewrite get_sorted_join; rewrite ?set_at_key; auto using tmulti_sorted, increasing_take, increasing_drop.
  rewrite (find_key_split a (fst e) k Ha).
  destruct (key_cmp_spec k (fst e)) as [C|C| ->].
  - apply IHl; auto using increasing_take.
  - apply IHr; auto using increasing_drop.
  - destruct e as [ke ve]. cbn. destruct (at_key ke a); reflexivity.
Qed.
End Multi.
Arguments increasing {E X} keyof a.
Arguments find_key {E X} keyof k a.

(** Insertion of entries, and an update that adds no keys. *)
Section Instances.
Context {E : Entry} {EO : EntryOk E}.

#[export] Instance build_ok : BaseOk fst (fun a => tbuild (length a) a) (fun e : entry_t => Some (snd e)).
Proof.
  split.
  - intros P a H. unfold all. now rewrite tbuild_elems.
  - intros a. apply tbuild_balanced.
  - intros a H. unfold sorted. now rewrite tbuild_elems.
  - intros a. now rewrite tsize_elems, tbuild_elems.
  - reflexivity.
  - intros a k _. unfold get. rewrite tbuild_elems by reflexivity.
    induction a as [|e a IH]; [reflexivity|]. cbn. now destruct (negb (comp k (fst e)) && negb (comp (fst e) k)).
Qed.

#[export] Instance no_base_ok {X} (keyof : X -> key_t) : BaseOk keyof (fun _ => leaf) (fun _ => None).
Proof. split; intros; try reflexivity; [constructor|constructor|cbn; lia|]. now destruct (find_key keyof k a). Qed.
End Instances.

(** ** Ranges *)

Section Ranges.
Context {E : Entry} {EO : EntryOk E}.

Definition at_most (k : key_t) (e : entry_t) : bool := negb (comp k (fst e)).
Definition at_least (k : key_t) (e : entry_t) : bool := negb (comp (fst e) k).

Fixpoint tleft (k : key_t) (b : tree) : tree :=
  match b with
  | leaf => leaf
  | bin l e r => if comp k (fst e) then tleft k l else tjoin l (tleft k r) e
  end.

Fixpoint tright (k : key_t) (b : tree) : tree :=
  match b with
  | leaf => leaf
  | bin l e r => if comp (fst e) k then tright k r else tjoin (tright k l) r e
  end.

Fixpoint trange (low high : key_t) (b : tree) : tree :=
  match b with
  | leaf => leaf
  | bin l e r =>
    if comp high (fst e) then trange low high l
    else if comp (fst e) low then trange low high r
    else tjoin (tright low l) (tleft high r) e
  end.

(** The first [n] entries, and the first [n] entries from a key on. *)
Fixpoint tfirst (n : Z) (b : tree) : tree :=
  match b with
  | leaf => leaf
  | bin l e r =>
    if (n =? 0)%Z then leaf
    else if (tsize b <=? n)%Z then b
    else if (tsize l <? n)%Z then tjoin l (tfirst (n - tsize l - 1) r) e
    else tfirst n l
  end.

Fixpoint trange_num (low : key_t) (n : Z) (b : tree) : tree :=
  match b with
  | leaf => leaf
  | bin l e r =>
    if comp (fst e) low then trange_num low n r
    else
      let lt := trange_num low n l in
      if (tsize lt =? n)%Z then lt else tjoin lt (tfirst (n - tsize lt - 1) r) e
  end.

Lemma filter_all (f : entry_t -> bool) l : Forall (fun e => f e = true) l -> List.filter f l = l.
Proof. induction 1 as [|e l H _ IH]; [reflexivity|]. cbn. now rewrite H, IH. Qed.

Lemma filter_none (f : entry_t -> bool) l : Forall (fun e => f e = false) l -> List.filter f l = [].
Proof. induction 1 as [|e l H _ IH]; [reflexivity|]. cbn. now rewrite H. Qed.

Lemma below_trans k k' t : below k t -> comp k k' = true -> below k' t.
Proof. intros H C. eapply all_weaken; [|exact H]. cbn. intros x Hx. eapply comp_trans; eauto. Qed.

Lemma above_trans k k' t : above k t -> comp k' k = true -> above k' t.
Proof. intros H C. eapply all_weaken; [|exact H]. cbn. intros x Hx. eapply comp_trans; eauto. Qed.

(** A key that is not above [k] is above whatever is below [k]. *)
Lemma below_most k (e : entry_t) t : below (fst e) t -> comp k (fst e) = false -> List.filter (at_most k) (elems t) = elems t.
Proof.
  intros H C. apply filter_all. eapply Forall_impl; [exact H|]. cbn. intros x Hx. unfold at_most.
  destruct (comp k (fst x)) eqn:D; [|reflexivity]. now rewrite (comp_trans _ _ _ D Hx) in C.
Qed.

Lemma above_least k (e : entry_t) t : above (fst e) t -> comp (fst e) k = false -> List.filter (at_least k) (elems t) = elems t.
Proof.
  intros H C. apply filter_all. eapply Forall_impl; [exact H|]. cbn. intros x Hx. unfold at_least.
  destruct (comp (fst x) k) eqn:D; [|reflexivity]. now rewrite (comp_trans _ _ _ Hx D) in C.
Qed.

Lemma above_most_none k t : above k t -> List.filter (at_most k) (elems t) = [].
Proof. intros H. apply filter_none. eapply Forall_impl; [exact H|]. cbn. intros x Hx. unfold at_most. now rewrite Hx. Qed.

Lemma below_least_none k t : below k t -> List.filter (at_least k) (elems t) = [].
Proof. intros H. apply filter_none. eapply Forall_impl; [exact H|]. cbn. intros x Hx. unfold at_least. now rewrite Hx. Qed.

Lemma tleft_elems k b : sorted b -> elems (tleft k b) = List.filter (at_most k) (elems b).
Proof.
  induction b as [|l IHl e r IHr]; intros H; [reflexivity|]. apply sorted_bin in H as (Hl & Hr & Bl & Ar).
  cbn [elems tleft]. rewrite List.filter_app. cbn [List.filter]. unfold at_most at 2. destruct (comp k (fst e)) eqn:C; cbn [negb].
  - rewrite (above_most_none k r), app_nil_r by exact (above_trans _ _ _ Ar C). auto.
  - rewrite tjoin_elems, IHr by exact Hr. now rewrite (below_most k e l Bl C).
Qed.

Lemma tright_elems k b : sorted b -> elems (tright k b) = List.filter (at_least k) (elems b).
Proof.
  induction b as [|l IHl e r IHr]; intros H; [reflexivity|]. apply sorted_bin in H as (Hl & Hr & Bl & Ar).
  cbn [elems tright]. rewrite List.filter_app. cbn [List.filter]. unfold at_least at 2. destruct (comp (fst e) k) eqn:C; cbn [negb].
  - rewrite (below_least_none k l) by exact (below_trans _ _ _ Bl C). auto.
  - rewrite tjoin_elems, IHl by exact Hl. now rewrite (above_least k e r Ar C).
Qed.

Lemma filter_andb (f g : entry_t -> bool) l : List.filter (fun e => f e && g e) l = List.filter f (List.filter g l).
Proof. induction l as [|e l IH]; [reflexivity|]. cbn. destruct (g e); cbn; [rewrite andb_true_r|rewrite andb_false_r]; destruct (f e); cbn; now rewrite ?IH. Qed.

Lemma trange_elems low high b : sorted b ->
  elems (trange low high b) = List.filter (fun e => at_least low e && at_most high e) (elems b).
Proof.
  induction b as [|l IHl e r IHr]; intros H; [reflexivity|]. apply sorted_bin in H as (Hl & Hr & Bl & Ar).
  cbn [elems trange]. rewrite List.filter_app. cbn [List.filter].
  destruct (comp high (fst e)) eqn:C1; [|destruct (comp (fst e) low) eqn:C2]; unfold at_least at 2, at_most at 2; rewrite C1, ?C2; cbn [negb andb].
  - rewrite andb_false_r, IHl by exact Hl. rewrite (filter_andb _ _ (elems r)), (above_most_none high r) by exact (above_trans _ _ _ Ar C1).
    cbn. now rewrite app_nil_r.
  - rewrite IHr by exact Hr. rewrite (filter_andb _ _ (elems l)).
    rewrite (filter_none _ (List.filter _ (elems l))); [reflexivity|].
    eapply incl_Forall; [apply List.incl_filter|]. eapply Forall_impl; [exact Bl|]. cbn. intros x Hx. unfold at_least.
    now rewrite (comp_trans _ _ _ Hx C2).
  - rewrite tjoin_elems, tright_elems, tleft_elems by assumption. rewrite !filter_andb, (below_most high e l Bl C1).
    f_equal. f_equal. rewrite (filter_all (at_least low)); [reflexivity|].
    eapply incl_Forall; [apply List.incl_filter|]. eapply Forall_impl; [exact Ar|]. cbn. intros x Hx. unfold at_least.
    destruct (comp (fst x) low) eqn:D; [|reflexivity]. now rewrite (comp_trans _ _ _ Hx D) in C2.
Qed.

Lemma tleft_balanced k b : balanced b = true -> balanced (tleft k b) = true.
Proof.
  induction b as [|l IHl e r IHr]; intros H; [reflexivity|]. apply balanced_bin in H as (_ & _ & Hl & Hr). cbn.
  destruct (comp k (fst e)); auto using tjoin_balanced.
Qed.

Lemma tright_balanced k b : balanced b = true -> balanced (tright k b) = true.
Proof.
  induction b as [|l IHl e r IHr]; intros H; [reflexivity|]. apply balanced_bin in H as (_ & _ & Hl & Hr). cbn.
  destruct (comp (fst e) k); auto using tjoin_balanced.
Qed.

Lemma trange_balanced low high b : balanced b = true -> balanced (trange low high b) = true.
Proof.
  induction b as [|l IHl e r IHr]; intros H; [reflexivity|]. apply balanced_bin in H as (_ & _ & Hl & Hr). cbn.
  destruct (comp high (fst e)); [|destruct (comp (fst e) low)]; auto using tjoin_balanced, tleft_balanced, tright_balanced.
Qed.

Lemma tleft_size k b : (tsize (tleft k b) <= tsize b)%Z.
Proof. induction b as [|l IHl e r IHr]; cbn; [lia|]. destruct (comp k (fst e)); rewrite ?tjoin_size; pose proof (tsize_nonneg r); lia. Qed.

Lemma tright_size k b : (tsize (tright k b) <= tsize b)%Z.
Proof. induction b as [|l IHl e r IHr]; cbn; [lia|]. destruct (comp (fst e) k); rewrite ?tjoin_size; pose proof (tsize_nonneg l); lia. Qed.

Lemma trange_size low high b : (tsize (trange low high b) <= tsize b)%Z.
Proof.
  induction b as [|l IHl e r IHr]; cbn; [lia|]. pose proof (tsize_nonneg l). pose proof (tsize_nonneg r).
  pose proof (tright_size low l). pose proof (tleft_size high r).
  destruct (comp high (fst e)); [|destruct (comp (fst e) low)]; rewrite ?tjoin_size; lia.
Qed.

Lemma tfirst_zero b : tfirst 0 b = leaf.
Proof. now destruct b. Qed.

Lemma tfirst_elems b : forall n, (0 <= n)%Z -> elems (tfirst n b) = take (Z.to_nat n) (elems b).
Proof.
  induction b as [|l IHl e r IHr]; intros n Hn; [cbn; now rewrite take_nil|]. cbn [elems tfirst]. pose proof (tsize_elems l) as Sl.
  pose proof (tsize_elems r) as Sr. destruct (Z.eqb_spec n 0) as [->|N]; [reflexivity|].
  cbn [tsize]. destruct (Z.leb_spec (tsize l + tsize r + 1) n) as [L|L].
  { symmetry. cbn [elems]. apply take_ge. rewrite length_app. cbn [length]. lia. }
  destruct (Z.ltb_spec (tsize l) n) as [L1|L1].
  - rewrite tjoin_elems, IHr by lia. replace (Z.to_nat n) with (length (elems l) + S (Z.to_nat (n - tsize l - 1))) by lia.
    now rewrite take_app_add.
  - rewrite IHl, take_app_le by lia. reflexivity.
Qed.

Lemma tfirst_size b n : (0 <= n)%Z -> (tsize (tfirst n b) <= tsize b /\ tsize (tfirst n b) <= n)%Z.
Proof. intros H. rewrite !tsize_elems, tfirst_elems, length_take by exact H. lia. Qed.

Lemma tfirst_balanced b : forall n, balanced b = true -> balanced (tfirst n b) = true.
Proof.
  induction b as [|l IHl e r IHr]; intros n H; [reflexivity|]. pose proof H as H'. apply balanced_bin in H as (_ & _ & Hl & Hr). cbn [tfirst].
  destruct (n =? 0)%Z; [reflexivity|]. destruct (_ <=? _)%Z; [exact H'|]. destruct (_ <? _)%Z; auto using tjoin_balanced.
Qed.

Lemma trange_num_elems low n b : sorted b -> (0 <= n)%Z ->
  elems (trange_num low n b) = take (Z.to_nat n) (List.filter (at_least low) (elems b)).
Proof.
  intros H Hn. induction b as [|l IHl e r IHr]; [cbn; now rewrite take_nil|]. apply sorted_bin in H as (Hl & Hr & Bl & Ar).
  cbn [elems trange_num]. rewrite List.filter_app. cbn [List.filter]. unfold at_least at 2.
  destruct (comp (fst e) low) eqn:C; cbn [negb].
  - rewrite (below_least_none low l) by exact (below_trans _ _ _ Bl C). auto.
  - rewrite (above_least low e r Ar C). specialize (IHl Hl). set (lt := trange_num low n l) in *.
    set (fl := List.filter (at_least low) (elems l)) in *. pose proof (tsize_elems lt) as St. rewrite IHl, length_take in St.
    destruct (Z.eqb_spec (tsize lt) n) as [E1|E1].
    + rewrite IHl, take_app_le by lia. reflexivity.
    + rewrite tjoin_elems, tfirst_elems, IHl by lia. rewrite (take_ge fl) by lia.
      replace (Z.to_nat n) with (length fl + S (Z.to_nat (n - tsize lt - 1))) by lia. now rewrite take_app_add.
Qed.

Lemma trange_num_size low n b : (0 <= n)%Z -> (tsize (trange_num low n b) <= tsize b /\ tsize (trange_num low n b) <= n)%Z.
Proof.
  intros Hn. induction b as [|l IHl e r IHr]; [cbn; lia|]. cbn [trange_num]. pose proof (tsize_nonneg l). pose proof (tsize_nonneg r).
  destruct (comp (fst e) low); [cbn [tsize]; lia|]. destruct (Z.eqb_spec (tsize (trange_num low n l)) n); [cbn [tsize]; lia|].
  rewrite tjoin_size. pose proof (tfirst_size r (n - tsize (trange_num low n l) - 1)). cbn [tsize]. lia.
Qed.

Lemma trange_num_balanced low n b : balanced b = true -> balanced (trange_num low n b) = true.
Proof.
  induction b as [|l IHl e r IHr]; intros H; [reflexivity|]. apply balanced_bin in H as (_ & _ & Hl & Hr). cbn [trange_num].
  destruct (comp (fst e) low); [auto|]. destruct (_ =? _)%Z; auto using tjoin_balanced, tfirst_balanced.
Qed.
End Ranges.
