(* ===== verification/PamStore.v ===== *)
(** * Nodes, reference counts and memory of Aspen's trees
    ([trees/basic_node.h], [trees/augmented_node.h], [trees/gc.h])

    A tree is a pointer into a store of reference-counted nodes; operations reuse a node
    in place when its count is one.  The store is explicit, an operation is a function on
    stores, and [None] is undefined behaviour (a null or dangling pointer is followed).
    Calls forked in parallel are run one after the other.  Counts and pointers are
    unbounded; sizes have the width of [node_size_t].

    [PamPrims] states what a store holds and how the operations here change it. *)

From S2P Require Import Prelude PamTree.
From stdpp Require Import base option list gmap.
Import PamTree.
#[local] Open Scope Z_scope.

(** ** The store *)

Definition ptr : Type := option positive.

Record node {E : Entry} := mk_node {
  lc : ptr;
  rc : ptr;
  entry : entry_t;   (* entry.first *)
  aug : aug_t;       (* entry.second *)
  sz : Z;            (* s *)
  ref_cnt : Z;
}.
Arguments mk_node {E}.

Abbreviation heap := (gmap positive node).

Section Store.
Context {E : Entry}.

(** Operations on the store. *)
Definition mem (A : Type) : Type := heap -> option (A * heap).

#[export] Instance mem_ret : MRet mem := fun A a h => Some (a, h).
#[export] Instance mem_bind : MBind mem := fun A B f m h =>
  match m h with Some (a, h') => f a h' | None => None end.

Definition undefined {A} : mem A := fun _ => None.

Definition load (p : ptr) : mem node := fun h =>
  match p with
  | Some l => match h !! l with Some n => Some (n, h) | None => None end
  | None => None
  end.

Definition store (p : ptr) (f : node -> node) : mem unit := fun h =>
  match p with
  | Some l => match h !! l with Some n => Some (tt, <[l := f n]> h) | None => None end
  | None => None
  end.

Definition set_lc (p v : ptr) : mem unit := store p (fun n => mk_node v n.(rc) n.(entry) n.(aug) n.(sz) n.(ref_cnt)).
Definition set_rc (p v : ptr) : mem unit := store p (fun n => mk_node n.(lc) v n.(entry) n.(aug) n.(sz) n.(ref_cnt)).
Definition set_sz (p : ptr) (v : Z) : mem unit := store p (fun n => mk_node n.(lc) n.(rc) n.(entry) n.(aug) v n.(ref_cnt)).
Definition set_aug (p : ptr) (v : aug_t) : mem unit := store p (fun n => mk_node n.(lc) n.(rc) n.(entry) v n.(sz) n.(ref_cnt)).
Definition set_entry (p : ptr) (v : entry_t) : mem unit := store p (fun n => mk_node n.(lc) n.(rc) v n.(aug) n.(sz) n.(ref_cnt)).
Definition add_ref (p : ptr) (d : Z) : mem unit := store p (fun n => mk_node n.(lc) n.(rc) n.(entry) n.(aug) n.(sz) (n.(ref_cnt) + d)).

(** The node allocator: where the next node goes, and what its memory holds. *)
Class Allocator := {
  alloc_at : heap -> positive;
  raw_lc : heap -> ptr;
  raw_rc : heap -> ptr;
  raw_s : heap -> Z;
}.

Class AllocatorOk (A : Allocator) : Prop := { alloc_fresh h : h !! alloc_at h = None }.

Context {A : Allocator}.

(** ** Nodes *)

Definition size (a : ptr) : mem Z :=
  match a with None => mret 0 | Some _ => n ← load a; mret n.(sz) end.

Definition basic_make_node (e : entry_t * aug_t) : mem ptr := fun h =>
  let o := alloc_at h in
  Some (Some o, <[o := mk_node (raw_lc h) (raw_rc h) (fst e) (snd e) (raw_s h) 1]> h).

Definition basic_single (e : entry_t * aug_t) : mem ptr :=
  r ← basic_make_node e; set_lc r None;; set_rc r None;; set_sz r 1;; mret r.

Definition make_node (e : entry_t) : mem ptr := basic_make_node (e, aug_init).
Definition single (e : entry_t) : mem ptr := basic_single (e, from_entry e).

Definition free_node (a : ptr) : mem unit := fun h =>
  match a with
  | Some l => match h !! l with Some _ => Some (tt, delete l h) | None => None end
  | None => None
  end.

Definition empty : ptr := None.
Definition get_entry (a : ptr) : mem entry_t := n ← load a; mret n.(entry).

Definition basic_update (a : ptr) : mem unit :=
  n ← load a; sl ← size n.(lc); sr ← size n.(rc); set_sz a (u32 (sl + sr + 1)).

Definition aug_val (a : ptr) : mem aug_t :=
  match a with None => mret get_empty | Some _ => n ← load a; mret n.(aug) end.

Definition update (a : ptr) : mem unit :=
  basic_update a;;
  n ← load a;
  let av := from_entry n.(entry) in
  av ← match n.(lc) with Some _ => l ← load n.(lc); mret (combine l.(aug) av) | None => mret av end;
  av ← match n.(rc) with Some _ => r ← load n.(rc); mret (combine av r.(aug)) | None => mret av end;
  set_aug a av.

(** [lazy_update]: [f] updates the augmented value instead of recomputing it. *)
Definition lazy_update (a : ptr) (f : aug_t -> aug_t) : mem unit :=
  basic_update a;; n ← load a; set_aug a (f n.(aug)).

(** ** Forks ([utils.h]) *)

Definition node_limit : Z := 100.

Definition do_parallel (n m : Z) : bool :=
  let '(n, m) := if n <? m then (m, n) else (n, m) in
  (8 <? m) && (100 <? m * Z.log2_up (n / m + 1)).

(** Both calls of a fork, the left one first. *)
Definition fork {T} (parallel : bool) (left right : mem T) : mem (T * T) :=
  l ← left; r ← right; mret (l, r).

(** ** Reference counts *)

Definition decrement (t : ptr) : mem bool :=
  match t with
  | None => mret false
  | Some _ =>
    n ← load t; add_ref t (-1);;
    if n.(ref_cnt) =? 1 then free_node t;; mret true else mret false
  end.

Fixpoint decrement_recursive (fuel : nat) (t : ptr) : mem bool :=
  match fuel with
  | O => undefined
  | S fuel =>
    match t with
    | None => mret false
    | Some _ =>
      n ← load t;
      let lsub := n.(lc) in
      let rsub := n.(rc) in
      d ← decrement t;
      if d : bool then
        sl ← size lsub;
        fork (node_limit <=? sl) (decrement_recursive fuel lsub) (decrement_recursive fuel rsub);;
        mret true
      else mret false
    end
  end.

Definition increment (t : ptr) : mem unit :=
  match t with None => mret tt | Some _ => add_ref t 1 end.

Definition inc (t : ptr) : mem ptr := increment t;; mret t.

(** The copied entry is the entry ([copy_entry] copies what an entry points to). *)
Definition copy (t : ptr) : mem ptr :=
  e ← get_entry t; o ← make_node e;
  n ← load t; l ← inc n.(lc); set_lc o l;;
  n ← load t; r ← inc n.(rc); set_rc o r;;
  mret o.

Definition copy_if_needed (fuel : nat) (t : ptr) : mem ptr :=
  n ← load t;
  if 1 <? n.(ref_cnt) then res ← copy t; decrement_recursive fuel t;; mret res
  else mret t.

Definition copy_if (fuel : nat) (t : ptr) (copy extra_ptr : bool) : mem ptr :=
  if copy then
    e ← get_entry t; r ← make_node e;
    (if extra_ptr then mret tt else decrement_recursive fuel t;; mret tt);;
    mret r
  else mret t.

Definition inc_if (t : ptr) (copy : bool) : mem ptr :=
  (if copy then increment t else mret tt);; mret t.

Definition dec_if (fuel : nat) (t : ptr) (copy extra_ptr : bool) : mem unit :=
  if extra_ptr then mret tt
  else if copy then decrement_recursive fuel t;; mret tt
  else decrement t;; mret tt.

(** ** Reasoning about operations *)

(** [m] succeeds from [h] with a result and a store in [Q]. *)
Definition wp {T} (m : mem T) (Q : T -> heap -> Prop) (h : heap) : Prop :=
  match m h with Some (a, h') => Q a h' | None => False end.

Lemma wp_ret {T} (a : T) (Q : T -> heap -> Prop) h : Q a h -> wp (mret a) Q h.
Proof. auto. Qed.

Lemma wp_bind {T U} (m : mem T) (f : T -> mem U) (Q : U -> heap -> Prop) h :
  wp m (fun a h' => wp (f a) Q h') h -> wp (m ≫= f) Q h.
Proof. unfold wp, mbind, mem_bind. destruct (m h) as [[a h']|]; auto. Qed.

Lemma wp_mono {T} (m : mem T) (P Q : T -> heap -> Prop) h :
  wp m P h -> (forall a h', P a h' -> Q a h') -> wp m Q h.
Proof. unfold wp. destruct (m h) as [[a h']|]; auto. Qed.

(** Sequencing with a specification of the first operation. *)
Lemma wp_seq {T U} (m : mem T) (f : T -> mem U) (P : T -> heap -> Prop) (Q : U -> heap -> Prop) h :
  wp m P h -> (forall a h', P a h' -> wp (f a) Q h') -> wp (m ≫= f) Q h.
Proof. intros H1 H2. apply wp_bind. eapply wp_mono; eauto. Qed.

Lemma wp_load l n Q h : h !! l = Some n -> Q n h -> wp (load (Some l)) Q h.
Proof. unfold wp, load. now intros ->. Qed.

Lemma wp_store l n f Q h : h !! l = Some n -> Q tt (<[l := f n]> h) -> wp (store (Some l) f) Q h.
Proof. unfold wp, store. now intros ->. Qed.
End Store.
#[export] Hint Mode Allocator - : typeclass_instances.
