(* ===== verification/PamPrims.v ===== *)
(** * What a store of Aspen's trees holds, and how operations change it

    [inv h F S] says that the store [h] consists of the trees [F], one for each reference
    held outside the store, and the detached nodes [S], with exact reference counts and
    nothing else allocated.  The trees in [F] carry the addresses of their nodes, so that a
    tree that stays in [F] stays where it is: an operation that keeps a tree in [F] has not
    modified it.

    Taking a node apart that has one reference, linking a detached node, taking and
    dropping references, allocation and release. *)

From S2P Require Import Prelude PamTree PamStore.
From stdpp Require Import base option list gmap.
Import PamTree PamStore.
#[local] Open Scope Z_scope.

(** * What a store of Aspen's trees holds *)

Section Inv.
Context {E : Entry} {A : Allocator} {AO : AllocatorOk A}.

(** ** Trees with addresses *)

Inductive ltree := lf | nd (l : positive) (L : ltree) (e : entry_t) (R : ltree).

Definition root (T : ltree) : ptr := match T with lf => None | nd l _ _ _ => Some l end.

Fixpoint erase (T : ltree) : tree :=
  match T with lf => leaf | nd _ L e R => bin (erase L) e (erase R) end.

Fixpoint sub (T T0 : ltree) : Prop :=
  T = T0 \/ match T0 with lf => False | nd _ L _ R => sub T L \/ sub T R end.

(** [T] is part of a tree in [F]. *)
Definition pinned (T : ltree) (F : list ltree) : Prop := T = lf \/ exists T0, T0 ∈ F /\ sub T T0.

(** A detached node: its address, entry and fields. *)
Record shell := mk_shell { s_loc : positive; s_lc : ptr; s_rc : ptr; s_entry : entry_t; s_aug : aug_t }.

(** ** Counting references *)

Definition ind (p : ptr) (l : positive) : Z := if decide (p = Some l) then 1 else 0.

Definition roots (F : list ltree) (l : positive) : Z := foldr (fun T acc => ind (root T) l + acc) 0 F.

Definition kids (T : ltree) (l : positive) : Z :=
  match T with lf => 0 | nd _ L _ R => ind (root L) l + ind (root R) l end.

Definition edges (G : gmap positive ltree) (l : positive) : Z := map_fold (fun _ T acc => kids T l + acc) 0 G.

Definition nrefs (F : list ltree) (G : gmap positive ltree) (l : positive) : Z := roots F l + edges G l.

Lemma ind_nonneg p l : 0 <= ind p l.
Proof. unfold ind. case_decide; lia. Qed.

Lemma ind_same l : ind (Some l) l = 1.
Proof. unfold ind. now rewrite decide_True. Qed.

Lemma ind_ne p l : p <> Some l -> ind p l = 0.
Proof. intros H. unfold ind. now rewrite decide_False. Qed.

Lemma ind_zero p l : ind p l = 0 -> p <> Some l.
Proof. unfold ind. case_decide; [lia|auto]. Qed.

Lemma kids_nonneg T l : 0 <= kids T l.
Proof. destruct T as [|k L e R]; cbn; [lia|]. pose proof (ind_nonneg (root L) l). pose proof (ind_nonneg (root R) l). lia. Qed.

Lemma roots_cons T F l : roots (T :: F) l = ind (root T) l + roots F l.
Proof. reflexivity. Qed.

Lemma roots_nonneg F l : 0 <= roots F l.
Proof. induction F as [|T F IH]; [reflexivity|]. rewrite roots_cons. pose proof (ind_nonneg (root T) l). lia. Qed.

Lemma roots_perm F F' l : F ≡ₚ F' -> roots F l = roots F' l.
Proof. induction 1; rewrite ?roots_cons in *; lia. Qed.

Lemma roots_in F T l : T ∈ F -> ind (root T) l <= roots F l.
Proof.
  induction 1 as [T F|T T' F _ IH]; rewrite roots_cons; [pose proof (roots_nonneg F l); lia|].
  pose proof (ind_nonneg (root T') l). lia.
Qed.

Lemma edges_insert G k T l : G !! k = None -> edges (<[k := T]> G) l = kids T l + edges G l.
Proof. intros H. unfold edges. rewrite map_fold_insert_L; [reflexivity|intros; lia|exact H]. Qed.

Lemma edges_delete G k T l : G !! k = Some T -> edges G l = kids T l + edges (delete k G) l.
Proof.
  intros H. rewrite <- (edges_insert (delete k G) k T l) by apply lookup_delete_eq.
  now rewrite insert_delete_id.
Qed.

Lemma edges_nonneg G l : 0 <= edges G l.
Proof.
  unfold edges. apply (map_fold_weak_ind (fun x _ => 0 <= x)); [lia|].
  intros k T m x _ H. pose proof (kids_nonneg T l). lia.
Qed.

Lemma edges_in G k T l : G !! k = Some T -> kids T l <= edges G l.
Proof. intros H. rewrite (edges_delete G k T l H). pose proof (edges_nonneg (delete k G) l). lia. Qed.

(** ** The invariant *)

(** [T] is stored as the linked nodes [G] say. *)
Definition inG (G : gmap positive ltree) (T : ltree) : Prop :=
  match T with lf => True | nd l _ _ _ => G !! l = Some T end.

Definition max_size : Z := 2 ^ 32 - 1.

Record ginv (h : heap) (G : gmap positive ltree) (F : list ltree) (S : list shell) : Prop := {
  gi_tree l T : G !! l = Some T -> exists L e R, T = nd l L e R /\ inG G L /\ inG G R;
  gi_roots : Forall (inG G) F;
  gi_node l L e R : G !! l = Some (nd l L e R) ->
    h !! l = Some (mk_node (root L) (root R) e (aug_of (erase (nd l L e R))) (tsize (erase (nd l L e R))) (nrefs F G l));
  gi_size l T : G !! l = Some T -> tsize (erase T) < max_size;
  gi_used l T : G !! l = Some T -> 0 < nrefs F G l;
  gi_shell s : s ∈ S -> G !! s_loc s = None /\ exists z, h !! s_loc s = Some (mk_node (s_lc s) (s_rc s) (s_entry s) (s_aug s) z 1);
  gi_shells : NoDup (map s_loc S);
  gi_dom l n : h !! l = Some n -> is_Some (G !! l) \/ l ∈ map s_loc S;
}.

Definition inv (h : heap) (F : list ltree) (S : list shell) : Prop := exists G, ginv h G F S.

Lemma inv_perm h F F' S S' : inv h F S -> F ≡ₚ F' -> S ≡ₚ S' -> inv h F' S'.
Proof.
  intros (G & [H1 H2 H3 H4 H5 H6 H7 H8]) PF PS. exists G.
  assert (N : forall l, nrefs F' G l = nrefs F G l) by (intros l; unfold nrefs; now rewrite (roots_perm F F' l PF)).
  assert (PM : map s_loc S ≡ₚ map s_loc S') by now apply Permutation_map.
  split; auto.
  - now rewrite <- PF.
  - intros l L e R HG. rewrite N. auto.
  - intros l T HG. rewrite N. eauto.
  - intros s Hs. apply H6. now rewrite PS.
  - now rewrite <- PM.
  - intros l n Hl. rewrite <- PM. eauto.
Qed.

Lemma inG_sub h G F S T T0 : ginv h G F S -> inG G T0 -> sub T T0 -> inG G T.
Proof.
  intros GI. induction T0 as [|l L IHL e R IHR]; intros H0 Hs.
  - destruct Hs as [->|[]]. exact I.
  - destruct Hs as [->|Hs]; [exact H0|]. destruct (gi_tree _ _ _ _ GI _ _ H0) as (L' & e' & R' & [= <- <- <-] & HL & HR).
    destruct Hs; auto.
Qed.

Lemma inG_pinned h G F S T : ginv h G F S -> pinned T F -> inG G T.
Proof.
  intros GI [->|(T0 & Hin & Hs)]; [exact I|]. apply (inG_sub h G F S T T0 GI); [|exact Hs].
  pose proof (gi_roots _ _ _ _ GI) as H. rewrite Forall_forall in H. auto.
Qed.

(** Reading a node of a stored tree. *)
Lemma inv_node h F S l L e R : inv h F S -> pinned (nd l L e R) F ->
  exists c, h !! l = Some (mk_node (root L) (root R) e (aug_of (erase (nd l L e R))) (tsize (erase (nd l L e R))) c) /\ 0 < c.
Proof.
  intros (G & GI) HP. pose proof (inG_pinned _ _ _ _ _ GI HP) as HG. cbn in HG.
  eexists. split; [exact (gi_node _ _ _ _ GI _ _ _ _ HG)|exact (gi_used _ _ _ _ GI _ _ HG)].
Qed.

Lemma inv_size h F S T : inv h F S -> pinned T F -> tsize (erase T) < max_size.
Proof.
  intros (G & GI) HP. destruct T as [|l L e R]; [reflexivity|].
  exact (gi_size _ _ _ _ GI _ _ (inG_pinned _ _ _ _ _ GI HP)).
Qed.

(** *** Pinned trees *)

Lemma sub_refl T : sub T T.
Proof. destruct T; cbn; auto. Qed.

Lemma sub_trans T1 T2 T3 : sub T1 T2 -> sub T2 T3 -> sub T1 T3.
Proof.
  intros H. induction T3 as [|l L IHL e R IHR]; intros [->|H']; auto.
  - destruct H'.
  - destruct H'; right; auto.
Qed.

Lemma pinned_here T F : pinned T (T :: F).
Proof. right. exists T. split; [left|apply sub_refl]. Qed.

Lemma pinned_cons T T0 F : pinned T F -> pinned T (T0 :: F).
Proof. intros [->|(T1 & H1 & H2)]; [left; reflexivity|right; exists T1; split; [now right|exact H2]]. Qed.

Lemma pinned_left l L e R F : pinned (nd l L e R) F -> pinned L F.
Proof.
  intros [?|(T1 & H1 & H2)]; [discriminate|]. right. exists T1. split; [exact H1|].
  apply (sub_trans _ (nd l L e R)); [|exact H2]. right. left. apply sub_refl.
Qed.

Lemma pinned_right l L e R F : pinned (nd l L e R) F -> pinned R F.
Proof.
  intros [?|(T1 & H1 & H2)]; [discriminate|]. right. exists T1. split; [exact H1|].
  apply (sub_trans _ (nd l L e R)); [|exact H2]. right. right. apply sub_refl.
Qed.

Lemma pinned_perm T F F' : F ≡ₚ F' -> pinned T F -> pinned T F'.
Proof. intros P [?|(T1 & H1 & H2)]; [left; auto|right]. exists T1. split; [now rewrite <- P|exact H2]. Qed.
End Inv.

(** * How the store's operations change what it holds *)

Section Prims.
Context {E : Entry} {A : Allocator} {AO : AllocatorOk A}.

Lemma edges_zero G l : (forall k T, G !! k = Some T -> kids T l = 0) -> edges G l = 0.
Proof.
  unfold edges. apply (map_fold_weak_ind (fun x (m : gmap positive ltree) => (forall k T, m !! k = Some T -> kids T l = 0) -> x = 0)); [auto|].
  intros k T m x Hk IH H. rewrite (H k T) by apply lookup_insert_eq. rewrite IH; [reflexivity|].
  intros k' T' H'. apply (H k'). rewrite lookup_insert_ne; [exact H'|congruence].
Qed.

Lemma roots_zero F l : Forall (fun T => root T <> Some l) F -> roots F l = 0.
Proof. induction 1 as [|T F H _ IH]; [reflexivity|]. rewrite roots_cons, IH, ind_ne by exact H. reflexivity. Qed.

Lemma inG_root G T l : inG G T -> G !! l = None -> root T <> Some l.
Proof. destruct T as [|k L e R]; cbn; [discriminate|]. intros H1 H2 [= ->]. congruence. Qed.

(** Nothing refers to an address without a linked node. *)
Lemma nrefs_none h G F S l : ginv h G F S -> G !! l = None -> nrefs F G l = 0.
Proof.
  intros GI Hl. unfold nrefs. rewrite roots_zero, edges_zero; [reflexivity| |].
  - intros k T Hk. destruct (gi_tree _ _ _ _ GI _ _ Hk) as (L & e & R & -> & HL & HR). cbn.
    rewrite !ind_ne by eauto using inG_root. reflexivity.
  - pose proof (gi_roots _ _ _ _ GI) as H. rewrite Forall_forall in *. intros T HT. eauto using inG_root.
Qed.

(** Trees other than the one at [l] do not mind if the map changes at [l]. *)
Lemma inG_delete G T l : inG G T -> root T <> Some l -> inG (delete l G) T.
Proof. destruct T as [|k L e R]; cbn; [auto|]. intros H1 H2. rewrite lookup_delete_ne; [exact H1|congruence]. Qed.

Lemma inG_insert G T l T' : inG G T -> root T <> Some l -> inG (<[l := T']> G) T.
Proof. destruct T as [|k L e R]; cbn; [auto|]. intros H1 H2. rewrite lookup_insert_ne; [exact H1|congruence]. Qed.

(** *** Linking and taking apart *)

Definition shell_of (l : positive) (L : ltree) (e : entry_t) (R : ltree) : shell :=
  mk_shell l (root L) (root R) e (aug_of (erase (nd l L e R))).

Lemma inv_open h F S l L e R n :
  inv h (nd l L e R :: F) S -> h !! l = Some n -> ref_cnt n = 1 -> inv h (L :: R :: F) (shell_of l L e R :: S).
Proof.
  intros (G & GI) Hn Hc. set (T := nd l L e R) in *.
  pose proof (gi_roots _ _ _ _ GI) as HF. apply Forall_cons in HF as [HT HF]. cbn in HT.
  pose proof (gi_node _ _ _ _ GI _ _ _ _ HT) as Hl. rewrite Hl in Hn. injection Hn as <-. cbn in Hc.
  assert (N1 : roots F l = 0 /\ edges G l = 0).
  { unfold nrefs in Hc. rewrite roots_cons in Hc. cbn [root T] in Hc. rewrite ind_same in Hc.
    pose proof (roots_nonneg F l). pose proof (edges_nonneg G l). lia. }
  destruct N1 as [NF NG].
  assert (KG : forall k T', G !! k = Some T' -> kids T' l = 0).
  { intros k T' Hk. pose proof (edges_in G k T' l Hk). pose proof (kids_nonneg T' l). lia. }
  destruct (gi_tree _ _ _ _ GI _ _ HT) as (L' & e' & R' & [= <- <- <-] & HL & HR).
  assert (KT : root L <> Some l /\ root R <> Some l).
  { pose proof (KG l T HT) as K. cbn in K. pose proof (ind_nonneg (root L) l). pose proof (ind_nonneg (root R) l).
    split; apply ind_zero; lia. }
  assert (NR : forall k, k <> l -> nrefs (L :: R :: F) (delete l G) k = nrefs (T :: F) G k).
  { intros k Hk. unfold nrefs. rewrite !roots_cons, (edges_delete G l T k HT). cbn [root T kids].
    rewrite (ind_ne (Some l) k) by congruence. lia. }
  exists (delete l G). destruct GI as [G1 G2 G3 G4 G5 G6 G7 G8]. split.
  - intros k T' Hk. apply lookup_delete_Some in Hk as [Nk Hk].
    destruct (G1 _ _ Hk) as (L1 & e1 & R1 & -> & HL1 & HR1). exists L1, e1, R1. split; [reflexivity|].
    pose proof (KG _ _ Hk) as K. cbn in K. pose proof (ind_nonneg (root L1) l). pose proof (ind_nonneg (root R1) l).
    split; apply inG_delete; auto; apply ind_zero; lia.
  - rewrite !Forall_cons. repeat split; [apply inG_delete; tauto..|].
    rewrite Forall_forall in *. intros T' HT'. apply inG_delete; auto. apply ind_zero.
    pose proof (roots_in F T' l HT'). pose proof (ind_nonneg (root T') l). lia.
  - intros k L1 e1 R1 Hk. apply lookup_delete_Some in Hk as [Nk Hk]. rewrite NR by auto. auto.
  - intros k T' Hk. apply lookup_delete_Some in Hk as [Nk Hk]. eauto.
  - intros k T' Hk. apply lookup_delete_Some in Hk as [Nk Hk]. rewrite NR by auto. eauto.
  - intros s [->|Hs]%elem_of_cons.
    + cbn [s_loc shell_of]. split; [apply lookup_delete_eq|]. rewrite Hl, Hc. eexists. reflexivity.
    + destruct (G6 s Hs) as [H1 H2]. split; [|exact H2]. rewrite lookup_delete. case_decide; auto.
  - cbn [map]. apply NoDup_cons. split; [|exact G7]. cbn. intros (s & E1 & E2)%list_elem_of_fmap.
    destruct (G6 s E2) as [H1 _]. congruence.
  - intros k n' Hk. destruct (decide (k = l)) as [->|Nk]; [right; left|].
    rewrite lookup_delete_ne by auto. destruct (G8 _ _ Hk); [auto|right; now right].
Qed.

Lemma inv_close h F S l L e R a :
  inv h (L :: R :: F) (mk_shell l (root L) (root R) e a :: S) -> tsize (erase (nd l L e R)) < max_size ->
  inv (<[l := mk_node (root L) (root R) e (aug_of (erase (nd l L e R))) (tsize (erase (nd l L e R))) 1]> h) (nd l L e R :: F) S.
Proof.
  intros (G & GI) Hsz. set (T := nd l L e R) in *.
  destruct (gi_shell _ _ _ _ GI (mk_shell l (root L) (root R) e a)) as [Gl Hl]; [left|]. cbn in Gl, Hl.
  pose proof (nrefs_none _ _ _ _ l GI Gl) as N0. unfold nrefs in N0. rewrite !roots_cons in N0.
  pose proof (ind_nonneg (root L) l). pose proof (ind_nonneg (root R) l). pose proof (roots_nonneg F l). pose proof (edges_nonneg G l).
  pose proof (gi_roots _ _ _ _ GI) as HF. rewrite !Forall_cons in HF. destruct HF as (HL & HR & HF).
  assert (NR : forall k, k <> l -> nrefs (T :: F) (<[l := T]> G) k = nrefs (L :: R :: F) G k).
  { intros k Hk. unfold nrefs. rewrite !roots_cons, (edges_insert G l T k Gl). cbn [root T kids].
    rewrite (ind_ne (Some l) k) by congruence. lia. }
  assert (Nl : nrefs (T :: F) (<[l := T]> G) l = 1).
  { unfold nrefs. rewrite roots_cons, (edges_insert G l T l Gl). cbn [root T kids]. rewrite ind_same. lia. }
  exists (<[l := T]> G). destruct GI as [G1 G2 G3 G4 G5 G6 G7 G8]. cbn [map] in G7. apply NoDup_cons in G7 as [G7a G7b]. split.
  - intros k T' Hk. destruct (decide (k = l)) as [->|Nk].
    + rewrite lookup_insert_eq in Hk. injection Hk as <-. exists L, e, R. split; [reflexivity|].
      split; apply inG_insert; auto; apply ind_zero; lia.
    + rewrite lookup_insert_ne in Hk by auto. destruct (G1 _ _ Hk) as (L1 & e1 & R1 & -> & HL1 & HR1).
      exists L1, e1, R1. split; [reflexivity|]. split; apply inG_insert; eauto using inG_root.
  - apply Forall_cons. split; [cbn; apply lookup_insert_eq|].
    rewrite Forall_forall in *. intros T' HT'. apply inG_insert; eauto using inG_root.
  - intros k L1 e1 R1 Hk. destruct (decide (k = l)) as [->|Nk].
    + rewrite lookup_insert_eq in Hk. assert (ET : nd l L e R = nd l L1 e1 R1) by (fold T; congruence).
      injection ET as <- <- <-. rewrite lookup_insert_eq, Nl. reflexivity.
    + rewrite lookup_insert_ne in Hk by auto. rewrite lookup_insert_ne by auto. rewrite NR by auto. auto.
  - intros k T' Hk. destruct (decide (k = l)) as [->|Nk]; [rewrite lookup_insert_eq in Hk; injection Hk as <-; exact Hsz|].
    rewrite lookup_insert_ne in Hk by auto. eauto.
  - intros k T' Hk. destruct (decide (k = l)) as [->|Nk]; [rewrite Nl; lia|].
    rewrite lookup_insert_ne in Hk by auto. rewrite NR by auto. eauto.
  - intros s Hs. destruct (G6 s) as [H1' H2']; [now right|].
    assert (s_loc s <> l) by (intros Eq; apply G7a; cbn; apply list_elem_of_fmap; exists s; auto).
    rewrite !lookup_insert_ne by auto. auto.
  - exact G7b.
  - intros k n' Hk. destruct (decide (k = l)) as [->|Nk]; [left; rewrite lookup_insert_eq; eauto|].
    rewrite lookup_insert_ne in Hk by auto. rewrite lookup_insert_ne by auto. destruct (G8 _ _ Hk) as [|Hin]; [auto|]. cbn [map] in Hin. apply elem_of_cons in Hin as [Eq|]; [cbn in Eq; congruence|auto].
Qed.
(** *** Detached nodes *)

Lemma inv_make h F S l s e a z :
  inv h F S -> h !! l = None -> s_loc s = l -> s_entry s = e -> s_aug s = a ->
  inv (<[l := mk_node (s_lc s) (s_rc s) e a z 1]> h) F (s :: S).
Proof.
  intros (G & GI) Hl <- <- <-.
  assert (NG : forall k T, G !! k = Some T -> k <> s_loc s).
  { intros k T Hk ->. destruct (gi_tree _ _ _ _ GI _ _ Hk) as (L & e' & R & -> & _).
    rewrite (gi_node _ _ _ _ GI _ _ _ _ Hk) in Hl. discriminate. }
  exists G. destruct GI as [G1 G2 G3 G4 G5 G6 G7 G8]. split; auto.
  - intros k L1 e1 R1 Hk. rewrite lookup_insert_ne by eauto using not_eq_sym. auto.
  - intros s' [->|Hs]%elem_of_cons.
    + split; [|exists z; apply lookup_insert_eq]. destruct (G !! s_loc s) eqn:Eq; [|reflexivity]. now apply NG in Eq.
    + destruct (G6 s' Hs) as [H1 (z' & H2)]. split; [exact H1|exists z'].
      rewrite lookup_insert_ne; [exact H2|congruence].
  - cbn [map]. apply NoDup_cons. split; [|exact G7]. intros (s' & E1 & E2)%list_elem_of_fmap.
    destruct (G6 s' E2) as [_ (z' & H2)]. congruence.
  - intros k n Hk. destruct (decide (k = s_loc s)) as [->|Nk]; [right; left|].
    rewrite lookup_insert_ne in Hk by auto. destruct (G8 _ _ Hk); [auto|right; now right].
Qed.

Lemma inv_shell_node h F S s : inv h F (s :: S) -> exists z, h !! s_loc s = Some (mk_node (s_lc s) (s_rc s) (s_entry s) (s_aug s) z 1).
Proof. intros (G & GI). apply (gi_shell _ _ _ _ GI). left. Qed.

Lemma inv_free h F S s : inv h F (s :: S) -> inv (delete (s_loc s) h) F S.
Proof.
  intros (G & GI). exists G. destruct (gi_shell _ _ _ _ GI s) as [Gl Hl]; [left|].
  destruct GI as [G1 G2 G3 G4 G5 G6 G7 G8]. cbn [map] in *. apply NoDup_cons in G7 as [G7a G7b]. split; auto.
  - intros k L1 e1 R1 Hk. rewrite lookup_delete_ne by congruence. auto.
  - intros s' Hs. destruct (G6 s') as [H1 H2]; [now right|]. split; [exact H1|].
    rewrite lookup_delete_ne; [exact H2|]. intros Eq. apply G7a. apply list_elem_of_fmap. exists s'; auto.
  - intros k n Hk. apply lookup_delete_Some in Hk as [Nk Hk]. destruct (G8 _ _ Hk) as [|Hin]; [auto|].
    apply elem_of_cons in Hin as [|]; [congruence|auto].
Qed.

(** Writing to a detached node. *)
Lemma inv_shell_write h F S s s' z :
  inv h F (s :: S) -> s_loc s' = s_loc s ->
  inv (<[s_loc s := mk_node (s_lc s') (s_rc s') (s_entry s') (s_aug s') z 1]> h) F (s' :: S).
Proof.
  intros H Eq. rewrite <- insert_delete_eq. apply (inv_make _ _ _ (s_loc s) s' _ _ z); auto.
  - now apply inv_free.
  - apply lookup_delete_eq.
Qed.

(** *** References *)

Lemma inv_leaf h F S : inv h (lf :: F) S <-> inv h F S.
Proof.
  split; intros (G & [G1 G2 G3 G4 G5 G6 G7 G8]); exists G; split; auto.
  - now apply Forall_cons in G2.
  - apply Forall_cons. split; [exact I|exact G2].
Qed.

(** A node's count goes up or down by one with a reference of its own. *)
Lemma nrefs_cons l L e R F G k : nrefs (nd l L e R :: F) G k = nrefs F G k + (if decide (k = l) then 1 else 0).
Proof.
  unfold nrefs. rewrite roots_cons. cbn [root]. case_decide as D; [subst k; rewrite ind_same; lia|].
  rewrite ind_ne by congruence. lia.
Qed.

Lemma inv_count h F F' S l L e R d n :
  inv h F S -> pinned (nd l L e R) F -> h !! l = Some n ->
  (forall G k, nrefs F' G k = nrefs F G k + (if decide (k = l) then d else 0)) ->
  0 < ref_cnt n + d -> (forall G, Forall (inG G) F -> inG G (nd l L e R) -> Forall (inG G) F') ->
  inv (<[l := mk_node (lc n) (rc n) (entry n) (aug n) (sz n) (ref_cnt n + d)]> h) F' S.
Proof.
  intros (G & GI) HP Hn HN Hd HF'. pose proof (inG_pinned _ _ _ _ _ GI HP) as HT. cbn in HT.
  rewrite (gi_node _ _ _ _ GI _ _ _ _ HT) in Hn. injection Hn as <-. cbn [lc rc entry aug sz ref_cnt] in *.
  exists G. destruct GI as [G1 G2 G3 G4 G5 G6 G7 G8]. split; auto.
  - intros k L1 e1 R1 Hk. rewrite HN. destruct (decide (k = l)) as [->|Nk].
    + rewrite HT in Hk. injection Hk as <- <- <-. now rewrite lookup_insert_eq.
    + rewrite lookup_insert_ne, Z.add_0_r by auto. auto.
  - intros k T Hk. rewrite HN. destruct (decide (k = l)) as [->|Nk]; [lia|]. specialize (G5 _ _ Hk). lia.
  - intros s Hs. destruct (G6 s Hs) as [H1 H2]. split; [exact H1|]. rewrite lookup_insert_ne by congruence. exact H2.
  - intros k n Hk. destruct (decide (k = l)) as [->|Nk]; [left; eauto|]. rewrite lookup_insert_ne in Hk by auto. eauto.
Qed.

Lemma inv_inc h F S l L e R n :
  inv h F S -> pinned (nd l L e R) F -> h !! l = Some n ->
  inv (<[l := mk_node (lc n) (rc n) (entry n) (aug n) (sz n) (ref_cnt n + 1)]> h) (nd l L e R :: F) S.
Proof.
  intros H HP Hn. apply (inv_count h F _ S l L e R 1 n); auto.
  - intros G k. apply nrefs_cons.
  - destruct (inv_node _ _ _ _ _ _ _ H HP) as (c & Hc & Pc). rewrite Hn in Hc. injection Hc as ->. cbn. lia.
Qed.

Lemma inv_dec h F S l L e R n :
  inv h (nd l L e R :: F) S -> h !! l = Some n -> ref_cnt n <> 1 ->
  inv (<[l := mk_node (lc n) (rc n) (entry n) (aug n) (sz n) (ref_cnt n + -1)]> h) F S.
Proof.
  intros H Hn N. apply (inv_count h (nd l L e R :: F) F S l L e R (-1) n); auto using pinned_here.
  - intros G k. rewrite nrefs_cons. case_decide; lia.
  - destruct (inv_node _ _ _ _ _ _ _ H (pinned_here _ _)) as (c & Hc & Pc). rewrite Hn in Hc. injection Hc as ->. cbn in *. lia.
  - intros G HF _. now apply Forall_cons in HF.
Qed.

(** *** Nothing is held, nothing is allocated *)

Lemma edges_pos G l : 0 < edges G l -> exists k T, G !! k = Some T /\ 0 < kids T l.
Proof.
  induction G as [|k T G Hk IH] using map_ind; intros H; [unfold edges in H; rewrite map_fold_empty in H; lia|].
  rewrite edges_insert in H by exact Hk. destruct (Z.eq_dec (kids T l) 0) as [K|K].
  - destruct IH as (k' & T' & E' & P); [lia|]. exists k', T'. split; [|exact P]. rewrite lookup_insert_ne by congruence. exact E'.
  - exists k, T. pose proof (kids_nonneg T l). split; [apply lookup_insert_eq|lia].
Qed.

(** A node that is referred to has a parent, which is larger. *)
Lemma ginv_parent h G S l T : ginv h G [] S -> G !! l = Some T -> exists k T', G !! k = Some T' /\ tsize (erase T) < tsize (erase T').
Proof.
  intros GI HT. pose proof (gi_used _ _ _ _ GI l T HT) as U. unfold nrefs, roots in U. cbn in U.
  destruct (edges_pos G l ltac:(lia)) as (k & T' & HT' & K). exists k, T'. split; [exact HT'|].
  destruct (gi_tree _ _ _ _ GI k T' HT') as (L & e & R & -> & GL & GR). cbn [kids] in K.
  pose proof (tsize_nonneg (erase L)). pose proof (tsize_nonneg (erase R)). cbn [erase tsize].
  unfold ind in K. destruct (decide (root L = Some l)) as [EL|_]; [|destruct (decide (root R = Some l)) as [ER|_]; [|lia]].
  - destruct L as [|l' L1 e1 L2]; [discriminate|]. injection EL as ->. cbn in GL. rewrite HT in GL. injection GL as ->. lia.
  - destruct R as [|l' R1 e1 R2]; [discriminate|]. injection ER as ->. cbn in GR. rewrite HT in GR. injection GR as ->. lia.
Qed.

Lemma inv_empty : inv ∅ [] [].
Proof.
  exists ∅. split; try (intros; rewrite lookup_empty in *; discriminate); try (constructor; fail).
  intros s H. now apply not_elem_of_nil in H.
Qed.

Lemma inv_nothing h : inv h [] [] -> h = ∅.
Proof.
  intros (G & GI). apply map_empty. intros l. destruct (h !! l) as [n|] eqn:Hl; [exfalso|reflexivity].
  destruct (gi_dom _ _ _ _ GI l n Hl) as [[T HT]|H]; [|cbn in H; now apply not_elem_of_nil in H].
  clear Hl. remember (Z.to_nat (max_size - tsize (erase T))) as m eqn:Em. revert l T HT Em.
  induction m as [m IH] using lt_wf_ind. intros l T HT Em. pose proof (gi_size _ _ _ _ GI l T HT).
  destruct (ginv_parent _ _ _ _ _ GI HT) as (k & T' & HT' & L). pose proof (gi_size _ _ _ _ GI k T' HT').
  apply (IH (Z.to_nat (max_size - tsize (erase T')))) with k T'; auto; lia.
Qed.
End Prims.
