(* ===== verification/PamGC.v ===== *)
(** * Specifications of the node and reference-count operations

    What the operations of [PamStore] do to the trees and detached nodes of a store, and
    the pattern all operations on trees follow: a node is taken apart and reused if it is
    not shared, else its children are borrowed and the node is copied. *)

From S2P Require Import Prelude PamTree PamStore PamPrims.
From stdpp Require Import base option list gmap.
Import PamTree PamStore PamPrims.
#[local] Open Scope Z_scope.

(** Permutations of explicit lists. *)
Ltac perm_solve :=
  lazymatch goal with
  | |- ?l ≡ₚ ?l => reflexivity
  | |- _ :: _ ≡ₚ _ =>
    first [ apply Permutation_skip; perm_solve
          | refine (Permutation_cons_app [_] _ _ _); cbn [app]; perm_solve
          | refine (Permutation_cons_app [_; _] _ _ _); cbn [app]; perm_solve
          | refine (Permutation_cons_app [_; _; _] _ _ _); cbn [app]; perm_solve
          | refine (Permutation_cons_app [_; _; _; _] _ _ _); cbn [app]; perm_solve ]
  end.

(** An invariant with its lists in another order. *)
Ltac inv_solve := eapply inv_perm; [eassumption|perm_solve|perm_solve].

Section GC.
Context {E : Entry} {A : Allocator} {AO : AllocatorOk A}.
Implicit Types (F : list ltree) (S : list shell) (h : heap).

(** ** Nodes *)

Lemma wp_size h F S T (Q : Z -> heap -> Prop) :
  inv h F S -> pinned T F -> Q (tsize (erase T)) h -> wp (size (root T)) Q h.
Proof.
  intros H HP HQ. destruct T as [|l L e R]; [exact HQ|]. destruct (inv_node _ _ _ _ _ _ _ H HP) as (c & Hc & _).
  apply wp_bind, (wp_load _ _ _ _ Hc). exact HQ.
Qed.

Lemma wp_get_entry h F S l L e R (Q : entry_t -> heap -> Prop) :
  inv h F S -> pinned (nd l L e R) F -> Q e h -> wp (get_entry (Some l)) Q h.
Proof.
  intros H HP HQ. destruct (inv_node _ _ _ _ _ _ _ H HP) as (c & Hc & _).
  apply wp_bind, (wp_load _ _ _ _ Hc). exact HQ.
Qed.

Lemma wp_basic_make_node h F S e a (Q : ptr -> heap -> Prop) :
  inv h F S -> (forall s h', s_entry s = e -> s_aug s = a -> inv h' F (s :: S) -> Q (Some (s_loc s)) h') ->
  wp (basic_make_node (e, a)) Q h.
Proof.
  intros H HQ. apply (HQ (mk_shell (alloc_at h) (raw_lc h) (raw_rc h) e a)); [reflexivity..|].
  apply (inv_make h F S _ (mk_shell (alloc_at h) (raw_lc h) (raw_rc h) e a) _ _ _ H (alloc_fresh h)); reflexivity.
Qed.

Lemma wp_make_node h F S e (Q : ptr -> heap -> Prop) :
  inv h F S -> (forall s h', s_entry s = e -> inv h' F (s :: S) -> Q (Some (s_loc s)) h') -> wp (make_node e) Q h.
Proof. intros H HQ. apply (wp_basic_make_node _ _ _ _ _ _ H). intros; eauto. Qed.

(** Writing a field of a detached node. *)
Lemma wp_store_shell h F S s s' f (Q : unit -> heap -> Prop) :
  inv h F (s :: S) -> s_loc s' = s_loc s ->
  (forall z, exists z', f (mk_node (s_lc s) (s_rc s) (s_entry s) (s_aug s) z 1) = mk_node (s_lc s') (s_rc s') (s_entry s') (s_aug s') z' 1) ->
  (forall h', inv h' F (s' :: S) -> Q tt h') -> wp (store (Some (s_loc s)) f) Q h.
Proof.
  intros H Eq Hf HQ. destruct (inv_shell_node _ _ _ _ H) as (z & Hz). apply (wp_store _ _ _ _ _ Hz).
  apply HQ. destruct (Hf z) as (z' & ->). now apply (inv_shell_write _ _ _ s s').
Qed.

Lemma wp_set_lc h F S s v (Q : unit -> heap -> Prop) :
  inv h F (s :: S) -> (forall h', inv h' F (mk_shell (s_loc s) v (s_rc s) (s_entry s) (s_aug s) :: S) -> Q tt h') ->
  wp (set_lc (Some (s_loc s)) v) Q h.
Proof.
  intros H HQ. apply (wp_store_shell _ _ _ s (mk_shell (s_loc s) v (s_rc s) (s_entry s) (s_aug s)) _ _ H eq_refl); [|exact HQ].
  intros z. exists z. reflexivity.
Qed.

Lemma wp_set_rc h F S s v (Q : unit -> heap -> Prop) :
  inv h F (s :: S) -> (forall h', inv h' F (mk_shell (s_loc s) (s_lc s) v (s_entry s) (s_aug s) :: S) -> Q tt h') ->
  wp (set_rc (Some (s_loc s)) v) Q h.
Proof.
  intros H HQ. apply (wp_store_shell _ _ _ s (mk_shell (s_loc s) (s_lc s) v (s_entry s) (s_aug s)) _ _ H eq_refl); [|exact HQ].
  intros z. exists z. reflexivity.
Qed.

Lemma wp_set_entry h F S s v (Q : unit -> heap -> Prop) :
  inv h F (s :: S) -> (forall h', inv h' F (mk_shell (s_loc s) (s_lc s) (s_rc s) v (s_aug s) :: S) -> Q tt h') ->
  wp (set_entry (Some (s_loc s)) v) Q h.
Proof.
  intros H HQ. apply (wp_store_shell _ _ _ s (mk_shell (s_loc s) (s_lc s) (s_rc s) v (s_aug s)) _ _ H eq_refl); [|exact HQ].
  intros z. exists z. reflexivity.
Qed.

Lemma wp_load_shell h F S s (Q : node -> heap -> Prop) :
  inv h F (s :: S) -> (forall z, Q (mk_node (s_lc s) (s_rc s) (s_entry s) (s_aug s) z 1) h) -> wp (load (Some (s_loc s))) Q h.
Proof. intros H HQ. destruct (inv_shell_node _ _ _ _ H) as (z & Hz). exact (wp_load _ _ _ _ Hz (HQ z)). Qed.

(** The root of [T] is not shared. *)
Definition unique h (T : ltree) : Prop :=
  match T with lf => True | nd l _ _ _ => exists n, h !! l = Some n /\ ref_cnt n = 1 end.

(** Writing to a detached node leaves the trees' nodes alone. *)
Lemma unique_shell_write h F S s T n : inv h F (s :: S) -> pinned T F -> unique h T -> unique (<[s_loc s := n]> h) T.
Proof.
  intros (G & GI) HP U. destruct T as [|l L e R]; [exact I|]. destruct U as (m & Hm & Um).
  exists m. split; [|exact Um]. rewrite lookup_insert_ne; [exact Hm|].
  destruct (gi_shell _ _ _ _ GI s) as [Gl _]; [left|]. pose proof (inG_pinned _ _ _ _ _ GI HP) as HT. cbn in HT. congruence.
Qed.

Lemma tsize_bin_bound l L e R : tsize (erase (nd l L e R)) = tsize (erase L) + tsize (erase R) + 1.
Proof. reflexivity. Qed.

(** The augmented value of a child, if it is there. *)
Lemma wp_child_aug h F S T d (f : aug_t -> aug_t) (Q : aug_t -> heap -> Prop) :
  inv h F S -> pinned T F -> Q (match erase T with leaf => d | _ => f (aug_of (erase T)) end) h ->
  wp (match root T with Some _ => n ← load (root T); mret (f (aug n)) | None => mret d end) Q h.
Proof.
  intros H HP HQ. destruct T as [|l L e R]; [exact HQ|]. destruct (inv_node _ _ _ _ _ _ _ H HP) as (c & Hc & _).
  apply wp_bind, (wp_load _ _ _ _ Hc). exact HQ.
Qed.

(** [update] links a detached node whose children are set. *)
Lemma wp_update h F S l L e R a (Q : unit -> heap -> Prop) :
  inv h (L :: R :: F) (mk_shell l (root L) (root R) e a :: S) -> tsize (erase L) + tsize (erase R) + 1 < max_size ->
  (forall h', inv h' (nd l L e R :: F) S -> unique h' (nd l L e R) -> Q tt h') -> wp (update (Some l)) Q h.
Proof.
  intros H Hsz HQ. unfold update, basic_update.
  assert (HL : pinned L (L :: R :: F)) by apply pinned_here.
  assert (HR : pinned R (L :: R :: F)) by apply pinned_cons, pinned_here.
  apply wp_bind, wp_bind, (wp_load_shell _ _ _ _ _ H). intros z. cbn [lc rc s_lc s_rc s_entry s_aug].
  apply wp_bind, (wp_size _ _ _ _ _ H HL), wp_bind, (wp_size _ _ _ _ _ H HR).
  destruct (inv_shell_node _ _ _ _ H) as (z1 & Hz). cbn [s_loc s_lc s_rc s_entry s_aug] in Hz.
  apply (wp_store _ _ _ _ _ Hz). set (h1 := <[l := _]> h).
  assert (H1 : inv h1 (L :: R :: F) (mk_shell l (root L) (root R) e a :: S)).
  { exact (inv_shell_write _ _ _ _ (mk_shell l (root L) (root R) e a) (u32 (tsize (erase L) + tsize (erase R) + 1)) H eq_refl). }
  apply wp_bind. eapply (wp_load l); [apply lookup_insert_eq|]. cbn [lc rc entry].
  apply wp_bind.
  apply (wp_child_aug _ _ _ L (from_entry e) (fun a' => PamTree.combine a' (from_entry e)) _ H1 HL), wp_bind.
  set (av := match erase L with leaf => _ | _ => _ end).
  apply (wp_child_aug _ _ _ R av (PamTree.combine av) _ H1 HR).
  eapply (wp_store l); [apply lookup_insert_eq|]. cbn [lc rc entry aug sz ref_cnt].
  unfold h1. rewrite insert_insert_eq.
  pose proof (tsize_nonneg (erase L)). pose proof (tsize_nonneg (erase R)). unfold max_size in Hsz.
  replace (u32 (tsize (erase L) + tsize (erase R) + 1)) with (tsize (erase (nd l L e R)))
    by (cbn; unfold u32, uwrap; rewrite Z.mod_small; lia).
  change (match erase R with leaf => av | _ => _ end) with (aug_of (erase (nd l L e R))).
  apply HQ; [exact (inv_close _ _ _ _ _ _ _ _ H Hsz)|]. cbn. eexists. split; [apply lookup_insert_eq|reflexivity].
Qed.
(** ** Counts *)

Lemma wp_increment h F S T (Q : unit -> heap -> Prop) :
  inv h F S -> pinned T F -> (forall h', inv h' (T :: F) S -> Q tt h') -> wp (increment (root T)) Q h.
Proof.
  intros H HP HQ. destruct T as [|l L e R]; [apply HQ; now apply inv_leaf|].
  destruct (inv_node _ _ _ _ _ _ _ H HP) as (c & Hc & _). apply (wp_store _ _ _ _ _ Hc).
  apply HQ. exact (inv_inc _ _ _ _ _ _ _ _ H HP Hc).
Qed.

(** Dropping the only reference to a node frees it, and passes its children on. *)
Lemma wp_decrement h F S l L e R (Q : bool -> heap -> Prop) :
  inv h (nd l L e R :: F) S ->
  (forall h', inv h' F S -> Q false h') -> (forall h', inv h' (L :: R :: F) S -> Q true h') ->
  wp (decrement (Some l)) Q h.
Proof.
  intros H Q0 Q1. destruct (inv_node _ _ _ _ _ _ _ H (pinned_here _ _)) as (c & Hc & _).
  apply wp_bind, (wp_load _ _ _ _ Hc), wp_bind, (wp_store _ _ _ _ _ Hc). cbn [ref_cnt].
  destruct (Z.eqb_spec c 1) as [->|N].
  - apply wp_bind. unfold wp, free_node. rewrite lookup_insert_eq, delete_insert_eq. apply Q1.
    apply (inv_free _ _ _ (shell_of l L e R)). now apply (inv_open _ _ _ _ _ _ _ _ H Hc).
  - apply Q0. exact (inv_dec _ _ _ _ _ _ _ _ H Hc N).
Qed.

Lemma wp_decrement_shell h F S s (Q : bool -> heap -> Prop) :
  inv h F (s :: S) -> (forall h', inv h' F S -> Q true h') -> wp (decrement (Some (s_loc s))) Q h.
Proof.
  intros H HQ. destruct (inv_shell_node _ _ _ _ H) as (z & Hz).
  apply wp_bind, (wp_load _ _ _ _ Hz), wp_bind, (wp_store _ _ _ _ _ Hz). cbn [ref_cnt Z.eqb Pos.eqb].
  apply wp_bind. unfold wp at 1, free_node. rewrite lookup_insert_eq, delete_insert_eq.
  apply wp_ret, HQ. exact (inv_free _ _ _ _ H).
Qed.

Lemma wp_decrement_recursive T : forall fuel h F S (Q : bool -> heap -> Prop),
  (tdepth (erase T) < fuel)%nat -> inv h (T :: F) S -> (forall b h', inv h' F S -> Q b h') ->
  wp (decrement_recursive fuel (root T)) Q h.
Proof.
  induction T as [|l L IHL e R IHR]; intros fuel h F S Q Hf H HQ; (destruct fuel as [|fuel]; [lia|]).
  - apply HQ. now apply inv_leaf.
  - cbn [decrement_recursive root]. cbn [erase tdepth] in Hf.
    assert (FL : (tdepth (erase L) < fuel)%nat) by lia. assert (FR : (tdepth (erase R) < fuel)%nat) by lia.
    destruct (inv_node _ _ _ _ _ _ _ H (pinned_here _ _)) as (c & Hc & _).
    apply wp_bind, (wp_load _ _ _ _ Hc). cbn [lc rc]. apply wp_bind, (wp_decrement _ _ _ _ _ _ _ _ H).
    + intros h1 H1. now apply HQ.
    + intros h1 H1. apply wp_bind, (wp_size _ _ _ _ _ H1 (pinned_here _ _)).
      apply wp_bind. unfold fork. apply wp_bind, (IHL _ _ _ _ _ FL H1). intros b1 h2 H2.
      apply wp_bind, (IHR _ _ _ _ _ FR H2). intros b2 h3 H3. now apply HQ.
Qed.

Lemma wp_copy h F S l L e R (Q : ptr -> heap -> Prop) :
  inv h F S -> pinned (nd l L e R) F ->
  (forall h' l' a, inv h' (L :: R :: F) (mk_shell l' (root L) (root R) e a :: S) -> Q (Some l') h') ->
  wp (copy (Some l)) Q h.
Proof.
  intros H HP HQ. apply wp_bind, (wp_get_entry _ _ _ _ _ _ _ _ H HP).
  apply wp_bind, (wp_make_node _ _ _ _ _ H). intros s h1 Es H1.
  destruct (inv_node _ _ _ _ _ _ _ H1 HP) as (c1 & Hc1 & _).
  apply wp_bind, (wp_load _ _ _ _ Hc1). cbn [lc]. apply wp_bind. unfold inc.
  apply wp_bind, (wp_increment _ _ _ _ _ H1 (pinned_left _ _ _ _ _ HP)). intros h2 H2.
  apply wp_ret, wp_bind, (wp_set_lc _ _ _ _ _ _ H2). intros h3 H3.
  destruct (inv_node _ _ _ _ _ _ _ H3 (pinned_cons _ _ _ HP)) as (c3 & Hc3 & _).
  apply wp_bind, (wp_load _ _ _ _ Hc3). cbn [rc]. apply wp_bind, wp_bind.
  apply (wp_increment _ _ _ _ _ H3 (pinned_cons _ _ _ (pinned_right _ _ _ _ _ HP))). intros h4 H4.
  apply wp_ret, wp_bind, (wp_set_rc _ _ _ _ _ _ H4). intros h5 H5. cbn [s_loc s_lc s_rc s_entry s_aug] in H5.
  rewrite Es in H5. apply wp_ret, (HQ _ _ (s_aug s)). inv_solve.
Qed.

(** A node of one's own with the contents and the children of the given one. *)
Lemma wp_copy_if_needed fuel h F S l L e R (Q : ptr -> heap -> Prop) :
  (tdepth (erase (nd l L e R)) < fuel)%nat -> inv h (nd l L e R :: F) S ->
  (forall h' l' a, inv h' (L :: R :: F) (mk_shell l' (root L) (root R) e a :: S) -> Q (Some l') h') ->
  wp (copy_if_needed fuel (Some l)) Q h.
Proof.
  intros Hf H HQ. destruct (inv_node _ _ _ _ _ _ _ H (pinned_here _ _)) as (c & Hc & Pc).
  apply wp_bind, (wp_load _ _ _ _ Hc). cbn [ref_cnt]. destruct (Z.ltb_spec 1 c) as [L1|L1].
  - apply wp_bind, (wp_copy _ _ _ _ _ _ _ _ H (pinned_here _ _)). intros h1 l' a H1.
    apply wp_bind, (wp_decrement_recursive (nd l L e R) fuel _ (L :: R :: F) (mk_shell l' (root L) (root R) e a :: S)); [exact Hf|inv_solve|].
    intros b h2 H2. apply wp_ret, (HQ _ _ _ H2).
  - apply wp_ret, HQ with (a := aug_of (erase (nd l L e R))). apply (inv_open _ _ _ _ _ _ _ _ H Hc). cbn. lia.
Qed.
(** ** Reuse or copy

    An operation that takes a tree owns it, or borrows it if there is an extra pointer to
    it that is not counted. *)

Definition held (extra : bool) (T : ltree) (F : list ltree) : list ltree := if extra then F else T :: F.

(** The result is a tree of one's own with the value [t]. *)
Definition gives (t : tree) F S (p : ptr) h : Prop := exists T, p = root T /\ erase T = t /\ inv h (T :: F) S.

(** [m] turns the tree [T] into a tree with the value [t], and keeps everything else.  It
    may use up the tree [D], and look at the tree [X]. *)
Definition refines (extra : bool) (T D X : ltree) (m : mem ptr) (t : tree) : Prop :=
  forall h F S, inv h (held extra T (D :: F)) S -> (extra = true -> pinned T F) -> pinned X F ->
  wp m (gives t F S) h.

Lemma held_cons extra T D F : held extra T (D :: F) ≡ₚ D :: held extra T F.
Proof. destruct extra; cbn; [reflexivity|apply Permutation_swap]. Qed.

Lemma pinned_held extra T F : (extra = true -> pinned T F) -> pinned T (held extra T F).
Proof. destruct extra; cbn; auto using pinned_here. Qed.

Lemma pinned_held_other extra T X F : pinned X F -> pinned X (held extra T F).
Proof. destruct extra; cbn; auto using pinned_cons. Qed.

Lemma refines_inc_if copy T X : refines copy T lf X (inc_if (root T) copy) (erase T).
Proof.
  intros h F S H HP _. apply (inv_perm _ _ (lf :: held copy T F) S S) in H; [|apply held_cons|reflexivity].
  apply (proj1 (inv_leaf _ _ _)) in H. destruct copy; cbn [held] in H; apply wp_bind.
  - apply (wp_increment _ _ _ _ _ H (HP eq_refl)). intros h1 H1. apply wp_ret. exists T. auto.
  - apply wp_ret, wp_ret. exists T. auto.
Qed.

(** The node [T] when its children have become [L'] and [R']: it is detached, or, if it is
    to be copied, still held. *)
Definition parts (copy extra : bool) l L e R L' R' F S h : Prop :=
  let T := nd l L e R in
  if copy then inv h (L' :: R' :: held extra T F) S /\ (extra = true -> pinned T F)
  else extra = false /\ inv h (L' :: R' :: F) (shell_of l L e R :: S).

Lemma parts_swap copy extra l L e R L' R' F S h :
  parts copy extra l L e R L' R' F S h -> parts copy extra l L e R R' L' F S h.
Proof. destruct copy; intros [H1 H2]; split; auto; inv_solve. Qed.

(** The node [T] before its children have been used: taken apart, or lent if it is to be
    copied.  The trees [D] are there besides. *)
Definition lent (copy extra : bool) l L e R (D : list ltree) F S h : Prop :=
  let T := nd l L e R in
  if copy then inv h (D ++ held extra T F) S /\ (extra = true -> pinned T F)
  else extra = false /\ inv h (L :: R :: D ++ F) (shell_of l L e R :: S).

Lemma held_app x T D F : held x T (D ++ F) ≡ₚ D ++ held x T F.
Proof. destruct x; cbn; [reflexivity|]. apply Permutation_middle. Qed.

(** The test all operations make. *)
Lemma lent_intro x l L e R D F S h n :
  inv h (held x (nd l L e R) (D ++ F)) S -> (x = true -> pinned (nd l L e R) F) -> h !! l = Some n ->
  lent (x || (1 <? ref_cnt n)) x l L e R D F S h.
Proof.
  intros H HP Hn. destruct (x || (1 <? ref_cnt n)) eqn:C; cbn.
  - split; [|exact HP]. eapply inv_perm; [exact H|apply held_app|reflexivity].
  - apply orb_false_iff in C as [-> C]. apply Z.ltb_ge in C. split; [reflexivity|]. cbn [held] in H.
    destruct (inv_node _ _ _ _ _ _ _ H (pinned_here _ _)) as (c & Ec & Pc). rewrite Hn in Ec. injection Ec as ->. cbn in C.
    apply (inv_open _ _ _ _ _ _ _ _ H Hn). cbn. lia.
Qed.

Section Children.
Context (h : heap) (F : list ltree) (S : list shell) (l : positive) (L : ltree) (e : entry_t) (R : ltree).
Context (extra copy : bool) (DL DR X : ltree).
Hypothesis H : lent copy extra l L e R [DL; DR] F S h.
Hypothesis HX : pinned X F.

(** Both children are handed over, or lent. *)
Lemma wp_children_rl {T} ml mr tl tr (k : ptr -> ptr -> mem T) (Q : T -> heap -> Prop) :
  refines copy L DL X ml tl -> refines copy R DR X mr tr ->
  (forall h' L' R', erase L' = tl -> erase R' = tr -> parts copy extra l L e R L' R' F S h' -> wp (k (root L') (root R')) Q h') ->
  wp (y ← mr; x ← ml; k x y) Q h.
Proof.
  intros HL HR HQ. destruct copy; destruct H as [H1 H2]; cbn [app] in *.
  - assert (HT : pinned (nd l L e R) (held extra (nd l L e R) F)) by now apply pinned_held.
    assert (HX' : pinned X (held extra (nd l L e R) F)) by now apply pinned_held_other.
    eapply wp_seq; [apply (HR _ (DL :: held extra (nd l L e R) F) S); [cbn; inv_solve|eauto using pinned_right, pinned_cons..]|].
    intros p h1 (R' & -> & ER & H1').
    eapply wp_seq; [apply (HL _ (R' :: held extra (nd l L e R) F) S); [cbn; inv_solve|eauto using pinned_left, pinned_cons..]|].
    intros p h2 (L' & -> & EL & H2'). apply HQ; auto. split; auto.
  - eapply wp_seq; [apply (HR _ (L :: DL :: F) (shell_of l L e R :: S)); [cbn; inv_solve|discriminate|auto using pinned_cons]|].
    intros p h1 (R' & -> & ER & H1').
    eapply wp_seq; [apply (HL _ (R' :: F) (shell_of l L e R :: S)); [cbn; inv_solve|discriminate|auto using pinned_cons]|].
    intros p h2 (L' & -> & EL & H2'). apply HQ; auto. split; auto.
Qed.

Lemma wp_children {T} ml mr tl tr (k : ptr -> ptr -> mem T) (Q : T -> heap -> Prop) :
  refines copy L DL X ml tl -> refines copy R DR X mr tr ->
  (forall h' L' R', erase L' = tl -> erase R' = tr -> parts copy extra l L e R L' R' F S h' -> wp (k (root L') (root R')) Q h') ->
  wp (x ← ml; y ← mr; k x y) Q h.
Proof.
  intros HL HR HQ. destruct copy; destruct H as [H1 H2]; cbn [app] in *.
  - assert (HT : pinned (nd l L e R) (held extra (nd l L e R) F)) by now apply pinned_held.
    assert (HX' : pinned X (held extra (nd l L e R) F)) by now apply pinned_held_other.
    eapply wp_seq; [apply (HL _ (DR :: held extra (nd l L e R) F) S); [cbn; inv_solve|eauto using pinned_left, pinned_cons..]|].
    intros p h1 (L' & -> & EL & H1').
    eapply wp_seq; [apply (HR _ (L' :: held extra (nd l L e R) F) S); [cbn; inv_solve|eauto using pinned_right, pinned_cons..]|].
    intros p h2 (R' & -> & ER & H2'). apply HQ; auto. split; auto. inv_solve.
  - eapply wp_seq; [apply (HL _ (R :: DR :: F) (shell_of l L e R :: S)); [cbn; inv_solve|discriminate|auto using pinned_cons]|].
    intros p h1 (L' & -> & EL & H1').
    eapply wp_seq; [apply (HR _ (L' :: F) (shell_of l L e R :: S)); [cbn; inv_solve|discriminate|auto using pinned_cons]|].
    intros p h2 (R' & -> & ER & H2'). apply HQ; auto. split; auto. inv_solve.
Qed.

(** The same in a fork. *)
Lemma wp_fork_children {T} par ml mr tl tr (k : ptr * ptr -> mem T) (Q : T -> heap -> Prop) :
  refines copy L DL X ml tl -> refines copy R DR X mr tr ->
  (forall h' L' R', erase L' = tl -> erase R' = tr -> parts copy extra l L e R L' R' F S h' -> wp (k (root L', root R')) Q h') ->
  wp (p ← fork par ml mr; k p) Q h.
Proof.
  intros HL HR HQ. pose proof (wp_children ml mr tl tr (fun x y => k (x, y)) Q HL HR HQ) as W.
  revert W. unfold wp, fork, mbind, mem_bind, mret, mem_ret. destruct (ml h) as [[x h1]|]; [|auto]. now destruct (mr h1) as [[y h2]|].
Qed.
End Children.

Lemma wp_copy_if fuel copy extra l L e R L' R' F S h (Q : ptr -> heap -> Prop) :
  (tdepth (erase (nd l L e R)) < fuel)%nat -> parts copy extra l L e R L' R' F S h ->
  (forall h' s, s_entry s = e -> inv h' (L' :: R' :: F) (s :: S) -> Q (Some (s_loc s)) h') ->
  wp (copy_if fuel (Some l) copy extra) Q h.
Proof.
  intros Hf HPa HQ. destruct copy; destruct HPa as [H HP].
  - assert (HT : pinned (nd l L e R) (L' :: R' :: held extra (nd l L e R) F)) by auto using pinned_cons, pinned_held.
    apply wp_bind, (wp_get_entry _ _ _ _ _ _ _ _ H HT), wp_bind, (wp_make_node _ _ _ _ _ H). intros s h1 Es H1.
    destruct extra; cbn [held] in H1; apply wp_bind.
    + apply wp_ret, wp_ret, HQ; auto.
    + apply wp_bind, (wp_decrement_recursive (nd l L e R) fuel _ (L' :: R' :: F) (s :: S)); [exact Hf|inv_solve|].
      intros b h2 H2. apply wp_ret, wp_ret, HQ; auto.
  - apply wp_ret, (HQ _ (shell_of l L e R)); auto.
Qed.

Lemma wp_dec_if fuel copy extra l L e R L' R' F S h (Q : unit -> heap -> Prop) :
  (tdepth (erase (nd l L e R)) < fuel)%nat -> parts copy extra l L e R L' R' F S h ->
  (forall h', inv h' (L' :: R' :: F) S -> Q tt h') -> wp (dec_if fuel (Some l) copy extra) Q h.
Proof.
  intros Hf HPa HQ. unfold dec_if. destruct copy; destruct HPa as [H HP].
  - destruct extra; cbn [held] in H; [apply wp_ret, HQ, H|].
    apply wp_bind, (wp_decrement_recursive (nd l L e R) fuel _ (L' :: R' :: F) S); [exact Hf|inv_solve|].
    intros b h2 H2. apply wp_ret, HQ, H2.
  - subst extra. apply wp_bind, (wp_decrement_shell _ _ _ _ _ HP). intros h1 H1. apply wp_ret, HQ, H1.
Qed.
End GC.
