(* ===== verification/PamJoin.v ===== *)
(** * Join on the store ([trees/balance_utils.h], [trees/weight_balanced_tree.h])

    The rotations and joins of Aspen's trees work in place on the nodes that are not
    shared.  They refine the join of trees as values, [PamTree.node_join]; the tests of
    the balance criterion in double precision decide it exactly. *)

From S2P Require Import Prelude Doubles PamTree PamStore PamPrims PamGC.
From Stdlib Require Import SpecFloat.
From stdpp Require Import base option list gmap.
Import PamTree PamStore PamPrims PamGC.
#[local] Open Scope Z_scope.

Ltac size_pos t := let Sz := fresh "Sz" in pose proof (tsize_nonneg t) as Sz.

(** ** The balance criterion *)

Definition alpha : spec_float := f64_div (f64 29) (f64 100).
Definition ratio : spec_float := f64_div alpha (f64_sub (f64 1) alpha).
Definition beta : spec_float := f64_div (f64_sub (f64 1) (f64_mul (f64 2) alpha)) (f64_sub (f64 1) alpha).

Lemma ratio_exact n w : 0 < n <= 2 ^ 32 -> 0 < w <= 2 ^ 32 -> SFltb (f64 n) (f64_mul ratio (f64 w)) = (71 * n <? 29 * w).
Proof.
  intros Hn Hw. change ratio with (S754_finite false 7357993757394050 (-54)).
  apply less_than_multiple; auto; try lia. unfold normal. lia.
Qed.

Lemma beta_exact n w : 0 < n <= 2 ^ 32 -> 0 < w <= 2 ^ 32 -> SFleb (f64 n) (f64_mul beta (f64 w)) = (71 * n <=? 42 * w).
Proof.
  intros Hn Hw. change beta with (S754_finite false 5328202376043968 (-53)).
  apply at_most_multiple; auto; try lia. unfold normal. lia.
Qed.

Section Join.
Context {E : Entry} {A : Allocator}.

Definition weight (t : ptr) : mem spec_float := n ← size t; mret (f64 (u32 (n + 1))).

Definition is_left_heavy (t1 t2 : ptr) : mem bool :=
  w1 ← weight t1; w2 ← weight t2; mret (SFltb w2 (f64_mul ratio w1)).

(** [dir]: whether the right child's weight is the one to look at. *)
Definition is_single_rotation (t : ptr) (dir : bool) : mem bool :=
  n ← load t;
  balance ← (if dir then weight n.(rc) else weight n.(lc));
  w ← weight t;
  mret (SFleb balance (f64_mul beta w)).

Definition is_balanced (t : ptr) : mem bool :=
  match t with
  | None => mret true
  | Some _ =>
    n ← load t;
    a ← is_left_heavy n.(lc) n.(rc);
    if a : bool then mret false else b ← is_left_heavy n.(rc) n.(lc); mret (negb b)
  end.

(** ** Rotations *)

Definition rotate_right (t : ptr) : mem ptr :=
  n ← load t; let root := n.(lc) in
  r ← load root; let rsub := r.(rc) in
  set_rc root t;; set_lc t rsub;;
  r ← load root; update r.(rc);;
  update root;;
  mret root.

Definition rotate_left (t : ptr) : mem ptr :=
  n ← load t; let root := n.(rc) in
  r ← load root; let lsub := r.(lc) in
  set_lc root t;; set_rc t lsub;;
  r ← load root; update r.(lc);;
  update root;;
  mret root.

Definition double_rotate_right (fuel : nat) (t : ptr) : mem ptr :=
  n ← load t; let l := n.(lc) in
  ln ← load l; root ← copy_if_needed fuel ln.(rc);
  rn ← load root; set_rc l rn.(lc);;
  update l;;
  set_lc root l;;
  set_lc t root;;
  rotate_right t.

Definition double_rotate_left (fuel : nat) (t : ptr) : mem ptr :=
  n ← load t; let r := n.(rc) in
  rn ← load r; root ← copy_if_needed fuel rn.(lc);
  rootn ← load root; set_lc r rootn.(rc);;
  update r;;
  set_rc root r;;
  set_rc t root;;
  rotate_left t.

(** ** Join *)

(** A version without rotation. *)
Definition balanced_join (l r e : ptr) : mem ptr := set_lc e l;; set_rc e r;; update e;; mret e.

Fixpoint right_join (fuel : nat) (t1 t2 k : ptr) : mem ptr :=
  match fuel with
  | O => undefined
  | S fuel =>
    hv ← is_left_heavy t1 t2;
    if negb hv then balanced_join t1 t2 k else
    t ← copy_if_needed fuel t1;
    n ← load t; r ← right_join fuel n.(rc) t2 k; set_rc t r;;
    n ← load t; hv ← is_left_heavy n.(rc) n.(lc);
    if hv : bool then
      sg ← is_single_rotation n.(rc) false;
      if sg : bool then rotate_left t else double_rotate_left fuel t
    else update t;; mret t
  end.

Fixpoint left_join (fuel : nat) (t1 t2 k : ptr) : mem ptr :=
  match fuel with
  | O => undefined
  | S fuel =>
    hv ← is_left_heavy t2 t1;
    if negb hv then balanced_join t1 t2 k else
    t ← copy_if_needed fuel t2;
    n ← load t; l ← left_join fuel t1 n.(lc) k; set_lc t l;;
    n ← load t; hv ← is_left_heavy n.(lc) n.(rc);
    if hv : bool then
      sg ← is_single_rotation n.(lc) true;
      if sg : bool then rotate_right t else double_rotate_right fuel t
    else update t;; mret t
  end.

Definition node_join (fuel : nat) (t1 t2 k : ptr) : mem ptr :=
  hv ← is_left_heavy t1 t2;
  if hv : bool then right_join fuel t1 t2 k else
  hv ← is_left_heavy t2 t1;
  if hv : bool then left_join fuel t1 t2 k else
  balanced_join t1 t2 k.

(** ** Specifications *)

Context {AO : AllocatorOk A}.
Implicit Types (F : list ltree) (S : list shell) (h : heap).

Lemma wp_weight h F S T (Q : spec_float -> heap -> Prop) :
  inv h F S -> pinned T F -> Q (f64 (tweight (erase T))) h -> wp (weight (root T)) Q h.
Proof.
  intros H HP HQ. apply wp_bind, (wp_size _ _ _ _ _ H HP), wp_ret.
  pose proof (inv_size _ _ _ _ H HP) as B. pose proof (tsize_nonneg (erase T)). unfold max_size in B.
  replace (u32 (tsize (erase T) + 1)) with (tweight (erase T)); [exact HQ|].
  unfold u32, uwrap, tweight. rewrite Z.mod_small; lia.
Qed.

Lemma tweight_range h F S T : inv h F S -> pinned T F -> 0 < tweight (erase T) <= 2 ^ 32.
Proof.
  intros H HP. pose proof (inv_size _ _ _ _ H HP) as B. pose proof (tsize_nonneg (erase T)).
  unfold tweight, max_size in *. lia.
Qed.

Lemma wp_is_left_heavy h F S T1 T2 (Q : bool -> heap -> Prop) :
  inv h F S -> pinned T1 F -> pinned T2 F -> Q (heavy (erase T1) (erase T2)) h ->
  wp (is_left_heavy (root T1) (root T2)) Q h.
Proof.
  intros H H1 H2 HQ. apply wp_bind, (wp_weight _ _ _ _ _ H H1), wp_bind, (wp_weight _ _ _ _ _ H H2), wp_ret.
  rewrite ratio_exact by eauto using tweight_range. exact HQ.
Qed.

Lemma wp_is_single_rotation h F S l L e R dir (Q : bool -> heap -> Prop) :
  inv h F S -> pinned (nd l L e R) F -> Q (single_rot (erase (if dir : bool then R else L)) (erase (nd l L e R))) h ->
  wp (is_single_rotation (Some l) dir) Q h.
Proof.
  intros H HP HQ. destruct (inv_node _ _ _ _ _ _ _ H HP) as (c & Hc & _).
  apply wp_bind, (wp_load _ _ _ _ Hc), wp_bind. cbn [lc rc].
  assert (HD : pinned (if dir then R else L) F) by (destruct dir; eauto using pinned_left, pinned_right).
  replace (if dir then weight (root R) else weight (root L)) with (weight (root (if dir then R else L))) by now destruct dir.
  apply (wp_weight _ _ _ _ _ H HD), wp_bind. change (Some l) with (root (nd l L e R)).
  apply (wp_weight _ _ _ _ _ H HP), wp_ret. rewrite beta_exact by eauto using tweight_range. exact HQ.
Qed.

(** A tree of one's own whose root can be written to. *)
Definition returns (t : tree) F S (p : ptr) (h : heap) : Prop :=
  exists T, p = root T /\ erase T = t /\ inv h (T :: F) S /\ unique h T.

Lemma wp_balanced_join h F S T1 T2 s :
  inv h (T1 :: T2 :: F) (s :: S) -> tsize (erase T1) + tsize (erase T2) + 1 < max_size ->
  wp (balanced_join (root T1) (root T2) (Some (s_loc s))) (returns (bin (erase T1) (s_entry s) (erase T2)) F S) h.
Proof.
  intros H Hsz. apply wp_bind, (wp_set_lc _ _ _ _ _ _ H). intros h1 H1.
  apply wp_bind, (wp_set_rc _ _ _ _ _ _ H1). intros h2 H2. cbn [s_loc s_lc s_rc s_entry s_aug] in H2.
  apply wp_bind, (wp_update _ _ _ _ _ _ _ _ _ H2 Hsz). intros h3 H3 U. apply wp_ret.
  exists (nd (s_loc s) T1 (s_entry s) T2). auto.
Qed.

Lemma wp_rotate_left h F S t r L X B e e' a a' :
  inv h (L :: X :: B :: F) (mk_shell t (root L) (Some r) e a :: mk_shell r (root X) (root B) e' a' :: S) ->
  tsize (erase L) + tsize (erase X) + tsize (erase B) + 2 < max_size ->
  wp (rotate_left (Some t)) (returns (bin (bin (erase L) e (erase X)) e' (erase B)) F S) h.
Proof.
  intros H Hsz. size_pos (erase B). size_pos (erase L). size_pos (erase X).
  apply wp_bind, (wp_load_shell _ _ _ _ _ H). intros z. cbn [rc s_rc].
  assert (HX : inv h (L :: X :: B :: F) (mk_shell r (root X) (root B) e' a' :: mk_shell t (root L) (Some r) e a :: S)) by inv_solve.
  apply wp_bind, (wp_load_shell _ _ _ _ _ HX). intros z'. cbn [lc s_lc].
  apply wp_bind, (wp_set_lc _ _ _ _ _ _ HX). intros h1 H1. cbn [s_loc s_lc s_rc s_entry s_aug] in H1.
  assert (H1' : inv h1 (L :: X :: B :: F) (mk_shell t (root L) (Some r) e a :: mk_shell r (Some t) (root B) e' a' :: S)) by inv_solve.
  apply wp_bind, (wp_set_rc _ _ _ _ _ _ H1'). intros h2 H2. cbn [s_loc s_lc s_rc s_entry s_aug] in H2.
  assert (H2' : inv h2 (L :: X :: B :: F) (mk_shell r (Some t) (root B) e' a' :: mk_shell t (root L) (root X) e a :: S)) by inv_solve.
  apply wp_bind, (wp_load_shell _ _ _ _ _ H2'). intros z2. cbn [lc s_lc].
  apply wp_bind, (wp_update _ _ _ _ _ _ _ _ _ H2); [lia|]. intros h3 H3 _.
  apply wp_bind, (wp_update h3 F S r (nd t L e X) e' B a'); [exact H3|cbn; lia|]. intros h4 H4 U.
  apply wp_ret. exists (nd r (nd t L e X) e' B). auto.
Qed.

Lemma wp_rotate_right h F S t r A' X B e e' a a' :
  inv h (A' :: X :: B :: F) (mk_shell t (Some r) (root B) e a :: mk_shell r (root A') (root X) e' a' :: S) ->
  tsize (erase A') + tsize (erase X) + tsize (erase B) + 2 < max_size ->
  wp (rotate_right (Some t)) (returns (bin (erase A') e' (bin (erase X) e (erase B))) F S) h.
Proof.
  intros H Hsz. size_pos (erase B). size_pos (erase A'). size_pos (erase X).
  apply wp_bind, (wp_load_shell _ _ _ _ _ H). intros z. cbn [lc s_lc].
  assert (HX : inv h (A' :: X :: B :: F) (mk_shell r (root A') (root X) e' a' :: mk_shell t (Some r) (root B) e a :: S)) by inv_solve.
  apply wp_bind, (wp_load_shell _ _ _ _ _ HX). intros z'. cbn [rc s_rc].
  apply wp_bind, (wp_set_rc _ _ _ _ _ _ HX). intros h1 H1. cbn [s_loc s_lc s_rc s_entry s_aug] in H1.
  assert (H1' : inv h1 (A' :: X :: B :: F) (mk_shell t (Some r) (root B) e a :: mk_shell r (root A') (Some t) e' a' :: S)) by inv_solve.
  apply wp_bind, (wp_set_lc _ _ _ _ _ _ H1'). intros h2 H2. cbn [s_loc s_lc s_rc s_entry s_aug] in H2.
  assert (H2' : inv h2 (A' :: X :: B :: F) (mk_shell r (root A') (Some t) e' a' :: mk_shell t (root X) (root B) e a :: S)) by inv_solve.
  apply wp_bind, (wp_load_shell _ _ _ _ _ H2'). intros z2. cbn [rc s_rc].
  assert (H2'' : inv h2 (X :: B :: A' :: F) (mk_shell t (root X) (root B) e a :: mk_shell r (root A') (Some t) e' a' :: S)) by inv_solve.
  apply wp_bind, (wp_update _ _ _ _ _ _ _ _ _ H2''); [lia|]. intros h3 H3 _.
  apply wp_bind, (wp_update h3 F S r A' e' (nd t X e B) a'); [inv_solve|cbn; lia|]. intros h4 H4 U.
  apply wp_ret. exists (nd r A' e' (nd t X e B)). auto.
Qed.
Lemma wp_double_rotate_left fuel h F S t r L A1 f A2 g B e e' a a' :
  (tdepth (erase (nd g A1 f A2)) < fuel)%nat ->
  inv h (L :: nd g A1 f A2 :: B :: F) (mk_shell t (root L) (Some r) e a :: mk_shell r (Some g) (root B) e' a' :: S) ->
  tsize (erase L) + tsize (erase A1) + tsize (erase A2) + tsize (erase B) + 3 < max_size ->
  wp (double_rotate_left fuel (Some t))
     (returns (bin (bin (erase L) e (erase A1)) f (bin (erase A2) e' (erase B))) F S) h.
Proof.
  intros Hf H Hsz. size_pos (erase B). size_pos (erase L). size_pos (erase A1). size_pos (erase A2).
  apply wp_bind, (wp_load_shell _ _ _ _ _ H). intros z. cbn [rc s_rc].
  assert (HX : inv h (nd g A1 f A2 :: L :: B :: F) (mk_shell r (Some g) (root B) e' a' :: mk_shell t (root L) (Some r) e a :: S)) by inv_solve.
  apply wp_bind, (wp_load_shell _ _ _ _ _ HX). intros z'. cbn [lc s_lc].
  apply wp_bind, (wp_copy_if_needed _ _ _ _ _ _ _ _ _ Hf HX). intros h1 g' ag H1.
  apply wp_bind, (wp_load_shell _ _ _ _ _ H1). intros z1. cbn [rc s_rc].
  assert (H1' : inv h1 (A2 :: B :: A1 :: L :: F) (mk_shell r (Some g) (root B) e' a' :: mk_shell g' (root A1) (root A2) f ag :: mk_shell t (root L) (Some r) e a :: S)) by inv_solve.
  apply wp_bind, (wp_set_lc _ _ _ _ _ _ H1'). intros h2 H2. cbn [s_loc s_lc s_rc s_entry s_aug] in H2.
  apply wp_bind, (wp_update _ _ _ _ _ _ _ _ _ H2); [lia|]. intros h3 H3 _.
  apply wp_bind, (wp_set_rc _ _ _ _ _ _ H3). intros h4 H4. cbn [s_loc s_lc s_rc s_entry s_aug] in H4.
  assert (H4' : inv h4 (L :: A1 :: nd r A2 e' B :: F) (mk_shell t (root L) (Some r) e a :: mk_shell g' (root A1) (Some r) f ag :: S)) by inv_solve.
  apply wp_bind, (wp_set_rc _ _ _ _ _ _ H4'). intros h5 H5. cbn [s_loc s_lc s_rc s_entry s_aug] in H5.
  apply (wp_rotate_left h5 F S t g' L A1 (nd r A2 e' B) e f a ag H5). cbn. lia.
Qed.

Lemma wp_double_rotate_right fuel h F S t r A' B1 f B2 g B e e' a a' :
  (tdepth (erase (nd g B1 f B2)) < fuel)%nat ->
  inv h (A' :: nd g B1 f B2 :: B :: F) (mk_shell t (Some r) (root B) e a :: mk_shell r (root A') (Some g) e' a' :: S) ->
  tsize (erase A') + tsize (erase B1) + tsize (erase B2) + tsize (erase B) + 3 < max_size ->
  wp (double_rotate_right fuel (Some t))
     (returns (bin (bin (erase A') e' (erase B1)) f (bin (erase B2) e (erase B))) F S) h.
Proof.
  intros Hf H Hsz. size_pos (erase B). size_pos (erase A'). size_pos (erase B1). size_pos (erase B2).
  apply wp_bind, (wp_load_shell _ _ _ _ _ H). intros z. cbn [lc s_lc].
  assert (HX : inv h (nd g B1 f B2 :: A' :: B :: F) (mk_shell r (root A') (Some g) e' a' :: mk_shell t (Some r) (root B) e a :: S)) by inv_solve.
  apply wp_bind, (wp_load_shell _ _ _ _ _ HX). intros z'. cbn [rc s_rc].
  apply wp_bind, (wp_copy_if_needed _ _ _ _ _ _ _ _ _ Hf HX). intros h1 g' ag H1.
  apply wp_bind, (wp_load_shell _ _ _ _ _ H1). intros z1. cbn [lc s_lc].
  assert (H1' : inv h1 (A' :: B1 :: B2 :: B :: F) (mk_shell r (root A') (Some g) e' a' :: mk_shell g' (root B1) (root B2) f ag :: mk_shell t (Some r) (root B) e a :: S)) by inv_solve.
  apply wp_bind, (wp_set_rc _ _ _ _ _ _ H1'). intros h2 H2. cbn [s_loc s_lc s_rc s_entry s_aug] in H2.
  apply wp_bind, (wp_update _ _ _ _ _ _ _ _ _ H2); [lia|]. intros h3 H3 _.
  apply wp_bind, (wp_set_lc _ _ _ _ _ _ H3). intros h4 H4. cbn [s_loc s_lc s_rc s_entry s_aug] in H4.
  assert (H4' : inv h4 (nd r A' e' B1 :: B2 :: B :: F) (mk_shell t (Some r) (root B) e a :: mk_shell g' (Some r) (root B2) f ag :: S)) by inv_solve.
  apply wp_bind, (wp_set_lc _ _ _ _ _ _ H4'). intros h5 H5. cbn [s_loc s_lc s_rc s_entry s_aug] in H5.
  apply (wp_rotate_right h5 F S t g' (nd r A' e' B1) B2 B e f a ag H5). cbn. lia.
Qed.

(** A child that is too heavy is there, and so is the grandchild a double rotation moves. *)
Lemma heavy_nd T1 T2 : heavy (erase T1) (erase T2) = true -> exists l L e R, T1 = nd l L e R.
Proof.
  intros H. destruct T1 as [|l L e R]; [|eauto]. exfalso. unfold heavy in H. apply Z.ltb_lt in H.
  pose proof (tweight_pos (erase T2)). change (tweight (erase lf)) with 1 in H. lia.
Qed.

Lemma double_nd l L e R T : single_rot (erase T) (erase (nd l L e R)) = false -> T = L \/ T = R -> exists g A1 f A2, T = nd g A1 f A2.
Proof.
  intros H HT. destruct T as [|g A1 f A2]; [|eauto 6]. exfalso. unfold single_rot in H. apply Z.leb_gt in H.
  cbn [erase] in H. rewrite tweight_bin in H. change (tweight leaf) with 1 in H.
  pose proof (tweight_pos (erase L)). pose proof (tweight_pos (erase R)). lia.
Qed.

(** The end of [right_join]: the right child has been replaced. *)
Lemma wp_rebalance_left fuel h F S t L R e a :
  (tdepth (erase R) <= fuel)%nat ->
  inv h (L :: R :: F) (mk_shell t (root L) (root R) e a :: S) -> unique h R ->
  tsize (erase L) + tsize (erase R) + 1 < max_size ->
  wp (n ← load (Some t); hv ← is_left_heavy n.(rc) n.(lc);
      if hv : bool then
        sg ← is_single_rotation n.(rc) false;
        if sg : bool then rotate_left (Some t) else double_rotate_left fuel (Some t)
      else update (Some t);; mret (Some t))
     (returns (rebalance_left (erase L) e (erase R)) F S) h.
Proof.
  intros Hf H U Hsz. apply wp_bind, (wp_load_shell _ _ _ _ _ H). intros z. cbn [lc rc s_lc s_rc].
  assert (HL : pinned L (L :: R :: F)) by apply pinned_here. assert (HR : pinned R (L :: R :: F)) by apply pinned_cons, pinned_here.
  apply wp_bind, (wp_is_left_heavy _ _ _ _ _ _ H HR HL). unfold rebalance_left.
  destruct (heavy (erase R) (erase L)) eqn:Hv.
  - destruct (heavy_nd _ _ Hv) as (r & X & e' & B & ->). apply wp_bind, (wp_is_single_rotation _ _ _ _ _ _ _ _ _ H HR).
    cbn [erase left_of]. destruct U as (n & Hn & Un).
    assert (HO : inv h (X :: B :: L :: F) (shell_of r X e' B :: mk_shell t (root L) (Some r) e a :: S)) by (apply (inv_open _ _ _ _ _ _ _ n); [inv_solve|exact Hn|exact Un]).
    cbn [erase tsize] in Hsz. destruct (single_rot _ _) eqn:Sg.
    + cbn [rot_left]. eapply wp_rotate_left; [inv_solve|lia].
    + destruct (double_nd r X e' B X Sg) as (g & A1 & f & A2 & ->); [auto|]. cbn [erase tsize tdepth] in *.
      cbn [drot_left]. eapply wp_double_rotate_left; [cbn; lia|inv_solve|lia].
  - apply wp_bind, (wp_update _ _ _ _ _ _ _ _ _ H Hsz). intros h1 H1 U1. apply wp_ret. exists (nd t L e R). auto.
Qed.

Lemma wp_rebalance_right fuel h F S t L R e a :
  (tdepth (erase L) <= fuel)%nat ->
  inv h (L :: R :: F) (mk_shell t (root L) (root R) e a :: S) -> unique h L ->
  tsize (erase L) + tsize (erase R) + 1 < max_size ->
  wp (n ← load (Some t); hv ← is_left_heavy n.(lc) n.(rc);
      if hv : bool then
        sg ← is_single_rotation n.(lc) true;
        if sg : bool then rotate_right (Some t) else double_rotate_right fuel (Some t)
      else update (Some t);; mret (Some t))
     (returns (rebalance_right (erase L) e (erase R)) F S) h.
Proof.
  intros Hf H U Hsz. apply wp_bind, (wp_load_shell _ _ _ _ _ H). intros z. cbn [lc rc s_lc s_rc].
  assert (HL : pinned L (L :: R :: F)) by apply pinned_here. assert (HR : pinned R (L :: R :: F)) by apply pinned_cons, pinned_here.
  apply wp_bind, (wp_is_left_heavy _ _ _ _ _ _ H HL HR). unfold rebalance_right.
  destruct (heavy (erase L) (erase R)) eqn:Hv.
  - destruct (heavy_nd _ _ Hv) as (r & A' & e' & X & ->). apply wp_bind, (wp_is_single_rotation _ _ _ _ _ _ _ _ _ H HL).
    cbn [erase right_of]. destruct U as (n & Hn & Un).
    assert (HO : inv h (A' :: X :: R :: F) (shell_of r A' e' X :: mk_shell t (Some r) (root R) e a :: S)) by (apply (inv_open _ _ _ _ _ _ _ n); [inv_solve|exact Hn|exact Un]).
    cbn [erase tsize] in Hsz. destruct (single_rot _ _) eqn:Sg.
    + cbn [rot_right]. eapply wp_rotate_right; [inv_solve|lia].
    + destruct (double_nd r A' e' X X Sg) as (g & B1 & f & B2 & ->); [auto|]. cbn [erase tsize tdepth] in *.
      cbn [drot_right]. eapply wp_double_rotate_right; [cbn; lia|inv_solve|lia].
  - apply wp_bind, (wp_update _ _ _ _ _ _ _ _ _ H Hsz). intros h1 H1 U1. apply wp_ret. exists (nd t L e R). auto.
Qed.
Lemma depth_fuel T fuel : tsize (erase T) < Z.of_nat fuel -> (tdepth (erase T) < fuel)%nat.
Proof. pose proof (tdepth_size (erase T)). lia. Qed.

(** The fuel for a join of two trees. *)
Definition join_fuel (n m : Z) (fuel : nat) : Prop := n + m + 2 <= Z.of_nat fuel.

Lemma wp_right_join T1 : forall fuel h F S T2 s,
  inv h (T1 :: T2 :: F) (s :: S) -> tsize (erase T1) + tsize (erase T2) + 1 < max_size ->
  join_fuel (tsize (erase T1)) (tsize (erase T2)) fuel ->
  wp (right_join fuel (root T1) (root T2) (Some (s_loc s))) (returns (join_right (erase T1) (erase T2) (s_entry s)) F S) h.
Proof.
  unfold join_fuel. induction T1 as [|l L _ e R IHR]; intros fuel h F S T2 s H Hsz Hf; (destruct fuel as [|fuel]; [exfalso; size_pos (erase T2); match type of Hf with tsize ?t + _ + _ <= _ => size_pos t end; lia|]); cbn [right_join].
  - apply wp_bind, (wp_is_left_heavy _ _ _ lf T2 _ H (pinned_here _ _) (pinned_cons _ _ _ (pinned_here _ _))).
    destruct (heavy (erase lf) (erase T2)) eqn:Hv; [apply heavy_nd in Hv as (? & ? & ? & ? & ?); discriminate|].
    exact (wp_balanced_join _ _ _ lf T2 s H Hsz).
  - apply wp_bind, (wp_is_left_heavy _ _ _ _ T2 _ H (pinned_here _ _) (pinned_cons _ _ _ (pinned_here _ _))).
    cbn [erase join_right]. change (bin (erase L) e (erase R)) with (erase (nd l L e R)).
    destruct (heavy (erase (nd l L e R)) (erase T2)) eqn:Hv; cbn [negb]; [|exact (wp_balanced_join _ _ _ _ T2 s H Hsz)].
    rewrite tsize_bin_bound in *. size_pos (erase L). size_pos (erase R). size_pos (erase T2).
    assert (Df : (tdepth (erase (nd l L e R)) < fuel)%nat) by (apply depth_fuel; rewrite tsize_bin_bound; lia).
    apply wp_bind, (wp_copy_if_needed fuel _ _ _ _ _ _ _ _ Df H). intros h1 t a H1.
    assert (H1' : inv h1 (L :: R :: T2 :: F) (mk_shell t (root L) (root R) e a :: s :: S)) by inv_solve.
    apply wp_bind, (wp_load_shell _ _ _ _ _ H1'). intros z. cbn [rc s_rc].
    eapply wp_seq.
    { apply (IHR fuel h1 (L :: F) (mk_shell t (root L) (root R) e a :: S) T2 s); [inv_solve|lia..]. }
    intros p h2 (R' & -> & ER & H2 & U2).
    assert (H2' : inv h2 (L :: R' :: F) (mk_shell t (root L) (root R) e a :: S)) by inv_solve.
    destruct (inv_shell_node _ _ _ _ H2') as (zt & Hzt). cbn [s_loc s_lc s_rc s_entry s_aug] in Hzt.
    apply wp_bind. eapply wp_store; [exact Hzt|]. set (h3 := <[t := _]> h2).
    assert (H3 : inv h3 (L :: R' :: F) (mk_shell t (root L) (root R') e a :: S)) by exact (inv_shell_write _ _ _ _ (mk_shell t (root L) (root R') e a) zt H2' eq_refl).
    assert (U3 : unique h3 R') by exact (unique_shell_write _ _ _ _ _ _ H2' (pinned_cons _ _ _ (pinned_here _ _)) U2).
    rewrite <- ER. apply (wp_rebalance_left fuel h3 F S t L R' e a); auto; rewrite ?ER, ?join_right_size; [|lia].
    pose proof (tdepth_size (erase R')) as D. rewrite ER, join_right_size in D. lia.
Qed.
Lemma wp_left_join T2 : forall fuel h F S T1 s,
  inv h (T1 :: T2 :: F) (s :: S) -> tsize (erase T1) + tsize (erase T2) + 1 < max_size ->
  join_fuel (tsize (erase T1)) (tsize (erase T2)) fuel ->
  wp (left_join fuel (root T1) (root T2) (Some (s_loc s))) (returns (join_left (erase T1) (erase T2) (s_entry s)) F S) h.
Proof.
  unfold join_fuel. induction T2 as [|l L IHL e R _]; intros fuel h F S T1 s H Hsz Hf; (destruct fuel as [|fuel]; [exfalso; size_pos (erase T1); match type of Hf with _ + tsize ?t + _ <= _ => size_pos t end; lia|]); cbn [left_join].
  - apply wp_bind, (wp_is_left_heavy _ _ _ lf T1 _ H (pinned_cons _ _ _ (pinned_here _ _)) (pinned_here _ _)).
    destruct (heavy (erase lf) (erase T1)) eqn:Hv; [apply heavy_nd in Hv as (? & ? & ? & ? & ?); discriminate|].
    exact (wp_balanced_join _ _ _ T1 lf s H Hsz).
  - apply wp_bind, (wp_is_left_heavy _ _ _ _ T1 _ H (pinned_cons _ _ _ (pinned_here _ _)) (pinned_here _ _)).
    cbn [erase join_left]. change (bin (erase L) e (erase R)) with (erase (nd l L e R)).
    destruct (heavy (erase (nd l L e R)) (erase T1)) eqn:Hv; cbn [negb]; [|exact (wp_balanced_join _ _ _ T1 _ s H Hsz)].
    rewrite tsize_bin_bound in *. size_pos (erase L). size_pos (erase R). size_pos (erase T1).
    assert (Df : (tdepth (erase (nd l L e R)) < fuel)%nat) by (apply depth_fuel; rewrite tsize_bin_bound; lia).
    assert (HX : inv h (nd l L e R :: T1 :: F) (s :: S)) by inv_solve.
    apply wp_bind, (wp_copy_if_needed fuel _ _ _ _ _ _ _ _ Df HX). intros h1 t a H1.
    assert (H1' : inv h1 (L :: R :: T1 :: F) (mk_shell t (root L) (root R) e a :: s :: S)) by inv_solve.
    apply wp_bind, (wp_load_shell _ _ _ _ _ H1'). intros z. cbn [lc s_lc].
    eapply wp_seq.
    { apply (IHL fuel h1 (R :: F) (mk_shell t (root L) (root R) e a :: S) T1 s); [inv_solve|lia..]. }
    intros p h2 (L' & -> & EL & H2 & U2).
    assert (H2' : inv h2 (L' :: R :: F) (mk_shell t (root L) (root R) e a :: S)) by inv_solve.
    destruct (inv_shell_node _ _ _ _ H2') as (zt & Hzt). cbn [s_loc s_lc s_rc s_entry s_aug] in Hzt.
    apply wp_bind. eapply wp_store; [exact Hzt|]. set (h3 := <[t := _]> h2).
    assert (H3 : inv h3 (L' :: R :: F) (mk_shell t (root L') (root R) e a :: S)) by exact (inv_shell_write _ _ _ _ (mk_shell t (root L') (root R) e a) zt H2' eq_refl).
    assert (U3 : unique h3 L') by exact (unique_shell_write _ _ _ _ _ _ H2' (pinned_here _ _) U2).
    rewrite <- EL. apply (wp_rebalance_right fuel h3 F S t L' R e a); auto; rewrite ?EL, ?join_left_size; [|lia].
    pose proof (tdepth_size (erase L')) as D. rewrite EL, join_left_size in D. lia.
Qed.

(** [node_join] refines the join of trees: it takes two trees and a detached node, and
    returns the joined tree; everything else is as before. *)
Lemma wp_node_join fuel h F S T1 T2 s :
  inv h (T1 :: T2 :: F) (s :: S) -> tsize (erase T1) + tsize (erase T2) + 1 < max_size ->
  join_fuel (tsize (erase T1)) (tsize (erase T2)) fuel ->
  wp (node_join fuel (root T1) (root T2) (Some (s_loc s))) (returns (tjoin (erase T1) (erase T2) (s_entry s)) F S) h.
Proof.
  intros H Hsz Hf. assert (P1 : pinned T1 (T1 :: T2 :: F)) by apply pinned_here.
  assert (P2 : pinned T2 (T1 :: T2 :: F)) by apply pinned_cons, pinned_here. unfold tjoin.
  apply wp_bind, (wp_is_left_heavy _ _ _ _ _ _ H P1 P2). destruct (heavy (erase T1) (erase T2)); [now apply wp_right_join|].
  apply wp_bind, (wp_is_left_heavy _ _ _ _ _ _ H P2 P1). destruct (heavy (erase T2) (erase T1)); [now apply wp_left_join|].
  now apply wp_balanced_join.
Qed.
End Join.
