(* ===== verification/PamSeq.v ===== *)
(** * Sequences of entries ([trees/sequence_ops.h])

    The operations on Aspen's trees that only use the order of the entries in a tree.  The
    functions passed to an iteration act on a state of their own, which is threaded
    through; the forked calls run one after the other. *)

From S2P Require Import Prelude PamTree PamOps PamSets PamStore PamPrims PamGC PamJoin.
From stdpp Require Import base option list gmap.
Import PamTree PamOps PamSets PamStore PamPrims PamGC PamJoin.
#[local] Open Scope Z_scope.

Section Seq.
Context {E : Entry} {A : Allocator}.

Definition join (fuel : nat) (l : ptr) (e : entry_t) (r : ptr) : mem ptr :=
  x ← make_node e; node_join fuel l r x.

Fixpoint depth (fuel : nat) (a : ptr) : mem Z :=
  match fuel with
  | O => undefined
  | S fuel =>
    match a with
    | None => mret 0
    | Some _ =>
      n ← load a; sz ← size a;
      P ← fork (node_limit <=? sz) (depth fuel n.(lc)) (depth fuel n.(rc));
      mret (u32 (Z.max P.1 P.2 + 1))
    end
  end.

Fixpoint check_balance (fuel : nat) (a : ptr) : mem bool :=
  match fuel with
  | O => undefined
  | S fuel =>
    match a with
    | None => mret true
    | Some _ =>
      n ← load a; sz ← size a;
      P ← fork (node_limit <=? sz) (check_balance fuel n.(lc)) (check_balance fuel n.(rc));
      b ← is_balanced a;
      mret (b && P.1 && P.2)
    end
  end.

Fixpoint select (fuel : nat) (b : ptr) (lrank : Z) : mem ptr :=
  match fuel with
  | O => undefined
  | S fuel =>
    match b with
    | None => mret None
    | Some _ =>
      n ← load b; left_size ← size n.(lc);
      if left_size <? lrank then select fuel n.(rc) (lrank - (left_size + 1))%u64
      else if lrank <? left_size then select fuel n.(lc) lrank
      else mret b
    end
  end.

Fixpoint join2_i (fuel : nat) (b1 b2 : ptr) (extra_b1 extra_b2 : bool) : mem ptr :=
  match fuel with
  | O => undefined
  | S fuel =>
    match b1, b2 with
    | None, _ => inc_if b2 extra_b2
    | _, None => inc_if b1 extra_b1
    | Some _, Some _ =>
      s1 ← size b1; s2 ← size b2;
      if s2 <? s1 then
        n ← load b1; let copy_b1 := extra_b1 || (1 <? n.(ref_cnt)) in
        l ← inc_if n.(lc) copy_b1;
        r ← join2_i fuel n.(rc) b2 copy_b1 extra_b2;
        o ← copy_if fuel b1 copy_b1 extra_b1;
        node_join fuel l r o
      else
        n ← load b2; let copy_b2 := extra_b2 || (1 <? n.(ref_cnt)) in
        l ← join2_i fuel b1 n.(lc) extra_b1 copy_b2;
        r ← inc_if n.(rc) copy_b2;
        o ← copy_if fuel b2 copy_b2 extra_b2;
        node_join fuel l r o
    end
  end.

Definition join2 (fuel : nat) (b1 b2 : ptr) : mem ptr := join2_i fuel b1 b2 false false.

Fixpoint map (fuel : nat) (b : ptr) (f : entry_t -> entry_t) : mem ptr :=
  match fuel with
  | O => undefined
  | S fuel =>
    match b with
    | None => mret None
    | Some _ =>
      n ← load b; sz ← size b;
      P ← fork (node_limit <=? sz) (map fuel n.(lc) f) (map fuel n.(rc) f);
      y ← get_entry b;
      join fuel P.1 (f y) P.2
    end
  end.

Section Iterations.
Context {St : Type}.

Fixpoint foreach_index (fuel : nat) (a : ptr) (start : Z) (f : entry_t -> Z -> St -> St) (granularity : Z) (extra_ptr : bool) (st : St) : mem St :=
  match fuel with
  | O => undefined
  | S fuel =>
    match a with
    | None => mret st
    | Some _ =>
      n ← load a; let copy := extra_ptr || (1 <? n.(ref_cnt)) in
      lsize ← size n.(lc);
      e ← get_entry a;
      let st := f e (start + lsize)%u64 st in
      st ← foreach_index fuel n.(lc) start f granularity copy st;
      st ← foreach_index fuel n.(rc) ((start + lsize) + 1)%u64 f granularity copy st;
      (if extra_ptr then mret tt else decrement a;; mret tt);;
      mret st
    end
  end.

Fixpoint foreach_seq (fuel : nat) (a : ptr) (f : entry_t -> St -> St) (st : St) : mem St :=
  match fuel with
  | O => undefined
  | S fuel =>
    match a with
    | None => mret st
    | Some _ =>
      n ← load a;
      st ← foreach_seq fuel n.(lc) f st;
      e ← get_entry a; let st := f e st in
      foreach_seq fuel n.(rc) f st
    end
  end.

Definition iter_elms := foreach_seq.

(** [f] answers whether to stop. *)
Fixpoint iter_elms_cond (fuel : nat) (a : ptr) (f : entry_t -> St -> bool * St) (st : St) : mem (bool * St) :=
  match fuel with
  | O => undefined
  | S fuel =>
    match a with
    | None => mret (false, st)
    | Some _ =>
      n ← load a;
      r ← iter_elms_cond fuel n.(lc) f st;
      if fst r : bool then mret (true, snd r) else
      e ← get_entry a;
      let '(stop, st) := f e (snd r) in
      if stop : bool then mret (true, st) else iter_elms_cond fuel n.(rc) f st
    end
  end.

Fixpoint foreach_entry_seq (fuel : nat) (a : ptr) (f : entry_t -> St -> St) (st : St) : mem St :=
  match fuel with
  | O => undefined
  | S fuel =>
    match a with
    | None => mret st
    | Some _ =>
      n ← load a; e ← get_entry a;
      st ← foreach_entry_seq fuel n.(lc) f (f e st);
      foreach_entry_seq fuel n.(rc) f st
    end
  end.

Fixpoint foreach_entry (fuel : nat) (a : ptr) (f : entry_t -> St -> St) (granularity : Z) (st : St) : mem St :=
  match fuel with
  | O => undefined
  | S fuel =>
    match a with
    | None => mret st
    | Some _ =>
      n ← load a; lsize ← size n.(lc);
      if granularity <? lsize then
        e ← get_entry a;
        st ← foreach_entry fuel n.(lc) f granularity (f e st);
        foreach_entry fuel n.(rc) f granularity st
      else foreach_entry_seq (S fuel) a f st
    end
  end.

Fixpoint foreach_index_bc_seq (fuel : nat) (a : ptr) (start : Z) (f : entry_t -> Z -> St -> St) (st : St) : mem St :=
  match fuel with
  | O => undefined
  | S fuel =>
    match a with
    | None => mret st
    | Some _ =>
      n ← load a; lsize ← size n.(lc); e ← get_entry a;
      let st := f e (start + lsize)%u64 st in
      st ← foreach_index_bc_seq fuel n.(lc) start f st;
      foreach_index_bc_seq fuel n.(rc) ((start + lsize) + 1)%u64 f st
    end
  end.

Fixpoint foreach_index_bc (fuel : nat) (a : ptr) (start : Z) (f : entry_t -> Z -> St -> St) (granularity : Z) (st : St) : mem St :=
  match fuel with
  | O => undefined
  | S fuel =>
    match a with
    | None => mret st
    | Some _ =>
      n ← load a; lsize ← size n.(lc);
      if granularity <? lsize then
        e ← get_entry a;
        let st := f e (start + lsize)%u64 st in
        st ← foreach_index_bc fuel n.(lc) start f granularity st;
        foreach_index_bc fuel n.(rc) ((start + lsize) + 1)%u64 f granularity st
      else foreach_index_bc_seq (S fuel) a start f st
    end
  end.
End Iterations.

Fixpoint filter (fuel : nat) (b : ptr) (f : entry_t -> bool) (extra_ptr : bool) : mem ptr :=
  match fuel with
  | O => undefined
  | S fuel =>
    match b with
    | None => mret None
    | Some _ =>
      n ← load b; let copy := extra_ptr || (1 <? n.(ref_cnt)) in
      sz ← size b;
      P ← fork (node_limit <=? sz) (filter fuel n.(lc) f copy) (filter fuel n.(rc) f copy);
      e ← get_entry b;
      if f e then
        o ← copy_if fuel b copy extra_ptr; node_join fuel P.1 P.2 o
      else
        dec_if fuel b copy extra_ptr;; join2 fuel P.1 P.2
    end
  end.

(** [indicator] is shared by all the calls. *)
Fixpoint if_exist (fuel : nat) (b : ptr) (f : entry_t -> bool) (indicator : bool) : mem (bool * bool) :=
  match fuel with
  | O => undefined
  | S fuel =>
    match b with
    | None => mret (false, indicator)
    | Some _ =>
      if indicator then mret (true, indicator) else
      e ← get_entry b;
      if f e then mret (true, true) else
      n ← load b;
      l ← if_exist fuel n.(lc) f indicator;
      r ← if_exist fuel n.(rc) f (snd l);
      mret (fst l || fst r, snd r)
    end
  end.

(** The array is sorted, without duplicate keys. *)
Fixpoint from_array (fuel : nat) (a : list entry_t) : mem ptr :=
  match fuel with
  | O => undefined
  | S fuel =>
    match a with
    | [] => mret empty
    | [e] => single e
    | _ =>
      let n := Z.of_nat (length a) in
      let mid := Z.to_nat (n / 2) in
      match a !! mid with
      | Some e =>
        m ← make_node e;
        P ← fork (node_limit <=? n) (from_array fuel (take mid a)) (from_array fuel (drop (mid + 1) a));
        node_join fuel P.1 P.2 m
      | None => undefined
      end
    end
  end.

Fixpoint map_filter (fuel : nat) (b : ptr) (f : entry_t -> option entry_t) : mem ptr :=
  match fuel with
  | O => undefined
  | S fuel =>
    match b with
    | None => mret None
    | Some _ =>
      n ← load b; sz ← size b;
      P ← fork (node_limit <=? sz) (map_filter fuel n.(lc) f) (map_filter fuel n.(rc) f);
      e ← get_entry b;
      match f e with
      | Some me => r ← make_node me; node_join fuel P.1 P.2 r
      | None => join2 fuel P.1 P.2
      end
    end
  end.

(** The [Reduce] class: [identity], [from_entry] and [reduce] ([combine]). *)
Fixpoint map_reduce {T} (fuel : nat) (b : ptr) (identity : T) (from_entry : entry_t -> T) (reduce : T -> T -> T) : mem T :=
  match fuel with
  | O => undefined
  | S fuel =>
    match b with
    | None => mret identity
    | Some _ =>
      n ← load b; sz ← size b;
      P ← fork (node_limit <=? sz) (map_reduce fuel n.(lc) identity from_entry reduce) (map_reduce fuel n.(rc) identity from_entry reduce);
      e ← get_entry b;
      mret (reduce P.1 (reduce (from_entry e) P.2))
    end
  end.

(** ** Specifications *)

Context {AO : AllocatorOk A}.
Implicit Types (F : list ltree) (S : list shell) (h : heap).

Lemma returns_gives t F S p h : returns t F S p h -> gives t F S p h.
Proof. intros (T & ? & ? & ? & _). exists T. auto. Qed.

Lemma inv_held_leaf h x T F S : inv h (held x T (lf :: F)) S <-> inv h (held x T F) S.
Proof.
  rewrite <- (inv_leaf h (held x T F) S). split; intros H; (eapply inv_perm; [exact H| |reflexivity]); now rewrite held_cons.
Qed.

Lemma inv_held_leaf2 h x T D F S : inv h (held x T (D :: lf :: F)) S <-> inv h (held x T (D :: F)) S.
Proof.
  rewrite <- (inv_held_leaf h x T (D :: F) S).
  split; intros H; (eapply inv_perm; [exact H| |reflexivity]); destruct x; cbn [held]; perm_solve.
Qed.

(** A node with new children, rebuilt: the end of most operations. *)
Lemma wp_copy_join fuel fj copy extra l L e R L' R' F S h :
  parts copy extra l L e R L' R' F S h -> tsize (erase (nd l L e R)) < Z.of_nat fuel ->
  tsize (erase L') + tsize (erase R') + 1 < max_size -> join_fuel (tsize (erase L')) (tsize (erase R')) fj ->
  wp (o ← copy_if fuel (Some l) copy extra; node_join fj (root L') (root R') o) (gives (tjoin (erase L') (erase R') e) F S) h.
Proof.
  intros HP Hf Hsz HJ. apply wp_bind, (wp_copy_if _ _ _ _ _ _ _ _ _ _ _ _ _ (depth_fuel _ _ Hf) HP).
  intros h1 s <- H1. eapply wp_mono; [apply (wp_node_join _ _ _ _ _ _ _ H1 Hsz HJ)|apply returns_gives].
Qed.

(** A new value for a detached node. *)
Lemma wp_set_val h F S s (g : entry_t -> val_t) (Q : unit -> heap -> Prop) :
  inv h F (s :: S) ->
  (forall h' s', s_loc s' = s_loc s -> s_entry s' = (fst (s_entry s), g (s_entry s)) -> inv h' F (s' :: S) -> Q tt h') ->
  wp (re ← get_entry (Some (s_loc s)); set_entry (Some (s_loc s)) (re.1, g re)) Q h.
Proof.
  intros H HQ. apply wp_bind, wp_bind, (wp_load_shell _ _ _ _ _ H). intros z. apply wp_ret, (wp_set_entry _ _ _ _ _ _ H).
  intros h1 H1. eapply HQ; [| |exact H1]; reflexivity.
Qed.

Lemma wp_copy_set_join fuel fj copy extra l L e R L' R' F S h g :
  parts copy extra l L e R L' R' F S h -> tsize (erase (nd l L e R)) < Z.of_nat fuel ->
  tsize (erase L') + tsize (erase R') + 1 < max_size -> join_fuel (tsize (erase L')) (tsize (erase R')) fj ->
  wp (o ← copy_if fuel (Some l) copy extra; (re ← get_entry o; set_entry o (re.1, g re));; node_join fj (root L') (root R') o)
     (gives (tjoin (erase L') (erase R') (fst e, g e)) F S) h.
Proof.
  intros HP Hf Hsz HJ. apply wp_bind, (wp_copy_if _ _ _ _ _ _ _ _ _ _ _ _ _ (depth_fuel _ _ Hf) HP).
  intros h1 s <- H1. apply wp_bind, (wp_set_val _ _ _ _ _ _ H1). intros h2 s' <- <- H2.
  eapply wp_mono; [apply (wp_node_join _ _ _ _ _ _ _ H2 Hsz HJ)|apply returns_gives].
Qed.

(** A new node between two trees. *)
Lemma wp_make_join fuel h F S L R e :
  inv h (L :: R :: F) S -> tsize (erase L) + tsize (erase R) + 1 < max_size ->
  join_fuel (tsize (erase L)) (tsize (erase R)) fuel ->
  wp (x ← make_node e; node_join fuel (root L) (root R) x) (gives (tjoin (erase L) (erase R) e) F S) h.
Proof.
  intros H Hsz HJ. apply wp_bind, (wp_make_node _ _ _ _ _ H). intros s h1 <- H1.
  eapply wp_mono; [apply (wp_node_join _ _ _ _ _ _ _ H1 Hsz HJ)|apply returns_gives].
Qed.

(** The usual operation: new children for a node, and a join. *)
Section Rebuild.
Context (h : heap) (F : list ltree) (S : list shell) (l : positive) (L : ltree) (e : entry_t) (R : ltree).
Context (extra copy : bool) (DL DR X : ltree) (fuel fj : nat) (ml mr : mem ptr) (tl tr : tree).
Hypothesis H : lent copy extra l L e R [DL; DR] F S h.
Hypothesis HX : pinned X F.
Hypothesis HL : refines copy L DL X ml tl.
Hypothesis HR : refines copy R DR X mr tr.
Hypothesis Hf : tsize (erase (nd l L e R)) < Z.of_nat fuel.
Hypothesis Hsz : tsize tl + tsize tr + 1 < max_size.
Hypothesis HJ : join_fuel (tsize tl) (tsize tr) fj.

Lemma wp_rebuild :
  wp (a ← ml; b ← mr; o ← copy_if fuel (Some l) copy extra; node_join fj a b o) (gives (tjoin tl tr e) F S) h.
Proof.
  apply (wp_children h F S l L e R extra copy DL DR X H HX ml mr tl tr _ _ HL HR).
  intros h' L' R' <- <- P. exact (wp_copy_join _ _ _ _ _ _ _ _ _ _ _ _ _ P Hf Hsz HJ).
Qed.

Lemma wp_rebuild_rl :
  wp (b ← mr; a ← ml; o ← copy_if fuel (Some l) copy extra; node_join fj a b o) (gives (tjoin tl tr e) F S) h.
Proof.
  apply (wp_children_rl h F S l L e R extra copy DL DR X H HX ml mr tl tr _ _ HL HR).
  intros h' L' R' <- <- P. exact (wp_copy_join _ _ _ _ _ _ _ _ _ _ _ _ _ P Hf Hsz HJ).
Qed.

Lemma wp_rebuild_set g :
  wp (a ← ml; b ← mr; o ← copy_if fuel (Some l) copy extra; (re ← get_entry o; set_entry o (re.1, g re));; node_join fj a b o)
     (gives (tjoin tl tr (fst e, g e)) F S) h.
Proof.
  apply (wp_children h F S l L e R extra copy DL DR X H HX ml mr tl tr _ _ HL HR).
  intros h' L' R' <- <- P. exact (wp_copy_set_join _ _ _ _ _ _ _ _ _ _ _ _ _ _ P Hf Hsz HJ).
Qed.
End Rebuild.

(** *** Two trees, each owned or borrowed *)

Definition refines2 x1 T1 x2 T2 (m : mem ptr) (t : tree) : Prop := forall h F S,
  inv h (held x1 T1 (held x2 T2 F)) S -> (x1 = true -> pinned T1 F) -> (x2 = true -> pinned T2 F) ->
  wp m (gives t F S) h.

Definition taken (x : bool) (T : ltree) : ltree := if x then lf else T.
Definition seen (x : bool) (T : ltree) : ltree := if x then T else lf.

Lemma inv_taken h x1 T1 x2 T2 F S : inv h (held x1 T1 (taken x2 T2 :: F)) S <-> inv h (held x1 T1 (held x2 T2 F)) S.
Proof. destruct x1, x2; cbn [held taken]; first [reflexivity | apply inv_leaf | apply (inv_held_leaf h false)]. Qed.

Lemma pinned_seen x T F : (x = true -> pinned T F) <-> pinned (seen x T) F.
Proof. destruct x; cbn; split; auto; [left; auto|discriminate]. Qed.

Lemma refines2_left x1 T1 x2 T2 m t : refines2 x1 T1 x2 T2 m t <-> refines x1 T1 (taken x2 T2) (seen x2 T2) m t.
Proof. split; intros H h F S HI P1 P2; apply H; auto; first [now apply inv_taken | now apply pinned_seen]. Qed.

Lemma refines2_swap x1 T1 x2 T2 m t : refines2 x1 T1 x2 T2 m t <-> refines2 x2 T2 x1 T1 m t.
Proof.
  assert (W : forall x1 T1 x2 T2, refines2 x1 T1 x2 T2 m t -> refines2 x2 T2 x1 T1 m t); [|split; apply W].
  intros y1 U1 y2 U2 H h F S HI P1 P2. apply H; auto. eapply inv_perm; [exact HI| |reflexivity].
  destruct y1, y2; cbn; first [reflexivity | apply Permutation_swap].
Qed.

Lemma refines2_right x1 T1 x2 T2 m t : refines2 x1 T1 x2 T2 m t <-> refines x2 T2 (taken x1 T1) (seen x1 T1) m t.
Proof. rewrite refines2_swap. apply refines2_left. Qed.

Lemma taken_leaf x : taken x lf = lf.
Proof. now destruct x. Qed.

Lemma seen_leaf x : seen x lf = lf.
Proof. now destruct x. Qed.

Lemma wp_join2_i : forall fuel T1 T2 x1 x2,
  tsize (erase T1) + tsize (erase T2) < max_size -> join_fuel (tsize (erase T1)) (tsize (erase T2)) fuel ->
  refines2 x1 T1 x2 T2 (join2_i fuel (root T1) (root T2) x1 x2) (tjoin2 (erase T1) (erase T2)).
Proof.
  induction fuel as [|fuel IH]; intros T1 T2 x1 x2 Hsz Hf; unfold join_fuel in *.
  { pose proof (tsize_nonneg (erase T1)). pose proof (tsize_nonneg (erase T2)). lia. }
  destruct T1 as [|l1 L1 e1 R1].
  { apply refines2_right. rewrite taken_leaf, seen_leaf. cbn [root join2_i erase].
    replace (tjoin2 leaf (erase T2)) with (erase T2) by now destruct T2. exact (refines_inc_if x2 T2 lf). }
  destruct T2 as [|l2 L2 e2 R2].
  { apply refines2_left. rewrite taken_leaf, seen_leaf. exact (refines_inc_if x1 (nd l1 L1 e1 R1) lf). }
  intros h F S H P1 P2. cbn [root join2_i].
  set (N1 := nd l1 L1 e1 R1) in *. set (N2 := nd l2 L2 e2 R2) in *.
  assert (PN1 : pinned N1 (held x1 N1 (held x2 N2 F))) by (destruct x1, x2; cbn; auto using pinned_here, pinned_cons).
  assert (PN2 : pinned N2 (held x1 N1 (held x2 N2 F))) by (destruct x1, x2; cbn; auto using pinned_here, pinned_cons).
  apply wp_bind, (wp_size _ _ _ _ _ H PN1), wp_bind, (wp_size _ _ _ _ _ H PN2).
  cbn [erase N1 N2]. rewrite tjoin2_bin. change (bin (erase L1) e1 (erase R1)) with (erase N1).
  change (bin (erase L2) e2 (erase R2)) with (erase N2).
  pose proof (tsize_bin_bound l1 L1 e1 R1) as B1. pose proof (tsize_bin_bound l2 L2 e2 R2) as B2. fold N1 in B1. fold N2 in B2.
  size_pos (erase L1). size_pos (erase R1). size_pos (erase L2). size_pos (erase R2).
  destruct (tsize (erase N2) <? tsize (erase N1)).
  - destruct (inv_node _ _ _ _ _ _ _ H PN1) as (c & Hc & _). apply wp_bind, (wp_load _ _ _ _ Hc). cbn [ref_cnt lc rc].
    apply (inv_taken _ _ _ x2 N2), inv_held_leaf in H. pose proof (lent_intro _ _ _ _ _ [lf; _] _ _ _ _ H P1 Hc) as HC.
    apply (wp_rebuild h F S l1 L1 e1 R1 x1 _ _ _ (seen x2 N2) _ _ _ _ _ _ HC);
      [now apply pinned_seen|exact (refines_inc_if _ L1 _)|apply refines2_left, IH; lia|..].
    all: unfold join_fuel; rewrite ?tjoin2_size; fold N1 N2; lia.
  - destruct (inv_node _ _ _ _ _ _ _ H PN2) as (c & Hc & _). apply wp_bind, (wp_load _ _ _ _ Hc). cbn [ref_cnt lc rc].
    apply (inv_perm _ _ (held x2 N2 (held x1 N1 F)) S S) in H; [|destruct x1, x2; cbn; perm_solve|reflexivity].
    apply (inv_taken _ _ _ x1 N1), inv_held_leaf2 in H. pose proof (lent_intro _ _ _ _ _ [_; lf] _ _ _ _ H P2 Hc) as HC.
    apply (wp_rebuild h F S l2 L2 e2 R2 x2 _ _ _ (seen x1 N1) _ _ _ _ _ _ HC);
      [now apply pinned_seen|apply refines2_right, IH; lia|exact (refines_inc_if _ R2 _)|..].
    all: unfold join_fuel; rewrite ?tjoin2_size; fold N1 N2; lia.
Qed.

Lemma wp_join2 fuel h F S L R :
  inv h (L :: R :: F) S -> tsize (erase L) + tsize (erase R) < max_size -> join_fuel (tsize (erase L)) (tsize (erase R)) fuel ->
  wp (join2 fuel (root L) (root R)) (gives (tjoin2 (erase L) (erase R)) F S) h.
Proof. intros H Hsz HJ. apply (wp_join2_i _ _ _ false false Hsz HJ); auto; discriminate. Qed.

(** A node dropped, and its new children put together. *)
Lemma wp_drop_join2 fuel copy extra l L e R L' R' F S h :
  parts copy extra l L e R L' R' F S h -> tsize (erase (nd l L e R)) < Z.of_nat fuel ->
  tsize (erase L') + tsize (erase R') < max_size -> join_fuel (tsize (erase L')) (tsize (erase R')) fuel ->
  wp (dec_if fuel (Some l) copy extra;; join2 fuel (root L') (root R')) (gives (tjoin2 (erase L') (erase R')) F S) h.
Proof.
  intros HP Hf Hsz HJ. apply wp_bind, (wp_dec_if _ _ _ _ _ _ _ _ _ _ _ _ _ (depth_fuel _ _ Hf) HP).
  intros h1 H1. now apply wp_join2.
Qed.

(** The entry is still there once the children have been used. *)
Lemma wp_parts_entry copy extra l L e R L' R' F S h (Q : entry_t -> heap -> Prop) :
  parts copy extra l L e R L' R' F S h -> Q e h -> wp (get_entry (Some l)) Q h.
Proof.
  intros HP HQ. destruct copy; destruct HP as [H HP].
  - apply (wp_get_entry _ _ _ _ L e R _ H); auto using pinned_cons, pinned_held.
  - apply wp_bind. destruct (inv_shell_node _ _ _ _ HP) as (z & Hz). apply (wp_load _ _ _ _ Hz), HQ.
Qed.

(** *** One tree *)

(** [refines], for an operation that uses up nothing else. *)
Definition refines1 x T (m : mem ptr) (t : tree) : Prop := forall h F S,
  inv h (held x T F) S -> (x = true -> pinned T F) -> wp m (gives t F S) h.

(** A new tree from one that is only looked at. *)
Definition builds T (m : mem ptr) (t : tree) : Prop := forall h F S, inv h F S -> pinned T F -> wp m (gives t F S) h.

Lemma refines1_refines x T m t X : refines1 x T m t -> refines x T lf X m t.
Proof. intros H h F S HI P _. apply H; [now apply inv_held_leaf|exact P]. Qed.

Lemma inv_held_leaves h x T F S : inv h (held x T F) S -> inv h (held x T (lf :: lf :: F)) S.
Proof. intros H. now apply inv_held_leaf, inv_held_leaf. Qed.

Lemma gives_leaf F S h : inv h F S -> gives leaf F S None h.
Proof. intros H. exists lf. repeat split. now apply inv_leaf. Qed.

Lemma held_pinned x T F : (x = true -> pinned T F) -> pinned T (held x T F).
Proof. destruct x; cbn; auto using pinned_here. Qed.

Lemma wp_filter f T : forall fuel x, tsize (erase T) < max_size -> tsize (erase T) + 2 <= Z.of_nat fuel ->
  refines1 x T (filter fuel (root T) f x) (tfilter f (erase T)).
Proof.
  induction T as [|l L IHL e R IHR]; intros [|fuel] x Hsz Hf h F S H HP; try (cbn in Hf; lia).
  { apply wp_ret, gives_leaf. destruct x; [exact H|now apply inv_leaf]. }
  { size_pos (erase (nd l L e R)). lia. }
  cbn [filter root]. destruct (inv_node _ _ _ _ _ _ _ H (held_pinned _ _ _ HP)) as (c & Hc & _).
  apply wp_bind, (wp_load _ _ _ _ Hc). cbn [ref_cnt lc rc]. apply wp_bind, (wp_size _ _ _ _ _ H (held_pinned _ _ _ HP)).
  pose proof (tsize_bin_bound l L e R) as B. size_pos (erase L). size_pos (erase R).
  pose proof (lent_intro _ _ _ _ _ [lf; lf] _ _ _ _ (inv_held_leaves _ _ _ _ _ H) HP Hc) as HC.
  apply (wp_fork_children h F S l L e R x _ lf lf lf HC (or_introl eq_refl) _ _ _ (tfilter f (erase L)) (tfilter f (erase R))).
  - apply refines1_refines, IHL; lia.
  - apply refines1_refines, IHR; lia.
  - intros h1 L' R' EL ER P. cbn [fst snd].
    pose proof (tsize_tfilter f (erase L)). pose proof (tsize_tfilter f (erase R)).
    size_pos (tfilter f (erase L)). size_pos (tfilter f (erase R)).
    apply wp_bind, (wp_parts_entry _ _ _ _ _ _ _ _ _ _ _ _ P). cbn [erase tfilter]. rewrite <- EL, <- ER in *.
    destruct (f e); [apply (wp_copy_join _ _ _ _ _ _ _ _ _ _ _ _ _ P)|apply (wp_drop_join2 _ _ _ _ _ _ _ _ _ _ _ _ P)];
      unfold join_fuel; lia.
Qed.

Lemma builds_fork par ml mr L R tl tr h F S {T} (k : ptr * ptr -> mem T) Q :
  builds L ml tl -> builds R mr tr -> inv h F S -> pinned L F -> pinned R F ->
  (forall h' L' R', erase L' = tl -> erase R' = tr -> inv h' (L' :: R' :: F) S -> wp (k (root L', root R')) Q h') ->
  wp (P ← fork par ml mr; k P) Q h.
Proof.
  intros HL HR H PL PR HQ. apply wp_bind. unfold fork. eapply wp_seq; [exact (HL _ _ _ H PL)|].
  intros p h1 (L' & -> & EL & H1). eapply wp_seq; [exact (HR _ _ _ H1 (pinned_cons _ _ _ PR))|].
  intros p h2 (R' & -> & ER & H2). apply wp_ret, HQ; auto. inv_solve.
Qed.

Lemma wp_map f T : forall fuel, tsize (erase T) < max_size -> tsize (erase T) + 2 <= Z.of_nat fuel ->
  builds T (map fuel (root T) f) (tmap f (erase T)).
Proof.
  induction T as [|l L IHL e R IHR]; intros [|fuel] Hsz Hf h F S H HP; try (cbn in Hf; lia).
  { now apply wp_ret, gives_leaf. }
  { size_pos (erase (nd l L e R)). lia. }
  cbn [map root]. destruct (inv_node _ _ _ _ _ _ _ H HP) as (c & Hc & _).
  apply wp_bind, (wp_load _ _ _ _ Hc). cbn [lc rc]. apply wp_bind, (wp_size _ _ _ _ _ H HP).
  pose proof (tsize_bin_bound l L e R) as B. size_pos (erase L). size_pos (erase R).
  apply (builds_fork _ _ _ L R (tmap f (erase L)) (tmap f (erase R)) h F S); eauto using pinned_left, pinned_right;
    [apply IHL; lia|apply IHR; lia|].
  intros h1 L' R' EL ER H1. cbn [fst snd]. apply wp_bind, (wp_get_entry _ _ _ _ _ _ _ _ H1 (pinned_cons _ _ _ (pinned_cons _ _ _ HP))).
  cbn [erase tmap]. rewrite <- EL, <- ER. apply (wp_make_join _ _ _ _ _ _ _ H1); rewrite EL, ER, !tsize_tmap; [|unfold join_fuel]; rewrite ?tsize_tmap; lia.
Qed.

Lemma wp_map_filter f T : forall fuel, tsize (erase T) < max_size -> tsize (erase T) + 2 <= Z.of_nat fuel ->
  builds T (map_filter fuel (root T) f) (tmap_filter f (erase T)).
Proof.
  induction T as [|l L IHL e R IHR]; intros [|fuel] Hsz Hf h F S H HP; try (cbn in Hf; lia).
  { now apply wp_ret, gives_leaf. }
  { size_pos (erase (nd l L e R)). lia. }
  cbn [map_filter root]. destruct (inv_node _ _ _ _ _ _ _ H HP) as (c & Hc & _).
  apply wp_bind, (wp_load _ _ _ _ Hc). cbn [lc rc]. apply wp_bind, (wp_size _ _ _ _ _ H HP).
  pose proof (tsize_bin_bound l L e R) as B. size_pos (erase L). size_pos (erase R).
  apply (builds_fork _ _ _ L R (tmap_filter f (erase L)) (tmap_filter f (erase R)) h F S); eauto using pinned_left, pinned_right;
    [apply IHL; lia|apply IHR; lia|].
  intros h1 L' R' EL ER H1. cbn [fst snd]. apply wp_bind, (wp_get_entry _ _ _ _ _ _ _ _ H1 (pinned_cons _ _ _ (pinned_cons _ _ _ HP))).
  pose proof (tsize_tmap_filter f (erase L)). pose proof (tsize_tmap_filter f (erase R)).
  size_pos (tmap_filter f (erase L)). size_pos (tmap_filter f (erase R)).
  cbn [erase tmap_filter]. rewrite <- EL, <- ER in *.
  destruct (f e); [apply (wp_make_join _ _ _ _ _ _ _ H1)|apply (wp_join2 _ _ _ _ _ _ H1)]; unfold join_fuel; lia.
Qed.

Lemma wp_single h F S e : inv h F S -> wp (single e) (gives (bin leaf e leaf) F S) h.
Proof.
  intros H. unfold single, basic_single. apply wp_bind, (wp_basic_make_node _ _ _ _ _ _ H). intros s h1 Es Ea H1.
  apply wp_bind, (wp_set_lc _ _ _ _ _ _ H1). intros h2 H2. apply wp_bind, (wp_set_rc _ _ _ _ _ _ H2). intros h3 H3.
  cbn [s_loc s_lc s_rc s_entry s_aug] in H3. rewrite Es, Ea in H3.
  destruct (inv_shell_node _ _ _ _ H3) as (z & Hz). cbn [s_loc s_lc s_rc s_entry s_aug] in Hz.
  apply wp_bind, (wp_store _ _ _ _ _ Hz), wp_ret. exists (nd (s_loc s) lf e lf). repeat split.
  apply (inv_close _ F S (s_loc s) lf e lf (from_entry e)); [|reflexivity]. now apply inv_leaf, inv_leaf.
Qed.

Lemma wp_from_array : forall fuel a h F S, inv h F S -> (length a < fuel)%nat -> Z.of_nat (length a) < max_size ->
  join_fuel (Z.of_nat (length a)) 0 fuel -> wp (from_array fuel a) (gives (tbuild (length a) a) F S) h.
Proof.
  induction fuel as [|fuel IH]; intros a h F S H Hf Hsz HJ; [lia|]. destruct a as [|e1 [|e2 l]].
  - now apply wp_ret, gives_leaf.
  - now apply wp_single.
  - destruct (tbuild_step (length (e2 :: l)) e1 e2 l) as (l1 & e & l2 & E1 & M1 & L1 & L2 & T1).
    set (a := e1 :: e2 :: l) in *. cbn [from_array]. fold a. unfold a at 1.
    replace (Z.to_nat (Z.of_nat (length a) / 2)) with (length l1) by (rewrite M1, Nat.div2_div, <- (Nat2Z.id (length a / 2)), Nat2Z.inj_div; reflexivity).
    change (tbuild (length a) a) with (tbuild (Datatypes.S (length (e2 :: l))) a). rewrite T1.
    set (n := Z.of_nat (length a)) in *. assert (En : n = Z.of_nat (length l1) + Z.of_nat (length l2) + 1).
    { unfold n. rewrite E1, length_app. cbn [length]. lia. }
    rewrite E1, list_lookup_middle by reflexivity.
    rewrite take_app_length. replace (drop (length l1 + 1) (l1 ++ e :: l2)) with l2 by (rewrite drop_app_add; reflexivity).
    apply wp_bind, (wp_make_node _ _ _ _ _ H). intros s h1 Es H1. unfold join_fuel in *.
    apply wp_bind. unfold fork. eapply wp_seq; [apply (IH l1 _ _ _ H1); unfold join_fuel; lia|]. intros p1 h2 (T1' & -> & ET1 & H2).
    eapply wp_seq; [apply (IH l2 _ _ _ H2); unfold join_fuel; lia|]. intros p2 h3 (T2' & -> & ET2 & H3). apply wp_ret. cbn [fst snd].
    assert (B1 : tsize (erase T1') = Z.of_nat (length l1)) by (rewrite ET1, tsize_elems, tbuild_elems by lia; reflexivity).
    assert (B2 : tsize (erase T2') = Z.of_nat (length l2)) by (rewrite ET2, tsize_elems, tbuild_elems by lia; reflexivity).
    rewrite (tbuild_fuel _ (length l1) l1), (tbuild_fuel _ (length l2) l2), <- ET1, <- ET2, <- Es by (cbn in *; lia).
    assert (H4 : inv h3 (T1' :: T2' :: F) (s :: S)) by inv_solve.
    eapply wp_mono; [apply (wp_node_join _ _ _ _ _ _ _ H4); unfold join_fuel; lia|apply returns_gives].
Qed.
End Seq.
