(* ===== verification/PamMap.v ===== *)
(** * Ordered maps ([trees/map_ops.h])

    Searches, splits, and the operations on one key of Aspen's ordered maps.  Loops have
    fuel; the callbacks of [insert_j] and [update_j] are arguments as in the code. *)

From S2P Require Import Prelude PamTree PamOps PamSets PamStore PamPrims PamGC PamJoin PamSeq.
From stdpp Require Import base option list gmap.
Import PamTree PamOps PamSets PamStore PamPrims PamGC PamJoin PamSeq.
#[local] Open Scope Z_scope.

Section Map.
Context {E : Entry} {A : Allocator}.

Definition get_key (s : ptr) : mem key_t := e ← get_entry s; mret e.1.
Definition get_val (s : ptr) : mem val_t := e ← get_entry s; mret e.2.

(** ** Searches *)

Fixpoint find (fuel : nat) (b : ptr) (key : key_t) : mem ptr :=
  match fuel, b with
  | O, _ => undefined
  | S _, None => mret None
  | S fuel, Some _ =>
    n ← load b; k ← get_key b;
    if comp key k then find fuel n.(lc) key
    else if comp k key then find fuel n.(rc) key
    else mret b
  end.

(** The loops of [previous], [previous_or_eq] and [next], with the candidate [r]. *)
Fixpoint previous_loop (fuel : nat) (r b : ptr) (key : key_t) : mem ptr :=
  match fuel, b with
  | O, _ => undefined
  | S _, None => mret r
  | S fuel, Some _ =>
    n ← load b; k ← get_key b;
    if comp k key then previous_loop fuel b n.(rc) key else previous_loop fuel r n.(lc) key
  end.

Fixpoint previous_or_eq_loop (fuel : nat) (r b : ptr) (key : key_t) : mem ptr :=
  match fuel, b with
  | O, _ => undefined
  | S _, None => mret r
  | S fuel, Some _ =>
    n ← load b; k ← get_key b;
    if comp k key then previous_or_eq_loop fuel b n.(rc) key
    else if comp key k then previous_or_eq_loop fuel r n.(lc) key
    else mret b
  end.

Fixpoint next_loop (fuel : nat) (r b : ptr) (key : key_t) : mem ptr :=
  match fuel, b with
  | O, _ => undefined
  | S _, None => mret r
  | S fuel, Some _ =>
    n ← load b; k ← get_key b;
    if comp key k then next_loop fuel b n.(lc) key else next_loop fuel r n.(rc) key
  end.

Definition previous (fuel : nat) (b : ptr) (key : key_t) : mem ptr := previous_loop fuel None b key.
Definition previous_or_eq (fuel : nat) (b : ptr) (key : key_t) : mem ptr := previous_or_eq_loop fuel None b key.
Definition next (fuel : nat) (b : ptr) (key : key_t) : mem ptr := next_loop fuel None b key.

Fixpoint rank_loop (fuel : nat) (ret : Z) (b : ptr) (key : key_t) : mem Z :=
  match fuel, b with
  | O, _ => undefined
  | S _, None => mret ret
  | S fuel, Some _ =>
    n ← load b; k ← get_key b;
    if comp k key then sl ← size n.(lc); rank_loop fuel (ret + u32 (1 + sl))%u64 n.(rc) key
    else rank_loop fuel ret n.(lc) key
  end.

Definition rank (fuel : nat) (b : ptr) (key : key_t) : mem Z := rank_loop fuel 0 b key.

Fixpoint first_loop (fuel : nat) (r b : ptr) : mem ptr :=
  match fuel, b with
  | O, _ => undefined
  | S _, None => mret r
  | S fuel, Some _ => n ← load b; first_loop fuel b n.(lc)
  end.

Fixpoint last_loop (fuel : nat) (r b : ptr) : mem ptr :=
  match fuel, b with
  | O, _ => undefined
  | S _, None => mret r
  | S fuel, Some _ => n ← load b; last_loop fuel b n.(rc)
  end.

Definition first (fuel : nat) (b : ptr) : mem ptr := first_loop fuel None b.
Definition last (fuel : nat) (b : ptr) : mem ptr := last_loop fuel None b.

(** ** Split *)

(** [removed] holds the entry of the key; [None] is the flag [removed] off. *)
Record split_info := mk_split { si_first : ptr; si_second : ptr; si_removed : option entry_t }.

Fixpoint split_copy (fuel : nat) (bst : ptr) (e : key_t) : mem split_info :=
  match fuel, bst with
  | O, _ => undefined
  | S _, None => mret (mk_split None None None)
  | S fuel, Some _ =>
    k ← get_key bst;
    if comp k e then
      en ← get_entry bst; join ← make_node en;
      n ← load bst; bstpair ← split_copy fuel n.(rc) e;
      increment n.(lc);;
      f ← node_join fuel n.(lc) bstpair.(si_first) join;
      mret (mk_split f bstpair.(si_second) bstpair.(si_removed))
    else if comp e k then
      en ← get_entry bst; join ← make_node en;
      n ← load bst; bstpair ← split_copy fuel n.(lc) e;
      increment n.(rc);;
      s ← node_join fuel bstpair.(si_second) n.(rc) join;
      mret (mk_split bstpair.(si_first) s bstpair.(si_removed))
    else
      n ← load bst;
      increment n.(lc);; increment n.(rc);;
      en ← get_entry bst;
      mret (mk_split n.(lc) n.(rc) (Some en))
  end.

Fixpoint split_inplace (fuel : nat) (bst : ptr) (e : key_t) : mem split_info :=
  match fuel, bst with
  | O, _ => undefined
  | S _, None => mret (mk_split None None None)
  | S fuel, Some _ =>
    n ← load bst;
    if 1 <? n.(ref_cnt) then
      ret ← split_copy fuel bst e;
      decrement_recursive fuel bst;;
      mret ret
    else
    k ← get_key bst;
    if comp k e then
      bstpair ← split_inplace fuel n.(rc) e;
      n ← load bst;
      f ← node_join fuel n.(lc) bstpair.(si_first) bst;
      mret (mk_split f bstpair.(si_second) bstpair.(si_removed))
    else if comp e k then
      bstpair ← split_inplace fuel n.(lc) e;
      n ← load bst;
      s ← node_join fuel bstpair.(si_second) n.(rc) bst;
      mret (mk_split bstpair.(si_first) s bstpair.(si_removed))
    else
      en ← get_entry bst;
      decrement bst;;
      mret (mk_split n.(lc) n.(rc) (Some en))
  end.

Definition split := split_inplace.

(** ** Values *)

Definition update_value (a : ptr) (op : entry_t -> val_t) : mem unit :=
  re ← get_entry a; set_entry a (re.1, op re).

Definition combine_values (a : ptr) (e : entry_t) (reverse : bool) (op : val_t -> val_t -> val_t) : mem unit :=
  re ← get_entry a;
  set_entry a (re.1, if reverse then op e.2 re.2 else op re.2 e.2).

Definition combine_values_with_key (a : ptr) (e : entry_t) (reverse : bool) (op : key_t -> val_t -> val_t -> val_t) : mem unit :=
  re ← get_entry a;
  set_entry a (re.1, if reverse then op e.1 e.2 re.2 else op e.1 re.2 e.2).

Definition update_values {VE} (a : ptr) (v0 : VE) (op : val_t -> VE -> val_t) : mem unit :=
  re ← get_entry a; set_entry a (re.1, op re.2 v0).

(** ** One key *)

Fixpoint update_j (fuel : nat) (b : ptr) (k : key_t) (f : entry_t -> val_t) (join : ptr -> ptr -> ptr -> mem ptr) (extra_ptr : bool) : mem ptr :=
  match fuel, b with
  | O, _ => undefined
  | S _, None => mret b
  | S fuel, Some _ =>
    n ← load b; let copy := extra_ptr || (1 <? n.(ref_cnt)) in
    bk ← get_key b;
    if comp bk k then
      l ← inc_if n.(lc) copy;
      r ← update_j fuel n.(rc) k f join copy;
      o ← copy_if fuel b copy extra_ptr;
      join l r o
    else if comp k bk then
      l ← update_j fuel n.(lc) k f join copy;
      r ← inc_if n.(rc) copy;
      o ← copy_if fuel b copy extra_ptr;
      join l r o
    else
      l ← inc_if n.(lc) copy;
      r ← inc_if n.(rc) copy;
      o ← copy_if fuel b copy extra_ptr;
      update_value o f;;
      join l r o
  end.

Definition update (fuel : nat) (b : ptr) (k : key_t) (f : entry_t -> val_t) (extra_ptr : bool) : mem ptr :=
  update_j fuel b k f (node_join fuel) extra_ptr.

Fixpoint insert_j (fuel : nat) (b : ptr) (e : entry_t) (f : val_t -> val_t -> val_t) (join : ptr -> ptr -> ptr -> mem ptr) (extra_ptr : bool) : mem ptr :=
  match fuel, b with
  | O, _ => undefined
  | S _, None => single e
  | S fuel, Some _ =>
    n ← load b; let copy := extra_ptr || (1 <? n.(ref_cnt)) in
    bk ← get_key b;
    if comp bk e.1 then
      l ← inc_if n.(lc) copy;
      r ← insert_j fuel n.(rc) e f join copy;
      o ← copy_if fuel b copy extra_ptr;
      join l r o
    else if comp e.1 bk then
      l ← insert_j fuel n.(lc) e f join copy;
      r ← inc_if n.(rc) copy;
      o ← copy_if fuel b copy extra_ptr;
      join l r o
    else
      l ← inc_if n.(lc) copy;
      r ← inc_if n.(rc) copy;
      o ← copy_if fuel b copy extra_ptr;
      combine_values o e false f;;
      join l r o
  end.

Definition insert (fuel : nat) (b : ptr) (e : entry_t) (f : val_t -> val_t -> val_t) (extra_ptr : bool) : mem ptr :=
  insert_j fuel b e f (node_join fuel) extra_ptr.

Fixpoint deletet (fuel : nat) (b : ptr) (k : key_t) (extra_ptr : bool) : mem ptr :=
  match fuel, b with
  | O, _ => undefined
  | S _, None => mret empty
  | S fuel, Some _ =>
    n ← load b; let copy := extra_ptr || (1 <? n.(ref_cnt)) in
    bk ← get_key b;
    if comp bk k then
      l ← inc_if n.(lc) copy;
      r ← deletet fuel n.(rc) k copy;
      o ← copy_if fuel b copy extra_ptr;
      node_join fuel l r o
    else if comp k bk then
      r ← inc_if n.(rc) copy;
      l ← deletet fuel n.(lc) k copy;
      o ← copy_if fuel b copy extra_ptr;
      node_join fuel l r o
    else
      o ← join2_i fuel n.(lc) n.(rc) copy copy;
      dec_if fuel b copy extra_ptr;;
      mret o
  end.

(** ** Specifications of the searches and updates *)

Context {AO : AllocatorOk A}.
Implicit Types (F : list ltree) (S : list shell) (h : heap).

Lemma wp_get_key h F S l L e R (Q : key_t -> heap -> Prop) :
  inv h F S -> pinned (nd l L e R) F -> Q (fst e) h -> wp (get_key (Some l)) Q h.
Proof. intros H HP HQ. apply wp_bind, (wp_get_entry _ _ _ _ _ _ _ _ H HP), wp_ret, HQ. Qed.

Lemma wp_update_j fj k f : forall fuel T x, tsize (erase T) < max_size -> tsize (erase T) + 2 <= Z.of_nat fuel ->
  tsize (erase T) + 1 <= Z.of_nat fj ->
  refines1 x T (update_j fuel (root T) k f (node_join fj) x) (tupdate f k (erase T)).
Proof.
  induction fuel as [|fuel IH]; intros [|l L e R] x Hsz Hf Hj h F S H HP; try (cbn in Hf; lia).
  { size_pos (erase (nd l L e R)). lia. }
  { apply wp_ret, gives_leaf. destruct x; [exact H|now apply inv_leaf]. }
  cbn [update_j root]. destruct (inv_node _ _ _ _ _ _ _ H (held_pinned _ _ _ HP)) as (c & Hc & _).
  apply wp_bind, (wp_load _ _ _ _ Hc). cbn [ref_cnt lc rc]. apply wp_bind, (wp_get_key _ _ _ _ _ _ _ _ H (held_pinned _ _ _ HP)).
  pose proof (lent_intro _ _ _ _ _ [lf; lf] _ _ _ _ (inv_held_leaves _ _ _ _ _ H) HP Hc) as HC. cbn [ref_cnt] in HC.
  pose proof (tsize_bin_bound l L e R) as B. size_pos (erase L). size_pos (erase R). cbn [erase tupdate].
  destruct (comp (fst e) k); [|destruct (comp k (fst e))].
  - apply (wp_rebuild _ _ _ _ _ _ _ _ _ _ _ lf _ _ _ _ _ _ HC (or_introl eq_refl));
      [exact (refines_inc_if _ L _)|apply refines1_refines, IH; lia|..]; unfold join_fuel; rewrite ?tupdate_size; lia.
  - apply (wp_rebuild _ _ _ _ _ _ _ _ _ _ _ lf _ _ _ _ _ _ HC (or_introl eq_refl));
      [apply refines1_refines, IH; lia|exact (refines_inc_if _ R _)|..]; unfold join_fuel; rewrite ?tupdate_size; lia.
  - apply (wp_rebuild_set _ _ _ _ _ _ _ _ _ _ _ lf _ _ _ _ _ _ HC (or_introl eq_refl));
      [exact (refines_inc_if _ L _)|exact (refines_inc_if _ R _)|..]; unfold join_fuel; lia.
Qed.

Lemma wp_insert_j fj e f : forall fuel T x, tsize (erase T) + 1 < max_size -> tsize (erase T) + 2 <= Z.of_nat fuel ->
  tsize (erase T) + 2 <= Z.of_nat fj ->
  refines1 x T (insert_j fuel (root T) e f (node_join fj) x) (tinsert f e (erase T)).
Proof.
  induction fuel as [|fuel IH]; intros [|l L e0 R] x Hsz Hf Hj h F S H HP; try (cbn in Hf; lia).
  { size_pos (erase (nd l L e0 R)). lia. }
  { apply wp_single. destruct x; [exact H|now apply inv_leaf]. }
  cbn [insert_j root]. destruct (inv_node _ _ _ _ _ _ _ H (held_pinned _ _ _ HP)) as (c & Hc & _).
  apply wp_bind, (wp_load _ _ _ _ Hc). cbn [ref_cnt lc rc]. apply wp_bind, (wp_get_key _ _ _ _ _ _ _ _ H (held_pinned _ _ _ HP)).
  pose proof (lent_intro _ _ _ _ _ [lf; lf] _ _ _ _ (inv_held_leaves _ _ _ _ _ H) HP Hc) as HC. cbn [ref_cnt] in HC.
  pose proof (tsize_bin_bound l L e0 R) as B. size_pos (erase L). size_pos (erase R). cbn [erase tinsert].
  pose proof (tinsert_size f e (erase L)). pose proof (tinsert_size f e (erase R)).
  destruct (comp (fst e0) (fst e)); [|destruct (comp (fst e) (fst e0))].
  - apply (wp_rebuild _ _ _ _ _ _ _ _ _ _ _ lf _ _ _ _ _ _ HC (or_introl eq_refl));
      [exact (refines_inc_if _ L _)|apply refines1_refines, IH; lia|..]; unfold join_fuel; lia.
  - apply (wp_rebuild _ _ _ _ _ _ _ _ _ _ _ lf _ _ _ _ _ _ HC (or_introl eq_refl));
      [apply refines1_refines, IH; lia|exact (refines_inc_if _ R _)|..]; unfold join_fuel; lia.
  - apply (wp_rebuild_set _ _ _ _ _ _ _ _ _ _ _ lf _ _ _ _ _ _ HC (or_introl eq_refl));
      [exact (refines_inc_if _ L _)|exact (refines_inc_if _ R _)|..]; unfold join_fuel; lia.
Qed.

(** The children of a node put together. *)
Lemma wp_children_join2 copy x l L e R F S h {T} m t (k : ptr -> mem T) (Q : T -> heap -> Prop) :
  lent copy x l L e R [] F S h -> refines2 copy L copy R m t ->
  (forall h' T', erase T' = t -> parts copy x l L e R T' lf F S h' -> wp (k (root T')) Q h') ->
  wp (o ← m; k o) Q h.
Proof.
  intros HC Hm HQ. destruct copy; destruct HC as [H HP]; cbn [app] in *.
  - assert (HT : pinned (nd l L e R) (held x (nd l L e R) F)) by now apply pinned_held.
    eapply wp_seq; [apply (Hm h (held x (nd l L e R) F) S H); eauto using pinned_left, pinned_right|].
    intros p h1 (T' & -> & ET & H1). apply HQ; [exact ET|]. split; [|exact HP].
    eapply inv_perm; [apply inv_leaf, H1|apply Permutation_swap|reflexivity].
  - eapply wp_seq; [apply (Hm h F (shell_of l L e R :: S) HP); discriminate|].
    intros p h1 (T' & -> & ET & H1). apply HQ; [exact ET|]. split; [exact H|].
    eapply inv_perm; [apply inv_leaf, H1|apply Permutation_swap|reflexivity].
Qed.

Lemma wp_deletet k : forall fuel T x, tsize (erase T) < max_size -> tsize (erase T) + 2 <= Z.of_nat fuel ->
  refines1 x T (deletet fuel (root T) k x) (tdelete k (erase T)).
Proof.
  induction fuel as [|fuel IH]; intros [|l L e R] x Hsz Hf h F S H HP; try (cbn in Hf; lia).
  { size_pos (erase (nd l L e R)). lia. }
  { apply wp_ret, gives_leaf. destruct x; [exact H|now apply inv_leaf]. }
  cbn [deletet root]. destruct (inv_node _ _ _ _ _ _ _ H (held_pinned _ _ _ HP)) as (c & Hc & _).
  apply wp_bind, (wp_load _ _ _ _ Hc). cbn [ref_cnt lc rc]. apply wp_bind, (wp_get_key _ _ _ _ _ _ _ _ H (held_pinned _ _ _ HP)).
  pose proof (lent_intro _ _ _ _ _ [lf; lf] _ _ _ _ (inv_held_leaves _ _ _ _ _ H) HP Hc) as HC.
  pose proof (lent_intro _ _ _ _ _ [] _ _ _ _ H HP Hc) as HC0. cbn [ref_cnt] in HC, HC0.
  pose proof (tsize_bin_bound l L e R) as B. size_pos (erase L). size_pos (erase R). cbn [erase tdelete].
  pose proof (tdelete_size k (erase L)). pose proof (tdelete_size k (erase R)).
  size_pos (tdelete k (erase L)). size_pos (tdelete k (erase R)).
  destruct (comp (fst e) k); [|destruct (comp k (fst e))].
  - apply (wp_rebuild _ _ _ _ _ _ _ _ _ _ _ lf _ _ _ _ _ _ HC (or_introl eq_refl));
      [exact (refines_inc_if _ L _)|apply refines1_refines, IH; lia|..]; unfold join_fuel; lia.
  - apply (wp_rebuild_rl _ _ _ _ _ _ _ _ _ _ _ lf _ _ _ _ _ _ HC (or_introl eq_refl));
      [apply refines1_refines, IH; lia|exact (refines_inc_if _ R _)|..]; unfold join_fuel; lia.
  - eapply (wp_children_join2 _ _ _ _ _ _ _ _ _ _ _ _ _ HC0); [apply wp_join2_i; unfold join_fuel; lia|].
    intros h1 T' <- P. assert (Hd : (tdepth (erase (nd l L e R)) < fuel)%nat) by (apply depth_fuel; lia).
    apply wp_bind, (wp_dec_if _ _ _ _ _ _ _ _ _ _ _ _ _ Hd P). intros h2 H2.
    apply wp_ret. exists T'. repeat split. apply inv_leaf. inv_solve.
Qed.

(** *** Split *)

(** The result of a split: two trees of one's own and the entry of the key. *)
Definition splits (t : tree) (k : key_t) F S (r : split_info) h : Prop := exists L R,
  si_first r = root L /\ si_second r = root R /\ split_at t k = (erase L, si_removed r, erase R) /\ inv h (L :: R :: F) S.

Lemma splits_leaf k F S h : inv h F S -> splits leaf k F S (mk_split None None None) h.
Proof. intros H. exists lf, lf. repeat split. now apply inv_leaf, inv_leaf. Qed.

(** One step up: the tree on one side of the key is joined to the result. *)
Lemma wp_split_right fuel h F S s L R k r e :
  splits (erase R) k (L :: F) (s :: S) r h -> s_entry s = e -> comp (fst e) k = true ->
  tsize (erase L) + tsize (erase R) + 1 < max_size -> join_fuel (tsize (erase L)) (tsize (erase R)) fuel ->
  wp (f ← node_join fuel (root L) (si_first r) (Some (s_loc s)); mret (mk_split f (si_second r) (si_removed r)))
     (splits (bin (erase L) e (erase R)) k F S) h.
Proof.
  intros (R1 & R2 & E1 & E2 & ES & H) Ee C Hsz HJ. pose proof (split_size (erase R) k) as Z. rewrite ES in Z.
  size_pos (erase R1). size_pos (erase R2). unfold join_fuel in *.
  assert (H' : inv h (L :: R1 :: R2 :: F) (s :: S)) by inv_solve. rewrite E1.
  apply wp_bind. eapply wp_mono; [apply (wp_node_join _ _ _ _ _ _ _ H'); destruct (si_removed r); unfold join_fuel; lia|].
  intros p h1 (T & -> & ET & HT & _). apply wp_ret. exists T, R2. rewrite Ee in ET. cbn. rewrite C, ES, ET. auto.
Qed.

Lemma wp_split_left fuel h F S s L R k r e :
  splits (erase L) k (R :: F) (s :: S) r h -> s_entry s = e -> comp (fst e) k = false -> comp k (fst e) = true ->
  tsize (erase L) + tsize (erase R) + 1 < max_size -> join_fuel (tsize (erase L)) (tsize (erase R)) fuel ->
  wp (f ← node_join fuel (si_second r) (root R) (Some (s_loc s)); mret (mk_split (si_first r) f (si_removed r)))
     (splits (bin (erase L) e (erase R)) k F S) h.
Proof.
  intros (L1 & L2 & E1 & E2 & ES & H) Ee C1 C Hsz HJ. pose proof (split_size (erase L) k) as Z. rewrite ES in Z.
  size_pos (erase L1). size_pos (erase L2). unfold join_fuel in *.
  assert (H' : inv h (L2 :: R :: L1 :: F) (s :: S)) by inv_solve. rewrite E2.
  apply wp_bind. eapply wp_mono; [apply (wp_node_join _ _ _ _ _ _ _ H'); destruct (si_removed r); unfold join_fuel; lia|].
  intros p h1 (T & -> & ET & HT & _). apply wp_ret. exists L1, T. rewrite Ee in ET. cbn. rewrite C1, C, ES, ET. repeat split; auto. inv_solve.
Qed.

Lemma wp_split_copy k T : forall fuel h F S, tsize (erase T) < max_size -> tsize (erase T) + 2 <= Z.of_nat fuel ->
  inv h F S -> pinned T F -> wp (split_copy fuel (root T) k) (splits (erase T) k F S) h.
Proof.
  induction T as [|l L IHL e R IHR]; intros [|fuel] h F S Hsz Hf H HP; try (cbn in Hf; lia).
  { now apply wp_ret, splits_leaf. }
  { size_pos (erase (nd l L e R)). lia. }
  cbn [split_copy root]. apply wp_bind, (wp_get_key _ _ _ _ _ _ _ _ H HP).
  pose proof (tsize_bin_bound l L e R) as B. size_pos (erase L). size_pos (erase R). cbn [erase].
  destruct (comp (fst e) k) eqn:C1; [|destruct (comp k (fst e)) eqn:C2].
  - apply wp_bind, (wp_get_entry _ _ _ _ _ _ _ _ H HP), wp_bind, (wp_make_node _ _ _ _ _ H). intros s h1 Es H1.
    destruct (inv_node _ _ _ _ _ _ _ H1 HP) as (c & Hc & _). apply wp_bind, (wp_load _ _ _ _ Hc). cbn [lc rc].
    eapply wp_seq; [apply (IHR fuel _ _ _ ltac:(lia) ltac:(lia) H1 (pinned_right _ _ _ _ _ HP))|].
    intros r h2 (R1 & R2 & E1 & E2 & ES & H2). apply wp_bind, (wp_increment _ _ _ _ _ H2).
    { apply pinned_cons, pinned_cons, (pinned_left _ _ _ _ _ HP). }
    intros h3 H3. apply (wp_split_right _ _ _ _ s); auto; [|unfold join_fuel; lia..].
    exists R1, R2. repeat split; auto. inv_solve.
  - apply wp_bind, (wp_get_entry _ _ _ _ _ _ _ _ H HP), wp_bind, (wp_make_node _ _ _ _ _ H). intros s h1 Es H1.
    destruct (inv_node _ _ _ _ _ _ _ H1 HP) as (c & Hc & _). apply wp_bind, (wp_load _ _ _ _ Hc). cbn [lc rc].
    eapply wp_seq; [apply (IHL fuel _ _ _ ltac:(lia) ltac:(lia) H1 (pinned_left _ _ _ _ _ HP))|].
    intros r h2 (L1 & L2 & E1 & E2 & ES & H2). apply wp_bind, (wp_increment _ _ _ _ _ H2).
    { apply pinned_cons, pinned_cons, (pinned_right _ _ _ _ _ HP). }
    intros h3 H3. apply (wp_split_left _ _ _ _ s); auto; [|unfold join_fuel; lia..].
    exists L1, L2. repeat split; auto. inv_solve.
  - destruct (inv_node _ _ _ _ _ _ _ H HP) as (c & Hc & _). apply wp_bind, (wp_load _ _ _ _ Hc). cbn [lc rc].
    apply wp_bind, (wp_increment _ _ _ _ _ H (pinned_left _ _ _ _ _ HP)). intros h1 H1.
    apply wp_bind, (wp_increment _ _ _ _ _ H1 (pinned_cons _ _ _ (pinned_right _ _ _ _ _ HP))). intros h2 H2.
    apply wp_bind, (wp_get_entry _ _ _ _ _ _ _ _ H2 (pinned_cons _ _ _ (pinned_cons _ _ _ HP))), wp_ret.
    exists L, R. cbn. rewrite C1, C2. repeat split. inv_solve.
Qed.

Lemma wp_split k T : forall fuel h F S, tsize (erase T) < max_size -> tsize (erase T) + 3 <= Z.of_nat fuel ->
  inv h (T :: F) S -> wp (split fuel (root T) k) (splits (erase T) k F S) h.
Proof.
  unfold split. induction T as [|l L IHL e R IHR]; intros [|fuel] h F S Hsz Hf H; try (cbn in Hf; lia).
  { now apply wp_ret, splits_leaf, inv_leaf. }
  { size_pos (erase (nd l L e R)). lia. }
  cbn [split_inplace root]. destruct (inv_node _ _ _ _ _ _ _ H (pinned_here _ _)) as (c & Hc & _).
  apply wp_bind, (wp_load _ _ _ _ Hc). cbn [ref_cnt lc rc].
  pose proof (tsize_bin_bound l L e R) as B. size_pos (erase L). size_pos (erase R).
  destruct (1 <? c) eqn:C.
  - eapply wp_seq; [apply (wp_split_copy k (nd l L e R) fuel _ _ _ Hsz ltac:(lia) H (pinned_here _ _))|].
    intros r h1 (L1 & R1 & E1 & E2 & ES & H1). assert (H1' : inv h1 (nd l L e R :: L1 :: R1 :: F) S) by inv_solve.
    assert (Hd : (tdepth (erase (nd l L e R)) < fuel)%nat) by (apply depth_fuel; lia).
    apply wp_bind, (wp_decrement_recursive (nd l L e R) _ _ _ _ _ Hd H1').
    intros b h2 H2. apply wp_ret. exists L1, R1. auto.
  - apply wp_bind, (wp_get_key _ _ _ _ _ _ _ _ H (pinned_here _ _)). cbn [erase].
    pose proof (lent_intro false l L e R [] _ _ _ _ H ltac:(discriminate) Hc) as HC. cbn [ref_cnt orb] in HC. rewrite C in HC.
    destruct HC as [_ HC]. cbn [app] in HC.
    destruct (comp (fst e) k) eqn:C1; [|destruct (comp k (fst e)) eqn:C2].
    + assert (HC' : inv h (R :: L :: F) (shell_of l L e R :: S)) by inv_solve.
      eapply wp_seq; [apply (IHR fuel _ _ _ ltac:(lia) ltac:(lia) HC')|]. intros r h1 HS.
      pose proof HS as (R1 & R2 & _ & _ & _ & H1). apply wp_bind, (wp_load_shell _ _ _ _ _ H1). intros z. cbn [lc rc s_lc s_rc shell_of].
      apply (wp_split_right _ _ _ _ _ _ _ _ _ _ HS eq_refl C1); [lia|unfold join_fuel; lia].
    + eapply wp_seq; [apply (IHL fuel _ _ _ ltac:(lia) ltac:(lia) HC)|]. intros r h1 HS.
      pose proof HS as (L1 & L2 & _ & _ & _ & H1). apply wp_bind, (wp_load_shell _ _ _ _ _ H1). intros z. cbn [lc rc s_lc s_rc shell_of].
      apply (wp_split_left _ _ _ _ _ _ _ _ _ _ HS eq_refl C1 C2); [lia|unfold join_fuel; lia].
    + apply wp_bind, (wp_get_entry _ _ _ _ _ _ _ _ H (pinned_here _ _)), wp_bind, (wp_decrement_shell _ _ _ _ _ HC).
      intros h1 H1. apply wp_ret. exists L, R. cbn. rewrite C1, C2. auto.
Qed.
End Map.
