(* ===== verification/PamBulk.v ===== *)
(** * Bulk operations on ordered maps ([trees/map_ops.h])

    Union, intersection and difference of two maps, the insertion of a sorted array, and
    the part of a map in a range of keys. *)

From S2P Require Import Prelude PamTree PamOps PamSets PamMulti PamStore PamPrims PamGC PamJoin PamSeq PamMap.
From stdpp Require Import base option list gmap.
Import PamTree PamOps PamSets PamMulti PamStore PamPrims PamGC PamJoin PamSeq PamMap.
#[local] Open Scope Z_scope.

Section Bulk.
Context {E : Entry} {A : Allocator}.

(** ** Two maps *)

Fixpoint uniont (fuel : nat) (b1 b2 : ptr) (op : val_t -> val_t -> val_t) (extra_b2 : bool) : mem ptr :=
  match fuel with
  | O => undefined
  | S fuel =>
    match b1, b2 with
    | None, _ => inc_if b2 extra_b2
    | _, None => mret b1
    | Some _, Some _ =>
      n1 ← size b1; n2 ← size b2;
      n ← load b2; let copy := extra_b2 || (1 <? n.(ref_cnt)) in
      r ← (if copy then e ← get_entry b2; make_node e else mret b2);
      k ← get_key b2; bsts ← split fuel b1 k;
      n ← load b2;
      P ← fork (do_parallel n1 n2) (uniont fuel bsts.(si_first) n.(lc) op copy) (uniont fuel bsts.(si_second) n.(rc) op copy);
      (if copy && negb extra_b2 then decrement_recursive fuel b2;; mret tt else mret tt);;
      match bsts.(si_removed) with Some e => combine_values r e true op | None => mret tt end;;
      node_join fuel P.1 P.2 r
    end
  end.

Fixpoint intersect (fuel : nat) (b1 b2 : ptr) (op : val_t -> val_t -> val_t) (extra_b2 : bool) : mem ptr :=
  match fuel with
  | O => undefined
  | S fuel =>
    match b1, b2 with
    | None, _ => (if extra_b2 then mret tt else decrement_recursive fuel b2;; mret tt);; mret None
    | _, None => decrement_recursive fuel b1;; mret None
    | Some _, Some _ =>
      n1 ← size b1; n2 ← size b2;
      n ← load b2; let copy := extra_b2 || (1 <? n.(ref_cnt)) in
      k ← get_key b2; bsts ← split fuel b1 k;
      n ← load b2;
      P ← fork (do_parallel n1 n2) (intersect fuel bsts.(si_first) n.(lc) op copy) (intersect fuel bsts.(si_second) n.(rc) op copy);
      match bsts.(si_removed) with
      | Some e1 =>
        e2 ← get_entry b2;
        r ← make_node (e2.1, op e1.2 e2.2);
        dec_if fuel b2 copy extra_b2;;
        node_join fuel P.1 P.2 r
      | None =>
        dec_if fuel b2 copy extra_b2;;
        join2 fuel P.1 P.2
      end
    end
  end.

Fixpoint difference (fuel : nat) (b1 b2 : ptr) (extra_b1 : bool) : mem ptr :=
  match fuel with
  | O => undefined
  | S fuel =>
    match b1, b2 with
    | None, _ => decrement_recursive fuel b2;; mret None
    | _, None => inc_if b1 extra_b1
    | Some _, Some _ =>
      n1 ← size b1; n2 ← size b2;
      n ← load b1; let copy := extra_b1 || (1 <? n.(ref_cnt)) in
      k ← get_key b1; bsts ← split fuel b2 k;
      n ← load b1;
      P ← fork (do_parallel n1 n2) (difference fuel n.(lc) bsts.(si_first) copy) (difference fuel n.(rc) bsts.(si_second) copy);
      match bsts.(si_removed) with
      | Some _ => dec_if fuel b1 copy extra_b1;; join2 fuel P.1 P.2
      | None => o ← copy_if fuel b1 copy extra_b1; node_join fuel P.1 P.2 o
      end
    end
  end.

(** ** Sorted arrays *)

Definition lift {T} (o : option T) : mem T := fun h => match o with Some a => Some (a, h) | None => None end.

(** The three functions on sorted arrays differ in what an empty map becomes ([leaf_case])
    and in how an entry is updated under a key of the array ([combine_at]). *)
Fixpoint multi_sorted {X} (keyof : X -> key_t) (leaf_case : nat -> list X -> mem ptr) (combine_at : ptr -> X -> mem unit)
    (fuel : nat) (b : ptr) (a : list X) (extra_ptr run_seq : bool) : mem ptr :=
  match fuel with
  | O => undefined
  | S fuel =>
    match b with
    | None => leaf_case fuel a
    | Some _ =>
      match a with
      | [] => inc_if b extra_ptr
      | _ =>
        n ← load b; let copy := extra_ptr || (1 <? n.(ref_cnt)) in
        bk ← get_key b;
        mid ← lift (binary_search a (fun x => comp (keyof x) bk));
        dup ← (if (mid <? length a)%nat then x ← lift (a !! mid); mret (negb (comp bk (keyof x))) else mret false);
        sz ← size b;
        P ← fork (do_parallel sz (Z.of_nat (length a)) && negb run_seq)
              (multi_sorted keyof leaf_case combine_at fuel n.(lc) (take mid a) copy run_seq)
              (multi_sorted keyof leaf_case combine_at fuel n.(rc) (drop (mid + Nat.b2n dup) a) copy run_seq);
        r ← copy_if fuel b copy extra_ptr;
        (if dup : bool then x ← lift (a !! mid); combine_at r x else mret tt);;
        node_join fuel P.1 P.2 r
      end
    end
  end.

Definition multi_insert_sorted (fuel : nat) (b : ptr) (a : list entry_t) (op : val_t -> val_t -> val_t) (extra_ptr run_seq : bool) : mem ptr :=
  multi_sorted fst from_array (fun r e => combine_values r e false op) fuel b a extra_ptr run_seq.

Definition multi_insert_sorted_with_values (fuel : nat) (b : ptr) (a : list entry_t) (op : key_t -> val_t -> val_t -> val_t) (extra_ptr run_seq : bool) : mem ptr :=
  multi_sorted fst from_array (fun r e => combine_values_with_key r e false op) fuel b a extra_ptr run_seq.

Definition multi_update_sorted {VE} (fuel : nat) (b : ptr) (a : list (key_t * VE)) (op : val_t -> VE -> val_t) (extra_ptr run_seq : bool) : mem ptr :=
  multi_sorted fst (fun _ _ => mret None) (fun r x => update_values r x.2 op) fuel b a extra_ptr run_seq.

(** ** Ranges *)

Fixpoint range_root (fuel : nat) (b : ptr) (key_left key_right : key_t) : mem ptr :=
  match fuel, b with
  | O, _ => undefined
  | S _, None => mret None
  | S fuel, Some _ =>
    n ← load b; k ← get_key b;
    if comp key_right k then range_root fuel n.(lc) key_left key_right
    else if comp k key_left then range_root fuel n.(rc) key_left key_right
    else mret b
  end.

Fixpoint left (fuel : nat) (b : ptr) (e : key_t) : mem ptr :=
  match fuel, b with
  | O, _ => undefined
  | S _, None => mret None
  | S fuel, Some _ =>
    n ← load b; k ← get_key b;
    if comp e k then left fuel n.(lc) e
    else
      en ← get_entry b; r ← make_node en;
      increment n.(lc);;
      t ← left fuel n.(rc) e;
      node_join fuel n.(lc) t r
  end.

Fixpoint right (fuel : nat) (b : ptr) (e : key_t) : mem ptr :=
  match fuel, b with
  | O, _ => undefined
  | S _, None => mret None
  | S fuel, Some _ =>
    n ← load b; k ← get_key b;
    if comp k e then right fuel n.(rc) e
    else
      en ← get_entry b; r ← make_node en;
      increment n.(rc);;
      t ← right fuel n.(lc) e;
      node_join fuel t n.(rc) r
  end.

Definition range (fuel : nat) (b : ptr) (low high : key_t) : mem ptr :=
  r ← range_root fuel b low high;
  match r with
  | None => mret None
  | Some _ =>
    n ← load r; en ← get_entry r; rr ← make_node en;
    t1 ← right fuel n.(lc) low; t2 ← left fuel n.(rc) high;
    node_join fuel t1 t2 rr
  end.

Fixpoint left_number (fuel : nat) (b : ptr) (rg : Z) : mem ptr :=
  match fuel, b with
  | O, _ => undefined
  | S _, None => mret None
  | S fuel, Some _ =>
    if rg =? 0 then mret None else
    sz ← size b;
    if sz <=? rg then increment b;; mret b else
    n ← load b; x ← size n.(lc);
    if x <? rg then
      en ← get_entry b; rr ← make_node en;
      increment n.(lc);;
      rtree ← left_number fuel n.(rc) (rg - x - 1)%u64;
      node_join fuel n.(lc) rtree rr
    else left_number fuel n.(lc) rg
  end.

(** The loop that skips the keys below [low]. *)
Fixpoint skip_below (fuel : nat) (b : ptr) (low : key_t) : mem ptr :=
  match fuel, b with
  | O, _ => undefined
  | S _, None => mret None
  | S fuel, Some _ =>
    n ← load b; k ← get_key b;
    if comp k low then skip_below fuel n.(rc) low else mret b
  end.

Fixpoint range_num (fuel : nat) (b : ptr) (low : key_t) (rg : Z) : mem ptr :=
  match fuel with
  | O => undefined
  | S fuel =>
    b ← skip_below (S fuel) b low;
    match b with
    | None => mret None
    | Some _ =>
      n ← load b;
      ltree ← range_num fuel n.(lc) low rg;
      x ← size ltree;
      if x =? rg then mret ltree else
      rtree ← left_number fuel n.(rc) (rg - x - 1)%u64;
      en ← get_entry b; rr ← make_node en;
      node_join fuel ltree rtree rr
    end
  end.

(** ** Values and keys *)

(** The functions on entries change the values only. *)
Definition map (fuel : nat) (b : ptr) (f : entry_t -> val_t) : mem ptr := PamSeq.map fuel b (fun a => (a.1, f a)).

Definition map_filter (fuel : nat) (b : ptr) (f : entry_t -> option val_t) : mem ptr :=
  PamSeq.map_filter fuel b (fun a => match f a with Some v => Some (a.1, v) | None => None end).

(** ** Specifications *)

Context {AO : AllocatorOk A}.
Implicit Types (F : list ltree) (S : list shell) (h : heap).

(** *** Two maps *)

Lemma pinned_app T D F : pinned T F -> pinned T (D ++ F).
Proof. intros H. induction D; cbn; auto using pinned_cons. Qed.

(** A node keeps its fields as long as it is lent or taken apart. *)
Lemma lent_node copy x l L e R D F S h :
  lent copy x l L e R D F S h -> exists n, h !! l = Some n /\ lc n = root L /\ rc n = root R /\ entry n = e.
Proof.
  destruct copy; intros [H HP].
  - assert (HT : pinned (nd l L e R) (D ++ held x (nd l L e R) F)) by (apply pinned_app, pinned_held; exact HP).
    destruct (inv_node _ _ _ _ _ _ _ H HT) as (c & Hc & _). eauto.
  - destruct (inv_shell_node _ _ _ _ HP) as (z & Hz). eauto.
Qed.

(** The other map is split at the node's key, and its parts go with the children. *)
Lemma wp_split_lent fuel copy x l L e R T F S h k (Q : split_info -> heap -> Prop) :
  lent copy x l L e R [T] F S h -> tsize (erase T) < max_size -> tsize (erase T) + 3 <= Z.of_nat fuel ->
  (forall r h' T1 T2, si_first r = root T1 -> si_second r = root T2 -> split_at (erase T) k = (erase T1, si_removed r, erase T2) ->
    lent copy x l L e R [T1; T2] F S h' -> Q r h') ->
  wp (split fuel (root T) k) Q h.
Proof.
  intros HC Hsz Hf HQ. destruct copy; destruct HC as [H HP]; cbn [app] in *.
  - eapply wp_mono; [apply (wp_split k T fuel _ _ _ Hsz Hf H)|]. intros r h' (T1 & T2 & E1 & E2 & ES & H').
    apply (HQ r h' T1 T2 E1 E2 ES). split; assumption.
  - assert (HP' : inv h (T :: L :: R :: F) (shell_of l L e R :: S)) by inv_solve.
    eapply wp_mono; [apply (wp_split k T fuel _ _ _ Hsz Hf HP')|]. intros r h' (T1 & T2 & E1 & E2 & ES & H').
    apply (HQ r h' T1 T2 E1 E2 ES). split; [assumption|]. cbn [app]. inv_solve.
Qed.

Lemma wp_union_entry h F S s o op (Q : unit -> heap -> Prop) :
  inv h F (s :: S) ->
  (forall h' s', s_loc s' = s_loc s -> s_entry s' = merge_entry op o (s_entry s) -> inv h' F (s' :: S) -> Q tt h') ->
  wp (match o with Some e => combine_values (Some (s_loc s)) e true op | None => mret tt end) Q h.
Proof.
  intros H HQ. destruct o as [e|]; [|apply wp_ret, (HQ h s); auto].
  unfold combine_values. apply (wp_set_val _ _ _ _ (fun re => op e.2 re.2) _ H). exact HQ.
Qed.

(** The node of the result: a new one, or the node itself. *)
Definition result_node (copy : bool) l L e R (s : shell) : Prop := s_entry s = e /\ (copy = false -> s = shell_of l L e R).
Definition with_result (copy : bool) (s : shell) S : list shell := if copy then s :: S else S.

Lemma wp_result_node (copy x : bool) l L e R D F S h (Q : ptr -> heap -> Prop) :
  lent copy x l L e R D F S h ->
  (forall h' s, result_node copy l L e R s -> lent copy x l L e R D F (with_result copy s S) h' -> Q (Some (s_loc s)) h') ->
  wp (if copy then en ← get_entry (Some l); make_node en else mret (Some l)) Q h.
Proof.
  intros HC HQ. destruct (lent_node _ _ _ _ _ _ _ _ _ _ HC) as (n & Hn & _ & _ & <-). destruct copy.
  - apply wp_bind, wp_bind, (wp_load _ _ _ _ Hn), wp_ret. destruct HC as [H HP].
    apply (wp_make_node _ _ _ _ _ H). intros s h1 Es H1. apply HQ; [now split|now split].
  - apply wp_ret, (HQ h (shell_of l L (entry n) R)); [now split|exact HC].
Qed.

(** The node that was copied is dropped. *)
Lemma wp_drop_copied fuel copy x l L e R L' R' F S h s (Q : unit -> heap -> Prop) :
  parts copy x l L e R L' R' F (with_result copy s S) h -> result_node copy l L e R s -> tsize (erase (nd l L e R)) < Z.of_nat fuel ->
  (forall h', inv h' (L' :: R' :: F) (s :: S) -> Q tt h') ->
  wp (if copy && negb x then decrement_recursive fuel (Some l);; mret tt else mret tt) Q h.
Proof.
  intros HPa [_ Hs] Hf HQ. destruct copy; destruct HPa as [H HP]; cbn [with_result andb] in *.
  - destruct x; cbn [held negb] in *; [apply wp_ret, HQ, H|].
    apply wp_bind, (wp_decrement_recursive (nd l L e R) fuel _ (L' :: R' :: F) (s :: S)); [now apply depth_fuel|inv_solve|].
    intros b h2 H2. apply wp_ret, HQ, H2.
  - rewrite (Hs eq_refl) in HQ. apply wp_ret, HQ, HP.
Qed.

Lemma wp_uniont op T2 : forall fuel T1 x,
  tsize (erase T1) + tsize (erase T2) < max_size -> tsize (erase T1) + tsize (erase T2) + 3 <= Z.of_nat fuel ->
  refines x T2 T1 lf (uniont fuel (root T1) (root T2) op x) (tunion op (erase T1) (erase T2)).
Proof.
  induction T2 as [|l L IHL e R IHR]; intros [|fuel] T1 x Hsz Hf; try (size_pos (erase T1); cbn in Hf; lia).
  { intros h F S H HP _. destruct T1 as [|l1 L1 e1 R1]; cbn [root uniont erase].
    - exact (refines_inc_if x lf lf h F S H HP (or_introl eq_refl)).
    - apply wp_ret. exists (nd l1 L1 e1 R1). repeat split. destruct x; [exact H|exact (proj1 (inv_leaf _ _ _) H)]. }
  { size_pos (erase T1). size_pos (erase (nd l L e R)). lia. }
  destruct T1 as [|l1 L1 e1 R1]; [exact (refines_inc_if x (nd l L e R) lf)|].
  set (T1 := nd l1 L1 e1 R1) in *. intros h F S H HP _. cbn [root uniont].
  assert (PT1 : pinned T1 (held x (nd l L e R) (T1 :: F))).
  { apply (pinned_perm _ (T1 :: held x (nd l L e R) F)); [symmetry; apply held_cons|apply pinned_here]. }
  assert (PT2 : pinned (nd l L e R) (held x (nd l L e R) (T1 :: F))).
  { apply pinned_held. intros Hx. apply pinned_cons. auto. }
  apply wp_bind, (wp_size _ _ _ T1 _ H PT1), wp_bind, (wp_size _ _ _ _ _ H PT2).
  destruct (inv_node _ _ _ _ _ _ _ H PT2) as (c & Hc & _). apply wp_bind, (wp_load _ _ _ _ Hc). cbn [ref_cnt].
  pose proof (lent_intro _ _ _ _ _ [T1] _ _ _ _ H HP Hc) as HC. cbn [ref_cnt] in HC. set (copy := x || (1 <? c)) in *.
  pose proof (tsize_bin_bound l L e R) as B. size_pos (erase L). size_pos (erase R).
  apply wp_bind, (wp_result_node _ _ _ _ _ _ _ _ _ _ _ HC). intros h1 s Hs HC1.
  destruct (lent_node _ _ _ _ _ _ _ _ _ _ HC1) as (n1 & Hn1 & _ & _ & En1).
  apply wp_bind, wp_bind, wp_bind, (wp_load _ _ _ _ Hn1), wp_ret, wp_ret. rewrite En1.
  apply wp_bind, (wp_split_lent _ _ _ _ _ _ _ _ _ _ _ _ _ HC1); [lia|lia|]. intros r h2 A1 B1 E1 E2 ES HC2.
  pose proof (split_size (erase T1) (fst e)) as Z. rewrite ES in Z.
  destruct (lent_node _ _ _ _ _ _ _ _ _ _ HC2) as (n2 & Hn2 & El & Er & _).
  apply wp_bind, (wp_load _ _ _ _ Hn2). rewrite El, Er, E1, E2.
  size_pos (erase T1). size_pos (erase A1). size_pos (erase B1). pose proof (tunion_size op (erase L) (erase A1)). pose proof (tunion_size op (erase R) (erase B1)).
  apply (wp_fork_children _ _ _ _ _ _ _ _ _ _ _ lf HC2 (or_introl eq_refl) _ _ _ (tunion op (erase A1) (erase L)) (tunion op (erase B1) (erase R)));
    [apply IHL; destruct (si_removed r); lia|apply IHR; destruct (si_removed r); lia|].
  intros h3 L' R' EL ER HP3. cbn [fst snd].
  apply wp_bind, (wp_drop_copied _ _ _ _ _ _ _ _ _ _ _ _ _ _ HP3 Hs); [lia|]. intros h4 H4.
  apply wp_bind, (wp_union_entry _ _ _ _ _ _ _ H4). intros h5 s' <- Es' H5. destruct Hs as [Es _].
  cbn [erase]. rewrite tunion_bin by discriminate. change (bin (erase L1) e1 (erase R1)) with (erase T1). rewrite ES, <- EL, <- ER, <- Es, <- Es'.
  rewrite <- EL, <- ER in *.
  eapply wp_mono; [apply (wp_node_join _ _ _ _ _ _ _ H5); destruct (si_removed r); unfold join_fuel; lia|apply returns_gives].
Qed.

Lemma wp_make_parts copy x l L e R L' R' F S h e' (Q : ptr -> heap -> Prop) :
  parts copy x l L e R L' R' F S h ->
  (forall h' s, s_entry s = e' -> parts copy x l L e R L' R' F (s :: S) h' -> Q (Some (s_loc s)) h') -> wp (make_node e') Q h.
Proof.
  intros HPa HQ. destruct copy; destruct HPa as [H HP].
  - apply (wp_make_node _ _ _ _ _ H). intros s h1 Es H1. apply (HQ _ _ Es). now split.
  - apply (wp_make_node _ _ _ _ _ HP). intros s h1 Es H1. apply (HQ _ _ Es). split; [exact H|]. inv_solve.
Qed.

(** The start of an operation on the tree [T], which may be lent, and the tree [D]. *)
Lemma pinned_second x T D F : pinned D (held x T (D :: F)).
Proof. apply (pinned_perm _ (D :: held x T F)); [symmetry; apply held_cons|apply pinned_here]. Qed.

Lemma pinned_first x T D F : (x = true -> pinned T F) -> pinned T (held x T (D :: F)).
Proof. intros H. apply pinned_held. intros Hx. apply pinned_cons. auto. Qed.

Lemma wp_intersect op T2 : forall fuel T1 x,
  tsize (erase T1) + tsize (erase T2) < max_size -> tsize (erase T1) + tsize (erase T2) + 3 <= Z.of_nat fuel ->
  refines x T2 T1 lf (intersect fuel (root T1) (root T2) op x) (tintersect op (erase T1) (erase T2)).
Proof.
  intros fuel. revert T2. induction fuel as [|fuel IH]; intros T2 T1 x Hsz Hf; size_pos (erase T1); size_pos (erase T2); [lia|].
  intros h F S H HP _. destruct T1 as [|l1 L1 e1 R1].
  { cbn [root intersect]. replace (tintersect op (erase lf) (erase T2)) with leaf by now destruct (erase T2).
    apply (inv_perm _ _ (lf :: held x T2 F) S S), (proj1 (inv_leaf _ _ _)) in H; [|apply held_cons|reflexivity].
    apply wp_bind. destruct x; cbn [held] in H; [now apply wp_ret, wp_ret, gives_leaf|].
    apply wp_bind, (wp_decrement_recursive T2 fuel _ F S); [apply depth_fuel; cbn in *; lia|exact H|].
    intros b h1 H1. now apply wp_ret, wp_ret, gives_leaf. }
  set (T1 := nd l1 L1 e1 R1) in *. destruct T2 as [|l L e R].
  { cbn [root intersect T1]. change (tintersect op (erase T1) (erase lf)) with leaf.
    assert (H' : inv h (T1 :: F) S) by (destruct x; [exact H|exact (proj1 (inv_leaf _ _ _) H)]).
    apply wp_bind, (wp_decrement_recursive T1 fuel _ F S); [apply depth_fuel; cbn [erase tsize] in *; lia|exact H'|].
    intros b h1 H1. now apply wp_ret, gives_leaf. }
  cbn [root intersect T1]. apply wp_bind, (wp_size _ _ _ T1 _ H (pinned_second _ _ _ _)), wp_bind, (wp_size _ _ _ _ _ H (pinned_first _ _ _ _ HP)).
  destruct (inv_node _ _ _ _ _ _ _ H (pinned_first _ _ _ _ HP)) as (c & Hc & _). apply wp_bind, (wp_load _ _ _ _ Hc). cbn [ref_cnt].
  pose proof (lent_intro _ _ _ _ _ [T1] _ _ _ _ H HP Hc) as HC. cbn [ref_cnt] in HC. set (copy := x || (1 <? c)) in *.
  pose proof (tsize_bin_bound l L e R) as B. size_pos (erase L). size_pos (erase R).
  apply wp_bind, (wp_get_key _ _ _ _ _ _ _ _ H (pinned_first _ _ _ _ HP)).
  apply wp_bind, (wp_split_lent _ _ _ _ _ _ _ _ _ _ _ _ _ HC); [lia|lia|]. intros r h2 A1 B1 E1 E2 ES HC2.
  pose proof (split_size (erase T1) (fst e)) as Z. rewrite ES in Z.
  destruct (lent_node _ _ _ _ _ _ _ _ _ _ HC2) as (n2 & Hn2 & El & Er & _).
  apply wp_bind, (wp_load _ _ _ _ Hn2). rewrite El, Er, E1, E2.
  size_pos (erase A1). size_pos (erase B1). pose proof (tintersect_size op (erase L) (erase A1)). pose proof (tintersect_size op (erase R) (erase B1)).
  apply (wp_fork_children _ _ _ _ _ _ _ _ _ _ _ lf HC2 (or_introl eq_refl) _ _ _ (tintersect op (erase A1) (erase L)) (tintersect op (erase B1) (erase R)));
    [apply IH; destruct (si_removed r); lia|apply IH; destruct (si_removed r); lia|].
  intros h3 L' R' EL ER HP3. cbn [fst snd].
  change (tintersect op (erase T1) (erase (nd l L e R))) with
    (let '(a, o, b) := split_at (erase T1) (fst e) in
     match o with
     | Some e1 => tjoin (tintersect op a (erase L)) (tintersect op b (erase R)) (fst e, op (snd e1) (snd e))
     | None => tjoin2 (tintersect op a (erase L)) (tintersect op b (erase R))
     end). rewrite ES, <- EL, <- ER in *.
  size_pos (erase L'). size_pos (erase R').
  destruct (si_removed r) as [e2|].
  - apply wp_bind, (wp_parts_entry _ _ _ _ _ _ _ _ _ _ _ _ HP3), wp_bind, (wp_make_parts _ _ _ _ _ _ _ _ _ _ _ _ _ HP3).
    intros h4 s <- HP4. assert (Hd : (tdepth (erase (nd l L e R)) < fuel)%nat) by (apply depth_fuel; lia).
    apply wp_bind, (wp_dec_if _ _ _ _ _ _ _ _ _ _ _ _ _ Hd HP4). intros h5 H5.
    eapply wp_mono; [apply (wp_node_join _ _ _ _ _ _ _ H5); unfold join_fuel; lia|apply returns_gives].
  - apply (wp_drop_join2 _ _ _ _ _ _ _ _ _ _ _ _ HP3); unfold join_fuel; lia.
Qed.

Lemma wp_difference : forall fuel T1 T2 x,
  tsize (erase T1) + tsize (erase T2) < max_size -> tsize (erase T1) + tsize (erase T2) + 3 <= Z.of_nat fuel ->
  refines x T1 T2 lf (difference fuel (root T1) (root T2) x) (tdifference (erase T1) (erase T2)).
Proof.
  induction fuel as [|fuel IH]; intros T1 T2 x Hsz Hf; size_pos (erase T1); size_pos (erase T2); [lia|].
  intros h F S H HP _. destruct T1 as [|l L e R].
  { cbn [root difference]. change (tdifference (erase lf) (erase T2)) with leaf.
    assert (H' : inv h (T2 :: F) S) by (destruct x; [exact H|exact (proj1 (inv_leaf _ _ _) H)]).
    apply wp_bind, (wp_decrement_recursive T2 fuel _ F S); [apply depth_fuel; cbn [erase tsize] in *; lia|exact H'|].
    intros b h1 H1. now apply wp_ret, gives_leaf. }
  destruct T2 as [|l2 L2 e2 R2]; [exact (refines_inc_if x (nd l L e R) lf h F S H HP (or_introl eq_refl))|].
  set (T2 := nd l2 L2 e2 R2) in *.
  cbn [root difference T2]. apply wp_bind, (wp_size _ _ _ _ _ H (pinned_first _ _ _ _ HP)), wp_bind, (wp_size _ _ _ T2 _ H (pinned_second _ _ _ _)).
  destruct (inv_node _ _ _ _ _ _ _ H (pinned_first _ _ _ _ HP)) as (c & Hc & _). apply wp_bind, (wp_load _ _ _ _ Hc). cbn [ref_cnt].
  pose proof (lent_intro _ _ _ _ _ [T2] _ _ _ _ H HP Hc) as HC. cbn [ref_cnt] in HC. set (copy := x || (1 <? c)) in *.
  pose proof (tsize_bin_bound l L e R) as B. size_pos (erase L). size_pos (erase R).
  apply wp_bind, (wp_get_key _ _ _ _ _ _ _ _ H (pinned_first _ _ _ _ HP)).
  apply wp_bind, (wp_split_lent _ _ _ _ _ _ _ _ _ _ _ _ _ HC); [lia|lia|]. intros r h2 A1 B1 E1 E2 ES HC2.
  pose proof (split_size (erase T2) (fst e)) as Z. rewrite ES in Z.
  destruct (lent_node _ _ _ _ _ _ _ _ _ _ HC2) as (n2 & Hn2 & El & Er & _).
  apply wp_bind, (wp_load _ _ _ _ Hn2). rewrite El, Er, E1, E2.
  size_pos (erase A1). size_pos (erase B1). pose proof (tdifference_size (erase L) (erase A1)). pose proof (tdifference_size (erase R) (erase B1)).
  apply (wp_fork_children _ _ _ _ _ _ _ _ _ _ _ lf HC2 (or_introl eq_refl) _ _ _ (tdifference (erase L) (erase A1)) (tdifference (erase R) (erase B1)));
    [apply IH; destruct (si_removed r); lia|apply IH; destruct (si_removed r); lia|].
  intros h3 L' R' EL ER HP3. cbn [fst snd erase]. rewrite tdifference_bin by discriminate.
  change (bin (erase L2) e2 (erase R2)) with (erase T2). rewrite ES, <- EL, <- ER in *.
  size_pos (erase L'). size_pos (erase R').
  destruct (si_removed r) as [e3|].
  - apply (wp_drop_join2 _ _ _ _ _ _ _ _ _ _ _ _ HP3); unfold join_fuel; lia.
  - apply (wp_copy_join _ _ _ _ _ _ _ _ _ _ _ _ _ HP3); unfold join_fuel; lia.
Qed.

(** *** Sorted arrays *)

Section Sorted.
Context {EO : EntryOk E} {X : Type} (keyof : X -> key_t) (base : list X -> tree) (op : entry_t -> X -> val_t).
Context {fresh : X -> option val_t} {BO : BaseOk keyof base fresh}.
Context (leaf_case : nat -> list X -> mem ptr).
Hypothesis wp_leaf_case : forall fuel a h F S,
  inv h F S -> Z.of_nat (length a) < max_size -> Z.of_nat (length a) + 2 <= Z.of_nat fuel -> wp (leaf_case fuel a) (gives (base a) F S) h.

Definition combine_at (r : ptr) (x : X) : mem unit := re ← get_entry r; set_entry r (re.1, op re x).
Definition found (o : option X) : bool := match o with Some _ => true | None => false end.

Lemma wp_lift {T} (o : option T) a (Q : T -> heap -> Prop) h : o = Some a -> Q a h -> wp (lift o) Q h.
Proof. intros -> H. exact H. Qed.

Lemma wp_dup a k h (Q : bool -> heap -> Prop) :
  Q (found (at_key keyof k a)) h ->
  wp (if (lower keyof k a <? length a)%nat then x ← lift (a !! lower keyof k a); mret (negb (comp k (keyof x))) else mret false) Q h.
Proof.
  unfold at_key. intros HQ. destruct (Nat.ltb_spec (lower keyof k a) (length a)) as [L|L].
  - destruct (lookup_lt_is_Some_2 a _ L) as [x Hx]. rewrite Hx in *. apply wp_bind, (wp_lift _ x); [reflexivity|]. apply wp_ret.
    now destruct (negb (comp k (keyof x))).
  - apply lookup_ge_None in L. rewrite L in HQ. exact HQ.
Qed.

Lemma wp_combine_found a k h F S s (Q : unit -> heap -> Prop) :
  inv h F (s :: S) ->
  (forall h' s', s_loc s' = s_loc s -> s_entry s' = set_at op (at_key keyof k a) (s_entry s) -> inv h' F (s' :: S) -> Q tt h') ->
  wp (if found (at_key keyof k a) then x ← lift (a !! lower keyof k a); combine_at (Some (s_loc s)) x else mret tt) Q h.
Proof.
  unfold at_key. intros H HQ. destruct (a !! lower keyof k a) as [x|]; [|apply wp_ret, (HQ h s); auto].
  destruct (negb (comp k (keyof x))); [|apply wp_ret, (HQ h s); auto].
  apply wp_bind, (wp_lift _ x); [reflexivity|]. apply (wp_set_val _ _ _ _ (fun re => op re x) _ H). exact HQ.
Qed.

Lemma wp_multi_sorted T : forall fuel a x rs, increasing keyof a ->
  tsize (erase T) + Z.of_nat (length a) < max_size -> tsize (erase T) + Z.of_nat (length a) + 3 <= Z.of_nat fuel ->
  refines1 x T (multi_sorted keyof leaf_case combine_at fuel (root T) a x rs) (tmulti keyof base op (erase T) a).
Proof.
  induction T as [|l L IHL e R IHR]; intros [|fuel] a x rs Ha Hsz Hf h F S H HP; try (cbn in Hf; lia).
  { cbn [multi_sorted root erase tmulti]. cbn [erase tsize] in *. apply wp_leaf_case; [|lia|lia]. destruct x; [exact H|now apply inv_leaf]. }
  { size_pos (erase (nd l L e R)). lia. }
  cbn [multi_sorted root]. destruct a as [|x0 a0] eqn:Ea.
  { exact (refines_inc_if x (nd l L e R) lf h F S (proj2 (inv_held_leaf _ _ _ _ _) H) HP (or_introl eq_refl)). }
  rewrite <- Ea in *. assert (Na : a <> []) by (now rewrite Ea). clear Ea a0. cbn [erase]. rewrite tmulti_bin by exact Na.
  destruct (inv_node _ _ _ _ _ _ _ H (held_pinned _ _ _ HP)) as (c & Hc & _).
  apply wp_bind, (wp_load _ _ _ _ Hc). cbn [ref_cnt lc rc]. apply wp_bind, (wp_get_key _ _ _ _ _ _ _ _ H (held_pinned _ _ _ HP)).
  pose proof (lent_intro _ _ _ _ _ [lf; lf] _ _ _ _ (inv_held_leaves _ _ _ _ _ H) HP Hc) as HC. cbn [ref_cnt] in HC.
  pose proof (tsize_bin_bound l L e R) as B. size_pos (erase L). size_pos (erase R).
  apply wp_bind, (wp_lift _ _ _ _ (binary_search_linear _ _ (increasing_prefix keyof a (fst e) Ha))).
  change (linear_search a _) with (lower keyof (fst e) a).
  apply wp_bind, wp_dup, wp_bind, (wp_size _ _ _ _ _ H (held_pinned _ _ _ HP)).
  replace (Nat.b2n (found (at_key keyof (fst e) a))) with (dup_of (at_key keyof (fst e) a)) by now destruct (at_key keyof (fst e) a).
  set (a1 := take _ a). set (a2 := drop _ a).
  assert (La : (length a1 + length a2 <= length a)%nat).
  { unfold a1, a2. rewrite length_take, length_drop. lia. }
  pose proof (tmulti_size keyof base op (erase L) a1) as S1. pose proof (tmulti_size keyof base op (erase R) a2) as S2.
  apply (wp_fork_children _ _ _ _ _ _ _ _ _ _ _ lf HC (or_introl eq_refl) _ _ _ (tmulti keyof base op (erase L) a1) (tmulti keyof base op (erase R) a2)).
  { apply refines1_refines, IHL; [now apply increasing_take|lia..]. }
  { apply refines1_refines, IHR; [now apply increasing_drop|lia..]. }
  intros h1 L' R' EL ER HP1. cbn [fst snd]. rewrite <- EL, <- ER in *.
  assert (Hd : (tdepth (erase (nd l L e R)) < fuel)%nat) by (apply depth_fuel; lia).
  apply wp_bind, (wp_copy_if _ _ _ _ _ _ _ _ _ _ _ _ _ Hd HP1). intros h2 s <- H2.
  apply wp_bind, (wp_combine_found _ _ _ _ _ _ _ H2). intros h3 s' <- <- H3.
  eapply wp_mono; [apply (wp_node_join _ _ _ _ _ _ _ H3); unfold join_fuel; lia|apply returns_gives].
Qed.
End Sorted.

(** The three functions. *)
Section Instances.
Context {EO : EntryOk E}.

Definition tinsert_all (op : entry_t -> entry_t -> val_t) : tree -> list entry_t -> tree :=
  tmulti fst (fun a => tbuild (length a) a) op.

Definition tupdate_all {VE} (op : val_t -> VE -> val_t) : tree -> list (key_t * VE) -> tree :=
  tmulti fst (fun _ => leaf) (fun e x => op e.2 x.2).

Lemma from_array_leaf fuel a h F S : inv h F S -> Z.of_nat (length a) < max_size -> Z.of_nat (length a) + 2 <= Z.of_nat fuel ->
  wp (from_array fuel a) (gives (tbuild (length a) a) F S) h.
Proof. intros H Hsz Hf. apply wp_from_array; unfold join_fuel; auto; lia. Qed.

Lemma wp_multi_insert_sorted T op fuel a x rs : increasing fst a ->
  tsize (erase T) + Z.of_nat (length a) < max_size -> tsize (erase T) + Z.of_nat (length a) + 3 <= Z.of_nat fuel ->
  refines1 x T (multi_insert_sorted fuel (root T) a op x rs) (tinsert_all (fun e x => op e.2 x.2) (erase T) a).
Proof. apply (wp_multi_sorted fst _ (fun e x => op e.2 x.2) _ from_array_leaf). Qed.

Lemma wp_multi_insert_sorted_with_values T op fuel a x rs : increasing fst a ->
  tsize (erase T) + Z.of_nat (length a) < max_size -> tsize (erase T) + Z.of_nat (length a) + 3 <= Z.of_nat fuel ->
  refines1 x T (multi_insert_sorted_with_values fuel (root T) a op x rs) (tinsert_all (fun e x => op x.1 e.2 x.2) (erase T) a).
Proof. apply (wp_multi_sorted fst _ (fun e x => op x.1 e.2 x.2) _ from_array_leaf). Qed.

Lemma wp_multi_update_sorted {VE} T op fuel (a : list (key_t * VE)) x rs : increasing fst a ->
  tsize (erase T) + Z.of_nat (length a) < max_size -> tsize (erase T) + Z.of_nat (length a) + 3 <= Z.of_nat fuel ->
  refines1 x T (multi_update_sorted fuel (root T) a op x rs) (tupdate_all op (erase T) a).
Proof.
  apply (wp_multi_sorted fst (fun _ => leaf) (fun e x => op e.2 x.2)).
  intros fuel' a' h F S H _ _. now apply wp_ret, gives_leaf.
Qed.
End Instances.

(** *** Ranges *)

Lemma wp_left k T : forall fuel, tsize (erase T) < max_size -> tsize (erase T) + 2 <= Z.of_nat fuel ->
  builds T (left fuel (root T) k) (tleft k (erase T)).
Proof.
  induction T as [|l L IHL e R IHR]; intros [|fuel] Hsz Hf h F S H HP; try (cbn in Hf; lia).
  { now apply wp_ret, gives_leaf. }
  { size_pos (erase (nd l L e R)). lia. }
  cbn [left root]. destruct (inv_node _ _ _ _ _ _ _ H HP) as (c & Hc & _). apply wp_bind, (wp_load _ _ _ _ Hc). cbn [lc rc].
  apply wp_bind, (wp_get_key _ _ _ _ _ _ _ _ H HP).
  pose proof (tsize_bin_bound l L e R) as B. size_pos (erase L). size_pos (erase R). cbn [erase tleft].
  destruct (comp k (fst e)).
  { apply IHL; eauto using pinned_left; lia. }
  apply wp_bind, (wp_get_entry _ _ _ _ _ _ _ _ H HP), wp_bind, (wp_make_node _ _ _ _ _ H). intros s h1 <- H1.
  apply wp_bind, (wp_increment _ _ _ _ _ H1 (pinned_left _ _ _ _ _ HP)). intros h2 H2.
  eapply wp_seq; [apply (IHR fuel); [lia|lia|exact H2|exact (pinned_cons _ _ _ (pinned_right _ _ _ _ _ HP))]|].
  intros p h3 (R' & -> & ER & H3). assert (H3' : inv h3 (L :: R' :: F) (s :: S)) by inv_solve.
  rewrite <- ER. pose proof (tleft_size k (erase R)) as Z. rewrite <- ER in Z. size_pos (erase R').
  eapply wp_mono; [apply (wp_node_join _ _ _ _ _ _ _ H3'); unfold join_fuel; lia|apply returns_gives].
Qed.

Lemma wp_right k T : forall fuel, tsize (erase T) < max_size -> tsize (erase T) + 2 <= Z.of_nat fuel ->
  builds T (right fuel (root T) k) (tright k (erase T)).
Proof.
  induction T as [|l L IHL e R IHR]; intros [|fuel] Hsz Hf h F S H HP; try (cbn in Hf; lia).
  { now apply wp_ret, gives_leaf. }
  { size_pos (erase (nd l L e R)). lia. }
  cbn [right root]. destruct (inv_node _ _ _ _ _ _ _ H HP) as (c & Hc & _). apply wp_bind, (wp_load _ _ _ _ Hc). cbn [lc rc].
  apply wp_bind, (wp_get_key _ _ _ _ _ _ _ _ H HP).
  pose proof (tsize_bin_bound l L e R) as B. size_pos (erase L). size_pos (erase R). cbn [erase tright].
  destruct (comp (fst e) k).
  { apply IHR; eauto using pinned_right; lia. }
  apply wp_bind, (wp_get_entry _ _ _ _ _ _ _ _ H HP), wp_bind, (wp_make_node _ _ _ _ _ H). intros s h1 <- H1.
  apply wp_bind, (wp_increment _ _ _ _ _ H1 (pinned_right _ _ _ _ _ HP)). intros h2 H2.
  eapply wp_seq; [apply (IHL fuel); [lia|lia|exact H2|exact (pinned_cons _ _ _ (pinned_left _ _ _ _ _ HP))]|].
  intros p h3 (L' & -> & EL & H3). rewrite <- EL. pose proof (tright_size k (erase L)) as Z. rewrite <- EL in Z. size_pos (erase L').
  eapply wp_mono; [apply (wp_node_join _ _ _ _ _ _ _ H3); unfold join_fuel; lia|apply returns_gives].
Qed.

Context {EO : EntryOk E}.

(** The root of the range: the first node on the way down that is in it. *)
Lemma wp_range_root low high T : forall fuel h F S (Q : ptr -> heap -> Prop),
  (tdepth (erase T) < fuel)%nat -> inv h F S -> pinned T F ->
  (forall T', pinned T' F -> tsize (erase T') <= tsize (erase T) -> trange low high (erase T) = trange low high (erase T') ->
    (sorted (erase T) -> sorted (erase T')) ->
    match T' with lf => True | nd _ _ e _ => comp high (fst e) = false /\ comp (fst e) low = false end -> Q (root T') h) ->
  wp (range_root fuel (root T) low high) Q h.
Proof.
  induction T as [|l L IHL e R IHR]; intros [|fuel] h F S Q Hf H HP HQ; try lia.
  { apply wp_ret. now apply (HQ lf). }
  cbn [range_root root]. destruct (inv_node _ _ _ _ _ _ _ H HP) as (c & Hc & _). apply wp_bind, (wp_load _ _ _ _ Hc). cbn [lc rc].
  apply wp_bind, (wp_get_key _ _ _ _ _ _ _ _ H HP). cbn [erase tdepth trange] in *. size_pos (erase L). size_pos (erase R).
  destruct (comp high (fst e)) eqn:C1; [|destruct (comp (fst e) low) eqn:C2].
  - apply (IHL fuel _ _ _ _ ltac:(lia) H (pinned_left _ _ _ _ _ HP)). intros T' P1 P2 P3 P4 P5. apply HQ; auto; [cbn [tsize]; lia|].
    intros Hs. apply sorted_bin in Hs as (Hl & _ & _). auto.
  - apply (IHR fuel _ _ _ _ ltac:(lia) H (pinned_right _ _ _ _ _ HP)). intros T' P1 P2 P3 P4 P5. apply HQ; auto; [cbn [tsize]; lia|].
    intros Hs. apply sorted_bin in Hs as (_ & Hr & _). auto.
  - apply wp_ret, (HQ (nd l L e R)); auto; cbn; [lia|]. now rewrite C1, C2.
Qed.

Lemma wp_range low high T fuel : tsize (erase T) < max_size -> tsize (erase T) + 2 <= Z.of_nat fuel ->
  builds T (range fuel (root T) low high) (trange low high (erase T)).
Proof.
  intros Hsz Hf h F S H HP. assert (Hd : (tdepth (erase T) < fuel)%nat) by (apply depth_fuel; lia).
  apply wp_bind, (wp_range_root _ _ _ _ _ _ _ _ Hd H HP). intros [|l L e R] PT Hle -> _ HC; [now apply wp_ret, gives_leaf|].
  destruct HC as [C1 C2]. cbn [root]. destruct (inv_node _ _ _ _ _ _ _ H PT) as (c & Hc & _). apply wp_bind, (wp_load _ _ _ _ Hc). cbn [lc rc].
  apply wp_bind, (wp_get_entry _ _ _ _ _ _ _ _ H PT), wp_bind, (wp_make_node _ _ _ _ _ H). intros s h1 Es H1.
  pose proof (tsize_bin_bound l L e R) as B. size_pos (erase L). size_pos (erase R).
  eapply wp_seq; [apply (wp_right low L fuel); [lia|lia|exact H1|exact (pinned_left _ _ _ _ _ PT)]|]. intros p2 h2 (L' & -> & EL & H2).
  eapply wp_seq; [apply (wp_left high R fuel); [lia|lia|exact H2|exact (pinned_cons _ _ _ (pinned_right _ _ _ _ _ PT))]|].
  intros p3 h3 (R' & -> & ER & H3). assert (H3' : inv h3 (L' :: R' :: F) (s :: S)) by inv_solve.
  cbn [erase trange]. rewrite C1, C2, <- EL, <- ER, <- Es.
  pose proof (tright_size low (erase L)) as Z1. pose proof (tleft_size high (erase R)) as Z2. rewrite <- EL in Z1. rewrite <- ER in Z2.
  size_pos (erase L'). size_pos (erase R').
  eapply wp_mono; [apply (wp_node_join _ _ _ _ _ _ _ H3'); unfold join_fuel; lia|apply returns_gives].
Qed.

Lemma sub64_pred a b : 0 <= b < a -> a < 2 ^ 64 -> (a - b - 1)%u64 = a - b - 1.
Proof. intros H1 H2. unfold sub64. rewrite (u64_small (a - b)) by (unfold fits; lia). apply u64_small. unfold fits. lia. Qed.

Lemma wp_left_number T : forall fuel rg, tsize (erase T) < max_size -> tsize (erase T) + 2 <= Z.of_nat fuel -> 0 <= rg < 2 ^ 64 ->
  builds T (left_number fuel (root T) rg) (tfirst rg (erase T)).
Proof.
  induction T as [|l L IHL e R IHR]; intros [|fuel] rg Hsz Hf Hrg h F S H HP; try (cbn in Hf; lia).
  { now apply wp_ret, gives_leaf. }
  { size_pos (erase (nd l L e R)). lia. }
  cbn [left_number root erase tfirst]. change (bin (erase L) e (erase R)) with (erase (nd l L e R)).
  destruct (Z.eqb_spec rg 0) as [->|N]; [now apply wp_ret, gives_leaf|].
  apply wp_bind, (wp_size _ _ _ _ _ H HP). destruct (Z.leb_spec (tsize (erase (nd l L e R))) rg) as [L1|L1].
  { apply wp_bind, (wp_increment _ _ _ _ _ H HP). intros h1 H1. apply wp_ret. exists (nd l L e R). auto. }
  destruct (inv_node _ _ _ _ _ _ _ H HP) as (c & Hc & _). apply wp_bind, (wp_load _ _ _ _ Hc). cbn [lc rc].
  apply wp_bind, (wp_size _ _ _ _ _ H (pinned_left _ _ _ _ _ HP)).
  pose proof (tsize_bin_bound l L e R) as B. size_pos (erase L). size_pos (erase R).
  destruct (Z.ltb_spec (tsize (erase L)) rg) as [L2|L2]; [|apply IHL; eauto using pinned_left; lia].
  apply wp_bind, (wp_get_entry _ _ _ _ _ _ _ _ H HP), wp_bind, (wp_make_node _ _ _ _ _ H). intros s h1 <- H1.
  apply wp_bind, (wp_increment _ _ _ _ _ H1 (pinned_left _ _ _ _ _ HP)). intros h2 H2.
  rewrite (sub64_pred rg (tsize (erase L))) by lia.
  eapply wp_seq; [apply (IHR fuel); [lia|lia|lia|exact H2|exact (pinned_cons _ _ _ (pinned_right _ _ _ _ _ HP))]|].
  intros p h3 (R' & -> & ER & H3). assert (H3' : inv h3 (L :: R' :: F) (s :: S)) by inv_solve.
  rewrite <- ER. pose proof (tfirst_size (erase R) (rg - tsize (erase L) - 1) ltac:(lia)) as Z. rewrite <- ER in Z. size_pos (erase R').
  eapply wp_mono; [apply (wp_node_join _ _ _ _ _ _ _ H3'); unfold join_fuel; lia|apply returns_gives].
Qed.

Lemma wp_skip_below low T : forall fuel h F S (Q : ptr -> heap -> Prop),
  (tdepth (erase T) < fuel)%nat -> inv h F S -> pinned T F ->
  (forall T', pinned T' F -> tsize (erase T') <= tsize (erase T) -> (forall n, trange_num low n (erase T) = trange_num low n (erase T')) ->
    match T' with lf => True | nd _ _ e _ => comp (fst e) low = false end -> Q (root T') h) ->
  wp (skip_below fuel (root T) low) Q h.
Proof.
  induction T as [|l L IHL e R IHR]; intros [|fuel] h F S Q Hf H HP HQ; try lia.
  { apply wp_ret. now apply (HQ lf). }
  cbn [skip_below root]. destruct (inv_node _ _ _ _ _ _ _ H HP) as (c & Hc & _). apply wp_bind, (wp_load _ _ _ _ Hc). cbn [lc rc].
  apply wp_bind, (wp_get_key _ _ _ _ _ _ _ _ H HP). cbn [erase tdepth trange_num] in *. size_pos (erase L). size_pos (erase R).
  destruct (comp (fst e) low) eqn:C.
  - apply (IHR fuel _ _ _ _ ltac:(lia) H (pinned_right _ _ _ _ _ HP)). intros T' P1 P2 P3 P4. apply HQ; auto. cbn [tsize]. lia.
  - apply wp_ret, (HQ (nd l L e R)); auto; cbn; [lia|]. now rewrite C.
Qed.

Lemma wp_range_num low rg : 0 <= rg < 2 ^ 64 -> forall fuel T, tsize (erase T) < max_size -> tsize (erase T) + 2 <= Z.of_nat fuel ->
  builds T (range_num fuel (root T) low rg) (trange_num low rg (erase T)).
Proof.
  intros Hrg. induction fuel as [|fuel IH]; intros T Hsz Hf h F S H HP; [size_pos (erase T); lia|].
  assert (Hd : (tdepth (erase T) < Datatypes.S fuel)%nat) by (apply depth_fuel; lia).
  cbn [range_num]. apply wp_bind, (wp_skip_below _ _ _ _ _ _ _ Hd H HP). intros [|l L e R] PT Hle Heq C; rewrite Heq; [now apply wp_ret, gives_leaf|].
  cbn [root erase trange_num]. rewrite C. clear Heq. pose proof (tsize_bin_bound l L e R) as B. size_pos (erase L). size_pos (erase R).
  destruct (inv_node _ _ _ _ _ _ _ H PT) as (c & Hc & _). apply wp_bind, (wp_load _ _ _ _ Hc). cbn [lc rc].
  eapply wp_seq; [apply (IH L); [lia|lia|exact H|exact (pinned_left _ _ _ _ _ PT)]|]. intros p1 h1 (L' & -> & EL & H1). rewrite <- EL.
  pose proof (trange_num_size low rg (erase L) (proj1 Hrg)) as Z1. rewrite <- EL in Z1. size_pos (erase L').
  apply wp_bind, (wp_size _ _ _ _ _ H1 (pinned_here _ _)). destruct (Z.eqb_spec (tsize (erase L')) rg) as [E1|E1].
  { apply wp_ret. exists L'. auto. }
  rewrite (sub64_pred rg (tsize (erase L'))) by lia.
  eapply wp_seq; [apply (wp_left_number R fuel); [lia|lia|lia|exact H1|exact (pinned_cons _ _ _ (pinned_right _ _ _ _ _ PT))]|].
  intros p2 h2 (R' & -> & ER & H2). apply wp_bind, (wp_get_entry _ _ _ _ _ _ _ _ H2 (pinned_cons _ _ _ (pinned_cons _ _ _ PT))).
  apply wp_bind, (wp_make_node _ _ _ _ _ H2). intros s h3 <- H3. assert (H3' : inv h3 (L' :: R' :: F) (s :: S)) by inv_solve.
  rewrite <- ER. pose proof (tfirst_size (erase R) (rg - tsize (erase L') - 1) ltac:(lia)) as Z2. rewrite <- ER in Z2. size_pos (erase R').
  eapply wp_mono; [apply (wp_node_join _ _ _ _ _ _ _ H3'); unfold join_fuel; lia|apply returns_gives].
Qed.
End Bulk.
