(* ===== verification/PamReads.v ===== *)
(** * Reading a tree

    Searches, ranks and iterations leave the store as it is; each is specified by the list
    of the tree's entries in order. *)

From S2P Require Import Prelude PamTree PamOps PamSets PamMulti PamStore PamPrims PamGC PamJoin PamSeq PamMap PamBulk.
From stdpp Require Import base option list gmap sorting.
Import PamTree PamOps PamMulti PamStore PamPrims PamGC PamJoin.
#[local] Open Scope Z_scope.

Section Reads.
Context {E : Entry} {A : Allocator} {AO : AllocatorOk A}.
Implicit Types (F : list ltree) (S : list shell) (h : heap).

(** [m] only looks at the tree [T], and returns [v]. *)
Definition reads {B} (T : ltree) (m : mem B) (v : B) : Prop := forall h F S,
  inv h F S -> pinned T F -> m h = Some (v, h).

Lemma reads_ret {B} T (v : B) : reads T (mret v) v.
Proof. intros h F S _ _. reflexivity. Qed.

Lemma reads_bind {B C} T (m : mem B) (f : B -> mem C) v w : reads T m v -> reads T (f v) w -> reads T (m ≫= f) w.
Proof. intros H1 H2 h F S HI HP. unfold mbind, mem_bind. rewrite (H1 h F S HI HP). now apply H2 with F S. Qed.

Lemma reads_load {B} l L e R (k : node -> mem B) v :
  (forall a z c, reads (nd l L e R) (k (mk_node (root L) (root R) e a z c)) v) -> reads (nd l L e R) (load (Some l) ≫= k) v.
Proof.
  intros H h F S HI HP. destruct (inv_node _ _ _ _ _ _ _ HI HP) as (c & Hc & _).
  unfold mbind, mem_bind, load. rewrite Hc. now apply (H _ _ _ h F S).
Qed.

Lemma reads_left {B} l L e R (m : mem B) v : reads L m v -> reads (nd l L e R) m v.
Proof. intros H h F S HI HP. exact (H h F S HI (pinned_left _ _ _ _ _ HP)). Qed.

Lemma reads_right {B} l L e R (m : mem B) v : reads R m v -> reads (nd l L e R) m v.
Proof. intros H h F S HI HP. exact (H h F S HI (pinned_right _ _ _ _ _ HP)). Qed.

Lemma reads_size T : reads T (size (root T)) (tsize (erase T)).
Proof. destruct T as [|l L e R]; [apply reads_ret|]. intros h F S HI HP.
  destruct (inv_node _ _ _ _ _ _ _ HI HP) as (c & Hc & _). unfold size, mbind, mem_bind, load. cbn [root]. now rewrite Hc. Qed.

Lemma reads_entry l L e R : reads (nd l L e R) (get_entry (Some l)) e.
Proof. apply reads_load. intros. apply reads_ret. Qed.

Lemma reads_key l L e R : reads (nd l L e R) (PamMap.get_key (Some l)) (fst e).
Proof. eapply reads_bind; [apply reads_entry|apply reads_ret]. Qed.

Lemma reads_fork {B} T par (m1 m2 : mem B) v1 v2 : reads T m1 v1 -> reads T m2 v2 -> reads T (fork par m1 m2) (v1, v2).
Proof. intros H1 H2. unfold fork. eapply reads_bind; [exact H1|]. eapply reads_bind; [exact H2|apply reads_ret]. Qed.

Lemma reads_wp {B} T (m : mem B) v (Q : B -> heap -> Prop) h F S : reads T m v -> inv h F S -> pinned T F -> Q v h -> wp m Q h.
Proof. intros H HI HP HQ. unfold wp. now rewrite (H h F S HI HP). Qed.

(** ** Shape *)

Lemma reads_depth T : forall fuel, (tdepth (erase T) < fuel)%nat -> tsize (erase T) < max_size ->
  reads T (PamSeq.depth fuel (root T)) (Z.of_nat (tdepth (erase T))).
Proof.
  induction T as [|l L IHL e R IHR]; intros [|fuel] Hf Hs; try (cbn in Hf; lia); [apply reads_ret|].
  pose proof (tdepth_size (erase (nd l L e R))) as D. pose proof (tsize_bin_bound l L e R) as B. size_pos (erase L). size_pos (erase R).
  cbn [PamSeq.depth root]. cbn [erase tdepth] in *. apply reads_load. intros a z c. cbn [lc rc].
  eapply reads_bind; [apply reads_size|]. eapply reads_bind.
  { apply reads_fork; [apply reads_left, IHL; lia|apply reads_right, IHR; lia]. }
  cbn [fst snd]. set (d := u32 _). assert (Ed : Z.of_nat (Datatypes.S (tdepth (erase L) `max` tdepth (erase R))) = d).
  { unfold d, u32, uwrap, max_size in *. rewrite Z.mod_small; lia. }
  rewrite Ed. apply reads_ret.
Qed.

Lemma reads_is_balanced T : reads T (is_balanced (root T)) match erase T with leaf => true | bin l _ r => negb (heavy l r) && negb (heavy r l) end.
Proof.
  intros h F S HI HP. destruct T as [|l L e R]; [reflexivity|]. cbn [root erase].
  assert (W : wp (is_balanced (Some l)) (fun b h' => b = negb (heavy (erase L) (erase R)) && negb (heavy (erase R) (erase L)) /\ h' = h) h).
  { unfold is_balanced. destruct (inv_node _ _ _ _ _ _ _ HI HP) as (c & Hc & _). apply wp_bind, (wp_load _ _ _ _ Hc). cbn [lc rc].
    apply wp_bind, (wp_is_left_heavy _ _ _ _ _ _ HI (pinned_left _ _ _ _ _ HP) (pinned_right _ _ _ _ _ HP)).
    destruct (heavy (erase L) (erase R)); [now apply wp_ret|].
    apply wp_bind, (wp_is_left_heavy _ _ _ _ _ _ HI (pinned_right _ _ _ _ _ HP) (pinned_left _ _ _ _ _ HP)). now apply wp_ret. }
  unfold wp in W. destruct (is_balanced (Some l) h) as [[b h']|]; [|destruct W]. now destruct W as [-> ->].
Qed.

Lemma reads_check_balance T : forall fuel, (tdepth (erase T) < fuel)%nat ->
  reads T (PamSeq.check_balance fuel (root T)) (balanced (erase T)).
Proof.
  induction T as [|l L IHL e R IHR]; intros [|fuel] Hf; try (cbn in Hf; lia); [apply reads_ret|].
  cbn [PamSeq.check_balance root]. cbn [erase tdepth] in *. apply reads_load. intros a z c. cbn [lc rc].
  eapply reads_bind; [apply reads_size|]. eapply reads_bind.
  { apply reads_fork; [apply reads_left, IHL; lia|apply reads_right, IHR; lia]. }
  eapply reads_bind; [apply (reads_is_balanced (nd l L e R))|]. cbn [fst snd]. apply reads_ret.
Qed.

(** ** Iterations *)

Section Iterations.
Context {St : Type}.
Implicit Types (f : entry_t -> St -> St) (st : St).

Definition run f (l : list entry_t) (st : St) : St := foldl (fun st e => f e st) st l.

Lemma run_app f l1 l2 st : run f (l1 ++ l2) st = run f l2 (run f l1 st).
Proof. apply foldl_app. Qed.

Lemma run_cons f e l st : run f (e :: l) st = run f l (f e st).
Proof. reflexivity. Qed.

Lemma reads_foreach_seq f T : forall fuel st, (tdepth (erase T) < fuel)%nat ->
  reads T (PamSeq.foreach_seq fuel (root T) f st) (run f (elems (erase T)) st).
Proof.
  induction T as [|l L IHL e R IHR]; intros [|fuel] st Hf; try (cbn in Hf; lia); [apply reads_ret|].
  cbn [PamSeq.foreach_seq root]. cbn [erase tdepth elems] in *. apply reads_load. intros a z c. cbn [lc rc]. rewrite run_app.
  eapply reads_bind; [apply reads_left, IHL; lia|]. eapply reads_bind; [apply reads_entry|].
  apply reads_right, IHR. lia.
Qed.

(** Until [f] answers that it is enough. *)
Fixpoint run_cond {X} (f : X -> St -> bool * St) (l : list X) (st : St) : bool * St :=
  match l with
  | [] => (false, st)
  | e :: l => let '(stop, st) := f e st in if stop : bool then (true, st) else run_cond f l st
  end.

Lemma run_cond_app {X} (f : X -> St -> bool * St) l1 l2 st :
  run_cond f (l1 ++ l2) st = if fst (run_cond f l1 st) then run_cond f l1 st else run_cond f l2 (snd (run_cond f l1 st)).
Proof. revert st. induction l1 as [|e l1 IH]; intros st; [reflexivity|]. cbn. destruct (f e st) as [[] st']; [reflexivity|apply IH]. Qed.

Lemma reads_iter_elms_cond (f : entry_t -> St -> bool * St) T : forall fuel st, (tdepth (erase T) < fuel)%nat ->
  reads T (PamSeq.iter_elms_cond fuel (root T) f st) (run_cond f (elems (erase T)) st).
Proof.
  induction T as [|l L IHL e R IHR]; intros [|fuel] st Hf; try (cbn in Hf; lia); [apply reads_ret|].
  cbn [PamSeq.iter_elms_cond root]. cbn [erase tdepth elems] in *. apply reads_load. intros a z c. cbn [lc rc]. rewrite run_cond_app.
  eapply reads_bind; [apply reads_left, IHL; lia|]. destruct (run_cond f (elems (erase L)) st) as [[] st1]; cbn [fst snd]; [apply reads_ret|].
  eapply reads_bind; [apply reads_entry|]. cbn [run_cond]. destruct (f e st1) as [[] st2]; [apply reads_ret|]. apply reads_right, IHR. lia.
Qed.

(** Nodes before their children. *)
Fixpoint preorder (t : tree) : list entry_t :=
  match t with leaf => [] | bin l e r => e :: preorder l ++ preorder r end.

Lemma preorder_elems t : preorder t ≡ₚ elems t.
Proof.
  induction t as [|l IHl e r IHr]; [reflexivity|]. cbn. rewrite IHl, IHr. apply Permutation_middle.
Qed.

Lemma reads_foreach_entry_seq f T : forall fuel st, (tdepth (erase T) < fuel)%nat ->
  reads T (PamSeq.foreach_entry_seq fuel (root T) f st) (run f (preorder (erase T)) st).
Proof.
  induction T as [|l L IHL e R IHR]; intros [|fuel] st Hf; try (cbn in Hf; lia); [apply reads_ret|].
  cbn [PamSeq.foreach_entry_seq root]. cbn [erase tdepth preorder] in *. apply reads_load. intros a z c. cbn [lc rc].
  eapply reads_bind; [apply reads_entry|]. rewrite run_cons, run_app.
  eapply reads_bind; [apply reads_left, IHL; lia|]. apply reads_right, IHR. lia.
Qed.

Lemma reads_foreach_entry f T gran : forall fuel st, (tdepth (erase T) < fuel)%nat ->
  reads T (PamSeq.foreach_entry fuel (root T) f gran st) (run f (preorder (erase T)) st).
Proof.
  induction T as [|l L IHL e R IHR]; intros [|fuel] st Hf; try (cbn in Hf; lia); [apply reads_ret|].
  pose proof (reads_foreach_entry_seq f (nd l L e R) (Datatypes.S fuel) st Hf) as HS.
  cbn [PamSeq.foreach_entry root]. cbn [erase tdepth preorder] in Hf |- *. apply reads_load. intros a z c. cbn [lc rc].
  eapply reads_bind; [apply reads_left, reads_size|]. destruct (gran <? tsize (erase L)); [|exact HS].
  eapply reads_bind; [apply reads_entry|]. rewrite run_cons, run_app.
  eapply reads_bind; [apply reads_left, IHL; lia|]. apply reads_right, IHR. lia.
Qed.

(** With the indices of the entries. *)
Section Indexed.
Context (f : entry_t -> Z -> St -> St).

Fixpoint preorder_index (start : Z) (t : tree) : list (entry_t * Z) :=
  match t with
  | leaf => []
  | bin l e r => (e, start + tsize l) :: preorder_index start l ++ preorder_index (start + tsize l + 1) r
  end.

Definition run_index (l : list (entry_t * Z)) (st : St) : St := foldl (fun st p => f (fst p) (snd p) st) st l.

Lemma run_index_app l1 l2 st : run_index (l1 ++ l2) st = run_index l2 (run_index l1 st).
Proof. apply foldl_app. Qed.

Lemma run_index_cons e i l st : run_index ((e, i) :: l) st = run_index l (f e i st).
Proof. reflexivity. Qed.

Definition index_fits (start : Z) (t : tree) : Prop := 0 <= start /\ start + tsize t < 2 ^ 64.

Lemma reads_foreach_index_bc_seq T : forall fuel start st, (tdepth (erase T) < fuel)%nat -> index_fits start (erase T) ->
  reads T (PamSeq.foreach_index_bc_seq fuel (root T) start f st) (run_index (preorder_index start (erase T)) st).
Proof.
  induction T as [|l L IHL e R IHR]; intros [|fuel] start st Hf [H1 H2]; try (cbn in Hf; lia); [apply reads_ret|].
  cbn [PamSeq.foreach_index_bc_seq root]. cbn [erase tdepth preorder_index tsize] in *. size_pos (erase L). size_pos (erase R).
  apply reads_load. intros a z c. cbn [lc rc]. eapply reads_bind; [apply reads_left, reads_size|].
  eapply reads_bind; [apply reads_entry|]. rewrite !add64_small by (rewrite ?add64_small; lia). rewrite run_index_cons, run_index_app.
  eapply reads_bind; [apply reads_left, IHL; [lia|split; lia]|]. apply reads_right, IHR; [lia|split; lia].
Qed.

Lemma reads_foreach_index_bc T gran : forall fuel start st, (tdepth (erase T) < fuel)%nat -> index_fits start (erase T) ->
  reads T (PamSeq.foreach_index_bc fuel (root T) start f gran st) (run_index (preorder_index start (erase T)) st).
Proof.
  induction T as [|l L IHL e R IHR]; intros [|fuel] start st Hf Hi; try (cbn in Hf; lia); [apply reads_ret|].
  pose proof (reads_foreach_index_bc_seq (nd l L e R) (Datatypes.S fuel) start st Hf Hi) as HS. destruct Hi as [H1 H2].
  cbn [PamSeq.foreach_index_bc root]. cbn [erase tdepth preorder_index tsize] in Hf, H2 |- *. size_pos (erase L). size_pos (erase R).
  apply reads_load. intros a z c. cbn [lc rc]. eapply reads_bind; [apply reads_left, reads_size|].
  destruct (gran <? tsize (erase L)); [|exact HS].
  eapply reads_bind; [apply reads_entry|]. rewrite !add64_small by (rewrite ?add64_small; lia). rewrite run_index_cons, run_index_app.
  eapply reads_bind; [apply reads_left, IHL; [lia|split; lia]|]. apply reads_right, IHR; [lia|split; lia].
Qed.
End Indexed.

(** Every entry comes with its position. *)
Lemma preorder_index_elems t : forall start, preorder_index start t ≡ₚ imap (fun i e => (e, start + Z.of_nat i)) (elems t).
Proof.
  induction t as [|l IHl e r IHr]; intros start; [reflexivity|]. cbn [preorder_index elems]. rewrite imap_app. cbn [imap].
  rewrite IHl, IHr, Permutation_middle, Nat.add_0_r, <- tsize_elems. apply Permutation_app_head, Permutation_skip.
  erewrite imap_ext; [reflexivity|]. intros i x _. cbn. f_equal. rewrite tsize_elems. lia.
Qed.
End Iterations.

(** ** Reductions *)

Section Reduce.
Context {B : Type} (identity : B) (g : entry_t -> B) (reduce : B -> B -> B).
Hypothesis reduce_assoc : forall a b c, reduce a (reduce b c) = reduce (reduce a b) c.
Hypothesis reduce_id : forall a, reduce identity a = a.

Definition total (l : list entry_t) : B := foldr (fun e acc => reduce (g e) acc) identity l.

Lemma total_app l1 l2 : total (l1 ++ l2) = reduce (total l1) (total l2).
Proof. induction l1 as [|e l1 IH]; cbn; [now rewrite reduce_id|]. unfold total in IH. now rewrite IH, reduce_assoc. Qed.

Lemma reads_map_reduce T : forall fuel, (tdepth (erase T) < fuel)%nat ->
  reads T (PamSeq.map_reduce fuel (root T) identity g reduce) (total (elems (erase T))).
Proof.
  induction T as [|l L IHL e R IHR]; intros [|fuel] Hf; try (cbn in Hf; lia); [apply reads_ret|].
  cbn [PamSeq.map_reduce root]. cbn [erase tdepth elems] in *. apply reads_load. intros a z c. cbn [lc rc].
  eapply reads_bind; [apply reads_size|]. eapply reads_bind.
  { apply reads_fork; [apply reads_left, IHL; lia|apply reads_right, IHR; lia]. }
  eapply reads_bind; [apply reads_entry|]. cbn [fst snd]. rewrite total_app. apply reads_ret.
Qed.
End Reduce.

(** The shared flag of [if_exist]. *)
Lemma reads_if_exist f T : forall fuel ind, (tdepth (erase T) < fuel)%nat ->
  reads T (PamSeq.if_exist fuel (root T) f ind)
    (if ind : bool then (match T with lf => false | _ => true end, true)
     else (existsb f (elems (erase T)), existsb f (elems (erase T)))).
Proof.
  induction T as [|l L IHL e R IHR]; intros [|fuel] ind Hf; try (cbn in Hf; lia).
  { destruct ind; apply reads_ret. }
  cbn [PamSeq.if_exist root]. cbn [erase tdepth elems] in *. destruct ind; [apply reads_ret|].
  rewrite existsb_app. cbn [existsb]. eapply reads_bind; [apply reads_entry|].
  destruct (f e); [rewrite orb_true_r; apply reads_ret|]. apply reads_load. intros a z c. cbn [lc rc orb].
  eapply reads_bind; [apply reads_left, (IHL fuel false); lia|]. cbn [snd].
  eapply reads_bind; [apply reads_right, IHR; lia|]. cbn [fst snd].
  destruct (existsb f (elems (erase L))); cbn [fst snd orb]; apply reads_ret.
Qed.

(** ** Searches *)

Section Searches.
Context {EO : EntryOk E}.

Definition root_entry (T : ltree) : option entry_t := match T with lf => None | nd _ _ e _ => Some e end.

(** [m] finds a node of the trees in [F], with the entry [o]; or none, if [o] is [None]. *)
Definition finds F h (m : mem ptr) (o : option entry_t) : Prop :=
  exists T, pinned T F /\ root_entry T = o /\ m h = Some (root T, h).

Lemma step_load {B} l n (k : node -> mem B) h : h !! l = Some n -> (load (Some l) ≫= k) h = k n h.
Proof. unfold mbind, mem_bind, load. now intros ->. Qed.

Lemma step_key {B} l n (k : key_t -> mem B) h : h !! l = Some n -> (PamMap.get_key (Some l) ≫= k) h = k (fst (entry n)) h.
Proof. unfold PamMap.get_key, get_entry, mbind, mem_bind, load, mret, mem_ret. now intros ->. Qed.

(** One round of a search loop. *)
Lemma finds_step F S h l L e R (k : node -> key_t -> mem ptr) o :
  inv h F S -> pinned (nd l L e R) F ->
  (forall n, lc n = root L -> rc n = root R -> finds F h (k n (fst e)) o) ->
  finds F h (n ← load (Some l); key ← PamMap.get_key (Some l); k n key) o.
Proof.
  intros HI HP H. destruct (inv_node _ _ _ _ _ _ _ HI HP) as (c & Hc & _).
  set (n := mk_node _ _ _ _ _ c) in Hc. destruct (H n eq_refl eq_refl) as (T & P & Ro & M). exists T. repeat split; auto.
  rewrite (step_load _ _ _ _ Hc), (step_key _ _ _ _ Hc). exact M.
Qed.

Lemma finds_ret F h T : pinned T F -> finds F h (mret (root T)) (root_entry T).
Proof. intros HP. exists T. repeat split. exact HP. Qed.

Definition lesser (k : key_t) (e : entry_t) : bool := comp (fst e) k.
Definition greater (k : key_t) (e : entry_t) : bool := comp k (fst e).

Lemma lesser_bin k l e r : sorted (bin l e r) -> List.filter (lesser k) (elems (bin l e r)) =
  if comp (fst e) k then elems l ++ e :: List.filter (lesser k) (elems r) else List.filter (lesser k) (elems l).
Proof.
  intros H. apply sorted_bin in H as (_ & _ & Bl & Ar). cbn [elems]. rewrite List.filter_app. cbn [List.filter]. unfold lesser at 2.
  destruct (comp (fst e) k) eqn:C.
  - f_equal. apply filter_all. eapply Forall_impl; [exact Bl|]. cbn. intros x Hx. exact (comp_trans _ _ _ Hx C).
  - rewrite (filter_none _ (elems r)), app_nil_r; [reflexivity|]. eapply Forall_impl; [exact Ar|]. cbn. intros x Hx. unfold lesser.
    destruct (comp (fst x) k) eqn:D; [|reflexivity]. now rewrite (comp_trans _ _ _ Hx D) in C.
Qed.

Lemma greater_bin k l e r : sorted (bin l e r) -> List.filter (greater k) (elems (bin l e r)) =
  if comp k (fst e) then List.filter (greater k) (elems l) ++ e :: elems r else List.filter (greater k) (elems r).
Proof.
  intros H. apply sorted_bin in H as (_ & _ & Bl & Ar). cbn [elems]. rewrite List.filter_app. cbn [List.filter]. unfold greater at 2.
  destruct (comp k (fst e)) eqn:C.
  - f_equal. f_equal. apply filter_all. eapply Forall_impl; [exact Ar|]. cbn. intros x Hx. exact (comp_trans _ _ _ C Hx).
  - rewrite (filter_none _ (elems l)); [reflexivity|]. eapply Forall_impl; [exact Bl|]. cbn. intros x Hx. unfold greater.
    destruct (comp k (fst x)) eqn:D; [|reflexivity]. now rewrite (comp_trans _ _ _ D Hx) in C.
Qed.

Lemma finds_find key T : forall fuel h F S, (tdepth (erase T) < fuel)%nat -> inv h F S -> pinned T F ->
  finds F h (PamMap.find fuel (root T) key) (tfind key (erase T)).
Proof.
  induction T as [|l L IHL e R IHR]; intros [|fuel] h F S Hf HI HP; try (cbn in Hf; lia).
  { apply (finds_ret F h lf). now left. }
  cbn [PamMap.find root]. cbn [erase tdepth tfind] in *. apply (finds_step F S h l L e R _ _ HI HP). intros n -> ->.
  destruct (comp key (fst e)); [apply (IHL fuel _ _ S); eauto using pinned_left; lia|].
  destruct (comp (fst e) key); [apply (IHR fuel _ _ S); eauto using pinned_right; lia|]. exact (finds_ret F h (nd l L e R) HP).
Qed.

(** The candidate, unless there is something better. *)
Definition or_candidate (o : option entry_t) (C : ltree) : option entry_t := match o with Some e => Some e | None => root_entry C end.

Lemma finds_previous_loop key T : forall fuel h F S C, (tdepth (erase T) < fuel)%nat -> sorted (erase T) ->
  inv h F S -> pinned T F -> pinned C F ->
  finds F h (PamMap.previous_loop fuel (root C) (root T) key) (or_candidate (last (List.filter (lesser key) (elems (erase T)))) C).
Proof.
  induction T as [|l L IHL e R IHR]; intros [|fuel] h F S C Hf Hs HI HP HC; try (cbn in Hf; lia).
  { exact (finds_ret F h C HC). }
  cbn [PamMap.previous_loop root]. cbn [erase] in *. rewrite (lesser_bin key _ _ _ Hs). apply sorted_bin in Hs as (Hl & Hr & _). cbn [tdepth] in Hf.
  apply (finds_step F S h l L e R _ _ HI HP). intros n -> ->. destruct (comp (fst e) key).
  - rewrite last_app_cons, last_cons. specialize (IHR fuel h F S (nd l L e R) ltac:(lia) Hr HI (pinned_right _ _ _ _ _ HP) HP).
    destruct (last (List.filter (lesser key) (elems (erase R)))); exact IHR.
  - apply (IHL fuel _ _ S); eauto using pinned_left; lia.
Qed.

Lemma finds_previous_or_eq_loop key T : forall fuel h F S C, (tdepth (erase T) < fuel)%nat -> sorted (erase T) ->
  inv h F S -> pinned T F -> pinned C F ->
  finds F h (PamMap.previous_or_eq_loop fuel (root C) (root T) key) (or_candidate (last (List.filter (at_most key) (elems (erase T)))) C).
Proof.
  induction T as [|l L IHL e R IHR]; intros [|fuel] h F S C Hf Hs HI HP HC; try (cbn in Hf; lia).
  { exact (finds_ret F h C HC). }
  cbn [PamMap.previous_or_eq_loop root]. cbn [erase elems] in *. apply sorted_bin in Hs as (Hl & Hr & Bl & Ar). cbn [tdepth] in Hf.
  apply (finds_step F S h l L e R _ _ HI HP). intros n -> ->. rewrite List.filter_app. cbn [List.filter]. unfold at_most at 2.
  destruct (key_cmp_spec (fst e) key) as [K|K|K].
  - cbn [negb]. rewrite last_app_cons, last_cons.
    specialize (IHR fuel h F S (nd l L e R) ltac:(lia) Hr HI (pinned_right _ _ _ _ _ HP) HP).
    destruct (last (List.filter (at_most key) (elems (erase R)))); exact IHR.
  - cbn [negb]. rewrite (above_most_none key (erase R)), app_nil_r by exact (above_trans _ _ _ Ar K).
    apply (IHL fuel _ _ S); eauto using pinned_left; lia.
  - subst key. cbn [negb]. rewrite (above_most_none (fst e) (erase R) Ar), last_snoc. exact (finds_ret F h (nd l L e R) HP).
Qed.

Lemma finds_next_loop key T : forall fuel h F S C, (tdepth (erase T) < fuel)%nat -> sorted (erase T) ->
  inv h F S -> pinned T F -> pinned C F ->
  finds F h (PamMap.next_loop fuel (root C) (root T) key) (or_candidate (head (List.filter (greater key) (elems (erase T)))) C).
Proof.
  induction T as [|l L IHL e R IHR]; intros [|fuel] h F S C Hf Hs HI HP HC; try (cbn in Hf; lia).
  { exact (finds_ret F h C HC). }
  cbn [PamMap.next_loop root]. cbn [erase] in *. rewrite (greater_bin key _ _ _ Hs). apply sorted_bin in Hs as (Hl & Hr & _). cbn [tdepth] in Hf.
  apply (finds_step F S h l L e R _ _ HI HP). intros n -> ->. destruct (comp key (fst e)).
  - specialize (IHL fuel h F S (nd l L e R) ltac:(lia) Hl HI (pinned_left _ _ _ _ _ HP) HP).
    destruct (List.filter (greater key) (elems (erase L))); exact IHL.
  - apply (IHR fuel _ _ S); eauto using pinned_right; lia.
Qed.

Lemma finds_first_loop T : forall fuel h F S C, (tdepth (erase T) < fuel)%nat -> inv h F S -> pinned T F -> pinned C F ->
  finds F h (PamMap.first_loop fuel (root C) (root T)) (or_candidate (head (elems (erase T))) C).
Proof.
  induction T as [|l L IHL e R IHR]; intros [|fuel] h F S C Hf HI HP HC; try (cbn in Hf; lia).
  { exact (finds_ret F h C HC). }
  cbn [PamMap.first_loop root]. cbn [erase elems tdepth] in *. destruct (inv_node _ _ _ _ _ _ _ HI HP) as (c & Hc & _).
  destruct (IHL fuel h F S (nd l L e R) ltac:(lia) HI (pinned_left _ _ _ _ _ HP) HP) as (T & PT & RT & M).
  exists T. rewrite (step_load _ _ _ _ Hc). repeat split; [exact PT|rewrite RT; now destruct (elems (erase L))|exact M].
Qed.

Lemma finds_last_loop T : forall fuel h F S C, (tdepth (erase T) < fuel)%nat -> inv h F S -> pinned T F -> pinned C F ->
  finds F h (PamMap.last_loop fuel (root C) (root T)) (or_candidate (last (elems (erase T))) C).
Proof.
  induction T as [|l L IHL e R IHR]; intros [|fuel] h F S C Hf HI HP HC; try (cbn in Hf; lia).
  { exact (finds_ret F h C HC). }
  cbn [PamMap.last_loop root]. cbn [erase elems tdepth] in *. destruct (inv_node _ _ _ _ _ _ _ HI HP) as (c & Hc & _).
  destruct (IHR fuel h F S (nd l L e R) ltac:(lia) HI (pinned_right _ _ _ _ _ HP) HP) as (T & PT & RT & M).
  exists T. rewrite (step_load _ _ _ _ Hc). repeat split; [exact PT| |exact M].
  rewrite RT, last_app_cons, last_cons. now destruct (last (elems (erase R))).
Qed.

(** *** Ranks *)

(** In a sorted list the entries below the [i]-th are the first [i]. *)
Lemma lesser_at (l : list entry_t) i e : StronglySorted key_lt l -> l !! i = Some e -> length (List.filter (lesser (fst e)) l) = i.
Proof.
  intros H. revert i. induction H as [|x l H IH HF]; intros i He; [discriminate|]. destruct i as [|i]; cbn in He.
  - injection He as ->. cbn. unfold lesser at 1. rewrite comp_irrefl. rewrite filter_none; [reflexivity|].
    eapply Forall_impl; [exact HF|]. cbn. intros y Hy. exact (comp_asym _ _ Hy).
  - cbn. assert (Hx : comp (fst x) (fst e) = true).
    { rewrite Forall_forall in HF. apply HF. apply list_elem_of_lookup. eauto. }
    unfold lesser at 1. rewrite Hx. cbn. f_equal. now apply IH.
Qed.

Lemma reads_rank_loop key T : forall fuel ret, (tdepth (erase T) < fuel)%nat -> sorted (erase T) ->
  tsize (erase T) < max_size -> 0 <= ret -> ret + tsize (erase T) < 2 ^ 64 ->
  reads T (PamMap.rank_loop fuel ret (root T) key) (ret + Z.of_nat (length (List.filter (lesser key) (elems (erase T))))).
Proof.
  induction T as [|l L IHL e R IHR]; intros [|fuel] ret Hf Hs Hsz H1 H2; try (cbn in Hf; lia).
  { cbn. rewrite Z.add_0_r. apply reads_ret. }
  cbn [PamMap.rank_loop root]. cbn [erase] in *. rewrite (lesser_bin key _ _ _ Hs). apply sorted_bin in Hs as (Hl & Hr & _).
  cbn [tdepth tsize] in *. size_pos (erase L). size_pos (erase R). apply reads_load. intros a z c. cbn [lc rc].
  eapply reads_bind; [apply reads_key|]. destruct (comp (fst e) key).
  - eapply reads_bind; [apply reads_left, reads_size|]. unfold max_size in *.
    replace (u32 (1 + tsize (erase L))) with (1 + tsize (erase L)) by (unfold u32, uwrap; rewrite Z.mod_small; lia).
    rewrite add64_small by lia. apply reads_right. rewrite length_app. cbn [length].
    set (k := length (List.filter _ _)). pose proof (tsize_elems (erase L)) as SL.
    replace (ret + Z.of_nat (length (elems (erase L)) + Datatypes.S k)) with (ret + (1 + tsize (erase L)) + Z.of_nat k) by lia.
    apply IHR; auto; lia.
  - apply reads_left, IHL; auto; lia.
Qed.

Lemma finds_select T : forall fuel i h F S, (tdepth (erase T) < fuel)%nat -> inv h F S -> pinned T F -> 0 <= i < 2 ^ 64 ->
  finds F h (PamSeq.select fuel (root T) i) (elems (erase T) !! Z.to_nat i).
Proof.
  induction T as [|l L IHL e R IHR]; intros [|fuel] i h F S Hf HI HP Hi; try (cbn in Hf; lia).
  { apply (finds_ret F h lf). now left. }
  cbn [PamSeq.select root]. cbn [erase elems tdepth] in *. destruct (inv_node _ _ _ _ _ _ _ HI HP) as (c & Hc & _).
  pose proof (tsize_elems (erase L)) as SL. size_pos (erase L). pose proof (inv_size _ _ _ _ HI (pinned_left _ _ _ _ _ HP)) as ML. unfold max_size in ML.
  pose proof (reads_size L h F S HI (pinned_left _ _ _ _ _ HP)) as RS.
  enough (W : finds F h (if tsize (erase L) <? i then PamSeq.select fuel (root R) (i - (tsize (erase L) + 1))%u64
      else if i <? tsize (erase L) then PamSeq.select fuel (root L) i else mret (Some l)) ((elems (erase L) ++ e :: elems (erase R)) !! Z.to_nat i)).
  { destruct W as (T & P & Ro & M). exists T. repeat split; auto. rewrite (step_load _ _ _ _ Hc). cbn [lc rc].
    unfold mbind at 1, mem_bind at 1. rewrite RS. exact M. }
  destruct (Z.ltb_spec (tsize (erase L)) i) as [L1|L1]; [|destruct (Z.ltb_spec i (tsize (erase L))) as [L2|L2]].
  - rewrite add64_small by lia. rewrite lookup_app_r, lookup_cons_ne_0 by lia.
    replace (sub64 i (tsize (erase L) + 1)) with (i - (tsize (erase L) + 1)) by (symmetry; unfold sub64; apply u64_small; unfold fits; lia).
    replace (pred _) with (Z.to_nat (i - (tsize (erase L) + 1))) by lia. apply (IHR fuel _ h F S); eauto using pinned_right; lia.
  - rewrite lookup_app_l by lia. apply (IHL fuel _ h F S); eauto using pinned_left; lia.
  - rewrite list_lookup_middle by lia. exact (finds_ret F h (nd l L e R) HP).
Qed.
End Searches.
End Reads.
