(* ===== verification/PamAug.v ===== *)
(** * Augmented maps ([trees/augmented_ops.h])

    Sums over ranges of keys from the augmented values of subtrees, and the searches and
    filters that use them. *)

From S2P Require Import Prelude PamTree PamOps PamSets PamMulti PamStore PamPrims PamGC PamJoin PamSeq PamMap PamBulk PamReads.
From stdpp Require Import base option list gmap sorting.
Import PamTree PamOps PamSets PamMulti PamStore PamPrims PamGC PamJoin PamSeq PamReads.
#[local] Open Scope Z_scope.

(** Augmentation by a monoid. *)
Class AugOk (E : Entry) : Prop := {
  combine_assoc a b c : combine a (combine b c) = combine (combine a b) c;
  combine_empty_l a : combine get_empty a = a;
  combine_empty_r a : combine a get_empty = a;
}.

Section Aug.
Context {E : Entry} {A : Allocator}.

(** ** Sums *)

(** [aug_sum_t]. *)
Definition add_entry (result : aug_t) (e : entry_t) : aug_t := combine result (from_entry e).
Definition add_aug_val (result av : aug_t) : aug_t := combine result av.

Fixpoint aug_sum_right (fuel : nat) (b : ptr) (key : key_t) (a : aug_t) : mem aug_t :=
  match fuel, b with
  | O, _ => undefined
  | S _, None => mret a
  | S fuel, Some _ =>
    n ← load b; k ← PamMap.get_key b;
    if negb (comp k key) then
      e ← get_entry b;
      let a := add_entry a e in
      a ← match n.(rc) with Some _ => r ← load n.(rc); mret (add_aug_val a r.(aug)) | None => mret a end;
      aug_sum_right fuel n.(lc) key a
    else aug_sum_right fuel n.(rc) key a
  end.

Fixpoint aug_sum_left (fuel : nat) (b : ptr) (key : key_t) (a : aug_t) : mem aug_t :=
  match fuel, b with
  | O, _ => undefined
  | S _, None => mret a
  | S fuel, Some _ =>
    n ← load b; k ← PamMap.get_key b;
    if negb (comp key k) then
      e ← get_entry b;
      let a := add_entry a e in
      a ← match n.(lc) with Some _ => l ← load n.(lc); mret (add_aug_val a l.(aug)) | None => mret a end;
      aug_sum_left fuel n.(rc) key a
    else aug_sum_left fuel n.(lc) key a
  end.

Definition aug_sum_range (fuel : nat) (b : ptr) (key_left key_right : key_t) (a : aug_t) : mem aug_t :=
  r ← PamBulk.range_root fuel b key_left key_right;
  match r with
  | Some _ =>
    n ← load r;
    a ← aug_sum_right fuel n.(lc) key_left a;
    e ← get_entry r;
    aug_sum_left fuel n.(rc) key_right (add_entry a e)
  | None => mret a
  end.

(** ** Searches and filters *)

Fixpoint aug_select (fuel : nat) (b : ptr) (f : aug_t -> bool) : mem ptr :=
  match fuel, b with
  | O, _ => undefined
  | S _, None => mret None
  | S fuel, Some _ =>
    n ← load b; av ← aug_val n.(lc);
    if f av then
      e ← get_entry b;
      if f (from_entry e) then aug_select fuel n.(rc) f else mret b
    else aug_select fuel n.(lc) f
  end.

Fixpoint aug_filter (fuel : nat) (b : ptr) (f : aug_t -> bool) (extra_ptr : bool) : mem ptr :=
  match fuel, b with
  | O, _ => undefined
  | S _, None => mret None
  | S fuel, Some _ =>
    av ← aug_val b;
    if negb (f av) then mret None else
    n ← load b; let copy := extra_ptr || (1 <? n.(ref_cnt)) in
    sz ← size b;
    P ← fork (node_limit <=? sz) (aug_filter fuel n.(lc) f copy) (aug_filter fuel n.(rc) f copy);
    e ← get_entry b;
    if f (from_entry e) then
      o ← copy_if fuel b copy extra_ptr; node_join fuel P.1 P.2 o
    else
      dec_if fuel b copy extra_ptr;; join2 fuel P.1 P.2
  end.

(** Updates the augmented value of the nodes on the way instead of recomputing it. *)
Definition lazy_join (fuel : nat) (g : aug_t -> aug_t) (l r m : ptr) : mem ptr :=
  set_rc m r;; set_lc m l;;
  b ← is_balanced m;
  if b : bool then lazy_update m g;; mret m else node_join fuel l r m.

Definition insert_lazy (fuel : nat) (b : ptr) (e : entry_t) (f : val_t -> val_t -> val_t) : mem ptr :=
  let av := from_entry e in
  let g := fun a => combine av a in
  PamMap.insert_j fuel b e f (lazy_join fuel g) false.

(** ** Specifications *)

Context {AO : AllocatorOk A} {EO : EntryOk E} {AU : AugOk E}.
Implicit Types (F : list ltree) (S : list shell) (h : heap).

Definition aug_sum (l : list entry_t) : aug_t := total get_empty from_entry combine l.

Lemma aug_sum_app l1 l2 : aug_sum (l1 ++ l2) = combine (aug_sum l1) (aug_sum l2).
Proof. apply total_app; [exact combine_assoc|exact combine_empty_l]. Qed.

Lemma aug_sum_cons e l : aug_sum (e :: l) = combine (from_entry e) (aug_sum l).
Proof. reflexivity. Qed.

(** The augmented value of a tree is the sum over its entries in order, whatever its shape. *)
Lemma aug_of_sum t : aug_of t = aug_sum (elems t).
Proof.
  induction t as [|l IHl e r IHr]; [reflexivity|]. cbn [aug_of elems]. rewrite aug_sum_app, aug_sum_cons, <- IHl, <- IHr.
  destruct l as [|l1 e1 r1]; [cbn [aug_of]; rewrite combine_empty_l|]; (destruct r as [|l2 e2 r2]; [cbn [aug_of]; rewrite combine_empty_r|]);
    rewrite ?combine_assoc; reflexivity.
Qed.

Lemma reads_aug_val T : reads T (aug_val (root T)) (aug_of (erase T)).
Proof.
  destruct T as [|l L e R]; [apply reads_ret|]. intros h F S HI HP.
  destruct (inv_node _ _ _ _ _ _ _ HI HP) as (c & Hc & _). unfold aug_val, mbind, mem_bind, load. cbn [root]. now rewrite Hc.
Qed.

(** The child's value, if it is there. *)
Lemma reads_add_child T a :
  reads T (match root T with Some _ => r ← load (root T); mret (add_aug_val a r.(aug)) | None => mret a end) (combine a (aug_of (erase T))).
Proof.
  destruct T as [|l L e R]; cbn [root]; [cbn [erase aug_of]; rewrite combine_empty_r; apply reads_ret|].
  intros h F S HI HP. destruct (inv_node _ _ _ _ _ _ _ HI HP) as (c & Hc & _). unfold mbind, mem_bind, load. now rewrite Hc.
Qed.

Section Commutative.
Hypothesis combine_comm : forall a b, combine a b = combine b a.

Lemma reads_aug_sum_right key T : forall fuel a, (tdepth (erase T) < fuel)%nat -> sorted (erase T) ->
  reads T (aug_sum_right fuel (root T) key a) (combine a (aug_sum (List.filter (at_least key) (elems (erase T))))).
Proof.
  induction T as [|l L IHL e R IHR]; intros [|fuel] a Hf Hs; try (cbn in Hf; lia).
  { cbn. rewrite combine_empty_r. apply reads_ret. }
  cbn [aug_sum_right root]. cbn [erase elems tdepth] in *. apply sorted_bin in Hs as (Hl & Hr & Bl & Ar).
  apply reads_load. intros av z c. cbn [lc rc]. eapply reads_bind; [apply reads_key|].
  rewrite List.filter_app. cbn [List.filter]. unfold at_least at 2. destruct (comp (fst e) key) eqn:C; cbn [negb].
  - rewrite (below_least_none key (erase L)) by exact (below_trans _ _ _ Bl C). apply reads_right, IHR; auto; lia.
  - eapply reads_bind; [apply reads_entry|]. eapply reads_bind; [apply reads_right, reads_add_child|].
    rewrite (above_least key e _ Ar C), aug_sum_app, aug_sum_cons, <- aug_of_sum.
    rewrite (combine_comm (aug_sum (List.filter _ _))), combine_assoc, combine_assoc. apply reads_left, IHL; auto; lia.
Qed.

Lemma reads_aug_sum_left key T : forall fuel a, (tdepth (erase T) < fuel)%nat -> sorted (erase T) ->
  reads T (aug_sum_left fuel (root T) key a) (combine a (aug_sum (List.filter (at_most key) (elems (erase T))))).
Proof.
  induction T as [|l L IHL e R IHR]; intros [|fuel] a Hf Hs; try (cbn in Hf; lia).
  { cbn. rewrite combine_empty_r. apply reads_ret. }
  cbn [aug_sum_left root]. cbn [erase elems tdepth] in *. apply sorted_bin in Hs as (Hl & Hr & Bl & Ar).
  apply reads_load. intros av z c. cbn [lc rc]. eapply reads_bind; [apply reads_key|].
  rewrite List.filter_app. cbn [List.filter]. unfold at_most at 2. destruct (comp key (fst e)) eqn:C; cbn [negb].
  - rewrite (above_most_none key (erase R)), app_nil_r by exact (above_trans _ _ _ Ar C). apply reads_left, IHL; auto; lia.
  - eapply reads_bind; [apply reads_entry|]. eapply reads_bind; [apply reads_left, reads_add_child|].
    rewrite (below_most key e _ Bl C), aug_sum_app, aug_sum_cons, <- aug_of_sum.
    set (x := from_entry e). set (X := aug_sum (List.filter _ _)).
    rewrite (combine_assoc (aug_of (erase L)) x X), (combine_comm (aug_of (erase L)) x), (combine_assoc a), (combine_assoc a).
    apply reads_right, IHR; auto; lia.
Qed.

(** Between two keys, both included. *)
Lemma wp_aug_sum_range low high T fuel a h F S : (tdepth (erase T) < fuel)%nat -> tsize (erase T) < Z.of_nat fuel -> sorted (erase T) ->
  inv h F S -> pinned T F ->
  wp (aug_sum_range fuel (root T) low high a)
     (fun v h' => v = combine a (aug_sum (List.filter (fun e => at_least low e && at_most high e) (elems (erase T)))) /\ h' = h) h.
Proof.
  intros Hf Hsz Hs H HP. rewrite <- trange_elems by exact Hs. unfold aug_sum_range.
  apply wp_bind, (PamBulk.wp_range_root _ _ _ _ _ _ _ _ Hf H HP). intros [|l L e R] PT Hle -> Hs' HC.
  { apply wp_ret. cbn. now rewrite combine_empty_r. }
  destruct HC as [C1 C2]. specialize (Hs' Hs). cbn [root]. destruct (inv_node _ _ _ _ _ _ _ H PT) as (c & Hc & _).
  apply wp_bind, (wp_load _ _ _ _ Hc). cbn [lc rc]. cbn [erase trange] in *. rewrite C1, C2, tjoin_elems.
  apply sorted_bin in Hs' as (Hl & Hr & _ & _).
  pose proof (tdepth_size (erase L)). pose proof (tdepth_size (erase R)). cbn [tsize] in Hle. size_pos (erase L). size_pos (erase R).
  assert (FL : (tdepth (erase L) < fuel)%nat) by lia. assert (FR : (tdepth (erase R) < fuel)%nat) by lia.
  apply wp_bind, (reads_wp _ _ _ _ _ _ _ (reads_aug_sum_right low L fuel a FL Hl) H (pinned_left _ _ _ _ _ PT)).
  apply wp_bind, (wp_get_entry _ _ _ _ _ _ _ _ H PT).
  apply (reads_wp _ _ _ _ _ _ _ (reads_aug_sum_left high R fuel _ FR Hr) H (pinned_right _ _ _ _ _ PT)). split; [|reflexivity].
  rewrite tright_elems, tleft_elems, aug_sum_app, aug_sum_cons by assumption. unfold add_entry. now rewrite !combine_assoc.
Qed.
End Commutative.

(** The first entry that [f] rejects, for a test of sums that is the conjunction of the tests
    of their parts. *)
Lemma finds_aug_select f T : (forall a b, f (combine a b) = f a && f b) -> f get_empty = true ->
  forall fuel h F S, (tdepth (erase T) < fuel)%nat -> inv h F S -> pinned T F ->
  finds F h (aug_select fuel (root T) f) (List.find (fun e => negb (f (from_entry e))) (elems (erase T))).
Proof.
  intros Hc He. assert (Hsum : forall l, f (aug_sum l) = true -> List.find (fun e => negb (f (from_entry e))) l = None).
  { induction l as [|e l IH]; intros H; [reflexivity|]. rewrite aug_sum_cons, Hc in H. apply andb_true_iff in H as [H1 H2].
    cbn. rewrite H1. cbn. auto. }
  assert (Hsum' : forall l l', f (aug_sum l) = false -> List.find (fun e => negb (f (from_entry e))) (l ++ l') = List.find (fun e => negb (f (from_entry e))) l).
  { induction l as [|e l IH]; intros l' H; [cbn in H; unfold aug_sum, total in H; cbn in H; congruence|]. rewrite aug_sum_cons, Hc in H.
    cbn. destruct (f (from_entry e)); [cbn in *; auto|reflexivity]. }
  assert (Hskip : forall l l', f (aug_sum l) = true -> List.find (fun e => negb (f (from_entry e))) (l ++ l') = List.find (fun e => negb (f (from_entry e))) l').
  { induction l as [|e l IH]; intros l' H; [reflexivity|]. rewrite aug_sum_cons, Hc in H. apply andb_true_iff in H as [H1 H2].
    cbn. rewrite H1. cbn. auto. }
  induction T as [|l L IHL e R IHR]; intros [|fuel] h F S Hf HI HP; try (cbn in Hf; lia).
  { apply (finds_ret F h lf). now left. }
  cbn [aug_select root]. cbn [erase elems tdepth] in *. destruct (inv_node _ _ _ _ _ _ _ HI HP) as (c & Hn & _).
  pose proof (reads_aug_val L h F S HI (pinned_left _ _ _ _ _ HP)) as RA.
  pose proof (reads_entry l L e R h F S HI HP) as RE.
  enough (W : finds F h (if f (aug_of (erase L)) then if f (from_entry e) then aug_select fuel (root R) f else mret (Some l) else aug_select fuel (root L) f)
      (List.find (fun e => negb (f (from_entry e))) (elems (erase L) ++ e :: elems (erase R)))).
  { destruct W as (T & P & Ro & M). exists T. repeat split; auto. rewrite (step_load _ _ _ _ Hn). cbn [lc rc].
    unfold mbind at 1, mem_bind at 1. rewrite RA. destruct (f (aug_of (erase L))); [|exact M].
    unfold mbind at 1, mem_bind at 1. rewrite RE. exact M. }
  rewrite aug_of_sum. destruct (f (aug_sum (elems (erase L)))) eqn:FL.
  - rewrite Hskip by exact FL. cbn [List.find]. destruct (f (from_entry e)); cbn [negb].
    + apply (IHR fuel h F S); eauto using pinned_right; lia.
    + exact (finds_ret F h (nd l L e R) HP).
  - rewrite Hsum' by exact FL. apply (IHL fuel h F S); eauto using pinned_left; lia.
Qed.

(** *** [aug_filter] *)

Fixpoint taug_filter (f : aug_t -> bool) (t : tree) : tree :=
  match t with
  | leaf => leaf
  | bin l e r =>
    if negb (f (aug_of t)) then leaf
    else if f (from_entry e) then tjoin (taug_filter f l) (taug_filter f r) e
    else tjoin2 (taug_filter f l) (taug_filter f r)
  end.

Lemma taug_filter_elems f t : (forall a b, f (combine a b) = f a || f b) -> f get_empty = false ->
  elems (taug_filter f t) = List.filter (fun e => f (from_entry e)) (elems t).
Proof.
  intros Hc He. assert (Hn : forall l, f (aug_sum l) = false -> List.filter (fun e => f (from_entry e)) l = []).
  { induction l as [|e l IH]; intros H; [reflexivity|]. rewrite aug_sum_cons, Hc in H. apply orb_false_iff in H as [H1 H2].
    cbn. rewrite H1. auto. }
  induction t as [|l IHl e r IHr]; [reflexivity|]. cbn [taug_filter]. destruct (f (aug_of (bin l e r))) eqn:Ea; cbn [negb].
  - cbn [elems]. rewrite List.filter_app. cbn [List.filter].
    destruct (f (from_entry e)); rewrite ?tjoin_elems, ?tjoin2_elems, IHl, IHr; reflexivity.
  - rewrite aug_of_sum in Ea. now rewrite (Hn _ Ea).
Qed.

Lemma taug_filter_size f t : tsize (taug_filter f t) <= tsize t.
Proof.
  induction t as [|l IHl e r IHr]; [reflexivity|]. cbn [taug_filter]. destruct (negb (f (aug_of (bin l e r)))).
  - cbn. pose proof (tsize_nonneg l). pose proof (tsize_nonneg r). lia.
  - cbn [tsize]. destruct (f (from_entry e)); rewrite ?tjoin_size, ?tjoin2_size; lia.
Qed.

(** A tree that is only looked at is filtered. *)
Lemma wp_aug_filter f T : forall fuel, tsize (erase T) < max_size -> tsize (erase T) + 2 <= Z.of_nat fuel ->
  refines1 true T (aug_filter fuel (root T) f true) (taug_filter f (erase T)).
Proof.
  induction T as [|l L IHL e R IHR]; intros [|fuel] Hsz Hf h F S H HP; try (cbn in Hf; lia).
  { now apply wp_ret, gives_leaf. }
  { size_pos (erase (nd l L e R)). lia. }
  specialize (HP eq_refl). cbn [aug_filter root]. cbn [held] in H.
  apply wp_bind, (reads_wp _ _ _ _ _ _ _ (reads_aug_val (nd l L e R)) H HP). cbn [erase taug_filter].
  change (bin (erase L) e (erase R)) with (erase (nd l L e R)). destruct (negb (f _)); [now apply wp_ret, gives_leaf|].
  destruct (inv_node _ _ _ _ _ _ _ H HP) as (c & Hc & _). apply wp_bind, (wp_load _ _ _ _ Hc). cbn [lc rc ref_cnt orb].
  apply wp_bind, (wp_size _ _ _ _ _ H HP). pose proof (tsize_bin_bound l L e R) as B. size_pos (erase L). size_pos (erase R).
  pose proof (lent_intro true l L e R [lf; lf] F S h _ (inv_held_leaves _ true _ _ _ H) (fun _ => HP) Hc) as HC. cbn [orb] in HC.
  apply (wp_fork_children _ _ _ _ _ _ _ _ _ _ _ lf HC (or_introl eq_refl) _ _ _ (taug_filter f (erase L)) (taug_filter f (erase R)));
    [apply refines1_refines, IHL; lia|apply refines1_refines, IHR; lia|].
  intros h1 L' R' EL ER P. cbn [fst snd].
  pose proof (taug_filter_size f (erase L)). pose proof (taug_filter_size f (erase R)).
  apply wp_bind, (wp_parts_entry _ _ _ _ _ _ _ _ _ _ _ _ P). rewrite <- EL, <- ER in *. size_pos (erase L'). size_pos (erase R').
  destruct (f (from_entry e)); [apply (wp_copy_join _ _ _ _ _ _ _ _ _ _ _ _ _ P)|apply (wp_drop_join2 _ _ _ _ _ _ _ _ _ _ _ _ P)];
    unfold join_fuel; lia.
Qed.
End Aug.
