(* ===== verification/PamClass.v ===== *)
(** * Map objects ([trees/map.h], [trees/augmented_map.h])

    A [map_] object is a pointer to a tree that it owns.  The static functions take their
    maps by value: the copy constructor takes another reference to the same nodes, so a map
    that was copied before an operation is a snapshot.  A function that returns an object
    returns its root; a member function that assigns [root] returns the new root.

    [M m] passed by value and used through [m.get_root()] hands its reference over; used
    through [m.root] it is released by the destructor when the function returns. *)

From S2P Require Import Prelude PamTree PamOps PamSets PamMulti PamStore PamPrims PamGC PamJoin PamSeq PamMap PamBulk PamReads PamAug.
From stdpp Require Import base option list gmap.
Import PamTree PamOps PamSets PamMulti PamStore PamPrims PamGC PamJoin PamSeq PamReads.
#[local] Open Scope Z_scope.

Section Class.
Context {E : Entry} {A : Allocator}.

(** ** Objects *)

(** [map_(const M&)]. *)
Definition map_copy (m : ptr) : mem ptr := increment m;; mret m.

(** [clear], and the destructor. *)
Definition clear (fuel : nat) (root : ptr) : mem ptr := decrement_recursive fuel root;; mret None.

(** Copy assignment, from another object. *)
Definition map_assign (fuel : nat) (root m : ptr) : mem ptr :=
  clear fuel root;; increment m;; mret m.

Definition map_single (e : entry_t) : mem ptr := single e.

(** ** Updates *)

Definition replace (a b : val_t) : val_t := b.
Definition get_right (a b : val_t) : val_t := b.

(** [insert(M m, p, f)], and the member function. *)
Definition map_insert (fuel : nat) (m : ptr) (p : entry_t) (f : val_t -> val_t -> val_t) : mem ptr :=
  m ← map_copy m; PamMap.insert fuel m p f false.
Definition insert_here (fuel : nat) (root : ptr) (p : entry_t) (f : val_t -> val_t -> val_t) : mem ptr :=
  PamMap.insert fuel root p f false.

Definition map_remove (fuel : nat) (m : ptr) (k : key_t) : mem ptr :=
  m ← map_copy m; PamMap.deletet fuel m k false.

Definition map_join2 (fuel : nat) (a b : ptr) : mem ptr :=
  a ← map_copy a; b ← map_copy b; PamSeq.join2 fuel a b.

Definition map_filter (fuel : nat) (m : ptr) (f : entry_t -> bool) : mem ptr :=
  m ← map_copy m; PamSeq.filter fuel m f false.

Definition from_sorted (fuel : nat) (s : list entry_t) : mem ptr := PamSeq.from_array fuel s.

Definition map_multi_insert_sorted (fuel : nat) (m : ptr) (s : list entry_t) (run_seq : bool) : mem ptr :=
  m ← map_copy m; PamBulk.multi_insert_sorted fuel m s replace false run_seq.

Definition map_multi_update_sorted {VE} (fuel : nat) (m : ptr) (s : list (key_t * VE)) (f : val_t -> VE -> val_t) : mem ptr :=
  m ← map_copy m; PamBulk.multi_update_sorted fuel m s f false false.

Definition map_union (fuel : nat) (a b : ptr) (op : val_t -> val_t -> val_t) (extra : bool) : mem ptr :=
  a ← map_copy a; b ← map_copy b; PamBulk.uniont fuel a b op extra.

Definition map_intersect (fuel : nat) (a b : ptr) (op : val_t -> val_t -> val_t) : mem ptr :=
  a ← map_copy a; b ← map_copy b; PamBulk.intersect fuel a b op false.

Definition map_difference (fuel : nat) (a b : ptr) : mem ptr :=
  a ← map_copy a; b ← map_copy b; PamBulk.difference fuel a b false.

(** [range], [range_number] and [upTo] take a reference. *)
Definition map_range (fuel : nat) (a : ptr) (kl kr : key_t) : mem ptr := PamBulk.range fuel a kl kr.
Definition range_number (fuel : nat) (a : ptr) (kl : key_t) (r : Z) : mem ptr := PamBulk.range_num fuel a kl r.
Definition upTo (fuel : nat) (a : ptr) (kr : key_t) : mem ptr := PamBulk.left fuel a kr.

(** [map] and [map_filter] keep their argument's root until they return. *)
Definition map_map (fuel : nat) (a : ptr) (f : entry_t -> val_t) : mem ptr :=
  a ← map_copy a;
  r ← PamBulk.map fuel a f;
  clear fuel a;; mret r.

Definition map_map_filter (fuel : nat) (a : ptr) (f : entry_t -> option val_t) : mem ptr :=
  a ← map_copy a;
  r ← PamBulk.map_filter fuel a f;
  clear fuel a;; mret r.

(** ** Queries *)

Definition map_size (root : ptr) : mem Z := size root.
Definition map_is_empty (root : ptr) : bool := match root with None => true | Some _ => false end.

Definition node_to_val (a : ptr) : mem (option val_t) :=
  match a with Some _ => e ← get_entry a; mret (Some e.2) | None => mret None end.
Definition node_to_entry (a : ptr) : mem (option entry_t) :=
  match a with Some _ => e ← get_entry a; mret (Some e) | None => mret None end.

Definition map_find (fuel : nat) (root : ptr) (key : key_t) : mem (option val_t) :=
  a ← PamMap.find fuel root key; node_to_val a.
Definition map_contains (fuel : nat) (root : ptr) (key : key_t) : mem bool :=
  a ← PamMap.find fuel root key; mret (match a with Some _ => true | None => false end).
Definition map_next (fuel : nat) (root : ptr) (key : key_t) : mem (option entry_t) :=
  a ← PamMap.next fuel root key; node_to_entry a.
Definition map_previous (fuel : nat) (root : ptr) (key : key_t) : mem (option entry_t) :=
  a ← PamMap.previous fuel root key; node_to_entry a.
Definition map_rank (fuel : nat) (root : ptr) (key : key_t) : mem Z := PamMap.rank fuel root key.
Definition map_select (fuel : nat) (root : ptr) (i : Z) : mem (option entry_t) :=
  a ← PamSeq.select fuel root i; node_to_entry a.

(** [update] is a [const] member function. *)
Definition map_update (fuel : nat) (root : ptr) (key : key_t) (f : entry_t -> val_t) : mem (option val_t) :=
  a ← PamMap.update fuel root key f false; node_to_val a.

(** [operator ==]: the union is a temporary. *)
Definition map_equal (fuel : nat) (root m : ptr) : mem bool :=
  n ← size root; k ← size m;
  if negb (n =? k) then mret false else
  u ← map_union fuel root m get_right false;
  s ← size u; clear fuel u;; mret (n =? s).

(** ** Iterations over a copy *)

Section Iterate.
Context {St : Type}.

Definition map_foreach_index (fuel : nat) (m : ptr) (f : entry_t -> Z -> St -> St) (st : St) : mem St :=
  m ← map_copy m; PamSeq.foreach_index fuel m 0 f node_limit false st.

End Iterate.

(** [entries], [values] and [keys] write to an array. *)
Definition map_entries (fuel : nat) (m : ptr) (out : list entry_t) : mem (list entry_t) :=
  map_foreach_index fuel m (fun e i out => <[Z.to_nat i := e]> out) out.

Definition map_values (fuel : nat) (m : ptr) (out : list val_t) : mem (list val_t) :=
  map_foreach_index fuel m (fun e i out => <[Z.to_nat i := e.2]> out) out.

(** The state of the second loop is the array with the position of the iterator. *)
Definition put_key (e : entry_t) (st : list key_t * nat) : list key_t * nat := (<[st.2 := e.1]> st.1, S st.2).

Definition map_keys (fuel : nat) (m : ptr) (out : list key_t) : mem (list key_t) :=
  m ← map_copy m;
  n ← size m;
  if 1000 <? n then
    PamSeq.foreach_index fuel m 0 (fun e i out => <[Z.to_nat i := e.1]> out) node_limit false out
  else
    r ← PamSeq.foreach_seq fuel m put_key (out, 0%nat);
    mret r.1.

Definition map_if_exist (fuel : nat) (m : ptr) (f : entry_t -> bool) : mem bool :=
  m ← map_copy m; r ← PamSeq.if_exist fuel m f false; mret r.1.

Definition map_map_reduce {T} (fuel : nat) (a : ptr) (identity : T) (g : entry_t -> T) (reduce : T -> T -> T) : mem T :=
  PamSeq.map_reduce fuel a identity g reduce.

(** ** Augmented maps *)

Definition map_aug_val (root : ptr) : mem aug_t := aug_val root.
Definition aug_left (fuel : nat) (root : ptr) (key : key_t) : mem aug_t := PamAug.aug_sum_left fuel root key get_empty.
Definition aug_right (fuel : nat) (root : ptr) (key : key_t) : mem aug_t := PamAug.aug_sum_right fuel root key get_empty.
Definition aug_range (fuel : nat) (root : ptr) (key_left key_right : key_t) : mem aug_t :=
  PamAug.aug_sum_range fuel root key_left key_right get_empty.
Definition map_aug_select (fuel : nat) (root : ptr) (f : aug_t -> bool) : mem (option entry_t) :=
  a ← PamAug.aug_select fuel root f; node_to_entry a.
Definition map_aug_filter (fuel : nat) (m : ptr) (f : aug_t -> bool) : mem ptr :=
  m ← map_copy m; PamAug.aug_filter fuel m f false.
Definition map_insert_lazy (fuel : nat) (m : ptr) (p : entry_t) : mem ptr :=
  m ← map_copy m; PamAug.insert_lazy fuel m p replace.
End Class.
