(* ===== verification/PamReduce.v ===== *)
(** * Iterations over nodes and reductions over ranges

    The iterations of [trees/sequence_ops.h] that hand nodes to their argument, the
    reductions over a number of entries of [trees/map_ops.h], and the member functions of
    [trees/map.h] that iterate. *)

From S2P Require Import Prelude PamTree PamOps PamSets PamMulti PamStore PamPrims PamGC PamJoin PamSeq PamMap PamBulk PamReads PamClass.
From stdpp Require Import base option list gmap.
Import PamTree PamOps PamMulti PamStore PamPrims PamGC PamJoin PamSeq PamReads PamClass.
#[local] Open Scope Z_scope.

Section Reductions.
Context {E : Entry} {A : Allocator}.

(** ** Sequences *)

(** [map_reducef]: the operations are arguments instead of members of a class. *)
Fixpoint map_reducef {T} (fuel : nat) (b : ptr) (m : entry_t -> T) (r : T -> T -> T) (identity : T) (grain : Z) : mem T :=
  match fuel with
  | O => undefined
  | S fuel =>
    match b with
    | None => mret identity
    | Some _ =>
      n ← load b; sz ← size b;
      P ← fork (grain <=? sz) (map_reducef fuel n.(lc) m r identity grain) (map_reducef fuel n.(rc) m r identity grain);
      e ← get_entry b;
      mret (r P.1 (r (m e) P.2))
    end
  end.

(** [from_node] reads the node. *)
Fixpoint map_reduce_node {T} (fuel : nat) (b : ptr) (identity : T) (from_node : ptr -> mem T) (combine : T -> T -> T) (grain : Z) : mem T :=
  match fuel with
  | O => undefined
  | S fuel =>
    match b with
    | None => mret identity
    | Some _ =>
      n ← load b; sz ← size b;
      P ← fork (grain <=? sz) (map_reduce_node fuel n.(lc) identity from_node combine grain)
                              (map_reduce_node fuel n.(rc) identity from_node combine grain);
      v ← from_node b;
      mret (combine P.1 (combine v P.2))
    end
  end.

Section Iterate.
Context {St : Type}.

Fixpoint iter_nodes_cond (fuel : nat) (a : ptr) (f : entry_t -> ptr -> St -> mem (bool * St)) (st : St) : mem (bool * St) :=
  match fuel with
  | O => undefined
  | S fuel =>
    match a with
    | None => mret (false, st)
    | Some _ =>
      n ← load a;
      r ← iter_nodes_cond fuel n.(lc) f st;
      if fst r : bool then mret (true, snd r) else
      e ← get_entry a;
      r ← f e a (snd r);
      if fst r : bool then mret (true, snd r) else iter_nodes_cond fuel n.(rc) f (snd r)
    end
  end.

(** [g] gives the number of positions a subtree takes, [h] that of a node. *)
Fixpoint foreach_ind_entry_bc (fuel : nat) (a : ptr) (start : Z) (f : entry_t -> Z -> St -> St) (g h : ptr -> mem Z) (st : St) : mem St :=
  match fuel with
  | O => undefined
  | S fuel =>
    match a with
    | None => mret st
    | Some _ =>
      n ← load a; lsize ← g n.(lc); e ← get_entry a;
      let st := f e (start + lsize)%u64 st in
      st ← foreach_ind_entry_bc fuel n.(lc) start f g h st;
      ha ← h a; let a_size := (lsize + ha)%u64 in
      foreach_ind_entry_bc fuel n.(rc) (start + a_size)%u64 f g h st
    end
  end.

Fixpoint foreach_ind_entry (fuel : nat) (a : ptr) (start : Z) (f : entry_t -> Z -> St -> St) (g h : ptr -> mem Z) (granularity : Z) (st : St) : mem St :=
  match fuel with
  | O => undefined
  | S fuel =>
    match a with
    | None => mret st
    | Some _ =>
      n ← load a; n_tree_nodes_left ← size n.(lc);
      if granularity <? n_tree_nodes_left then
        l_size ← g n.(lc); e ← get_entry a;
        let st := f e (start + l_size)%u64 st in
        ha ← h a; let a_size := (l_size + ha)%u64 in
        st ← foreach_ind_entry fuel n.(lc) start f g h granularity st;
        foreach_ind_entry fuel n.(rc) (start + a_size)%u64 f g h granularity st
      else foreach_ind_entry_bc (S fuel) a start f g h st
    end
  end.
End Iterate.

(** ** Maps *)

(** The reduction and the number of entries it covers. *)
Fixpoint left_number_mr {T} (fuel : nat) (b : ptr) (rg : Z) (mp : entry_t -> T) (rdc : T -> T -> T) (I : T) : mem (T * Z) :=
  match fuel, b with
  | O, _ => undefined
  | S _, None => mret (I, 0)
  | S fuel, Some _ =>
    if rg =? 0 then mret (I, 0) else
    sz ← size b;
    if sz <=? rg then res ← map_reducef (S fuel) b mp rdc I node_limit; mret (res, sz) else
    n ← load b; x ← size n.(lc);
    if x <? rg then
      lres ← map_reducef fuel n.(lc) mp rdc I node_limit;
      e ← get_entry b;
      let res := rdc lres (mp e) in
      rres ← left_number_mr fuel n.(rc) (rg - x - 1)%u64 mp rdc I;
      let s := (x + 1 + rres.2)%u64 in
      mret (rdc res rres.1, s)
    else left_number_mr fuel n.(lc) rg mp rdc I
  end.

Fixpoint range_num_mr {T} (fuel : nat) (b : ptr) (low : key_t) (rg : Z) (mp : entry_t -> T) (rdc : T -> T -> T) (I : T) : mem (T * Z) :=
  match fuel with
  | O => undefined
  | S fuel =>
    b ← PamBulk.skip_below (S fuel) b low;
    match b with
    | None => mret (I, 0)
    | Some _ =>
      n ← load b;
      ltree ← range_num_mr fuel n.(lc) low rg mp rdc I;
      let x := ltree.2 in
      if x =? rg then mret ltree else
      rtree ← left_number_mr fuel n.(rc) (rg - x - 1)%u64 mp rdc I;
      e ← get_entry b;
      let s := (x + 1 + rtree.2)%u64 in
      mret (rdc (rdc ltree.1 (mp e)) rtree.1, s)
    end
  end.

(** ** Map objects *)

Definition map_elms {St} (fuel : nat) (root : ptr) (f : entry_t -> Z -> St -> St) (run_seq : bool) (granularity : Z) (st : St) : mem St :=
  if run_seq then foreach_index_bc_seq fuel root 0 f st else foreach_index_bc fuel root 0 f granularity st.

Definition map_elms_no_index {St} (fuel : nat) (root : ptr) (f : entry_t -> St -> St) (run_seq : bool) (st : St) : mem St :=
  if run_seq then foreach_entry_seq fuel root f st else foreach_entry fuel root f node_limit st.

Definition map_elms_entry {St} (fuel : nat) (root : ptr) (f : entry_t -> Z -> St -> St) (g h : ptr -> mem Z) (st : St) : mem St :=
  foreach_ind_entry fuel root 0 f g h node_limit st.

Definition range_number_mr {T} (fuel : nat) (a : ptr) (kl : key_t) (r : Z) (mp : entry_t -> T) (rdc : T -> T -> T) (I : T) : mem T :=
  x ← range_num_mr fuel a kl r mp rdc I; mret x.1.

(** [map_index] hands the reference of its copy over. *)
Definition map_index {St} (fuel : nat) (m : ptr) (f : entry_t -> Z -> St -> St) (granularity : Z) (st : St) : mem St :=
  m ← map_copy m; foreach_index fuel m 0 f granularity false st.

(** [to_seq]: the new array is as long as the map; its elements are written once each. *)
Definition to_seq {OT} (fuel : nat) (m : ptr) (f : entry_t -> OT) (uninitialized : OT) : mem (list OT) :=
  m ← map_copy m; n ← size m;
  foreach_index fuel m 0 (fun e i out => <[Z.to_nat i := f e]> out) node_limit false (repeat uninitialized (Z.to_nat n)).

(** ** Specifications *)

Context {AO : AllocatorOk A}.

Section Reduce.
Context {B : Type} (identity : B) (g : entry_t -> B) (reduce : B -> B -> B).
Hypothesis reduce_assoc : forall a b c, reduce a (reduce b c) = reduce (reduce a b) c.
Hypothesis reduce_id : forall a, reduce identity a = a.
#[local] Abbreviation total := (total identity g reduce).

Lemma reads_map_reducef grain T : forall fuel, (tdepth (erase T) < fuel)%nat ->
  reads T (map_reducef fuel (root T) g reduce identity grain) (total (elems (erase T))).
Proof.
  induction T as [|l L IHL e R IHR]; intros [|fuel] Hf; try (cbn in Hf; lia); [apply reads_ret|].
  cbn [map_reducef root]. cbn [erase tdepth elems] in *. apply reads_load. intros a z c. cbn [lc rc].
  eapply reads_bind; [apply reads_size|]. eapply reads_bind.
  { apply reads_fork; [apply reads_left, IHL; lia|apply reads_right, IHR; lia]. }
  eapply reads_bind; [apply reads_entry|]. cbn [fst snd]. rewrite (total_app _ _ _ reduce_assoc reduce_id). apply reads_ret.
Qed.

(** The first [rg] entries. *)
Lemma reads_left_number_mr T : forall fuel rg, (tdepth (erase T) < fuel)%nat -> tsize (erase T) < max_size -> 0 <= rg < 2 ^ 64 ->
  reads T (left_number_mr fuel (root T) rg g reduce identity)
          (total (take (Z.to_nat rg) (elems (erase T))), Z.min rg (tsize (erase T))).
Proof.
  induction T as [|l L IHL e R IHR]; intros [|fuel] rg Hf Hs Hrg; try (cbn in Hf; lia).
  { cbn. rewrite take_nil, Z.min_r by lia. apply reads_ret. }
  pose proof (tsize_bin_bound l L e R) as TB. size_pos (erase L). size_pos (erase R). unfold max_size in *.
  pose proof (tsize_elems (erase (nd l L e R))) as TE. pose proof (tsize_elems (erase L)) as TL.
  pose proof (reads_map_reducef node_limit (nd l L e R) (Datatypes.S fuel) Hf) as HA.
  cbn [left_number_mr root]. destruct (Z.eqb_spec rg 0) as [->|N].
  { cbn. rewrite Z.min_l by (cbn; lia). apply reads_ret. }
  eapply reads_bind; [apply reads_size|]. destruct (Z.leb_spec (tsize (erase (nd l L e R))) rg) as [C|C].
  { eapply reads_bind; [exact HA|]. rewrite take_ge, Z.min_r by lia. apply reads_ret. }
  rewrite (Z.min_l rg) by lia. cbn [erase tdepth elems tsize] in *. apply reads_load. intros a z c. cbn [lc rc].
  eapply reads_bind; [apply reads_left, reads_size|]. destruct (Z.ltb_spec (tsize (erase L)) rg) as [C1|C1].
  - eapply reads_bind; [apply reads_left, reads_map_reducef; lia|]. eapply reads_bind; [apply reads_entry|].
    rewrite (PamBulk.sub64_pred rg (tsize (erase L))) by lia. eapply reads_bind; [apply reads_right, IHR; lia|]. cbn [fst snd].
    replace (Z.to_nat rg) with (length (elems (erase L)) + S (Z.to_nat (rg - tsize (erase L) - 1)))%nat by lia.
    rewrite take_app_add. cbn [take]. rewrite (total_app _ _ _ reduce_assoc reduce_id), (Z.min_l (rg - _ - 1)) by lia.
    rewrite !add64_small by (rewrite ?add64_small; lia). replace (_ + 1 + _) with rg by lia. cbn [foldr PamReads.total]. rewrite reduce_assoc. apply reads_ret.
  - assert (HL := IHL fuel rg ltac:(lia) ltac:(lia) Hrg). rewrite Z.min_l in HL by lia. rewrite take_app_le by lia. now apply reads_left.
Qed.

Context {EO : EntryOk E}.

(** The node where the loop stops. *)
Lemma reads_skip_below low T : forall fuel, (tdepth (erase T) < fuel)%nat -> sorted (erase T) -> exists T',
  (forall C (k : ptr -> mem C) v, reads T' (k (root T')) v -> reads T (PamBulk.skip_below fuel (root T) low ≫= k) v) /\
  List.filter (at_least low) (elems (erase T')) = List.filter (at_least low) (elems (erase T)) /\
  sorted (erase T') /\ tsize (erase T') <= tsize (erase T) /\ (tdepth (erase T') <= tdepth (erase T))%nat /\
  match T' with lf => True | nd _ _ e _ => comp (fst e) low = false end.
Proof.
  induction T as [|l L IHL e R IHR]; intros [|fuel] Hf Hs; try (cbn in Hf; lia); [exists lf; split; [intros C k v Hk; exact Hk|repeat split; auto; reflexivity]|].
  pose proof (proj1 (sorted_bin _ _ _) Hs) as (Hl & Hr & Bl & Ar). cbn [erase tdepth tsize elems] in *. size_pos (erase L).
  destruct (comp (fst e) low) eqn:C.
  - destruct (IHR fuel ltac:(lia) Hr) as (T' & HT & HF & ? & ? & ? & ?). exists T'. repeat split; auto; try lia.
    + intros C' k v Hk. intros h F S HI HP. destruct (inv_node _ _ _ _ _ _ _ HI HP) as (c & Hc & _).
      cbn [PamBulk.skip_below root]. unfold mbind at 1, mem_bind at 1. rewrite (step_load _ _ _ _ Hc), (step_key _ _ _ _ Hc).
      cbn [entry rc]. rewrite C. exact (HT C' k v Hk h F S HI (pinned_right _ _ _ _ _ HP)).
    + rewrite HF, List.filter_app. cbn [List.filter]. replace (at_least low e) with false by (unfold at_least; now rewrite C).
      now rewrite (below_least_none low (erase L)) by exact (below_trans _ _ _ Bl C).
  - exists (nd l L e R). cbn [erase elems tdepth tsize]. repeat split; auto; try lia.
    intros C' k v Hk h F S HI HP. destruct (inv_node _ _ _ _ _ _ _ HI HP) as (c & Hc & _). specialize (Hk h F S HI HP).
    cbn [PamBulk.skip_below root] in *. unfold mbind at 1, mem_bind at 1. rewrite (step_load _ _ _ _ Hc), (step_key _ _ _ _ Hc).
    cbn [entry]. rewrite C. exact Hk.
Qed.

(** The first [rg] entries from [low] on. *)
Lemma reads_range_num_mr low rg : 0 <= rg < 2 ^ 64 -> forall fuel T, (tdepth (erase T) < fuel)%nat -> tsize (erase T) < max_size -> sorted (erase T) ->
  reads T (range_num_mr fuel (root T) low rg g reduce identity)
    (let l := take (Z.to_nat rg) (List.filter (at_least low) (elems (erase T))) in (total l, Z.of_nat (length l))).
Proof.
  intros Hrg. induction fuel as [|fuel IH]; intros T Hf Hm Hs; [lia|]. cbn [range_num_mr].
  destruct (reads_skip_below low T (Datatypes.S fuel) Hf Hs) as (T' & HT & HF & Hs' & Hz & Hd & HC). rewrite <- HF. apply HT.
  destruct T' as [|l L e R]; [cbn; rewrite take_nil; apply reads_ret|]. pose proof (proj1 (sorted_bin _ _ _) Hs') as (Hl & Hr & Bl & Ar).
  cbn [root erase tdepth tsize elems] in *. size_pos (erase L). size_pos (erase R). unfold max_size in *.
  apply reads_load. intros a z c. cbn [lc rc]. eapply reads_bind; [apply reads_left, (IH L); auto; unfold max_size; lia|]. cbv zeta. cbn [fst snd].
  rewrite List.filter_app. cbn [List.filter]. replace (at_least low e) with true by (unfold at_least; now rewrite HC).
  rewrite (above_least low e (erase R) Ar HC).
  set (fl := List.filter (at_least low) (elems (erase L))).
  assert (Lf : Z.of_nat (length fl) <= tsize (erase L)). { rewrite tsize_elems. pose proof (List.filter_length_le (at_least low) (elems (erase L))). unfold fl. lia. }
  rewrite length_take. destruct (Z.eqb_spec (Z.of_nat (Z.to_nat rg `min` length fl)) rg) as [E1|E1].
  { rewrite take_app_le by lia. rewrite length_take. apply reads_ret. }
  rewrite (PamBulk.sub64_pred rg) by lia. eapply reads_bind; [apply reads_right, reads_left_number_mr; unfold max_size; lia|].
  eapply reads_bind; [apply reads_entry|]. cbn [fst snd]. rewrite (take_ge fl) by lia. rewrite Nat.min_r by lia.
  set (n := rg - Z.of_nat (length fl) - 1).
  assert (TE : take (Z.to_nat rg) (fl ++ e :: elems (erase R)) = fl ++ e :: take (Z.to_nat n) (elems (erase R))).
  { replace (Z.to_nat rg) with (length fl + S (Z.to_nat n))%nat by lia. now rewrite take_app_add. }
  rewrite TE, (total_app _ _ _ reduce_assoc reduce_id), length_app. cbn [length foldr PamReads.total]. rewrite length_take, reduce_assoc.
  pose proof (tsize_elems (erase R)) as TR. rewrite !add64_small by (rewrite ?add64_small; lia).
  match goal with |- reads _ (mret (_, ?x)) (_, ?y) => replace x with y by lia end. apply reads_ret.
Qed.
End Reduce.

(** *** Nodes and positions *)

Section Nodes.
Context {St : Type}.

(** The subtrees in the order of their roots' entries. *)
Fixpoint nodes (t : tree) : list tree :=
  match t with leaf => [] | bin l e r => nodes l ++ t :: nodes r end.

(** [f] may read below the node that it is given. *)
Lemma reads_iter_nodes_cond (f : entry_t -> ptr -> St -> mem (bool * St)) (fv : tree -> St -> bool * St) :
  (forall l L e R st, reads (nd l L e R) (f e (Some l) st) (fv (erase (nd l L e R)) st)) ->
  forall T fuel st, (tdepth (erase T) < fuel)%nat ->
  reads T (iter_nodes_cond fuel (root T) f st) (run_cond fv (nodes (erase T)) st).
Proof.
  intros Hf. induction T as [|l L IHL e R IHR]; intros [|fuel] st Hd; try (cbn in Hd; lia); [apply reads_ret|].
  specialize (Hf l L e R). cbn [iter_nodes_cond root]. cbn [erase tdepth nodes] in *. apply reads_load. intros a z c. cbn [lc rc]. rewrite run_cond_app.
  eapply reads_bind; [apply reads_left, IHL; lia|]. destruct (run_cond fv (nodes (erase L)) st) as [[] st1]; cbn [fst snd]; [apply reads_ret|].
  eapply reads_bind; [apply reads_entry|]. eapply reads_bind; [apply Hf|]. cbn [run_cond].
  destruct (fv (bin (erase L) e (erase R)) st1) as [[] st2]; cbn [fst snd]; [apply reads_ret|]. apply reads_right, IHR. lia.
Qed.

(** Every entry takes some positions. *)
Context (width : entry_t -> Z).
Hypothesis width_nonneg : forall e, 0 <= width e.

Definition span (l : list entry_t) : Z := foldr (fun e s => width e + s) 0 l.

Fixpoint preorder_span (start : Z) (t : tree) : list (entry_t * Z) :=
  match t with
  | leaf => []
  | bin l e r => (e, start + span (elems l)) :: preorder_span start l ++ preorder_span (start + span (elems l) + width e) r
  end.

(** The entries, each with the sum of the widths before it. *)
Fixpoint positions (start : Z) (l : list entry_t) : list (entry_t * Z) :=
  match l with [] => [] | e :: l => (e, start) :: positions (start + width e) l end.

Lemma span_app l1 l2 : span (l1 ++ l2) = span l1 + span l2.
Proof. induction l1 as [|e l1 IH]; [reflexivity|]. cbn [app span foldr]. fold (span (l1 ++ l2)) (span l1). lia. Qed.

Lemma span_nonneg l : 0 <= span l.
Proof. induction l as [|e l IH]; cbn; [lia|]. pose proof (width_nonneg e). fold (span l). lia. Qed.

Lemma positions_app l1 l2 : forall start, positions start (l1 ++ l2) = positions start l1 ++ positions (start + span l1) l2.
Proof.
  induction l1 as [|e l1 IH]; intros start; cbn [app positions span foldr]; [now rewrite Z.add_0_r|]. fold (span l1).
  rewrite IH. cbn [app]. do 3 f_equal. lia.
Qed.

Lemma preorder_span_positions t : forall start, preorder_span start t ≡ₚ positions start (elems t).
Proof.
  induction t as [|l IHl e r IHr]; intros start; [reflexivity|]. cbn [preorder_span elems].
  rewrite positions_app, IHl, IHr. cbn [positions]. apply Permutation_middle.
Qed.

Section Run.
Context (f : entry_t -> Z -> St -> St) (g h : ptr -> mem Z).
Hypothesis g_span : forall T, reads T (g (root T)) (span (elems (erase T))).
Hypothesis h_width : forall l L e R, reads (nd l L e R) (h (Some l)) (width e).

Definition span_fits (start : Z) (t : tree) : Prop := 0 <= start /\ start + span (elems t) < 2 ^ 64.

Lemma span_bin start l e r : span_fits start (bin l e r) ->
  (start + span (elems l))%u64 = start + span (elems l) /\
  (start + (span (elems l) + width e))%u64 = start + span (elems l) + width e /\
  span_fits start l /\ span_fits (start + span (elems l) + width e) r.
Proof.
  unfold span_fits. cbn [elems]. rewrite span_app. cbn [span foldr]. fold (span (elems r)). intros [H1 H2].
  pose proof (span_nonneg (elems l)). pose proof (span_nonneg (elems r)). pose proof (width_nonneg e).
  rewrite !add64_small by (rewrite ?add64_small; lia). lia.
Qed.

Lemma reads_foreach_ind_entry_bc T : forall fuel start st, (tdepth (erase T) < fuel)%nat -> span_fits start (erase T) ->
  reads T (foreach_ind_entry_bc fuel (root T) start f g h st) (run_index f (preorder_span start (erase T)) st).
Proof.
  induction T as [|l L IHL e R IHR]; intros [|fuel] start st Hf Hs; try (cbn in Hf; lia); [apply reads_ret|].
  cbn [foreach_ind_entry_bc root]. cbn [erase tdepth preorder_span] in *. destruct (span_bin _ _ _ _ Hs) as (E1 & E2 & F1 & F2).
  apply reads_load. intros a z c. cbn [lc rc]. eapply reads_bind; [apply reads_left, g_span|]. eapply reads_bind; [apply reads_entry|].
  rewrite E1, run_index_cons, run_index_app. eapply reads_bind; [apply reads_left, IHL; [lia|exact F1]|].
  eapply reads_bind; [apply h_width|]. cbv zeta. rewrite E2. apply reads_right, IHR; [lia|exact F2].
Qed.

Lemma reads_foreach_ind_entry T gran : forall fuel start st, (tdepth (erase T) < fuel)%nat -> span_fits start (erase T) ->
  reads T (foreach_ind_entry fuel (root T) start f g h gran st) (run_index f (preorder_span start (erase T)) st).
Proof.
  induction T as [|l L IHL e R IHR]; intros [|fuel] start st Hf Hs; try (cbn in Hf; lia); [apply reads_ret|].
  pose proof (reads_foreach_ind_entry_bc (nd l L e R) (Datatypes.S fuel) start st Hf Hs) as HB.
  cbn [foreach_ind_entry root]. cbn [erase tdepth preorder_span] in Hf, Hs |- *. destruct (span_bin _ _ _ _ Hs) as (E1 & E2 & F1 & F2).
  apply reads_load. intros a z c. cbn [lc rc]. eapply reads_bind; [apply reads_left, reads_size|]. destruct (gran <? tsize (erase L)); [|exact HB].
  eapply reads_bind; [apply reads_left, g_span|]. eapply reads_bind; [apply reads_entry|].
  eapply reads_bind; [apply h_width|]. cbv zeta. rewrite E1, E2, run_index_cons, run_index_app.
  eapply reads_bind; [apply reads_left, IHL; [lia|exact F1]|]. apply reads_right, IHR; [lia|exact F2].
Qed.
End Run.
End Nodes.
End Reductions.
