(* ===== verification/PamClient.v ===== *)
(** * Programs that use maps

    Map operations as their users see them: the argument keeps its contents, the result is
    the map one expects, and no node is lost.  A program is a sequence of assignments to
    map variables; it refines the same assignments on finite maps as functions. *)

From S2P Require Import Prelude PamTree PamOps PamSets PamMulti PamStore PamPrims PamGC PamJoin PamSeq PamMap PamBulk PamReads PamClass.
From stdpp Require Import base option list gmap sorting.
Import PamTree PamOps PamSets PamMulti PamStore PamPrims PamGC PamJoin PamSeq PamClass.
#[local] Open Scope Z_scope.

Section Persistent.
Context {E : Entry} {A : Allocator} {AO : AllocatorOk A}.
Implicit Types (F : list ltree) (S : list shell) (h : heap).

(** ** Operations on copies *)

(** An operation that takes over a tree, on a copy of a map that is kept. *)
Lemma builds_copy T (m : ptr -> mem ptr) t : refines1 false T (m (root T)) t -> builds T (a ← map_copy (root T); m a) t.
Proof.
  intros H h F S HI HP. apply wp_bind, wp_bind, (wp_increment _ _ _ _ _ HI HP). intros h1 H1. apply wp_ret.
  apply (H h1 F S); [exact H1|discriminate].
Qed.

(** [m] makes a new tree from two that are kept. *)
Definition builds2 T1 T2 (m : mem ptr) (t : tree) : Prop := forall h F S,
  inv h F S -> pinned T1 F -> pinned T2 F -> wp m (gives t F S) h.

Lemma builds2_copy T1 T2 (m : ptr -> ptr -> mem ptr) t :
  refines2 false T1 false T2 (m (root T1) (root T2)) t -> builds2 T1 T2 (a ← map_copy (root T1); b ← map_copy (root T2); m a b) t.
Proof.
  intros H h F S HI P1 P2. apply wp_bind, wp_bind, (wp_increment _ _ _ _ _ HI P1). intros h1 H1.
  apply wp_ret, wp_bind, wp_bind, (wp_increment _ _ _ _ _ H1 (pinned_cons _ _ _ P2)). intros h2 H2. apply wp_ret.
  apply (H h2 F S); try discriminate. cbn [held]. inv_solve.
Qed.

Lemma builds_insert T fuel p f : tsize (erase T) + 1 < max_size -> tsize (erase T) + 2 <= Z.of_nat fuel ->
  builds T (map_insert fuel (root T) p f) (tinsert f p (erase T)).
Proof. intros H1 H2. exact (builds_copy T (fun m => PamMap.insert fuel m p f false) _ (PamMap.wp_insert_j fuel p f fuel T false H1 H2 H2)). Qed.

Lemma builds_remove T fuel k : tsize (erase T) < max_size -> tsize (erase T) + 2 <= Z.of_nat fuel ->
  builds T (map_remove fuel (root T) k) (tdelete k (erase T)).
Proof. intros H1 H2. exact (builds_copy T (fun m => PamMap.deletet fuel m k false) _ (PamMap.wp_deletet k fuel T false H1 H2)). Qed.

Lemma builds_filter T fuel f : tsize (erase T) < max_size -> tsize (erase T) + 2 <= Z.of_nat fuel ->
  builds T (map_filter fuel (root T) f) (tfilter f (erase T)).
Proof. intros H1 H2. exact (builds_copy T (fun m => PamSeq.filter fuel m f false) _ (wp_filter f T fuel false H1 H2)). Qed.

Section Ordered.
Context {EO : EntryOk E}.

Lemma builds_multi_insert T fuel a rs : increasing fst a ->
  tsize (erase T) + Z.of_nat (length a) < max_size -> tsize (erase T) + Z.of_nat (length a) + 3 <= Z.of_nat fuel ->
  builds T (map_multi_insert_sorted fuel (root T) a rs) (PamBulk.tinsert_all (fun e x => replace e.2 x.2) (erase T) a).
Proof.
  intros Ha H1 H2.
  exact (builds_copy T (fun m => PamBulk.multi_insert_sorted fuel m a replace false rs) _ (PamBulk.wp_multi_insert_sorted T replace fuel a false rs Ha H1 H2)).
Qed.
End Ordered.

Section Two.
Context (T1 T2 : ltree) (fuel : nat).
Hypothesis Hsz : tsize (erase T1) + tsize (erase T2) < max_size.
Hypothesis Hf : tsize (erase T1) + tsize (erase T2) + 3 <= Z.of_nat fuel.

Lemma builds_union op : builds2 T1 T2 (map_union fuel (root T1) (root T2) op false) (tunion op (erase T1) (erase T2)).
Proof. exact (builds2_copy T1 T2 (fun a b => PamBulk.uniont fuel a b op false) _ (proj2 (refines2_right false T1 false T2 _ _) (PamBulk.wp_uniont op T2 fuel T1 false Hsz Hf))). Qed.

Lemma builds_intersect op : builds2 T1 T2 (map_intersect fuel (root T1) (root T2) op) (tintersect op (erase T1) (erase T2)).
Proof. exact (builds2_copy T1 T2 (fun a b => PamBulk.intersect fuel a b op false) _ (proj2 (refines2_right false T1 false T2 _ _) (PamBulk.wp_intersect op T2 fuel T1 false Hsz Hf))). Qed.

Lemma builds_difference : builds2 T1 T2 (map_difference fuel (root T1) (root T2)) (tdifference (erase T1) (erase T2)).
Proof. exact (builds2_copy T1 T2 (fun a b => PamBulk.difference fuel a b false) _ (proj2 (refines2_left false T1 false T2 _ _) (PamBulk.wp_difference fuel T1 T2 false Hsz Hf))). Qed.

Lemma builds_join2 : builds2 T1 T2 (map_join2 fuel (root T1) (root T2)) (tjoin2 (erase T1) (erase T2)).
Proof.
  assert (HJ : join_fuel (tsize (erase T1)) (tsize (erase T2)) fuel) by (unfold join_fuel; lia).
  exact (builds2_copy T1 T2 (fun a b => PamSeq.join2 fuel a b) _ (wp_join2_i fuel T1 T2 false false Hsz HJ)).
Qed.
End Two.

(** ** Releasing a map *)

Lemma wp_clear fuel h F S T (Q : ptr -> heap -> Prop) : tsize (erase T) < Z.of_nat fuel -> inv h (T :: F) S ->
  (forall h', inv h' F S -> Q None h') -> wp (clear fuel (root T)) Q h.
Proof.
  intros Hf H HQ. apply wp_bind, (wp_decrement_recursive T fuel h F S); [now apply depth_fuel|exact H|].
  intros b h1 H1. apply wp_ret, HQ, H1.
Qed.
End Persistent.

(** ** Finite maps *)

Section Abstract.
Context {E : Entry} {EO : EntryOk E}.

Definition amap : Type := key_t -> option val_t.

Definition ainsert (f : val_t -> val_t -> val_t) (p : entry_t) (m : amap) : amap := fun k =>
  if comp k p.1 then m k else if comp p.1 k then m k else Some (match m k with Some v => f v p.2 | None => p.2 end).
Definition aremove (x : key_t) (m : amap) : amap := fun k => if comp k x then m k else if comp x k then m k else None.
Definition afilter (f : entry_t -> bool) (m : amap) : amap := fun k =>
  match m k with Some v => if f (k, v) then Some v else None | None => None end.
Definition aunion (op : val_t -> val_t -> val_t) (m1 m2 : amap) : amap := fun k => union_with (fun x y => Some (op x y)) (m1 k) (m2 k).
Definition aintersect (op : val_t -> val_t -> val_t) (m1 m2 : amap) : amap := fun k => intersection_with (fun x y => Some (op x y)) (m1 k) (m2 k).
Definition adifference (m1 m2 : amap) : amap := fun k => match m2 k with Some _ => None | None => m1 k end.
Definition arange (low high : key_t) (m : amap) : amap := fun k => if comp k low then None else if comp high k then None else m k.

(** A tree that represents a finite map. *)
Definition represents (t : tree) (m : amap) : Prop := sorted t /\ balanced t = true /\ forall k, get k t = m k.

Lemma assoc_filter f k (l : list entry_t) : StronglySorted key_lt l ->
  assoc k (List.filter f l) = match assoc k l with Some v => if f (k, v) then Some v else None | None => None end.
Proof.
  induction 1 as [|e l H IH HF]; [reflexivity|]. cbn [List.filter assoc].
  destruct (negb (comp k (fst e)) && negb (comp (fst e) k)) eqn:C.
  - assert (Ek : k = fst e) by (apply andb_true_iff in C as [C1%negb_true_iff C2%negb_true_iff]; now apply comp_total).
    assert (N : assoc k l = None) by (apply assoc_above; rewrite Ek; exact HF).
    rewrite N in IH. subst k. replace (fst e, snd e) with e by now destruct e. destruct (f e) eqn:Fe; [|exact IH].
    cbn. now rewrite comp_irrefl.
  - destruct (f e); [cbn; rewrite C|]; exact IH.
Qed.

Lemma represents_insert f p t m : represents t m -> represents (tinsert f p t) (ainsert f p m).
Proof.
  intros (Hs & Hb & Hg). split; [now apply tinsert_sorted|]. split; [now apply tinsert_balanced|].
  intros k. rewrite tinsert_get, Hg by exact Hs. reflexivity.
Qed.

Lemma represents_remove x t m : represents t m -> represents (tdelete x t) (aremove x m).
Proof.
  intros (Hs & Hb & Hg). split; [now apply tdelete_sorted|]. split; [now apply tdelete_balanced|].
  intros k. rewrite tdelete_get, Hg by exact Hs. reflexivity.
Qed.

Lemma represents_filter f t m : represents t m -> represents (tfilter f t) (afilter f m).
Proof.
  intros (Hs & Hb & Hg). split; [|split; [apply tfilter_balanced|]].
  - unfold sorted. rewrite tfilter_elems. clear Hb Hg. unfold sorted in Hs. induction Hs as [|e l H IH HF]; [constructor|]. cbn.
    destruct (f e); [|exact IH]. constructor; [exact IH|]. eapply incl_Forall; [apply List.incl_filter|exact HF].
  - intros k. unfold get, afilter. rewrite tfilter_elems, assoc_filter by exact Hs. change (assoc k (elems t)) with (get k t). now rewrite Hg.
Qed.

Lemma represents_union op t1 t2 m1 m2 : represents t1 m1 -> represents t2 m2 -> represents (tunion op t1 t2) (aunion op m1 m2).
Proof.
  intros (Hs1 & Hb1 & Hg1) (Hs2 & Hb2 & Hg2). split; [now apply tunion_sorted|]. split; [now apply tunion_balanced|].
  intros k. now rewrite tunion_get, Hg1, Hg2.
Qed.

Lemma represents_intersect op t1 t2 m1 m2 : represents t1 m1 -> represents t2 m2 -> represents (tintersect op t1 t2) (aintersect op m1 m2).
Proof.
  intros (Hs1 & Hb1 & Hg1) (Hs2 & Hb2 & Hg2). split; [now apply tintersect_sorted|]. split; [apply tintersect_balanced|].
  intros k. now rewrite tintersect_get, Hg1, Hg2.
Qed.

Lemma represents_difference t1 t2 m1 m2 : represents t1 m1 -> represents t2 m2 -> represents (tdifference t1 t2) (adifference m1 m2).
Proof.
  intros (Hs1 & Hb1 & Hg1) (Hs2 & Hb2 & Hg2). split; [now apply tdifference_sorted|]. split; [now apply tdifference_balanced|].
  intros k. rewrite tdifference_get by assumption. now rewrite Hg1, Hg2.
Qed.

Lemma represents_range low high t m : represents t m -> represents (trange low high t) (arange low high m).
Proof.
  intros (Hs & Hb & Hg). pose proof (trange_elems low high t Hs) as HE. split; [|split; [now apply trange_balanced|]].
  - unfold sorted in *. rewrite HE. clear HE Hb Hg. induction Hs as [|e l H IH HF]; [constructor|]. cbn.
    destruct (at_least low e && at_most high e); [|exact IH]. constructor; [exact IH|]. eapply incl_Forall; [apply List.incl_filter|exact HF].
  - intros k. unfold get, arange. rewrite HE, assoc_filter by exact Hs. change (assoc k (elems t)) with (get k t). rewrite Hg.
    unfold at_least, at_most. cbn [fst]. destruct (m k); [|now destruct (comp k low), (comp high k)]. now destruct (comp k low), (comp high k).
Qed.

Lemma represents_leaf : represents leaf (fun _ => None).
Proof. split; [constructor|]. now split. Qed.

(** ** Programs *)

(** Assignments [dst = f(src, ...)] to map variables, numbered. *)
Inductive command :=
| c_copy (dst src : nat)
| c_insert (dst src : nat) (p : entry_t) (f : val_t -> val_t -> val_t)
| c_remove (dst src : nat) (k : key_t)
| c_filter (dst src : nat) (f : entry_t -> bool)
| c_range (dst src : nat) (low high : key_t)
| c_union (dst a b : nat) (op : val_t -> val_t -> val_t)
| c_intersect (dst a b : nat) (op : val_t -> val_t -> val_t)
| c_difference (dst a b : nat)
| c_clear (dst : nat).

Definition target (c : command) : nat :=
  match c with
  | c_copy d _ | c_insert d _ _ _ | c_remove d _ _ | c_filter d _ _ | c_range d _ _ _
  | c_union d _ _ _ | c_intersect d _ _ _ | c_difference d _ _ | c_clear d => d
  end.

(** What a command means for finite maps; the number bounds the number of entries. *)
Definition avars : Type := list (Z * amap).

Definition arhs (c : command) (v : avars) : option (Z * amap) :=
  match c with
  | c_copy _ s => v !! s
  | c_insert _ s p f => '(n, m) ← v !! s; Some (n + 1, ainsert f p m)
  | c_remove _ s k => '(n, m) ← v !! s; Some (n, aremove k m)
  | c_filter _ s f => '(n, m) ← v !! s; Some (n, afilter f m)
  | c_range _ s lo hi => '(n, m) ← v !! s; Some (n, arange lo hi m)
  | c_union _ a b op => '(n1, m1) ← v !! a; '(n2, m2) ← v !! b; Some (n1 + n2, aunion op m1 m2)
  | c_intersect _ a b op => '(n1, m1) ← v !! a; '(n2, m2) ← v !! b; Some (n1 + n2, aintersect op m1 m2)
  | c_difference _ a b => '(n1, m1) ← v !! a; '(n2, m2) ← v !! b; Some (n1 + n2, adifference m1 m2)
  | c_clear _ => Some (0, fun _ => None)
  end.

(** [None] when a variable is missing or the entries may not fit. *)
Definition astep (fuel : nat) (c : command) (v : avars) : option avars :=
  '(n, m) ← arhs c v; '(old, _) ← v !! target c;
  if (old <? Z.of_nat fuel) && (n + 1 <? max_size) && (n + 3 <=? Z.of_nat fuel) then Some (<[target c := (n, m)]> v) else None.

Fixpoint arun (fuel : nat) (cs : list command) (v : avars) : option avars :=
  match cs with [] => Some v | c :: cs => v ← astep fuel c v; arun fuel cs v end.
End Abstract.

Section Programs.
Context {E : Entry} {EO : EntryOk E} {A : Allocator} {AO : AllocatorOk A}.

Definition nth_var (v : list ptr) (i : nat) : mem ptr := PamBulk.lift (v !! i).

(** The right-hand side of an assignment. *)
Definition rhs (fuel : nat) (c : command) (v : list ptr) : mem ptr :=
  match c with
  | c_copy _ s => m ← nth_var v s; map_copy m
  | c_insert _ s p f => m ← nth_var v s; map_insert fuel m p f
  | c_remove _ s k => m ← nth_var v s; map_remove fuel m k
  | c_filter _ s f => m ← nth_var v s; map_filter fuel m f
  | c_range _ s lo hi => m ← nth_var v s; map_range fuel m lo hi
  | c_union _ a b op => m1 ← nth_var v a; m2 ← nth_var v b; map_union fuel m1 m2 op false
  | c_intersect _ a b op => m1 ← nth_var v a; m2 ← nth_var v b; map_intersect fuel m1 m2 op
  | c_difference _ a b => m1 ← nth_var v a; m2 ← nth_var v b; map_difference fuel m1 m2
  | c_clear _ => mret None
  end.

(** Move assignment: the target is cleared and takes the temporary's root. *)
Definition step (fuel : nat) (c : command) (v : list ptr) : mem (list ptr) :=
  r ← rhs fuel c v; d ← nth_var v (target c); clear fuel d;; mret (<[target c := r]> v).

Fixpoint exec (fuel : nat) (cs : list command) (v : list ptr) : mem (list ptr) :=
  match cs with [] => mret v | c :: cs => v ← step fuel c v; exec fuel cs v end.

(** The variables hold the maps, and the store holds nothing else. *)
Definition holds (v : list ptr) (h : heap) (a : avars) : Prop := exists Ts : list ltree,
  v = List.map root Ts /\ Forall2 (fun T nm => represents (erase T) nm.2 /\ tsize (erase T) <= nm.1) Ts a /\ inv h Ts [].

Lemma map_lookup (Ts : list ltree) i T : Ts !! i = Some T -> List.map root Ts !! i = Some (root T).
Proof. intros H. change (List.map root Ts) with (root <$> Ts). now rewrite list_lookup_fmap, H. Qed.

Lemma wp_var {T} Ts i X (k : ptr -> mem T) (Q : T -> heap -> Prop) h :
  Ts !! i = Some X -> wp (k (root X)) Q h -> wp (x ← nth_var (List.map root Ts) i; k x) Q h.
Proof. intros H HQ. apply wp_bind, (PamBulk.wp_lift _ (root X)); [now apply map_lookup|exact HQ]. Qed.

(** The result of a right-hand side. *)
Definition makes (n : Z) (m : amap) (Ts : list ltree) (p : ptr) (h : heap) : Prop :=
  exists T, p = root T /\ represents (erase T) m /\ tsize (erase T) <= n /\ inv h (T :: Ts) [].

Lemma gives_makes t n m Ts p h : represents t m -> tsize t <= n -> gives t Ts [] p h -> makes n m Ts p h.
Proof. intros Hr Hs (T & -> & <- & H). exists T. auto. Qed.

#[local] Abbreviation repr := (fun T nm => represents (erase T) nm.2 /\ tsize (erase T) <= nm.1).

Lemma var_get (Ts : list ltree) (a : avars) i n m : Forall2 repr Ts a -> a !! i = Some (n, m) ->
  exists T, Ts !! i = Some T /\ represents (erase T) m /\ tsize (erase T) <= n /\ pinned T Ts.
Proof.
  intros HF Ha. destruct (Forall2_lookup_r _ _ _ _ _ HF Ha) as (T & HT & Hr & Hs). exists T. repeat split; auto; try apply Hr.
  right. exists T. split; [|apply sub_refl]. apply list_elem_of_lookup. eauto.
Qed.

Ltac var_of H Ha :=
  let T := fresh "T" in let HT := fresh "HT" in let Hr := fresh "Hr" in let Hs := fresh "Hs" in let Hp := fresh "Hp" in
  destruct (var_get _ _ _ _ _ H Ha) as (T & HT & Hr & Hs & Hp); size_pos (erase T).

Lemma wp_rhs fuel c Ts a n m h : Forall2 repr Ts a -> inv h Ts [] -> arhs c a = Some (n, m) ->
  n + 1 < max_size -> n + 3 <= Z.of_nat fuel -> wp (rhs fuel c (List.map root Ts)) (makes n m Ts) h.
Proof.
  intros HF HI Ha H1 H2. destruct c as [d s|d s p f|d s k|d s f|d s lo hi|d x y op|d x y op|d x y|d]; cbn [arhs rhs] in *.
  - var_of HF Ha. eapply wp_var; [eassumption|]. apply wp_bind, (wp_increment _ _ _ _ _ HI Hp). intros h1 HI1. apply wp_ret. exists T. auto.
  - apply bind_Some in Ha as ([ns ms] & Es & Ha). injection Ha as <- <-. var_of HF Es.
    eapply wp_var; [eassumption|]. eapply wp_mono; [apply (builds_insert T fuel p f); try eassumption; lia|].
    intros q h1. apply gives_makes; [now apply represents_insert|]. pose proof (tinsert_size f p (erase T)). lia.
  - apply bind_Some in Ha as ([ns ms] & Es & Ha). injection Ha as <- <-. var_of HF Es.
    eapply wp_var; [eassumption|]. eapply wp_mono; [apply (builds_remove T fuel k); try eassumption; lia|].
    intros q h1. apply gives_makes; [now apply represents_remove|]. pose proof (tdelete_size k (erase T)). lia.
  - apply bind_Some in Ha as ([ns ms] & Es & Ha). injection Ha as <- <-. var_of HF Es.
    eapply wp_var; [eassumption|]. eapply wp_mono; [apply (builds_filter T fuel f); try eassumption; lia|].
    intros q h1. apply gives_makes; [now apply represents_filter|]. pose proof (tsize_tfilter f (erase T)). lia.
  - apply bind_Some in Ha as ([ns ms] & Es & Ha). injection Ha as <- <-. var_of HF Es.
    eapply wp_var; [eassumption|]. eapply wp_mono; [apply (PamBulk.wp_range lo hi T fuel); try eassumption; lia|].
    intros q h1. apply gives_makes; [now apply represents_range|]. pose proof (trange_size lo hi (erase T)). lia.
  - apply bind_Some in Ha as ([n1 m1] & E1 & Ha). apply bind_Some in Ha as ([n2 m2] & E2 & Ha).
    injection Ha as <- <-. var_of HF E1. var_of HF E2. eapply wp_var; [eassumption|]. eapply wp_var; [eassumption|].
    eapply wp_mono; [apply (builds_union T T0 fuel); try eassumption; lia|].
    intros q h1. apply gives_makes; [now apply represents_union|]. pose proof (tunion_size op (erase T0) (erase T)). lia.
  - apply bind_Some in Ha as ([n1 m1] & E1 & Ha). apply bind_Some in Ha as ([n2 m2] & E2 & Ha).
    injection Ha as <- <-. var_of HF E1. var_of HF E2. eapply wp_var; [eassumption|]. eapply wp_var; [eassumption|].
    eapply wp_mono; [apply (builds_intersect T T0 fuel); try eassumption; lia|].
    intros q h1. apply gives_makes; [now apply represents_intersect|]. pose proof (tintersect_size op (erase T0) (erase T)). lia.
  - apply bind_Some in Ha as ([n1 m1] & E1 & Ha). apply bind_Some in Ha as ([n2 m2] & E2 & Ha).
    injection Ha as <- <-. var_of HF E1. var_of HF E2. eapply wp_var; [eassumption|]. eapply wp_var; [eassumption|].
    eapply wp_mono; [apply (builds_difference T T0 fuel); try eassumption; lia|].
    intros q h1. apply gives_makes; [now apply represents_difference|]. pose proof (tdifference_size (erase T) (erase T0)). lia.
  - injection Ha as <- <-. apply wp_ret. exists lf. repeat split; [apply represents_leaf|cbn; lia|now apply inv_leaf].
Qed.

Lemma wp_step fuel c v h a a' : holds v h a -> astep fuel c a = Some a' -> wp (step fuel c v) (fun v' h' => holds v' h' a') h.
Proof.
  intros (Ts & -> & HF & HI) Ha. unfold astep in Ha.
  apply bind_Some in Ha as ([n m] & Er & Ha). apply bind_Some in Ha as ([old mo] & Et & Ha).
  destruct ((old <? Z.of_nat fuel) && (n + 1 <? max_size) && (n + 3 <=? Z.of_nat fuel)) eqn:C; [|discriminate]. injection Ha as <-.
  apply andb_true_iff in C as [[C1%Z.ltb_lt C2%Z.ltb_lt]%andb_true_iff C3%Z.leb_le].
  unfold step. eapply wp_seq; [apply (wp_rhs fuel c Ts a n m h HF HI Er C2 C3)|]. intros p h1 (T & -> & Hr & Hs & H1).
  destruct (var_get _ _ _ _ _ HF Et) as (D & HD & _ & HDs & _). eapply wp_var; [exact HD|]. cbv beta.
  set (i := target c) in *. pose proof (take_drop_middle Ts i D HD) as Split.
  assert (H1' : inv h1 (D :: (take i Ts ++ T :: drop (Datatypes.S i) Ts)) []).
  { eapply inv_perm; [exact H1| |reflexivity]. rewrite <- Split at 1. rewrite <- !Permutation_middle. apply Permutation_swap. }
  apply wp_bind, (wp_clear fuel h1 (take i Ts ++ T :: drop (Datatypes.S i) Ts) [] D); [lia|exact H1'|]. intros h2 H2. apply wp_ret.
  assert (Li : (i < length Ts)%nat) by (eapply lookup_lt_Some; exact HD).
  exists (<[i := T]> Ts). split; [|split].
  - change (<[i := root T]> (root <$> Ts) = root <$> <[i := T]> Ts). now rewrite list_fmap_insert.
  - apply Forall2_insert; [exact HF|]. now split.
  - rewrite insert_take_drop by exact Li. exact H2.
Qed.

Lemma wp_exec fuel cs : forall v h a a', holds v h a -> arun fuel cs a = Some a' -> wp (exec fuel cs v) (fun v' h' => holds v' h' a') h.
Proof.
  induction cs as [|c cs IH]; intros v h a a' H Ha; cbn [arun] in Ha; [injection Ha as <-; now apply wp_ret|].
  apply bind_Some in Ha as (a1 & E1 & Ha).
  cbn [exec]. eapply wp_seq; [exact (wp_step fuel c v h a a1 H E1)|]. intros v1 h1 H1. exact (IH v1 h1 a1 a' H1 Ha).
Qed.

(** Once all variables are cleared the store is empty. *)
Lemma holds_nothing v h a : holds v h a -> Forall (fun p => p = None) v -> h = ∅.
Proof.
  intros (Ts & -> & _ & H) HN. apply inv_nothing. induction Ts as [|T Ts IH]; [exact H|].
  apply Forall_cons_iff in HN as [H1 H2]. destruct T; [|discriminate]. apply IH; [exact (proj1 (inv_leaf _ _ _) H)|exact H2].
Qed.

(** No variable has anything at the beginning. *)
Lemma holds_init n : holds (repeat None n) ∅ (repeat (0, fun _ => None) n).
Proof.
  pose proof inv_empty as H. exists (repeat lf n). split; [|split].
  - induction n as [|n IH]; [reflexivity|]; cbn; now f_equal.
  - induction n; constructor; auto. split; [apply represents_leaf|cbn; lia].
  - induction n; [exact H|]. cbn. now apply inv_leaf.
Qed.

Lemma holds_find fuel v h a i p n m k : holds v h a -> v !! i = Some p -> a !! i = Some (n, m) -> n < Z.of_nat fuel ->
  map_find fuel p k h = Some (m k, h).
Proof.
  intros (Ts & -> & HF & HI) Hv Ha Hn. destruct (var_get _ _ _ _ _ HF Ha) as (T & HT & (Hs & _ & Hg) & Hsz & HP).
  rewrite (map_lookup _ _ _ HT) in Hv. injection Hv as <-.
  assert (Hd : (tdepth (erase T) < fuel)%nat) by (apply depth_fuel; lia).
  destruct (PamReads.finds_find k T fuel h Ts [] Hd HI HP) as (X & PX & RX & M).
  unfold map_find, mbind, mem_bind. rewrite M. rewrite <- Hg, <- (tfind_get k _ Hs), <- RX. destruct X as [|l L e R]; [reflexivity|].
  cbn [root PamReads.root_entry node_to_val option_map]. unfold mbind, mem_bind. now rewrite (PamReads.reads_entry l L e R h Ts [] HI PX).
Qed.
End Programs.
