(* ===== verification/PamFaults.v ===== *)
(** * Iterations that use up their map, and operations that lose nodes

    [foreach_index] releases the tree it is given; the other iterations do not, so the map
    functions that hand a copy to them never release it.  The first part is an instance of
    the entries; the last part shows what goes
    wrong in [aug_filter], [update] and [insert_lazy]. *)

From S2P Require Import Prelude PamTree PamOps PamSets PamMulti PamStore PamPrims PamGC PamJoin PamSeq PamMap PamBulk PamReads PamAug PamClass.
From stdpp Require Import base option list gmap.
Import PamTree PamOps PamStore PamPrims PamGC PamJoin PamSeq PamReads PamClass.
#[local] Open Scope Z_scope.

(** * A concrete instance of Aspen's trees *)

#[export] Instance sum_entry : Entry := {|
  key_t := Z; val_t := Z; aug_t := Z;
  comp := Z.ltb; get_empty := 0; from_entry e := snd e; combine := Z.add; aug_init := 0;
|}.

#[export] Instance sum_entry_ok : EntryOk sum_entry.
Proof. split; cbn; intros; try lia. Qed.

#[export] Instance sum_aug_ok : PamAug.AugOk sum_entry.
Proof. split; cbn; intros; lia. Qed.

Definition next_free (h : heap) : positive := map_fold (fun l _ acc => Pos.max (Pos.succ l) acc) 1%positive h.

#[export] Instance bump : Allocator := {| alloc_at := next_free; raw_lc _ := None; raw_rc _ := None; raw_s _ := 0 |}.

#[export] Instance bump_ok : AllocatorOk bump.
Proof.
  split. intros h. apply eq_None_not_Some. intros [n Hn].
  assert (W : forall l n, h !! l = Some n -> (l < next_free h)%positive).
  { clear n Hn. unfold next_free. apply (map_fold_weak_ind (fun p (h : heap) => forall l n, h !! l = Some n -> (l < p)%positive)).
    - intros l n H. now rewrite lookup_empty in H.
    - intros k x m p Hk IH l n H. apply lookup_insert_Some in H as [[-> _]|[_ H]]; [lia|]. specialize (IH _ _ H). lia. }
  specialize (W _ _ Hn). cbn in W. lia.
Qed.

Definition example_entries : list (@entry_t sum_entry) := [(1, 10); (2, 20); (3, 30)].

Lemma wp_run {T} (m : mem T) (Q : T -> heap -> Prop) h : wp m Q h -> exists a h', Q a h'.
Proof. unfold wp. destruct (m h) as [[a h']|]; [eauto|intros []]. Qed.

(** A tree of the given entries besides others. *)
Lemma example_tree (a : list (@entry_t sum_entry)) h F : inv h F [] -> (length a < 100)%nat ->
  exists h' T, inv h' (T :: F) [] /\ erase T = tbuild (length a) a.
Proof.
  intros H L.
  destruct (wp_run _ _ _ (PamSeq.wp_from_array 102 a h F [] H ltac:(lia) ltac:(unfold max_size; lia) ltac:(unfold PamJoin.join_fuel; lia)))
    as (p & h' & T & _ & ET & HT). eauto.
Qed.

(** Another reference to a tree. *)
Lemma example_share h T F : inv h (T :: F) [] -> exists h', inv h' (T :: T :: F) [].
Proof.
  intros H. assert (W : wp (increment (root T)) (fun _ h2 => inv h2 (T :: T :: F) []) h).
  { apply (PamGC.wp_increment _ _ _ _ _ H (pinned_here _ _)). auto. }
  destruct (wp_run _ _ _ W) as (_ & h' & H'). eauto.
Qed.

(** Numeric side conditions on the examples. *)
Ltac example_bound := unfold max_size, PamJoin.join_fuel; repeat match goal with H : erase _ = _ |- _ => rewrite H end; cbn; lia.

(** * Iterations that use up their map, and operations that lose nodes *)

Section Iterate.
Context {E : Entry} {A : Allocator} {AO : AllocatorOk A} {St : Type} (f : entry_t -> Z -> St -> St) (gran : Z).
Implicit Types (F : list ltree) (S : list shell) (h : heap).

Lemma add64_index start l r e : index_fits start (bin l e r) ->
  (start + tsize l)%u64 = start + tsize l /\ (start + tsize l + 1)%u64 = start + tsize l + 1 /\
  index_fits start l /\ index_fits (start + tsize l + 1) r.
Proof.
  intros [H1 H2]. cbn [tsize] in H2. pose proof (tsize_nonneg l). pose proof (tsize_nonneg r).
  rewrite !add64_small by (rewrite ?add64_small; lia). unfold index_fits. lia.
Qed.

(** With an extra pointer the tree is only read. *)
Lemma reads_foreach_index T : forall fuel start st, (tdepth (erase T) < fuel)%nat -> index_fits start (erase T) ->
  reads T (foreach_index fuel (root T) start f gran true st) (run_index f (preorder_index start (erase T)) st).
Proof.
  induction T as [|l L IHL e R IHR]; intros [|fuel] start st Hf Hi; try (cbn in Hf; lia); [apply reads_ret|].
  cbn [foreach_index root]. cbn [erase tdepth preorder_index] in *. destruct (add64_index _ _ _ _ Hi) as (E1 & E2 & I1 & I2).
  apply reads_load. intros a z c. cbn [lc rc orb]. eapply reads_bind; [apply reads_left, reads_size|].
  eapply reads_bind; [apply reads_entry|]. rewrite E1, E2 in *. rewrite run_index_cons, run_index_app.
  eapply reads_bind; [apply reads_left, IHL; [lia|exact I1]|]. eapply reads_bind; [apply reads_right, IHR; [lia|exact I2]|].
  eapply reads_bind; apply reads_ret.
Qed.

(** A tree of one's own is released. *)
Lemma wp_foreach_index T : forall fuel start st h F S (Q : St -> heap -> Prop), (tdepth (erase T) < fuel)%nat -> index_fits start (erase T) ->
  inv h (T :: F) S -> (forall h', inv h' F S -> Q (run_index f (preorder_index start (erase T)) st) h') ->
  wp (foreach_index fuel (root T) start f gran false st) Q h.
Proof.
  induction T as [|l L IHL e R IHR]; intros [|fuel] start st h F S Q Hf Hi H HQ; try (cbn in Hf; lia).
  { apply wp_ret, HQ. now apply inv_leaf. }
  cbn [foreach_index root]. cbn [erase tdepth preorder_index] in *. destruct (add64_index _ _ _ _ Hi) as (E1 & E2 & I1 & I2).
  pose proof (pinned_here (nd l L e R) F) as HP.
  destruct (inv_node _ _ _ _ _ _ _ H HP) as (c & Hc & Pc). apply wp_bind, (wp_load _ _ _ _ Hc). cbn [lc rc ref_cnt orb].
  apply wp_bind, (wp_size _ _ _ _ _ H (pinned_left _ _ _ _ _ HP)), wp_bind, (wp_get_entry _ _ _ _ _ _ _ _ H HP).
  rewrite E1, E2 in *. rewrite run_index_cons, run_index_app in HQ.
  pose proof (lent_intro false l L e R [] F S h _ H (fun X => match Bool.diff_false_true X with end) Hc) as HC. cbn [ref_cnt orb] in HC.
  destruct (1 <? c) eqn:C.
  - assert (FL : (tdepth (erase L) < fuel)%nat) by lia. assert (FR : (tdepth (erase R) < fuel)%nat) by lia.
    apply wp_bind, (reads_wp _ _ _ _ _ _ _ (reads_foreach_index L fuel start _ FL I1) H (pinned_left _ _ _ _ _ HP)).
    apply wp_bind, (reads_wp _ _ _ _ _ _ _ (reads_foreach_index R fuel _ _ FR I2) H (pinned_right _ _ _ _ _ HP)).
    apply wp_bind, wp_bind, wp_bind, (wp_load _ _ _ _ Hc), wp_bind, (wp_store _ _ _ _ _ Hc). cbn [ref_cnt].
    destruct (Z.eqb_spec c 1) as [->|N]; [discriminate|]. apply wp_ret, wp_ret, wp_ret, HQ. exact (inv_dec _ _ _ _ _ _ _ _ H Hc N).
  - destruct HC as [_ HC]. cbn [app] in HC.
    apply wp_bind, (IHL fuel start _ h (R :: F) (shell_of l L e R :: S)); [lia|exact I1|exact HC|]. intros h1 H1.
    apply wp_bind, (IHR fuel _ _ h1 F (shell_of l L e R :: S)); [lia|exact I2|exact H1|]. intros h2 H2.
    apply wp_bind, wp_bind, (wp_decrement_shell _ _ _ _ _ H2). intros h3 H3. apply wp_ret, wp_ret, HQ, H3.
Qed.
End Iterate.

Section Entries.
Context {E : Entry} {A : Allocator} {AO : AllocatorOk A}.

(** Writing every entry at its index fills a part of the array. *)
Lemma write_entries {B} (g : entry_t -> B) t : forall start out, index_fits start t -> start + tsize t <= Z.of_nat (length out) ->
  run_index (fun e i out => <[Z.to_nat i := g e]> out) (preorder_index start t) out =
  take (Z.to_nat start) out ++ List.map g (elems t) ++ drop (Z.to_nat (start + tsize t)) out.
Proof.
  induction t as [|l IHl e r IHr]; intros start out [H1 H2] HL.
  { cbn. rewrite Z.add_0_r. symmetry. apply take_drop. }
  cbn [tsize preorder_index elems] in *. pose proof (tsize_nonneg l). pose proof (tsize_nonneg r).
  rewrite run_index_cons, run_index_app. set (i := Z.to_nat (start + tsize l)). set (out1 := <[i := g e]> out).
  assert (L1 : length out1 = length out) by apply length_insert. rewrite IHl by (unfold index_fits; lia).
  set (out2 := take _ out1 ++ _). pose proof (tsize_elems l) as Sl.
  assert (L2 : length (take (Z.to_nat start) out1 ++ List.map g (elems l)) = i).
  { rewrite length_app, length_take, length_map. lia. }
  assert (L3 : length out2 = length out).
  { unfold out2. rewrite app_assoc, length_app, L2, length_drop. lia. }
  rewrite IHr by (unfold index_fits; lia).
  assert (T1 : take (Z.to_nat (start + tsize l + 1)) out2 = take (Z.to_nat start) out ++ List.map g (elems l) ++ [g e]).
  { unfold out2. rewrite app_assoc. replace (Z.to_nat (start + tsize l + 1)) with (length (take (Z.to_nat start) out1 ++ List.map g (elems l)) + 1)%nat by lia.
    rewrite take_app_add, <- app_assoc. f_equal; [unfold out1; rewrite take_insert_ge by lia; reflexivity|]. f_equal.
    fold i. unfold out1. rewrite drop_insert_ge by lia. rewrite Nat.sub_diag.
    destruct (lookup_lt_is_Some_2 out i ltac:(lia)) as [x Hx]. rewrite (drop_S _ _ _ Hx). reflexivity. }
  assert (T2 : drop (Z.to_nat (start + tsize l + 1 + tsize r)) out2 = drop (Z.to_nat (start + (tsize l + tsize r + 1))) out).
  { unfold out2. rewrite app_assoc. replace (Z.to_nat (start + tsize l + 1 + tsize r)) with (length (take (Z.to_nat start) out1 ++ List.map g (elems l)) + (1 + Z.to_nat (tsize r)))%nat by lia.
    rewrite drop_app_add. fold i. rewrite drop_drop. unfold out1. rewrite drop_insert_lt by lia. f_equal. lia. }
  rewrite T1, T2. rewrite List.map_app. cbn [List.map]. now rewrite <- !app_assoc.
Qed.

Implicit Types (F : list ltree) (S : list shell) (h : heap).

(** [entries]: the array receives the entries in order; the map stays as it was. *)
Lemma wp_map_entries T fuel out h F S : tsize (erase T) < Z.of_nat fuel -> tsize (erase T) <= Z.of_nat (length out) ->
  inv h F S -> pinned T F ->
  wp (map_entries fuel (root T) out) (fun r h' => r = elems (erase T) ++ drop (length (elems (erase T))) out /\ inv h' F S) h.
Proof.
  intros Hf HL H HP. pose proof (inv_size _ _ _ _ H HP) as Hm. unfold max_size in Hm.
  apply wp_bind, wp_bind, (wp_increment _ _ _ _ _ H HP). intros h1 H1. apply wp_ret.
  assert (Hi : index_fits 0 (erase T)) by (unfold index_fits; lia).
  apply (wp_foreach_index _ _ T fuel 0 out h1 F S); [now apply depth_fuel|exact Hi|exact H1|]. intros h2 H2. split; [|exact H2].
  rewrite (write_entries (fun e => e)) by (auto; lia). rewrite List.map_id. cbn [Z.to_nat take app]. now rewrite tsize_elems, Z.add_0_l, Nat2Z.id.
Qed.

(** *** References that are lost *)

(** A copy handed to an operation that only reads it is never released. *)
Lemma reads_leaks {B} T (m : ptr -> mem B) v h F S : reads T (m (root T)) v -> inv h F S -> pinned T F ->
  wp (a ← map_copy (root T); m a) (fun r h' => r = v /\ inv h' (T :: F) S) h.
Proof.
  intros HR H HP. apply wp_bind, wp_bind, (wp_increment _ _ _ _ _ H HP). intros h1 H1. apply wp_ret.
  apply (reads_wp _ _ _ _ _ _ _ HR H1 (pinned_cons _ _ _ HP)). auto.
Qed.

Lemma wp_map_if_exist T fuel f h F S : tsize (erase T) < Z.of_nat fuel -> inv h F S -> pinned T F ->
  wp (map_if_exist fuel (root T) f) (fun r h' => r = existsb f (elems (erase T)) /\ inv h' (T :: F) S) h.
Proof.
  intros Hf. apply (reads_leaks T (fun m => r ← if_exist fuel m f false; mret r.1)).
  eapply reads_bind; [apply (reads_if_exist f T fuel false (depth_fuel _ _ Hf))|]. apply reads_ret.
Qed.

(** [keys] of a small map, the array being written through an iterator. *)
Lemma run_keys l : forall (out : list key_t) i,
  (i + length l <= length out)%nat ->
  run put_key l (out, i) =
  (take i out ++ List.map fst l ++ drop (i + length l) out, (i + length l)%nat).
Proof.
  induction l as [|e l IH]; intros out i HL; cbn [length] in *.
  { cbn. now rewrite Nat.add_0_r, take_drop. }
  rewrite run_cons. unfold put_key at 2. cbn [fst snd]. rewrite IH by (rewrite length_insert; lia). f_equal; [|lia].
  rewrite insert_take_drop by lia. replace (Datatypes.S i) with (length (take i out) + 1)%nat by (rewrite length_take; lia).
  rewrite take_app_add. cbn [List.map]. rewrite <- app_assoc. f_equal. cbn. rewrite take_0. cbn. f_equal. f_equal.
  replace (length (take i out) + 1 + length l)%nat with (length (take i out) + (1 + length l))%nat by lia.
  rewrite drop_app_add. cbn. rewrite drop_drop. f_equal. rewrite length_take. lia.
Qed.

Lemma wp_map_keys_small T fuel out h F S : tsize (erase T) < Z.of_nat fuel -> tsize (erase T) <= 1000 ->
  tsize (erase T) <= Z.of_nat (length out) -> inv h F S -> pinned T F ->
  wp (map_keys fuel (root T) out)
     (fun r h' => r = List.map fst (elems (erase T)) ++ drop (length (elems (erase T))) out /\ inv h' (T :: F) S) h.
Proof.
  intros Hf Hs HL. pose (m := fun m => n ← size m;
    if 1000 <? n then foreach_index fuel m 0 (fun e i out => <[Z.to_nat i := fst e]> out) node_limit false out
    else r ← foreach_seq fuel m put_key (out, 0%nat); mret (fst r)).
  apply (reads_leaks T m). unfold m. eapply reads_bind; [apply reads_size|]. destruct (Z.ltb_spec 1000 (tsize (erase T))); [lia|].
  eapply reads_bind; [exact (reads_foreach_seq put_key T fuel _ (depth_fuel _ _ Hf))|].
  rewrite run_keys by (rewrite tsize_elems in HL; lia). apply reads_ret.
Qed.

(** [aug_filter] returns no tree at once if the sum of the tree fails the test, and does not
    release the tree it was given. *)
Lemma wp_map_aug_filter_leaks T fuel f h F S : T <> lf -> f (aug_of (erase T)) = false -> inv h F S -> pinned T F ->
  wp (map_aug_filter (Datatypes.S fuel) (root T) f) (fun p h' => p = None /\ inv h' (T :: F) S) h.
Proof.
  intros N Hf. assert (HR : reads T (PamAug.aug_filter (Datatypes.S fuel) (root T) f false) None).
  { destruct T as [|l L e R]; [congruence|]. cbn [PamAug.aug_filter root].
    eapply reads_bind; [apply (PamAug.reads_aug_val (nd l L e R))|]. rewrite Hf. apply reads_ret. }
  exact (reads_leaks T (fun m => PamAug.aug_filter (Datatypes.S fuel) m f false) None h F S HR).
Qed.
End Entries.

(** ** Examples *)

Definition entries_123 : list (@entry_t sum_entry) := [(1, 10); (2, 20); (3, 30)].

(** A run on the empty store. *)
Definition result_of {B} (m : mem B) : option B := option_map fst (m ∅).

Definition sum_after_insert_lazy (p : @entry_t sum_entry) : mem (Z * list (@entry_t sum_entry)) :=
  m ← from_sorted 10 entries_123;
  r ← map_insert_lazy 10 m p;
  s ← map_aug_val r;
  l ← map_entries 10 r (repeat (0, 0) 4);
  mret (s, l).

Definition sum_after_moved_insert_lazy (p : @entry_t sum_entry) : mem (Z * list (@entry_t sum_entry)) :=
  m ← from_sorted 10 entries_123;
  r ← PamAug.insert_lazy 10 m p replace;
  s ← map_aug_val r;
  l ← map_entries 10 r (repeat (0, 0) 4);
  mret (s, l).

Definition update_first : mem (option Z) :=
  m ← from_sorted 10 entries_123; map_update 10 m 1 (fun _ => 99).

(** Two objects share a tree, one is updated, and both are destroyed. *)
Definition update_shared : mem ptr :=
  m ← from_sorted 10 entries_123;
  m' ← map_copy m;
  map_update 10 m 1 (fun _ => 99);;
  clear 10 m';; clear 10 m.
