(* ===== verification/PamTheorems.v ===== *)
(** * Aspen's trees: what they guarantee

    The properties of Aspen's reference-counted search trees, from the balance criterion to
    programs that use maps, each with an instance of its hypotheses. *)

From S2P Require Import Prelude PamTree PamOps PamSets PamMulti PamStore PamPrims PamGC PamJoin PamSeq PamMap PamBulk PamReads PamAug PamClass PamClient PamFaults.
From stdpp Require Import base option list gmap sorting.
Import PamTree PamOps PamSets PamMulti PamStore PamPrims PamGC PamJoin PamSeq PamReads PamClass PamFaults PamClient.
#[local] Open Scope Z_scope.

Section Theorems.
Context {E : Entry} {A : Allocator} {AO : AllocatorOk A}.
Implicit Types (F : list ltree) (S : list shell) (h : heap).

(** ** Balance *)

(** The test of the balance criterion in double precision, [ratio * weight(t1) > weight(t2)]
    with [ratio = alpha / (1 - alpha)], decides the criterion on integers
    [29 (size(t1) + 1) > 71 (size(t2) + 1)] exactly for trees of any size the nodes can
    count, and leaves the store alone. *)
Theorem is_left_heavy_exact h F S T1 T2 : inv h F S -> pinned T1 F -> pinned T2 F ->
  wp (is_left_heavy (root T1) (root T2))
     (fun b h' => b = (71 * (tsize (erase T2) + 1) <? 29 * (tsize (erase T1) + 1)) /\ h' = h) h.
Proof. intros H P1 P2. apply (wp_is_left_heavy _ _ _ _ _ _ H P1 P2). split; reflexivity. Qed.

(** [depth] is logarithmic in the size for a tree that passes [check_balance]:
    (100/71)^depth <= size + 1. *)
Theorem depth_logarithmic h F S T fuel : inv h F S -> pinned T F -> tsize (erase T) < Z.of_nat fuel ->
  wp (b ← check_balance fuel (root T); d ← depth fuel (root T); mret (b, d))
     (fun r h' => h' = h /\ (fst r = true -> 100 ^ snd r <= 71 ^ snd r * (tsize (erase T) + 1))) h.
Proof.
  intros H HP Hf. pose proof (depth_fuel _ _ Hf) as Hd.
  apply wp_bind, (reads_wp _ _ _ _ _ _ _ (reads_check_balance T fuel Hd) H HP).
  apply wp_bind, (reads_wp _ _ _ _ _ _ _ (reads_depth T fuel Hd (inv_size _ _ _ _ H HP)) H HP).
  apply wp_ret. split; [reflexivity|]. exact (balanced_depth (erase T)).
Qed.

(** C23: [node_join] takes over two trees and a node and returns one tree with the entries of
    the first, the node's, and those of the second, balanced if both are; no other tree
    changes, shared nodes are copied, and the reference counts stay exact. *)
Theorem node_join_correct fuel h F S T1 T2 s :
  inv h (T1 :: T2 :: F) (s :: S) -> tsize (erase T1) + tsize (erase T2) + 1 < max_size ->
  tsize (erase T1) + tsize (erase T2) + 2 <= Z.of_nat fuel ->
  wp (node_join fuel (root T1) (root T2) (Some (s_loc s)))
     (fun p h' => exists T, p = root T /\ inv h' (T :: F) S /\
        elems (erase T) = elems (erase T1) ++ s_entry s :: elems (erase T2) /\
        (balanced (erase T1) = true -> balanced (erase T2) = true -> balanced (erase T) = true)) h.
Proof.
  intros H Hs Hf. eapply wp_mono; [apply (wp_node_join _ _ _ _ _ _ _ H Hs Hf)|].
  intros p h' (T & -> & ET & HT & _). exists T. rewrite ET. repeat split; auto using tjoin_elems, tjoin_balanced.
Qed.

(** ** Ordered maps *)

Section Ordered.
Context {EO : EntryOk E}.

(** C24: [split] takes over a balanced search tree and returns two and at most one entry: the entries
    before the key, the one with the key, and those after it, in this order the entries of
    the tree.  Every key on the left is below the key, every key on the right above it; both
    trees are sorted and balanced. *)
Theorem split_correct fuel h F S T k :
  inv h (T :: F) S -> sorted (erase T) -> balanced (erase T) = true -> tsize (erase T) + 3 <= Z.of_nat fuel ->
  wp (PamMap.split fuel (root T) k)
     (fun r h' => exists L R, PamMap.si_first r = root L /\ PamMap.si_second r = root R /\ inv h' (L :: R :: F) S /\
        elems (erase T) = elems (erase L) ++ option_list (PamMap.si_removed r) ++ elems (erase R) /\
        Forall (fun e => comp (fst e) k = true) (elems (erase L)) /\ Forall (fun e => comp k (fst e) = true) (elems (erase R)) /\
        (forall e, PamMap.si_removed r = Some e -> fst e = k) /\
        sorted (erase L) /\ sorted (erase R) /\ balanced (erase L) = true /\ balanced (erase R) = true) h.
Proof.
  intros H Hs Hb Hf. pose proof (inv_size _ _ _ _ H (pinned_here _ _)) as Hm.
  eapply wp_mono; [apply (PamMap.wp_split k T fuel h F S Hm Hf H)|]. intros r h' (L & R & E1 & E2 & ES & H').
  pose proof (split_sorted (erase T) k Hs) as S1. pose proof (split_balanced (erase T) k Hb) as S2. pose proof (split_elems (erase T) k) as S3.
  rewrite ES in S1, S2, S3. destruct S1 as (S11 & S12 & HL & HR & Hk). exists L, R. repeat split; auto; try apply S2.
  intros e Ee. now rewrite Ee in Hk.
Qed.

(** C25: [insert] on a map gives a new map with the entry; the argument, and every other map,
    stays as it was although the two share nodes. *)
Theorem map_insert_persistent fuel h F S T p f m :
  inv h F S -> pinned T F -> represents (erase T) m -> tsize (erase T) + 1 < max_size -> tsize (erase T) + 2 <= Z.of_nat fuel ->
  wp (map_insert fuel (root T) p f)
     (fun r h' => exists T', r = root T' /\ inv h' (T' :: F) S /\ represents (erase T') (ainsert f p m)) h.
Proof.
  intros H HP Hr Hs Hf. eapply wp_mono; [apply (builds_insert T fuel p f Hs Hf h F S H HP)|].
  intros r h' (T' & -> & ET & H'). exists T'. rewrite ET. split; [reflexivity|]. split; [exact H'|]. now apply represents_insert.
Qed.

(** C26: [map_union] gives a new map with the keys of both, values under a common key
    combined, and keeps both arguments. *)
Theorem map_union_correct fuel h F S T1 T2 op m1 m2 :
  inv h F S -> pinned T1 F -> pinned T2 F -> represents (erase T1) m1 -> represents (erase T2) m2 ->
  tsize (erase T1) + tsize (erase T2) < max_size -> tsize (erase T1) + tsize (erase T2) + 3 <= Z.of_nat fuel ->
  wp (map_union fuel (root T1) (root T2) op false)
     (fun r h' => exists T', r = root T' /\ inv h' (T' :: F) S /\ represents (erase T') (aunion op m1 m2)) h.
Proof.
  intros H P1 P2 R1 R2 Hs Hf. eapply wp_mono; [apply (builds_union T1 T2 fuel Hs Hf op h F S H P1 P2)|].
  intros r h' (T' & -> & ET & H'). exists T'. rewrite ET. split; [reflexivity|]. split; [exact H'|]. now apply represents_union.
Qed.

(** C27: [multi_insert_sorted] of an array with increasing keys gives a new map with the
    array's values under its keys and the old values elsewhere; it keeps its argument. *)
Theorem multi_insert_correct fuel h F S T a rs m :
  inv h F S -> pinned T F -> represents (erase T) m -> increasing fst a ->
  tsize (erase T) + Z.of_nat (length a) < max_size -> tsize (erase T) + Z.of_nat (length a) + 3 <= Z.of_nat fuel ->
  wp (map_multi_insert_sorted fuel (root T) a rs)
     (fun r h' => exists T', r = root T' /\ inv h' (T' :: F) S /\
        represents (erase T') (fun k => match assoc k a with Some v => Some v | None => m k end)) h.
Proof.
  intros H HP (Hso & Hb & Hg) Ha Hs Hf. eapply wp_mono; [apply (builds_multi_insert T fuel a rs Ha Hs Hf h F S H HP)|].
  intros r h' (T' & -> & ET & H'). exists T'. rewrite ET. split; [reflexivity|]. split; [exact H'|]. unfold PamBulk.tinsert_all.
  split; [now apply (tmulti_sorted fst _ _ (BO := build_ok))|]. split; [now apply (tmulti_balanced fst _ _ (BO := build_ok))|]. intros k. rewrite (tmulti_get fst _ _ (BO := build_ok)), Hg by assumption.
  assert (Ek : assoc k a = option_map snd (find_key fst k a)).
  { clear. induction a as [|e a IH]; [reflexivity|]. cbn. now destruct (negb (comp k (fst e)) && negb (comp (fst e) k)). }
  rewrite Ek. destruct (find_key fst k a) as [x|]; [|reflexivity]. now destruct (m k).
Qed.

(** Rank and select are inverse: the entry [select] finds at a position has that
    position as the [rank] of its key. *)
Theorem rank_select fuel h F S T i : inv h F S -> pinned T F -> sorted (erase T) -> tsize (erase T) < Z.of_nat fuel ->
  0 <= i < tsize (erase T) ->
  wp (e ← map_select fuel (root T) i; match e with Some e => map_rank fuel (root T) (fst e) | None => mret (-1) end)
     (fun r h' => r = i /\ h' = h) h.
Proof.
  intros H HP Hs Hf Hi. pose proof (depth_fuel _ _ Hf) as Hd. pose proof (inv_size _ _ _ _ H HP) as Hm. unfold max_size in Hm.
  destruct (finds_select T fuel i h F S Hd H HP) as (X & PX & RX & M); [lia|].
  unfold map_select. apply wp_bind, wp_bind. unfold wp at 1. rewrite M.
  pose proof (tsize_elems (erase T)) as TE. destruct (lookup_lt_is_Some_2 (elems (erase T)) (Z.to_nat i)) as [e He]; [lia|].
  rewrite He in RX. destruct X as [|l L e' R]; [discriminate|]. injection RX as ->. cbn [root node_to_entry].
  apply wp_bind, (wp_get_entry _ _ _ _ _ _ _ _ H PX), wp_ret.
  apply (reads_wp _ _ _ _ _ _ _ (reads_rank_loop (fst e) T fuel 0 Hd Hs (inv_size _ _ _ _ H HP) (Z.le_refl 0) ltac:(lia)) H HP).
  split; [|reflexivity]. rewrite (lesser_at (elems (erase T)) (Z.to_nat i) e Hs He). lia.
Qed.

(** C2: A program of assignments to map variables, run on the store, does to the variables
    what the same assignments do to finite maps; every variable is a balanced search tree
    all along and no operation follows a bad pointer. *)
Theorem programs_refine fuel cs v h a a' :
  holds v h a -> arun fuel cs a = Some a' -> wp (exec fuel cs v) (fun v' h' => holds v' h' a') h.
Proof. apply wp_exec. Qed.

(** C3: Nothing leaks: a program that begins with the empty store and ends with all its
    variables cleared leaves the store empty. *)
Theorem programs_leave_nothing fuel cs n a' :
  arun fuel cs (repeat (0, fun _ => None) n) = Some a' ->
  wp (exec fuel cs (repeat None n)) (fun v h => Forall (fun p => p = None) v -> h = ∅) ∅.
Proof.
  intros Ha. eapply wp_mono; [exact (wp_exec fuel cs _ _ _ _ (holds_init n) Ha)|]. intros v h H HN. exact (holds_nothing v h a' H HN).
Qed.

(** [aug_range] is the sum over the entries between the two keys, both included,
    whatever the shape of the tree, for a commutative augmentation. *)
Theorem aug_range_correct {AU : PamAug.AugOk E} fuel h F S T low high :
  (forall a b, combine a b = combine b a) -> inv h F S -> pinned T F -> sorted (erase T) -> tsize (erase T) < Z.of_nat fuel ->
  wp (aug_range fuel (root T) low high)
     (fun v h' => h' = h /\
        v = foldr (fun e acc => combine (from_entry e) acc) get_empty
              (List.filter (fun e => negb (comp (fst e) low) && negb (comp high (fst e))) (elems (erase T)))) h.
Proof.
  intros Hc H HP Hs Hf. eapply wp_mono; [exact (PamAug.wp_aug_sum_range Hc low high T fuel get_empty h F S (depth_fuel _ _ Hf) Hf Hs H HP)|].
  intros v h' [-> ->]. split; [reflexivity|]. rewrite PamAug.combine_empty_l. reflexivity.
Qed.
End Ordered.

(** ** Iterations *)

(** [entries] writes the entries to the array in order and leaves the map alone. *)
Theorem map_entries_correct fuel h F S T out :
  inv h F S -> pinned T F -> tsize (erase T) < Z.of_nat fuel -> tsize (erase T) <= Z.of_nat (length out) ->
  wp (map_entries fuel (root T) out) (fun r h' => r = elems (erase T) ++ drop (length (elems (erase T))) out /\ inv h' F S) h.
Proof. intros H HP Hf HL. exact (PamFaults.wp_map_entries T fuel out h F S Hf HL H HP). Qed.

(** [map_reduce] does not depend on the shape of the tree: for an associative operation
    with an identity it is the reduction of the entries in order. *)
Theorem map_reduce_correct {B} (identity : B) (g : entry_t -> B) (reduce : B -> B -> B) fuel h F S T :
  (forall a b c, reduce a (reduce b c) = reduce (reduce a b) c) -> (forall a, reduce identity a = a) ->
  inv h F S -> pinned T F -> tsize (erase T) < Z.of_nat fuel ->
  map_map_reduce fuel (root T) identity g reduce h = Some (foldr (fun e acc => reduce (g e) acc) identity (elems (erase T)), h).
Proof. intros Ha Hi H HP Hf. exact (reads_map_reduce identity g reduce Ha Hi T fuel (depth_fuel _ _ Hf) h F S H HP). Qed.

(** [keys] of a map of at most 1000 entries writes the keys but loses a reference:
    afterwards the store holds one more reference to the tree than there are map objects,
    so that the nodes are never released. *)
Theorem keys_lose_reference fuel h F S T out :
  inv h F S -> pinned T F -> tsize (erase T) < Z.of_nat fuel -> tsize (erase T) <= 1000 -> tsize (erase T) <= Z.of_nat (length out) ->
  wp (map_keys fuel (root T) out)
     (fun r h' => r = List.map fst (elems (erase T)) ++ drop (length (elems (erase T))) out /\ inv h' (T :: F) S) h.
Proof. intros H HP Hf Hs HL. exact (PamFaults.wp_map_keys_small T fuel out h F S Hf Hs HL H HP). Qed.

(** [aug_filter] of a map whose sum fails the test returns the empty map, and loses the
    reference to the tree it was given. *)
Theorem aug_filter_loses_reference fuel h F S T f :
  inv h F S -> pinned T F -> T <> lf -> f (aug_of (erase T)) = false ->
  wp (map_aug_filter (Datatypes.S fuel) (root T) f) (fun p h' => p = None /\ inv h' (T :: F) S) h.
Proof. intros H HP N Hf. exact (PamFaults.wp_map_aug_filter_leaks T fuel f h F S N Hf H HP). Qed.
End Theorems.

(** [insert_lazy] breaks the augmentation: inserting 40 under a new key into a map with
    sum 60 that is kept gives a map with the four entries and the sum 40, not 100; and
    replacing 30 by 7 in a map that is moved in gives 67, not 37. *)
Theorem insert_lazy_wrong_sum :
  PamFaults.result_of (PamFaults.sum_after_insert_lazy (4, 40)) = Some (40, [(1, 10); (2, 20); (3, 30); (4, 40)]) /\
  PamFaults.result_of (PamFaults.sum_after_moved_insert_lazy (3, 7)) = Some (67, [(1, 10); (2, 20); (3, 7); (0, 0)]).
Proof. split; vm_compute; reflexivity. Qed.

(** The member function [update] returns the value at the root of the tree instead of
    the value under the key, and it uses up the reference of its object: with two objects
    that share a tree, updating one and destroying both follows a dangling pointer. *)
Theorem update_frees_twice :
  PamFaults.result_of PamFaults.update_first = Some (Some 20) /\ PamFaults.result_of PamFaults.update_shared = None.
Proof. split; vm_compute; reflexivity. Qed.

(** ** Instances of the hypotheses *)

#[local] Abbreviation three := example_entries.
#[local] Abbreviation two := ([(2, 5); (7, 70)] : list (@entry_t sum_entry)).

(** A balanced search tree of the given entries. *)
Definition a_tree (a : list (@entry_t sum_entry)) (T : ltree) : Prop :=
  elems (erase T) = a /\ tsize (erase T) = Z.of_nat (length a) /\ sorted (erase T) /\ balanced (erase T) = true.

Lemma a_tree_represents a T : a_tree a T -> represents (erase T) (fun k => assoc k a).
Proof. intros (<- & _ & Hs & Hb). repeat split; assumption. Qed.

(** A store with one tree, with two, and with two and a node. *)
Lemma one_tree : exists h T, inv h [T] [] /\ a_tree three T.
Proof.
  destruct (example_tree three ∅ [] inv_empty) as (h & T & H & E); [cbn; lia|]. exists h, T. split; [exact H|].
  unfold a_tree, sorted. rewrite E. repeat constructor.
Qed.

Lemma two_trees : exists h T1 T2, inv h [T1; T2] [] /\ a_tree three T1 /\ a_tree two T2.
Proof.
  destruct (example_tree two ∅ [] inv_empty) as (h & T2 & H & E2); [cbn; lia|].
  destruct (example_tree three h [T2] H) as (h' & T1 & H' & E1); [cbn; lia|]. exists h', T1, T2. split; [exact H'|].
  unfold a_tree, sorted. rewrite E1, E2. repeat constructor.
Qed.

Lemma two_trees_and_node : exists h T1 T2 s, inv h [T1; T2] [s] /\ a_tree three T1 /\ a_tree two T2.
Proof.
  destruct two_trees as (h & T1 & T2 & H & E1 & E2).
  assert (W : wp (make_node ((5, 50) : @entry_t sum_entry)) (fun _ h' => exists s, inv h' [T1; T2] [s]) h).
  { apply (PamGC.wp_make_node h _ [] _ _ H). eauto. }
  destruct (wp_run _ _ _ W) as (_ & h' & s & H'). eauto 8.
Qed.

Lemma pinned_next T1 T2 F : pinned T2 (T1 :: T2 :: F).
Proof. apply pinned_cons, pinned_here. Qed.

(** Numbers of concrete trees. *)
Ltac tree_numbers := repeat match goal with H : a_tree _ _ |- _ => destruct H as (? & ? & ? & ?) end; unfold max_size; cbn in *; lia.

Lemma is_left_heavy_exact_witness : exists h T1 T2, inv h [T1; T2] [] /\
  wp (is_left_heavy (root T1) (root T2)) (fun b h' => b = (71 * (tsize (erase T2) + 1) <? 29 * (tsize (erase T1) + 1)) /\ h' = h) h.
Proof.
  destruct two_trees as (h & T1 & T2 & H & E1 & E2). exists h, T1, T2. split; [exact H|].
  exact (is_left_heavy_exact h _ _ T1 T2 H (pinned_here _ _) (pinned_next _ _ _)).
Defined.

Lemma depth_logarithmic_witness : exists h T, inv h [T] [] /\
  wp (b ← check_balance 4 (root T); d ← depth 4 (root T); mret (b, d))
     (fun r h' => h' = h /\ (fst r = true -> 100 ^ snd r <= 71 ^ snd r * (tsize (erase T) + 1))) h.
Proof.
  destruct one_tree as (h & T & H & E). exists h, T. split; [exact H|].
  apply (depth_logarithmic h _ _ T 4 H (pinned_here _ _)). tree_numbers.
Defined.

Lemma node_join_correct_witness : exists h T1 T2 s, inv h [T1; T2] [s] /\
  wp (node_join 10 (root T1) (root T2) (Some (s_loc s)))
     (fun p h' => exists T, p = root T /\ inv h' [T] [] /\
        elems (erase T) = elems (erase T1) ++ s_entry s :: elems (erase T2) /\
        (balanced (erase T1) = true -> balanced (erase T2) = true -> balanced (erase T) = true)) h.
Proof.
  destruct two_trees_and_node as (h & T1 & T2 & s & H & E1 & E2). exists h, T1, T2, s. split; [exact H|].
  apply (node_join_correct 10 h [] [] T1 T2 s H); tree_numbers.
Defined.

Lemma split_correct_witness : exists h T, inv h [T] [] /\ a_tree three T /\
  wp (PamMap.split 10 (root T) 2)
     (fun r h' => exists L R, PamMap.si_first r = root L /\ PamMap.si_second r = root R /\ inv h' [L; R] [] /\
        elems (erase T) = elems (erase L) ++ option_list (PamMap.si_removed r) ++ elems (erase R) /\
        Forall (fun e => comp (fst e) 2 = true) (elems (erase L)) /\ Forall (fun e => comp 2 (fst e) = true) (elems (erase R)) /\
        (forall e, PamMap.si_removed r = Some e -> fst e = 2) /\
        sorted (erase L) /\ sorted (erase R) /\ balanced (erase L) = true /\ balanced (erase R) = true) h.
Proof.
  destruct one_tree as (h & T & H & E). exists h, T. split; [exact H|]. split; [exact E|].
  apply (split_correct 10 h [] [] T (2 : @key_t sum_entry) H); [apply E|apply E|tree_numbers].
Defined.

Lemma map_insert_persistent_witness : exists h T, inv h [T] [] /\
  wp (map_insert 10 (root T) (2, 7) (fun x y => x + y))
     (fun r h' => exists T', r = root T' /\ inv h' [T'; T] [] /\
        represents (erase T') (ainsert (fun x y => x + y) (2, 7) (fun k => assoc k three))) h.
Proof.
  destruct one_tree as (h & T & H & E). exists h, T. split; [exact H|].
  apply (map_insert_persistent 10 h [T] [] T _ _ _ H (pinned_here _ _) (a_tree_represents _ _ E)); tree_numbers.
Defined.

Lemma map_union_correct_witness : exists h T1 T2, inv h [T1; T2] [] /\
  wp (map_union 10 (root T1) (root T2) Z.add false)
     (fun r h' => exists T', r = root T' /\ inv h' [T'; T1; T2] [] /\
        represents (erase T') (aunion Z.add (fun k => assoc k three) (fun k => assoc k two))) h.
Proof.
  destruct two_trees as (h & T1 & T2 & H & E1 & E2). exists h, T1, T2. split; [exact H|].
  apply (map_union_correct 10 h [T1; T2] [] T1 T2 Z.add _ _ H (pinned_here _ _) (pinned_next _ _ _)
           (a_tree_represents _ _ E1) (a_tree_represents _ _ E2)); tree_numbers.
Defined.

Lemma multi_insert_correct_witness : exists h T, inv h [T] [] /\
  wp (map_multi_insert_sorted 10 (root T) two false)
     (fun r h' => exists T', r = root T' /\ inv h' [T'; T] [] /\
        represents (erase T') (fun k => match assoc k two with Some v => Some v | None => assoc k three end)) h.
Proof.
  destruct one_tree as (h & T & H & E). exists h, T. split; [exact H|].
  apply (multi_insert_correct 10 h [T] [] T two false _ H (pinned_here _ _) (a_tree_represents _ _ E)); [|tree_numbers..].
  repeat constructor.
Defined.

Lemma rank_select_witness : exists h T, inv h [T] [] /\
  wp (e ← map_select 10 (root T) 1; match e with Some e => map_rank 10 (root T) (fst e) | None => mret (-1) end)
     (fun r h' => r = 1 /\ h' = h) h.
Proof.
  destruct one_tree as (h & T & H & E). exists h, T. split; [exact H|].
  apply (rank_select 10 h [T] [] T 1 H (pinned_here _ _)); [apply E|tree_numbers..].
Defined.

(** Two maps with values under a common key, their union, and a copy that is cleared. *)
Definition example_program : list (@command sum_entry) :=
  [c_insert 0 0 (1, 10) (fun _ y => y); c_insert 0 0 (2, 20) (fun _ y => y); c_insert 1 1 (2, 5) (fun _ y => y);
   c_union 2 0 1 Z.add; c_remove 0 2 1; c_range 1 2 2 9; c_difference 2 2 0; c_clear 1].

Lemma programs_refine_witness : exists v a',
  arun 100 example_program (repeat (0, fun _ => None) 3) = Some a' /\ holds v ∅ (repeat (0, fun _ => None) 3) /\
  wp (exec 100 example_program v) (fun v' h' => holds v' h' a') ∅.
Proof.
  eexists _, _. split; [reflexivity|]. split; [exact (holds_init 3)|].
  apply (programs_refine 100 example_program _ _ (repeat (0, fun _ => None) 3)); [exact (holds_init 3)|reflexivity].
Defined.

Lemma programs_leave_nothing_witness :
  wp (exec 100 (example_program ++ [c_clear 0; c_clear 2]) (repeat None 3))
     (fun v h => Forall (fun p => p = None) v -> h = ∅) ∅.
Proof. eapply (programs_leave_nothing 100 (example_program ++ [c_clear 0; c_clear 2]) 3). reflexivity. Defined.

Lemma aug_range_correct_witness : exists h T, inv h [T] [] /\
  wp (aug_range 10 (root T) 2 3)
     (fun v h' => h' = h /\
        v = foldr (fun e acc => combine (from_entry e) acc) get_empty
              (List.filter (fun e : @entry_t sum_entry => negb (comp (fst e) 2) && negb (comp 3 (fst e))) (elems (erase T)))) h.
Proof.
  destruct one_tree as (h & T & H & E). exists h, T. split; [exact H|].
  apply (aug_range_correct 10 h [T] [] T 2 3); [exact Z.add_comm|exact H|apply pinned_here|apply E|tree_numbers].
Defined.

Lemma map_entries_correct_witness : exists h T, inv h [T] [] /\
  wp (map_entries 10 (root T) (repeat (0, 0) 4)) (fun r h' => r = elems (erase T) ++ drop (length (elems (erase T))) (repeat (0, 0) 4) /\ inv h' [T] []) h.
Proof.
  destruct one_tree as (h & T & H & E). exists h, T. split; [exact H|].
  apply (map_entries_correct 10 h [T] [] T _ H (pinned_here _ _)); tree_numbers.
Defined.

Lemma map_reduce_correct_witness : exists h T, inv h [T] [] /\
  map_map_reduce 10 (root T) 0 snd Z.add h = Some (foldr (fun e acc => Z.add (snd e) acc) 0 (elems (erase T)), h).
Proof.
  destruct one_tree as (h & T & H & E). exists h, T. split; [exact H|].
  apply (map_reduce_correct 0 (fun e : @entry_t sum_entry => snd e) Z.add 10 h [T] [] T); [exact Z.add_assoc|exact Z.add_0_l|exact H|apply pinned_here|tree_numbers].
Defined.

Lemma keys_lose_reference_witness : exists h T, inv h [T] [] /\
  wp (map_keys 10 (root T) [0; 0; 0])
     (fun r h' => r = List.map fst (elems (erase T)) ++ drop (length (elems (erase T))) [0; 0; 0] /\ inv h' [T; T] []) h.
Proof.
  destruct one_tree as (h & T & H & E). exists h, T. split; [exact H|].
  apply (keys_lose_reference 10 h [T] [] T _ H (pinned_here _ _)); tree_numbers.
Defined.

Lemma aug_filter_loses_reference_witness : exists h T, inv h [T] [] /\
  wp (map_aug_filter 10 (root T) (fun v => v <? 10)) (fun p h' => p = None /\ inv h' [T; T] []) h.
Proof.
  destruct (example_tree three ∅ [] inv_empty) as (h & T & H & E); [cbn; lia|]. exists h, T. split; [exact H|].
  apply (aug_filter_loses_reference 9 h [T] [] T _ H (pinned_here _ _)); [intros ->; discriminate|rewrite E; reflexivity].
Defined.
