(* ===== verification/Arrays.v ===== *)
(** * The heap and arrays

    Programs over a heap of objects; reads and writes of arrays, held as lists, by an index
    that must be in range; arithmetic on the lengths of lists; sets of keys as sorted lists. *)

From S2P Require Import Prelude.
From stdpp Require Import base option list gmap sorting.
#[local] Open Scope Z_scope.

(** * Objects on the heap *)

(** ** Programs *)

Definition ptr := option positive.
Abbreviation store := (gmap positive).
Definition prog (N T : Type) : Type := store N -> option (T * store N).

#[export] Instance prog_ret {N} : MRet (prog N) := fun T a h => Some (a, h).
#[export] Instance prog_bind {N} : MBind (prog N) := fun T U f m h =>
  match m h with Some (a, h') => f a h' | None => None end.

Section Store.
Context {N : Type}.
Implicit Types (h : store N) (L : list (positive * N)).

Definition undefined {T} : prog N T := fun _ => None.
Definition lift {T} (o : option T) : prog N T := fun h => match o with Some a => Some (a, h) | None => None end.

Definition deref (p : ptr) : prog N N := fun h =>
  match p with Some l => match h !! l with Some n => Some (n, h) | None => None end | None => None end.

Definition assign (p : ptr) (n : N) : prog N unit := fun h =>
  match p with Some l => match h !! l with Some _ => Some (tt, <[l := n]> h) | None => None end | None => None end.

Definition modify (p : ptr) (f : N -> N) : prog N unit := n ← deref p; assign p (f n).

(** [delete] on a null pointer does nothing. *)
Definition delete_object (p : ptr) : prog N unit := fun h =>
  match p with Some l => match h !! l with Some _ => Some (tt, delete l h) | None => None end | None => Some (tt, h) end.

(** The address that [new] returns is one that is free. *)
Class NewAddress := { new_address : store N -> positive }.
Class NewAddressOk `{NewAddress} : Prop := { new_address_free h : h !! new_address h = None }.

Definition new_object `{NewAddress} (n : N) : prog N ptr := fun h => Some (Some (new_address h), <[new_address h := n]> h).

(** ** Weakest preconditions *)

Definition ends {T} (m : prog N T) (Q : T -> store N -> Prop) h : Prop :=
  match m h with Some (a, h') => Q a h' | None => False end.

Lemma ends_ret {T} (a : T) (Q : T -> store N -> Prop) h : Q a h -> ends (mret a) Q h.
Proof. exact (fun H => H). Qed.

Lemma ends_bind {T U} (m : prog N T) (f : T -> prog N U) (Q : U -> store N -> Prop) h :
  ends m (fun a => ends (f a) Q) h -> ends (m ≫= f) Q h.
Proof. unfold ends, mbind, prog_bind. destruct (m h) as [[a h']|]; auto. Qed.

Lemma ends_mono {T} (m : prog N T) (P Q : T -> store N -> Prop) h : ends m P h -> (forall a h', P a h' -> Q a h') -> ends m Q h.
Proof. unfold ends. destruct (m h) as [[a h']|]; auto. Qed.

Lemma ends_seq {T U} (m : prog N T) (f : T -> prog N U) (P : T -> store N -> Prop) (Q : U -> store N -> Prop) h :
  ends m P h -> (forall a h', P a h' -> ends (f a) Q h') -> ends (m ≫= f) Q h.
Proof. intros H HP. apply ends_bind. eapply ends_mono; eauto. Qed.

Lemma ends_lift {T} (o : option T) a (Q : T -> store N -> Prop) h : o = Some a -> Q a h -> ends (lift o) Q h.
Proof. now intros ->. Qed.

Lemma ends_run {T} (m : prog N T) (Q : T -> store N -> Prop) h : ends m Q h -> ends m (fun a h' => Q a h' /\ m h = Some (a, h')) h.
Proof. unfold ends. destruct (m h) as [[a h']|]; auto. Qed.

(** What a run returns. *)
Lemma ends_returns {T} (m : prog N T) Q h : ends m Q h -> exists a h', m h = Some (a, h') /\ Q a h'.
Proof. unfold ends. destruct (m h) as [[a h']|]; [eauto|intros []]. Qed.

(** A run that fails after a first part that does not. *)
Lemma ends_fails {T U} (m : prog N T) (f : T -> prog N U) h : ends m (fun a h' => f a h' = None) h -> (m ≫= f) h = None.
Proof. unfold ends, mbind, prog_bind. destruct (m h) as [[a h']|]; [auto|intros []]. Qed.

(** ** Ownership *)

(** The store has exactly the objects of the list. *)
Definition owns h L : Prop := NoDup L.*1 /\ h = list_to_map L.

Lemma owns_empty : owns ∅ [].
Proof. split; [constructor|reflexivity]. Qed.

Lemma owns_perm h L L' : owns h L -> L ≡ₚ L' -> owns h L'.
Proof.
  intros [HN ->] HP. split; [now rewrite <- HP|]. apply list_to_map_proper; [exact HN|exact HP].
Qed.

#[export] Instance owns_proper h : Proper ((≡ₚ) ==> iff) (owns h).
Proof. intros L L' HP. split; intros H; eapply owns_perm; eauto. now symmetry. Qed.

Lemma owns_lookup h L l n : owns h L -> (l, n) ∈ L -> h !! l = Some n.
Proof. intros [HN ->] H. now apply elem_of_list_to_map_1. Qed.

Lemma owns_cons h l n L : owns h ((l, n) :: L) -> h !! l = Some n /\ owns (delete l h) L.
Proof.
  intros [HN ->]. cbn in *. apply NoDup_cons in HN as [Hl HN]. split; [apply lookup_insert_eq|]. split; [exact HN|].
  rewrite delete_insert_id; [reflexivity|]. now apply not_elem_of_list_to_map_1.
Qed.

Lemma ends_deref h L l n Q : owns h L -> (l, n) ∈ L -> Q n h -> ends (deref (Some l)) Q h.
Proof. intros H HL HQ. unfold ends, deref. now rewrite (owns_lookup _ _ _ _ H HL). Qed.

Lemma ends_deref_first h L l n Q : owns h ((l, n) :: L) -> Q n h -> ends (deref (Some l)) Q h.
Proof. intros H. apply (ends_deref _ _ _ n _ H). left. Qed.

Lemma ends_assign h L l n n' Q :
  owns h ((l, n) :: L) -> (forall h', owns h' ((l, n') :: L) -> Q tt h') -> ends (assign (Some l) n') Q h.
Proof.
  intros [HN ->] HQ. cbn in *. unfold ends, assign. cbn. rewrite lookup_insert_eq. apply HQ. split; [exact HN|].
  cbn. now rewrite insert_insert_eq.
Qed.

Lemma ends_modify h L l n f Q :
  owns h ((l, n) :: L) -> (forall h', owns h' ((l, f n) :: L) -> Q tt h') -> ends (modify (Some l) f) Q h.
Proof.
  intros H HQ. apply ends_bind, (ends_deref _ _ _ n _ H); [left|]. now apply (ends_assign _ _ _ _ _ _ H).
Qed.

Lemma ends_delete h L l n Q : owns h ((l, n) :: L) -> (forall h', owns h' L -> Q tt h') -> ends (delete_object (Some l)) Q h.
Proof. intros H HQ. apply owns_cons in H as [Hl H]. unfold ends, delete_object. rewrite Hl. now apply HQ. Qed.

Lemma ends_new `{NewAddressOk} h L n Q : owns h L -> (forall l h', owns h' ((l, n) :: L) -> Q (Some l) h') -> ends (new_object n) Q h.
Proof.
  intros [HN ->] HQ. unfold ends, new_object. apply HQ. split; [|reflexivity]. cbn. apply NoDup_cons. split; [|exact HN].
  apply not_elem_of_list_to_map_2, new_address_free.
Qed.
End Store.

(** A free address. *)
Definition fresh_address {N} : NewAddress := {| new_address := fun h : store N => fresh (map_to_list h).*1 |}.

Lemma fresh_address_ok {N} : NewAddressOk (N := N) (H := fresh_address).
Proof.
  constructor. intros h. cbn. destruct (h !! fresh (map_to_list h).*1) as [n|] eqn:E; [|reflexivity]. exfalso.
  apply (infinite_is_fresh (map_to_list h).*1). apply list_elem_of_fmap. exists (fresh (map_to_list h).*1, n).
  split; [reflexivity|]. now apply elem_of_map_to_list.
Qed.

(** Distinct addresses from the list of objects. *)
Arguments NewAddress : clear implicits.
Arguments NewAddressOk : clear implicits.

(** * Arrays *)

(** * Sets of keys as sorted lists *)

Definition sorted : list Z -> Prop := StronglySorted Z.lt.

Fixpoint add (k : Z) (l : list Z) : list Z :=
  match l with
  | [] => [k]
  | x :: l => if k <? x then k :: x :: l else if x <? k then x :: add k l else x :: l
  end.

Definition without (k : Z) (l : list Z) : list Z := List.filter (fun x => negb (x =? k)) l.

Definition memb (k : Z) (l : list Z) : bool := existsb (Z.eqb k) l.

Lemma memb_In k l : memb k l = true <-> In k l.
Proof.
  unfold memb. rewrite existsb_exists. split; [intros (x & H & E); apply Z.eqb_eq in E; now subst|].
  intros H. exists k. split; [exact H|apply Z.eqb_refl].
Qed.

Lemma memb_cons k x l : memb k (x :: l) = (k =? x) || memb k l.
Proof. reflexivity. Qed.

Lemma memb_app k a b : memb k (a ++ b) = memb k a || memb k b.
Proof. exact (existsb_app _ a b). Qed.

Lemma sorted_app a b : sorted (a ++ b) <-> sorted a /\ sorted b /\ Forall (fun x => Forall (Z.lt x) b) a.
Proof.
  unfold sorted. induction a as [|x a IH]; cbn; [split; [intros H; repeat split; auto; constructor|intros (_ & H & _); exact H]|].
  split.
  - intros H. apply StronglySorted_inv in H as [H1 H2]. apply IH in H1 as (H3 & H4 & H5). apply Forall_app in H2 as [H6 H7].
    repeat split; auto; constructor; auto.
  - intros (H1 & H2 & H3). apply StronglySorted_inv in H1 as [H4 H5]. apply Forall_cons in H3 as [H6 H7].
    constructor; [apply IH; auto|]. apply Forall_app. auto.
Qed.

Lemma memb_above k l : Forall (Z.lt k) l -> memb k l = false.
Proof. induction 1 as [|x l H _ IH]; [reflexivity|]. rewrite memb_cons, IH, orb_false_r. apply Z.eqb_neq. lia. Qed.

Lemma memb_below k l : Forall (fun x => x < k) l -> memb k l = false.
Proof. induction 1 as [|x l H _ IH]; [reflexivity|]. rewrite memb_cons, IH, orb_false_r. apply Z.eqb_neq. lia. Qed.

Lemma add_below k a b : Forall (fun x => x < k) a -> add k (a ++ b) = a ++ add k b.
Proof.
  induction 1 as [|x a H _ IH]; [reflexivity|]. cbn. destruct (Z.ltb_spec k x); [lia|]. destruct (Z.ltb_spec x k); [|lia]. now rewrite IH.
Qed.

Lemma add_above k a b : Forall (Z.lt k) b -> add k (a ++ b) = add k a ++ b.
Proof.
  intros H. induction a as [|x a IH]; cbn.
  - destruct b as [|y b]; [reflexivity|]. cbn. apply Forall_cons in H as [H _]. now destruct (Z.ltb_spec k y); [|lia].
  - destruct (k <? x); [reflexivity|]. destruct (x <? k); [|reflexivity]. now rewrite IH.
Qed.

Lemma add_here k a b : Forall (fun x => x < k) a -> Forall (Z.lt k) b -> add k (a ++ b) = a ++ k :: b.
Proof.
  intros Ha Hb. rewrite add_below by exact Ha. rewrite <- (app_nil_l b) at 1. now rewrite add_above.
Qed.

Lemma add_member k a b : Forall (fun x => x < k) a -> add k (a ++ k :: b) = a ++ k :: b.
Proof. intros Ha. rewrite add_below by exact Ha. cbn. now rewrite Z.ltb_irrefl. Qed.

Lemma add_present k l : sorted l -> memb k l = true -> add k l = l.
Proof.
  induction 1 as [|x l H IH HF]; [discriminate|]. rewrite memb_cons. cbn [add]. destruct (Z.ltb_spec k x) as [L|L].
  - rewrite memb_above, orb_false_r; [intros ->%Z.eqb_eq; lia|]. eapply Forall_impl; [exact HF|]. cbn. intros; lia.
  - destruct (Z.ltb_spec x k) as [L1|L1]; [|reflexivity]. intros [->%Z.eqb_eq|Hm]%orb_true_iff; [lia|]. now rewrite IH.
Qed.

Lemma In_add k l x : In x (add k l) <-> x = k \/ In x l.
Proof.
  induction l as [|y l IH]; cbn; [intuition|]. destruct (Z.ltb_spec k y); [cbn; intuition|].
  destruct (Z.ltb_spec y k); cbn; [rewrite IH; intuition|]. assert (y = k) by lia. subst. intuition.
Qed.

Lemma add_Forall (P : Z -> Prop) k l : P k -> Forall P l -> Forall P (add k l).
Proof. intros H HF. apply List.Forall_forall. intros x [->|Hx]%In_add; [exact H|]. now apply (proj1 (List.Forall_forall P l) HF). Qed.

Lemma add_sorted k l : sorted l -> sorted (add k l).
Proof.
  induction 1 as [|x l H IH HF]; cbn; [repeat constructor|]. destruct (Z.ltb_spec k x).
  - constructor; [constructor; auto|]. constructor; [lia|]. eapply Forall_impl; [exact HF|]. cbn. intros; lia.
  - destruct (Z.ltb_spec x k); [|constructor; auto]. constructor; [exact IH|]. now apply add_Forall.
Qed.

Lemma without_app k a b : without k (a ++ b) = without k a ++ without k b.
Proof. apply List.filter_app. Qed.

Lemma without_absent k l : memb k l = false -> without k l = l.
Proof.
  induction l as [|x l IH]; [reflexivity|]. rewrite memb_cons. intros [H1 H2]%orb_false_iff. unfold without in *. cbn. rewrite Z.eqb_sym, H1. cbn. now rewrite IH.
Qed.

(** Only the middle part changes. *)
Lemma without_between k a m b : Forall (fun x => x < k) a -> Forall (Z.lt k) b -> without k (a ++ m ++ b) = a ++ without k m ++ b.
Proof. intros Ha Hb. now rewrite !without_app, (without_absent k a), (without_absent k b) by auto using memb_above, memb_below. Qed.

Lemma add_between k a m b : Forall (fun x => x < k) a -> Forall (Z.lt k) b -> add k (a ++ m ++ b) = a ++ add k m ++ b.
Proof. intros Ha Hb. now rewrite add_below, add_above. Qed.

Lemma memb_between k a m b : Forall (fun x => x < k) a -> Forall (Z.lt k) b -> memb k (a ++ m ++ b) = memb k m.
Proof. intros Ha Hb. now rewrite !memb_app, (memb_below k a), (memb_above k b), orb_false_r. Qed.

Lemma sorted_tail x l : sorted (x :: l) -> sorted l.
Proof. now intros [H _]%StronglySorted_inv. Qed.

Lemma sorted_below a x k : sorted (a ++ [x]) -> x < k -> Forall (fun y => y < k) (a ++ [x]).
Proof.
  intros (H & _ & HF)%sorted_app Hx. apply Forall_app. split; [|now repeat constructor].
  eapply Forall_impl; [exact HF|]. cbn. intros y Hy. apply Forall_cons in Hy as [Hy _]. lia.
Qed.

Lemma sorted_above k x b : sorted (x :: b) -> k < x -> Forall (Z.lt k) (x :: b).
Proof. intros [_ HF]%StronglySorted_inv Hx. constructor; [exact Hx|]. eapply Forall_impl; [exact HF|]. cbn. intros; lia. Qed.

Lemma sorted_around a k b : sorted (a ++ k :: b) -> Forall (fun x => x < k) a /\ Forall (Z.lt k) b.
Proof.
  intros (_ & H & HF)%sorted_app. apply StronglySorted_inv in H as [_ H]. split; [|exact H].
  eapply Forall_impl; [exact HF|]. cbn. intros x Hx. now apply Forall_cons in Hx as [Hx _].
Qed.

Lemma without_sorted a k b : sorted (a ++ k :: b) -> without k (a ++ k :: b) = a ++ b.
Proof.
  intros [Ha Hb]%sorted_around. change (k :: b) with ([k] ++ b). rewrite without_between by assumption.
  unfold without. cbn. now rewrite Z.eqb_refl.
Qed.

Lemma without_is_sorted k l : sorted l -> sorted (without k l).
Proof.
  unfold without, sorted. induction 1 as [|x l H IH HF]; cbn; [constructor|]. destruct (negb (x =? k)); [|exact IH].
  constructor; [exact IH|]. apply List.Forall_forall. intros y Hy. apply filter_In in Hy as [Hy _]. exact (proj1 (List.Forall_forall _ _) HF y Hy).
Qed.

(** * Arrays *)

Create Rewrite HintDb len.
#[export] Hint Rewrite @length_app @length_take @length_drop @length_cons @length_nil @repeat_length @length_map @length_insert : len.

Abbreviation zlen l := (Z.of_nat (length l)).

(** Lengths of explicit lists. *)
Ltac len := autorewrite with len in *; cbn [length] in *; lia.

Definition rd {X} (a : list X) (i : Z) : option X := if 0 <=? i then a !! Z.to_nat i else None.
Definition wr {X} (a : list X) (i : Z) (x : X) : option (list X) :=
  if (0 <=? i) && (i <? Z.of_nat (length a)) then Some (<[Z.to_nat i := x]> a) else None.

(** [memmove(&dst[d], &src[s], n * sizeof(X))]. *)
Definition memmove {X} (dst : list X) (d : Z) (src : list X) (s n : Z) : option (list X) :=
  if (0 <=? d) && (0 <=? s) && (0 <=? n) && (d + n <=? Z.of_nat (length dst)) && (s + n <=? Z.of_nat (length src))
  then Some (take (Z.to_nat d) dst ++ take (Z.to_nat n) (drop (Z.to_nat s) src) ++ drop (Z.to_nat (d + n)) dst)
  else None.

Section Arrays.
Context {X : Type}.
Implicit Types (a b c p q r : list X) (x y : X).

Lemma rd_app a x b i : i = Z.of_nat (length a) -> rd (a ++ x :: b) i = Some x.
Proof. intros ->. unfold rd. rewrite (proj2 (Z.leb_le _ _)) by lia. rewrite Nat2Z.id. now apply list_lookup_middle. Qed.

Lemma wr_app a x b i y : i = Z.of_nat (length a) -> wr (a ++ x :: b) i y = Some (a ++ y :: b).
Proof.
  intros ->. unfold wr. rewrite (proj2 (Z.leb_le _ _)), (proj2 (Z.ltb_lt _ _)) by len. cbn [andb].
  rewrite Nat2Z.id. f_equal. rewrite <- (Nat.add_0_r (length a)). exact (insert_app_r a (x :: b) 0 y).
Qed.

Lemma memmove_app a b c p q r d s n :
  d = Z.of_nat (length a) -> n = Z.of_nat (length b) -> s = Z.of_nat (length p) -> length q = length b ->
  memmove (a ++ b ++ c) d (p ++ q ++ r) s n = Some (a ++ q ++ c).
Proof.
  intros -> -> -> Hq. unfold memmove. rewrite !(proj2 (Z.leb_le _ _)) by len. cbn [andb]. f_equal.
  rewrite !Nat2Z.id, take_app_length, drop_app_length. rewrite <- Hq, take_app_length. f_equal. f_equal.
  rewrite app_assoc. replace (Z.to_nat _) with (length (a ++ b)) by len. apply drop_app_length.
Qed.
End Arrays.
