(* ===== verification/Btree.v ===== *)
(** * The B-tree of Terrace ([include/btree.h])

    High-degree vertices keep their neighbours in a B-tree of 32-bit keys.  A node has arrays
    of fixed length for keys and children; what lies past the live part of an array is
    left over from earlier operations.  The tree without weights is modelled, the
    configuration of the unweighted benchmark.

    Two calls of the code are outside the language: [splitChild] copies [MAX_KEYS] child
    pointers from the middle of an array of [MAX_CHILDREN], reading past the end of the
    node; what it finds there is an argument of the model ([past_end]).  It also calls
    [memcpy] on regions that overlap, which here moves them as [memmove] does. *)

From S2P Require Import Prelude Arrays.
From stdpp Require Import base option list gmap.
#[local] Open Scope Z_scope.

Definition MIN_KEYS : Z := 64.
Definition MAX_KEYS : Z := 2 * MIN_KEYS - 1.
Definition MAX_CHILDREN : Z := 2 * MIN_KEYS.

(** [BTreeNode]. *)
Record node := mk_node { keys : list Z; children : list ptr; num_keys : Z; is_leaf : bool }.

Definition set_keys (a : list Z) (n : node) : node := mk_node a n.(children) n.(num_keys) n.(is_leaf).
Definition set_children (a : list ptr) (n : node) : node := mk_node n.(keys) a n.(num_keys) n.(is_leaf).
Definition set_num (k : Z) (n : node) : node := mk_node n.(keys) n.(children) k n.(is_leaf).

(** ** Arrays *)

(** [for (i = n - 1; i >= 0; --i) a[i + 1] = a[i]]. *)
Fixpoint move_up {X} (n : nat) (a : list X) : option (list X) :=
  match n with
  | O => Some a
  | S i => let? x := rd a (Z.of_nat i) in let? a := wr a (Z.of_nat i + 1) x in move_up i a
  end.

(** [for (; n > 0; ++i, --n) a[i - 1] = a[i]]. *)
Fixpoint move_down {X} (n : nat) (i : Z) (a : list X) : option (list X) :=
  match n with
  | O => Some a
  | S n => let? x := rd a i in let? a := wr a (i - 1) x in move_down n (i + 1) a
  end.

(** [for (; n > 0; ++i, --n) dst[i + MIN_KEYS] = src[i]]. *)
Fixpoint copy_up {X} (n : nat) (i : Z) (dst src : list X) : option (list X) :=
  match n with
  | O => Some dst
  | S n => let? x := rd src i in let? dst := wr dst (i + MIN_KEYS) x in copy_up n (i + 1) dst src
  end.

Section Btree.
Context `{NewAddress node}.
(** The words after a node, read as pointers. *)
Context (past_end : ptr -> store node -> nat -> ptr).
#[local] Abbreviation prog := (prog node).

Definition new_node (leaf : bool) : node :=
  mk_node (repeat 0 (Z.to_nat MAX_KEYS)) (repeat None (Z.to_nat MAX_CHILDREN)) 0 leaf.

(** ** Searches *)

(** [while (i < num_keys && k > keys[i]) i++]. *)
Fixpoint key_loop (fuel : nat) (n : node) (k i : Z) : option Z :=
  if i <? n.(num_keys) then
    let? x := rd n.(keys) i in
    if x <? k then match fuel with O => None | S fuel => key_loop fuel n k (i + 1) end else Some i
  else Some i.

Definition findKey (n : node) (k : Z) : option Z := key_loop (Z.to_nat n.(num_keys)) n k 0.

(** Is the key at the index? *)
Definition key_at (n : node) (i k : Z) : option bool :=
  if i <? n.(num_keys) then let? x := rd n.(keys) i in Some (x =? k) else Some false.

Fixpoint node_find (fuel : nat) (p : ptr) (k : Z) : prog ptr :=
  match fuel with
  | O => undefined
  | S fuel =>
    n ← deref p;
    i ← lift (findKey n k);
    hit ← lift (key_at n i k);
    if hit : bool then mret p else
    if n.(is_leaf) then mret None else
    c ← lift (rd n.(children) i); node_find fuel c k
  end.

Definition btree_find (fuel : nat) (root : ptr) (k : Z) : prog ptr :=
  match root with None => mret None | Some _ => node_find fuel root k end.

(** ** Insertion *)

(** The words after the array of children up to the end of the copy. *)
Definition beyond (p : ptr) : prog (list ptr) := fun h => Some (List.map (past_end p h) (seq 0 (Z.to_nat (MIN_KEYS - 1))), h).

Definition splitChild (this : ptr) (i : Z) (c : ptr) : prog unit :=
  cn ← deref c;
  z ← new_object (new_node cn.(is_leaf));
  modify z (set_num (MIN_KEYS - 1));;
  zn ← deref z; ks ← lift (memmove zn.(keys) 0 cn.(keys) MIN_KEYS (MIN_KEYS - 1)); modify z (set_keys ks);;
  (if cn.(is_leaf) then mret tt else
     w ← beyond c;
     zn ← deref z; cs ← lift (memmove zn.(children) 0 (cn.(children) ++ w) MIN_KEYS MAX_KEYS); modify z (set_children cs));;
  modify c (set_num (MIN_KEYS - 1));;
  n ← deref this;
  cs ← lift (memmove n.(children) (i + 2) n.(children) (i + 1) (u32 (MAX_CHILDREN - i - 2)));
  cs ← lift (wr cs (i + 1) z);
  ks ← lift (memmove n.(keys) (i + 1) n.(keys) i (u32 (MAX_KEYS - i - 1)));
  cn ← deref c;
  m ← lift (rd cn.(keys) (MIN_KEYS - 1));
  ks ← lift (wr ks i m);
  assign this (mk_node ks cs (u32 (n.(num_keys) + 1)) n.(is_leaf)).

(** The index of the first key that is not smaller, and whether it is equal. *)
Fixpoint insert_loop (fuel : nat) (n : node) (k idx : Z) : option (Z * bool) :=
  if idx <? n.(num_keys) then
    let? x := rd n.(keys) idx in
    if x <? k then match fuel with O => None | S fuel => insert_loop fuel n k (idx + 1) end
    else Some (idx, k =? x)
  else Some (idx, false).

Fixpoint insertNonFull (fuel : nat) (this : ptr) (k : Z) : prog bool :=
  match fuel with
  | O => undefined
  | S fuel =>
    n ← deref this;
    r ← lift (insert_loop (Z.to_nat n.(num_keys)) n k 0);
    let idx := r.1 in
    if r.2 : bool then mret false else
    if n.(is_leaf) then
      ks ← lift (memmove n.(keys) (idx + 1) n.(keys) idx (u32 (MAX_KEYS - idx - 1)));
      ks ← lift (wr ks idx k);
      assign this (mk_node ks n.(children) (u32 (n.(num_keys) + 1)) n.(is_leaf));;
      mret true
    else
      c ← lift (rd n.(children) idx);
      cn ← deref c;
      if cn.(num_keys) =? MAX_KEYS then
        splitChild this idx c;;
        n ← deref this;
        x ← lift (rd n.(keys) idx);
        if x =? k then mret false else
        c ← lift (rd n.(children) (if x <? k then idx + 1 else idx));
        insertNonFull fuel c k
      else insertNonFull fuel c k
  end.

(** [BTree::insert]: the new root and the result. *)
Definition btree_insert (fuel : nat) (root : ptr) (k : Z) : prog (ptr * bool) :=
  match root with
  | None =>
    root ← new_object (new_node true);
    n ← deref root; ks ← lift (wr n.(keys) 0 k); modify root (set_keys ks);;
    modify root (set_num 1);;
    mret (root, true)
  | Some _ =>
    n ← deref root;
    if n.(num_keys) =? MAX_KEYS then
      s ← new_object (new_node false);
      sn ← deref s; cs ← lift (wr sn.(children) 0 root); modify s (set_children cs);;
      splitChild s 0 root;;
      sn ← deref s;
      x ← lift (rd sn.(keys) 0);
      c ← lift (rd sn.(children) (if x <? k then 1 else 0));
      r ← insertNonFull fuel c k;
      mret (s, r)
    else r ← insertNonFull fuel root k; mret (root, r)
  end.

(** ** Removal *)

Definition removeFromLeaf (this : ptr) (idx : Z) : prog unit :=
  n ← deref this;
  ks ← lift (memmove n.(keys) idx n.(keys) (idx + 1) (u32 (MAX_KEYS - idx - 1)));
  assign this (mk_node ks n.(children) (u32 (n.(num_keys) - 1)) n.(is_leaf)).

(** [while (!cur->is_leaf) cur = cur->children[...]]: to the last or the first leaf. *)
Fixpoint last_leaf (fuel : nat) (cur : ptr) : prog ptr :=
  match fuel with
  | O => undefined
  | S fuel => n ← deref cur; if n.(is_leaf) then mret cur else c ← lift (rd n.(children) n.(num_keys)); last_leaf fuel c
  end.

Fixpoint first_leaf (fuel : nat) (cur : ptr) : prog ptr :=
  match fuel with
  | O => undefined
  | S fuel => n ← deref cur; if n.(is_leaf) then mret cur else c ← lift (rd n.(children) 0); first_leaf fuel c
  end.

Definition getPred (fuel : nat) (this : ptr) (idx : Z) : prog Z :=
  n ← deref this; c ← lift (rd n.(children) idx);
  cur ← last_leaf fuel c;
  n ← deref cur; lift (rd n.(keys) (u32 (n.(num_keys) - 1))).

Definition getSucc (fuel : nat) (this : ptr) (idx : Z) : prog Z :=
  n ← deref this; c ← lift (rd n.(children) (idx + 1));
  cur ← first_leaf fuel c;
  n ← deref cur; lift (rd n.(keys) 0).

Definition borrowFromPrev (this : ptr) (idx : Z) : prog unit :=
  n ← deref this;
  child ← lift (rd n.(children) idx);
  sibling ← lift (rd n.(children) (idx - 1));
  cn ← deref child;
  ks ← lift (move_up (Z.to_nat cn.(num_keys)) cn.(keys)); modify child (set_keys ks);;
  (if cn.(is_leaf) then mret tt else
     cs ← lift (move_up (Z.to_nat (cn.(num_keys) + 1)) cn.(children)); modify child (set_children cs));;
  cn ← deref child;
  k ← lift (rd n.(keys) (idx - 1)); ks ← lift (wr cn.(keys) 0 k); modify child (set_keys ks);;
  sn ← deref sibling;
  (if cn.(is_leaf) then mret tt else
     c ← lift (rd sn.(children) sn.(num_keys)); cs ← lift (wr cn.(children) 0 c); modify child (set_children cs));;
  k ← lift (rd sn.(keys) (u32 (sn.(num_keys) - 1))); ks ← lift (wr n.(keys) (idx - 1) k); modify this (set_keys ks);;
  modify child (fun cn => set_num (u32 (cn.(num_keys) + 1)) cn);;
  modify sibling (fun sn => set_num (u32 (sn.(num_keys) - 1)) sn).

Definition borrowFromNext (this : ptr) (idx : Z) : prog unit :=
  n ← deref this;
  child ← lift (rd n.(children) idx);
  sibling ← lift (rd n.(children) (idx + 1));
  cn ← deref child;
  k ← lift (rd n.(keys) idx); ks ← lift (wr cn.(keys) cn.(num_keys) k); modify child (set_keys ks);;
  sn ← deref sibling;
  (if cn.(is_leaf) then mret tt else
     c ← lift (rd sn.(children) 0); cs ← lift (wr cn.(children) (cn.(num_keys) + 1) c); modify child (set_children cs));;
  k ← lift (rd sn.(keys) 0); ks ← lift (wr n.(keys) idx k); modify this (set_keys ks);;
  ks ← lift (move_down (Z.to_nat (sn.(num_keys) - 1)) 1 sn.(keys)); modify sibling (set_keys ks);;
  (if sn.(is_leaf) then mret tt else
     cs ← lift (move_down (Z.to_nat sn.(num_keys)) 1 sn.(children)); modify sibling (set_children cs));;
  modify child (fun cn => set_num (u32 (cn.(num_keys) + 1)) cn);;
  modify sibling (fun sn => set_num (u32 (sn.(num_keys) - 1)) sn).

Definition merge (this : ptr) (idx : Z) : prog unit :=
  n ← deref this;
  child ← lift (rd n.(children) idx);
  sibling ← lift (rd n.(children) (idx + 1));
  cn ← deref child;
  k ← lift (rd n.(keys) idx); ks ← lift (wr cn.(keys) (MIN_KEYS - 1) k); modify child (set_keys ks);;
  sn ← deref sibling;
  ks ← lift (copy_up (Z.to_nat sn.(num_keys)) 0 ks sn.(keys)); modify child (set_keys ks);;
  (if cn.(is_leaf) then mret tt else
     cs ← lift (copy_up (Z.to_nat (sn.(num_keys) + 1)) 0 cn.(children) sn.(children)); modify child (set_children cs));;
  ks ← lift (move_down (Z.to_nat (n.(num_keys) - idx - 1)) (idx + 1) n.(keys)); modify this (set_keys ks);;
  cs ← lift (move_down (Z.to_nat (n.(num_keys) - idx - 1)) (idx + 2) n.(children)); modify this (set_children cs);;
  modify child (fun cn => set_num (u32 (cn.(num_keys) + (sn.(num_keys) + 1))) cn);;
  modify this (fun n => set_num (u32 (n.(num_keys) - 1)) n);;
  delete_object sibling.

Definition fill (this : ptr) (idx : Z) : prog unit :=
  n ← deref this;
  prev ← (if idx =? 0 then mret false else
            c ← lift (rd n.(children) (idx - 1)); cn ← deref c; mret (MIN_KEYS <=? cn.(num_keys)));
  if prev : bool then borrowFromPrev this idx else
  next ← (if idx =? n.(num_keys) then mret false else
            c ← lift (rd n.(children) (idx + 1)); cn ← deref c; mret (MIN_KEYS <=? cn.(num_keys)));
  if next : bool then borrowFromNext this idx else
  if idx =? n.(num_keys) then merge this (idx - 1) else merge this idx.

(** The recursive calls are an argument. *)
Definition removeFromNonLeaf (remove : ptr -> Z -> prog bool) (fuel : nat) (this : ptr) (idx : Z) : prog unit :=
  n ← deref this;
  k ← lift (rd n.(keys) idx);
  c ← lift (rd n.(children) idx); cn ← deref c;
  if MIN_KEYS <=? cn.(num_keys) then
    pred ← getPred fuel this idx;
    ks ← lift (wr n.(keys) idx pred); modify this (set_keys ks);;
    remove c pred;; mret tt
  else
    c' ← lift (rd n.(children) (idx + 1)); cn' ← deref c';
    if MIN_KEYS <=? cn'.(num_keys) then
      succ ← getSucc fuel this idx;
      ks ← lift (wr n.(keys) idx succ); modify this (set_keys ks);;
      remove c' succ;; mret tt
    else
      merge this idx;;
      n ← deref this; c ← lift (rd n.(children) idx); remove c k;; mret tt.

Fixpoint node_remove (fuel : nat) (this : ptr) (k : Z) : prog bool :=
  match fuel with
  | O => undefined
  | S fuel =>
    n ← deref this;
    idx ← lift (findKey n k);
    hit ← lift (key_at n idx k);
    if hit : bool then
      (if n.(is_leaf) then removeFromLeaf this idx else removeFromNonLeaf (node_remove fuel) fuel this idx);;
      mret true
    else if n.(is_leaf) then mret false
    else
      let flag := idx =? n.(num_keys) in
      c ← lift (rd n.(children) idx); cn ← deref c;
      (if cn.(num_keys) <? MIN_KEYS then fill this idx else mret tt);;
      n ← deref this;
      c ← lift (rd n.(children) (if flag && (n.(num_keys) <? idx) then idx - 1 else idx));
      node_remove fuel c k;;
      mret true
  end.

(** [BTree::remove]: the new root and the result. *)
Definition btree_remove (fuel : nat) (root : ptr) (k : Z) : prog (ptr * bool) :=
  match root with
  | None => mret (None, false)
  | Some _ =>
    ret ← node_remove fuel root k;
    n ← deref root;
    if n.(num_keys) =? 0 then
      root' ← (if n.(is_leaf) then mret None else lift (rd n.(children) 0));
      delete_object root;;
      mret (root', ret)
    else mret (root, ret)
  end.

(** ** Traversals *)

(** The keys that [traverse] prints. *)
Fixpoint traverse (fuel : nat) (this : ptr) : prog (list Z) :=
  match fuel with
  | O => undefined
  | S fuel =>
    n ← deref this;
    (fix loop (m : nat) (i : Z) : prog (list Z) :=
       c ← (if n.(is_leaf) then mret [] else c ← lift (rd n.(children) i); traverse fuel c);
       match m with
       | O => mret c
       | S m => k ← lift (rd n.(keys) i); r ← loop m (i + 1); mret (c ++ k :: r)
       end) (Z.to_nat n.(num_keys)) 0
  end.

Fixpoint node_sum (fuel : nat) (this : ptr) : prog Z :=
  match fuel with
  | O => undefined
  | S fuel =>
    n ← deref this;
    (fix loop (m : nat) (i count : Z) : prog Z :=
       s ← (if n.(is_leaf) then mret 0 else c ← lift (rd n.(children) i); node_sum fuel c);
       let count := (count + s)%u64 in
       match m with
       | O => mret count
       | S m => k ← lift (rd n.(keys) i); loop m (i + 1) (count + k)%u64
       end) (Z.to_nat n.(num_keys)) 0 0
  end.

Fixpoint node_num_nodes (fuel : nat) (this : ptr) : prog Z :=
  match fuel with
  | O => undefined
  | S fuel =>
    n ← deref this;
    (fix loop (m : nat) (i count : Z) : prog Z :=
       s ← (if n.(is_leaf) then mret 0 else c ← lift (rd n.(children) i); node_num_nodes fuel c);
       let count := u32 (count + s) in
       match m with O => mret count | S m => loop m (i + 1) count end) (Z.to_nat n.(num_keys)) 0 1
  end.

Definition btree_sum (fuel : nat) (root : ptr) : prog Z := match root with None => mret 0 | Some _ => node_sum fuel root end.
Definition get_num_nodes (fuel : nat) (root : ptr) : prog Z := match root with None => mret 0 | Some _ => node_num_nodes fuel root end.

(** The size of a node: the arrays of keys and of pointers, the number of keys and the flag, aligned. *)
Definition sizeof_node : Z := 1544.
Definition get_size (fuel : nat) (root : ptr) : prog Z := n ← get_num_nodes fuel root; mret (n * sizeof_node)%u64.

Section Map.
Context {St : Type} (f : Z -> St -> St).

Definition map_node (n : node) (st : St) : option St :=
  (fix loop (m : nat) (i : Z) (st : St) : option St :=
     match m with O => Some st | S m => let? k := rd n.(keys) i in loop m (i + 1) (f k st) end) (Z.to_nat n.(num_keys)) 0 st.

Fixpoint map_tree (fuel : nat) (this : ptr) (st : St) : prog St :=
  match fuel with
  | O => undefined
  | S fuel =>
    n ← deref this;
    st ← lift (map_node n st);
    if n.(is_leaf) then mret st else
    (fix loop (m : nat) (i : Z) (st : St) : prog St :=
       match m with
       | O => mret st
       | S m =>
         c ← lift (rd n.(children) i);
         st ← (match c with Some _ => map_tree fuel c st | None => mret st end);
         loop m (i + 1) st
       end) (Z.to_nat (n.(num_keys) + 1)) 0 st
  end.
End Map.

(** ** Iterators *)

(** [NodeIterator]; the top of the stack is the head of the list. *)
Record iterator := mk_iter { stack : list (ptr * Z); cur_node : ptr; cur_idx : Z }.

(** [while (cur != nullptr)]: down to the first leaf. *)
Fixpoint push_left (fuel : nat) (st : list (ptr * Z)) (cur : ptr) : prog (list (ptr * Z)) :=
  match cur with
  | None => mret st
  | Some _ =>
    match fuel with
    | O => undefined
    | S fuel => n ← deref cur; c ← lift (rd n.(children) 0); push_left fuel ((cur, 0) :: st) c
    end
  end.

Definition top (st : list (ptr * Z)) : option (ptr * Z) := head st.

Definition iter_begin (fuel : nat) (root : ptr) : prog iterator :=
  st ← push_left fuel [] root;
  t ← lift (top st);
  mret (mk_iter st t.1 0).

Definition iter_done (it : iterator) : bool := match it.(stack) with [] => true | _ => false end.

Definition iter_get (it : iterator) : prog Z := n ← deref it.(cur_node); lift (rd n.(keys) it.(cur_idx)).

Definition iter_next (fuel : nat) (it : iterator) : prog iterator :=
  n ← deref it.(cur_node);
  if n.(is_leaf) then
    if it.(cur_idx) <? u32 (n.(num_keys) - 1) then mret (mk_iter it.(stack) it.(cur_node) (it.(cur_idx) + 1))
    else
      match it.(stack) with
      | [] => undefined
      | _ :: [] => mret (mk_iter [] it.(cur_node) it.(cur_idx))
      | _ :: (p, i) :: st => mret (mk_iter ((p, u32 (i + 1)) :: st) p i)
      end
  else
    st ← (if it.(cur_idx) =? u32 (n.(num_keys) - 1) then match it.(stack) with [] => undefined | _ :: st => mret st end else mret it.(stack));
    c ← lift (rd n.(children) (it.(cur_idx) + 1));
    st ← push_left fuel st c;
    t ← lift (top st);
    mret (mk_iter st t.1 0).

(** [for (it = begin(); !it.done(); ++it)]. *)
Fixpoint iter_collect (rounds fuel : nat) (it : iterator) : prog (list Z) :=
  if iter_done it then mret [] else
  match rounds with
  | O => undefined
  | S rounds => k ← iter_get it; it ← iter_next fuel it; r ← iter_collect rounds fuel it; mret (k :: r)
  end.
End Btree.
