(* ===== verification/BtreeSearch.v ===== *)
(** * B-trees on the heap, and searching them

    The arrays of a node and the trees that nodes on the heap represent.

    Where a key belongs in a node, how the keys of a tree divide at that position, and
    [find]. *)

From S2P Require Import Prelude Arrays Btree.
From stdpp Require Import base option list gmap sorting.
#[local] Open Scope Z_scope.

(** * B-trees on the heap *)

(** * Arrays of B-tree nodes *)

Section Arrays.
Context {X : Type}.
Implicit Types (a b c : list X) (x y : X).

(** A list with an element has a last one. *)
Lemma split_last a : (0 < length a)%nat -> exists b x, a = b ++ [x].
Proof. intros H. destruct (exists_last (l := a)) as (b & x & ->); [intros ->; cbn in H; lia|eauto]. Qed.

(** Moving a tail one place up, over its last element, and down. *)
Lemma memmove_up a b x i n : i = Z.of_nat (length a) -> n = Z.of_nat (length b) ->
  exists y, memmove (a ++ b ++ [x]) (i + 1) (a ++ b ++ [x]) i n = Some (a ++ y :: b).
Proof.
  intros -> ->. destruct b as [|y b].
  - exists x. change (a ++ [] ++ [x]) with (a ++ [x]). rewrite <- (app_nil_r (a ++ [x])) at 1. rewrite <- (app_nil_r [x]) at 2.
    rewrite (memmove_app (a ++ [x]) [] [] a [] [x]); [|len..|reflexivity]. now rewrite app_nil_r.
  - exists y. destruct (split_last (y :: b)) as (b' & z & Eb); [len|].
    replace (a ++ (y :: b) ++ [x]) with ((a ++ [y]) ++ (b ++ [x]) ++ []) at 1 by (rewrite app_nil_r, <- !app_assoc; reflexivity).
    rewrite (memmove_app (a ++ [y]) (b ++ [x]) [] a (y :: b) [x]); [|len..]. f_equal. rewrite app_nil_r, <- app_assoc. reflexivity.
Qed.

Lemma memmove_down a x b i n : i = Z.of_nat (length a) -> n = Z.of_nat (length b) ->
  exists y, memmove (a ++ x :: b) i (a ++ x :: b) (i + 1) n = Some (a ++ b ++ [y]).
Proof.
  intros -> ->. destruct (split_last (x :: b)) as (b' & z & Eb); [len|]. exists z.
  assert (L : length (b' ++ [z]) = length (x :: b)) by now rewrite Eb.
  replace (a ++ x :: b) with (a ++ b' ++ [z]) at 1 by now rewrite <- Eb.
  replace (a ++ x :: b) with ((a ++ [x]) ++ b ++ []) by (rewrite app_nil_r, <- app_assoc; reflexivity).
  rewrite (memmove_app a b' [z] (a ++ [x]) b []); [reflexivity|len..].
Qed.

(** The loops. *)
Lemma move_up_app : forall b x c, exists y, move_up (length b) (b ++ x :: c) = Some (y :: b ++ c).
Proof.
  induction b as [|z b IH] using rev_ind; intros x c; [now exists x|].
  rewrite length_app, Nat.add_1_r, <- app_assoc. cbn [app]. cbn [move_up]. rewrite (rd_app b z (x :: c)) by reflexivity.
  replace (b ++ z :: x :: c) with ((b ++ [z]) ++ x :: c) by now rewrite <- app_assoc.
  rewrite (wr_app (b ++ [z]) x c) by len. rewrite <- app_assoc. cbn [app].
  destruct (IH z (z :: c)) as [y ->]. exists y. now rewrite <- app_assoc.
Qed.

Lemma move_down_app : forall b a x c i, i = Z.of_nat (length a) + 1 ->
  exists y, move_down (length b) i (a ++ x :: b ++ c) = Some (a ++ b ++ y :: c).
Proof.
  induction b as [|z b IH]; intros a x c i ->; [now exists x|]. cbn [length move_down app].
  assert (R : rd (a ++ x :: z :: b ++ c) (Z.of_nat (length a) + 1) = Some z).
  { change (x :: z :: b ++ c) with ([x] ++ z :: b ++ c). rewrite app_assoc. apply rd_app. len. }
  rewrite R. rewrite (wr_app a x (z :: b ++ c)) by lia.
  destruct (IH (a ++ [z]) z c (Z.of_nat (length a) + 1 + 1)) as [y E]; [len|]. exists y.
  rewrite <- app_assoc in E. cbn [app] in E. rewrite E. now rewrite <- app_assoc.
Qed.

Lemma copy_up_app : forall q p b a c r i, i = Z.of_nat (length p) -> MIN_KEYS + i = Z.of_nat (length a) -> length q = length b ->
  copy_up (length q) i (a ++ b ++ c) (p ++ q ++ r) = Some (a ++ q ++ c).
Proof.
  induction q as [|z q IH]; intros p b a c r i Hi Ha Hb; destruct b as [|y b]; try discriminate; [reflexivity|].
  cbn [length copy_up app]. rewrite (rd_app p z (q ++ r)) by exact Hi. rewrite (wr_app a y (b ++ c)) by lia.
  replace (a ++ z :: b ++ c) with ((a ++ [z]) ++ b ++ c) by now rewrite <- app_assoc.
  replace (p ++ z :: q ++ r) with ((p ++ [z]) ++ q ++ r) by now rewrite <- app_assoc.
  rewrite IH; [now rewrite <- app_assoc|len..].
Qed.
End Arrays.

(** ** Keys between children *)

(** The keys of the subtrees and those of the node in turn; a leaf has no subtrees. *)
Fixpoint weave (cs : list (list Z)) (ks : list Z) : list Z :=
  match ks with
  | [] => hd [] cs
  | k :: ks => hd [] cs ++ k :: weave (tl cs) ks
  end.

Lemma weave_leaf ks : weave [] ks = ks.
Proof. induction ks as [|k ks IH]; [reflexivity|]. cbn. now rewrite IH. Qed.

(** Each key of the first part follows a subtree. *)
Lemma weave_app cs1 cs2 ks1 : forall ks2, length cs1 = length ks1 -> weave (cs1 ++ cs2) (ks1 ++ ks2) = weave cs1 ks1 ++ weave cs2 ks2.
Proof.
  revert ks1. induction cs1 as [|c cs1 IH]; intros [|k ks1] ks2 H; try discriminate; [reflexivity|]. cbn.
  rewrite IH by (cbn in H; lia). now rewrite <- app_assoc.
Qed.

Lemma weave_first c cs ks : weave (c :: cs) ks = c ++ weave ([] :: cs) ks.
Proof. destruct ks; cbn; [now rewrite app_nil_r|reflexivity]. Qed.

(** A key with the subtrees on both sides. *)
Lemma weave_middle cs1 ks1 k cs2 ks2 : length cs1 = S (length ks1) ->
  weave (cs1 ++ cs2) (ks1 ++ k :: ks2) = weave cs1 ks1 ++ k :: weave cs2 ks2.
Proof.
  revert ks1. induction cs1 as [|c cs1 IH]; intros [|k1 ks1] H; try discriminate.
  - destruct cs1; [reflexivity|discriminate].
  - cbn. rewrite IH by (cbn in *; lia). now rewrite <- app_assoc.
Qed.

(** Around the child at a position. *)
Lemma weave_child cs1 c cs2 ks1 ks2 : length cs1 = length ks1 ->
  weave (cs1 ++ c :: cs2) (ks1 ++ ks2) = weave cs1 ks1 ++ c ++ weave ([] :: cs2) ks2.
Proof. intros H. rewrite weave_app by exact H. now rewrite weave_first. Qed.

Lemma weave_snoc cs ks c k : length cs = length ks -> weave (cs ++ [c]) (ks ++ [k]) = weave cs ks ++ c ++ [k].
Proof. intros H. rewrite weave_app by exact H. reflexivity. Qed.

(** * B-trees on the heap *)

#[export] Hint Rewrite @length_zip_with @length_fmap : len.


(** ** Trees *)

Inductive ltree := Nd (l : positive) (n : node) (ks : list Z) (cs : list ltree).

Definition root (T : ltree) : ptr := match T with Nd l _ _ _ => Some l end.
Definition tkeys (T : ltree) : list Z := match T with Nd _ _ ks _ => ks end.

Fixpoint cells (T : ltree) : list (positive * node) :=
  match T with Nd l n _ cs => (l, n) :: flat_map cells cs end.

Fixpoint elems (T : ltree) : list Z :=
  match T with Nd _ _ ks cs => weave (List.map elems cs) ks end.

(** The arrays begin with the keys and the addresses of the subtrees. *)
Record node_ok (n : node) (ks : list Z) (ps : list ptr) (leaf : bool) : Prop := {
  ok_leaf : is_leaf n = leaf;
  ok_num : num_keys n = zlen ks;
  ok_keys_len : zlen (keys n) = MAX_KEYS;
  ok_children_len : zlen (children n) = MAX_CHILDREN;
  ok_keys : exists junk, keys n = ks ++ junk;
  ok_children : if leaf then children n = repeat None (Z.to_nat MAX_CHILDREN) else exists junk, children n = ps ++ junk;
}.

(** A B-tree of the given height; the root may have fewer keys than the other nodes. *)
Fixpoint wf (d : nat) (T : ltree) : Prop :=
  match T with
  | Nd _ n ks cs =>
    node_ok n ks (List.map root cs) (d =? 0)%nat /\ zlen ks <= MAX_KEYS /\
    match d with
    | O => cs = []
    | S d => length cs = S (length ks) /\ Forall (fun c => wf d c /\ MIN_KEYS - 1 <= zlen (tkeys c)) cs
    end
  end.

Lemma wf_parts d l n ks cs : wf d (Nd l n ks cs) <->
  node_ok n ks (List.map root cs) (d =? 0)%nat /\ zlen ks <= MAX_KEYS /\
  match d with
  | O => cs = []
  | S d => length cs = S (length ks) /\ Forall (fun c => wf d c /\ MIN_KEYS - 1 <= zlen (tkeys c)) cs
  end.
Proof. destruct d; reflexivity. Qed.

(** ** The position of a key *)

(** What precedes and follows the subtree where a key belongs. *)
Lemma weave_below k cs ks : length cs = length ks \/ cs = [] -> sorted (weave cs ks) -> Forall (fun x => x < k) ks ->
  Forall (fun x => x < k) (weave cs ks).
Proof.
  intros HL Hs Hk. destruct ks as [|x ks _] using rev_ind; [destruct HL as [H| ->]; [destruct cs; [constructor|discriminate]|constructor]|].
  apply Forall_app in Hk as [_ Hx]. apply Forall_cons in Hx as [Hx _].
  destruct HL as [HL| ->].
  - destruct (split_last cs) as (cs' & c & ->); [len|]. rewrite weave_snoc, app_assoc in * by len. now apply sorted_below.
  - rewrite weave_leaf in *. now apply sorted_below.
Qed.

Lemma weave_above k cs ks : length cs = length ks \/ cs = [] -> sorted (weave ([] :: cs) ks) -> match ks with [] => True | x :: _ => k < x end ->
  Forall (Z.lt k) (weave ([] :: cs) ks).
Proof.
  intros HL Hs Hk. destruct ks as [|x ks]; [constructor|]. cbn in *. now apply sorted_above.
Qed.

(** * Searching a B-tree *)


(** ** Positions *)

Definition at_most_next (k : Z) (ks : list Z) : Prop := match ks with [] => True | x :: _ => k <= x end.

Lemma key_loop_spec n k rest : forall before junk fuel,
  keys n = before ++ rest ++ junk -> num_keys n = zlen (before ++ rest) -> (length rest <= fuel)%nat ->
  exists a b, rest = a ++ b /\ key_loop fuel n k (zlen before) = Some (zlen (before ++ a)) /\ Forall (fun x => x < k) a /\ at_most_next k b.
Proof.
  induction rest as [|x rest IH]; intros before junk fuel HK HN Hf.
  - exists [], []. rewrite !app_nil_r in *. repeat split; [|constructor]. destruct fuel; cbn [key_loop]; rewrite HN, Z.ltb_irrefl; reflexivity.
  - assert (C : (zlen before <? num_keys n) = true) by (apply Z.ltb_lt; rewrite HN; len).
    assert (R : rd (keys n) (zlen before) = Some x) by (rewrite HK; now apply rd_app).
    destruct (Z.ltb_spec x k) as [L|L].
    + destruct fuel as [|fuel]; [cbn in Hf; lia|]. cbn [key_loop]. rewrite C, R, (proj2 (Z.ltb_lt _ _) L).
      destruct (IH (before ++ [x]) junk fuel) as (a & b & -> & E & Ha & Hb).
      { rewrite HK, <- app_assoc. reflexivity. } { rewrite HN, <- app_assoc. reflexivity. } { cbn in Hf. lia. }
      exists (x :: a), b. rewrite <- app_assoc in E. repeat split; auto. replace (zlen before + 1) with (zlen (before ++ [x])) by len. exact E.
    + exists [], (x :: rest). rewrite app_nil_r. repeat split; [|constructor|exact L].
      destruct fuel; cbn [key_loop]; rewrite C, R, (proj2 (Z.ltb_ge _ _) L); reflexivity.
Qed.

Lemma findKey_spec n ks ps leaf k : node_ok n ks ps leaf ->
  exists a b, ks = a ++ b /\ findKey n k = Some (zlen a) /\ Forall (fun x => x < k) a /\ at_most_next k b.
Proof.
  intros H. destruct (ok_keys _ _ _ _ H) as [junk HK].
  destruct (key_loop_spec n k ks [] junk (Z.to_nat (num_keys n)) HK (ok_num _ _ _ _ H)) as (a & b & E & EF & Ha & Hb).
  { rewrite (ok_num _ _ _ _ H). lia. }
  exists a, b. repeat split; auto.
Qed.

Lemma rd_key n a x b ps leaf : node_ok n (a ++ x :: b) ps leaf -> rd (keys n) (zlen a) = Some x.
Proof. intros H. destruct (ok_keys _ _ _ _ H) as [junk ->]. rewrite <- app_assoc. now apply rd_app. Qed.

Lemma rd_child n ks a p b : node_ok n ks (a ++ p :: b) false -> rd (children n) (zlen a) = Some p.
Proof. intros H. destruct (ok_children _ _ _ _ H) as [junk ->]. rewrite <- app_assoc. now apply rd_app. Qed.

Lemma key_at_spec n a b ps leaf k : node_ok n (a ++ b) ps leaf ->
  key_at n (zlen a) k = Some (match b with x :: _ => x =? k | [] => false end).
Proof.
  intros H. unfold key_at. rewrite (ok_num _ _ _ _ H). destruct b as [|x b].
  - rewrite app_nil_r. now rewrite Z.ltb_irrefl.
  - rewrite (proj2 (Z.ltb_lt _ _)) by len. now rewrite (rd_key _ _ _ _ _ _ H).
Qed.

(** ** Subtrees *)

Lemma wf_leaf T : wf 0 T -> exists l n ks, T = Nd l n ks [] /\ node_ok n ks [] true /\ zlen ks <= MAX_KEYS.
Proof. destruct T as [l n ks cs]. intros (H1 & H2 & ->). eauto 8. Qed.

Lemma wf_node d T : wf (S d) T -> exists l n ks cs, T = Nd l n ks cs /\ node_ok n ks (List.map root cs) false /\ zlen ks <= MAX_KEYS /\
  length cs = S (length ks) /\ Forall (fun c => wf d c /\ MIN_KEYS - 1 <= zlen (tkeys c)) cs.
Proof. destruct T as [l n ks cs]. intros (H1 & H2 & H3 & H4). exists l, n, ks, cs. auto. Qed.

(** The subtree at a position. *)
Lemma split_children {X} (cs : list X) i : (i < length cs)%nat -> exists cs1 c cs2, cs = cs1 ++ c :: cs2 /\ length cs1 = i.
Proof.
  intros H. destruct (lookup_lt_is_Some_2 cs i H) as [c Hc]. exists (take i cs), c, (drop (S i) cs).
  split; [symmetry; now apply take_drop_middle|]. rewrite length_take. lia.
Qed.

Lemma elems_child l n ks1 ks2 cs1 c cs2 : length cs1 = length ks1 ->
  elems (Nd l n (ks1 ++ ks2) (cs1 ++ c :: cs2)) =
  weave (List.map elems cs1) ks1 ++ elems c ++ weave ([] :: List.map elems cs2) ks2.
Proof. intros H. cbn [elems]. rewrite List.map_app. cbn [List.map]. apply weave_child. len. Qed.

(** The keys before and after the subtree where a key that is not in the node belongs. *)
Lemma around_child (cs1 cs2 : list ltree) e ks1 ks2 k :
  length cs1 = length ks1 -> length cs2 = length ks2 ->
  sorted (weave (List.map elems cs1) ks1 ++ e ++ weave ([] :: List.map elems cs2) ks2) ->
  Forall (fun x => x < k) ks1 -> at_most_next k ks2 -> match ks2 with x :: _ => x <> k | [] => True end ->
  Forall (fun x => x < k) (weave (List.map elems cs1) ks1) /\ Forall (Z.lt k) (weave ([] :: List.map elems cs2) ks2) /\ sorted e.
Proof.
  intros L1 L2 (H1 & H2 & _)%sorted_app Hlt Hle Hne. apply sorted_app in H2 as (H2 & H3 & _).
  split; [|split; [|exact H2]].
  - apply weave_below; [left; len|exact H1|exact Hlt].
  - apply weave_above; [left; len|exact H3|]. destruct ks2 as [|x ks2]; [exact I|]. cbn in *. lia.
Qed.

(** A key of the node is in the tree. *)
Lemma memb_node cs1 a k b cs2 : length cs1 = S (length a) -> memb k (weave (cs1 ++ cs2) (a ++ k :: b)) = true.
Proof. intros H. rewrite weave_middle by exact H. apply memb_In, in_or_app. right. now left. Qed.

Lemma cells_child l n ks cs1 c cs2 x : x ∈ cells c -> x ∈ cells (Nd l n ks (cs1 ++ c :: cs2)).
Proof.
  intros H. cbn. right. rewrite flat_map_app. cbn. apply elem_of_app. right. apply elem_of_app. now left.
Qed.

(** ** Find *)

Section Find.
Context (k : Z).

(** The node that holds the key, if there is one. *)
Definition found_in (L : list (positive * node)) (T : ltree) (p : ptr) : Prop :=
  match p with
  | None => memb k (elems T) = false
  | Some l => memb k (elems T) = true /\ exists n, (l, n) ∈ L /\ In k (take (Z.to_nat (num_keys n)) (keys n))
  end.

Lemma ends_find d : forall T fuel h L, wf d T -> sorted (elems T) -> (d < fuel)%nat -> owns h L -> (forall x, x ∈ cells T -> x ∈ L) ->
  ends (node_find fuel (root T) k) (fun p h' => h' = h /\ found_in L T p) h.
Proof.
  assert (Hit : forall l n a b ps leaf (L : list (positive * node)), node_ok n (a ++ k :: b) ps leaf -> (l, n) ∈ L ->
    exists n, (l, n) ∈ L /\ In k (take (Z.to_nat (num_keys n)) (keys n))).
  { intros l n a b ps leaf L H HL. exists n. split; [exact HL|]. destruct (ok_keys _ _ _ _ H) as [junk ->].
    rewrite (ok_num _ _ _ _ H), Nat2Z.id, take_app_length. apply in_or_app. right. now left. }
  induction d as [|d IH]; intros T [|fuel] h L HW HS Hf HO HL; try lia; cbn [node_find].
  - destruct (wf_leaf _ HW) as (l & n & ks & -> & HN & _). cbn [root].
    apply ends_bind, (ends_deref _ _ _ n _ HO); [apply HL; cbn; left|].
    destruct (findKey_spec _ _ _ _ k HN) as (a & b & -> & EF & Ha & Hb). apply ends_bind, (ends_lift _ _ _ _ EF).
    apply ends_bind, (ends_lift _ _ _ _ (key_at_spec _ _ _ _ _ k HN)). rewrite (ok_leaf _ _ _ _ HN).
    cbn [elems List.map] in *. rewrite weave_leaf in HS. unfold found_in. cbn [elems List.map]. rewrite weave_leaf.
    destruct b as [|x b]; [|destruct (Z.eqb_spec x k) as [->|Hx]].
    + apply ends_ret. split; [reflexivity|]. rewrite app_nil_r. now apply memb_below.
    + apply ends_ret. split; [reflexivity|]. split; [apply memb_In, in_or_app; right; now left|]. apply (Hit l n a b [] true L HN), HL. left.
    + apply ends_ret. split; [reflexivity|]. apply sorted_app in HS as (_ & HS & _). cbn in Hb. rewrite memb_app, (memb_below _ _ Ha).
      apply memb_above, sorted_above; [exact HS|lia].
  - destruct (wf_node _ _ HW) as (l & n & ks & cs & -> & HN & _ & HC & HF). cbn [root].
    apply ends_bind, (ends_deref _ _ _ n _ HO); [apply HL; cbn; left|].
    destruct (findKey_spec _ _ _ _ k HN) as (a & b & -> & EF & Ha & Hb). apply ends_bind, (ends_lift _ _ _ _ EF).
    apply ends_bind, (ends_lift _ _ _ _ (key_at_spec _ _ _ _ _ k HN)). rewrite (ok_leaf _ _ _ _ HN).
    destruct (split_children cs (length a)) as (cs1 & c & cs2 & -> & L1); [len|]. assert (L2 : length cs2 = length b) by len.
    assert (HX : match b with x :: _ => x =? k | [] => false end = true ->
      ends (mret (Some l)) (fun p h' => h' = h /\ found_in L (Nd l n (a ++ b) (cs1 ++ c :: cs2)) p) h).
    { destruct b as [|x b]; [discriminate|]. intros ->%Z.eqb_eq. apply ends_ret. split; [reflexivity|]. split; [|apply (Hit l n a b _ _ L HN), HL; left].
      cbn [elems]. rewrite List.map_app. cbn [List.map]. rewrite (cons_middle (elems c)), app_assoc. apply memb_node. len. }
    destruct (match b with x :: _ => x =? k | [] => false end) eqn:C; [now apply HX|]. clear HX.
    rewrite List.map_app in HN. cbn [List.map] in HN. apply ends_bind, (ends_lift _ (root c)).
    { rewrite <- L1. replace (length cs1) with (length (List.map root cs1)) by len. exact (rd_child _ _ _ _ _ HN). }
    rewrite elems_child in HS by exact L1.
    destruct (around_child cs1 cs2 (elems c) a b k L1 L2 HS Ha Hb) as (Hbelow & Habove & HSc).
    { destruct b as [|x b]; [exact I|]. now apply Z.eqb_neq in C. }
    apply Forall_app in HF as [_ HF]. apply Forall_cons in HF as [[HWc _] _].
    eapply ends_mono; [apply (IH c fuel h L HWc HSc); [lia|exact HO|intros x Hx; apply HL; now apply cells_child]|].
    intros p h' [-> HP]. split; [reflexivity|]. unfold found_in in *. rewrite elems_child by exact L1.
    now rewrite (memb_between k _ _ _ Hbelow Habove).
Qed.
End Find.
