(* ===== verification/BtreeInsert.v ===== *)
(** * Insertion into a B-tree

    [splitChild], [insertNonFull] and [insert]: the tree stays a B-tree and its keys become
    those with the new one.  The memory after a node, which [splitChild] reads, does not
    matter. *)

From S2P Require Import Prelude Arrays Btree BtreeSearch.
From stdpp Require Import base option list gmap.
#[local] Open Scope Z_scope.

(** Permutations of lists of objects. *)
Ltac cells_perm := cbn [cells flat_map]; rewrite ?flat_map_app; cbn [cells flat_map]; solve_Permutation.

Lemma cut {X} (a : list X) n : (n <= length a)%nat -> exists b c, a = b ++ c /\ length b = n.
Proof. intros H. exists (take n a), (drop n a). split; [symmetry; apply take_drop|]. rewrite length_take. lia. Qed.

Lemma u32_small x : 0 <= x < 2 ^ 32 -> u32 x = x.
Proof. apply Z.mod_small. Qed.

(** Nothing is left over in arrays that are full. *)
Lemma full_keys n ks ps leaf : node_ok n ks ps leaf -> zlen ks = MAX_KEYS -> keys n = ks.
Proof.
  intros H HF. destruct (ok_keys _ _ _ _ H) as [junk HK]. pose proof (ok_keys_len _ _ _ _ H) as L. rewrite HK in L.
  destruct junk; [now rewrite app_nil_r in HK|len].
Qed.

Lemma full_children n ks ps : node_ok n ks ps false -> zlen ps = MAX_CHILDREN -> children n = ps.
Proof.
  intros H HF. destruct (ok_children _ _ _ _ H) as [junk HK]. pose proof (ok_children_len _ _ _ _ H) as L. rewrite HK in L.
  destruct junk; [now rewrite app_nil_r in HK|len].
Qed.

(** Room for one more. *)
Lemma free_key n ks ps leaf : node_ok n ks ps leaf -> zlen ks < MAX_KEYS -> exists junk x, keys n = ks ++ junk ++ [x].
Proof.
  intros H HF. destruct (ok_keys _ _ _ _ H) as [junk HK]. pose proof (ok_keys_len _ _ _ _ H) as L. rewrite HK in L.
  destruct (split_last junk) as (j & x & ->); [len|eauto].
Qed.

Lemma free_child n ks ps : node_ok n ks ps false -> zlen ps < MAX_CHILDREN -> exists junk x, children n = ps ++ junk ++ [x].
Proof.
  intros H HF. destruct (ok_children _ _ _ _ H) as [junk HK]. pose proof (ok_children_len _ _ _ _ H) as L. rewrite HK in L.
  destruct (split_last junk) as (j & x & ->); [len|eauto].
Qed.

(** An insertion into an array that has room. *)
Lemma insert_array {X} (arr a b junk : list X) x y i n : arr = a ++ b ++ junk ++ [x] ->
  i = zlen a -> n = zlen b + zlen junk -> exists arr', memmove arr (i + 1) arr i n = Some arr' /\ wr arr' i y = Some (a ++ y :: b ++ junk).
Proof.
  intros -> -> ->. destruct (memmove_up a (b ++ junk) x (zlen a) (zlen b + zlen junk) eq_refl) as [z E]; [len|].
  rewrite <- app_assoc in E. eexists. split; [exact E|]. now apply wr_app.
Qed.

Section Insert.
Context `{NewAddressOk node} (past_end : ptr -> store node -> nat -> ptr).

(** ** Splitting a full child *)

(** The upper half goes to a new node. *)
Lemma ends_split_node (Q : unit -> store node -> Prop) (k : ptr -> prog node unit) lc nc x m y csl csr (leaf : bool) h R :
  node_ok nc (x ++ m :: y) (List.map root (csl ++ csr)) leaf ->
  zlen x = MIN_KEYS - 1 -> zlen y = MIN_KEYS - 1 ->
  (if leaf then csl = [] /\ csr = [] else zlen csl = MIN_KEYS /\ zlen csr = MIN_KEYS) ->
  owns h ((lc, nc) :: R) ->
  (forall z nz h', node_ok nz y (List.map root csr) leaf ->
     node_ok (set_num (MIN_KEYS - 1) nc) x (List.map root csl) leaf ->
     owns h' ((lc, set_num (MIN_KEYS - 1) nc) :: (z, nz) :: R) -> ends (k (Some z)) Q h') ->
  ends (z ← new_object (new_node nc.(is_leaf));
        modify z (set_num (MIN_KEYS - 1));;
        zn ← deref z; ks ← lift (memmove zn.(keys) 0 nc.(keys) MIN_KEYS (MIN_KEYS - 1)); modify z (set_keys ks);;
        (if nc.(is_leaf) then mret tt else
           w ← beyond past_end (Some lc);
           zn ← deref z; cs ← lift (memmove zn.(children) 0 (nc.(children) ++ w) MIN_KEYS MAX_KEYS); modify z (set_children cs));;
        modify (Some lc) (set_num (MIN_KEYS - 1));; k z) Q h.
Proof.
  intros HN Lx Ly Lc HO HQ. pose proof (full_keys _ _ _ _ HN) as HK. unfold MAX_KEYS, MAX_CHILDREN, MIN_KEYS in *.
  assert (HK' : keys nc = (x ++ [m]) ++ y ++ []) by (rewrite HK by len; now rewrite app_nil_r, <- app_assoc). clear HK.
  rewrite (ok_leaf _ _ _ _ HN). apply ends_bind, (ends_new _ _ _ _ HO). intros z h1 H1. apply ends_bind, (ends_modify _ _ _ _ _ _ H1). intros h2 H2.
  apply ends_bind, (ends_deref_first _ _ _ _ _ H2). rewrite HK'.
  set (zn := set_num (64 - 1) (new_node leaf)) in *. assert (LK : length (keys zn) = 127%nat) by (cbn [zn keys set_num new_node]; apply repeat_length).
  destruct (cut (keys zn) 63) as (za & zb & EZ & LZ); [lia|].
  apply ends_bind, (ends_lift _ (y ++ zb)).
  { rewrite EZ. exact (memmove_app [] za zb (x ++ [m]) y [] 0 64 63 eq_refl ltac:(lia) ltac:(len) ltac:(len)). }
  apply ends_bind, (ends_modify _ _ _ _ _ _ H2). intros h3 H3. set (zn' := set_keys _ zn) in *.
  assert (HE : zlen (y ++ zb) = 127) by (rewrite EZ in LK; len).
  assert (HNc : node_ok (set_num (64 - 1) nc) x (List.map root csl) leaf).
  { destruct HN as [? ? ? ? _ HC]. constructor; auto; cbn [set_num num_keys keys children is_leaf].
    - exists (m :: y). rewrite HK', app_nil_r, <- app_assoc. reflexivity.
    - destruct leaf; [exact HC|]. destruct HC as [junk HC]. rewrite List.map_app, <- app_assoc in HC. eauto. }
  assert (HB : ends (if leaf then mret tt else
           w ← beyond past_end (Some lc);
           zn ← deref (Some z); cs ← lift (memmove zn.(children) 0 (nc.(children) ++ w) 64 (2 * 64 - 1)); modify (Some z) (set_children cs))
           (fun _ h4 => exists nz, node_ok nz y (List.map root csr) leaf /\ owns h4 ((z, nz) :: (lc, nc) :: R)) h3).
  { destruct leaf.
    - destruct Lc as [-> ->]. apply ends_ret. exists zn'. split; [|exact H3].
      constructor; try reflexivity; [cbn [zn' set_keys num_keys zn set_num new_node]; lia|exact HE|now exists zb].
    - destruct Lc as [L1 L2]. pose proof (full_children _ _ _ HN) as HC. rewrite List.map_app in HC.
      unfold MAX_CHILDREN, MIN_KEYS in HC. apply ends_bind. unfold ends, beyond. set (w := List.map _ _).
      assert (LW : length w = 63%nat) by (unfold w; rewrite length_map, length_seq; reflexivity).
      apply (ends_bind (deref (Some z))), (ends_deref_first _ _ _ _ _ H3).
      assert (LC : length (children zn') = 128%nat) by (cbn [zn' zn set_keys set_num children new_node]; apply repeat_length).
      destruct (cut (children zn') 127) as (ca & cb & EC & LCa); [lia|].
      apply ends_bind, (ends_lift _ (List.map root csr ++ w ++ cb)).
      { rewrite EC, HC by len. rewrite <- app_assoc, (app_assoc (List.map root csr) w cb). rewrite <- (app_nil_r (List.map root csr ++ w)) at 1.
        apply (memmove_app [] ca cb); len. }
      apply (ends_modify _ _ _ _ _ _ H3). intros h4 H4. eexists. split; [|exact H4].
      constructor; [reflexivity|cbn [set_children zn' set_keys num_keys zn set_num new_node]; lia|exact HE| |now exists zb|now exists (w ++ cb)].
      cbn [set_children children]. rewrite EC in LC. unfold MAX_CHILDREN, MIN_KEYS. len. }
  eapply ends_seq; [exact HB|]. intros [] h4 (nz & Hz & H4).
  assert (H4' : owns h4 ((lc, nc) :: (z, nz) :: R)) by (eapply owns_perm; [exact H4|apply Permutation_swap]).
  apply ends_bind, (ends_modify _ _ _ _ _ _ H4'). intros h5 H5. exact (HQ z nz h5 Hz HNc H5).
Qed.

(** The middle of a full node. *)
Lemma full_node d l n ks cs : wf d (Nd l n ks cs) -> zlen ks = MAX_KEYS -> exists x m y csl csr,
  ks = x ++ m :: y /\ cs = csl ++ csr /\ zlen x = MIN_KEYS - 1 /\ zlen y = MIN_KEYS - 1 /\
  (if (d =? 0)%nat then csl = [] /\ csr = [] else zlen csl = MIN_KEYS /\ zlen csr = MIN_KEYS) /\
  weave (List.map elems cs) ks = weave (List.map elems csl) x ++ m :: weave (List.map elems csr) y.
Proof.
  intros (_ & _ & HC)%wf_parts HF. unfold MAX_KEYS, MIN_KEYS in *.
  destruct (cut ks 63) as (x & [|m y] & -> & Lx); [lia|len|]. destruct d as [|d].
  - subst cs. exists x, m, y, [], []. cbn [Nat.eqb List.map]. rewrite !weave_leaf. repeat split; len.
  - destruct HC as [LC _]. destruct (cut cs 64) as (csl & csr & -> & Lc); [len|]. exists x, m, y, csl, csr.
    repeat split; try len. rewrite List.map_app. apply weave_middle. len.
Qed.

(** The halves of a node. *)
Lemma wf_half d l n ks cs l' n' ks' cs' : wf d (Nd l n ks cs) -> node_ok n' ks' (List.map root cs') (d =? 0)%nat -> zlen ks' <= MAX_KEYS ->
  (if (d =? 0)%nat then cs' = [] else length cs' = S (length ks')) -> (forall c, c ∈ cs' -> c ∈ cs) -> wf d (Nd l' n' ks' cs').
Proof.
  intros (_ & _ & HW)%wf_parts HN HL Hlen Hin. apply wf_parts. split; [exact HN|]. split; [exact HL|]. destruct d as [|d]; [exact Hlen|]. destruct HW as [_ HF].
  split; [exact Hlen|]. apply Forall_forall. intros c Hc. rewrite Forall_forall in HF. auto.
Qed.

Lemma ends_splitChild d lp np a b cs1 c cs2 h R (Q : unit -> store node -> Prop) :
  node_ok np (a ++ b) (List.map root (cs1 ++ c :: cs2)) false -> length cs1 = length a -> length cs2 = length b ->
  zlen (a ++ b) < MAX_KEYS -> wf d c -> zlen (tkeys c) = MAX_KEYS -> owns h ((lp, np) :: cells c ++ R) ->
  (forall m c1 c2 np' h', tkeys c !! Z.to_nat (MIN_KEYS - 1) = Some m -> node_ok np' (a ++ m :: b) (List.map root (cs1 ++ c1 :: c2 :: cs2)) false ->
     wf d c1 -> wf d c2 -> zlen (tkeys c1) = MIN_KEYS - 1 -> zlen (tkeys c2) = MIN_KEYS - 1 ->
     elems c = elems c1 ++ m :: elems c2 -> owns h' ((lp, np') :: cells c1 ++ cells c2 ++ R) -> Q tt h') ->
  ends (splitChild past_end (Some lp) (zlen a) (root c)) Q h.
Proof.
  destruct c as [lc nc ks cs]. cbn [tkeys root]. intros HP L1 L2 HR HW HF HO HQ. pose proof (proj1 (wf_parts _ _ _ _ _) HW) as (HN & _ & _).
  destruct (full_node _ _ _ _ _ HW HF) as (x & m & y & csl & csr & -> & -> & Lx & Ly & Lc & HE).
  assert (HO' : owns h ((lc, nc) :: (lp, np) :: flat_map cells csl ++ flat_map cells csr ++ R)).
  { eapply owns_perm; [exact HO|]. cells_perm. }
  unfold splitChild. apply ends_bind, (ends_deref_first _ _ _ _ _ HO').
  apply (ends_split_node _ _ lc nc x m y csl csr (d =? 0)%nat h _ HN Lx Ly Lc HO'). intros z nz h1 Hz Hc H1.
  assert (H1' : owns h1 ((lp, np) :: (lc, set_num (MIN_KEYS - 1) nc) :: (z, nz) :: flat_map cells csl ++ flat_map cells csr ++ R)).
  { eapply owns_perm; [exact H1|]. cells_perm. }
  apply ends_bind, (ends_deref_first _ _ _ _ _ H1'). rewrite List.map_app in HP. cbn [List.map root] in HP.
  unfold MAX_KEYS, MAX_CHILDREN, MIN_KEYS in *.
  destruct (free_child _ _ _ HP) as (jc & xc & EC); [unfold MAX_CHILDREN, MIN_KEYS; len|].
  destruct (free_key _ _ _ _ HP) as (jk & xk & EK); [unfold MAX_KEYS, MIN_KEYS; len|].
  pose proof (ok_children_len _ _ _ _ HP) as LC. pose proof (ok_keys_len _ _ _ _ HP) as LK. unfold MAX_KEYS, MAX_CHILDREN, MIN_KEYS in LC, LK.
  destruct (insert_array (children np) (List.map root cs1 ++ [Some lc]) (List.map root cs2) jc xc (Some z) (zlen a + 1) (2 * 64 - zlen a - 2)) as (ac & E1 & E2).
  { rewrite EC, <- !app_assoc. reflexivity. } { len. } { rewrite EC in LC. len. }
  destruct (insert_array (keys np) a b jk xk m (zlen a) (2 * 64 - 1 - zlen a - 1)) as (ak & E3 & E4).
  { rewrite EK, <- !app_assoc. reflexivity. } { reflexivity. } { rewrite EK in LK. len. }
  rewrite (u32_small (_ - _ - 2)), (u32_small (_ - _ - 1)) by len.
  replace (zlen a + 2) with (zlen a + 1 + 1) by lia. apply ends_bind, (ends_lift _ _ _ _ E1), ends_bind, (ends_lift _ _ _ _ E2), ends_bind, (ends_lift _ _ _ _ E3).
  apply ends_bind, (ends_deref _ _ _ (set_num (64 - 1) nc) _ H1'); [right; left|].
  apply ends_bind, (ends_lift _ m).
  { cbn [set_num keys]. rewrite (full_keys _ _ _ _ HN) by (unfold MAX_KEYS, MIN_KEYS; len). apply rd_app. lia. }
  apply ends_bind, (ends_lift _ _ _ _ E4), (ends_assign _ _ _ _ _ _ H1'). intros h2 H2.
  rewrite (ok_num _ _ _ _ HP), u32_small in H2 by len.
  set (np' := mk_node _ _ _ _) in H2. apply (HQ m (Nd lc (set_num (64 - 1) nc) x csl) (Nd z nz y csr) np' h2); cbn [tkeys elems]; auto.
  - change (Z.to_nat (64 - 1)) with 63%nat. replace 63%nat with (length x) by lia. now apply list_lookup_middle.
  - unfold np'. constructor; cbn [num_keys keys children is_leaf].
    + exact (ok_leaf _ _ _ _ HP).
    + len.
    + rewrite EK in LK. unfold MAX_KEYS, MIN_KEYS. len.
    + rewrite EC in LC. unfold MAX_CHILDREN, MIN_KEYS. len.
    + exists jk. now rewrite <- app_assoc.
    + exists jc. rewrite List.map_app. cbn [List.map root]. now rewrite <- !app_assoc.
  - apply (wf_half d lc nc (x ++ m :: y) (csl ++ csr)); auto; [unfold MAX_KEYS, MIN_KEYS; lia| |intros c Hin; apply elem_of_app; now left].
    destruct (d =? 0)%nat; [apply Lc|lia].
  - apply (wf_half d lc nc (x ++ m :: y) (csl ++ csr)); auto; [unfold MAX_KEYS, MIN_KEYS; lia| |intros c Hin; apply elem_of_app; now right].
    destruct (d =? 0)%nat; [apply Lc|lia].
  - eapply owns_perm; [exact H2|]. cells_perm.
Qed.

(** ** Insertion *)

Lemma insert_loop_key n k fuel : forall i j r, key_loop fuel n k i = Some j -> key_at n j k = Some r -> insert_loop fuel n k i = Some (j, r).
Proof.
  unfold key_at. induction fuel as [|fuel IH]; intros i j r; cbn [key_loop insert_loop]; destruct (i <? num_keys n) eqn:C;
    try (intros [= <-]; rewrite C; intros [= <-]; reflexivity); destruct (rd (keys n) i) as [x|] eqn:Ex; try discriminate;
    destruct (x <? k); try discriminate; [|apply IH|]; intros [= <-]; rewrite C, Ex; intros [= <-]; now rewrite Z.eqb_sym.
Qed.

Section Key.
Context (k : Z).

(** What an insertion leaves in place of the tree [T]. *)
Definition inserted (d : nat) (T : ltree) (R : list (positive * node)) (r : bool) (h' : store node) : Prop :=
  exists T', root T' = root T /\ wf d T' /\ elems T' = add k (elems T) /\ zlen (tkeys T) <= zlen (tkeys T') /\
    r = negb (memb k (elems T)) /\ owns h' (cells T' ++ R).

Lemma inserted_present d T T' R h' : root T' = root T -> wf d T' -> elems T' = elems T -> zlen (tkeys T) <= zlen (tkeys T') ->
  sorted (elems T) -> memb k (elems T) = true -> owns h' (cells T' ++ R) -> inserted d T R false h'.
Proof. intros H1 H2 H3 H4 Hs Hm HO. exists T'. rewrite add_present, Hm by assumption. auto 8. Qed.

(** The child where the key belongs is not full. *)
Lemma insert_descend d l n a b cs1 c cs2 fuel h R :
  wf (S d) (Nd l n (a ++ b) (cs1 ++ c :: cs2)) -> length cs1 = length a -> sorted (elems (Nd l n (a ++ b) (cs1 ++ c :: cs2))) ->
  Forall (fun x => x < k) a -> at_most_next k b -> match b with x :: _ => x <> k | [] => True end ->
  (forall R, owns h (cells c ++ R) -> ends (insertNonFull past_end fuel (root c) k) (inserted d c R) h) ->
  owns h (cells (Nd l n (a ++ b) (cs1 ++ c :: cs2)) ++ R) ->
  ends (insertNonFull past_end fuel (root c) k) (inserted (S d) (Nd l n (a ++ b) (cs1 ++ c :: cs2)) R) h.
Proof.
  intros HW L1 HS Ha Hb Hne IH HO. apply wf_parts in HW as (HN & HL & LC & HF). assert (L2 : length cs2 = length b) by len.
  rewrite elems_child in HS by exact L1. destruct (around_child cs1 cs2 (elems c) a b k L1 L2 HS Ha Hb Hne) as (Hbelow & Habove & HSc).
  eapply ends_mono; [apply (IH ((l, n) :: flat_map cells cs1 ++ flat_map cells cs2 ++ R))|].
  { eapply owns_perm; [exact HO|]. cells_perm. }
  intros r h' (c' & Hr & HW' & HE & HK & -> & HO'). exists (Nd l n (a ++ b) (cs1 ++ c' :: cs2)). split; [reflexivity|].
  apply Forall_app in HF as [HF1 HF]. apply Forall_cons in HF as [[HWc HKc] HF2]. split; [|split; [|split; [|split]]].
  - apply wf_parts. split; [|split; [exact HL|split; [len|]]].
    + rewrite List.map_app in *. cbn [List.map] in *. now rewrite Hr.
    + apply Forall_app. split; [exact HF1|]. constructor; [split; [exact HW'|lia]|exact HF2].
  - rewrite !elems_child, HE by exact L1. symmetry. now apply add_between.
  - reflexivity.
  - rewrite elems_child by exact L1. now rewrite memb_between.
  - eapply owns_perm; [exact HO'|]. cells_perm.
Qed.

(** A leaf that has room. *)
Lemma insert_leaf l n a b h R : node_ok n (a ++ b) [] true -> zlen (a ++ b) < MAX_KEYS -> sorted (a ++ b) ->
  Forall (fun x => x < k) a -> at_most_next k b -> match b with x :: _ => x <> k | [] => True end ->
  owns h ((l, n) :: R) ->
  ends (ks ← lift (memmove n.(keys) (zlen a + 1) n.(keys) (zlen a) (u32 (MAX_KEYS - zlen a - 1)));
        ks ← lift (wr ks (zlen a) k);
        assign (Some l) (mk_node ks n.(children) (u32 (n.(num_keys) + 1)) true);;
        mret true) (inserted 0 (Nd l n (a ++ b) []) R) h.
Proof.
  intros HN HL HS Ha Hb Hne HO. destruct (free_key _ _ _ _ HN HL) as (j & x & EK). pose proof (ok_keys_len _ _ _ _ HN) as LK.
  unfold MAX_KEYS, MIN_KEYS in *.
  destruct (insert_array (keys n) a b j x k (zlen a) (2 * 64 - 1 - zlen a - 1)) as (ak & E1 & E2).
  { rewrite EK, <- !app_assoc. reflexivity. } { reflexivity. } { rewrite EK in LK. len. }
  rewrite (u32_small (_ - _ - 1)) by len. apply ends_bind, (ends_lift _ _ _ _ E1), ends_bind, (ends_lift _ _ _ _ E2), ends_bind, (ends_assign _ _ _ _ _ _ HO).
  intros h1 H1. apply ends_ret. rewrite (ok_num _ _ _ _ HN), u32_small in H1 by len. set (n' := mk_node _ _ _ _) in H1.
  assert (Hab : Forall (Z.lt k) b).
  { destruct b as [|y b]; [constructor|]. apply sorted_app in HS as (_ & HS & _). apply sorted_above; [exact HS|]. cbn in Hb. lia. }
  exists (Nd l n' (a ++ k :: b) []). cbn [root tkeys elems List.map]. rewrite !weave_leaf.
  split; [reflexivity|]. split; [apply wf_parts; split; [|split; [|reflexivity]]|split; [|split; [|split]]].
  - unfold n'. constructor; cbn [num_keys keys children is_leaf]; try apply HN; try reflexivity.
    + len.
    + rewrite EK in LK. unfold MAX_KEYS, MIN_KEYS. len.
    + exists j. now rewrite <- app_assoc.
  - unfold MAX_KEYS, MIN_KEYS. len.
  - symmetry. now apply add_here.
  - len.
  - rewrite memb_app, (memb_below _ _ Ha), (memb_above _ _ Hab). reflexivity.
  - exact H1.
Qed.

(** A child at a position. *)
Lemma rd_child_at n a b cs1 c cs2 : node_ok n (a ++ b) (List.map root (cs1 ++ c :: cs2)) false -> length cs1 = length a ->
  rd (children n) (zlen a) = Some (root c).
Proof.
  intros HN L1. rewrite List.map_app in HN. cbn [List.map] in HN. rewrite <- L1.
  replace (length cs1) with (length (List.map root cs1)) by len. exact (rd_child _ _ _ _ _ HN).
Qed.

(** The child where the key belongs is full and is split first. *)
Lemma insert_split d l n a b cs1 c cs2 fuel h R :
  (forall T h R, wf d T -> sorted (elems T) -> zlen (tkeys T) < MAX_KEYS -> owns h (cells T ++ R) ->
     ends (insertNonFull past_end fuel (root T) k) (inserted d T R) h) ->
  wf (S d) (Nd l n (a ++ b) (cs1 ++ c :: cs2)) -> length cs1 = length a -> sorted (elems (Nd l n (a ++ b) (cs1 ++ c :: cs2))) ->
  zlen (a ++ b) < MAX_KEYS -> zlen (tkeys c) = MAX_KEYS ->
  Forall (fun x => x < k) a -> at_most_next k b -> match b with x :: _ => x <> k | [] => True end ->
  owns h (cells (Nd l n (a ++ b) (cs1 ++ c :: cs2)) ++ R) ->
  ends (splitChild past_end (Some l) (zlen a) (root c);;
        n ← deref (Some l);
        x ← lift (rd n.(keys) (zlen a));
        if x =? k then mret false else
        c ← lift (rd n.(children) (if x <? k then zlen a + 1 else zlen a));
        insertNonFull past_end fuel c k) (inserted (S d) (Nd l n (a ++ b) (cs1 ++ c :: cs2)) R) h.
Proof.
  intros IH HW L1 HS HL Hfull Ha Hb Hne HO. pose proof (proj1 (wf_parts _ _ _ _ _) HW) as (HN & _ & HC & HF).
  assert (L2 : length cs2 = length b) by len. apply Forall_app in HF as [HF1 HF']. apply Forall_cons in HF' as [[HWc HKc] HF2].
  apply ends_bind, (ends_splitChild d l n a b cs1 c cs2 h (flat_map cells cs1 ++ flat_map cells cs2 ++ R)); auto.
  { eapply owns_perm; [exact HO|]. cells_perm. }
  intros m c1 c2 n' h1 _ HN' W1 W2 K1 K2 EE H1.
  assert (HO1 : owns h1 (cells (Nd l n' (a ++ m :: b) (cs1 ++ c1 :: c2 :: cs2)) ++ R)).
  { eapply owns_perm; [exact H1|]. cells_perm. }
  assert (HW1 : wf (S d) (Nd l n' (a ++ m :: b) (cs1 ++ c1 :: c2 :: cs2))).
  { apply wf_parts. split; [exact HN'|]. split; [len|]. split; [len|]. apply Forall_app. split; [exact HF1|]. repeat constructor; auto; lia. }
  assert (HE1 : elems (Nd l n' (a ++ m :: b) (cs1 ++ c1 :: c2 :: cs2)) = elems (Nd l n (a ++ b) (cs1 ++ c :: cs2))).
  { rewrite !elems_child by exact L1. cbn [List.map weave hd tl app]. rewrite EE, (weave_first (elems c2)), <- !app_assoc. reflexivity. }
  apply ends_bind, (ends_deref_first _ _ l n' _ HO1), ends_bind, (ends_lift _ _ _ _ (rd_key _ _ _ _ _ _ HN')).
  set (T1 := Nd l n' (a ++ m :: b) (cs1 ++ c1 :: c2 :: cs2)) in *. rewrite <- HE1 in HS.
  assert (Main : forall r h', inserted (S d) T1 R r h' -> inserted (S d) (Nd l n (a ++ b) (cs1 ++ c :: cs2)) R r h').
  { intros r h' (T' & E1 & E2 & E3 & E4 & E5 & E6). exists T'. rewrite HE1 in *. cbn [tkeys root T1] in *.
    split; [exact E1|]. split; [exact E2|]. split; [exact E3|]. split; [len|]. now split. }
  assert (HS1 : sorted (elems c1) /\ sorted (elems c2)).
  { unfold T1 in HS. rewrite elems_child in HS by exact L1. cbn [List.map weave hd tl app] in HS. rewrite (weave_first (elems c2)) in HS.
    apply sorted_app in HS as (_ & HS & _). apply sorted_app in HS as (HS1 & HS & _). split; [exact HS1|].
    apply sorted_tail in HS. now apply sorted_app in HS as (HS & _). }
  destruct (Z.eqb_spec m k) as [->|Hmk].
  { apply ends_ret, Main, (inserted_present (S d) T1 T1); auto; [reflexivity|]. unfold T1. cbn [elems]. rewrite List.map_app. cbn [List.map].
    rewrite (cons_middle (elems c1)), app_assoc. apply memb_node. len. }
  unfold MAX_KEYS, MIN_KEYS in *. destruct (Z.ltb_spec m k) as [Hlt|Hge].
  * assert (ET : T1 = Nd l n' ((a ++ [m]) ++ b) ((cs1 ++ [c1]) ++ c2 :: cs2)) by (unfold T1; now rewrite <- !app_assoc).
    assert (L1' : length (cs1 ++ [c1]) = length (a ++ [m])) by len. rewrite ET in *. pose proof (proj1 (wf_parts _ _ _ _ _) HW1) as (HN1 & _).
    apply ends_bind, (ends_lift _ (root c2)).
    { replace (zlen a + 1) with (zlen (a ++ [m])) by len. exact (rd_child_at _ _ _ _ _ _ HN1 L1'). }
    eapply ends_mono; [|exact Main]. apply insert_descend; auto.
    { apply Forall_app. split; [exact Ha|]. now repeat constructor. }
    intros R' HO'. apply (IH c2 h1 R' W2); [apply HS1|unfold MAX_KEYS, MIN_KEYS; lia|exact HO'].
  * pose proof (proj1 (wf_parts _ _ _ _ _) HW1) as (HN1 & _). apply ends_bind, (ends_lift _ _ _ _ (rd_child_at _ _ _ _ _ _ HN1 L1)).
    eapply ends_mono; [|exact Main]. apply insert_descend; auto.
    intros R' HO'. apply (IH c1 h1 R' W1); [apply HS1|unfold MAX_KEYS, MIN_KEYS; lia|exact HO'].
Qed.

Lemma ends_insertNonFull d : forall T fuel h R, wf d T -> sorted (elems T) -> zlen (tkeys T) < MAX_KEYS -> (d < fuel)%nat ->
  owns h (cells T ++ R) -> ends (insertNonFull past_end fuel (root T) k) (inserted d T R) h.
Proof.
  induction d as [|d IH]; intros T [|fuel] h R HW HS HL Hf HO; try lia; cbn [insertNonFull].
  - destruct (wf_leaf _ HW) as (l & n & ks & -> & HN & _). cbn [root cells flat_map app tkeys] in *.
    apply ends_bind, (ends_deref_first _ _ _ _ _ HO). destruct (findKey_spec _ _ _ _ k HN) as (a & b & -> & EF & Ha & Hb).
    pose proof (key_at_spec _ _ _ _ _ k HN) as EK. apply ends_bind, (ends_lift _ _ _ _ (insert_loop_key _ _ _ _ _ _ EF EK)). cbn [fst snd].
    cbn [elems List.map] in HS. rewrite weave_leaf in HS. rewrite (ok_leaf _ _ _ _ HN).
    destruct (match b with x :: _ => x =? k | [] => false end) eqn:C.
    + destruct b as [|x b]; [discriminate|]. apply Z.eqb_eq in C. subst x. apply ends_ret.
      apply (inserted_present 0 _ (Nd l n (a ++ k :: b) [])); cbn [elems List.map]; rewrite ?weave_leaf; auto; [lia|].
      apply memb_In, in_or_app. right. now left.
    + apply (insert_leaf l n a b h R HN HL HS Ha Hb); [|exact HO]. destruct b; [exact I|]. now apply Z.eqb_neq in C.
  - destruct (wf_node _ _ HW) as (l & n & ks & cs & -> & HN & _ & HC & HF). cbn [root tkeys] in *.
    apply ends_bind, (ends_deref_first _ _ l n _ HO). destruct (findKey_spec _ _ _ _ k HN) as (a & b & -> & EF & Ha & Hb).
    pose proof (key_at_spec _ _ _ _ _ k HN) as EK. apply ends_bind, (ends_lift _ _ _ _ (insert_loop_key _ _ _ _ _ _ EF EK)). cbn [fst snd].
    rewrite (ok_leaf _ _ _ _ HN).
    destruct (split_children cs (length a)) as (cs1 & c & cs2 & -> & L1); [len|]. assert (L2 : length cs2 = length b) by len.
    destruct (match b with x :: _ => x =? k | [] => false end) eqn:C.
    { destruct b as [|x b]; [discriminate|]. apply Z.eqb_eq in C. subst x. apply ends_ret.
      apply (inserted_present (S d) _ (Nd l n (a ++ k :: b) (cs1 ++ c :: cs2))); auto; [lia|].
      cbn [elems]. rewrite List.map_app. cbn [List.map]. rewrite (cons_middle (elems c)), app_assoc. apply memb_node. len. }
    assert (Hne : match b with x :: _ => x <> k | [] => True end) by (destruct b; [exact I|now apply Z.eqb_neq in C]). clear C EF EK.
    apply ends_bind, (ends_lift _ _ _ _ (rd_child_at _ _ _ _ _ _ HN L1)).
    pose proof (proj1 (Forall_app _ _ _) HF) as [HF1 HF']. apply Forall_cons in HF' as [[HWc HKc] HF2].
    destruct c as [lc nc kc ccs] eqn:Ec. rewrite <- Ec in *.
    assert (HOc : owns h ((lc, nc) :: (l, n) :: flat_map cells ccs ++ flat_map cells cs1 ++ flat_map cells cs2 ++ R)).
    { eapply owns_perm; [exact HO|]. subst c. cells_perm. }
    assert (HNc : num_keys nc = zlen (tkeys c)) by (subst c; apply wf_parts in HWc as (HNc & _); exact (ok_num _ _ _ _ HNc)).
    assert (HLc : zlen (tkeys c) <= MAX_KEYS) by (subst c; now apply wf_parts in HWc as (_ & HLc & _)).
    assert (Erc : root c = Some lc) by now subst c. rewrite Erc. apply ends_bind, (ends_deref_first _ _ lc nc _ HOc).
    rewrite HNc, <- Erc. destruct (Z.eqb_spec (zlen (tkeys c)) MAX_KEYS) as [Hfull|Hroom].
    + eapply insert_split; eauto. intros T h' R' ? ? ? HO'. apply (IH T fuel h' R'); auto. lia.
    + eapply insert_descend; eauto. intros R' HO'. apply (IH c fuel h R' HWc); [|lia|lia|exact HO'].
      rewrite elems_child in HS by exact L1. now apply (around_child cs1 cs2 (elems c) a b k L1 L2 HS Ha Hb Hne).
Qed.
End Key.
End Insert.
