(* ===== verification/BtreeTree.v ===== *)
(** * B-trees and their insertion

    A B-tree object is a pointer to its root, or null.  Here are its height, [find] and
    [insert] at the root, and what [insert] does with the key in the middle of a full root. *)

From S2P Require Import Prelude Arrays Btree BtreeSearch BtreeInsert.
From stdpp Require Import base option list gmap.
#[local] Open Scope Z_scope.

(** ** Trees that may be empty *)

Definition oroot (o : option ltree) : ptr := match o with Some T => root T | None => None end.
Definition ocells (o : option ltree) : list (positive * node) := match o with Some T => cells T | None => [] end.
Definition oelems (o : option ltree) : list Z := match o with Some T => elems T | None => [] end.

(** A B-tree of some height whose keys are in increasing order; only an empty tree has no keys. *)
Definition btree_ok (o : option ltree) : Prop :=
  match o with
  | None => True
  | Some T => exists d, wf d T /\ sorted (elems T) /\ 1 <= zlen (tkeys T)
  end.

(** ** Height *)

Lemma weave_length B cs : forall ks, length cs = S (length ks) -> 0 <= B -> Forall (fun c => B <= zlen c) cs ->
  (zlen ks + 1) * (B + 1) <= zlen (weave cs ks) + 1.
Proof.
  induction cs as [|c cs IH]; intros [|k ks] HL HB HF; try discriminate; apply Forall_cons in HF as [H1 H2].
  - destruct cs; [|discriminate]. cbn. lia.
  - cbn [weave hd tl]. specialize (IH ks ltac:(cbn in HL; lia) HB H2). len.
Qed.

Lemma node_size d : forall T, wf d T -> MIN_KEYS - 1 <= zlen (tkeys T) -> MIN_KEYS ^ (Z.of_nat d + 1) <= zlen (elems T) + 1.
Proof.
  assert (HM : MIN_KEYS = 64) by reflexivity. induction d as [|d IH]; intros [l n ks cs] HW HK; apply wf_parts in HW as (_ & _ & HC); cbn [elems tkeys] in *.
  - subst cs. cbn [List.map]. rewrite weave_leaf. cbn. lia.
  - destruct HC as [HL HF]. pose proof (Z.pow_pos_nonneg MIN_KEYS (Z.of_nat d + 1) ltac:(lia) ltac:(lia)) as HP.
    assert (HB : (zlen ks + 1) * (MIN_KEYS ^ (Z.of_nat d + 1) - 1 + 1) <= zlen (weave (List.map elems cs) ks) + 1).
    { apply weave_length; [len|lia|]. apply Forall_map. eapply Forall_impl; [exact HF|]. cbn. intros c [W K]. specialize (IH c W K). lia. }
    replace (Z.of_nat (S d) + 1) with (Z.of_nat d + 1 + 1) by lia. rewrite Z.pow_add_r, Z.pow_1_r by lia. nia.
Qed.

(** A tree of height [d] has at least [2 * MIN_KEYS^d - 1] keys. *)
Lemma tree_size d T : wf d T -> 1 <= zlen (tkeys T) -> 2 * MIN_KEYS ^ Z.of_nat d <= zlen (elems T) + 1.
Proof.
  assert (HM : MIN_KEYS = 64) by reflexivity. destruct T as [l n ks cs]. intros HW HK. apply wf_parts in HW as (_ & _ & HC). cbn [elems tkeys] in *.
  destruct d as [|d].
  - subst cs. cbn [List.map]. rewrite weave_leaf. cbn. lia.
  - destruct HC as [HL HF]. pose proof (Z.pow_pos_nonneg MIN_KEYS (Z.of_nat d + 1) ltac:(lia) ltac:(lia)) as HP.
    assert (HB : (zlen ks + 1) * (MIN_KEYS ^ (Z.of_nat d + 1) - 1 + 1) <= zlen (weave (List.map elems cs) ks) + 1).
    { apply weave_length; [len|lia|]. apply Forall_map. eapply Forall_impl; [exact HF|]. cbn. intros c [W K]. pose proof (node_size d c W K). lia. }
    replace (Z.of_nat (S d)) with (Z.of_nat d + 1) by lia. nia.
Qed.

(** Six levels are enough for [2^32] keys. *)
Definition levels : nat := 6.

Lemma height_bound d T : wf d T -> 1 <= zlen (tkeys T) -> zlen (elems T) <= 2 ^ 32 -> (d < levels)%nat.
Proof.
  intros HW HK HL. pose proof (tree_size d T HW HK) as H. destruct (le_lt_dec levels d) as [L|L]; [exfalso|exact L].
  assert (H6 : MIN_KEYS ^ 6 <= MIN_KEYS ^ Z.of_nat d) by (apply Z.pow_le_mono_r; [reflexivity|unfold levels in L; lia]).
  change (MIN_KEYS ^ 6) with (2 ^ 36) in H6. lia.
Qed.

(** ** Operations at the root *)

Section Root.
Context `{NewAddressOk node} (past_end : ptr -> store node -> nat -> ptr) (k : Z).

Lemma ends_btree_find o fuel h L : btree_ok o -> zlen (oelems o) <= 2 ^ 32 -> (levels <= fuel)%nat ->
  owns h L -> (forall x, x ∈ ocells o -> x ∈ L) ->
  ends (btree_find fuel (oroot o) k) (fun p h' => h' = h /\ match p with
     | None => memb k (oelems o) = false
     | Some l => memb k (oelems o) = true /\ exists n, (l, n) ∈ L /\ In k (take (Z.to_nat (num_keys n)) (keys n)) end) h.
Proof.
  destruct o as [T|]; [|intros; now apply ends_ret]. intros (d & HW & HS & HK) HL Hf HO Hin.
  pose proof (height_bound d T HW HK HL) as Hd. cbn [oroot ocells oelems] in *. destruct T as [l n ks cs].
  exact (ends_find k d (Nd l n ks cs) fuel h L HW HS ltac:(lia) HO Hin).
Qed.

(** The first key of a tree. *)
Lemma new_leaf_ok : node_ok (set_num 1 (set_keys (<[0%nat := k]> (repeat 0 (Z.to_nat MAX_KEYS))) (new_node true))) [k] [] true.
Proof.
  constructor; try reflexivity. exists (repeat 0 (Z.to_nat MAX_KEYS - 1)). reflexivity.
Qed.

(** A new root above a full one: its child is split. *)
Lemma ends_grow d T h R (Q : ptr * bool -> store node -> Prop) (fuel : nat) :
  wf d T -> zlen (tkeys T) = MAX_KEYS -> owns h (cells T ++ R) ->
  (forall s n m c1 c2 h', wf (S d) (Nd s n [m] [c1; c2]) -> wf d c1 -> wf d c2 ->
     zlen (tkeys c1) = MIN_KEYS - 1 -> zlen (tkeys c2) = MIN_KEYS - 1 ->
     tkeys T !! Z.to_nat (MIN_KEYS - 1) = Some m -> elems T = elems c1 ++ m :: elems c2 ->
     owns h' (cells (Nd s n [m] [c1; c2]) ++ R) ->
     ends (r ← insertNonFull past_end fuel (if m <? k then root c2 else root c1) k; mret (Some s, r)) Q h') ->
  ends (btree_insert past_end fuel (root T) k) Q h.
Proof.
  destruct T as [l n ks cs]. cbn [tkeys root]. intros HW HF HO HQ. pose proof (proj1 (wf_parts _ _ _ _ _) HW) as (HN & _).
  unfold btree_insert. apply ends_bind, (ends_deref_first _ _ l n _ HO). rewrite (ok_num _ _ _ _ HN), HF, Z.eqb_refl.
  apply ends_bind, (ends_new _ _ _ _ HO). intros s h1 H1. apply ends_bind, (ends_deref_first _ _ _ _ _ H1).
  apply ends_bind, (ends_lift _ (<[0%nat := Some l]> (repeat None (Z.to_nat MAX_CHILDREN)))); [reflexivity|].
  apply ends_bind, (ends_modify _ _ _ _ _ _ H1). intros h2 H2. set (sn := set_children _ _) in H2.
  assert (HS : node_ok sn ([] ++ []) (List.map root ([] ++ Nd l n ks cs :: [])) false).
  { constructor; try reflexivity; [now exists (repeat 0 (Z.to_nat MAX_KEYS))|]. exists (repeat None (Z.to_nat MAX_CHILDREN - 1)). reflexivity. }
  apply ends_bind, (ends_splitChild past_end d s sn [] [] [] (Nd l n ks cs) [] h2 R _ HS eq_refl eq_refl eq_refl HW HF H2).
  intros m c1 c2 np h3 Hm HN' W1 W2 K1 K2 HE H3. cbn [app List.map] in HN'.
  apply ends_bind, (ends_deref_first _ _ _ _ _ H3), ends_bind, (ends_lift _ _ _ _ (rd_key np [] m [] _ _ HN')).
  apply ends_bind, (ends_lift _ (if m <? k then root c2 else root c1)).
  { destruct (m <? k); [exact (rd_child np _ [root c1] _ _ HN')|exact (rd_child np _ [] _ _ HN')]. }
  apply (HQ s np m c1 c2 h3); auto.
  - apply wf_parts. split; [exact HN'|]. split; [unfold MAX_KEYS, MIN_KEYS; cbn; lia|]. split; [reflexivity|]. repeat constructor; auto; lia.
  - eapply owns_perm; [exact H3|]. cells_perm.
Qed.

Definition middle_of_full (o : option ltree) : Prop :=
  match o with Some T => zlen (tkeys T) = MAX_KEYS /\ tkeys T !! Z.to_nat (MIN_KEYS - 1) = Some k | None => False end.

Lemma ends_btree_insert o fuel h R : btree_ok o -> zlen (oelems o) <= 2 ^ 32 -> (levels <= fuel)%nat -> ~ middle_of_full o ->
  owns h (ocells o ++ R) ->
  ends (btree_insert past_end fuel (oroot o) k) (fun r h' => exists o', r.1 = oroot o' /\ btree_ok o' /\ oelems o' = add k (oelems o) /\
     r.2 = negb (memb k (oelems o)) /\ owns h' (ocells o' ++ R)) h.
Proof.
  destruct o as [T|]; intros Hok HL Hf Hmid HO.
  2: { apply ends_bind, (ends_new _ _ _ _ HO). intros l h1 H1. apply ends_bind, (ends_deref_first _ _ _ _ _ H1).
    apply ends_bind, (ends_lift _ (<[0%nat := k]> (repeat 0 (Z.to_nat MAX_KEYS)))); [reflexivity|].
    apply ends_bind, (ends_modify _ _ _ _ _ _ H1). intros h2 H2. apply ends_bind, (ends_modify _ _ _ _ _ _ H2). intros h3 H3.
    apply ends_ret. eexists (Some (Nd l _ [k] [])). split; [reflexivity|]. split; [|split; [reflexivity|split; [reflexivity|exact H3]]].
    exists 0%nat. split; [|split; [repeat constructor|cbn; lia]]. apply wf_parts. split; [exact new_leaf_ok|]. split; [unfold MAX_KEYS, MIN_KEYS; cbn; lia|reflexivity]. }
  destruct Hok as (d & HW & HS & HK). pose proof (height_bound d T HW HK HL) as Hd. cbn [oroot ocells oelems] in *.
  destruct (Z.eq_dec (zlen (tkeys T)) MAX_KEYS) as [HF|HF].
  - apply (ends_grow d T h R _ fuel HW HF HO). intros s n m c1 c2 h1 HWs W1 W2 K1 K2 Hm HE H1.
    assert (Hne : m <> k) by (intros ->; now apply Hmid). set (T1 := Nd s n [m] [c1; c2]) in *.
    assert (HE1 : elems T1 = elems T) by (rewrite HE; reflexivity). rewrite <- HE1 in HS.
    assert (HSc : sorted (elems c1) /\ sorted (elems c2)).
    { rewrite HE1, HE in HS. apply sorted_app in HS as (HS1 & HS & _). split; [exact HS1|exact (sorted_tail _ _ HS)]. }
    assert (HC : ends (insertNonFull past_end fuel (if m <? k then root c2 else root c1) k) (inserted k (S d) T1 R) h1).
    { destruct (Z.ltb_spec m k) as [L|L].
      - apply (insert_descend past_end k d s n [m] [] [c1] c2 [] fuel h1 R); auto; [now repeat constructor|].
        intros R' HO'. apply (ends_insertNonFull past_end k d c2 fuel h1 R' W2); [apply HSc|unfold MAX_KEYS; lia|lia|exact HO'].
      - apply (insert_descend past_end k d s n [] [m] [] c1 [c2] fuel h1 R); auto.
        intros R' HO'. apply (ends_insertNonFull past_end k d c1 fuel h1 R' W1); [apply HSc|unfold MAX_KEYS; lia|lia|exact HO']. }
    eapply ends_seq; [exact HC|]. intros r h2 (T' & E1 & E2 & E3 & E4 & -> & H2). apply ends_ret. exists (Some T').
    rewrite HE1 in *. split; [exact (eq_sym E1)|]. split; [|split; [exact E3|split; [reflexivity|exact H2]]].
    exists (S d). split; [exact E2|]. cbn [oelems]. rewrite E3. split; [now apply add_sorted|]. cbn in E4. lia.
  - destruct T as [l n ks cs] eqn:ET. rewrite <- ET in *. assert (HN : num_keys n = zlen (tkeys T)).
    { subst T. apply wf_parts in HW as (HN & _). exact (ok_num _ _ _ _ HN). }
    assert (HLk : zlen (tkeys T) <= MAX_KEYS) by (subst T; now apply wf_parts in HW as (_ & HLk & _)).
    assert (E : btree_insert past_end fuel (root T) k h = (r ← insertNonFull past_end fuel (root T) k; mret (root T, r)) h).
    { subst T. cbn [root btree_insert]. unfold mbind at 1, prog_bind at 1.
      assert (D : deref (Some l) h = Some (n, h)) by (unfold deref; rewrite (owns_lookup _ _ l n HO); [reflexivity|left]).
      rewrite D, HN. now rewrite (proj2 (Z.eqb_neq _ _) HF). }
    unfold ends at 1. rewrite E. apply (ends_seq (insertNonFull past_end fuel (root T) k) _ (inserted k d T R)).
    { apply ends_insertNonFull; auto; lia. }
    intros r h2 (T' & E1 & E2 & E3 & E4 & -> & H2). apply ends_ret. exists (Some T'). split; [now rewrite <- E1|].
    split; [|split; [exact E3|split; [reflexivity|exact H2]]]. exists d. split; [exact E2|]. rewrite E3. split; [now apply add_sorted|lia].
Qed.

(** The key in the middle of a full root is inserted a second time. *)
Lemma ends_insert_middle T d fuel h R : wf d T -> sorted (elems T) -> zlen (elems T) <= 2 ^ 32 -> (levels <= fuel)%nat ->
  middle_of_full (Some T) -> owns h (cells T ++ R) ->
  ends (btree_insert past_end fuel (root T) k) (fun r h' => r.2 = true /\ exists T' a b, r.1 = root T' /\ wf (S d) T' /\
     elems T = a ++ k :: b /\ elems T' = a ++ k :: k :: b /\ owns h' (cells T' ++ R)) h.
Proof.
  intros HW HS HL Hf [HF Hk] HO. assert (HK : 1 <= zlen (tkeys T)) by (rewrite HF; unfold MAX_KEYS, MIN_KEYS; lia).
  pose proof (height_bound d T HW HK HL) as Hd.
  apply (ends_grow d T h R _ fuel HW HF HO). intros s n m c1 c2 h1 HWs W1 W2 K1 K2 Hm HE H1.
  rewrite Hk in Hm. injection Hm as <-. rewrite Z.ltb_irrefl. rewrite HE in HS. apply sorted_app in HS as (HS1 & HS2 & HS).
  assert (Hb : Forall (fun x => x < k) (elems c1)) by (eapply Forall_impl; [exact HS|]; cbn; intros x Hx; now apply Forall_cons in Hx as [Hx _]).
  eapply ends_seq; [apply (ends_insertNonFull past_end k d c1 fuel h1 ((s, n) :: cells c2 ++ R) W1 HS1); [unfold MAX_KEYS; lia|lia|]|].
  { eapply owns_perm; [exact H1|]. cells_perm. }
  intros r h2 (c1' & E1 & E2 & E3 & E4 & -> & H2). apply ends_ret. cbn [fst snd]. rewrite memb_below by exact Hb. split; [reflexivity|].
  exists (Nd s n [k] [c1'; c2]), (elems c1), (elems c2). split; [reflexivity|]. split; [|split; [exact HE|split]].
  - apply wf_parts in HWs as (HN & HLs & _ & HFs). apply wf_parts. split; [cbn [List.map] in *; now rewrite E1|]. split; [exact HLs|]. split; [reflexivity|].
    repeat constructor; auto; lia.
  - cbn [elems List.map weave hd tl]. rewrite E3. rewrite <- (app_nil_r (elems c1)) at 1. rewrite add_here by (auto; constructor). now rewrite <- app_assoc.
  - eapply owns_perm; [exact H2|]. cells_perm.
Qed.
End Root.
