(* ===== verification/BtreeFill.v ===== *)
(** * Moving keys between siblings

    [borrowFromPrev], [borrowFromNext], [merge] and [fill]: the keys of the tree and their
    order stay as they are, the nodes stay within their bounds, and [merge] frees the node it
    empties. *)

From S2P Require Import Prelude Arrays Btree BtreeSearch BtreeInsert.
From stdpp Require Import base option list gmap sorting.
#[local] Open Scope Z_scope.

Ltac sizes := unfold ptr, MAX_KEYS, MAX_CHILDREN, MIN_KEYS in *; len.
Ltac fields := cbn [set_keys set_children set_num keys children num_keys is_leaf].

(** ** Nodes by their fields *)

Lemma inner_view n ks ps : node_ok n ks ps false <->
  exists jk jc, n = mk_node (ks ++ jk) (ps ++ jc) (zlen ks) false /\ zlen (ks ++ jk) = MAX_KEYS /\ zlen (ps ++ jc) = MAX_CHILDREN.
Proof.
  split.
  - intros [H1 H2 H3 H4 [jk H5] [jc H6]]. exists jk, jc. destruct n; cbn in *. subst. auto.
  - intros (jk & jc & -> & H1 & H2). constructor; cbn; eauto.
Qed.

Lemma leaf_view n ks ps : node_ok n ks ps true <->
  exists jk, n = mk_node (ks ++ jk) (repeat None (Z.to_nat MAX_CHILDREN)) (zlen ks) true /\ zlen (ks ++ jk) = MAX_KEYS.
Proof.
  split.
  - intros [H1 H2 H3 H4 [jk H5] H6]. exists jk. destruct n; cbn in *. subst. auto.
  - intros (jk & -> & H1). constructor; cbn; eauto.
Qed.

(** ** Steps on one of a few nodes *)

Section Steps.
Context {N : Type}.
Implicit Types (A B : list (positive * N)).

Lemma ends_deref_at A l n B h Q : owns h (A ++ (l, n) :: B) -> Q n h -> ends (deref (Some l)) Q h.
Proof. intros H. apply (ends_deref _ _ l n _ H). apply elem_of_app. right. left. Qed.

Lemma ends_modify_at A l n B f h (Q : unit -> store N -> Prop) : owns h (A ++ (l, n) :: B) ->
  (forall h', owns h' (A ++ (l, f n) :: B) -> Q tt h') -> ends (modify (Some l) f) Q h.
Proof.
  intros H HQ. apply (ends_modify h (A ++ B) l n).
  - eapply owns_perm; [exact H|]. symmetry. apply Permutation_middle.
  - intros h' H'. apply HQ. eapply owns_perm; [exact H'|]. apply Permutation_middle.
Qed.

Lemma ends_delete_at A l n B h (Q : unit -> store N -> Prop) : owns h (A ++ (l, n) :: B) ->
  (forall h', owns h' (A ++ B) -> Q tt h') -> ends (delete_object (Some l)) Q h.
Proof.
  intros H HQ. apply (ends_delete h (A ++ B) l n); [|exact HQ]. eapply owns_perm; [exact H|]. symmetry. apply Permutation_middle.
Qed.
End Steps.

(** The place of an object among the first ones. *)
Ltac at_node H l k :=
  lazymatch type of H with
  | owns _ ((l, ?n) :: ?B) => k (@nil (positive * node)) n B
  | owns _ (?x :: (l, ?n) :: ?B) => k [x] n B
  | owns _ (?x :: ?y :: (l, ?n) :: ?B) => k [x; y] n B
  end.

(** One step of a program on the objects listed by a hypothesis. *)
Ltac step :=
  lazymatch goal with
  | H : owns ?h _ |- ends (deref (Some ?l) ≫= _) _ ?h => at_node H l ltac:(fun A n B => apply ends_bind, (ends_deref_at A l n B h _ H)); fields
  | H : owns ?h _ |- ends (modify (Some ?l) ?f ≫= _) _ ?h =>
      at_node H l ltac:(fun A n B => apply ends_bind, (ends_modify_at A l n B f h _ H)); clear h H; intros h H; cbn [app] in H; unfold set_keys, set_children, set_num in H; cbn [keys children num_keys is_leaf] in H
  | H : owns ?h _ |- ends (modify (Some ?l) ?f) _ ?h =>
      at_node H l ltac:(fun A n B => apply (ends_modify_at A l n B f h _ H)); clear h H; intros h H; cbn [app] in H; unfold set_keys, set_children, set_num in H; cbn [keys children num_keys is_leaf] in H
  | |- ends (mret _ ≫= _) _ _ => apply ends_bind, ends_ret
  end.

(** The next value is the given one. *)
Tactic Notation "value" uconstr(v) := apply ends_bind, (ends_lift _ v).

Section Fill.
Implicit Types (cs : list ltree) (Q : unit -> store node -> Prop).

(** ** On the arrays *)

(** A full array with room for one more than the given elements. *)
Lemma room {X} (ks jk : list X) M : zlen (ks ++ jk) = M -> zlen ks < M -> exists x j, jk = x :: j.
Proof. intros H1 H2. destruct jk as [|x j]; [len|eauto]. Qed.

Lemma rd_at {X} (a b : list X) x i : i = zlen a -> rd (a ++ x :: b) i = Some x.
Proof. intros ->. now apply rd_app. Qed.

Lemma node_borrowFromPrev (leaf : bool) lp np a k b (ps1 ps2 : list ptr) ls ns lc nc sk m pss p kc psc h R Q :
  node_ok np (a ++ k :: b) (ps1 ++ Some ls :: Some lc :: ps2) false -> length ps1 = length a ->
  node_ok ns (sk ++ [m]) (pss ++ (if leaf then [] else [p])) leaf -> node_ok nc kc psc leaf ->
  (leaf = false -> zlen pss = zlen sk + 1 /\ zlen psc = zlen kc + 1) -> zlen kc < MAX_KEYS ->
  owns h ((lp, np) :: (ls, ns) :: (lc, nc) :: R) ->
  (forall np' ns' nc' h', node_ok np' (a ++ m :: b) (ps1 ++ Some ls :: Some lc :: ps2) false -> node_ok ns' sk pss leaf ->
     node_ok nc' (k :: kc) ((if leaf then [] else [p]) ++ psc) leaf -> owns h' ((lp, np') :: (ls, ns') :: (lc, nc') :: R) -> Q tt h') ->
  ends (borrowFromPrev (Some lp) (zlen a + 1)) Q h.
Proof.
  intros HP L1 Ns Nc Hps Hc H HQ. apply inner_view in HP as (jk & jc & -> & LK & LC).
  unfold borrowFromPrev. step. rewrite <- !app_assoc. cbn [app].
  value (Some lc). { rewrite (cons_middle (Some ls)), app_assoc. apply rd_at. sizes. }
  replace (zlen a + 1 - 1) with (zlen a) by lia. value (Some ls). { apply rd_at. sizes. }
  destruct leaf; [apply leaf_view in Ns as (jks & -> & LKs), Nc as (jkc & -> & LKc)
                 |apply inner_view in Ns as (jks & jcs & -> & LKs & LCs), Nc as (jkc & jcc & -> & LKc & LCc)];
    destruct (room _ _ _ LKc Hc) as (xk & jkc' & ->); step; rewrite Nat2Z.id; destruct (move_up_app kc xk jkc') as [y E].
  - value (y :: kc ++ jkc'). { exact E. } step. step. step. value k. { now apply rd_at. }
    value (k :: kc ++ jkc'). { exact (wr_app [] y _ 0 k eq_refl). } step. step. step.
    value m. { rewrite <- app_assoc, u32_small by sizes. apply rd_at. sizes. }
    value (a ++ m :: b ++ jk). { now apply wr_app. } step. step. step. rewrite !u32_small in H by sizes.
    eapply HQ; [| | |exact H]; [apply inner_view; exists jk, jc|apply leaf_view; exists (m :: jks)|apply leaf_view; exists jkc'];
      rewrite <- ?app_assoc; repeat split; f_equal; sizes.
  - value (y :: kc ++ jkc'). { exact E. } step. destruct (Hps eq_refl) as [Lps Lpc].
    destruct (room _ _ _ LCc) as (xc & jcc' & ->); [sizes|]. destruct (move_up_app psc xc jcc') as [yc Ec].
    apply ends_bind. value (yc :: psc ++ jcc'). { replace (Z.to_nat _) with (length psc) by len. exact Ec. } step. step.
    value k. { now apply rd_at. } value (k :: kc ++ jkc'). { exact (wr_app [] y _ 0 k eq_refl). } step. step.
    apply ends_bind. value p. { rewrite <- app_assoc. apply rd_at. sizes. }
    value (p :: psc ++ jcc'). { exact (wr_app [] yc _ 0 p eq_refl). } step.
    value m. { rewrite <- app_assoc, u32_small by sizes. apply rd_at. sizes. }
    value (a ++ m :: b ++ jk). { now apply wr_app. } step. step. step. rewrite !u32_small in H by sizes.
    eapply HQ; [| | |exact H]; [apply inner_view; exists jk, jc|apply inner_view; exists (m :: jks), (p :: jcs)|apply inner_view; exists jkc', jcc'];
      rewrite <- ?app_assoc; repeat split; f_equal; sizes.
Qed.

Lemma node_borrowFromNext (leaf : bool) lp np a k b (ps1 ps2 : list ptr) ls ns lc nc sk m pss p kc psc h R Q :
  node_ok np (a ++ k :: b) (ps1 ++ Some lc :: Some ls :: ps2) false -> length ps1 = length a ->
  node_ok ns (m :: sk) ((if leaf then [] else [p]) ++ pss) leaf -> node_ok nc kc psc leaf ->
  (leaf = false -> zlen pss = zlen sk + 1 /\ zlen psc = zlen kc + 1) -> zlen kc < MAX_KEYS ->
  owns h ((lp, np) :: (lc, nc) :: (ls, ns) :: R) ->
  (forall np' ns' nc' h', node_ok np' (a ++ m :: b) (ps1 ++ Some lc :: Some ls :: ps2) false -> node_ok ns' sk pss leaf ->
     node_ok nc' (kc ++ [k]) (psc ++ (if leaf then [] else [p])) leaf -> owns h' ((lp, np') :: (lc, nc') :: (ls, ns') :: R) -> Q tt h') ->
  ends (borrowFromNext (Some lp) (zlen a)) Q h.
Proof.
  intros HP L1 Ns Nc Hps Hc H HQ. apply inner_view in HP as (jk & jc & -> & LK & LC).
  unfold borrowFromNext. step. rewrite <- !app_assoc. cbn [app].
  value (Some lc). { apply rd_at. sizes. } value (Some ls). { rewrite (cons_middle (Some lc)), app_assoc. apply rd_at. sizes. }
  destruct leaf; [apply leaf_view in Ns as (jks & -> & LKs), Nc as (jkc & -> & LKc)
                 |apply inner_view in Ns as (jks & jcs & -> & LKs & LCs), Nc as (jkc & jcc & -> & LKc & LCc)];
    destruct (room _ _ _ LKc Hc) as (xk & jkc' & ->); step; (value k; [now apply rd_at|]); (value (kc ++ k :: jkc'); [now apply wr_app|]);
    step; step; destruct (move_down_app sk [] m jks 1 eq_refl) as [y E]; cbn [app] in E.
  - step. value m. { reflexivity. } value (a ++ m :: b ++ jk). { now apply wr_app. } step.
    value (sk ++ y :: jks). { replace (Z.to_nat _) with (length sk) by len. exact E. } step. step. step. step. rewrite !u32_small in H by sizes.
    eapply HQ; [| | |exact H]; [apply inner_view; exists jk, jc|apply leaf_view; exists (y :: jks)|apply leaf_view; exists jkc'];
      rewrite <- ?app_assoc; repeat split; f_equal; sizes.
  - destruct (Hps eq_refl) as [Lps Lpc]. destruct (room _ _ _ LCc) as (xc & jcc' & ->); [sizes|].
    apply ends_bind. value p. { reflexivity. } value (psc ++ p :: jcc'). { apply wr_app. lia. } step.
    value m. { reflexivity. } value (a ++ m :: b ++ jk). { now apply wr_app. } step.
    value (sk ++ y :: jks). { replace (Z.to_nat _) with (length sk) by len. exact E. } step. apply ends_bind.
    destruct (move_down_app pss [] p jcs 1 eq_refl) as [yc Ec]. value (pss ++ yc :: jcs). { replace (Z.to_nat _) with (length pss) by len. exact Ec. }
    step. step. step. rewrite !u32_small in H by sizes.
    eapply HQ; [| | |exact H]; [apply inner_view; exists jk, jc|apply inner_view; exists (y :: jks), (yc :: jcs)|apply inner_view; exists jkc', jcc'];
      rewrite <- ?app_assoc; repeat split; f_equal; sizes.
Qed.

Lemma node_merge (leaf : bool) lp np a k b (ps1 ps2 : list ptr) ls ns lc nc sk pss kc psc h R Q :
  node_ok np (a ++ k :: b) (ps1 ++ Some lc :: Some ls :: ps2) false -> length ps1 = length a -> length ps2 = length b ->
  node_ok ns sk pss leaf -> node_ok nc kc psc leaf ->
  (leaf = false -> zlen pss = zlen sk + 1 /\ zlen psc = zlen kc + 1) -> zlen kc = MIN_KEYS - 1 -> zlen sk <= MIN_KEYS - 1 ->
  owns h ((lp, np) :: (lc, nc) :: (ls, ns) :: R) ->
  (forall np' nc' h', node_ok np' (a ++ b) (ps1 ++ Some lc :: ps2) false ->
     node_ok nc' (kc ++ k :: sk) (psc ++ pss) leaf -> owns h' ((lp, np') :: (lc, nc') :: R) -> Q tt h') ->
  ends (Btree.merge (Some lp) (zlen a)) Q h.
Proof.
  intros HP L1 L2 Ns Nc Hps Hc Hs H HQ. apply inner_view in HP as (jk & jc & -> & LK & LC).
  unfold Btree.merge. step. rewrite <- !app_assoc. cbn [app].
  value (Some lc). { apply rd_at. sizes. } value (Some ls). { rewrite (cons_middle (Some lc)), app_assoc. apply rd_at. sizes. }
  replace (Z.to_nat (zlen (a ++ k :: b) - zlen a - 1)) with (length b) by len.
  destruct (move_down_app b a k jk (zlen a + 1) eq_refl) as [y E].
  destruct (move_down_app ps2 (ps1 ++ [Some lc]) (Some ls) jc (zlen a + 2)) as [yc Ec]; [sizes|]. rewrite L2, <- !app_assoc in Ec. cbn [app] in Ec.
  destruct leaf; [apply leaf_view in Ns as (jks & -> & LKs), Nc as (jkc & -> & LKc)
                 |apply inner_view in Ns as (jks & jcs & -> & LKs & LCs), Nc as (jkc & jcc & -> & LKc & LCc)];
    (destruct (room _ _ _ LKc) as (xk & jkc' & ->); [sizes|]); destruct (cut jkc' (length sk)) as (jk1 & jk2 & -> & Lj); [sizes| |sizes|];
    step; (value k; [now apply rd_at|]); (value (kc ++ k :: jk1 ++ jk2); [now apply wr_app|]);
    step; step; rewrite Nat2Z.id; (value (kc ++ k :: sk ++ jk2); [rewrite !(cons_middle k), !(app_assoc kc); apply (copy_up_app sk [] jk1); sizes|]); step.
  - step. value (a ++ b ++ y :: jk). { exact E. } step. value (ps1 ++ Some lc :: ps2 ++ yc :: jc). { exact Ec. } step. step. step.
    apply (ends_delete_at [_; _] ls _ _ _ _ H). clear h H. intros h H. cbn [app] in H. rewrite !u32_small in H by sizes.
    eapply HQ; [| |exact H]; [apply inner_view; exists (y :: jk), (yc :: jc)|apply leaf_view; exists jk2];
      rewrite <- ?app_assoc; repeat split; f_equal; sizes.
  - destruct (Hps eq_refl) as [Lps Lpc]. destruct (cut jcc (length pss)) as (jc1 & jc2 & -> & Ljc); [sizes|]. apply ends_bind.
    value (psc ++ pss ++ jc2). { replace (Z.to_nat _) with (length pss) by len. apply (copy_up_app pss [] jc1); sizes. } step.
    value (a ++ b ++ y :: jk). { exact E. } step. value (ps1 ++ Some lc :: ps2 ++ yc :: jc). { exact Ec. } step. step. step.
    apply (ends_delete_at [_; _] ls _ _ _ _ H). clear h H. intros h H. cbn [app] in H. rewrite !u32_small in H by sizes.
    eapply HQ; [| |exact H]; [apply inner_view; exists (y :: jk), (yc :: jc)|apply inner_view; exists jk2, jc2];
      rewrite <- ?app_assoc; repeat split; f_equal; sizes.
Qed.

(** ** On the trees *)

(** How many children go with the keys, and what holds of each child. *)
Definition shape (d : nat) (cs : list ltree) (ks : list Z) : Prop :=
  match d with O => cs = [] | S _ => length cs = S (length ks) end.
Definition kid (d : nat) (c : ltree) : Prop :=
  match d with O => False | S d => wf d c /\ MIN_KEYS - 1 <= zlen (tkeys c) end.

Lemma wf_kids d l n ks cs : wf d (Nd l n ks cs) <->
  node_ok n ks (List.map root cs) (d =? 0)%nat /\ zlen ks <= MAX_KEYS /\ shape d cs ks /\ Forall (kid d) cs.
Proof.
  rewrite wf_parts. destruct d as [|d]; cbn [shape kid]; [|tauto]. split; [|tauto]. intros (H1 & H2 & ->). auto.
Qed.

Lemma shape_split d cs ks1 m ks2 : shape d cs (ks1 ++ m :: ks2) -> exists cs1 cs2, cs = cs1 ++ cs2 /\ shape d cs1 ks1 /\ shape d cs2 ks2.
Proof.
  destruct d as [|d]; cbn [shape]; [intros ->; now exists [], []|]. intros H.
  destruct (cut cs (S (length ks1))) as (cs1 & cs2 & -> & L); [len|]. exists cs1, cs2. split; [reflexivity|]. split; [exact L|len].
Qed.

Lemma shape_join d cs1 ks1 k cs2 ks2 : shape d cs1 ks1 -> shape d cs2 ks2 -> shape d (cs1 ++ cs2) (ks1 ++ k :: ks2).
Proof. destruct d as [|d]; cbn [shape]; [now intros -> ->|intros; len]. Qed.

Lemma shape_one d cs : shape d cs [] -> exists p, List.map root cs = (if (d =? 0)%nat then [] else [p]).
Proof. destruct d as [|d]; cbn [shape]; [intros ->; now exists None|]. destruct cs as [|c [|]]; try discriminate. now exists (root c). Qed.

Lemma shape_zlen d cs ks : shape d cs ks -> (d =? 0)%nat = false -> zlen (List.map root cs) = zlen ks + 1.
Proof. destruct d as [|d]; [discriminate|]. cbn [shape]. intros. len. Qed.

Lemma weave_join d cs1 ks1 k cs2 ks2 : shape d cs1 ks1 -> shape d cs2 ks2 ->
  weave (List.map elems (cs1 ++ cs2)) (ks1 ++ k :: ks2) = weave (List.map elems cs1) ks1 ++ k :: weave (List.map elems cs2) ks2.
Proof.
  destruct d as [|d]; cbn [shape]; [intros -> ->; cbn [List.map app]; now rewrite !weave_leaf|].
  intros. rewrite List.map_app. apply weave_middle. len.
Qed.

Lemma ends_borrowFromPrev d lp np a k b cs1 s c cs2 h R Q :
  node_ok np (a ++ k :: b) (List.map root (cs1 ++ s :: c :: cs2)) false -> length cs1 = length a ->
  wf d s -> wf d c -> zlen (tkeys c) < MAX_KEYS -> 1 <= zlen (tkeys s) -> owns h ((lp, np) :: cells s ++ cells c ++ R) ->
  (forall m s' c' np' h', root s' = root s -> root c' = root c -> node_ok np' (a ++ m :: b) (List.map root (cs1 ++ s :: c :: cs2)) false ->
     wf d s' -> wf d c' -> zlen (tkeys s') = zlen (tkeys s) - 1 -> zlen (tkeys c') = zlen (tkeys c) + 1 -> In m (elems s) ->
     elems s' ++ m :: elems c' = elems s ++ k :: elems c -> owns h' ((lp, np') :: cells s' ++ cells c' ++ R) -> Q tt h') ->
  ends (borrowFromPrev (Some lp) (zlen a + 1)) Q h.
Proof.
  destruct s as [ls ns ks css], c as [lc nc kc csc]. cbn [tkeys root]. intros HP L1 Ws Wc Hc Hs HO HQ. rewrite List.map_app in *. cbn [List.map root] in *.
  destruct (split_last ks) as (sk & m & ->); [lia|]. apply wf_kids in Ws as (Ns & Bs & Ss & Fs), Wc as (Nc & Bc & Sc & Fc).
  destruct (shape_split _ _ _ _ _ Ss) as (cs0 & mid & -> & S0 & Sm). destruct (shape_one _ _ Sm) as [p Hp]. rewrite List.map_app, Hp in Ns.
  apply Forall_app in Fs as [F0 Fm].
  apply (node_borrowFromPrev (d =? 0)%nat lp np a k b (List.map root cs1) (List.map root cs2) ls ns lc nc sk m (List.map root cs0) p kc (List.map root csc) h (flat_map cells cs0 ++ flat_map cells mid ++ flat_map cells csc ++ R) Q HP); auto.
  { len. } { split; eapply shape_zlen; eauto. } { eapply owns_perm; [exact HO|]. cells_perm. }
  intros np' ns' nc' h' HP' Ns' Nc' HO'. rewrite <- Hp, <- List.map_app in Nc'.
  assert (EE : elems (Nd ls ns (sk ++ [m]) (cs0 ++ mid)) = weave (List.map elems cs0) sk ++ m :: weave (List.map elems mid) []) by exact (weave_join d _ _ _ _ _ S0 Sm).
  apply (HQ m (Nd ls ns' sk cs0) (Nd lc nc' (k :: kc) (mid ++ csc)) np' h'); auto; cbn [tkeys].
  - apply wf_kids. split; [exact Ns'|]. split; [len|]. auto.
  - apply wf_kids. split; [exact Nc'|]. split; [len|]. split; [exact (shape_join d _ [] k _ _ Sm Sc)|]. now apply Forall_app.
  - len.
  - len.
  - rewrite EE. apply in_or_app. right. now left.
  - rewrite EE, <- app_assoc. cbn [elems app]. f_equal. f_equal. exact (weave_join d _ [] k _ _ Sm Sc).
  - eapply owns_perm; [exact HO'|]. cells_perm.
Qed.

Lemma ends_borrowFromNext d lp np a k b cs1 c s cs2 h R Q :
  node_ok np (a ++ k :: b) (List.map root (cs1 ++ c :: s :: cs2)) false -> length cs1 = length a ->
  wf d c -> wf d s -> zlen (tkeys c) < MAX_KEYS -> 1 <= zlen (tkeys s) -> owns h ((lp, np) :: cells c ++ cells s ++ R) ->
  (forall m c' s' np' h', root c' = root c -> root s' = root s -> node_ok np' (a ++ m :: b) (List.map root (cs1 ++ c :: s :: cs2)) false ->
     wf d c' -> wf d s' -> zlen (tkeys c') = zlen (tkeys c) + 1 -> zlen (tkeys s') = zlen (tkeys s) - 1 -> In m (elems s) ->
     elems c' ++ m :: elems s' = elems c ++ k :: elems s -> owns h' ((lp, np') :: cells c' ++ cells s' ++ R) -> Q tt h') ->
  ends (borrowFromNext (Some lp) (zlen a)) Q h.
Proof.
  destruct s as [ls ns ks css], c as [lc nc kc csc]. cbn [tkeys root]. intros HP L1 Wc Ws Hc Hs HO HQ. rewrite List.map_app in *. cbn [List.map root] in *.
  destruct ks as [|m sk]; [cbn in Hs; lia|]. apply wf_kids in Ws as (Ns & Bs & Ss & Fs), Wc as (Nc & Bc & Sc & Fc).
  destruct (shape_split d css [] m sk Ss) as (mid & cs0 & -> & Sm & S0). destruct (shape_one _ _ Sm) as [p Hp]. rewrite List.map_app, Hp in Ns.
  apply Forall_app in Fs as [Fm F0].
  apply (node_borrowFromNext (d =? 0)%nat lp np a k b (List.map root cs1) (List.map root cs2) ls ns lc nc sk m (List.map root cs0) p kc (List.map root csc) h (flat_map cells cs0 ++ flat_map cells mid ++ flat_map cells csc ++ R) Q HP); auto.
  { len. } { split; eapply shape_zlen; eauto. } { eapply owns_perm; [exact HO|]. cells_perm. }
  intros np' ns' nc' h' HP' Ns' Nc' HO'. rewrite <- Hp, <- List.map_app in Nc'.
  assert (EE : elems (Nd ls ns (m :: sk) (mid ++ cs0)) = weave (List.map elems mid) [] ++ m :: weave (List.map elems cs0) sk) by exact (weave_join d _ [] _ _ _ Sm S0).
  apply (HQ m (Nd lc nc' (kc ++ [k]) (csc ++ mid)) (Nd ls ns' sk cs0) np' h'); auto; cbn [tkeys].
  - apply wf_kids. split; [exact Nc'|]. split; [len|]. split; [exact (shape_join d _ _ k _ _ Sc Sm)|]. now apply Forall_app.
  - apply wf_kids. split; [exact Ns'|]. split; [len|]. auto.
  - len.
  - len.
  - rewrite EE. apply in_or_app. right. now left.
  - rewrite EE. cbn [elems]. rewrite (weave_join d _ _ k _ _ Sc Sm), <- app_assoc. reflexivity.
  - eapply owns_perm; [exact HO'|]. cells_perm.
Qed.

Lemma ends_merge d lp np a k b cs1 c s cs2 h R Q :
  node_ok np (a ++ k :: b) (List.map root (cs1 ++ c :: s :: cs2)) false -> length cs1 = length a -> length cs2 = length b ->
  wf d c -> wf d s -> zlen (tkeys c) = MIN_KEYS - 1 -> zlen (tkeys s) <= MIN_KEYS - 1 -> owns h ((lp, np) :: cells c ++ cells s ++ R) ->
  (forall c' np' h', root c' = root c -> node_ok np' (a ++ b) (List.map root (cs1 ++ c :: cs2)) false ->
     wf d c' -> tkeys c' = tkeys c ++ k :: tkeys s -> elems c' = elems c ++ k :: elems s -> owns h' ((lp, np') :: cells c' ++ R) -> Q tt h') ->
  ends (Btree.merge (Some lp) (zlen a)) Q h.
Proof.
  destruct s as [ls ns sk css], c as [lc nc kc csc]. cbn [tkeys root]. intros HP L1 L2 Wc Ws Hc Hs HO HQ. rewrite List.map_app in *. cbn [List.map root] in *.
  apply wf_kids in Ws as (Ns & Bs & Ss & Fs), Wc as (Nc & Bc & Sc & Fc).
  apply (node_merge (d =? 0)%nat lp np a k b (List.map root cs1) (List.map root cs2) ls ns lc nc sk (List.map root css) kc (List.map root csc) h (flat_map cells csc ++ flat_map cells css ++ R) Q HP); auto.
  { len. } { len. } { split; eapply shape_zlen; eauto. } { eapply owns_perm; [exact HO|]. cells_perm. }
  intros np' nc' h' HP' Nc' HO'. rewrite <- List.map_app in Nc'.
  apply (HQ (Nd lc nc' (kc ++ k :: sk) (csc ++ css)) np' h'); auto.
  - apply wf_kids. split; [exact Nc'|]. split; [sizes|]. split; [now apply shape_join|]. now apply Forall_app.
  - now apply (weave_join d).
  - eapply owns_perm; [exact HO'|]. cells_perm.
Qed.
End Fill.

(** ** Filling a child *)

Section Child.
Context (k : Z) (d : nat) (lp : positive).
Implicit Types (T c : ltree) (cs : list ltree) (R : list (positive * node)).

Definition before (b : list Z) : Prop := match b with x :: _ => k < x | [] => True end.

(** The node and the position of the child where the key belongs. *)
Definition placed T np a b cs1 c cs2 : Prop :=
  T = Nd lp np (a ++ b) (cs1 ++ c :: cs2) /\ wf (S d) T /\ length cs1 = length a /\ Forall (fun x => x < k) a /\ before b.

(** The tree after [fill], and the index that the caller uses. *)
Definition filled T idx R (h' : store node) : Prop :=
  exists T' np a b cs1 c cs2, placed T' np a b cs1 c cs2 /\ elems T' = elems T /\ zlen (tkeys T) - 1 <= zlen (tkeys T') /\
    MIN_KEYS <= zlen (tkeys c) /\
    zlen a = (if (idx =? zlen (tkeys T)) && (zlen (tkeys T') <? idx) then idx - 1 else idx) /\ owns h' (cells T' ++ R).

Lemma placed_wf np a b cs1 c cs2 : length cs1 = length a -> wf (S d) (Nd lp np (a ++ b) (cs1 ++ c :: cs2)) ->
  node_ok np (a ++ b) (List.map root (cs1 ++ c :: cs2)) false /\ length cs2 = length b /\
  Forall (kid (S d)) cs1 /\ wf d c /\ MIN_KEYS - 1 <= zlen (tkeys c) /\ Forall (kid (S d)) cs2 /\ zlen (a ++ b) <= MAX_KEYS.
Proof.
  intros L1 (HN & HL & HS & HF)%wf_kids. cbn [shape] in HS. apply Forall_app in HF as [HF1 HF]. apply Forall_cons in HF as [[HF2 HF3] HF4].
  repeat split; auto; try apply HN. len.
Qed.

Lemma elems_two l n a m b cs1 x y cs2 : length cs1 = length a ->
  elems (Nd l n (a ++ m :: b) (cs1 ++ x :: y :: cs2)) =
  weave (List.map elems cs1) a ++ (elems x ++ m :: elems y) ++ weave ([] :: List.map elems cs2) b.
Proof. intros L. rewrite elems_child by exact L. cbn [List.map weave hd tl app]. now rewrite (weave_first (elems y)), <- app_assoc. Qed.

(** The two children and the key between them change, and the keys of the tree do not. *)
Lemma wf_two np np' a m m' b cs1 x y x' y' cs2 : length cs1 = length a -> wf (S d) (Nd lp np (a ++ m :: b) (cs1 ++ x :: y :: cs2)) ->
  node_ok np' (a ++ m' :: b) (List.map root (cs1 ++ x :: y :: cs2)) false -> root x' = root x -> root y' = root y ->
  kid (S d) x' -> kid (S d) y' -> wf (S d) (Nd lp np' (a ++ m' :: b) (cs1 ++ x' :: y' :: cs2)).
Proof.
  intros L1 (HN & HL & HS & HF)%wf_kids HN' Hx Hy Kx Ky. apply Forall_app in HF as [HF1 HF]. apply Forall_cons in HF as [_ HF]. apply Forall_cons in HF as [_ HF].
  apply wf_kids. split; [|split; [len|split; [cbn [shape] in *; len|apply Forall_app; auto]]].
  rewrite List.map_app in *. cbn [List.map] in *. now rewrite Hx, Hy.
Qed.

Lemma fill_prev T np a k0 b cs1 s c cs2 h R : placed T np (a ++ [k0]) b (cs1 ++ [s]) c cs2 -> length cs1 = length a -> sorted (elems T) ->
  zlen (tkeys c) = MIN_KEYS - 1 -> MIN_KEYS <= zlen (tkeys s) -> owns h (cells T ++ R) ->
  ends (borrowFromPrev (Some lp) (zlen (a ++ [k0]))) (fun _ => filled T (zlen (a ++ [k0])) R) h.
Proof.
  intros (-> & HW & _ & Ha & Hb) L1 HSo Hc Hs HO. rewrite <- !app_assoc in *. cbn [app] in *.
  pose proof (placed_wf np a (k0 :: b) cs1 s (c :: cs2) L1 HW) as (HN & L2 & F1 & Ws & Ks & F2 & HL). apply Forall_cons in F2 as [[Wc Kc] F2].
  replace (zlen (a ++ [k0])) with (zlen a + 1) by len.
  apply (ends_borrowFromPrev d lp np a k0 b cs1 s c cs2 h (flat_map cells cs1 ++ flat_map cells cs2 ++ R)); auto; [sizes|sizes| |].
  { eapply owns_perm; [exact HO|]. cells_perm. }
  intros m s' c' np' h' Rs Rc HN' Ws' Wc' Ls Lc Hm HE HO'.
  assert (Hmk : m < k0).
  { rewrite elems_two in HSo by exact L1. apply sorted_app in HSo as (_ & HSo & _). apply sorted_app in HSo as (HSo & _ & _).
    apply sorted_app in HSo as (_ & _ & HSo). pose proof (proj1 (List.Forall_forall _ _) HSo m Hm) as H. now apply Forall_cons in H as [H _]. }
  apply Forall_app in Ha as [Ha Hk]. apply Forall_cons in Hk as [Hk _].
  exists (Nd lp np' (a ++ m :: b) (cs1 ++ s' :: c' :: cs2)), np', (a ++ [m]), b, (cs1 ++ [s']), c', cs2. split; [|split; [|split; [|split; [|split]]]].
  - unfold placed. rewrite <- !app_assoc. split; [reflexivity|]. split.
    + apply (wf_two np np' a k0 m b cs1 s c s' c' cs2); auto; split; auto; sizes.
    + split; [len|]. split; [|exact Hb]. apply Forall_app. split; [exact Ha|]. repeat constructor. lia.
  - rewrite !elems_two by exact L1. now rewrite HE.
  - cbn [tkeys]. len.
  - lia.
  - cbn [tkeys]. rewrite (proj2 (Z.ltb_ge _ _)) by len. rewrite andb_false_r. len.
  - eapply owns_perm; [exact HO'|]. cells_perm.
Qed.

Lemma fill_next T np a k0 b cs1 c s cs2 h R : placed T np a (k0 :: b) cs1 c (s :: cs2) -> sorted (elems T) ->
  zlen (tkeys c) = MIN_KEYS - 1 -> MIN_KEYS <= zlen (tkeys s) -> owns h (cells T ++ R) ->
  ends (borrowFromNext (Some lp) (zlen a)) (fun _ => filled T (zlen a) R) h.
Proof.
  intros (-> & HW & L1 & Ha & Hb) HSo Hc Hs HO. cbn [before] in Hb.
  pose proof (placed_wf np a (k0 :: b) cs1 c (s :: cs2) L1 HW) as (HN & L2 & F1 & Wc & Kc & F2 & HL). apply Forall_cons in F2 as [[Ws Ks] F2].
  apply (ends_borrowFromNext d lp np a k0 b cs1 c s cs2 h (flat_map cells cs1 ++ flat_map cells cs2 ++ R)); auto; [sizes|sizes| |].
  { eapply owns_perm; [exact HO|]. cells_perm. }
  intros m c' s' np' h' Rc Rs HN' Wc' Ws' Lc Ls Hm HE HO'.
  assert (Hmk : k0 < m).
  { rewrite elems_two in HSo by exact L1. apply sorted_app in HSo as (_ & HSo & _). apply sorted_app in HSo as (HSo & _ & _).
    apply sorted_app in HSo as (_ & HSo & _). apply StronglySorted_inv in HSo as [_ HSo]. exact (proj1 (List.Forall_forall _ _) HSo m Hm). }
  exists (Nd lp np' (a ++ m :: b) (cs1 ++ c' :: s' :: cs2)), np', a, (m :: b), cs1, c', (s' :: cs2). split; [|split; [|split; [|split; [|split]]]].
  - split; [reflexivity|]. split; [|split; [exact L1|split; [exact Ha|cbn; lia]]].
    apply (wf_two np np' a k0 m b cs1 c s c' s' cs2); auto; split; auto; sizes.
  - rewrite !elems_two by exact L1. now rewrite HE.
  - cbn [tkeys]. len.
  - lia.
  - cbn [tkeys]. rewrite (proj2 (Z.ltb_ge _ _)) by len. now rewrite andb_false_r.
  - eapply owns_perm; [exact HO'|]. cells_perm.
Qed.

(** A merge of two children, whichever of them the key belongs to. *)
Lemma merged np a k0 b cs1 x y cs2 h R (Q : unit -> store node -> Prop) :
  wf (S d) (Nd lp np (a ++ k0 :: b) (cs1 ++ x :: y :: cs2)) -> length cs1 = length a ->
  zlen (tkeys x) = MIN_KEYS - 1 -> zlen (tkeys y) = MIN_KEYS - 1 ->
  owns h (cells (Nd lp np (a ++ k0 :: b) (cs1 ++ x :: y :: cs2)) ++ R) ->
  (forall x' np' h', wf (S d) (Nd lp np' (a ++ b) (cs1 ++ x' :: cs2)) -> zlen (tkeys x') = MAX_KEYS -> elems x' = elems x ++ k0 :: elems y ->
     elems (Nd lp np' (a ++ b) (cs1 ++ x' :: cs2)) = elems (Nd lp np (a ++ k0 :: b) (cs1 ++ x :: y :: cs2)) ->
     owns h' (cells (Nd lp np' (a ++ b) (cs1 ++ x' :: cs2)) ++ R) -> Q tt h') ->
  ends (Btree.merge (Some lp) (zlen a)) Q h.
Proof.
  intros HW L1 Kx Ky HO HQ. pose proof (placed_wf np a (k0 :: b) cs1 x (y :: cs2) L1 HW) as (HN & L2 & F1 & Wx & _ & F2 & HL). apply Forall_cons in F2 as [[Wy _] F2].
  apply (ends_merge d lp np a k0 b cs1 x y cs2 h (flat_map cells cs1 ++ flat_map cells cs2 ++ R)); auto; [lia| |].
  { eapply owns_perm; [exact HO|]. cells_perm. }
  intros x' np' h' Rx HN' Wx' Hk HE HO'. assert (Lx : zlen (tkeys x') = MAX_KEYS) by (rewrite Hk; sizes). apply (HQ x' np' h'); auto.
  - apply wf_kids. split; [|split; [len|split; [cbn [shape]; len|]]].
    + rewrite List.map_app in *. cbn [List.map] in *. now rewrite Rx.
    + apply Forall_app. split; [exact F1|]. constructor; [split; [exact Wx'|sizes]|exact F2].
  - rewrite elems_two, elems_child by exact L1. now rewrite HE.
  - eapply owns_perm; [exact HO'|]. cells_perm.
Qed.

Lemma fill_merge_next T np a k0 b cs1 c s cs2 h R : placed T np a (k0 :: b) cs1 c (s :: cs2) ->
  sorted (elems T) -> zlen (tkeys c) = MIN_KEYS - 1 -> zlen (tkeys s) = MIN_KEYS - 1 -> owns h (cells T ++ R) ->
  ends (Btree.merge (Some lp) (zlen a)) (fun _ => filled T (zlen a) R) h.
Proof.
  intros (-> & HW & L1 & Ha & Hb) HSo Kc Ks HO. apply (merged np a k0 b cs1 c s cs2 h R); auto. intros c' np' h' HW' Lc HE HT HO'.
  exists (Nd lp np' (a ++ b) (cs1 ++ c' :: cs2)), np', a, b, cs1, c', cs2. cbn [tkeys].
  split; [|split; [exact HT|split; [len|split; [sizes|split; [|exact HO']]]]].
  - split; [reflexivity|]. split; [exact HW'|]. split; [exact L1|]. split; [exact Ha|]. cbn [before] in Hb.
    destruct b as [|k1 b]; [exact I|]. rewrite elems_two in HSo by exact L1. apply sorted_app in HSo as (_ & HSo & _).
    rewrite <- app_assoc in HSo. apply sorted_app in HSo as (_ & HSo & _). cbn [app] in HSo. apply StronglySorted_inv in HSo as [_ HSo].
    apply Forall_app in HSo as [_ HSo]. cbn in HSo. apply Forall_cons in HSo as [HSo _]. cbn. lia.
  - rewrite (proj2 (Z.eqb_neq _ _)) by len. reflexivity.
Qed.

Lemma fill_merge_prev T np a k0 cs1 s c h R : placed T np (a ++ [k0]) [] (cs1 ++ [s]) c [] -> length cs1 = length a ->
  zlen (tkeys c) = MIN_KEYS - 1 -> zlen (tkeys s) = MIN_KEYS - 1 -> owns h (cells T ++ R) ->
  ends (Btree.merge (Some lp) (zlen a)) (fun _ => filled T (zlen (a ++ [k0])) R) h.
Proof.
  intros (-> & HW & _ & Ha & Hb) L1 Kc Ks HO. rewrite <- !app_assoc in *. cbn [app] in *.
  apply (merged np a k0 [] cs1 s c [] h R); auto. intros c' np' h' HW' Lc HE HT HO'.
  exists (Nd lp np' (a ++ []) (cs1 ++ [c'])), np', a, [], cs1, c', []. cbn [tkeys].
  split; [|split; [exact HT|split; [len|split; [sizes|split; [|exact HO']]]]].
  - split; [reflexivity|]. split; [exact HW'|]. split; [exact L1|]. split; [|exact I]. now apply Forall_app in Ha as [Ha _].
  - rewrite (proj2 (Z.eqb_eq _ _)), (proj2 (Z.ltb_lt _ _)) by len. cbn [andb]. len.
Qed.

(** The number of keys of a tree in the store. *)
Lemma ends_deref_root e T h L (Q : node -> store node -> Prop) : wf e T -> owns h L -> (forall x, x ∈ cells T -> x ∈ L) ->
  (forall n, num_keys n = zlen (tkeys T) -> Q n h) -> ends (deref (root T)) Q h.
Proof.
  destruct T as [l n ks cs]. intros (HN & _)%wf_kids HO HIn HQ. apply (ends_deref _ _ l n _ HO); [apply HIn; left|]. apply HQ, (ok_num _ _ _ _ HN).
Qed.

Lemma cells_in l n ks cs c R x : c ∈ cs -> x ∈ cells c -> x ∈ cells (Nd l n ks cs) ++ R.
Proof.
  intros Hc Hx. apply elem_of_app. left. cbn [cells]. right. apply list_elem_of_In, in_flat_map. exists c. now rewrite <- !list_elem_of_In.
Qed.

(** The checks after the one of the previous sibling. *)
Lemma fill_rest T np a b cs1 c cs2 h R : placed T np a b cs1 c cs2 -> sorted (elems T) -> 1 <= zlen (tkeys T) ->
  zlen (tkeys c) = MIN_KEYS - 1 -> owns h (cells T ++ R) ->
  a = [] \/ (exists a0 k0 cs0 s, a = a0 ++ [k0] /\ cs1 = cs0 ++ [s] /\ zlen (tkeys s) = MIN_KEYS - 1) ->
  ends (next ← (if zlen a =? num_keys np then mret false else
            c ← lift (rd np.(children) (zlen a + 1)); cn ← deref c; mret (MIN_KEYS <=? cn.(num_keys)));
      if next : bool then borrowFromNext (Some lp) (zlen a) else
      if zlen a =? num_keys np then Btree.merge (Some lp) (zlen a - 1) else Btree.merge (Some lp) (zlen a)) (fun _ => filled T (zlen a) R) h.
Proof.
  intros HP HSo H1 Hc HO Hprev. pose proof HP as (ET & HW & L1 & Ha & Hb). rewrite ET in HW.
  pose proof (placed_wf np a b cs1 c cs2 L1 HW) as (HN & L2 & F1 & Wc & Kc & F2 & HL).
  rewrite (ok_num _ _ _ _ HN). apply ends_bind. destruct b as [|k0 b], cs2 as [|s cs2]; try discriminate.
  - rewrite (proj2 (Z.eqb_eq (zlen a) _)) by len. apply ends_ret. subst T. cbn [tkeys] in H1.
    destruct Hprev as [->|(a0 & k0 & cs0 & s & -> & -> & Ks)]; [len|].
    replace (zlen (a0 ++ [k0]) - 1) with (zlen a0) by len. apply (fill_merge_prev _ np a0 k0 cs0 s c); auto. len.
  - rewrite (proj2 (Z.eqb_neq (zlen a) _)) by len. apply Forall_cons in F2 as [[Ws Ks] F2].
    apply ends_bind, (ends_lift _ (root s)).
    { replace (zlen a + 1) with (zlen (a ++ [k0])) by len. apply (rd_child_at _ _ b (cs1 ++ [c]) s cs2); [rewrite <- !app_assoc; exact HN|len]. }
    apply ends_bind, (ends_deref_root d s h _ _ Ws HO); [intros x; subst T; apply cells_in; apply elem_of_app; right; right; left|].
    intros n ->. apply ends_ret. destruct (Z.leb_spec MIN_KEYS (zlen (tkeys s))) as [L|L].
    + eapply fill_next; eauto.
    + eapply fill_merge_next; eauto. lia.
Qed.

Lemma ends_fill T np a b cs1 c cs2 h R : placed T np a b cs1 c cs2 -> sorted (elems T) -> 1 <= zlen (tkeys T) ->
  zlen (tkeys c) = MIN_KEYS - 1 -> owns h (cells T ++ R) ->
  ends (fill (Some lp) (zlen a)) (fun _ => filled T (zlen a) R) h.
Proof.
  intros HP HSo H1 Hc HO. pose proof HP as (ET & HW & L1 & Ha & Hb). rewrite ET in HW.
  pose proof (placed_wf np a b cs1 c cs2 L1 HW) as (HN & L2 & F1 & Wc & Kc & F2 & HL).
  assert (HO' : owns h (cells (Nd lp np (a ++ b) (cs1 ++ c :: cs2)) ++ R)) by now rewrite <- ET.
  unfold fill. apply ends_bind, (ends_deref_first _ _ lp np _ HO'), ends_bind. destruct (decide (a = [])) as [Ea|Ea].
  { rewrite (proj2 (Z.eqb_eq (zlen a) 0)) by (subst a; len). apply ends_ret. eapply fill_rest; eauto. }
  destruct (split_last a) as (a0 & k0 & Ea'); [destruct a; [done|len]|]. destruct (split_last cs1) as (cs0 & s & Ecs); [subst a; len|].
  rewrite (proj2 (Z.eqb_neq (zlen a) 0)) by (subst a; len). assert (L0 : length cs0 = length a0) by (subst a cs1; len).
  rewrite Ecs in F1. apply Forall_app in F1 as [F0 Fs]. apply Forall_cons in Fs as [[Ws Ks] _].
  apply ends_bind, (ends_lift _ (root s)).
  { replace (zlen a - 1) with (zlen a0) by (subst a; len). apply (rd_child_at _ _ (k0 :: b) cs0 s (c :: cs2)); [|exact L0].
    subst a cs1. rewrite <- !app_assoc in HN. exact HN. }
  apply ends_bind, (ends_deref_root d s h _ _ Ws HO').
  { intros x. apply cells_in. subst cs1. rewrite <- app_assoc. apply elem_of_app. right. left. }
  intros n ->. apply ends_ret. destruct (Z.leb_spec MIN_KEYS (zlen (tkeys s))) as [L|L].
  - subst a cs1. eapply fill_prev; eauto.
  - eapply fill_rest; eauto. right. exists a0, k0, cs0, s. repeat split; auto. lia.
Qed.
End Child.
