(* ===== verification/BtreeRemove.v ===== *)
(** * Removal from a B-tree

    [remove] of a node and of the tree: the keys become those without the given one, the tree
    stays a B-tree, and the nodes that become empty are freed. *)

From S2P Require Import Prelude Arrays Btree BtreeSearch BtreeInsert BtreeTree BtreeFill.
From stdpp Require Import base option list gmap sorting.
#[local] Open Scope Z_scope.

(** ** The neighbours of a key *)

Lemma ends_last_leaf d : forall T fuel h L (Q : ptr -> store node -> Prop), wf d T -> 1 <= zlen (tkeys T) -> (d < fuel)%nat ->
  owns h L -> (forall x, x ∈ cells T -> x ∈ L) ->
  (forall p n ks x e, (p, n) ∈ L -> node_ok n (ks ++ [x]) [] true -> elems T = e ++ [x] -> Q (Some p) h) ->
  ends (last_leaf fuel (root T)) Q h.
Proof.
  induction d as [|d IH]; intros T [|fuel] h L Q HW HK Hf HO HIn HQ; try lia; cbn [last_leaf].
  - destruct (wf_leaf _ HW) as (l & n & ks & -> & HN & _). cbn [root tkeys cells] in *. assert (Hl : (l, n) ∈ L) by (apply HIn; left).
    apply ends_bind, (ends_deref _ _ _ n _ HO Hl). rewrite (ok_leaf _ _ _ _ HN). destruct (split_last ks) as (ks' & x & ->); [lia|].
    apply ends_ret, (HQ l n ks' x ks'); auto. cbn [elems List.map]. apply weave_leaf.
  - destruct (wf_node _ _ HW) as (l & n & ks & cs & -> & HN & _ & HC & HF). cbn [root tkeys cells] in *.
    apply ends_bind, (ends_deref _ _ _ n _ HO); [apply HIn; left|]. rewrite (ok_leaf _ _ _ _ HN), (ok_num _ _ _ _ HN).
    destruct (split_last cs) as (cs0 & c & ->); [lia|]. assert (L0 : length cs0 = length ks) by len. rewrite <- (app_nil_r ks) in HN.
    apply ends_bind, (ends_lift _ _ _ _ (rd_child_at n ks [] cs0 c [] HN L0)). apply Forall_app in HF as [_ HF]. apply Forall_cons in HF as [[HWc HKc] _].
    apply (IH c fuel h L); auto; [sizes|lia|intros x Hx; apply HIn; rewrite flat_map_app; cbn; right; rewrite app_nil_r; apply elem_of_app; now right|].
    intros p m ks' x e Hp Hm HE. apply (HQ p m ks' x (weave (List.map elems cs0) ks ++ e)); auto.
    rewrite <- (app_nil_r ks) at 1. rewrite elems_child by exact L0. rewrite HE. cbn. now rewrite app_nil_r, app_assoc.
Qed.

Lemma ends_first_leaf d : forall T fuel h L (Q : ptr -> store node -> Prop), wf d T -> 1 <= zlen (tkeys T) -> (d < fuel)%nat ->
  owns h L -> (forall x, x ∈ cells T -> x ∈ L) ->
  (forall p n ks x e, (p, n) ∈ L -> node_ok n (x :: ks) [] true -> elems T = x :: e -> Q (Some p) h) ->
  ends (first_leaf fuel (root T)) Q h.
Proof.
  induction d as [|d IH]; intros T [|fuel] h L Q HW HK Hf HO HIn HQ; try lia; cbn [first_leaf].
  - destruct (wf_leaf _ HW) as (l & n & ks & -> & HN & _). cbn [root tkeys cells] in *. assert (Hl : (l, n) ∈ L) by (apply HIn; left).
    apply ends_bind, (ends_deref _ _ _ n _ HO Hl). rewrite (ok_leaf _ _ _ _ HN). destruct ks as [|x ks]; [len|].
    apply ends_ret, (HQ l n ks x ks); auto. cbn [elems List.map]. apply weave_leaf.
  - destruct (wf_node _ _ HW) as (l & n & ks & cs & -> & HN & _ & HC & HF). cbn [root tkeys cells] in *.
    apply ends_bind, (ends_deref _ _ _ n _ HO); [apply HIn; left|]. rewrite (ok_leaf _ _ _ _ HN).
    destruct cs as [|c cs]; [discriminate|].
    apply ends_bind, (ends_lift _ _ _ _ (rd_child_at n [] ks [] c cs HN eq_refl)). apply Forall_cons in HF as [[HWc HKc] _].
    apply (IH c fuel h L); auto; [sizes|lia|intros x Hx; apply HIn; right; apply elem_of_app; now left|].
    intros p m ks' x e Hp Hm HE. eapply (HQ p m ks' x); auto.
    change (Nd l n ks (c :: cs)) with (Nd l n ([] ++ ks) ([] ++ c :: cs)). rewrite elems_child by reflexivity. rewrite HE. reflexivity.
Qed.

Section Neighbours.
Context (d : nat) (l : positive) (n : node) (a : list Z) (k : Z) (b : list Z) (cs1 : list ltree) (x y : ltree) (cs2 : list ltree).
Context (HW : wf (S d) (Nd l n (a ++ k :: b) (cs1 ++ x :: y :: cs2))) (L1 : length cs1 = length a).

Lemma two_children : node_ok n (a ++ k :: b) (List.map root (cs1 ++ x :: y :: cs2)) false /\ length cs2 = length b /\
  wf d x /\ wf d y /\ MIN_KEYS - 1 <= zlen (tkeys x) /\ MIN_KEYS - 1 <= zlen (tkeys y) /\
  rd (children n) (zlen a) = Some (root x) /\ rd (children n) (zlen a + 1) = Some (root y).
Proof.
  destruct (placed_wf d l n a (k :: b) cs1 x (y :: cs2) L1 HW) as (HN & L2 & F1 & Wx & Kx & F2 & HL). apply Forall_cons in F2 as [[Wy Ky] F2].
  split; [exact HN|]. split; [len|]. split; [exact Wx|]. split; [exact Wy|]. split; [exact Kx|]. split; [exact Ky|].
  split; [exact (rd_child_at _ _ _ _ _ _ HN L1)|]. replace (zlen a + 1) with (zlen (a ++ [k])) by len.
  apply (rd_child_at _ _ b (cs1 ++ [x]) y cs2); [rewrite <- !app_assoc; exact HN|len].
Qed.

Context (fuel : nat) (h : store node) (R : list (positive * node)) (Hf : (d < fuel)%nat)
  (HO : owns h (cells (Nd l n (a ++ k :: b) (cs1 ++ x :: y :: cs2)) ++ R)).

Lemma ends_getPred : ends (getPred fuel (Some l) (zlen a)) (fun p h' => h' = h /\ exists e, elems x = e ++ [p]) h.
Proof.
  destruct two_children as (HN & L2 & Wx & Wy & Kx & Ky & Rx & Ry). unfold getPred.
  apply ends_bind, (ends_deref_first _ _ l n _ HO), ends_bind, (ends_lift _ _ _ _ Rx), ends_bind.
  apply (ends_last_leaf d x fuel h _ _ Wx ltac:(sizes) Hf HO); [intros c; apply cells_in; apply elem_of_app; right; left|].
  intros p m ks z e Hp Hm HE. apply ends_bind, (ends_deref _ _ p m _ HO Hp). pose proof (ok_keys_len _ _ _ _ Hm) as LK.
  destruct (ok_keys _ _ _ _ Hm) as [junk HK]. rewrite (ok_num _ _ _ _ Hm), HK in *.
  apply (ends_lift _ z); [|eauto]. rewrite u32_small by sizes. rewrite <- app_assoc. apply rd_app. len.
Qed.

Lemma ends_getSucc : ends (getSucc fuel (Some l) (zlen a)) (fun s h' => h' = h /\ exists e, elems y = s :: e) h.
Proof.
  destruct two_children as (HN & L2 & Wx & Wy & Kx & Ky & Rx & Ry). unfold getSucc.
  apply ends_bind, (ends_deref_first _ _ l n _ HO), ends_bind, (ends_lift _ _ _ _ Ry), ends_bind.
  apply (ends_first_leaf d y fuel h _ _ Wy ltac:(sizes) Hf HO); [intros c; apply cells_in; apply elem_of_app; right; right; left|].
  intros p m ks z e Hp Hm HE. apply ends_bind, (ends_deref _ _ p m _ HO Hp).
  destruct (ok_keys _ _ _ _ Hm) as [junk HK]. rewrite HK. apply (ends_lift _ z); [reflexivity|eauto].
Qed.
End Neighbours.

(** The keys of a node are in order when those of the tree are. *)
Lemma weave_keys : forall ks cs, sorted (weave cs ks) -> sorted ks.
Proof.
  induction ks as [|k ks IH]; intros cs HS; [constructor|]. cbn [weave] in HS. apply sorted_app in HS as (_ & HS & _).
  apply StronglySorted_inv in HS as [HS HF]. constructor; [exact (IH _ HS)|]. apply List.Forall_forall. intros z Hz.
  apply (proj1 (List.Forall_forall _ _) HF). clear -Hz. revert cs. induction ks as [|y ks IH]; [destruct Hz|]. intros cs. cbn [weave].
  apply in_or_app. right. cbn. destruct Hz as [->|Hz]; [now left|]. destruct (tl cs) as [|c cs']; right; apply (IH Hz).
Qed.

(** ** Removing a key *)

(** What a removal leaves in place of the tree; the result is true for every inner node. *)
Definition removed (d : nat) (k : Z) (T : ltree) (R : list (positive * node)) (r : bool) (h' : store node) : Prop :=
  exists T', root T' = root T /\ wf d T' /\ elems T' = without k (elems T) /\ zlen (tkeys T) - 1 <= zlen (tkeys T') /\
    r = memb k (elems T) || negb (d =? 0)%nat /\ owns h' (cells T' ++ R).

Lemma remove_leaf k l n a b h R : node_ok n (a ++ k :: b) [] true -> zlen (a ++ k :: b) <= MAX_KEYS -> sorted (a ++ k :: b) ->
  owns h ((l, n) :: R) -> ends (removeFromLeaf (Some l) (zlen a);; mret true) (removed 0 k (Nd l n (a ++ k :: b) []) R) h.
Proof.
  intros HN HL HS HO. unfold removeFromLeaf. apply ends_bind, ends_bind, (ends_deref_first _ _ _ _ _ HO).
  apply leaf_view in HN as (jk & -> & LK). fields. destruct (memmove_down a k (b ++ jk) (zlen a) (MAX_KEYS - zlen a - 1) eq_refl) as [y E]; [sizes|].
  apply ends_bind, (ends_lift _ ((a ++ b) ++ jk ++ [y])).
  { rewrite u32_small by sizes. rewrite <- !app_assoc in *. exact E. }
  apply (ends_assign _ _ _ _ _ _ HO). intros h1 H1. apply ends_ret.
  eexists (Nd l _ (a ++ b) []). split; [reflexivity|]. split; [|split; [|split; [|split; [|exact H1]]]].
  - apply wf_kids. split; [|split; [sizes|split; [reflexivity|constructor]]]. apply leaf_view. exists (jk ++ [y]). split; [f_equal; rewrite u32_small by sizes; len|sizes].
  - cbn [elems List.map]. rewrite !weave_leaf. symmetry. now apply without_sorted.
  - cbn [tkeys]. len.
  - cbn [elems List.map]. rewrite weave_leaf. symmetry. apply orb_true_iff. left. apply memb_In, in_or_app. right. now left.
Qed.

(** A key of a node is between those before and after it. *)
Lemma key_around k l n a b cs1 x y cs2 : length cs1 = length a -> sorted (elems (Nd l n (a ++ k :: b) (cs1 ++ x :: y :: cs2))) ->
  Forall (fun z => z < k) a /\ before k b.
Proof.
  intros L1 HS. assert (HK : sorted (a ++ k :: b)).
  { cbn [elems] in HS. revert HS. apply weave_keys. }
  apply sorted_around in HK as [Ha Hb]. split; [exact Ha|]. destruct b; [exact I|]. now apply Forall_cons in Hb as [Hb _].
Qed.

Section Remove.
Context (d fuel : nat) (rem : ptr -> Z -> prog node bool).
(** What the calls on the children do. *)
Context (rem_ok : forall T k h R, wf d T -> sorted (elems T) -> 1 <= zlen (tkeys T) -> owns h (cells T ++ R) ->
  ends (rem (root T) k) (removed d k T R) h).

(** The key belongs to a child that has keys to spare. *)
Lemma remove_descend k lp T np a b cs1 c cs2 h R : placed k d lp T np a b cs1 c cs2 -> sorted (elems T) -> MIN_KEYS <= zlen (tkeys c) ->
  owns h (cells T ++ R) ->
  ends (rem (root c) k) (fun _ h' => exists T', root T' = root T /\ wf (S d) T' /\ elems T' = without k (elems T) /\
    zlen (tkeys T') = zlen (tkeys T) /\ owns h' (cells T' ++ R)) h.
Proof.
  intros (-> & HW & L1 & Ha & Hb) HS HK HO. destruct (placed_wf d lp np a b cs1 c cs2 L1 HW) as (HN & L2 & F1 & Wc & Kc & F2 & HL).
  rewrite elems_child in HS by exact L1. destruct (around_child cs1 cs2 (elems c) a b k L1 L2 HS Ha) as (Hbelow & Habove & HSc).
  { destruct b; cbn in *; [exact I|lia]. } { destruct b; cbn in *; [exact I|lia]. }
  eapply ends_mono; [apply (rem_ok c k h ((lp, np) :: flat_map cells cs1 ++ flat_map cells cs2 ++ R) Wc HSc); [sizes|]|].
  { eapply owns_perm; [exact HO|]. cells_perm. }
  intros r h' (c' & Hr & HW' & HE & HKc & _ & HO'). exists (Nd lp np (a ++ b) (cs1 ++ c' :: cs2)). split; [reflexivity|].
  split; [|split; [|split; [reflexivity|]]].
  - apply wf_kids. split; [rewrite List.map_app in *; cbn [List.map] in *; now rewrite Hr|]. split; [exact HL|]. split; [cbn [shape]; len|].
    apply Forall_app. split; [exact F1|]. constructor; [split; [exact HW'|lia]|exact F2].
  - rewrite !elems_child, HE by exact L1. symmetry. now apply without_between.
  - eapply owns_perm; [exact HO'|]. cells_perm.
Qed.

(** The key at a position is replaced. *)
Lemma ends_set_key l n a k z b ps h R (f : prog node unit) (Q : unit -> store node -> Prop) : node_ok n (a ++ k :: b) ps false ->
  owns h ((l, n) :: R) -> (forall n' h', node_ok n' (a ++ z :: b) ps false -> owns h' ((l, n') :: R) -> ends f Q h') ->
  ends (ks ← lift (wr n.(keys) (zlen a) z); modify (Some l) (set_keys ks);; f) Q h.
Proof.
  intros HN HO HQ. apply inner_view in HN as (jk & jc & -> & LK & LC). fields. rewrite <- app_assoc. cbn [app].
  apply ends_bind, (ends_lift _ (a ++ z :: b ++ jk)); [now apply wr_app|]. apply ends_bind, (ends_modify _ _ _ _ _ _ HO).
  intros h1 H1. eapply HQ; [|exact H1]. apply inner_view. exists jk, jc. unfold set_keys. cbn [keys children num_keys is_leaf].
  split; [|split; [sizes|exact LC]]. f_equal; [now rewrite <- app_assoc|len].
Qed.

Section Inner.
Context (k : Z) (l : positive) (n : node) (a b : list Z) (cs1 : list ltree) (x y : ltree) (cs2 : list ltree) (h : store node)
  (R : list (positive * node)).
#[local] Abbreviation T := (Nd l n (a ++ k :: b) (cs1 ++ x :: y :: cs2)).
Context (HW : wf (S d) T) (L1 : length cs1 = length a) (HS : sorted (elems T)) (HO : owns h (cells T ++ R)).

(** The rebuilt node. *)
Lemma removed_inner n' z x' y' h' : node_ok n' (a ++ z :: b) (List.map root (cs1 ++ x :: y :: cs2)) false ->
  root x' = root x -> root y' = root y -> kid (S d) x' -> kid (S d) y' -> elems x ++ elems y = elems x' ++ z :: elems y' ->
  owns h' (cells (Nd l n' (a ++ z :: b) (cs1 ++ x' :: y' :: cs2)) ++ R) -> removed (S d) k T R true h'.
Proof.
  intros HN Rx Ry Kx Ky HE HO'. exists (Nd l n' (a ++ z :: b) (cs1 ++ x' :: y' :: cs2)). split; [reflexivity|]. split; [|split; [|split; [|split; [|exact HO']]]].
  - exact (wf_two d l n n' a k z b cs1 x y x' y' cs2 L1 HW HN Rx Ry Kx Ky).
  - rewrite !elems_two in * by exact L1. rewrite <- HE. rewrite !(app_assoc (weave _ _)), <- !(app_assoc _ _ (weave _ _)) in *.
    cbn [app] in *. rewrite without_sorted by exact HS. now rewrite <- !app_assoc.
  - cbn [tkeys]. len.
  - cbn [negb Nat.eqb]. now rewrite orb_true_r.
Qed.

Lemma remove_pred e z : elems x = e ++ [z] -> MIN_KEYS <= zlen (tkeys x) ->
  ends (ks ← lift (wr n.(keys) (zlen a) z); modify (Some l) (set_keys ks);; rem (root x) z;; mret tt) (fun _ => removed (S d) k T R true) h.
Proof.
  intros HE HK. destruct (two_children d l n a k b cs1 x y cs2 HW L1) as (HN & L2 & Wx & Wy & Kx & Ky & Rx & Ry).
  assert (HSx : sorted (elems x)).
  { rewrite elems_two in HS by exact L1. apply sorted_app in HS as (_ & HSx & _). apply sorted_app in HSx as (HSx & _). now apply sorted_app in HSx as (HSx & _). }
  apply (ends_set_key l n a k z b _ h (flat_map cells (cs1 ++ x :: y :: cs2) ++ R) _ _ HN HO). intros n' h' HN' HO'.
  eapply ends_seq; [apply (rem_ok x z h' ((l, n') :: flat_map cells cs1 ++ cells y ++ flat_map cells cs2 ++ R) Wx HSx); [sizes|]|].
  { eapply owns_perm; [exact HO'|]. cells_perm. }
  intros r h2 (x' & Hr & HW' & HE' & HK' & _ & H2). apply ends_ret, (removed_inner n' z x' y); auto; [split; [exact HW'|lia]|split; auto| |].
  - rewrite HE', HE, without_sorted by (now rewrite <- HE). now rewrite app_nil_r, <- app_assoc.
  - eapply owns_perm; [exact H2|]. cells_perm.
Qed.

Lemma remove_succ e z : elems y = z :: e -> MIN_KEYS <= zlen (tkeys y) ->
  ends (ks ← lift (wr n.(keys) (zlen a) z); modify (Some l) (set_keys ks);; rem (root y) z;; mret tt) (fun _ => removed (S d) k T R true) h.
Proof.
  intros HE HK. destruct (two_children d l n a k b cs1 x y cs2 HW L1) as (HN & L2 & Wx & Wy & Kx & Ky & Rx & Ry).
  assert (HSy : sorted (elems y)).
  { rewrite elems_two in HS by exact L1. apply sorted_app in HS as (_ & HSx & _). apply sorted_app in HSx as (HSx & _). apply sorted_app in HSx as (_ & HSx & _). now apply sorted_tail in HSx. }
  apply (ends_set_key l n a k z b _ h (flat_map cells (cs1 ++ x :: y :: cs2) ++ R) _ _ HN HO). intros n' h' HN' HO'.
  eapply ends_seq; [apply (rem_ok y z h' ((l, n') :: flat_map cells cs1 ++ cells x ++ flat_map cells cs2 ++ R) Wy HSy); [sizes|]|].
  { eapply owns_perm; [exact HO'|]. cells_perm. }
  intros r h2 (y' & Hr & HW' & HE' & HK' & _ & H2). apply ends_ret, (removed_inner n' z x y'); auto; [split; auto|split; [exact HW'|lia]| |].
  - rewrite HE', HE in *. f_equal. f_equal. symmetry. exact (without_sorted [] z e HSy).
  - eapply owns_perm; [exact H2|]. cells_perm.
Qed.

(** The key of an inner node is replaced by a neighbour, or moves into a merged child. *)
Lemma remove_inner : (d < fuel)%nat -> ends (removeFromNonLeaf rem fuel (Some l) (zlen a);; mret true) (removed (S d) k T R) h.
Proof.
  intros Hf. destruct (two_children d l n a k b cs1 x y cs2 HW L1) as (HN & L2 & Wx & Wy & Kx & Ky & Rx & Ry).
  enough (E : ends (removeFromNonLeaf rem fuel (Some l) (zlen a)) (fun _ => removed (S d) k T R true) h)
    by (eapply ends_seq; [exact E|]; intros r h' H; now apply ends_ret).
  unfold removeFromNonLeaf. apply ends_bind, (ends_deref_first _ _ l n _ HO), ends_bind, (ends_lift _ _ _ _ (rd_key _ _ _ _ _ _ HN)).
  apply ends_bind, (ends_lift _ _ _ _ Rx), ends_bind, (ends_deref_root d x h _ _ Wx HO); [intros c; apply cells_in; apply elem_of_app; right; left|].
  intros xn ->. destruct (Z.leb_spec MIN_KEYS (zlen (tkeys x))) as [Lx|Lx].
  { eapply ends_seq; [exact (ends_getPred d l n a k b cs1 x y cs2 HW L1 fuel h R Hf HO)|]. intros z h' [-> (e & HE)]. now apply (remove_pred e). }
  apply ends_bind, (ends_lift _ _ _ _ Ry), ends_bind, (ends_deref_root d y h _ _ Wy HO); [intros c; apply cells_in; apply elem_of_app; right; right; left|].
  intros yn ->. destruct (Z.leb_spec MIN_KEYS (zlen (tkeys y))) as [Ly|Ly].
  { eapply ends_seq; [exact (ends_getSucc d l n a k b cs1 x y cs2 HW L1 fuel h R Hf HO)|]. intros z h' [-> (e & HE)]. now apply (remove_succ e). }
  apply ends_bind, (merged d l n a k b cs1 x y cs2 h R); auto; [lia|lia|]. intros x' n' h' HW' Lx' HEx HET HO'.
  apply ends_bind, (ends_deref_first _ _ l n' _ HO'). destruct (placed_wf d l n' a b cs1 x' cs2 L1 HW') as (HN' & _).
  apply ends_bind, (ends_lift _ _ _ _ (rd_child_at _ _ _ _ _ _ HN' L1)).
  assert (HP : placed k d l (Nd l n' (a ++ b) (cs1 ++ x' :: cs2)) n' a b cs1 x' cs2).
  { split; [reflexivity|]. split; [exact HW'|]. split; [exact L1|]. exact (key_around k l n a b cs1 x y cs2 L1 HS). }
  eapply ends_seq; [apply (remove_descend k l _ n' a b cs1 x' cs2 h' R HP); [now rewrite HET|sizes|exact HO']|].
  intros r h2 (T' & E1 & E2 & E3 & E4 & H2). apply ends_ret. exists T'. rewrite <- HET. cbn [tkeys negb Nat.eqb] in *. rewrite orb_true_r.
  split; [exact E1|]. split; [exact E2|]. split; [exact E3|]. split; [len|]. split; [reflexivity|exact H2].
Qed.
End Inner.
End Remove.

(** The child is filled first when it has only the least number of keys. *)
Lemma ends_prepare k d lp T np a b cs1 c cs2 h R : placed k d lp T np a b cs1 c cs2 -> sorted (elems T) -> 1 <= zlen (tkeys T) ->
  MIN_KEYS - 1 <= zlen (tkeys c) -> owns h (cells T ++ R) ->
  ends (if zlen (tkeys c) <? MIN_KEYS then fill (Some lp) (zlen a) else mret tt) (fun _ => filled k d lp T (zlen a) R) h.
Proof.
  intros HP HS H1 HK HO. destruct (Z.ltb_spec (zlen (tkeys c)) MIN_KEYS) as [L|L].
  - apply (ends_fill k d lp T np a b cs1 c cs2); auto. lia.
  - apply ends_ret. exists T, np, a, b, cs1, c, cs2. split; [exact HP|]. split; [reflexivity|]. split; [lia|]. split; [exact L|].
    split; [|exact HO]. destruct (Z.eqb_spec (zlen a) (zlen (tkeys T))) as [E|]; [|reflexivity]. now rewrite (proj2 (Z.ltb_ge _ _)) by lia.
Qed.

Lemma ends_node_remove d : forall fuel T k h R, (d < fuel)%nat -> wf d T -> sorted (elems T) -> 1 <= zlen (tkeys T) ->
  owns h (cells T ++ R) -> ends (node_remove fuel (root T) k) (removed d k T R) h.
Proof.
  induction d as [|d IH]; intros [|fuel] T k h R Hf HW HS H1 HO; try lia; cbn [node_remove].
  - destruct (wf_leaf _ HW) as (l & n & ks & -> & HN & HL). cbn [root cells flat_map app tkeys] in *.
    apply ends_bind, (ends_deref_first _ _ _ _ _ HO). destruct (findKey_spec _ _ _ _ k HN) as (a & b & -> & EF & Ha & Hb).
    apply ends_bind, (ends_lift _ _ _ _ EF), ends_bind, (ends_lift _ _ _ _ (key_at_spec _ _ _ _ _ k HN)).
    cbn [elems List.map] in HS. rewrite weave_leaf in HS. rewrite (ok_leaf _ _ _ _ HN).
    destruct (match b with x :: _ => x =? k | [] => false end) eqn:C.
    + destruct b as [|x b]; [discriminate|]. apply Z.eqb_eq in C. subst x. now apply remove_leaf.
    + apply ends_ret. assert (Hm : memb k (a ++ b) = false).
      { rewrite memb_app, (memb_below _ _ Ha). destruct b as [|x b]; [reflexivity|]. apply Z.eqb_neq in C. cbn in Hb.
        apply sorted_app in HS as (_ & HS & _). apply memb_above, sorted_above; [exact HS|lia]. }
      exists (Nd l n (a ++ b) []). cbn [elems List.map tkeys]. rewrite weave_leaf, without_absent, Hm by exact Hm.
      split; [reflexivity|]. split; [exact HW|]. split; [reflexivity|]. split; [lia|]. split; [reflexivity|exact HO].
  - destruct (wf_node _ _ HW) as (l & n & ks & cs & ET & HN & _ & HC & HF). rewrite ET in HO |- *. cbn [root].
    apply ends_bind, (ends_deref_first _ _ l n _ HO). destruct (findKey_spec _ _ _ _ k HN) as (a & b & -> & EF & Ha & Hb).
    apply ends_bind, (ends_lift _ _ _ _ EF), ends_bind, (ends_lift _ _ _ _ (key_at_spec _ _ _ _ _ k HN)). rewrite (ok_leaf _ _ _ _ HN).
    destruct (split_children cs (length a)) as (cs1 & c & cs2 & -> & L1); [len|]. assert (L2 : length cs2 = length b) by len.
    destruct (match b with x :: _ => x =? k | [] => false end) eqn:C.
    { destruct b as [|x b]; [discriminate|]. apply Z.eqb_eq in C. subst x. destruct cs2 as [|y cs2]; [discriminate|]. subst T.
      apply (remove_inner d fuel (node_remove fuel)); auto; [|lia]. intros T k' h' R' ? ? ? HO'. apply (IH fuel T k' h' R'); auto. lia. }
    assert (HP : placed k d l T n a b cs1 c cs2).
    { split; [exact ET|]. split; [exact HW|]. split; [exact L1|]. split; [exact Ha|]. destruct b as [|x b]; [exact I|]. apply Z.eqb_neq in C. cbn in *. lia. }
    rewrite <- ET in HO |- *. rewrite ET in HW. destruct (placed_wf d l n a b cs1 c cs2 L1 HW) as (_ & _ & _ & Wc & Kc & _).
    apply ends_bind, (ends_lift _ _ _ _ (rd_child_at _ _ _ _ _ _ HN L1)).
    apply ends_bind, (ends_deref_root d c h _ _ Wc HO); [intros x; rewrite ET; apply cells_in; apply elem_of_app; right; left|]. intros cn ->.
    eapply ends_seq; [exact (ends_prepare k d l T n a b cs1 c cs2 h R HP HS H1 Kc HO)|].
    intros [] h1 (T1 & n1 & a1 & b1 & cs3 & c1 & cs4 & HP1 & HE & HK & HM & HI & HO1). pose proof HP1 as (ET1 & HW1 & L3 & _).
    assert (HO1' : owns h1 (cells (Nd l n1 (a1 ++ b1) (cs3 ++ c1 :: cs4)) ++ R)) by now rewrite <- ET1.
    rewrite ET1 in HW1. destruct (placed_wf d l n1 a1 b1 cs3 c1 cs4 L3 HW1) as (HN1 & _).
    apply ends_bind, (ends_deref_first _ _ l n1 _ HO1'), ends_bind, (ends_lift _ (root c1)).
    { rewrite (ok_num _ _ _ _ HN), (ok_num _ _ _ _ HN1). subst T T1. cbn [tkeys] in HI. rewrite <- HI. exact (rd_child_at _ _ _ _ _ _ HN1 L3). }
    rewrite <- HE in HS. eapply ends_seq; [apply (remove_descend d (node_remove fuel)) with (2 := HP1) (5 := HO1); [|exact HS|exact HM]|].
    { intros T' k' h' R' ? ? ? HO'. apply (IH fuel T' k' h' R'); auto. lia. }
    intros r h2 (T' & E1 & E2 & E3 & E4 & H2). apply ends_ret. exists T'. rewrite <- HE, E3, E4. cbn [Nat.eqb negb]. rewrite orb_true_r.
    split; [rewrite E1, ET, ET1; reflexivity|]. auto.
Qed.

(** ** Removal at the root *)

(** The result is true for every tree that is more than one node. *)
Lemma ends_btree_remove o k fuel h R : btree_ok o -> zlen (oelems o) <= 2 ^ 32 -> (levels <= fuel)%nat -> owns h (ocells o ++ R) ->
  ends (btree_remove fuel (oroot o) k) (fun r h' => exists o', r.1 = oroot o' /\ btree_ok o' /\ oelems o' = without k (oelems o) /\
     r.2 = memb k (oelems o) || (1 <? zlen (ocells o)) /\ owns h' (ocells o' ++ R)) h.
Proof.
  destruct o as [T|]; intros Hok HL Hf HO.
  2: { apply ends_ret. exists None. cbn. auto 8. }
  destruct Hok as (d & HW & HS & HK). pose proof (height_bound d T HW HK HL) as Hd. cbn [oroot ocells oelems] in *.
  assert (E : ends (ret ← node_remove fuel (root T) k; n ← deref (root T);
    if n.(num_keys) =? 0 then root' ← (if n.(is_leaf) then mret None else lift (rd n.(children) 0)); delete_object (root T);; mret (root', ret)
    else mret (root T, ret))
    (fun r h' => exists o', r.1 = oroot o' /\ btree_ok o' /\ oelems o' = without k (elems T) /\
      r.2 = memb k (elems T) || negb (d =? 0)%nat /\ owns h' (ocells o' ++ R)) h).
  { eapply ends_seq; [exact (ends_node_remove d fuel T k h R ltac:(lia) HW HS HK HO)|].
    intros r h1 (T' & E1 & E2 & E3 & E4 & -> & H1). rewrite <- E1. destruct T' as [l n ks cs]. cbn [root]. apply wf_kids in E2 as E2'.
    destruct E2' as (HN & HLk & HSh & HFk). cbn [tkeys] in E4.
    apply ends_bind, (ends_deref_first _ _ l n _ H1). rewrite (ok_num _ _ _ _ HN). destruct (Z.eqb_spec (zlen ks) 0) as [Z|NZ].
    - destruct ks; [|len]. rewrite (ok_leaf _ _ _ _ HN). destruct d as [|d]; cbn [Nat.eqb shape] in *.
      + subst cs. apply ends_bind, ends_ret, ends_bind, (ends_delete _ _ _ _ _ H1). intros h2 H2. apply ends_ret. exists None. cbn [oelems fst snd]. split; [reflexivity|]. split; [exact I|]. split; [exact E3|]. split; [reflexivity|exact H2].
      + destruct cs as [|c [|]]; try discriminate. apply Forall_cons in HFk as [[Wc Kc] _].
        apply ends_bind, (ends_lift _ _ _ _ (rd_child_at n [] [] [] c [] HN eq_refl)), ends_bind, (ends_delete _ _ _ _ _ H1).
        intros h2 H2. apply ends_ret. exists (Some c). split; [reflexivity|]. cbn [elems List.map weave hd] in E3. split; [|split; [exact E3|split; [reflexivity|]]].
        * exists d. split; [exact Wc|]. split; [rewrite E3; now apply without_is_sorted|sizes].
        * cbn [flat_map ocells] in *. rewrite app_nil_r in H2. exact H2.
    - apply ends_ret. exists (Some (Nd l n ks cs)). split; [reflexivity|]. split; [|split; [exact E3|split; [reflexivity|exact H1]]].
      exists d. split; [exact E2|]. split; [rewrite E3; now apply without_is_sorted|cbn [tkeys]; lia]. }
  destruct T as [l n ks cs]. eapply ends_mono; [exact E|]. intros r h' (o' & E1 & E2 & E3 & E4 & E5). exists o'. split; [exact E1|]. split; [exact E2|]. split; [exact E3|].
  split; [|exact E5]. etransitivity; [exact E4|]. f_equal. cbn [ocells]. apply wf_kids in HW as (_ & _ & HSh & _). destruct d as [|d]; cbn [shape cells Nat.eqb negb] in *; [now subst cs|].
  destruct cs as [|[lc nc kc cc] cs]; [discriminate|]. symmetry. apply Z.ltb_lt. cbn [flat_map cells app]. len.
Qed.
