(* ===== verification/BtreeIter.v ===== *)
(** * Walking through a B-tree

    The iterator and [traverse] give the keys of the tree in order, and [sum] adds them up. *)

From S2P Require Import Prelude Arrays Btree BtreeSearch BtreeInsert BtreeTree BtreeFill.
From stdpp Require Import base option list gmap sorting.
#[local] Open Scope Z_scope.

(** ** The iterator *)

Section Iter.
Context (h : store node) (L : list (positive * node)) (HO : owns h L).

(** An inner node on the stack, with the keys from its index on. *)
Definition frame_ok (f : ptr * Z) (rest : list Z) : Prop :=
  exists d l n a k b cs1 c cs2, f = (Some l, zlen a) /\ length cs1 = S (length a) /\ wf (S d) (Nd l n (a ++ k :: b) (cs1 ++ c :: cs2)) /\
    (S d < levels)%nat /\ (forall x, x ∈ cells (Nd l n (a ++ k :: b) (cs1 ++ c :: cs2)) -> x ∈ L) /\
    rest = k :: weave (List.map elems (c :: cs2)) b.

(** The iterator with the keys that are left: at a key of a leaf, at a key of an inner node, or done. *)
Inductive iter_ok : iterator -> list Z -> Prop :=
| at_leaf l n a k b i st rests : (l, n) ∈ L -> node_ok n (a ++ k :: b) [] true -> Forall2 frame_ok st rests ->
    iter_ok (mk_iter ((Some l, i) :: st) (Some l) (zlen a)) (k :: b ++ concat rests)
| at_inner p i rest st rests : frame_ok (p, i) rest -> Forall2 frame_ok st rests ->
    iter_ok (mk_iter ((p, i + 1) :: st) p i) (rest ++ concat rests)
| at_end p i : iter_ok (mk_iter [] p i) [].

(** Down to the first leaf. *)
Lemma ends_push_left d : forall T fuel st rests, wf d T -> 1 <= zlen (tkeys T) -> (d < fuel)%nat -> (d < levels)%nat ->
  (forall x, x ∈ cells T -> x ∈ L) -> Forall2 frame_ok st rests ->
  ends (push_left fuel st (root T)) (fun st' h' => h' = h /\ exists l, (st' = (Some l, 0) :: tl st') /\
     iter_ok (mk_iter st' (Some l) 0) (elems T ++ concat rests)) h.
Proof.
  induction d as [|d IH]; intros T [|fuel] st rests HW HK Hf Hl HIn HF; try lia; cbn [push_left].
  - destruct (wf_leaf _ HW) as (l & n & ks & -> & HN & _). cbn [root tkeys cells] in *. assert (Hin : (l, n) ∈ L) by (apply HIn; left).
    apply ends_bind, (ends_deref _ _ _ n _ HO Hin), ends_bind, (ends_lift _ None).
    { rewrite (ok_children _ _ _ _ HN). reflexivity. }
    destruct ks as [|k ks]; [len|]. assert (E : ends (mret ((Some l, 0) :: st)) (fun st' h' => h' = h /\ exists l0, st' = (Some l0, 0) :: tl st' /\
      iter_ok (mk_iter st' (Some l0) 0) (elems (Nd l n (k :: ks) []) ++ concat rests)) h).
    { apply ends_ret. split; [reflexivity|]. exists l. split; [reflexivity|]. cbn [elems List.map]. rewrite weave_leaf. exact (at_leaf l n [] k ks 0 st rests Hin HN HF). }
    destruct fuel; exact E.
  - destruct (wf_node _ _ HW) as (l & n & ks & cs & -> & HN & _ & HC & HFc). cbn [root tkeys] in *.
    apply ends_bind, (ends_deref _ _ _ n _ HO); [apply HIn; left|]. destruct ks as [|k ks]; [len|]. destruct cs as [|c [|c' cs]]; try discriminate.
    apply ends_bind, (ends_lift _ _ _ _ (rd_child_at n [] (k :: ks) [] c (c' :: cs) HN eq_refl)). apply Forall_cons in HFc as [[Wc Kc] _].
    assert (HF' : Forall2 frame_ok ((Some l, 0) :: st) ((k :: weave (List.map elems (c' :: cs)) ks) :: rests)).
    { constructor; [|exact HF]. exists d, l, n, [], k, ks, [c], c', cs. auto 10. }
    replace (elems (Nd l n (k :: ks) (c :: c' :: cs)) ++ concat rests) with (elems c ++ concat ((k :: weave (List.map elems (c' :: cs)) ks) :: rests)).
    + apply (IH c fuel _ _ Wc); auto; [sizes|lia|lia|]. intros x Hx. apply HIn. cbn. right. apply elem_of_app. now left.
    + cbn [elems List.map weave hd tl concat]. now rewrite <- app_assoc.
Qed.

Lemma iter_begin_ok T d fuel : wf d T -> 1 <= zlen (tkeys T) -> (d < fuel)%nat -> (d < levels)%nat -> (forall x, x ∈ cells T -> x ∈ L) ->
  ends (iter_begin fuel (root T)) (fun it h' => h' = h /\ iter_ok it (elems T)) h.
Proof.
  intros HW HK Hf Hl HIn. unfold iter_begin. eapply ends_seq; [apply (ends_push_left d T fuel [] []); auto|].
  intros st h' [-> (l & E & Hit)]. rewrite E in *. apply ends_bind, (ends_lift _ (Some l, 0)); [reflexivity|]. apply ends_ret.
  split; [reflexivity|]. cbn [fst tl] in *. now rewrite app_nil_r in Hit.
Qed.

(** Each step gives the next key. *)
Lemma iter_step_ok it k rest fuel : iter_ok it (k :: rest) -> (levels <= fuel)%nat ->
  iter_done it = false /\ ends (iter_get it) (fun x h' => h' = h /\ x = k) h /\
  ends (iter_next fuel it) (fun it' h' => h' = h /\ iter_ok it' rest) h.
Proof.
  intros Hit Hf. inversion Hit as [l n a k0 b i st rests Hin HN HF E1 [E2 E3]|p i rest0 st rests HP HF E1 E2|]; subst.
  - split; [reflexivity|]. pose proof (ok_keys_len _ _ _ _ HN) as LK. destruct (ok_keys _ _ _ _ HN) as [junk HK]. split.
    + apply ends_bind, (ends_deref _ _ _ n _ HO Hin), (ends_lift _ k); [exact (rd_key _ _ _ _ _ _ HN)|auto].
    + apply ends_bind, (ends_deref _ _ _ n _ HO Hin). rewrite (ok_leaf _ _ _ _ HN), (ok_num _ _ _ _ HN). cbn [cur_idx stack cur_node].
      rewrite HK in LK. rewrite u32_small by sizes. destruct b as [|k1 b].
      * rewrite (proj2 (Z.ltb_ge _ _)) by len. inversion HF as [|[p j] rest1 st1 rests1 HP HF1]; subst; [apply ends_ret; split; [reflexivity|constructor]|].
        apply ends_ret. split; [reflexivity|]. cbn [concat app]. assert (E : u32 (j + 1) = j + 1).
        { destruct HP as (d & l1 & n1 & a1 & k1 & b1 & cs1 & c & cs2 & [= _ ->] & _ & (HN1 & HL1 & _)%wf_kids & _). apply u32_small. sizes. }
        rewrite E. now constructor.
      * rewrite (proj2 (Z.ltb_lt _ _)) by len. apply ends_ret. split; [reflexivity|]. replace (zlen a + 1) with (zlen (a ++ [k])) by len.
        cbn [app]. apply (at_leaf l n (a ++ [k]) k1 b); auto. rewrite <- app_assoc. exact HN.
  - destruct HP as (d & l & n & a & k1 & b & cs1 & c & cs2 & [= -> ->] & L1 & HW & Hd & HIn & ->). cbn [app] in E2. injection E2 as -> <-.
    split; [reflexivity|]. pose proof (proj1 (wf_kids _ _ _ _ _) HW) as (HN & HL & HS & HFc). assert (Hin : (l, n) ∈ L) by (apply HIn; left). split.
    + apply ends_bind, (ends_deref _ _ _ n _ HO Hin), (ends_lift _ k); [exact (rd_key _ _ _ _ _ _ HN)|auto].
    + apply ends_bind, (ends_deref _ _ _ n _ HO Hin). rewrite (ok_leaf _ _ _ _ HN), (ok_num _ _ _ _ HN). cbn [cur_idx stack cur_node shape] in *.
      apply Forall_app in HFc as [_ HFc]. apply Forall_cons in HFc as [[Wc Kc] HFc]. rewrite u32_small by sizes.
      assert (Push : forall st' rests' r, Forall2 frame_ok st' rests' -> r = elems c ++ concat rests' ->
        ends (c ← lift (rd n.(children) (zlen a + 1)); st ← push_left fuel st' c; t ← lift (Btree.top st); mret (mk_iter st t.1 0))
          (fun it' h' => h' = h /\ iter_ok it' r) h).
      { intros st' rests' r HF' ->. apply ends_bind, (ends_lift _ (root c)).
        { replace (zlen a + 1) with (zlen (a ++ [k])) by len. apply (rd_child_at _ _ b cs1 c cs2); [rewrite <- app_assoc; exact HN|len]. }
        eapply ends_seq; [apply (ends_push_left d c fuel st' rests' Wc); auto; [sizes|lia|lia|]|].
        { intros x Hx. apply HIn, (cells_child l n _ cs1 c cs2 x Hx). }
        intros st1 h' [-> (l1 & E & Hit1)]. rewrite E in *. apply ends_bind, (ends_lift _ (Some l1, 0)); [reflexivity|]. apply ends_ret. auto. }
      destruct b as [|k2 b].
      * rewrite (proj2 (Z.eqb_eq _ _)) by len. apply ends_bind, ends_ret. apply (Push st rests); [exact HF|]. cbn [List.map weave hd]. reflexivity.
      * rewrite (proj2 (Z.eqb_neq _ _)) by len. apply ends_bind, ends_ret. destruct cs2 as [|c2 cs2]; [len|].
        apply (Push _ ((k2 :: weave (List.map elems (c2 :: cs2)) b) :: rests)).
        { constructor; [|exact HF]. exists d, l, n, (a ++ [k]), k2, b, (cs1 ++ [c]), c2, cs2. rewrite <- !app_assoc. split; [f_equal; len|]. split; [len|]. auto. }
        cbn [List.map weave hd tl concat app]. now rewrite <- app_assoc.
Qed.

Lemma iter_collect_ok fuel rest : (levels <= fuel)%nat -> forall it rounds, iter_ok it rest -> (length rest <= rounds)%nat ->
  ends (iter_collect rounds fuel it) (fun r h' => h' = h /\ r = rest) h.
Proof.
  intros Hf. induction rest as [|k rest IH]; intros it rounds Hit Hr.
  - assert (E : iter_done it = true).
    { inversion Hit as [|p i rest0 st rests HP HF E1 E2|]; subst; [|reflexivity]. destruct HP as (? & ? & ? & ? & ? & ? & ? & ? & ? & _ & _ & _ & _ & _ & ->). discriminate. }
    destruct rounds; cbn [iter_collect]; rewrite E; apply ends_ret; auto.
  - destruct (iter_step_ok it k rest fuel Hit Hf) as (E & HG & HN). destruct rounds as [|rounds]; [cbn in Hr; lia|]. cbn [iter_collect]. rewrite E.
    eapply ends_seq; [exact HG|]. intros x h1 [-> ->]. eapply ends_seq; [exact HN|]. intros it' h1 [-> Hit'].
    eapply ends_seq; [apply (IH it' rounds Hit'); cbn in Hr; lia|]. intros r h1 [-> ->]. apply ends_ret. auto.
Qed.
End Iter.

(** ** Recursive walks *)

Definition sumZ (l : list Z) : Z := fold_right Z.add 0 l.

Lemma sumZ_app a b : sumZ (a ++ b) = sumZ a + sumZ b.
Proof. induction a as [|x a IH]; cbn; [reflexivity|]. unfold sumZ in *. lia. Qed.

Section Walk.
Context (h : store node) (L : list (positive * node)) (HO : owns h L).
Implicit Types (T c : ltree) (cs : list ltree).


Lemma child_in l n ks cs1 c cs2 : (forall x, x ∈ cells (Nd l n ks (cs1 ++ c :: cs2)) -> x ∈ L) -> forall x, x ∈ cells c -> x ∈ L.
Proof. intros H x Hx. now apply H, cells_child. Qed.

(** The call on the child at a position. *)
Lemma ends_visit {X} (f : ptr -> prog node X) (P : ltree -> X -> Prop) d l n a b cs1 c cs2 (Q : X -> store node -> Prop) :
  (forall c, wf d c -> (forall x, x ∈ cells c -> x ∈ L) -> ends (f (root c)) (fun r h' => h' = h /\ P c r) h) ->
  wf (S d) (Nd l n (a ++ b) (cs1 ++ c :: cs2)) -> (forall x, x ∈ cells (Nd l n (a ++ b) (cs1 ++ c :: cs2)) -> x ∈ L) -> length cs1 = length a ->
  (forall r, P c r -> Q r h) -> ends (c ← lift (rd n.(children) (zlen a)); f c) Q h.
Proof.
  intros Hf HW HIn L1 HQ. destruct (placed_wf d l n a b cs1 c cs2 L1 HW) as (HN & _ & _ & Wc & _).
  apply ends_bind, (ends_lift _ _ _ _ (rd_child_at _ _ _ _ _ _ HN L1)).
  eapply ends_mono; [apply (Hf c Wc), (child_in _ _ _ _ _ _ HIn)|]. intros r h' [-> HP]. auto.
Qed.

(** The loops over the keys and children of a node, from a position on: what they compute ([P]) of the rest of the node
    follows from what they compute of the rest after the next key. *)
Lemma walk_inner {Y} d l n ks cs (loop : nat -> Z -> Y) (P : list ltree -> list Z -> Y -> Prop) :
  length cs = S (length ks) ->
  (forall a cs1 c, ks = a -> cs = cs1 ++ [c] -> length cs1 = length a -> P [c] [] (loop O (zlen a))) ->
  (forall a k b cs1 c cs2, ks = a ++ k :: b -> cs = cs1 ++ c :: cs2 -> length cs1 = length a ->
     P cs2 b (loop (length b) (zlen a + 1)) -> P (c :: cs2) (k :: b) (loop (length (k :: b)) (zlen a))) ->
  wf (S d) (Nd l n ks cs) -> P cs ks (loop (length ks) 0).
Proof.
  intros HL H0 HS _. change 0 with (zlen (@nil Z)).
  enough (H : forall b a cs1 cs2, ks = a ++ b -> cs = cs1 ++ cs2 -> length cs1 = length a -> P cs2 b (loop (length b) (zlen a)))
    by exact (H ks [] [] cs eq_refl eq_refl eq_refl).
  intros b. induction b as [|k b IHb]; intros a cs1 [|c cs2] Ek Ec L1; try (subst; exfalso; len).
  - destruct cs2; [|subst; exfalso; len]. apply (H0 a cs1); auto. now rewrite app_nil_r in Ek.
  - apply (HS a k b cs1 c cs2); auto. replace (zlen a + 1) with (zlen (a ++ [k])) by len.
    apply (IHb (a ++ [k]) (cs1 ++ [c]) cs2); rewrite <- ?app_assoc; auto. len.
Qed.

Lemma walk_leaf {Y} n ks (loop : nat -> Z -> Y) (P : list Z -> Y -> Prop) : node_ok n ks [] true ->
  P [] (loop O (zlen ks)) ->
  (forall a k b, ks = a ++ k :: b -> rd (keys n) (zlen a) = Some k -> P b (loop (length b) (zlen a + 1)) -> P (k :: b) (loop (length (k :: b)) (zlen a))) ->
  P ks (loop (length ks) 0).
Proof.
  intros HN H0 HS. change 0 with (zlen (@nil Z)).
  enough (H : forall b a, ks = a ++ b -> P b (loop (length b) (zlen a))) by exact (H ks [] eq_refl).
  intros b. induction b as [|k b IHb]; intros a Ek; [now rewrite app_nil_r in Ek; subst|].
  apply (HS a k b Ek); [subst; exact (rd_key _ _ _ _ _ _ HN)|]. replace (zlen a + 1) with (zlen (a ++ [k])) by len. apply IHb. now rewrite <- app_assoc.
Qed.

Lemma ends_traverse d : forall T fuel, wf d T -> (d < fuel)%nat -> (forall x, x ∈ cells T -> x ∈ L) ->
  ends (traverse fuel (root T)) (fun r h' => h' = h /\ r = elems T) h.
Proof.
  induction d as [|d IH]; intros T [|fuel] HW Hf HIn; try lia; cbn [traverse].
  - destruct (wf_leaf _ HW) as (l & n & ks & -> & HN & _). cbn [root].
    apply ends_bind, (ends_deref _ _ _ n _ HO); [apply HIn; left|]. rewrite (ok_num _ _ _ _ HN), (ok_leaf _ _ _ _ HN), Nat2Z.id.
    cbn [elems List.map]. rewrite weave_leaf. apply (walk_leaf n ks _ (fun b m => ends m (fun r h' => h' = h /\ r = b) h) HN).
    + apply ends_bind, ends_ret, ends_ret; auto.
    + intros a k b _ R Hb. apply ends_bind, ends_ret, ends_bind, (ends_lift _ _ _ _ R). eapply ends_seq; [exact Hb|]. intros r h' [-> ->]. apply ends_ret. auto.
  - destruct (wf_node _ _ HW) as (l & n & ks & cs & -> & HN & _ & HC & HF). cbn [root].
    apply ends_bind, (ends_deref _ _ _ n _ HO); [apply HIn; left|]. rewrite (ok_num _ _ _ _ HN), (ok_leaf _ _ _ _ HN), Nat2Z.id. cbn [elems].
    apply (walk_inner d l n ks cs _ (fun cs b m => ends m (fun r h' => h' = h /\ r = weave (List.map elems cs) b) h) HC); [| |exact HW].
    + intros a cs1 c -> -> L1. rewrite <- (app_nil_r a) in HW, HIn. apply ends_bind, (ends_visit _ (fun c r => r = elems c) d l n a [] cs1 c []); auto.
      * intros c' Wc Hc. apply IH; auto. lia.
      * intros r ->. apply ends_ret. auto.
    + intros a k b cs1 c cs2 -> -> L1 Hb. apply ends_bind, (ends_visit _ (fun c r => r = elems c) d l n a (k :: b) cs1 c cs2); auto.
      * intros c' Wc Hc. apply IH; auto. lia.
      * intros r ->. apply ends_bind, (ends_lift _ _ _ _ (rd_key _ _ _ _ _ _ HN)). eapply ends_seq; [exact Hb|]. intros r h' [-> ->]. apply ends_ret. auto.
Qed.

(** [sum] wraps at 64 bits. *)
Lemma ends_node_sum d : forall T fuel, wf d T -> (d < fuel)%nat -> (forall x, x ∈ cells T -> x ∈ L) ->
  ends (node_sum fuel (root T)) (fun r h' => h' = h /\ r = sumZ (elems T) mod 2 ^ 64) h.
Proof.
  assert (A1 : forall x y z, (add64 x y + z) mod 2 ^ 64 = (x + y + z) mod 2 ^ 64) by (intros; apply Zplus_mod_idemp_l).
  assert (A2 : forall x y, add64 x (y mod 2 ^ 64) = (x + y) mod 2 ^ 64) by (intros; apply Zplus_mod_idemp_r).
  induction d as [|d IH]; intros T [|fuel] HW Hf HIn; try lia; cbn [node_sum].
  - destruct (wf_leaf _ HW) as (l & n & ks & -> & HN & _). cbn [root].
    apply ends_bind, (ends_deref _ _ _ n _ HO); [apply HIn; left|]. rewrite (ok_num _ _ _ _ HN), (ok_leaf _ _ _ _ HN), Nat2Z.id.
    cbn [elems List.map]. rewrite weave_leaf.
    refine (walk_leaf n ks _ (fun b (m : Z -> prog node Z) => forall count, ends (m count) (fun r h' => h' = h /\ r = (count + sumZ b) mod 2 ^ 64) h) HN _ _ 0).
    + intros count. apply ends_bind, ends_ret, ends_ret; auto.
    + intros a k b _ R Hb count. apply ends_bind, ends_ret, ends_bind, (ends_lift _ _ _ _ R). eapply ends_mono; [apply Hb|].
      intros r h' [-> ->]. split; [reflexivity|]. cbn [sumZ fold_right]. rewrite A1, <- Z.add_assoc, A1. f_equal. unfold sumZ. lia.
  - destruct (wf_node _ _ HW) as (l & n & ks & cs & -> & HN & _ & HC & HF). cbn [root].
    apply ends_bind, (ends_deref _ _ _ n _ HO); [apply HIn; left|]. rewrite (ok_num _ _ _ _ HN), (ok_leaf _ _ _ _ HN), Nat2Z.id. cbn [elems].
    refine (walk_inner d l n ks cs _ (fun cs b (m : Z -> prog node Z) => forall count, ends (m count) (fun r h' => h' = h /\ r = (count + sumZ (weave (List.map elems cs) b)) mod 2 ^ 64) h) HC _ _ HW 0).
    + intros a cs1 c -> -> L1 count. rewrite <- (app_nil_r a) in HW, HIn.
      apply ends_bind, (ends_visit _ (fun c r => r = sumZ (elems c) mod 2 ^ 64) d l n a [] cs1 c []); auto.
      * intros c' Wc Hc. apply IH; auto. lia.
      * intros r ->. apply ends_ret. auto.
    + intros a k b cs1 c cs2 -> -> L1 Hb count. apply ends_bind, (ends_visit _ (fun c r => r = sumZ (elems c) mod 2 ^ 64) d l n a (k :: b) cs1 c cs2); auto.
      * intros c' Wc Hc. apply IH; auto. lia.
      * intros r ->. apply ends_bind, (ends_lift _ _ _ _ (rd_key _ _ _ _ _ _ HN)). eapply ends_mono; [apply Hb|]. intros r h' [-> ->].
        split; [reflexivity|]. cbn [List.map weave hd tl]. rewrite sumZ_app, A1, A2, <- Z.add_assoc, Zplus_mod_idemp_l. f_equal. cbn. unfold sumZ. lia.
Qed.

(** [get_num_nodes] wraps at 32 bits. *)
Lemma ends_num_nodes d : forall T fuel, wf d T -> (d < fuel)%nat -> (forall x, x ∈ cells T -> x ∈ L) ->
  ends (node_num_nodes fuel (root T)) (fun r h' => h' = h /\ r = zlen (cells T) mod 2 ^ 32) h.
Proof.
  assert (A1 : forall x y z, (u32 (x + y) + z) mod 2 ^ 32 = (x + y + z) mod 2 ^ 32) by (intros; apply Zplus_mod_idemp_l).
  assert (A2 : forall x y, u32 (x + y mod 2 ^ 32) = (x + y) mod 2 ^ 32) by (intros; apply Zplus_mod_idemp_r).
  induction d as [|d IH]; intros T [|fuel] HW Hf HIn; try lia; cbn [node_num_nodes].
  - destruct (wf_leaf _ HW) as (l & n & ks & -> & HN & _). cbn [root].
    apply ends_bind, (ends_deref _ _ _ n _ HO); [apply HIn; left|]. rewrite (ok_num _ _ _ _ HN), (ok_leaf _ _ _ _ HN), Nat2Z.id.
    refine (walk_leaf n ks _ (fun b (m : Z -> prog node Z) => forall count, ends (m count) (fun r h' => h' = h /\ r = count mod 2 ^ 32) h) HN _ _ 1).
    + intros count. apply ends_bind, ends_ret, ends_ret. rewrite Z.add_0_r. auto.
    + intros a k b _ R Hb count. apply ends_bind, ends_ret. eapply ends_mono; [apply Hb|].
      intros r h' [-> ->]. split; [reflexivity|]. rewrite Z.add_0_r. apply Zmod_mod.
  - destruct (wf_node _ _ HW) as (l & n & ks & cs & -> & HN & _ & HC & HF). cbn [root].
    apply ends_bind, (ends_deref _ _ _ n _ HO); [apply HIn; left|]. rewrite (ok_num _ _ _ _ HN), (ok_leaf _ _ _ _ HN), Nat2Z.id.
    cbn [cells]. replace (zlen ((l, n) :: flat_map cells cs)) with (1 + zlen (flat_map cells cs)) by len.
    refine (walk_inner d l n ks cs _ (fun cs b (m : Z -> prog node Z) => forall count, ends (m count) (fun r h' => h' = h /\ r = (count + zlen (flat_map cells cs)) mod 2 ^ 32) h) HC _ _ HW 1).
    + intros a cs1 c -> -> L1 count. rewrite <- (app_nil_r a) in HW, HIn.
      apply ends_bind, (ends_visit _ (fun c r => r = zlen (cells c) mod 2 ^ 32) d l n a [] cs1 c []); auto.
      * intros c' Wc Hc. apply IH; auto. lia.
      * intros r ->. apply ends_ret. cbn [flat_map]. rewrite app_nil_r. auto.
    + intros a k b cs1 c cs2 -> -> L1 Hb count. apply ends_bind, (ends_visit _ (fun c r => r = zlen (cells c) mod 2 ^ 32) d l n a (k :: b) cs1 c cs2); auto.
      * intros c' Wc Hc. apply IH; auto. lia.
      * intros r ->. eapply ends_mono; [apply Hb|]. intros r h' [-> ->].
        split; [reflexivity|]. cbn [flat_map]. rewrite A2, Zplus_mod_idemp_l. f_equal. len.
Qed.
End Walk.
