(* ===== verification/BtreeTheorems.v ===== *)
(** * The B-tree keeps a set of keys

    What a caller sees: the store holds the nodes of a tree and nothing else, and the
    operations search, change and list the keys of the tree. *)

From S2P Require Import Prelude Arrays Btree BtreeSearch BtreeInsert BtreeTree BtreeFill BtreeRemove BtreeIter.
From stdpp Require Import base option list gmap sorting.
#[local] Open Scope Z_scope.

(** The store consists of the nodes of a B-tree with the given root and keys; at most [2^32]
    of them, since they are 32-bit numbers. *)
Definition represents (h : store node) (r : ptr) (l : list Z) : Prop :=
  exists o, r = oroot o /\ btree_ok o /\ oelems o = l /\ zlen l <= 2 ^ 32 /\ owns h (ocells o).

(** The key in the middle of a full root, if the root is full. *)
Definition middle_key (h : store node) (r : ptr) : option Z :=
  match r with
  | Some p => match h !! p with
              | Some n => if n.(num_keys) =? MAX_KEYS then rd n.(keys) (MIN_KEYS - 1) else None
              | None => None end
  | None => None
  end.

Lemma middle_key_spec o h R k : btree_ok o -> owns h (ocells o ++ R) -> middle_of_full k o <-> middle_key h (oroot o) = Some k.
Proof.
  destruct o as [[l n ks cs]|]; [|easy]. intros (d & HW & _) HO. pose proof (proj1 (wf_kids _ _ _ _ _) HW) as (HN & _).
  cbn [middle_of_full oroot root tkeys middle_key]. rewrite (owns_lookup _ _ l n HO) by (cbn; left). rewrite (ok_num _ _ _ _ HN).
  destruct (Z.eqb_spec (zlen ks) MAX_KEYS) as [E|E]; [|split; [intros [? _]; contradiction|discriminate]].
  rewrite (full_keys _ _ _ _ HN E). unfold rd. cbn [Z.leb]. split; [now intros [_ H]|now intros H].
Qed.

Lemma represents_ends h r l : represents h r l -> exists o, r = oroot o /\ btree_ok o /\ oelems o = l /\ zlen (oelems o) <= 2 ^ 32 /\ owns h (ocells o ++ []).
Proof. intros (o & -> & Ho & <- & HL & HO). exists o. rewrite app_nil_r. auto. Qed.

Lemma add_length k l : zlen (add k l) <= zlen l + 1.
Proof. induction l as [|x l IH]; cbn; [lia|]. destruct (k <? x); [cbn; lia|]. destruct (x <? k); cbn; lia. Qed.

Lemma without_length k l : zlen (without k l) <= zlen l.
Proof. unfold without. induction l as [|x l IH]; cbn; [lia|]. destruct (negb (x =? k)); cbn; lia. Qed.

(** ** The operations *)

Section Operations.
Context `{NewAddressOk node} (past_end : ptr -> store node -> nat -> ptr).

(** C13: [find] returns a node exactly when the key is in the tree, and then one that holds
    the key. *)
Theorem btree_find_correct h r l k : represents h r l ->
  exists p, btree_find levels r k h = Some (p, h) /\
    match p with
    | None => memb k l = false
    | Some a => memb k l = true /\ exists n, h !! a = Some n /\ In k (take (Z.to_nat n.(num_keys)) n.(keys))
    end.
Proof.
  intros (o & -> & Ho & <- & HL & HO)%represents_ends. rewrite app_nil_r in HO.
  destruct (ends_returns _ _ _ (ends_btree_find k o levels h _ Ho HL (le_n _) HO (fun _ H => H))) as (p & h' & E & -> & HP).
  exists p. split; [exact E|]. destruct p as [a|]; [|exact HP]. destruct HP as (HM & n & Hn & HI). split; [exact HM|]. exists n.
  split; [exact (owns_lookup _ _ _ _ HO Hn)|exact HI].
Qed.

(** C12: [insert] adds the key and tells whether it was missing, unless the key is already in
    the middle of a full root. *)
Theorem btree_insert_correct h r l k : represents h r l -> zlen l < 2 ^ 32 -> middle_key h r <> Some k ->
  exists r' h', btree_insert past_end levels r k h = Some ((r', negb (memb k l)), h') /\ represents h' r' (add k l).
Proof.
  intros (o & -> & Ho & <- & HL & HO)%represents_ends HR HM.
  assert (HM' : ~ middle_of_full k o) by (intros M; apply HM; now apply (middle_key_spec o h [] k Ho HO)).
  destruct (ends_returns _ _ _ (ends_btree_insert past_end k o levels h [] Ho HL (le_n _) HM' HO)) as ([r' b] & h' & E & o' & E1 & Ho' & E2 & E3 & HO').
  cbn [fst snd] in *. subst b. exists r', h'. split; [exact E|]. exists o'. rewrite app_nil_r in HO'. split; [exact E1|]. split; [exact Ho'|]. split; [exact E2|].
  split; [pose proof (add_length k (oelems o)); lia|exact HO'].
Qed.

(** C35: the key in the middle of a full root is inserted again: [insert] reports that it was
    missing, and the tree lists it twice. *)
Theorem btree_insert_duplicates h r l k : represents h r l -> middle_key h r = Some k ->
  exists r' h' a b, btree_insert past_end levels r k h = Some ((r', true), h') /\
    l = a ++ k :: b /\ traverse levels r' h' = Some (a ++ k :: k :: b, h').
Proof.
  intros (o & -> & Ho & <- & HL & HO)%represents_ends HM. apply (middle_key_spec o h [] k Ho HO) in HM. destruct o as [T|]; [|destruct HM].
  destruct Ho as (d & HW & HS & HK). cbn [oroot ocells oelems] in *.
  destruct (ends_returns _ _ _ (ends_insert_middle past_end k T d levels h [] HW HS HL (le_n _) HM HO)) as ([r' x] & h' & E & E1 & T' & a & b & E2 & W' & E3 & E4 & HO').
  cbn [fst snd] in *. subst. pose proof (tree_size d T HW HK) as Hd.
  assert (Hd' : (S d < levels)%nat).
  { destruct HM as [HF _]. destruct (le_lt_dec 5 d) as [L|L]; [exfalso|unfold levels; lia].
    pose proof (node_size d T HW) as Hs. rewrite HF in Hs. unfold MAX_KEYS, MIN_KEYS in Hs.
    assert (H6 : 64 ^ 6 <= 64 ^ (Z.of_nat d + 1)) by (apply Z.pow_le_mono_r; lia). change (64 ^ 6) with (2 ^ 36) in H6. lia. }
  assert (HIn : forall x, x ∈ cells T' -> x ∈ cells T' ++ []) by (intros x Hx; now rewrite app_nil_r).
  destruct (ends_returns _ _ _ (ends_traverse h' _ HO' (S d) T' levels W' Hd' HIn)) as (v & h2 & E5 & -> & ->).
  exists (root T'), h', a, b. rewrite <- E4. auto.
Qed.

(** C11: [remove] takes the key out and frees the nodes that become empty.  Its result is
    true when the key was there, and always for a tree of several nodes; else it is false. *)
Theorem btree_remove_correct h r l k : represents h r l ->
  exists r' b h', btree_remove levels r k h = Some ((r', b), h') /\ represents h' r' (without k l) /\
    b = memb k l || (1 <? size h)%nat.
Proof.
  intros (o & -> & Ho & <- & HL & HO)%represents_ends.
  destruct (ends_returns _ _ _ (ends_btree_remove o k levels h [] Ho HL (le_n _) HO)) as ([r' b] & h' & E & o' & E1 & Ho' & E2 & E3 & HO').
  rewrite app_nil_r in HO, HO'. exists r', b, h'. split; [exact E|]. cbn [fst snd] in *. split.
  - exists o'. split; [exact E1|]. split; [exact Ho'|]. split; [exact E2|]. split; [pose proof (without_length k (oelems o)); lia|exact HO'].
  - rewrite E3. f_equal. destruct HO as [HN ->]. rewrite map_size_list_to_map by exact HN. apply eq_true_iff_eq. rewrite Z.ltb_lt, Nat.ltb_lt. lia.
Qed.

(** C14: the iterator gives the keys in increasing order, each of them once. *)
Theorem btree_iterate_correct h p l : represents h (Some p) l -> StronglySorted Z.lt l /\
  exists it, iter_begin levels (Some p) h = Some (it, h) /\ iter_collect (length l) levels it h = Some (l, h).
Proof.
  intros (o & E & Ho & <- & HL & HO)%represents_ends. destruct o as [T|]; [|discriminate]. rewrite app_nil_r in HO. cbn [oroot oelems ocells] in *. rewrite E.
  destruct Ho as (d & HW & HS & HK). split; [exact HS|]. pose proof (height_bound d T HW HK HL) as Hd.
  destruct (ends_returns _ _ _ (iter_begin_ok h _ HO T d levels HW HK Hd Hd (fun _ H => H))) as (it & h' & E1 & -> & Hit). exists it. split; [exact E1|].
  destruct (ends_returns _ _ _ (iter_collect_ok h _ HO levels _ (le_n _) it _ Hit (le_n _))) as (v & h' & E2 & -> & ->). exact E2.
Qed.

(** [traverse] prints the keys in order, [sum] is their sum modulo [2^64] and
    [get_num_nodes] the number of nodes in memory modulo [2^32]. *)
Theorem btree_walks_correct h p l : represents h (Some p) l ->
  traverse levels (Some p) h = Some (l, h) /\ btree_sum levels (Some p) h = Some (fold_right Z.add 0 l mod 2 ^ 64, h) /\
  get_num_nodes levels (Some p) h = Some (Z.of_nat (size h) mod 2 ^ 32, h).
Proof.
  intros (o & E & Ho & <- & HL & HO)%represents_ends. destruct o as [T|]; [|discriminate]. rewrite app_nil_r in HO. cbn [oroot oelems ocells] in *. rewrite E.
  destruct Ho as (d & HW & HS & HK). pose proof (height_bound d T HW HK HL) as Hd.
  assert (Hsz : zlen (cells T) = Z.of_nat (size h)) by (destruct HO as [HN ->]; rewrite map_size_list_to_map by exact HN; reflexivity).
  destruct (ends_returns _ _ _ (ends_traverse h _ HO d T levels HW Hd (fun _ H => H))) as (v1 & h1 & E1 & -> & ->).
  destruct (ends_returns _ _ _ (ends_node_sum h _ HO d T levels HW Hd (fun _ H => H))) as (v2 & h1 & E2 & -> & ->).
  destruct (ends_returns _ _ _ (ends_num_nodes h _ HO d T levels HW Hd (fun _ H => H))) as (v3 & h1 & E3 & -> & ->).
  rewrite <- Hsz. split; [exact E1|]. destruct T as [t ? ? ?]. split; [exact E2|exact E3].
Qed.

(** ** Histories *)

(** Insertions and removals, on the tree and on a set of keys. *)
Inductive request := Insert (k : Z) | Remove (k : Z).

Fixpoint run_requests (qs : list request) (r : ptr) : prog node ptr :=
  match qs with
  | [] => mret r
  | Insert k :: qs => x ← btree_insert past_end levels r k; run_requests qs x.1
  | Remove k :: qs => x ← btree_remove levels r k; run_requests qs x.1
  end.

Fixpoint keys_after (qs : list request) (l : list Z) : list Z :=
  match qs with
  | [] => l
  | Insert k :: qs => keys_after qs (add k l)
  | Remove k :: qs => keys_after qs (without k l)
  end.

(** No key is inserted that is there already. *)
Fixpoint new_inserts (qs : list request) (l : list Z) : bool :=
  match qs with
  | [] => true
  | Insert k :: qs => negb (memb k l) && new_inserts qs (add k l)
  | Remove k :: qs => new_inserts qs (without k l)
  end.

Lemma middle_key_member h r l k : represents h r l -> middle_key h r = Some k -> memb k l = true.
Proof.
  intros (o & -> & Ho & <- & HL & HO)%represents_ends HM. apply (middle_key_spec o h [] k Ho HO) in HM. destruct o as [[p n ks cs]|]; [|destruct HM].
  destruct HM as [_ HM]. cbn [tkeys] in HM. apply list_elem_of_split_length in HM as (a & b & -> & _). destruct Ho as (d & HW & _ & _).
  apply wf_kids in HW as (_ & _ & HSh & _). destruct (shape_split d cs a k b HSh) as (c1 & c2 & -> & S1 & S2).
  cbn [oelems elems]. rewrite (weave_join d _ _ _ _ _ S1 S2). apply memb_In, in_or_app. right. now left.
Qed.

Lemma run_requests_spec qs : forall h r l, represents h r l -> zlen l + zlen qs <= 2 ^ 32 -> new_inserts qs l = true ->
  exists r' h', run_requests qs r h = Some (r', h') /\ represents h' r' (keys_after qs l).
Proof.
  induction qs as [|[k|k] qs IH]; intros h r l HR HL HQ; cbn [run_requests keys_after new_inserts] in *; [now exists r, h| |].
  - apply andb_prop in HQ as [HM HQ]. apply negb_true_iff in HM.
    destruct HR as (o & -> & Ho & <- & HLo & HO). pose proof HO as HO0. rewrite <- (app_nil_r (ocells o)) in HO.
    assert (Hmid : ~ middle_of_full k o).
    { intros M. apply (middle_key_spec o h [] k Ho HO) in M. rewrite (middle_key_member h (oroot o) (oelems o) k) in HM; [discriminate|exists o; auto|exact M]. }
    destruct (ends_returns _ _ _ (ends_btree_insert past_end k o levels h [] Ho HLo (le_n _) Hmid HO)) as (x & h1 & E & o' & E1 & Ho' & E2 & _ & HO').
    rewrite app_nil_r in HO'. unfold mbind, prog_bind. rewrite E. pose proof (add_length k (oelems o)). cbn [length] in HL.
    apply (IH h1 x.1); [|lia|exact HQ]. exists o'. split; [exact E1|]. split; [exact Ho'|]. split; [exact E2|]. split; [lia|exact HO'].
  - destruct HR as (o & -> & Ho & <- & HLo & HO). rewrite <- (app_nil_r (ocells o)) in HO.
    destruct (ends_returns _ _ _ (ends_btree_remove o k levels h [] Ho HLo (le_n _) HO)) as (x & h1 & E & o' & E1 & Ho' & E2 & _ & HO').
    rewrite app_nil_r in HO'. unfold mbind, prog_bind. rewrite E. pose proof (without_length k (oelems o)). cbn [length] in HL.
    apply (IH h1 x.1); [|lia|exact HQ]. exists o'. split; [exact E1|]. split; [exact Ho'|]. split; [exact E2|]. split; [lia|exact HO'].
Qed.

Lemma represents_empty h r : represents h r [] -> r = None /\ h = ∅.
Proof.
  intros ([T|] & -> & Ho & E & _ & HO); [exfalso|split; [reflexivity|apply HO]]. destruct Ho as (d & HW & _ & HK). cbn [oelems] in E.
  pose proof (tree_size d T HW HK) as H1. rewrite E in H1. pose proof (Z.pow_pos_nonneg MIN_KEYS (Z.of_nat d) ltac:(reflexivity) ltac:(lia)). cbn [length] in H1. lia.
Qed.

(** C10: after any history of insertions of new keys and removals, starting from the empty
    tree, the tree has the keys that a set would have, whatever memory [new] returns and
    whatever lies beyond the nodes; when no key is left, all the nodes are freed. *)
Theorem btree_history qs : zlen qs <= 2 ^ 32 -> new_inserts qs [] = true ->
  exists r h, run_requests qs None ∅ = Some (r, h) /\ represents h r (keys_after qs []) /\
    (keys_after qs [] = [] -> r = None /\ h = ∅).
Proof.
  intros HL HQ. destruct (run_requests_spec qs ∅ None []) as (r & h & E & HR); [exists None; split; [reflexivity|]; split; [exact I|]; split; [reflexivity|]; split; [cbn; lia|apply owns_empty]|exact HL|exact HQ|].
  exists r, h. split; [exact E|]. split; [exact HR|]. intros HE. rewrite HE in HR. now apply represents_empty.
Qed.
End Operations.

(** ** Examples *)

#[local] Existing Instances fresh_address fresh_address_ok.

Definition zero_end (_ : ptr) (_ : store node) (_ : nat) : ptr := None.

(** A tree of one leaf. *)
Definition leaf_node (ks : list Z) : node :=
  mk_node (ks ++ repeat 0 (Z.to_nat MAX_KEYS - length ks)) (repeat None (Z.to_nat MAX_CHILDREN)) (zlen ks) true.

Lemma leaf_represents ks : Sorted Z.lt ks -> 1 <= zlen ks <= MAX_KEYS -> represents {[1%positive := leaf_node ks]} (Some 1%positive) ks.
Proof.
  intros HS HL. exists (Some (Nd 1 (leaf_node ks) ks [])). cbn [oelems elems List.map]. rewrite weave_leaf. split; [reflexivity|]. split; [|split; [reflexivity|split; [sizes|]]].
  - exists 0%nat. cbn [elems List.map]. rewrite weave_leaf. split; [|split; [apply Sorted_StronglySorted; [intros x y z; lia|exact HS]|cbn; lia]].
    apply wf_kids. split; [|split; [lia|split; [reflexivity|constructor]]]. apply leaf_view. exists (repeat 0 (Z.to_nat MAX_KEYS - length ks)). split; [reflexivity|sizes].
  - split; [cbn; repeat constructor; set_solver|reflexivity].
Qed.

(** A full leaf with the keys from 1 to 127. *)
Definition full_leaf : store node := {[1%positive := leaf_node (seqZ 1 127)]}.

Lemma full_leaf_represents : represents full_leaf (Some 1%positive) (seqZ 1 127).
Proof. apply leaf_represents; [vm_compute; repeat constructor|vm_compute; split; discriminate]. Qed.

Lemma btree_find_correct_witness : exists p, btree_find levels (Some 1%positive) 64 full_leaf = Some (p, full_leaf) /\ p <> None.
Proof.
  destruct (btree_find_correct full_leaf _ _ 64 full_leaf_represents) as (p & E & HP). exists p. split; [exact E|].
  destruct p; [discriminate|]. vm_compute in HP. discriminate.
Defined.

Lemma btree_insert_correct_witness : exists r' h', btree_insert zero_end levels (Some 1%positive) 200 full_leaf = Some ((r', true), h') /\
  represents h' r' (seqZ 1 127 ++ [200]).
Proof. apply (btree_insert_correct zero_end full_leaf _ _ 200 full_leaf_represents); [reflexivity|vm_compute; discriminate]. Defined.

Lemma btree_insert_duplicates_witness : exists r' h' a b, btree_insert zero_end levels (Some 1%positive) 64 full_leaf = Some ((r', true), h') /\
  seqZ 1 127 = a ++ 64 :: b /\ traverse levels r' h' = Some (a ++ 64 :: 64 :: b, h').
Proof. apply (btree_insert_duplicates zero_end full_leaf _ _ 64 full_leaf_represents). reflexivity. Defined.

Lemma btree_remove_correct_witness : exists r' b h', btree_remove levels (Some 1%positive) 64 full_leaf = Some ((r', b), h') /\
  represents h' r' (seqZ 1 63 ++ seqZ 65 63) /\ b = true.
Proof. apply (btree_remove_correct full_leaf _ _ 64 full_leaf_represents). Defined.

Lemma btree_iterate_correct_witness : StronglySorted Z.lt (seqZ 1 127) /\
  exists it, iter_begin levels (Some 1%positive) full_leaf = Some (it, full_leaf) /\ iter_collect 127 levels it full_leaf = Some (seqZ 1 127, full_leaf).
Proof. apply (btree_iterate_correct full_leaf 1%positive (seqZ 1 127) full_leaf_represents). Defined.

Lemma btree_walks_correct_witness : btree_sum levels (Some 1%positive) full_leaf = Some (8128, full_leaf).
Proof. apply (btree_walks_correct full_leaf 1%positive (seqZ 1 127) full_leaf_represents). Defined.

(** 300 insertions, which split leaves and make a root, and as many removals. *)
Lemma btree_history_witness : exists r h,
  run_requests zero_end (List.map Insert (seqZ 0 300) ++ List.map Remove (seqZ 0 300)) None ∅ = Some (r, h) /\ r = None /\ h = ∅.
Proof.
  destruct (btree_history zero_end (List.map Insert (seqZ 0 300) ++ List.map Remove (seqZ 0 300))) as (r & h & E & _ & HE); [vm_compute; discriminate|vm_compute; reflexivity|].
  exists r, h. split; [exact E|]. apply HE. vm_compute. reflexivity.
Defined.
