(* ===== verification/EdgeCode.v ===== *)
(** * Byte codes of edge lists ([common/compression.h])

    Aspen stores the neighbours of a vertex as the difference of the first one to the vertex,
    with its sign, and the differences between consecutive ones, each in bytes of seven bits
    with a bit that says whether more follow.  Vertices have 32 bits, and edges 64
    ([EDGELONG]). *)

From S2P Require Import Prelude Arrays BitSeq.
From stdpp Require Import base option list.
#[local] Open Scope Z_scope.

(** ** The code *)

Definition LAST_BIT_SET (b : Z) : bool := negb (Z.land b 128 =? 0).
Definition EDGE_SIZE_PER_BYTE : Z := 7.

(** A shift of an [int] to the left, whose result must fit an [unsigned int]. *)
Definition int_shl (x s : Z) : option Z := if (s <? 32) && (Z.shiftl x s <? 2 ^ 32) then Some (Z.shiftl x s) else None.

(** The bytes of seven bits from [start] on, joined to [edgeRead]; five shifts exceed the width. *)
Fixpoint read_bytes (join : Z -> Z -> Z) (fuel : nat) (a : list Z) (start edgeRead shiftAmount : Z) : option (Z * Z) :=
  match fuel with
  | O => None
  | S fuel =>
    let? b := rd a start in
    let? x := int_shl (Z.land b 127) shiftAmount in
    let edgeRead := join edgeRead x in
    if LAST_BIT_SET b then read_bytes join fuel a (start + 1) edgeRead (shiftAmount + EDGE_SIZE_PER_BYTE)
    else Some (edgeRead, start + 1)
  end.

(** The value and the position after it. *)
Definition read_first_neighbor (a : list Z) (start src : Z) : option (Z * Z) :=
  let? fb := rd a start in
  let edgeRead := Z.land fb 63 in
  let? r := if LAST_BIT_SET fb then read_bytes Z.lor 6 a (start + 1) edgeRead 6 else Some (edgeRead, start + 1) in
  Some (if negb (Z.land fb 64 =? 0) then u32 (src - r.1) else u32 (src + r.1), r.2).

Definition read_neighbor (a : list Z) (start : Z) : option (Z * Z) :=
  read_bytes (fun e x => u32 (e + x)) 6 a start 0 0.

(** [while ((cur_byte > 0) || (value > 0))]. *)
Fixpoint compress_loop (fuel : nat) (a : list Z) (offset cur_byte value : Z) : option (list Z * Z) :=
  if (0 <? cur_byte) || (0 <? value) then
    match fuel with
    | O => None
    | S fuel =>
      let value := Z.shiftr value 7 in
      let to_write := if 0 <? value then Z.lor cur_byte 128 else cur_byte in
      let? a := wr a offset to_write in
      compress_loop fuel a (offset + 1) (Z.land value 127) value
    end
  else Some (a, offset).

(** A [long] difference has at most 64 bits. *)
Definition compress_first_neighbor (a : list Z) (offset source target : Z) : option (list Z * Z) :=
  let diff := target - source in
  let toCompress := Z.abs diff in
  let firstByte := Z.land toCompress 63 in
  let firstByte := if diff <? 0 then Z.lor firstByte 64 else firstByte in
  let toCompress := Z.shiftr toCompress 6 in
  let firstByte := if 0 <? toCompress then Z.lor firstByte 128 else firstByte in
  let? a := wr a offset firstByte in
  compress_loop 10 a (offset + 1) (Z.land toCompress 127) toCompress.

Definition compress_neighbor (a : list Z) (cur_offset value : Z) : option (list Z * Z) :=
  compress_loop 10 a cur_offset (Z.land value 127) value.

(** ** The codes *)

(** A byte of a code, and the first byte of a list. *)
Definition code_byte (m : Z) (more : bool) : Z := m + (if more then 128 else 0).
Definition first_byte (m : Z) (minus more : bool) : Z := m + (if minus then 64 else 0) + (if more then 128 else 0).

(** A number below [128^n] in bytes of seven bits; zero has no bytes. *)
Fixpoint code (n : nat) (v : Z) : list Z :=
  match n with
  | O => []
  | S n => if v <=? 0 then [] else code_byte (v mod 128) (0 <? v / 128) :: code n (v / 128)
  end.

Definition first_code (src x : Z) : list Z :=
  let v := Z.abs (x - src) in
  first_byte (v mod 64) (x <? src) (0 <? v / 64) :: code 4 (v / 64).

Fixpoint deltas (x : Z) (l : list Z) : list Z :=
  match l with [] => [] | y :: l => code 5 (y - x) ++ deltas y l end.

Definition codes (src : Z) (l : list Z) : list Z :=
  match l with [] => [] | x :: l => first_code src x ++ deltas x l end.

Lemma codeword_length n v : zlen (code n v) <= Z.of_nat n.
Proof. revert v. induction n as [|n IH]; intros v; cbn; [lia|]. destruct (v <=? 0); cbn; [lia|]. specialize (IH (v / 128)). lia. Qed.

Lemma first_code_length src x : 1 <= zlen (first_code src x) <= 5.
Proof. unfold first_code. cbn [length]. pose proof (codeword_length 4 (Z.abs (x - src) / 64)). lia. Qed.

Lemma deltas_length x l : zlen (deltas x l) <= 5 * zlen l.
Proof.
  revert x. induction l as [|y l IH]; intros x; cbn [deltas]; [cbn; lia|]. pose proof (codeword_length 5 (y - x)). specialize (IH y). len.
Qed.

Lemma codes_length src l : zlen (codes src l) <= 5 * zlen l.
Proof.
  destruct l as [|x l]; cbn [codes]; [cbn; lia|]. pose proof (first_code_length src x). pose proof (deltas_length x l). len.
Qed.

Lemma deltas_app x l : forall y z, last (x :: l) = Some y -> deltas x (l ++ [z]) = deltas x l ++ code 5 (z - y).
Proof.
  revert x. induction l as [|w l IH]; intros x y z H; [injection H as ->; cbn; now rewrite app_nil_r|].
  cbn [app deltas]. rewrite (IH w y z H). now rewrite app_assoc.
Qed.

(** ** Writing *)

Lemma land_127 v : Z.land v 127 = v mod 128.
Proof. exact (Z.land_ones v 7 ltac:(lia)). Qed.

(** The bits of the bytes, checked on all of them. *)
Lemma below_check (P : Z -> bool) n : forallb P (seqZ 0 n) = true -> forall m, 0 <= m < n -> P m = true.
Proof. intros H m Hm. apply (proj1 (forallb_forall _ _) H), list_elem_of_In, elem_of_seqZ. lia. Qed.

Lemma code_byte_bits m (more : bool) : 0 <= m < 128 -> (if more then Z.lor m 128 else m) = code_byte m more /\
  Z.land (code_byte m more) 127 = m /\ LAST_BIT_SET (code_byte m more) = more.
Proof.
  intros Hm. pose (P (m : Z) (more : bool) := ((if more then Z.lor m 128 else m) =? code_byte m more) && (Z.land (code_byte m more) 127 =? m) &&
    Bool.eqb (LAST_BIT_SET (code_byte m more)) more).
  assert (H : P m more = true) by (destruct more; [apply (below_check (fun m => P m true) 128)|apply (below_check (fun m => P m false) 128)]; auto; vm_compute; reflexivity).
  unfold P in H. rewrite !andb_true_iff, !Z.eqb_eq, eqb_true_iff in H. tauto.
Qed.

Lemma first_byte_bits m (minus more : bool) : 0 <= m < 64 ->
  (let b := if minus then Z.lor m 64 else m in if more then Z.lor b 128 else b) = first_byte m minus more /\
  Z.land (first_byte m minus more) 63 = m /\ negb (Z.land (first_byte m minus more) 64 =? 0) = minus /\ LAST_BIT_SET (first_byte m minus more) = more.
Proof.
  intros Hm. pose (P (m : Z) (minus more : bool) := ((let b := if minus : bool then Z.lor m 64 else m in if more : bool then Z.lor b 128 else b) =? first_byte m minus more) &&
    (Z.land (first_byte m minus more) 63 =? m) && Bool.eqb (negb (Z.land (first_byte m minus more) 64 =? 0)) minus &&
    Bool.eqb (LAST_BIT_SET (first_byte m minus more)) more).
  assert (H : P m minus more = true) by (destruct minus, more; [apply (below_check (fun m => P m true true) 64)|apply (below_check (fun m => P m true false) 64)|apply (below_check (fun m => P m false true) 64)|
    apply (below_check (fun m => P m false false) 64)]; auto; vm_compute; reflexivity).
  unfold P in H. rewrite !andb_true_iff, !Z.eqb_eq, !eqb_true_iff in H. tauto.
Qed.

Lemma compress_loop_spec n : forall v fuel a p q r off, 0 <= v < 128 ^ Z.of_nat n -> (n <= fuel)%nat -> a = p ++ q ++ r -> off = zlen p ->
  length q = length (code n v) -> compress_loop fuel a off (v mod 128) v = Some (p ++ code n v ++ r, off + zlen (code n v)).
Proof.
  induction n as [|n IH]; intros v fuel a p q r off Hv Hf -> -> Hq; cbn [code] in *.
  - assert (v = 0) as -> by lia. destruct q; [|discriminate]. destruct fuel; cbn; now rewrite Z.add_0_r.
  - destruct fuel as [|fuel]; [lia|]. destruct (Z.leb_spec v 0) as [L|L].
    + assert (v = 0) as -> by lia. destruct q; [|discriminate]. cbn. now rewrite Z.add_0_r.
    + destruct q as [|y q]; [discriminate|]. cbn [compress_loop]. rewrite (proj2 (Z.ltb_lt 0 v)), orb_true_r by lia.
      rewrite Z.shiftr_div_pow2 by lia. change (2 ^ 7) with 128. rewrite !land_127. cbn [app]. rewrite wr_app by reflexivity.
      destruct (code_byte_bits (v mod 128) (0 <? v / 128)) as (E & _); [apply Z.mod_pos_bound; lia|]. rewrite E. set (b := code_byte _ _).
      rewrite (IH (v / 128) fuel _ (p ++ [b]) q r); [|split; [apply Z.div_pos; lia|]|lia|now rewrite <- app_assoc|len|cbn in Hq; lia].
      * rewrite <- !app_assoc. cbn [app length]. do 2 f_equal. lia.
      * apply Z.div_lt_upper_bound; [lia|]. rewrite <- Z.pow_succ_r by lia. replace (Z.succ (Z.of_nat n)) with (Z.of_nat (S n)) by lia. lia.
Qed.

Lemma compress_neighbor_spec v p q r : 0 <= v < 2 ^ 32 -> length q = length (code 5 v) ->
  compress_neighbor (p ++ q ++ r) (zlen p) v = Some (p ++ code 5 v ++ r, zlen p + zlen (code 5 v)).
Proof.
  intros Hv Hq. unfold compress_neighbor. rewrite land_127. apply (compress_loop_spec 5 v 10 _ p q r); auto; [|lia].
  change (128 ^ Z.of_nat 5) with (2 ^ 35). lia.
Qed.

Lemma compress_first_neighbor_spec src x p q r : 0 <= src < 2 ^ 32 -> 0 <= x < 2 ^ 32 -> length q = length (first_code src x) ->
  compress_first_neighbor (p ++ q ++ r) (zlen p) src x = Some (p ++ first_code src x ++ r, zlen p + zlen (first_code src x)).
Proof.
  intros Hs Hx Hq. unfold compress_first_neighbor, first_code in *. set (v := Z.abs (x - src)) in *.
  assert (Hv : 0 <= v < 2 ^ 32) by (unfold v; lia). destruct q as [|y q]; [discriminate|]. cbn [app].
  rewrite Z.shiftr_div_pow2 by lia. change (2 ^ 6) with 64. rewrite land_127. replace (Z.land v 63) with (v mod 64) by (symmetry; exact (Z.land_ones v 6 ltac:(lia))).
  rewrite wr_app by reflexivity. destruct (first_byte_bits (v mod 64) (x <? src) (0 <? v / 64)) as (E & _); [apply Z.mod_pos_bound; lia|].
  replace (x - src <? 0) with (x <? src) by (destruct (Z.ltb_spec x src), (Z.ltb_spec (x - src) 0); auto; lia).
  cbv zeta in E. rewrite E. set (b := first_byte _ _ _).
  rewrite (compress_loop_spec 4 (v / 64) 10 _ (p ++ [b]) q r); [|split; [apply Z.div_pos; lia|]|lia|now rewrite <- app_assoc|len|cbn [length] in Hq; lia].
  - rewrite <- !app_assoc. cbn [app length]. do 2 f_equal. lia.
  - apply Z.div_lt_upper_bound; [lia|]. change (64 * 128 ^ Z.of_nat 4) with (2 ^ 34). lia.
Qed.

(** ** Reading *)

(** Joining with [|=] and with [+=] is the same for bits that are still zero. *)
Definition joins (join : Z -> Z -> Z) : Prop :=
  forall e s x, 0 <= s -> 0 <= e < 2 ^ s -> 0 <= x -> e + x * 2 ^ s < 2 ^ 32 -> join e (x * 2 ^ s) = e + x * 2 ^ s.

Lemma joins_add : joins (fun e x => u32 (e + x)).
Proof. intros e s x Hs He Hx HL. apply Z.mod_small. pose proof (Z.pow_pos_nonneg 2 s ltac:(lia) Hs). nia. Qed.

Lemma joins_lor : joins Z.lor.
Proof. intros e s x Hs He Hx HL. rewrite <- Z.shiftl_mul_pow2 by exact Hs. rewrite lor_shiftl_add by auto. rewrite Z.shiftl_mul_pow2 by exact Hs. lia. Qed.

Lemma read_bytes_spec join : joins join -> forall n v fuel p r s e, (n < fuel)%nat -> 0 < v < 128 ^ Z.of_nat n -> 0 <= s -> 0 <= e < 2 ^ s -> e + v * 2 ^ s < 2 ^ 32 ->
  read_bytes join fuel (p ++ code n v ++ r) (zlen p) e s = Some (e + v * 2 ^ s, zlen p + zlen (code n v)).
Proof.
  intros HJ. induction n as [|n IH]; intros v [|fuel] p r s e Hf Hv Hs He HL; try lia. cbn [code read_bytes].
  rewrite (proj2 (Z.leb_gt v 0)) by lia. cbn [app]. rewrite rd_app by reflexivity.
  pose proof (Z.mod_pos_bound v 128 ltac:(lia)) as Hm. destruct (code_byte_bits (v mod 128) (0 <? v / 128) Hm) as (_ & Hb & Hbit). set (b := code_byte _ _) in *.
  pose proof (Z.pow_pos_nonneg 2 s ltac:(lia) Hs) as Hp. pose proof (Z.div_mod v 128 ltac:(lia)) as Hdm.
  assert (Hd : 0 <= v / 128) by (apply Z.div_pos; lia).
  assert (H32 : s < 32). { apply (Z.pow_lt_mono_r_iff 2); nia. }
  assert (HI : int_shl (Z.land b 127) s = Some (v mod 128 * 2 ^ s)).
  { unfold int_shl. rewrite Hb, Z.shiftl_mul_pow2, (proj2 (Z.ltb_lt _ _)) by lia. rewrite (proj2 (Z.ltb_lt _ _)); [reflexivity|]. nia. }
  rewrite HI, Hbit, HJ by (auto; nia). unfold EDGE_SIZE_PER_BYTE. destruct (Z.ltb_spec 0 (v / 128)) as [L|L].
  - replace (p ++ b :: code n (v / 128) ++ r) with ((p ++ [b]) ++ code n (v / 128) ++ r) by now rewrite <- app_assoc.
    replace (zlen p + 1) with (zlen (p ++ [b])) by len. assert (Hp7 : 2 ^ (s + 7) = 2 ^ s * 128) by now rewrite Z.pow_add_r by lia.
    rewrite IH; [|lia| |lia|rewrite Hp7; nia|rewrite Hp7; nia].
    + f_equal. f_equal; [rewrite Hp7; nia|len].
    + split; [lia|]. apply Z.div_lt_upper_bound; [lia|]. rewrite <- Z.pow_succ_r by lia. replace (Z.succ (Z.of_nat n)) with (Z.of_nat (S n)) by lia. lia.
  - assert (E0 : v / 128 = 0) by lia. replace (code n (v / 128)) with (@nil Z) by (rewrite E0; destruct n; reflexivity). cbn [length].
    f_equal. f_equal; nia.
Qed.

Lemma read_neighbor_spec v p r : 0 < v < 2 ^ 32 -> read_neighbor (p ++ code 5 v ++ r) (zlen p) = Some (v, zlen p + zlen (code 5 v)).
Proof.
  intros Hv. unfold read_neighbor. rewrite (read_bytes_spec _ joins_add 5 v 6 p r 0 0); [|lia|change (128 ^ Z.of_nat 5) with (2 ^ 35); lia|lia|lia|lia].
  f_equal. f_equal. lia.
Qed.

Lemma read_first_neighbor_spec src x p r : 0 <= src < 2 ^ 32 -> 0 <= x < 2 ^ 32 ->
  read_first_neighbor (p ++ first_code src x ++ r) (zlen p) src = Some (x, zlen p + zlen (first_code src x)).
Proof.
  intros Hs Hx. unfold read_first_neighbor, first_code. set (v := Z.abs (x - src)). assert (Hv : 0 <= v < 2 ^ 32) by (unfold v; lia).
  pose proof (Z.mod_pos_bound v 64 ltac:(lia)) as Hm. destruct (first_byte_bits (v mod 64) (x <? src) (0 <? v / 64) Hm) as (_ & H63 & H64 & H128).
  set (b := first_byte _ _ _) in *. cbn [app]. rewrite rd_app by reflexivity. rewrite H63, H64, H128.
  pose proof (Z.div_mod v 64 ltac:(lia)) as Hdm. assert (Hd : 0 <= v / 64) by (apply Z.div_pos; lia).
  assert (E : (if 0 <? v / 64 then read_bytes Z.lor 6 (p ++ b :: code 4 (v / 64) ++ r) (zlen p + 1) (v mod 64) 6 else Some (v mod 64, zlen p + 1)) =
    Some (v, zlen p + zlen (b :: code 4 (v / 64)))).
  { destruct (Z.ltb_spec 0 (v / 64)) as [L|L].
    - replace (p ++ b :: code 4 (v / 64) ++ r) with ((p ++ [b]) ++ code 4 (v / 64) ++ r) by now rewrite <- app_assoc.
      replace (zlen p + 1) with (zlen (p ++ [b])) by len.
      rewrite (read_bytes_spec _ joins_lor 4 (v / 64)); [|lia| |lia|lia|lia].
      + f_equal. f_equal; [lia|len].
      + split; [lia|]. change (128 ^ Z.of_nat 4) with (2 ^ 28). apply Z.div_lt_upper_bound; lia.
    - assert (E0 : v / 64 = 0) by lia. rewrite E0. cbn [code Z.leb Z.compare length]. f_equal. f_equal; lia. }
  rewrite E. cbn [fst snd]. f_equal. f_equal. unfold v. destruct (Z.ltb_spec x src) as [L|L]; unfold u32; [rewrite Z.abs_neq by lia|rewrite Z.abs_eq by lia].
  - replace (src - - (x - src)) with x by lia. apply Z.mod_small. lia.
  - replace (src + (x - src)) with x by lia. apply Z.mod_small. lia.
Qed.
