(* ===== verification/EdgeLists.v ===== *)
(** * Compressed edge lists ([graph/tree_plus])

    A list of neighbours is one block of bytes: its degree, its size in bytes, a reference
    count, its last neighbour and the codes of the neighbours.  [compressed_nodes_2.h] takes
    the blocks from pools of fixed sizes, [compressed_iter.h] reads and writes them, and
    [compressed_lists.h] has the operations on lists.

    A block remembers the pool it came from; freeing it to another pool is an error.  What a
    new block contains is an argument of the model ([junk]), as is what the field [last_ngh]
    of a new writer holds ([unset]). *)

From S2P Require Import Prelude Arrays EdgeCode.
From stdpp Require Import base option list gmap.
#[local] Open Scope Z_scope.

(** ** Blocks *)

(** The pool is the size of its blocks, or 0 for a block of [new_array_no_init]. *)
Record chunk := mk_chunk { bytes : list Z; pool : Z }.

Definition node_array_sizes : list Z := [8; 16; 32; 64; 128; 256; 512; 1024; 2048; 4096; 8192; 16384].
Definition size_class (num_bytes : Z) : Z := match List.find (fun c => num_bytes <=? c) node_array_sizes with Some c => c | None => 0 end.

(** Little-endian words in a block. *)
Definition get16 (a : list Z) (i : Z) : option Z := let? x := rd a i in let? y := rd a (i + 1) in Some (x + 256 * y).
Definition get32 (a : list Z) (i : Z) : option Z := let? x := get16 a i in let? y := get16 a (i + 2) in Some (x + 2 ^ 16 * y).
Definition put16 (i v : Z) (a : list Z) : option (list Z) := let? a := wr a i (v mod 256) in wr a (i + 1) (v / 256 mod 256).
Definition put32 (i v : Z) (a : list Z) : option (list Z) := let? a := put16 i v a in put16 (i + 2) (v / 2 ^ 16) a.

(** Vertex identifiers are hashed to choose the heads of the chunks. *)
Definition hash32_2 (a : Z) : Z :=
  let z := u32 (a + 1831565813) in
  let z := u32 (Z.lxor z (Z.shiftr z 15) * Z.lor z 1) in
  let z := u32 (Z.lxor z (u64 (z + Z.lxor z (Z.shiftr z 7) * Z.lor z 61))) in
  Z.lxor z (Z.shiftr z 14).

Definition head_frequency : Z := 8.
Definition head_mask : Z := Z.shiftl 1 head_frequency - 1.
Definition is_head (vtx_id : Z) : bool := Z.land (hash32_2 vtx_id) head_mask =? 0.

Section EdgeLists.
Context `{NewAddress chunk} (junk : store chunk -> Z -> Z) (unset : Z).
#[local] Abbreviation prog := (prog chunk).

Definition put (p : ptr) (f : list Z -> option (list Z)) : prog unit :=
  b ← deref p; a ← lift (f b.(bytes)); assign p (mk_chunk a b.(pool)).

Definition alloc_node (num_bytes : Z) : prog (ptr * Z) := fun h =>
  let c := size_class num_bytes in
  let size := if c =? 0 then num_bytes else c in
  (p ← new_object (mk_chunk (List.map (fun i => junk h i mod 256) (seqZ 0 size)) c); mret (p, size)) h.

Definition free_block (c : Z) (p : ptr) : prog unit := b ← deref p; if b.(pool) =? c then delete_object p else undefined.

(** The last reference frees the block, to the pool that its size tells. *)
Definition deallocate (p : ptr) : prog unit :=
  match p with
  | None => mret tt
  | Some _ =>
    b ← deref p;
    ref_ct ← lift (get32 b.(bytes) 4);
    put p (put32 4 (u32 (ref_ct - 1)));;
    if 1 <? ref_ct then mret tt else
    b ← deref p; num_bytes ← lift (get16 b.(bytes) 2);
    free_block (size_class num_bytes) p
  end.

Definition get_ref_ct (p : ptr) : prog Z :=
  match p with None => mret 0 | Some _ => b ← deref p; lift (get32 b.(bytes) 4) end.

Definition underlying_array_size (p : ptr) : prog Z :=
  match p with
  | None => mret 0
  | Some _ => b ← deref p; n ← lift (get16 b.(bytes) 2); mret (if size_class n =? 0 then n else size_class n)
  end.

Definition node_size (p : ptr) : prog Z :=
  match p with None => mret 0 | Some _ => b ← deref p; lift (get16 b.(bytes) 0) end.

(** ** Readers *)

Record read_iter := mk_read { it_node : ptr; it_start : Z; it_src : Z; it_deg : Z; it_ngh : Z; it_proc : Z; it_valid : bool }.

Definition new_read_iter (node : ptr) (src : Z) : prog read_iter :=
  match node with
  | None => mret (mk_read None 0 src 0 0 0 false)
  | Some _ => deg ← node_size node; mret (mk_read node 12 src deg 0 0 true)
  end.

Definition last_key (it : read_iter) : prog Z := b ← deref it.(it_node); lift (get32 b.(bytes) 8).

Definition has_next (it : read_iter) : bool := it.(it_proc) <? it.(it_deg).

Definition next (it : read_iter) : prog (Z * read_iter) :=
  b ← deref it.(it_node);
  r ← lift (if it.(it_proc) =? 0 then read_first_neighbor b.(bytes) it.(it_start) it.(it_src)
            else let? r := read_neighbor b.(bytes) it.(it_start) in Some (u32 (it.(it_ngh) + r.1), r.2));
  mret (r.1, mk_read it.(it_node) r.2 it.(it_src) it.(it_deg) r.1 (u32 (it.(it_proc) + 1)) it.(it_valid)).

(** ** Writers *)

Record write_iter := mk_write { w_node : ptr; w_offset : Z; w_proc : Z; w_size : Z; w_src : Z; w_last : Z; w_deg_ub : Z }.

Definition new_write_iter (src deg_ub : Z) : prog write_iter :=
  r ← alloc_node (deg_ub * 5 + 12)%u64;
  mret (mk_write r.1 12 0 r.2 src unset (u32 deg_ub)).

Definition compress_next (w : write_iter) (ngh : Z) : prog write_iter :=
  b ← deref w.(w_node);
  r ← lift (if w.(w_proc) =? 0 then compress_first_neighbor b.(bytes) w.(w_offset) w.(w_src) ngh
            else compress_neighbor b.(bytes) w.(w_offset) (u32 (ngh - w.(w_last))));
  assign w.(w_node) (mk_chunk r.1 b.(pool));;
  mret (mk_write w.(w_node) r.2 (w.(w_proc) + 1)%u64 w.(w_size) w.(w_src) ngh w.(w_deg_ub)).

Definition finish (w : write_iter) : prog ptr :=
  put w.(w_node) (put16 0 w.(w_proc));;
  put w.(w_node) (put16 2 w.(w_size));;
  put w.(w_node) (put32 4 1);;
  put w.(w_node) (put32 8 w.(w_last));;
  if w.(w_proc) =? 0 then deallocate w.(w_node);; mret None else
  node ← (if 2 * w.(w_offset) <=? w.(w_size) then
            r ← alloc_node w.(w_offset);
            b ← deref w.(w_node);
            put r.1 (fun a => memmove a 0 b.(bytes) 0 w.(w_offset));;
            deallocate w.(w_node);;
            mret r.1
          else mret w.(w_node));
  put node (put16 2 w.(w_offset));;
  mret node.

(** ** Walks *)

Section Walk.
Context {St : Type}.

(** [for (i = 0; i < deg; i++)], with the next neighbour. *)
Fixpoint for_next (n : nat) (i : Z) (it : read_iter) (f : Z -> Z -> St -> St) (st : St) : prog St :=
  match n with O => mret st | S n => r ← next it; for_next n (i + 1) r.2 f (f i r.1 st) end.

Definition walk (node : ptr) (src : Z) (f : Z -> Z -> St -> St) (st : St) : prog St :=
  match node with
  | None => mret st
  | Some _ => it ← new_read_iter node src; for_next (Z.to_nat it.(it_deg)) 0 it f st
  end.

Definition map_array (node : ptr) (src offset : Z) (f : Z -> Z -> St -> St) (st : St) : prog St :=
  walk node src (fun i ngh => f ngh (offset + i)%u64) st.

Definition map_nghs (node : ptr) (src : Z) (f : Z -> Z -> St -> St) (st : St) : prog St := walk node src (fun _ ngh => f src ngh) st.

Definition iter_elms (node : ptr) (src : Z) (f : Z -> St -> St) (st : St) : prog St := walk node src (fun _ ngh => f ngh) st.

Fixpoint cond_loop (n : nat) (it : read_iter) (f : Z -> St -> bool * St) (st : St) : prog (bool * St) :=
  match n with
  | O => mret (false, st)
  | S n => r ← next it; let x := f r.1 st in if x.1 : bool then mret (true, x.2) else cond_loop n r.2 f x.2
  end.

Definition iter_elms_cond (node : ptr) (src : Z) (f : Z -> St -> bool * St) (st : St) : prog (bool * St) :=
  match node with
  | None => mret (false, st)
  | Some _ => it ← new_read_iter node src; cond_loop (Z.to_nat it.(it_deg)) it f st
  end.
End Walk.

Definition count_pred (node : ptr) (src : Z) (p : Z -> Z -> bool) : prog Z :=
  walk node src (fun _ ngh ct => if p src ngh then (ct + 1)%u64 else ct) 0.

(** [while (b > 0) {b = b >> 1; a++;}]. *)
Fixpoint log2_loop (fuel : nat) (b a : Z) : Z :=
  match fuel with O => a | S fuel => if 0 <? b then log2_loop fuel (Z.shiftr b 1) (a + 1) else a end.
Definition log2_up (i : Z) : Z := log2_loop 32 (u32 (i - 1)) 0.

Definition uncompressed_size (node : ptr) (src : Z) : prog Z :=
  match node with
  | None => mret 0
  | Some _ => it ← new_read_iter node src; mret (Z.max (Z.shiftl 1 (log2_up (u32 ((it.(it_deg) + 1) * 4)))) 16)
  end.

Definition first_and_last_keys (node : ptr) (src : Z) : prog (Z * Z) :=
  match node with
  | None => mret (2 ^ 32 - 1, 2 ^ 32 - 1)
  | Some _ => it ← new_read_iter node src; r ← next it; l ← last_key r.2; mret (r.1, l)
  end.

Fixpoint contains_loop (fuel : nat) (it : read_iter) (key : Z) : prog bool :=
  if has_next it then
    match fuel with
    | O => undefined
    | S fuel => r ← next it; if r.1 =? key then mret true else if key <? r.1 then mret false else contains_loop fuel r.2 key
    end
  else mret false.

Definition contains (l : ptr) (src key : Z) : prog bool :=
  match l with
  | None => mret false
  | Some _ => it ← new_read_iter l src; contains_loop (Z.to_nat it.(it_deg)) it key
  end.

(** ** New lists *)

(** [for (i = start; i < end; i++) write_iter.compress_next(S[i])]. *)
Fixpoint write_seq (n : nat) (S : list Z) (i : Z) (w : write_iter) : prog write_iter :=
  match n with O => mret w | S n => ngh ← lift (rd S i); w ← compress_next w ngh; write_seq n S (i + 1) w end.

Definition generate_tree_node (src : Z) (S : list Z) (start end_ : Z) : prog ptr :=
  if end_ <=? start then mret None else
  w ← new_write_iter src (end_ - start);
  w ← write_seq (Z.to_nat (end_ - start)) S start w;
  finish w.

Definition generate_plus (S : list Z) (first_head_ind src : Z) : prog ptr :=
  if first_head_ind =? 0 then mret None else
  w ← new_write_iter src first_head_ind;
  w ← write_seq (Z.to_nat first_head_ind) S 0 w;
  finish w.

(** [for (i = 0; i < n; i++) w.compress_next(it.next())]. *)
Fixpoint copy_loop (n : nat) (it : read_iter) (w : write_iter) : prog (read_iter * write_iter) :=
  match n with O => mret (it, w) | S n => r ← next it; w ← compress_next w r.1; copy_loop n r.2 w end.

Definition copy_from_it (it : read_iter) (deg src : Z) : prog (ptr * read_iter) :=
  w ← new_write_iter src deg;
  r ← copy_loop (Z.to_nat deg) it w;
  p ← finish r.2; mret (p, r.1).

Definition copy_node (node : ptr) : prog ptr :=
  match node with
  | None => mret None
  | Some _ => b ← deref node; c ← lift (get32 b.(bytes) 4); put node (put32 4 (u32 (c + 1)));; mret node
  end.

(** The number of neighbours below the key, and whether the key is one. *)
Fixpoint split_scan (n : nat) (it : read_iter) (split_key num_lt : Z) : prog (Z * bool) :=
  match n with
  | O => mret (num_lt, false)
  | S n => r ← next it; if r.1 =? split_key then mret (num_lt, true) else if split_key <? r.1 then mret (num_lt, false) else split_scan n r.2 split_key (num_lt + 1)
  end.

Definition split_node (node : ptr) (src split_key : Z) : prog (ptr * ptr * bool) :=
  match node with
  | None => mret (None, None, false)
  | Some _ =>
    it ← new_read_iter node src;
    s ← split_scan (Z.to_nat it.(it_deg)) it split_key 0;
    let num_gt := it.(it_deg) - s.1 - (if s.2 : bool then 1 else 0) in
    it ← new_read_iter node src;
    x ← (if s.1 =? 0 then mret (None, it) else copy_from_it it s.1 src);
    it ← (if s.2 : bool then r ← next x.2; mret r.2 else mret x.2);
    y ← (if num_gt =? 0 then mret (None, it) else copy_from_it it num_gt src);
    mret (x.1, y.1, s.2)
  end.

(** ** Merges *)

(** One input of a merge: the index, the size, the current neighbour and the reader. *)
Record side := mk_side { s_i : Z; s_size : Z; s_v : Z; s_it : read_iter }.

Definition more (s : side) : bool := s.(s_i) <? s.(s_size).

(** [i++; if (i < size) { v = it.next(); }]. *)
Definition advance (s : side) : prog side :=
  if s.(s_i) + 1 <? s.(s_size) then r ← next s.(s_it); mret (mk_side (s.(s_i) + 1) s.(s_size) r.1 r.2)
  else mret (mk_side (s.(s_i) + 1) s.(s_size) s.(s_v) s.(s_it)).

Definition new_side (it : read_iter) (size : Z) : prog side := r ← next it; mret (mk_side 0 size r.1 r.2).

Fixpoint union_loop (fuel : nat) (l r : side) (w : write_iter) : prog (side * side * write_iter) :=
  if more l && more r then
    match fuel with
    | O => undefined
    | S fuel =>
      if l.(s_v) <? r.(s_v) then w ← compress_next w l.(s_v); l ← advance l; union_loop fuel l r w
      else if r.(s_v) <? l.(s_v) then w ← compress_next w r.(s_v); r ← advance r; union_loop fuel l r w
      else w ← compress_next w l.(s_v); l ← advance l; r ← advance r; union_loop fuel l r w
    end
  else mret (l, r, w).

(** [while (i < size) { compress_next(v); i++; if (i < size) v = it.next(); }]. *)
Fixpoint drain (fuel : nat) (s : side) (w : write_iter) : prog (side * write_iter) :=
  if more s then
    match fuel with O => undefined | S fuel => w ← compress_next w s.(s_v); s ← advance s; drain fuel s w end
  else mret (s, w).

Definition union_its (l_it : read_iter) (l_size : Z) (r_it : read_iter) (r_size src : Z) : prog (ptr * read_iter * read_iter) :=
  w ← new_write_iter src (l_size + r_size)%u64;
  l ← new_side l_it l_size; r ← new_side r_it r_size;
  x ← union_loop (Z.to_nat (l_size + r_size)) l r w;
  y ← drain (Z.to_nat l_size) x.1.1 x.2;
  z ← drain (Z.to_nat r_size) x.1.2 y.2;
  p ← finish z.2; mret (p, y.1.(s_it), z.1.(s_it)).

Definition union_it_and_node (it : read_iter) (l_size : Z) (r_node : ptr) (src : Z) : prog (ptr * read_iter) :=
  r_it ← new_read_iter r_node src;
  x ← union_its it l_size r_it r_it.(it_deg) src; mret (x.1.1, x.1.2).

Definition union_nodes (l r : ptr) (src : Z) : prog ptr :=
  match l, r with
  | Some _, None => copy_node l
  | None, Some _ => copy_node r
  | _, _ =>
    l_it ← new_read_iter l src; r_it ← new_read_iter r src;
    x ← union_its l_it l_it.(it_deg) r_it r_it.(it_deg) src; mret x.1.1
  end.

Fixpoint difference_loop (fuel : nat) (l r : side) (w : write_iter) : prog (side * side * write_iter) :=
  if more l && more r then
    match fuel with
    | O => undefined
    | S fuel =>
      if l.(s_v) <? r.(s_v) then l ← advance l; difference_loop fuel l r w
      else if r.(s_v) <? l.(s_v) then w ← compress_next w r.(s_v); r ← advance r; difference_loop fuel l r w
      else l ← advance l; r ← advance r; difference_loop fuel l r w
    end
  else mret (l, r, w).

Definition difference_its (l_it : read_iter) (l_size : Z) (r_it : read_iter) (r_size src : Z) : prog (ptr * read_iter * read_iter) :=
  w ← new_write_iter src r_size;
  l ← new_side l_it l_size; r ← new_side r_it r_size;
  x ← difference_loop (Z.to_nat (l_size + r_size)) l r w;
  z ← drain (Z.to_nat r_size) x.1.2 x.2;
  p ← finish z.2; mret (p, x.1.1.(s_it), z.1.(s_it)).

Definition difference_it_and_node (it : read_iter) (l_size : Z) (r_node : ptr) (src : Z) : prog (ptr * read_iter) :=
  r_it ← new_read_iter r_node src;
  x ← difference_its it l_size r_it r_it.(it_deg) src; mret (x.1.1, x.1.2).

(** The neighbours of [r] that are not in [l]. *)
Definition difference (l r : ptr) (src : Z) : prog ptr :=
  match l, r with
  | Some _, None => mret None
  | None, Some _ => copy_node r
  | _, _ =>
    l_it ← new_read_iter l src; r_it ← new_read_iter r src;
    x ← difference_its l_it l_it.(it_deg) r_it r_it.(it_deg) src; mret x.1.1
  end.

Fixpoint intersect_loop (fuel : nat) (l r : side) (ct : Z) : prog (side * side * Z) :=
  if more l && more r then
    match fuel with
    | O => undefined
    | S fuel =>
      if l.(s_v) <? r.(s_v) then l ← advance l; intersect_loop fuel l r ct
      else if r.(s_v) <? l.(s_v) then r ← advance r; intersect_loop fuel l r ct
      else l ← advance l; r ← advance r; intersect_loop fuel l r (ct + 1)%u64
    end
  else mret (l, r, ct).

Definition intersect_its (l_it : read_iter) (l_size : Z) (r_it : read_iter) (r_size : Z) : prog (Z * read_iter * read_iter) :=
  l ← new_side l_it l_size; r ← new_side r_it r_size;
  x ← intersect_loop (Z.to_nat (l_size + r_size)) l r 0; mret (x.2, x.1.1.(s_it), x.1.2.(s_it)).

Definition intersect (l : ptr) (l_src : Z) (r : ptr) (r_src : Z) : prog Z :=
  match l, r with
  | Some _, Some _ =>
    l_it ← new_read_iter l l_src; r_it ← new_read_iter r r_src;
    x ← intersect_its l_it l_it.(it_deg) r_it r_it.(it_deg); mret x.1.1
  | _, _ => mret 0
  end.

Fixpoint filter_loop (n : nat) (it : read_iter) (p : Z -> bool) (w : write_iter) : prog write_iter :=
  match n with
  | O => mret w
  | S n => r ← next it; w ← (if p r.1 then compress_next w r.1 else mret w); filter_loop n r.2 p w
  end.

Definition filter (node : ptr) (src : Z) (p : Z -> bool) : prog ptr :=
  match node with
  | None => mret None
  | Some _ =>
    it ← new_read_iter node src;
    w ← new_write_iter src it.(it_deg);
    w ← filter_loop (Z.to_nat it.(it_deg)) it p w;
    finish w
  end.
End EdgeLists.
