(* ===== verification/EdgeRepr.v ===== *)
(** * What a block of an edge list holds

    The layout of a block ([node_is]), readers ([reads]: the neighbours that are left) and
    writers ([writes]: the neighbours written so far), and the proofs of [next],
    [compress_next], [finish] and [deallocate]. *)

From S2P Require Import Prelude Arrays EdgeCode.
From stdpp Require Import base option list gmap sorting.
From S2P Require Import EdgeLists.
#[local] Open Scope Z_scope.

(** ** Words in blocks *)

Definition le16 (v : Z) : list Z := [v mod 256; v / 256 mod 256].
Definition le32 (v : Z) : list Z := le16 v ++ le16 (v / 2 ^ 16).

Lemma get16_at p v r i : i = zlen p -> get16 (p ++ le16 v ++ r) i = Some (v mod 2 ^ 16).
Proof.
  intros ->. unfold get16, le16. cbn [app]. rewrite rd_app by reflexivity. rewrite (cons_middle (v mod 256)), app_assoc, rd_app by len.
  f_equal. change (2 ^ 16) with (256 * 256). rewrite Z.rem_mul_r by lia. reflexivity.
Qed.

Lemma get32_at p v r i : i = zlen p -> get32 (p ++ le32 v ++ r) i = Some (v mod 2 ^ 32).
Proof.
  intros ->. unfold get32, le32. rewrite <- app_assoc, get16_at by reflexivity. rewrite app_assoc, get16_at by (unfold le16; len).
  f_equal. change (2 ^ 32) with (2 ^ 16 * 2 ^ 16). rewrite Z.rem_mul_r by lia. reflexivity.
Qed.

Lemma put16_at p q v r i : i = zlen p -> length q = 2%nat -> put16 i v (p ++ q ++ r) = Some (p ++ le16 v ++ r).
Proof.
  intros -> Hq. destruct q as [|x [|y [|]]]; try discriminate. unfold put16, le16. cbn [app]. rewrite wr_app by reflexivity.
  rewrite (cons_middle (v mod 256) p), app_assoc, wr_app by len. now rewrite <- app_assoc.
Qed.

Lemma put32_at p q v r i : i = zlen p -> length q = 4%nat -> put32 i v (p ++ q ++ r) = Some (p ++ le32 v ++ r).
Proof.
  intros -> Hq. destruct q as [|x [|y [|z [|w [|]]]]]; try discriminate. unfold put32, le32.
  change ([x; y; z; w] ++ r) with ([x; y] ++ [z; w] ++ r). rewrite put16_at by reflexivity.
  rewrite app_assoc, put16_at by (unfold le16; len). now rewrite <- !app_assoc.
Qed.

Lemma le16_mod v w : v mod 2 ^ 16 = w mod 2 ^ 16 -> le16 v = le16 w.
Proof.
  intros E. unfold le16. change (2 ^ 16) with (256 * 256) in E. rewrite !Z.rem_mul_r in E by lia.
  pose proof (Z.mod_pos_bound v 256 ltac:(lia)). pose proof (Z.mod_pos_bound w 256 ltac:(lia)).
  assert (v mod 256 = w mod 256 /\ v / 256 mod 256 = w / 256 mod 256) as [-> ->] by lia. reflexivity.
Qed.

(** ** Lists of neighbours *)

Definition vertex (x : Z) : Prop := 0 <= x < 2 ^ 32.
Definition nghs (src : Z) (l : list Z) : Prop := vertex src /\ sorted l /\ Forall vertex l.

Definition last_of (d : Z) (l : list Z) : Z := match last l with Some x => x | None => d end.

(** The block of a list: the head, the codes, and bytes that are not used. *)
Definition head (deg size ref_ct last : Z) : list Z := le16 deg ++ le16 size ++ le32 ref_ct ++ le32 last.

Definition node_size_of (src : Z) (l : list Z) : Z := 12 + zlen (codes src l).

Definition node_in (pl src : Z) (l : list Z) (ref_ct : Z) (b : chunk) : Prop :=
  nghs src l /\ l <> [] /\ zlen l < 2 ^ 16 /\ node_size_of src l < 2 ^ 16 /\ 0 < ref_ct < 2 ^ 32 /\ b.(pool) = pl /\
  exists junk, b.(bytes) = head (zlen l) (node_size_of src l) ref_ct (last_of 0 l) ++ codes src l ++ junk.

(** The block is from the pool that its size tells. *)
Definition node_is (src : Z) (l : list Z) (ref_ct : Z) (b : chunk) : Prop := node_in (size_class (node_size_of src l)) src l ref_ct b.

Lemma head_length d s c x : length (head d s c x) = 12%nat.
Proof. reflexivity. Qed.

Lemma codes_snoc src l x d : codes src (l ++ [x]) = codes src l ++ (match l with [] => first_code src x | _ => code 5 (x - last_of d l) end).
Proof.
  destruct l as [|y l]; [cbn; now rewrite app_nil_r|]. cbn [app codes]. unfold last_of.
  destruct (last (y :: l)) as [z|] eqn:E; [|apply last_None in E; discriminate]. rewrite (deltas_app y l z x E), app_assoc. reflexivity.
Qed.

Lemma last_of_snoc d l x : last_of d (l ++ [x]) = x.
Proof. unfold last_of. now rewrite last_snoc. Qed.

Lemma last_of_default d d' l : l <> [] -> last_of d l = last_of d' l.
Proof. intros H. unfold last_of. destruct (last l) eqn:E; [reflexivity|]. now apply last_None in E. Qed.

Lemma last_of_in d l : l <> [] -> In (last_of d l) l.
Proof.
  intros H. unfold last_of. destruct (last l) as [x|] eqn:E; [|now apply last_None in E].
  apply last_Some in E as [l' ->]. apply in_or_app. right. now left.
Qed.

Lemma nghs_snoc src l x d : nghs src (l ++ [x]) -> nghs src l /\ vertex x /\ (l <> [] -> last_of d l < x).
Proof.
  intros (Hs & (H1 & _ & H2)%sorted_app & (H3 & H4)%Forall_app). split; [repeat split; auto; apply Hs|]. split; [now apply Forall_cons in H4 as [H4 _]|].
  intros H. pose proof (proj1 (List.Forall_forall _ _) H2 _ (last_of_in d l H)) as H5. now apply Forall_cons in H5 as [H5 _].
Qed.

(** ** Readers *)

Section Read.
Context (L : list (positive * chunk)).

(** The reader stands before the neighbours [l]. *)
Definition reads (it : read_iter) (l : list Z) : Prop :=
  exists p b pre src junk, it.(it_node) = Some p /\ (p, b) ∈ L /\ it.(it_start) = zlen pre /\ it.(it_deg) = it.(it_proc) + zlen l /\ 0 <= it.(it_proc) /\
    it.(it_deg) < 2 ^ 16 /\ nghs src l /\ it.(it_src) = src /\
    ((it.(it_proc) = 0 /\ b.(bytes) = pre ++ codes src l ++ junk) \/
     (0 < it.(it_proc) /\ b.(bytes) = pre ++ deltas it.(it_ngh) l ++ junk /\ vertex it.(it_ngh) /\ Forall (Z.lt it.(it_ngh)) l)).

Lemma ends_next it x l K h : reads it (x :: l) -> owns h K -> (forall c, c ∈ L -> c ∈ K) ->
  ends (next it) (fun r h' => h' = h /\ r.1 = x /\ reads r.2 l) h.
Proof.
  intros (p & b & pre & src & junk & Hn & Hb & Hst & Hd & Hp & Hm & Hg & Hsrc & HB) HO HK. unfold next. rewrite Hn, Hst, Hsrc.
  apply ends_bind, (ends_deref _ _ p b _ HO); [auto|]. pose proof Hg as (Hs & Ho & Hv). apply Forall_cons in Hv as [Hx Hv].
  assert (Hg' : nghs src l) by (split; [exact Hs|split; [exact (sorted_tail _ _ Ho)|exact Hv]]).
  assert (Hgt : Forall (Z.lt x) l) by (now apply StronglySorted_inv in Ho).
  assert (Hp32 : u32 (it.(it_proc) + 1) = it.(it_proc) + 1) by (apply Z.mod_small; len).
  assert (Main : forall bs, b.(bytes) = pre ++ (bs ++ deltas x l) ++ junk -> reads (mk_read (Some p) (zlen pre + zlen bs) src it.(it_deg) x (it.(it_proc) + 1) it.(it_valid)) l).
  { intros bs HB'. exists p, b, (pre ++ bs), src, junk. cbn [it_node it_start it_deg it_proc it_src it_ngh].
    split; [reflexivity|]. split; [exact Hb|]. split; [len|]. split; [len|]. split; [lia|]. split; [exact Hm|]. split; [exact Hg'|]. split; [reflexivity|].
    right. split; [lia|]. split; [rewrite HB', <- !app_assoc; reflexivity|auto]. }
  destruct HB as [[H0 HB]|(H0 & HB & Hvn & Hln)].
  - rewrite H0, Z.eqb_refl, HB. cbn [codes]. rewrite <- app_assoc, read_first_neighbor_spec by assumption.
    apply ends_bind, ends_ret, ends_ret. cbn [fst snd]. rewrite <- H0, Hp32. split; [reflexivity|]. split; [reflexivity|]. apply Main. exact HB.
  - rewrite (proj2 (Z.eqb_neq _ _)), HB by lia. cbn [deltas]. apply Forall_cons in Hln as [Hlx _]. unfold vertex in *.
    rewrite <- app_assoc, read_neighbor_spec by lia. apply ends_bind, ends_ret, ends_ret. cbn [fst snd]. rewrite Hp32.
    replace (u32 (it.(it_ngh) + (x - it.(it_ngh)))) with x by (symmetry; replace (it.(it_ngh) + (x - it.(it_ngh))) with x by lia; apply Z.mod_small; lia).
    split; [reflexivity|]. split; [reflexivity|]. apply Main. exact HB.
Qed.

Lemma ends_node_size p b src l c K h : owns h K -> (p, b) ∈ K -> node_is src l c b -> ends (node_size (Some p)) (fun d h' => h' = h /\ d = zlen l) h.
Proof.
  intros HO Hb (_ & _ & Hd & _ & _ & _ & junk & HB). apply ends_bind, (ends_deref _ _ p b _ HO Hb). rewrite HB. unfold head.
  apply (ends_lift _ (zlen l)); [|auto]. rewrite <- !app_assoc. etransitivity; [exact (get16_at [] (zlen l) _ 0 eq_refl)|]. now rewrite Z.mod_small by lia.
Qed.

Lemma ends_new_reader p b src l c K h : owns h K -> (p, b) ∈ L -> (forall c, c ∈ L -> c ∈ K) -> node_is src l c b ->
  ends (new_read_iter (Some p) src) (fun it h' => h' = h /\ reads it l /\ it.(it_deg) = zlen l /\ it.(it_proc) = 0 /\ it.(it_node) = Some p) h.
Proof.
  intros HO Hb HK HN. eapply ends_seq; [exact (ends_node_size p b src l c K h HO (HK _ Hb) HN)|]. intros d h' [-> ->]. apply ends_ret.
  destruct HN as (Hg & _ & Hd & _ & _ & _ & junk & HB). split; [reflexivity|]. split; [|auto]. exists p, b, (head (zlen l) (node_size_of src l) c (last_of 0 l)), src, junk.
  cbn [it_node it_start it_deg it_proc it_src it_ngh]. rewrite head_length. repeat split; auto; try lia; try apply Hg.
Qed.
End Read.

(** ** Pools *)

Definition alloc_size (n : Z) : Z := if size_class n =? 0 then n else size_class n.

Ltac pools := unfold size_class, node_array_sizes in *; cbn [List.find] in *;
  repeat match goal with |- context [?n <=? ?c] => destruct (Z.leb_spec n c) | H : context [?n <=? ?c] |- _ => destruct (Z.leb_spec n c) end;
  cbn in *; try lia; try reflexivity.

Lemma alloc_size_ge n : 0 < n -> n <= alloc_size n.
Proof. intros Hn. unfold alloc_size. pools. Qed.

Lemma alloc_size_small n : 0 < n < 2 ^ 16 -> alloc_size n < 2 ^ 16.
Proof. intros Hn. unfold alloc_size. pools. Qed.

(** The pool of a block is told by its size when it is allocated, *)
Lemma size_class_alloc n : 0 < n -> size_class (alloc_size n) = size_class n.
Proof.
  intros Hn. unfold alloc_size. destruct (Z.eqb_spec (size_class n) 0) as [E|E]; [reflexivity|].
  unfold size_class in E |- * at 2 3. cbn [node_array_sizes List.find] in *.
  repeat match goal with |- context [n <=? ?c] => destruct (n <=? c); [reflexivity|] end. now destruct E.
Qed.

(** and by that of its contents, when they take more than half of it. *)
Lemma size_class_half n m : n <= 16384 -> 0 < m <= n -> alloc_size n < 2 * m -> size_class m = size_class n.
Proof.
  intros Hn Hm HL. unfold alloc_size in HL. assert (E : (size_class n =? 0) = false).
  { unfold size_class. cbn [node_array_sizes List.find]. repeat match goal with |- context [n <=? ?c] => destruct (Z.leb_spec n c); [reflexivity|] end. lia. }
  rewrite E in HL. clear E. unfold size_class in HL |- * at 2. cbn [node_array_sizes List.find] in *.
  repeat match goal with |- context [n <=? ?c] => destruct (Z.leb_spec n c); [pools|] end. lia.
Qed.

(** ** Writers *)

Section Write.
Context `{NewAddressOk chunk} (junk : store chunk -> Z -> Z) (unset : Z).
Implicit Types (R : list (positive * chunk)) (Q : unit -> store chunk -> Prop).

Lemma ends_put p b f a R h Q : owns h ((p, b) :: R) -> f b.(bytes) = Some a ->
  (forall h', owns h' ((p, mk_chunk a b.(pool)) :: R) -> Q tt h') -> ends (put (Some p) f) Q h.
Proof.
  intros HO Hf HQ. apply ends_bind, (ends_deref_first _ _ _ _ _ HO), ends_bind, (ends_lift _ _ _ _ Hf). exact (ends_assign _ _ _ _ _ _ HO HQ).
Qed.

Lemma ends_alloc n R h (Q : ptr * Z -> store chunk -> Prop) : owns h R -> 0 < n ->
  (forall p a h', zlen a = alloc_size n -> owns h' ((p, mk_chunk a (size_class n)) :: R) -> Q (Some p, alloc_size n) h') ->
  ends (alloc_node junk n) Q h.
Proof.
  intros HO Hn HQ. unfold alloc_node. fold (alloc_size n). unfold ends. set (m := _ ≫= _). change (ends m Q h). subst m.
  apply ends_bind, (ends_new _ _ _ _ HO). intros p h' HO'. apply ends_ret. eapply HQ; [|exact HO'].
  rewrite length_map, length_seqZ. pose proof (alloc_size_ge n Hn). lia.
Qed.

(** The writer has written [l], of at most [cap] neighbours, into the block [b] at [p]. *)
Definition writes (src : Z) (l : list Z) (cap : Z) (w : write_iter) (p : positive) (b : chunk) : Prop :=
  w.(w_node) = Some p /\ w.(w_src) = src /\ w.(w_offset) = node_size_of src l /\ w.(w_proc) = zlen l /\ (l <> [] -> w.(w_last) = last_of 0 l) /\
  nghs src l /\ zlen l <= cap /\ 5 * cap + 12 < 2 ^ 16 /\ w.(w_size) = alloc_size (5 * cap + 12) /\ zlen b.(bytes) = w.(w_size) /\
  b.(pool) = size_class (5 * cap + 12) /\ exists hd rest, b.(bytes) = hd ++ codes src l ++ rest /\ length hd = 12%nat.

Lemma ends_new_writer src cap R h : owns h R -> vertex src -> 0 <= cap -> 5 * cap + 12 < 2 ^ 16 ->
  ends (new_write_iter junk unset src cap) (fun w h' => exists p b, writes src [] cap w p b /\ owns h' ((p, b) :: R)) h.
Proof.
  intros HO Hs Hc0 Hc. unfold new_write_iter. assert (E : (cap * 5 + 12)%u64 = 5 * cap + 12) by (unfold add64, mul64, u64, uwrap; rewrite Zplus_mod_idemp_l, Z.mod_small; lia).
  rewrite E. apply ends_bind, (ends_alloc (5 * cap + 12) R h _ HO); [lia|]. intros p a h' Ha HO'. apply ends_ret. eexists p, _. split; [|exact HO'].
  split; [reflexivity|]. split; [reflexivity|]. split; [reflexivity|]. split; [reflexivity|]. split; [contradiction|].
  split; [repeat split; [apply Hs|apply Hs|constructor|constructor]|]. split; [cbn; lia|]. split; [exact Hc|]. split; [reflexivity|]. split; [exact Ha|]. split; [reflexivity|].
  exists (take 12 a), (drop 12 a). cbn [bytes codes app]. rewrite take_drop. split; [reflexivity|]. rewrite length_take. pose proof (alloc_size_ge (5 * cap + 12) ltac:(lia)). lia.
Qed.

(** There is room for one more code. *)
Lemma split_room {X} (rest : list X) n : (n <= length rest)%nat -> exists q r, rest = q ++ r /\ length q = n.
Proof. intros Hn. exists (take n rest), (drop n rest). rewrite take_drop, length_take. split; [reflexivity|lia]. Qed.

Lemma ends_compress src l x cap w p b R h : owns h ((p, b) :: R) -> writes src l cap w p b -> nghs src (l ++ [x]) -> zlen l < cap ->
  ends (compress_next w x) (fun w' h' => exists b', writes src (l ++ [x]) cap w' p b' /\ owns h' ((p, b') :: R)) h.
Proof.
  intros HO (Hn & Hs & Ho & Hp & Hl & Hg & Hcap & Hc & Hsz & Hlen & Hpool & hd & rest & HB & Hhd) Hg' Hlt.
  destruct (nghs_snoc src l x 0 Hg') as (_ & Hx & Hlast). pose proof Hg as (Hsv & _ & Hv). unfold compress_next. rewrite Hn, Hs, Ho, Hp.
  apply ends_bind, (ends_deref_first _ _ _ _ _ HO). pose proof (codes_snoc src l x 0) as EC. set (new := match l with [] => _ | _ => _ end) in EC.
  pose proof (codes_length src (l ++ [x])) as Hcl. pose proof (alloc_size_ge (5 * cap + 12) ltac:(lia)) as Hal. rewrite EC in Hcl.
  destruct (split_room rest (length new)) as (q & r & -> & Hq); [rewrite HB in Hlen; len|].
  assert (Hoff : node_size_of src l = zlen (hd ++ codes src l)) by (unfold node_size_of; len).
  apply ends_bind, (ends_lift _ (hd ++ codes src (l ++ [x]) ++ r, node_size_of src (l ++ [x]))).
  { rewrite HB, Hoff. replace (hd ++ codes src l ++ q ++ r) with ((hd ++ codes src l) ++ q ++ r) by now rewrite <- !app_assoc.
    assert (Goal1 : Some ((hd ++ codes src l) ++ new ++ r, zlen (hd ++ codes src l) + zlen new) = Some (hd ++ codes src (l ++ [x]) ++ r, node_size_of src (l ++ [x]))).
    { rewrite EC, <- !app_assoc. f_equal. f_equal. unfold node_size_of. rewrite EC. len. }
    rewrite <- Goal1. destruct l as [|y l]; cbn [length].
    - now apply compress_first_neighbor_spec.
    - rewrite (proj2 (Z.eqb_neq _ _)) by lia. rewrite Hl by discriminate. unfold vertex in *. specialize (Hlast ltac:(discriminate)).
      pose proof (proj1 (List.Forall_forall _ _) Hv _ (last_of_in 0 (y :: l) ltac:(discriminate))) as Hvl. cbn beta in Hvl.
      replace (u32 (x - last_of 0 (y :: l))) with (x - last_of 0 (y :: l)) by (symmetry; apply Z.mod_small; lia). now apply compress_neighbor_spec; [lia|]. }
  apply ends_bind, (ends_assign _ _ _ _ _ _ HO). intros h1 H1. apply ends_ret. eexists. split; [|exact H1].
  assert (Hlen' : zlen (hd ++ codes src (l ++ [x]) ++ r) = w.(w_size)) by (rewrite <- Hlen, HB, EC; len).
  split; [reflexivity|]. split; [reflexivity|]. split; [reflexivity|]. split; [cbn [w_proc]; unfold add64, u64, uwrap; rewrite Z.mod_small; len|].
  split; [intros _; cbn [w_last]; now rewrite last_of_snoc|]. split; [exact Hg'|]. split; [len|]. split; [exact Hc|]. split; [exact Hsz|].
  split; [exact Hlen'|]. split; [exact Hpool|]. exists hd, r. auto.
Qed.

(** ** Releasing a block *)

Lemma ends_release p b d sz post R h Q : owns h ((p, b) :: R) -> b.(bytes) = le16 d ++ le16 sz ++ le32 1 ++ post -> 0 <= sz < 2 ^ 16 ->
  b.(pool) = size_class sz -> (forall h', owns h' R -> Q tt h') -> ends (deallocate (Some p)) Q h.
Proof.
  intros HO HB Hsz Hpool HQ. unfold deallocate. apply ends_bind, (ends_deref_first _ _ _ _ _ HO). rewrite app_assoc in HB.
  apply ends_bind, (ends_lift _ 1). { rewrite HB. now rewrite get32_at by reflexivity. }
  change (u32 (1 - 1)) with 0. apply ends_bind, (ends_put p b _ ((le16 d ++ le16 sz) ++ le32 0 ++ post) R h _ HO). { rewrite HB. now apply put32_at. }
  intros h1 H1. cbn [Z.ltb Z.compare Pos.compare Pos.compare_cont]. apply ends_bind, (ends_deref_first _ _ _ _ _ H1). cbn [bytes].
  apply ends_bind, (ends_lift _ sz). { rewrite <- !app_assoc, get16_at by reflexivity. now rewrite Z.mod_small by lia. }
  apply ends_bind, (ends_deref_first _ _ _ _ _ H1). cbn [pool]. rewrite Hpool, Z.eqb_refl. apply (ends_delete _ _ _ _ _ H1). auto.
Qed.

Lemma ends_deallocate p b src l c R h : owns h ((p, b) :: R) -> node_is src l c b ->
  ends (deallocate (Some p)) (fun _ h' => if c =? 1 then owns h' R else exists b', node_is src l (c - 1) b' /\ owns h' ((p, b') :: R)) h.
Proof.
  intros HO (Hg & Hne & Hd & Hsz & Hc & Hpool & rest & HB). destruct (Z.eqb_spec c 1) as [->|NE].
  - apply (ends_release p b (zlen l) (node_size_of src l) (le32 (last_of 0 l) ++ codes src l ++ rest) R h _ HO); [|unfold node_size_of in *; lia|exact Hpool|auto].
    rewrite HB. unfold head. now rewrite <- !app_assoc.
  - unfold deallocate. apply ends_bind, (ends_deref_first _ _ _ _ _ HO).
    set (pre := le16 (zlen l) ++ le16 (node_size_of src l)). set (post := le32 (last_of 0 l) ++ codes src l ++ rest).
    assert (HB' : b.(bytes) = pre ++ le32 c ++ post) by (rewrite HB; unfold head, pre, post; now rewrite <- !app_assoc). rewrite HB'.
    apply ends_bind, (ends_lift _ c). { rewrite get32_at by reflexivity. now rewrite Z.mod_small by lia. }
    replace (u32 (c - 1)) with (c - 1) by (symmetry; apply Z.mod_small; lia).
    apply ends_bind, (ends_put p b _ (pre ++ le32 (c - 1) ++ post) R h _ HO). { rewrite HB'. now apply put32_at. }
    intros h1 H1. rewrite (proj2 (Z.ltb_lt 1 c)) by lia. apply ends_ret. eexists. split; [|exact H1].
    split; [exact Hg|]. split; [exact Hne|]. split; [exact Hd|]. split; [exact Hsz|]. split; [lia|]. split; [exact Hpool|].
    exists rest. unfold pre, post, head. cbn [bytes]. now rewrite <- !app_assoc.
Qed.

(** The last reference to a block of another pool cannot be given up. *)
Lemma deallocate_wrong_pool p b pl src l R h : owns h ((p, b) :: R) -> node_in pl src l 1 b -> pl <> size_class (node_size_of src l) -> deallocate (Some p) h = None.
Proof.
  intros HO (_ & _ & _ & Hsz & _ & Hpool & rest & HB) NE. set (d := zlen l) in *. set (sz := node_size_of src l) in *. set (post := le32 (last_of 0 l) ++ codes src l ++ rest).
  assert (HB' : b.(bytes) = (le16 d ++ le16 sz) ++ le32 1 ++ post) by (rewrite HB; unfold head, post; now rewrite <- !app_assoc). unfold deallocate.
  apply ends_fails, (ends_deref_first _ _ _ _ _ HO), ends_fails, (ends_lift _ 1). { rewrite HB'. now rewrite get32_at by reflexivity. }
  change (u32 (1 - 1)) with 0. apply ends_fails, (ends_put p b _ ((le16 d ++ le16 sz) ++ le32 0 ++ post) R h _ HO). { rewrite HB'. now apply put32_at. }
  intros h1 H1. cbn [Z.ltb Z.compare Pos.compare Pos.compare_cont]. apply ends_fails, (ends_deref_first _ _ _ _ _ H1). cbn [bytes].
  apply ends_fails, (ends_lift _ sz). { rewrite <- !app_assoc, get16_at by reflexivity. rewrite Z.mod_small; [reflexivity|]. unfold sz, node_size_of in *. lia. }
  apply ends_fails, (ends_deref_first _ _ _ _ _ H1). cbn [pool]. rewrite Hpool, (proj2 (Z.eqb_neq _ _)) by exact NE. reflexivity.
Qed.

(** ** Finishing *)

(** The pool of the finished block: the contents move when they take at most half of it. *)
Definition final_pool (src : Z) (l : list Z) (cap : Z) : Z :=
  if 2 * node_size_of src l <=? alloc_size (5 * cap + 12) then size_class (node_size_of src l) else size_class (5 * cap + 12).

Definition finished (src : Z) (l : list Z) (cap : Z) R (q : ptr) (h' : store chunk) : Prop :=
  match l with
  | [] => q = None /\ owns h' R
  | _ => exists p b, q = Some p /\ node_in (final_pool src l cap) src l 1 b /\ owns h' ((p, b) :: R)
  end.

Lemma finished_some src l cap R p b h' : l <> [] -> node_in (final_pool src l cap) src l 1 b -> owns h' ((p, b) :: R) -> finished src l cap R (Some p) h'.
Proof. destruct l as [|x l]; [contradiction|]. intros _ HN HO. exists p, b. auto. Qed.

Lemma ends_set_size p b d q sz' post R h Q : owns h ((p, b) :: R) -> b.(bytes) = le16 d ++ q ++ post -> length q = 2%nat ->
  (forall h', owns h' ((p, mk_chunk (le16 d ++ le16 sz' ++ post) b.(pool)) :: R) -> Q tt h') -> ends (put (Some p) (put16 2 sz')) Q h.
Proof. intros HO HB Hq HQ. apply (ends_put p b _ (le16 d ++ le16 sz' ++ post) R h _ HO); [|exact HQ]. rewrite HB. now apply put16_at. Qed.

(** The four fields are written. *)
Lemma ends_head w p b hd rest R h (f : prog chunk ptr) (Q : ptr -> store chunk -> Prop) : w.(w_node) = Some p -> owns h ((p, b) :: R) -> b.(bytes) = hd ++ rest -> length hd = 12%nat ->
  (forall h', owns h' ((p, mk_chunk (le16 w.(w_proc) ++ le16 w.(w_size) ++ le32 1 ++ le32 w.(w_last) ++ rest) b.(pool)) :: R) -> ends f Q h') ->
  ends (put w.(w_node) (put16 0 w.(w_proc));; put w.(w_node) (put16 2 w.(w_size));; put w.(w_node) (put32 4 1);; put w.(w_node) (put32 8 w.(w_last));; f) Q h.
Proof.
  intros -> HO HB Hhd HQ. do 12 (destruct hd as [|? hd]; [discriminate|]). destruct hd; [|discriminate].
  apply ends_bind, (ends_put p b _ (le16 w.(w_proc) ++ [z1; z2] ++ [z3; z4; z5; z6] ++ [z7; z8; z9; z10] ++ rest) R h _ HO).
  { rewrite HB. exact (put16_at [] [z; z0] _ _ 0 eq_refl eq_refl). }
  intros h1 H1. apply ends_bind, (ends_set_size p _ (w_proc w) [z1; z2] w.(w_size) ([z3; z4; z5; z6] ++ [z7; z8; z9; z10] ++ rest) _ _ _ H1 eq_refl eq_refl). intros h2 H2. cbn [pool] in H2.
  apply ends_bind, (ends_put _ _ _ ((le16 w.(w_proc) ++ le16 w.(w_size)) ++ le32 1 ++ [z7; z8; z9; z10] ++ rest) _ _ _ H2).
  { cbn [bytes]. rewrite app_assoc. now apply put32_at. }
  intros h3 H3. cbn [pool] in H3. apply ends_bind, (ends_put _ _ _ (((le16 w.(w_proc) ++ le16 w.(w_size)) ++ le32 1) ++ le32 w.(w_last) ++ rest) _ _ _ H3).
  { cbn [bytes]. rewrite app_assoc. now apply put32_at. }
  intros h4 H4. apply HQ. cbn [pool] in H4. now rewrite <- !app_assoc in H4.
Qed.

Lemma ends_finish src l cap w p b R h : owns h ((p, b) :: R) -> writes src l cap w p b -> ends (finish junk w) (finished src l cap R) h.
Proof.
  intros HO (Hn & Hs & Ho & Hp & Hl & Hg & Hcap & Hc & Hsz & Hlen & Hpool & hd & rest & HB & Hhd). unfold finish.
  apply (ends_head w p b hd (codes src l ++ rest) R h _ _ Hn HO HB Hhd). intros h1 H1. rewrite Hp, Ho, Hsz, Hn, Hpool in *.
  pose proof (alloc_size_ge (5 * cap + 12) ltac:(lia)) as Hal. pose proof (alloc_size_small (5 * cap + 12) ltac:(lia)) as Has.
  pose proof (codes_length src l) as Hcl. destruct l as [|x l0] eqn:El.
  { cbn [length Z.of_nat Z.eqb]. apply ends_bind.
    eapply (ends_release p _ 0 (alloc_size (5 * cap + 12)) _ R h1 _ H1); [reflexivity|lia|symmetry; apply size_class_alloc; lia|].
    intros h2 H2. apply ends_ret. split; [reflexivity|exact H2]. }
  rewrite <- El in *. assert (Hne : l <> []) by now subst. rewrite (proj2 (Z.eqb_neq (zlen l) 0)) by (subst; cbn; lia). rewrite Hl in H1 by exact Hne.
  assert (Hlp : 0 < zlen l) by (subst l; cbn; lia).
  assert (Hns : 0 < node_size_of src l <= 5 * cap + 12) by (unfold node_size_of; lia).
  assert (Fin : forall p' b' junk' d sz h', owns h' ((p', b') :: R) -> b'.(pool) = final_pool src l cap ->
    b'.(bytes) = le16 (zlen l) ++ le16 sz ++ le32 1 ++ le32 (last_of 0 l) ++ codes src l ++ junk' -> d = node_size_of src l ->
    ends (put (Some p') (put16 2 d);; mret (Some p')) (finished src l cap R) h').
  { intros p' b' junk' d sz h' HO' Hp' HB' ->. apply ends_bind, (ends_set_size _ _ _ _ (node_size_of src l) _ _ _ _ HO' HB' eq_refl). intros h2 H2. apply ends_ret.
    eapply finished_some; [exact Hne| |exact H2].
    split; [exact Hg|]. split; [exact Hne|]. split; [lia|]. split; [lia|]. split; [lia|]. split; [exact Hp'|]. exists junk'. unfold head. cbn [bytes]. now rewrite <- !app_assoc. }
  unfold final_pool in Fin. destruct (2 * node_size_of src l <=? alloc_size (5 * cap + 12)) eqn:C.
  - apply ends_bind, ends_bind, (ends_alloc (node_size_of src l) _ _ _ H1 (proj1 Hns)). intros p2 a h2 Ha H2. cbn [fst].
    apply ends_bind, (ends_deref _ _ p (mk_chunk (le16 (zlen l) ++ le16 (alloc_size (5 * cap + 12)) ++ le32 1 ++ le32 (last_of 0 l) ++ codes src l ++ rest) (size_class (5 * cap + 12))) _ H2); [right; left|].
    pose proof (alloc_size_ge (node_size_of src l) (proj1 Hns)) as Hal2. destruct (split_room a (Z.to_nat (node_size_of src l))) as (a1 & a2 & -> & Ha1); [lia|].
    set (con := le16 (zlen l) ++ le16 (alloc_size (5 * cap + 12)) ++ le32 1 ++ le32 (last_of 0 l) ++ codes src l) in *.
    assert (Hcon : zlen con = node_size_of src l) by (unfold con, node_size_of, le32, le16; rewrite !length_app; cbn [length]; lia). assert (Ha1' : node_size_of src l = zlen a1) by lia.
    assert (Hca : length con = length a1) by lia.
    apply ends_bind, (ends_put p2 _ _ (con ++ a2) _ _ _ H2).
    { cbn [bytes]. replace (le16 (zlen l) ++ le16 (alloc_size (5 * cap + 12)) ++ le32 1 ++ le32 (last_of 0 l) ++ codes src l ++ rest) with (con ++ rest) by (unfold con; now rewrite <- !app_assoc).
      exact (memmove_app [] a1 a2 [] con rest 0 0 (node_size_of src l) eq_refl Ha1' eq_refl Hca). }
    intros h3 H3. cbn [pool] in H3.
    apply ends_bind. eapply (ends_release p _ (zlen l) (alloc_size (5 * cap + 12)) _ _ h3 _).
    { eapply owns_perm; [exact H3|apply Permutation_swap]. } { reflexivity. } { lia. } { symmetry. apply size_class_alloc. lia. }
    intros h4 H4. apply ends_ret. eapply (Fin p2 _ a2); [exact H4|reflexivity| |reflexivity]. unfold con. cbn [bytes]. now rewrite <- !app_assoc.
  - apply ends_bind, ends_ret. eapply (Fin p _ rest); [exact H1|reflexivity|reflexivity|reflexivity].
Qed.

(** Within the largest pool, the block ends in the pool that its size tells. *)
Definition max_degree : Z := 3274.

Lemma final_pool_small src l cap : l <> [] -> zlen l <= cap <= max_degree -> final_pool src l cap = size_class (node_size_of src l).
Proof.
  intros Hne [Hl Hc]. unfold final_pool, max_degree in *. pose proof (codes_length src l) as Hcl.
  destruct (Z.leb_spec (2 * node_size_of src l) (alloc_size (5 * cap + 12))) as [L|L]; [reflexivity|].
  symmetry. apply size_class_half; unfold node_size_of in *; lia.
Qed.

(** The result of the operations that make a list. *)
Definition made (src : Z) (l : list Z) R (q : ptr) (h' : store chunk) : Prop :=
  match l with
  | [] => q = None /\ owns h' R
  | _ => exists p b, q = Some p /\ node_is src l 1 b /\ owns h' ((p, b) :: R)
  end.

Lemma ends_finish_small src l cap w p b R h : owns h ((p, b) :: R) -> writes src l cap w p b -> cap <= max_degree -> ends (finish junk w) (made src l R) h.
Proof.
  intros HO HW Hc. eapply ends_mono; [exact (ends_finish src l cap w p b R h HO HW)|]. intros q h'. unfold finished, made. destruct l as [|x l]; [auto|].
  destruct HW as (_ & _ & _ & _ & _ & _ & Hcap & _). intros (p' & b' & -> & HN & HO'). rewrite final_pool_small in HN by (auto; discriminate). exists p', b'. auto.
Qed.
End Write.
