(* ===== verification/EdgeOps.v ===== *)
(** * Operations on edge lists

    What the walks, copies and merges of [EdgeLists] compute of the lists in the blocks they
    read ([L]); a writer's block comes first in the store. *)

From S2P Require Import Prelude Arrays EdgeCode.
From stdpp Require Import base option list gmap sorting.
From S2P Require Import EdgeLists EdgeRepr.
#[local] Open Scope Z_scope.

(** ** Lists *)

Fixpoint union (l : list Z) : list Z -> list Z :=
  match l with
  | [] => fun r => r
  | x :: l' => fix go r := match r with
    | [] => x :: l'
    | y :: r' => if x <? y then x :: union l' (y :: r') else if y <? x then y :: go r' else x :: union l' r'
    end
  end.

Definition minus (r l : list Z) : list Z := List.filter (fun y => negb (memb y l)) r.
Definition common (l r : list Z) : list Z := List.filter (fun y => memb y l) r.

Lemma union_cons x l y r : union (x :: l) (y :: r) = if x <? y then x :: union l (y :: r) else if y <? x then y :: union (x :: l) r else x :: union l r.
Proof. reflexivity. Qed.

Lemma union_nil_r l : union l [] = l.
Proof. now destruct l. Qed.

Lemma In_union l r x : In x (union l r) <-> In x l \/ In x r.
Proof.
  revert r. induction l as [|a l IHl]; intros r; [cbn; tauto|]. induction r as [|b r IHr]; [cbn; tauto|]. rewrite union_cons.
  destruct (Z.ltb_spec a b); [|destruct (Z.ltb_spec b a)]; cbn [In]; rewrite ?IHl, ?IHr; cbn [In]; try tauto. assert (a = b) by lia. subst. tauto.
Qed.

Lemma Forall_union (P : Z -> Prop) l r : Forall P l -> Forall P r -> Forall P (union l r).
Proof. rewrite !List.Forall_forall. intros Hl Hr x [Hx|Hx]%In_union; auto. Qed.

Lemma sorted_cons x l : sorted (x :: l) <-> sorted l /\ Forall (Z.lt x) l.
Proof. split; [now intros [H1 H2]%StronglySorted_inv|]. intros [H1 H2]. now constructor. Qed.

Lemma sorted_lt x y l : x < y -> sorted (y :: l) -> Forall (Z.lt x) (y :: l).
Proof. intros H [_ HF]%sorted_cons. constructor; [exact H|]. eapply Forall_impl; [exact HF|]. cbn. intros; lia. Qed.

Lemma union_sorted l r : sorted l -> sorted r -> sorted (union l r).
Proof.
  revert r. induction l as [|a l IHl]; intros r Hl Hr; [exact Hr|]. induction r as [|b r IHr]; [exact Hl|]. rewrite union_cons.
  pose proof (proj1 (sorted_cons _ _) Hl) as [Hl' Ha]. pose proof (proj1 (sorted_cons _ _) Hr) as [Hr' Hb].
  destruct (Z.ltb_spec a b); [|destruct (Z.ltb_spec b a)]; apply sorted_cons; (split; [auto|]); apply Forall_union; auto.
  - now apply sorted_lt.
  - now apply sorted_lt.
  - replace a with b by lia. exact Hb.
Qed.

Lemma sorted_filter (p : Z -> bool) l : sorted l -> sorted (List.filter p l).
Proof.
  unfold sorted. induction 1 as [|x l H IH HF]; cbn; [constructor|]. destruct (p x); [|exact IH].
  constructor; [exact IH|]. apply List.Forall_forall. intros y [Hy _]%filter_In. exact (proj1 (List.Forall_forall _ _) HF y Hy).
Qed.

Lemma Forall_filter (P : Z -> Prop) (p : Z -> bool) l : Forall P l -> Forall P (List.filter p l).
Proof. rewrite !List.Forall_forall. intros H x [Hx _]%filter_In. auto. Qed.

Lemma nghs_filter src p l : nghs src l -> nghs src (List.filter p l).
Proof. intros (H1 & H2 & H3). split; [exact H1|]. split; [now apply sorted_filter|now apply Forall_filter]. Qed.

Lemma nghs_union src l r : nghs src l -> nghs src r -> nghs src (union l r).
Proof. intros (H1 & H2 & H3) (_ & H4 & H5). split; [exact H1|]. split; [now apply union_sorted|now apply Forall_union]. Qed.

Lemma nghs_app src a b : nghs src (a ++ b) -> nghs src a /\ nghs src b.
Proof. intros (H1 & (H2 & H3 & _)%sorted_app & (H4 & H5)%Forall_app). repeat split; auto; apply H1. Qed.

Lemma filter_length_le {X} (p : X -> bool) l : (length (List.filter p l) <= length l)%nat.
Proof. induction l as [|x l IH]; cbn; [lia|]. destruct (p x); cbn; lia. Qed.

Lemma union_length l r : zlen (union l r) <= zlen l + zlen r.
Proof.
  revert r. induction l as [|a l IHl]; intros r; [cbn; lia|]. induction r as [|b r IHr]; [cbn; lia|]. rewrite union_cons.
  destruct (a <? b); [|destruct (b <? a)]; cbn [length]; [specialize (IHl (b :: r))|cbn [length] in IHr|specialize (IHl r)]; cbn [length] in *; lia.
Qed.

(** A key below a list is not in it. *)
Lemma memb_below_cons x y l : x < y -> sorted (y :: l) -> memb x (y :: l) = false.
Proof. intros H Hs. apply memb_above, sorted_lt; auto. Qed.

Lemma minus_skip x y l r : x < y -> sorted (y :: r) -> minus (y :: r) (x :: l) = minus (y :: r) l.
Proof.
  intros H Hs. apply filter_ext_in. intros z Hz. rewrite memb_cons. assert (E : (z =? x) = false); [|now rewrite E].
  apply Z.eqb_neq. pose proof (proj1 (List.Forall_forall _ _) (sorted_lt x y r H Hs) z Hz). cbn in *. lia.
Qed.

Lemma common_skip x y l r : x < y -> sorted (y :: r) -> common (x :: l) (y :: r) = common l (y :: r).
Proof.
  intros H Hs. apply filter_ext_in. intros z Hz. rewrite memb_cons. assert (E : (z =? x) = false); [|now rewrite E].
  apply Z.eqb_neq. pose proof (proj1 (List.Forall_forall _ _) (sorted_lt x y r H Hs) z Hz). cbn in *. lia.
Qed.

Lemma minus_same x l r : sorted (x :: r) -> minus (x :: r) (x :: l) = minus r l.
Proof.
  intros [Hs Hx]%sorted_cons. unfold minus. cbn [List.filter]. rewrite memb_cons, Z.eqb_refl. cbn [orb negb]. apply filter_ext_in. intros z Hz. rewrite memb_cons.
  assert (E : (z =? x) = false); [|now rewrite E]. apply Z.eqb_neq. pose proof (proj1 (List.Forall_forall _ _) Hx z Hz). cbn in *. lia.
Qed.

Lemma common_same x l r : sorted (x :: r) -> common (x :: l) (x :: r) = x :: common l r.
Proof.
  intros [Hs Hx]%sorted_cons. unfold common. cbn [List.filter]. rewrite memb_cons, Z.eqb_refl. cbn [orb]. f_equal. apply filter_ext_in. intros z Hz. rewrite memb_cons.
  assert (E : (z =? x) = false); [|now rewrite E]. apply Z.eqb_neq. pose proof (proj1 (List.Forall_forall _ _) Hx z Hz). cbn in *. lia.
Qed.

Lemma sorted_split k l : sorted l -> l = List.filter (fun x => x <? k) l ++ (if memb k l then [k] else []) ++ List.filter (fun x => k <? x) l.
Proof.
  induction l as [|x l IH]; intros Hs; [reflexivity|]. pose proof (proj1 (sorted_cons _ _) Hs) as [Hs' Hx]. rewrite memb_cons. cbn [List.filter].
  destruct (Z.ltb_spec x k) as [L|L].
  - rewrite (proj2 (Z.eqb_neq k x)), (proj2 (Z.ltb_ge k x)) by lia. cbn [orb app]. now rewrite <- (IH Hs').
  - assert (E : List.filter (fun x => x <? k) l = []).
    { apply (Forall_impl _ (fun y => (y <? k) = false)) in Hx; [|intros; apply Z.ltb_ge; lia]. clear -Hx. induction Hx as [|y l Hy _ IH]; [reflexivity|]. cbn. now rewrite Hy. }
    rewrite E. destruct (Z.eqb_spec k x) as [->|NE].
    + rewrite Z.ltb_irrefl. cbn [orb app]. f_equal. clear -Hx. induction Hx as [|y l Hy _ IH]; [reflexivity|]. cbn. rewrite (proj2 (Z.ltb_lt _ _)) by lia. now rewrite <- IH.
    + rewrite (proj2 (Z.ltb_lt k x)) by lia. assert (M : memb k l = false) by (apply memb_above; eapply Forall_impl; [exact Hx|]; cbn; intros; lia).
      rewrite M. cbn [orb app]. f_equal. rewrite (IH Hs') at 1. now rewrite E, M.
Qed.

(** ** Walks *)

Section Ops.
Context `{NewAddressOk chunk} (junk : store chunk -> Z -> Z) (unset : Z).
Context (L : list (positive * chunk)).

(** The function on each neighbour with its index. *)
Fixpoint steps {St} (f : Z -> Z -> St -> St) (i : Z) (l : list Z) (st : St) : St :=
  match l with [] => st | x :: l => steps f (i + 1) l (f i x st) end.

Lemma ends_for_next {St} (f : Z -> Z -> St -> St) l rest K h : owns h K -> (forall c, c ∈ L -> c ∈ K) -> forall i it st, reads L it (l ++ rest) ->
  ends (for_next (length l) i it f st) (fun r h' => h' = h /\ r = steps f i l st) h.
Proof.
  intros HO HK. induction l as [|x l IH]; intros i it st HR; [now apply ends_ret|]. cbn [length for_next].
  eapply ends_seq; [exact (ends_next L it x (l ++ rest) K h HR HO HK)|]. intros [y it'] h' (-> & E & HR'). cbn [fst snd] in *. subst y. exact (IH _ _ _ HR').
Qed.

Lemma ends_walk {St} (f : Z -> Z -> St -> St) p b src l c st h : owns h L -> (p, b) ∈ L -> node_is src l c b ->
  ends (walk (Some p) src f st) (fun r h' => h' = h /\ r = steps f 0 l st) h.
Proof.
  intros HO Hb HN. eapply ends_seq; [exact (ends_new_reader L p b src l c L h HO Hb (fun _ H => H) HN)|]. intros it h' (-> & HR & -> & _).
  rewrite Nat2Z.id. apply (ends_for_next f l [] L h HO (fun _ H => H)). now rewrite app_nil_r.
Qed.

Lemma reads_has_next it l : reads L it l -> has_next it = match l with [] => false | _ => true end.
Proof.
  intros (p & b & pre & src & jk & _ & _ & _ & Hd & _). unfold has_next. rewrite Hd. destruct l as [|x l]; cbn [length]; [apply Z.ltb_ge|apply Z.ltb_lt]; lia.
Qed.

Lemma ends_contains_loop key l K h : owns h K -> (forall c, c ∈ L -> c ∈ K) -> sorted l -> forall fuel it, (length l <= fuel)%nat -> reads L it l ->
  ends (contains_loop fuel it key) (fun r h' => h' = h /\ r = memb key l) h.
Proof.
  intros HO HK. induction l as [|x l IH]; intros Hs fuel it Hf HR.
  - destruct fuel; cbn [contains_loop]; rewrite (reads_has_next _ _ HR); now apply ends_ret.
  - destruct fuel as [|fuel]; [cbn in Hf; lia|]. cbn [contains_loop]. rewrite (reads_has_next _ _ HR).
    eapply ends_seq; [exact (ends_next L it x l K h HR HO HK)|]. intros [y it'] h' (-> & E & HR'). cbn [fst snd] in *. subst y. rewrite memb_cons, (Z.eqb_sym key x).
    destruct (Z.eqb_spec x key) as [->|NE]; [now apply ends_ret|]. destruct (Z.ltb_spec key x) as [Lt|Ge].
    + apply ends_ret. split; [reflexivity|]. symmetry. cbn [orb]. apply memb_above. pose proof (sorted_lt key x l Lt Hs) as HF. now apply Forall_cons in HF as [_ HF].
    + apply IH; [exact (sorted_tail _ _ Hs)|cbn in Hf; lia|exact HR'].
Qed.

Lemma ends_contains p b src l c key h : owns h L -> (p, b) ∈ L -> node_is src l c b ->
  ends (contains (Some p) src key) (fun r h' => h' = h /\ r = memb key l) h.
Proof.
  intros HO Hb HN. eapply ends_seq; [exact (ends_new_reader L p b src l c L h HO Hb (fun _ H => H) HN)|]. intros it h' (-> & HR & -> & _).
  rewrite Nat2Z.id. apply (ends_contains_loop key l L h HO (fun _ H => H)); [apply HN|lia|exact HR].
Qed.

(** ** Copies *)

(** The writer's block at [p] in front of the others. *)
Definition writing (src : Z) (acc : list Z) (cap : Z) (p : positive) (w : write_iter) (h : store chunk) : Prop :=
  exists b, writes src acc cap w p b /\ owns h ((p, b) :: L).

Lemma ends_write src acc x cap p w h : writing src acc cap p w h -> nghs src (acc ++ [x]) -> zlen acc < cap ->
  ends (compress_next w x) (writing src (acc ++ [x]) cap p) h.
Proof. intros (b & HW & HO) Hg Hc. eapply ends_mono; [exact (ends_compress src acc x cap w p b L h HO HW Hg Hc)|]. auto. Qed.

Lemma ends_next_writing src acc cap p w it x l h : writing src acc cap p w h -> reads L it (x :: l) ->
  ends (next it) (fun r h' => h' = h /\ r.1 = x /\ reads L r.2 l) h.
Proof. intros (b & HW & HO) HR. apply (ends_next L it x l _ h HR HO). intros c Hc. now right. Qed.

Lemma nghs_prefix src acc x l : nghs src (acc ++ x :: l) -> nghs src (acc ++ [x]).
Proof. intros Hg. rewrite (cons_middle x acc l), app_assoc in Hg. now apply nghs_app in Hg as [Hg _]. Qed.

Lemma ends_write_seq S l src cap p : forall pre post acc w h, S = pre ++ l ++ post -> writing src acc cap p w h -> nghs src (acc ++ l) -> zlen acc + zlen l <= cap ->
  ends (write_seq (length l) S (zlen pre) w) (writing src (acc ++ l) cap p) h.
Proof.
  induction l as [|x l IH]; intros pre post acc w h ES HW Hg Hc; [rewrite app_nil_r; now apply ends_ret|]. cbn [length write_seq].
  apply ends_bind, (ends_lift _ x); [subst S; now apply rd_app|].
  eapply ends_seq; [exact (ends_write src acc x cap p w h HW (nghs_prefix _ _ _ _ Hg) ltac:(cbn in Hc; lia))|]. intros w' h' HW'.
  replace (zlen pre + 1) with (zlen (pre ++ [x])) by len. rewrite (cons_middle x acc l), app_assoc in Hg |- *.
  apply (IH (pre ++ [x]) post); auto; [subst S; now rewrite <- app_assoc|len].
Qed.

Lemma ends_copy_loop l rest src cap p : forall acc it w h, writing src acc cap p w h -> reads L it (l ++ rest) -> nghs src (acc ++ l) -> zlen acc + zlen l <= cap ->
  ends (copy_loop (length l) it w) (fun r h' => reads L r.1 rest /\ writing src (acc ++ l) cap p r.2 h') h.
Proof.
  induction l as [|x l IH]; intros acc it w h HW HR Hg Hc; [rewrite app_nil_r; now apply ends_ret|]. cbn [length copy_loop].
  eapply ends_seq; [exact (ends_next_writing src acc cap p w it x (l ++ rest) h HW HR)|]. intros [y it'] h' (-> & E & HR'). cbn [fst snd] in *. subst y.
  eapply ends_seq; [exact (ends_write src acc x cap p w h HW (nghs_prefix _ _ _ _ Hg) ltac:(cbn in Hc; lia))|]. intros w' h' HW'.
  rewrite (cons_middle x acc l), app_assoc in Hg |- *. apply IH; auto. len.
Qed.

Lemma ends_filter_loop (f : Z -> bool) l rest src cap p : forall acc it w h, writing src acc cap p w h -> reads L it (l ++ rest) -> nghs src (acc ++ l) -> zlen acc + zlen l <= cap ->
  ends (filter_loop (length l) it f w) (writing src (acc ++ List.filter f l) cap p) h.
Proof.
  induction l as [|x l IH]; intros acc it w h HW HR Hg Hc; [cbn [List.filter]; rewrite app_nil_r; now apply ends_ret|]. cbn [length filter_loop List.filter].
  eapply ends_seq; [exact (ends_next_writing src acc cap p w it x (l ++ rest) h HW HR)|]. intros [y it'] h' (-> & E & HR'). cbn [fst snd] in *. subst y.
  destruct (f x).
  - eapply ends_seq; [exact (ends_write src acc x cap p w h HW (nghs_prefix _ _ _ _ Hg) ltac:(cbn in Hc; lia))|]. intros w' h' HW'.
    rewrite (cons_middle x acc (List.filter f l)), app_assoc. rewrite (cons_middle x acc l), app_assoc in Hg. apply IH; auto. len.
  - apply ends_bind, ends_ret. apply IH; auto; [|cbn in Hc; lia]. destruct Hg as (H1 & (H2 & H3 & H4)%sorted_app & (H5 & H6)%Forall_app).
    split; [exact H1|]. apply Forall_cons in H6 as [_ H6]. split; [|now apply Forall_app]. apply sorted_app. split; [exact H2|]. split; [exact (sorted_tail _ _ H3)|].
    eapply Forall_impl; [exact H4|]. cbn. intros z Hz. now apply Forall_cons in Hz as [_ Hz].
Qed.

(** A new writer, what fills it, and the end. *)
Lemma ends_new_writing src cap h : owns h L -> vertex src -> 0 <= cap <= max_degree ->
  ends (new_write_iter junk unset src cap) (fun w h' => exists p, writing src [] cap p w h') h.
Proof.
  intros HO Hs Hc. unfold max_degree in *. eapply ends_mono; [exact (ends_new_writer junk unset src cap L h HO Hs ltac:(lia) ltac:(lia))|].
  intros w h' (p & b & HW & HO'). exists p, b. auto.
Qed.

Lemma ends_finish_writing src acc cap p w h : writing src acc cap p w h -> cap <= max_degree -> ends (finish junk w) (made src acc L) h.
Proof. intros (b & HW & HO) Hc. exact (ends_finish_small junk src acc cap w p b L h HO HW Hc). Qed.

Lemma ends_generate src S pre l post h : owns h L -> nghs src l -> S = pre ++ l ++ post -> zlen l <= max_degree ->
  ends (generate_tree_node junk unset src S (zlen pre) (zlen pre + zlen l)) (made src l L) h.
Proof.
  intros HO Hg HS Hc. unfold generate_tree_node. destruct (Z.leb_spec (zlen pre + zlen l) (zlen pre)) as [Le|Gt].
  { destruct l; [|cbn in Le; lia]. apply ends_ret. split; [reflexivity|exact HO]. }
  replace (zlen pre + zlen l - zlen pre) with (zlen l) by lia. rewrite Nat2Z.id.
  eapply ends_seq; [exact (ends_new_writing src (zlen l) h HO (proj1 Hg) ltac:(lia))|]. intros w h1 (p & HW).
  eapply ends_seq; [exact (ends_write_seq S l src (zlen l) p pre post [] w h1 HS HW Hg ltac:(cbn; lia))|]. intros w' h2 HW'.
  exact (ends_finish_writing src l (zlen l) p w' h2 HW' Hc).
Qed.

Lemma ends_copy_from_it src it l rest h : owns h L -> reads L it (l ++ rest) -> nghs src l -> zlen l <= max_degree ->
  ends (copy_from_it junk unset it (zlen l) src) (fun r h' => reads L r.2 rest /\ made src l L r.1 h') h.
Proof.
  intros HO HR Hg Hc. unfold copy_from_it. rewrite Nat2Z.id.
  eapply ends_seq; [exact (ends_new_writing src (zlen l) h HO (proj1 Hg) ltac:(lia))|]. intros w h1 (p & HW).
  eapply ends_seq; [exact (ends_copy_loop l rest src (zlen l) p [] it w h1 HW HR Hg ltac:(cbn; lia))|]. intros [it' w'] h2 [HR' HW']. cbn [fst snd] in *.
  eapply ends_seq; [exact (ends_finish_writing src l (zlen l) p w' h2 HW' Hc)|]. intros q h3 HM. apply ends_ret. auto.
Qed.

Lemma ends_filter p b src l c (f : Z -> bool) h : owns h L -> (p, b) ∈ L -> node_is src l c b -> zlen l <= max_degree ->
  ends (filter junk unset (Some p) src f) (made src (List.filter f l) L) h.
Proof.
  intros HO Hb HN Hc. pose proof HN as (Hg & _). eapply ends_seq; [exact (ends_new_reader L p b src l c L h HO Hb (fun _ H => H) HN)|]. intros it h' (-> & HR & -> & _).
  eapply ends_seq; [exact (ends_new_writing src (zlen l) h HO (proj1 Hg) ltac:(lia))|]. intros w h1 (q & HW). rewrite Nat2Z.id.
  eapply ends_seq; [apply (ends_filter_loop f l [] src (zlen l) q [] it w h1 HW); [now rewrite app_nil_r|exact Hg|cbn; lia]|]. intros w' h2 HW'.
  exact (ends_finish_writing src _ (zlen l) q w' h2 HW' Hc).
Qed.

(** ** Merges *)

(** An input of a merge stands at the neighbours [l]. *)
Definition side_ok (s : side) (l : list Z) : Prop :=
  0 <= s.(s_i) /\ s.(s_i) + zlen l = s.(s_size) /\ match l with [] => True | x :: l => s.(s_v) = x /\ reads L s.(s_it) l end.

Lemma side_more s l : side_ok s l -> more s = match l with [] => false | _ => true end.
Proof. intros (_ & E & _). unfold more. rewrite <- E. destruct l as [|x l]; cbn [length]; [apply Z.ltb_ge|apply Z.ltb_lt]; lia. Qed.

Lemma ends_advance s x l K h : side_ok s (x :: l) -> owns h K -> (forall c, c ∈ L -> c ∈ K) -> ends (advance s) (fun s' h' => h' = h /\ side_ok s' l) h.
Proof.
  intros (H1 & H2 & H3 & HR) HO HK. unfold advance. destruct l as [|y l].
  - rewrite (proj2 (Z.ltb_ge _ _)) by (cbn in H2; lia). apply ends_ret. split; [reflexivity|]. split; [cbn; lia|]. split; [cbn in *; lia|exact I].
  - rewrite (proj2 (Z.ltb_lt _ _)) by (cbn in H2; lia). eapply ends_seq; [exact (ends_next L _ y l K h HR HO HK)|]. intros [z it] h' (-> & E & HR'). apply ends_ret.
    cbn [fst snd] in *. split; [reflexivity|]. split; [cbn; lia|]. split; [cbn in *; lia|auto].
Qed.

Lemma ends_new_side it x l K h : reads L it (x :: l) -> owns h K -> (forall c, c ∈ L -> c ∈ K) -> ends (new_side it (zlen (x :: l))) (fun s h' => h' = h /\ side_ok s (x :: l)) h.
Proof.
  intros HR HO HK. eapply ends_seq; [exact (ends_next L it x l K h HR HO HK)|]. intros [y it'] h' (-> & E & HR'). apply ends_ret. cbn [fst snd] in *. subst y.
  split; [reflexivity|]. split; [cbn; lia|]. split; [cbn; lia|auto].
Qed.

Lemma ends_advance_writing src acc cap p w s x l h : writing src acc cap p w h -> side_ok s (x :: l) -> ends (advance s) (fun s' h' => h' = h /\ side_ok s' l) h.
Proof. intros (b & HW & HO) HS. apply (ends_advance s x l _ h HS HO). intros c Hc. now right. Qed.

Lemma ends_drain src cap p l : forall fuel acc s w h, writing src acc cap p w h -> side_ok s l -> nghs src (acc ++ l) -> zlen acc + zlen l <= cap -> (length l <= fuel)%nat ->
  ends (drain fuel s w) (fun r h' => side_ok r.1 [] /\ writing src (acc ++ l) cap p r.2 h') h.
Proof.
  induction l as [|x l IH]; intros fuel acc s w h HW HS Hg Hc Hf.
  - rewrite app_nil_r. destruct fuel; cbn [drain]; rewrite (side_more _ _ HS); now apply ends_ret.
  - destruct fuel as [|fuel]; [cbn in Hf; lia|]. cbn [drain]. rewrite (side_more _ _ HS). pose proof HS as (_ & _ & Hv & _). rewrite Hv.
    eapply ends_seq; [exact (ends_write src acc x cap p w h HW (nghs_prefix _ _ _ _ Hg) ltac:(cbn in Hc; lia))|]. intros w' h1 HW'.
    eapply ends_seq; [exact (ends_advance_writing src _ cap p w' s x l h1 HW' HS)|]. intros s' h2 [-> HS'].
    rewrite (cons_middle x acc l), app_assoc in Hg |- *. apply IH; auto; [len|cbn in Hf; lia].
Qed.

(** What is left of the inputs when one of them is at its end. *)
Definition merged (src cap : Z) (p : positive) (u l r : list Z) (x : side * side * write_iter) (h' : store chunk) : Prop :=
  exists acc' l' r', side_ok x.1.1 l' /\ side_ok x.1.2 r' /\ acc' ++ l' ++ r' = u /\
    (length l' <= length l)%nat /\ (length r' <= length r)%nat /\ writing src acc' cap p x.2 h'.

Lemma merged_weaken src cap p u l r l1 r1 x h' : merged src cap p u l1 r1 x h' -> (length l1 <= length l)%nat -> (length r1 <= length r)%nat -> merged src cap p u l r x h'.
Proof. intros (acc' & l' & r' & E1 & E2 & E3 & E4 & E5 & E6) H1 H2. exists acc', l', r'. repeat split; auto; try apply E1; try apply E2; lia. Qed.

(** The next neighbour is written. *)
Lemma merged_write src cap p acc z u l r w h (k : write_iter -> prog chunk (side * side * write_iter)) : writing src acc cap p w h ->
  nghs src (acc ++ z :: u) -> zlen acc + zlen (z :: u) <= cap ->
  (forall w' h', writing src (acc ++ [z]) cap p w' h' -> nghs src ((acc ++ [z]) ++ u) -> zlen (acc ++ [z]) + zlen u <= cap ->
     ends (k w') (merged src cap p ((acc ++ [z]) ++ u) l r) h') ->
  ends (w' ← compress_next w z; k w') (merged src cap p (acc ++ z :: u) l r) h.
Proof.
  intros HW Hg Hc Hk. eapply ends_seq; [exact (ends_write src acc z cap p w h HW (nghs_prefix _ _ _ _ Hg) ltac:(cbn in Hc; lia))|]. intros w' h1 HW'.
  rewrite (cons_middle z acc u), app_assoc in Hg |- *. apply (Hk w' h1 HW' Hg). len.
Qed.

Lemma ends_union_loop src cap p : forall fuel l r acc sl sr w h, writing src acc cap p w h -> side_ok sl l -> side_ok sr r -> nghs src (acc ++ union l r) ->
  zlen acc + zlen (union l r) <= cap -> (length l + length r <= fuel)%nat ->
  ends (union_loop fuel sl sr w) (merged src cap p (acc ++ union l r) l r) h.
Proof.
  induction fuel as [|fuel IH]; intros l r acc sl sr w h HW Hl Hr Hg Hc Hf.
  - destruct l, r; try (cbn in Hf; lia). cbn [union_loop]. rewrite (side_more _ _ Hl). apply ends_ret. exists acc, [], []. auto 10.
  - cbn [union_loop]. rewrite (side_more _ _ Hl), (side_more _ _ Hr). destruct l as [|x l]; [cbn [andb]; apply ends_ret; exists acc, [], r; auto 10|].
    destruct r as [|y r]; [cbn [andb]; apply ends_ret; exists acc, (x :: l), []; rewrite union_nil_r, app_nil_r; auto 10|]. cbn [andb].
    pose proof Hl as (_ & _ & Hlv & _). pose proof Hr as (_ & _ & Hrv & _). rewrite Hlv, Hrv. rewrite union_cons in *. cbn [length] in Hf.
    destruct (x <? y); [|destruct (y <? x)]; apply merged_write; auto; intros w' h' HW' Hg' Hc'.
    + eapply ends_seq; [exact (ends_advance_writing src _ cap p w' sl x l h' HW' Hl)|]. intros s' h2 [-> HS'].
      eapply ends_mono; [apply (IH l (y :: r) (acc ++ [x])); auto; cbn [length]; lia|]. intros x0 h2 HM. apply (merged_weaken _ _ _ _ _ _ _ _ _ _ HM); cbn [length]; lia.
    + eapply ends_seq; [exact (ends_advance_writing src _ cap p w' sr y r h' HW' Hr)|]. intros s' h2 [-> HS'].
      eapply ends_mono; [apply (IH (x :: l) r (acc ++ [y])); auto; cbn [length]; lia|]. intros x0 h2 HM. apply (merged_weaken _ _ _ _ _ _ _ _ _ _ HM); cbn [length]; lia.
    + eapply ends_seq; [exact (ends_advance_writing src _ cap p w' sl x l h' HW' Hl)|]. intros s' h2 [-> HS'].
      eapply ends_seq; [exact (ends_advance_writing src _ cap p w' sr y r h' HW' Hr)|]. intros s2 h2 [-> HS2].
      eapply ends_mono; [apply (IH l r (acc ++ [x])); auto; lia|]. intros x0 h2 HM. apply (merged_weaken _ _ _ _ _ _ _ _ _ _ HM); cbn [length]; lia.
Qed.

Lemma ends_union_its src l_it l r_it r h : owns h L -> reads L l_it l -> reads L r_it r -> l <> [] -> r <> [] -> nghs src l -> nghs src r -> zlen l + zlen r <= max_degree ->
  ends (union_its junk unset l_it (zlen l) r_it (zlen r) src) (fun x => made src (union l r) L x.1.1) h.
Proof.
  intros HO Hl Hr Nl Nr Gl Gr Hc. unfold union_its, max_degree in *. assert (E : (zlen l + zlen r)%u64 = zlen l + zlen r) by (apply Z.mod_small; lia). rewrite E.
  eapply ends_seq; [exact (ends_new_writing src (zlen l + zlen r) h HO (proj1 Gl) ltac:(unfold max_degree; lia))|]. intros w h1 (p & b & HW & HO1).
  assert (HK : forall c, c ∈ L -> c ∈ (p, b) :: L) by (intros c Hin; now right).
  destruct l as [|x l], r as [|y r]; try contradiction.
  eapply ends_seq; [exact (ends_new_side l_it x l _ h1 Hl HO1 HK)|]. intros sl h' (-> & Hsl).
  eapply ends_seq; [exact (ends_new_side r_it y r _ h1 Hr HO1 HK)|]. intros sr h' (-> & Hsr).
  pose proof (nghs_union src _ _ Gl Gr) as Gu. pose proof (union_length (x :: l) (y :: r)) as HL.
  eapply ends_seq; [apply (ends_union_loop src (zlen (x :: l) + zlen (y :: r)) p _ (x :: l) (y :: r) [] sl sr w h1); auto; [exists b; auto|lia]|].
  intros [[sl' sr'] w'] h2 (acc & l' & r' & Sl & Sr & Eu & H1 & H2 & HW2). cbn [fst snd app] in *. rewrite <- Eu in *.
  pose proof (proj1 (nghs_app src acc (l' ++ r') Gu)) as Gacc. assert (Gal : nghs src (acc ++ l')) by (rewrite app_assoc in Gu; now apply nghs_app in Gu as [Gu _]).
  eapply ends_seq; [apply (ends_drain src _ p l' _ acc sl' w' h2 HW2 Sl Gal); [len|lia]|]. intros [s2 w2] h3 [S2 HW3]. cbn [fst snd] in *.
  eapply ends_seq; [apply (ends_drain src _ p r' _ (acc ++ l') sr' w2 h3 HW3 Sr); [now rewrite <- app_assoc|len|lia]|]. intros [s3 w3] h4 [S3 HW4]. cbn [fst snd] in *.
  rewrite <- app_assoc in HW4. eapply ends_seq; [exact (ends_finish_writing src _ _ p w3 h4 HW4 Hc)|]. intros q h5 HM. now apply ends_ret.
Qed.

(** ** Differences *)

Lemma minus_nil_r r : minus r [] = r.
Proof. unfold minus. induction r as [|x r IH]; [reflexivity|]. cbn. f_equal. exact IH. Qed.

Lemma minus_keep x y l r : y < x -> sorted (x :: l) -> minus (y :: r) (x :: l) = y :: minus r (x :: l).
Proof. intros H1 Hs. unfold minus. cbn [List.filter]. now rewrite (memb_below_cons y x l H1 Hs). Qed.

Lemma ends_difference_loop src cap p : forall fuel l r acc sl sr w h, writing src acc cap p w h -> side_ok sl l -> side_ok sr r -> sorted l -> sorted r ->
  nghs src (acc ++ minus r l) -> zlen acc + zlen (minus r l) <= cap -> (length l + length r <= fuel)%nat ->
  ends (difference_loop fuel sl sr w) (fun x h' => exists acc' l' r', side_ok x.1.1 l' /\ side_ok x.1.2 r' /\ acc' ++ r' = acc ++ minus r l /\
    (length r' <= length r)%nat /\ writing src acc' cap p x.2 h') h.
Proof.
  induction fuel as [|fuel IH]; intros l r acc sl sr w h HW Hl Hr Ol Or Hg Hc Hf.
  - destruct l, r; try (cbn in Hf; lia). cbn [difference_loop]. rewrite (side_more _ _ Hl). apply ends_ret. exists acc, [], []. auto 10.
  - cbn [difference_loop]. rewrite (side_more _ _ Hl), (side_more _ _ Hr). destruct l as [|x l]; [cbn [andb]; apply ends_ret; exists acc, [], r; rewrite minus_nil_r; auto 10|].
    destruct r as [|y r]; [cbn [andb]; apply ends_ret; exists acc, (x :: l), []; auto 10|]. cbn [andb].
    pose proof Hl as (_ & _ & Hlv & _). pose proof Hr as (_ & _ & Hrv & _). rewrite Hlv, Hrv. cbn [length] in Hf.
    destruct (Z.ltb_spec x y) as [C1|C1]; [|destruct (Z.ltb_spec y x) as [C2|C2]].
    + rewrite (minus_skip x y l r C1 Or) in *. eapply ends_seq; [exact (ends_advance_writing src _ cap p w sl x l h HW Hl)|]. intros s' h2 [-> HS'].
      apply (IH l (y :: r)); auto; [exact (sorted_tail _ _ Ol)|cbn [length]; lia].
    + rewrite (minus_keep x y l r C2 Ol) in *. eapply ends_seq; [exact (ends_write src acc y cap p w h HW (nghs_prefix _ _ _ _ Hg) ltac:(cbn in Hc; lia))|]. intros w' h1 HW'.
      rewrite (cons_middle y acc), app_assoc in Hg |- *.
      eapply ends_seq; [exact (ends_advance_writing src _ cap p w' sr y r h1 HW' Hr)|]. intros s' h2 [-> HS'].
      eapply ends_mono; [apply (IH (x :: l) r (acc ++ [y])); auto; [exact (sorted_tail _ _ Or)|len|cbn [length]; lia]|].
      intros x0 h2 (acc' & l' & r' & E1 & E2 & E3 & E4 & E5). exists acc', l', r'. cbn [length]. auto 10.
    + assert (x = y) as -> by lia. rewrite (minus_same y l r Or) in *.
      eapply ends_seq; [exact (ends_advance_writing src _ cap p w sl y l h HW Hl)|]. intros s' h2 [-> HS'].
      eapply ends_seq; [exact (ends_advance_writing src _ cap p w sr y r h HW Hr)|]. intros s2 h2 [-> HS2].
      eapply ends_mono; [apply (IH l r acc); auto; [exact (sorted_tail _ _ Ol)|exact (sorted_tail _ _ Or)|lia]|].
      intros x0 h2 (acc' & l' & r' & E1 & E2 & E3 & E4 & E5). exists acc', l', r'. cbn [length]. auto 10.
Qed.

Lemma ends_difference_its src l_it l r_it r h : owns h L -> reads L l_it l -> reads L r_it r -> l <> [] -> r <> [] -> sorted l -> nghs src r -> zlen r <= max_degree -> zlen l < 2 ^ 16 ->
  ends (difference_its junk unset l_it (zlen l) r_it (zlen r) src) (fun x => made src (minus r l) L x.1.1) h.
Proof.
  intros HO Hl Hr Nl Nr Ol Gr Hc Hcl. unfold difference_its.
  eapply ends_seq; [exact (ends_new_writing src (zlen r) h HO (proj1 Gr) ltac:(lia))|]. intros w h1 (p & b & HW & HO1).
  assert (HK : forall c, c ∈ L -> c ∈ (p, b) :: L) by (intros c Hin; now right).
  destruct l as [|x l], r as [|y r]; try contradiction.
  eapply ends_seq; [exact (ends_new_side l_it x l _ h1 Hl HO1 HK)|]. intros sl h' (-> & Hsl).
  eapply ends_seq; [exact (ends_new_side r_it y r _ h1 Hr HO1 HK)|]. intros sr h' (-> & Hsr).
  pose proof (nghs_filter src (fun z => negb (memb z (x :: l))) _ Gr : nghs src (minus (y :: r) (x :: l))) as Gm.
  pose proof (filter_length_le (fun z => negb (memb z (x :: l))) (y :: r) : (length (minus (y :: r) (x :: l)) <= length (y :: r))%nat) as HL.
  eapply ends_seq; [apply (ends_difference_loop src (zlen (y :: r)) p _ (x :: l) (y :: r) [] sl sr w h1); auto; [exists b; auto|apply Gr|cbn in *; lia|lia]|].
  intros [[sl' sr'] w'] h2 (acc & l' & r' & Sl & Sr & Eu & H1 & HW2). cbn [fst snd app] in *. rewrite <- Eu in *.
  eapply ends_seq; [apply (ends_drain src _ p r' _ acc sr' w' h2 HW2 Sr Gm); [len|lia]|]. intros [s3 w3] h4 [S3 HW4]. cbn [fst snd] in *.
  eapply ends_seq; [exact (ends_finish_writing src _ _ p w3 h4 HW4 Hc)|]. intros q h5 HM. now apply ends_ret.
Qed.

(** ** Intersections *)

Lemma ends_intersect_loop h : owns h L -> forall fuel l r sl sr ct, side_ok sl l -> side_ok sr r -> sorted l -> sorted r -> 0 <= ct -> ct + zlen (common l r) < 2 ^ 64 ->
  (length l + length r <= fuel)%nat -> ends (intersect_loop fuel sl sr ct) (fun x h' => h' = h /\ x.2 = ct + zlen (common l r)) h.
Proof.
  intros HO. assert (HK : forall c, c ∈ L -> c ∈ L) by auto.
  induction fuel as [|fuel IH]; intros l r sl sr ct Hl Hr Ol Or H1 H2 Hf.
  - destruct l, r; try (cbn in Hf; lia). cbn [intersect_loop]. rewrite (side_more _ _ Hl). apply ends_ret. cbn. split; [reflexivity|lia].
  - cbn [intersect_loop]. rewrite (side_more _ _ Hl), (side_more _ _ Hr).
    assert (Nil : forall r, common [] r = []) by (intros r0; induction r0; auto).
    destruct l as [|x l]; [cbn [andb]; apply ends_ret; rewrite Nil; cbn; split; [reflexivity|lia]|].
    destruct r as [|y r]; [cbn [andb]; apply ends_ret; cbn; split; [reflexivity|lia]|]. cbn [andb].
    pose proof Hl as (_ & _ & Hlv & _). pose proof Hr as (_ & _ & Hrv & _). rewrite Hlv, Hrv. cbn [length] in Hf.
    destruct (Z.ltb_spec x y) as [C1|C1]; [|destruct (Z.ltb_spec y x) as [C2|C2]].
    + rewrite (common_skip x y l r C1 Or) in *. eapply ends_seq; [exact (ends_advance sl x l L h Hl HO HK)|]. intros s' h2 [-> HS'].
      apply (IH l (y :: r)); auto; [exact (sorted_tail _ _ Ol)|cbn [length]; lia].
    + assert (E : common (x :: l) (y :: r) = common (x :: l) r) by (unfold common; cbn [List.filter]; now rewrite (memb_below_cons y x l C2 Ol)). rewrite E in *.
      eapply ends_seq; [exact (ends_advance sr y r L h Hr HO HK)|]. intros s' h2 [-> HS']. apply (IH (x :: l) r); auto; [exact (sorted_tail _ _ Or)|cbn [length]; lia].
    + assert (x = y) as -> by lia. rewrite (common_same y l r Or) in *.
      eapply ends_seq; [exact (ends_advance sl y l L h Hl HO HK)|]. intros s' h2 [-> HS'].
      eapply ends_seq; [exact (ends_advance sr y r L h Hr HO HK)|]. intros s2 h2 [-> HS2]. cbn [length] in H2.
      assert (E : (ct + 1)%u64 = ct + 1) by (apply Z.mod_small; lia). rewrite E.
      eapply ends_mono; [apply (IH l r); auto; [exact (sorted_tail _ _ Ol)|exact (sorted_tail _ _ Or)|lia|lia|lia]|].
      intros x0 h2 [-> ->]. split; [reflexivity|cbn [length]; lia].
Qed.

Lemma ends_intersect_its l_it l r_it r h : owns h L -> reads L l_it l -> reads L r_it r -> l <> [] -> r <> [] -> sorted l -> sorted r -> zlen r < 2 ^ 16 ->
  ends (intersect_its l_it (zlen l) r_it (zlen r)) (fun x h' => h' = h /\ x.1.1 = zlen (common l r)) h.
Proof.
  intros HO Hl Hr Nl Nr Ol Or Hc. destruct l as [|x l], r as [|y r]; try contradiction. unfold intersect_its.
  eapply ends_seq; [exact (ends_new_side l_it x l L h Hl HO (fun _ H => H))|]. intros sl h' (-> & Hsl).
  eapply ends_seq; [exact (ends_new_side r_it y r L h Hr HO (fun _ H => H))|]. intros sr h' (-> & Hsr).
  pose proof (filter_length_le (fun z => memb z (x :: l)) (y :: r) : (length (common (x :: l) (y :: r)) <= length (y :: r))%nat) as HL.
  eapply ends_seq; [apply (ends_intersect_loop h HO _ (x :: l) (y :: r) sl sr 0); auto; lia|]. intros z h' [-> Ez]. now apply ends_ret.
Qed.

(** ** Splits *)

Lemma filter_lt_nil k x l : k <= x -> Forall (Z.lt x) l -> List.filter (fun z => z <? k) l = [].
Proof. intros Hk. induction 1 as [|z l Hz _ IH]; [reflexivity|]. cbn. rewrite (proj2 (Z.ltb_ge _ _)) by lia. exact IH. Qed.

Lemma ends_split_scan k h : owns h L -> forall l rest it n, reads L it (l ++ rest) -> sorted l ->
  ends (split_scan (length l) it k n) (fun s h' => h' = h /\ s = (n + zlen (List.filter (fun x => x <? k) l), memb k l)) h.
Proof.
  intros HO. induction l as [|x l IH]; intros rest it n HR Hs; [apply ends_ret; cbn; split; [reflexivity|f_equal; lia]|]. cbn [length split_scan].
  eapply ends_seq; [exact (ends_next L it x (l ++ rest) L h HR HO (fun _ H => H))|]. intros [y it'] h' (-> & E & HR'). cbn [fst snd] in *. subst y.
  rewrite memb_cons, (Z.eqb_sym k x). cbn [List.filter]. pose proof (proj1 (sorted_cons _ _) Hs) as [Hs' Hx].
  destruct (Z.eqb_spec x k) as [->|NE]; [|destruct (Z.ltb_spec k x) as [Lt|Ge]].
  - apply ends_ret. rewrite Z.ltb_irrefl, (filter_lt_nil k k l) by (auto; lia). cbn. split; [reflexivity|f_equal; lia].
  - apply ends_ret. rewrite (proj2 (Z.ltb_ge x k)), (filter_lt_nil k x l) by (auto; lia). cbn [orb]. rewrite memb_above by (eapply Forall_impl; [exact Hx|]; cbn; intros; lia).
    cbn. split; [reflexivity|f_equal; lia].
  - rewrite (proj2 (Z.ltb_lt x k)) by lia. eapply ends_mono; [exact (IH rest it' (n + 1) HR' Hs')|]. intros s h' [-> ->]. split; [reflexivity|]. cbn [orb length]. f_equal. lia.
Qed.
End Ops.

Lemma reads_mono L L' it l : reads L it l -> (forall c, c ∈ L -> c ∈ L') -> reads L' it l.
Proof. intros (p & b & pre & src & jk & H1 & H2 & H3) HL. exists p, b, pre, src, jk. split; [exact H1|]. split; [now apply HL|exact H3]. Qed.

Lemma made_owns src l L q h : made src l L q h -> exists L', owns h L' /\ (forall c, c ∈ L -> c ∈ L').
Proof. destruct l as [|x l]; [intros [_ HO]; exists L; auto|]. intros (p & b & _ & _ & HO). exists ((p, b) :: L). split; [exact HO|]. intros c Hc. now right. Qed.

(** A split makes two lists, the second after the first. *)
Lemma ends_split `{NewAddressOk chunk} junk unset L p b src l c k h : owns h L -> (p, b) ∈ L -> node_is src l c b -> zlen l <= max_degree ->
  ends (split_node junk unset (Some p) src k)
    (fun r h' => r.2 = memb k l /\ exists h1 L1, made src (List.filter (fun x => x <? k) l) L r.1.1 h1 /\ owns h1 L1 /\
       made src (List.filter (fun x => k <? x) l) L1 r.1.2 h') h.
Proof.
  intros HO Hb HN Hc. pose proof HN as (Hg & _). pose proof Hg as (Hv & Hs & Hvs). unfold split_node.
  eapply ends_seq; [exact (ends_new_reader L p b src l c L h HO Hb (fun _ H => H) HN)|]. intros it h' (-> & HR & Hdeg & _). rewrite Hdeg, Nat2Z.id.
  eapply ends_seq; [apply (ends_split_scan L k h HO l [] it 0); [now rewrite app_nil_r|exact Hs]|]. intros s h' [-> ->]. cbn [fst snd]. rewrite Z.add_0_l.
  eapply ends_seq; [exact (ends_new_reader L p b src l c L h HO Hb (fun _ H => H) HN)|]. intros it2 h' (-> & HR2 & _).
  pose proof (sorted_split k l Hs) as Esp. set (lt := List.filter (fun x => x <? k) l) in *. set (gt := List.filter (fun x => k <? x) l) in *.
  assert (Hll : zlen l = zlen lt + (if memb k l then 1 else 0) + zlen gt) by (rewrite Esp at 1; destruct (memb k l); len).
  replace (zlen l - zlen lt - (if memb k l then 1 else 0)) with (zlen gt) by lia. rewrite Esp in HR2.
  assert (Hlt : nghs src lt) by now apply nghs_filter. assert (Hgt : nghs src gt) by now apply nghs_filter.
  (* Each list is made when it has elements. *)
  assert (Copy : forall L' h0 it0 a rest, owns h0 L' -> reads L' it0 (a ++ rest) -> nghs src a -> zlen a <= max_degree ->
    ends (if zlen a =? 0 then mret (None, it0) else copy_from_it junk unset it0 (zlen a) src) (fun r h' => reads L' r.2 rest /\ made src a L' r.1 h') h0).
  { intros L' h0 it0 a rest HO' HR' Ha Hca. destruct a as [|x a]; [apply ends_ret; split; [exact HR'|split; [reflexivity|exact HO']]|].
    rewrite (proj2 (Z.eqb_neq _ _)) by (cbn; lia). now apply ends_copy_from_it. }
  eapply ends_seq; [apply (Copy L h it2 lt _ HO HR2 Hlt); destruct (memb k l); lia|]. intros [q1 it3] h1 [HR3 HM1]. cbn [fst snd] in *.
  destruct (made_owns _ _ _ _ _ HM1) as (L1 & HO1 & HL1). pose proof (reads_mono _ _ _ _ HR3 HL1) as HR4.
  apply (ends_seq _ _ (fun it' h' => h' = h1 /\ reads L1 it' (gt ++ []))).
  { rewrite app_nil_r. destruct (memb k l); [|apply ends_ret; auto]. cbn [app] in HR4.
    eapply ends_seq; [exact (ends_next L1 it3 k gt L1 h1 HR4 HO1 (fun _ H => H))|]. intros [y it4] h' (-> & _ & HR5). apply ends_ret. auto. }
  intros it4 h' [-> HR5]. eapply ends_seq; [apply (Copy L1 h1 it4 gt [] HO1 HR5 Hgt); destruct (memb k l); lia|]. intros [q2 it5] h2 [_ HM2]. apply ends_ret.
  cbn [fst snd] in *. split; [reflexivity|]. exists h1, L1. auto.
Qed.

(** ** References *)

Lemma ends_copy_node p b src l c L h : owns h ((p, b) :: L) -> node_is src l c b -> c + 1 < 2 ^ 32 ->
  ends (copy_node (Some p)) (fun q h' => q = Some p /\ exists b', node_is src l (c + 1) b' /\ owns h' ((p, b') :: L)) h.
Proof.
  intros HO (Hg & Hne & Hd & Hsz & Hc & Hpool & rest & HB) Hc1. unfold copy_node. apply ends_bind, (ends_deref_first _ _ _ _ _ HO).
  set (pre := le16 (zlen l) ++ le16 (node_size_of src l)). set (post := le32 (last_of 0 l) ++ codes src l ++ rest).
  assert (HB' : b.(bytes) = pre ++ le32 c ++ post) by (rewrite HB; unfold head, pre, post; now rewrite <- !app_assoc). rewrite HB'.
  apply ends_bind, (ends_lift _ c). { rewrite get32_at by reflexivity. now rewrite Z.mod_small by lia. }
  replace (u32 (c + 1)) with (c + 1) by (symmetry; apply Z.mod_small; lia).
  apply ends_bind, (ends_put p b _ (pre ++ le32 (c + 1) ++ post) L h _ HO). { rewrite HB'. now apply put32_at. }
  intros h1 H1. apply ends_ret. split; [reflexivity|]. eexists. split; [|exact H1].
  split; [exact Hg|]. split; [exact Hne|]. split; [exact Hd|]. split; [exact Hsz|]. split; [lia|]. split; [exact Hpool|].
  exists rest. unfold pre, post, head. cbn [bytes]. now rewrite <- !app_assoc.
Qed.

Lemma next_node it h r h' : next it h = Some (r, h') -> (r.2).(it_node) = it.(it_node).
Proof.
  unfold next, mbind, prog_bind, lift. destruct (deref _ h) as [[b h1]|]; [|discriminate]. destruct (if it.(it_proc) =? 0 then _ else _); [|discriminate].
  now intros [= <- <-].
Qed.

Lemma ends_first_and_last p b src l c L h : owns h L -> (p, b) ∈ L -> node_is src l c b ->
  ends (first_and_last_keys (Some p) src) (fun r h' => h' = h /\ exists x, hd_error l = Some x /\ r = (x, last_of 0 l)) h.
Proof.
  intros HO Hb HN. pose proof HN as (Hg & Hne & Hd & Hsz & Hc & Hpool & rest & HB). unfold first_and_last_keys.
  eapply ends_seq; [exact (ends_new_reader L p b src l c L h HO Hb (fun _ H => H) HN)|]. intros it h' (-> & HR & _ & _ & Hnode). destruct l as [|x l]; [contradiction|].
  assert (Hk : forall it', it'.(it_node) = Some p -> ends (last_key it') (fun r h' => h' = h /\ r = last_of 0 (x :: l)) h).
  { intros it' E. unfold last_key. rewrite E. apply ends_bind, (ends_deref _ _ p b _ HO Hb), (ends_lift _ (last_of 0 (x :: l))); [|auto].
    rewrite HB. unfold head. rewrite <- !app_assoc, (app_assoc (le16 (zlen _))), (app_assoc (_ ++ _)).
    rewrite get32_at by reflexivity. rewrite Z.mod_small; [reflexivity|].
    destruct Hg as (_ & _ & Hv). exact (proj1 (List.Forall_forall _ _) Hv _ (last_of_in 0 (x :: l) Hne)). }
  eapply ends_seq; [exact (ends_run _ _ _ (ends_next L it x l L h HR HO (fun _ H => H)))|]. intros [y it'] h' [(-> & E & _) Hrun]. cbn [fst snd] in *. subst y.
  eapply ends_seq; [apply Hk; exact (eq_trans (next_node _ _ _ _ Hrun) Hnode)|]. intros r h' [-> ->]. apply ends_ret. eauto.
Qed.
