(* ===== verification/EdgeTheorems.v ===== *)
(** * Edge lists as references to sets of neighbours

    A caller holds references to lists; a block counts its references.  [lists h F] says that
    the store [h] has exactly the blocks that the references [F] need, each with the right
    count and contents. *)

From S2P Require Import Prelude Arrays EdgeCode.
From stdpp Require Import base option list gmap sorting.
From S2P Require Import EdgeLists EdgeRepr EdgeOps.
#[local] Open Scope Z_scope.

(** A reference: the pointer, the vertex and its neighbours. *)
Abbreviation handle := (ptr * Z * list Z)%type.

Implicit Types F : list handle.

Definition refs (p : positive) (F : list handle) : Z := zlen (List.filter (fun f => bool_decide (f.1.1 = Some p)) F).

(** A block with the vertex and the neighbours it is for. *)
Abbreviation entry := (positive * (Z * list Z * chunk))%type.
Definition cell (e : entry) : positive * chunk := (e.1, e.2.2).

Definition handle_ok (B : list entry) (f : handle) : Prop :=
  match f.1.1 with
  | None => f.2 = []
  | Some p => exists b, (p, (f.1.2, f.2, b)) ∈ B
  end.

Definition lists (h : store chunk) (F : list handle) : Prop :=
  exists B : list entry, owns h (List.map cell B) /\ Forall (fun e => node_is e.2.1.1 e.2.1.2 (refs e.1 F) e.2.2) B /\ Forall (handle_ok B) F.

Lemma refs_cons p f F : refs p (f :: F) = (if bool_decide (f.1.1 = Some p) then 1 else 0) + refs p F.
Proof. unfold refs. cbn [List.filter]. destruct (bool_decide _); cbn [length]; lia. Qed.

Lemma refs_le p F : 0 <= refs p F <= zlen F.
Proof. unfold refs. split; [lia|]. apply inj_le, filter_length_le. Qed.

(** The other blocks are at other addresses. *)
Lemma owns_fresh h p b B : owns h ((p, b) :: List.map cell B) -> forall e : entry, e ∈ B -> e.1 <> p.
Proof.
  intros [HD _] e He E. cbn in HD. apply NoDup_cons in HD as [HD _]. apply HD. rewrite <- E. apply list_elem_of_fmap. exists (cell e). split; [reflexivity|]. now apply list_elem_of_fmap_2.
Qed.

Lemma lists_empty : lists ∅ [].
Proof. exists []. split; [apply owns_empty|]. split; constructor. Qed.

(** No block is left when there are no references. *)
Lemma lists_none h : lists h [] -> h = ∅.
Proof.
  intros (B & HO & HB & _). destruct B as [|e B]; [exact (proj2 HO)|]. apply Forall_cons in HB as [(_ & _ & _ & _ & Hc & _) _]. unfold refs in Hc. cbn in Hc. lia.
Qed.

Lemma owns_unique {N} (h : store N) L L' : owns h L -> owns h L' -> L ≡ₚ L'.
Proof. intros [H1 ->] [H2 E]. rewrite <- (map_to_list_to_map L), <- (map_to_list_to_map L') by assumption. now rewrite E. Qed.

(** The block of a reference. *)
Lemma lists_lookup h F p src l : lists h F -> (Some p, src, l) ∈ F -> exists L b c, owns h L /\ (p, b) ∈ L /\ node_is src l c b.
Proof.
  intros (B & HO & HB & HF) Hin. rewrite Forall_forall in HF. destruct (HF _ Hin) as [b Hb]. cbn in Hb. exists (List.map cell B), b, (refs p F).
  split; [exact HO|]. split; [change (p, b) with (cell (p, (src, l, b))); now apply list_elem_of_fmap_2|]. rewrite Forall_forall in HB. exact (HB _ Hb).
Qed.

Lemma lists_null h F src l : lists h F -> (None, src, l) ∈ F -> l = [].
Proof. intros (B & _ & _ & HF) Hin. rewrite Forall_forall in HF. exact (HF _ Hin). Qed.

(** Two references have their blocks in the same list of blocks. *)
Lemma lists_owned h F : lists h F -> exists L, owns h L /\ forall p src l, (Some p, src, l) ∈ F -> exists b c, (p, b) ∈ L /\ node_is src l c b.
Proof.
  intros (B & HO & HB & HF). exists (List.map cell B). split; [exact HO|]. intros p src l Hin. rewrite Forall_forall in HF; rewrite Forall_forall in HB.
  destruct (HF _ Hin) as [b Hb]. exists b, (refs p F). split; [change (p, b) with (cell (p, (src, l, b))); now apply list_elem_of_fmap_2|exact (HB _ Hb)].
Qed.

(** A new list. *)
Lemma lists_made h F L src l q h' : lists h F -> owns h L -> made src l L q h' -> lists h' ((q, src, l) :: F).
Proof.
  intros (B & HO & HB & HF) HL HM. pose proof (owns_unique _ _ _ HO HL) as HP. destruct l as [|x l].
  - destruct HM as [-> HO']. exists B. split; [now rewrite HP|]. split; [|constructor; [reflexivity|exact HF]].
    eapply Forall_impl; [exact HB|]. intros e He. now rewrite refs_cons.
  - destruct HM as (p & b & -> & HN & HO'). rewrite <- HP in HO'. exists ((p, (src, x :: l, b)) :: B). split; [exact HO'|].
    pose proof (owns_fresh _ _ _ _ HO') as Hp.
    assert (Hr : refs p F = 0).
    { clear -HF Hp. induction HF as [|f F Hf _ IH]; [reflexivity|]. rewrite refs_cons, IH, bool_decide_eq_false_2; [reflexivity|].
      intros E. unfold handle_ok in Hf. rewrite E in Hf. destruct Hf as [b Hb]. now destruct (Hp _ Hb). }
    split; constructor.
    + cbn [fst snd]. rewrite refs_cons, Hr. cbn [fst snd]. rewrite bool_decide_eq_true_2 by reflexivity. exact HN.
    + apply Forall_forall. intros e He. rewrite Forall_forall in HB. rewrite refs_cons. cbn [fst snd]. rewrite bool_decide_eq_false_2 by (intros [= E]; now destruct (Hp e He)). exact (HB e He).
    + exists b. left.
    + eapply Forall_impl; [exact HF|]. intros [[[q|] s] m] Hq; [|exact Hq]. destruct Hq as [b' Hb']. exists b'. now right.
Qed.

(** The block of the first reference, apart. *)
Lemma lists_open h p src l F : lists h ((Some p, src, l) :: F) -> exists b B, node_is src l (1 + refs p F) b /\ owns h ((p, b) :: List.map cell B) /\
  Forall (fun e => node_is e.2.1.1 e.2.1.2 (refs e.1 F) e.2.2 /\ e.1 <> p) B /\ Forall (handle_ok ((p, (src, l, b)) :: B)) F.
Proof.
  intros (B & HO & HB & HF). apply Forall_cons in HF as [[b Hb] HF]. cbn in Hb. apply elem_of_Permutation in Hb as [B' HP]. exists b, B'.
  assert (HP' : List.map cell B ≡ₚ (p, b) :: List.map cell B') by (rewrite HP; reflexivity).
  rewrite HP in HB. apply Forall_cons in HB as [HN HB]. cbn [fst snd] in HN. rewrite refs_cons in HN. cbn [fst snd] in HN. rewrite bool_decide_eq_true_2 in HN by reflexivity.
  split; [exact HN|]. assert (HO' : owns h ((p, b) :: List.map cell B')) by now rewrite <- HP'. split; [exact HO'|]. split.
  - apply Forall_forall. intros e He. pose proof (owns_fresh _ _ _ _ HO' e He) as Hne.
    split; [|exact Hne]. rewrite Forall_forall in HB. specialize (HB e He). rewrite refs_cons in HB. cbn [fst snd] in HB. rewrite bool_decide_eq_false_2 in HB by congruence. exact HB.
  - eapply Forall_impl; [exact HF|]. intros [[[q|] s] m] Hq; [|exact Hq]. destruct Hq as [b' Hb']. exists b'. cbn [fst snd] in *. now rewrite <- HP.
Qed.

Lemma refs_perm p F F' : F ≡ₚ F' -> refs p F = refs p F'.
Proof. induction 1 as [|f F F' _ IH|f g F|F F' F'' _ IH1 _ IH2]; rewrite ?refs_cons; lia. Qed.

Lemma lists_perm h F F' : lists h F -> F ≡ₚ F' -> lists h F'.
Proof.
  intros (B & HO & HB & HF) HP. exists B. split; [exact HO|]. split; [|now rewrite <- HP].
  eapply Forall_impl; [exact HB|]. intros e. now rewrite <- (refs_perm _ _ _ HP).
Qed.

(** The opened block is put back with a new count. *)
Lemma lists_close h p src l b B F F' : owns h ((p, b) :: List.map cell B) -> node_is src l (refs p F') b ->
  Forall (fun e => node_is e.2.1.1 e.2.1.2 (refs e.1 F) e.2.2 /\ e.1 <> p) B -> (forall q, q <> p -> refs q F' = refs q F) ->
  Forall (handle_ok ((p, (src, l, b)) :: B)) F' -> lists h F'.
Proof.
  intros HO HN HB Hr HF. exists ((p, (src, l, b)) :: B). split; [exact HO|]. split; [|exact HF]. constructor; [exact HN|].
  eapply Forall_impl; [exact HB|]. intros e [He Hne]. now rewrite Hr.
Qed.

Lemma handle_ok_block p src l b b' B f : handle_ok ((p, (src, l, b)) :: B) f -> handle_ok ((p, (src, l, b')) :: B) f.
Proof.
  destruct f as [[[q|] s] m]; [|exact (fun H => H)]. intros [d Hd]. apply elem_of_cons in Hd as [[= -> -> -> ->]|Hd]; [exists b'; left|exists d; now right].
Qed.

Lemma ends_lists_copy h q src l F : lists h ((q, src, l) :: F) -> zlen F + 2 < 2 ^ 32 ->
  ends (copy_node q) (fun q' h' => lists h' ((q', src, l) :: (q, src, l) :: F)) h.
Proof.
  intros HL Hc. destruct q as [p|].
  - destruct (lists_open _ _ _ _ _ HL) as (b & B & HN & HO & HB & HF). pose proof (refs_le p F) as Hr.
    eapply ends_mono; [exact (ends_copy_node p b src l _ _ h HO HN ltac:(lia))|]. intros q' h' (-> & b' & HN' & HO').
    apply (lists_close h' p src l b' B F); [exact HO'| |exact HB| |].
    + rewrite !refs_cons. cbn [fst snd]. rewrite bool_decide_eq_true_2 by reflexivity. now replace (1 + (1 + refs p F)) with (1 + refs p F + 1) by lia.
    + intros q Hq. rewrite !refs_cons. cbn [fst snd]. now rewrite bool_decide_eq_false_2 by congruence.
    + do 2 (constructor; [exists b'; left|]). eapply Forall_impl; [exact HF|]. intros f. apply handle_ok_block.
  - apply ends_ret. destruct HL as (B & HO & HB & HF). exists B. split; [exact HO|]. split; [|constructor; [now apply Forall_cons in HF as [HF _]|exact HF]].
    eapply Forall_impl; [exact HB|]. intros e He. now rewrite refs_cons.
Qed.

Lemma ends_lists_deallocate h q src l F : lists h ((q, src, l) :: F) -> ends (deallocate q) (fun _ h' => lists h' F) h.
Proof.
  intros HL. destruct q as [p|].
  - destruct (lists_open _ _ _ _ _ HL) as (b & B & HN & HO & HB & HF). pose proof (refs_le p F) as Hr.
    eapply ends_mono; [exact (ends_deallocate p b src l _ _ h HO HN)|]. intros [] h'. destruct (Z.eqb_spec (1 + refs p F) 1) as [E|NE].
    + intros HO'. exists B. split; [exact HO'|]. split; [eapply Forall_impl; [exact HB|]; intros e [He _]; exact He|].
      assert (Hn : forall f, f ∈ F -> f.1.1 <> Some p).
      { intros f Hf Ef. apply elem_of_Permutation in Hf as [F' HP]. rewrite (refs_perm _ _ _ HP), refs_cons, bool_decide_eq_true_2 in E by exact Ef. pose proof (refs_le p F'). lia. }
      apply Forall_forall. intros [[[q|] s] m] Hf; rewrite Forall_forall in HF; specialize (HF _ Hf); [|exact HF]. destruct HF as [d Hd]. apply elem_of_cons in Hd as [[= -> -> -> ->]|Hd]; [|now exists d].
      now destruct (Hn _ Hf).
    + intros (b' & HN' & HO'). apply (lists_close h' p src l b' B F); [exact HO'|now replace (refs p F) with (1 + refs p F - 1) by lia|exact HB|reflexivity|].
      eapply Forall_impl; [exact HF|]. intros f. apply handle_ok_block.
  - apply ends_ret. destruct HL as (B & HO & HB & HF). exists B. split; [exact HO|]. split; [|now apply Forall_cons in HF as [_ HF]].
    eapply Forall_impl; [exact HB|]. intros e He. cbn beta in He. rewrite refs_cons in He. exact He.
Qed.

(** Copying a list among the others. *)
Lemma ends_lists_copy_in h q src l F : lists h F -> (q, src, l) ∈ F -> zlen F + 1 < 2 ^ 32 ->
  ends (copy_node q) (fun q' h' => lists h' ((q', src, l) :: F)) h.
Proof.
  intros HL Hin Hc. apply elem_of_Permutation in Hin as [F' HP]. pose proof (Permutation_length HP) as HLn. cbn in HLn.
  eapply ends_mono; [apply (ends_lists_copy h q src l F'); [eapply lists_perm; eauto|lia]|]. intros q' h' HL'. eapply lists_perm; [exact HL'|]. now rewrite HP.
Qed.

(** The count that a block states is the number of its references. *)
Lemma lists_count h F p src l : lists h F -> (Some p, src, l) ∈ F -> get_ref_ct (Some p) h = Some (refs p F, h).
Proof.
  intros (B & HO & HB & HF) Hin. rewrite Forall_forall in HF. destruct (HF _ Hin) as [b Hb]. cbn in Hb. rewrite Forall_forall in HB.
  destruct (HB _ Hb) as (_ & _ & _ & _ & Hc & _ & rest & E). cbn [fst snd] in *.
  assert (HC : ends (get_ref_ct (Some p)) (fun c h' => c = refs p F /\ h' = h) h).
  { unfold get_ref_ct. apply ends_bind, (ends_deref _ _ _ b _ HO); [change (p, b) with (cell (p, (src, l, b))); now apply list_elem_of_fmap_2|].
    apply (ends_lift _ (refs p F)); [|auto]. rewrite E. unfold head. rewrite <- !app_assoc, (app_assoc (le16 _)), get32_at by reflexivity. now rewrite Z.mod_small by lia. }
  destruct (ends_returns _ _ _ HC) as (c & h' & -> & -> & ->). reflexivity.
Qed.

(** [q] is the list at [p] itself, and its block counts one more reference. *)
Definition shared (p : positive) (q : ptr) (h h' : store chunk) : Prop :=
  q = Some p /\ exists c, get_ref_ct q h = Some (c, h) /\ get_ref_ct q h' = Some (c + 1, h').

Lemma copy_shared h F p src l q h' : lists h F -> (Some p, src, l) ∈ F -> copy_node (Some p) h = Some (q, h') -> lists h' ((q, src, l) :: F) -> shared p q h h'.
Proof.
  intros HL Hin E HL'. assert (Eq : q = Some p).
  { unfold copy_node, mbind, prog_bind in E. destruct (deref _ h) as [[b h1]|]; [|discriminate]. destruct (lift _ h1) as [[c h2]|]; [|discriminate].
    destruct (put _ _ h2) as [[[] h3]|]; [|discriminate]. now injection E as <- <-. }
  subst q. split; [reflexivity|]. exists (refs p F). split; [exact (lists_count h F p src l HL Hin)|].
  rewrite (lists_count h' _ p src l HL') by left. rewrite refs_cons. cbn [fst snd]. rewrite bool_decide_eq_true_2 by reflexivity. do 2 f_equal. lia.
Qed.

(** ** The operations *)

Lemma steps_fold {St} (f : Z -> St -> St) l : forall i st, steps (fun _ x => f x) i l st = fold_left (fun st x => f x st) l st.
Proof. induction l as [|x l IH]; intros i st; [reflexivity|]. exact (IH _ _). Qed.

Lemma lists_nghs h F p src l : lists h F -> (Some p, src, l) ∈ F -> nghs src l /\ l <> [] /\ zlen l < 2 ^ 16.
Proof. intros HL Hin. destruct (lists_lookup _ _ _ _ _ HL Hin) as (L & b & c & _ & _ & Hg & Hne & Hd & _). auto. Qed.

Lemma ends_iter_elms {St} (f : Z -> St -> St) h F q src l st : lists h F -> (q, src, l) ∈ F ->
  ends (iter_elms q src f st) (fun r h' => h' = h /\ r = fold_left (fun st x => f x st) l st) h.
Proof.
  intros HL Hin. destruct q as [p|]; [|rewrite (lists_null _ _ _ _ HL Hin); now apply ends_ret].
  destruct (lists_lookup _ _ _ _ _ HL Hin) as (L & b & c & HO & Hb & HN). eapply ends_mono; [exact (ends_walk L (fun _ x => f x) p b src l c st h HO Hb HN)|].
  intros r h' [-> ->]. now rewrite steps_fold.
Qed.

Section Operations.
Context `{NewAddressOk chunk} (junk : store chunk -> Z -> Z) (unset : Z).

Lemma ends_lists_generate h F src pre l post : lists h F -> nghs src l -> zlen l <= max_degree ->
  ends (generate_tree_node junk unset src (pre ++ l ++ post) (zlen pre) (zlen pre + zlen l)) (fun q h' => lists h' ((q, src, l) :: F)) h.
Proof.
  intros HL Hg Hc. destruct (lists_owned _ _ HL) as (L & HO & _).
  eapply ends_mono; [exact (ends_generate junk unset L src _ pre l post h HO Hg eq_refl Hc)|]. intros q h'. exact (lists_made h F L src l q h' HL HO).
Qed.

(** C16: a list that is generated from a part of an array holds the neighbours of that part: a
    walk meets them in order. *)
Theorem edge_list_roundtrip h F src pre l post : lists h F -> nghs src l -> zlen l <= max_degree ->
  exists q h', generate_tree_node junk unset src (pre ++ l ++ post) (zlen pre) (zlen pre + zlen l) h = Some (q, h') /\ lists h' ((q, src, l) :: F) /\
    forall (St : Type) (f : Z -> St -> St) (st : St), iter_elms q src f st h' = Some (fold_left (fun st x => f x st) l st, h').
Proof.
  intros HL Hg Hc. destruct (ends_returns _ _ _ (ends_lists_generate h F src pre l post HL Hg Hc)) as (q & h' & E & HL'). exists q, h'.
  split; [exact E|]. split; [exact HL'|]. intros St f st.
  destruct (ends_returns _ _ _ (ends_iter_elms f h' _ q src l st HL' ltac:(left))) as (r & h2 & Er & -> & ->). exact Er.
Qed.

(** C15: [union_nodes] makes the sorted list of the neighbours of either list, and leaves the
    two lists; when one is null it returns the other itself, which has one more reference.  The
    lists have at most [max_degree] neighbours together, and are not both null. *)
Theorem edge_union_correct h F src ql l qr r : lists h F -> (ql, src, l) ∈ F -> (qr, src, r) ∈ F -> ql <> None \/ qr <> None ->
  zlen l + zlen r <= max_degree -> zlen F + 1 < 2 ^ 32 ->
  exists q h' u, union_nodes junk unset ql qr src h = Some (q, h') /\ lists h' ((q, src, u) :: F) /\ sorted u /\ (forall x, In x u <-> In x l \/ In x r) /\
    (forall p, ql = Some p -> qr = None -> shared p q h h') /\ (forall p, qr = Some p -> ql = None -> shared p q h h').
Proof.
  intros HL Hl Hr Hn Hc HF. assert (HE : ends (union_nodes junk unset ql qr src) (fun q h' => lists h' ((q, src, union l r) :: F)) h).
  { destruct ql as [pl|], qr as [pr|]; [| | |now destruct Hn].
    - destruct (lists_owned _ _ HL) as (L & HO & HB). destruct (HB _ _ _ Hl) as (bl & cl & Hbl & HNl). destruct (HB _ _ _ Hr) as (br & cr & Hbr & HNr).
      eapply ends_seq; [exact (ends_new_reader L pl bl src l cl L h HO Hbl (fun _ H => H) HNl)|]. intros il h' (-> & HRl & -> & _).
      eapply ends_seq; [exact (ends_new_reader L pr br src r cr L h HO Hbr (fun _ H => H) HNr)|]. intros ir h' (-> & HRr & -> & _).
      eapply ends_seq; [exact (ends_union_its junk unset L src il l ir r h HO HRl HRr (proj1 (proj2 HNl)) (proj1 (proj2 HNr)) (proj1 HNl) (proj1 HNr) Hc)|].
      intros x h' HM. apply ends_ret. exact (lists_made h F L src _ _ h' HL HO HM).
    - rewrite (lists_null _ _ _ _ HL Hr), union_nil_r in *. exact (ends_lists_copy_in h _ src l F HL Hl HF).
    - rewrite (lists_null _ _ _ _ HL Hl) in *. exact (ends_lists_copy_in h _ src r F HL Hr HF). }
  destruct (ends_returns _ _ _ HE) as (q & h' & E & HL'). exists q, h', (union l r). split; [exact E|]. split; [exact HL'|]. split; [|split; [apply In_union|split]].
  - destruct q as [p|]; [exact (proj1 (proj2 (proj1 (lists_nghs _ _ _ _ _ HL' ltac:(left)))))|]. rewrite (lists_null _ _ _ _ HL' ltac:(left)). constructor.
  - intros p -> ->. rewrite (lists_null _ _ _ _ HL Hr), union_nil_r in HL'. exact (copy_shared h F p src l q h' HL Hl E HL').
  - intros p -> ->. rewrite (lists_null _ _ _ _ HL Hl) in HL'. exact (copy_shared h F p src r q h' HL Hr E HL').
Qed.

(** [difference] makes the sorted list of the neighbours of the second list that are not
    in the first. *)
Theorem edge_difference_correct h F src ql l qr r : lists h F -> (ql, src, l) ∈ F -> (qr, src, r) ∈ F -> ql <> None \/ qr <> None ->
  zlen r <= max_degree -> zlen F + 1 < 2 ^ 32 ->
  exists q h' u, difference junk unset ql qr src h = Some (q, h') /\ lists h' ((q, src, u) :: F) /\ sorted u /\ forall x, In x u <-> In x r /\ ~ In x l.
Proof.
  intros HL Hl Hr Hn Hc HF. assert (HE : ends (difference junk unset ql qr src) (fun q h' => lists h' ((q, src, minus r l) :: F)) h).
  { destruct (lists_owned _ _ HL) as (L & HO & HB). destruct ql as [pl|], qr as [pr|]; [| | |now destruct Hn].
    - destruct (HB _ _ _ Hl) as (bl & cl & Hbl & HNl). destruct (HB _ _ _ Hr) as (br & cr & Hbr & HNr).
      eapply ends_seq; [exact (ends_new_reader L pl bl src l cl L h HO Hbl (fun _ H => H) HNl)|]. intros il h' (-> & HRl & -> & _).
      eapply ends_seq; [exact (ends_new_reader L pr br src r cr L h HO Hbr (fun _ H => H) HNr)|]. intros ir h' (-> & HRr & -> & _).
      pose proof HNl as ((_ & Hsl & _) & Hnel & Hdl & _). pose proof HNr as (Hgr & Hner & _).
      eapply ends_seq; [exact (ends_difference_its junk unset L src il l ir r h HO HRl HRr Hnel Hner Hsl Hgr Hc Hdl)|].
      intros x h' HM. apply ends_ret. exact (lists_made h F L src _ _ h' HL HO HM).
    - rewrite (lists_null _ _ _ _ HL Hr). apply ends_ret. apply (lists_made h F L src [] None h HL HO). split; [reflexivity|exact HO].
    - rewrite (lists_null _ _ _ _ HL Hl), minus_nil_r. exact (ends_lists_copy_in h _ src r F HL Hr HF). }
  destruct (ends_returns _ _ _ HE) as (q & h' & E & HL'). exists q, h', (minus r l). split; [exact E|]. split; [exact HL'|]. split.
  - destruct qr as [p|]; [apply sorted_filter; exact (proj1 (proj2 (proj1 (lists_nghs _ _ _ _ _ HL Hr))))|].
    rewrite (lists_null _ _ _ _ HL Hr). constructor.
  - intros x. unfold minus. rewrite filter_In, negb_true_iff, <- not_true_iff_false, memb_In. reflexivity.
Qed.

(** [contains] finds the neighbours of a list, and [intersect] counts those of two lists;
    the store stays. *)
Theorem edge_queries_correct h F lsrc ql l rsrc qr r k : lists h F -> (ql, lsrc, l) ∈ F -> (qr, rsrc, r) ∈ F ->
  contains ql lsrc k h = Some (memb k l, h) /\
  intersect ql lsrc qr rsrc h = Some (zlen (List.filter (fun y => memb y l) r), h).
Proof.
  intros HL Hl Hr. destruct (lists_owned _ _ HL) as (L & HO & HB). split.
  - destruct ql as [pl|]; [|now rewrite (lists_null _ _ _ _ HL Hl)]. destruct (HB _ _ _ Hl) as (bl & cl & Hbl & HNl).
    destruct (ends_returns _ _ _ (ends_contains L pl bl lsrc l cl k h HO Hbl HNl)) as (x & h' & E & -> & ->). exact E.
  - destruct ql as [pl|].
    2: { rewrite (lists_null _ _ _ _ HL Hl). assert (E : List.filter (fun y => memb y []) r = []) by (clear; induction r; auto). now rewrite E. }
    destruct qr as [pr|]; [|now rewrite (lists_null _ _ _ _ HL Hr)].
    destruct (HB _ _ _ Hl) as (bl & cl & Hbl & HNl). destruct (HB _ _ _ Hr) as (br & cr & Hbr & HNr). fold (common l r).
    assert (HE : ends (intersect (Some pl) lsrc (Some pr) rsrc) (fun x h' => h' = h /\ x = zlen (common l r)) h).
    { eapply ends_seq; [exact (ends_new_reader L pl bl lsrc l cl L h HO Hbl (fun _ H => H) HNl)|]. intros il h' (-> & HRl & -> & _).
      eapply ends_seq; [exact (ends_new_reader L pr br rsrc r cr L h HO Hbr (fun _ H => H) HNr)|]. intros ir h' (-> & HRr & -> & _).
      eapply ends_seq; [exact (ends_intersect_its L il l ir r h HO HRl HRr (proj1 (proj2 HNl)) (proj1 (proj2 HNr)) (proj1 (proj2 (proj1 HNl))) (proj1 (proj2 (proj1 HNr))) (proj1 (proj2 (proj2 HNr))))|]. intros x h' [-> Ex]. now apply ends_ret. }
    destruct (ends_returns _ _ _ HE) as (x & h' & E & -> & ->). exact E.
Qed.

(** [split_node] makes the lists of the neighbours below and above the key, and tells
    whether the key is one. *)
Theorem edge_split_correct h F src q l k : lists h F -> (q, src, l) ∈ F -> zlen l <= max_degree ->
  exists q1 q2 h', split_node junk unset q src k h = Some ((q1, q2, memb k l), h') /\
    lists h' ((q2, src, List.filter (fun x => k <? x) l) :: (q1, src, List.filter (fun x => x <? k) l) :: F).
Proof.
  intros HL Hin Hc. destruct (lists_owned _ _ HL) as (L & HO & HB). destruct q as [p|].
  - destruct (HB _ _ _ Hin) as (b & c & Hb & HN).
    destruct (ends_returns _ _ _ (ends_split junk unset L p b src l c k h HO Hb HN Hc)) as ([[q1 q2] f] & h' & E & Ef & h1 & L1 & M1 & HO1 & M2).
    cbn [fst snd] in *. subst f. exists q1, q2, h'. split; [exact E|]. apply (lists_made h1 _ L1 src _ _ h'); [|exact HO1|exact M2]. exact (lists_made h F L src _ _ h1 HL HO M1).
  - rewrite (lists_null _ _ _ _ HL Hin). exists None, None, h. split; [reflexivity|].
    pose proof (lists_made h F L src [] None h HL HO (conj eq_refl HO)) as H1. exact (lists_made h _ L src [] None h H1 HO (conj eq_refl HO)).
Qed.

(** C17: [deallocate] takes one reference of a list: the others keep their lists, and nothing is
    left when there are none. *)
Theorem edge_deallocate_correct h q src l F : lists h ((q, src, l) :: F) ->
  exists h', deallocate q h = Some (tt, h') /\ lists h' F /\ (F = [] -> h' = ∅).
Proof.
  intros HL. destruct (ends_returns _ _ _ (ends_lists_deallocate h q src l F HL)) as ([] & h' & E & HL'). exists h'.
  split; [exact E|]. split; [exact HL'|]. intros ->. exact (lists_none h' HL').
Qed.
(** a list whose block is larger than the pools but whose contents fit one, and take more
    than half of the block, keeps that block: it cannot be given up, since the size it states is
    of a pool that it is not from. *)
Theorem edge_wrong_pool h F src l : lists h F -> nghs src l -> 16384 < 5 * zlen l + 12 < 2 ^ 16 ->
  5 * zlen l + 12 < 2 * node_size_of src l <= 2 * 16384 ->
  exists q h', generate_tree_node junk unset src l 0 (zlen l) h = Some (q, h') /\ deallocate q h' = None.
Proof.
  intros HL Hg Hn Hsz. destruct (lists_owned _ _ HL) as (L & HO & _). assert (Hne : l <> []) by (intros ->; cbn in Hn; lia).
  assert (HE : ends (generate_tree_node junk unset src l 0 (zlen l)) (finished src l (zlen l) L) h).
  { unfold generate_tree_node. rewrite (proj2 (Z.leb_gt _ _)), Z.sub_0_r, Nat2Z.id by lia.
    eapply ends_seq; [exact (ends_new_writer junk unset src (zlen l) L h HO (proj1 Hg) ltac:(lia) (proj2 Hn))|]. intros w h1 (p & b & HW & HO1).
    eapply ends_seq; [apply (ends_write_seq L l l src (zlen l) p [] [] [] w h1); [now rewrite app_nil_r|exists b; auto|exact Hg|cbn; lia]|]. intros w2 h2 (b2 & HW2 & HO2).
    exact (ends_finish junk src l (zlen l) w2 p b2 L h2 HO2 HW2). }
  destruct (ends_returns _ _ _ HE) as (q & h' & E & HF). exists q, h'. split; [exact E|]. destruct l as [|x l]; [contradiction|].
  destruct HF as (p & b & -> & HN & HO'). apply (deallocate_wrong_pool p b _ src _ L h' HO' HN). set (m := node_size_of _ _) in *. set (n := 5 * _ + 12) in *.
  assert (Hm : size_class m = 16384) by pools. assert (Hc : size_class n = 0) by pools. unfold final_pool. fold m. fold n. unfold alloc_size. rewrite Hc, Hm. cbn [Z.eqb].
  rewrite (proj2 (Z.leb_gt _ _)) by lia. discriminate.
Qed.
End Operations.

(** ** Examples *)

#[local] Existing Instances fresh_address fresh_address_ok.

(** New blocks with some bytes. *)
Definition example_junk (_ : store chunk) (i : Z) : Z := i * i.

Lemma nghs_check src l : bool_decide (vertex src) && forallb (fun x => bool_decide (vertex x)) l && bool_decide (Sorted Z.lt l) = true -> nghs src l.
Proof.
  rewrite !andb_true_iff. intros [[H1%bool_decide_eq_true H2] H3%bool_decide_eq_true]. split; [exact H1|]. split; [apply Sorted_StronglySorted; [intros x y z; lia|exact H3]|].
  apply List.Forall_forall. intros x Hx. exact (proj1 (bool_decide_eq_true _) (proj1 (forallb_forall _ _) H2 x Hx)).
Qed.

(** Two lists of vertex 7. *)
Lemma example_lists : exists ql qr h, lists h [(qr, 7, [9; 10]); (ql, 7, [3; 9; 300])] /\ ql <> None.
Proof.
  destruct (ends_returns _ _ _ (ends_lists_generate example_junk 0 ∅ [] 7 [] [3; 9; 300] [] lists_empty ltac:(now apply nghs_check) ltac:(vm_compute; discriminate))) as (ql & h1 & _ & H1).
  destruct (ends_returns _ _ _ (ends_lists_generate example_junk 0 h1 _ 7 [] [9; 10] [] H1 ltac:(now apply nghs_check) ltac:(vm_compute; discriminate))) as (qr & h2 & _ & H2).
  exists ql, qr, h2. split; [exact H2|]. intros ->. pose proof (lists_null _ _ _ _ H1 ltac:(left)). discriminate.
Qed.

Lemma edge_list_roundtrip_witness : exists q h', generate_tree_node example_junk 0 7 [1; 3; 9; 300] 1 4 ∅ = Some (q, h') /\ lists h' [(q, 7, [3; 9; 300])] /\
  iter_elms q 7 cons [] h' = Some ([300; 9; 3], h').
Proof.
  destruct (edge_list_roundtrip example_junk 0 ∅ [] 7 [1] [3; 9; 300] [] lists_empty) as (q & h' & E & HL & Hf); [now apply nghs_check|vm_compute; discriminate|].
  exists q, h'. split; [exact E|]. split; [exact HL|exact (Hf _ cons [])].
Defined.

Lemma edge_union_correct_witness : exists ql qr h q h' u, union_nodes example_junk 0 ql qr 7 h = Some (q, h') /\ sorted u /\
  forall x, In x u <-> In x [3; 9; 300] \/ In x [9; 10].
Proof.
  destruct example_lists as (ql & qr & h & HL & Hq).
  destruct (edge_union_correct example_junk 0 h _ 7 ql _ qr _ HL ltac:(right; left) ltac:(left) (or_introl Hq)) as (q & h' & u & E & _ & Hs & Hu);
    [vm_compute; discriminate|reflexivity|]. exists ql, qr, h, q, h', u. split; [exact E|]. split; [exact Hs|exact (proj1 Hu)].
Defined.

Lemma edge_difference_correct_witness : exists ql qr h q h' u, difference example_junk 0 ql qr 7 h = Some (q, h') /\ sorted u /\
  forall x, In x u <-> In x [9; 10] /\ ~ In x [3; 9; 300].
Proof.
  destruct example_lists as (ql & qr & h & HL & Hq).
  destruct (edge_difference_correct example_junk 0 h _ 7 ql _ qr _ HL ltac:(right; left) ltac:(left) (or_introl Hq)) as (q & h' & u & E & _ & Hs & Hu);
    [vm_compute; discriminate|reflexivity|]. exists ql, qr, h, q, h', u. auto.
Defined.

Lemma edge_queries_correct_witness : exists ql qr h, contains ql 7 9 h = Some (true, h) /\ intersect ql 7 qr 7 h = Some (1, h).
Proof.
  destruct example_lists as (ql & qr & h & HL & _). exists ql, qr, h. exact (edge_queries_correct h _ 7 ql [3; 9; 300] 7 qr [9; 10] 9 HL ltac:(right; left) ltac:(left)).
Defined.

Lemma edge_split_correct_witness : exists ql h q1 q2 h' F, split_node example_junk 0 ql 7 9 h = Some ((q1, q2, true), h') /\ lists h' ((q2, 7, [300]) :: (q1, 7, [3]) :: F).
Proof.
  destruct example_lists as (ql & qr & h & HL & _).
  destruct (edge_split_correct example_junk 0 h _ 7 ql _ 9 HL ltac:(right; left)) as (q1 & q2 & h' & E & HL'); [vm_compute; discriminate|].
  exists ql, h, q1, q2, h'. eexists. split; [exact E|exact HL'].
Defined.

Lemma edge_deallocate_correct_witness : exists ql qr h h', deallocate qr h = Some (tt, h') /\ lists h' [(ql, 7, [3; 9; 300])].
Proof.
  destruct example_lists as (ql & qr & h & HL & _). destruct (edge_deallocate_correct h qr 7 _ _ HL) as (h' & E & HL' & _). exists ql, qr, h, h'. auto.
Defined.

(** 4000 neighbours, each 20000 after the one before: their codes have three bytes. *)
Lemma edge_wrong_pool_witness : exists q h', generate_tree_node example_junk 0 0 (List.map (Z.mul 20000) (seqZ 0 4000)) 0 4000 ∅ = Some (q, h') /\ deallocate q h' = None.
Proof.
  apply (edge_wrong_pool example_junk 0 ∅ [] 0 (List.map (Z.mul 20000) (seqZ 0 4000)) lists_empty);
    [apply nghs_check; vm_compute; reflexivity|split; vm_compute; reflexivity|split; [vm_compute; reflexivity|vm_compute; discriminate]].
Defined.
