(* ===== verification/Pma.v ===== *)
(** * The packed memory array of Terrace ([PMA.hpp], [PMA.cc])

    The neighbours of the vertices of medium degree lie in one array with gaps: each vertex
    has a sentinel, followed by its edges in order.  The array is cut into leaves; an
    insertion or a removal that makes a window of leaves too dense or too sparse spreads the
    window out again, or doubles or halves the array.

    One task is modelled, so that every lock is free when it is taken.  An operation returns
    [None] where the code would read or write outside an array, divide by zero or not
    return. *)

From S2P Require Import Prelude Doubles Arrays.
From Stdlib Require Import SpecFloat.
From stdpp Require Import base option list.
#[local] Open Scope Z_scope.

Definition NULL_VAL : Z := 0xffffffff.
Definition SENT_VAL : Z := NULL_VAL - 1.

(** With 64-bit indices the parallel variants are for longer ranges than there can be. *)
Definition REDISTRIBUTE_PAR_SIZE : Z := 0xffffffffffffffff.

Record edge_t := mk_edge { value : Z; dest : Z }.
Record pair_double := mk_pair_double { x : spec_float; y : spec_float }.

Record node_t := mk_node { beginning : Z; node_end : Z; num_neighbors : Z }.

Record edge_list_t := mk_edge_list {
  N : Z;
  H : Z;
  logN : Z;
  loglogN : Z;
  mask_for_leaf : Z;
  vals : list Z;
  dests : list Z;
  density_limit : spec_float;
}.

Record PMA := mk_PMA {
  edges : edge_list_t;
  nodes : list node_t;
  next_task_id : Z;
  upper_density_bound : list spec_float;
  lower_density_bound : list spec_float;
}.

Definition set_arrays (e : edge_list_t) (vs ds : list Z) : edge_list_t :=
  mk_edge_list e.(N) e.(H) e.(logN) e.(loglogN) e.(mask_for_leaf) vs ds e.(density_limit).
Definition set_edges (p : PMA) (e : edge_list_t) : PMA :=
  mk_PMA e p.(nodes) p.(next_task_id) p.(upper_density_bound) p.(lower_density_bound).
Definition set_vals (p : PMA) (vs : list Z) : PMA := set_edges p (set_arrays p.(edges) vs p.(edges).(dests)).
Definition set_dests (p : PMA) (ds : list Z) : PMA := set_edges p (set_arrays p.(edges) p.(edges).(vals) ds).
Definition set_nodes (p : PMA) (ns : list node_t) : PMA :=
  mk_PMA p.(edges) ns p.(next_task_id) p.(upper_density_bound) p.(lower_density_bound).
Definition set_next_task_id (p : PMA) (t : Z) : PMA :=
  mk_PMA p.(edges) p.(nodes) t p.(upper_density_bound) p.(lower_density_bound).

Definition set_beginning (v : Z) (n : node_t) : node_t := mk_node v n.(node_end) n.(num_neighbors).
Definition set_end (v : Z) (n : node_t) : node_t := mk_node n.(beginning) v n.(num_neighbors).
Definition set_num_neighbors (v : Z) (n : node_t) : node_t := mk_node n.(beginning) n.(node_end) v.

Definition modify_node (p : PMA) (i : Z) (f : node_t -> node_t) : option PMA :=
  let? n := rd p.(nodes) i in
  let? ns := wr p.(nodes) i (f n) in
  Some (set_nodes p ns).

(** [__sync_fetch_and_add(&next_task_id, k)] *)
Definition take_task (p : PMA) (k : Z) : PMA := set_next_task_id p (p.(next_task_id) + k)%u64.

(** ** Leaves and densities *)

(** The index of the highest bit; undefined for 0. *)
Definition bsr_word (word : Z) : Z := Z.log2 word.

Definition find_leaf (e : edge_list_t) (index : Z) : Z := Z.land index e.(mask_for_leaf).
Definition next_leaf (index loglogN : Z) : Z := Z.shiftl (Z.shiftr index loglogN + 1) loglogN.
Definition find_node (index len : Z) : Z := index / len * len.

(** [while (dests[start] == NULL_VAL) start--] *)
Fixpoint prev_valid (ds : list Z) (fuel : nat) (start : Z) : option Z :=
  let? d := rd ds start in
  if d =? NULL_VAL then match fuel with O => None | S fuel => prev_valid ds fuel (start - 1) end
  else Some start.
Definition find_prev_valid (ds : list Z) (start : Z) : option Z := prev_valid ds (Z.to_nat start) start.

(** How many of [n] cells from [i] on pass the test. *)
Fixpoint count_cells (test : Z -> bool) (ds : list Z) (n : nat) (i : Z) : option Z :=
  match n with
  | O => Some 0
  | S n =>
    let? d := rd ds i in
    let? full := count_cells test ds n (i + 1) in
    Some ((if test d then 1 else 0) + full)
  end.

(** The cells that [for (i = index; i < index + len; i += k)] visits [k] by [k]. *)
Definition in_steps (k len : Z) : nat := Z.to_nat (k * ((len + k - 1) / k)).

(** Eight null cells at a time with AVX, else four that are not null. *)
Definition get_density_count (e : edge_list_t) (index len : Z) : option Z :=
  if 8 <=? len then
    let? null_count := count_cells (fun d => d =? NULL_VAL) e.(dests) (in_steps 8 len) index in
    Some (len - null_count)%u64
  else count_cells (fun d => negb (d =? NULL_VAL)) e.(dests) (in_steps 4 len) index.

(** [(double)count / len] *)
Definition ratio_of (count len : Z) : spec_float := f64_div (f64 count) (f64 len).

Definition get_density (e : edge_list_t) (index len : Z) : option spec_float :=
  let? full_d := get_density_count e index len in Some (ratio_of full_d len).

Definition f64_quarter : spec_float := f64_div (f64 1) (f64 4).
Definition f64_eighth : spec_float := f64_div (f64 1) (f64 8).
Definition f64_milli : spec_float := f64_div (f64 1) (f64 1000).

Definition density_bound (e : edge_list_t) (depth : Z) : pair_double :=
  let x := f64_sub f64_quarter (f64_div (f64_mul f64_eighth (f64 depth)) (f64 e.(H))) in
  let y := f64_add (f64_div (f64 3) (f64 4)) (f64_div (f64_mul f64_quarter (f64 depth)) (f64 e.(H))) in
  mk_pair_double x (if SFltb e.(density_limit) y then f64_sub e.(density_limit) f64_milli else y).

(** [for (i = 0; i <= H; i++)] over the two arrays of 32 bounds. *)
Fixpoint fill_bounds (e : edge_list_t) (ups lows : list spec_float) (n : nat) (i : Z)
    : option (list spec_float * list spec_float) :=
  match n with
  | O => Some (ups, lows)
  | S n =>
    let? ups := wr ups i (density_bound e i).(y) in
    let? lows := wr lows i (density_bound e i).(x) in
    fill_bounds e ups lows n (i + 1)
  end.

(** The fields that depend on the size of a leaf and on the number of cells, [n] ([N]
    itself is set later). *)
Definition set_leaf_size (e : edge_list_t) (n loglogN : Z) : edge_list_t :=
  let logN := Z.shiftl 1 loglogN in
  mk_edge_list e.(N) (bsr_word (n / logN)) logN loglogN (u32 (Z.lnot (logN - 1))) e.(vals) e.(dests)
    (f64_div (f64_sub (f64 logN) (f64 1)) (f64 logN)).

Definition set_bounds (p : PMA) : option PMA :=
  let? (ups, lows) := fill_bounds p.(edges) p.(upper_density_bound) p.(lower_density_bound) (Z.to_nat (p.(edges).(H) + 1)) 0 in
  Some (mk_PMA p.(edges) p.(nodes) p.(next_task_id) ups lows).

Definition set_N (e : edge_list_t) (n : Z) : edge_list_t :=
  mk_edge_list n e.(H) e.(logN) e.(loglogN) e.(mask_for_leaf) e.(vals) e.(dests) e.(density_limit).

(** ** Spreading out a window *)

(** A sentinel has moved to [loc]: where its vertex begins and the one before ends.  The
    result is where there may be a sentinel again. *)
Definition fix_sentinel (p : PMA) (node_index loc : Z) : option (Z * PMA) :=
  let? p := modify_node p (u32 (node_index - 1)) (set_end loc) in
  let? p := modify_node p node_index (set_beginning loc) in
  let? p :=
    (if node_index =? Z.of_nat (length p.(nodes)) - 1 then modify_node p node_index (set_end (p.(edges).(N) - 1)%u64)
     else Some p) in
  let? n := rd p.(nodes) node_index in
  Some ((n.(beginning) + n.(num_neighbors))%u64, p).

(** The elements of [n] cells from [i] on, values first, and the arrays with those cells
    cleared.  Every cell is first written to the end of a buffer of [room] more places,
    empty or not; without room the write is out of bounds. *)
Fixpoint gather (vs ds : list Z) (n : nat) (i room : Z) : option (list (Z * Z) * list Z * list Z) :=
  match n with
  | O => Some ([], vs, ds)
  | S n =>
    let? v := rd vs i in
    let? d := rd ds i in
    let? vs := wr vs i 0 in
    let? ds := wr ds i NULL_VAL in
    if room <=? 0 then None else
    let? (space, vs, ds) := gather vs ds n (i + 1) (if d =? NULL_VAL then room else room - 1) in
    Some (if d =? NULL_VAL then space else (v, d) :: space, vs, ds)
  end.

(** [for (k = loc; k < count_for_leaf + loc; k++)]: copy the destinations and fix the
    sentinels among them. *)
Fixpoint fill_leaf (p : PMA) (space_dests : list Z) (n : nat) (k j3 end_sentinel : Z) : option (PMA * Z) :=
  match n with
  | O => Some (p, end_sentinel)
  | S n =>
    let? d := rd space_dests j3 in
    let? ds := wr p.(edges).(dests) k d in
    let p := set_dests p ds in
    let? (end_sentinel, p) :=
      (if d =? SENT_VAL then let? node_index := rd p.(edges).(vals) k in fix_sentinel p node_index k
       else Some (end_sentinel, p)) in
    fill_leaf p space_dests n (k + 1) (j3 + 1) end_sentinel
  end.

(** [for (i = ...; i < num_leaves; i++)], [n] leaves. *)
Fixpoint fill_leaves (p : PMA) (space_vals space_dests : list Z) (index count_per_leaf extra : Z) (n : nat) (i end_sentinel : Z) : option PMA :=
  match n with
  | O => Some p
  | S n =>
    let count_for_leaf := count_per_leaf + (if i <? extra then 1 else 0) in
    let loc := index + p.(edges).(logN) * i in
    let j2 := count_per_leaf * i + Z.min i extra in
    let? vs := memmove p.(edges).(vals) loc space_vals j2 count_for_leaf in
    let p := set_vals p vs in
    let? (p, end_sentinel) :=
      (if loc + count_for_leaf <? end_sentinel then
         let? ds := memmove p.(edges).(dests) loc space_dests j2 count_for_leaf in Some (set_dests p ds, end_sentinel)
       else fill_leaf p space_dests (Z.to_nat count_for_leaf) loc j2 end_sentinel) in
    fill_leaves p space_vals space_dests index count_per_leaf extra n (i + 1) end_sentinel
  end.

Definition redistribute (p : PMA) (index len : Z) : option PMA :=
  let e := p.(edges) in
  if len =? e.(logN) then Some p else
  let? (space, vs, ds) := gather e.(vals) e.(dests) (in_steps 8 len) index len in
  let j := Z.of_nat (length space) in
  let num_leaves := Z.shiftr len e.(loglogN) in
  if num_leaves =? 0 then None else
  let count_per_leaf := j / num_leaves in
  let extra := j mod num_leaves in
  fill_leaves (set_edges p (set_arrays e vs ds)) space.*1 space.*2 index count_per_leaf extra (Z.to_nat num_leaves) 0 0.

(** The first [n] cells. *)
Definition read_all {X} (a : list X) (n : Z) : option (list X) :=
  if n <=? Z.of_nat (length a) then Some (take (Z.to_nat n) a) else None.

Definition double_list (p : PMA) : option PMA :=
  let e := p.(edges) in
  let new_N := (e.(N) * 2)%u64 in
  let? p := set_bounds (set_edges p (set_leaf_size e new_N (bsr_word (bsr_word e.(N) + 1)))) in
  let e := set_N p.(edges) new_N in
  let? vs := read_all e.(vals) (new_N / 2) in
  let? ds := read_all e.(dests) (new_N / 2) in
  let rest := Z.to_nat (new_N - new_N / 2) in
  redistribute (set_edges p (set_arrays e (vs ++ repeat 0 rest) (ds ++ repeat NULL_VAL rest))) 0 new_N.

(** [for (i = 0; i < N; i++) if (dests[i] != NULL_VAL) ...]: the elements, packed. *)
Definition elements (vs ds : list Z) : list (Z * Z) := List.filter (fun c => negb (snd c =? NULL_VAL)) (zip vs ds).

Definition half_list (p : PMA) : option PMA :=
  let e := p.(edges) in
  let new_N := e.(N) / 2 in
  let? p := set_bounds (set_edges p (set_leaf_size e new_N (bsr_word (bsr_word e.(N) - 1)))) in
  let? vs := read_all e.(vals) e.(N) in
  let? ds := read_all e.(dests) e.(N) in
  let packed := elements vs ds in
  let start := Z.of_nat (length packed) in
  if new_N <? start then None else
  let rest := Z.to_nat (new_N - start) in
  let e := set_N (set_arrays p.(edges) (packed.*1 ++ repeat 0 rest) (packed.*2 ++ repeat NULL_VAL rest)) new_N in
  redistribute (set_edges p e) 0 new_N.

(** ** Moving the elements of a leaf *)

(** The [while] loop of [slide_right], and what follows it. *)
Fixpoint slide_right_loop (p : PMA) (fuel : nat) (index el_val el_dest : Z) : option PMA :=
  let fix_moved (p : PMA) (v d index : Z) : option PMA :=
    if d =? SENT_VAL then let? (_, p) := fix_sentinel p v index in Some p else Some p in
  let? go := (if index <? p.(edges).(N) then let? d := rd p.(edges).(dests) index in Some (negb (d =? NULL_VAL)) else Some false) in
  if go : bool then
    match fuel with
    | O => None
    | S fuel =>
      let? temp_val := rd p.(edges).(vals) index in
      let? temp_dest := rd p.(edges).(dests) index in
      let? vs := wr p.(edges).(vals) index el_val in
      let? ds := wr p.(edges).(dests) index el_dest in
      let? p := fix_moved (set_edges p (set_arrays p.(edges) vs ds)) el_val el_dest index in
      slide_right_loop p fuel (index + 1) temp_val temp_dest
    end
  else
    let? p := fix_moved p el_val el_dest index in
    let? vs := wr p.(edges).(vals) index el_val in
    let? ds := wr p.(edges).(dests) index el_dest in
    Some (set_edges p (set_arrays p.(edges) vs ds)).

Definition slide_right (p : PMA) (index : Z) : option PMA :=
  let? el_val := rd p.(edges).(vals) index in
  let? el_dest := rd p.(edges).(dests) index in
  let? ds := wr p.(edges).(dests) index NULL_VAL in
  let? vs := wr p.(edges).(vals) index 0 in
  slide_right_loop (set_edges p (set_arrays p.(edges) vs ds)) (Z.to_nat p.(edges).(N)) (index + 1) el_val el_dest.

Fixpoint slide_left (p : PMA) (fuel : nat) (index : Z) : option PMA :=
  if index + 1 <? p.(edges).(N) then
    match fuel with
    | O => None
    | S fuel =>
      let? temp_val := rd p.(edges).(vals) (index + 1) in
      let? temp_dest := rd p.(edges).(dests) (index + 1) in
      let? vs := wr p.(edges).(vals) index temp_val in
      let? ds := wr p.(edges).(dests) index temp_dest in
      let p := set_edges p (set_arrays p.(edges) vs ds) in
      let? p := (if temp_dest =? SENT_VAL then let? (_, p) := fix_sentinel p temp_val index in Some p else Some p) in
      if temp_dest =? NULL_VAL then Some p else slide_left p fuel (index + 1)
    end
  else Some p.

(** ** Searching *)

(** The [while] loop of [binary_search]: [inl] is an early return, [inr] the range left. *)
Fixpoint search_loop (ds : list Z) (loglogN elem_dest : Z) (fuel : nat) (start mid end_ : Z) : option (Z + Z * Z) :=
  if start + 1 <? end_ then
    match fuel with
    | O => None
    | S fuel =>
      let again start end_ := search_loop ds loglogN elem_dest fuel start ((start + end_) / 2) end_ in
      let? item_dest := rd ds mid in
      if item_dest =? NULL_VAL then
        let check := next_leaf mid loglogN in
        if end_ <? check then again start mid else
        let compare check :=
          let? dest := rd ds check in
          if elem_dest =? dest then Some (inl check)
          else if elem_dest <? dest then let? q := find_prev_valid ds mid in again start (q + 1)
          else again (if check =? start then check + 1 else check) end_ in
        let? d := rd ds check in
        if d =? NULL_VAL then
          let? early_check := find_prev_valid ds mid in
          let? d := rd ds early_check in
          if d =? SENT_VAL then Some (inl (early_check + 1))
          else if early_check <? start then again mid end_
          else compare early_check
        else compare check
      else if elem_dest <? item_dest then again start mid
      else if item_dest <? elem_dest then again mid end_
      else Some (inl mid)
    end
  else Some (inr (start, end_)).

(** [elem_val] is not used. *)
Definition binary_search (e : edge_list_t) (elem_dest start end_ : Z) : option Z :=
  let? r := search_loop e.(dests) e.(loglogN) elem_dest (Z.to_nat (end_ - start)) start ((start + end_) / 2) end_ in
  match r with
  | inl i => Some i
  | inr (start, end_) =>
    let start := if end_ <? start then end_ else start in
    let? ds := rd e.(dests) start in
    let? de := rd e.(dests) end_ in
    let end_ := if (ds =? NULL_VAL) && (de =? NULL_VAL) then start else end_ in
    Some (if (elem_dest <=? ds) && negb (ds =? NULL_VAL) then start else end_)
  end.

Definition find_value (p : PMA) (src dest : Z) : option (Z * PMA) :=
  let p := take_task p 2 in
  let? n := rd p.(nodes) src in
  let? loc := binary_search p.(edges) dest (n.(beginning) + 1)%u64 n.(node_end) in
  let? e_dest := rd p.(edges).(dests) loc in
  let? e_value := rd p.(edges).(vals) loc in
  Some (if negb (e_dest =? NULL_VAL) && (e_dest =? dest) then e_value else 0, p).

(** ** Insertion and removal at an index *)

Definition is_one (d : spec_float) : bool := SFeqb d (f64 1).
Definition is_zero (d : spec_float) : bool := SFeqb d (f64 0).

(** The part of [insert] and [remove] after the leaf has changed: [out] says that a density
    is out of bounds, [bounds] are the bounds, [resize] the last resort.  A window that is
    out of bounds is replaced by the one of twice its length around it. *)
Section Climb.
Context (bounds : PMA -> list spec_float) (out : spec_float -> spec_float -> bool) (resize : PMA -> option PMA).

Fixpoint climb (p : PMA) (fuel : nat) (level len node_index : Z) (density density_b : spec_float) : option PMA :=
  if out density density_b then
    match fuel with
    | O => None
    | S fuel =>
      let len := len * 2 in
      if len <=? p.(edges).(N) then
        let level := level - 1 in
        let new_node_index := find_node node_index len in
        let? density_count := get_density_count p.(edges) new_node_index len in
        let? density_b := rd (bounds p) level in
        climb p fuel level len new_node_index (ratio_of density_count len) density_b
      else resize p
    end
  else if p.(edges).(logN) <? len then redistribute p node_index len else Some p.

(** [full]: whether the leaf is left at once for the next level. *)
Definition rebalance (p : PMA) (full : spec_float -> bool) (index : Z) : option PMA :=
  let level := p.(edges).(H) in
  let len := p.(edges).(logN) in
  let node_index := find_leaf p.(edges) index in
  let? density := get_density p.(edges) node_index len in
  let? (p, level, len, node_index) :=
    (if full density then let len := len * 2 in Some (p, level - 1, len, find_node node_index len)
     else let? p := redistribute p node_index len in Some (p, level, len, node_index)) in
  let? density_b := rd (bounds p) level in
  let? density_count := get_density_count p.(edges) node_index len in
  climb p (Z.to_nat p.(edges).(N)) level len node_index (ratio_of density_count len) density_b.
End Climb.

Definition insert (p : PMA) (index elem_dest elem_val : Z) : option PMA :=
  let rebalance p := rebalance upper_density_bound (fun d b => SFleb b d) double_list p is_one index in
  let put p :=
    let? vs := wr p.(edges).(vals) index elem_val in
    let? ds := wr p.(edges).(dests) index elem_dest in
    Some (set_edges p (set_arrays p.(edges) vs ds)) in
  let? d := rd p.(edges).(dests) index in
  if d =? NULL_VAL then let? p := put p in rebalance p
  else if negb (elem_dest =? SENT_VAL) && (d =? elem_dest) then
    let? vs := wr p.(edges).(vals) index elem_val in Some (set_vals p vs)
  else
    let? p := slide_right p index in
    let? p := put p in
    rebalance p.

Definition remove (p : PMA) (index : Z) : option PMA :=
  let? p := slide_left p (Z.to_nat p.(edges).(N)) index in
  rebalance lower_density_bound (fun d b => SFleb d b) half_list p is_zero index.

(** ** Vertices and edges *)

(** [while (dests[beginning - 1] == NULL_VAL && beginning != leaf) beginning -= 1] *)
Fixpoint move_left (ds : list Z) (fuel : nat) (beginning leaf : Z) : option Z :=
  let? d := rd ds (beginning - 1) in
  if (d =? NULL_VAL) && negb (beginning =? leaf) then
    match fuel with O => None | S fuel => move_left ds fuel (beginning - 1) leaf end
  else Some beginning.

Definition add_node (p : PMA) : option PMA :=
  let p := take_task p 2 in
  let len := u32 (Z.of_nat (length p.(nodes))) in
  if 0 <? len then
    let? prev := rd p.(nodes) (len - 1) in
    let beginning := prev.(node_end) in
    let? beginning :=
      (if beginning =? (p.(edges).(N) - 1)%u64 then
         if prev.(num_neighbors) =? 0 then Some (prev.(Pma.beginning) + 1)%u64
         else move_left p.(edges).(dests) (Z.to_nat beginning) beginning (find_leaf p.(edges) beginning)
       else Some beginning) in
    let? p := modify_node p (len - 1) (set_end beginning) in
    let p := set_nodes p (p.(nodes) ++ [mk_node beginning (beginning + 1)%u64 0]) in
    insert p beginning SENT_VAL len
  else
    let p := set_nodes p (p.(nodes) ++ [mk_node 0 1 0]) in
    insert p 0 0 NULL_VAL.

Definition add_edge (p : PMA) (src dest value : Z) : option PMA :=
  if negb (value =? 0) then
    let p := take_task p 2 in
    let? node := rd p.(nodes) src in
    let? p := modify_node p src (fun n => set_num_neighbors (u32 (n.(num_neighbors) + 1)) n) in
    let? loc_to_add := binary_search p.(edges) dest (node.(beginning) + 1)%u64 node.(node_end) in
    insert p loc_to_add dest value
  else Some p.

(** [add_edge_update] and [add_edge_update_fast], which is given its task. *)
Definition add_edge_update_fast (p : PMA) (src dest value : Z) : option (bool * PMA) :=
  if negb (value =? 0) then
    let? node := rd p.(nodes) src in
    let? loc_to_add := binary_search p.(edges) dest (node.(beginning) + 1)%u64 node.(node_end) in
    let? d := rd p.(edges).(dests) loc_to_add in
    if d =? dest then
      let? vs := wr p.(edges).(vals) loc_to_add value in Some (false, set_vals p vs)
    else
      let? p := modify_node p src (fun n => set_num_neighbors (u32 (n.(num_neighbors) + 1)) n) in
      let? p := insert p loc_to_add dest value in
      Some (true, p)
  else Some (false, p).

Definition add_edge_update (p : PMA) (src dest value : Z) : option (bool * PMA) :=
  add_edge_update_fast (if value =? 0 then p else take_task p 2) src dest value.

Fixpoint add_edges (p : PMA) (es : list (Z * Z * Z)) : option PMA :=
  match es with
  | [] => Some p
  | (src, dest, value) :: es => let? (_, p) := add_edge_update_fast p src dest value in add_edges p es
  end.

Definition add_edge_batch_update (p : PMA) (es : list (Z * Z * Z)) : option PMA :=
  add_edges (take_task p (2 * Z.of_nat (length es))%u64) es.

Definition add_edge_batch_update_no_val (p : PMA) (es : list (Z * Z)) : option PMA :=
  add_edges (take_task p (2 * Z.of_nat (length es))%u64) (map (fun e => (fst e, snd e, 1)) es).

(** The large merge is switched off: [if (true || ...)]. *)
Definition add_edge_batch_wrapper (p : PMA) (es : list (Z * Z)) : option PMA :=
  add_edges (take_task p (2 * Z.of_nat (length es))%u64) (map (fun e => (fst e, snd e, 1)) es).

(** [remove_edge_fast], and [remove_edge], which says whether the edge was there. *)
Definition remove_edge_fast (p : PMA) (src dest : Z) : option (bool * PMA) :=
  let? node := rd p.(nodes) src in
  let? loc_to_remove := binary_search p.(edges) dest (node.(beginning) + 1)%u64 node.(node_end) in
  let? d := rd p.(edges).(dests) loc_to_remove in
  if negb (d =? dest) then Some (false, p) else
  let? p := modify_node p src (fun n => set_num_neighbors (u32 (n.(num_neighbors) - 1)) n) in
  let? p := remove p loc_to_remove in
  Some (true, p).

Definition remove_edge (p : PMA) (src dest : Z) : option (bool * PMA) := remove_edge_fast (take_task p 2) src dest.

Fixpoint remove_edges (p : PMA) (es : list (Z * Z)) : option PMA :=
  match es with
  | [] => Some p
  | (src, dest) :: es => let? (_, p) := remove_edge_fast p src dest in remove_edges p es
  end.

Definition remove_edge_batch (p : PMA) (es : list (Z * Z)) : option PMA :=
  remove_edges (take_task p (2 * Z.of_nat (length es))%u64) es.

(** ** Construction *)

Fixpoint add_nodes (p : PMA) (n : nat) : option PMA :=
  match n with O => Some p | S n => let? p := add_node p in add_nodes p n end.

(** [PMA::PMA(init_n)]; [unset] is what the arrays of bounds hold before they are set. *)
Definition new_PMA (unset : spec_float) (init_n : Z) : option PMA :=
  if u32 (init_n * 2) =? 0 then None else
  let n := Z.max (u64 (Z.shiftl 2 (bsr_word (u32 (init_n * 2))))) 16 in
  let cells := Z.to_nat n in
  let e := set_leaf_size (mk_edge_list n 0 0 0 0 (repeat 0 cells) (repeat NULL_VAL cells) unset) n (bsr_word (bsr_word n + 1)) in
  let? p := set_bounds (mk_PMA e [] 1 (repeat unset 32) (repeat unset 32)) in
  add_nodes p (Z.to_nat init_n).

(** [for (i = 0; i <= H; i++)]: copy the bounds that are in use. *)
Definition copy_bounds (unset : spec_float) (bounds : list spec_float) (H : Z) : option (list spec_float) :=
  let? used := read_all bounds (H + 1) in Some (used ++ repeat unset (32 - length used)).

(** [PMA::PMA(PMA &other)]: the copy has arrays of its own. *)
Definition copy_PMA (unset : spec_float) (other : PMA) : option PMA :=
  let e := other.(edges) in
  let? ups := copy_bounds unset other.(upper_density_bound) e.(H) in
  let? lows := copy_bounds unset other.(lower_density_bound) e.(H) in
  let? vs := read_all e.(vals) e.(N) in
  let? ds := read_all e.(dests) e.(N) in
  Some (mk_PMA (set_arrays e vs ds) other.(nodes) 1 ups lows).

(** ** Reading *)

Definition get_n (p : PMA) : Z := Z.of_nat (length p.(nodes)).

Definition num_edges (p : PMA) : Z := fold_left (fun num n => (num + n.(num_neighbors))%u64) p.(nodes) 0.

(** The edges of vertex [i] among the [n] cells from [j] on. *)
Fixpoint get_edges_of (e : edge_list_t) (i : Z) (n : nat) (j : Z) : option (list (Z * Z * Z)) :=
  match n with
  | O => Some []
  | S n =>
    let? d := rd e.(dests) j in
    let? v := rd e.(vals) j in
    let? output := get_edges_of e i n (j + 1) in
    Some (if negb (d =? NULL_VAL) then (i, d, v) :: output else output)
  end.

Fixpoint get_edges_from (e : edge_list_t) (ns : list node_t) (i : Z) : option (list (Z * Z * Z)) :=
  match ns with
  | [] => Some []
  | n :: ns =>
    let? es := get_edges_of e i (Z.to_nat (n.(node_end) - (n.(beginning) + 1))) (n.(beginning) + 1) in
    let? output := get_edges_from e ns (i + 1) in
    Some (es ++ output)
  end.

Definition get_edges (p : PMA) : option (list (Z * Z * Z)) := get_edges_from p.(edges) p.(nodes) 0.

(** [PMA::iterator] *)
Record iterator := mk_iterator { place : Z; it_end : Z }.

(** [while ((place < end) && (dests[place] == NULL_VAL)) place = ...; if (place > end) place = end;] *)
Fixpoint skip_null (e : edge_list_t) (fuel : nat) (place end_ : Z) : option Z :=
  if place <? end_ then
    let? d := rd e.(dests) place in
    if d =? NULL_VAL then
      match fuel with O => None | S fuel => skip_null e fuel (next_leaf place e.(loglogN)) end_ end
    else Some place
  else Some (if end_ <? place then end_ else place).

Definition it_begin (p : PMA) (node : Z) : option iterator :=
  let? n := rd p.(nodes) node in
  let? place := skip_null p.(edges) (Z.to_nat p.(edges).(N)) (n.(beginning) + 1) n.(node_end) in
  Some (mk_iterator place n.(node_end)).

(** The end iterator has no [end] of its own. *)
Definition it_last (p : PMA) (node : Z) : option Z := let? n := rd p.(nodes) node in Some n.(node_end).

Definition it_next (p : PMA) (it : iterator) : option iterator :=
  let? place := skip_null p.(edges) (Z.to_nat p.(edges).(N)) (it.(place) + 1) it.(it_end) in
  Some (mk_iterator place it.(it_end)).

Definition it_get (p : PMA) (it : iterator) : option edge_t :=
  let? v := rd p.(edges).(vals) it.(place) in
  let? d := rd p.(edges).(dests) it.(place) in
  Some (mk_edge v d).

(** [for (it = begin(node); it != end(node); ++it) ... *it ...] *)
Fixpoint it_all (p : PMA) (fuel : nat) (it : iterator) (last : Z) : option (list edge_t) :=
  if it.(place) =? last then Some [] else
  match fuel with
  | O => None
  | S fuel =>
    let? e := it_get p it in
    let? it := it_next p it in
    let? es := it_all p fuel it last in
    Some (e :: es)
  end.

Definition iterate (p : PMA) (node : Z) : option (list edge_t) :=
  let? it := it_begin p node in
  let? last := it_last p node in
  it_all p (Z.to_nat p.(edges).(N)) it last.
