(* ===== verification/PmaSearch.v ===== *)
(** * The array as leaves, and searching it

    A packed memory array holds a list of leaves, each filled from the left: [cells] is the
    array they make, [place] says where an element lies.  The elements are those of a graph,
    vertex by vertex ([entries]); [nodes_are] says where the vertices lie, and [fix_sentinel]
    keeps it so when elements move.

    [binary_search] looks between the sentinels of two vertices.  In leaves filled from the
    left, sorted, and with no two empty leaves before an element, it returns and finds the
    destination, or the cell to insert it at. *)

From stdpp Require Import base option list.
From S2P Require Import Prelude Doubles Arrays Pma.
From Stdlib Require Import SpecFloat.
#[local] Open Scope Z_scope.

(** * The array as leaves *)

(** Splits the comparisons of natural numbers in the goal. *)
Ltac nat_cmps :=
  repeat match goal with
  | |- context [(?a <=? ?b)%nat] => destruct (Nat.leb_spec a b)
  | |- context [(?a <? ?b)%nat] => destruct (Nat.ltb_spec a b)
  | |- context [(?a =? ?b)%nat] => destruct (Nat.eqb_spec a b)
  end; try lia.

(** ** Cells *)

(** A value and a destination. *)
Abbreviation cell := (Z * Z)%type.
Definition null : cell := (0, NULL_VAL).
Definition full (c : cell) : Prop := c.2 <> NULL_VAL.

Lemma lookup_repeat {X} (x c : X) n i : repeat x n !! i = Some c -> c = x.
Proof.
  revert i. induction n as [|n IH]; intros i H; [discriminate|]. destruct i as [|i]; cbn in H; [congruence|]. exact (IH i H).
Qed.

Lemma lookup_S {X} (x : X) l i : (x :: l) !! S i = l !! i.
Proof. reflexivity. Qed.

Section Leaves.
Context (w : nat).
Implicit Types (l : list cell) (L A B : list (list cell)).

Definition pad l : list cell := l ++ repeat null (w - length l).
Definition cells L : list cell := concat (map pad L).

(** No leaf has more than [w] elements; none is full. *)
Definition weak L : Prop := Forall (fun l => (length l <= w)%nat) L.
Definition strong L : Prop := Forall (fun l => (length l < w)%nat) L.

(** The position of element [k]. *)
Fixpoint place L (k : nat) : nat :=
  match L with
  | [] => O
  | l :: L => if (k <? length l)%nat then k else (w + place L (k - length l))%nat
  end.

Lemma strong_weak L : strong L -> weak L.
Proof. apply Forall_impl. intros; lia. Qed.

Lemma cells_app A B : cells (A ++ B) = cells A ++ cells B.
Proof. unfold cells. now rewrite map_app, concat_app. Qed.

Lemma cells_cons l L : cells (l :: L) = pad l ++ cells L.
Proof. reflexivity. Qed.

Lemma length_pad l : (length l <= w)%nat -> length (pad l) = w.
Proof. intros H. unfold pad. rewrite length_app, repeat_length. lia. Qed.

Lemma length_arrays L : weak L -> length (cells L) = (w * length L)%nat.
Proof.
  induction 1 as [|l L Hl _ IH]; [cbn; lia|]. rewrite cells_cons, length_app, length_pad, IH by exact Hl. cbn [length]. lia.
Qed.

Lemma place_app_l A B k : (k < length (concat A))%nat -> place (A ++ B) k = place A k.
Proof.
  revert k. induction A as [|l A IH]; intros k H; [cbn in H; lia|]. cbn [concat app place] in *. rewrite length_app in H.
  destruct (Nat.ltb_spec k (length l)); [reflexivity|]. rewrite IH by lia. reflexivity.
Qed.

Lemma place_app_r A B k : place (A ++ B) (length (concat A) + k) = (w * length A + place B k)%nat.
Proof.
  induction A as [|l A IH]; [cbn; lia|]. cbn [concat app place length]. rewrite length_app.
  destruct (Nat.ltb_spec (length l + length (concat A) + k) (length l)); [lia|].
  replace (length l + length (concat A) + k - length l)%nat with (length (concat A) + k)%nat by lia. rewrite IH. lia.
Qed.

Lemma place_bound L k : weak L -> (k < length (concat L))%nat -> (place L k < w * length L)%nat.
Proof.
  intros H. revert k. induction H as [|l L Hl _ IH]; intros k Hk; [cbn in Hk; lia|]. cbn [concat place length] in *. rewrite length_app in Hk.
  destruct (Nat.ltb_spec k (length l)); [lia|]. specialize (IH (k - length l)%nat ltac:(lia)). lia.
Qed.

Lemma place_ge L k : weak L -> (k < length (concat L))%nat -> (k <= place L k)%nat.
Proof.
  intros H. revert k. induction H as [|l L Hl _ IH]; intros k Hk; [cbn in Hk; lia|]. cbn [concat place] in *. rewrite length_app in Hk.
  destruct (Nat.ltb_spec k (length l)); [lia|]. specialize (IH (k - length l)%nat ltac:(lia)). lia.
Qed.

Lemma place_mono L j k : weak L -> (j < k < length (concat L))%nat -> (place L j + (k - j) <= place L k)%nat.
Proof.
  intros H. revert j k. induction H as [|l L Hl HL IH]; intros j k Hk; [cbn in Hk; lia|]. cbn [concat place] in *. rewrite length_app in Hk.
  destruct (Nat.ltb_spec j (length l)), (Nat.ltb_spec k (length l)); try lia.
  { pose proof (place_ge L (k - length l) HL ltac:(lia)). lia. }
  specialize (IH (j - length l)%nat (k - length l)%nat ltac:(lia)). lia.
Qed.

Lemma place_lt L j k : weak L -> (j < length (concat L))%nat -> (k < length (concat L))%nat -> (place L j < place L k)%nat <-> (j < k)%nat.
Proof.
  intros H Hj Hk. destruct (Nat.lt_trichotomy j k) as [L1|[->|L1]]; [|lia|].
  - pose proof (place_mono L j k H). lia.
  - pose proof (place_mono L k j H). lia.
Qed.

(** The cell at a place is the element. *)
Lemma cells_place L k : weak L -> (k < length (concat L))%nat -> cells L !! place L k = concat L !! k.
Proof.
  intros H. revert k. induction H as [|l L Hl _ IH]; intros k Hk; [cbn in Hk; lia|]. cbn [concat place] in *. rewrite length_app in Hk.
  rewrite cells_cons. destruct (Nat.ltb_spec k (length l)).
  - unfold pad. rewrite <- app_assoc, !lookup_app_l by lia. reflexivity.
  - rewrite lookup_app_r by (rewrite length_pad; lia). rewrite length_pad by exact Hl.
    replace (w + place L (k - length l) - w)%nat with (place L (k - length l)) by lia. rewrite IH by lia. rewrite lookup_app_r by lia. reflexivity.
Qed.

(** A cell that is not null is an element at its place. *)
Lemma cells_full L i c : weak L -> cells L !! i = Some c -> full c -> exists k, (k < length (concat L))%nat /\ place L k = i /\ concat L !! k = Some c.
Proof.
  intros H. revert i. induction H as [|l L Hl _ IH]; intros i Hi Hc; [discriminate Hi|]. rewrite cells_cons in Hi. cbn [concat place].
  destruct (Nat.lt_ge_cases i w) as [Li|Li].
  - rewrite lookup_app_l in Hi by (rewrite length_pad; lia). unfold pad in Hi. destruct (Nat.lt_ge_cases i (length l)) as [L1|L1].
    + exists i. rewrite length_app, lookup_app_l by exact L1. rewrite lookup_app_l in Hi by exact L1. destruct (Nat.ltb_spec i (length l)); [|lia]. repeat split; auto; lia.
    + rewrite lookup_app_r in Hi by exact L1. apply lookup_repeat in Hi. subst c. exfalso. now apply Hc.
  - rewrite lookup_app_r, length_pad in Hi by (rewrite ?length_pad; lia). destruct (IH _ Hi Hc) as (k & Hk & E & Ek).
    exists (length l + k)%nat. rewrite length_app, lookup_app_r by lia. replace (length l + k - length l)%nat with k by lia.
    destruct (Nat.ltb_spec (length l + k) (length l)); [lia|]. rewrite E. repeat split; auto; lia.
Qed.

(** Leaves are filled from the left. *)
Lemma cells_packed L i c c' : (0 < w)%nat -> weak L -> cells L !! i = Some c -> c.2 = NULL_VAL -> Forall full (concat L) -> (S i mod w <> 0)%nat ->
  cells L !! S i = Some c' -> c'.2 = NULL_VAL.
Proof.
  intros W H. revert i. induction H as [|l L Hl _ IH]; intros i Hi Hc HF Hm Hi'; [discriminate Hi|].
  rewrite cells_cons in Hi, Hi'. cbn [concat] in HF. apply Forall_app in HF as [HF1 HF2].
  destruct (Nat.lt_ge_cases i w) as [Li|Li].
  - assert (S i <> w) by (intros E; apply Hm; rewrite E; apply Nat.Div0.mod_same).
    rewrite lookup_app_l in Hi, Hi' by (rewrite length_pad; lia). unfold pad in *. destruct (Nat.lt_ge_cases i (length l)) as [L1|L1].
    + rewrite lookup_app_l in Hi by exact L1. rewrite Forall_lookup in HF1. now apply HF1 in Hi.
    + rewrite lookup_app_r in Hi' by lia. apply lookup_repeat in Hi'. now subst c'.
  - rewrite lookup_app_r, length_pad in Hi, Hi' by (rewrite ?length_pad; lia).
    apply (IH (i - w)%nat); auto; [|replace (S (i - w)) with (S i - w)%nat by lia; exact Hi'].
    intros E. apply Hm. replace (S i) with (S (i - w) + 1 * w)%nat by lia. now rewrite Nat.Div0.mod_add.
Qed.

(** The last cell of a leaf that is not full is null. *)
Lemma cells_gap L i c : strong L -> cells L !! i = Some c -> (S i mod w = 0)%nat -> c.2 = NULL_VAL.
Proof.
  intros H. revert i. induction H as [|l L Hl _ IH]; intros i Hi Hm; [discriminate Hi|]. rewrite cells_cons in Hi.
  destruct (Nat.lt_ge_cases i w) as [Li|Li].
  - assert (S i = w) by (destruct (Nat.eq_dec (S i) w); [assumption|rewrite Nat.mod_small in Hm; lia]).
    rewrite lookup_app_l in Hi by (rewrite length_pad; lia). unfold pad in Hi. rewrite lookup_app_r in Hi by lia.
    apply lookup_repeat in Hi. now subst c.
  - rewrite lookup_app_r, length_pad in Hi by (rewrite ?length_pad; lia). apply (IH (i - w)%nat); auto.
    replace (S (i - w)) with (S i - w)%nat by lia. replace (S i) with (S i - w + 1 * w)%nat in Hm by lia. now rewrite Nat.Div0.mod_add in Hm.
Qed.

Lemma elements_cells L : weak L -> Forall full (concat L) -> List.filter (fun c => negb (c.2 =? NULL_VAL)) (cells L) = concat L.
Proof.
  intros H. induction H as [|l L Hl _ IH]; intros HF; [reflexivity|]. cbn [concat] in *. apply Forall_app in HF as [HF1 HF2].
  rewrite cells_cons, List.filter_app, IH by exact HF2. f_equal. unfold pad. rewrite List.filter_app.
  assert (E1 : List.filter (fun c => negb (c.2 =? NULL_VAL)) l = l).
  { clear - HF1. induction HF1 as [|c l Hc _ IH]; [reflexivity|]. cbn [List.filter]. rewrite (proj2 (Z.eqb_neq _ _) Hc), IH. reflexivity. }
  assert (E2 : forall n, List.filter (fun c => negb (c.2 =? NULL_VAL)) (repeat null n) = []) by (induction n; auto).
  rewrite E1, E2, app_nil_r. reflexivity.
Qed.
End Leaves.

(** ** The elements of a graph *)

Definition sentinel (i : nat) : cell := if (i =? 0)%nat then (NULL_VAL, 0) else (Z.of_nat i, SENT_VAL).

(** The vertices from [i] on, each with its edges. *)
Fixpoint entries (i : nat) (G : list (list cell)) : list cell :=
  match G with [] => [] | es :: G => sentinel i :: es ++ entries (S i) G end.

Fixpoint size (G : list (list cell)) : nat :=
  match G with [] => O | es :: G => (S (length es) + size G)%nat end.

(** Which element the sentinel of vertex [k] is. *)
Definition head (G : list (list cell)) (k : nat) : nat := size (take k G).

(** Destinations are numbers of vertices. *)
Definition edge_ok (c : cell) : Prop := 0 <= c.2 < SENT_VAL.
Definition graph_ok (G : list (list cell)) : Prop := Forall (Forall edge_ok) G.

Lemma length_entries i G : length (entries i G) = size G.
Proof. revert i. induction G as [|es G IH]; intros i; [reflexivity|]. cbn [entries size length]. rewrite length_app, IH. lia. Qed.

Lemma entries_app i G1 G2 : entries i (G1 ++ G2) = entries i G1 ++ entries (i + length G1) G2.
Proof.
  revert i. induction G1 as [|es G1 IH]; intros i; [cbn; now rewrite Nat.add_0_r|]. cbn [entries app length]. rewrite IH, <- app_assoc.
  now replace (S i + length G1)%nat with (i + S (length G1))%nat by lia.
Qed.

Lemma entries_split G k es : G !! k = Some es ->
  entries 0 G = entries 0 (take k G) ++ sentinel k :: es ++ entries (S k) (drop (S k) G).
Proof.
  intros H. pose proof (lookup_lt_Some _ _ _ H). rewrite <- (take_drop_middle G k es H) at 1. rewrite entries_app, length_take. cbn [entries].
  now replace (0 + k `min` length G)%nat with k by lia.
Qed.

Lemma size_app G1 G2 : size (G1 ++ G2) = (size G1 + size G2)%nat.
Proof. induction G1 as [|es G1 IH]; cbn [app size]; lia. Qed.

Lemma head_S G k es : G !! k = Some es -> head G (S k) = (S (head G k + length es))%nat.
Proof. intros H. unfold head. rewrite (take_S_r _ _ _ H), size_app. cbn [size]. lia. Qed.

Lemma head_lt G j k : (j < k < length G)%nat -> (head G j < head G k)%nat.
Proof.
  intros H. replace k with (S j + (k - S j))%nat by lia. remember (k - S j)%nat as d eqn:Ed. assert (Hd : (S j + d < length G)%nat) by lia. clear Ed H k.
  induction d as [|d IH].
  - destruct (lookup_lt_is_Some_2 G j) as [es E]; [lia|]. rewrite Nat.add_0_r, (head_S _ _ _ E). lia.
  - destruct (lookup_lt_is_Some_2 G (S j + d)) as [es E]; [lia|]. replace (S j + S d)%nat with (S (S j + d)) by lia. rewrite (head_S _ _ _ E). specialize (IH ltac:(lia)). lia.
Qed.

Lemma head_inj G j k : (j < length G)%nat -> (k < length G)%nat -> head G j = head G k -> j = k.
Proof.
  intros Hj Hk E. destruct (Nat.lt_trichotomy j k) as [L|[|L]]; [|assumption|].
  - pose proof (head_lt G j k). lia.
  - pose proof (head_lt G k j). lia.
Qed.

Lemma entries_head i G k : (k < length G)%nat -> entries i G !! head G k = Some (sentinel (i + k)).
Proof.
  revert i k. induction G as [|es G IH]; intros i k H; [cbn in H; lia|]. unfold head. destruct k as [|k].
  - cbn. now rewrite Nat.add_0_r.
  - cbn [take size entries length] in *. rewrite Nat.add_succ_l, lookup_S, lookup_app_r by lia. replace (length es + size (take k G) - length es)%nat with (head G k) by (unfold head; lia).
    rewrite IH by lia. do 2 f_equal. lia.
Qed.

Lemma head_lt_size G k : (k < length G)%nat -> (head G k < length (entries 0 G))%nat.
Proof. intros H. exact (lookup_lt_Some _ _ _ (entries_head 0 G k H)). Qed.

Lemma entries_sent i G j v : graph_ok G -> entries i G !! j = Some (v, SENT_VAL) ->
  exists k, (k < length G)%nat /\ (0 < i + k)%nat /\ v = Z.of_nat (i + k) /\ j = head G k.
Proof.
  intros HG. revert i j. induction HG as [|es G He _ IH]; intros i j H; [discriminate|]. cbn [entries] in H. destruct j as [|j].
  - cbn in H. injection H as H. exists O. unfold sentinel in H. destruct (Nat.eqb_spec i 0); [discriminate|]. injection H as H. cbn [length].
    split; [lia|]. split; [lia|]. split; [lia|reflexivity].
  - rewrite lookup_S in H. destruct (Nat.lt_ge_cases j (length es)) as [L|L].
    + rewrite lookup_app_l in H by exact L. rewrite Forall_lookup in He. apply He in H. unfold edge_ok in H. cbn in H. lia.
    + rewrite lookup_app_r in H by exact L. apply IH in H as (k & K1 & K2 & -> & K4). exists (S k). cbn [length]. unfold head in *. cbn [take size].
      split; [lia|]. split; [lia|]. split; [lia|]. lia.
Qed.

Lemma entries_full i G : graph_ok G -> Forall full (entries i G).
Proof.
  intros HG. revert i. induction HG as [|es G He _ IH]; intros i; cbn [entries]; constructor.
  - unfold sentinel, full. destruct (i =? 0)%nat; discriminate.
  - apply Forall_app. split; [|apply IH]. eapply Forall_impl; [|exact He]. intros c Hc. unfold edge_ok, full, SENT_VAL, NULL_VAL in *. lia.
Qed.

(** ** The nodes *)

(** Vertex [k] lies at [pos k] and has [deg k] edges; the last one ends at [e]. *)
Definition nodes_are (ns : list node_t) (n : nat) (pos : nat -> Z) (deg : nat -> Z) (e : Z) : Prop :=
  length ns = n /\ forall k, (k < n)%nat -> ns !! k = Some (mk_node (pos k) (if (S k =? n)%nat then e else pos (S k)) (deg k)).

Lemma nodes_are_ext ns n pos pos' deg deg' e : nodes_are ns n pos deg e -> (forall k, (k < n)%nat -> pos' k = pos k) ->
  (forall k, (k < n)%nat -> deg' k = deg k) -> nodes_are ns n pos' deg' e.
Proof.
  intros [L H] E1 E2. split; [exact L|]. intros k Hk. rewrite H, E1, E2 by exact Hk. destruct (Nat.eqb_spec (S k) n); [reflexivity|]. rewrite E1 by lia. reflexivity.
Qed.

Lemma modify_node_spec p k n f : nodes p !! k = Some n -> modify_node p (Z.of_nat k) f = Some (set_nodes p (<[k := f n]> (nodes p))).
Proof.
  intros E. pose proof (lookup_lt_Some _ _ _ E). unfold modify_node, rd, wr. rewrite !(proj2 (Z.leb_le 0 _)), !(proj2 (Z.ltb_lt _ _)) by lia.
  rewrite Nat2Z.id, E. reflexivity.
Qed.

Definition moved (pos : nat -> Z) (k : nat) (loc : Z) (i : nat) : Z := if (i =? k)%nat then loc else pos i.

Lemma fix_sentinel_spec p n pos deg e k loc : nodes_are (nodes p) n pos deg e -> (0 < k < n)%nat -> Z.of_nat n < 2 ^ 32 ->
  exists ns, fix_sentinel p (Z.of_nat k) loc = Some ((loc + deg k)%u64, set_nodes p ns)
    /\ nodes_are ns n (moved pos k loc) deg (if (S k =? n)%nat then ((edges p).(N) - 1)%u64 else e).
Proof.
  intros [L H] Hk Hn. unfold fix_sentinel. assert (Eu : u32 (Z.of_nat k - 1) = Z.of_nat (k - 1)) by (unfold u32, uwrap; rewrite Z.mod_small; lia). rewrite Eu.
  rewrite (modify_node_spec p (k - 1) _ _ (H (k - 1)%nat ltac:(lia))). set (ns1 := <[(k - 1)%nat := _]> (nodes p)).
  assert (E1 : nodes (set_nodes p ns1) !! k = Some (mk_node (pos k) (if (S k =? n)%nat then e else pos (S k)) (deg k))).
  { cbn [nodes set_nodes]. unfold ns1. rewrite list_lookup_insert_ne by lia. apply H. lia. }
  rewrite (modify_node_spec _ k _ _ E1). cbn [nodes set_nodes edges]. set (ns2 := <[k := _]> ns1).
  assert (L2 : length ns2 = n) by (unfold ns2, ns1; now rewrite !length_insert). rewrite L2.
  assert (E2 : ns2 !! k = Some (mk_node loc (if (S k =? n)%nat then e else pos (S k)) (deg k))).
  { unfold ns2, ns1. rewrite list_lookup_insert_eq by (rewrite length_insert; lia). reflexivity. }
  assert (E3 : forall i, (i < n)%nat -> i <> k -> ns2 !! i = Some (mk_node (moved pos k loc i) (if (S i =? n)%nat then e else moved pos k loc (S i)) (deg i))).
  { intros i Hi Ni. unfold ns2, ns1, moved. rewrite list_lookup_insert_ne by lia. destruct (Nat.eqb_spec i k); [lia|]. destruct (Nat.eq_dec i (k - 1)) as [->|Ni'].
    - rewrite list_lookup_insert_eq by lia. destruct (Nat.eqb_spec (S (k - 1)) n); [lia|]. replace (S (k - 1)) with k by lia. rewrite Nat.eqb_refl. reflexivity.
    - rewrite list_lookup_insert_ne by lia. rewrite H by exact Hi. destruct (Nat.eqb_spec (S i) n), (Nat.eqb_spec (S i) k); try lia; reflexivity. }
  destruct (Z.eqb_spec (Z.of_nat k) (Z.of_nat n - 1)) as [El|El].
  - rewrite (modify_node_spec (set_nodes (set_nodes p ns1) ns2) k _ _ E2). cbn [nodes set_nodes edges]. unfold rd. rewrite (proj2 (Z.leb_le 0 _)), Nat2Z.id by lia.
    rewrite list_lookup_insert_eq by lia. eexists. split; [reflexivity|]. destruct (Nat.eqb_spec (S k) n); [|lia]. split; [now rewrite length_insert|].
    intros i Hi. destruct (Nat.eq_dec i k) as [->|Ni].
    + rewrite list_lookup_insert_eq by lia. unfold moved. rewrite Nat.eqb_refl. destruct (Nat.eqb_spec (S k) n); [|lia]. reflexivity.
    + rewrite list_lookup_insert_ne, E3 by auto. destruct (Nat.eqb_spec (S i) n); [lia|reflexivity].
  - cbn [nodes set_nodes]. unfold rd. rewrite (proj2 (Z.leb_le 0 _)), Nat2Z.id, E2 by lia. eexists. split; [reflexivity|]. destruct (Nat.eqb_spec (S k) n); [lia|].
    split; [exact L2|]. intros i Hi. destruct (Nat.eq_dec i k) as [->|Ni]; [|now apply E3]. rewrite E2. unfold moved. rewrite Nat.eqb_refl.
    destruct (Nat.eqb_spec (S k) n), (Nat.eqb_spec (S k) k); try lia. reflexivity.
Qed.

(** ** Moving consecutive elements *)

(** The positions once [m] elements from element [j0] on have moved to [q 0], [q 1] .. *)
Definition repos (hd : nat -> nat) (j0 m : nat) (q : nat -> Z) (pos : nat -> Z) (k : nat) : Z :=
  if (0 <? k)%nat && (j0 <=? hd k)%nat && (hd k <? j0 + m)%nat then q (hd k - j0)%nat else pos k.

(** The end of the last vertex, which is set when its sentinel moves. *)
Definition last_end (hd : nat -> nat) (n j0 m : nat) (last e : Z) : Z :=
  if (j0 <=? hd (n - 1)%nat)%nat && (hd (n - 1)%nat <? j0 + m)%nat then last else e.

Definition fix_moved (p : PMA) (c : cell) (loc : Z) : option PMA :=
  if c.2 =? SENT_VAL then let? (_, p) := fix_sentinel p c.1 loc in Some p else Some p.

Lemma fix_moved_spec G p n pos deg e j0 m q c : graph_ok G -> n = length G -> (2 <= n)%nat -> Z.of_nat n < 2 ^ 32 ->
  entries 0 G !! (j0 + m)%nat = Some c -> nodes_are (nodes p) n (repos (head G) j0 m q pos) deg (last_end (head G) n j0 m ((edges p).(N) - 1)%u64 e) ->
  exists ns, fix_moved p c (q m) = Some (set_nodes p ns)
    /\ nodes_are ns n (repos (head G) j0 (S m) q pos) deg (last_end (head G) n j0 (S m) ((edges p).(N) - 1)%u64 e)
    /\ (c.2 = SENT_VAL -> exists k, (0 < k < n)%nat /\ head G k = (j0 + m)%nat /\ fix_sentinel p c.1 (q m) = Some ((q m + deg k)%u64, set_nodes p ns)).
Proof.
  intros HG -> Hn2 Hn Ec Hns. unfold fix_moved. destruct (Z.eqb_spec c.2 SENT_VAL) as [E|E].
  - destruct c as [v d]. cbn in E. subst d. destruct (entries_sent 0 G _ _ HG Ec) as (k & K1 & K2 & -> & K4). cbn [fst Nat.add] in *.
    destruct (fix_sentinel_spec p (length G) _ deg _ k (q m) Hns ltac:(lia) Hn) as (ns & Ef & Hns'). cbn. rewrite Ef. exists ns. split; [reflexivity|]. split; [|intros _; exists k; auto].
    assert (Ee : last_end (head G) (length G) j0 (S m) ((edges p).(N) - 1)%u64 e
      = (if (S k =? length G)%nat then ((edges p).(N) - 1)%u64 else last_end (head G) (length G) j0 m ((edges p).(N) - 1)%u64 e)).
    { unfold last_end. destruct (Nat.eqb_spec (S k) (length G)) as [El|El].
      - replace (length G - 1)%nat with k by lia. rewrite <- K4. destruct (Nat.leb_spec j0 (j0 + m)), (Nat.ltb_spec (j0 + m) (j0 + S m)); try lia; reflexivity.
      - assert (head G (length G - 1) <> (j0 + m)%nat) by (intros X; rewrite K4 in X; apply head_inj in X; lia).
        nat_cmps; reflexivity. }
    rewrite Ee. eapply nodes_are_ext; [exact Hns'| |auto]. intros i Hi. unfold moved, repos. destruct (Nat.eqb_spec i k) as [->|Ni].
    + rewrite <- K4. destruct (Nat.ltb_spec 0 k), (Nat.leb_spec j0 (j0 + m)), (Nat.ltb_spec (j0 + m) (j0 + S m)); try lia. cbn [andb]. f_equal. lia.
    + assert (head G i <> (j0 + m)%nat) by (intros X; rewrite K4 in X; apply head_inj in X; lia).
      nat_cmps; reflexivity.
  - assert (Hh : forall i, (0 < i < length G)%nat -> head G i <> (j0 + m)%nat).
    { intros i Hi X. rewrite <- X, entries_head in Ec by lia. injection Ec as <-. apply E. unfold sentinel. cbn [Nat.add]. destruct (Nat.eqb_spec i 0); [lia|reflexivity]. }
    exists (nodes p). split; [now destruct p|]. split; [|congruence].
    assert (Ee : last_end (head G) (length G) j0 (S m) ((edges p).(N) - 1)%u64 e = last_end (head G) (length G) j0 m ((edges p).(N) - 1)%u64 e).
    { unfold last_end. specialize (Hh (length G - 1)%nat ltac:(lia)).
      nat_cmps; reflexivity. }
    rewrite Ee. eapply nodes_are_ext; [exact Hns| |auto]. intros i Hi. unfold repos. destruct (Nat.ltb_spec 0 i); [|reflexivity]. specialize (Hh i ltac:(lia)).
    nat_cmps; reflexivity.
Qed.

(** * Searching the edges of a vertex *)

Section Search.
(** The destinations [d], in leaves of [w] cells; the range lies between the sentinels at
    [lo] and [hi]. *)
Context (ds : list Z) (d : Z -> Z) (lg lo hi elem_dest : Z).
#[local] Abbreviation w := (2 ^ lg).

Hypothesis lg_nonneg : 0 <= lg.
Hypothesis range : 0 <= lo < hi.
Hypothesis read : forall i, 0 <= i <= hi -> rd ds i = Some (d i).
Hypothesis packed : forall i, lo <= i < hi -> d i = NULL_VAL -> (i + 1) mod w <> 0 -> d (i + 1) = NULL_VAL.
Hypothesis sentinel_lo : d lo <> NULL_VAL.
Hypothesis sentinel_hi : d hi = SENT_VAL.
Hypothesis elements_small : forall i, lo < i < hi -> d i <> NULL_VAL -> d i < SENT_VAL.
Hypothesis sorted : forall i j, lo < i < j -> j < hi -> d i <> NULL_VAL -> d j <> NULL_VAL -> d i < d j.
Hypothesis small : elem_dest < SENT_VAL.

(** The next element after the sentinel is at most two leaves on. *)
Hypothesis near : exists j, lo < j <= hi /\ d j <> NULL_VAL /\ j / w <= lo / w + 2.

Lemma slot_pos : 0 < w.
Proof. apply Z.pow_pos_nonneg; lia. Qed.

(** The first cell of the next leaf. *)
Lemma next_leaf_spec i : 0 <= i -> i < next_leaf i lg <= i + w /\ next_leaf i lg = (i / w + 1) * w.
Proof.
  intros Hi. unfold next_leaf. rewrite Z.shiftl_mul_pow2, Z.shiftr_div_pow2 by lia. pose proof slot_pos.
  pose proof (Z.div_mod i w ltac:(lia)). pose proof (Z.mod_pos_bound i w ltac:(lia)). split; [nia|reflexivity].
Qed.

(** After a null cell the rest of its leaf is null. *)
Lemma null_leaf i : lo <= i -> d i = NULL_VAL -> forall j, i <= j < next_leaf i lg -> j <= hi -> d j = NULL_VAL.
Proof.
  intros Hi Hd j Hj Hh. replace j with (i + Z.of_nat (Z.to_nat (j - i))) in * by lia. revert Hj Hh. generalize (Z.to_nat (j - i)) as n. clear j.
  induction n as [|n IH]; intros Hj Hh; [now rewrite Z.add_0_r|]. replace (i + Z.of_nat (S n)) with (i + Z.of_nat n + 1) in * by lia.
  apply packed; [lia|apply IH; lia|]. destruct (next_leaf_spec i ltac:(lia)) as [_ E]. rewrite E in Hj. pose proof slot_pos.
  pose proof (Z.div_mod i w ltac:(lia)). pose proof (Z.mod_pos_bound i w ltac:(lia)). intros X. apply Z.mod_divide in X as [q X]; [|lia].
  assert (q < i / w + 1) by nia. assert (i / w < q) by nia. lia.
Qed.

(** The last element before a cell. *)
Lemma prev_valid_spec i : lo <= i <= hi -> exists q, find_prev_valid ds i = Some q /\ lo <= q <= i /\ d q <> NULL_VAL
  /\ forall j, q < j <= i -> d j = NULL_VAL.
Proof.
  intros Hi. unfold find_prev_valid.
  assert (P : forall n i, lo <= i <= hi -> i = lo + Z.of_nat n -> forall fuel, (n <= fuel)%nat -> exists q, prev_valid ds fuel i = Some q /\ lo <= q <= i /\ d q <> NULL_VAL
    /\ forall j, q < j <= i -> d j = NULL_VAL).
  { clear i Hi. induction n as [|n IH]; intros i Hi E fuel Hf.
    - exists lo. replace i with lo by lia. destruct fuel; cbn [prev_valid]; rewrite read, (proj2 (Z.eqb_neq _ _) sentinel_lo) by lia; repeat split; auto; lia.
    - destruct fuel as [|fuel]; [lia|]. cbn [prev_valid]. rewrite read by lia. destruct (Z.eqb_spec (d i) NULL_VAL) as [E0|N0].
      + destruct (IH (i - 1) ltac:(lia) ltac:(lia) fuel ltac:(lia)) as (q & -> & Hq & Hd & Hn). exists q. split; [reflexivity|]. split; [lia|]. split; [exact Hd|].
        intros j Hj. destruct (Z.eq_dec j i) as [->|]; [exact E0|apply Hn; lia].
      + exists i. repeat split; auto; lia. }
  apply (P (Z.to_nat (i - lo))); lia.
Qed.

(** ** What is found *)

Definition below (r : Z) : Prop := forall i, lo < i < r -> d i <> NULL_VAL -> d i < elem_dest.
Definition above (r : Z) : Prop := forall i, r <= i < hi -> d i <> NULL_VAL -> elem_dest < d i.

(** The destination is there, or belongs there: at an element, or right behind one. *)
Definition found (r : Z) : Prop :=
  lo < r <= hi /\ (r < hi /\ d r = elem_dest \/ below r /\ above r /\ (d r <> NULL_VAL \/ d (r - 1) <> NULL_VAL)).

(** ** The loop *)

Record searching (start end_ : Z) : Prop := {
  sg_start : lo < start <= hi;
  sg_end : lo < end_ <= hi;
  sg_below : below start;
  sg_above : above end_;
  sg_last : d end_ <> NULL_VAL \/ d (end_ - 1) <> NULL_VAL;
}.

Lemma below_elem i r : lo < i < hi -> d i <> NULL_VAL -> d i < elem_dest -> r <= i + 1 -> below r.
Proof.
  intros Hi Hn Hd Hr j Hj Nj. destruct (Z.eq_dec j i) as [->|]; [exact Hd|]. pose proof (sorted j i ltac:(lia) ltac:(lia) Nj Hn). lia.
Qed.

Lemma above_elem i : lo < i < hi -> d i <> NULL_VAL -> elem_dest < d i -> above i.
Proof.
  intros Hi Hn Hd j Hj Nj. destruct (Z.eq_dec j i) as [->|]; [exact Hd|]. pose proof (sorted i j ltac:(lia) ltac:(lia) Hn Nj). lia.
Qed.

(** Null cells can be added to both sides. *)
Lemma below_null r r' : below r -> (forall j, r <= j < r' -> d j = NULL_VAL) -> below r'.
Proof. intros H Hn i Hi Ni. destruct (Z.lt_ge_cases i r); [apply H; auto; lia|]. exfalso. apply Ni, Hn. lia. Qed.

Lemma above_null r r' : above r -> (forall j, r' <= j < r -> d j = NULL_VAL) -> above r'.
Proof. intros H Hn i Hi Ni. destruct (Z.lt_ge_cases i r); [|apply H; auto; lia]. exfalso. apply Ni, Hn. lia. Qed.

(** Without an element between the sentinel and the end, the cell behind the sentinel. *)
Lemma found_first end_ : above end_ -> (forall j, lo < j < end_ -> d j = NULL_VAL) -> found (lo + 1).
Proof.
  intros Ha Hn. split; [lia|]. right. split; [intros i Hi; lia|]. split; [apply (above_null end_); [exact Ha|intros j Hj; apply Hn; lia]|].
  right. replace (lo + 1 - 1) with lo by lia. exact sentinel_lo.
Qed.

(** Two cells on either side of the middle, the next leaf after it empty, and no element
    before it: there is none before the end either. *)
Lemma sentinel_only start mid end_ : searching start end_ -> start < mid < end_ -> mid = (start + end_) / 2 ->
  (forall j, lo < j <= mid -> d j = NULL_VAL) -> next_leaf mid lg <= end_ -> d (next_leaf mid lg) = NULL_VAL ->
  forall j, lo < j < end_ -> d j = NULL_VAL.
Proof.
  intros S Hm Em Hn Hc Hd j Hj. pose proof (sg_end _ _ S) as He. pose proof (sg_start _ _ S) as Hs. destruct (next_leaf_spec mid ltac:(lia)) as [B1 B2]. set (c := next_leaf mid lg) in *.
  destruct (next_leaf_spec c ltac:(lia)) as [C1 C2]. pose proof slot_pos as Wp.
  assert (Ec : c / w = mid / w + 1) by (rewrite B2; apply Z.div_mul; lia).
  assert (Hall : forall j, lo < j -> j < next_leaf c lg -> j <= hi -> d j = NULL_VAL).
  { intros i I1 I2 I3. destruct (Z.le_gt_cases i mid); [apply Hn; lia|]. destruct (Z.lt_ge_cases i c).
    - apply (null_leaf mid); [lia|apply Hn; lia|lia|lia].
    - apply (null_leaf c); [lia|exact Hd|lia|lia]. }
  destruct near as (k & K1 & K2 & K3).
  assert (Hk : next_leaf c lg <= k) by (destruct (Z.lt_ge_cases k (next_leaf c lg)); [exfalso; apply K2, Hall; lia|assumption]).
  assert (Hkw : c / w + 1 <= k / w) by (apply Z.div_le_lower_bound; lia).
  (* so the middle is in the leaf of the sentinel, and the end not far *)
  assert (Hmw : mid / w <= lo / w) by lia.
  assert (mid < (lo / w + 1) * w) by (pose proof (Z.div_mod mid w ltac:(lia)); pose proof (Z.mod_pos_bound mid w ltac:(lia)); nia).
  assert (lo / w * w <= lo) by (pose proof (Z.div_mod lo w ltac:(lia)); pose proof (Z.mod_pos_bound lo w ltac:(lia)); nia).
  assert (E2 : 2 * mid <= start + end_ < 2 * mid + 2) by (pose proof (Z.div_mod (start + end_) 2); pose proof (Z.mod_pos_bound (start + end_) 2); lia).
  apply Hall; [lia| |lia]. rewrite C2, Ec. assert (lo / w <= mid / w) by (apply Z.div_le_mono; lia). nia.
Qed.

(** The new range, on either side of an element. *)
Lemma searching_left start end_ e : searching start end_ -> lo < e < hi \/ e = hi -> d e <> NULL_VAL -> (e < hi -> elem_dest < d e) ->
  forall q, lo <= q < e -> d q <> NULL_VAL -> (forall j, q < j < e -> d j = NULL_VAL) -> searching start (q + 1).
Proof.
  intros [S1 S2 Sb Sa Sl] He Ne Le q Hq Nq Hn. split; auto; [lia| |right; replace (q + 1 - 1) with q by lia; exact Nq].
  apply (above_null e); [|intros j Hj; apply Hn; lia]. destruct (Z.eq_dec e hi) as [->|]; [intros i Hi; lia|]. apply above_elem; auto; lia.
Qed.

Lemma searching_right start end_ e s : searching start end_ -> lo < e < hi -> d e <> NULL_VAL -> d e < elem_dest -> e <= s <= e + 1 -> searching s end_.
Proof. intros [S1 S2 Sb Sa Sl] He Ne Le Hs. split; auto; [lia|]. apply (below_elem e); auto; lia. Qed.

Lemma search_loop_spec : forall fuel start mid end_, searching start end_ -> mid = (start + end_) / 2 -> (Z.to_nat (end_ - start) <= fuel)%nat ->
  exists r, search_loop ds lg elem_dest fuel start mid end_ = Some r
    /\ match r with inl i => found i | inr (s, e) => searching s e /\ e <= s + 1 end.
Proof.
  induction fuel as [|fuel IH]; intros start mid end_ S Em Hf.
  - cbn [search_loop]. rewrite (proj2 (Z.ltb_ge _ _)) by lia. eexists. split; [reflexivity|]. split; [exact S|lia].
  - cbn [search_loop]. destruct (Z.ltb_spec (start + 1) end_) as [L|L]; [|eexists; split; [reflexivity|]; split; [exact S|lia]].
    pose proof S as [S1 S2 Sb Sa Sl].
    assert (Hm : start < mid < end_) by (pose proof (Z.div_mod (start + end_) 2); pose proof (Z.mod_pos_bound (start + end_) 2); lia).
    assert (Again : forall s e, searching s e -> e - s < end_ - start -> exists r, search_loop ds lg elem_dest fuel s ((s + e) / 2) e = Some r
      /\ match r with inl i => found i | inr (s, e) => searching s e /\ e <= s + 1 end) by (intros s e Hs He; apply IH; auto; lia).
    assert (Found : forall i, lo < i < hi -> d i = elem_dest -> exists r, Some (inl i) = Some r
      /\ match r with inl i => found i | inr (s, e) => searching s e /\ e <= s + 1 end) by (intros i Hi Ei; eexists; split; [reflexivity|]; split; [lia|now left]).
    rewrite read by lia. destruct (Z.eqb_spec (d mid) NULL_VAL) as [E0|N0].
    + destruct (next_leaf_spec mid ltac:(lia)) as [B1 B2]. set (c := next_leaf mid lg) in *.
      assert (Hc : c <= end_).
      { destruct (Z.lt_ge_cases end_ c) as [Lc|]; [exfalso|assumption]. destruct Sl as [Sl|Sl]; apply Sl, (null_leaf mid); fold c; lia. }
      rewrite (proj2 (Z.ltb_ge end_ c)) by exact Hc. rewrite read by lia.
      destruct (prev_valid_spec mid ltac:(lia)) as (q & Eq & Hq & Nq & Hqn). rewrite Eq.
      assert (q <> mid) by congruence.
      assert (Hnc : forall j, q < j < c -> d j = NULL_VAL) by (intros j Hj; destruct (Z.le_gt_cases j mid); [apply Hqn; lia|apply (null_leaf mid); fold c; auto; lia]).
      destruct (Z.eqb_spec (d c) NULL_VAL) as [Ec|Nc].
      * rewrite read by lia. destruct (Z.eqb_spec (d q) SENT_VAL) as [Es|Ns].
        { assert (q = lo) as ->. { destruct (Z.eq_dec q lo); [assumption|]. pose proof (elements_small q ltac:(lia) Nq). lia. }
          eexists. split; [reflexivity|]. apply (found_first end_ Sa). apply (sentinel_only start mid); auto. }
        destruct (Z.ltb_spec q start) as [Lq|Lq].
        { apply Again; [|lia]. split; auto; [lia|]. apply (below_null start); [exact Sb|]. intros j Hj. apply Hnc. lia. }
        destruct (Z.eqb_spec elem_dest (d q)) as [Ex|Nx]; [apply Found; [lia|congruence]|].
        destruct (Z.ltb_spec elem_dest (d q)) as [Lx|Lx].
        { apply Again; [|lia]. pose proof (above_elem q ltac:(lia) Nq Lx) as A. split; auto; [lia| |right; replace (q + 1 - 1) with q by lia; exact Nq].
          intros i Hi Ni. apply A; auto. lia. }
        destruct (Z.eqb_spec q start); (apply Again; [apply (searching_right start end_ q); auto; lia|lia]).
      * destruct (Z.eqb_spec elem_dest (d c)) as [Ex|Nx].
        { apply Found; [|congruence]. split; [lia|]. destruct (Z.eq_dec c hi) as [E|]; [rewrite E in Ex; lia|lia]. }
        destruct (Z.ltb_spec elem_dest (d c)) as [Lx|Lx].
        { apply Again; [|lia]. apply (searching_left start end_ c); auto; lia. }
        assert (c < hi) by (destruct (Z.eq_dec c hi) as [E|]; [rewrite E in Lx; lia|lia]).
        destruct (Z.eqb_spec c start); [lia|]. apply Again; [apply (searching_right start end_ c); auto; lia|lia].
    + destruct (Z.ltb_spec elem_dest (d mid)) as [Lx|Lx].
      { apply Again; [|lia]. split; auto; [lia|]. apply above_elem; auto; lia. }
      destruct (Z.ltb_spec (d mid) elem_dest) as [Gx|Gx]; [|apply Found; lia].
      apply Again; [apply (searching_right start end_ mid); auto; lia|lia].
Qed.

(** *** The whole search *)

Lemma binary_search_finds e : dests e = ds -> loglogN e = lg ->
  exists r, binary_search e elem_dest (lo + 1) hi = Some r /\ found r.
Proof.
  intros Ed El. unfold binary_search. rewrite Ed, El.
  assert (S0 : searching (lo + 1) hi).
  { split; try lia; [intros i Hi; lia|intros i Hi; lia|left; rewrite sentinel_hi; discriminate]. }
  destruct (search_loop_spec (Z.to_nat (hi - (lo + 1))) (lo + 1) ((lo + 1 + hi) / 2) hi S0 eq_refl ltac:(lia)) as (r & -> & Hr).
  destruct r as [i|[start end_]]; [eauto|]. destruct Hr as [S L]. pose proof S as [S1 S2 Sb Sa Sl].
  set (s := if end_ <? start then end_ else start). assert (Hs : lo < s <= end_ /\ end_ <= s + 1 /\ below s).
  { unfold s. destruct (Z.ltb_spec end_ start); (split; [lia|]; split; [lia|]); [|exact Sb]. intros i Hi. apply Sb. lia. }
  clearbody s. destruct Hs as (Hs1 & Hs2 & Hb). rewrite !read by lia.
  assert (Fd : forall x, x = end_ -> below x -> found x).
  { intros x -> Hx. split; [lia|]. right. auto. }
  assert (Hend : elem_dest < d end_ \/ d end_ = NULL_VAL).
  { destruct (Z.eq_dec (d end_) NULL_VAL); [now right|left]. destruct (Z.eq_dec end_ hi) as [->|]; [lia|]. apply Sa; auto. lia. }
  eexists. split; [reflexivity|]. destruct (Z.eqb_spec (d s) NULL_VAL) as [En|Nn]; cbn [andb negb].
  - rewrite andb_false_r. destruct (Z.eqb_spec (d end_) NULL_VAL) as [Ee|Ne].
    + assert (s = end_) by (destruct Sl as [Sl|Sl]; [contradiction|]; destruct (Z.eq_dec s end_); [assumption|]; replace (end_ - 1) with s in Sl by lia; contradiction).
      apply Fd; [assumption|now subst s].
    + apply Fd; [reflexivity|]. apply (below_null s); [exact Hb|]. intros j Hj. replace j with s by lia. exact En.
  - rewrite andb_true_r. destruct (Z.leb_spec elem_dest (d s)) as [Lx|Lx].
    + destruct (Z.eq_dec s end_) as [->|]; [now apply Fd|]. split; [lia|]. destruct (Z.eq_dec (d s) elem_dest) as [Ex|]; [left; split; [lia|exact Ex]|right].
      split; [exact Hb|]. split; [apply above_elem; auto; lia|left; exact Nn].
    + destruct (Z.eq_dec s end_) as [->|]; [lia|]. apply Fd; [reflexivity|]. apply (below_elem s); auto; lia.
Qed.
End Search.
