(* ===== verification/PmaSpread.v ===== *)
(** * Moving elements and spreading out a window

    [slide_right] and [slide_left] move the elements behind one by a cell.
    [redistribute] puts the elements of a window of leaves back so that the leaves hold as
    many as each other, up to one; [double_list] and [half_list] do so with the whole array
    once its size has changed. *)

From stdpp Require Import base option list.
From S2P Require Import Prelude Doubles Arrays Pma PmaSearch.
From Stdlib Require Import SpecFloat.
#[local] Open Scope Z_scope.

(** * Moving elements *)

Definition has_cells (p : PMA) (cs : list cell) : Prop := vals (edges p) = cs.*1 /\ dests (edges p) = cs.*2.

Definition with_cells (p : PMA) (cs : list cell) (ns : list node_t) : PMA :=
  mk_PMA (set_arrays (edges p) cs.*1 cs.*2) ns (next_task_id p) (upper_density_bound p) (lower_density_bound p).

Section Cells.
Implicit Types (a b l : list cell) (c : cell).

Lemma rd_fst a c b i : i = Z.of_nat (length a) -> rd (a ++ c :: b).*1 i = Some c.1.
Proof. intros ->. rewrite fmap_app, fmap_cons. apply rd_app. now rewrite length_fmap. Qed.

Lemma rd_snd a c b i : i = Z.of_nat (length a) -> rd (a ++ c :: b).*2 i = Some c.2.
Proof. intros ->. rewrite fmap_app, fmap_cons. apply rd_app. now rewrite length_fmap. Qed.

Lemma wr_fst a c c' b i : i = Z.of_nat (length a) -> wr (a ++ c :: b).*1 i c'.1 = Some (a ++ c' :: b).*1.
Proof. intros ->. rewrite !fmap_app, !fmap_cons. apply wr_app. now rewrite length_fmap. Qed.

Lemma wr_snd a c c' b i : i = Z.of_nat (length a) -> wr (a ++ c :: b).*2 i c'.2 = Some (a ++ c' :: b).*2.
Proof. intros ->. rewrite !fmap_app, !fmap_cons. apply wr_app. now rewrite length_fmap. Qed.
End Cells.

Section Moves.
Context (G : list (list cell)) (n : nat) (deg : nat -> Z) (e : Z).
Hypothesis HG : graph_ok G.
Hypothesis Hn : n = length G /\ (2 <= n)%nat /\ Z.of_nat n < 2 ^ 32.

#[local] Abbreviation last p := ((edges p).(N) - 1)%u64.

(** Elements [m] of those from [j0] on have moved to [q]. *)
Definition moved_to (ns : list node_t) (j0 m : nat) (q pos : nat -> Z) (N : Z) : Prop :=
  nodes_are ns n (repos (head G) j0 m q pos) deg (last_end (head G) n j0 m (N - 1)%u64 e).

(** The elements of a list are those of the graph from [j] on. *)
Definition elements_at (j : nat) (l : list cell) : Prop := forall t c, l !! t = Some c -> entries 0 G !! (j + t)%nat = Some c.

Lemma elements_at_cons j c l : elements_at j (c :: l) -> entries 0 G !! j = Some c /\ elements_at (S j) l.
Proof.
  clear Hn. intros H. split; [rewrite <- (Nat.add_0_r j); now apply H|]. intros t c' Hc. replace (S j + t)%nat with (j + S t)%nat by lia. now apply H.
Qed.

Lemma slide_right_loop_spec j0 q pos l : forall p a c b m fuel, has_cells p (a ++ l ++ null :: b) -> N (edges p) = Z.of_nat (length (a ++ l ++ null :: b)) ->
  Forall full l -> elements_at (j0 + m) (c :: l) -> (forall t, (t <= length l)%nat -> q (m + t)%nat = Z.of_nat (length a + t)) ->
  moved_to (nodes p) j0 m q pos (N (edges p)) -> (length l < fuel)%nat ->
  exists ns, slide_right_loop p fuel (Z.of_nat (length a)) c.1 c.2 = Some (with_cells p (a ++ c :: l ++ b) ns) /\ moved_to ns j0 (m + S (length l)) q pos (N (edges p)).
Proof.
  induction l as [|c' l IH]; intros p a c b m fuel [Hv Hd] HN HF HE Hq Hns Hf.
  - apply elements_at_cons in HE as [Ec _].
    destruct (fix_moved_spec G p n pos deg e j0 m q c HG (proj1 Hn) (proj1 (proj2 Hn)) (proj2 (proj2 Hn)) Ec Hns) as (ns & Ef & Hns' & _).
    specialize (Hq 0%nat ltac:(lia)). rewrite !Nat.add_0_r in Hq. exists ns. split; [|now rewrite Nat.add_1_r].
    destruct fuel; [lia|]. cbn [slide_right_loop]. rewrite (proj2 (Z.ltb_lt _ (N (edges p)))) by (rewrite HN; len). rewrite Hd. cbn [app]. rewrite (rd_snd a null b) by reflexivity.
    change (negb (null.2 =? NULL_VAL)) with false. unfold fix_moved in Ef. rewrite Hq in Ef. cbn iota. rewrite Ef. cbn [edges set_nodes]. rewrite Hv, Hd. cbn [app].
    rewrite (wr_fst a null c b), (wr_snd a null c b) by reflexivity. reflexivity.
  - apply elements_at_cons in HE as [Ec HE]. inversion_clear HF as [|? ? Fc HF']. destruct fuel as [|fuel]; [lia|]. cbn [slide_right_loop length] in *.
    rewrite (proj2 (Z.ltb_lt _ (N (edges p)))) by (rewrite HN; len). rewrite Hv, Hd. cbn [app]. rewrite !(rd_snd a c') by reflexivity. rewrite (proj2 (Z.eqb_neq _ _) Fc). cbn [negb].
    rewrite (rd_fst a c') by reflexivity. rewrite (wr_fst a c' c), (wr_snd a c' c) by reflexivity.
    set (p1 := set_edges p _). assert (E1 : edges p1 = set_arrays (edges p) (a ++ c :: l ++ null :: b).*1 (a ++ c :: l ++ null :: b).*2) by reflexivity.
    destruct (fix_moved_spec G p1 n pos deg e j0 m q c HG (proj1 Hn) (proj1 (proj2 Hn)) (proj2 (proj2 Hn)) Ec Hns) as (ns & Ef & Hns' & _).
    pose proof (Hq 0%nat ltac:(lia)) as Hq0. rewrite !Nat.add_0_r in Hq0. unfold fix_moved in Ef. rewrite Hq0 in Ef. rewrite Ef.
    destruct (IH (set_nodes p1 ns) (a ++ [c]) c' b (S m) fuel) as (ns' & E & Hns''); cbn [edges set_nodes]; rewrite ?E1; cbn [N set_arrays]; auto.
    + split; cbn [edges set_nodes]; rewrite E1; now rewrite <- app_assoc.
    + rewrite HN. len.
    + now replace (j0 + S m)%nat with (S (j0 + m)) by lia.
    + intros t Ht. replace (S m + t)%nat with (m + S t)%nat by lia. rewrite Hq by lia. len.
    + lia.
    + exists ns'. replace (Z.of_nat (length a) + 1) with (Z.of_nat (length (a ++ [c]))) by len. rewrite E. split.
      * f_equal. unfold with_cells. cbn [edges set_nodes next_task_id upper_density_bound lower_density_bound]. rewrite E1. unfold set_arrays. cbn. now rewrite <- app_assoc.
      * now replace (m + S (S (length l)))%nat with (S m + S (length l))%nat by lia.
Qed.

Lemma slide_right_spec p a c l b j0 q pos : has_cells p (a ++ c :: l ++ null :: b) -> N (edges p) = Z.of_nat (length (a ++ c :: l ++ null :: b)) ->
  Forall full l -> elements_at j0 (c :: l) -> (forall t, (t <= length l)%nat -> q t = Z.of_nat (length a + 1 + t)) -> moved_to (nodes p) j0 0 q pos (N (edges p)) ->
  exists ns, slide_right p (Z.of_nat (length a)) = Some (with_cells p (a ++ null :: c :: l ++ b) ns) /\ moved_to ns j0 (S (length l)) q pos (N (edges p)).
Proof.
  intros [Hv Hd] HN HF HE Hq Hns. unfold slide_right. rewrite Hv, Hd, (rd_fst a c), (rd_snd a c) by reflexivity.
  change NULL_VAL with null.2 at 1. change 0 with null.1 at 1. rewrite (wr_fst a c null), (wr_snd a c null) by reflexivity.
  set (p1 := set_edges p _).
  destruct (slide_right_loop_spec j0 q pos l p1 (a ++ [null]) c b 0 (Z.to_nat (N (edges p)))) as (ns & E & Hns'); auto.
  - split; cbn [p1 edges set_edges set_arrays vals dests]; now rewrite <- app_assoc.
  - change (N (edges p1)) with (N (edges p)). rewrite HN. len.
  - now rewrite Nat.add_0_r.
  - intros t Ht. rewrite Nat.add_0_l, Hq by exact Ht. len.
  - rewrite HN. len.
  - exists ns. replace (Z.of_nat (length a) + 1) with (Z.of_nat (length (a ++ [null]))) by len. rewrite E. split; [|exact Hns'].
    f_equal. unfold with_cells, p1, set_arrays. cbn. now rewrite <- app_assoc.
Qed.

Lemma slide_left_spec j0 q pos l : forall p a c b m fuel, has_cells p (a ++ c :: l ++ null :: b) -> N (edges p) = Z.of_nat (length (a ++ c :: l ++ null :: b)) ->
  Forall full l -> elements_at (j0 + m) l -> (forall t, (t < length l)%nat -> q (m + t)%nat = Z.of_nat (length a + t)) ->
  moved_to (nodes p) j0 m q pos (N (edges p)) -> (length l < fuel)%nat ->
  exists ns, slide_left p fuel (Z.of_nat (length a)) = Some (with_cells p (a ++ l ++ null :: null :: b) ns) /\ moved_to ns j0 (m + length l) q pos (N (edges p)).
Proof.
  induction l as [|c' l IH]; intros p a c b m fuel [Hv Hd] HN HF HE Hq Hns Hf.
  - destruct fuel; [lia|]. cbn [slide_left]. rewrite (proj2 (Z.ltb_lt _ (N (edges p)))) by (rewrite HN; len). cbn [app] in *.
    assert (Ea : a ++ c :: null :: b = (a ++ [c]) ++ null :: b) by now rewrite <- app_assoc.
    rewrite Hv, Hd, Ea, (rd_fst (a ++ [c]) null b), (rd_snd (a ++ [c]) null b) by len. rewrite <- Ea, (wr_fst a c null), (wr_snd a c null) by reflexivity.
    exists (nodes p). cbn [length]. rewrite Nat.add_0_r. split; [|exact Hns]. reflexivity.
  - apply elements_at_cons in HE as [Ec HE]. inversion_clear HF as [|? ? Fc HF']. destruct fuel as [|fuel]; [lia|]. cbn [slide_left length] in *.
    rewrite (proj2 (Z.ltb_lt _ (N (edges p)))) by (rewrite HN; len). cbn [app] in *.
    assert (Ea : forall x, a ++ x :: c' :: l ++ null :: b = (a ++ [x]) ++ c' :: l ++ null :: b) by (intros; now rewrite <- app_assoc).
    rewrite Hv, Hd, Ea, (rd_fst (a ++ [c]) c'), (rd_snd (a ++ [c]) c') by len. rewrite <- Ea, (wr_fst a c c'), (wr_snd a c c') by reflexivity.
    set (p1 := set_edges p _). assert (E1 : edges p1 = set_arrays (edges p) (a ++ c' :: c' :: l ++ null :: b).*1 (a ++ c' :: c' :: l ++ null :: b).*2) by reflexivity.
    destruct (fix_moved_spec G p1 n pos deg e j0 m q c' HG (proj1 Hn) (proj1 (proj2 Hn)) (proj2 (proj2 Hn)) Ec Hns) as (ns & Ef & Hns' & _).
    pose proof (Hq 0%nat ltac:(lia)) as Hq0. rewrite !Nat.add_0_r in Hq0. unfold fix_moved in Ef. rewrite Hq0 in Ef. rewrite Ef. rewrite (proj2 (Z.eqb_neq _ _) Fc).
    destruct (IH (set_nodes p1 ns) (a ++ [c']) c' b (S m) fuel) as (ns' & E & Hns''); cbn [edges set_nodes]; rewrite ?E1; cbn [N set_arrays]; auto.
    + split; cbn [edges set_nodes]; rewrite E1; cbn [vals dests set_arrays]; now rewrite Ea.
    + rewrite HN. len.
    + now replace (j0 + S m)%nat with (S (j0 + m)) by lia.
    + intros t Ht. replace (S m + t)%nat with (m + S t)%nat by lia. rewrite Hq by lia. len.
    + lia.
    + exists ns'. replace (Z.of_nat (length a) + 1) with (Z.of_nat (length (a ++ [c']))) by len. rewrite E. split.
      * f_equal. unfold with_cells. cbn [edges set_nodes next_task_id upper_density_bound lower_density_bound]. rewrite E1. unfold set_arrays. cbn. now rewrite <- app_assoc.
      * now replace (m + S (length l))%nat with (S m + length l)%nat by lia.
Qed.
End Moves.

(** * Spreading out a window *)

Definition is_full (c : cell) : bool := negb (c.2 =? NULL_VAL).

(** ** The new leaves *)

(** [n] leaves of [cpl] elements, the first [extra] with one more. *)
Fixpoint spread (xs : list cell) (cpl extra n : nat) : list (list cell) :=
  match n with
  | O => []
  | S n => let c := (cpl + (if (0 <? extra)%nat then 1 else 0))%nat in take c xs :: spread (drop c xs) cpl (extra - 1) n
  end.

Definition spread_of (xs : list cell) (k : nat) : list (list cell) := spread xs (length xs / k) (length xs mod k) k.

Lemma concat_spread n : forall xs cpl extra, length xs = (cpl * n + extra)%nat -> (extra <= n)%nat -> concat (spread xs cpl extra n) = xs.
Proof.
  induction n as [|n IH]; intros xs cpl extra H He; cbn [spread concat].
  - destruct xs; [reflexivity|cbn in H; lia].
  - rewrite IH; [apply take_drop| |nat_cmps]. rewrite length_drop. nat_cmps.
Qed.

Lemma length_spread n : forall xs cpl extra, length (spread xs cpl extra n) = n.
Proof. induction n as [|n IH]; intros; cbn [spread length]; [reflexivity|now rewrite IH]. Qed.

Lemma spread_bound (w n : nat) : forall xs cpl extra, (cpl + (if (0 <? extra)%nat then 1 else 0) <= w)%nat -> Forall (fun l => (length l <= w)%nat) (spread xs cpl extra n).
Proof.
  induction n as [|n IH]; intros xs cpl extra H; cbn [spread]; constructor.
  - rewrite length_take. lia.
  - apply IH. revert H. nat_cmps.
Qed.

(** A leaf is empty only if there are no elements left. *)
Lemma spread_empty n : forall xs cpl extra i, length xs = (cpl * n + extra)%nat -> (extra <= n)%nat -> spread xs cpl extra n !! i = Some [] ->
  cpl = O /\ (extra <= i)%nat.
Proof.
  induction n as [|n IH]; intros xs cpl extra i H He Hi; [discriminate|]. cbn [spread] in Hi. destruct i as [|i].
  - injection Hi as Hi. apply (f_equal length) in Hi. rewrite length_take in Hi. cbn [length] in Hi. revert Hi. nat_cmps.
  - rewrite lookup_S in Hi. apply IH in Hi; [|rewrite length_drop|]; revert H; nat_cmps.
Qed.

Lemma div_mod_nat x k : (0 < k)%nat -> x = (x / k * k + x mod k)%nat /\ (x mod k < k)%nat.
Proof. intros H. pose proof (Nat.div_mod_eq x k). pose proof (Nat.mod_upper_bound x k). lia. Qed.

Section SpreadOf.
Context (xs : list cell) (k : nat).
Hypothesis Hk : (0 < k)%nat.

Lemma concat_spread_of : concat (spread_of xs k) = xs.
Proof. pose proof (div_mod_nat (length xs) k Hk). apply concat_spread; lia. Qed.

Lemma length_spread_of : length (spread_of xs k) = k.
Proof. apply length_spread. Qed.

(** With at most [w] elements for a leaf, no leaf has more. *)
Lemma spread_of_bound w : (length xs <= w * k)%nat -> Forall (fun l => (length l <= w)%nat) (spread_of xs k).
Proof. intros H. pose proof (div_mod_nat (length xs) k Hk). apply spread_bound. nat_cmps; nia. Qed.

Lemma spread_of_full i : spread_of xs k !! i = Some [] -> (length xs <= i)%nat.
Proof.
  intros H. pose proof (div_mod_nat (length xs) k Hk) as [E L]. apply spread_empty in H as [H1 H2]; [|lia|lia]. rewrite H1 in E. lia.
Qed.
End SpreadOf.

(** ** Gathering *)

Lemma gather_spec m : forall a b room, Z.of_nat (length m) <= room ->
  gather (a ++ m ++ b).*1 (a ++ m ++ b).*2 (length m) (Z.of_nat (length a)) room
  = Some (List.filter is_full m, (a ++ repeat null (length m) ++ b).*1, (a ++ repeat null (length m) ++ b).*2).
Proof.
  induction m as [|c m IH]; intros a b room Hr; [reflexivity|]. cbn [gather length app] in *. rewrite (rd_fst a c), (rd_snd a c) by reflexivity.
  assert (W1 : wr (a ++ c :: m ++ b).*1 (Z.of_nat (length a)) 0 = Some (a ++ null :: m ++ b).*1) by exact (wr_fst a c null (m ++ b) _ eq_refl).
  assert (W2 : wr (a ++ c :: m ++ b).*2 (Z.of_nat (length a)) NULL_VAL = Some (a ++ null :: m ++ b).*2) by exact (wr_snd a c null (m ++ b) _ eq_refl).
  rewrite W1, W2. clear W1 W2.
  assert (Ea : forall r, a ++ null :: r = (a ++ [null]) ++ r) by (intros; now rewrite <- app_assoc). rewrite (Ea (m ++ b)).
  replace (Z.of_nat (length a) + 1) with (Z.of_nat (length (a ++ [null]))) by len.
  rewrite (proj2 (Z.leb_gt room 0)) by lia. rewrite IH by (destruct (snd c =? NULL_VAL); lia). cbn [List.filter repeat app]. rewrite (Ea (repeat null (length m) ++ b)).
  destruct c as [v d]. change (is_full (v, d)) with (negb (d =? NULL_VAL)). cbn [fst snd]. destruct (d =? NULL_VAL); reflexivity.
Qed.

Lemma memmove_fmap (f : cell -> Z) a z R xs0 l xs1 c : length z = length l -> c = length l ->
  memmove (f <$> a ++ z ++ R) (Z.of_nat (length a)) (f <$> xs0 ++ l ++ xs1) (Z.of_nat (length xs0)) (Z.of_nat c) = Some (f <$> a ++ l ++ R).
Proof. intros Hz ->. rewrite !fmap_app. apply memmove_app; rewrite !length_fmap; auto. Qed.

Section Spreading.
Context (G : list (list cell)) (n : nat) (deg : nat -> Z) (e : Z).
Hypothesis HG : graph_ok G.
Hypothesis Hn : n = length G /\ (2 <= n)%nat /\ Z.of_nat n < 2 ^ 32.
Hypothesis Hdeg : forall k es, G !! k = Some es -> deg k = Z.of_nat (length es).

(** A bound below every sentinel that is still to come. *)
Definition late (j0 m M : nat) (q : nat -> Z) (es : Z) : Prop :=
  forall k, (0 < k < n)%nat -> (j0 + m <= head G k < j0 + M)%nat -> es <= q (head G k - j0)%nat.

Definition apart (M : nat) (q : nat -> Z) : Prop := (forall i j, (i < j < M)%nat -> q i + Z.of_nat (j - i) <= q j) /\ forall i, 0 <= q i.

Lemma late_S j0 m M q es : late j0 m M q es -> late j0 (S m) M q es.
Proof. intros H k Hk Hr. apply H; lia. Qed.

(** The sentinel that has moved gives such a bound. *)
Lemma late_sentinel j0 m M q k : apart M q -> (0 < k < n)%nat -> head G k = (j0 + m)%nat -> late j0 (S m) M q (q m + deg k)%u64.
Proof.
  intros [Hq Hq0] Hk Hh k' Hk' Hr. destruct Hn as (En & _ & _). assert (L : (k < k')%nat).
  { destruct (Nat.lt_trichotomy k k') as [L|[->|L]]; [exact L|lia|]. pose proof (head_lt G k' k). lia. }
  destruct (lookup_lt_is_Some_2 G k) as [es Ees]; [lia|]. pose proof (head_S _ _ _ Ees) as E1. pose proof (Hdeg _ _ Ees) as E2.
  assert (Le : (head G (S k) <= head G k')%nat) by (destruct (Nat.eq_dec (S k) k') as [->|]; [lia|pose proof (head_lt G (S k) k'); lia]).
  specialize (Hq m (head G k' - j0)%nat ltac:(lia)). pose proof (Hq0 m). unfold add64, u64, uwrap. rewrite E2.
  pose proof (Z.mod_le (q m + Z.of_nat (length es)) (2 ^ 64)). lia.
Qed.

(** Elements that are not sentinels need no fixing. *)
Lemma moved_to_skip ns j0 m c q pos N : moved_to G n deg e ns j0 m q pos N -> (forall k, (0 < k < n)%nat -> ~ (j0 + m <= head G k < j0 + (m + c))%nat) ->
  moved_to G n deg e ns j0 (m + c) q pos N.
Proof.
  intros H Hs. destruct Hn as (En & Hn2 & _). unfold moved_to in *. replace (last_end (head G) n j0 (m + c) (N - 1)%u64 e) with (last_end (head G) n j0 m (N - 1)%u64 e).
  - eapply nodes_are_ext; [exact H| |auto]. intros i Hi. unfold repos. destruct (Nat.ltb_spec 0 i); [|reflexivity]. specialize (Hs i ltac:(lia)). nat_cmps; reflexivity.
  - unfold last_end. specialize (Hs (n - 1)%nat ltac:(lia)). nat_cmps; reflexivity.
Qed.

Lemma fill_leaf_spec j0 q pos M l : apart M q -> forall p a r xs0 xs1 m es, vals (edges p) = (a ++ l ++ r).*1 ->
  dests (edges p) = (a ++ repeat null (length l) ++ r).*2 -> elements_at G (j0 + m) l -> (forall t, (t < length l)%nat -> q (m + t)%nat = Z.of_nat (length a + t)) ->
  moved_to G n deg e (nodes p) j0 m q pos (N (edges p)) -> late j0 m M q es ->
  exists ns es', fill_leaf p (xs0 ++ l ++ xs1).*2 (length l) (Z.of_nat (length a)) (Z.of_nat (length xs0)) es = Some (with_cells p (a ++ l ++ r) ns, es')
    /\ moved_to G n deg e ns j0 (m + length l) q pos (N (edges p)) /\ late j0 (m + length l) M q es'.
Proof.
  intros Hap. induction l as [|c l IH]; intros p a r xs0 xs1 m es Hv Hd HE Hq Hns Hl.
  - exists (nodes p), es. cbn [length]. rewrite Nat.add_0_r. split; [|auto]. cbn [fill_leaf repeat app length] in *. do 2 f_equal. unfold with_cells. rewrite <- Hv, <- Hd. now destruct p as [ [] ].
  - apply elements_at_cons in HE as [Ec HE]. cbn [fill_leaf length repeat app] in *. rewrite (rd_snd xs0 c) by reflexivity. rewrite Hd, (wr_snd a null c) by reflexivity.
    set (p1 := set_dests p _). pose proof (Hq 0%nat ltac:(lia)) as Hq0. rewrite !Nat.add_0_r in Hq0.
    destruct (fix_moved_spec G p1 n pos deg e j0 m q c HG (proj1 Hn) (proj1 (proj2 Hn)) (proj2 (proj2 Hn)) Ec Hns) as (ns & Ef & Hns' & Hsent).
    assert (Step : exists es1, (if c.2 =? SENT_VAL then let? node_index := rd (vals (edges p1)) (Z.of_nat (length a)) in fix_sentinel p1 node_index (Z.of_nat (length a))
        else Some (es, p1)) = Some (es1, set_nodes p1 ns) /\ late j0 (S m) M q es1).
    { unfold fix_moved in Ef. destruct (Z.eqb_spec c.2 SENT_VAL) as [E|E].
      - destruct (Hsent E) as (k & K1 & K2 & K3). change (vals (edges p1)) with (vals (edges p)). rewrite Hv, (rd_fst a c), <- Hq0, K3 by reflexivity.
        eexists. split; [reflexivity|]. now apply late_sentinel.
      - assert (Ep : set_nodes p1 ns = p1) by congruence. rewrite Ep. exists es. split; [reflexivity|]. now apply late_S. }
    destruct Step as (es1 & -> & Hl1).
    assert (Ea : forall s, a ++ c :: s = (a ++ [c]) ++ s) by (intros; now rewrite <- app_assoc).
    assert (Ex : xs0 ++ c :: l ++ xs1 = (xs0 ++ [c]) ++ l ++ xs1) by now rewrite <- app_assoc.
    destruct (IH (set_nodes p1 ns) (a ++ [c]) r (xs0 ++ [c]) xs1 (S m) es1) as (ns' & es' & E & Hns'' & Hl'); auto.
    + change (vals (edges p) = ((a ++ [c]) ++ l ++ r).*1). now rewrite <- Ea.
    + change ((a ++ c :: repeat null (length l) ++ r).*2 = ((a ++ [c]) ++ repeat null (length l) ++ r).*2). now rewrite <- Ea.
    + now replace (j0 + S m)%nat with (S (j0 + m)) by lia.
    + intros t Ht. replace (S m + t)%nat with (m + S t)%nat by lia. rewrite Hq by lia. len.
    + exists ns', es'. rewrite Ex. replace (Z.of_nat (length a) + 1) with (Z.of_nat (length (a ++ [c]))) by len.
      replace (Z.of_nat (length xs0) + 1) with (Z.of_nat (length (xs0 ++ [c]))) by len. rewrite E. replace (m + S (length l))%nat with (S m + length l)%nat by lia.
      split; [|auto]. rewrite (Ea (l ++ r)). reflexivity.
Qed.

(** The leaves one by one.  [w] cells each, [q] says where the elements go. *)
Lemma fill_leaves_spec (w : nat) j0 q pos M cpl : apart M q -> forall k p a b xs0 xs m es ex i index extra,
  has_cells p (a ++ repeat null (w * k) ++ b) -> logN (edges p) = Z.of_nat w ->
  Z.of_nat (length a) = index + Z.of_nat w * i -> 0 <= index -> 0 <= i -> Z.of_nat (length xs0) = Z.of_nat cpl * i + Z.min i extra -> Z.of_nat ex = Z.max 0 (extra - i) ->
  length xs = (cpl * k + ex)%nat -> (ex <= k)%nat -> (cpl + (if (0 <? ex)%nat then 1 else 0) <= w)%nat ->
  Forall full xs -> elements_at G (j0 + m) xs -> (m + length xs <= M)%nat ->
  (forall t, (t < length xs)%nat -> q (m + t)%nat = Z.of_nat (length a + place w (spread xs cpl ex k) t)) ->
  moved_to G n deg e (nodes p) j0 m q pos (N (edges p)) -> late j0 m M q es ->
  exists ns, fill_leaves p (xs0 ++ xs).*1 (xs0 ++ xs).*2 index (Z.of_nat cpl) extra k i es = Some (with_cells p (a ++ cells w (spread xs cpl ex k) ++ b) ns)
    /\ moved_to G n deg e ns j0 (m + length xs) q pos (N (edges p)).
Proof.
  intros Hap. induction k as [|k IH]; intros p a b xs0 xs m es ex i index extra Hc HN Ha Hi0 Hi Hx0 Hex Hx Hek Hw HF HE HM Hq Hns Hl.
  - assert (xs = []) as -> by (destruct xs; [reflexivity|cbn in Hx; lia]). exists (nodes p). cbn [length fill_leaves spread cells map concat]. rewrite Nat.add_0_r. split; [|exact Hns].
    rewrite Nat.mul_0_r in Hc. destruct Hc as [Hv Hd]. f_equal. unfold with_cells. cbn [repeat app] in *. cbn. rewrite <- Hv, <- Hd. now destruct p as [ [] ].
  - cbn [fill_leaves spread]. cbn [spread] in Hq. set (c := (cpl + (if (0 <? ex)%nat then 1 else 0))%nat) in *.
    assert (Ec : Z.of_nat cpl + (if i <? extra then 1 else 0) = Z.of_nat c) by (unfold c; destruct (Z.ltb_spec i extra); nat_cmps). rewrite Ec.
    rewrite HN, <- Ha. set (l := take c xs) in *. set (xs' := drop c xs) in *.
    assert (Exs : xs = l ++ xs') by (symmetry; apply take_drop). assert (Ll : length l = c) by (unfold l, c; rewrite length_take; revert Hw; nat_cmps; nia).
    assert (Lx : length xs = (c + length xs')%nat) by (rewrite Exs, length_app; lia).
    set (R := repeat null (w - c) ++ repeat null (w * k) ++ b).
    assert (Eb : a ++ repeat null (w * S k) ++ b = a ++ repeat null (length l) ++ R).
    { unfold R. rewrite Ll. f_equal. rewrite !app_assoc, <- !repeat_app. do 2 f_equal. lia. }
    rewrite Eb in Hc. destruct Hc as [Hv Hd].
    assert (Ex0 : Z.of_nat cpl * i + Z.min i extra = Z.of_nat (length xs0)) by lia. rewrite Ex0.
    assert (Step : exists ns es', (let? vs := memmove (vals (edges p)) (Z.of_nat (length a)) (xs0 ++ xs).*1 (Z.of_nat (length xs0)) (Z.of_nat c) in
        let p := set_vals p vs in
        if Z.of_nat (length a) + Z.of_nat c <? es then
          let? ds := memmove (dests (edges p)) (Z.of_nat (length a)) (xs0 ++ xs).*2 (Z.of_nat (length xs0)) (Z.of_nat c) in Some (set_dests p ds, es)
        else fill_leaf p (xs0 ++ xs).*2 (Z.to_nat (Z.of_nat c)) (Z.of_nat (length a)) (Z.of_nat (length xs0)) es) = Some (with_cells p (a ++ l ++ R) ns, es')
      /\ moved_to G n deg e ns j0 (m + c) q pos (N (edges p)) /\ late j0 (m + c) M q es').
    { rewrite Hv, Exs, (memmove_fmap fst) by len. cbn zeta. rewrite <- Ll in *.
      assert (Hql : forall t, (t < length l)%nat -> q (m + t)%nat = Z.of_nat (length a + t)).
      { intros t Ht. rewrite Hq by lia. cbn [place]. destruct (Nat.ltb_spec t (length l)); [reflexivity|lia]. }
      destruct (Z.ltb_spec (Z.of_nat (length a) + Z.of_nat (length l)) es) as [L|L].
      - change (dests (edges (set_vals p _))) with (dests (edges p)). rewrite Hd, (memmove_fmap snd) by len. exists (nodes p), es. split; [reflexivity|]. split; [|intros k' H1 H2; apply Hl; lia].
        apply moved_to_skip; [exact Hns|]. intros k' Hk' Hr. specialize (Hl k' Hk' ltac:(lia)). specialize (Hql (head G k' - j0 - m)%nat ltac:(lia)).
        replace (m + (head G k' - j0 - m))%nat with (head G k' - j0)%nat in Hql by lia. lia.
      - rewrite Nat2Z.id. destruct (fill_leaf_spec j0 q pos M l Hap (set_vals p (a ++ l ++ R).*1) a R xs0 xs' m es) as (ns & es' & E & H1 & H2); auto.
        { intros t ct Ht. apply HE. rewrite Exs, lookup_app_l; [exact Ht|]. now apply lookup_lt_Some in Ht. }
        exists ns, es'. rewrite E. split; [reflexivity|]. split; auto. }
    destruct Step as (ns & es' & E & Hns' & Hl').
    destruct (memmove (vals (edges p)) _ _ _ _) as [vs|]; [|discriminate E]. cbn zeta in E |- *. rewrite E. clear E.
    assert (Hpad : pad w l = l ++ repeat null (w - c)) by (unfold pad; now rewrite Ll).
    destruct (IH (with_cells p (a ++ l ++ R) ns) (a ++ pad w l) b (xs0 ++ l) xs' (m + c)%nat es' (ex - 1)%nat (i + 1) index extra) as (ns' & E' & Hns''); auto.
    + split; cbn [with_cells edges set_arrays vals dests]; unfold R; now rewrite Hpad, <- !app_assoc.
    + rewrite length_app, length_pad by lia. lia.
    + lia.
    + rewrite length_app, Ll. unfold c. destruct (Nat.ltb_spec 0 ex); lia.
    + lia.
    + unfold c in Lx. destruct (Nat.ltb_spec 0 ex); nia.
    + lia.
    + revert Hw. unfold c. nat_cmps.
    + rewrite Exs in HF. now apply Forall_app in HF as [_ HF].
    + intros t ct Ht. replace (j0 + (m + c) + t)%nat with (j0 + m + (c + t))%nat by lia. apply HE.
      rewrite Exs, lookup_app_r by lia. rewrite <- Ht. f_equal. lia.
    + lia.
    + intros t Ht. rewrite <- Nat.add_assoc, Hq by lia. cbn [place]. rewrite Ll. destruct (Nat.ltb_spec (c + t) c); [lia|].
      replace (c + t - c)%nat with t by lia. rewrite length_app, length_pad by lia. lia.
    + exists ns'. rewrite <- app_assoc, <- Exs in E'. rewrite E', Lx, Nat.add_assoc. split; [|exact Hns''].
      rewrite cells_cons, <- !app_assoc. reflexivity.
Qed.

Lemma moved_to_0 ns j0 q pos N : nodes_are ns n pos deg e -> moved_to G n deg e ns j0 0 q pos N.
Proof.
  intros H. unfold moved_to. replace (last_end (head G) n j0 0 (N - 1)%u64 e) with e by (unfold last_end; nat_cmps; reflexivity).
  eapply nodes_are_ext; [exact H| |auto]. intros i Hi. unfold repos. nat_cmps; destruct (0 <? i)%nat; reflexivity.
Qed.

(** A window of [k] leaves of [w] cells. *)
Lemma redistribute_spec (w : nat) lg j0 pos p a m b k : has_cells p (a ++ m ++ b) -> 0 <= lg -> Z.of_nat w = 2 ^ lg -> logN (edges p) = Z.of_nat w -> loglogN (edges p) = lg ->
  length m = (w * k)%nat -> (2 <= k)%nat -> (8 | Z.of_nat (w * k)) -> elements_at G j0 (List.filter is_full m) -> nodes_are (nodes p) n pos deg e ->
  let xs := List.filter is_full m in
  exists ns, redistribute p (Z.of_nat (length a)) (Z.of_nat (w * k)) = Some (with_cells p (a ++ cells w (spread_of xs k) ++ b) ns)
    /\ moved_to G n deg e ns j0 (length xs) (fun t => Z.of_nat (length a + place w (spread_of xs k) t)) pos (N (edges p)).
Proof.
  intros [Hv Hd] Hlg Hw EN El Lm Hk H8 HE Hns xs. unfold redistribute. assert (Wp : (0 < w)%nat) by (pose proof (Z.pow_pos_nonneg 2 lg); lia).
  rewrite EN, (proj2 (Z.eqb_neq _ _)) by nia. assert (Es : in_steps 8 (Z.of_nat (w * k)) = length m).
  { unfold in_steps. destruct H8 as [z Hz]. rewrite Hz. replace (z * 8 + 8 - 1) with (7 + z * 8) by lia. rewrite Z.div_add by lia. change (7 / 8) with 0. lia. }
  rewrite Es, Hv, Hd, gather_spec by lia. cbn zeta. rewrite El, Z.shiftr_div_pow2, <- Hw by lia. rewrite Nat2Z.inj_mul, (Z.mul_comm (Z.of_nat w)), Z.div_mul by lia.
  rewrite (proj2 (Z.eqb_neq _ _)) by lia. fold xs. rewrite <- Nat2Z.inj_div, <- Nat2Z.inj_mod, Nat2Z.id.
  assert (Hxs : (length xs <= w * k)%nat) by (unfold xs; rewrite <- Lm; apply filter_length_le).
  pose proof (div_mod_nat (length xs) k ltac:(lia)) as [Dx Mx].
  assert (Hweak : weak w (spread_of xs k)) by (apply spread_of_bound; lia).
  set (q := fun t => Z.of_nat (length a + place w (spread_of xs k) t)).
  assert (Hap : apart (length xs) q).
  { split; [|intros i; apply Zle_0_nat]. intros i j H. unfold q. pose proof (place_mono w (spread_of xs k) i j Hweak). rewrite concat_spread_of in * by lia. lia. }
  destruct (fill_leaves_spec w j0 q pos (length xs) (length xs / k) Hap k (set_edges p (set_arrays (edges p) (a ++ repeat null (length m) ++ b).*1 (a ++ repeat null (length m) ++ b).*2))
    a b [] xs 0 0 (length xs mod k) 0 (Z.of_nat (length a)) (Z.of_nat (length xs mod k))) as (ns & E & Hns').
  - split; cbn; now rewrite Lm.
  - exact EN.
  - lia.
  - lia.
  - lia.
  - cbn [length]. lia.
  - lia.
  - lia.
  - lia.
  - nat_cmps; nia.
  - apply List.Forall_forall. intros c [_ Hc]%filter_In. unfold is_full in Hc. unfold full. destruct (Z.eqb_spec c.2 NULL_VAL); [discriminate|assumption].
  - now rewrite Nat.add_0_r.
  - lia.
  - intros t Ht. unfold q. now rewrite Nat.add_0_l.
  - now apply moved_to_0.
  - intros i Hi Hr. unfold q. lia.
  - exists ns. cbn [app] in E. rewrite E. split; [reflexivity|exact Hns'].
Qed.
End Spreading.

(** ** An array that holds a graph *)

Definition deg_of (G : list (list cell)) (k : nat) : Z := Z.of_nat (length (default [] (G !! k))).

(** The vertices lie where their sentinels are. *)
Definition pos_of (w : nat) (L : list (list cell)) (G : list (list cell)) (k : nat) : Z := Z.of_nat (place w L (head G k)).

(** The end of the last vertex is the cell after its sentinel, or the last cell. *)
Definition end_ok (N pos e : Z) : Prop := e = pos + 1 \/ e = N - 1.

Definition graph_fits (G : list (list cell)) : Prop := graph_ok G /\ (2 <= length G)%nat /\ Z.of_nat (length G) < 2 ^ 32.

Record lays (p : PMA) (G : list (list cell)) (w : nat) (L : list (list cell)) : Prop := {
  ly_cells : has_cells p (cells w L);
  ly_weak : weak w L;
  ly_entries : concat L = entries 0 G;
  ly_N : N (edges p) = Z.of_nat (w * length L);
  ly_first : L !! 0%nat <> Some [];
  ly_nodes : exists e, nodes_are (nodes p) (length G) (pos_of w L G) (deg_of G) e /\ end_ok (N (edges p)) (pos_of w L G (length G - 1)) e;
}.

(** What only the arrays and nodes of a state change. *)
Definition same_shape (p p' : PMA) : Prop := exists cs ns, p' = with_cells p cs ns.

Section Holding.
Context (G : list (list cell)).
Hypothesis HG : graph_fits G.
#[local] Abbreviation n := (length G).

Lemma deg_of_spec k es : G !! k = Some es -> deg_of G k = Z.of_nat (length es).
Proof. intros H. unfold deg_of. now rewrite H. Qed.

Lemma entries_nonempty : entries 0 G <> [].
Proof. destruct HG as (_ & H & _). destruct G; [cbn in H; lia|]. discriminate. Qed.

Lemma place_0 w L : L !! 0%nat <> Some [] -> concat L <> [] -> place w L 0 = O.
Proof. destruct L as [|[|c l] L]; intros H1 H2; [contradiction|now destruct H1|reflexivity]. Qed.

Lemma sub1_64 x : 1 <= x < 2 ^ 64 -> (x - 1)%u64 = x - 1.
Proof. intros H. unfold sub64, u64, uwrap. rewrite Z.mod_small; lia. Qed.

Lemma head_0 : head G 0 = O.
Proof. reflexivity. Qed.

(** From the moves to the new places. *)
Lemma moved_nodes ns e j0 m q pos pos' N : 1 <= N < 2 ^ 64 -> moved_to G n (deg_of G) e ns j0 m q pos N -> end_ok N (pos (n - 1)%nat) e ->
  (forall k, (k < n)%nat -> pos' k = repos (head G) j0 m q pos k) ->
  exists e', nodes_are ns n pos' (deg_of G) e' /\ end_ok N (pos' (n - 1)%nat) e'.
Proof.
  intros HN Hm He Hp. destruct HG as (_ & H2 & _). exists (last_end (head G) n j0 m (N - 1)%u64 e). split; [now apply (nodes_are_ext _ _ _ pos' _ (deg_of G) _ Hm)|].
  rewrite Hp by lia. unfold last_end, repos. rewrite sub1_64 by exact HN. destruct (Nat.ltb_spec 0 (n - 1)); [|lia].
  nat_cmps; cbn [andb]; auto; now right.
Qed.

Lemma spread_first xs k : (0 < k)%nat -> xs <> [] -> spread_of xs k !! 0%nat <> Some [].
Proof. intros Hk Hx H. apply spread_of_full in H; [|exact Hk]. destruct xs; [now apply Hx|cbn in H; lia]. Qed.

Lemma redistribute_lays p w lg A M B : lays p G w (A ++ M ++ B) -> 0 <= lg -> Z.of_nat w = 2 ^ lg -> logN (edges p) = Z.of_nat w -> loglogN (edges p) = lg ->
  (2 <= length M)%nat -> (8 | Z.of_nat (w * length M)) -> (A = [] -> concat M <> []) -> N (edges p) < 2 ^ 64 ->
  exists p', redistribute p (Z.of_nat (w * length A)) (Z.of_nat (w * length M)) = Some p' /\ same_shape p p' /\ lays p' G w (A ++ spread_of (concat M) (length M) ++ B).
Proof.
  intros [Hc Hw He HN Hf (e & Hns & Hend)] Hlg Ew E1 E2 Hk H8 Hne Hsz. pose proof HG as (Hok & Hn2 & Hn32).
  pose proof Hw as [HwA [HwM HwB]%Forall_app]%Forall_app.
  assert (Hfull : Forall full (concat M)).
  { pose proof (entries_full 0 G Hok) as F. rewrite <- He, !concat_app in F. apply Forall_app in F as [_ F]. now apply Forall_app in F as [F _]. }
  assert (Hxs : List.filter is_full (cells w M) = concat M) by (apply elements_cells; assumption).
  rewrite !cells_app in Hc. pose proof (Z.pow_pos_nonneg 2 lg).
  assert (HE : elements_at G (length (concat A)) (List.filter is_full (cells w M))).
  { rewrite Hxs. intros t c Ht. rewrite <- He, !concat_app, lookup_app_r by lia. replace (_ + t - _)%nat with t by lia. rewrite lookup_app_l; [exact Ht|]. now apply lookup_lt_Some in Ht. }
  destruct (redistribute_spec G n (deg_of G) e Hok (conj eq_refl (conj Hn2 Hn32)) deg_of_spec w lg (length (concat A)) (pos_of w (A ++ M ++ B) G) p (cells w A) (cells w M) (cells w B) (length M))
    as (ns & E & Hm); auto; [now apply length_arrays|]. cbn zeta in E, Hm. rewrite Hxs, !length_arrays in * by assumption.
  eexists. split; [exact E|]. split; [now eexists _, ns|]. set (S := spread_of (concat M) (length M)) in *.
  assert (LS : length S = length M) by apply length_spread_of. assert (CS : concat S = concat M) by (apply concat_spread_of; lia).
  assert (Hc' : concat (A ++ S ++ B) = concat (A ++ M ++ B)) by (rewrite !concat_app; congruence).
  assert (HwS : weak w S).
  { apply spread_of_bound; [lia|]. rewrite <- Hxs. etransitivity; [apply filter_length_le|]. now rewrite length_arrays. }
  assert (Hf' : (A ++ S ++ B) !! 0%nat <> Some []).
  { destruct A as [|l A]; [|exact Hf]. cbn [app] in *. rewrite lookup_app_l by lia. apply spread_first; [lia|auto]. }
  split; auto.
  - split; cbn; rewrite !cells_app; reflexivity.
  - unfold weak. rewrite !Forall_app. auto.
  - congruence.
  - cbn [with_cells edges set_arrays N]. rewrite HN. rewrite !length_app, LS. reflexivity.
  - assert (HN1 : 1 <= N (edges p) < 2 ^ 64).
    { split; [|exact Hsz]. rewrite HN, !length_app. assert (0 < w)%nat by lia. nia. }
    apply (moved_nodes ns e _ _ _ _ _ _ HN1 Hm Hend). intros k Hkn.
    pose proof (head_lt_size G k Hkn) as Lh. rewrite <- He, !concat_app, !length_app in Lh.
    unfold pos_of, repos. destruct (Nat.ltb_spec 0 k) as [Lk|Lk].
    + destruct (Nat.leb_spec (length (concat A)) (head G k)) as [L1|L1]; cbn [andb]; [|now rewrite !place_app_l by lia].
      set (h := (head G k - length (concat A))%nat). assert (Eh : head G k = (length (concat A) + h)%nat) by lia. clearbody h. rewrite Eh in *. rewrite !place_app_r.
      destruct (Nat.ltb_spec (length (concat A) + h) (length (concat A) + length (concat M))) as [L2|L2].
      * rewrite place_app_l by (rewrite CS; lia). reflexivity.
      * replace h with (length (concat M) + (h - length (concat M)))%nat by lia. rewrite <- CS at 1. rewrite !place_app_r, LS. reflexivity.
    + replace k with O by lia. cbn [Nat.ltb Nat.leb andb]. rewrite head_0, !place_0 by (auto; rewrite ?Hc', He; apply entries_nonempty). reflexivity.
Qed.

(** The whole array, the cells having been copied. *)
Lemma redistribute_all p w lg k m pos e : has_cells p m -> 0 <= lg -> Z.of_nat w = 2 ^ lg -> logN (edges p) = Z.of_nat w -> loglogN (edges p) = lg ->
  length m = (w * k)%nat -> (2 <= k)%nat -> (8 | Z.of_nat (w * k)) -> N (edges p) = Z.of_nat (w * k) -> List.filter is_full m = entries 0 G ->
  nodes_are (nodes p) n pos (deg_of G) e -> pos 0%nat = 0 -> N (edges p) < 2 ^ 64 ->
  exists p', redistribute p 0 (Z.of_nat (w * k)) = Some p' /\ same_shape p p' /\ lays p' G w (spread_of (entries 0 G) k).
Proof.
  intros Hc Hlg Ew E1 E2 Lm Hk H8 HN HF Hns Hp0 Hsz. pose proof HG as (Hok & Hn2 & Hn32).
  assert (HE : elements_at G 0 (List.filter is_full m)) by (rewrite HF; intros t c Ht; exact Ht).
  destruct (redistribute_spec G n (deg_of G) e Hok (conj eq_refl (conj Hn2 Hn32)) deg_of_spec w lg 0 pos p [] m [] k) as (ns & E & Hm); auto; [now rewrite app_nil_r|].
  cbn zeta in E, Hm. rewrite HF in *. eexists. split; [exact E|]. split; [now eexists _, ns|]. set (S := spread_of (entries 0 G) k) in *.
  assert (LS : length S = k) by apply length_spread_of. assert (CS : concat S = entries 0 G) by (apply concat_spread_of; lia).
  pose proof (Z.pow_pos_nonneg 2 lg).
  split; auto.
  - split; cbn; now rewrite app_nil_r.
  - apply spread_of_bound; [lia|]. rewrite <- HF, <- Lm. apply filter_length_le.
  - cbn [with_cells edges set_arrays N]. congruence.
  - apply spread_first; [lia|]. apply entries_nonempty.
  - cbn [with_cells edges set_arrays nodes N]. assert (HN1 : 1 <= N (edges p) < 2 ^ 64) by nia. exists (N (edges p) - 1). split; [|now right].
    assert (Hl : last_end (head G) n 0 (length (entries 0 G)) (N (edges p) - 1)%u64 e = N (edges p) - 1).
    { unfold last_end. pose proof (head_lt_size G (n - 1) ltac:(lia)). rewrite sub1_64 by exact HN1. nat_cmps; reflexivity. }
    unfold moved_to in Hm. rewrite Hl in Hm. apply (nodes_are_ext _ _ _ _ _ _ _ Hm); [|auto]. intros i Hi. pose proof (head_lt_size G i Hi).
    unfold repos, pos_of. rewrite Nat.sub_0_r, Nat.add_0_l. destruct (Nat.ltb_spec 0 i) as [Li|Li]; [nat_cmps; reflexivity|].
    replace i with O by lia. cbn [andb]. rewrite head_0, place_0, Hp0; [reflexivity| |rewrite CS]; [apply spread_first; [lia|]|]; apply entries_nonempty.
Qed.
End Holding.
