(* ===== verification/PmaDensity.v ===== *)
(** * Sizes and densities

    An array of [2 ^ m] cells has leaves of [2 ^ lg] cells, [lg] the logarithm of [m] or
    of [m + 1], and a table of bounds on the density for each level of windows; doubling and
    halving the array compute them again.
    The density of a window is the exact quotient of its elements by its cells, since the
    cells are a power of two.  The bounds of every size of array are checked one by one. *)

From stdpp Require Import base option list.
From S2P Require Import Prelude Doubles Arrays Pma PmaSearch PmaSpread.
From Stdlib Require Import SpecFloat.
#[local] Open Scope Z_scope.

(** * The size of a packed memory array *)

Definition limit_of (lg : Z) : spec_float := f64_div (f64_sub (f64 (2 ^ lg)) (f64 1)) (f64 (2 ^ lg)).
Definition bounds_of (m lg depth : Z) : pair_double := density_bound (mk_edge_list 0 (m - lg) 0 0 0 [] [] (limit_of lg)) depth.

Record sized (e : edge_list_t) (ups lows : list spec_float) (m lg : Z) : Prop := {
  sz_m : 4 <= m <= 32;
  sz_lg : lg = Z.log2 m \/ lg = Z.log2 (m + 1);
  sz_N : e.(N) = 2 ^ m;
  sz_H : e.(H) = m - lg;
  sz_logN : e.(logN) = 2 ^ lg;
  sz_loglogN : e.(loglogN) = lg;
  sz_mask : e.(mask_for_leaf) = u32 (Z.lnot (2 ^ lg - 1));
  sz_bounds : length ups = 32%nat /\ length lows = 32%nat;
  sz_upper : forall i, 0 <= i <= m - lg -> rd ups i = Some (bounds_of m lg i).(y);
  sz_lower : forall i, 0 <= i <= m - lg -> rd lows i = Some (bounds_of m lg i).(x);
}.

Definition sized_PMA (p : PMA) (m lg : Z) : Prop := sized (edges p) (upper_density_bound p) (lower_density_bound p) m lg.

Lemma log_range m lg : 4 <= m <= 32 -> lg = Z.log2 m \/ lg = Z.log2 (m + 1) -> (2 <= lg <= 5 /\ 2 <= m - lg <= 27) /\ (3 <= lg \/ lg = 2 /\ m - lg <= 5).
Proof.
  intros Hm Hl. assert (H : In m (map Z.of_nat (List.seq 4 29))) by (apply in_map_iff; exists (Z.to_nat m); rewrite in_seq; lia).
  cbn in H. repeat (destruct H as [<-|H]; [vm_compute in Hl; lia|]). destruct H.
Qed.

Lemma rd_Some {X} (a : list X) i : 0 <= i < Z.of_nat (length a) -> exists v, rd a i = Some v.
Proof. intros H. unfold rd. rewrite (proj2 (Z.leb_le _ _)) by lia. apply lookup_lt_is_Some_2. lia. Qed.

Lemma wr_spec {X} (a : list X) i v : 0 <= i < Z.of_nat (length a) -> exists a', wr a i v = Some a' /\ length a' = length a /\ rd a' i = Some v /\ forall j, 0 <= j -> j <> i -> rd a' j = rd a j.
Proof.
  intros H. unfold wr. rewrite (proj2 (Z.leb_le _ _)), (proj2 (Z.ltb_lt _ _)) by lia. cbn [andb]. eexists. split; [reflexivity|]. split; [apply length_insert|].
  unfold rd. split; [rewrite (proj2 (Z.leb_le _ _)), list_lookup_insert_eq by lia; reflexivity|]. intros j Hj Nj. rewrite (proj2 (Z.leb_le _ _)), list_lookup_insert_ne by lia. reflexivity.
Qed.

Lemma fill_bounds_spec e n : forall ups lows i, length ups = 32%nat -> length lows = 32%nat -> 0 <= i -> i + Z.of_nat n <= 32 ->
  exists ups' lows', fill_bounds e ups lows n i = Some (ups', lows') /\ length ups' = 32%nat /\ length lows' = 32%nat
    /\ (forall j, 0 <= j < i -> rd ups' j = rd ups j /\ rd lows' j = rd lows j)
    /\ forall j, i <= j < i + Z.of_nat n -> rd ups' j = Some (density_bound e j).(y) /\ rd lows' j = Some (density_bound e j).(x).
Proof.
  induction n as [|n IH]; intros ups lows i Lu Ll Hi Hn; cbn [fill_bounds].
  - exists ups, lows. repeat split; auto; lia.
  - destruct (wr_spec ups i (density_bound e i).(y) ltac:(lia)) as (u1 & -> & L1 & R1 & O1). destruct (wr_spec lows i (density_bound e i).(x) ltac:(lia)) as (l1 & -> & L2 & R2 & O2).
    destruct (IH u1 l1 (i + 1) ltac:(lia) ltac:(lia) ltac:(lia) ltac:(lia)) as (u2 & l2 & -> & L3 & L4 & Old & New). exists u2, l2. repeat split; auto.
    + rewrite (proj1 (Old j ltac:(lia))). apply O1; lia.
    + rewrite (proj2 (Old j ltac:(lia))). apply O2; lia.
    + destruct (Z.eq_dec j i) as [->|]; [rewrite (proj1 (Old i ltac:(lia))); exact R1|apply New; lia].
    + destruct (Z.eq_dec j i) as [->|]; [rewrite (proj2 (Old i ltac:(lia))); exact R2|apply New; lia].
Qed.

(** The leaves and bounds computed for [2 ^ m] cells. *)
Lemma set_size_spec p m lg vs ds : 4 <= m <= 32 -> lg = Z.log2 m \/ lg = Z.log2 (m + 1) -> length (upper_density_bound p) = 32%nat -> length (lower_density_bound p) = 32%nat ->
  exists ups lows, set_bounds (set_edges p (set_leaf_size (edges p) (2 ^ m) lg)) = Some (mk_PMA (set_leaf_size (edges p) (2 ^ m) lg) (nodes p) (next_task_id p) ups lows)
    /\ sized (set_N (set_arrays (set_leaf_size (edges p) (2 ^ m) lg) vs ds) (2 ^ m)) ups lows m lg.
Proof.
  intros Hm Hl Lu Ll. pose proof (log_range m lg Hm Hl) as [[R1 R2] _].
  assert (EH : bsr_word (2 ^ m / Z.shiftl 1 lg) = m - lg).
  { unfold bsr_word. rewrite Z.shiftl_1_l, <- Z.pow_sub_r by lia. apply Z.log2_pow2. lia. }
  assert (Eb : forall i, density_bound (set_leaf_size (edges p) (2 ^ m) lg) i = bounds_of m lg i).
  { intros i. unfold bounds_of, density_bound, set_leaf_size, limit_of. cbn [H density_limit]. rewrite EH, Z.shiftl_1_l. reflexivity. }
  unfold set_bounds. cbn [edges set_edges upper_density_bound lower_density_bound].
  destruct (fill_bounds_spec (set_leaf_size (edges p) (2 ^ m) lg) (Z.to_nat (H (set_leaf_size (edges p) (2 ^ m) lg) + 1)) (upper_density_bound p) (lower_density_bound p) 0 Lu Ll) as (ups & lows & -> & L1 & L2 & _ & New).
  { lia. }
  { cbn [set_leaf_size H]. rewrite EH. lia. }
  exists ups, lows. split; [reflexivity|]. cbn [set_leaf_size H] in New. rewrite EH in New.
  split; cbn [set_leaf_size set_N set_arrays N H logN loglogN mask_for_leaf density_limit]; auto.
  - apply Z.shiftl_1_l.
  - now rewrite Z.shiftl_1_l.
  - intros i Hi. rewrite (proj1 (New i ltac:(lia))), Eb. reflexivity.
  - intros i Hi. rewrite (proj2 (New i ltac:(lia))), Eb. reflexivity.
Qed.

(** ** Doubling and halving *)

Definition leaf (lg : Z) : nat := Z.to_nat (2 ^ lg).
Definition leaves (m lg : Z) : nat := Z.to_nat (2 ^ (m - lg)).

Lemma leaf_pow lg : 0 <= lg -> Z.of_nat (leaf lg) = 2 ^ lg.
Proof. intros H. unfold leaf. pose proof (Z.pow_pos_nonneg 2 lg). lia. Qed.

Lemma leaves_pow m lg : 0 <= lg <= m -> Z.of_nat (leaves m lg) = 2 ^ (m - lg).
Proof. intros H. unfold leaves. pose proof (Z.pow_pos_nonneg 2 (m - lg)). lia. Qed.

Lemma cells_pow m lg : 0 <= lg <= m -> Z.of_nat (leaf lg * leaves m lg) = 2 ^ m.
Proof. intros H. rewrite Nat2Z.inj_mul, leaf_pow, leaves_pow, <- Z.pow_add_r by lia. f_equal. lia. Qed.

Lemma pow_8 m : 3 <= m -> (8 | 2 ^ m).
Proof. intros H. exists (2 ^ (m - 3)). change 8 with (2 ^ 3). rewrite <- Z.pow_add_r by lia. f_equal. lia. Qed.

Lemma pow_lt_64 m : 0 <= m < 64 -> 0 < 2 ^ m < 2 ^ 64.
Proof. intros H. split; [apply Z.pow_pos_nonneg|apply Z.pow_lt_mono_r]; lia. Qed.

Lemma read_all_spec {X} (a : list X) c : c = Z.of_nat (length a) -> read_all a c = Some a.
Proof. intros ->. unfold read_all. rewrite Z.leb_refl, Nat2Z.id, firstn_all. reflexivity. Qed.

Lemma filter_nulls c : List.filter is_full (repeat null c) = [].
Proof. induction c as [|c IH]; [reflexivity|exact IH]. Qed.

Lemma zip_fst_snd (cs : list cell) : zip cs.*1 cs.*2 = cs.
Proof. induction cs as [|[a b] cs IH]; [reflexivity|]. cbn. f_equal. exact IH. Qed.

Lemma elements_filter (cs : list cell) : elements cs.*1 cs.*2 = List.filter is_full cs.
Proof. unfold elements. now rewrite zip_fst_snd. Qed.

Lemma filter_is_full_self (cs : list cell) : Forall full cs -> List.filter is_full cs = cs.
Proof. induction 1 as [|c cs Hc _ IH]; [reflexivity|]. cbn [List.filter]. unfold is_full at 1. rewrite (proj2 (Z.eqb_neq _ _) Hc), IH. reflexivity. Qed.

Lemma fmap_nulls_fst c : (repeat null c).*1 = repeat 0 c.
Proof. induction c as [|c IH]; [reflexivity|]. cbn. now f_equal. Qed.

Lemma fmap_nulls_snd c : (repeat null c).*2 = repeat NULL_VAL c.
Proof. induction c as [|c IH]; [reflexivity|]. cbn. now f_equal. Qed.

Lemma set_bounds_edges p p' : set_bounds p = Some p' -> edges p' = edges p.
Proof. unfold set_bounds. destruct (fill_bounds _ _ _ _ _) as [[ups lows]|]; [|discriminate]. now intros [= <-]. Qed.

Section Resize.
Context (G : list (list cell)).
Hypothesis HG : graph_fits G.

(** The leaves after the array has got another size. *)
Definition resized (m lg : Z) : list (list cell) := spread_of (entries 0 G) (leaves m lg).

(** Both end alike: cells [cs] with the elements of the graph are spread out. *)
Lemma resize_spec p m lg cs : 4 <= m <= 32 -> lg = Z.log2 m \/ lg = Z.log2 (m + 1) -> Z.of_nat (length cs) = 2 ^ m -> List.filter is_full cs = entries 0 G ->
  (exists m0 lg0 L, sized_PMA p m0 lg0 /\ lays p G (leaf lg0) L) ->
  exists p1 p', set_bounds (set_edges p (set_leaf_size (edges p) (2 ^ m) lg)) = Some p1
    /\ redistribute (set_edges p1 (set_N (set_arrays (edges p1) cs.*1 cs.*2) (2 ^ m))) 0 (2 ^ m) = Some p'
    /\ sized_PMA p' m lg /\ lays p' G (leaf lg) (resized m lg).
Proof.
  intros Hm Hl Lc Hf (m0 & lg0 & L & S0 & [_ _ HE _ Hfirst (e & Hns & _)]). pose proof (log_range m lg Hm Hl) as [[R1 R2] _].
  destruct S0 as [_ _ _ _ _ _ _ [Lu Ll] _ _]. destruct (set_size_spec p m lg cs.*1 cs.*2 Hm Hl Lu Ll) as (ups & lows & -> & Hs).
  set (p1 := mk_PMA _ _ _ _ _). exists p1. set (p2 := set_edges p1 (set_N (set_arrays (edges p1) cs.*1 cs.*2) (2 ^ m))).
  assert (Ec : 2 ^ m = Z.of_nat (leaf lg * leaves m lg)) by (rewrite cells_pow; lia).
  pose proof (leaves_pow m lg ltac:(lia)). pose proof (Z.pow_le_mono_r 2 2 (m - lg)). pose proof (pow_lt_64 m). pose proof (leaf_pow lg ltac:(lia)) as Elg.
  assert (EN : N (edges p2) = 2 ^ m) by reflexivity.
  destruct (redistribute_all G HG p2 (leaf lg) lg (leaves m lg) cs (pos_of (leaf lg0) L G) e) as (p' & E & (cs' & ns' & Ep) & Hlay); auto; try lia.
  - split; reflexivity.
  - destruct Hs as [_ _ _ _ E _ _ _ _ _]. cbn in E. unfold p2. cbn. lia.
  - rewrite <- Ec. apply pow_8. lia.
  - unfold pos_of. rewrite head_0, place_0; auto. rewrite HE. now apply entries_nonempty.
  - exists p'. split; [reflexivity|]. rewrite <- Ec in E. split; [exact E|]. split; [|exact Hlay]. subst p'. destruct Hs. now split.
Qed.

Lemma double_list_spec p m lg L : sized_PMA p m lg -> m < 32 -> lays p G (leaf lg) L -> length L = leaves m lg ->
  exists p', double_list p = Some p' /\ sized_PMA p' (m + 1) (Z.log2 (m + 1)) /\ lays p' G (leaf (Z.log2 (m + 1))) (resized (m + 1) (Z.log2 (m + 1))).
Proof.
  intros Hs Hm Hlay HL. pose proof Hs as [Sm Sl SN _ _ _ _ _ _ _]. pose proof (log_range m lg Sm Sl) as [[R1 R2] _].
  pose proof Hlay as [[Hv Hd] Hw HE _ _ _]. set (lg' := Z.log2 (m + 1)).
  pose proof (pow_lt_64 m ltac:(lia)). assert (E2 : (N (edges p) * 2)%u64 = 2 ^ (m + 1)).
  { rewrite SN. unfold mul64, u64, uwrap. pose proof (pow_lt_64 (m + 1) ltac:(lia)). rewrite Z.pow_add_r, Z.mod_small in * by lia. reflexivity. }
  assert (Ed : 2 ^ (m + 1) / 2 = 2 ^ m) by (rewrite Z.pow_add_r, Z.div_mul by lia; reflexivity).
  assert (Er : Z.to_nat (2 ^ (m + 1) - 2 ^ (m + 1) / 2) = Z.to_nat (2 ^ m)) by (rewrite Ed, Z.pow_add_r by lia; lia).
  assert (Lc : Z.of_nat (length (cells (leaf lg) L)) = 2 ^ m) by (rewrite length_arrays, HL, cells_pow by (auto; lia); reflexivity).
  assert (Hfull : Forall full (concat L)) by (rewrite HE; apply entries_full, HG).
  destruct (resize_spec p (m + 1) lg' (cells (leaf lg) L ++ repeat null (Z.to_nat (2 ^ m)))) as (p1 & p' & B & R & S & Y); auto; try lia.
  - rewrite Z.pow_add_r by lia. len.
  - rewrite List.filter_app, filter_nulls, app_nil_r, <- HE. now apply elements_cells.
  - eauto.
  - exists p'. split; [|auto]. unfold double_list. rewrite E2, SN. unfold bsr_word. rewrite Z.log2_pow2 by lia. fold lg'. rewrite B.
    apply set_bounds_edges in B as Be. rewrite Be. cbn [set_N set_edges edges vals dests set_leaf_size].
    rewrite Hv, Hd, !read_all_spec by (rewrite length_fmap; lia). rewrite Er, <- fmap_nulls_fst, <- fmap_nulls_snd, <- !fmap_app. rewrite <- R, Be. reflexivity.
Qed.

Lemma half_list_spec p m lg L : sized_PMA p m lg -> 4 < m -> lays p G (leaf lg) L -> length L = leaves m lg -> Z.of_nat (length (entries 0 G)) <= 2 ^ (m - 1) ->
  exists p', half_list p = Some p' /\ sized_PMA p' (m - 1) (Z.log2 (m - 1)) /\ lays p' G (leaf (Z.log2 (m - 1))) (resized (m - 1) (Z.log2 (m - 1))).
Proof.
  intros Hs Hm Hlay HL Hle. pose proof Hs as [Sm Sl SN _ _ _ _ _ _ _]. pose proof (log_range m lg Sm Sl) as [[R1 R2] _].
  pose proof Hlay as [[Hv Hd] Hw HE _ _ _]. set (lg' := Z.log2 (m - 1)).
  pose proof (pow_lt_64 (m - 1) ltac:(lia)). assert (E1 : 2 ^ m = 2 ^ (m - 1) * 2) by (replace m with (m - 1 + 1) at 1 by lia; rewrite Z.pow_add_r by lia; lia).
  assert (Ed : 2 ^ m / 2 = 2 ^ (m - 1)) by (rewrite E1, Z.div_mul by lia; reflexivity).
  assert (Lc : Z.of_nat (length (cells (leaf lg) L)) = 2 ^ m) by (rewrite length_arrays, HL, cells_pow by (auto; lia); reflexivity).
  assert (Hfull : Forall full (entries 0 G)) by apply entries_full, HG.
  assert (Hx : List.filter is_full (cells (leaf lg) L) = entries 0 G) by (rewrite <- HE in *; now apply elements_cells).
  destruct (resize_spec p (m - 1) lg' (entries 0 G ++ repeat null (Z.to_nat (2 ^ (m - 1) - Z.of_nat (length (entries 0 G)))))) as (p1 & p' & B & R & S & Y); auto; try lia.
  - len.
  - rewrite List.filter_app, filter_nulls, app_nil_r. now apply filter_is_full_self.
  - eauto.
  - exists p'. split; [|auto]. unfold half_list. rewrite SN, Ed. unfold bsr_word. rewrite Z.log2_pow2 by lia. fold lg'. rewrite B.
    apply set_bounds_edges in B as Be. rewrite Hv, Hd, !read_all_spec by (rewrite length_fmap; lia). rewrite elements_filter, Hx.
    rewrite (proj2 (Z.ltb_ge _ _)) by lia. rewrite <- fmap_nulls_fst, <- fmap_nulls_snd, <- !fmap_app. exact R.
Qed.
End Resize.

(** * Densities *)

(** Positive doubles in units of [2 ^ (-100)]. *)
Definition units (d : spec_float) : Z := match d with S754_finite false m e => Z.pos m * 2 ^ (e + 100) | _ => 0 end.
Definition tame (d : spec_float) : bool :=
  match d with S754_finite false m e => (2 ^ 52 <=? Z.pos m) && (Z.pos m <? 2 ^ 53) && (-100 <=? e) | _ => false end.

Lemma f64_pow k : 0 <= k <= 40 -> f64 (2 ^ k) = S754_finite false (2 ^ 52) (k - 52).
Proof.
  intros H. assert (F : forallb (fun k => match f64 (2 ^ k) with S754_finite false m e => (m =? 2 ^ 52)%positive && (e =? k - 52) | _ => false end) (map Z.of_nat (List.seq 0 41)) = true) by (vm_compute; reflexivity).
  rewrite forallb_forall in F. specialize (F k ltac:(apply in_map_iff; exists (Z.to_nat k); rewrite in_seq; lia)).
  destruct (f64 (2 ^ k)) as [| | |[] m e]; try discriminate. apply andb_prop in F as [F1%Pos.eqb_eq F2%Z.eqb_eq]. now subst.
Qed.

Lemma ratio_zero k : 0 <= k <= 40 -> ratio_of 0 (2 ^ k) = S754_zero false.
Proof. intros H. unfold ratio_of. rewrite f64_pow by exact H. reflexivity. Qed.

Lemma pma_ratio_exact c k : 0 < c < 2 ^ 53 -> 0 <= k <= 40 ->
  exists m e, ratio_of c (2 ^ k) = S754_finite false m e /\ normal m /\ -100 <= e /\ Z.pos m * 2 ^ (e + 100) = c * 2 ^ (100 - k).
Proof.
  intros Hc Hk. unfold ratio_of. rewrite f64_pow by exact Hk. destruct (f64_exact c Hc) as (m & e & -> & Nm & He & Em).
  unfold f64_div, SFdiv, SFdiv_core_binary. cbn [xorb Zdigits2].
  assert (D1 : Z.pos (digits2_pos m) = 53) by (apply digits2_unique; [exact Nm|lia]). rewrite D1. change (Z.pos (digits2_pos (2 ^ 52))) with 53.
  unfold fexp, emin. rewrite Z.max_l, Z.min_l by lia. set (e1 := 53 + e - (53 + (k - 52)) - 53).
  replace (e - (k - 52) - e1) with 53 by (unfold e1; lia). cbv iota. rewrite Z.shiftl_mul_pow2 by lia.
  assert (Ediv : Z.div_eucl (Z.pos m * 2 ^ 53) (Z.pos (2 ^ 52)) = (Z.pos m~0, 0)).
  { pose proof (Z.div_mod (Z.pos m * 2 ^ 53) (2 ^ 52) ltac:(lia)) as D. replace (Z.pos m * 2 ^ 53) with (Z.pos m~0 * 2 ^ 52) in * by lia.
    unfold Z.div, Z.modulo in D. pose proof (Z.div_mul (Z.pos m~0) (2 ^ 52) ltac:(lia)) as Q. pose proof (Z.mod_mul (Z.pos m~0) (2 ^ 52) ltac:(lia)) as R.
    unfold Z.div in Q. unfold Z.modulo in R. change (Z.pos (2 ^ 52)) with (2 ^ 52). destruct (Z.div_eucl (Z.pos m~0 * 2 ^ 52) (2 ^ 52)). congruence. }
  rewrite Ediv. change (new_location (Z.pos (2 ^ 52)) 0) with loc_Exact. unfold normal in Nm.
  destruct (round_long m~0 e1 1) as (m' & e' & q & -> & Nm' & He' & Ev & Ra); [lia|lia|unfold e1; lia|].
  exists m', e'. split; [reflexivity|]. split; [exact Nm'|]. split; [unfold e1 in *; lia|].
  assert (q = Z.pos m) as -> by lia. assert (E100 : e' + 100 = (e' - e1) + (e1 + 100)) by lia. rewrite E100, Z.pow_add_r, Z.mul_assoc, Ev, Em by (unfold e1 in *; lia).
  rewrite <- !Z.mul_assoc, <- !Z.pow_add_r by (unfold e1 in *; lia). do 2 f_equal. unfold e1. lia.
Qed.

Section Compare.
Context (c k : Z) (b : spec_float).
Hypothesis Hc : 0 <= c < 2 ^ 53.
Hypothesis Hk : 0 <= k <= 40.
Hypothesis Hb : tame b = true.

Lemma tame_spec : exists m e, b = S754_finite false m e /\ normal m /\ -100 <= e /\ units b = Z.pos m * 2 ^ (e + 100) /\ 0 < units b.
Proof.
  destruct b as [| | |[] m e]; try discriminate Hb. cbn in Hb. apply andb_prop in Hb as [[H1%Z.leb_le H2%Z.ltb_lt]%andb_prop H3%Z.leb_le].
  exists m, e. repeat split; auto. cbn. pose proof (Z.pow_pos_nonneg 2 (e + 100)). lia.
Qed.

Lemma density_ge : SFleb b (ratio_of c (2 ^ k)) = (units b <=? c * 2 ^ (100 - k)).
Proof.
  destruct tame_spec as (m & e & E & Nm & He & Eu & Pu). destruct (Z.eq_dec c 0) as [->|N].
  - rewrite ratio_zero, E by exact Hk. destruct (Z.leb_spec (units (S754_finite false m e)) (0 * 2 ^ (100 - k))); [|reflexivity]. rewrite E in Pu. lia.
  - destruct (pma_ratio_exact c k ltac:(lia) Hk) as (m' & e' & -> & Nm' & He' & <-). rewrite Eu, E. unfold SFleb. rewrite (compare_normal m e m' e' (-100)) by auto.
    replace (e - -100) with (e + 100) by lia. replace (e' - -100) with (e' + 100) by lia. unfold Z.leb. destruct (Z.pos m * 2 ^ (e + 100) ?= Z.pos m' * 2 ^ (e' + 100)); reflexivity.
Qed.

Lemma density_le : SFleb (ratio_of c (2 ^ k)) b = (c * 2 ^ (100 - k) <=? units b).
Proof.
  destruct tame_spec as (m & e & E & Nm & He & Eu & Pu). destruct (Z.eq_dec c 0) as [->|N].
  - rewrite ratio_zero, E by exact Hk. rewrite E in Pu. destruct (Z.leb_spec (0 * 2 ^ (100 - k)) (units (S754_finite false m e))); [reflexivity|lia].
  - destruct (pma_ratio_exact c k ltac:(lia) Hk) as (m' & e' & -> & Nm' & He' & <-). rewrite Eu, E. unfold SFleb. rewrite (compare_normal m' e' m e (-100)) by auto.
    replace (e - -100) with (e + 100) by lia. replace (e' - -100) with (e' + 100) by lia. unfold Z.leb. destruct (Z.pos m' * 2 ^ (e' + 100) ?= Z.pos m * 2 ^ (e + 100)); reflexivity.
Qed.
End Compare.

Lemma is_one_spec c k : 0 <= c < 2 ^ 53 -> 0 <= k <= 40 -> is_one (ratio_of c (2 ^ k)) = (c =? 2 ^ k).
Proof.
  intros Hc Hk. pose proof (Z.pow_pos_nonneg 2 k ltac:(lia) ltac:(lia)). unfold is_one. destruct (Z.eq_dec c 0) as [->|N].
  - rewrite ratio_zero by exact Hk. destruct (Z.eqb_spec 0 (2 ^ k)); [lia|reflexivity].
  - destruct (pma_ratio_exact c k ltac:(lia) Hk) as (m & e & -> & Nm & He & E). change (f64 1) with (S754_finite false (2 ^ 52) (-52)). unfold SFeqb.
    rewrite (compare_normal m e (2 ^ 52) (-52) (-100)) by (unfold normal in *; lia). replace (e - -100) with (e + 100) by lia. rewrite E. change (Z.pos (2 ^ 52) * 2 ^ (-52 - -100)) with (2 ^ 100).
    replace (2 ^ 100) with (2 ^ k * 2 ^ (100 - k)) by (rewrite <- Z.pow_add_r by lia; f_equal; lia). pose proof (Z.pow_pos_nonneg 2 (100 - k) ltac:(lia) ltac:(lia)).
    destruct (Z.compare_spec (c * 2 ^ (100 - k)) (2 ^ k * 2 ^ (100 - k))), (Z.eqb_spec c (2 ^ k)); try reflexivity; nia.
Qed.

Lemma is_zero_spec c k : 0 <= c < 2 ^ 53 -> 0 <= k <= 40 -> is_zero (ratio_of c (2 ^ k)) = (c =? 0).
Proof.
  intros Hc Hk. unfold is_zero. destruct (Z.eq_dec c 0) as [->|N]; [now rewrite ratio_zero by exact Hk|].
  destruct (pma_ratio_exact c k ltac:(lia) Hk) as (m & e & -> & _). now rewrite (proj2 (Z.eqb_neq _ _)) by exact N.
Qed.

(** ** The bounds *)

Definition upper_ok (lg depth : Z) (b : spec_float) : bool :=
  tame b && (units b * 2 ^ lg <=? (2 ^ lg - 1) * 2 ^ 100) && (2 ^ 101 <=? units b * 2 ^ lg) && (negb (depth =? 0) || (3 * 2 ^ 100 <=? 4 * units b)).
Definition lower_ok (m lg depth : Z) (b : spec_float) : bool :=
  tame b && ((2 ^ (m - lg - depth) - 2) * 2 ^ 100 <=? units b * 2 ^ (m - depth)) && (negb (depth =? 0) || (4 * units b <=? 2 ^ 100)).

Definition bounds_ok (m lg : Z) : bool :=
  forallb (fun d => upper_ok lg d (bounds_of m lg d).(y) && lower_ok m lg d (bounds_of m lg d).(x)) (map Z.of_nat (List.seq 0 (Z.to_nat (m - lg + 1)))).

Lemma all_bounds_ok : forallb (fun m => bounds_ok m (Z.log2 m) && bounds_ok m (Z.log2 (m + 1))) (map Z.of_nat (List.seq 4 29)) = true.
Proof. vm_compute. reflexivity. Qed.

Lemma bounds_ok_spec m lg d : 4 <= m <= 32 -> lg = Z.log2 m \/ lg = Z.log2 (m + 1) -> 0 <= d <= m - lg ->
  upper_ok lg d (bounds_of m lg d).(y) = true /\ lower_ok m lg d (bounds_of m lg d).(x) = true.
Proof.
  intros Hm Hl Hd. pose proof all_bounds_ok as F. rewrite forallb_forall in F. specialize (F m ltac:(apply in_map_iff; exists (Z.to_nat m); rewrite in_seq; lia)).
  apply andb_prop in F as [F1 F2]. assert (F : bounds_ok m lg = true) by (destruct Hl as [->| ->]; assumption).
  unfold bounds_ok in F. rewrite forallb_forall in F. specialize (F d ltac:(apply in_map_iff; exists (Z.to_nat d); rewrite in_seq; lia)). now apply andb_prop in F.
Qed.

(** What a bound that is or is not passed says of a window of [2 ^ j] leaves with [c] elements. *)
Section Windows.
Context (m lg j c : Z).
Hypothesis Hm : 4 <= m <= 32.
Hypothesis Hl : lg = Z.log2 m \/ lg = Z.log2 (m + 1).
Hypothesis Hj : 0 <= j <= m - lg.
Hypothesis Hc : 0 <= c < 2 ^ 53.
#[local] Abbreviation density := (ratio_of c (2 ^ (lg + j))).
#[local] Abbreviation bounds := (bounds_of m lg (m - lg - j)).

Lemma pow_split a b : 0 <= a -> 0 <= b -> 2 ^ (a + b) = 2 ^ a * 2 ^ b.
Proof. intros. now apply Z.pow_add_r. Qed.

Lemma lg_small : 2 <= lg <= 5.
Proof. pose proof (log_range m lg Hm Hl). lia. Qed.

Lemma upper_spec : SFleb bounds.(y) density = (units bounds.(y) <=? c * 2 ^ (100 - (lg + j))) /\ upper_ok lg (m - lg - j) bounds.(y) = true.
Proof.
  pose proof lg_small. destruct (bounds_ok_spec m lg (m - lg - j) Hm Hl ltac:(lia)) as [U _]. split; [|exact U].
  apply density_ge; [exact Hc|lia|]. unfold upper_ok in U. now repeat (apply andb_prop in U as [U _]).
Qed.

Lemma lower_spec : SFleb density bounds.(x) = (c * 2 ^ (100 - (lg + j)) <=? units bounds.(x)) /\ lower_ok m lg (m - lg - j) bounds.(x) = true.
Proof.
  pose proof lg_small. destruct (bounds_ok_spec m lg (m - lg - j) Hm Hl ltac:(lia)) as [_ U]. split; [|exact U].
  apply density_le; [exact Hc|lia|]. unfold lower_ok in U. now repeat (apply andb_prop in U as [U _]).
Qed.

(** Units of a window: [2 ^ 100 = 2 ^ (100 - lg - j) * 2 ^ lg * 2 ^ j]. *)
Lemma units_split : 2 ^ 100 = 2 ^ (100 - (lg + j)) * (2 ^ lg * 2 ^ j) /\ 0 < 2 ^ (100 - (lg + j)) /\ 0 < 2 ^ lg /\ 0 < 2 ^ j.
Proof.
  pose proof lg_small. rewrite <- !pow_split by lia. split; [f_equal; lia|]. repeat split; apply Z.pow_pos_nonneg; lia.
Qed.

Lemma upper_in : SFleb bounds.(y) density = false -> c < 2 ^ j * (2 ^ lg - 1).
Proof.
  destruct upper_spec as [-> U]. intros L%Z.leb_gt. unfold upper_ok in U. repeat (apply andb_prop in U as [U ?]).
  destruct units_split as (E & P1 & P2 & P3). apply Z.leb_le in H1. rewrite E in H1. nia.
Qed.

Lemma upper_out : SFleb bounds.(y) density = true -> 2 * 2 ^ j <= c /\ (j = m - lg -> 3 * 2 ^ m <= 4 * c).
Proof.
  destruct upper_spec as [-> U]. intros L%Z.leb_le. unfold upper_ok in U. repeat (apply andb_prop in U as [U ?]).
  destruct units_split as (E & P1 & P2 & P3). apply Z.leb_le in H0. change (2 ^ 101) with (2 * 2 ^ 100) in H0. rewrite E in *.
  set (u := 2 ^ (100 - (lg + j))) in *. set (X := units _) in *.
  split; [apply (Z.mul_le_mono_pos_r _ _ (u * 2 ^ lg)); [lia|]; pose proof (Z.mul_le_mono_nonneg_r X (c * u) (2 ^ lg) ltac:(lia) L); lia|].
  intros Ej. rewrite (proj2 (Z.eqb_eq (m - lg - j) 0)) in H by lia. cbn [negb orb] in H. apply Z.leb_le in H.
  replace (2 ^ m) with (2 ^ lg * 2 ^ j) by (rewrite <- pow_split by (pose proof lg_small; lia); f_equal; lia).
  apply (Z.mul_le_mono_pos_r _ _ u); [lia|]. lia.
Qed.

Lemma lower_in : SFleb density bounds.(x) = false -> 2 ^ j - 1 <= c.
Proof.
  destruct lower_spec as [-> U]. intros L%Z.leb_gt. unfold lower_ok in U. repeat (apply andb_prop in U as [U ?]).
  destruct units_split as (E & P1 & P2 & P3). apply Z.leb_le in H0. rewrite E in H0. replace (m - lg - (m - lg - j)) with j in H0 by lia.
  replace (m - (m - lg - j)) with (lg + j) in H0 by lia. rewrite pow_split in H0 by (pose proof lg_small; lia).
  clear E. set (u := 2 ^ (100 - (lg + j))) in *. set (X := units _) in *. assert (P4 : 0 < 2 ^ lg * 2 ^ j) by nia. generalize dependent (2 ^ lg * 2 ^ j). intros W H0 PW.
  destruct (Z.le_gt_cases (2 ^ j - 1) c) as [|Lc]; [assumption|exfalso]. assert (c * u <= (2 ^ j - 2) * u) by (apply Z.mul_le_mono_nonneg_r; lia).
  assert (X * W < (2 ^ j - 2) * u * W) by (apply Z.mul_lt_mono_pos_r; lia). lia.
Qed.

Lemma lower_out : SFleb density bounds.(x) = true -> j = m - lg -> 4 * c <= 2 ^ m.
Proof.
  destruct lower_spec as [-> U]. intros L%Z.leb_le Ej. unfold lower_ok in U. repeat (apply andb_prop in U as [U ?]).
  destruct units_split as (E & P1 & P2 & P3). rewrite (proj2 (Z.eqb_eq (m - lg - j) 0)) in H by lia. cbn [negb orb] in H. apply Z.leb_le in H. rewrite E in H.
  replace (2 ^ m) with (2 ^ lg * 2 ^ j) by (rewrite <- pow_split by (pose proof lg_small; lia); f_equal; lia).
  apply (Z.mul_le_mono_pos_r _ _ (2 ^ (100 - (lg + j)))); [lia|]. lia.
Qed.
End Windows.
