(* ===== verification/PmaBalance.v ===== *)
(** * Keeping the densities within bounds

    After a leaf has changed, [rebalance] looks for the smallest window around it whose
    density is within bounds and spreads it out, or changes the size of the array.  Either way
    no leaf is full afterwards, and no leaf of even number is empty before an element: an
    element is at most two leaves away from the one before it. *)

From stdpp Require Import base option list.
From S2P Require Import Prelude Doubles Arrays Pma PmaSearch PmaSpread PmaDensity.
From Stdlib Require Import SpecFloat.
#[local] Open Scope Z_scope.

(** ** Counting *)

Lemma count_cells_spec test (m : list Z) : forall a b i, i = Z.of_nat (length a) -> count_cells test (a ++ m ++ b) (length m) i = Some (Z.of_nat (length (List.filter test m))).
Proof.
  induction m as [|d m IH]; intros a b i Hi; [reflexivity|]. cbn [count_cells length List.filter app]. rewrite (rd_app a d) by exact Hi.
  replace (a ++ d :: m ++ b) with ((a ++ [d]) ++ m ++ b) by now rewrite <- app_assoc. rewrite (IH (a ++ [d]) b (i + 1)) by len.
  destruct (test d); cbn [length]; f_equal; lia.
Qed.

Lemma filter_snd (test : Z -> bool) (cs : list cell) : length (List.filter test cs.*2) = length (List.filter (fun c => test c.2) cs).
Proof. induction cs as [|c cs IH]; [reflexivity|]. rewrite fmap_cons. cbn [List.filter]. destruct (test c.2); cbn [length]; lia. Qed.

Lemma filter_count {X} (f : X -> bool) l : (length (List.filter f l) + length (List.filter (fun c => negb (f c)) l))%nat = length l.
Proof. induction l as [|c l IH]; [reflexivity|]. cbn [List.filter]. destruct (f c); cbn [length negb]; lia. Qed.

(** The elements of a window, whichever way they are counted. *)
Lemma get_density_count_spec e a m b k : dests e = (a ++ m ++ b).*2 -> Z.of_nat (length m) = 2 ^ k -> 2 <= k <= 32 ->
  get_density_count e (Z.of_nat (length a)) (2 ^ k) = Some (Z.of_nat (length (List.filter is_full m))).
Proof.
  intros Hd Hl Hk. unfold get_density_count. rewrite Hd, !fmap_app.
  assert (Ha : Z.of_nat (length a) = Z.of_nat (length a.*2)) by now rewrite length_fmap. rewrite Ha. destruct (Z.leb_spec 8 (2 ^ k)) as [L|L].
  - assert (K : 3 <= k) by (apply (Z.pow_le_mono_r_iff 2); lia). pose proof (pow_8 k K) as [z Hz].
    assert (Es : in_steps 8 (2 ^ k) = length m.*2).
    { unfold in_steps. rewrite Hz. replace (z * 8 + 8 - 1) with (7 + z * 8) by lia. rewrite Z.div_add by lia. change (7 / 8) with 0. rewrite length_fmap. lia. }
    rewrite Es, count_cells_spec by reflexivity. f_equal. rewrite filter_snd. pose proof (filter_count (fun c : cell => c.2 =? NULL_VAL) m) as F. cbn beta in F.
    change (fun c : cell => negb (c.2 =? NULL_VAL)) with is_full in F. pose proof (Z.pow_le_mono_r 2 k 32 ltac:(lia) ltac:(lia)).
    unfold sub64, u64, uwrap. rewrite Z.mod_small; lia.
  - assert (k = 2) as -> by (destruct (Z.eq_dec k 2); [assumption|]; pose proof (Z.pow_le_mono_r 2 3 k); lia).
    replace (in_steps 4 (2 ^ 2)) with (length m.*2) by (rewrite length_fmap; change (in_steps 4 (2 ^ 2)) with 4%nat; lia).
    rewrite count_cells_spec, filter_snd by reflexivity. reflexivity.
Qed.

(** ** Windows *)

(** The elements of the leaves before leaf [s]. *)
Definition prefix (L : list (list cell)) (s : nat) : nat := length (concat (take s L)).

Lemma prefix_le L s t : (s <= t)%nat -> (prefix L s <= prefix L t)%nat.
Proof.
  intros H. unfold prefix. replace t with (s + (t - s))%nat by lia. rewrite <- (take_drop s (take (s + (t - s)) L)), concat_app, length_app, take_take.
  rewrite Nat.min_l by lia. lia.
Qed.

(** The window of level [j] around leaf [i]. *)
Definition first_leaf (j i : nat) : nat := (i / 2 ^ j * 2 ^ j)%nat.
Definition window (L : list (list cell)) (j i : nat) : list (list cell) := take (2 ^ j) (drop (first_leaf j i) L).
Definition count (L : list (list cell)) (j i : nat) : nat := length (concat (window L j i)).

Lemma pow2_pos j : (0 < 2 ^ j)%nat.
Proof. induction j; cbn; lia. Qed.

Lemma pow2_Z j : Z.of_nat (2 ^ j) = 2 ^ Z.of_nat j.
Proof. now rewrite Nat2Z.inj_pow. Qed.

Lemma first_leaf_spec j i : (first_leaf j i <= i < first_leaf j i + 2 ^ j)%nat.
Proof. unfold first_leaf. pose proof (pow2_pos j). pose proof (Nat.div_mod_eq i (2 ^ j)). pose proof (Nat.mod_upper_bound i (2 ^ j) ltac:(lia)). lia. Qed.

Lemma first_leaf_0 i : first_leaf 0 i = i.
Proof. unfold first_leaf. change (2 ^ 0)%nat with 1%nat. rewrite Nat.div_1_r. lia. Qed.

Lemma first_leaf_S j i : (first_leaf (S j) i <= first_leaf j i)%nat /\ (first_leaf j i + 2 ^ j <= first_leaf (S j) i + 2 ^ S j)%nat
  /\ first_leaf (S j) i = (first_leaf j i / 2 ^ S j * 2 ^ S j)%nat.
Proof.
  unfold first_leaf. pose proof (pow2_pos j). assert (E : (i / 2 ^ S j = i / 2 ^ j / 2)%nat) by (rewrite Nat.Div0.div_div; f_equal; cbn; lia).
  rewrite E. set (q := (i / 2 ^ j)%nat). pose proof (Nat.div_mod_eq q 2). pose proof (Nat.mod_upper_bound q 2 ltac:(lia)). change (2 ^ S j)%nat with (2 * 2 ^ j)%nat.
  split; [nia|]. split; [nia|]. f_equal. symmetry. apply Nat.Div0.div_mul_cancel_r. lia.
Qed.

Lemma count_prefix L j i : (first_leaf j i + 2 ^ j <= length L)%nat -> (prefix L (first_leaf j i) + count L j i = prefix L (first_leaf j i + 2 ^ j))%nat.
Proof.
  intros H. unfold prefix, count, window. set (s := first_leaf j i) in *. rewrite <- (take_drop s (take (s + 2 ^ j) L)), concat_app, length_app, take_take, Nat.min_l by lia.
  f_equal. rewrite <- take_drop_commute. reflexivity.
Qed.

Lemma count_S L j i : (first_leaf (S j) i + 2 ^ S j <= length L)%nat -> (count L j i <= count L (S j) i)%nat.
Proof.
  intros H. pose proof (first_leaf_S j i) as (H1 & H2 & _). pose proof (count_prefix L j i ltac:(lia)). pose proof (count_prefix L (S j) i H).
  pose proof (prefix_le L (first_leaf (S j) i) (first_leaf j i) H1). pose proof (prefix_le L _ _ H2). lia.
Qed.

(** ** The climb *)

(** Leaf [i] of an array of [2 ^ h] leaves. *)
Lemma window_inside h j i : (j <= h)%nat -> (i < 2 ^ h)%nat -> (first_leaf j i + 2 ^ j <= 2 ^ h)%nat.
Proof.
  intros Hj Hi. unfold first_leaf. pose proof (pow2_pos j). replace h with (h - j + j)%nat in * by lia. rewrite Nat.pow_add_r in *.
  assert (i / 2 ^ j < 2 ^ (h - j))%nat by (apply Nat.Div0.div_lt_upper_bound; lia). nia.
Qed.

Lemma span_split L j i : (first_leaf j i + 2 ^ j <= length L)%nat ->
  exists A B, L = A ++ window L j i ++ B /\ length A = first_leaf j i /\ length (window L j i) = (2 ^ j)%nat.
Proof.
  intros H. exists (take (first_leaf j i) L), (drop (2 ^ j) (drop (first_leaf j i) L)). unfold window. rewrite take_drop, take_drop. split; [reflexivity|]. split; [rewrite length_take|rewrite length_take, length_drop]; lia.
Qed.

Section Climbing.
Context (bounds : PMA -> list spec_float) (out : spec_float -> spec_float -> bool) (resize : PMA -> option PMA).
Context (p : PMA) (G : list (list cell)) (m lg : Z) (L : list (list cell)) (bound : Z -> spec_float) (i : nat).
#[local] Abbreviation w := (leaf lg).
#[local] Abbreviation h := (Z.to_nat (m - lg)).
Hypothesis Hsized : sized_PMA p m lg.
Hypothesis Hok : graph_ok G.
Hypothesis Hlays : lays p G w L.
Hypothesis HL : length L = (2 ^ h)%nat.
Hypothesis Hi : (i < length L)%nat.
Hypothesis Hbound : forall d, 0 <= d <= m - lg -> rd (bounds p) d = Some (bound d).

Definition density_at (j : nat) : spec_float := ratio_of (Z.of_nat (count L j i)) (2 ^ (lg + Z.of_nat j)).
Definition out_at (j : nat) : bool := out (density_at j) (bound (m - lg - Z.of_nat j)).

Lemma lg_h : 2 <= lg <= 5 /\ 2 <= m - lg <= 27 /\ m = lg + Z.of_nat h.
Proof. destruct Hsized as [Sm Sl _ _ _ _ _ _ _ _]. pose proof (log_range m lg Sm Sl). lia. Qed.

Lemma count_window j : (j <= h)%nat -> get_density_count (edges p) (Z.of_nat (w * first_leaf j i)) (2 ^ (lg + Z.of_nat j)) = Some (Z.of_nat (count L j i)).
Proof.
  intros Hj. pose proof lg_h as (R1 & R2 & R3). pose proof (window_inside h j i Hj ltac:(lia)) as Hw. rewrite <- HL in Hw.
  destruct (span_split L j i Hw) as (A & B & E & LA & LM). destruct Hlays as [[Hv Hd] Hweak He _ _ _].
  rewrite E in Hweak. apply Forall_app in Hweak as [HwA [HwM HwB]%Forall_app].
  assert (HF : Forall full (concat (window L j i))).
  { pose proof (entries_full 0 G Hok) as F. rewrite <- He, E, !concat_app in F. apply Forall_app in F as [_ F]. now apply Forall_app in F as [F _]. }
  unfold count. rewrite <- (elements_cells w (window L j i) HwM HF). replace (w * first_leaf j i)%nat with (length (cells w A)) by (rewrite length_arrays by exact HwA; congruence).
  apply (get_density_count_spec (edges p) (cells w A) (cells w (window L j i)) (cells w B)); [|rewrite length_arrays, LM, Nat2Z.inj_mul, leaf_pow, Z.pow_add_r, pow2_Z by (auto; lia); reflexivity|lia].
  rewrite Hd. f_equal. rewrite E at 1. rewrite !cells_app. reflexivity.
Qed.

Lemma find_node_S j : find_node (Z.of_nat (w * first_leaf j i)) (2 ^ (lg + Z.of_nat j) * 2) = Z.of_nat (w * first_leaf (S j) i).
Proof.
  pose proof lg_h as (R1 & R2 & R3). unfold find_node. rewrite (proj2 (proj2 (first_leaf_S j i))). set (s := first_leaf j i).
  replace (2 ^ (lg + Z.of_nat j) * 2) with (2 ^ lg * Z.of_nat (2 ^ S j)) by (rewrite pow2_Z, Nat2Z.inj_succ, Z.pow_succ_r, Z.pow_add_r by lia; lia).
  rewrite <- (leaf_pow lg) by lia. rewrite <- Nat2Z.inj_mul, <- Nat2Z.inj_div, <- Nat2Z.inj_mul. f_equal.
  assert (Pw : (w <> 0)%nat) by (unfold leaf; pose proof (Z.pow_pos_nonneg 2 lg); lia). rewrite (Nat.Div0.div_mul_cancel_l s (2 ^ S j) w) by exact Pw. lia.
Qed.

Lemma climb_spec d : forall j fuel, (j + d = h)%nat -> (d < fuel)%nat ->
  let r := climb bounds out resize p fuel (m - lg - Z.of_nat j) (2 ^ (lg + Z.of_nat j)) (Z.of_nat (w * first_leaf j i)) (density_at j) (bound (m - lg - Z.of_nat j)) in
  (exists k, (j <= k <= h)%nat /\ out_at k = false /\ (forall t, (j <= t < k)%nat -> out_at t = true)
    /\ r = if (0 <? k)%nat then redistribute p (Z.of_nat (w * first_leaf k i)) (2 ^ (lg + Z.of_nat k)) else Some p)
  \/ (forall t, (j <= t <= h)%nat -> out_at t = true) /\ r = resize p.
Proof.
  pose proof lg_h as (R1 & R2 & R3). destruct Hsized as [_ _ SN _ Sl _ _ _ _ _].
  induction d as [|d IH]; intros j fuel Hj Hf; cbn zeta; (destruct fuel as [|fuel]; [lia|]); cbn [climb]; fold (out_at j).
  - destruct (out_at j) eqn:Eo.
    + right. split; [intros t Ht; now replace t with j by lia|]. rewrite SN, (proj2 (Z.leb_gt _ _)); [reflexivity|].
      replace (lg + Z.of_nat j) with m by lia. pose proof (Z.pow_pos_nonneg 2 m). lia.
    + left. exists j. split; [lia|]. split; [exact Eo|]. split; [lia|]. rewrite Sl, (proj2 (Z.ltb_lt _ _)) by (apply Z.pow_lt_mono_r; lia).
      destruct (Nat.ltb_spec 0 j); [reflexivity|lia].
  - destruct (out_at j) eqn:Eo.
    + assert (E2 : 2 ^ (lg + Z.of_nat j) * 2 = 2 ^ (lg + Z.of_nat (S j))) by (rewrite Nat2Z.inj_succ, Z.add_succ_r, Z.pow_succ_r by lia; lia).
      rewrite SN, E2, (proj2 (Z.leb_le _ _)) by (apply Z.pow_le_mono_r; lia). rewrite <- E2, find_node_S, E2, count_window by lia.
      replace (m - lg - Z.of_nat j - 1) with (m - lg - Z.of_nat (S j)) by lia. rewrite Hbound by lia.
      destruct (IH (S j) fuel ltac:(lia) ltac:(lia)) as [(k & K1 & K2 & K3 & K4)|[K1 K2]].
      * left. exists k. split; [lia|]. split; [exact K2|]. split; [|exact K4]. intros t Ht. destruct (Nat.eq_dec t j) as [->|]; [exact Eo|apply K3; lia].
      * right. split; [|exact K2]. intros t Ht. destruct (Nat.eq_dec t j) as [->|]; [exact Eo|apply K1; lia].
    + left. exists j. split; [lia|]. split; [exact Eo|]. split; [lia|]. rewrite Sl. destruct (Nat.ltb_spec 0 j) as [L0|L0].
      * rewrite (proj2 (Z.ltb_lt _ _)) by (apply Z.pow_lt_mono_r; lia). reflexivity.
      * replace j with O by lia. rewrite Z.add_0_r, Z.ltb_irrefl. reflexivity.
Qed.

Lemma find_leaf_spec index : Z.of_nat (w * i) <= index < Z.of_nat (w * i) + Z.of_nat w -> find_leaf (edges p) index = Z.of_nat (w * i).
Proof.
  intros Hx. pose proof lg_h as (R1 & R2 & R3). destruct Hsized as [Sm _ _ _ _ _ Sk _ _ _]. unfold find_leaf. rewrite Sk. rewrite Nat2Z.inj_mul, leaf_pow in * by lia.
  assert (Eq : index / 2 ^ lg = Z.of_nat i) by (symmetry; apply (Z.div_unique index (2 ^ lg) _ (index - 2 ^ lg * Z.of_nat i)); lia).
  assert (Em : u32 (Z.lnot (2 ^ lg - 1)) = Z.shiftl (Z.ones (32 - lg)) lg).
  { assert (C : lg = 2 \/ lg = 3 \/ lg = 4 \/ lg = 5) by lia. destruct C as [->|[->|[->| ->]]]; reflexivity. }
  rewrite Em. rewrite <- Eq, Z.mul_comm, <- Z.shiftl_mul_pow2, <- Z.shiftr_div_pow2 by lia. apply Z.bits_inj'. intros b Hb. rewrite Z.land_spec, !Z.shiftl_spec by lia.
  destruct (Z.lt_ge_cases b lg) as [Lb|Lb]; [rewrite !(Z.testbit_neg_r _ (b - lg)) by lia; apply andb_false_r|].
  rewrite Z.shiftr_spec by lia. replace (b - lg + lg) with b by lia. rewrite Z.testbit_ones_nonneg by lia. destruct (Z.ltb_spec (b - lg) (32 - lg)); [apply andb_true_r|].
  rewrite andb_false_r. symmetry. assert (Hlt : index < 2 ^ 32).
  { assert (Z.of_nat i + 1 <= 2 ^ (m - lg)).
    { replace (2 ^ (m - lg)) with (Z.of_nat (2 ^ h)) by (rewrite pow2_Z; f_equal; lia). lia. }
    assert (2 ^ lg * (Z.of_nat i + 1) <= 2 ^ lg * 2 ^ (m - lg)) by (apply Z.mul_le_mono_nonneg_l; [apply Z.pow_nonneg; lia|assumption]).
    rewrite <- Z.pow_add_r in * by lia. replace (lg + (m - lg)) with m in * by lia. pose proof (Z.pow_le_mono_r 2 m 32). lia. }
  assert (0 <= 2 ^ lg * Z.of_nat i) by (apply Z.mul_nonneg_nonneg; [apply Z.pow_nonneg|]; lia).
  destruct (Z.eq_dec index 0) as [->|]; [apply Z.testbit_0_l|]. apply Z.bits_above_log2; [lia|]. apply Z.log2_lt_pow2; [lia|]. pose proof (Z.pow_le_mono_r 2 32 b). lia.
Qed.

(** The smallest window that is within bounds, or a new size. *)
Lemma rebalance_spec full index : Z.of_nat (w * i) <= index < Z.of_nat (w * i) + Z.of_nat w ->
  let j := if full (density_at 0) : bool then 1%nat else 0%nat in
  let r := rebalance bounds out resize p full index in
  (exists k, (j <= k <= h)%nat /\ out_at k = false /\ (forall t, (j <= t < k)%nat -> out_at t = true)
    /\ r = if (0 <? k)%nat then redistribute p (Z.of_nat (w * first_leaf k i)) (2 ^ (lg + Z.of_nat k)) else Some p)
  \/ (forall t, (j <= t <= h)%nat -> out_at t = true) /\ r = resize p.
Proof.
  intros Hx j r. pose proof lg_h as (R1 & R2 & R3). pose proof Hsized as [_ _ SN SH Sl _ _ _ _ _]. subst r. unfold rebalance. rewrite find_leaf_spec by exact Hx.
  rewrite SH, Sl. unfold get_density. assert (F0 : Z.of_nat (w * i) = Z.of_nat (w * first_leaf 0 i)) by now rewrite first_leaf_0.
  assert (E0 : 2 ^ lg = 2 ^ (lg + Z.of_nat 0)) by (f_equal; lia). assert (E2 : 2 ^ (lg + Z.of_nat 0) * 2 = 2 ^ (lg + Z.of_nat 1)) by (rewrite <- E0, Z.pow_add_r by lia; reflexivity).
  assert (Hf : (h < Z.to_nat (N (edges p)))%nat) by (rewrite SN; pose proof (Z.pow_gt_lin_r 2 m); lia).
  rewrite F0, E0, count_window by lia. fold (density_at 0). subst j. destruct (full (density_at 0)).
  - rewrite find_node_S, E2, count_window by lia. replace (m - lg - 1) with (m - lg - Z.of_nat 1) by lia. rewrite Hbound by lia.
    apply (climb_spec (h - 1) 1); lia.
  - assert (R0 : redistribute p (Z.of_nat (w * first_leaf 0 i)) (2 ^ (lg + Z.of_nat 0)) = Some p) by (unfold redistribute; now rewrite Sl, E0, Z.eqb_refl).
    rewrite R0. rewrite Hbound, count_window by lia.
    pose proof (climb_spec h 0 (Z.to_nat (N (edges p))) ltac:(lia) Hf) as C. cbn zeta in C. replace (m - lg - Z.of_nat 0) with (m - lg) in C by lia. exact C.
Qed.
End Climbing.

(** ** Balanced arrays *)

(** If leaf [2 * i] is empty, nothing follows it. *)
Definition quiet (L : list (list cell)) (i : nat) : Prop := L !! (2 * i)%nat = Some [] -> concat (drop (2 * i) L) = [].
Definition dense (L : list (list cell)) : Prop := forall i, quiet L i.

Record balanced (p : PMA) (G : list (list cell)) (m lg : Z) (L : list (list cell)) : Prop := {
  bl_sized : sized_PMA p m lg;
  bl_lays : lays p G (leaf lg) L;
  bl_length : length L = leaves m lg;
  bl_strong : strong (leaf lg) L;
  bl_dense : dense L;
}.

Lemma sized_same p p' m lg : same_shape p p' -> sized_PMA p m lg -> sized_PMA p' m lg.
Proof. intros (cs & ns & ->) []. now split. Qed.

Lemma spread_tail n : forall xs cpl extra i, length xs = (cpl * n + extra)%nat -> cpl = O -> (extra <= i)%nat -> concat (drop i (spread xs cpl extra n)) = [].
Proof.
  induction n as [|n IH]; intros xs cpl extra i H -> He; [destruct i; reflexivity|]. cbn [spread]. destruct i as [|i].
  - assert (extra = O) as -> by lia. cbn. rewrite drop_0, take_0. cbn [app].
    change (concat (drop 0 (spread xs 0 0 n)) = []). apply IH; lia.
  - cbn [drop]. apply IH; [rewrite length_drop|reflexivity|]; revert H; nat_cmps.
Qed.

(** All elements spread out over an array that they fill by half at most. *)
Lemma resized_balanced G m lg : 4 <= m <= 32 -> lg = Z.log2 m \/ lg = Z.log2 (m + 1) -> 2 * Z.of_nat (length (entries 0 G)) <= 2 ^ m -> strong (leaf lg) (resized G m lg) /\ dense (resized G m lg)
  /\ length (resized G m lg) = leaves m lg.
Proof.
  intros Hm Hl Hc. pose proof (log_range m lg Hm Hl) as [[R1 R2] _]. pose proof (leaf_pow lg ltac:(lia)) as E1. pose proof (leaves_pow m lg ltac:(lia)) as E2.
  pose proof (cells_pow m lg ltac:(lia)) as E3. pose proof (Z.pow_le_mono_r 2 2 lg). pose proof (Z.pow_le_mono_r 2 2 (m - lg)).
  unfold resized. assert (Hk : (0 < leaves m lg)%nat) by lia. split; [|split; [|apply length_spread]].
  - assert (B : Forall (fun l => (length l <= leaf lg - 1)%nat) (spread_of (entries 0 G) (leaves m lg))).
    { apply spread_of_bound; [exact Hk|]. rewrite <- E3 in Hc. rewrite Nat.mul_sub_distr_r. nia. }
    revert B. apply List.Forall_impl. intros; lia.
  - intros i Hi. unfold spread_of in *. pose proof (div_mod_nat (length (entries 0 G)) _ Hk) as [Ed Ml]. apply spread_empty in Hi as [H1 H2]; [|lia|lia].
    apply spread_tail; [lia|exact H1|exact H2].
Qed.

(** A window around a change, spread out. *)
Lemma redistribute_window p G m lg L i k : graph_fits G -> sized_PMA p m lg -> lays p G (leaf lg) L -> length L = leaves m lg -> (i < length L)%nat ->
  (1 <= k <= Z.to_nat (m - lg))%nat ->
  2 ^ Z.of_nat k - 1 <= Z.of_nat (count L k i) <= 2 ^ Z.of_nat k * (2 ^ lg - 1) ->
  (forall i' l, i' <> i -> L !! i' = Some l -> (length l < leaf lg)%nat) -> (forall i', (2 * i')%nat <> i -> quiet L i') ->
  exists p' L', redistribute p (Z.of_nat (leaf lg * first_leaf k i)) (2 ^ (lg + Z.of_nat k)) = Some p' /\ balanced p' G m lg L'.
Proof.
  intros HG Hs Hlay HL Hi Hk Hc Hst Hq. pose proof Hs as [Sm Sl SN _ Eln Ell _ _ _ _]. pose proof (log_range m lg Sm Sl) as [[R1 R2] _].
  pose proof (leaf_pow lg ltac:(lia)) as E1. pose proof (leaves_pow m lg ltac:(lia)) as E2.
  assert (HL' : length L = (2 ^ Z.to_nat (m - lg))%nat) by (apply Nat2Z.inj; rewrite HL, E2, pow2_Z; f_equal; lia).
  pose proof (window_inside (Z.to_nat (m - lg)) k i ltac:(lia) ltac:(lia)) as Win. rewrite <- HL' in Win.
  destruct (span_split L k i Win) as (A & B & E & LA & LM). set (M := window L k i) in *. unfold count in Hc. fold M in Hc.
  assert (Ek : 2 ^ (lg + Z.of_nat k) = Z.of_nat (leaf lg * length M)) by (rewrite LM, Nat2Z.inj_mul, E1, pow2_Z, Z.pow_add_r by lia; reflexivity).
  pose proof (pow2_Z k) as Pk. assert (K2 : (2 <= 2 ^ k)%nat) by (pose proof (Z.pow_le_mono_r 2 1 (Z.of_nat k)); lia).
  pose proof (first_leaf_spec k i) as Fi.
  assert (HM : concat M <> []) by (intros X; rewrite X in Hc; cbn in Hc; lia).
  destruct (redistribute_lays G HG p (leaf lg) lg A M B) as (p' & R & Sh & Lay); auto; try lia; try (now rewrite <- E).
  { rewrite <- Ek. apply pow_8. lia. }
  { rewrite SN. apply pow_lt_64. lia. }
  rewrite Ek, <- LA. exists p', (A ++ spread_of (concat M) (length M) ++ B). split; [exact R|].
  assert (LS : length (spread_of (concat M) (length M)) = length M) by apply length_spread.
  assert (Ev : exists a, length A = (2 * a)%nat) by (exists (i / 2 ^ k * 2 ^ (k - 1))%nat; rewrite LA; unfold first_leaf; replace k with (S (k - 1)) at 2 by lia; cbn [Nat.pow]; lia).
  assert (Ev2 : (2 ^ k = 2 * 2 ^ (k - 1))%nat) by (replace k with (S (k - 1)) at 1 by lia; reflexivity).
  split; auto.
  - now apply (sized_same p).
  - rewrite !length_app, LS, <- HL, E, !length_app. reflexivity.
  - assert (Out : forall j l, (j < length A \/ length A + length M <= j)%nat -> L !! j = Some l -> (length l < leaf lg)%nat) by (intros j l Hj; apply Hst; lia).
    unfold strong. rewrite !Forall_app. split; [|split].
    + apply Forall_lookup. intros j l Hj. apply (Out j); [apply lookup_lt_Some in Hj; lia|]. rewrite E, lookup_app_l; [exact Hj|]. now apply lookup_lt_Some in Hj.
    + assert (Bd : Forall (fun l => (length l <= leaf lg - 1)%nat) (spread_of (concat M) (length M))) by (apply spread_of_bound; [lia|]; rewrite LM; nia).
      pose proof (Z.pow_le_mono_r 2 2 lg). revert Bd. apply List.Forall_impl. intros; lia.
    + apply Forall_lookup. intros j l Hj. apply (Out (length A + (length M + j))%nat); [lia|]. rewrite E, lookup_app_r, lookup_app_r by lia. rewrite <- Hj. f_equal. lia.
  - intros j Hj. assert (CS : concat (spread_of (concat M) (length M)) = concat M) by (apply concat_spread_of; lia). destruct Ev as [a Ha].
    destruct (Nat.lt_ge_cases (2 * j) (length A)) as [L1|L1]; [|destruct (Nat.lt_ge_cases (2 * j) (length A + length M)) as [L2|L2]].
    + specialize (Hq j ltac:(lia)). unfold quiet in Hq. rewrite E in Hq. rewrite lookup_app_l in Hj by exact L1. rewrite !drop_app_le, !concat_app in * by lia. rewrite CS. apply Hq.
      rewrite lookup_app_l by exact L1. exact Hj.
    + exfalso. rewrite lookup_app_r, lookup_app_l in Hj by lia. apply spread_of_full in Hj; lia.
    + specialize (Hq j ltac:(lia)). unfold quiet in Hq. rewrite E in Hq. rewrite !drop_app_ge in * by lia. rewrite LS. apply Hq. rewrite !lookup_app_r in * by lia. now rewrite LS in Hj.
Qed.

(** ** After an insertion and after a removal *)

Lemma length_concat_le w L : weak w L -> (length (concat L) <= w * length L)%nat.
Proof. induction 1 as [|l L Hl _ IH]; [cbn; lia|]. cbn [concat length]. rewrite length_app. lia. Qed.

Section Rebalanced.
Context (p : PMA) (G : list (list cell)) (m lg : Z) (L : list (list cell)) (i : nat) (l : list cell) (index : Z).
Hypothesis HG : graph_fits G.
Hypothesis Hs : sized_PMA p m lg.
Hypothesis Hlay : lays p G (leaf lg) L.
Hypothesis HL : length L = leaves m lg.
Hypothesis Hl : L !! i = Some l.
Hypothesis Hindex : Z.of_nat (leaf lg * i) <= index < Z.of_nat (leaf lg * i) + Z.of_nat (leaf lg).
Hypothesis Hstrong : forall i' l', i' <> i -> L !! i' = Some l' -> (length l' < leaf lg)%nat.
Hypothesis Hdense : forall i', (2 * i')%nat <> i -> quiet L i'.
#[local] Abbreviation h := (Z.to_nat (m - lg)).

Lemma leaves_h : length L = (2 ^ h)%nat /\ (i < length L)%nat /\ 2 <= lg <= 5 /\ 2 <= m - lg <= 27 /\ 4 <= m <= 32 /\ (lg = Z.log2 m \/ lg = Z.log2 (m + 1)) /\ (length l <= leaf lg)%nat
  /\ Z.of_nat (leaf lg) = 2 ^ lg /\ 4 <= 2 ^ lg.
Proof.
  destruct Hs as [Sm Sl _ _ _ _ _ _ _ _]. pose proof (log_range m lg Sm Sl) as [[R1 R2] _]. pose proof (Z.pow_le_mono_r 2 2 lg).
  split; [apply Nat2Z.inj; rewrite HL, leaves_pow, pow2_Z by lia; f_equal; lia|]. split; [now apply lookup_lt_Some in Hl|].
  repeat split; auto; try lia; [|apply leaf_pow; lia]. destruct Hlay as [_ Hw _ _ _ _]. unfold weak in Hw. rewrite Forall_lookup in Hw. now apply Hw in Hl.
Qed.

Lemma count_0 : count L 0 i = length l.
Proof.
  unfold count, window. rewrite first_leaf_0. change (2 ^ 0)%nat with 1%nat. rewrite (drop_S L l i Hl). cbn. rewrite app_nil_r. reflexivity.
Qed.

Lemma count_all : count L h i = length (entries 0 G).
Proof.
  pose proof leaves_h as (H1 & H2 & _). unfold count, window, first_leaf. rewrite Nat.div_small by lia. cbn [Nat.mul]. rewrite drop_0, <- H1, firstn_all. destruct Hlay as [_ _ -> _ _ _]. reflexivity.
Qed.

Lemma count_small j : Z.of_nat (length (entries 0 G)) < 2 ^ 31 -> (j <= h)%nat -> 0 <= Z.of_nat (count L j i) < 2 ^ 53.
Proof.
  intros Hsz Hj. pose proof leaves_h as (H1 & H2 & _). pose proof (window_inside h j i Hj ltac:(lia)). pose proof (count_prefix L j i ltac:(lia)).
  assert (prefix L (first_leaf j i + 2 ^ j) <= prefix L (length L))%nat by (apply prefix_le; lia). unfold prefix at 2 in H3. rewrite firstn_all in H3.
  destruct Hlay as [_ _ He _ _ _]. rewrite He in H3. lia.
Qed.

Lemma density_at_ratio j : density_at lg L i j = ratio_of (Z.of_nat (count L j i)) (2 ^ (lg + Z.of_nat j)).
Proof. reflexivity. Qed.

(** The whole array has been changed. *)
Lemma strong_count j : (forall l', L !! i = Some l' -> (length l' < leaf lg)%nat) -> (j <= h)%nat -> Z.of_nat (count L j i) <= 2 ^ Z.of_nat j * (2 ^ lg - 1).
Proof.
  intros Hi Hj. pose proof leaves_h as (H1 & H2 & _ & _ & _ & _ & _ & E & H4). pose proof (window_inside h j i Hj ltac:(lia)) as W. rewrite <- H1 in W.
  destruct (span_split L j i W) as (A & B & EL & LA & LM). unfold count. rewrite <- pow2_Z, <- E, <- LM.
  assert (F : Forall (fun l => (length l <= leaf lg - 1)%nat) (window L j i)).
  { apply Forall_lookup. intros t l' Ht. assert (Hlt : L !! (length A + t)%nat = Some l') by (rewrite EL, lookup_app_r, Nat.add_comm, Nat.add_sub, lookup_app_l by (pose proof (lookup_lt_Some _ _ _ Ht); lia); exact Ht).
    destruct (Nat.eq_dec (length A + t) i) as [Ei|Ni]; [rewrite Ei in Hlt; specialize (Hi l' Hlt)|specialize (Hstrong _ _ Ni Hlt)]; lia. }
  clear - F E H4. induction F as [|l' M Hl' _ IH]; [cbn; lia|]. cbn [concat length]. rewrite length_app. nia.
Qed.

Lemma rebalance_insert : l <> [] -> Z.of_nat (length (entries 0 G)) < 2 ^ 31 ->
  exists p' m' lg' L', rebalance upper_density_bound (fun d b => SFleb b d) double_list p is_one index = Some p' /\ balanced p' G m' lg' L'.
Proof.
  intros Hne Hsz. pose proof leaves_h as (H1 & H2 & R1 & R2 & Rm & Rl & R5 & R6 & R7). pose proof Hs as [_ _ _ _ _ _ _ _ Su _].
  pose proof (proj1 HG) as Hok.
  destruct (rebalance_spec upper_density_bound (fun d b => SFleb b d) double_list p G m lg L (fun d => (bounds_of m lg d).(y)) i Hs Hok Hlay H1 H2 Su is_one index Hindex)
    as [(k & Hk & Hin & Hout & E)|[Hout E]]; rewrite E; clear E.
  - unfold out_at in Hin, Hout. pose proof (count_small k Hsz ltac:(lia)) as Ck. apply (upper_in m lg (Z.of_nat k) _ Rm Rl ltac:(lia) Ck) in Hin.
    destruct (Nat.ltb_spec 0 k) as [L0|L0].
    + assert (Lo : 2 ^ Z.of_nat k - 1 <= Z.of_nat (count L k i)).
      { pose proof (window_inside h (S (k - 1)) i ltac:(lia) ltac:(lia)) as W. rewrite <- H1 in W. apply count_S in W. replace (S (k - 1)) with k in W by lia.
        destruct (Nat.eq_dec k 1) as [->|N1].
        - change (1 - 1)%nat with 0%nat in W. destruct (is_one (density_at lg L i 0)) eqn:E1.
          + rewrite density_at_ratio in E1. rewrite is_one_spec in E1 by (try apply count_small; lia). apply Z.eqb_eq in E1. rewrite Z.add_0_r in E1. change (2 ^ Z.of_nat 1) with 2. lia.
          + specialize (Hout 0%nat ltac:(lia)). apply (upper_out m lg 0 _ Rm Rl ltac:(lia) (count_small 0 Hsz ltac:(lia))) in Hout. change (2 ^ Z.of_nat 1) with 2. change (2 ^ 0) with 1 in Hout. lia.
        - assert (J : ((if is_one (density_at lg L i 0) then 1 else 0) <= k - 1)%nat) by (destruct (is_one _); lia).
          specialize (Hout (k - 1)%nat ltac:(lia)). apply (upper_out m lg (Z.of_nat (k - 1)) _ Rm Rl ltac:(lia) (count_small (k - 1) Hsz ltac:(lia))) in Hout.
          replace (Z.of_nat k) with (Z.of_nat (k - 1) + 1) by lia. rewrite Z.pow_add_r by lia. lia. }
      destruct (redistribute_window p G m lg L i k HG Hs Hlay HL H2 ltac:(lia) ltac:(lia) Hstrong Hdense) as (p' & L' & R & B). eauto 6.
    + assert (k = O) as -> by lia. rewrite count_0 in Hin. change (2 ^ Z.of_nat 0) with 1 in Hin. exists p, m, lg, L. split; [reflexivity|]. split; auto.
      * apply Forall_lookup. intros j l' Hj. destruct (Nat.eq_dec j i) as [->|Nj]; [replace l' with l by congruence; lia|now apply (Hstrong j)].
      * intros j. destruct (Nat.eq_dec (2 * j) i) as [Ej|]; [|now apply Hdense]. intros X. rewrite Ej in X. congruence.
  - pose proof (Hout h ltac:(destruct (is_one _); lia)) as Hroot. unfold out_at in Hroot.
    apply (upper_out m lg (Z.of_nat h) _ Rm Rl ltac:(lia) (count_small h Hsz ltac:(lia))) in Hroot as [_ Hr]. specialize (Hr ltac:(lia)). rewrite count_all in Hr.
    assert (Hm : m < 32). { destruct (Z.eq_dec m 32) as [->|]; [|lia]. change (2 ^ 32) with 4294967296 in Hr. lia. }
    destruct (double_list_spec G HG p m lg L Hs Hm Hlay HL) as (p' & D & S & Y). destruct (resized_balanced G (m + 1) (Z.log2 (m + 1)) ltac:(lia) ltac:(auto)) as (B1 & B2 & B3).
    { destruct Hlay as [_ Hw He _ _ _]. rewrite Z.pow_add_r by lia. pose proof (cells_pow m lg ltac:(lia)). rewrite <- He. pose proof (length_concat_le (leaf lg) L Hw). rewrite HL in *. lia. }
    exists p', (m + 1), (Z.log2 (m + 1)), (resized G (m + 1) (Z.log2 (m + 1))). split; [exact D|]. now split.
Qed.

Lemma rebalance_remove : (length l < leaf lg)%nat -> (5 <= length (entries 0 G))%nat -> Z.of_nat (length (entries 0 G)) < 2 ^ 31 ->
  exists p' m' lg' L', rebalance lower_density_bound (fun d b => SFleb d b) half_list p is_zero index = Some p' /\ balanced p' G m' lg' L'.
Proof.
  intros Hne H5 Hsz. pose proof leaves_h as (H1 & H2 & R1 & R2 & Rm & Rl & R5 & R6 & R7). pose proof Hs as [_ _ _ _ _ _ _ _ _ Su].
  pose proof (proj1 HG) as Hok. assert (Hli : forall l', L !! i = Some l' -> (length l' < leaf lg)%nat) by (intros l' Hl'; replace l' with l by congruence; exact Hne).
  destruct (rebalance_spec lower_density_bound (fun d b => SFleb d b) half_list p G m lg L (fun d => (bounds_of m lg d).(x)) i Hs Hok Hlay H1 H2 Su is_zero index Hindex)
    as [(k & Hk & Hin & Hout & E)|[Hout E]]; rewrite E; clear E.
  - unfold out_at in Hin, Hout. pose proof (count_small k Hsz ltac:(lia)) as Ck. apply (lower_in m lg (Z.of_nat k) _ Rm Rl ltac:(lia) Ck) in Hin.
    pose proof (strong_count k Hli ltac:(lia)) as Hc. destruct (Nat.ltb_spec 0 k) as [L0|L0].
    + destruct (redistribute_window p G m lg L i k HG Hs Hlay HL H2 ltac:(lia) ltac:(lia) Hstrong Hdense) as (p' & L' & R & B). eauto 6.
    + assert (k = O) as -> by lia. exists p, m, lg, L. split; [reflexivity|]. split; auto.
      * apply Forall_lookup. intros j l' Hj. destruct (Nat.eq_dec j i) as [->|Nj]; [now apply Hli|now apply (Hstrong j)].
      * intros j. destruct (Nat.eq_dec (2 * j) i) as [Ej|]; [|now apply Hdense]. intros X. rewrite Ej in X. exfalso.
        assert (Ez : is_zero (density_at lg L i 0) = false) by (destruct (is_zero (density_at lg L i 0)); [lia|reflexivity]).
        rewrite density_at_ratio, is_zero_spec in Ez by (try apply count_small; lia). apply Z.eqb_neq in Ez. rewrite count_0 in Ez. replace l with (@nil cell) in Ez by congruence. now apply Ez.
  - pose proof (Hout h ltac:(destruct (is_zero _); lia)) as Hroot. unfold out_at in Hroot.
    apply (lower_out m lg (Z.of_nat h) _ Rm Rl ltac:(lia) (count_small h Hsz ltac:(lia))) in Hroot; [|lia]. rewrite count_all in Hroot.
    assert (Hm : 4 < m). { destruct (Z.eq_dec m 4) as [->|]; [|lia]. change (2 ^ 4) with 16 in Hroot. lia. }
    assert (Em : 2 ^ m = 2 ^ (m - 1) * 2) by (replace m with (m - 1 + 1) at 1 by lia; rewrite Z.pow_add_r by lia; lia).
    destruct (half_list_spec G HG p m lg L Hs Hm Hlay HL ltac:(lia)) as (p' & D & S & Y). destruct (resized_balanced G (m - 1) (Z.log2 (m - 1)) ltac:(lia) ltac:(auto) ltac:(lia)) as (B1 & B2 & B3).
    exists p', (m - 1), (Z.log2 (m - 1)), (resized G (m - 1) (Z.log2 (m - 1))). split; [exact D|]. now split.
Qed.
End Rebalanced.
