(* ===== verification/PmaUpdate.v ===== *)
(** * Insertion and removal at an index

    [insert] and [remove] put an element between two others of a leaf, or take one away; the
    vertices whose sentinels move, and the array, are kept in order. *)

From stdpp Require Import base option list.
From S2P Require Import Prelude Doubles Arrays Pma PmaSearch PmaSpread PmaDensity PmaBalance.
From Stdlib Require Import SpecFloat.
#[local] Open Scope Z_scope.

(** ** Where elements lie *)

Section Places.
Context (w : nat).
Implicit Types (L A B : list (list cell)) (l : list cell).

Lemma place_in A l B t : (t < length l)%nat -> place w (A ++ l :: B) (length (concat A) + t) = (w * length A + t)%nat.
Proof. intros H. rewrite place_app_r. cbn [place]. now rewrite (proj2 (Nat.ltb_lt _ _)) by exact H. Qed.

(** The leaf of an element. *)
Lemma place_split L k : (k < length (concat L))%nat ->
  exists A l1 c l2 B, L = A ++ (l1 ++ c :: l2) :: B /\ k = (length (concat A) + length l1)%nat /\ place w L k = (w * length A + length l1)%nat /\ concat L !! k = Some c.
Proof.
  revert k. induction L as [|l L IH]; intros k H; [cbn in H; lia|]. cbn [concat] in *. rewrite length_app in H. destruct (Nat.lt_ge_cases k (length l)) as [Lk|Lk].
  - destruct (lookup_lt_is_Some_2 l k Lk) as [c Hc]. exists [], (take k l), c, (drop (S k) l), L. cbn [app]. rewrite take_drop_middle by exact Hc.
    cbn [concat length app place]. rewrite length_take, Nat.min_l, lookup_app_l, (proj2 (Nat.ltb_lt _ _)) by lia. repeat split; auto; lia.
  - destruct (IH (k - length l)%nat ltac:(lia)) as (A & l1 & c & l2 & B & -> & E1 & E2 & E3). exists (l :: A), l1, c, l2, B. cbn [concat length app place]. rewrite length_app.
    rewrite (proj2 (Nat.ltb_ge _ _)), lookup_app_r by exact Lk. split; [reflexivity|]. split; [lia|]. split; [rewrite E2; lia|exact E3].
Qed.

(** Which elements lie before a cell. *)
Lemma place_cut A l1 l2 B k : weak w (A ++ (l1 ++ l2) :: B) -> (k < length (concat (A ++ (l1 ++ l2) :: B)))%nat ->
  (place w (A ++ (l1 ++ l2) :: B) k < w * length A + length l1)%nat <-> (k < length (concat A) + length l1)%nat.
Proof.
  intros [HA [Hl _]%Forall_cons_iff]%Forall_app Hk. destruct (Nat.lt_ge_cases k (length (concat A))) as [L1|L1].
  - rewrite place_app_l by exact L1. pose proof (place_bound w A k HA L1). lia.
  - replace k with (length (concat A) + (k - length (concat A)))%nat by lia. set (t := (k - length (concat A))%nat). rewrite place_app_r. cbn [place]. rewrite length_app in *.
    destruct (Nat.ltb_spec t (length l1 + length l2)); lia.
Qed.

(** After one more element in a leaf, and with one less. *)
Lemma place_put A l1 c l2 B k : place w (A ++ (l1 ++ c :: l2) :: B) k =
  let j := (length (concat A) + length l1)%nat in
  if (k <? j)%nat then place w (A ++ (l1 ++ l2) :: B) k else if (k <=? j + length l2)%nat then (w * length A + (k - length (concat A)))%nat
  else place w (A ++ (l1 ++ l2) :: B) (k - 1).
Proof.
  cbn zeta. destruct (Nat.ltb_spec k (length (concat A) + length l1)) as [L1|L1].
  - destruct (Nat.lt_ge_cases k (length (concat A))); [now rewrite !place_app_l|].
    replace k with (length (concat A) + (k - length (concat A)))%nat by lia. rewrite !place_in by (rewrite length_app; lia). reflexivity.
  - replace k with (length (concat A) + (k - length (concat A)))%nat at 1 by lia. rewrite place_app_r. cbn [place]. rewrite length_app. cbn [length].
    destruct (Nat.leb_spec k (length (concat A) + length l1 + length l2)) as [L2|L2].
    + rewrite (proj2 (Nat.ltb_lt _ _)) by lia. reflexivity.
    + rewrite (proj2 (Nat.ltb_ge _ _)) by lia. replace (k - 1)%nat with (length (concat A) + (k - 1 - length (concat A)))%nat by lia. rewrite place_app_r. cbn [place]. rewrite length_app.
      rewrite (proj2 (Nat.ltb_ge _ _)) by lia. do 3 f_equal. lia.
Qed.

(** The next element is at most two leaves on. *)
Lemma place_near L k : (0 < w)%nat -> strong w L -> dense L -> (S k < length (concat L))%nat -> (place w L (S k) / w <= place w L k / w + 2)%nat.
Proof.
  intros Hw Hs Hd Hk. pose proof (strong_weak w L Hs) as Hweak.
  destruct (place_split L k ltac:(lia)) as (A & l1 & c & l2 & B & EL & E1 & E2 & _). destruct (place_split L (S k) Hk) as (A' & l1' & c' & l2' & B' & EL' & E1' & E2' & _).
  assert (D : forall a l x, L = a ++ l :: x -> (length l < w)%nat).
  { intros a l x E. unfold strong in Hs. rewrite E in Hs. apply Forall_app in Hs as [_ Hs]. now apply Forall_cons_iff in Hs as [Hs _]. }
  pose proof (D _ _ _ EL) as D1. pose proof (D _ _ _ EL') as D2. rewrite length_app in D1, D2. cbn [length] in D1, D2.
  assert (Q : forall a t, (t < w)%nat -> ((w * a + t) / w)%nat = a) by (intros a t Ht; rewrite Nat.mul_comm, Nat.div_add_l, Nat.div_small by lia; lia).
  rewrite E2, E2', !Q by lia. destruct (Nat.le_gt_cases (length A') (length A + 2)) as [|G]; [assumption|exfalso].
  set (i := (S (length A) / 2 + S (length A) mod 2)%nat). assert (Hi : (length A < 2 * i <= length A + 2)%nat).
  { unfold i. pose proof (Nat.div_mod_eq (S (length A)) 2). pose proof (Nat.mod_upper_bound (S (length A)) 2). lia. }
  assert (LL : (2 * i < length L)%nat) by (rewrite EL', length_app; cbn [length]; lia).
  destruct (lookup_lt_is_Some_2 L (2 * i) LL) as [l El]. destruct l as [|c0 l].
  - apply Hd in El. rewrite EL', drop_app_le, concat_app in El by lia. apply app_eq_nil in El as [_ El]. cbn in El. destruct l1'; discriminate.
  - pose proof (take_drop_middle L (2 * i) _ El) as Em. set (T := take (2 * i) L) in *. set (D0 := drop (S (2 * i)) L) in *.
    assert (LT : length T = (2 * i)%nat) by (unfold T; rewrite length_take; lia).
    pose proof (place_in T (c0 :: l) D0 0 ltac:(cbn; lia)) as P. rewrite Em, !Nat.add_0_r, LT in P.
    assert (Hkt : (length (concat T) < length (concat L))%nat) by (rewrite <- Em, concat_app, length_app; cbn; lia).
    pose proof (proj1 (place_lt w L k (length (concat T)) Hweak ltac:(lia) Hkt) ltac:(rewrite P, E2; nia)).
    pose proof (proj1 (place_lt w L (length (concat T)) (S k) Hweak Hkt Hk) ltac:(rewrite P, E2'; nia)). lia.
Qed.
End Places.

(** ** Insertion *)

(** A leaf that is not full has a cell for one more. *)
Lemma cells_hole w A l1 l2 B : weak w A -> (length (l1 ++ l2) < w)%nat ->
  exists b, cells w (A ++ (l1 ++ l2) :: B) = (cells w A ++ l1) ++ l2 ++ null :: b /\ forall c, cells w (A ++ (l1 ++ c :: l2) :: B) = (cells w A ++ l1) ++ c :: l2 ++ b.
Proof.
  intros HA Hl. exists (repeat null (w - S (length (l1 ++ l2))) ++ cells w B). split.
  - rewrite cells_app, cells_cons. unfold pad. rewrite <- !app_assoc. do 3 f_equal. replace (w - length (l1 ++ l2))%nat with (S (w - S (length (l1 ++ l2)))) by lia. reflexivity.
  - intros c. rewrite cells_app, cells_cons. unfold pad. rewrite <- !app_assoc. cbn [app]. do 5 f_equal. rewrite !length_app. cbn [length]. f_equal. lia.
Qed.

(** [insert]'s writes. *)
Lemma put_spec p a x b v d : has_cells p (a ++ x :: b) ->
  (let? vs := wr (vals (edges p)) (Z.of_nat (length a)) v in let? ds := wr (dests (edges p)) (Z.of_nat (length a)) d in Some (set_edges p (set_arrays (edges p) vs ds)))
  = Some (with_cells p (a ++ (v, d) :: b) (nodes p)).
Proof.
  intros [Hv Hd]. rewrite Hv, Hd. pose proof (wr_fst a x (v, d) b _ eq_refl) as E1. pose proof (wr_snd a x (v, d) b _ eq_refl) as E2. cbn [fst snd] in E1, E2. rewrite E1, E2. reflexivity.
Qed.

Section InsertAt.
Context (p : PMA) (G : list (list cell)) (m lg : Z) (A : list (list cell)) (l1 l2 : list cell) (B : list (list cell)) (v d : Z) (posb : nat -> Z) (e : Z).
#[local] Abbreviation w := (leaf lg).
#[local] Abbreviation n := (length G).
#[local] Abbreviation L := (A ++ (l1 ++ l2) :: B).
#[local] Abbreviation L' := (A ++ (l1 ++ (v, d) :: l2) :: B).
#[local] Abbreviation j0 := (length (concat A) + length l1)%nat.
#[local] Abbreviation index := (w * length A + length l1)%nat.
Hypothesis HG : graph_fits G.
Hypothesis Hs : sized_PMA p m lg.
Hypothesis Hc : has_cells p (cells w L).
Hypothesis HL : length L = leaves m lg.
Hypothesis Hst : strong w L.
Hypothesis He : concat L' = entries 0 G.
Hypothesis Hj0 : (0 < j0)%nat.
Hypothesis Hfirst : L !! 0%nat <> Some [].
Hypothesis Hns : nodes_are (nodes p) n posb (deg_of G) e.
Hypothesis Hend : end_ok (N (edges p)) (posb (n - 1)%nat) e.
Hypothesis Hpos : forall k, (k < n)%nat ->
  posb k = Z.of_nat (if (head G k <? j0)%nat then place w L (head G k) else if (head G k =? j0)%nat then index else place w L (head G k - 1)).
Hypothesis Hdiff : match l2 with c :: _ => d <> SENT_VAL -> c.2 <> d | [] => True end.

Lemma leaf_room : weak w A /\ (length (l1 ++ l2) < w)%nat.
Proof.
  pose proof Hst as [HA [Hl _]%Forall_cons_iff]%Forall_app. split; [now apply strong_weak|exact Hl].
Qed.

Lemma weak_put : weak w L'.
Proof.
  pose proof Hst as [HA [Hl HB]%Forall_cons_iff]%Forall_app. apply Forall_app. split; [now apply strong_weak|]. constructor; [|now apply strong_weak].
  rewrite length_app in *. cbn [length]. lia.
Qed.

Lemma full_l2 : Forall full l2.
Proof.
  pose proof (entries_full 0 G (proj1 HG)) as F. rewrite <- He, concat_app in F. apply Forall_app in F as [_ F]. cbn [concat] in F. apply Forall_app in F as [F _].
  apply Forall_app in F as [_ F]. now apply Forall_cons_iff in F as [_ F].
Qed.

(** The new element is written; the others of the leaf have been moved. *)
Lemma insert_writes : exists ns, insert p (Z.of_nat index) d v = rebalance upper_density_bound (fun d b => SFleb b d) double_list (with_cells p (cells w L') ns) is_one (Z.of_nat index)
  /\ moved_to G n (deg_of G) e ns (S j0) (length l2) (fun t => Z.of_nat (index + 1 + t)) posb (N (edges p)).
Proof.
  destruct leaf_room as [HA Hl]. destruct (cells_hole w A l1 l2 B HA Hl) as (b & E1 & E2). rewrite E1 in Hc. specialize (E2 (v, d)).
  pose proof (length_arrays w A HA) as La. set (a := cells w A ++ l1) in *. assert (Ei : Z.of_nat index = Z.of_nat (length a)) by (unfold a; rewrite length_app, La; reflexivity).
  rewrite Ei, E2. unfold insert. rewrite (proj2 Hc). pose proof HG as (Hok & H2 & H32). pose proof full_l2 as F. destruct l2 as [|c l].
  - cbn [app] in *. rewrite (rd_snd a null b) by reflexivity. change (null.2 =? NULL_VAL) with true. cbv iota. rewrite <- (proj2 Hc), (put_spec p a null b) by exact Hc.
    exists (nodes p). split; [reflexivity|]. now apply moved_to_0.
  - cbn [app] in *. rewrite (rd_snd a c) by reflexivity. apply Forall_cons_iff in F as [Fc F]. rewrite (proj2 (Z.eqb_neq _ _) Fc).
    assert (Ed : negb (d =? SENT_VAL) && (c.2 =? d) = false) by (destruct (Z.eqb_spec d SENT_VAL); [reflexivity|]; cbn; apply Z.eqb_neq; now apply Hdiff). rewrite Ed.
    destruct (slide_right_spec G n (deg_of G) e Hok (conj eq_refl (conj H2 H32)) p a c l b (S j0) (fun t => Z.of_nat (index + 1 + t)) posb) as (ns & Es & Hm); auto.
    + destruct Hs as [_ _ SN _ _ _ _ _ _ _]. rewrite SN, <- E1, length_arrays by now apply strong_weak. rewrite HL, cells_pow; [reflexivity|].
      destruct Hs as [Sm Sl _ _ _ _ _ _ _ _]. pose proof (log_range m lg Sm Sl). lia.
    + intros t c' Hc'. rewrite <- He, concat_app. cbn [concat]. rewrite lookup_app_r, <- app_assoc, lookup_app_r by lia.
      replace (S j0 + t - length (concat A) - length l1)%nat with (S t) by lia. cbn [app]. rewrite lookup_S. change (c :: l ++ concat B) with ((c :: l) ++ concat B).
      rewrite lookup_app_l; [exact Hc'|]. now apply lookup_lt_Some in Hc'.
    + intros t Ht. unfold a. rewrite length_app, La. lia.
    + now apply moved_to_0.
    + rewrite Es. rewrite (put_spec (with_cells p (a ++ null :: c :: l ++ b) ns) a null (c :: l ++ b)) by (split; reflexivity). exists ns. split; [reflexivity|exact Hm].
Qed.

Lemma insert_lays ns : moved_to G n (deg_of G) e ns (S j0) (length l2) (fun t => Z.of_nat (index + 1 + t)) posb (N (edges p)) -> lays (with_cells p (cells w L') ns) G w L'.
Proof.
  intros Hm. pose proof HG as (Hok & H2 & H32). pose proof Hs as [Sm Sl SN _ _ _ _ _ _ _]. pose proof (log_range m lg Sm Sl) as [[R1 R2] _].
  split; [split; reflexivity|exact weak_put|exact He| | |].
  - cbn [with_cells edges set_arrays N]. rewrite SN, <- (cells_pow m lg), <- HL by lia. do 2 f_equal. rewrite !length_app. reflexivity.
  - destruct A; [|exact Hfirst]. cbn. destruct l1; discriminate.
  - cbn [with_cells edges set_arrays N nodes]. assert (HN1 : 1 <= N (edges p) < 2 ^ 64) by (rewrite SN; pose proof (pow_lt_64 m); lia).
    apply (moved_nodes G HG ns e _ _ _ _ _ _ HN1 Hm Hend).
    intros k Hk. unfold pos_of, repos. rewrite (place_put w A l1 (v, d) l2 B). cbn zeta. rewrite Hpos by exact Hk. destruct (Nat.ltb_spec 0 k) as [Lk|Lk].
    + nat_cmps; cbn [andb]; first [reflexivity|apply f_equal; lia].
    + replace k with O by lia. rewrite head_0. rewrite (proj2 (Nat.ltb_lt _ _)) by exact Hj0. reflexivity.
Qed.

Lemma insert_at : dense L -> l1 ++ l2 <> [] -> Z.of_nat (length (entries 0 G)) < 2 ^ 31 ->
  exists p' m' lg' L'', insert p (Z.of_nat index) d v = Some p' /\ balanced p' G m' lg' L''.
Proof.
  intros Hd Hne Hsz. destruct insert_writes as (ns & -> & Hm). apply insert_lays in Hm. destruct leaf_room as [HA Hl]. rewrite length_app in Hl.
  assert (Lk : forall i, i <> length A -> L' !! i = L !! i).
  { intros i Hi. destruct (Nat.lt_ge_cases i (length A)); [now rewrite !lookup_app_l|]. rewrite !lookup_app_r by lia. destruct (i - length A)%nat eqn:Ei; [lia|reflexivity]. }
  apply (rebalance_insert (with_cells p (cells w L') ns) G m lg L' (length A) (l1 ++ (v, d) :: l2) (Z.of_nat index)); auto.
  - apply (sized_same p); [now eexists _, ns|exact Hs].
  - rewrite <- HL, !length_app. reflexivity.
  - now apply list_lookup_middle.
  - lia.
  - intros i' l' Hi Hl'. rewrite Lk in Hl' by exact Hi. unfold strong in Hst. rewrite Forall_lookup in Hst. now apply Hst in Hl'.
  - intros i Hi El. rewrite Lk in El by exact Hi. apply Hd in El. destruct (Nat.lt_ge_cases (2 * i) (length A)) as [L1|L1].
    + exfalso. rewrite drop_app_le, concat_app in El by lia. apply app_eq_nil in El as [_ El]. cbn [concat] in El. apply app_eq_nil in El as [El _]. contradiction.
    + rewrite !drop_app_ge in * by lia. destruct (2 * i - length A)%nat eqn:Ei; [lia|]. exact El.
  - destruct l1; discriminate.
Qed.
End InsertAt.

(** ** Removal *)

Section RemoveAt.
Context (p : PMA) (G : list (list cell)) (m lg : Z) (A : list (list cell)) (l1 l2 : list cell) (B : list (list cell)) (c : cell) (posb : nat -> Z) (e : Z).
#[local] Abbreviation w := (leaf lg).
#[local] Abbreviation n := (length G).
#[local] Abbreviation L := (A ++ (l1 ++ c :: l2) :: B).
#[local] Abbreviation L' := (A ++ (l1 ++ l2) :: B).
#[local] Abbreviation j0 := (length (concat A) + length l1)%nat.
#[local] Abbreviation index := (w * length A + length l1)%nat.
Hypothesis HG : graph_fits G.
Hypothesis Hs : sized_PMA p m lg.
Hypothesis Hc : has_cells p (cells w L).
Hypothesis HL : length L = leaves m lg.
Hypothesis Hst : strong w L.
Hypothesis He : concat L' = entries 0 G.
Hypothesis Hfirst : L' !! 0%nat <> Some [].
Hypothesis Hj0 : (0 < j0)%nat.
Hypothesis Hns : nodes_are (nodes p) n posb (deg_of G) e.
Hypothesis Hend : end_ok (N (edges p)) (posb (n - 1)%nat) e.
Hypothesis Hpos : forall k, (k < n)%nat -> posb k = Z.of_nat (if (head G k <? j0)%nat then place w L (head G k) else place w L (S (head G k))).

Lemma strong_drop : weak w A /\ (S (length l1 + length l2) < w)%nat /\ strong w L'.
Proof.
  pose proof Hst as [HA [Hl HB]%Forall_cons_iff]%Forall_app. rewrite length_app in Hl. cbn [length] in Hl. split; [now apply strong_weak|]. split; [lia|].
  apply Forall_app. split; [exact HA|]. constructor; [rewrite length_app; lia|exact HB].
Qed.

Lemma remove_writes : exists ns, remove p (Z.of_nat index) = rebalance lower_density_bound (fun d b => SFleb d b) half_list (with_cells p (cells w L') ns) is_zero (Z.of_nat index)
  /\ moved_to G n (deg_of G) e ns j0 (length l2) (fun t => Z.of_nat (index + t)) posb (N (edges p)).
Proof.
  destruct strong_drop as (HA & Hl & Hst'). destruct (cells_hole w A l1 l2 B HA ltac:(rewrite length_app; lia)) as (b & E1 & E2). specialize (E2 c).
  (* the hole is followed by another one *)
  assert (Eb : exists b', b = null :: b').
  { apply (f_equal (drop (length (cells w A ++ l1 ++ l2)))) in E1. rewrite cells_app, cells_cons in E1. unfold pad in E1.
    assert (E3 : forall x, drop (length (cells w A ++ l1 ++ l2)) ((cells w A ++ l1) ++ l2 ++ x) = x) by (intros x; rewrite !app_assoc, <- (app_assoc _ l1 l2); apply drop_app_length).
    rewrite E3 in E1. replace (cells w A ++ ((l1 ++ l2) ++ repeat null (w - length (l1 ++ l2))) ++ cells w B) with ((cells w A ++ l1) ++ l2 ++ repeat null (w - length (l1 ++ l2)) ++ cells w B) in E1 by (rewrite <- !app_assoc; reflexivity).
    rewrite E3, length_app in E1. replace (w - (length l1 + length l2))%nat with (S (S (w - (length l1 + length l2) - 2))) in E1 by lia. cbn [repeat app] in E1. injection E1 as <-. eauto. }
  destruct Eb as [b' ->]. rewrite E2 in Hc. pose proof (length_arrays w A HA) as La. set (a := cells w A ++ l1) in *.
  assert (Ei : Z.of_nat index = Z.of_nat (length a)) by (unfold a; rewrite length_app, La; reflexivity). rewrite Ei, E1. unfold remove. pose proof HG as (Hok & H2 & H32).
  assert (HF : Forall full l2).
  { pose proof (entries_full 0 G Hok) as F. rewrite <- He, concat_app in F. apply Forall_app in F as [_ F]. cbn [concat] in F. apply Forall_app in F as [F _]. now apply Forall_app in F as [_ F]. }
  assert (HN : N (edges p) = Z.of_nat (length (a ++ c :: l2 ++ null :: b'))).
  { destruct Hs as [Sm Sl SN _ _ _ _ _ _ _]. rewrite SN, <- E2, length_arrays by now apply strong_weak. rewrite HL, cells_pow; [reflexivity|]. pose proof (log_range m lg Sm Sl). lia. }
  destruct (slide_left_spec G n (deg_of G) e Hok (conj eq_refl (conj H2 H32)) j0 (fun t => Z.of_nat (index + t)) posb l2 p a c b' 0 (Z.to_nat (N (edges p)))) as (ns & Es & Hm); auto.
  - rewrite Nat.add_0_r. intros t c' Hc'. rewrite <- He, concat_app. cbn [concat]. rewrite lookup_app_r, <- app_assoc, lookup_app_r by lia.
    replace (j0 + t - length (concat A) - length l1)%nat with t by lia. rewrite lookup_app_l; [exact Hc'|]. now apply lookup_lt_Some in Hc'.
  - intros t Ht. rewrite Nat.add_0_l. unfold a. rewrite length_app, La. lia.
  - now apply moved_to_0.
  - rewrite HN, Nat2Z.id, length_app. cbn [length]. rewrite length_app. cbn [length]. lia.
  - rewrite Es. exists ns. split; [reflexivity|exact Hm].
Qed.

Lemma remove_lays ns : moved_to G n (deg_of G) e ns j0 (length l2) (fun t => Z.of_nat (index + t)) posb (N (edges p)) -> lays (with_cells p (cells w L') ns) G w L'.
Proof.
  intros Hm. pose proof HG as (Hok & H2 & H32). pose proof Hs as [Sm Sl SN _ _ _ _ _ _ _]. pose proof (log_range m lg Sm Sl) as [[R1 R2] _]. destruct strong_drop as (HA & Hl & Hst').
  split; [split; reflexivity|now apply strong_weak|exact He| |exact Hfirst|].
  - cbn [with_cells edges set_arrays N]. rewrite SN, <- (cells_pow m lg), <- HL by lia. do 2 f_equal. rewrite !length_app. reflexivity.
  - cbn [with_cells edges set_arrays N nodes]. assert (HN1 : 1 <= N (edges p) < 2 ^ 64) by (rewrite SN; pose proof (pow_lt_64 m); lia).
    apply (moved_nodes G HG ns e _ _ _ _ _ _ HN1 Hm Hend). intros k Hk. unfold pos_of, repos. rewrite Hpos, !(place_put w A l1 c l2 B) by exact Hk. cbn zeta.
    destruct (Nat.ltb_spec 0 k) as [Lk|Lk]; cbn [andb].
    + destruct (Nat.ltb_spec (head G k) j0) as [L1|L1]; [nat_cmps; reflexivity|]. rewrite Nat.sub_succ, Nat.sub_0_r.
      destruct (Nat.leb_spec (S (head G k)) (j0 + length l2)); nat_cmps; cbn [andb]; try reflexivity. 
      replace (head G k) with (length (concat A) + (head G k - length (concat A)))%nat at 1 by lia. rewrite place_in by (rewrite length_app; lia). apply f_equal. lia.
    + replace k with O by lia. rewrite head_0. rewrite (proj2 (Nat.ltb_lt _ _)) by exact Hj0. reflexivity.
Qed.

Lemma remove_at : dense L -> (5 <= length (entries 0 G))%nat -> Z.of_nat (length (entries 0 G)) < 2 ^ 31 ->
  exists p' m' lg' L'', remove p (Z.of_nat index) = Some p' /\ balanced p' G m' lg' L''.
Proof.
  intros Hd H5 Hsz. destruct remove_writes as (ns & -> & Hm). apply remove_lays in Hm. destruct strong_drop as (HA & Hl & Hst').
  assert (Lk : forall i, i <> length A -> L' !! i = L !! i).
  { intros i Hi. destruct (Nat.lt_ge_cases i (length A)); [now rewrite !lookup_app_l|]. rewrite !lookup_app_r by lia. destruct (i - length A)%nat eqn:Ei; [lia|reflexivity]. }
  apply (rebalance_remove (with_cells p (cells w L') ns) G m lg L' (length A) (l1 ++ l2) (Z.of_nat index)); auto.
  - apply (sized_same p); [now eexists _, ns|exact Hs].
  - rewrite <- HL, !length_app. reflexivity.
  - now apply list_lookup_middle.
  - lia.
  - intros i' l' Hi Hl'. unfold strong in Hst'. rewrite Forall_lookup in Hst'. now apply Hst' in Hl'.
  - intros i Hi El. rewrite Lk in El by exact Hi. apply Hd in El. destruct (Nat.lt_ge_cases (2 * i) (length A)) as [L1|L1].
    + exfalso. rewrite drop_app_le, concat_app in El by lia. apply app_eq_nil in El as [_ El]. cbn [concat] in El. apply app_eq_nil in El as [El _]. destruct l1; discriminate.
    + rewrite !drop_app_ge in * by lia. destruct (2 * i - length A)%nat eqn:Ei; [lia|]. exact El.
  - rewrite length_app. lia.
Qed.
End RemoveAt.
