(* ===== verification/PmaGraph.v ===== *)
(** * A packed memory array as a graph

    A packed memory array stores, for each vertex, the edges sorted by destination.  The
    operations on edges keep it so, find what is there, and do what the reference functions
    on sorted lists of edges do. *)

From stdpp Require Import base option list.
From S2P Require Import Prelude Doubles Arrays Pma PmaSearch PmaSpread PmaDensity PmaBalance PmaUpdate.
From Stdlib Require Import SpecFloat Sorted.
#[local] Open Scope Z_scope.

(** ** The reference *)

Definition sorted_edges (es : list cell) : Prop := StronglySorted (fun a b => a.2 < b.2) es.

Fixpoint put_edge (v d : Z) (es : list cell) : list cell :=
  match es with
  | [] => [(v, d)]
  | c :: es => if c.2 <? d then c :: put_edge v d es else if c.2 =? d then (v, d) :: es else (v, d) :: c :: es
  end.
Definition drop_edge (d : Z) (es : list cell) : list cell := List.filter (fun c => negb (c.2 =? d)) es.
Fixpoint edge_value (d : Z) (es : list cell) : option Z :=
  match es with [] => None | c :: es => if c.2 =? d then Some c.1 else edge_value d es end.

Section Reference.
Context (es1 es2 : list cell) (d : Z).
Hypothesis H1 : Forall (fun c => c.2 < d) es1.
Hypothesis H2 : Forall (fun c => d < c.2) es2.

Lemma put_edge_new v : put_edge v d (es1 ++ es2) = es1 ++ (v, d) :: es2.
Proof.
  clear - H1 H2. induction H1 as [|c es Hc _ IH]; cbn [app put_edge].
  - destruct H2 as [|c es Hc _]; [reflexivity|]. cbn [put_edge]. destruct (Z.ltb_spec c.2 d); [lia|]. destruct (Z.eqb_spec c.2 d); [lia|reflexivity].
  - rewrite (proj2 (Z.ltb_lt _ _)) by exact Hc. now rewrite (IH (Forall_inv_tail H1)).
Qed.

Lemma put_edge_old v v' : put_edge v d (es1 ++ (v', d) :: es2) = es1 ++ (v, d) :: es2.
Proof.
  clear H2. induction H1 as [|c es Hc _ IH]; cbn [app put_edge snd].
  - now rewrite Z.ltb_irrefl, Z.eqb_refl.
  - rewrite (proj2 (Z.ltb_lt _ _)) by exact Hc. now rewrite (IH (Forall_inv_tail H1)).
Qed.

Lemma drop_edge_none : drop_edge d (es1 ++ es2) = es1 ++ es2.
Proof.
  apply forallb_filter_id, forallb_forall. intros c [Hc|Hc]%in_app_iff; [eapply List.Forall_forall in H1|eapply List.Forall_forall in H2]; eauto; cbn in *; destruct (Z.eqb_spec c.2 d); auto; lia.
Qed.

Lemma drop_edge_some v : drop_edge d (es1 ++ (v, d) :: es2) = es1 ++ es2.
Proof.
  unfold drop_edge. rewrite List.filter_app. cbn [List.filter snd]. rewrite Z.eqb_refl. cbn [negb]. rewrite <- List.filter_app. exact drop_edge_none.
Qed.

Lemma edge_value_none : edge_value d (es1 ++ es2) = None.
Proof.
  clear - H1 H2. induction H1 as [|c es Hc _ IH]; cbn [app edge_value].
  - induction H2 as [|c es Hc _ IH]; [reflexivity|]. cbn [edge_value]. destruct (Z.eqb_spec c.2 d); [lia|exact (IH (Forall_inv_tail H2))].
  - destruct (Z.eqb_spec c.2 d); [lia|exact (IH (Forall_inv_tail H1))].
Qed.

Lemma edge_value_some v : edge_value d (es1 ++ (v, d) :: es2) = Some v.
Proof.
  clear - H1. induction H1 as [|c es Hc _ IH]; cbn [app edge_value snd].
  - now rewrite Z.eqb_refl.
  - destruct (Z.eqb_spec c.2 d); [lia|exact (IH (Forall_inv_tail H1))].
Qed.
End Reference.

(** ** A vertex of a balanced array *)

Section Vertex.
Context (p : PMA) (G : list (list cell)) (m lg : Z) (L : list (list cell)) (src : nat) (es : list cell).
#[local] Abbreviation w := (leaf lg).
#[local] Abbreviation n := (length G).
#[local] Abbreviation k0 := (head G src).
#[local] Abbreviation lo := (place w L k0).
#[local] Abbreviation hi := (place w L (head G (S src))).
Hypothesis HG : graph_fits G.
Hypothesis Hb : balanced p G m lg L.
Hypothesis Hes : G !! src = Some es.
Hypothesis Hsrc : (S src < n)%nat.
Hypothesis Hsorted : sorted_edges es.

Lemma balanced_facts : weak w L /\ concat L = entries 0 G /\ has_cells p (cells w L) /\ 2 <= lg <= 5 /\ Z.of_nat w = 2 ^ lg /\ (0 < w)%nat /\ N (edges p) = Z.of_nat (w * length L)
  /\ Forall full (concat L) /\ N (edges p) = 2 ^ m /\ 4 <= m <= 32 /\ loglogN (edges p) = lg.
Proof.
  destruct Hb as [[Sm Sl SN _ _ Ell _ _ _ _] [Hc Hw He HN _ _] _ _ _]. pose proof (log_range m lg Sm Sl) as [[R1 R2] _]. pose proof (leaf_pow lg ltac:(lia)). pose proof (Z.pow_pos_nonneg 2 lg).
  repeat split; auto; try apply Hc; try lia. rewrite He. apply entries_full, HG.
Qed.

Lemma next_head : head G (S src) = (k0 + 1 + length es)%nat.
Proof. rewrite (head_S _ _ _ Hes). lia. Qed.

Lemma entry_at t c : es !! t = Some c -> entries 0 G !! (k0 + 1 + t)%nat = Some c.
Proof.
  intros H. rewrite (entries_split G src es Hes). assert (E : length (entries 0 (take src G)) = k0) by apply length_entries.
  rewrite lookup_app_r by lia. replace (k0 + 1 + t - length (entries 0 (take src G)))%nat with (S t) by lia. rewrite lookup_S, lookup_app_l; [exact H|]. now apply lookup_lt_Some in H.
Qed.

Lemma heads_in : (k0 < length (concat L))%nat /\ (head G (S src) < length (concat L))%nat.
Proof. destruct balanced_facts as (_ & -> & _). split; apply head_lt_size; lia. Qed.

(** Reading an element at its place. *)
Lemma read_place k c : concat L !! k = Some c -> rd (dests (edges p)) (Z.of_nat (place w L k)) = Some c.2 /\ rd (vals (edges p)) (Z.of_nat (place w L k)) = Some c.1.
Proof.
  intros H. destruct balanced_facts as (Hw & _ & [Hv Hd] & _). pose proof (lookup_lt_Some _ _ _ H). rewrite <- (cells_place w L k Hw) in H by assumption.
  unfold rd. rewrite Hv, Hd, (proj2 (Z.leb_le _ _)), Nat2Z.id, !list_lookup_fmap, H by lia. auto.
Qed.

(** Every cell up to the next sentinel can be read. *)
Lemma read_cell i : (i < w * length L)%nat -> exists c, cells w L !! i = Some c /\ rd (dests (edges p)) (Z.of_nat i) = Some c.2 /\ rd (vals (edges p)) (Z.of_nat i) = Some c.1.
Proof.
  intros H. destruct balanced_facts as (Hw & _ & [Hv Hd] & _). destruct (lookup_lt_is_Some_2 (cells w L) i) as [c Hc]; [now rewrite length_arrays|].
  exists c. split; [exact Hc|]. unfold rd. rewrite Hv, Hd, (proj2 (Z.leb_le _ _)), Nat2Z.id, !list_lookup_fmap, Hc by lia. auto.
Qed.

Lemma hi_in : (lo < hi < w * length L)%nat.
Proof.
  destruct balanced_facts as (Hw & _). destruct heads_in as [H1 H2]. pose proof next_head. split; [|now apply place_bound]. apply place_lt; auto. lia.
Qed.

(** The elements between the two sentinels are the edges. *)
Lemma between i c : (lo < i < hi)%nat -> cells w L !! i = Some c -> full c -> exists t, es !! t = Some c /\ i = place w L (k0 + 1 + t).
Proof.
  intros Hi Hc Hf. destruct balanced_facts as (Hw & He & _). destruct heads_in as [H1 H2]. destruct (cells_full w L i c Hw Hc Hf) as (k & Hk & Ek & Eck).
  rewrite <- Ek in Hi. destruct Hi as [Hi1 Hi2]. apply place_lt in Hi1, Hi2; auto. rewrite next_head in Hi2.
  assert (Hlt : (k - k0 - 1 < length es)%nat) by lia. destruct (lookup_lt_is_Some_2 es _ Hlt) as [c' Hc']. exists (k - k0 - 1)%nat.
  pose proof (entry_at _ _ Hc') as E. replace (k0 + 1 + (k - k0 - 1))%nat with k in * by lia. rewrite <- He in E. split; [congruence|now symmetry].
Qed.

Lemma edge_place t : (t < length es)%nat -> (lo < place w L (k0 + 1 + t) < hi)%nat.
Proof.
  intros Ht. destruct balanced_facts as (Hw & _). destruct heads_in as [H1 H2]. pose proof next_head. split; apply place_lt; auto; lia.
Qed.

Lemma edges_ok t c : es !! t = Some c -> 0 <= c.2 < SENT_VAL.
Proof. intros H. destruct HG as (Hok & _). unfold graph_ok in Hok. rewrite Forall_lookup in Hok. apply Hok in Hes. rewrite Forall_lookup in Hes. now apply Hes in H. Qed.

Lemma sorted_lookup i j a b : (i < j)%nat -> es !! i = Some a -> es !! j = Some b -> a.2 < b.2.
Proof.
  clear - Hsorted. revert i j. induction Hsorted as [|c l _ IH HF]; intros i j Hij Ha Hb; [discriminate|]. destruct j as [|j]; [lia|]. rewrite lookup_S in Hb. destruct i as [|i].
  - injection Ha as ->. rewrite Forall_lookup in HF. exact (HF j b Hb).
  - rewrite lookup_S in Ha. apply StronglySorted_inv in Hsorted as [Hl _]. apply (IH Hl i j); auto. lia.
Qed.

(** *** Searching *)

Definition dest_at (i : Z) : Z := default 0 (rd (dests (edges p)) i).

Lemma dest_at_cell i c : cells w L !! i = Some c -> dest_at (Z.of_nat i) = c.2.
Proof.
  intros H. pose proof (lookup_lt_Some _ _ _ H). destruct balanced_facts as (Hw & _). rewrite length_arrays in H0 by exact Hw.
  destruct (read_cell i H0) as (c' & Hc' & E & _). unfold dest_at. rewrite E. cbn. congruence.
Qed.

(** The cell a search ends at: the edge, or where it belongs. *)
Inductive lands (dest : Z) (r : nat) : Prop :=
| lands_at t v : es !! t = Some (v, dest) -> r = place w L (k0 + 1 + t) -> lands dest r
| lands_between A l1 l2 B t : L = A ++ (l1 ++ l2) :: B -> r = (w * length A + length l1)%nat -> l1 ++ l2 <> [] -> (length (concat A) + length l1 = k0 + 1 + t)%nat -> (t <= length es)%nat ->
    (forall u c, (u < t)%nat -> es !! u = Some c -> c.2 < dest) -> (forall u c, (t <= u)%nat -> es !! u = Some c -> dest < c.2) -> dest_at (Z.of_nat r) <> dest -> lands dest r.

(** A cell at or behind an element divides its leaf. *)
Lemma cell_split r : (0 < r)%nat -> (r < w * length L)%nat -> dest_at (Z.of_nat r) <> NULL_VAL \/ dest_at (Z.of_nat (r - 1)) <> NULL_VAL ->
  exists A l1 l2 B, L = A ++ (l1 ++ l2) :: B /\ r = (w * length A + length l1)%nat /\ l1 ++ l2 <> [].
Proof.
  intros Hr0 Hr Hd. destruct balanced_facts as (Hw & _ & _ & _ & _ & Wp & _). pose proof Hb as [_ _ _ Hst _].
  assert (At : forall i, (i < w * length L)%nat -> dest_at (Z.of_nat i) <> NULL_VAL -> exists A l1 c l2 B, L = A ++ (l1 ++ c :: l2) :: B /\ i = (w * length A + length l1)%nat).
  { intros i Hi Ni. destruct (read_cell i Hi) as (c & Hc & _). rewrite (dest_at_cell i c Hc) in Ni. destruct (cells_full w L i c Hw Hc Ni) as (k & Hk & Ek & _).
    destruct (place_split w L k Hk) as (A & l1 & c' & l2 & B & E1 & _ & E3 & _). exists A, l1, c', l2, B. split; [exact E1|]. congruence. }
  destruct Hd as [Hd|Hd].
  - destruct (At r Hr Hd) as (A & l1 & c & l2 & B & E1 & E2). exists A, l1, (c :: l2), B. repeat split; auto. destruct l1; discriminate.
  - destruct (At (r - 1)%nat ltac:(lia) Hd) as (A & l1 & c & l2 & B & E1 & E2). exists A, (l1 ++ [c]), l2, B. rewrite <- app_assoc, length_app. cbn [app length]. repeat split; auto; [lia|].
    destruct l1; discriminate.
Qed.

Lemma small_dest x : 0 <= x < SENT_VAL -> x <> NULL_VAL.
Proof. clear. unfold SENT_VAL. lia. Qed.

Lemma dest_place k c : concat L !! k = Some c -> dest_at (Z.of_nat (place w L k)) = c.2.
Proof. intros H. unfold dest_at. now rewrite (proj1 (read_place k c H)). Qed.

Lemma dest_full k : (k < length (concat L))%nat -> dest_at (Z.of_nat (place w L k)) <> NULL_VAL.
Proof.
  intros H. destruct balanced_facts as (_ & _ & _ & _ & _ & _ & _ & HF & _). destruct (lookup_lt_is_Some_2 _ _ H) as [c Hc].
  rewrite (dest_place k c Hc). rewrite Forall_lookup in HF. exact (HF k c Hc).
Qed.

Lemma dest_hi : dest_at (Z.of_nat hi) = SENT_VAL.
Proof. destruct balanced_facts as (_ & He & _). rewrite (dest_place _ (sentinel (S src))); [reflexivity|]. rewrite He. apply entries_head. lia. Qed.

Lemma dest_edge t c : es !! t = Some c -> dest_at (Z.of_nat (place w L (k0 + 1 + t))) = c.2.
Proof. intros H. destruct balanced_facts as (_ & He & _). apply dest_place. rewrite He. now apply entry_at. Qed.

Lemma dest_cell i : 0 <= i <= Z.of_nat hi -> exists c, cells w L !! Z.to_nat i = Some c /\ dest_at i = c.2 /\ rd (dests (edges p)) i = Some (dest_at i).
Proof.
  intros H. pose proof hi_in. destruct (read_cell (Z.to_nat i) ltac:(lia)) as (c & Hc & E & _). rewrite Z2Nat.id in E by lia.
  exists c. unfold dest_at. rewrite E. auto.
Qed.

Lemma edge_cell i : Z.of_nat lo < i < Z.of_nat hi -> dest_at i <> NULL_VAL -> exists t c, es !! t = Some c /\ i = Z.of_nat (place w L (k0 + 1 + t)) /\ dest_at i = c.2.
Proof.
  intros Hi Ni. destruct (dest_cell i ltac:(lia)) as (c & Hc & Ec & _). rewrite Ec in Ni. destruct (between (Z.to_nat i) c ltac:(lia) Hc Ni) as (t & Ht & Et).
  exists t, c. repeat split; auto. lia.
Qed.

Lemma dest_packed i : Z.of_nat lo <= i < Z.of_nat hi -> dest_at i = NULL_VAL -> (i + 1) mod 2 ^ lg <> 0 -> dest_at (i + 1) = NULL_VAL.
Proof.
  intros Hi Hn Hm. destruct balanced_facts as (Hw & _ & _ & _ & Ew & Wp & _ & HF & _). destruct (dest_cell i ltac:(lia)) as (c & Hc & Ec & _). destruct (dest_cell (i + 1) ltac:(lia)) as (c' & Hc' & Ec' & _).
  rewrite Ec'. apply (cells_packed w L (Z.to_nat i) c c' Wp Hw Hc); auto; [congruence| |now replace (S (Z.to_nat i)) with (Z.to_nat (i + 1)) by lia].
  intros X. apply Hm. rewrite <- Ew. replace (i + 1) with (Z.of_nat (S (Z.to_nat i))) by lia. rewrite <- Nat2Z.inj_mod, X. reflexivity.
Qed.

Lemma dest_sorted i j : Z.of_nat lo < i < j -> j < Z.of_nat hi -> dest_at i <> NULL_VAL -> dest_at j <> NULL_VAL -> dest_at i < dest_at j.
Proof.
  intros Hij Hj Ni Nj. destruct balanced_facts as (Hw & _). pose proof heads_in. pose proof next_head.
  destruct (edge_cell i ltac:(lia) Ni) as (t & c & Hc & Et & ->). destruct (edge_cell j ltac:(lia) Nj) as (t' & c' & Hc' & Et' & ->).
  apply (sorted_lookup t t'); auto. rewrite Et, Et' in Hij. pose proof (lookup_lt_Some _ _ _ Hc). pose proof (lookup_lt_Some _ _ _ Hc').
  assert (X : (place w L (k0 + 1 + t) < place w L (k0 + 1 + t'))%nat) by lia. apply place_lt in X; auto; lia.
Qed.

Lemma dest_near : exists j, Z.of_nat lo < j <= Z.of_nat hi /\ dest_at j <> NULL_VAL /\ j / 2 ^ lg <= Z.of_nat lo / 2 ^ lg + 2.
Proof.
  destruct balanced_facts as (Hw & _ & _ & _ & Ew & Wp & _). pose proof heads_in as [I1 I2]. pose proof next_head. pose proof Hb as [_ _ _ Hst Hd].
  exists (Z.of_nat (place w L (S k0))). assert (B1 : (lo < place w L (S k0))%nat) by (apply place_lt; auto; lia).
  assert (B2 : (place w L (S k0) <= hi)%nat).
  { destruct (Nat.eq_dec (S k0) (head G (S src))) as [->|]; [lia|]. apply Nat.lt_le_incl, place_lt; auto; lia. }
  split; [lia|]. split; [apply dest_full; lia|]. pose proof (place_near w L k0 Wp Hst Hd ltac:(lia)). rewrite <- Ew, <- !Nat2Z.inj_div. lia.
Qed.

Lemma found_lands dest r : 0 <= dest < SENT_VAL -> found dest_at (Z.of_nat lo) (Z.of_nat hi) dest r -> lands dest (Z.to_nat r).
Proof.
  intros Hdest [Hr Hc]. destruct balanced_facts as (Hw & _). destruct heads_in as [I1 I2]. pose proof next_head as Nh. pose proof hi_in as Hhi.
  destruct Hc as [[Hlt Hd']|(Hbel & Hab & Hnear)].
  - destruct (edge_cell r ltac:(lia)) as (t & [v d] & Ht & Et & Edt); [rewrite Hd'; now apply small_dest|]. cbn in Edt. apply (lands_at dest _ t v); [congruence|lia].
  - destruct (cell_split (Z.to_nat r) ltac:(lia) ltac:(lia)) as (A & l1 & l2 & B & EL & E1 & Ne).
    { rewrite Z2Nat.id by lia. replace (Z.of_nat (Z.to_nat r - 1)) with (r - 1) by lia. exact Hnear. }
    assert (Cut : forall k, (k < length (concat L))%nat -> (place w L k < Z.to_nat r)%nat <-> (k < length (concat A) + length l1)%nat).
    { intros k Hk. rewrite E1. rewrite EL in Hw, Hk |- *. now apply place_cut. }
    pose proof (proj1 (Cut k0 I1) ltac:(lia)) as C1.
    assert (C2 : (length (concat A) + length l1 <= head G (S src))%nat).
    { destruct (Nat.le_gt_cases (length (concat A) + length l1) (head G (S src))) as [|X]; [assumption|]. apply Cut in X; [|exact I2]. lia. }
    apply (lands_between dest _ A l1 l2 B (length (concat A) + length l1 - k0 - 1)); auto; try lia.
    + intros u c Hu Hc. pose proof (lookup_lt_Some _ _ _ Hc) as Lu. pose proof (proj2 (Cut (k0 + 1 + u)%nat ltac:(lia)) ltac:(lia)) as X. pose proof (edge_place u Lu).
      rewrite <- (dest_edge u c Hc). apply Hbel; [lia|]. apply dest_full. lia.
    + intros u c Hu Hc. pose proof (lookup_lt_Some _ _ _ Hc) as Lu. pose proof (edge_place u Lu).
      assert (X : ~ (place w L (k0 + 1 + u) < Z.to_nat r)%nat) by (intros X; apply Cut in X; lia).
      rewrite <- (dest_edge u c Hc). apply Hab; [lia|]. apply dest_full. lia.
    + rewrite Z2Nat.id by lia. destruct (Z.eq_dec r (Z.of_nat hi)) as [->|]; [rewrite dest_hi; lia|].
      intros X. specialize (Hab r ltac:(lia)). rewrite X in Hab. specialize (Hab (small_dest dest Hdest)). lia.
Qed.

Lemma search_spec dest : 0 <= dest < SENT_VAL -> exists r, binary_search (edges p) dest (Z.of_nat lo + 1) (Z.of_nat hi) = Some (Z.of_nat r) /\ (lo < r <= hi)%nat /\ lands dest r.
Proof.
  intros Hdest. destruct balanced_facts as (_ & _ & _ & R1 & _ & _ & _ & _ & _ & _ & Ell). pose proof hi_in as Hhi.
  destruct (binary_search_finds (dests (edges p)) dest_at lg (Z.of_nat lo) (Z.of_nat hi) dest) with (e := edges p) as (r & Er & Hr); auto; try lia.
  - intros i Hi. destruct (dest_cell i ltac:(lia)) as (c & _ & _ & E). exact E.
  - exact dest_packed.
  - apply dest_full, heads_in.
  - exact dest_hi.
  - intros i Hi Ni. destruct (edge_cell i Hi Ni) as (t & c & Hc & _ & ->). pose proof (edges_ok t c Hc). lia.
  - exact dest_sorted.
  - exact dest_near.
  - exists (Z.to_nat r). pose proof (proj1 Hr). rewrite Z2Nat.id by lia. split; [exact Er|]. split; [lia|]. now apply found_lands.
Qed.
End Vertex.

(** ** Changing the edges of a vertex *)

Lemma put_edge_sorted v d es : sorted_edges es -> sorted_edges (put_edge v d es).
Proof.
  induction 1 as [|c es Hs IH HF]; cbn [put_edge]; [repeat constructor|].
  assert (F : forall x, x < d -> Forall (fun y => x < y.2) es -> Forall (fun y => x < y.2) (put_edge v d es)).
  { clear. intros x Hx. induction 1 as [|c es Hc HF IH]; cbn [put_edge]; [now repeat constructor|]. destruct (c.2 <? d); [now constructor|]. destruct (c.2 =? d); repeat constructor; auto. }
  destruct (Z.ltb_spec c.2 d); [constructor; [exact IH|now apply F]|]. destruct (Z.eqb_spec c.2 d) as [E|N].
  - constructor; [exact Hs|]. cbn. rewrite <- E. exact HF.
  - constructor; [now constructor|]. constructor; [cbn; lia|]. revert HF. apply List.Forall_impl. cbn. intros; lia.
Qed.

Lemma drop_edge_sorted d es : sorted_edges es -> sorted_edges (drop_edge d es).
Proof.
  unfold drop_edge, sorted_edges. induction 1 as [|c es Hs IH HF]; cbn [List.filter]; [constructor|]. destruct (negb (c.2 =? d)); [|exact IH].
  constructor; [exact IH|]. apply List.Forall_forall. intros x [Hx _]%filter_In. rewrite List.Forall_forall in HF. now apply HF.
Qed.

Lemma put_edge_ok v d es : 0 <= d < SENT_VAL -> Forall edge_ok es -> Forall edge_ok (put_edge v d es).
Proof.
  intros Hd. assert (Hn : edge_ok (v, d)) by exact Hd. induction 1 as [|c es Hc HF IH]; cbn [put_edge]; [auto|]. destruct (c.2 <? d); [now constructor|].
  destruct (c.2 =? d); auto.
Qed.

Lemma drop_edge_ok d es : Forall edge_ok es -> Forall edge_ok (drop_edge d es).
Proof. intros H. apply List.Forall_forall. intros x [Hx _]%filter_In. rewrite List.Forall_forall in H. now apply H. Qed.

Section Change.
Context (G : list (list cell)) (src : nat) (es es' : list cell).
Hypothesis Hes : G !! src = Some es.
#[local] Abbreviation G' := (<[src := es']> G).

Lemma entries_insert : entries 0 G' = (entries 0 (take src G) ++ [sentinel src]) ++ es' ++ entries (S src) (drop (S src) G).
Proof.
  pose proof (lookup_lt_Some _ _ _ Hes) as Hl. rewrite (insert_take_drop G src es' Hl), entries_app, length_take. cbn [entries]. rewrite Nat.min_l, Nat.add_0_l, <- app_assoc by lia. reflexivity.
Qed.

Lemma entries_around : entries 0 G = (entries 0 (take src G) ++ [sentinel src]) ++ es ++ entries (S src) (drop (S src) G) /\ length (entries 0 (take src G) ++ [sentinel src]) = (head G src + 1)%nat.
Proof. split; [rewrite <- app_assoc; now apply entries_split|]. rewrite length_app, length_entries. reflexivity. Qed.

Lemma head_insert k : (k <= length G)%nat -> if (k <=? src)%nat then head G' k = head G k else (head G' k + length es = head G k + length es')%nat.
Proof.
  intros Hk. pose proof (lookup_lt_Some _ _ _ Hes) as Hl. unfold head. destruct (Nat.leb_spec k src) as [L|L]; [now rewrite take_insert_ge|].
  assert (Hs : take k G !! src = Some es) by (rewrite lookup_take_lt; assumption). rewrite take_insert_lt by exact L. pose proof (lookup_lt_Some _ _ _ Hs) as Hl'.
  rewrite (insert_take_drop _ _ es' Hl'). rewrite <- (take_drop_middle (take k G) src es Hs) at 3. rewrite !size_app. cbn [size]. lia.
Qed.

Lemma deg_insert k : deg_of G' k = if (k =? src)%nat then Z.of_nat (length es') else deg_of G k.
Proof.
  pose proof (lookup_lt_Some _ _ _ Hes) as Hl. unfold deg_of. destruct (Nat.eqb_spec k src) as [->|N]; [now rewrite list_lookup_insert_eq|now rewrite list_lookup_insert_ne by auto].
Qed.

Lemma fits_insert : graph_fits G -> Forall edge_ok es' -> graph_fits G'.
Proof.
  intros (H1 & H2 & H3) H. unfold graph_fits. rewrite length_insert. split; [|auto]. unfold graph_ok in *. apply Forall_insert; assumption.
Qed.

(** The degree of the vertex is set. *)
Lemma nodes_set_degree ns pos e : nodes_are ns (length G) pos (deg_of G) e -> exists x, ns !! src = Some x /\ pos src = beginning x /\ deg_of G src = num_neighbors x
  /\ nodes_are (<[src := set_num_neighbors (Z.of_nat (length es')) x]> ns) (length G') pos (deg_of G') e.
Proof.
  intros [Hl Hn]. pose proof (lookup_lt_Some _ _ _ Hes) as Hs. eexists. split; [now apply Hn|]. split; [reflexivity|]. split; [reflexivity|].
  split; [now rewrite !length_insert|]. rewrite length_insert. intros k Hk. rewrite deg_insert. destruct (Nat.eqb_spec k src) as [->|N].
  - rewrite list_lookup_insert_eq by lia. reflexivity.
  - rewrite list_lookup_insert_ne by auto. now apply Hn.
Qed.
End Change.

(** ** The operations on edges *)

Record stores (p : PMA) (G : list (list cell)) : Prop := {
  st_fits : graph_fits G;
  st_sorted : Forall sorted_edges G;
  st_last : G !! (length G - 1)%nat = Some [];
  st_balanced : exists m lg L, balanced p G m lg L;
}.

Lemma stores_task p G t : stores p G -> stores (take_task p t) G.
Proof. intros [H1 H2 H3 (m & lg & L & [S Y HL Hs Hd])]. split; auto. exists m, lg, L. split; [destruct S; now split|destruct Y; now split|exact HL|exact Hs|exact Hd]. Qed.

Lemma stores_insert p G src es es' : stores p G -> G !! src = Some es -> (S src < length G)%nat -> Forall edge_ok es' -> sorted_edges es' ->
  graph_fits (<[src := es']> G) /\ Forall sorted_edges (<[src := es']> G) /\ <[src := es']> G !! (length (<[src := es']> G) - 1)%nat = Some [].
Proof.
  intros [H1 H2 H3 _] He Hs Hok Hsort. split; [now apply (fits_insert G src es')|]. split; [now apply Forall_insert|].
  rewrite length_insert, list_lookup_insert_ne by lia. exact H3.
Qed.

Lemma length_size (G : list (list cell)) : (length G <= size G)%nat.
Proof. induction G as [|es G IH]; cbn [length size]; lia. Qed.

(** A list cut at the same length in two ways. *)
Lemma cut_same {X} (a b x y : list X) : a ++ b = x ++ y -> length a = length x -> a = x /\ b = y.
Proof. intros H Hl. now apply app_inj_1 in H. Qed.

Section Operations.
Context (p : PMA) (G : list (list cell)) (m lg : Z) (L : list (list cell)) (src : nat) (es : list cell).
#[local] Abbreviation w := (leaf lg).
#[local] Abbreviation k0 := (head G src).
Hypothesis HG : graph_fits G.
Hypothesis Hb : balanced p G m lg L.
Hypothesis Hes : G !! src = Some es.
Hypothesis Hsrc : (S src < length G)%nat.

(** The elements before and from edge [t] on. *)
Lemma concat_cut A l1 l2 B t : L = A ++ (l1 ++ l2) :: B -> (length (concat A) + length l1 = k0 + 1 + t)%nat -> (t <= length es)%nat ->
  concat A ++ l1 = (entries 0 (take src G) ++ [sentinel src]) ++ take t es /\ l2 ++ concat B = drop t es ++ entries (S src) (drop (S src) G).
Proof.
  intros EL Hj Ht. destruct (entries_around G src es Hes) as [E1 E2]. apply cut_same; [|rewrite (length_app (concat A)), (length_app _ (take t es)), E2, length_take; lia].
  pose proof Hb as [_ [_ _ He _ _ _] _ _ _]. transitivity (entries 0 G).
  - rewrite <- He, EL, concat_app. cbn [concat]. now rewrite <- !app_assoc.
  - rewrite E1, <- !app_assoc, (app_assoc (take t es)), take_drop. reflexivity.
Qed.

Lemma insert_edge A l1 l2 B t v d nd : L = A ++ (l1 ++ l2) :: B -> (length (concat A) + length l1 = k0 + 1 + t)%nat -> (t <= length es)%nat -> l1 ++ l2 <> [] ->
  nodes p !! src = Some nd -> 0 <= d < SENT_VAL -> Forall edge_ok es -> match l2 with c :: _ => c.2 <> d | [] => True end -> Z.of_nat (length (entries 0 G)) + 1 < 2 ^ 31 ->
  let es' := take t es ++ (v, d) :: drop t es in
  let p1 := set_nodes p (<[src := set_num_neighbors (Z.of_nat (length es')) nd]> (nodes p)) in
  exists p' m' lg' L', insert p1 (Z.of_nat (w * length A + length l1)) d v = Some p' /\ balanced p' (<[src := es']> G) m' lg' L'.
Proof.
  intros EL Hj Ht Hne Hnd Hd Hok Hdiff Hsz es' p1. destruct (concat_cut A l1 l2 B t EL Hj Ht) as [C1 C2]. pose proof Hb as [Hs [Hc Hw He HN Hf (e & Hns & Hend)] HL Hst Hde].
  assert (Hok' : Forall edge_ok es') by (unfold es'; rewrite <- (take_drop t es) in Hok; apply Forall_app in Hok as [F1 F2]; apply Forall_app; split; [exact F1|now constructor]).
  assert (Hent : entries 0 (<[src := es']> G) = concat (A ++ (l1 ++ (v, d) :: l2) :: B)).
  { rewrite (entries_insert G src es es' Hes). unfold es'. rewrite concat_app. cbn [concat]. rewrite <- (app_assoc l1), (app_assoc (concat A)), C1. cbn [app]. rewrite C2, <- !app_assoc. reflexivity. }
  assert (Len : length es' = S (length es)) by (unfold es'; rewrite length_app, length_take; cbn [length]; rewrite length_drop; lia).
  destruct (nodes_set_degree G src es es' Hes _ _ _ Hns) as (x & Hx & _ & _ & Hns'). assert (x = nd) as -> by congruence.
  rewrite EL in Hc, HL, Hst, Hde, Hf, Hw. apply (insert_at p1 (<[src := es']> G) m lg A l1 l2 B v d (pos_of w L G) e); auto.
  - now apply (fits_insert G src es').
  - lia.
  - rewrite length_insert. exact Hend.
  - intros k Hk. rewrite length_insert in Hk. pose proof (head_insert G src es es' Hes k ltac:(lia)) as Hh. unfold pos_of. rewrite EL. apply f_equal.
    destruct (Nat.leb_spec k src) as [L1|L1].
    + rewrite Hh, (proj2 (Nat.ltb_lt _ _)); [reflexivity|]. destruct (Nat.eq_dec k src) as [->|]; [lia|]. pose proof (head_lt G k src). lia.
    + pose proof (head_S G src es Hes) as H1. assert (H2 : (head G (S src) <= head G k)%nat) by (destruct (Nat.eq_dec (S src) k) as [->|]; [lia|]; pose proof (head_lt G (S src) k); lia).
      rewrite (proj2 (Nat.ltb_ge _ _)), (proj2 (Nat.eqb_neq _ _)) by lia. f_equal. lia.
  - destruct l2; [exact I|]. auto.
  - rewrite Hent, concat_app, length_app. rewrite <- He, EL, concat_app, length_app in Hsz. cbn [concat] in *. rewrite !length_app in *. cbn [length]. lia.
Qed.

(** An edge lies in a leaf, between others. *)
Lemma edge_split t v d : es !! t = Some (v, d) -> exists A l1 l2 B, L = A ++ (l1 ++ (v, d) :: l2) :: B /\ (length (concat A) + length l1 = k0 + 1 + t)%nat
  /\ place w L (k0 + 1 + t) = (w * length A + length l1)%nat.
Proof.
  intros Ht. pose proof Hb as [_ [_ _ He _ _ _] _ _ _]. pose proof (entry_at G src es Hes Hsrc t (v, d) Ht) as E. rewrite <- He in E. destruct (place_split w L _ (lookup_lt_Some _ _ _ E)) as (A & l1 & c & l2 & B & EL & E1 & E2 & E3).
  assert (c = (v, d)) as -> by congruence. exists A, l1, l2, B. auto.
Qed.

Lemma remove_edge_at t v d nd : es !! t = Some (v, d) -> nodes p !! src = Some nd -> Forall edge_ok es -> (5 <= length G)%nat -> Z.of_nat (length (entries 0 G)) < 2 ^ 31 ->
  let es' := take t es ++ drop (S t) es in
  let p1 := set_nodes p (<[src := set_num_neighbors (Z.of_nat (length es')) nd]> (nodes p)) in
  exists p' m' lg' L', remove p1 (Z.of_nat (place w L (k0 + 1 + t))) = Some p' /\ balanced p' (<[src := es']> G) m' lg' L'.
Proof.
  intros Ht Hnd Hok H5 Hsz es' p1. destruct (edge_split t v d Ht) as (A & l1 & l2 & B & EL & Hj & Er). pose proof (lookup_lt_Some _ _ _ Ht) as Lt.
  destruct (concat_cut A l1 ((v, d) :: l2) B t EL Hj ltac:(lia)) as [C1 C2]. pose proof Hb as [Hs [Hc Hw He HN Hf (e & Hns & Hend)] HL Hst Hde].
  assert (Ed : drop t es = (v, d) :: drop (S t) es) by (now apply drop_S). rewrite Ed in C2. cbn [app] in C2. injection C2 as C2.
  assert (Hok' : Forall edge_ok es').
  { pose proof Hok as Ho. rewrite <- (take_drop t es), Ed in Ho. apply Forall_app in Ho as [F1 F2]. apply Forall_app. split; [exact F1|]. now apply Forall_cons_iff in F2 as [_ F2]. }
  assert (Hent : entries 0 (<[src := es']> G) = concat (A ++ (l1 ++ l2) :: B)).
  { rewrite (entries_insert G src es es' Hes). unfold es'. rewrite concat_app. cbn [concat]. rewrite <- (app_assoc l1), (app_assoc (concat A)), C1, C2, <- !app_assoc. reflexivity. }
  assert (Len : S (length es') = length es) by (unfold es'; rewrite length_app, length_take, length_drop; lia).
  destruct (nodes_set_degree G src es es' Hes _ _ _ Hns) as (x & Hx & _ & _ & Hns'). assert (x = nd) as -> by congruence.
  pose proof (entries_around G src es Hes) as [_ Hk0]. rewrite EL in Hc, HL, Hst, Hde, Hf, Hw. rewrite Er.
  assert (Lent : (length (entries 0 (<[src := es']> G)) + 1 = length (entries 0 G))%nat).
  { rewrite Hent, <- He, EL, !concat_app, !length_app. cbn [concat]. rewrite !length_app. cbn [length]. lia. }
  apply (remove_at p1 (<[src := es']> G) m lg A l1 l2 B (v, d) (pos_of w L G) e); auto.
  - now apply (fits_insert G src es').
  - destruct A as [|l A]; [|exact Hf]. cbn in Hj |- *. destruct l1; [cbn in Hj; lia|discriminate].
  - lia.
  - rewrite length_insert. exact Hend.
  - intros k Hk. rewrite length_insert in Hk. pose proof (head_insert G src es es' Hes k ltac:(lia)) as Hh. unfold pos_of. rewrite EL. apply f_equal.
    destruct (Nat.leb_spec k src) as [L1|L1].
    + rewrite Hh, (proj2 (Nat.ltb_lt _ _)); [reflexivity|]. destruct (Nat.eq_dec k src) as [->|]; [lia|]. pose proof (head_lt G k src). lia.
    + pose proof (head_S G src es Hes) as H1. assert (H2 : (head G (S src) <= head G k)%nat) by (destruct (Nat.eq_dec (S src) k) as [->|]; [lia|]; pose proof (head_lt G (S src) k); lia).
      rewrite (proj2 (Nat.ltb_ge _ _)) by lia. f_equal. lia.
  - rewrite length_entries. assert (X : (length (<[src := es']> G) <= size (<[src := es']> G))%nat) by apply length_size. rewrite length_insert in X. lia.
  - lia.
Qed.

(** The value of an edge is overwritten. *)
Lemma set_edge_value t v v' d : es !! t = Some (v, d) -> let es' := take t es ++ (v', d) :: drop (S t) es in
  exists vs L', wr (vals (edges p)) (Z.of_nat (place w L (k0 + 1 + t))) v' = Some vs /\ balanced (set_vals p vs) (<[src := es']> G) m lg L'.
Proof.
  intros Ht es'. destruct (edge_split t v d Ht) as (A & l1 & l2 & B & EL & Hj & ->). pose proof (lookup_lt_Some _ _ _ Ht) as Lt.
  destruct (concat_cut A l1 ((v, d) :: l2) B t EL Hj ltac:(lia)) as [C1 C2]. pose proof Hb as [Hs [[Hv Hd] Hw He HN Hf (e & Hns & Hend)] HL Hst Hde].
  assert (Ed : drop t es = (v, d) :: drop (S t) es) by (now apply drop_S). rewrite Ed in C2. cbn [app] in C2. injection C2 as C2.
  pose proof (strong_weak w L Hst) as Hw'. rewrite EL in Hw'. apply Forall_app in Hw' as [HwA _]. pose proof (length_arrays w A HwA) as La.
  set (L' := A ++ (l1 ++ (v', d) :: l2) :: B). set (rest := l2 ++ repeat null (w - S (length l1 + length l2)) ++ cells w B).
  assert (Ec : forall c, cells w (A ++ (l1 ++ c :: l2) :: B) = (cells w A ++ l1) ++ c :: rest).
  { intros c. unfold rest. rewrite cells_app, cells_cons. unfold pad. rewrite length_app. cbn [length]. rewrite <- !app_assoc. cbn [app]. do 6 f_equal. lia. }
  assert (Ei : Z.of_nat (w * length A + length l1) = Z.of_nat (length (cells w A ++ l1))) by (rewrite length_app, La; reflexivity).
  assert (Pl : forall k, place w L' k = place w L k) by (intros k; rewrite EL; unfold L'; now rewrite !place_put).
  assert (Hh : forall k, (k <= length G)%nat -> head (<[src := es']> G) k = head G k).
  { intros k Hk. pose proof (head_insert G src es es' Hes k Hk) as X. assert (length es' = length es) by (unfold es'; rewrite length_app, length_take; cbn [length]; rewrite length_drop; lia).
    destruct (k <=? src)%nat; lia. }
  assert (Hnl : forall x, length (l1 ++ x :: l2) = length (l1 ++ (v, d) :: l2)) by (intros x; rewrite !length_app; reflexivity).
  exists ((cells w A ++ l1) ++ (v', d) :: rest).*1, L'. split.
  { rewrite Hv, EL, Ec, Ei. now apply (wr_fst _ (v, d) (v', d)). }
  split.
  - destruct Hs. now split.
  - split; auto.
    + split; cbn [set_vals set_edges edges set_arrays vals dests]; unfold L'; rewrite Ec; [reflexivity|]. rewrite Hd, EL, Ec, !fmap_app. reflexivity.
    + unfold L', weak. rewrite EL in Hw. apply Forall_app in Hw as [W1 [W2 W3]%Forall_cons_iff]. apply Forall_app. split; [exact W1|]. constructor; [now rewrite Hnl|exact W3].
    + rewrite (entries_insert G src es es' Hes). unfold es', L'. rewrite concat_app. cbn [concat]. rewrite <- (app_assoc l1), (app_assoc (concat A)), C1. cbn [app]. rewrite C2, <- !app_assoc. reflexivity.
    + cbn [set_vals set_edges edges set_arrays Pma.N]. rewrite HN, EL. unfold L'. rewrite !length_app. reflexivity.
    + unfold L'. rewrite EL in Hf. destruct A; [cbn; destruct l1; discriminate|exact Hf].
    + exists e. split; [|rewrite length_insert; unfold pos_of; rewrite Hh, Pl by lia; exact Hend].
      rewrite length_insert. apply (nodes_are_ext _ _ _ _ _ _ _ Hns); intros k Hk; [unfold pos_of; now rewrite Hh, Pl by lia|].
      rewrite (deg_insert G src es es' Hes). destruct (Nat.eqb_spec k src) as [->|]; [|reflexivity]. rewrite (deg_of_spec G src es Hes). unfold es'. rewrite length_app, length_take. cbn [length]. rewrite length_drop. lia.
  - rewrite <- HL, EL. unfold L'. rewrite !length_app. reflexivity.
  - unfold L', strong. rewrite EL in Hst. apply Forall_app in Hst as [W1 [W2 W3]%Forall_cons_iff]. apply Forall_app. split; [exact W1|]. constructor; [now rewrite Hnl|exact W3].
  - intros i Hi. specialize (Hde i). unfold quiet in Hde. rewrite EL in Hde. unfold L' in Hi |- *. destruct (Nat.lt_ge_cases (2 * i) (length A)) as [L1|L1].
    + rewrite lookup_app_l in Hi by exact L1. rewrite lookup_app_l in Hde by exact L1. specialize (Hde Hi). rewrite drop_app_le, concat_app in Hde by lia.
      apply app_eq_nil in Hde as [_ X]. cbn in X. destruct l1; discriminate.
    + rewrite lookup_app_r in Hi, Hde by exact L1. rewrite drop_app_ge in Hde |- * by exact L1. destruct (2 * i - length A)%nat; [|exact (Hde Hi)]. cbn in Hi. destruct l1; discriminate.
Qed.
End Operations.

(** *** Adding and removing an edge *)

Definition known (d : Z) (es : list cell) : bool := match edge_value d es with Some _ => true | None => false end.

Lemma add64_1 x : 0 <= x < 2 ^ 63 -> (x + 1)%u64 = x + 1.
Proof. intros H. unfold add64, u64, uwrap. rewrite Z.mod_small; lia. Qed.

Section EdgeOps.
Context (p : PMA) (G : list (list cell)) (src : nat) (es : list cell) (dest : Z).
Hypothesis Hst : stores p G.
Hypothesis Hes : G !! src = Some es.
Hypothesis Hsrc : (S src < length G)%nat.
Hypothesis Hdest : 0 <= dest < SENT_VAL.
Hypothesis Hsize : Z.of_nat (length (entries 0 G)) + 1 < 2 ^ 31.

Lemma edges_sorted : sorted_edges es /\ Forall edge_ok es /\ (length es < length (entries 0 G))%nat.
Proof.
  destruct Hst as [(H1 & _) H2 _ _]. rewrite Forall_lookup in H2. unfold graph_ok in H1. rewrite Forall_lookup in H1. split; [now apply (H2 src)|]. split; [now apply (H1 src)|].
  destruct (entries_around G src es Hes) as [E E']. rewrite E, !length_app in *. lia.
Qed.

(** A found edge divides the edges. *)
Lemma known_split t v : es !! t = Some (v, dest) -> es = take t es ++ (v, dest) :: drop (S t) es /\ Forall (fun c => c.2 < dest) (take t es) /\ Forall (fun c => dest < c.2) (drop (S t) es).
Proof.
  intros Ht. destruct edges_sorted as [Hso _]. split; [symmetry; now apply take_drop_middle|]. split; apply Forall_lookup; intros i c Hi.
  - apply lookup_take_Some in Hi as [Hi Lt]. exact (sorted_lookup es Hso i t c (v, dest) Lt Hi Ht).
  - rewrite lookup_drop in Hi. refine (sorted_lookup es Hso t (S t + i) (v, dest) c _ Ht Hi). lia.
Qed.

Lemma new_split t : (forall u c, (u < t)%nat -> es !! u = Some c -> c.2 < dest) -> (forall u c, (t <= u)%nat -> es !! u = Some c -> dest < c.2) ->
  Forall (fun c => c.2 < dest) (take t es) /\ Forall (fun c => dest < c.2) (drop t es).
Proof.
  intros H1 H2. split; apply Forall_lookup; intros i c Hi; [apply lookup_take_Some in Hi as [Hi Lt]; now apply (H1 i)|]. rewrite lookup_drop in Hi. apply (H2 (t + i)%nat); auto. lia.
Qed.

(** The vertex, and where a search ends. *)
Lemma find_edge : exists m lg L nd r x, balanced p G m lg L /\ nodes p !! src = Some nd /\ rd (nodes p) (Z.of_nat src) = Some nd /\ num_neighbors nd = Z.of_nat (length es)
  /\ binary_search (edges p) dest (beginning nd + 1)%u64 (node_end nd) = Some (Z.of_nat r) /\ rd (dests (edges p)) (Z.of_nat r) = Some (dest_at p (Z.of_nat r)) /\ rd (vals (edges p)) (Z.of_nat r) = Some x /\ lands p G lg L src es dest r.
Proof.
  destruct Hst as [Hf _ _ (m & lg & L & Hb)]. destruct edges_sorted as [Hso _]. destruct (search_spec p G m lg L src es Hf Hb Hes Hsrc Hso dest Hdest) as (r & Er & Hr & Hl).
  pose proof (hi_in p G m lg L src es Hf Hb Hes Hsrc) as Hi. pose proof Hb as [Hs [_ _ _ HN _ (e & Hns & _)] _ _ _]. destruct Hns as [_ Hns]. specialize (Hns src ltac:(lia)).
  rewrite (proj2 (Nat.eqb_neq _ _)) in Hns by lia. destruct (read_cell p G m lg L src Hf Hb Hsrc r ltac:(lia)) as (c & _ & E1 & E2).
  exists m, lg, L. eexists. exists r, c.1. split; [exact Hb|]. split; [exact Hns|].
  split; [unfold rd; rewrite (proj2 (Z.leb_le _ _)), Nat2Z.id by lia; exact Hns|]. cbn [beginning node_end num_neighbors]. split; [now apply deg_of_spec|].
  assert (HN32 : N (edges p) <= 2 ^ 32) by (destruct Hs as [Sm _ SN _ _ _ _ _ _ _]; rewrite SN; apply Z.pow_le_mono_r; lia).
  split; [unfold pos_of; rewrite add64_1 by lia; exact Er|]. split; [unfold dest_at; now rewrite E1|]. now split.
Qed.

Lemma modify_degree nd f : nodes p !! src = Some nd -> modify_node p (Z.of_nat src) f = Some (set_nodes p (<[src := f nd]> (nodes p))).
Proof. apply modify_node_spec. Qed.

Lemma add_edge_fast_stores value : value <> 0 ->
  exists p', add_edge_update_fast p (Z.of_nat src) dest value = Some (negb (known dest es), p') /\ stores p' (<[src := put_edge value dest es]> G).
Proof.
  intros Hv. destruct find_edge as (m & lg & L & nd & r & x & Hb & Hn & Er & Ed & Eb & Erd & Erv & Hl). destruct edges_sorted as (Hso & Hok & Hlen). unfold add_edge_update_fast, known.
  rewrite (proj2 (Z.eqb_neq _ _)), Er, Eb, Erd by exact Hv. cbn [negb]. pose proof (st_fits p G Hst) as Hf.
  destruct (stores_insert p G src es (put_edge value dest es) Hst Hes Hsrc (put_edge_ok value dest es Hdest Hok) (put_edge_sorted value dest es Hso)) as (F1 & F2 & F3).
  destruct Hl as [t v Ht ->|A l1 l2 B t EL -> Hne Hj Ht Hlt Hgt Hnd].
  - rewrite (dest_edge p G m lg L src es Hf Hb Hes Hsrc t _ Ht). cbn [snd]. rewrite Z.eqb_refl. destruct (known_split t v Ht) as (Es & S1 & S2).
    destruct (set_edge_value p G m lg L src es Hb Hes Hsrc t v value dest Ht) as (vs & L' & -> & Hb').
    assert (Ep : put_edge value dest es = take t es ++ (value, dest) :: drop (S t) es) by (rewrite Es at 1; now apply put_edge_old).
    assert (Ev : edge_value dest es = Some v) by (rewrite Es; now apply edge_value_some). rewrite Ev, <- Ep in *. eexists. split; [reflexivity|]. split; eauto.
  - rewrite (proj2 (Z.eqb_neq _ _) Hnd). destruct (new_split t Hlt Hgt) as [S1 S2]. rewrite (modify_degree nd) by exact Hn.
    assert (Ep : put_edge value dest es = take t es ++ (value, dest) :: drop t es) by (rewrite <- (take_drop t es) at 1; now apply put_edge_new).
    assert (Ev : edge_value dest es = None) by (rewrite <- (take_drop t es); now apply edge_value_none). rewrite Ev.
    assert (Eu : u32 (num_neighbors nd + 1) = Z.of_nat (length (take t es ++ (value, dest) :: drop t es))).
    { rewrite length_app, length_take. cbn [length]. rewrite length_drop, Ed. unfold u32, uwrap. rewrite Z.mod_small; lia. }
    rewrite Eu. destruct (insert_edge p G m lg L src es Hf Hb Hes Hsrc A l1 l2 B t value dest nd EL Hj Ht Hne Hn Hdest Hok) as (p' & m' & lg' & L' & Ei & Hb'); [|exact Hsize|].
    { destruct l2 as [|c l2]; [exact I|]. intros X. apply Hnd. rewrite <- X. pose proof (place_in (leaf lg) A (l1 ++ c :: l2) B (length l1) ltac:(rewrite length_app; cbn; lia)) as P.
      rewrite <- P, <- EL. apply (dest_place p G m lg L src Hf Hb Hsrc). rewrite EL, concat_app, lookup_app_r by lia. cbn [concat]. rewrite <- app_assoc, lookup_app_r by lia.
      replace (_ - _ - _)%nat with O by lia. reflexivity. }
    cbn zeta in Ei. rewrite Ei. rewrite <- Ep in Hb'. eexists. split; [reflexivity|]. split; eauto.
Qed.

Lemma remove_edge_fast_stores : (5 <= length G)%nat ->
  exists p', remove_edge_fast p (Z.of_nat src) dest = Some (known dest es, p') /\ stores p' (<[src := drop_edge dest es]> G).
Proof.
  intros H5. destruct find_edge as (m & lg & L & nd & r & x & Hb & Hn & Er & Ed & Eb & Erd & Erv & Hl). destruct edges_sorted as (Hso & Hok & Hlen). unfold remove_edge_fast, known.
  rewrite Er, Eb, Erd. pose proof (st_fits p G Hst) as Hf.
  destruct (stores_insert p G src es (drop_edge dest es) Hst Hes Hsrc (drop_edge_ok dest es Hok) (drop_edge_sorted dest es Hso)) as (F1 & F2 & F3).
  destruct Hl as [t v Ht ->|A l1 l2 B t EL -> Hne Hj Ht Hlt Hgt Hnd].
  - rewrite (dest_edge p G m lg L src es Hf Hb Hes Hsrc t _ Ht). cbn [snd]. rewrite Z.eqb_refl. cbn [negb]. destruct (known_split t v Ht) as (Es & S1 & S2). pose proof (lookup_lt_Some _ _ _ Ht).
    rewrite (modify_degree nd) by exact Hn.
    assert (Ep : drop_edge dest es = take t es ++ drop (S t) es) by (rewrite Es at 1; now apply drop_edge_some).
    assert (Ev : edge_value dest es = Some v) by (rewrite Es; now apply edge_value_some). rewrite Ev.
    assert (Eu : u32 (num_neighbors nd - 1) = Z.of_nat (length (take t es ++ drop (S t) es))).
    { rewrite length_app, length_take, length_drop, Ed. unfold u32, uwrap. rewrite Z.mod_small; lia. }
    rewrite Eu. destruct (remove_edge_at p G m lg L src es Hf Hb Hes Hsrc t v dest nd Ht Hn Hok H5 ltac:(lia)) as (p' & m' & lg' & L' & Ei & Hb').
    cbn zeta in Ei. rewrite Ei. rewrite <- Ep in Hb'. eexists. split; [reflexivity|]. split; eauto.
  - rewrite (proj2 (Z.eqb_neq _ _) Hnd). cbn [negb]. destruct (new_split t Hlt Hgt) as [S1 S2].
    assert (Ep : drop_edge dest es = es) by (rewrite <- (take_drop t es); now apply drop_edge_none).
    assert (Ev : edge_value dest es = None) by (rewrite <- (take_drop t es); now apply edge_value_none). rewrite Ev, Ep, (list_insert_id G src es Hes). eauto.
Qed.

(** *** What a search returns *)

Lemma find_value_stores : find_value p (Z.of_nat src) dest = Some (default 0 (edge_value dest es), take_task p 2).
Proof.
  destruct find_edge as (m & lg & L & nd & r & x & Hb & Hn & Er & Ed & Eb & Erd & Erv & Hl). pose proof (st_fits p G Hst) as Hf. unfold find_value. cbn [take_task set_next_task_id nodes edges]. rewrite Er, Eb, Erd, Erv.
  destruct Hl as [t v Ht ->|A l1 l2 B t EL -> Hne Hj Ht Hlt Hgt Hnd].
  - rewrite (dest_edge p G m lg L src es Hf Hb Hes Hsrc t _ Ht). cbn [snd]. rewrite Z.eqb_refl, (proj2 (Z.eqb_neq _ _) (small_dest dest Hdest)). cbn [negb andb].
    pose proof (entry_at G src es Hes Hsrc t _ Ht) as E. pose proof Hb as [_ [_ _ He _ _ _] _ _ _]. rewrite <- He in E. rewrite (proj2 (read_place p G m lg L src Hf Hb Hsrc _ _ E)) in Erv.
    destruct (known_split t v Ht) as (Es & S1 & S2). rewrite Es, edge_value_some by assumption. cbn in *. congruence.
  - destruct (new_split t Hlt Hgt) as [S1 S2]. rewrite (proj2 (Z.eqb_neq _ _) Hnd), andb_false_r, <- (take_drop t es), edge_value_none by assumption. reflexivity.
Qed.
End EdgeOps.
