(* ===== verification/PmaTheorems.v ===== *)
(** * The packed memory array, correct

    From an array without edges, any sequence of additions and removals returns and leaves
    what the reference functions say; searches, iterations and the list of all edges read it.
    The edges of the last vertex are the exception. *)

From stdpp Require Import base option list.
From S2P Require Import Prelude Doubles Arrays Pma PmaSearch PmaSpread PmaDensity PmaBalance PmaUpdate PmaGraph.
From Stdlib Require Import SpecFloat Sorted.
#[local] Open Scope Z_scope.

(** ** Construction *)

Lemma entries_none k i : entries i (repeat [] k) = map sentinel (List.seq i k).
Proof. revert i. induction k as [|k IH]; intros i; [reflexivity|]. cbn [repeat entries List.seq map app]. now rewrite IH. Qed.

Lemma none_lookup k i : (i < k)%nat -> repeat (@nil cell) k !! i = Some [].
Proof. intros H. destruct (lookup_lt_is_Some_2 (repeat (@nil cell) k) i) as [x Hx]; [now rewrite repeat_length|]. rewrite Hx. f_equal. exact (lookup_repeat _ _ _ _ Hx). Qed.

Lemma size_none k : size (repeat [] k) = k.
Proof. induction k as [|k IH]; [reflexivity|]. cbn. now rewrite IH. Qed.

Lemma head_none k i : (i <= k)%nat -> head (repeat [] k) i = i.
Proof. intros H. unfold head. replace k with (i + (k - i))%nat by lia. rewrite repeat_app, take_app_length' by now rewrite repeat_length. apply size_none. Qed.

Lemma deg_none k i : deg_of (repeat [] k) i = 0.
Proof.
  unfold deg_of. destruct (repeat [] k !! i) as [x|] eqn:E; [|reflexivity]. apply lookup_repeat in E. now subst.
Qed.

Lemma none_fits k : (2 <= k)%nat -> Z.of_nat k < 2 ^ 32 -> graph_fits (repeat [] k).
Proof.
  intros H1 H2. unfold graph_fits. rewrite repeat_length. split; [|auto]. unfold graph_ok. apply Forall_lookup. intros i x Hx. apply lookup_repeat in Hx as ->. constructor.
Qed.

(** *** One more vertex *)

Lemma add_node_next p m lg L k : balanced p (repeat [] k) m lg L -> (1 <= k)%nat -> Z.of_nat k + 1 < 2 ^ 31 ->
  exists p' m' lg' L', add_node p = Some p' /\ balanced p' (repeat [] (S k)) m' lg' L'.
Proof.
  intros Hb Hk Hsz. pose proof Hb as [Hs [Hc Hw He HN Hf (e & [Hl Hns] & Hend)] HL Hst Hde]. rewrite repeat_length in *. pose proof Hs as [Sm Sl SN _ _ _ _ _ _ _].
  pose proof (log_range m lg Sm Sl) as [[R1 R2] _]. assert (HN1 : 16 <= N (edges p) <= 2 ^ 32) by (rewrite SN; pose proof (Z.pow_le_mono_r 2 4 m); pose proof (Z.pow_le_mono_r 2 m 32); lia).
  assert (Hlen : length (concat L) = k) by (rewrite He, length_entries; apply size_none).
  destruct (place_split (leaf lg) L (k - 1) ltac:(lia)) as (A & l1 & c & l2 & B & EL & E1 & E2 & _).
  assert (El : (length l2 + length (concat B) = 0)%nat) by (rewrite EL, concat_app, length_app in Hlen; cbn [concat] in Hlen; rewrite !length_app in Hlen; cbn [length] in Hlen; lia).
  assert (l2 = []) as -> by (destruct l2; [reflexivity|cbn in El; lia]). set (l := l1 ++ [c]) in *. set (pos := place (leaf lg) L (k - 1)) in *.
  assert (Hpos : pos_of (leaf lg) L (repeat [] k) (k - 1) = Z.of_nat pos) by (unfold pos_of; now rewrite head_none by lia). rewrite Hpos in Hend.
  assert (Lp : (pos < leaf lg * length L)%nat) by (apply place_bound; [exact Hw|lia]).
  unfold add_node. cbn [take_task set_next_task_id nodes edges]. rewrite Hl. assert (Eu : u32 (Z.of_nat k) = Z.of_nat k) by (unfold u32, uwrap; rewrite Z.mod_small; lia). rewrite Eu.
  rewrite (proj2 (Z.ltb_lt _ _)) by lia. replace (Z.of_nat k - 1) with (Z.of_nat (k - 1)) by lia. pose proof (Hns (k - 1)%nat ltac:(lia)) as Hk1. rewrite deg_none, Hpos in Hk1.
  replace (S (k - 1) =? k)%nat with true in Hk1 by (symmetry; apply Nat.eqb_eq; lia).
  assert (Rk : rd (nodes p) (Z.of_nat (k - 1)) = Some (mk_node (Z.of_nat pos) e 0)) by (unfold rd; rewrite (proj2 (Z.leb_le _ _)), Nat2Z.id by lia; exact Hk1). rewrite Rk. cbn [node_end num_neighbors beginning].
  assert (Eb : (if e =? (N (edges p) - 1)%u64 then if 0 =? 0 then Some (Z.of_nat pos + 1)%u64 else move_left (dests (edges p)) (Z.to_nat e) e (find_leaf (edges p) e) else Some e) = Some (Z.of_nat pos + 1)).
  { rewrite sub1_64, add64_1 by lia. destruct (Z.eqb_spec e (N (edges p) - 1)); [reflexivity|]. f_equal. unfold end_ok in Hend. lia. }
  rewrite Eb. rewrite (modify_node_spec (take_task p 2) (k - 1) _ _ Hk1). cbn [nodes set_nodes take_task set_next_task_id]. rewrite add64_1 by lia.
  replace (Z.of_nat pos + 1) with (Z.of_nat (leaf lg * length A + length l)) by (rewrite E2; unfold l; rewrite length_app; cbn [length]; lia).
  assert (EL' : L = A ++ (l ++ []) :: B) by now rewrite app_nil_r.
  rewrite EL' in Hc, HL, Hst, Hde, Hf. set (p2 := set_nodes _ _).
  assert (Hlast : (length (concat A) + length l)%nat = k) by (unfold l; rewrite length_app; cbn [length]; lia).
  assert (Hpl : forall i, (i < k)%nat -> pos_of (leaf lg) L (repeat [] k) i = Z.of_nat (place (leaf lg) L i)) by (intros i Hi; unfold pos_of; now rewrite head_none by lia).
  apply (insert_at p2 (repeat [] (S k)) m lg A l [] B (Z.of_nat k) SENT_VAL (fun i => if (i =? k)%nat then Z.of_nat (leaf lg * length A + length l) else pos_of (leaf lg) L (repeat [] k) i) (Z.of_nat (leaf lg * length A + length l) + 1)); auto.
  - apply none_fits; lia.
  - rewrite concat_app. cbn [concat]. rewrite (entries_none (S k)), seq_S, map_app, <- entries_none, <- He, EL, concat_app. cbn [concat map Nat.add].
    assert (concat B = []) as -> by (destruct (concat B); [reflexivity|cbn in El; lia]). rewrite !app_nil_r, <- !app_assoc. do 3 f_equal. unfold sentinel. destruct (Nat.eqb_spec k 0); [lia|reflexivity].
  - lia.
  - rewrite repeat_length. cbn [p2 set_nodes nodes]. split; [rewrite length_app, length_insert, Hl; cbn; lia|]. intros i Hi. rewrite deg_none.
    destruct (Nat.eq_dec i k) as [->|Ni].
    + rewrite Nat.eqb_refl, (proj2 (Nat.eqb_eq (S k) (S k)) eq_refl). rewrite lookup_app_r by (rewrite length_insert; lia). rewrite length_insert, Hl, Nat.sub_diag. reflexivity.
    + rewrite (proj2 (Nat.eqb_neq i k)), (proj2 (Nat.eqb_neq (S i) (S k))) by lia. rewrite lookup_app_l by (rewrite length_insert; lia). destruct (Nat.eq_dec i (k - 1)) as [->|Nj].
      * rewrite list_lookup_insert_eq by lia. replace (S (k - 1) =? k)%nat with true by (symmetry; apply Nat.eqb_eq; lia). rewrite Hpos. reflexivity.
      * rewrite list_lookup_insert_ne by lia. rewrite Hns, (proj2 (Nat.eqb_neq (S i) k)), deg_none by lia. reflexivity.
  - rewrite repeat_length. left. rewrite Nat.sub_succ, Nat.sub_0_r, Nat.eqb_refl. reflexivity.
  - rewrite repeat_length. intros i Hi. rewrite head_none by lia. rewrite Hlast, <- EL'. destruct (Nat.eqb_spec i k) as [->|Ni].
    + rewrite Nat.ltb_irrefl. reflexivity.
    + rewrite (proj2 (Nat.ltb_lt i k)) by lia. apply Hpl. lia.
  - unfold l. rewrite app_nil_r. destruct l1; discriminate.
  - rewrite entries_none, length_map, length_seq. lia.
Qed.

(** *** The first vertex *)

Definition first_leaves (m lg : Z) : list (list cell) := [sentinel 0] :: repeat [] (leaves m lg - 1).

Lemma first_leaves_facts m lg : 4 <= m <= 32 -> lg = Z.log2 m \/ lg = Z.log2 (m + 1) -> length (first_leaves m lg) = leaves m lg /\ strong (leaf lg) (first_leaves m lg) /\ dense (first_leaves m lg)
  /\ concat (first_leaves m lg) = entries 0 [[]] /\ exists b, cells (leaf lg) (first_leaves m lg) = sentinel 0 :: b /\ repeat null (Z.to_nat (2 ^ m)) = null :: b.
Proof.
  intros Hm Hl. pose proof (log_range m lg Hm Hl) as [[R1 R2] _]. pose proof (leaf_pow lg ltac:(lia)). pose proof (leaves_pow m lg ltac:(lia)). pose proof (cells_pow m lg ltac:(lia)) as Ec.
  pose proof (Z.pow_le_mono_r 2 2 lg). pose proof (Z.pow_pos_nonneg 2 (m - lg)).
  assert (C : forall r, concat (repeat (@nil cell) r) = []) by (induction r; auto).
  assert (CD : forall r j, concat (drop j (repeat (@nil cell) r)) = []) by (induction r as [|r IH]; intros [|j]; cbn; auto).
  assert (CC : forall r, cells (leaf lg) (repeat [] r) = repeat null (leaf lg * r)).
  { induction r as [|r IH]; [now rewrite Nat.mul_0_r|]. cbn [repeat]. rewrite cells_cons, IH. unfold pad. cbn [app length]. rewrite Nat.sub_0_r, <- repeat_app. f_equal. lia. }
  unfold first_leaves. split; [cbn [length]; rewrite repeat_length; lia|]. split.
  { constructor; [cbn; lia|]. apply Forall_lookup. intros i x Hx. apply lookup_repeat in Hx as ->. cbn. lia. }
  split.
  { intros i Hi. destruct (2 * i)%nat as [|j] eqn:E; [discriminate|]. cbn [drop]. apply CD. }
  split; [cbn [concat]; rewrite C; reflexivity|]. rewrite cells_cons, CC. unfold pad. cbn [length app]. rewrite <- repeat_app.
  eexists. split; [reflexivity|]. replace (Z.to_nat (2 ^ m)) with (S (leaf lg - 1 + leaf lg * (leaves m lg - 1))) by (rewrite <- Ec, Nat2Z.id; nia). reflexivity.
Qed.

Lemma add_node_first p m lg : sized_PMA p m lg -> nodes p = [] -> has_cells p (repeat null (Z.to_nat (2 ^ m))) -> exists p', add_node p = Some p' /\ balanced p' [[]] m lg (first_leaves m lg).
Proof.
  intros Hs Hn Hc. pose proof Hs as [Sm Sl SN _ _ _ _ _ Su _]. pose proof (log_range m lg Sm Sl) as [[R1 R2] _]. pose proof (leaf_pow lg ltac:(lia)) as Ew. pose proof (Z.pow_le_mono_r 2 2 lg).
  destruct (first_leaves_facts m lg Sm Sl) as (F1 & F2 & F3 & F4 & b & F5 & F6). rewrite F6 in Hc.
  unfold add_node. cbn [take_task set_next_task_id nodes]. rewrite Hn. change (u32 (Z.of_nat (length []))) with 0. cbn [Z.ltb Z.compare app]. unfold insert.
  set (p0 := set_nodes _ [mk_node 0 1 0]). assert (Hc0 : has_cells p0 ([] ++ null :: b)) by exact Hc.
  rewrite (proj2 Hc0), (rd_snd [] null b) by reflexivity. change (null.2 =? NULL_VAL) with true. cbv iota.
  assert (P : (let? vs := wr (vals (edges p0)) 0 NULL_VAL in let? ds := wr (dests (edges p0)) 0 0 in Some (set_edges p0 (set_arrays (edges p0) vs ds))) = Some (with_cells p0 (sentinel 0 :: b) (nodes p0)))
    by exact (put_spec p0 [] null b NULL_VAL 0 Hc0).
  rewrite (proj2 Hc0), <- F5 in P. rewrite P. clear P. set (p1 := with_cells p0 _ _).
  assert (Hs1 : sized_PMA p1 m lg) by (destruct Hs; now split). assert (Hok : graph_ok [[]]) by (repeat constructor).
  assert (Hlay : lays p1 [[]] (leaf lg) (first_leaves m lg)).
  { split; [split; reflexivity|now apply strong_weak|exact F4| |discriminate|].
    - cbn [p1 with_cells edges set_arrays Pma.N p0 set_nodes take_task set_next_task_id]. rewrite SN, F1, cells_pow by lia. reflexivity.
    - exists 1. split; [|left; reflexivity]. split; [reflexivity|]. intros [|k] Hk; [reflexivity|cbn in Hk; lia]. }
  assert (Hc1 : count (first_leaves m lg) 0 0 = 1%nat) by reflexivity.
  assert (Hh : length (first_leaves m lg) = (2 ^ Z.to_nat (m - lg))%nat) by (apply Nat2Z.inj; rewrite F1, leaves_pow, pow2_Z by lia; f_equal; lia).
  assert (D0 : density_at lg (first_leaves m lg) 0 0 = ratio_of 1 (2 ^ (lg + 0))) by (unfold density_at; now rewrite Hc1).
  assert (Out : out_at (fun d b => SFleb b d) m lg (first_leaves m lg) (fun d => (bounds_of m lg d).(y)) 0 0 = false).
  { unfold out_at. destruct (SFleb _ _) eqn:E; [|reflexivity]. rewrite D0 in E. apply (upper_out m lg 0 1) in E; auto; lia. }
  assert (One : is_one (density_at lg (first_leaves m lg) 0 0) = false) by (rewrite D0, is_one_spec by lia; apply Z.eqb_neq; rewrite Z.add_0_r; lia).
  exists p1. split.
  - destruct (rebalance_spec upper_density_bound (fun d b => SFleb b d) double_list p1 [[]] m lg (first_leaves m lg) (fun d => (bounds_of m lg d).(y)) 0 Hs1 Hok Hlay Hh ltac:(cbn; lia) Su is_one 0) as [(k & Hk & Hin & Hout & E)|[Hout E]]; [lia| |].
    + rewrite One in Hout. destruct k as [|k]; [exact E|]. rewrite (Hout 0%nat ltac:(lia)) in Out. discriminate.
    + rewrite One in Hout. rewrite (Hout 0%nat ltac:(lia)) in Out. discriminate.
  - now split.
Qed.

Lemma add_nodes_spec j : forall p m lg L k, balanced p (repeat [] k) m lg L -> (1 <= k)%nat -> Z.of_nat (k + j) < 2 ^ 31 ->
  exists p' m' lg' L', add_nodes p j = Some p' /\ balanced p' (repeat [] (k + j)) m' lg' L'.
Proof.
  induction j as [|j IH]; intros p m lg L k Hb Hk Hsz; [rewrite Nat.add_0_r; cbn; eauto 6|]. cbn [add_nodes].
  destruct (add_node_next p m lg L k Hb Hk ltac:(lia)) as (p1 & m1 & lg1 & L1 & -> & Hb1). replace (k + S j)%nat with (S k + j)%nat by lia. apply (IH p1 m1 lg1 L1); auto; lia.
Qed.

(** ** The constructor *)
Lemma new_PMA_stores unset n : 2 <= n < 2 ^ 30 -> exists p, new_PMA unset n = Some p /\ stores p (repeat [] (Z.to_nat n)).
Proof.
  intros Hn. unfold new_PMA. assert (E2 : u32 (n * 2) = n * 2) by (unfold u32, uwrap; rewrite Z.mod_small; lia). rewrite E2, (proj2 (Z.eqb_neq _ _)) by lia. cbn zeta.
  set (k := Z.log2 (n * 2)). assert (Hk : 2 <= k <= 30) by (split; [apply Z.log2_le_pow2; lia|apply Z.lt_succ_r, Z.log2_lt_pow2; lia]).
  set (m := Z.max (k + 1) 4). assert (EN : Z.max (u64 (Z.shiftl 2 (bsr_word (n * 2)))) 16 = 2 ^ m).
  { unfold bsr_word. fold k. rewrite Z.shiftl_mul_pow2 by lia. change 2 with (2 ^ 1) at 1. rewrite <- Z.pow_add_r by lia. unfold u64, uwrap. rewrite Z.mod_small by (pose proof (pow_lt_64 (1 + k)); lia).
    unfold m. destruct (Z.max_spec (k + 1) 4) as [[L ->]|[L ->]]; [apply Z.max_r, (Z.pow_le_mono_r 2 (1 + k) 4); lia|]. rewrite (Z.add_comm k). apply Z.max_l. apply (Z.pow_le_mono_r 2 4 (1 + k)); lia. }
  rewrite EN. assert (Hm : 4 <= m <= 32) by lia. unfold bsr_word. rewrite Z.log2_pow2 by lia. set (lg := Z.log2 (m + 1)).
  set (e0 := mk_edge_list (2 ^ m) 0 0 0 0 _ _ _). set (p0 := mk_PMA e0 [] 1 (repeat unset 32) (repeat unset 32)).
  destruct (set_size_spec p0 m lg (repeat 0 (Z.to_nat (2 ^ m))) (repeat NULL_VAL (Z.to_nat (2 ^ m))) Hm ltac:(auto) eq_refl eq_refl) as (ups & lows & B & S).
  change (set_edges p0 (set_leaf_size (edges p0) (2 ^ m) lg)) with (mk_PMA (set_leaf_size e0 (2 ^ m) lg) [] 1 (repeat unset 32) (repeat unset 32)) in B. rewrite B. set (p1 := mk_PMA _ _ _ ups lows).
  destruct (add_node_first p1 m lg S eq_refl) as (p2 & E & Hb); [split; [symmetry; apply fmap_nulls_fst|symmetry; apply fmap_nulls_snd]|].
  destruct (Z.to_nat n) as [|j] eqn:Ej; [lia|]. cbn [add_nodes]. rewrite E.
  destruct (add_nodes_spec j p2 m lg _ 1 Hb ltac:(lia) ltac:(lia)) as (p' & m' & lg' & L' & -> & Hb'). exists p'. split; [reflexivity|]. cbn [Nat.add] in Hb'. split; [apply none_fits; lia| | |eauto].
  - apply Forall_lookup. intros i x Hx. apply lookup_repeat in Hx as ->. constructor.
  - rewrite repeat_length. apply none_lookup. lia.
Qed.

(** ** Reading *)

Definition edge_of (c : cell) : edge_t := mk_edge c.1 c.2.

Section Iteration.
Context (p : PMA) (G : list (list cell)) (m lg : Z) (L : list (list cell)) (src : nat) (es : list cell).
#[local] Abbreviation w := (leaf lg).
#[local] Abbreviation k0 := (head G src).
#[local] Abbreviation hi := (place w L (head G (S src))).
#[local] Abbreviation spot t := (place w L (k0 + 1 + t)).
Hypothesis HG : graph_fits G.
Hypothesis Hb : balanced p G m lg L.
Hypothesis Hes : G !! src = Some es.
Hypothesis Hsrc : (S src < length G)%nat.

Lemma spot_le t u : (t <= u <= length es)%nat -> (place w L k0 < spot t <= spot u)%nat /\ (spot u <= hi)%nat /\ spot (length es) = hi.
Proof.
  intros H. destruct (balanced_facts p G m lg L src HG Hb Hsrc) as (Hw & _). destruct (heads_in p G m lg L src HG Hb Hsrc) as [I1 I2]. pose proof (next_head G src es Hes Hsrc) as Nh.
  assert (Mono : forall a b, (a <= b <= head G (S src))%nat -> (place w L a <= place w L b)%nat).
  { intros a b Hab. destruct (Nat.eq_dec a b) as [->|]; [lia|]. apply Nat.lt_le_incl, place_lt; auto; lia. }
  split; [split; [apply place_lt; auto; lia|apply Mono; lia]|]. split; [apply Mono; lia|]. now rewrite Nh.
Qed.

(** Between an element and the next one, all cells are null. *)
Lemma gap_null t i : (t <= length es)%nat -> Z.of_nat (place w L (k0 + t)) < i < Z.of_nat (spot t) -> dest_at p i = NULL_VAL.
Proof.
  intros Ht Hi. destruct (balanced_facts p G m lg L src HG Hb Hsrc) as (Hw & _). destruct (heads_in p G m lg L src HG Hb Hsrc) as [I1 I2]. pose proof (next_head G src es Hes Hsrc) as Nh.
  destruct (spot_le t (length es) ltac:(lia)) as (S1 & _ & S3). destruct (Z.eq_dec (dest_at p i) NULL_VAL) as [|N]; [assumption|exfalso].
  assert (Lo : (place w L k0 <= place w L (k0 + t))%nat) by (destruct (Nat.eq_dec t 0) as [->|]; [rewrite Nat.add_0_r; lia|apply Nat.lt_le_incl, place_lt; auto; lia]).
  destruct (edge_cell p G m lg L src es HG Hb Hes Hsrc i ltac:(lia) N) as (u & c & Hc & -> & _). pose proof (lookup_lt_Some _ _ _ Hc).
  destruct Hi as [Hi1 Hi2]. apply Nat2Z.inj_lt in Hi1, Hi2. apply place_lt in Hi1, Hi2; auto; lia.
Qed.

(** The iterator stops at the next element. *)
Lemma skip_null_spec t : (t <= length es)%nat -> forall fuel x, Z.of_nat (place w L (k0 + t)) < x <= Z.of_nat (spot t) -> (Z.to_nat (Z.of_nat (spot t) - x) < fuel)%nat ->
  skip_null (edges p) fuel x (Z.of_nat hi) = Some (Z.of_nat (spot t)).
Proof.
  intros Ht. destruct (balanced_facts p G m lg L src HG Hb Hsrc) as (Hw & _ & _ & R1 & Ew & Wp & _ & _ & _ & _ & Ell). destruct (spot_le t (length es) ltac:(lia)) as (S1 & S2 & S3).
  destruct (heads_in p G m lg L src HG Hb Hsrc) as [I1 I2]. pose proof (next_head G src es Hes Hsrc) as Nh.
  assert (Lo : (place w L k0 <= place w L (k0 + t))%nat) by (destruct (Nat.eq_dec t 0) as [->|]; [rewrite Nat.add_0_r; lia|apply Nat.lt_le_incl, place_lt; auto; lia]).
  induction fuel as [|fuel IH]; intros x Hx Hf; [lia|]. cbn [skip_null]. destruct (Z.ltb_spec x (Z.of_nat hi)) as [Lx|Lx].
  - destruct (dest_cell p G m lg L src es HG Hb Hes Hsrc x ltac:(lia)) as (_ & _ & _ & ->). destruct (Z.eq_dec x (Z.of_nat (spot t))) as [->|Nx].
    + rewrite (proj2 (Z.eqb_neq _ _)); [reflexivity|]. apply (dest_full p G m lg L src HG Hb Hsrc). lia.
    + rewrite (gap_null t x Ht ltac:(lia)), Z.eqb_refl, Ell. destruct (next_leaf_spec lg ltac:(lia) x ltac:(lia)) as [B1 B2].
      assert (Hn : next_leaf x lg <= Z.of_nat (spot t)).
      { destruct (Z.le_gt_cases (next_leaf x lg) (Z.of_nat (spot t))) as [|X]; [assumption|exfalso].
        apply (dest_full p G m lg L src HG Hb Hsrc (k0 + 1 + t)); [lia|]. apply (null_leaf (dest_at p) lg (Z.of_nat (place w L k0)) (Z.of_nat hi)) with (i := x); try lia.
        - exact (dest_packed p G m lg L src es HG Hb Hes Hsrc).
        - apply (gap_null t x Ht). lia. }
      apply IH; lia.
  - rewrite (proj2 (Z.ltb_ge _ _)) by lia. f_equal. lia.
Qed.

Lemma it_all_spec fuel : forall t, (t <= length es)%nat -> (length es - t <= fuel)%nat ->
  it_all p fuel (mk_iterator (Z.of_nat (spot t)) (Z.of_nat hi)) (Z.of_nat hi) = Some (map edge_of (drop t es)).
Proof.
  destruct (balanced_facts p G m lg L src HG Hb Hsrc) as (Hw & He & _ & _ & _ & Wp & HN & _). pose proof (hi_in p G m lg L src es HG Hb Hes Hsrc) as Hi.
  destruct (heads_in p G m lg L src HG Hb Hsrc) as [I1 I2]. pose proof (next_head G src es Hes Hsrc) as Nh.
  induction fuel as [|fuel IH]; intros t Ht Hf; destruct (spot_le t (length es) ltac:(lia)) as (S1 & S2 & S3).
  - assert (t = length es) as -> by lia. cbn [it_all Pma.place]. rewrite S3, Z.eqb_refl, drop_all. reflexivity.
  - cbn [it_all Pma.place]. destruct (Nat.eq_dec t (length es)) as [->|Nt]; [rewrite S3, Z.eqb_refl, drop_all; reflexivity|].
    destruct (lookup_lt_is_Some_2 es t ltac:(lia)) as [c Hc]. pose proof (edge_place p G m lg L src es HG Hb Hes Hsrc t ltac:(lia)) as P. rewrite (proj2 (Z.eqb_neq _ _)) by lia.
    pose proof (entry_at G src es Hes Hsrc t c Hc) as E. rewrite <- He in E. destruct (read_place p G m lg L src HG Hb Hsrc _ c E) as [Rd Rv].
    unfold it_get, it_next. cbn [Pma.place it_end]. rewrite Rd, Rv. replace (k0 + 1 + t)%nat with (k0 + S t)%nat in * by lia.
    destruct (spot_le (S t) (length es) ltac:(lia)) as (S1' & S2' & _). assert (Hlt : (place w L (k0 + S t) < spot (S t))%nat) by (apply place_lt; auto; lia).
    rewrite (skip_null_spec (S t) ltac:(lia)) by lia. rewrite IH by lia. rewrite (drop_S es c t Hc). reflexivity.
Qed.

Lemma iterate_spec : iterate p (Z.of_nat src) = Some (map edge_of es).
Proof.
  destruct (balanced_facts p G m lg L src HG Hb Hsrc) as (Hw & He & _ & _ & _ & Wp & HN & _). pose proof (hi_in p G m lg L src es HG Hb Hes Hsrc) as Hi.
  destruct (heads_in p G m lg L src HG Hb Hsrc) as [I1 I2]. pose proof (next_head G src es Hes Hsrc) as Nh. destruct (spot_le 0 (length es) ltac:(lia)) as (S1 & S2 & S3).
  pose proof Hb as [_ [_ _ _ _ _ (e & [_ Hns] & _)] _ _ _]. specialize (Hns src ltac:(lia)). rewrite (proj2 (Nat.eqb_neq _ _)) in Hns by lia.
  assert (Rn : rd (nodes p) (Z.of_nat src) = Some (mk_node (pos_of w L G src) (pos_of w L G (S src)) (deg_of G src))) by (unfold rd; rewrite (proj2 (Z.leb_le _ _)), Nat2Z.id by lia; exact Hns).
  pose proof (length_concat_le w L Hw). unfold iterate, it_begin, it_last. rewrite Rn. cbn [beginning node_end]. unfold pos_of.
  rewrite (skip_null_spec 0 ltac:(lia)) by (try replace (k0 + 0)%nat with k0 by lia; lia). rewrite it_all_spec by lia. now rewrite drop_0.
Qed.
End Iteration.

(** *** All edges *)

Lemma get_edges_of_spec e i (mid : list cell) : forall a b j, vals e = (a ++ mid ++ b).*1 -> dests e = (a ++ mid ++ b).*2 -> j = Z.of_nat (length a) ->
  get_edges_of e i (length mid) j = Some (map (fun c => (i, c.2, c.1)) (List.filter is_full mid)).
Proof.
  induction mid as [|c mid IH]; intros a b j Hv Hd Hj; [reflexivity|]. cbn [get_edges_of length]. rewrite Hv, Hd. cbn [app]. rewrite (rd_snd a c), (rd_fst a c) by exact Hj.
  assert (Ea : a ++ (c :: mid) ++ b = (a ++ [c]) ++ mid ++ b) by now rewrite <- app_assoc. rewrite Ea in Hv, Hd. rewrite (IH (a ++ [c]) b (j + 1) Hv Hd) by len.
  cbn [List.filter]. unfold is_full at 3. destruct (c.2 =? NULL_VAL); reflexivity.
Qed.

(** The elements among the cells up to an element. *)
Lemma filter_place w L k : weak w L -> Forall full (concat L) -> (k < length (concat L))%nat ->
  List.filter is_full (take (place w L k) (cells w L)) = take k (concat L) /\ List.filter is_full (take (S (place w L k)) (cells w L)) = take (S k) (concat L).
Proof.
  intros Hw HF Hk. destruct (place_split w L k Hk) as (A & l1 & c & l2 & B & EL & E1 & E2 & _). rewrite E2. clear E2. subst L k.
  pose proof Hw as [HA _]%Forall_app. rewrite concat_app in HF |- *. cbn [concat] in HF |- *. apply Forall_app in HF as [FA F]. rewrite <- app_assoc in F |- *. apply Forall_app in F as [F1 F2]. cbn [app] in *.
  apply Forall_cons_iff in F2 as [Fc _]. pose proof (length_arrays w A HA) as La.
  assert (Ec : exists r, cells w (A ++ (l1 ++ c :: l2) :: B) = (cells w A ++ l1 ++ [c]) ++ r).
  { eexists. rewrite cells_app, cells_cons. unfold pad. rewrite <- !app_assoc. reflexivity. }
  destruct Ec as [r ->]. assert (EA : List.filter is_full (cells w A) = concat A) by (apply elements_cells; assumption). assert (E1 : List.filter is_full l1 = l1) by now apply filter_is_full_self.
  assert (Ecf : List.filter is_full [c] = [c]) by (apply filter_is_full_self; now constructor). split.
  - replace (w * length A + length l1)%nat with (length (cells w A ++ l1)) by (rewrite length_app; lia).
    replace ((cells w A ++ l1 ++ [c]) ++ r) with ((cells w A ++ l1) ++ c :: r) by (rewrite <- !app_assoc; reflexivity). rewrite take_app_length, List.filter_app, EA, E1.
    rewrite (app_assoc (concat A)). rewrite <- length_app, take_app_length. reflexivity.
  - replace (S (w * length A + length l1)) with (length (cells w A ++ l1 ++ [c])) by (rewrite !length_app; cbn [length]; lia).
    rewrite take_app_length, !List.filter_app, EA, E1, Ecf. replace (S (length (concat A) + length l1)) with (length (concat A ++ l1 ++ [c])) by (rewrite !length_app; cbn [length]; lia).
    replace (concat A ++ l1 ++ c :: l2 ++ concat B) with ((concat A ++ l1 ++ [c]) ++ l2 ++ concat B) by (rewrite <- !app_assoc; reflexivity). now rewrite take_app_length.
Qed.

(** The edges, vertex by vertex. *)
Fixpoint edge_list (i : Z) (G : list (list cell)) : list (Z * Z * Z) :=
  match G with [] => [] | es :: G => map (fun c => (i, c.2, c.1)) es ++ edge_list (i + 1) G end.

Section Reads.
Context (p : PMA) (G : list (list cell)).
Hypothesis Hst : stores p G.

(** The cells of a vertex end before a cell up to which lie the elements up to the next vertex. *)
Lemma vertex_range m lg L k es e : balanced p G m lg L -> G !! k = Some es -> end_ok (N (edges p)) (pos_of (leaf lg) L G (length G - 1)) e ->
  exists x, (S (place (leaf lg) L (head G k)) <= x <= leaf lg * length L)%nat /\ (if (S k =? length G)%nat then e else pos_of (leaf lg) L G (S k)) = Z.of_nat x
    /\ List.filter is_full (take x (cells (leaf lg) L)) = take (S (head G k) + length es) (concat L).
Proof.
  intros Hb Hes Hend. destruct Hst as [HG _ Hlast _]. pose proof HG as (_ & H2 & _). pose proof (lookup_lt_Some _ _ _ Hes) as Hk.
  destruct (balanced_facts p G m lg L 0 HG Hb ltac:(lia)) as (Hw & He & _ & _ & _ & Wp & HN & HF & _). pose proof Hb as [_ _ _ Hstr _].
  set (b := place (leaf lg) L (head G k)) in *. assert (Hh : (head G k < length (concat L))%nat) by (rewrite He; now apply head_lt_size).
  assert (Lb : (b < leaf lg * length L)%nat) by now apply place_bound.
  destruct (Nat.eqb_spec (S k) (length G)) as [El|El].
  - replace (length G - 1)%nat with k in * by lia. assert (es = []) as -> by congruence. cbn [length]. rewrite Nat.add_0_r.
    assert (Hall : S (head G k) = length (concat L)) by (rewrite He, length_entries; pose proof (head_S G k [] Hes) as Y; unfold head in Y at 1; rewrite El, firstn_all in Y; cbn in Y; lia).
    assert (Top : (S b < leaf lg * length L)%nat).
    { destruct (Nat.eq_dec (S b) (leaf lg * length L)) as [Eb|]; [exfalso|lia]. destruct (lookup_lt_is_Some_2 (concat L) (head G k) Hh) as [c Hc].
      pose proof Hc as Hc'. rewrite <- (cells_place (leaf lg) L _ Hw Hh) in Hc. fold b in Hc. rewrite Forall_lookup in HF. apply (HF _ _ Hc'). apply (cells_gap (leaf lg) L b c Hstr Hc).
      rewrite Eb, Nat.mul_comm. apply Nat.Div0.mod_mul. }
    assert (Ex : exists x, e = Z.of_nat x /\ (S b <= x <= leaf lg * length L)%nat) by (unfold end_ok, pos_of in Hend; fold b in Hend; exists (Z.to_nat e); lia).
    destruct Ex as (x & -> & Hx). exists x. split; [exact Hx|]. split; [reflexivity|]. destruct (filter_place (leaf lg) L (head G k) Hw HF Hh) as [_ F1]. fold b in F1. rewrite Hall, firstn_all in *.
    assert (FA : List.filter is_full (cells (leaf lg) L) = concat L) by now apply elements_cells.
    rewrite <- (take_drop x (cells (leaf lg) L)), List.filter_app in FA. rewrite <- (take_drop (S b) (take x (cells (leaf lg) L))), List.filter_app, take_take, Nat.min_l, F1 in FA |- * by lia.
    rewrite <- app_assoc in FA. rewrite <- (app_nil_r (concat L)) in FA at 2. apply app_inv_head in FA. apply app_eq_nil in FA as [-> _]. apply app_nil_r.
  - exists (place (leaf lg) L (head G (S k))). pose proof (hi_in p G m lg L k es HG Hb Hes ltac:(lia)) as Hi. fold b in Hi. split; [lia|]. split; [reflexivity|].
    assert (Hh' : (head G (S k) < length (concat L))%nat) by (rewrite He; apply head_lt_size; lia).
    destruct (filter_place (leaf lg) L (head G (S k)) Hw HF Hh') as [-> _]. f_equal. rewrite (head_S G k es Hes). lia.
Qed.

Lemma vertex_edges k es nd : G !! k = Some es -> nodes p !! k = Some nd ->
  get_edges_of (edges p) (Z.of_nat k) (Z.to_nat (node_end nd - (beginning nd + 1))) (beginning nd + 1) = Some (map (fun c => (Z.of_nat k, c.2, c.1)) es).
Proof.
  intros Hes Hnd. pose proof Hst as [HG _ _ (m & lg & L & Hb)]. pose proof (lookup_lt_Some _ _ _ Hes) as Hk. pose proof (proj1 (proj2 HG)) as H2.
  destruct (balanced_facts p G m lg L 0 HG Hb ltac:(lia)) as (Hw & He & [Hv Hd] & _ & _ & Wp & HN & HF & _). pose proof Hb as [_ [_ _ _ _ _ (e & [_ Hns] & Hend)] _ _ _].
  destruct (vertex_range m lg L k es e Hb Hes Hend) as (x & Hx & Ex & F2).
  assert (nd = mk_node (pos_of (leaf lg) L G k) (Z.of_nat x) (deg_of G k)) as -> by (rewrite Hns, Ex in Hnd by exact Hk; congruence). cbn [beginning node_end].
  destruct (filter_place (leaf lg) L (head G k) Hw HF ltac:(rewrite He; now apply head_lt_size)) as [_ F1].
  unfold pos_of. set (b := place (leaf lg) L (head G k)) in *. set (cs := cells (leaf lg) L) in *. assert (Lc : length cs = (leaf lg * length L)%nat) by now apply length_arrays.
  set (mid := drop (S b) (take x cs)). assert (Lm : length mid = (x - S b)%nat) by (unfold mid; rewrite length_drop, length_take; lia).
  assert (Ecs : cs = take (S b) cs ++ mid ++ drop x cs).
  { unfold mid. rewrite app_assoc. rewrite <- (take_drop x cs) at 1. f_equal. rewrite <- (take_drop (S b) (take x cs)) at 1. rewrite take_take, Nat.min_l by lia. reflexivity. }
  replace (Z.to_nat (Z.of_nat x - (Z.of_nat b + 1))) with (length mid) by lia.
  rewrite (get_edges_of_spec (edges p) (Z.of_nat k) mid (take (S b) cs) (drop x cs)); [|now rewrite <- Ecs|now rewrite <- Ecs|rewrite length_take; lia].
  assert (Fm : List.filter is_full mid = es); [|now rewrite Fm].
  rewrite <- (take_drop (S b) (take x cs)), List.filter_app, take_take, Nat.min_l, F1 in F2 by lia. fold mid in F2.
  destruct (entries_around G k es Hes) as [Ee Le]. rewrite He, Ee in F2. replace (S (head G k)) with (length (entries 0 (take k G) ++ [sentinel k])) in F2 by lia.
  rewrite take_app_length, take_app_add, take_app_length in F2. now apply app_inv_head in F2.
Qed.

Lemma get_edges_spec : get_edges p = Some (edge_list 0 G).
Proof.
  pose proof Hst as [HG _ _ (m & lg & L & Hb)]. pose proof Hb as [_ [_ _ _ _ _ (e & [Hl _] & _)] _ _ _]. unfold get_edges.
  assert (P : forall G1 ns1 k, length ns1 = length G1 -> (forall i es nd, G1 !! i = Some es -> ns1 !! i = Some nd ->
      get_edges_of (edges p) (k + Z.of_nat i) (Z.to_nat (node_end nd - (beginning nd + 1))) (beginning nd + 1) = Some (map (fun c => (k + Z.of_nat i, c.2, c.1)) es)) ->
      get_edges_from (edges p) ns1 k = Some (edge_list k G1)).
  { induction G1 as [|es G1 IH]; intros [|nd ns1] k Hlen H; try discriminate; [reflexivity|]. cbn [get_edges_from edge_list]. specialize (H 0%nat es nd eq_refl eq_refl) as H0. rewrite Z.add_0_r in H0. rewrite H0.
    rewrite (IH ns1 (k + 1)); [reflexivity|cbn in Hlen; lia|]. intros i es' nd' Hi Hi'. specialize (H (S i) es' nd' Hi Hi'). now replace (k + Z.of_nat (S i)) with (k + 1 + Z.of_nat i) in H by lia. }
  apply P; [exact Hl|]. intros i es nd Hi Hi'. now apply vertex_edges.
Qed.

Lemma num_edges_spec : Z.of_nat (size G) < 2 ^ 64 -> num_edges p = Z.of_nat (length (concat G)).
Proof.
  intros Hsz. pose proof Hst as [HG _ _ (m & lg & L & Hb)]. pose proof Hb as [_ [_ _ _ _ _ (e & [Hl Hns] & _)] _ _ _]. unfold num_edges.
  assert (P : forall G1 ns1 acc, length ns1 = length G1 -> (forall i es nd, G1 !! i = Some es -> ns1 !! i = Some nd -> num_neighbors nd = Z.of_nat (length es)) ->
     0 <= acc -> acc + Z.of_nat (size G1) < 2 ^ 64 -> fold_left (fun num n => (num + num_neighbors n)%u64) ns1 acc = acc + Z.of_nat (length (concat G1))).
  { induction G1 as [|es G1 IH]; intros [|nd ns1] acc Hlen H Ha Hs; try discriminate; [cbn; lia|]. cbn [fold_left concat size] in *. rewrite (H 0%nat es nd eq_refl eq_refl).
    assert (Ea : (acc + Z.of_nat (length es))%u64 = acc + Z.of_nat (length es)) by (unfold add64, u64, uwrap; rewrite Z.mod_small; lia). injection Hlen as Hlen. rewrite Ea, IH; [rewrite length_app; lia|exact Hlen| |lia|lia].
    intros i es' nd' Hi Hi'. exact (H (S i) es' nd' Hi Hi'). }
  rewrite (P G); [reflexivity|exact Hl| |lia|lia]. intros i es nd Hi Hi'. rewrite Hns in Hi' by (apply lookup_lt_Some in Hi; exact Hi). injection Hi' as <-. now apply deg_of_spec.
Qed.
End Reads.

(** ** Copies *)

Lemma copy_bounds_spec unset (a : list spec_float) h : length a = 32%nat -> 0 <= h < 32 ->
  exists b, copy_bounds unset a h = Some b /\ length b = 32%nat /\ forall i, 0 <= i <= h -> rd b i = rd a i.
Proof.
  intros L Hh. unfold copy_bounds, read_all. rewrite (proj2 (Z.leb_le _ _)) by lia. eexists. split; [reflexivity|]. split; [rewrite length_app, repeat_length, length_take; lia|].
  intros i Hi. unfold rd. rewrite (proj2 (Z.leb_le _ _)) by lia. rewrite lookup_app_l by (rewrite length_take; lia). rewrite lookup_take, decide_True by lia. reflexivity.
Qed.

Lemma copy_PMA_stores unset p G : stores p G -> exists p', copy_PMA unset p = Some p' /\ stores p' G.
Proof.
  intros [H1 H2 H3 (m & lg & L & [S Y HL Hs Hd])]. pose proof S as [S1 S2 SN SH Sl Sll Sm [B1 B2] Su Slo]. pose proof Y as [[Hv Hds] Y2 Y3 Y4 Y5 Y6].
  pose proof (log_range m lg S1 S2) as [[R1 R2] _]. pose proof (length_arrays (leaf lg) L Y2) as Lc.
  destruct (copy_bounds_spec unset _ (H (edges p)) B1 ltac:(lia)) as (ups & Eu & Lu & Hu). destruct (copy_bounds_spec unset _ (H (edges p)) B2 ltac:(lia)) as (lows & El & Ll & Hl).
  unfold copy_PMA. rewrite Eu, El, !read_all_spec by (rewrite ?Hv, ?Hds, length_fmap; lia). eexists. split; [reflexivity|]. split; auto. exists m, lg, L. split; auto.
  - split; cbn; auto; intros i Hi; [rewrite Hu by lia; now apply Su|rewrite Hl by lia; now apply Slo].
  - now split.
Qed.

(** ** Histories *)

(** The operations of a client, with vertices as numbers. *)
Inductive edge_op :=
| Add (src : nat) (dest value : Z)
| AddNew (src : nat) (dest value : Z)
| Remove (src : nat) (dest : Z)
| AddBatch (es : list (nat * Z * Z))
| AddOnes (es : list (nat * Z))
| AddNoVal (es : list (nat * Z))
| RemoveBatch (es : list (nat * Z))
| Copy.

Definition triple (e : nat * Z * Z) : Z * Z * Z := (Z.of_nat e.1.1, e.1.2, e.2).
Definition pair_of (e : nat * Z) : Z * Z := (Z.of_nat e.1, e.2).

(** A copy takes the place of the original. *)
Definition run_op (unset : spec_float) (p : PMA) (o : edge_op) : option (list bool * PMA) :=
  match o with
  | Add src dest value => let? (b, p) := add_edge_update p (Z.of_nat src) dest value in Some ([b], p)
  | AddNew src dest value => let? p := add_edge p (Z.of_nat src) dest value in Some ([], p)
  | Remove src dest => let? (b, p) := remove_edge p (Z.of_nat src) dest in Some ([b], p)
  | AddBatch es => let? p := add_edge_batch_update p (map triple es) in Some ([], p)
  | AddOnes es => let? p := add_edge_batch_wrapper p (map pair_of es) in Some ([], p)
  | AddNoVal es => let? p := add_edge_batch_update_no_val p (map pair_of es) in Some ([], p)
  | RemoveBatch es => let? p := remove_edge_batch p (map pair_of es) in Some ([], p)
  | Copy => let? p := copy_PMA unset p in Some ([], p)
  end.

Fixpoint run_ops (unset : spec_float) (p : PMA) (os : list edge_op) : option (list bool * PMA) :=
  match os with
  | [] => Some ([], p)
  | o :: os => let? (bs, p) := run_op unset p o in let? (cs, p) := run_ops unset p os in Some (bs ++ cs, p)
  end.

(** The same on lists of edges. *)
Definition ref_add (G : list (list cell)) (src : nat) (dest value : Z) : bool * list (list cell) :=
  match G !! src with
  | Some es => if value =? 0 then (false, G) else (negb (known dest es), <[src := put_edge value dest es]> G)
  | None => (false, G)
  end.
Definition ref_remove (G : list (list cell)) (src : nat) (dest : Z) : bool * list (list cell) :=
  match G !! src with Some es => (known dest es, <[src := drop_edge dest es]> G) | None => (false, G) end.
Definition ref_adds (G : list (list cell)) (es : list (nat * Z * Z)) : list (list cell) := fold_left (fun G e => (ref_add G e.1.1 e.1.2 e.2).2) es G.
Definition ref_removes (G : list (list cell)) (es : list (nat * Z)) : list (list cell) := fold_left (fun G e => (ref_remove G e.1 e.2).2) es G.

Definition ref_op (G : list (list cell)) (o : edge_op) : list bool * list (list cell) :=
  match o with
  | Add src dest value => let '(b, G) := ref_add G src dest value in ([b], G)
  | AddNew src dest value => ([], (ref_add G src dest value).2)
  | Remove src dest => let '(b, G) := ref_remove G src dest in ([b], G)
  | AddBatch es => ([], ref_adds G es)
  | AddOnes es | AddNoVal es => ([], ref_adds G (map (fun e => (e, 1)) es))
  | RemoveBatch es => ([], ref_removes G es)
  | Copy => ([], G)
  end.
Fixpoint ref_ops (G : list (list cell)) (os : list edge_op) : list bool * list (list cell) :=
  match os with [] => ([], G) | o :: os => let '(bs, G) := ref_op G o in let '(cs, G) := ref_ops G os in (bs ++ cs, G) end.

(** Edges of the vertices but the last; [add_edge] is for edges that are not in the graph. *)
Definition edge_at (n : nat) (src : nat) (dest : Z) : Prop := (S src < n)%nat /\ 0 <= dest < SENT_VAL.
Definition op_ok (n : nat) (G : list (list cell)) (o : edge_op) : Prop :=
  match o with
  | AddNew src dest _ => edge_at n src dest /\ known dest (default [] (G !! src)) = false
  | Add src dest _ | Remove src dest => edge_at n src dest
  | AddBatch es => Forall (fun e => edge_at n e.1.1 e.1.2) es
  | AddOnes es | AddNoVal es | RemoveBatch es => Forall (fun e => edge_at n e.1 e.2) es
  | Copy => True
  end.

Fixpoint ops_ok (n : nat) (G : list (list cell)) (os : list edge_op) : Prop :=
  match os with [] => True | o :: os => op_ok n G o /\ ops_ok n (ref_op G o).2 os end.

(** How many edges an operation can add. *)
Definition op_size (o : edge_op) : nat := match o with Add _ _ _ | AddNew _ _ _ => 1 | AddBatch es => length es | AddOnes es | AddNoVal es => length es | _ => 0 end.
Definition ops_size (os : list edge_op) : nat := fold_right (fun o n => (op_size o + n)%nat) 0%nat os.

(** The array stores the graph, and there is room for [k] more elements. *)
Definition keeps (p : PMA) (G : list (list cell)) (n k : nat) : Prop := stores p G /\ length G = n /\ Z.of_nat (size G + k) + 1 < 2 ^ 31.

Lemma keeps_task p G n k t : keeps p G n k -> keeps (take_task p t) G n k.
Proof. intros (H1 & H2). split; [now apply stores_task|exact H2]. Qed.

Lemma keeps_less p G n j k : keeps p G n k -> (j <= k)%nat -> keeps p G n j.
Proof. intros (H1 & H2 & H3) H. split; [exact H1|]. split; [exact H2|lia]. Qed.

Lemma size_insert G src es es' : G !! src = Some es -> (size (<[src := es']> G) + length es = size G + length es')%nat.
Proof.
  intros H. pose proof (head_insert G src es es' H (length G) ltac:(lia)) as X. pose proof (lookup_lt_Some _ _ _ H). rewrite (proj2 (Nat.leb_gt _ _)) in X by lia.
  unfold head in X. rewrite firstn_all in X. rewrite firstn_all2 in X by (rewrite length_insert; lia). exact X.
Qed.

Lemma put_edge_length v d es : (length (put_edge v d es) <= S (length es))%nat.
Proof. induction es as [|c es IH]; cbn [put_edge length]; [lia|]. destruct (c.2 <? d); cbn [length]; [lia|]. destruct (c.2 =? d); cbn [length]; lia. Qed.

Lemma keeps_add p G n k src dest value : keeps p G n (S k) -> edge_at n src dest ->
  exists p', add_edge_update_fast p (Z.of_nat src) dest value = Some ((ref_add G src dest value).1, p') /\ keeps p' (ref_add G src dest value).2 n k.
Proof.
  intros (Hs & Hn & Hk) [H1 H2]. destruct (lookup_lt_is_Some_2 G src ltac:(lia)) as [es Hes]. unfold ref_add. rewrite Hes. destruct (Z.eqb_spec value 0) as [->|Nv].
  - unfold add_edge_update_fast. cbn. exists p. split; [reflexivity|]. apply (keeps_less p G n k (S k)); [split; auto|lia].
  - destruct (add_edge_fast_stores p G src es dest Hs Hes ltac:(lia) H2 ltac:(rewrite length_entries; lia) value Nv) as (p' & E & Hs'). exists p'. split; [exact E|].
    pose proof (size_insert G src es (put_edge value dest es) Hes). pose proof (put_edge_length value dest es). split; [exact Hs'|]. cbn [snd]. rewrite length_insert. split; [exact Hn|lia].
Qed.

Lemma keeps_remove p G n k src dest : keeps p G n k -> edge_at n src dest -> (5 <= n)%nat ->
  exists p', remove_edge_fast p (Z.of_nat src) dest = Some ((ref_remove G src dest).1, p') /\ keeps p' (ref_remove G src dest).2 n k.
Proof.
  intros (Hs & Hn & Hk) [H1 H2] H5. destruct (lookup_lt_is_Some_2 G src ltac:(lia)) as [es Hes]. unfold ref_remove. rewrite Hes.
  destruct (remove_edge_fast_stores p G src es dest Hs Hes ltac:(lia) H2 ltac:(rewrite length_entries; lia) ltac:(lia)) as (p' & E & Hs'). exists p'. split; [exact E|].
  pose proof (size_insert G src es (drop_edge dest es) Hes). pose proof (filter_length_le (fun c : cell => negb (c.2 =? dest)) es) as F. split; [exact Hs'|]. cbn [snd]. rewrite length_insert. split; [exact Hn|].
  unfold drop_edge in *. lia.
Qed.

Lemma keeps_adds es : forall p G n k, keeps p G n (length es + k) -> Forall (fun e => edge_at n e.1.1 e.1.2) es -> exists p', add_edges p (map triple es) = Some p' /\ keeps p' (ref_adds G es) n k.
Proof.
  induction es as [|[ [src dest] value] es IH]; intros p G n k Hk H; [eauto|]. apply Forall_cons_iff in H as [H1 H2]. cbn [map add_edges triple fst snd].
  destruct (keeps_add p G n (length es + k) src dest value Hk H1) as (p' & -> & Hk'). exact (IH p' _ n k Hk' H2).
Qed.

Lemma keeps_removes es : forall p G n k, keeps p G n k -> Forall (fun e => edge_at n e.1 e.2) es -> (5 <= n)%nat -> exists p', remove_edges p (map pair_of es) = Some p' /\ keeps p' (ref_removes G es) n k.
Proof.
  induction es as [|[src dest] es IH]; intros p G n k Hk H H5; [eauto|]. apply Forall_cons_iff in H as [H1 H2]. cbn [map remove_edges pair_of fst snd].
  destruct (keeps_remove p G n k src dest Hk H1 H5) as (p' & -> & Hk'). exact (IH p' _ n k Hk' H2 H5).
Qed.

Lemma keeps_ones es p G n k t : keeps p G n (length es + k) -> Forall (fun e => edge_at n e.1 e.2) es ->
  exists p', add_edges (take_task p t) (map (fun e => (fst e, snd e, 1)) (map pair_of es)) = Some p' /\ keeps p' (ref_adds G (map (fun e => (e, 1)) es)) n k.
Proof.
  intros Hk Ho. assert (Em : map (fun e => (fst e, snd e, 1)) (map pair_of es) = map triple (map (fun e => (e, 1)) es)) by (rewrite !map_map; reflexivity). rewrite Em.
  apply keeps_adds; [apply keeps_task; now rewrite length_map|]. apply List.Forall_forall. intros x (e & <- & He)%in_map_iff. rewrite List.Forall_forall in Ho. exact (Ho e He).
Qed.

(** [add_edge] is [add_edge_update] for a new edge. *)
Lemma add_edge_new p src dest value p' : value <> 0 -> add_edge_update_fast (take_task p 2) src dest value = Some (true, p') -> add_edge p src dest value = Some p'.
Proof.
  intros Nv. unfold add_edge_update_fast, add_edge. rewrite (proj2 (Z.eqb_neq _ _) Nv). cbn [negb]. set (q := take_task p 2). unfold modify_node.
  destruct (rd (nodes q) src) as [nd|] eqn:En; [|discriminate]. destruct (binary_search _ _ _ _) as [loc|] eqn:Eb; [|discriminate].
  destruct (rd (dests (edges q)) loc) as [d|]; [|discriminate]. destruct (d =? dest); [destruct (wr _ loc _); discriminate|].
  destruct (wr (nodes q) src _) as [ns|]; [|discriminate]. cbn [set_nodes edges nodes]. rewrite Eb. destruct (insert _ loc _ _); [congruence|discriminate].
Qed.

Lemma keeps_add_new p G n k src dest value : keeps p G n (S k) -> edge_at n src dest -> known dest (default [] (G !! src)) = false ->
  exists p', add_edge p (Z.of_nat src) dest value = Some p' /\ keeps p' (ref_add G src dest value).2 n k.
Proof.
  intros Hk He Hnew. destruct (keeps_add (take_task p 2) G n k src dest value (keeps_task _ _ _ _ _ Hk) He) as (p' & E & Hk'). unfold ref_add in *.
  pose proof (proj1 (proj2 Hk)) as Hn. destruct He as [H1 _]. destruct (lookup_lt_is_Some_2 G src ltac:(lia)) as [es Hes]. rewrite Hes in *. cbn [default] in Hnew. destruct (Z.eqb_spec value 0) as [->|Nv].
  - exists p. split; [reflexivity|]. apply (keeps_less p G n k (S k)); [exact Hk|lia].
  - cbn [fst snd] in *. change (id es) with es in Hnew. rewrite Hnew in E. exists p'. split; [now apply add_edge_new|exact Hk'].
Qed.

Lemma keeps_op unset p G n k o : keeps p G n (op_size o + k) -> op_ok n G o -> (5 <= n)%nat -> exists p', run_op unset p o = Some ((ref_op G o).1, p') /\ keeps p' (ref_op G o).2 n k.
Proof.
  intros Hk Ho H5. destruct o as [src dest value|src dest value|src dest|es|es|es|es|]; cbn [op_size op_ok run_op ref_op] in *.
  - unfold add_edge_update. assert (Hk' : keeps (if value =? 0 then p else take_task p 2) G n (S k)) by (destruct (value =? 0); [exact Hk|now apply keeps_task]).
    destruct (keeps_add _ G n k src dest value Hk' Ho) as (p' & -> & Hp). destruct (ref_add G src dest value). eauto.
  - destruct (keeps_add_new p G n k src dest value Hk (proj1 Ho) (proj2 Ho)) as (p' & -> & Hp). eauto.
  - destruct (keeps_remove (take_task p 2) G n k src dest (keeps_task _ _ _ _ _ Hk) Ho H5) as (p' & E & Hp). unfold remove_edge. rewrite E. destruct (ref_remove G src dest). eauto.
  - unfold add_edge_batch_update. destruct (keeps_adds es _ G n k (keeps_task _ _ _ _ (2 * Z.of_nat (length (map triple es)))%u64 Hk) Ho) as (p' & -> & Hp). eauto.
  - unfold add_edge_batch_wrapper. destruct (keeps_ones es p G n k (2 * Z.of_nat (length (map pair_of es)))%u64 Hk Ho) as (p' & -> & Hp). eauto.
  - unfold add_edge_batch_update_no_val. destruct (keeps_ones es p G n k (2 * Z.of_nat (length (map pair_of es)))%u64 Hk Ho) as (p' & -> & Hp). eauto.
  - unfold remove_edge_batch. destruct (keeps_removes es _ G n k (keeps_task _ _ _ _ (2 * Z.of_nat (length (map pair_of es)))%u64 Hk) Ho H5) as (p' & -> & Hp). eauto.
  - destruct Hk as [Hs Hk]. destruct (copy_PMA_stores unset p G Hs) as (p' & -> & Hs'). exists p'. split; [reflexivity|]. split; assumption.
Qed.

Lemma keeps_ops unset os : forall p G n k, keeps p G n (ops_size os + k) -> ops_ok n G os -> (5 <= n)%nat -> exists p', run_ops unset p os = Some ((ref_ops G os).1, p') /\ keeps p' (ref_ops G os).2 n k.
Proof.
  induction os as [|o os IH]; intros p G n k Hk Ho H5; [eauto|]. destruct Ho as [H1 H2]. cbn [ops_size fold_right run_ops ref_ops] in *.
  destruct (keeps_op unset p G n (ops_size os + k) o) as (p1 & -> & Hk1); auto; [now rewrite Nat.add_assoc|]. destruct (ref_op G o) as [bs G1].
  destruct (IH p1 G1 n k Hk1 H2 H5) as (p2 & -> & Hk2). destruct (ref_ops G1 os) as [cs G2]. eauto.
Qed.

(** What the reads of an array say. *)
Definition reads_as (p : PMA) (G : list (list cell)) : Prop :=
  get_n p = Z.of_nat (length G) /\ num_edges p = Z.of_nat (length (concat G)) /\ get_edges p = Some (edge_list 0 G)
  /\ forall src es, (S src < length G)%nat -> G !! src = Some es ->
    sorted_edges es /\ iterate p (Z.of_nat src) = Some (map edge_of es)
    /\ forall dest, 0 <= dest < SENT_VAL -> find_value p (Z.of_nat src) dest = Some (default 0 (edge_value dest es), take_task p 2).

Lemma keeps_reads p G n : keeps p G n 0 -> reads_as p G.
Proof.
  intros (Hs & Hn & Hk). pose proof Hs as [HG Hso _ (m & lg & L & Hb)]. split.
  - unfold get_n. destruct Hb as [_ [_ _ _ _ _ (e & [Hl _] & _)] _ _ _]. now rewrite Hl.
  - split; [apply num_edges_spec; [exact Hs|lia]|]. split; [now apply get_edges_spec|]. intros src es Hsrc Hes. rewrite Forall_lookup in Hso. split; [now apply (Hso src)|].
    split; [now apply (iterate_spec p G m lg L)|]. intros dest Hd. apply (find_value_stores p G src es dest); auto. rewrite length_entries. lia.
Qed.

(** The last cell of a leaf is free, and within a leaf nothing follows a free cell. *)
Definition leaves_packed (p : PMA) : Prop := forall i, 0 <= i < N (edges p) ->
  ((i + 1) mod logN (edges p) = 0 -> rd (dests (edges p)) i = Some NULL_VAL)
  /\ (rd (dests (edges p)) i = Some NULL_VAL -> (i + 1) mod logN (edges p) <> 0 -> rd (dests (edges p)) (i + 1) = Some NULL_VAL).

Lemma stores_packed p G : stores p G -> leaves_packed p.
Proof.
  intros [HG _ _ (m & lg & L & Hb)] i Hi. pose proof (proj1 (proj2 HG)) as H2. destruct (balanced_facts p G m lg L 0 HG Hb ltac:(lia)) as (Hw & _ & _ & R1 & Ew & Wp & HN & HF & _).
  pose proof Hb as [[_ _ _ _ El _ _ _ _ _] _ _ Hst _]. rewrite El, <- Ew.
  assert (Read : forall j, 0 <= j < N (edges p) -> exists c, cells (leaf lg) L !! Z.to_nat j = Some c /\ rd (dests (edges p)) j = Some c.2).
  { intros j Hj. destruct (read_cell p G m lg L 0 HG Hb ltac:(lia) (Z.to_nat j) ltac:(lia)) as (c & Hc & E & _). rewrite Z2Nat.id in E by lia. eauto. }
  assert (Em : (i + 1) mod Z.of_nat (leaf lg) = Z.of_nat (S (Z.to_nat i) mod leaf lg)) by (rewrite Nat2Z.inj_mod; f_equal; lia).
  destruct (Read i Hi) as (c & Hc & E). rewrite E. split.
  - intros Hm. f_equal. apply (cells_gap (leaf lg) L (Z.to_nat i) c Hst Hc). lia.
  - intros Hn Hm. assert (Hi1 : i + 1 < N (edges p)).
    { destruct (Z.eq_dec (i + 1) (N (edges p))) as [X|]; [exfalso|lia]. apply Hm. rewrite X, HN, Nat2Z.inj_mul, Z.mul_comm. apply Z.mod_mul. lia. }
    destruct (Read (i + 1) ltac:(lia)) as (c' & Hc' & E'). rewrite E'. f_equal. apply (cells_packed (leaf lg) L (Z.to_nat i) c c' Wp Hw Hc); auto; [congruence|lia|]. now replace (S (Z.to_nat i)) with (Z.to_nat (i + 1)) by lia.
Qed.

Lemma new_PMA_keeps unset n k : 2 <= n < 2 ^ 30 -> n + Z.of_nat k + 1 < 2 ^ 31 -> exists p, new_PMA unset n = Some p /\ keeps p (repeat [] (Z.to_nat n)) (Z.to_nat n) k.
Proof.
  intros Hn Hk. destruct (new_PMA_stores unset n Hn) as (p & E & Hs). exists p. split; [exact E|]. split; [exact Hs|]. rewrite repeat_length, size_none. split; [reflexivity|lia].
Qed.

(** * The properties *)

(** C9: From an array without edges, additions and removals, one by one or in batches, and
    copies never fail; they return what the reference functions on sorted lists of edges return, and then
    the searches, the iterations, the list and the number of all edges read the reference
    graph.  The last vertex must not get edges, and there must be five vertices. *)
Theorem edge_history unset n os : 5 <= n < 2 ^ 30 -> ops_ok (Z.to_nat n) (repeat [] (Z.to_nat n)) os -> n + Z.of_nat (ops_size os) + 1 < 2 ^ 31 ->
  exists p0 p, new_PMA unset n = Some p0 /\ run_ops unset p0 os = Some ((ref_ops (repeat [] (Z.to_nat n)) os).1, p) /\ reads_as p (ref_ops (repeat [] (Z.to_nat n)) os).2.
Proof.
  intros Hn Ho Hsz. destruct (new_PMA_keeps unset n (ops_size os + 0) ltac:(lia) ltac:(lia)) as (p0 & E & Hk).
  destruct (keeps_ops unset os p0 _ _ 0 Hk Ho ltac:(lia)) as (p & R & Hk'). exists p0, p. split; [exact E|]. split; [exact R|]. now apply (keeps_reads p _ (Z.to_nat n)).
Qed.

Definition some_ops : list edge_op :=
  [Add 0 3 7; AddNew 0 1 5; AddBatch [(1%nat, 4, 2); (0%nat, 2, 9)]; Add 0 3 8; AddOnes [(2%nat, 0); (0%nat, 9)]; Remove 0 2; Copy; AddNoVal [(3%nat, 6)]; Remove 1 3; RemoveBatch [(0%nat, 1); (2%nat, 0)]].

Lemma some_ops_ok : ops_ok 5 (repeat [] 5) some_ops.
Proof. repeat constructor; try (cbn; lia); unfold SENT_VAL, NULL_VAL; cbn; lia. Defined.

Lemma edge_history_witness : exists p0 p, new_PMA S754_nan 5 = Some p0 /\ run_ops S754_nan p0 some_ops = Some ([true; false; true; false], p)
  /\ reads_as p [[(8, 3); (1, 9)]; [(2, 4)]; []; [(1, 6)]; []].
Proof. exact (edge_history S754_nan 5 some_ops (conj (Zle_bool_imp_le 5 5 eq_refl) eq_refl) some_ops_ok eq_refl). Defined.

(** C18: After any such history no leaf is full, and the elements of a leaf are its first cells:
    an insertion finds a free cell in the leaf it shifts. *)
Theorem history_packed unset n os : 5 <= n < 2 ^ 30 -> ops_ok (Z.to_nat n) (repeat [] (Z.to_nat n)) os -> n + Z.of_nat (ops_size os) + 1 < 2 ^ 31 ->
  exists p0 bs p, new_PMA unset n = Some p0 /\ run_ops unset p0 os = Some (bs, p) /\ leaves_packed p.
Proof.
  intros Hn Ho Hsz. destruct (new_PMA_keeps unset n (ops_size os + 0) ltac:(lia) ltac:(lia)) as (p0 & E & Hk).
  destruct (keeps_ops unset os p0 _ _ 0 Hk Ho ltac:(lia)) as (p & R & Hk' & _). eauto 7 using stores_packed.
Qed.

Lemma history_packed_witness : exists p0 bs p, new_PMA S754_nan 5 = Some p0 /\ run_ops S754_nan p0 some_ops = Some (bs, p) /\ leaves_packed p.
Proof. exact (history_packed S754_nan 5 some_ops (conj (Zle_bool_imp_le 5 5 eq_refl) eq_refl) some_ops_ok eq_refl). Defined.

(** The last vertex is different: no sentinel follows its edges, a search drifts into the
    empty leaves, and of two edges that a search and the list of all edges still find, the
    iteration misses one. *)
Example last_vertex_loses_edges :
  (let? p := new_PMA S754_nan 16 in
   let? (b1, p) := add_edge_update p 15 1 1 in
   let? (b2, p) := add_edge_update p 15 2 1 in
   let? (v, p) := find_value p 15 2 in
   let? es := iterate p 15 in
   let? all := get_edges p in
   Some (b1, b2, v, num_edges p, all, es)) = Some (true, true, 1, 2, [(15, 1, 1); (15, 2, 1)], [mk_edge 1 1]).
Proof. vm_compute. reflexivity. Qed.
